(* ===== verification/_CoqProject ===== *)
-Q . S2P
Prelude.v
Text.v
Errors.v
Headers.v
HeadersSpec.v
Parser.v
BodyReader.v
BodyReaderSafety.v
BodyDecode.v
BodySpec.v
BodyFraming.v
BodySteady.v
BodyWriter.v
BodyWriterSpec.v
Framing.v
FramingSpec.v
HeaderWriter.v
LinkedList.v
LinkedListSpec.v
Lru.v
LruSpec.v
Limits.v
LimitsSpec.v
H1Server.v
H1ServerSpec.v
H1Client.v
H1ClientSpec.v
Range.v
RangeSpec.v
RangeFieldSpec.v
Conditional.v
ConditionalSpec.v
Ketama.v
KetamaSpec.v
Selection.v
SelectionSpec.v
CacheControl.v
CacheControlSpec.v
CacheMeta.v
CacheMetaSpec.v
CacheKey.v
HttpCache.v
HttpCacheSpec.v
HttpCachePermits.v
Storage.v
StorageSpec.v
ServeCache.v
ServeCacheSpec.v
ProxyCache.v
ProxyCacheSpec.v
CacheLock.v
CacheLockSpec.v
Backends.v
BackendsSpec.v
Interleave.v
Pool.v
PoolSpec.v
PoolConcurrent.v
UpstreamRequest.v
UpstreamRequestSpec.v
H1Upstream.v
H1UpstreamSpec.v
RequestFlow.v
RequestFlowSpec.v
CacheFill.v
CacheFillSpec.v
H1Downstream.v
H1DownstreamSpec.v
Eviction.v
EvictionSharded.v
EvictionSpec.v
Predictor.v
PredictorSpec.v
TinyUfo.v
TinyUfoSpec.v
MemoryCache.v
MemoryCacheSpec.v
