(* ===== verification/Prelude.v ===== *)
(** * A verification library for Pingora

    Pingora is a framework for HTTP proxies.  Its crates, as far as they are
    modelled here, and how they fit together:

    - [pingora-error]: the error values every fallible function returns;
    - [pingora-core], HTTP/1: a body reader that cuts one message body out of
      the bytes of a connection and keeps what follows it, and a body writer
      that frames a body, both usable from tasks that are cancelled at any
      [.await];
    - [pingora-lru]: the eviction order of the caches, a sharded table whose
      shards are a hash table over an arena-allocated doubly linked list;
    - [pingora-limits]: counters for rate limiting;
    - [pingora-ketama] and the selection part of [pingora-load-balancing]: the
      choice of an upstream server for a request;
    - [pingora-cache]: the state machine of one request's use of the cache, with
      the decisions it rests on (Cache-Control, metadata, keys, variance), the
      lock that lets one request fill an entry while others wait, and the memory
      store;
    - [pingora-proxy]: the cache lookup of a proxied request, which drives that
      state machine, the serving of a cached body and the range filter it goes
      through; the processing of a request with its retries; the request head sent
      upstream and both halves of the exchange with an HTTP/1 origin, with the
      filling of the cache from its response;
    - [tinyufo] and [pingora-memory-cache]: a cache by frequency and recency, values
      with a time to live in it, and lookups that fill it for all who wait;
    - [pingora-pool]: the pool of idle connections, shared by threads;
    - the other half of [pingora-load-balancing]: the registry of health checks
      and the views of the backends that share it;
    - [pingora-http], [pingora-http-parser] and the HTTP/1 server and client
      sessions of [pingora-core]: headers with their spelling, the parse of a
      head under a limit, the framing it announces, and the sessions that read
      and write messages and hand the connection to the next one.

    ** Files

    - [Prelude] (this file): machine integers, bytes, hexadecimal text, slices,
      the effect monad [M] with its weakest preconditions;
    - [Errors]: [src/pingora-error/src/lib.rs];
    - [BodyReader]: [BodyReader] of [src/pingora-core/src/protocols/http/v1/body.rs]
      and [BufRef] of [src/pingora-core/src/utils/mod.rs]; [BodyReaderSafety] is
      its invariant, [BodyDecode] the effect of each step on the message left to
      read, [BodySpec] the theorems;
    - [BodyWriter]: [BodyWriter] of the same file, its async and its task
      interface; [BodyWriterSpec] the abstract effect of a write and the theorems;
    - [LinkedList], [LinkedListSpec]: [src/pingora-lru/src/linked_list.rs];
    - [Lru], [LruSpec]: [src/pingora-lru/src/lib.rs];
    - [Limits], [LimitsSpec]: [src/pingora-limits/src/];
    - [Ketama], [KetamaSpec]: [src/pingora-ketama/src/lib.rs];
    - [Selection], [SelectionSpec]: [src/pingora-load-balancing/src/selection/] and
      the selection loop of [src/pingora-load-balancing/src/lib.rs];
    - [CacheControl], [CacheControlSpec]: [src/pingora-cache/src/cache_control.rs];
    - [CacheMeta], [CacheMetaSpec]: [src/pingora-cache/src/filters.rs], [meta.rs],
      [variance.rs] and [max_file_size.rs] beside it; [CacheKey]: [key.rs];
    - [HttpCache]: [HttpCache] of [src/pingora-cache/src/lib.rs]; [HttpCacheSpec] the
      typestate and panics of its methods, [HttpCachePermits] the account of
      write permits;
    - [Storage], [StorageSpec]: [MemCache] of [src/pingora-cache/src/memory.rs] and the
      interface of a body reader, [HandleHit] of [storage.rs];
    - [ProxyCache], [ProxyCacheSpec]: the lookup of [src/pingora-proxy/src/proxy_cache.rs];
      [Range], [RangeSpec], [RangeFieldSpec]: its module [range_filter];
      [ServeCache], [ServeCacheSpec]: its [ServeFromCache];
    - [UpstreamRequest], [UpstreamRequestSpec]: the sanitizing and the authority of
      [proxy_common.rs] there, the policy of [src/pingora-core/src/upstreams/peer.rs]
      and the first phase of [proxy_1to1] of [proxy_h1.rs], as built without the
      feature [early_body_buffer];
    - [H1Upstream], [H1UpstreamSpec]: [proxy_handle_upstream] and [send_body_to1] of
      [proxy_h1.rs], on the client session of [H1Client]; an event is the
      completion of a branch of its [select!], and the pipes end at the other half;
    - [RequestFlow], [RequestFlowSpec]: [process_request] of [lib.rs] there with what
      it is made of, and the default error policy of [proxy_trait.rs]; callbacks and
      the other parts are an interface, the calls made are recorded in order;
    - [CacheFill], [CacheFillSpec]: the filling of the cache from an upstream response,
      the answer of an origin to a revalidation and the use of a stale entry on an
      error, of [proxy_cache.rs], on the state machine of [HttpCache];
    - [H1Downstream], [H1DownstreamSpec]: [proxy_handle_downstream] and the filters of a
      response of [proxy_h1.rs], with the state machines of [proxy_common.rs] and the
      cancellation state of [src/pingora-cache/src/fill_cancellation.rs]; an event is
      the completion of a branch of its [select!]; custom messages and the features
      [early_body_buffer] and [upstream_modules] are left out;
    - [Eviction], [EvictionSharded], [EvictionSpec]: the managers of
      [src/pingora-cache/src/eviction/]; [Predictor], [PredictorSpec]:
      [src/pingora-cache/src/predictor.rs] and the sharded LRU of [hashtable.rs];
    - [TinyUfo], [TinyUfoSpec]: [src/tinyufo/src/]; [MemoryCache], [MemoryCacheSpec]:
      [src/pingora-memory-cache/src/], on the interface [NodeStore] of a store, which
      [MemoryCacheSpec.ufo_store] shows TinyUFO to implement;
    - [Interleave]: programs of atomic steps and their interleavings; [Pool],
      [PoolSpec], [PoolConcurrent]: [src/pingora-pool/src/];
    - [CacheLock], [CacheLockSpec]: [src/pingora-cache/src/lock.rs];
    - [Backends], [BackendsSpec]: [HealthRegistry], [Backends] and the update of
      [LoadBalancer] of [src/pingora-load-balancing/src/lib.rs], [Health] of
      [health_check.rs];
    - [Text]: what the code uses of the standard library on bytes and text;
    - [Headers], [HeadersSpec]: [src/pingora-http/src/]; [Parser]:
      [src/pingora-http-parser/src/];
    - [Framing], [FramingSpec]: [common.rs] of
      [src/pingora-core/src/protocols/http/v1/] and [authority.rs] above it;
      [HeaderWriter]: [header.rs] there;
    - [H1Server], [H1ServerSpec]: [HttpSession] of [server.rs] there, and
      [body_buffer.rs]; [H1Client], [H1ClientSpec]: [HttpSession] of [client.rs];
      [BodyFraming], [BodySteady]: what both need of the body reader (the
      framing of a session against the mode of its reader, and that reading on
      is independent of how the bytes arrive);
    - [Conditional], [ConditionalSpec]: [conditional_filter.rs], [date.rs] and
      [error_resp.rs] of [src/pingora-core/src/protocols/http/];

    Definitions have the names of the functions they translate, with a prefix
    where two types have a method of one name.

    ** How the code is represented

    A Rust struct is a [Record] and an enum an [Inductive]; a method that
    mutates [self] takes and returns the record, or runs in the monad [M], whose
    outcomes are a value, an error, a cancelled future and a panic.  A [usize]
    or [u64] is a [Z] whose additions and subtractions wrap at 64 bits, as in the
    release profile; [isize] and [u32] likewise; [f64] is the binary64 of the
    Standard Library's [SpecFloat].  A stream is the list of what its polls will
    give; a poll that is pending is one that returns nothing yet, and a future
    dropped there leaves the state it has.  Where threads share state (the
    estimator, the rate), their atomic accesses are steps that interleave in any
    order; a method that runs under a lock is one step.  Hash functions, random
    numbers, the parsers of [httparse], the maps and URIs of the [http] crate, CRC-32 and sorting routines are
    parameters, with the documented properties the code relies on as
    hypotheses, and instances of them in the witnesses.

    ** What the theorems show

    - Bodies: from every reachable state, on every stream, the reader neither
      panics nor returns bytes outside its buffer; a well-formed message is
      decoded exactly, in any fragmentation and with reads dropped at any
      [.await], and the bytes after it are kept.  The writer's task interface
      puts on the wire what its async interface does, however often a poll is
      pending or dropped; a written body is read back.
    - LRU: the arena list implements a sequence, a shard implements an LRU
      order, the global counters are the sums over the entries, eviction ends
      within the limits.
    - Counting: the sketch never underestimates and is insensitive to the
      interleaving of its updates; guards balance; [Rate] implements two windows
      for one caller at a time, and does not for racing threads.
    - Selection: a ring look-up gives the clockwise successor, keys move only
      with their servers, searches reach every server, round robin is fair.
    - Cache policy: a Cache-Control text is parsed into the directives it is
      written from; a response is cached exactly when the policy says so, for
      exactly the time it says; the key of a variance identifies the variant.
    - Cache state machine: which fields are set in which phase, which calls
      panic, and that every write permit is settled once; the lookup loop of the
      proxy calls it only in phases that do not panic and ends.
    - Cache lock: one writer per key where release is atomic, two where its two
      steps are separated; publications reach the readers they concern.
    - Memory store and serving: a reader of a body in progress sees a prefix of
      it and an end only where it ends; what is served from the cache, seeking
      or not, is the reply to the request's ranges; a complete body is served to
      its end.
    - Ranges: which ranges a field selects, and that the body sent is the one
      the reply's header announces.
    - Backends: what is ready after an update, what the registry checks, and
      how check results become health.
    - Headers: the two maps of a header stay in step, so the wire has every
      value with its spelling; a value cannot end its line; a target is kept.
    - Requests and responses: an accepted request has one authority and one
      framing; a body ends exactly where the framing says, and the connection is
      handed on at that byte, in any fragmentation and with pipelined requests;
      likewise for the responses of an origin.
    - Upstream requests: which fields sanitizing takes out, that one authority
      goes upstream, and one framing whatever the application's filter writes.
    - Upstream half: for every order of events a connection is reused only after a
      whole request and a whole response, and the response is relayed exactly.
    - Cache fill: a response is committed to the cache only after all of it was
      written and without an error, and a stored response answers only as the
      policy of the application and the state of the exchange allow.
    - Downstream half: whatever the events, the tasks of a response go out in the
      order they came in, and the client's connection is handed on only after a
      whole request and a whole response.
    - Request processing: a request is logged once and its error reported once,
      attempts are bounded and retried only as errors allow, what must not be
      replayed is sent once, and processing returns without a panic.
    - Eviction: a manager counts exactly what it tracks, evicts the least recently
      used entries and no more than its limits ask for, and is the same after it was
      saved and loaded.  Predictor: a prediction repeats the last mark of a key, for
      as long as its shard has room to remember it.
    - TinyUFO: it is a map from which items leave only by being returned, its loops
      end, and its account of keys and weights is exact unless a key is put again
      while a queue has it from before its removal.
    - Read-through cache: in every order of steps one lookup per key holds the lock
      others wait for, no lock outlives its owner, and values are those looked up.
    - Connection pool: run alone, its operations refine a table of idle
      connections in order of use; under every interleaving of threads no
      connection is duplicated, and none leaves but by a return or an eviction.
    - Conditional requests: the search for an entity tag is exact on lists in
      the grammar of RFC 9110.

    Parameters of these parts: the decimal digits of a regular expression, the
    random boundary of a multipart body, the choice of a streaming write, the
    serialization of metadata, the date formats of [httpdate] and [chrono], the
    bounded queue, LRU and concurrent map of the pool, and the application's
    filter of the upstream request.
    The loop that serves a body takes at most [body_rounds] rounds between two
    tasks, which the theorem on the memory store shows to be enough.
    The loops of TinyUFO have a round for each key of the small queue and four for
    each of the main queue, which the theorem on its return shows to be enough.
    In the pool, a section under one guard of the concurrent map and the loop of
    an eviction are one step each; the lock of the hot queue, which only
    excludes interleavings, is left out; the eviction loop has as fuel the
    number of connections, one of which each round takes.

    ** Fuel

    Loops that are not structural take fuel, and the theorems show that the fuel
    given is enough: the trailer scan [2 * length + 2] rounds, decoding a message
    one round per byte and poll, a task one poll more than the events of its
    stream, eviction one round more than the entries, binary search the length
    of the ring, the unique iterator one round more than its bound, the directives
    of a text its length, the cache lookup its retry limit and two rounds more, a
    publication one round more than the waiters; a head is read in two rounds more
    than the reads of its stream, a body collected as it is decoded.

    ** Not modelled

    Sockets, TLS, HTTP/2, the server and service runtime, daemonization,
    configuration files, metrics and logging: they are calls into the operating
    system or other libraries.  Capacities of buffers and maps have no
    observable effect here.  Error values keep type, source, retry flag, cause
    and context; backtraces and log lines are left out.
    Beyond that, what is left for later is listed with the components: the other
    upstream protocols of the proxy, its answer to a hit without an upstream, and
    the asynchronous LRU with its eviction manager.
*)

From stdpp Require Import base list numbers strings.
From Stdlib Require Import ZArith Lia.
From Stdlib Require Strings.Byte.

#[export] Set Default Goal Selector "!".

(** ** Notations of the development *)

Declare Scope pingora_scope.
Delimit Scope pingora_scope with pingora.

(** ** Machine integers

    A [usize] (64-bit target) is a [Z] in [0, 2^64).  Rust's [+] and [-] on it
    wrap around in the release profile ([Cargo.toml] does not turn overflow
    checks on), so that is how they are written here. *)

Definition usize_mod : Z := 2 ^ 64.
Definition usize_max : Z := usize_mod - 1.
Definition wadd (a b : Z) : Z := (a + b) mod usize_mod.
Definition wsub (a b : Z) : Z := (a - b) mod usize_mod.
Definition checked_add (a b : Z) : option Z :=
  if (a + b <? usize_mod)%Z then Some (a + b)%Z else None.
Definition saturating_sub (a b : Z) : Z := Z.max 0 (a - b).
Definition saturating_add (a b : Z) : Z := Z.min usize_max (a + b).

Definition is_usize (z : Z) : Prop := (0 <= z < usize_mod)%Z.

Lemma usize_mod_val : usize_mod = 18446744073709551616%Z.
Proof. reflexivity. Qed.

(** [uz]: [lia] after exposing the width and every range hypothesis. *)
Ltac uz :=
  unfold is_usize, saturating_sub, saturating_add, usize_max in *;
  rewrite ?usize_mod_val in *; lia.

Lemma wadd_small a b :
  (0 <= a)%Z -> (0 <= b)%Z -> (a + b < usize_mod)%Z -> wadd a b = (a + b)%Z.
Proof. intros. unfold wadd. apply Z.mod_small. lia. Qed.

Lemma wsub_small a b : (b <= a)%Z -> (a - b < usize_mod)%Z -> wsub a b = (a - b)%Z.
Proof. intros. unfold wsub. apply Z.mod_small. lia. Qed.

Lemma wadd_usize a b : is_usize (wadd a b).
Proof. unfold is_usize, wadd. apply Z.mod_pos_bound. reflexivity. Qed.

Lemma wsub_usize a b : is_usize (wsub a b).
Proof. unfold is_usize, wsub. apply Z.mod_pos_bound. reflexivity. Qed.

Lemma checked_add_Some a b c :
  checked_add a b = Some c <-> (c = a + b /\ a + b < usize_mod)%Z.
Proof.
  unfold checked_add. destruct (Z.ltb_spec (a + b) usize_mod); split.
  - intros [= <-]. lia.
  - intros [-> _]. done.
  - done.
  - lia.
Qed.

(** ** Bytes and byte buffers *)

Abbreviation byte := Byte.byte.

#[export] Instance byte_eq_decision : EqDecision byte := Byte.byte_eq_dec.

(** The number a byte stands for. *)
Definition byte_val (b : byte) : Z := Z.of_N (Byte.to_N b).

Lemma byte_val_range b : (0 <= byte_val b < 256)%Z.
Proof. unfold byte_val. pose proof (Byte.to_N_bounded b). lia. Qed.

Lemma byte_val_inj a b : byte_val a = byte_val b -> a = b.
Proof.
  unfold byte_val. intros Heq. assert (Byte.to_N a = Byte.to_N b) as Hn by lia.
  pose proof (Byte.of_to_N a). pose proof (Byte.of_to_N b). congruence.
Qed.

(** A string literal [b"..."]. *)
Definition bytes_of (s : string) : list byte := String.list_byte_of_string s.

Definition CR : byte := Byte.x0d.
Definition LF : byte := Byte.x0a.
Definition CRLF : list byte := [CR; LF].

(** ** Hexadecimal formatting *)

Local Open Scope Z_scope.

Definition hex_digit (d : Z) : byte :=
  nth (Z.to_nat d)
    [Byte.x30; Byte.x31; Byte.x32; Byte.x33; Byte.x34; Byte.x35; Byte.x36; Byte.x37;
     Byte.x38; Byte.x39; Byte.x41; Byte.x42; Byte.x43; Byte.x44; Byte.x45; Byte.x46] Byte.x30.

(** [{:X}] of a [usize]: sixteen digits are enough. *)
Fixpoint hex_go (fuel : nat) (n : Z) : list byte :=
  match fuel with
  | O => []
  | S fuel => if n <? 16 then [hex_digit n] else hex_go fuel (n / 16) ++ [hex_digit (n mod 16)]
  end.
Definition hex (n : Z) : list byte := hex_go 16 n.

(** [format!("{:X}\r\n", n)] *)
Definition hex_line (n : Z) : list byte := hex n ++ CRLF.

Local Close Scope Z_scope.

Section buffers.
Context {A : Type}.
Implicit Types (l : list A).

(** [Vec::len], slicing by [usize] indices: a slice whose bounds are crossed or
    run past the end panics ([None]). *)
Definition zlen l : Z := Z.of_nat (length l).
Definition ztake (n : Z) l : list A := take (Z.to_nat n) l.
Definition zdrop (n : Z) l : list A := drop (Z.to_nat n) l.
Definition slice l (a b : Z) : option (list A) :=
  if ((0 <=? a) && (a <=? b) && (b <=? zlen l))%Z
  then Some (ztake (b - a) (zdrop a l)) else None.

Lemma zlen_nonneg l : (0 <= zlen l)%Z.
Proof. unfold zlen. lia. Qed.

Lemma zlen_app l1 l2 : zlen (l1 ++ l2) = (zlen l1 + zlen l2)%Z.
Proof. unfold zlen. rewrite length_app. lia. Qed.

Lemma zlen_nil : zlen ([] : list A) = 0%Z.
Proof. done. Qed.

Lemma zlen_cons x l : zlen (x :: l) = (1 + zlen l)%Z.
Proof. unfold zlen. simpl. lia. Qed.

Lemma zlen_zero l : zlen l = 0%Z -> l = [].
Proof. destruct l; [done|]. rewrite zlen_cons. pose proof (zlen_nonneg l). lia. Qed.

Lemma zlen_ztake n l : (0 <= n)%Z -> zlen (ztake n l) = Z.min n (zlen l).
Proof. intros. unfold zlen, ztake. rewrite length_take. lia. Qed.

Lemma zlen_zdrop n l : (0 <= n)%Z -> zlen (zdrop n l) = Z.max 0 (zlen l - n).
Proof. intros. unfold zlen, zdrop. rewrite length_drop. lia. Qed.

Lemma ztake_zdrop n l : ztake n l ++ zdrop n l = l.
Proof. apply take_drop. Qed.

Lemma ztake_ge n l : (zlen l <= n)%Z -> ztake n l = l.
Proof. intros. apply take_ge. unfold zlen in *. lia. Qed.

Lemma zdrop_ge n l : (zlen l <= n)%Z -> zdrop n l = [].
Proof. intros. apply drop_ge. unfold zlen in *. lia. Qed.

Lemma zdrop_0 l : zdrop 0 l = l.
Proof. done. Qed.

Lemma ztake_0 l : ztake 0 l = [].
Proof. done. Qed.

Lemma ztake_app_l n l1 l2 : (n <= zlen l1)%Z -> ztake n (l1 ++ l2) = ztake n l1.
Proof. intros. apply take_app_le. unfold zlen in *. lia. Qed.

Lemma ztake_app_r n l1 l2 :
  (zlen l1 <= n)%Z -> ztake n (l1 ++ l2) = l1 ++ ztake (n - zlen l1) l2.
Proof.
  intros. unfold ztake, zlen in *. rewrite take_app, take_ge by lia.
  do 2 f_equal. lia.
Qed.

Lemma zdrop_app_r n l1 l2 :
  (zlen l1 <= n)%Z -> zdrop n (l1 ++ l2) = zdrop (n - zlen l1) l2.
Proof.
  intros. unfold zdrop, zlen in *. rewrite drop_app, drop_ge by lia. simpl.
  f_equal. lia.
Qed.

Lemma zdrop_app_l n l1 l2 : (n <= zlen l1)%Z -> zdrop n (l1 ++ l2) = zdrop n l1 ++ l2.
Proof. intros. apply drop_app_le. unfold zlen in *. lia. Qed.

Lemma zdrop_zdrop n m l : (0 <= n)%Z -> (0 <= m)%Z -> zdrop n (zdrop m l) = zdrop (m + n) l.
Proof. intros. unfold zdrop. rewrite drop_drop. f_equal. lia. Qed.

Lemma ztake_app_exact l1 l2 : ztake (zlen l1) (l1 ++ l2) = l1.
Proof. rewrite ztake_app_l by lia. apply ztake_ge. lia. Qed.

Lemma zdrop_app_exact l1 l2 : zdrop (zlen l1) (l1 ++ l2) = l2.
Proof. rewrite zdrop_app_r by lia. rewrite Z.sub_diag. done. Qed.

Lemma prefix_split (b c head rest : list A) :
  b ++ c = head ++ rest -> ((zlen b < zlen head)%Z /\ b = ztake (zlen b) head) \/
  (exists extra, b = head ++ extra /\ extra ++ c = rest).
Proof.
  intros Heq. pose proof (zlen_nonneg b). destruct (Z.lt_ge_cases (zlen b) (zlen head)) as [Hlt|Hge].
  - left. split; [done|]. pose proof (f_equal (ztake (zlen b)) Heq) as Ht.
    rewrite ztake_app_exact, ztake_app_l in Ht by lia. done.
  - right. exists (zdrop (zlen head) b). pose proof (f_equal (ztake (zlen head)) Heq) as Ht.
    rewrite ztake_app_l, ztake_app_exact in Ht by lia.
    pose proof (f_equal (zdrop (zlen head)) Heq) as Hd.
    rewrite zdrop_app_l, zdrop_app_exact in Hd by lia. split; [|done].
    rewrite <- Ht at 1. by rewrite ztake_zdrop.
Qed.

Lemma slice_Some l a b :
  (0 <= a <= b)%Z -> (b <= zlen l)%Z -> slice l a b = Some (ztake (b - a) (zdrop a l)).
Proof.
  intros. unfold slice.
  destruct (Z.leb_spec 0 a), (Z.leb_spec a b), (Z.leb_spec b (zlen l)); try lia. done.
Qed.

Lemma slice_length l a b s : slice l a b = Some s -> zlen s = (b - a)%Z.
Proof.
  unfold slice. destruct (Z.leb_spec 0 a), (Z.leb_spec a b), (Z.leb_spec b (zlen l));
    simpl; intros [=]; subst.
  rewrite zlen_ztake, zlen_zdrop by lia. lia.
Qed.

Lemma slice_app_Some l l' a b s : slice l a b = Some s -> slice (l ++ l') a b = Some s.
Proof.
  unfold slice. rewrite zlen_app. pose proof (zlen_nonneg l').
  destruct (Z.leb_spec 0 a), (Z.leb_spec a b), (Z.leb_spec b (zlen l)); simpl; try done.
  intros [= <-]. destruct (Z.leb_spec b (zlen l + zlen l')%Z); [|lia].
  rewrite zdrop_app_l, ztake_app_l by (rewrite ?zlen_zdrop; lia). done.
Qed.

Lemma slice_all l : slice l 0 (zlen l) = Some l.
Proof.
  rewrite slice_Some by (pose proof (zlen_nonneg l); lia).
  rewrite zdrop_0, ztake_ge by lia. done.
Qed.

Lemma slice_app_mid l1 l2 l3 :
  slice (l1 ++ l2 ++ l3) (zlen l1) (zlen l1 + zlen l2) = Some l2.
Proof.
  pose proof (zlen_nonneg l1). pose proof (zlen_nonneg l2). pose proof (zlen_nonneg l3).
  rewrite slice_Some; rewrite ?zlen_app; try lia.
  rewrite zdrop_app_exact. replace (zlen l1 + zlen l2 - zlen l1)%Z with (zlen l2) by lia.
  by rewrite ztake_app_exact.
Qed.

End buffers.

(** ** Effects

    A Rust method that mutates [self] (and the stream it is given) and may
    return an error, be dropped at an [.await] that is pending, or panic. *)

Inductive exec (S E A : Type) : Type :=
| Val (a : A) (s : S)        (** [Ok(a)] *)
| Fail (e : E) (s : S)       (** [Err(e)] *)
| Cancelled (s : S)          (** the future was dropped at an [.await] *)
| Panic.                     (** [panic!], a failed [assert!], a bad index *)
Arguments Val {S E A} a s.
Arguments Fail {S E A} e s.
Arguments Cancelled {S E A} s.
Arguments Panic {S E A}.

Definition M (S E A : Type) : Type := S -> exec S E A.

Definition ret {S E A} (a : A) : M S E A := fun s => Val a s.
Definition fail {S E A} (e : E) : M S E A := fun s => Fail e s.
Definition panic {S E A} : M S E A := fun _ => Panic.
Definition bind {S E A B} (m : M S E A) (k : A -> M S E B) : M S E B :=
  fun s => match m s with
           | Val a s' => k a s'
           | Fail e s' => Fail e s'
           | Cancelled s' => Cancelled s'
           | Panic => Panic
           end.
Definition get {S E} : M S E S := fun s => Val s s.
Definition modify {S E} (f : S -> S) : M S E unit := fun s => Val tt (f s).
(** [Option::unwrap]/[expect], a slice, [assert!]. *)
Definition unwrap {S E A} (o : option A) : M S E A :=
  match o with Some a => ret a | None => panic end.
Definition assert {S E} (b : bool) : M S E unit := if b then ret tt else panic.

Notation "'let!' x := c1 'in' c2" := (bind c1 (fun x => c2))
  (at level 10, x binder, c1 at level 200, c2 at level 200)
  : pingora_scope.
Notation "'do!' c1 ; c2" := (bind c1 (fun _ : unit => c2))
  (at level 10, c1 at level 200, c2 at level 200)
  : pingora_scope.

Open Scope pingora_scope.

(** ** Weakest preconditions

    [wp m Q Qe Qc s]: run from [s], [m] does not panic; a value it returns
    satisfies [Q], an error [Qe], and a cancelled run leaves a state in [Qc]. *)
Definition wp {S E A} (m : M S E A) (Q : A -> S -> Prop) (Qe : E -> S -> Prop)
    (Qc : S -> Prop) (s : S) : Prop :=
  match m s with
  | Val a s' => Q a s'
  | Fail e s' => Qe e s'
  | Cancelled s' => Qc s'
  | Panic => False
  end.

Section wp.
Context {S E : Type}.
Implicit Types (Qe : E -> S -> Prop) (Qc : S -> Prop).

Lemma wp_bind {A B} (m : M S E A) (k : A -> M S E B) Q Qe Qc s :
  wp m (fun a s' => wp (k a) Q Qe Qc s') Qe Qc s -> wp (bind m k) Q Qe Qc s.
Proof. unfold wp, bind. by destruct (m s). Qed.

Lemma wp_ret {A} (a : A) (Q : A -> S -> Prop) Qe Qc s : Q a s -> wp (ret a) Q Qe Qc s.
Proof. done. Qed.

Lemma wp_fail {A} e (Q : A -> S -> Prop) Qe Qc s : Qe e s -> wp (fail e) Q Qe Qc s.
Proof. done. Qed.

Lemma wp_modify f (Q : unit -> S -> Prop) Qe Qc s : Q tt (f s) -> wp (modify f) Q Qe Qc s.
Proof. done. Qed.

Lemma wp_unwrap {A} (o : option A) (a : A) (Q : A -> S -> Prop) Qe Qc s :
  o = Some a -> Q a s -> wp (unwrap o) Q Qe Qc s.
Proof. by intros ->. Qed.

Lemma wp_assert b (Q : unit -> S -> Prop) Qe Qc s :
  b = true -> Q tt s -> wp (assert b) Q Qe Qc s.
Proof. by intros ->. Qed.

Lemma wp_mono {A} (m : M S E A) (Q Q' : A -> S -> Prop) Qe Qe' Qc Qc' s :
  (forall a s', Q a s' -> Q' a s') -> (forall e s', Qe e s' -> Qe' e s') ->
  (forall s', Qc s' -> Qc' s') ->
  wp m Q Qe Qc s -> wp m Q' Qe' Qc' s.
Proof. unfold wp. destruct (m s); naive_solver. Qed.

Lemma wp_if {A} (b : bool) (m1 m2 : M S E A) Q Qe Qc s :
  (b = true -> wp m1 Q Qe Qc s) -> (b = false -> wp m2 Q Qe Qc s) ->
  wp (if b then m1 else m2) Q Qe Qc s.
Proof. destruct b; auto. Qed.

End wp.

(** One step of symbolic execution. *)
Ltac wp_step :=
  lazymatch goal with
  | |- wp (bind _ _) _ _ _ _ => apply wp_bind
  | |- wp (ret _) _ _ _ _ => apply wp_ret
  | |- wp (fail _) _ _ _ _ => apply wp_fail
  | |- wp (modify _) _ _ _ _ => apply wp_modify
  end.
