(* ===== verification/Text.v ===== *)
(** * Text on bytes

    What the HTTP code uses of Rust's standard library on byte slices and
    strings: ASCII case and white space, splitting, trimming, decimal numbers,
    UTF-8 validation and lossy decoding. *)

From stdpp Require Import base list numbers strings.
From Stdlib Require Import ZArith Lia.
From S2P Require Import Prelude.
Local Open Scope Z_scope.

(** ** ASCII *)

Definition in_range (a b : Z) (c : byte) : bool := (a <=? byte_val c) && (byte_val c <=? b).

Definition is_ascii_digit : byte -> bool := in_range 48 57.
Definition is_ascii_upper : byte -> bool := in_range 65 90.
Definition is_ascii_lower : byte -> bool := in_range 97 122.
Definition is_ascii_alphabetic (c : byte) : bool := is_ascii_upper c || is_ascii_lower c.
Definition is_ascii_alphanumeric (c : byte) : bool := is_ascii_alphabetic c || is_ascii_digit c.

(** [u8::is_ascii_whitespace]: SP, HT, LF, FF, CR. *)
Definition is_ascii_whitespace (c : byte) : bool :=
  bool_decide (c ∈ [Byte.x20; Byte.x09; Byte.x0a; Byte.x0c; Byte.x0d]).

Definition byte_of_val (v : Z) : byte := default Byte.x00 (Byte.of_N (Z.to_N v)).

Definition to_ascii_lowercase (c : byte) : byte :=
  if is_ascii_upper c then byte_of_val (byte_val c + 32) else c.

Definition lowercase (s : list byte) : list byte := map to_ascii_lowercase s.

Definition eq_ignore_ascii_case (a b : list byte) : bool :=
  bool_decide (lowercase a = lowercase b).

(** ** Searching, splitting, trimming *)

Fixpoint position (p : byte -> bool) (s : list byte) : option nat :=
  match s with
  | [] => None
  | c :: s => if p c then Some O else S <$> position p s
  end.

(** [<[u8]>::split]: always at least one piece. *)
Fixpoint split_at (p : byte -> bool) (s : list byte) : list (list byte) :=
  match s with
  | [] => [[]]
  | c :: s =>
      if p c then [] :: split_at p s
      else match split_at p s with
           | w :: ws => (c :: w) :: ws
           | [] => [[c]]
           end
  end.

Definition split_byte (b : byte) : list byte -> list (list byte) := split_at (fun c => bool_decide (c = b)).

Fixpoint drop_while (p : byte -> bool) (s : list byte) : list byte :=
  match s with
  | [] => []
  | c :: s' => if p c then drop_while p s' else s
  end.

Definition trim_ascii_start : list byte -> list byte := drop_while is_ascii_whitespace.
Definition trim_ascii_end (s : list byte) : list byte :=
  rev (drop_while is_ascii_whitespace (rev s)).
Definition trim_ascii (s : list byte) : list byte := trim_ascii_end (trim_ascii_start s).

(** The UTF-8 encodings of the characters with the property White_Space. *)
Definition white_space : list (list byte) :=
  map (fun c => [c]) [Byte.x09; Byte.x0a; Byte.x0b; Byte.x0c; Byte.x0d; Byte.x20] ++
  [[Byte.xc2; Byte.x85]; [Byte.xc2; Byte.xa0]; [Byte.xe1; Byte.x9a; Byte.x80]] ++
  map (fun c => [Byte.xe2; Byte.x80; c])
    [Byte.x80; Byte.x81; Byte.x82; Byte.x83; Byte.x84; Byte.x85; Byte.x86; Byte.x87; Byte.x88;
     Byte.x89; Byte.x8a; Byte.xa8; Byte.xa9; Byte.xaf] ++
  [[Byte.xe2; Byte.x81; Byte.x9f]; [Byte.xe3; Byte.x80; Byte.x80]].

Fixpoint strip_prefix (p s : list byte) : option (list byte) :=
  match p, s with
  | [], _ => Some s
  | a :: p, b :: s => if bool_decide (a = b) then strip_prefix p s else None
  | _ :: _, [] => None
  end.

Definition strip_one (ws : list (list byte)) (s : list byte) : option (list byte) :=
  foldr (fun w r => match strip_prefix w s with Some s' => Some s' | None => r end) None ws.

Fixpoint strip_all (ws : list (list byte)) (fuel : nat) (s : list byte) : list byte :=
  match fuel, strip_one ws s with
  | S fuel, Some s' => strip_all ws fuel s'
  | _, _ => s
  end.

(** [str::trim] of a valid UTF-8 string: every strip removes a byte, so as many
    rounds as there are bytes are enough. *)
Definition trim (s : list byte) : list byte :=
  let s := strip_all white_space (length s) s in
  rev (strip_all (map (@rev byte) white_space) (length s) (rev s)).

(** ** Decimal numbers *)

Definition digits_value (ds : list byte) : Z :=
  foldl (fun n d => n * 10 + (byte_val d - 48)) 0 ds.

Definition all_digits (ds : list byte) : bool := forallb is_ascii_digit ds.

(** [str::parse::<i64>]: an optional sign, at least one digit, no overflow. *)
Definition parse_i64 (s : list byte) : option Z :=
  let '(sign, ds) :=
    match s with
    | c :: ds => if bool_decide (c = Byte.x2d) then (-1, ds)
                 else if bool_decide (c = Byte.x2b) then (1, ds) else (1, s)
    | [] => (1, [])
    end in
  let n := sign * digits_value ds in
  if negb (bool_decide (ds = [])) && all_digits ds && (- 2 ^ 63 <=? n) && (n <? 2 ^ 63)
  then Some n else None.

(** The decimal text of a number of at most [fuel] digits. *)
Fixpoint decimal_go (fuel : nat) (n : Z) : list byte :=
  match fuel with
  | O => []
  | S fuel => (if n <? 10 then [] else decimal_go fuel (n / 10)) ++ [byte_of_val (48 + n mod 10)]
  end.

(** [{}] of a [usize]: twenty digits are enough. *)
Definition decimal (n : Z) : list byte := decimal_go 20 n.

(** ** UTF-8 *)

Definition is_cont : byte -> bool := in_range 128 191.

(** The second byte a lead byte admits, and how many continuation bytes follow
    it; [None] for a byte that leads nothing. *)
Definition lead (c : byte) : option ((byte -> bool) * nat) :=
  if in_range 194 223 c then Some (is_cont, 0%nat)
  else if in_range 224 224 c then Some (in_range 160 191, 1%nat)
  else if in_range 225 236 c then Some (is_cont, 1%nat)
  else if in_range 237 237 c then Some (in_range 128 159, 1%nat)
  else if in_range 238 239 c then Some (is_cont, 1%nat)
  else if in_range 240 240 c then Some (in_range 144 191, 2%nat)
  else if in_range 241 243 c then Some (is_cont, 2%nat)
  else if in_range 244 244 c then Some (in_range 128 143, 2%nat)
  else None.

(** How many of the next [n] bytes are continuation bytes before one is not. *)
Fixpoint conts (n : nat) (s : list byte) : nat :=
  match n, s with
  | S n, c :: s => if is_cont c then S (conts n s) else O
  | _, _ => O
  end.

(** The next character: the bytes of it that are there, and whether it is
    complete; an incomplete one is replaced by a single U+FFFD. *)
Definition utf8_char (s : list byte) : nat * bool :=
  match s with
  | [] => (0%nat, true)
  | c :: s' =>
      if in_range 0 127 c then (1%nat, true)
      else match lead c with
           | None => (1%nat, false)
           | Some (second, more) =>
               match s' with
               | c2 :: s'' =>
                   if second c2 then
                     let k := conts more s'' in
                     ((2 + k)%nat, bool_decide (k = more))
                   else (1%nat, false)
               | [] => (1%nat, false)
               end
           end
  end.

Fixpoint utf8_go (fuel : nat) (s : list byte) : list byte * bool :=
  match fuel, s with
  | S fuel, _ :: _ =>
      let '(n, ok) := utf8_char s in
      let '(rest, valid) := utf8_go fuel (drop n s) in
      ((if ok then take n s else [Byte.xef; Byte.xbf; Byte.xbd]) ++ rest, ok && valid)
  | _, _ => ([], true)
  end.

(** [str::from_utf8(s).is_ok()] and [String::from_utf8_lossy]. *)
Definition is_utf8 (s : list byte) : bool := (utf8_go (length s) s).2.
Definition from_utf8_lossy (s : list byte) : list byte := (utf8_go (length s) s).1.

(** ** Lemmas *)

Lemma position_None p s : position p s = None <-> Forall (fun c => p c = false) s.
Proof.
  induction s as [|c s IH]; simpl; [by split|]. destruct (p c) eqn:Hp.
  - split; [done|]. inversion 1; congruence.
  - rewrite fmap_None, IH. split; [by constructor|by inversion 1].
Qed.

Lemma position_Some p s i :
  position p s = Some i ->
  Forall (fun c => p c = false) (take i s) /\
  exists c, s = take i s ++ c :: drop (S i) s /\ p c = true.
Proof.
  revert i. induction s as [|c s IH]; intros i; simpl; [done|]. destruct (p c) eqn:Hp.
  - intros [= <-]. split; [constructor|]. by exists c.
  - intros (j & Hj & ->)%fmap_Some. destruct (IH j Hj) as (Hf & d & Hs & Hd).
    split; [by constructor|]. exists d. simpl. by rewrite <- Hs.
Qed.

Lemma drop_while_suffix p s : exists t, s = t ++ drop_while p s /\ Forall (fun c => p c = true) t.
Proof.
  induction s as [|c s (t & Ht & Hf)]; simpl; [by exists []|]. destruct (p c) eqn:Hp.
  - exists (c :: t). simpl. split; [by rewrite <- Ht|by constructor].
  - by exists [].
Qed.

Lemma drop_while_head p s : match drop_while p s with c :: _ => p c = false | [] => True end.
Proof. induction s as [|c s IH]; simpl; [done|]. by destruct (p c) eqn:Hp. Qed.

Lemma drop_while_id p s : match s with c :: _ => p c = false | [] => True end -> drop_while p s = s.
Proof. destruct s; simpl; [done|]. by intros ->. Qed.

Lemma trim_ascii_infix s : exists a b, s = a ++ trim_ascii s ++ b.
Proof.
  unfold trim_ascii, trim_ascii_end, trim_ascii_start.
  destruct (drop_while_suffix is_ascii_whitespace s) as (a & Ha & _).
  set (t := drop_while is_ascii_whitespace s) in *.
  destruct (drop_while_suffix is_ascii_whitespace (rev t)) as (b & Hb & _).
  exists a, (rev b). rewrite Ha at 1. f_equal. rewrite <- rev_app_distr, <- Hb. by rewrite rev_involutive.
Qed.

Lemma conts_length n s : (conts n s <= length s)%nat.
Proof. revert s. induction n; intros [|c s]; simpl; try lia. destruct (is_cont c); [|lia]. specialize (IHn s). lia. Qed.

Lemma utf8_char_length s : s <> [] -> (0 < (utf8_char s).1 <= length s)%nat.
Proof.
  destruct s as [|c s]; [done|]. intros _. simpl.
  destruct (in_range 0 127 c); simpl; [lia|].
  destruct (lead c) as [[second more]|]; simpl; [|lia].
  destruct s as [|c2 s]; simpl; [lia|]. destruct (second c2); simpl; [|lia].
  pose proof (conts_length more s). lia.
Qed.

(** A valid text is decoded to itself. *)
Lemma utf8_go_valid fuel s :
  (length s <= fuel)%nat -> (utf8_go fuel s).2 = true -> (utf8_go fuel s).1 = s.
Proof.
  revert s. induction fuel as [|fuel IH]; intros s Hlen; [by destruct s; [|simpl in Hlen; lia]|].
  destruct s as [|c s]; [done|]. pose proof (utf8_char_length (c :: s) ltac:(done)) as Hn.
  change (utf8_go (S fuel) (c :: s)) with
    (let '(n, ok) := utf8_char (c :: s) in
     let '(rest, valid) := utf8_go fuel (drop n (c :: s)) in
     ((if ok then take n (c :: s) else [Byte.xef; Byte.xbf; Byte.xbd]) ++ rest, ok && valid)).
  destruct (utf8_char (c :: s)) as [n ok]. simpl in Hn.
  specialize (IH (drop n (c :: s))). rewrite length_drop in IH. simpl length in IH, Hlen.
  destruct (utf8_go fuel _) as [rest valid]. simpl in *. destruct ok; [|done]. simpl. intros ->.
  rewrite IH by (done || lia). by rewrite take_drop.
Qed.

Lemma from_utf8_lossy_valid s : is_utf8 s = true -> from_utf8_lossy s = s.
Proof. apply utf8_go_valid. lia. Qed.

Create HintDb text.
#[export] Hint Resolve from_utf8_lossy_valid : text.

Lemma strip_prefix_app a b : strip_prefix a (a ++ b) = Some b.
Proof. induction a as [|x a IH]; simpl; [done|]. by rewrite bool_decide_true. Qed.

Lemma strip_prefix_spec p s r : strip_prefix p s = Some r -> s = p ++ r.
Proof.
  revert s. induction p as [|a p IH]; intros s; simpl; [by intros [= ->]|].
  destruct s as [|b s]; [done|]. case_bool_decide; [|done]. subst. by intros ->%IH.
Qed.
