(* ===== verification/Errors.v ===== *)
(** * pingora-error

    The error value every other component returns: [ErrorType], [ErrorSource],
    [RetryType], the [Error] struct with its chain of causes, the constructors
    of [impl Error], the walk to the root cause and the chain printer.
    Source: [src/pingora-error/src/lib.rs].

    A cause is either another boxed [Error] (what [downcast_ref::<BError>]
    recovers) or a foreign error, of which only the displayed text is kept. *)

From S2P Require Import Prelude.
From stdpp Require Import base strings.

Inductive ErrorSource := Upstream | Downstream | Internal | Unset.

Inductive RetryType := Decided (b : bool) | ReusedOnly.

Inductive ErrorType :=
| ConnectTimedout | ConnectRefused | ConnectNoRoute | TLSWantX509Lookup
| TLSHandshakeFailure | TLSHandshakeTimedout | InvalidCert | HandshakeError
| ConnectError | BindError | AcceptError | SocketError | ConnectProxyFailure
| InvalidHTTPHeader | H1Error | H2Error | H2Downgrade | InvalidH2
| ReadError | WriteError | ReadTimedout | WriteTimedout | ConnectionClosed
| HTTPStatus (code : Z)
| FileOpenError | FileCreateError | FileReadError | FileWriteError
| InternalError | UnknownError
| Custom (name : string)
| CustomCode (name : string) (code : Z).

#[export] Instance ErrorSource_eq_dec : EqDecision ErrorSource.
Proof. solve_decision. Defined.
#[export] Instance RetryType_eq_dec : EqDecision RetryType.
Proof. solve_decision. Defined.
#[export] Instance ErrorType_eq_dec : EqDecision ErrorType.
Proof. solve_decision. Defined.

Inductive Error :=
| mkError (etype : ErrorType) (esource : ErrorSource) (retry : RetryType)
    (cause : option Cause) (context : option string)
with Cause :=
| BErr (e : Error)
| Foreign (display : string).

Definition etype (e : Error) : ErrorType := let 'mkError t _ _ _ _ := e in t.
Definition esource (e : Error) : ErrorSource := let 'mkError _ s _ _ _ := e in s.
Definition eretry (e : Error) : RetryType := let 'mkError _ _ r _ _ := e in r.
Definition ecause (e : Error) : option Cause := let 'mkError _ _ _ c _ := e in c.
Definition econtext (e : Error) : option string := let 'mkError _ _ _ _ c := e in c.

(** ** RetryType *)

Definition decide_reuse (r : RetryType) (reused : bool) : RetryType :=
  match r with ReusedOnly => Decided reused | _ => r end.

(** [None]: the method panics with "Retry is not decided". *)
Definition retry (r : RetryType) : option bool :=
  match r with Decided b => Some b | ReusedOnly => None end.

(** ** Display names *)

Definition source_as_str (s : ErrorSource) : string :=
  match s with
  | Upstream => "Upstream" | Downstream => "Downstream" | Internal => "Internal"
  | Unset => String.EmptyString
  end.

Definition type_as_str (t : ErrorType) : string :=
  match t with
  | ConnectTimedout => "ConnectTimedout" | ConnectRefused => "ConnectRefused"
  | ConnectNoRoute => "ConnectNoRoute" | ConnectProxyFailure => "ConnectProxyFailure"
  | TLSWantX509Lookup => "TLSWantX509Lookup" | TLSHandshakeFailure => "TLSHandshakeFailure"
  | TLSHandshakeTimedout => "TLSHandshakeTimedout" | InvalidCert => "InvalidCert"
  | HandshakeError => "HandshakeError" | ConnectError => "ConnectError"
  | BindError => "BindError" | AcceptError => "AcceptError" | SocketError => "SocketError"
  | InvalidHTTPHeader => "InvalidHTTPHeader" | H1Error => "H1Error" | H2Error => "H2Error"
  | InvalidH2 => "InvalidH2" | H2Downgrade => "H2Downgrade" | ReadError => "ReadError"
  | WriteError => "WriteError" | ReadTimedout => "ReadTimedout"
  | WriteTimedout => "WriteTimedout" | ConnectionClosed => "ConnectionClosed"
  | FileOpenError => "FileOpenError" | FileCreateError => "FileCreateError"
  | FileReadError => "FileReadError" | FileWriteError => "FileWriteError"
  | HTTPStatus _ => "HTTPStatus" | InternalError => "InternalError"
  | UnknownError => "UnknownError"
  | Custom s => s
  | CustomCode s _ => s
  end.

(** ** Constructors *)

Definition create (t : ErrorType) (s : ErrorSource) (context : option string)
    (cause : option Cause) : Error :=
  let retry :=
    match cause with
    | Some (BErr e) => eretry e
    | Some (Foreign _) => Decided false
    | None => Decided false
    end in
  mkError t s retry cause context.

Definition do_new (t : ErrorType) (s : ErrorSource) : Error := create t s None None.
Definition new (t : ErrorType) : Error := do_new t Unset.
Definition because (t : ErrorType) (context : string) (cause : Cause) : Error :=
  create t Unset (Some context) (Some cause).
Definition explain (t : ErrorType) (context : string) : Error :=
  create t Unset (Some context) None.

(** [as_up], [as_down], [as_in] and their [into_*] forms. *)
Definition set_source (s : ErrorSource) (e : Error) : Error :=
  let 'mkError t _ r c x := e in mkError t s r c x.
Definition as_up : Error -> Error := set_source Upstream.
Definition as_down : Error -> Error := set_source Downstream.
Definition as_in : Error -> Error := set_source Internal.

Definition set_retry (b : bool) (e : Error) : Error :=
  let 'mkError t s _ c x := e in mkError t s (Decided b) c x.
Definition set_cause (c : Cause) (e : Error) : Error :=
  let 'mkError t s r _ x := e in mkError t s r (Some c) x.
Definition set_context (x : string) (e : Error) : Error :=
  let 'mkError t s r c _ := e in mkError t s r c (Some x).

Definition more_context (self : Error) (context : string) : Error :=
  let 'mkError t _ _ c x := because (etype self) context (BErr self) in
  mkError t (esource self) (eretry self) c x.

(** ** Walking the chain *)

Fixpoint root_etype (e : Error) : ErrorType :=
  match e with
  | mkError t _ _ (Some (BErr e')) _ => root_etype e'
  | mkError t _ _ _ _ => t
  end.

(** [root_cause]: the innermost boxed error, or the foreign error below it. *)
Fixpoint root_cause (e : Error) : Cause :=
  match e with
  | mkError _ _ _ (Some (BErr e')) _ => root_cause e'
  | mkError _ _ _ (Some (Foreign d)) _ => Foreign d
  | mkError _ _ _ None _ => BErr e
  end.

(** [chain_display]: source and type are printed only where they differ from
    the previous hop of the chain. *)
Fixpoint chain_display (previous : option (ErrorSource * ErrorType)) (e : Error) : string :=
  match e with
  | mkError t s _ cause context =>
      (if bool_decide (fst <$> previous = Some s) then String.EmptyString
       else source_as_str s)
      +:+ (if bool_decide (snd <$> previous = Some t) then String.EmptyString
           else " " +:+ type_as_str t)
      +:+ (match context with Some c => " context: " +:+ c | None => String.EmptyString end)
      +:+ (match cause with
           | Some (BErr e') => " cause: " +:+ chain_display (Some (s, t)) e'
           | Some (Foreign d) => " cause: " +:+ d
           | None => String.EmptyString
           end)
  end.

Definition display (e : Error) : string := chain_display None e.

(** ** Helper traits on [Result] and [Option] *)

Definition err_context {T} (r : T + Error) (context : string) : T + Error :=
  match r with inl t => inl t | inr e => inr (more_context e context) end.

Definition or_err {T} (r : T + Cause) (t : ErrorType) (context : string) : T + Error :=
  match r with inl x => inl x | inr e => inr (because t context e) end.

Definition explain_err {T} (r : T + Cause) (t : ErrorType) (exp : Cause -> string)
    : T + Error :=
  match r with inl x => inl x | inr e => inr (explain t (exp e)) end.

Definition or_fail {T} (r : T + Cause) : T + Error :=
  match r with inl x => inl x | inr e => inr (because InternalError String.EmptyString e) end.

Definition option_or_err {T} (o : option T) (t : ErrorType) (context : string) : T + Error :=
  match o with Some x => inl x | None => inr (explain t context) end.

(** ** Properties *)

(** The boxed errors of a chain, outermost first. *)
Fixpoint chain (e : Error) : list Error :=
  e :: match e with
       | mkError _ _ _ (Some (BErr e')) _ => chain e'
       | _ => []
       end.

(** [e] wrapped by [more_context] at each level it passes through. *)
Definition wrap (ctxs : list string) (e : Error) : Error := foldl more_context e ctxs.

Lemma more_context_fields e c :
  etype (more_context e c) = etype e /\ esource (more_context e c) = esource e /\
  eretry (more_context e c) = eretry e /\ root_etype (more_context e c) = root_etype e /\
  root_cause (more_context e c) = root_cause e /\
  chain (more_context e c) = more_context e c :: chain e.
Proof. destruct e as [t s r [[e'|d]|] x]; done. Qed.

(** adding context to an error at any number of levels keeps everything the
    proxy decides on - type, source, retry flag, root type and root cause - and
    adds exactly one link to the chain each time. *)
Theorem more_context_preserves ctxs e :
  etype (wrap ctxs e) = etype e /\ esource (wrap ctxs e) = esource e /\
  eretry (wrap ctxs e) = eretry e /\ root_etype (wrap ctxs e) = root_etype e /\
  root_cause (wrap ctxs e) = root_cause e /\
  length (chain (wrap ctxs e)) = length ctxs + length (chain e).
Proof.
  revert e. induction ctxs as [|c ctxs IH]; intros e; [done|].
  unfold wrap in *. simpl.
  destruct (more_context_fields e c) as (H1 & H2 & H3 & H4 & H5 & H6).
  destruct (IH (more_context e c)) as (-> & -> & -> & -> & -> & Hl).
  rewrite Hl, H1, H2, H3, H4, H5, H6. simpl. repeat split; lia.
Qed.
