(* ===== verification/Headers.v ===== *)
(** * Header types

    [src/pingora-http/src/lib.rs], [case_header_name.rs] and [authority.rs]
    beside it: request and response headers that keep the case of header names
    and the bytes of the request target, their wire format, the normalization
    of field values and the classification of a target's authority.

    [http::HeaderMap], [http::Uri] and the checks of names, values, methods and
    canonical reasons are those of the [http] crate: [HMap] and [HttpCrate] say
    what the code calls and [HMapLaws] what it relies on. *)

From stdpp Require Import base list numbers strings.
From Stdlib Require Import ZArith Lia.
From S2P Require Import Prelude Errors Text.
Local Open Scope Z_scope.

(** ** The http crate *)

(** Names are in lower case.  [hm_try_append] fails and [hm_insert] panics
    ([None]) on a map that is full; [hm_try_append] tells whether the name was
    there. *)
Class HMap (hmap : Type -> Type) := {
  hm_empty : forall A, hmap A;
  hm_iter : forall {A}, hmap A -> list (list byte * A);
  hm_try_append : forall {A}, hmap A -> list byte -> A -> option (hmap A * bool);
  hm_insert : forall {A}, hmap A -> list byte -> A -> option (hmap A);
  hm_remove : forall {A}, hmap A -> list byte -> option A * hmap A
}.

Definition hm_get_all {hmap} `{HMap hmap} {A} (m : hmap A) (k : list byte) : list A :=
  map snd (filter (fun kv => kv.1 = k) (hm_iter m)).
Definition hm_get {hmap} `{HMap hmap} {A} (m : hmap A) (k : list byte) : option A :=
  head (hm_get_all m k).
Definition hm_contains_key {hmap} `{HMap hmap} {A} (m : hmap A) (k : list byte) : bool :=
  match hm_get_all m k with [] => false | _ => true end.

(** A multimap whose order of iteration is arbitrary but consistent: two maps
    that went through the same names iterate over them in the same order. *)
Class HMapLaws (hmap : Type -> Type) `{HMap hmap} := {
  same_order : forall {A B}, hmap A -> hmap B -> Prop;
  iter_empty : forall A, hm_iter (hm_empty A) = [];
  get_all_appended : forall A (m m' : hmap A) k v b, hm_try_append m k v = Some (m', b) ->
    hm_get_all m' k = hm_get_all m k ++ [v] /\
    forall k', k' <> k -> hm_get_all m' k' = hm_get_all m k';
  get_all_inserted : forall A (m m' : hmap A) k v, hm_insert m k v = Some m' ->
    hm_get_all m' k = [v] /\ forall k', k' <> k -> hm_get_all m' k' = hm_get_all m k';
  removed_first : forall A (m : hmap A) k, (hm_remove m k).1 = hm_get m k;
  get_all_removed : forall A (m : hmap A) k, hm_get_all (hm_remove m k).2 k = [] /\
    forall k', k' <> k -> hm_get_all (hm_remove m k).2 k' = hm_get_all m k';
  removed_absent : forall A (m : hmap A) k, hm_get_all m k = [] -> (hm_remove m k).2 = m;
  same_order_names : forall A B (m : hmap A) (n : hmap B), same_order m n ->
    map fst (hm_iter m) = map fst (hm_iter n);
  same_order_empty : forall A B, same_order (hm_empty A) (hm_empty B);
  same_order_append : forall A B (m : hmap A) (n : hmap B) k v w, same_order m n ->
    match hm_try_append m k v, hm_try_append n k w with
    | Some (m', _), Some (n', _) => same_order m' n'
    | None, None => True
    | _, _ => False
    end;
  same_order_insert : forall A B (m : hmap A) (n : hmap B) k v w, same_order m n ->
    match hm_insert m k v, hm_insert n k w with
    | Some m', Some n' => same_order m' n'
    | None, None => True
    | _, _ => False
    end;
  same_order_remove : forall A B (m : hmap A) (n : hmap B) k, same_order m n ->
    same_order (hm_remove m k).2 (hm_remove n k).2
}.

(** The rest of the crate: [HeaderName::from_bytes] (lower case), conversion to
    [HeaderValue] and [Method], [HeaderValue::to_str] (is it a visible text),
    [StatusCode::canonical_reason], URIs, and [Authority::try_from] with the host
    and whether there is a port. *)
Class HttpCrate (Uri : Type) := {
  header_name_of : list byte -> option (list byte);
  header_value_of : list byte -> option (list byte);
  value_is_visible : list byte -> bool;
  method_of : list byte -> option (list byte);
  canonical_reason : Z -> option (list byte);
  uri_default : Uri;
  uri_with_path_and_query : list byte -> option Uri;
  uri_path_and_query : Uri -> option (list byte);
  uri_authority : Uri -> option (list byte);
  parse_authority : list byte -> option (list byte * bool)
}.

Inductive Version := HTTP_09 | HTTP_10 | HTTP_11 | HTTP_2.

#[export] Instance Version_eq_dec : EqDecision Version.
Proof. solve_decision. Defined.

(** ** Header names *)

Definition titled_names : list (list byte * list byte) :=
  map (fun ab => (bytes_of ab.1, bytes_of ab.2))
    [("accept-ranges", "Accept-Ranges"); ("age", "Age"); ("cache-control", "Cache-Control");
     ("connection", "Connection"); ("content-type", "Content-Type");
     ("content-encoding", "Content-Encoding"); ("content-length", "Content-Length");
     ("date", "Date"); ("transfer-encoding", "Transfer-Encoding"); ("host", "Host");
     ("server", "Server"); ("set-cookie", "Set-Cookie")]%string.

Definition titled_header_name_str (name : list byte) : option (list byte) :=
  snd <$> find (fun ab => bool_decide (ab.1 = name)) titled_names.

Definition titled_header_name (name : list byte) : list byte :=
  default name (titled_header_name_str name).

(** [IntoCaseHeaderName]: text keeps its case, a [HeaderName] gets its title. *)
Inductive CaseName := FromText (s : list byte) | FromHeaderName (name : list byte).

Definition into_case_header_name (n : CaseName) : list byte :=
  match n with FromText s => s | FromHeaderName name => titled_header_name name end.

(** ** Field values *)

Definition NUL : byte := Byte.x00.
Definition SP : byte := Byte.x20.

Definition is_cr_nul (c : byte) : bool := bool_decide (c = CR) || bool_decide (c = NUL).
Definition is_lf (c : byte) : bool := bool_decide (c = LF).

Definition with_replacement (src : list byte) : list byte :=
  map (fun c => if is_cr_nul c then SP else c) src.

Definition push_line (unfolded line : list byte) : list byte :=
  let line := trim_ascii line in
  if bool_decide (line = []) then unfolded
  else (if bool_decide (unfolded = []) then unfolded else unfolded ++ [SP]) ++ with_replacement line.

Definition normalize_field_value (raw : list byte) : list byte :=
  if negb (existsb (fun c => is_cr_nul c || is_lf c) raw) then raw
  else match position is_lf raw with
       | None => with_replacement raw
       | Some first_nl =>
           let head := trim_ascii_end (take first_nl raw) in
           foldl push_line (with_replacement head) (split_at is_lf (drop (S first_nl) raw))
       end.

(** [header_value_from_raw], [header_value_from_slice]. *)
Definition header_value_from_raw (raw : list byte) : list byte := normalize_field_value raw.

(** ** The authority of a request target *)

Definition is_http_family_scheme (scheme : list byte) : bool :=
  existsb (eq_ignore_ascii_case scheme) (map bytes_of ["http"; "https"; "ws"; "wss"]%string).

Inductive RawTargetAuthority :=
| NoAuthority
| Absolute (scheme authority path_and_query : list byte)
| AmbiguousAuthority.

Definition target_authority (r : RawTargetAuthority) : option (list byte) :=
  match r with Absolute _ a _ => Some a | _ => None end.

Definition scheme_byte (index : nat) (c : byte) : bool :=
  match index with
  | O => is_ascii_alphabetic c
  | S _ => is_ascii_alphanumeric c || bool_decide (c ∈ bytes_of "+-.")
  end.

(** The scan for the colon: where it is and whether what precedes it is a
    scheme. *)
Fixpoint scan_scheme (index : nat) (valid : bool) (s : list byte) : option (nat * bool) :=
  match s with
  | [] => None
  | c :: s => if bool_decide (c = Byte.x3a) then Some (index, valid)
              else scan_scheme (S index) (valid && scheme_byte index c) s
  end.

Definition is_target_delim (c : byte) : bool := bool_decide (c ∈ bytes_of "/?#").

(** The scan for the end of the authority; [None] on a backslash of an HTTP
    scheme. *)
Fixpoint scan_authority (http : bool) (index : nat) (s : list byte) : option nat :=
  match s with
  | [] => Some index
  | c :: s => if is_target_delim c then Some index
              else if http && bool_decide (c = Byte.x5c) then None
              else scan_authority http (S index) s
  end.

Definition raw_target_authority (target : list byte) : RawTargetAuthority :=
  if bool_decide (head target = Some Byte.x2f) then NoAuthority
  else match scan_scheme 0 true target with
       | None => NoAuthority
       | Some (scheme_end, valid_scheme) =>
           let scheme := take scheme_end target in
           let authority := strip_prefix (bytes_of "//") (drop (S scheme_end) target) in
           if bool_decide (scheme = []) || negb valid_scheme then
             match authority with Some _ => AmbiguousAuthority | None => NoAuthority end
           else
             let http := is_http_family_scheme scheme in
             match authority with
             | None => if http then AmbiguousAuthority else NoAuthority
             | Some authority =>
                 match scan_authority http 0 authority with
                 | None => AmbiguousAuthority
                 | Some e =>
                     if http && bool_decide (e = O) then AmbiguousAuthority
                     else Absolute scheme (take e authority) (drop e authority)
                 end
             end
       end.

(** ** Request and response headers *)

Inductive RawTarget := FromUri | Verbatim (target : list byte) | Lossy (target : list byte).

Definition raw_target_bytes (r : RawTarget) : option (list byte) :=
  match r with FromUri => None | Verbatim t | Lossy t => Some t end.
Definition raw_target_is_utf8 (r : RawTarget) : bool :=
  match r with FromUri | Verbatim _ => true | Lossy _ => false end.

Section headers.
Context {hmap : Type -> Type} `{HMap hmap} {Uri : Type} `{HttpCrate Uri}.

Definition CaseMap : Type := hmap (list byte).

Record RequestHeader := MkReq {
  req_method : list byte;
  req_uri : Uri;
  req_version : Version;
  req_headers : hmap (list byte);
  req_header_name_map : option CaseMap;
  req_raw_target : RawTarget;
  req_send_end_stream : bool
}.

Record ResponseHeader := MkResp {
  resp_status : Z;
  resp_version : Version;
  resp_headers : hmap (list byte);
  resp_header_name_map : option CaseMap;
  resp_reason_phrase : option (list byte)
}.

Definition invalid {A} (context : string) : A + Error := inr (explain InvalidHTTPHeader context).

(** The two maps of a header; a name map that was appended to stays appended to
    when the value map then refuses. *)
Definition Maps : Type := option CaseMap * hmap (list byte).

Definition append_header_value (maps : Maps) (name : CaseName) (value : list byte)
    : Maps * (bool + Error) :=
  let case_header_name := into_case_header_name name in
  match header_name_of case_header_name with
  | None => (maps, invalid "invalid header name")
  | Some header_name =>
      let names :=
        match maps.1 with
        | None => Some None
        | Some n => (fun r => Some r.1) <$> hm_try_append n header_name case_header_name
        end in
      match names with
      | None => (maps, invalid "header name map size overflows MAX_SIZE")
      | Some names =>
          match hm_try_append maps.2 header_name value with
          | Some (values, was) => ((names, values), inl was)
          | None => ((names, maps.2), invalid "header value map size overflows MAX_SIZE")
          end
      end
  end.

(** [None]: panic. *)
Definition insert_header_value (maps : Maps) (name : CaseName) (value : list byte)
    : option (Maps * (unit + Error)) :=
  let case_header_name := into_case_header_name name in
  match header_name_of case_header_name with
  | None => Some (maps, invalid "invalid header name")
  | Some header_name =>
      names ← match maps.1 with
              | None => Some None
              | Some n => Some <$> hm_insert n header_name case_header_name
              end;
      values ← hm_insert maps.2 header_name value;
      Some ((names, values), inl tt)
  end.

Definition remove_header_value (maps : Maps) (name : list byte) : Maps * option (list byte) :=
  let '(removed, values) := hm_remove maps.2 name in
  let names :=
    match removed, maps.1 with
    | Some _, Some n => Some (hm_remove n name).2
    | _, names => names
    end in
  ((names, values), removed).

(** [None]: the iteration orders differ and the assertion fails. *)
Fixpoint zip_headers (names values : list (list byte * list byte))
    : option (list (list byte * list byte)) :=
  match names, values with
  | (h1, name) :: names, (h2, value) :: values =>
      if bool_decide (h1 = h2) then cons (name, value) <$> zip_headers names values else None
  | _, _ => Some []
  end.

Definition case_header_iter (maps : Maps) : option (list (list byte * list byte)) :=
  match maps.1 with
  | Some names => zip_headers (hm_iter names) (hm_iter maps.2)
  | None => Some []
  end.

Definition HEADER_KV_DELIMITER : list byte := bytes_of ": ".

Definition wire_field (nv : list byte * list byte) : list byte :=
  nv.1 ++ HEADER_KV_DELIMITER ++ nv.2 ++ CRLF.

(** The fields that [header_to_h1_wire] writes and [map] visits. *)
Definition visited_fields (maps : Maps) : option (list (list byte * list byte)) :=
  match maps.1 with
  | Some _ => case_header_iter maps
  | None => Some (map (fun hv => (default hv.1 (titled_header_name_str hv.1), hv.2)) (hm_iter maps.2))
  end.

Definition header_to_h1_wire (maps : Maps) : option (list byte) :=
  (fun fs => concat (map wire_field fs)) <$> visited_fields maps.

(** *** Requests *)

Definition req_maps (r : RequestHeader) : Maps := (req_header_name_map r, req_headers r).
Definition set_req_maps (m : Maps) (r : RequestHeader) : RequestHeader :=
  MkReq (req_method r) (req_uri r) (req_version r) m.2 m.1 (req_raw_target r) (req_send_end_stream r).

Definition path_and_query_uri (path_and_query : list byte) : Uri + Error :=
  match uri_with_path_and_query path_and_query with
  | Some u => inl u
  | None => invalid "invalid uri"
  end.

Definition strip_fragment (target : list byte) : list byte :=
  match position (fun c => bool_decide (c = Byte.x23)) target with
  | Some fragment_start => take fragment_start target
  | None => target
  end.

(** Origin-form, asterisk-form, query-only and empty targets. *)
Definition from_uri_form (target : list byte) : bool :=
  bool_decide (target = []) ||
  bool_decide (head target ∈ [Some Byte.x2f; Some Byte.x3f]) ||
  bool_decide (target = bytes_of "*").

Definition parse_request_target (target : list byte) : (Uri * RawTarget) + Error :=
  let target := strip_fragment target in
  if from_uri_form target then
    if is_utf8 target then
      match path_and_query_uri target with inl u => inl (u, FromUri) | inr e => inr e end
    else
      match path_and_query_uri (from_utf8_lossy target) with
      | inl u => inl (u, Lossy target)
      | inr e => inr e
      end
  else
    let uri :=
      match raw_target_authority target with
      | Absolute _ _ path_and_query =>
          match from_utf8_lossy path_and_query with
          | [] => inl uri_default
          | pq => path_and_query_uri
                    (if bool_decide (head pq = Some Byte.x2f) then pq else Byte.x2f :: pq)
          end
      | _ => inl uri_default
      end in
    match uri with
    | inl u => inl (u, if is_utf8 target then Verbatim target else Lossy target)
    | inr e => inr e
    end.

Definition set_raw_path (path : list byte) (r : RequestHeader) : RequestHeader + Error :=
  match parse_request_target path with
  | inl (uri, raw) =>
      inl (MkReq (req_method r) uri (req_version r) (req_headers r) (req_header_name_map r) raw
             (req_send_end_stream r))
  | inr e => inr e
  end.

Definition set_uri (uri : Uri) (r : RequestHeader) : RequestHeader :=
  MkReq (req_method r) uri (req_version r) (req_headers r) (req_header_name_map r) FromUri
    (req_send_end_stream r).

Definition raw_path (r : RequestHeader) : list byte :=
  match raw_target_bytes (req_raw_target r) with
  | Some t => t
  | None => match uri_path_and_query (req_uri r) with
            | Some p => p
            | None => default [] (uri_authority (req_uri r))
            end
  end.

Definition raw_path_is_utf8 (r : RequestHeader) : bool := raw_target_is_utf8 (req_raw_target r).

(** [http::Request::builder()]: GET, an empty path, HTTP/1.1. *)
Definition req_new_no_case : RequestHeader :=
  MkReq (bytes_of "GET") uri_default HTTP_11 (hm_empty _) None FromUri true.

Definition req_build_no_case (method path : list byte) : RequestHeader + Error :=
  match method_of method with
  | None => invalid "invalid method"
  | Some m =>
      let r := req_new_no_case in
      set_raw_path path (MkReq m (req_uri r) (req_version r) (req_headers r) (req_header_name_map r)
                           (req_raw_target r) (req_send_end_stream r))
  end.

Definition req_build (method path : list byte) : RequestHeader + Error :=
  match req_build_no_case method path with
  | inl r => inl (set_req_maps (Some (hm_empty _), req_headers r) r)
  | inr e => inr e
  end.

Definition set_version (v : Version) (r : RequestHeader) : RequestHeader :=
  MkReq (req_method r) (req_uri r) v (req_headers r) (req_header_name_map r) (req_raw_target r)
    (req_send_end_stream r).
Definition set_method (m : list byte) (r : RequestHeader) : RequestHeader :=
  MkReq m (req_uri r) (req_version r) (req_headers r) (req_header_name_map r) (req_raw_target r)
    (req_send_end_stream r).
Definition set_send_end_stream (b : bool) (r : RequestHeader) : RequestHeader :=
  MkReq (req_method r) (req_uri r) (req_version r) (req_headers r) (req_header_name_map r)
    (req_raw_target r) b.
Definition send_end_stream (r : RequestHeader) : option bool :=
  if bool_decide (req_version r = HTTP_2) then Some (req_send_end_stream r) else None.

Definition req_append_header (name : CaseName) (value : list byte) (r : RequestHeader)
    : RequestHeader * (bool + Error) :=
  let '(maps, res) := append_header_value (req_maps r) name value in (set_req_maps maps r, res).
Definition req_insert_header (name : CaseName) (value : list byte) (r : RequestHeader)
    : option (RequestHeader * (unit + Error)) :=
  '(maps, res) ← insert_header_value (req_maps r) name value; Some (set_req_maps maps r, res).
Definition req_remove_header (name : list byte) (r : RequestHeader)
    : RequestHeader * option (list byte) :=
  let '(maps, res) := remove_header_value (req_maps r) name in (set_req_maps maps r, res).

(** *** Responses *)

Definition resp_maps (r : ResponseHeader) : Maps := (resp_header_name_map r, resp_headers r).
Definition set_resp_maps (m : Maps) (r : ResponseHeader) : ResponseHeader :=
  MkResp (resp_status r) (resp_version r) m.2 m.1 (resp_reason_phrase r).

(** [StatusCode::from_u16]. *)
Definition status_of (code : Z) : option Z :=
  if (100 <=? code) && (code <? 1000) then Some code else None.

Definition resp_new_no_case : ResponseHeader := MkResp 200 HTTP_11 (hm_empty _) None None.
Definition resp_new : ResponseHeader := MkResp 200 HTTP_11 (hm_empty _) (Some (hm_empty _)) None.

Definition set_status (code : Z) (r : ResponseHeader) : ResponseHeader + Error :=
  match status_of code with
  | None => invalid "invalid status"
  | Some s =>
      inl (MkResp s (resp_version r) (resp_headers r) (resp_header_name_map r) (resp_reason_phrase r))
  end.

Definition resp_build (code : Z) : ResponseHeader + Error := set_status code resp_new.
Definition resp_build_no_case (code : Z) : ResponseHeader + Error := set_status code resp_new_no_case.

Definition resp_set_version (v : Version) (r : ResponseHeader) : ResponseHeader :=
  MkResp (resp_status r) v (resp_headers r) (resp_header_name_map r) (resp_reason_phrase r).

Definition set_reason_phrase (reason : option (list byte)) (r : ResponseHeader) : ResponseHeader :=
  MkResp (resp_status r) (resp_version r) (resp_headers r) (resp_header_name_map r)
    (if bool_decide (reason = canonical_reason (resp_status r)) then None else reason).

Definition get_reason_phrase (r : ResponseHeader) : option (list byte) :=
  match resp_reason_phrase r with
  | Some p => Some p
  | None => canonical_reason (resp_status r)
  end.

Definition resp_append_header (name : CaseName) (value : list byte) (r : ResponseHeader)
    : ResponseHeader * (bool + Error) :=
  let '(maps, res) := append_header_value (resp_maps r) name value in (set_resp_maps maps r, res).
Definition resp_insert_header (name : CaseName) (value : list byte) (r : ResponseHeader)
    : option (ResponseHeader * (unit + Error)) :=
  '(maps, res) ← insert_header_value (resp_maps r) name value; Some (set_resp_maps maps r, res).
Definition resp_remove_header (name : list byte) (r : ResponseHeader)
    : ResponseHeader * option (list byte) :=
  let '(maps, res) := remove_header_value (resp_maps r) name in (set_resp_maps maps r, res).

Definition set_content_length (len : Z) (r : ResponseHeader) : option (ResponseHeader * (unit + Error)) :=
  resp_insert_header (FromHeaderName (bytes_of "content-length")) (decimal len) r.

End headers.

Arguments RequestHeader hmap Uri : clear implicits.
Arguments ResponseHeader hmap : clear implicits.
