(* ===== verification/HeadersSpec.v ===== *)
(** * Header types: theorems

    What a header built by any sequence of appends, inserts and removals writes
    on the wire; what normalization does to a field value; what is kept of a
    request target. *)

From stdpp Require Import base list numbers strings sets.
From Stdlib Require Import ZArith Lia.
From S2P Require Import Prelude Errors Text Headers.
Local Open Scope Z_scope.

(** ** The two maps of a header *)

Section maps.
Context {hmap : Type -> Type} `{HM : HMap hmap, HL : !HMapLaws hmap} {Uri : Type} `{HC : HttpCrate Uri}.
Implicit Types (m : @Maps hmap) (k : list byte) (names : @CaseMap hmap).

(** The fields of a header: for every name its values, each with the case it
    was given under, in the order they were added. *)
Definition fields_spec : Type := list byte -> list (list byte * list byte).

Definition set_fields (s : fields_spec) k (l : list (list byte * list byte)) : fields_spec :=
  fun k' => if bool_decide (k' = k) then l else s k'.

(** Headers built from an empty one, failed operations included. *)
Inductive built : @Maps hmap -> fields_spec -> Prop :=
| built_new : built (Some (hm_empty _), hm_empty _) (fun _ => [])
| built_append m s n v m' b k : built m s -> append_header_value m n v = (m', inl b) ->
    header_name_of (into_case_header_name n) = Some k ->
    built m' (set_fields s k (s k ++ [(into_case_header_name n, v)]))
| built_append_fails m s n v m' e : built m s -> append_header_value m n v = (m', inr e) -> built m' s
| built_insert m s n v m' k : built m s -> insert_header_value m n v = Some (m', inl tt) ->
    header_name_of (into_case_header_name n) = Some k ->
    built m' (set_fields s k [(into_case_header_name n, v)])
| built_insert_fails m s n v m' e : built m s -> insert_header_value m n v = Some (m', inr e) ->
    built m' s
| built_remove m s k : built m s -> built (remove_header_value m k).1 (set_fields s k []).

Record fields_ok (names : @CaseMap hmap) (values : hmap (list byte)) (s : fields_spec) : Prop := {
  fok_order : same_order names values;
  fok_names : forall k, hm_get_all names k = map fst (s k);
  fok_values : forall k, hm_get_all values k = map snd (s k);
  fok_cases : forall k c, c ∈ map fst (s k) -> header_name_of c = Some k
}.

Lemma get_all_empty A k : hm_get_all (hm_empty A) k = [].
Proof. unfold hm_get_all. by rewrite iter_empty. Qed.

Lemma set_fields_get_all {A} (g : hmap A) (g' : hmap A) (f : list byte * list byte -> A) s k l :
  (forall k', hm_get_all g k' = map f (s k')) ->
  hm_get_all g' k = map f l -> (forall k', k' <> k -> hm_get_all g' k' = hm_get_all g k') ->
  forall k', hm_get_all g' k' = map f (set_fields s k l k').
Proof. intros Hg Hk Ho k'. unfold set_fields. case_bool_decide; [by subst|]. by rewrite Ho, Hg. Qed.

Lemma set_fields_cases s k l :
  (forall k' c, c ∈ map fst (s k') -> header_name_of c = Some k') ->
  (forall c, c ∈ map fst l -> header_name_of c = Some k) ->
  forall k' c, c ∈ map fst (set_fields s k l k') -> header_name_of c = Some k'.
Proof. intros Hs Hl k' c. unfold set_fields. case_bool_decide; [subst; auto|auto]. Qed.

Lemma append_ok names values s n v :
  fields_ok names values s ->
  match append_header_value (Some names, values) n v with
  | ((Some names', values'), inl b) =>
      exists k, header_name_of (into_case_header_name n) = Some k /\
        fields_ok names' values' (set_fields s k (s k ++ [(into_case_header_name n, v)]))
  | ((Some names', values'), inr _) => names' = names /\ values' = values
  | ((None, _), _) => False
  end.
Proof.
  intros [Ho Hn Hv Hc]. unfold append_header_value. cbn [fst snd].
  destruct (header_name_of (into_case_header_name n)) as [k|] eqn:Hk; [|done].
  pose proof (same_order_append _ _ names values k (into_case_header_name n) v Ho) as Hs.
  destruct (hm_try_append names k _) as [[names' b1]|] eqn:H1; simpl; [|done].
  destruct (hm_try_append values k v) as [[values' b2]|] eqn:H2; [|done].
  apply get_all_appended in H1 as [H1 H1']. apply get_all_appended in H2 as [H2 H2'].
  exists k. split; [done|]. constructor; [done| | |].
  - apply (set_fields_get_all names); auto. rewrite H1, Hn, map_app. done.
  - apply (set_fields_get_all values); auto. rewrite H2, Hv, map_app. done.
  - apply set_fields_cases; [done|]. intros c. rewrite map_app, elem_of_app.
    intros [Hin|Hin]; [by apply Hc|]. apply list_elem_of_singleton in Hin as ->. done.
Qed.

Lemma insert_ok names values s n v :
  fields_ok names values s ->
  match insert_header_value (Some names, values) n v with
  | Some ((Some names', values'), inl _) =>
      exists k, header_name_of (into_case_header_name n) = Some k /\
        fields_ok names' values' (set_fields s k [(into_case_header_name n, v)])
  | Some ((Some names', values'), inr _) => names' = names /\ values' = values
  | Some ((None, _), _) => False
  | None => True
  end.
Proof.
  intros [Ho Hn Hv Hc]. unfold insert_header_value. cbn [fst snd].
  destruct (header_name_of (into_case_header_name n)) as [k|] eqn:Hk; [|done].
  pose proof (same_order_insert _ _ names values k (into_case_header_name n) v Ho) as Hs.
  destruct (hm_insert names k _) as [names'|] eqn:H1; simpl; [|done].
  destruct (hm_insert values k v) as [values'|] eqn:H2; simpl; [|done].
  apply get_all_inserted in H1 as [H1 H1']. apply get_all_inserted in H2 as [H2 H2'].
  exists k. split; [done|]. constructor; [done| | |].
  - by apply (set_fields_get_all names).
  - by apply (set_fields_get_all values).
  - apply set_fields_cases; [done|]. intros c Hin.
    apply list_elem_of_singleton in Hin as ->. done.
Qed.

Lemma get_all_none {A} (g : hmap A) k : hm_get g k = None -> hm_get_all g k = [].
Proof. unfold hm_get. by destruct (hm_get_all g k). Qed.

(** Removing a name that is not there leaves the name map alone; the value map
    is then not reordered either. *)
Lemma remove_header_ok names values s k :
  fields_ok names values s ->
  match remove_header_value (Some names, values) k with
  | ((Some names', values'), _) => fields_ok names' values' (set_fields s k [])
  | ((None, _), _) => False
  end.
Proof.
  intros [Ho Hn Hv Hc]. unfold remove_header_value. cbn [fst snd].
  pose proof (removed_first _ values k) as Hf. pose proof (get_all_removed _ values k) as [Hr Hr'].
  pose proof (get_all_removed _ names k) as [Hq Hq'].
  pose proof (same_order_remove _ _ names values k Ho) as Hs.
  destruct (hm_remove values k) as [[x|] values'] eqn:Hrm; cbn [fst snd] in *.
  - constructor; [done| | |].
    + by apply (set_fields_get_all names).
    + by apply (set_fields_get_all values).
    + apply set_fields_cases; [done|]. intros c Hin. by apply not_elem_of_nil in Hin.
  - pose proof (get_all_none values k (eq_sym Hf)) as Hnone.
    pose proof (removed_absent _ values k Hnone) as Hsame. rewrite Hrm in Hsame. simpl in Hsame. subst values'.
    assert (s k = []) as Hsk by (specialize (Hv k); rewrite Hnone in Hv; by destruct (s k)).
    assert (forall k', set_fields s k [] k' = s k') as Hext.
    { intros k'. unfold set_fields. case_bool_decide; congruence. }
    constructor; [done|intros k'; rewrite Hext; auto..].
Qed.

Lemma built_ok m s : built m s ->
  match m with (Some names, values) => fields_ok names values s | (None, _) => False end.
Proof.
  induction 1 as [|[[nm|] vm] s n v m' b k _ IH Ha Hk|[[nm|] vm] s n v m' e _ IH Ha
                 |[[nm|] vm] s n v m' k _ IH Hi Hk|[[nm|] vm] s n v m' e _ IH Hi|[[nm|] vm] s k _ IH];
    try done.
  - constructor; [apply same_order_empty|intros; by rewrite get_all_empty..|].
    intros k c Hin. by apply not_elem_of_nil in Hin.
  - pose proof (append_ok nm vm s n v IH) as Hok. rewrite Ha in Hok.
    destruct m' as [[nm'|] vm']; [|done]. destruct Hok as (k' & Hk' & Hok). naive_solver.
  - pose proof (append_ok nm vm s n v IH) as Hok. rewrite Ha in Hok.
    destruct m' as [[nm'|] vm']; [|done]. by destruct Hok as [-> ->].
  - pose proof (insert_ok nm vm s n v IH) as Hok. rewrite Hi in Hok.
    destruct m' as [[nm'|] vm']; [|done]. destruct Hok as (k' & Hk' & Hok). naive_solver.
  - pose proof (insert_ok nm vm s n v IH) as Hok. rewrite Hi in Hok.
    destruct m' as [[nm'|] vm']; [|done]. by destruct Hok as [-> ->].
  - pose proof (remove_header_ok nm vm s k IH) as Hok.
    destruct (remove_header_value (Some nm, vm) k) as [[[nm'|] vm'] r]; done.
Qed.

(** Zipping two lists with the same names succeeds, and keeps for every name
    its cases and values. *)
Lemma zip_headers_ok (l1 l2 : list (list byte * list byte)) :
  map fst l1 = map fst l2 -> Forall (fun kc => header_name_of kc.2 = Some kc.1) l1 ->
  exists fs, zip_headers l1 l2 = Some fs /\
    forall k, filter (fun f => header_name_of f.1 = Some k) fs =
      zip (map snd (filter (fun kv => kv.1 = k) l1)) (map snd (filter (fun kv => kv.1 = k) l2)).
Proof.
  revert l2. induction l1 as [|[h1 c] l1 IH]; intros [|[h2 v] l2]; simpl; try done.
  - intros _ _. by exists [].
  - intros [= -> Hl] [Hc Hf]%Forall_cons. destruct (IH l2 Hl Hf) as (fs & Hz & Hfs).
    rewrite bool_decide_true, Hz by done. exists ((c, v) :: fs). split; [done|].
    intros k. rewrite !filter_cons. simpl in *. rewrite Hc, Hfs.
    destruct (decide (h2 = k)) as [->|Hne].
    + rewrite !decide_True by done. done.
    + rewrite !decide_False by congruence. done.
Qed.

Lemma zip_fst_snd {A B} (l : list (A * B)) : zip (map fst l) (map snd l) = l.
Proof. induction l as [|[a b] l IH]; simpl; [done|]. by rewrite IH. Qed.

Lemma iter_cases names values s : fields_ok names values s ->
  Forall (fun kc => header_name_of kc.2 = Some kc.1) (hm_iter names).
Proof.
  intros [_ Hn _ Hc]. apply Forall_forall. intros [k c] Hin. simpl. apply Hc.
  rewrite <- Hn. unfold hm_get_all. apply list_elem_of_fmap. exists (k, c). split; [done|].
  by apply list_elem_of_filter.
Qed.

(** C29: a header built by any sequence of appends, inserts and removals,
    successful or not, can be written: the name map and the value map iterate in
    step, so the assertion between them never fails.  The fields on the wire are
    for every name exactly those the operations left, in order, each under the
    case it was given with. *)
Theorem header_wire_exact m s :
  built m s ->
  exists fs, header_to_h1_wire m = Some (concat (map wire_field fs)) /\
    (forall k, filter (fun f => header_name_of f.1 = Some k) fs = s k) /\
    Forall (fun f => is_Some (header_name_of f.1)) fs.
Proof.
  intros Hb. pose proof (built_ok m s Hb) as Hok. destruct m as [[names|] values]; [|done].
  pose proof (iter_cases _ _ _ Hok) as Hcases. destruct Hok as [Ho Hn Hv _].
  destruct (zip_headers_ok (hm_iter names) (hm_iter values)) as (fs & Hz & Hfs);
    [by apply same_order_names|done|].
  exists fs. split; [|split].
  - unfold header_to_h1_wire, visited_fields, case_header_iter. simpl. by rewrite Hz.
  - intros k. rewrite Hfs. fold (hm_get_all names k) (hm_get_all values k).
    rewrite Hn, Hv. apply zip_fst_snd.
  - revert Hz Hcases. clear. generalize (hm_iter values). revert fs.
    induction (hm_iter names) as [|[h c] l IH]; intros fs [|[h2 v] l2]; simpl; try by intros [= <-].
    case_bool_decide; [|done]. intros (fs' & Hz & ->)%fmap_Some [Hc Hf]%Forall_cons.
    constructor; [by eexists|]. by eapply IH.
Qed.

End maps.

(** ** Field values *)

(** The bytes normalization may change or move. *)
Definition blank (c : byte) : bool := is_ascii_whitespace c || is_cr_nul c || is_lf c.

Definition text_of (s : list byte) : list byte := filter (fun c => blank c = false) s.

Definition field_clean (s : list byte) : Prop := Forall (fun c => c <> CR /\ c <> LF /\ c <> NUL) s.

Lemma is_cr_nul_spec c : is_cr_nul c = true <-> c = CR \/ c = NUL.
Proof. unfold is_cr_nul. rewrite orb_true_iff, !bool_decide_eq_true. done. Qed.

Lemma ws_blank c : is_ascii_whitespace c = true -> blank c = true.
Proof. unfold blank. by intros ->. Qed.

Lemma text_of_app a b : text_of (a ++ b) = text_of a ++ text_of b.
Proof. apply filter_app. Qed.

Lemma text_of_blank s : Forall (fun c => blank c = true) s -> text_of s = [].
Proof. induction 1 as [|c s Hc _ IH]; [done|]. unfold text_of. rewrite filter_cons_False by congruence. done. Qed.

Lemma drop_while_text s : text_of (drop_while is_ascii_whitespace s) = text_of s.
Proof.
  destruct (drop_while_suffix is_ascii_whitespace s) as (t & Ht & Hf). rewrite Ht at 2.
  rewrite text_of_app, (text_of_blank t); [done|]. eapply Forall_impl; [exact Hf|]. apply ws_blank.
Qed.

Lemma text_of_rev s : text_of (rev s) = rev (text_of s).
Proof.
  induction s as [|c s IH]; [done|]. simpl. rewrite text_of_app, IH. unfold text_of.
  rewrite !filter_cons. case_decide; simpl; [done|]. by rewrite app_nil_r.
Qed.

Lemma trim_end_text s : text_of (trim_ascii_end s) = text_of s.
Proof. unfold trim_ascii_end. by rewrite text_of_rev, drop_while_text, text_of_rev, rev_involutive. Qed.

Lemma trim_text s : text_of (trim_ascii s) = text_of s.
Proof. unfold trim_ascii. rewrite trim_end_text. apply drop_while_text. Qed.

Lemma replacement_text s : text_of (with_replacement s) = text_of s.
Proof.
  induction s as [|c s IH]; [done|]. unfold text_of in *. simpl. rewrite !filter_cons, IH.
  destruct (is_cr_nul c) eqn:Hc; [|done]. assert (blank c = true) as Hb.
  { unfold blank. rewrite Hc. by destruct (is_ascii_whitespace c). }
  rewrite decide_False by done. by rewrite decide_False by congruence.
Qed.

Lemma replacement_clean s : Forall (fun c => is_lf c = false) s -> field_clean (with_replacement s).
Proof.
  unfold field_clean, with_replacement. intros Hs. apply Forall_fmap. eapply Forall_impl; [exact Hs|].
  intros c Hc. simpl. unfold is_lf in Hc. apply bool_decide_eq_false in Hc.
  destruct (is_cr_nul c) eqn:Hcn; [done|].
  split_and!; [|done|]; intros ->; by vm_compute in Hcn.
Qed.

Lemma split_at_text s : text_of (concat (split_at is_lf s)) = text_of s.
Proof.
  induction s as [|c s IH]; [done|]. simpl. destruct (is_lf c) eqn:Hc; simpl.
  - unfold text_of in *. rewrite filter_cons_False; [done|]. unfold blank. rewrite Hc.
    destruct (is_ascii_whitespace c), (is_cr_nul c); done.
  - destruct (split_at is_lf s); simpl in *; unfold text_of in *; rewrite !filter_cons; by rewrite <- IH.
Qed.

Lemma split_at_no_lf s : Forall (Forall (fun c => is_lf c = false)) (split_at is_lf s).
Proof.
  induction s as [|c s IH]; simpl; [by repeat constructor|]. destruct (is_lf c) eqn:Hc.
  - by constructor.
  - destruct (split_at is_lf s) as [|w ws]; [by repeat constructor|].
    apply Forall_cons in IH as [Hw Hws]. constructor; [by constructor|done].
Qed.

Lemma trim_no_lf s : Forall (fun c => is_lf c = false) s -> Forall (fun c => is_lf c = false) (trim_ascii s).
Proof.
  destruct (trim_ascii_infix s) as (a & b & Hs). intros Hf. rewrite Hs in Hf.
  apply Forall_app in Hf as [_ Hf]. by apply Forall_app in Hf as [Hf _].
Qed.

Lemma push_line_ok u line :
  field_clean u -> Forall (fun c => is_lf c = false) line ->
  field_clean (push_line u line) /\ text_of (push_line u line) = text_of u ++ text_of line.
Proof.
  intros Hu Hl. unfold push_line. rewrite <- (trim_text line).
  pose proof (trim_no_lf line Hl) as Ht. case_bool_decide as He; [rewrite He, app_nil_r; done|].
  pose proof (replacement_clean _ Ht) as Hr. split.
  - apply Forall_app. split; [|done]. case_bool_decide; [done|]. apply Forall_app. split; [done|].
    by repeat constructor.
  - rewrite text_of_app, replacement_text. f_equal. case_bool_decide; [done|].
    rewrite text_of_app. by rewrite app_nil_r.
Qed.

Lemma push_lines_ok ls u :
  field_clean u -> Forall (Forall (fun c => is_lf c = false)) ls ->
  field_clean (foldl push_line u ls) /\ text_of (foldl push_line u ls) = text_of u ++ text_of (concat ls).
Proof.
  revert u. induction ls as [|l ls IH]; intros u Hu Hls; simpl; [by rewrite app_nil_r|].
  apply Forall_cons in Hls as [Hl Hls]. destruct (push_line_ok u l Hu Hl) as [Hc Ht].
  destruct (IH _ Hc Hls) as [Hc' Ht']. split; [done|]. by rewrite Ht', Ht, text_of_app, app_assoc.
Qed.

(** a normalized field value has no CR, LF or NUL left, whatever was
    received, so it cannot end its line on the wire; its text, the bytes that are
    neither white space nor those three, is unchanged and in order; a value
    without the three is returned as it is. *)
Theorem normalize_field_value_safe raw :
  field_clean (normalize_field_value raw) /\
  text_of (normalize_field_value raw) = text_of raw /\
  (field_clean raw -> normalize_field_value raw = raw).
Proof.
  unfold normalize_field_value. destruct (existsb _ raw) eqn:Hex; simpl.
  - assert (~ field_clean raw) as Hdirty.
    { intros Hc. apply existsb_exists in Hex as (c & Hin & Hc').
      unfold field_clean in Hc. rewrite Forall_forall in Hc. apply list_elem_of_In in Hin.
      destruct (Hc c Hin) as (? & ? & ?). unfold is_cr_nul, is_lf in Hc'.
      rewrite !orb_true_iff, !bool_decide_eq_true in Hc'. naive_solver. }
    enough (forall out, field_clean out /\ text_of out = text_of raw ->
            field_clean out /\ text_of out = text_of raw /\ (field_clean raw -> out = raw)) as Hgo.
    { apply Hgo. destruct (position is_lf raw) as [i|] eqn:Hp.
      - apply position_Some in Hp as (Hf & c & Hraw & Hc).
        assert (Forall (fun c => is_lf c = false) (trim_ascii_end (take i raw))) as Hhead.
        { destruct (drop_while_suffix is_ascii_whitespace (rev (take i raw))) as (t & Ht & _).
          unfold trim_ascii_end. apply Forall_rev. apply Forall_rev in Hf. rewrite Ht in Hf.
          by apply Forall_app in Hf as [_ Hf]. }
        destruct (push_lines_ok (split_at is_lf (drop (S i) raw))
                    (with_replacement (trim_ascii_end (take i raw)))) as [H1 H2];
          [by apply replacement_clean|apply split_at_no_lf|].
        split; [done|]. rewrite H2, replacement_text, trim_end_text, split_at_text.
        rewrite Hraw at 3. rewrite text_of_app. f_equal. unfold text_of at 2.
        rewrite filter_cons_False; [done|]. unfold blank. rewrite Hc.
        destruct (is_ascii_whitespace c), (is_cr_nul c); done.
      - apply position_None in Hp. split; [by apply replacement_clean|apply replacement_text]. }
    intros out [H1 H2]. by split_and!.
  - split_and!; [|done|done]. apply Forall_forall. intros c Hin.
    assert (is_cr_nul c || is_lf c = false) as Hc.
    { destruct (is_cr_nul c || is_lf c) eqn:Hc; [|done]. rewrite <- Hex. symmetry.
      apply existsb_exists. exists c. split; [by apply list_elem_of_In|done]. }
    apply orb_false_iff in Hc as [Hc Hl]. unfold is_lf in Hl. apply bool_decide_eq_false in Hl.
    unfold is_cr_nul in Hc. rewrite orb_false_iff, !bool_decide_eq_false in Hc. naive_solver.
Qed.

Example normalize_fold :
  normalize_field_value (bytes_of "obs" ++ CRLF ++ bytes_of " fold" ++ CRLF ++ Byte.x09 :: bytes_of " line")
  = bytes_of "obs fold line".
Proof. reflexivity. Qed.

(** ** Request targets *)

Lemma scan_scheme_spec i v s j w :
  scan_scheme i v s = Some (j, w) ->
  exists a b, s = a ++ Byte.x3a :: b /\ j = (i + length a)%nat /\ Byte.x3a ∉ a.
Proof.
  revert i v. induction s as [|c s IH]; intros i v; simpl; [done|]. case_bool_decide as Hc.
  - intros [= -> ->]. exists [], s. subst. simpl. split_and!; [done|lia|set_solver].
  - intros (a & b & -> & -> & Hn)%IH. exists (c :: a), b. simpl. split_and!; [done|lia|set_solver].
Qed.

Lemma scan_authority_spec http i s e :
  scan_authority http i s = Some e ->
  exists a b, s = a ++ b /\ e = (i + length a)%nat /\ Forall (fun c => is_target_delim c = false) a /\
    (http = true -> Byte.x5c ∉ a) /\ match b with c :: _ => is_target_delim c = true | [] => True end.
Proof.
  revert i. induction s as [|c s IH]; intros i; simpl.
  - intros [= <-]. exists [], []. simpl. split_and!; [done|lia|done|set_solver|done].
  - destruct (is_target_delim c) eqn:Hd.
    { intros [= <-]. exists [], (c :: s). simpl. split_and!; [done|lia|done|set_solver|done]. }
    destruct http; simpl.
    + case_bool_decide as Hb; [done|].
      intros (a & b & -> & -> & Hf & Hn & Hh)%IH. exists (c :: a), b. simpl.
      split_and!; [done|lia|by constructor|set_solver|done].
    + intros (a & b & -> & -> & Hf & Hn & Hh)%IH. exists (c :: a), b. simpl.
      split_and!; [done|lia|by constructor|done|done].
Qed.

(** The pieces of an absolute target are the target. *)
Lemma raw_target_authority_pieces target scheme authority pq :
  raw_target_authority target = Absolute scheme authority pq ->
  target = scheme ++ bytes_of "://" ++ authority ++ pq /\
  Forall (fun c => is_target_delim c = false) authority /\
  match pq with c :: _ => is_target_delim c = true | [] => True end /\
  (is_http_family_scheme scheme = true -> authority <> [] /\ Byte.x5c ∉ authority).
Proof.
  unfold raw_target_authority. case_bool_decide; [done|].
  destruct (scan_scheme 0 true target) as [[i v]|] eqn:Hs; [|done].
  apply scan_scheme_spec in Hs as (a & b & -> & -> & _). rewrite Nat.add_0_l.
  assert (drop (S (length a)) (a ++ Byte.x3a :: b) = b) as ->.
  { rewrite cons_middle, app_assoc. apply drop_app_length'. rewrite length_app. simpl. lia. }
  rewrite take_app_length.
  destruct (strip_prefix (bytes_of "//") b) as [rest|] eqn:Hp;
    destruct (bool_decide (a = []) || negb v); try done;
    [|by destruct (is_http_family_scheme a)].
  apply strip_prefix_spec in Hp. subst b.
  destruct (scan_authority (is_http_family_scheme a) 0 rest) as [e|] eqn:Ha; [|done].
  apply scan_authority_spec in Ha as (x & y & -> & -> & Hf & Hn & Hh). rewrite Nat.add_0_l.
  rewrite take_app_length, drop_app_length.
  destruct (is_http_family_scheme a && bool_decide (length x = 0%nat)) eqn:He; [done|].
  intros [= <- <- <-]. split_and!; [done|done|done|]. intros Hfam. rewrite Hfam in *. simpl in He.
  apply bool_decide_eq_false in He. split; [|by apply Hn]. by intros ->.
Qed.

(** A target that becomes the URI as it is has no authority. *)
Lemma from_uri_no_authority target : from_uri_form target = true ->
  match raw_target_authority target with Absolute _ _ _ => False | _ => True end.
Proof.
  intros Hform. unfold from_uri_form in Hform. rewrite !orb_true_iff, !bool_decide_eq_true in Hform.
  destruct Hform as [[->|Hh]| ->]; [done| |done]. destruct target as [|c t]; [set_solver|].
  simpl in Hh. assert (c = Byte.x2f \/ c = Byte.x3f) as [-> | ->] by set_solver; [done|].
  destruct (raw_target_authority _) as [| |] eqn:Hr; [done| |done].
  revert Hr. unfold raw_target_authority. rewrite bool_decide_false by done.
  change (scan_scheme 0 true (Byte.x3f :: t)) with (scan_scheme 1 false t).
  destruct (scan_scheme 1 false t) as [[i v]|] eqn:Hs; [|done].
  assert (v = false) as ->.
  { clear -Hs. revert Hs. generalize 1%nat. induction t as [|c t IH]; intros n; simpl; [done|].
    case_bool_decide; [by intros [= _ ->]|]. apply IH. }
  rewrite orb_true_r. by destruct (strip_prefix _ _).
Qed.

Section target.
Context {hmap : Type -> Type} `{HM : HMap hmap} {Uri : Type} `{HC : HttpCrate Uri}.

(** A URI made of a path and query gives them back, and the root for an empty
    one. *)
Class UriLaws : Prop := {
  uri_path_kept : forall p u, from_uri_form p = true -> uri_with_path_and_query p = Some u ->
    uri_path_and_query u = Some (if bool_decide (p = []) then bytes_of "/" else p)
}.

(** a request target is kept for the wire byte for byte, without its
    fragment (an empty one becomes the root); whether it is reported as UTF-8 is
    whether it is; the path that the URI gets from an absolute target is exactly
    what follows the authority that is checked against the Host header. *)
Theorem request_target_kept `{!UriLaws} path (r r' : RequestHeader hmap Uri) :
  set_raw_path path r = inl r' ->
  let target := strip_fragment path in
  raw_path r' = (if bool_decide (target = []) then bytes_of "/" else target) /\
  raw_path_is_utf8 r' = is_utf8 target /\
  match raw_target_authority target with
  | Absolute scheme authority pq =>
      target = scheme ++ bytes_of "://" ++ authority ++ pq /\
      (is_utf8 pq = true -> pq <> [] ->
       Some (req_uri r') = uri_with_path_and_query
                             (if bool_decide (head pq = Some Byte.x2f) then pq else Byte.x2f :: pq))
  | _ => True
  end.
Proof.
  unfold set_raw_path. destruct (parse_request_target path) as [[uri raw]|e] eqn:Hp; [|done].
  intros [= <-]. set (target := strip_fragment path). cbn [req_uri].
  unfold parse_request_target in Hp. fold target in Hp. unfold raw_path, raw_path_is_utf8. simpl.
  unfold path_and_query_uri in Hp. clearbody target. destruct (from_uri_form target) eqn:Hform.
  - pose proof (from_uri_no_authority target Hform) as Hno.
    destruct (raw_target_authority target); [|done|].
    all: destruct (is_utf8 target) eqn:Hu;
      [destruct (uri_with_path_and_query target) as [u|] eqn:Hq; [|done]; injection Hp as <- <-;
       simpl; by rewrite (uri_path_kept target u Hform Hq)
      |destruct (uri_with_path_and_query (from_utf8_lossy target)) as [u|] eqn:Hq; [|done];
       injection Hp as <- <-; simpl; rewrite bool_decide_false; [done|];
       by intros Ht; rewrite Ht in Hu].
  - assert (target <> []) as Hne by (by intros Ht; rewrite Ht in Hform).
    assert (raw = (if is_utf8 target then Verbatim target else Lossy target)) as ->.
    { destruct (raw_target_authority target); simpl in Hp; [congruence| |congruence].
      destruct (from_utf8_lossy path_and_query); simpl in Hp; [congruence|].
      destruct (uri_with_path_and_query _); simpl in Hp; congruence. }
    rewrite bool_decide_false by done. split; [by destruct (is_utf8 target)|].
    split; [by destruct (is_utf8 target)|].
    destruct (raw_target_authority target) as [|scheme authority pq|] eqn:Hr; [done| |done].
    split; [by apply raw_target_authority_pieces in Hr as [? _]|]. intros Hu Hpq.
    rewrite (from_utf8_lossy_valid pq Hu) in Hp. destruct pq as [|c pq]; [done|].
    destruct (uri_with_path_and_query _) as [u|]; [|done]. congruence.
Qed.

End target.

(** ** A header map and a crate to run the definitions with *)

Definition amap (A : Type) : Type := list (list byte * A).

Definition MAX_SIZE : nat := 32768.

#[export] Instance amap_ops : HMap amap := {
  hm_empty A := [];
  hm_iter A m := m;
  hm_try_append A (m : list (list byte * A)) k v :=
    if bool_decide (length m < MAX_SIZE)%nat
    then Some (m ++ [(k, v)], existsb (fun kv => bool_decide (kv.1 = k)) m) else None;
  hm_insert A (m : list (list byte * A)) k v :=
    if bool_decide (length m < MAX_SIZE)%nat
    then Some (filter (fun kv => kv.1 <> k) m ++ [(k, v)]) else None;
  hm_remove A (m : list (list byte * A)) k := (head (map snd (filter (fun kv => kv.1 = k) m)), filter (fun kv => kv.1 <> k) m)
}.

Lemma amap_others {A} (m : list (list byte * A)) k k' :
  k' <> k -> filter (fun kv => kv.1 = k') (filter (fun kv => kv.1 <> k) m) = filter (fun kv => kv.1 = k') m.
Proof.
  intros Hne. induction m as [|[a v] m IH]; [done|]. destruct (decide (a = k)) as [->|Hd].
  - by rewrite !filter_cons_False by (simpl; congruence).
  - rewrite (filter_cons_True _ (a, v) m) by done. rewrite !(filter_cons _ (a, v)). by rewrite IH.
Qed.

Lemma amap_gone {A} (m : list (list byte * A)) k : filter (fun kv => kv.1 = k) (filter (fun kv => kv.1 <> k) m) = [].
Proof.
  induction m as [|[a v] m IH]; [done|]. destruct (decide (a = k)) as [->|Hd].
  - by rewrite filter_cons_False by (simpl; congruence).
  - rewrite (filter_cons_True _ (a, v) m) by done. by rewrite filter_cons_False.
Qed.

Lemma amap_filter_names {A B} (m : list (list byte * A)) (n : list (list byte * B)) k :
  map fst m = map fst n ->
  map fst (filter (fun kv => kv.1 <> k) m) = map fst (filter (fun kv => kv.1 <> k) n).
Proof.
  revert n. induction m as [|[a v] m IH]; intros [|[b w] n]; simpl; try done.
  intros [= -> Hm]. rewrite !filter_cons. simpl. case_decide; simpl; [f_equal|]; by apply IH.
Qed.

Lemma amap_length {A B} (m : list (list byte * A)) (n : list (list byte * B)) : map fst m = map fst n -> length m = length n.
Proof. intros Hm. rewrite <- (length_map fst m), Hm. apply length_map. Qed.

#[export, refine] Instance amap_laws : HMapLaws amap := {
  same_order A B m n := map fst m = map fst n
}.
Proof.
  - done.
  - unfold amap in *. intros A m m' k v b. simpl. case_bool_decide; [|done]. intros [= <- _]. unfold hm_get_all. simpl.
    split; [by rewrite filter_app, filter_cons_True, map_app|].
    intros k' Hk'. rewrite filter_app, filter_cons_False by (simpl; congruence). by rewrite app_nil_r.
  - unfold amap in *. intros A m m' k v. simpl. case_bool_decide; [|done]. intros [= <-]. unfold hm_get_all. simpl.
    split; [by rewrite filter_app, amap_gone, filter_cons_True|].
    intros k' Hk'. rewrite filter_app, amap_others, filter_cons_False by (simpl; congruence).
    by rewrite app_nil_r.
  - done.
  - unfold amap in *. intros A m k. unfold hm_get_all. simpl. split; [by rewrite amap_gone|].
    intros k' Hk'. by rewrite amap_others.
  - unfold amap in *. intros A m k. unfold hm_get_all. simpl. induction m as [|[a v] m IH]; [done|].
    rewrite filter_cons. case_decide as Hd; [done|]. intros Hm. rewrite filter_cons_True by done.
    by rewrite IH.
  - done.
  - done.
  - unfold amap in *. intros A B m n k v w Hs. simpl. rewrite (amap_length m n Hs). case_bool_decide; [|done].
    by rewrite !map_app, Hs.
  - unfold amap in *. intros A B m n k v w Hs. simpl. rewrite (amap_length m n Hs). case_bool_decide; [|done].
    rewrite !map_app. f_equal. by apply amap_filter_names.
  - unfold amap in *. intros A B m n k Hs. simpl. by apply amap_filter_names.
Defined.

#[export] Instance simple_crate : HttpCrate (list byte) := {
  header_name_of s := if bool_decide (s = []) then None else Some (lowercase s);
  header_value_of s := Some s;
  value_is_visible s := forallb (fun c => in_range 32 126 c || bool_decide (c = Byte.x09)) s;
  method_of s := if bool_decide (s = []) then None else Some s;
  canonical_reason c := if c =? 200 then Some (bytes_of "OK") else None;
  uri_default := bytes_of "/";
  uri_with_path_and_query p := Some (if bool_decide (p = []) then bytes_of "/" else p);
  uri_path_and_query u := Some u;
  uri_authority u := None;
  parse_authority a :=
    match position (fun c => bool_decide (c = Byte.x3a)) a with
    | Some i => Some (take i a, true)
    | None => if bool_decide (a = []) then None else Some (a, false)
    end
}.

#[export] Instance simple_uri : UriLaws (Uri := list byte).
Proof. constructor. intros p u _ [= <-]. done. Qed.

Definition host_once : @Maps amap :=
  (append_header_value (Some (hm_empty _), hm_empty _) (FromText (bytes_of "x-A")) (bytes_of "1")).1.
Definition host_twice : @Maps amap :=
  (append_header_value host_once (FromText (bytes_of "X-a")) (bytes_of "2")).1.

Lemma header_wire_exact_witness :
  exists fs, header_to_h1_wire host_twice = Some (concat (map wire_field fs)) /\
    filter (fun f => header_name_of f.1 = Some (bytes_of "x-a")) fs =
      [(bytes_of "x-A", bytes_of "1"); (bytes_of "X-a", bytes_of "2")].
Proof.
  set (s1 := set_fields (fun _ => []) (bytes_of "x-a") [(bytes_of "x-A", bytes_of "1")]).
  destruct (header_wire_exact host_twice
    (set_fields s1 (bytes_of "x-a") (s1 (bytes_of "x-a") ++ [(bytes_of "X-a", bytes_of "2")])))
    as (fs & Hw & Hf & _).
  - apply (built_append host_once s1 (FromText (bytes_of "X-a")) (bytes_of "2") _ true (bytes_of "x-a"));
      [|reflexivity..].
    apply (built_append (Some (hm_empty _), hm_empty _) (fun _ => []) (FromText (bytes_of "x-A"))
             (bytes_of "1") _ false (bytes_of "x-a")); [apply built_new|reflexivity..].
  - exists fs. split; [exact Hw|]. rewrite Hf. reflexivity.
Defined.

Lemma request_target_kept_witness :
  match set_raw_path (hmap := amap) (bytes_of "http://host/a?b#c") req_new_no_case with
  | inl r => raw_path r = bytes_of "http://host/a?b" /\ req_uri r = bytes_of "/a?b"
  | inr _ => False
  end.
Proof.
  destruct (set_raw_path (hmap := amap) (bytes_of "http://host/a?b#c") req_new_no_case) as [r|e] eqn:Hr;
    [|by vm_compute in Hr].
  destruct (request_target_kept _ _ _ Hr) as (Hp & _ & Ha). split; [by rewrite Hp|].
  destruct (Ha) as [_ Hu]. specialize (Hu eq_refl ltac:(done)). by injection Hu.
Defined.
