(* ===== verification/Parser.v ===== *)
(** * The HTTP/1 parser front end

    [src/pingora-http-parser/src/lib.rs] and [backend.rs]: how a message head is
    parsed by [httparse] under a limit on the number of its fields, with a second
    pass when the inline storage is too small.  [httparse] itself is a parameter;
    allocating the larger storage is taken to succeed. *)

From stdpp Require Import base list numbers strings.
From Stdlib Require Import ZArith Lia.
From S2P Require Import Prelude Text.
Local Open Scope Z_scope.

Definition INLINE_HEADER_CAPACITY : Z := 256.

Inductive HeaderLimit := Limited (max : Z) | Unlimited.

Definition header_limit_max (l : HeaderLimit) : option Z :=
  match l with Limited max => Some max | Unlimited => None end.
Definition DEFAULT_HEADER_LIMIT : HeaderLimit := Limited INLINE_HEADER_CAPACITY.

Record ResponseParserConfig := MkRespConfig {
  header_limit : HeaderLimit;
  allow_spaces_after_header_name_in_responses : bool;
  allow_obsolete_multiline_headers_in_responses : bool
}.

Definition response_config_new (l : HeaderLimit) : ResponseParserConfig := MkRespConfig l false false.

Inductive ParseError :=
| PHeaderName | PHeaderValue | PNewLine | PStatus | PToken | PTooManyHeaders | PVersion.

#[export] Instance ParseError_eq_dec : EqDecision ParseError.
Proof. solve_decision. Defined.

Inductive ParseStatus (A : Type) := PComplete (consumed : Z) (a : A) | PPartial.
Arguments PComplete {A} consumed a.
Arguments PPartial {A}.

(** A field: offset and length of its name and of its value in the buffer. *)
Record ParsedHeader := MkParsed { name_at : Z; name_len : Z; value_at : Z; value_len : Z }.

Record ParsedRequest := MkPReq {
  pr_method : option (list byte);
  pr_path : option (list byte);
  pr_version : option Z;
  pr_headers : list ParsedHeader
}.

Record ParsedResponse := MkPResp {
  pp_version : option Z;
  pp_code : option Z;
  pp_reason : option (list byte);
  pp_headers : list ParsedHeader
}.

Definition initial_capacity (limit : HeaderLimit) : Z :=
  match limit with
  | Limited limit => Z.min limit INLINE_HEADER_CAPACITY
  | Unlimited => INLINE_HEADER_CAPACITY
  end.

(** Is the header complete after this line feed? *)
Definition header_complete (remainder : list byte) : bool :=
  match remainder with
  | a :: r => bool_decide (a = LF) ||
              (bool_decide (a = CR) && match r with b :: _ => bool_decide (b = LF) | [] => false end)
  | [] => false
  end.

Fixpoint present_fields (count : Z) (buf : list byte) : Z :=
  match buf with
  | [] => count
  | c :: rest =>
      if bool_decide (c = LF) then
        let count := count + 1 in
        if header_complete rest then count + 1 else present_fields count rest
      else present_fields count rest
  end.

Definition saturating_add (a b : Z) : Z := Z.min (a + b) usize_max.

Definition expanded_capacity (limit : HeaderLimit) (current : Z) (buf : list byte) : option Z :=
  let present_fields_upper_bound := Z.max (present_fields 0 buf) (saturating_add current 1) in
  match limit with
  | Limited limit =>
      if current <? limit then Some (Z.min limit present_fields_upper_bound) else None
  | Unlimited => Some present_fields_upper_bound
  end.

Section parse.
Context {Head : Type}.
(** [parse_request_once], [parse_response_once]: one pass of the parser with
    room for so many fields. *)
Variable parse_once : Z -> list byte -> ParseStatus Head + ParseError.

(** [parse_request] and [parse_response]. *)
Definition parse_head (buf : list byte) (limit : HeaderLimit) : ParseStatus Head + ParseError :=
  let inline_capacity := initial_capacity limit in
  match parse_once inline_capacity buf with
  | inr PTooManyHeaders =>
      match expanded_capacity limit inline_capacity buf with
      | Some capacity => parse_once capacity buf
      | None => inr PTooManyHeaders
      end
  | result => result
  end.

End parse.

(** ** The limit *)

(** A parser that stores one field per line: it gives the same result however
    much room it has beyond the fields it meets, and stops when there is none. *)
Class FieldsPerLine {Head} (parse_once : Z -> list byte -> ParseStatus Head + ParseError) := {
  fields_met : list byte -> Z;
  parse_free : list byte -> ParseStatus Head + ParseError;
  once_enough : forall cap buf, fields_met buf <= cap -> parse_once cap buf = parse_free buf;
  once_short : forall cap buf, cap < fields_met buf -> parse_once cap buf = inr PTooManyHeaders;
  fields_bound : forall buf, fields_met buf <= present_fields 0 buf;
  free_no_limit : forall buf, parse_free buf <> inr PTooManyHeaders
}.

(** The second pass makes the limit exact: a head is refused for its number of
    fields exactly when it has more than the limit, and is otherwise parsed as if
    there were no limit. *)
Theorem header_limit_exact {Head} (parse_once : Z -> list byte -> ParseStatus Head + ParseError)
    `{!FieldsPerLine parse_once} buf limit :
  parse_head parse_once buf limit =
  match header_limit_max limit with
  | Some max => if fields_met buf <=? max then parse_free buf else inr PTooManyHeaders
  | None => parse_free buf
  end.
Proof.
  unfold parse_head. set (c := initial_capacity limit).
  assert (fields_met buf <= c -> match parse_once c buf with
            | inr PTooManyHeaders => match expanded_capacity limit c buf with
                                     | Some capacity => parse_once capacity buf
                                     | None => inr PTooManyHeaders end
            | result => result end = parse_free buf) as Hfits.
  { intros Hle. rewrite once_enough by done. pose proof (free_no_limit buf).
    destruct (parse_free buf) as [|[]]; congruence. }
  destruct (Z.le_gt_cases (fields_met buf) c) as [Hle|Hgt].
  - rewrite Hfits by done. destruct limit as [max|]; simpl in *; [|done].
    destruct (Z.leb_spec (fields_met buf) max); [done|]. unfold c, initial_capacity in Hle. lia.
  - rewrite once_short by lia. pose proof (fields_bound buf) as Hb.
    unfold expanded_capacity. destruct limit as [max|]; simpl in *.
    + destruct (Z.ltb_spec c max) as [Hc|Hc].
      * destruct (Z.leb_spec (fields_met buf) max); [by apply once_enough; lia|].
        apply once_short. lia.
      * destruct (Z.leb_spec (fields_met buf) max); [lia|done].
    + apply once_enough. lia.
Qed.

(** ** A head in a buffer *)

(** A head the parser recognizes: in every buffer that starts with it, and not
    in a part of it. *)
Definition parses_to {Head} (parse_once : Z -> list byte -> ParseStatus Head + ParseError)
    (lim : HeaderLimit) (head : list byte) (p : Head) : Prop :=
  (forall k, 0 < k < zlen head -> parse_head parse_once (ztake k head) lim = inl PPartial) /\
  (forall rest, parse_head parse_once (head ++ rest) lim = inl (PComplete (zlen head) p)).

(** A parser that knows one head. *)
Definition one_head {Head} (head : list byte) (p : Head) (cap : Z) (buf : list byte)
    : ParseStatus Head + ParseError :=
  match strip_prefix head buf, strip_prefix buf head with
  | Some _, _ => inl (PComplete (zlen head) p)
  | None, Some _ => inl PPartial
  | None, None => inr PToken
  end.

Lemma one_head_partial {Head} cap head (p : Head) k :
  0 < k < zlen head -> one_head head p cap (ztake k head) = inl PPartial.
Proof.
  intros Hk. unfold one_head. destruct (strip_prefix head (ztake k head)) as [rest|] eqn:Hs.
  - apply strip_prefix_spec in Hs. apply (f_equal zlen) in Hs.
    rewrite zlen_app, zlen_ztake in Hs by lia. pose proof (zlen_nonneg rest). lia.
  - pose proof (strip_prefix_app (ztake k head) (zdrop k head)) as Hp.
    rewrite ztake_zdrop in Hp. by rewrite Hp.
Qed.

Lemma one_head_complete {Head} cap head (p : Head) rest :
  one_head head p cap (head ++ rest) = inl (PComplete (zlen head) p).
Proof. unfold one_head. by rewrite strip_prefix_app. Qed.

Lemma one_head_parses {Head} lim head (p : Head) : parses_to (one_head head p) lim head p.
Proof.
  split; unfold parse_head.
  - intros k Hk. by rewrite one_head_partial.
  - intros rest. by rewrite one_head_complete.
Qed.

(** A parser that knows two heads. *)
Definition two_heads {Head} (h1 : list byte) (p1 : Head) (h2 : list byte) (p2 : Head) (cap : Z) (buf : list byte)
    : ParseStatus Head + ParseError :=
  match one_head h1 p1 cap buf with inr _ => one_head h2 p2 cap buf | r => r end.

Lemma two_heads_first {Head} lim h1 (p1 : Head) h2 p2 : parses_to (two_heads h1 p1 h2 p2) lim h1 p1.
Proof.
  split; unfold parse_head, two_heads.
  - intros k Hk. by rewrite one_head_partial.
  - intros rest. by rewrite one_head_complete.
Qed.

Lemma two_heads_second {Head} lim h1 (p1 : Head) h2 p2 :
  (forall rest, strip_prefix h1 (h2 ++ rest) = None /\ strip_prefix (h2 ++ rest) h1 = None) ->
  parses_to (two_heads h1 p1 h2 p2) lim h2 p2.
Proof.
  intros Hd.
  assert (forall cap k, 0 < k < zlen h2 -> two_heads h1 p1 h2 p2 cap (ztake k h2) = inl PPartial) as Hpart.
  { intros cap k Hk. unfold two_heads, one_head at 1.
    destruct (strip_prefix h1 (ztake k h2)) as [r|] eqn:Hs.
    - apply strip_prefix_spec in Hs. destruct (Hd []) as [Hn _]. rewrite app_nil_r in Hn.
      rewrite <- (ztake_zdrop k h2), Hs, <- app_assoc, strip_prefix_app in Hn. done.
    - destruct (strip_prefix (ztake k h2) h1); [done|]. by apply one_head_partial. }
  split; unfold parse_head.
  - intros k Hk. by rewrite Hpart.
  - intros rest. unfold two_heads, one_head at 1 3. destruct (Hd rest) as [-> ->]. by rewrite one_head_complete.
Qed.
