(* ===== verification/BodyReader.v ===== *)
(** * HTTP/1 body reader

    [BodyReader] of [src/pingora-core/src/protocols/http/v1/body.rs]: the state
    machine that cuts a message body out of a byte stream (Content-Length,
    chunked transfer coding with trailers, read-until-close), together with the
    bytes it reads past the end of the body.  [BufRef] is from
    [src/pingora-core/src/utils/mod.rs].

    The stream is the list of what its successive polls give; the chunk-size
    line parser is [httparse]'s and therefore a parameter. *)

From stdpp Require Import base list numbers strings.
From S2P Require Import Prelude Errors.
Local Open Scope Z_scope.

Definition BODY_BUFFER_SIZE : Z := 1024 * 64.
Definition PARTIAL_CHUNK_HEAD_LIMIT : Z := 1024 * 8.
Definition TRAILER_SIZE_LIMIT : Z := 1024 * 64.
Definition TRAILERS_END : list byte := [CR; LF; CR; LF].

Definition INVALID_CHUNK : ErrorType := Custom "InvalidChunk".
Definition INVALID_TRAILER_END : ErrorType := Custom "InvalidTrailerEnd".
Definition PREMATURE_BODY_END : ErrorType := Custom "PrematureBodyEnd".

(** ** BufRef *)

Record BufRef := BufRefMk { bref_start : Z; bref_end : Z }.

Definition BufRef_new (start len : Z) : BufRef := BufRefMk start (wadd start len).
Definition BufRef_get (r : BufRef) (buf : list byte) : option (list byte) :=
  slice buf (bref_start r) (bref_end r).
Definition BufRef_len (r : BufRef) : Z := wsub (bref_end r) (bref_start r).
Definition BufRef_is_empty (r : BufRef) : bool := bref_end r =? bref_start r.

(** ** ParseState *)

Inductive ParseState :=
| ToStart
| Complete (total : Z)
| Partial (read remaining : Z)
| Chunked (read existing_start existing_end expecting : Z)
| ChunkedFinal (read trailers_read existing_end end_read : Z)
| Done (read : Z)
| UntilClose (read : Z).

#[export] Instance ParseState_eq_dec : EqDecision ParseState.
Proof. solve_decision. Defined.

Definition ps_finish (s : ParseState) (additional_bytes : Z) : ParseState :=
  match s with
  | Partial read to_read => Complete (wadd read to_read)
  | Chunked read _ _ _ => Complete (wadd read additional_bytes)
  | ChunkedFinal read _ _ _ => Complete (wadd read additional_bytes)
  | UntilClose read => Complete (wadd read additional_bytes)
  | _ => s
  end.

Definition ps_done (s : ParseState) (additional_bytes : Z) : ParseState :=
  match s with
  | Partial read _ => Done (wadd read additional_bytes)
  | Chunked read _ _ _ => Done (wadd read additional_bytes)
  | ChunkedFinal read _ _ _ => Done (wadd read additional_bytes)
  | UntilClose read => Done (wadd read additional_bytes)
  | _ => s
  end.

(** The next five panic ([None]) once the final chunk has been read. *)
Definition read_final_chunk (s : ParseState) (remaining_buf_size : Z) : option ParseState :=
  match s with
  | Chunked read _ _ _ => Some (ChunkedFinal read 0 remaining_buf_size 2)
  | ChunkedFinal _ _ _ _ => None
  | _ => Some s
  end.

Definition partial_chunk (s : ParseState) (bytes_read bytes_to_read : Z) : option ParseState :=
  match s with
  | Chunked read _ _ _ => Some (Chunked (wadd read bytes_read) 0 0 bytes_to_read)
  | ChunkedFinal _ _ _ _ => None
  | _ => Some s
  end.

Definition multi_chunk (s : ParseState) (bytes_read buf_start_index : Z) : option ParseState :=
  match s with
  | Chunked read _ buf_end _ => Some (Chunked (wadd read bytes_read) buf_start_index buf_end 0)
  | ChunkedFinal _ _ _ _ => None
  | _ => Some s
  end.

Definition partial_chunk_head (s : ParseState) (head_end head_size : Z) : option ParseState :=
  match s with
  | Chunked read _ _ _ => Some (Chunked read 0 head_end head_size)
  | ChunkedFinal _ _ _ _ => None
  | _ => Some s
  end.

Definition new_buf (s : ParseState) (buf_end : Z) : option ParseState :=
  match s with
  | Chunked read _ _ _ => Some (Chunked read 0 buf_end 0)
  | ChunkedFinal _ _ _ _ => None
  | _ => Some s
  end.

(** ** The reader *)

Record BodyReader := mkReader {
  body_state : ParseState;
  body_buf : option (list byte);
  body_buf_size : Z;
  rewind_buf_len : Z;
  upstream : bool;
  body_buf_overread : option (list byte)
}.

Definition set_state (s : ParseState) (r : BodyReader) : BodyReader :=
  mkReader s (body_buf r) (body_buf_size r) (rewind_buf_len r) (upstream r)
    (body_buf_overread r).
Definition set_buf (b : option (list byte)) (r : BodyReader) : BodyReader :=
  mkReader (body_state r) b (body_buf_size r) (rewind_buf_len r) (upstream r)
    (body_buf_overread r).
Definition set_rewind (n : Z) (r : BodyReader) : BodyReader :=
  mkReader (body_state r) (body_buf r) (body_buf_size r) n (upstream r)
    (body_buf_overread r).
Definition set_overread (b : option (list byte)) (r : BodyReader) : BodyReader :=
  mkReader (body_state r) (body_buf r) (body_buf_size r) (rewind_buf_len r) (upstream r) b.

Definition new (upstream : bool) : BodyReader :=
  mkReader ToStart None BODY_BUFFER_SIZE 0 upstream None.

Definition need_init (r : BodyReader) : bool :=
  match body_state r with ToStart => true | _ => false end.

Definition reinit (r : BodyReader) : BodyReader := set_state ToStart r.

(** Capacities are not modelled: a fresh buffer with the rewound bytes in it. *)
Definition prepare_buf (buf_to_rewind : list byte) (r : BodyReader) : BodyReader :=
  let r := if bool_decide (buf_to_rewind = []) then r
           else set_rewind (zlen buf_to_rewind) r in
  set_buf (Some buf_to_rewind) r.

Definition prepare_owned_buf (buf_to_rewind : list byte) (r : BodyReader) : BodyReader :=
  set_buf (Some buf_to_rewind) (set_rewind (zlen buf_to_rewind) r).

(** [prepare_buf_for_io]: [get_or_insert_default], [clear], [reserve]. *)
Definition prepare_buf_for_io (r : BodyReader) : BodyReader := set_buf (Some []) r.

(** [reserve_buf_for_io]: [get_or_insert_default], [reserve]. *)
Definition reserve_buf_for_io (r : BodyReader) : BodyReader :=
  set_buf (Some (default [] (body_buf r))) r.

Definition init_chunked (buf_to_rewind : list byte) (r : BodyReader) : BodyReader :=
  prepare_buf buf_to_rewind (set_state (Chunked 0 0 0 0) r).

Definition init_chunked_owned (buf_to_rewind : list byte) (r : BodyReader) : BodyReader :=
  prepare_owned_buf buf_to_rewind (set_state (Chunked 0 0 0 0) r).

Definition init_content_length (cl : Z) (buf_to_rewind : list byte) (r : BodyReader)
    : BodyReader :=
  if cl =? 0 then
    let r := set_state (Complete 0) r in
    if bool_decide (buf_to_rewind = []) then r
    else set_overread (Some buf_to_rewind) r
  else
    set_state (Partial 0 cl) (prepare_buf buf_to_rewind r).

Definition init_content_length_owned (cl : Z) (buf_to_rewind : list byte) (r : BodyReader)
    : BodyReader :=
  if cl =? 0 then
    set_overread (if bool_decide (buf_to_rewind = []) then None else Some buf_to_rewind)
      (set_state (Complete 0) r)
  else
    set_state (Partial 0 cl) (prepare_owned_buf buf_to_rewind r).

Definition init_close_delimited (buf_to_rewind : list byte) (r : BodyReader) : BodyReader :=
  set_state (UntilClose 0) (prepare_buf buf_to_rewind r).

Definition init_close_delimited_owned (buf_to_rewind : list byte) (r : BodyReader)
    : BodyReader :=
  set_state (UntilClose 0) (prepare_owned_buf buf_to_rewind r).

Definition convert_to_close_delimited (r : BodyReader) : BodyReader :=
  match body_state r with
  | UntilClose _ => r
  | _ =>
      let r := if rewind_buf_len r =? 0 then
                 let extra := default [] (body_buf_overread r) in
                 prepare_owned_buf extra (set_overread None r)
               else r in
      set_state (UntilClose 0) r
  end.

Definition get_body (r : BodyReader) (ref : BufRef) : option (list byte) :=
  match body_buf r with Some b => BufRef_get ref b | None => None end.

Definition get_body_overread (r : BodyReader) : option (list byte) := body_buf_overread r.

Definition has_bytes_overread (r : BodyReader) : bool :=
  match body_buf_overread r with Some b => bool_decide (b <> []) | None => false end.

Definition take_body_overread (r : BodyReader) : option (list byte) * BodyReader :=
  (body_buf_overread r, set_overread None r).

Definition push_body_overread (bytes : list byte) (r : BodyReader) : BodyReader :=
  if bool_decide (bytes = []) then r
  else match body_buf_overread r with
       | Some buf => set_overread (Some (buf ++ bytes)) r
       | None => set_overread (Some bytes) r
       end.

Definition body_done (r : BodyReader) : bool :=
  match body_state r with Complete _ | Done _ => true | _ => false end.

Definition body_complete (r : BodyReader) : bool :=
  match body_state r with Complete _ => true | _ => false end.

Definition body_empty (r : BodyReader) : bool :=
  bool_decide (body_state r = Complete 0).

(** [BytesMut::split_off(at)] keeps [0, at) and returns the rest. *)
Definition finish_body_buf (end_of_body total_read : Z) (r : BodyReader)
    : option BodyReader :=
  match body_buf r with
  | None => None
  | Some b =>
      let b := ztake total_read b in
      if end_of_body <=? zlen b then
        let overread := zdrop end_of_body b in
        Some (set_overread (if bool_decide (overread = []) then None else Some overread)
                (set_buf (Some (ztake end_of_body b)) r))
      else None
  end.

(** ** The stream *)

(** What one poll of the stream gives: bytes (none: end of stream), an I/O
    error, or nothing yet, in which case the pending future is dropped. *)
Inductive rd_event := RData (bs : list byte) | RErr | RPend.

Definition reader_io : Type := BodyReader * list rd_event.

Definition RM (A : Type) : Type := M reader_io ErrorType A.

Definition upd (f : BodyReader -> BodyReader) : RM unit :=
  modify (fun s => (f s.1, s.2)).
Definition self : RM BodyReader := fun s => Val s.1 s.

(** [stream.take(limit).read_buf(body_buf).await], with [ReadError] on failure:
    at most [limit] bytes are appended to [body_buf] and counted. *)
Definition read_buf (limit : Z) : RM Z :=
  fun '(r, st) =>
    if limit =? 0 then Val 0 (r, st)
    else match st with
         | [] => Val 0 (r, [])
         | RPend :: st' => Cancelled (r, st')
         | RErr :: st' => Fail ReadError (r, st')
         | RData bs :: st' =>
             let now := ztake limit bs in
             let later := zdrop limit bs in
             Val (zlen now)
               (set_buf (Some (default [] (body_buf r) ++ now)) r,
                if bool_decide (later = []) then st' else RData later :: st')
         end.

(** ** Content-Length bodies *)

Definition do_read_body : RM (option BufRef) :=
  let! r := self in
  let n := rewind_buf_len r in
  do! upd (set_rewind 0);
  let read_size :=
    match body_state r with
    | Partial _ remaining =>
        if negb (upstream r) then Z.min remaining (body_buf_size r) else body_buf_size r
    | _ => body_buf_size r
    end in
  let! n := (if n =? 0 then do! upd prepare_buf_for_io; read_buf read_size
             else ret n) in
  match body_state r with
  | Partial read to_read =>
      if n =? 0 then
        do! upd (set_state (Done read)); fail ConnectionClosed
      else if to_read <=? n then
        do! upd (set_state (Complete (wadd read to_read)));
        let! r := self in
        let! r := unwrap (finish_body_buf to_read n r) in
        do! upd (fun _ => r);
        ret (Some (BufRef_new 0 to_read))
      else
        do! upd (set_state (Partial (wadd read n) (wsub to_read n)));
        ret (Some (BufRef_new 0 n))
  | _ => panic
  end.

(** ** Close-delimited bodies *)

Definition do_read_body_until_closed : RM (option BufRef) :=
  let! r := self in
  let n := rewind_buf_len r in
  do! upd (set_rewind 0);
  let! n := (if n =? 0 then do! upd prepare_buf_for_io; read_buf (body_buf_size r)
             else ret n) in
  match body_state r with
  | UntilClose read =>
      if n =? 0 then do! upd (set_state (Complete read)); ret None
      else do! upd (set_state (UntilClose (wadd read n))); ret (Some (BufRef_new 0 n))
  | _ => panic
  end.

(** ** Chunked bodies *)

(** [Result<Status<u64>, InvalidChunkSize>] of [pingora_http_parser]. *)
Inductive chunk_status :=
| CsInvalid
| CsPartial
| CsComplete (consumed size : Z).

(** Replaces the parse state through a transition that may panic. *)
Definition upd_state (f : ParseState -> option ParseState) : RM unit :=
  let! r := self in
  let! s := unwrap (f (body_state r)) in
  upd (set_state s).
(** [*body_state = body_state.done(0)] and the error. *)
Definition fail_done {A} (e : ErrorType) : RM A :=
  do! upd_state (fun s => Some (ps_done s 0)); fail e.

Definition validate_crlf (buf : list byte) (need_lf_only for_trailer_end : bool) : RM bool :=
  let etype := if for_trailer_end then INVALID_TRAILER_END else INVALID_CHUNK in
  if need_lf_only then
    match buf with
    | [] => ret false
    | b :: _ => if bool_decide (b = LF) then ret true else fail_done etype
    end
  else
    match buf with
    | [] => ret false
    | [b] => if bool_decide (b = CR) then ret false else fail_done etype
    | b1 :: b2 :: _ => if bool_decide (b1 = CR /\ b2 = LF) then ret true else fail_done etype
    end.

(** What the reader relies on for its indices: a complete chunk-size line is
    part of the buffer, and the size is a [u64]. *)
Class ChunkSizeBounds (parse : list byte -> chunk_status) : Prop := {
  cs_bounds : forall buf c n,
    parse buf = CsComplete c n -> 0 <= c <= zlen buf /\ 0 <= n < usize_mod
}.

Section chunked.
Variable parse_chunk_size : list byte -> chunk_status.

(** The terminating chunk: [payload_index] is just after "0" CRLF. *)
Definition parse_last_chunk (buf : list byte) (payload_index buf_index_start buf_index_end : Z)
    : RM (option BufRef * option Z) :=
  match checked_add payload_index 2 with
  | None => fail_done INVALID_CHUNK
  | Some chunk_end_index =>
      if (chunk_end_index <=? zlen buf)
         && bool_decide (slice buf payload_index chunk_end_index = Some CRLF)
      then
        do! upd_state (fun s => Some (ps_finish s 0));
        let! r := self in
        let! r := unwrap (finish_body_buf (wadd buf_index_start chunk_end_index)
                            buf_index_end r) in
        do! upd (fun _ => r);
        ret (None, Some (wadd buf_index_start payload_index))
      else
        do! upd_state (fun s => read_final_chunk s
                         (wsub buf_index_end (wadd buf_index_start payload_index)));
        ret (Some (BufRef_new 0 0), Some (wadd buf_index_start payload_index))
  end.

(** A chunk with data. *)
Definition parse_data_chunk (buf : list byte) (payload_index chunk_size buf_index_start : Z)
    : RM (option BufRef * option Z) :=
  match checked_add payload_index chunk_size with
  | None => fail_done INVALID_CHUNK
  | Some data_end_index =>
      match checked_add data_end_index 2 with
      | None => fail_done INVALID_CHUNK
      | Some chunk_end_index =>
          if zlen buf <=? chunk_end_index then
            let actual_size :=
              if zlen buf <? data_end_index then wsub (zlen buf) payload_index
              else chunk_size in
            let crlf_start := saturating_sub chunk_end_index 2 in
            let! _ := (if crlf_start <? zlen buf then
                         let! b := unwrap (slice buf crlf_start (zlen buf)) in
                         validate_crlf b false false
                       else ret false) in
            do! upd_state (fun s => partial_chunk s actual_size
                                      (wsub chunk_end_index (zlen buf)));
            ret (Some (BufRef_new (wadd buf_index_start payload_index) actual_size), None)
          else
            let! b := unwrap (slice buf data_end_index chunk_end_index) in
            let! ok := validate_crlf b false false in
            do! assert ok;
            do! upd_state (fun s => multi_chunk s chunk_size
                                      (wadd buf_index_start chunk_end_index));
            ret (Some (BufRef_new (wadd buf_index_start payload_index) chunk_size), None)
      end
  end.

Definition parse_chunked_buf (buf_index_start buf_index_end : Z)
    : RM (option BufRef * option Z) :=
  let! r := self in
  let! body_buf := unwrap (body_buf r) in
  let! buf := unwrap (slice body_buf buf_index_start buf_index_end) in
  match parse_chunk_size buf with
  | CsComplete payload_index chunk_size =>
      if usize_max <? chunk_size then fail_done INVALID_CHUNK
      else if chunk_size =? 0 then
        parse_last_chunk buf payload_index buf_index_start buf_index_end
      else parse_data_chunk buf payload_index chunk_size buf_index_start
  | CsPartial =>
      if PARTIAL_CHUNK_HEAD_LIMIT <? zlen buf then fail_done INVALID_CHUNK
      else
        do! upd_state (fun s => partial_chunk_head s buf_index_end (zlen buf));
        ret (Some (BufRef_new 0 0), None)
  | CsInvalid => fail_done INVALID_CHUNK
  end.

(** The read that extends a partial chunk head of [expecting_from_io] bytes. *)
Definition read_more_head (size expecting_from_io : Z) : RM (Z * Z) :=
  let! new_bytes := read_buf (wsub size expecting_from_io) in
  if new_bytes =? 0 then
    do! upd_state (fun s => Some (ps_done s 0)); fail ConnectionClosed
  else ret (wadd expecting_from_io new_bytes, 0).

(** A partial chunk head: compact it to the front, commit the new offsets, and
    read more. *)
Definition fill_partial_head (existing_buf_end expecting_from_io : Z) : RM (Z * Z) :=
  do! upd reserve_buf_for_io;
  let! r := self in
  let! buf := unwrap (body_buf r) in
  let partial_head_start := wsub existing_buf_end expecting_from_io in
  let! buf := (if negb (partial_head_start =? 0) then
                 (* [copy_within(partial_head_start..existing_buf_end, 0)] *)
                 let! head := unwrap (slice buf partial_head_start existing_buf_end) in
                 ret (head ++ zdrop (zlen head) buf)
               else ret buf) in
  do! upd (set_buf (Some (ztake expecting_from_io buf)));
  do! upd_state (fun s => partial_chunk_head s expecting_from_io expecting_from_io);
  read_more_head (body_buf_size r) expecting_from_io.

(** First half of [do_read_chunked_body]: make sure there are buffered bytes.
    Returns the updated [existing_buf_end] and [expecting_from_io]. *)
Definition chunked_fill (existing_buf_start existing_buf_end expecting_from_io : Z)
    : RM (Z * Z) :=
  if existing_buf_start =? 0 then
    let! ee := (if existing_buf_end =? 0 then
        let! r := self in
        let existing_buf_end := rewind_buf_len r in
        do! upd (set_rewind 0);
        let! existing_buf_end :=
          (if existing_buf_end =? 0 then
             do! upd prepare_buf_for_io; read_buf (body_buf_size r)
           else ret existing_buf_end) in
        ret (existing_buf_end, expecting_from_io)
      else fill_partial_head existing_buf_end expecting_from_io) in
    do! upd_state (fun s => new_buf s ee.1);
    ret ee
  else ret (existing_buf_end, expecting_from_io).

(** The bytes at the front of the buffer continue a chunk's payload. *)
Definition chunked_payload (existing_buf_end expecting_from_io : Z) : RM (option BufRef) :=
  let! r := self in
  let! body_buf := unwrap (body_buf r) in
  if wadd existing_buf_end 2 <=? expecting_from_io then
    do! upd_state (fun s => partial_chunk s existing_buf_end
                              (wsub expecting_from_io existing_buf_end));
    ret (Some (BufRef_new 0 existing_buf_end))
  else
    let payload_size := saturating_sub expecting_from_io 2 in
    let need_lf_only := expecting_from_io =? 1 in
    do! (if existing_buf_end <? expecting_from_io then
           if payload_size <? existing_buf_end then
             let! b := unwrap (slice body_buf payload_size existing_buf_end) in
             let! _ := validate_crlf b need_lf_only false in
             ret tt
           else ret tt
         else
           let! b := unwrap (slice body_buf payload_size expecting_from_io) in
           let! ok := validate_crlf b need_lf_only false in
           assert ok);
    if existing_buf_end <=? expecting_from_io then
      do! upd_state (fun s => partial_chunk s payload_size
                                (wsub expecting_from_io existing_buf_end));
      ret (Some (BufRef_new 0 payload_size))
    else
      do! upd_state (fun s => multi_chunk s payload_size expecting_from_io);
      ret (Some (BufRef_new 0 payload_size)).

Definition do_read_chunked_body : RM (option BufRef) :=
  let! r := self in
  match body_state r with
  | Chunked _ existing_buf_start existing_buf_end expecting_from_io =>
      let! ee := chunked_fill existing_buf_start existing_buf_end expecting_from_io in
      let existing_buf_end := ee.1 in
      let expecting_from_io := ee.2 in
      if existing_buf_end =? 0 then fail_done ConnectionClosed
      else if 0 <? expecting_from_io then chunked_payload existing_buf_end expecting_from_io
      else
        let! res := parse_chunked_buf existing_buf_start existing_buf_end in
        match res with
        | (Some buf_res, Some idx) =>
            let! r := self in
            let! body_buf := unwrap (body_buf r) in
            let body_buf := ztake existing_buf_end body_buf in
            do! assert (idx <=? zlen body_buf);
            do! upd (set_buf (Some (zdrop idx body_buf)));
            ret (Some buf_res)
        | (buf_res, _) => ret buf_res
        end
  | _ => panic
  end.

(** ** The section after the last chunk *)

Inductive TrailersEndParseState := NotEnd (next : Z) | TrailersComplete (end_idx : Z).

Definition parse_trailers_end (buf : list byte) : RM TrailersEndParseState :=
  do! assert (bool_decide (buf <> []));
  let! r := self in
  match body_state r with
  | ChunkedFinal read trailers_read _ end_read =>
      do! assert (end_read <? zlen TRAILERS_END);
      let to_read := Z.min (zlen buf) (zlen TRAILERS_END - end_read) in
      let buf := ztake to_read buf in
      let! b0 := unwrap (head buf) in
      if (end_read mod 2 =? 0) && bool_decide (b0 <> CR) && bool_decide (b0 <> LF) then
        do! upd (set_state (ChunkedFinal read (wadd trailers_read end_read) 0 0));
        ret (NotEnd 0)
      else
        let! next_parse_index :=
          (if (end_read =? 0) || (end_read =? 2) then
             let! full := validate_crlf buf false true in
             ret (if full then 2 else 1)
           else if (end_read =? 1) || (end_read =? 3) then
             let! full := validate_crlf buf true true in
             do! assert full;
             ret 1
           else panic) in
        let next_end_read := end_read + next_parse_index in
        if next_end_read =? zlen TRAILERS_END then
          do! upd (set_state (Complete read));
          ret (TrailersComplete next_parse_index)
        else
          do! upd (set_state (ChunkedFinal read trailers_read 0 next_end_read));
          ret (NotEnd next_parse_index)
  | _ => panic
  end.

(** [buf.iter().position(|b| *b == CR || *b == LF)] *)
Fixpoint crlf_position (buf : list byte) : option Z :=
  match buf with
  | [] => None
  | b :: buf' =>
      if bool_decide (b = CR \/ b = LF) then Some 0
      else option_map (Z.add 1) (crlf_position buf')
  end.

(** The [while start < n] loop over the bytes read.  Every turn consumes a byte
    or leaves a state from which the next one does, so [2 * n + 2] turns do. *)
Fixpoint trailers_loop (fuel : nat) (buf : list byte) (read start n : Z)
    : RM (option BufRef) :=
  match fuel with
  | O => panic
  | S fuel =>
      if n <=? start then ret (Some (BufRefMk 0 0))
      else
        let! r := self in
        match body_state r with
        | ChunkedFinal _ trailers_read _ end_read =>
            let! cur := unwrap (slice buf start n) in
            let! scan := (if end_read =? 0 then
                let '(trailers_read, start, cur, no_crlf) :=
                  match crlf_position cur with
                  | Some p => (wadd trailers_read p, start + p, zdrop p cur, false)
                  | None => (wadd trailers_read (wsub n start), start, cur, true)
                  end in
                if TRAILER_SIZE_LIMIT <? trailers_read then fail_done INVALID_TRAILER_END
                else
                  do! upd (set_state (ChunkedFinal read trailers_read 0 0));
                  ret (start, cur, no_crlf)
              else ret (start, cur, false)) in
            let '(start, cur, no_crlf) := scan in
            if no_crlf then ret (Some (BufRefMk 0 0))
            else
              let! t := parse_trailers_end cur in
              match t with
              | NotEnd next => trailers_loop fuel buf read (start + next) n
              | TrailersComplete end_idx =>
                  let! r := self in
                  let! r := unwrap (finish_body_buf (start + end_idx) n r) in
                  do! upd (fun _ => r);
                  ret None
              end
        | _ => panic
        end
  end.

Definition do_read_chunked_body_final : RM (option BufRef) :=
  let! r := self in
  match body_state r with
  | ChunkedFinal read trailers_read existing_buf_end end_read =>
      let! n := (if negb (existing_buf_end =? 0) then
                   do! upd (set_state (ChunkedFinal read trailers_read 0 end_read));
                   ret existing_buf_end
                 else
                   do! upd prepare_buf_for_io; read_buf (body_buf_size r)) in
      if n =? 0 then
        do! upd (set_state (Done read)); fail ConnectionClosed
      else
        let! r := self in
        let! b := unwrap (body_buf r) in
        let! buf := unwrap (slice b 0 n) in
        trailers_loop (2 * length buf + 2) buf read 0 n
  | _ => panic
  end.

Definition read_body : RM (option BufRef) :=
  let! r := self in
  match body_state r with
  | Complete _ => ret None
  | Done _ => ret None
  | Partial _ _ => do_read_body
  | Chunked _ _ _ _ => do_read_chunked_body
  | ChunkedFinal _ _ _ _ => do_read_chunked_body_final
  | UntilClose _ => do_read_body_until_closed
  | ToStart => panic
  end.

End chunked.
