(* ===== verification/BodyReaderSafety.v ===== *)
(** * HTTP/1 body reader: invariant, absence of panics, cancel safety *)

From stdpp Require Import base list numbers strings.
From S2P Require Import Prelude Errors BodyReader.
Local Open Scope Z_scope.

(** [Vec]s and [BytesMut]s are at most [isize::MAX] bytes long. *)
Definition isize_max : Z := 2 ^ 63 - 1.

(** The invariant that every public operation keeps once a body is initialised. *)
Definition buf_holds (r : BodyReader) (n : Z) : Prop :=
  exists b, body_buf r = Some b /\ n <= zlen b <= isize_max.

Definition rewind_ok (r : BodyReader) : Prop :=
  rewind_buf_len r = 0 \/
  exists b, body_buf r = Some b /\ zlen b = rewind_buf_len r /\ 0 < zlen b <= isize_max.

Definition state_ok (r : BodyReader) : Prop :=
  match body_state r with
  | ToStart => False
  | Complete _ | Done _ => rewind_ok r
  | Partial read remaining => 0 < remaining < usize_mod /\ rewind_ok r
  | UntilClose read => rewind_ok r
  | Chunked read s e x =>
      (s = 0 /\ e = 0 /\ 0 <= x < usize_mod /\ rewind_ok r) \/
      (rewind_buf_len r = 0 /\ buf_holds r e /\
       ((s = 0 /\ 0 < x <= e /\ x <= PARTIAL_CHUNK_HEAD_LIMIT) \/
        (0 < s < e /\ x = 0)))
  | ChunkedFinal read t e k =>
      rewind_buf_len r = 0 /\ 0 <= k <= 3 /\ (e = 0 \/ 0 < e /\ buf_holds r e)
  end.

Lemma rewind_ok_0 r : rewind_buf_len r = 0 -> rewind_ok r.
Proof. by left. Qed.
#[export] Hint Resolve rewind_ok_0 : core.

(** Closes [reader_ok] of a finished reader. *)
Ltac ok_done := split; unfold state_ok; simpl; auto.

Definition reader_ok (r : BodyReader) : Prop :=
  body_buf_size r = BODY_BUFFER_SIZE /\ state_ok r.

(** What a returned reference promises: it selects bytes of the buffer. *)
Definition ref_ok (r : BodyReader) (o : option BufRef) : Prop :=
  match o with
  | None => True
  | Some ref => is_Some (get_body r ref)
  end.

Definition safe_val (o : option BufRef) (s : reader_io) : Prop :=
  reader_ok s.1 /\ ref_ok s.1 o.
Definition safe_err (e : ErrorType) (s : reader_io) : Prop := reader_ok s.1.
Definition safe_cancel (s : reader_io) : Prop := reader_ok s.1.

(** ** Rules for the primitives *)

Lemma wp_self (Q : BodyReader -> reader_io -> Prop) Qe Qc s : Q s.1 s -> wp self Q Qe Qc s.
Proof. done. Qed.

Lemma wp_upd f (Q : unit -> reader_io -> Prop) Qe Qc s :
  Q tt (f s.1, s.2) -> wp (upd f) Q Qe Qc s.
Proof. done. Qed.

Lemma wp_upd_state f st' (Q : unit -> reader_io -> Prop) Qe Qc s :
  f (body_state s.1) = Some st' ->
  Q tt (set_state st' s.1, s.2) -> wp (upd_state f) Q Qe Qc s.
Proof. intros H1 H2. unfold wp, upd_state, bind, self. by rewrite H1. Qed.

Lemma wp_fail_done {A} e (Q : A -> reader_io -> Prop) Qe Qc s :
  Qe e (set_state (ps_done (body_state s.1) 0) s.1, s.2) ->
  wp (fail_done e) Q Qe Qc s.
Proof. done. Qed.

(** What an accepted CRLF prefix looks like. *)
Definition crlf_seen (lf : bool) (buf : list byte) (full : bool) : Prop :=
  if full then
    if lf then exists l, buf = LF :: l else exists l, buf = CR :: LF :: l
  else buf = [] \/ (lf = false /\ buf = [CR]).

Lemma wp_validate_crlf buf lf tr (Q : bool -> reader_io -> Prop) Qe Qc s :
  (forall full, crlf_seen lf buf full -> Q full s) ->
  (forall e, Qe e (set_state (ps_done (body_state s.1) 0) s.1, s.2)) ->
  wp (validate_crlf buf lf tr) Q Qe Qc s.
Proof.
  intros HQ HE. unfold validate_crlf.
  destruct lf, buf as [|b1 [|b2 buf]]; try case_bool_decide; simpl;
    try (apply wp_fail_done, HE); apply wp_ret, HQ; unfold crlf_seen;
    destruct_and?; subst; eauto.
Qed.

(** With enough bytes in view the whole CRLF was checked. *)
Lemma crlf_seen_full lf buf full :
  crlf_seen lf buf full -> (if lf then 1 else 2) <= zlen buf -> full = true.
Proof.
  destruct full; [done|]. intros [->|[-> ->]]; [destruct lf|];
    rewrite ?zlen_cons, ?zlen_nil; lia.
Qed.

Lemma wp_read_buf limit (Q : Z -> reader_io -> Prop) Qe Qc s :
  0 <= limit ->
  (forall now st', zlen now <= limit ->
     Q (zlen now) (set_buf (Some (default [] (body_buf s.1) ++ now)) s.1, st')) ->
  (body_buf s.1 <> None) ->
  (forall st', Qe ReadError (s.1, st')) -> (forall st', Qc (s.1, st')) ->
  wp (read_buf limit) Q Qe Qc s.
Proof.
  intros Hl HQ Hb HE HC. destruct s as [r st]. unfold wp, read_buf. simpl in *.
  assert (HQ0 : forall st', Q 0 (r, st')).
  { intros st'. specialize (HQ [] st'). rewrite app_nil_r in HQ.
    replace (set_buf (Some (default [] (body_buf r))) r) with r in HQ.
    - apply HQ. done.
    - destruct r as [? [b|] ? ? ? ?]; done. }
  destruct (Z.eqb_spec limit 0); [apply HQ0|].
  destruct st as [|[bs| |] st]; try done.
  apply HQ. rewrite zlen_ztake by lia. lia.
Qed.

(** ** Content-Length and close-delimited bodies *)

Ltac wp1 :=
  lazymatch goal with
  | |- wp self _ _ _ _ => apply wp_self
  | |- wp (upd _) _ _ _ _ => apply wp_upd
  | |- _ => wp_step
  end; cbn [fst snd].

Lemma BufRef_new_get (b : list byte) a n :
  0 <= a -> 0 <= n -> a + n <= zlen b -> zlen b <= isize_max ->
  BufRef_get (BufRef_new a n) b = Some (ztake n (zdrop a b)).
Proof.
  intros. unfold BufRef_get, BufRef_new. cbn.
  assert (isize_max < usize_mod) by done.
  rewrite wadd_small by lia. rewrite slice_Some by lia. do 2 f_equal. lia.
Qed.

(** The common prefix of the two unframed readers: rewound bytes, or a read. *)
Lemma wp_rewind_or_read r st limit (Q : Z -> reader_io -> Prop) Qe Qc :
  0 <= limit <= isize_max -> rewind_ok r ->
  (forall n b st', zlen b = n -> 0 <= n <= isize_max ->
     Q n (set_buf (Some b) (set_rewind 0 r), st')) ->
  (forall e st', Qe e (set_buf (Some []) (set_rewind 0 r), st')) ->
  (forall st', Qc (set_buf (Some []) (set_rewind 0 r), st')) ->
  wp (if rewind_buf_len r =? 0 then do! upd prepare_buf_for_io; read_buf limit
      else ret (rewind_buf_len r)) Q Qe Qc (set_rewind 0 r, st).
Proof.
  intros Hl Hr HQ HE HC. destruct (Z.eqb_spec (rewind_buf_len r) 0) as [Hz|Hz].
  - wp1. wp1. apply wp_read_buf; auto; [lia|].
    intros now st' Hnow. simpl. apply HQ; [done|].
    pose proof (zlen_nonneg now). lia.
  - wp1. destruct Hr as [|(b & Hb & Hlen & Hpos)]; [done|].
    replace (set_rewind 0 r) with (set_buf (Some b) (set_rewind 0 r))
      by (destruct r; simpl in *; by subst).
    apply HQ; lia.
Qed.

Lemma do_read_body_safe r st :
  reader_ok r -> (exists a b, body_state r = Partial a b) ->
  wp do_read_body safe_val safe_err safe_cancel (r, st).
Proof.
  intros [Hsz Hst] (read & rem & Hs). unfold state_ok in Hst. rewrite Hs in Hst.
  destruct Hst as [Hrem Hrw]. unfold do_read_body.
  wp1. wp1. wp1. wp1. wp1. rewrite Hs. apply wp_rewind_or_read; auto.
  - rewrite Hsz. destruct (negb _); unfold BODY_BUFFER_SIZE, isize_max; lia.
  - intros n b st' Hb Hn. destruct (Z.eqb_spec n 0).
    { wp1. wp1. wp1. ok_done. }
    destruct (Z.leb_spec rem n).
    + wp1. wp1. wp1. wp1. wp1. eapply wp_unwrap.
      { unfold finish_body_buf. simpl. rewrite (ztake_ge n) by lia.
        destruct (Z.leb_spec rem (zlen b)); [done|lia]. }
      wp1. wp1. wp1. split; [ok_done|]. unfold ref_ok, get_body. simpl.
      rewrite BufRef_new_get; rewrite ?zlen_ztake; try lia. eauto.
    + wp1. wp1. wp1. split.
      * split; [done|]. unfold state_ok. simpl.
        rewrite wsub_small by (unfold usize_mod in *; lia). split; [lia|by left].
      * unfold ref_ok, get_body. simpl. rewrite BufRef_new_get; try lia. eauto.
  - intros e st'. split; [done|]. unfold state_ok. simpl. rewrite Hs. split; [lia|by left].
  - intros st'. split; [done|]. unfold state_ok. simpl. rewrite Hs. split; [lia|by left].
Qed.

Lemma do_read_body_until_closed_safe r st :
  reader_ok r -> (exists a, body_state r = UntilClose a) ->
  wp do_read_body_until_closed safe_val safe_err safe_cancel (r, st).
Proof.
  intros [Hsz Hst] (read & Hs). unfold state_ok in Hst. rewrite Hs in Hst.
  unfold do_read_body_until_closed.
  assert (Hgo : forall b, reader_ok (set_buf b (set_rewind 0 r))).
  { intros b. split; [done|]. unfold state_ok. simpl. rewrite Hs. by left. }
  wp1. wp1. wp1. wp1. wp1. rewrite Hs. apply wp_rewind_or_read; auto.
  - rewrite Hsz. unfold BODY_BUFFER_SIZE, isize_max. lia.
  - intros n b st' Hb Hn. destruct (Z.eqb_spec n 0); wp1; wp1; wp1; [split; [ok_done|done]|].
    split; [split; [done|by left]|].
    unfold ref_ok, get_body. simpl. rewrite BufRef_new_get; try lia. eauto.
  - intros e st'. by apply Hgo.
  - intros st'. by apply Hgo.
Qed.

(** ** Chunked bodies *)

(** The state between the two halves of [do_read_chunked_body]: [e] bytes are
    buffered and parsing resumes at [s]. *)
Record filled (read s e : Z) (r : BodyReader) : Prop := {
  filled_size : body_buf_size r = BODY_BUFFER_SIZE;
  filled_rewind : rewind_buf_len r = 0;
  filled_state : exists x, body_state r = Chunked read s e x;
  filled_buf : exists b, body_buf r = Some b /\ e <= zlen b <= isize_max;
  filled_range : 0 <= s <= e
}.

Definition fill_post (read s : Z) (ee : Z * Z) (st : reader_io) : Prop :=
  filled read s ee.1 st.1 /\ 0 <= ee.2 < usize_mod /\
  (s = 0 \/ (s < ee.1 /\ ee.2 = 0)).

Lemma done_ok r read s e x :
  body_buf_size r = BODY_BUFFER_SIZE -> rewind_buf_len r = 0 ->
  body_state r = Chunked read s e x ->
  reader_ok (set_state (ps_done (body_state r) 0) r).
Proof. intros ?? ->. ok_done. Qed.

(** The reader once the partial head [h] sits alone at the front. *)
Definition compacted (r : BodyReader) (read : Z) (h : list byte) (x : Z) : BodyReader :=
  set_state (Chunked read 0 x x) (set_buf (Some h) r).

(** Running the compaction: no panic, and the head is what was buffered. *)
Lemma fill_partial_head_run r st read b e x :
  body_state r = Chunked read 0 e x -> body_buf r = Some b ->
  0 < x <= e -> e <= zlen b <= isize_max ->
  exists h, slice b (e - x) e = Some h /\ zlen h = x /\
    fill_partial_head e x (r, st) =
    read_more_head (body_buf_size r) x (compacted r read h x, st).
Proof.
  intros Hs Hb Hx He. assert (usize_mod = 2 * (isize_max + 1)) as Hmod by done.
  pose proof (slice_Some b (e - x) e ltac:(lia) ltac:(lia)) as Hsl.
  apply slice_length in Hsl as Hl.
  eexists. split; [done|]. split; [lia|].
  set (h := ztake _ _) in *.
  unfold fill_partial_head, bind, upd, modify, self.
  cbn -[read_more_head slice ztake zdrop negb]. rewrite Hb.
  cbn -[read_more_head slice ztake zdrop negb].
  rewrite wsub_small by lia. destruct (Z.eqb_spec (e - x) 0) as [Hz|Hz];
    cbn -[read_more_head slice ztake zdrop]; [|rewrite Hsl; cbn -[read_more_head ztake zdrop]];
    unfold upd_state, bind, self, unwrap, upd, modify; cbn -[read_more_head ztake zdrop];
    rewrite Hs; cbn -[read_more_head ztake zdrop]; f_equal; f_equal.
  - unfold compacted, set_state, set_buf. simpl. f_equal. f_equal.
    unfold h. rewrite Hz. rewrite zdrop_0. f_equal. lia.
  - unfold compacted, set_state, set_buf. simpl. f_equal. f_equal.
    replace x with (zlen h) at 1 by lia. by rewrite ztake_app_exact.
Qed.

Lemma wp_eq_run {S E A} (m : M S E A) Q Qe Qc s :
  match m s with
  | Val a s' => Q a s' | Fail e s' => Qe e s' | Cancelled s' => Qc s' | Panic => False
  end = wp m Q Qe Qc s.
Proof. done. Qed.

Lemma chunked_fill_safe r st read s e x :
  reader_ok r -> body_state r = Chunked read s e x ->
  wp (chunked_fill s e x) (fill_post read s) safe_err safe_cancel (r, st).
Proof.
  intros [Hsz Hst] Hs. unfold state_ok in Hst. rewrite Hs in Hst. unfold chunked_fill.
  assert (usize_mod = 2 * (isize_max + 1)) as Hmod by done.
  destruct Hst as [(-> & -> & Hx & Hrw)|(Hrw & (b & Hb & Hbl) & Hst)].
  - (* read a fresh buffer *)
    simpl. wp1. wp1. wp1. wp1. wp1. wp1. apply wp_rewind_or_read; auto.
    + rewrite Hsz. unfold BODY_BUFFER_SIZE, isize_max. lia.
    + intros n b st' Hb Hn. wp1. wp1. eapply wp_upd_state; [simpl; by rewrite Hs|].
      wp1. repeat split; simpl; auto; try lia; eauto. exists b. split; [done|lia].
    + intros err st'. split; [done|]. unfold state_ok. simpl. rewrite Hs. left.
      repeat split; try lia. by left.
    + intros st'. split; [done|]. unfold state_ok. simpl. rewrite Hs. left.
      repeat split; try lia. by left.
  - destruct Hst as [(-> & Hx & Hlim)|(Hse & ->)].
    + (* complete a partial head *)
      simpl. destruct (Z.eqb_spec e 0); [lia|]. wp1. rewrite <- wp_eq_run.
      destruct (fill_partial_head_run r st read b e x) as (h & _ & Hh & Hrun); auto.
      rewrite Hrun, wp_eq_run. unfold read_more_head. wp1.
      unfold PARTIAL_CHUNK_HEAD_LIMIT in Hlim.
      assert (Hok : reader_ok (compacted r read h x)).
      { split; [done|]. unfold state_ok. simpl. right. split; [done|].
        split; [exists h; split; [done|lia]|].
        left. unfold PARTIAL_CHUNK_HEAD_LIMIT. lia. }
      rewrite Hsz. apply wp_read_buf; try done.
      * rewrite wsub_small; unfold BODY_BUFFER_SIZE; unfold isize_max in *; lia.
      * intros now st'. simpl. rewrite wsub_small
          by (unfold BODY_BUFFER_SIZE, isize_max in *; lia).
        intros Hnow. destruct (Z.eqb_spec (zlen now) 0).
        { wp1. eapply wp_upd_state; [done|]. wp1. ok_done. }
        pose proof (zlen_nonneg now). wp1. wp1.
        eapply wp_upd_state; [done|]. wp1. simpl.
        rewrite wadd_small by (unfold BODY_BUFFER_SIZE, isize_max in *; lia).
        repeat split; simpl; auto; try lia; eauto.
        eexists. split; [done|]. rewrite zlen_app, Hh.
        unfold BODY_BUFFER_SIZE, isize_max in *; lia.
    + destruct (Z.eqb_spec s 0); [lia|]. wp1.
      repeat split; simpl; auto; try lia; eauto.
Qed.

(** A parse state [Chunked read 0 0 x] is fine with any buffer. *)
Lemma waiting_ok r read x :
  body_buf_size r = BODY_BUFFER_SIZE -> rewind_buf_len r = 0 -> 0 <= x < usize_mod ->
  reader_ok (set_state (Chunked read 0 0 x) r).
Proof. intros. split; [done|]. left. repeat split; try lia. by left. Qed.

Lemma multi_ok r b read s e :
  body_buf_size r = BODY_BUFFER_SIZE -> rewind_buf_len r = 0 ->
  body_buf r = Some b -> zlen b <= isize_max -> 0 < s < e -> e <= zlen b ->
  reader_ok (set_state (Chunked read s e 0) r).
Proof.
  intros. split; [done|]. right. split; [done|]. split; [|right; lia].
  exists b. split; [done|lia].
Qed.

Lemma ref_ok_new r b st a n :
  body_buf r = Some b -> 0 <= a -> 0 <= n -> a + n <= zlen b -> zlen b <= isize_max ->
  ref_ok (set_state st r) (Some (BufRef_new a n)).
Proof.
  intros Hb ????. unfold ref_ok, get_body. simpl. rewrite Hb, BufRef_new_get by done. eauto.
Qed.

Lemma chunked_payload_safe r st read e x :
  filled read 0 e r -> 0 < e -> 0 < x < usize_mod ->
  wp (chunked_payload e x) safe_val safe_err safe_cancel (r, st).
Proof.
  intros [Hsz Hrw (x0 & Hs) (b & Hb & Hbl) Hr] He Hx. unfold chunked_payload.
  assert (usize_mod = 2 * (isize_max + 1)) as Hmod by done.
  wp1. wp1. wp1. eapply wp_unwrap; [done|].
  rewrite wadd_small by lia. destruct (Z.leb_spec (e + 2) x).
  { wp1. eapply wp_upd_state; [simpl; by rewrite Hs|]. wp1. split.
    - rewrite wsub_small by lia. apply waiting_ok; auto. lia.
    - eapply ref_ok_new; [done|lia..]. }
  wp1.
  set (p := saturating_sub x 2). assert (Hp : p = Z.max 0 (x - 2)) by done.
  clearbody p.
  set (Q := fun (_ : unit) (s : reader_io) => _).
  assert (HQ : Q tt (r, st)).
  { unfold Q. destruct (Z.leb_spec e x).
    - wp1. eapply wp_upd_state; [simpl; by rewrite Hs|]. wp1. split.
      + rewrite wsub_small by lia. apply waiting_ok; auto; lia.
      + eapply ref_ok_new; [done|lia..].
    - wp1. eapply wp_upd_state; [simpl; by rewrite Hs|]. wp1. split.
      + eapply multi_ok; eauto; lia.
      + eapply ref_ok_new; [done|lia..]. }
  clearbody Q.
  destruct (Z.ltb_spec e x).
  - destruct (Z.ltb_spec p e); [|by wp1].
    wp1. eapply wp_unwrap; [apply slice_Some; lia|]. wp1.
    apply wp_validate_crlf; [intros; by wp1|].
    intros. by eapply done_ok.
  - wp1. eapply wp_unwrap; [apply slice_Some; lia|]. wp1.
    apply wp_validate_crlf; [|intros; by eapply done_ok].
    intros ok Hok. apply wp_assert; [|done]. eapply crlf_seen_full; [done|].
    rewrite zlen_ztake, zlen_zdrop by lia. destruct (Z.eqb_spec x 1); lia.
Qed.

Section with_parser.
Context (parse : list byte -> chunk_status) `{!ChunkSizeBounds parse}.

(** What [parse_chunked_buf] leaves for its caller. *)
Definition parse_post (s e : Z) (res : option BufRef * option Z) (st : reader_io) : Prop :=
  match res with
  | (Some ref, Some idx) =>
      body_buf_size st.1 = BODY_BUFFER_SIZE /\ rewind_buf_len st.1 = 0 /\
      ref = BufRef_new 0 0 /\ 0 <= idx <= e /\ buf_holds st.1 e /\
      exists read, body_state st.1 = ChunkedFinal read 0 (e - idx) 2
  | (o, _) => safe_val o st
  end.

Lemma parse_last_chunk_safe r st read s e b buf pi :
  filled read s e r -> body_buf r = Some b -> slice b s e = Some buf ->
  0 <= pi <= zlen buf ->
  wp (parse_last_chunk buf pi s e) (parse_post s e) safe_err safe_cancel (r, st).
Proof.
  intros [Hsz Hrw (x0 & Hs) (b' & Hb' & Hbl) Hr] Hb Hsl Hpi. unfold parse_last_chunk.
  rewrite Hb in Hb'. injection Hb' as <-.
  assert (usize_mod = 2 * (isize_max + 1)) as Hmod by done.
  apply slice_length in Hsl as Hbuf.
  destruct (checked_add pi 2) as [ce|] eqn:Hce.
  2: { apply wp_fail_done. by eapply done_ok. }
  apply checked_add_Some in Hce as [-> _].
  destruct (Z.leb_spec (pi + 2) (zlen buf)); simpl; [case_bool_decide|].
  - wp1. eapply wp_upd_state; [done|]. wp1. wp1. wp1. eapply wp_unwrap.
    { unfold finish_body_buf. simpl. rewrite Hb. rewrite wadd_small by lia.
      destruct (Z.leb_spec (s + (pi + 2)) (zlen (ztake e b))) as [|Hc]; [done|].
      rewrite zlen_ztake in Hc by lia. lia. }
    wp1. wp1. wp1. split; [|done]. split; [done|]. unfold state_ok. simpl.
    rewrite Hs. simpl. auto.
  - wp1. eapply wp_upd_state; [simpl; rewrite Hs; done|]. wp1.
    rewrite wadd_small by lia. rewrite wsub_small by lia.
    repeat split; simpl; try done; try lia; eauto. exists b. split; [done|lia].
  - wp1. eapply wp_upd_state; [simpl; rewrite Hs; done|]. wp1.
    rewrite wadd_small by lia. rewrite wsub_small by lia.
    repeat split; simpl; try done; try lia; eauto. exists b. split; [done|lia].
Qed.

Lemma parse_data_chunk_safe r st read s e b buf pi n :
  filled read s e r -> body_buf r = Some b -> slice b s e = Some buf ->
  0 <= pi <= zlen buf -> 0 < n < usize_mod ->
  wp (parse_data_chunk buf pi n s) (parse_post s e) safe_err safe_cancel (r, st).
Proof.
  intros [Hsz Hrw (x0 & Hs) (b' & Hb' & Hbl) Hr] Hb Hsl Hpi Hn. unfold parse_data_chunk.
  rewrite Hb in Hb'. injection Hb' as <-.
  assert (usize_mod = 2 * (isize_max + 1)) as Hmod by done.
  apply slice_length in Hsl as Hbuf.
  destruct (checked_add pi n) as [de|] eqn:Hde.
  2: { apply wp_fail_done. by eapply done_ok. }
  apply checked_add_Some in Hde as [-> Hde].
  destruct (checked_add (pi + n) 2) as [ce|] eqn:Hce.
  2: { apply wp_fail_done. by eapply done_ok. }
  apply checked_add_Some in Hce as [-> Hce].
  destruct (Z.leb_spec (zlen buf) (pi + n + 2)).
  - set (actual := if zlen buf <? pi + n then wsub (zlen buf) pi else n).
    assert (Hact : 0 <= actual <= zlen buf - pi).
    { unfold actual. destruct (Z.ltb_spec (zlen buf) (pi + n)); [|lia].
      rewrite wsub_small by lia. lia. }
    clearbody actual. wp1.
    set (Q := fun (_ : bool) (s : reader_io) => _).
    assert (HQ : forall ok, Q ok (r, st)).
    { intros ok. unfold Q. wp1. eapply wp_upd_state; [simpl; by rewrite Hs|]. wp1.
      rewrite wadd_small by lia. split.
      - rewrite wsub_small by lia. apply waiting_ok; auto. lia.
      - eapply ref_ok_new; [done|lia..]. }
    clearbody Q. unfold saturating_sub.
    destruct (Z.ltb_spec (Z.max 0 (pi + n + 2 - 2)) (zlen buf)); [|by wp1].
    wp1. eapply wp_unwrap; [apply slice_Some; lia|].
    apply wp_validate_crlf; [by intros|]. intros. by eapply done_ok.
  - wp1. eapply wp_unwrap; [apply slice_Some; lia|]. wp1.
    apply wp_validate_crlf; [|intros; by eapply done_ok].
    intros ok Hok. wp1. apply wp_assert.
    { eapply crlf_seen_full; [done|]. rewrite zlen_ztake, zlen_zdrop by lia. lia. }
    wp1. eapply wp_upd_state; [simpl; by rewrite Hs|]. wp1.
    rewrite !(wadd_small s) by lia. split.
    + eapply multi_ok; eauto; lia.
    + eapply ref_ok_new; [done|lia..].
Qed.

Lemma parse_chunked_buf_safe r st read s e :
  filled read s e r -> s < e ->
  wp (parse_chunked_buf parse s e) (parse_post s e) safe_err safe_cancel (r, st).
Proof.
  intros Hf Hse. pose proof Hf as [Hsz Hrw (x0 & Hs) (b & Hb & Hbl) Hr].
  assert (usize_mod = 2 * (isize_max + 1)) as Hmod by done.
  unfold parse_chunked_buf. wp1. wp1. wp1. eapply wp_unwrap; [done|].
  assert (Hsl : slice b s e = Some (ztake (e - s) (zdrop s b))) by (apply slice_Some; lia).
  wp1. eapply wp_unwrap; [done|]. apply slice_length in Hsl as Hl.
  destruct (parse _) as [| |c n] eqn:Hp.
  - apply wp_fail_done. by eapply done_ok.
  - destruct (Z.ltb_spec PARTIAL_CHUNK_HEAD_LIMIT (zlen (ztake (e - s) (zdrop s b)))).
    { apply wp_fail_done. by eapply done_ok. }
    wp1. eapply wp_upd_state; [simpl; by rewrite Hs|]. wp1. split.
    + split; [done|]. unfold state_ok. simpl. right. split; [done|].
      split; [exists b; split; [done|lia]|]. left. lia.
    + eapply ref_ok_new; [done|lia..].
  - apply cs_bounds in Hp as [Hc Hn].
    destruct (Z.ltb_spec usize_max n); [uz|]. destruct (Z.eqb_spec n 0).
    + by eapply parse_last_chunk_safe.
    + eapply parse_data_chunk_safe; eauto. lia.
Qed.

Lemma do_read_chunked_body_safe r st :
  reader_ok r -> (exists read s e x, body_state r = Chunked read s e x) ->
  wp (do_read_chunked_body parse) safe_val safe_err safe_cancel (r, st).
Proof.
  intros Hok (read & s & e & x & Hs). unfold do_read_chunked_body. wp1. wp1. rewrite Hs.
  wp1. eapply wp_mono; [| | |by eapply chunked_fill_safe]; [|done..].
  intros [e' x'] [r' st'] (Hf & Hx & Hsx). simpl in *.
  pose proof Hf as [Hsz Hrw (x0 & Hs') (b & Hb & Hbl) Hr].
  destruct (Z.eqb_spec e' 0).
  { apply wp_fail_done. by eapply done_ok. }
  destruct (Z.ltb_spec 0 x').
  { destruct Hsx as [->|]; [|lia]. eapply chunked_payload_safe; eauto; lia. }
  wp1. eapply wp_mono; [| | |eapply parse_chunked_buf_safe; [done|lia]]; [|done..].
  intros [[ref|] [idx|]] [r2 st2] H2; simpl in *; try by wp1.
  destruct H2 as (Hsz2 & Hrw2 & -> & Hidx & (b2 & Hb2 & Hbl2) & read2 & Hst2).
  wp1. wp1. wp1. eapply wp_unwrap; [done|]. wp1.
  assert (Hl : zlen (ztake e' b2) = e') by (rewrite zlen_ztake by lia; lia).
  apply wp_assert; [lia|]. wp1. wp1. wp1.
  split; simpl.
  - split; [done|]. unfold state_ok. simpl. rewrite Hst2. repeat split; try lia; auto.
    destruct (Z.eq_dec (e' - idx) 0); [by left|right]. split; [lia|].
    eexists. split; [done|]. rewrite zlen_zdrop by lia. lia.
  - unfold get_body. simpl. rewrite BufRef_new_get; try lia; [eauto| |].
    + rewrite zlen_zdrop by lia. lia.
    + rewrite zlen_zdrop by lia. lia.
Qed.

(** ** Trailers *)

Definition final_ok (r : BodyReader) : Prop :=
  body_buf_size r = BODY_BUFFER_SIZE /\ rewind_buf_len r = 0 /\
  exists read t k, body_state r = ChunkedFinal read t 0 k /\ 0 <= k <= 3.

Lemma final_reader_ok r : final_ok r -> reader_ok r.
Proof.
  intros (Hsz & Hrw & read & t & k & Hs & Hk). split; [done|]. unfold state_ok.
  rewrite Hs. repeat split; try lia; auto.
Qed.

Lemma final_done_ok r : final_ok r -> reader_ok (set_state (ps_done (body_state r) 0) r).
Proof. intros (Hsz & Hrw & read & t & k & -> & Hk). ok_done. Qed.

(** One CR/LF step: it advances, finishes, or (only from [end_read = 2]) hands
    over to the scan of the trailer text with [end_read = 0]. *)
Definition trailer_post (buf : list byte) (k : Z) (r : BodyReader)
    (t : TrailersEndParseState) (st : reader_io) : Prop :=
  body_buf st.1 = body_buf r /\ body_buf_size st.1 = BODY_BUFFER_SIZE /\
  rewind_buf_len st.1 = 0 /\
  match t with
  | NotEnd n =>
      final_ok st.1 /\ 0 <= n <= zlen buf /\
      (n = 0 -> k <> 0 /\ exists read t, body_state st.1 = ChunkedFinal read t 0 0)
  | TrailersComplete n =>
      0 < n <= zlen buf /\ exists read, body_state st.1 = Complete read
  end.

Lemma parse_trailers_end_safe r st buf read t k :
  final_ok r -> body_state r = ChunkedFinal read t 0 k ->
  buf <> [] -> (k = 0 -> forall b, head buf = Some b -> b = CR \/ b = LF) ->
  wp (parse_trailers_end buf) (trailer_post buf k r) safe_err safe_cancel (r, st).
Proof.
  intros Hf Hs Hne Hcr. pose proof Hf as (Hsz & Hrw & read0 & t0 & k0 & Hs0 & Hk).
  rewrite Hs in Hs0. injection Hs0 as <- <- <-.
  unfold parse_trailers_end. wp1. apply wp_assert; [by case_bool_decide|].
  wp1. wp1. rewrite Hs. wp1. change (zlen TRAILERS_END) with 4.
  apply wp_assert; [lia|]. wp1.
  destruct buf as [|b0 buf]; [done|]. clear Hne.
  set (m := Z.min (zlen (b0 :: buf)) (4 - k)).
  assert (Hm : 1 <= m <= zlen (b0 :: buf)).
  { unfold m. rewrite zlen_cons. pose proof (zlen_nonneg buf). lia. }
  assert (Hhd : head (ztake m (b0 :: buf)) = Some b0).
  { unfold ztake. destruct (Z.to_nat m) eqn:?; [lia|done]. }
  eapply wp_unwrap; [done|].
  assert (Hml : zlen (ztake m (b0 :: buf)) = m) by (rewrite zlen_ztake by lia; lia).
  assert (Hmax : m <= 4 - k) by (unfold m; lia).
  clearbody m.
  assert (Hset : forall tr k', 0 <= k' <= 3 ->
            final_ok (set_state (ChunkedFinal read tr 0 k') r)).
  { intros tr k' Hk'. repeat split; auto. simpl. eauto 6. }
  destruct (_ && _ && _) eqn:Hskip.
  { apply andb_true_iff in Hskip as [[Hev H1]%andb_true_iff H2].
    apply bool_decide_eq_true in H1, H2. wp1. wp1. wp1. unfold trailer_post. simpl.
    repeat split; auto; try (apply Hset; lia).
    - lia.
    - pose proof (zlen_nonneg (b0 :: buf)). lia.
    - intros ->. destruct (Hcr eq_refl b0); done.
    - eauto. }
  wp1. set (Q := fun (_ : Z) (s : reader_io) => _).
  assert (HQ : forall i, 1 <= i <= m -> k + i <= 4 -> Q i (r, st)).
  { intros i Hi Hki. unfold Q. destruct (Z.eqb_spec (k + i) 4).
    - wp1. wp1. wp1. repeat split; simpl; auto; try lia. eauto.
    - wp1. wp1. wp1. repeat split; simpl; auto; try lia. eexists _, _, _.
      split; [done|lia]. }
  clearbody Q.
  destruct ((k =? 0) || (k =? 2)) eqn:Hk02.
  - wp1. apply wp_validate_crlf; [|intros; by apply final_done_ok].
    intros full Hfull. wp1. destruct full; [|apply HQ; lia].
    destruct Hfull as [l Hl]. rewrite Hl, !zlen_cons in Hml.
    pose proof (zlen_nonneg l). apply HQ; [lia|].
    apply orb_true_iff in Hk02 as [?|?]; lia.
  - destruct ((k =? 1) || (k =? 3)) eqn:Hk13; [|lia].
    wp1. apply wp_validate_crlf; [|intros; by apply final_done_ok].
    intros full Hfull. wp1. apply wp_assert; [|wp1; apply HQ; lia].
    eapply crlf_seen_full; [done|]. rewrite Hml. lia.
Qed.

Lemma crlf_position_spec buf :
  match crlf_position buf with
  | Some p => exists l b l', buf = l ++ b :: l' /\ p = zlen l /\ (b = CR \/ b = LF) /\
      Forall (fun c => c <> CR /\ c <> LF) l
  | None => Forall (fun c => c <> CR /\ c <> LF) buf
  end.
Proof.
  induction buf as [|b buf IH]; [by constructor|]. simpl. case_bool_decide as Hb.
  - exists [], b, buf. auto using Forall_nil_2.
  - destruct (crlf_position buf) as [p|]; simpl.
    + destruct IH as (l & c & l' & -> & -> & Hc & HF).
      exists (b :: l), c, l'. rewrite zlen_cons. repeat split; auto.
      constructor; [tauto|done].
    + constructor; [tauto|done].
Qed.

(** Bytes left plus one for a pending hand-over to the scan. *)
Definition loop_fuel (n start k : Z) : Z :=
  2 * (n - start) + (if k =? 0 then 0 else 1).

Lemma trailers_loop_safe fuel r st b buf read start n :
  final_ok r -> body_buf r = Some b -> zlen buf = n -> n <= zlen b <= isize_max ->
  0 <= start <= n ->
  (forall read' t k, body_state r = ChunkedFinal read' t 0 k ->
     loop_fuel n start k < Z.of_nat fuel) ->
  wp (trailers_loop fuel buf read start n) safe_val safe_err safe_cancel (r, st).
Proof.
  revert r st start. induction fuel as [|fuel IH]; intros r st start Hf Hb Hn Hmax Hst Hfuel;
    pose proof Hf as (Hsz & Hrw & read0 & t & k & Hs & Hk); apply Hfuel in Hs as Hfu;
    unfold loop_fuel in Hfu.
  { destruct (k =? 0); lia. }
  assert (Href : ref_ok r (Some (BufRefMk 0 0))).
  { unfold ref_ok, get_body, BufRef_get. rewrite Hb. simpl. rewrite slice_Some by lia. eauto. }
  simpl trailers_loop. destruct (Z.leb_spec n start).
  { wp1. split; [by apply final_reader_ok|done]. }
  wp1. wp1. rewrite Hs. wp1. eapply wp_unwrap; [apply slice_Some; lia|].
  assert (Hcl : zlen (ztake (n - start) (zdrop start buf)) = n - start).
  { rewrite zlen_ztake, zlen_zdrop by lia. lia. }
  set (cur := ztake (n - start) (zdrop start buf)) in *. clearbody cur.
  (* the second half of a turn, from the position the scan stopped at *)
  assert (Hstep : forall r' start' (cur' : list byte) rd' t' k',
    final_ok r' -> body_buf r' = Some b -> body_state r' = ChunkedFinal rd' t' 0 k' ->
    start <= start' <= n -> zlen cur' = n - start' -> cur' <> [] ->
    (k' = 0 -> forall b, head cur' = Some b -> b = CR \/ b = LF) ->
    (k' = k \/ (k = 0 /\ k' = 0)) ->
    wp (let! t := parse_trailers_end cur' in
        match t with
        | NotEnd next => trailers_loop fuel buf read (start' + next) n
        | TrailersComplete end_idx =>
            let! r := self in
            let! r := unwrap (finish_body_buf (start' + end_idx) n r) in
            do! upd (fun _ => r); ret None
        end) safe_val safe_err safe_cancel (r', st)).
  { intros r' start' cur' rd' t' k' Hf' Hb' Hs' Hst' Hcur' Hne' Hcr' Hkk.
    wp1. eapply wp_mono; [| | |eapply parse_trailers_end_safe; eauto]; [|done..].
    intros [nx|ei] [r2 st2] (Hb2 & Hsz2 & Hrw2 & Hpost); simpl in *.
    - destruct Hpost as (Hf2 & Hnx & Hz). apply IH; auto; [congruence|lia|].
      intros rd2 t2 k2 Hs2. unfold loop_fuel.
      destruct (Z.eq_dec nx 0) as [->|].
      + destruct (Hz eq_refl) as (Hk' & rd3 & t3 & Hs3). rewrite Hs2 in Hs3.
        injection Hs3 as _ _ ->. simpl. destruct (Z.eqb_spec k 0); lia.
      + destruct (k2 =? 0), (k =? 0); lia.
    - destruct Hpost as (Hei & rd2 & Hs2). wp1. wp1. wp1. eapply wp_unwrap.
      { unfold finish_body_buf. simpl. rewrite Hb2, Hb', zlen_ztake by lia.
        destruct (Z.leb_spec (start' + ei) (Z.min n (zlen b))); [done|lia]. }
      wp1. wp1. wp1. split; [|done]. split; [done|]. unfold state_ok. simpl. rewrite Hs2. auto. }
  wp1. destruct (Z.eqb_spec k 0) as [->|Hk0].
  - pose proof (crlf_position_spec cur) as Hpos. destruct (crlf_position cur) as [p|].
    + destruct Hpos as (l & b0 & l' & Hcur & -> & Hbcr & _).
      pose proof (zlen_nonneg l). pose proof (zlen_nonneg l').
      rewrite Hcur, zlen_app, zlen_cons in Hcl.
      destruct (Z.ltb_spec TRAILER_SIZE_LIMIT (wadd t (zlen l))).
      { apply wp_fail_done. by apply final_done_ok. }
      wp1. wp1. wp1. rewrite Hcur, zdrop_app_exact. eapply Hstep; simpl; auto.
      * repeat split; simpl; eauto 6.
      * lia.
      * rewrite zlen_cons. lia.
      * intros _ ? [= <-]. done.
    + destruct (Z.ltb_spec TRAILER_SIZE_LIMIT (wadd t (wsub n start))).
      { apply wp_fail_done. by apply final_done_ok. }
      wp1. wp1. wp1. wp1. split; [|done]. apply final_reader_ok. repeat split; simpl; eauto 6.
  - wp1. eapply Hstep; eauto.
    + lia.
    + intros ->. rewrite zlen_nil in Hcl. lia.
    + done.
Qed.

Lemma do_read_chunked_body_final_safe r st :
  reader_ok r -> (exists read t e k, body_state r = ChunkedFinal read t e k) ->
  wp do_read_chunked_body_final safe_val safe_err safe_cancel (r, st).
Proof.
  intros [Hsz Hst] (read & t & e & k & Hs). unfold state_ok in Hst. rewrite Hs in Hst.
  destruct Hst as (Hrw & Hk & He). unfold do_read_chunked_body_final.
  wp1. wp1. rewrite Hs. wp1.
  set (Q := fun (n : Z) (s : reader_io) => _).
  assert (HQ : forall r' st' b n, final_ok r' -> body_buf r' = Some b ->
            0 <= n <= zlen b -> zlen b <= isize_max -> Q n (r', st')).
  { intros r' st' b n Hf Hb Hn Hmax. unfold Q. destruct (Z.eqb_spec n 0).
    { wp1. wp1. wp1. destruct Hf as (? & ? & _). ok_done. }
    wp1. wp1. wp1. eapply wp_unwrap; [done|]. wp1. eapply wp_unwrap.
    { apply slice_Some; lia. }
    rewrite zdrop_0, Z.sub_0_r.
    assert (Hl : zlen (ztake n b) = n) by (rewrite zlen_ztake by lia; lia).
    eapply trailers_loop_safe; eauto; try lia.
    intros rd t' k' _. unfold loop_fuel. unfold zlen in Hl. destruct (k' =? 0); lia. }
  clearbody Q.
  destruct (Z.eqb_spec e 0) as [->|He0]; simpl.
  - assert (Hf : final_ok (prepare_buf_for_io r)).
    { repeat split; simpl; auto. rewrite Hs. eauto 6. }
    wp1. wp1. apply wp_read_buf; simpl.
    + rewrite Hsz. unfold BODY_BUFFER_SIZE. lia.
    + intros now st' Hnow. eapply HQ; [done|done| |]; pose proof (zlen_nonneg now); [lia|].
      rewrite Hsz in Hnow. unfold BODY_BUFFER_SIZE, isize_max in *. lia.
    + done.
    + intros. by apply final_reader_ok.
    + intros. by apply final_reader_ok.
  - destruct He as [|(He & b & Hb & Hbl)]; [done|]. wp1. wp1. wp1.
    eapply HQ; [|done|lia|lia]. repeat split; simpl; eauto 6.
Qed.

(** ** The whole reader *)

Lemma read_body_safe_wp r st :
  reader_ok r -> wp (read_body parse) safe_val safe_err safe_cancel (r, st).
Proof.
  intros Hok. unfold read_body. wp1. wp1. pose proof Hok as [Hsz Hst].
  unfold state_ok in Hst. destruct (body_state r) as [| | | | | |] eqn:Hs.
  - done.
  - by wp1.
  - apply do_read_body_safe; eauto.
  - apply do_read_chunked_body_safe; eauto 6.
  - apply do_read_chunked_body_final_safe; eauto 6.
  - by wp1.
  - apply do_read_body_until_closed_safe; eauto.
Qed.

End with_parser.

(** ** Cancellation *)

(** A read of [m] that is cancelled was the first thing on the stream, and
    running it again from the state it left gives what it would have given. *)
Definition resumes {A} (m : RM A) (r : BodyReader) (st : list rd_event) : Prop :=
  forall r' st', m (r, st) = Cancelled (r', st') ->
    st = RPend :: st' /\ body_state r' = body_state r /\ m (r', st') = m (r, st').

Lemma read_buf_cancelled limit r st r' st' :
  read_buf limit (r, st) = Cancelled (r', st') -> st = RPend :: st' /\ r' = r.
Proof.
  unfold read_buf. destruct (limit =? 0); [done|].
  destruct st as [|[bs| |] st]; naive_solver.
Qed.

(** Code that does not read cannot be cancelled. *)
Definition no_await {A} (m : RM A) : Prop := forall s s', m s <> Cancelled s'.

Lemma no_await_bind {A B} (m : RM A) (k : A -> RM B) :
  no_await m -> (forall a, no_await (k a)) -> no_await (bind m k).
Proof.
  intros Hm Hk s s'. unfold bind. destruct (m s) eqn:E; try done.
  - apply Hk.
  - by apply Hm in E.
Qed.

Lemma no_await_unwrap {A} (o : option A) : no_await (unwrap o).
Proof. by destruct o. Qed.

Lemma no_await_assert b : no_await (assert b).
Proof. by destruct b. Qed.

Create HintDb no_await.
#[export] Hint Resolve no_await_unwrap no_await_assert : no_await.

Ltac solve_no_await :=
  repeat lazymatch goal with
  | |- no_await (bind _ _) => apply no_await_bind; [|intros ?]
  | |- no_await (match _ with _ => _ end) => case_match
  | |- no_await _ => first [solve [eauto with no_await] | done]
  end.

Lemma no_await_upd_state f : no_await (upd_state f).
Proof. unfold upd_state. solve_no_await. Qed.
#[export] Hint Resolve no_await_upd_state : no_await.

Lemma no_await_validate_crlf buf lf tr : no_await (validate_crlf buf lf tr).
Proof. unfold validate_crlf, fail_done. solve_no_await. Qed.
#[export] Hint Resolve no_await_validate_crlf : no_await.

Lemma no_await_chunked_payload e x : no_await (chunked_payload e x).
Proof. unfold chunked_payload. solve_no_await. Qed.
#[export] Hint Resolve no_await_chunked_payload : no_await.

Lemma no_await_parse_chunked_buf parse s e : no_await (parse_chunked_buf parse s e).
Proof.
  unfold parse_chunked_buf, parse_last_chunk, parse_data_chunk, fail_done. solve_no_await.
Qed.
#[export] Hint Resolve no_await_parse_chunked_buf : no_await.

Lemma no_await_trailers_loop fuel buf read start n :
  no_await (trailers_loop fuel buf read start n).
Proof.
  revert start. induction fuel as [|fuel IH]; intros start; [done|].
  simpl. unfold parse_trailers_end, fail_done. solve_no_await.
Qed.
#[export] Hint Resolve no_await_trailers_loop : no_await.

(** The only await of [bind m k] is in [m]. *)
Lemma bind_cancelled {A B} (m : RM A) (k : A -> RM B) s s' :
  (forall a, no_await (k a)) -> bind m k s = Cancelled s' -> m s = Cancelled s'.
Proof.
  intros Hk. unfold bind. destruct (m s); try done; [intros H; by apply Hk in H|].
  by intros [= ->].
Qed.

(** The rewound bytes or a read: the await shared by three of the readers. *)
Lemma rewind_or_read_cancelled limit r st r' st' :
  (if rewind_buf_len r =? 0 then do! upd prepare_buf_for_io; read_buf limit
   else ret (rewind_buf_len r)) (set_rewind 0 r, st) = Cancelled (r', st') ->
  rewind_buf_len r = 0 /\ st = RPend :: st' /\ r' = set_buf (Some []) r.
Proof.
  destruct (Z.eqb_spec (rewind_buf_len r) 0) as [Hz|]; [|done].
  unfold bind, upd, modify. cbn -[read_buf].
  intros [-> ->]%read_buf_cancelled. split; [done|]. split; [done|].
  destruct r; simpl in *; by subst.
Qed.

Lemma do_read_body_resumes r st : resumes do_read_body r st.
Proof.
  intros r' st' H. unfold do_read_body in H. cbn [bind self upd modify fst snd] in H.
  eapply bind_cancelled in H; [|intros n; solve_no_await].
  apply rewind_or_read_cancelled in H as (Hz & -> & ->). split; [done|]. split; [done|].
  unfold do_read_body, bind, self, upd, modify. cbn -[read_buf]. by rewrite Hz.
Qed.

Lemma do_read_body_until_closed_resumes r st : resumes do_read_body_until_closed r st.
Proof.
  intros r' st' H. unfold do_read_body_until_closed in H.
  cbn [bind self upd modify fst snd] in H.
  eapply bind_cancelled in H; [|intros n; solve_no_await].
  apply rewind_or_read_cancelled in H as (Hz & -> & ->). split; [done|]. split; [done|].
  unfold do_read_body_until_closed, bind, self, upd, modify. cbn -[read_buf]. by rewrite Hz.
Qed.

Lemma do_read_chunked_body_final_resumes r st :
  resumes do_read_chunked_body_final r st.
Proof.
  intros r' st' H. unfold do_read_chunked_body_final in H.
  cbn [bind self fst snd] in H.
  destruct (body_state r) as [| | | |read t e k| |] eqn:Hs; try done.
  eapply bind_cancelled in H.
  2: { intros n. solve_no_await. }
  destruct (Z.eqb_spec e 0) as [->|]; [|done].
  unfold bind, upd, modify in H. cbn -[read_buf] in H.
  apply read_buf_cancelled in H as [-> ->]. cbn in *. rewrite Hs.
  split; [done|]. split; [done|].
  done.
Qed.

Lemma chunked_fill_resumes r st read s e x r' st' :
  reader_ok r -> body_state r = Chunked read s e x ->
  chunked_fill s e x (r, st) = Cancelled (r', st') ->
  exists e', st = RPend :: st' /\ body_state r' = Chunked read s e' x /\
    chunked_fill s e' x (r', st') = chunked_fill s e x (r, st').
Proof.
  intros [Hsz Hst] Hs H. unfold state_ok in Hst. rewrite Hs in Hst.
  unfold chunked_fill in H. destruct (Z.eqb_spec s 0) as [->|]; [|done].
  eapply bind_cancelled in H; [|intros n; solve_no_await].
  destruct (Z.eqb_spec e 0) as [->|He].
  - cbn [bind self upd modify fst snd] in H.
    eapply bind_cancelled in H; [|intros n; solve_no_await].
    apply rewind_or_read_cancelled in H as (Hz & -> & ->). exists 0.
    split; [done|]. split; [done|].
    unfold chunked_fill, bind, self, upd, modify. cbn -[read_buf]. by rewrite Hz.
  - destruct Hst as [(_ & ? & _)|(Hrw & (b & Hb & Hbl) & Hst)]; [lia|].
    destruct Hst as [(_ & Hx & Hlim)|]; [|lia].
    destruct (fill_partial_head_run r st read b e x) as (h & Hsl & Hh & Hrun); auto.
    destruct (fill_partial_head_run r st' read b e x) as (h' & Hsl' & _ & Hrun'); auto.
    rewrite Hsl in Hsl'. injection Hsl' as <-.
    rewrite Hrun in H. eapply bind_cancelled in H; [|intros n; solve_no_await].
    apply read_buf_cancelled in H as [-> ->]. exists x.
    split; [done|]. split; [done|].
    destruct (fill_partial_head_run (compacted r read h x) st' read h x x)
      as (h2 & Hsl2 & _ & Hrun2); auto; [lia..|].
    replace (x - x) with 0 in Hsl2 by lia. rewrite <- Hh in Hsl2 at 1.
    rewrite slice_all in Hsl2. injection Hsl2 as <-.
    unfold chunked_fill. simpl. destruct (Z.eqb_spec e 0), (Z.eqb_spec x 0); try lia.
    unfold bind. rewrite Hrun', Hrun2. done.
Qed.

Lemma bind_eq {A B} (m m' : RM A) (k : A -> RM B) s s' :
  m s = m' s' -> bind m k s = bind m' k s'.
Proof. unfold bind. by intros ->. Qed.

Lemma do_read_chunked_body_resumes parse r st r' st' :
  reader_ok r -> (exists read s e x, body_state r = Chunked read s e x) ->
  do_read_chunked_body parse (r, st) = Cancelled (r', st') ->
  st = RPend :: st' /\ (exists read s e x, body_state r' = Chunked read s e x) /\
  do_read_chunked_body parse (r', st') = do_read_chunked_body parse (r, st').
Proof.
  intros Hok (read & s & e & x & Hs) H. unfold do_read_chunked_body in H.
  cbn [bind self fst snd] in H. rewrite Hs in H. eapply bind_cancelled in H.
  2: { intros [e' x']. unfold fail_done. solve_no_await. }
  eapply chunked_fill_resumes in H as (e' & -> & Hs' & Heq); eauto.
  split; [done|]. split; [eauto 6|]. unfold do_read_chunked_body.
  cbn [bind self fst snd]. rewrite Hs, Hs'. by apply bind_eq.
Qed.

Lemma read_body_dispatch parse r st :
  read_body parse (r, st) =
  match body_state r with
  | Complete _ | Done _ => Val None (r, st)
  | Partial _ _ => do_read_body (r, st)
  | Chunked _ _ _ _ => do_read_chunked_body parse (r, st)
  | ChunkedFinal _ _ _ _ => do_read_chunked_body_final (r, st)
  | UntilClose _ => do_read_body_until_closed (r, st)
  | ToStart => Panic
  end.
Proof.
  unfold read_body. cbn [bind self fst snd]. by destruct (body_state r).
Qed.

Lemma read_body_resumes parse r st r' st' :
  reader_ok r -> read_body parse (r, st) = Cancelled (r', st') ->
  st = RPend :: st' /\ read_body parse (r', st') = read_body parse (r, st').
Proof.
  intros Hok. rewrite !read_body_dispatch. destruct (body_state r) eqn:Hs; try done.
  - intros H. apply do_read_body_resumes in H as (-> & Hs' & Heq).
    by rewrite Hs', Hs.
  - intros H. eapply do_read_chunked_body_resumes in H as (-> & Hs' & Heq); eauto 6.
    by destruct Hs' as (? & ? & ? & ? & ->).
  - intros H. apply do_read_chunked_body_final_resumes in H as (-> & Hs' & Heq).
    by rewrite Hs', Hs.
  - intros H. apply do_read_body_until_closed_resumes in H as (-> & Hs' & Heq).
    by rewrite Hs', Hs.
Qed.

(** ** Initialisation, and every reader the API can reach *)

Inductive body_init :=
| InitChunked (rewind : list byte)
| InitChunkedOwned (rewind : list byte)
| InitContentLength (cl : Z) (rewind : list byte)
| InitContentLengthOwned (cl : Z) (rewind : list byte)
| InitCloseDelimited (rewind : list byte)
| InitCloseDelimitedOwned (rewind : list byte).

Definition run_init (i : body_init) (r : BodyReader) : BodyReader :=
  match i with
  | InitChunked b => init_chunked b r
  | InitChunkedOwned b => init_chunked_owned b r
  | InitContentLength cl b => init_content_length cl b r
  | InitContentLengthOwned cl b => init_content_length_owned cl b r
  | InitCloseDelimited b => init_close_delimited b r
  | InitCloseDelimitedOwned b => init_close_delimited_owned b r
  end.

(** Lengths are lengths of Rust buffers; a copying initialiser is used on a
    reader with nothing left to rewind (the owning ones overwrite it). *)
Definition init_args_ok (i : body_init) (r : BodyReader) : Prop :=
  match i with
  | InitChunked b | InitCloseDelimited b => zlen b <= isize_max /\ rewind_buf_len r = 0
  | InitChunkedOwned b | InitCloseDelimitedOwned b => zlen b <= isize_max
  | InitContentLength cl b =>
      0 <= cl < usize_mod /\ zlen b <= isize_max /\ (cl = 0 \/ rewind_buf_len r = 0)
  | InitContentLengthOwned cl b => 0 <= cl < usize_mod /\ zlen b <= isize_max
  end.

Lemma zlen_pos {A} (l : list A) : l <> [] -> 0 < zlen l.
Proof. destruct l; [done|]. rewrite zlen_cons. pose proof (zlen_nonneg l). lia. Qed.

Lemma prepare_owned_rewind_ok b r :
  zlen b <= isize_max -> rewind_ok (prepare_owned_buf b r).
Proof.
  intros H. destruct (decide (b = [])) as [->|Hne]; [by left|]. right.
  exists b. repeat split; auto using zlen_pos.
Qed.

Lemma prepare_rewind_ok b r :
  zlen b <= isize_max -> rewind_buf_len r = 0 -> rewind_ok (prepare_buf b r).
Proof.
  intros H Hz. unfold prepare_buf. case_bool_decide as Hb; [by left|].
  right. exists b. repeat split; auto using zlen_pos.
Qed.

Lemma prepare_buf_fields b r :
  body_state (prepare_buf b r) = body_state r /\
  body_buf_size (prepare_buf b r) = body_buf_size r.
Proof. unfold prepare_buf. by case_bool_decide. Qed.

Lemma waiting_rewind_ok r st :
  body_state r = st -> body_buf_size r = BODY_BUFFER_SIZE -> rewind_ok r ->
  match st with
  | Chunked _ s e x => s = 0 /\ e = 0 /\ 0 <= x < usize_mod
  | Partial _ rem => 0 < rem < usize_mod
  | UntilClose _ | Complete _ | Done _ => True
  | _ => False
  end -> reader_ok r.
Proof.
  intros Hs Hsz Hrw H. split; [done|]. unfold state_ok. rewrite Hs.
  destruct st; try done. left. tauto.
Qed.

Lemma run_init_ok i r :
  body_buf_size r = BODY_BUFFER_SIZE -> rewind_ok r -> init_args_ok i r ->
  reader_ok (run_init i r).
Proof.
  intros Hsz Hrw Hargs.
  assert (Hu : 0 < usize_mod) by done.
  assert (Hf : forall b r', body_buf_size r' = BODY_BUFFER_SIZE ->
            body_buf_size (prepare_buf b r') = BODY_BUFFER_SIZE).
  { intros b r' H. by rewrite (proj2 (prepare_buf_fields b r')). }
  destruct i as [b|b|cl b|cl b|b|b]; simpl in *.
  - apply (waiting_rewind_ok _ (Chunked 0 0 0 0)); [apply prepare_buf_fields|by apply Hf| |lia].
    destruct Hargs. by apply prepare_rewind_ok.
  - apply (waiting_rewind_ok _ (Chunked 0 0 0 0)); [done|done| |lia].
    by apply prepare_owned_rewind_ok.
  - unfold init_content_length. destruct (Z.eqb_spec cl 0).
    + case_bool_decide; by apply (waiting_rewind_ok _ (Complete 0)).
    + apply (waiting_rewind_ok _ (Partial 0 cl)); [done|by apply Hf| |lia].
      apply prepare_rewind_ok; [tauto|]. by destruct Hargs as (_ & _ & [|]).
  - unfold init_content_length_owned. destruct (Z.eqb_spec cl 0).
    + by apply (waiting_rewind_ok _ (Complete 0)).
    + apply (waiting_rewind_ok _ (Partial 0 cl)); [done|done| |lia].
      apply prepare_owned_rewind_ok. tauto.
  - apply (waiting_rewind_ok _ (UntilClose 0)); [done|by apply Hf| |done].
    destruct Hargs. by apply prepare_rewind_ok.
  - apply (waiting_rewind_ok _ (UntilClose 0)); [done|done| |done].
    by apply prepare_owned_rewind_ok.
Qed.

Section reachability.
Context (parse : list byte -> chunk_status).

Inductive reachable : BodyReader -> Prop :=
| reach_init up i :
    init_args_ok i (new up) -> reachable (run_init i (new up))
| reach_again i r :
    reachable r -> init_args_ok i r -> reachable (run_init i (reinit r))
| reach_close i r :
    reachable r -> init_args_ok i r -> reachable (run_init i r)
| reach_read r st res r' st' :
    reachable r -> read_body parse (r, st) = Val res (r', st') -> reachable r'
| reach_error r st e r' st' :
    reachable r -> read_body parse (r, st) = Fail e (r', st') -> reachable r'
| reach_cancel r st r' st' :
    reachable r -> read_body parse (r, st) = Cancelled (r', st') -> reachable r'
| reach_upgrade r :
    reachable r -> zlen (default [] (body_buf_overread r)) <= isize_max ->
    reachable (convert_to_close_delimited r)
| reach_push r bs :
    reachable r -> reachable (push_body_overread bs r)
| reach_take r :
    reachable r -> reachable (take_body_overread r).2.

Lemma reader_ok_rewind r : reader_ok r -> rewind_ok r.
Proof.
  intros [_ H]. unfold state_ok in H. destruct (body_state r); try done; try tauto.
  - destruct H as [|[? _]]; [tauto|auto].
  - destruct H as [? _]; auto.
Qed.

Lemma convert_ok r :
  reader_ok r -> zlen (default [] (body_buf_overread r)) <= isize_max ->
  reader_ok (convert_to_close_delimited r).
Proof.
  intros Hok Hl. pose proof Hok as [Hsz _]. apply reader_ok_rewind in Hok as Hrw.
  assert (Hgoal : forall r', body_buf_size r' = BODY_BUFFER_SIZE -> rewind_ok r' ->
            reader_ok (set_state (UntilClose 0) r')) by (intros; by split).
  unfold convert_to_close_delimited.
  destruct (body_state r); try done;
    (apply Hgoal; [by destruct (rewind_buf_len r =? 0)|]);
    (destruct (rewind_buf_len r =? 0); [|done]);
    apply (prepare_owned_rewind_ok _ (set_overread None r) Hl).
Qed.

Lemma reader_ok_overread o r : reader_ok r -> reader_ok (set_overread o r).
Proof. done. Qed.

Lemma reachable_ok `{!ChunkSizeBounds parse} r : reachable r -> reader_ok r.
Proof.
  induction 1 as [up i Hi|i r _ IH Hi|i r _ IH Hi|r st res r' st' _ IH Hr|r st e r' st' _ IH Hr
                 |r st r' st' _ IH Hr|r _ IH Hl|r bs _ IH|r _ IH].
  - apply run_init_ok; auto.
  - apply run_init_ok; [apply IH|by apply reader_ok_rewind in IH|done].
  - apply run_init_ok; [apply IH|by apply reader_ok_rewind|done].
  - pose proof (read_body_safe_wp parse r st IH) as H. unfold wp in H. rewrite Hr in H.
    apply H.
  - pose proof (read_body_safe_wp parse r st IH) as H. unfold wp in H. by rewrite Hr in H.
  - pose proof (read_body_safe_wp parse r st IH) as H. unfold wp in H. by rewrite Hr in H.
  - by apply convert_ok.
  - unfold push_body_overread. repeat case_match; auto using reader_ok_overread.
  - by apply reader_ok_overread.
Qed.

End reachability.
