(* ===== verification/BodyDecode.v ===== *)
(** * HTTP/1 body reader: what a chunked message decodes to

    The reader is run to the end of a chunked message that arrives in any
    fragmentation, with any part of it already rewound into the buffer and any
    number of cancelled reads in between.  It returns exactly the payload, ends
    in [Complete], and leaves every byte after the message for the next one. *)

From stdpp Require Import base list numbers strings.
From S2P Require Import Prelude Errors BodyReader BodyReaderSafety.
Local Open Scope Z_scope.

(** ** Streams without errors *)

Definition good_event (ev : rd_event) : Prop :=
  match ev with RData bs => bs <> [] | RPend => True | RErr => False end.

Definition event_bytes (ev : rd_event) : list byte :=
  match ev with RData bs => bs | _ => [] end.

Definition flat (st : list rd_event) : list byte := concat (map event_bytes st).

Definition good_stream (st : list rd_event) : Prop := Forall good_event st.

Lemma wp_read_buf_good limit (Q : Z -> reader_io -> Prop) Qe Qc r b st :
  0 < limit -> good_stream st -> flat st <> [] -> body_buf r = Some b ->
  (forall now st', now <> [] -> zlen now <= limit -> flat st = now ++ flat st' ->
     good_stream st' -> zlen st' <= zlen st ->
     Q (zlen now) (set_buf (Some (b ++ now)) r, st')) ->
  (forall st', flat st' = flat st -> good_stream st' -> zlen st' < zlen st -> Qc (r, st')) ->
  wp (read_buf limit) Q Qe Qc (r, st).
Proof.
  intros Hl Hg Hne Hb HQ HC. unfold wp, read_buf.
  destruct (Z.eqb_spec limit 0); [lia|].
  destruct st as [|ev st]; [done|]. inversion_clear Hg as [|?? Hev Hg'].
  destruct ev as [bs| |]; simpl in Hev; [|done|].
  - rewrite Hb. simpl. assert (Hbs : 0 < zlen bs) by by apply zlen_pos.
    apply HQ.
    + intros H. apply (f_equal zlen) in H. rewrite zlen_ztake, zlen_nil in H by lia. lia.
    + rewrite zlen_ztake by lia. lia.
    + unfold flat. simpl. case_bool_decide as Hd; simpl.
      * rewrite <- (ztake_zdrop limit bs) at 1. rewrite Hd, app_nil_r. done.
      * rewrite app_assoc, ztake_zdrop. done.
    + case_bool_decide as Hd; [done|]. by constructor.
    + case_bool_decide; rewrite ?zlen_cons; lia.
  - apply HC; [done|done|]. rewrite zlen_cons. lia.
Qed.

(** ** The wire format *)

Section wire.
Context (parse : list byte -> chunk_status).

(** [line] is a complete chunk-size line announcing [n]: the parser takes it
    off the front of any buffer and asks for more on every proper prefix. *)
Definition good_line (line : list byte) (n : Z) : Prop :=
  (forall rest, parse (line ++ rest) = CsComplete (zlen line) n) /\
  (forall p q, line = p ++ q -> q <> [] -> parse p = CsPartial) /\
  0 < zlen line <= PARTIAL_CHUNK_HEAD_LIMIT.

Record chunk := { c_line : list byte; c_data : list byte }.

Definition chunk_ok (c : chunk) : Prop :=
  good_line (c_line c) (zlen (c_data c)) /\ c_data c <> [].

Definition enc_chunk (c : chunk) : list byte := c_line c ++ c_data c ++ CRLF.
Definition enc_chunks (cs : list chunk) : list byte := concat (map enc_chunk cs).
Definition payload (cs : list chunk) : list byte := concat (map c_data cs).

Definition no_crlf (t : list byte) : Prop := Forall (fun c => c <> CR /\ c <> LF) t.
Definition trailer_ok (t : list byte) : Prop := t <> [] /\ no_crlf t.

Fixpoint enc_trailers (ts : list (list byte)) : list byte :=
  match ts with
  | [] => CRLF
  | t :: ts => t ++ CRLF ++ enc_trailers ts
  end.

(** A chunked message: data chunks, last chunk, trailers, empty line. *)
Definition message (cs : list chunk) (last : list byte) (ts : list (list byte))
    : list byte :=
  enc_chunks cs ++ last ++ enc_trailers ts.

Definition message_ok (cs : list chunk) (last : list byte) (ts : list (list byte)) : Prop :=
  Forall chunk_ok cs /\ good_line last 0 /\ Forall trailer_ok ts /\
  2 + zlen (enc_trailers ts) <= TRAILER_SIZE_LIMIT.

(** ** What is left of it *)

Section remaining.
Context (last : list byte) (ts : list (list byte)) (E : list byte).

Definition tail_bytes (cs : list chunk) : list byte := message cs last ts ++ E.

(** The bytes [W] still to come and the payload they carry, when [x] bytes of
    the current chunk (CRLF included) are outstanding. *)
Inductive crest : Z -> list byte -> list byte -> Prop :=
| crest_line cs :
    Forall chunk_ok cs -> crest 0 (tail_bytes cs) (payload cs)
| crest_lf cs :
    Forall chunk_ok cs -> crest 1 (LF :: tail_bytes cs) (payload cs)
| crest_data p cs :
    Forall chunk_ok cs ->
    crest (zlen p + 2) (p ++ CR :: LF :: tail_bytes cs) (p ++ payload cs).

End remaining.

(** The bytes left of the trailer section when [k] bytes of the final CRLF CRLF
    have been matched. *)
Inductive trest (E : list byte) : Z -> list byte -> Prop :=
| trest_text t ts :
    no_crlf t -> Forall trailer_ok ts ->
    trest E 0 (t ++ CR :: LF :: enc_trailers ts ++ E)
| trest_text_lf ts :
    Forall trailer_ok ts -> trest E 1 (LF :: enc_trailers ts ++ E)
| trest_line ts :
    Forall trailer_ok ts -> trest E 2 (enc_trailers ts ++ E)
| trest_last_lf : trest E 3 (LF :: E).

(** ** What the reader has buffered *)

Inductive at_chunked (total : Z) (r : BodyReader) : Z -> list byte -> Z -> Prop :=
| ac_wait x :
    body_state r = Chunked total 0 0 x -> rewind_buf_len r = 0 ->
    at_chunked total r x [] 0
| ac_rewind w :
    body_state r = Chunked total 0 0 0 -> body_buf r = Some w ->
    rewind_buf_len r = zlen w -> w <> [] -> zlen w <= isize_max ->
    at_chunked total r 0 w 1
| ac_head e x b w :
    body_state r = Chunked total 0 e x -> rewind_buf_len r = 0 ->
    body_buf r = Some b -> 0 < x <= e -> e <= zlen b <= isize_max ->
    x <= PARTIAL_CHUNK_HEAD_LIMIT ->
    slice b (e - x) e = Some w -> parse w = CsPartial ->
    at_chunked total r 0 w 0
| ac_multi s e b w :
    body_state r = Chunked total s e 0 -> rewind_buf_len r = 0 ->
    body_buf r = Some b -> 0 < s < e -> e <= zlen b <= isize_max ->
    slice b s e = Some w ->
    at_chunked total r 0 w 1.

Inductive at_final (total t : Z) (r : BodyReader) (k : Z) : list byte -> Prop :=
| af_wait :
    body_state r = ChunkedFinal total t 0 k -> rewind_buf_len r = 0 ->
    at_final total t r k []
| af_buf w b e :
    body_state r = ChunkedFinal total t e k -> rewind_buf_len r = 0 ->
    body_buf r = Some b -> zlen b <= isize_max -> 0 < e -> slice b 0 e = Some w ->
    at_final total t r k w.

Section decoding.
Context (last : list byte) (ts : list (list byte)) (E : list byte).

(** The reader is in the middle of the message: [body] is still to be returned
    and at most [m] more calls are needed. *)
Inductive decoding (total : Z) (body : list byte) (m : Z) (s : reader_io) : Prop :=
| dec_chunked x w f :
    at_chunked total s.1 x w f -> crest last ts E x (w ++ flat s.2) body ->
    2 * zlen w + 4 * zlen (flat s.2) + zlen s.2 + f <= m ->
    body_buf_size s.1 = BODY_BUFFER_SIZE -> is_usize total ->
    good_stream s.2 -> zlen (w ++ flat s.2) <= isize_max ->
    decoding total body m s
| dec_final t k w :
    body = [] -> at_final total t s.1 k w -> trest E k (w ++ flat s.2) -> 0 <= t ->
    t + k + zlen (w ++ flat s.2) - zlen E <= TRAILER_SIZE_LIMIT ->
    2 * zlen w + 4 * zlen (flat s.2) + zlen s.2 <= m ->
    body_buf_size s.1 = BODY_BUFFER_SIZE -> is_usize total ->
    good_stream s.2 -> zlen (w ++ flat s.2) <= isize_max ->
    decoding total body m s.

(** The message is over: nothing behind it is lost. *)
Definition decoded (total : Z) (s : reader_io) : Prop :=
  body_state s.1 = Complete total /\ good_stream s.2 /\
  default [] (body_buf_overread s.1) ++ flat s.2 = E.

(** One successful call of [read_body]. *)
Definition step_val (total : Z) (body : list byte) (m : Z) (res : option BufRef)
    (s : reader_io) : Prop :=
  match res with
  | None => body = [] /\ decoded total s
  | Some ref =>
      exists d body', get_body s.1 ref = Some d /\ body = d ++ body' /\
        decoding (wadd total (zlen d)) body' (m - 1) s
  end.


(** ** List splitting *)

Lemma split_chunk (k f D R : list byte) :
  k ++ f = D ++ CR :: LF :: R ->
  (exists p, D = k ++ p /\ f = p ++ CR :: LF :: R) \/
  (k = D ++ [CR] /\ f = LF :: R) \/
  (exists k', k = D ++ CR :: LF :: k' /\ R = k' ++ f).
Proof.
  intros [(q & -> & Hq)|(p & -> & ->)]%app_eq_inv; [|by eauto].
  destruct q as [|b1 [|b2 q]]; simplify_list_eq.
  - left. exists []. by rewrite app_nil_r.
  - by eauto.
  - right. right. exists q. done.
Qed.

Lemma wadd_0 t : is_usize t -> wadd t 0 = t.
Proof. intros H. unfold wadd. rewrite Z.add_0_r. apply Z.mod_small. uz. Qed.

Lemma wadd_wadd a b c : wadd (wadd a b) c = wadd a (b + c).
Proof. unfold wadd. rewrite Zplus_mod_idemp_l. f_equal. lia. Qed.

(** References into the buffer. *)
Lemma get_body_new r st b w a n d rest :
  body_buf r = Some b -> zlen b <= isize_max -> 0 <= a -> zlen d = n ->
  slice b a (a + zlen w) = Some w -> w = d ++ rest ->
  get_body (set_state st r) (BufRef_new a n) = Some d.
Proof.
  intros Hb Hl Ha <- Hsl ->. unfold get_body. simpl. rewrite Hb.
  pose proof (zlen_nonneg d). pose proof (zlen_nonneg rest).
  unfold slice in Hsl. rewrite zlen_app in Hsl.
  destruct (Z.leb_spec 0 a); [|done].
  destruct (Z.leb_spec a (a + (zlen d + zlen rest))); [|lia].
  destruct (Z.leb_spec (a + (zlen d + zlen rest)) (zlen b)); [|done].
  simpl in Hsl. injection Hsl as Hsl. rewrite BufRef_new_get by lia. f_equal.
  apply (f_equal (ztake (zlen d))) in Hsl. rewrite ztake_app_exact in Hsl.
  etransitivity; [|exact Hsl]. unfold ztake. rewrite take_take. f_equal. lia.
Qed.

Lemma slice_suffix (b w d rest : list byte) s e :
  slice b s e = Some w -> w = d ++ rest -> slice b (s + zlen d) e = Some rest.
Proof.
  intros Hsl ->. apply slice_length in Hsl as Hl. rewrite zlen_app in Hl.
  pose proof (zlen_nonneg d). pose proof (zlen_nonneg rest).
  unfold slice in *.
  destruct (Z.leb_spec 0 s); [|done]. destruct (Z.leb_spec s e); [|done].
  destruct (Z.leb_spec e (zlen b)); [|done]. simpl in Hsl. injection Hsl as Hsl.
  destruct (Z.leb_spec 0 (s + zlen d)), (Z.leb_spec (s + zlen d) e); try lia. simpl.
  f_equal. apply (f_equal (zdrop (zlen d))) in Hsl. rewrite zdrop_app_exact in Hsl.
  etransitivity; [|exact Hsl]. unfold ztake, zdrop.
  rewrite skipn_firstn_comm, drop_drop. f_equal; [lia|]. f_equal. lia.
Qed.

Lemma slice_range (b w : list byte) s e : slice b s e = Some w -> 0 <= s <= e /\ e <= zlen b.
Proof.
  unfold slice. destruct (Z.leb_spec 0 s), (Z.leb_spec s e), (Z.leb_spec e (zlen b)); done.
Qed.

Lemma slice_prefix (b w d rest : list byte) s e :
  slice b s e = Some w -> w = d ++ rest -> slice b s (s + zlen d) = Some d.
Proof.
  intros Hsl ->. apply slice_length in Hsl as Hl. rewrite zlen_app in Hl.
  pose proof (zlen_nonneg d). pose proof (zlen_nonneg rest).
  apply slice_range in Hsl as Hr. rewrite slice_Some in Hsl by lia. injection Hsl as Hsl.
  rewrite slice_Some by lia. f_equal. apply (f_equal (ztake (zlen d))) in Hsl.
  rewrite ztake_app_exact in Hsl. etransitivity; [|exact Hsl].
  unfold ztake. rewrite take_take. f_equal. lia.
Qed.

(** ** CRLF checks that succeed *)

Lemma wp_crlf_cr tr (Q : bool -> reader_io -> Prop) Qe Qc s :
  Q false s -> wp (validate_crlf [CR] false tr) Q Qe Qc s.
Proof. done. Qed.
Lemma wp_crlf_full tr l (Q : bool -> reader_io -> Prop) Qe Qc s :
  Q true s -> wp (validate_crlf (CR :: LF :: l) false tr) Q Qe Qc s.
Proof. done. Qed.
Lemma wp_crlf_lf tr l (Q : bool -> reader_io -> Prop) Qe Qc s :
  Q true s -> wp (validate_crlf (LF :: l) true tr) Q Qe Qc s.
Proof. done. Qed.

(** ** Filling the buffer *)

(** The first line of what is left, and what follows it. *)
Lemma tail_bytes_line cs :
  good_line last 0 -> Forall chunk_ok cs ->
  exists L n R, tail_bytes last ts E cs = L ++ R /\ good_line L n.
Proof.
  intros Hlast Hcs. destruct cs as [|c cs].
  - exists last, 0, (enc_trailers ts ++ E). split; [|done].
    unfold tail_bytes, message. simpl. by rewrite <- app_assoc.
  - inversion_clear Hcs as [|?? [Hc _] _].
    exists (c_line c), (zlen (c_data c)), ((c_data c ++ CRLF) ++ tail_bytes last ts E cs).
    split; [|done]. unfold tail_bytes, message, enc_chunks. simpl.
    unfold enc_chunk. by rewrite !app_assoc.
Qed.

Lemma crest_nonempty x W body : good_line last 0 -> crest last ts E x W body -> W <> [].
Proof.
  intros Hlast Hc. destruct Hc as [cs Hcs|cs Hcs|p cs Hcs]; [|done|by destruct p].
  destruct (tail_bytes_line cs) as (L & n & R & -> & (_ & _ & Hl)); [done..|].
  intros H. apply (f_equal zlen) in H. rewrite zlen_app, zlen_nil in H.
  pose proof (zlen_nonneg R). lia.
Qed.

Lemma partial_head_more w f body :
  good_line last 0 -> crest last ts E 0 (w ++ f) body -> parse w = CsPartial -> f <> [].
Proof.
  intros Hlast Hc Hp ->. rewrite app_nil_r in Hc.
  assert (exists cs, Forall chunk_ok cs /\ w = tail_bytes last ts E cs) as (cs & Hcs & ->).
  { inversion Hc as [cs Hcs| |p cs Hcs Hx]; [by eauto|].
    pose proof (zlen_nonneg p). lia. }
  destruct (tail_bytes_line cs) as (L & n & R & Heq & (Hl & _)); [done..|].
  rewrite Heq, Hl in Hp. done.
Qed.

Definition fill_ok (total x : Z) (W : list byte) (m s0 : Z) (ee : Z * Z) (s' : reader_io)
    : Prop :=
  exists b w', filled total s0 ee.1 s'.1 /\ ee.2 = x /\ body_buf s'.1 = Some b /\
    slice b s0 ee.1 = Some w' /\ w' <> [] /\ W = w' ++ flat s'.2 /\ good_stream s'.2 /\
    (0 < x -> s0 = 0) /\ 2 * zlen w' + 4 * zlen (flat s'.2) + zlen s'.2 + 1 <= m.

Lemma fill_step total r st x w f body m s0 e0 x0 :
  good_line last 0 ->
  at_chunked total r x w f -> crest last ts E x (w ++ flat st) body ->
  2 * zlen w + 4 * zlen (flat st) + zlen st + f <= m ->
  body_buf_size r = BODY_BUFFER_SIZE -> is_usize total -> good_stream st ->
  zlen (w ++ flat st) <= isize_max ->
  body_state r = Chunked total s0 e0 x0 ->
  wp (chunked_fill s0 e0 x0) (fill_ok total x (w ++ flat st) m s0)
    (fun _ _ => False) (decoding total body (m - 1)) (r, st).
Proof.
  intros Hlast Hac Hcr Hm Hsz Htot Hg Hlen Hs. unfold chunked_fill.
  assert (usize_mod = 2 * (isize_max + 1)) as Hmod by done.
  assert (0 < BODY_BUFFER_SIZE < isize_max) as Hbs by done.
  destruct Hac as [x Hs' Hrw|w Hs' Hb Hrw Hne Hl|e x b w Hs' Hrw Hb Hx He Hlim Hsl Hpar
                  |s e b w Hs' Hrw Hb Hse He Hsl];
    rewrite Hs in Hs'; injection Hs' as -> -> ->.
  - (* a fresh read *)
    assert (Hf : flat st <> []) by (eapply crest_nonempty in Hcr; eauto).
    simpl. wp1. wp1. wp1. wp1. wp1. wp1. rewrite Hrw. simpl. wp1. wp1.
    apply wp_read_buf_good with (b := []); [by rewrite Hsz|done|done|done| |].
    + intros now st' Hnow Hnl Hfl Hg' Hst. simpl.
      assert (0 < zlen now) by by apply zlen_pos.
      wp1. wp1. eapply wp_upd_state; [simpl; by rewrite Hs|]. wp1.
      exists now, now. rewrite Hfl, zlen_app in Hm. change (zlen []) with 0 in Hm.
      split; [|repeat split; simpl; auto; try lia; apply slice_all].
      split; simpl; auto; try lia; eauto. exists now. split; [done|].
      rewrite Hsz in Hnl. lia.
    + intros st' Hfl Hg' Hst. eapply (dec_chunked _ _ _ _ x [] 0); simpl; auto.
      * constructor; [done|done].
      * by rewrite Hfl.
      * rewrite Hfl. lia.
      * by rewrite Hfl.
  - (* rewound bytes *)
    assert (0 < zlen w) by by apply zlen_pos.
    simpl. wp1. wp1. wp1. wp1. wp1. wp1. rewrite Hrw.
    destruct (Z.eqb_spec (zlen w) 0); [lia|]. wp1. wp1. wp1.
    eapply wp_upd_state; [simpl; by rewrite Hs|]. wp1.
    exists w, w. split; [|repeat split; simpl; auto; try lia; apply slice_all].
    split; simpl; auto; try lia; eauto. exists w. split; [done|lia].
  - (* a partial head *)
    assert (Hf : flat st <> []) by (by eapply partial_head_more).
    simpl. destruct (Z.eqb_spec e 0); [lia|]. wp1. rewrite <- wp_eq_run.
    destruct (fill_partial_head_run r st total b e x) as (h & Hh & Hhl & ->); auto.
    rewrite Hsl in Hh. injection Hh as <-. rewrite wp_eq_run. unfold read_more_head. wp1.
    unfold PARTIAL_CHUNK_HEAD_LIMIT, BODY_BUFFER_SIZE in *.
    apply wp_read_buf_good with (b := w); [rewrite Hsz, wsub_small; lia|done|done|done| |].
    + intros now st' Hnow Hnl Hfl Hg' Hst.
      rewrite Hsz, wsub_small in Hnl by lia. assert (0 < zlen now) by by apply zlen_pos.
      destruct (Z.eqb_spec (zlen now) 0); [lia|]. wp1. wp1.
      eapply wp_upd_state; [done|]. wp1. simpl. rewrite wadd_small by lia.
      rewrite Hfl, zlen_app in Hm. exists (w ++ now), (w ++ now).
      assert (Hwn : zlen (w ++ now) = x + zlen now) by (rewrite zlen_app; lia).
      split; [|repeat split; simpl; auto; try lia].
      * split; simpl; auto; try lia; eauto. exists (w ++ now). split; [done|lia].
      * rewrite <- Hwn. apply slice_all.
      * by destruct w.
      * by rewrite Hfl, app_assoc.
    + intros st' Hfl Hg' Hst. eapply (dec_chunked _ _ _ _ 0 w 0); simpl; auto.
      * eapply (ac_head _ _ x x w); simpl; auto; try lia.
        replace (x - x) with 0 by lia. rewrite <- Hhl at 1. apply slice_all.
      * by rewrite Hfl.
      * rewrite Hfl. lia.
      * by rewrite Hfl.
  - (* another chunk in the buffer *)
    destruct (Z.eqb_spec s 0); [lia|]. wp1. apply slice_length in Hsl as Hwl.
    exists b, w. split; [|repeat split; simpl; auto; try lia].
    + split; simpl; auto; try lia; eauto.
    + intros ->. rewrite zlen_nil in Hwl. lia.
Qed.

(** ** States the parser leaves *)

Lemma dec_wait total r x body m st :
  body_buf_size r = BODY_BUFFER_SIZE -> rewind_buf_len r = 0 -> is_usize total ->
  crest last ts E x (flat st) body -> good_stream st ->
  4 * zlen (flat st) + zlen st <= m -> zlen (flat st) <= isize_max ->
  decoding total body m (set_state (Chunked total 0 0 x) r, st).
Proof.
  intros. eapply (dec_chunked _ _ _ _ x [] 0); simpl; auto.
  - by constructor.
  - change (zlen []) with 0. lia.
Qed.

Lemma dec_multi total r b s e w body m st :
  body_buf_size r = BODY_BUFFER_SIZE -> rewind_buf_len r = 0 -> is_usize total ->
  body_buf r = Some b -> slice b s e = Some w -> w <> [] -> 0 < s -> zlen b <= isize_max ->
  crest last ts E 0 (w ++ flat st) body -> good_stream st ->
  2 * zlen w + 4 * zlen (flat st) + zlen st + 1 <= m -> zlen (w ++ flat st) <= isize_max ->
  decoding total body m (set_state (Chunked total s e 0) r, st).
Proof.
  intros Hsz Hrw Hu Hb Hsl Hne Hs Hbl Hc Hg Hm Hl.
  apply slice_range in Hsl as Hr. apply slice_length in Hsl as Hwl.
  apply zlen_pos in Hne. eapply (dec_chunked _ _ _ _ 0 w 1); simpl; auto.
  eapply (ac_multi _ _ s e b w); simpl; auto; lia.
Qed.

Lemma filled_fields total s e r b :
  filled total s e r -> body_buf r = Some b ->
  body_buf_size r = BODY_BUFFER_SIZE /\ rewind_buf_len r = 0 /\
  (exists x, body_state r = Chunked total s e x) /\ e <= zlen b <= isize_max /\ 0 <= s <= e.
Proof.
  intros [Hsz Hrw Hx (b' & Hb & Hl) Hr] Hb'. rewrite Hb in Hb'. injection Hb' as ->. auto.
Qed.

Lemma crest_data_inv x W body :
  crest last ts E x W body -> 2 <= x ->
  exists p cs, Forall chunk_ok cs /\ x = zlen p + 2 /\
    W = p ++ CR :: LF :: tail_bytes last ts E cs /\ body = p ++ payload cs.
Proof. destruct 1 as [cs|cs|p cs]; intros; try lia. by exists p, cs. Qed.

(** ** The rest of a chunk's payload *)

Lemma payload_step total r st e x w b body m :
  filled total 0 e r -> body_buf r = Some b -> slice b 0 e = Some w -> w <> [] ->
  crest last ts E x (w ++ flat st) body -> 0 < x -> good_stream st ->
  2 * zlen w + 4 * zlen (flat st) + zlen st + 1 <= m ->
  zlen (w ++ flat st) <= isize_max -> is_usize total ->
  wp (chunked_payload e x) (step_val total body m) (fun _ _ => False)
    (decoding total body (m - 1)) (r, st).
Proof.
  intros Hf Hb Hsl Hne Hc Hx Hg Hm Hlen Hu.
  destruct (filled_fields _ _ _ _ _ Hf Hb) as (Hsz & Hrw & (x0 & Hs) & Hbl & _).
  assert (usize_mod = 2 * (isize_max + 1)) as Hmod by done.
  apply slice_length in Hsl as Hwl. apply zlen_pos in Hne as Hpos.
  rewrite Z.sub_0_r in Hwl. subst e. rewrite zlen_app in Hlen.
  pose proof (zlen_nonneg (flat st)).
  (* the result: [d] is delivered, [x'] or a further chunk is left *)
  assert (Hout : forall d rest x', w = d ++ rest ->
            get_body (set_state x' r) (BufRef_new 0 (zlen d)) = Some d).
  { intros d rest x' Hw. apply (get_body_new r x' b w 0 _ d rest); auto; lia. }
  unfold chunked_payload. wp1. wp1. wp1. eapply wp_unwrap; [done|].
  destruct (Z.leb_spec 2 x).
  - apply crest_data_inv in Hc as (p & cs & Hcs & -> & HW & ->); [|done].
    pose proof (zlen_nonneg p).
    apply split_chunk in HW as [(q & -> & Hfl)|[(-> & Hfl)|(k' & -> & Htl)]].
    + (* all of it payload *)
      assert (zlen q + 2 <= zlen (flat st)).
      { rewrite Hfl, zlen_app, !zlen_cons. pose proof (zlen_nonneg (tail_bytes last ts E cs)).
        lia. }
      rewrite zlen_app. pose proof (zlen_nonneg q).
      rewrite wadd_small by lia. destruct (Z.leb_spec (zlen w + 2) (zlen w + zlen q + 2)); [|lia].
      wp1. eapply wp_upd_state; [simpl; by rewrite Hs|]. wp1.
      eexists w, _. split; [apply (Hout w []); by rewrite app_nil_r|].
      split; [by rewrite <- app_assoc|]. rewrite wsub_small by lia.
      replace (zlen w + zlen q + 2 - zlen w) with (zlen q + 2) by lia.
      apply dec_wait; auto; try lia; [apply wadd_usize|].
      rewrite Hfl. by constructor.
    + (* payload and CR *)
      assert (Hl1 : zlen (p ++ [CR]) = zlen p + 1) by (rewrite zlen_app; done).
      rewrite Hl1 in *. rewrite wadd_small by lia.
      destruct (Z.leb_spec (zlen p + 1 + 2) (zlen p + 2)); [lia|]. wp1.
      unfold saturating_sub. replace (Z.max 0 (zlen p + 2 - 2)) with (zlen p) by lia.
      destruct (Z.ltb_spec (zlen p + 1) (zlen p + 2)); [|lia].
      destruct (Z.ltb_spec (zlen p) (zlen p + 1)); [|lia].
      wp1. eapply wp_unwrap; [by apply (slice_suffix b (p ++ [CR]) p [CR] 0)|].
      wp1. destruct (Z.eqb_spec (zlen p + 2) 1); [lia|]. apply wp_crlf_cr. wp1.
      destruct (Z.leb_spec (zlen p + 1) (zlen p + 2)); [|lia].
      wp1. eapply wp_upd_state; [simpl; by rewrite Hs|]. wp1.
      eexists p, _. split; [by apply (Hout p [CR])|]. split; [done|].
      rewrite wsub_small by lia. replace (zlen p + 2 - (zlen p + 1)) with 1 by lia.
      apply dec_wait; auto; try lia; [apply wadd_usize|]. rewrite Hfl. by constructor.
    + (* payload, CRLF, and maybe more *)
      assert (Hl1 : zlen (p ++ CR :: LF :: k') = zlen p + 2 + zlen k').
      { rewrite zlen_app, !zlen_cons. lia. }
      pose proof (zlen_nonneg k'). rewrite Hl1 in *. rewrite wadd_small by lia.
      destruct (Z.leb_spec (zlen p + 2 + zlen k' + 2) (zlen p + 2)); [lia|]. wp1.
      unfold saturating_sub. replace (Z.max 0 (zlen p + 2 - 2)) with (zlen p) by lia.
      destruct (Z.ltb_spec (zlen p + 2 + zlen k') (zlen p + 2)); [lia|].
      wp1. eapply wp_unwrap.
      { apply (slice_prefix b (p ++ CR :: LF :: k') (p ++ CRLF) k' 0) in Hsl; [|by rewrite <- app_assoc].
        apply (slice_suffix b (p ++ CRLF) p CRLF 0) in Hsl; [|done].
        rewrite zlen_app in Hsl. change (zlen CRLF) with 2 in Hsl. exact Hsl. }
      wp1. destruct (Z.eqb_spec (zlen p + 2) 1); [lia|]. apply wp_crlf_full.
      apply wp_assert; [done|].
      destruct (Z.leb_spec (zlen p + 2 + zlen k') (zlen p + 2)).
      * assert (k' = []) as -> by (apply zlen_zero; lia). simpl in Htl.
        wp1. eapply wp_upd_state; [simpl; by rewrite Hs|]. wp1.
        eexists p, _. split; [by apply (Hout p [CR; LF])|]. split; [done|].
        rewrite wsub_small by lia. change (zlen []) with 0.
        replace (zlen p + 2 - (zlen p + 2 + 0)) with 0 by lia.
        apply dec_wait; auto; try lia; [apply wadd_usize|]. rewrite <- Htl. by constructor.
      * wp1. eapply wp_upd_state; [simpl; by rewrite Hs|]. wp1.
        eexists p, _. split; [by apply (Hout p (CR :: LF :: k'))|]. split; [done|].
        apply (dec_multi _ r b _ _ k'); auto; try lia; [apply wadd_usize| | | | ].
        -- apply (slice_suffix b (p ++ CR :: LF :: k') (p ++ CRLF) k' 0) in Hsl;
             [|by rewrite <- app_assoc].
           rewrite zlen_app in Hsl. exact Hsl.
        -- intros ->. change (zlen []) with 0 in *. lia.
        -- rewrite <- Htl. by constructor.
        -- rewrite zlen_app. lia.
  - (* only the LF is missing *)
    assert (x = 1) as -> by lia.
    assert (exists cs, Forall chunk_ok cs /\ body = payload cs /\
              w ++ flat st = LF :: tail_bytes last ts E cs) as (cs & Hcs & -> & HW).
    { inversion Hc as [| |p cs ? Hp]; [by eauto|]. pose proof (zlen_nonneg p). lia. }
    destruct w as [|b0 k']; [done|]. simpl in HW. injection HW as -> Htl.
    rewrite zlen_cons in *. pose proof (zlen_nonneg k'). rewrite wadd_small by lia.
    destruct (Z.leb_spec (1 + zlen k' + 2) 1); [lia|]. wp1.
    change (saturating_sub 1 2) with 0. destruct (Z.ltb_spec (1 + zlen k') 1); [lia|].
    wp1. eapply wp_unwrap; [by apply (slice_prefix b (LF :: k') [LF] k' 0) in Hsl|].
    wp1. apply wp_crlf_lf. apply wp_assert; [done|].
    destruct (Z.leb_spec (1 + zlen k') 1).
    + assert (k' = []) as -> by (apply zlen_zero; lia). simpl in Htl.
      wp1. eapply wp_upd_state; [simpl; by rewrite Hs|]. wp1.
      eexists [], _. split; [by apply (Hout [] [LF])|]. split; [done|].
      rewrite wsub_small by lia. change (zlen []) with 0.
      replace (1 - (1 + 0)) with 0 by lia.
      apply dec_wait; auto; try lia; [apply wadd_usize|]. rewrite Htl. by constructor.
    + wp1. eapply wp_upd_state; [simpl; by rewrite Hs|]. wp1.
      eexists [], _. split; [by apply (Hout [] (LF :: k'))|]. split; [done|].
      apply (dec_multi _ r b _ _ k'); auto; try lia; [apply wadd_usize| | | | ].
      * by apply (slice_suffix b (LF :: k') [LF] k' 0) in Hsl.
      * intros ->. change (zlen []) with 0 in *. lia.
      * rewrite Htl. by constructor.
      * rewrite zlen_app. lia.
Qed.

(** ** A chunk from its size line on *)

(** What [parse_chunked_buf] leaves for [do_read_chunked_body] to finish: a
    value, or the bytes after the last chunk still in place at index [idx]. *)
Definition parse_val (total : Z) (body : list byte) (m s e : Z) (w : list byte)
    (res : option BufRef * option Z) (s' : reader_io) : Prop :=
  match res with
  | (Some ref, Some idx) =>
      body = [] /\ ref = BufRef_new 0 0 /\
      exists b L k, body_buf s'.1 = Some b /\ zlen b <= isize_max /\
        slice b s e = Some w /\ w = L ++ k /\ L <> [] /\ idx = s + zlen L /\
        body_state s'.1 = ChunkedFinal total 0 (zlen k) 2 /\
        rewind_buf_len s'.1 = 0 /\ body_buf_size s'.1 = BODY_BUFFER_SIZE /\
        k ++ flat s'.2 = enc_trailers ts ++ E /\ good_stream s'.2 /\
        2 * zlen w + 4 * zlen (flat s'.2) + zlen s'.2 + 1 <= m /\
        zlen (w ++ flat s'.2) <= isize_max
  | (o, _) => step_val total body m o s'
  end.

Lemma enc_trailers_crlf k f :
  Forall trailer_ok ts -> (CR :: LF :: k) ++ f = enc_trailers ts ++ E -> ts = [] /\ k ++ f = E.
Proof.
  intros Ht H. destruct ts as [|t ts'].
  - simpl in H. by injection H.
  - inversion_clear Ht as [|?? [Hne Hno] _]. destruct t as [|c t]; [done|].
    inversion_clear Hno as [|?? [Hcr _] _]. simpl in H. by injection H as <- _.
Qed.

Lemma last_chunk_step total r st s e b w k m :
  filled total s e r -> body_buf r = Some b -> slice b s e = Some w -> w = last ++ k ->
  good_line last 0 -> Forall trailer_ok ts ->
  k ++ flat st = enc_trailers ts ++ E -> good_stream st ->
  2 * zlen w + 4 * zlen (flat st) + zlen st + 1 <= m ->
  zlen (w ++ flat st) <= isize_max -> is_usize total ->
  wp (parse_last_chunk w (zlen last) s e) (parse_val total [] m s e w) (fun _ _ => False)
    (decoding total [] (m - 1)) (r, st).
Proof.
  intros Hf Hb Hsl Hw (_ & _ & Hlast) Hts Hk Hg Hm Hlen Hu.
  destruct (filled_fields _ _ _ _ _ Hf Hb) as (Hsz & Hrw & (x0 & Hs) & Hbl & Hr).
  assert (usize_mod = 2 * (isize_max + 1)) as Hmod by done.
  assert (PARTIAL_CHUNK_HEAD_LIMIT < isize_max) as Hlim by done.
  apply slice_length in Hsl as Hwl.
  assert (Hwk : zlen w = zlen last + zlen k) by (rewrite Hw, zlen_app; lia).
  pose proof (zlen_nonneg k).
  unfold parse_last_chunk, checked_add.
  destruct (Z.ltb_spec (zlen last + 2) usize_mod); [|lia].
  destruct (_ && _) eqn:Hcrlf.
  - apply andb_true_iff in Hcrlf as [Hge%Z.leb_le Hc%bool_decide_eq_true].
    assert (exists k', k = CR :: LF :: k') as (k' & ->).
    { rewrite Hw, slice_Some, zdrop_app_exact in Hc by (rewrite ?zlen_app; lia).
      injection Hc as Hc. replace (zlen last + 2 - zlen last) with 2 in Hc by lia.
      exists (zdrop 2 k). rewrite <- (ztake_zdrop 2 k) at 1. by rewrite Hc. }
    destruct (enc_trailers_crlf _ _ Hts Hk) as [Hts0 HE].
    wp1. eapply wp_upd_state; [done|]. wp1. wp1. wp1.
    rewrite !zlen_cons in Hwk. pose proof (zlen_nonneg k').
    rewrite !wadd_small by lia.
    assert (Hte : zlen (ztake e b) = e) by (rewrite zlen_ztake by lia; lia).
    assert (Hover : zdrop (s + (zlen last + 2)) (ztake e b) = k').
    { apply (slice_suffix b w (last ++ CRLF) k' s) in Hsl;
        [|by rewrite Hw, <- app_assoc].
      rewrite zlen_app in Hsl. change (zlen CRLF) with 2 in Hsl.
      rewrite slice_Some in Hsl by lia. injection Hsl as Hsl. rewrite <- Hsl.
      unfold ztake, zdrop. rewrite skipn_firstn_comm. f_equal. lia. }
    eapply wp_unwrap.
    { unfold finish_body_buf. simpl. rewrite Hb, Hte, Hover.
      destruct (Z.leb_spec (s + (zlen last + 2)) e); [done|lia]. }
    wp1. wp1. wp1. split; [done|]. unfold decoded. simpl. rewrite Hs. simpl.
    rewrite wadd_0 by done. split; [done|]. split; [done|].
    case_bool_decide as Hkn; simpl; [by rewrite Hkn in HE|done].
  - wp1. eapply wp_upd_state; [simpl; by rewrite Hs|]. wp1.
    rewrite wadd_small by lia. rewrite wsub_small by lia.
    split; [done|]. split; [done|].
    exists b, last, k. repeat split; simpl; auto; try lia.
    + intros Hl0. rewrite Hl0 in Hlast. change (zlen []) with 0 in Hlast. lia.
    + f_equal. lia.
Qed.

Lemma data_chunk_step total r st s e b w k L data cs m :
  filled total s e r -> body_buf r = Some b -> slice b s e = Some w -> w = L ++ k ->
  0 < zlen L <= PARTIAL_CHUNK_HEAD_LIMIT -> data <> [] -> Forall chunk_ok cs ->
  k ++ flat st = data ++ CR :: LF :: tail_bytes last ts E cs -> good_stream st ->
  2 * zlen w + 4 * zlen (flat st) + zlen st + 1 <= m ->
  zlen (w ++ flat st) <= isize_max ->
  wp (parse_data_chunk w (zlen L) (zlen data) s)
    (parse_val total (data ++ payload cs) m s e w) (fun _ _ => False)
    (decoding total (data ++ payload cs) (m - 1)) (r, st).
Proof.
  intros Hf Hb Hsl Hw HL Hdata Hcs Hk Hg Hm Hlen.
  destruct (filled_fields _ _ _ _ _ Hf Hb) as (Hsz & Hrw & (x0 & Hs) & Hbl & Hr).
  assert (usize_mod = 2 * (isize_max + 1)) as Hmod by done.
  apply slice_length in Hsl as Hwl.
  assert (Hwk : zlen w = zlen L + zlen k) by (rewrite Hw, zlen_app; lia).
  assert (Hlk : zlen data + 2 <= zlen k + zlen (flat st)).
  { rewrite <- zlen_app, Hk, zlen_app, !zlen_cons.
    pose proof (zlen_nonneg (tail_bytes last ts E cs)). lia. }
  pose proof (zlen_nonneg k). apply zlen_pos in Hdata. pose proof (zlen_nonneg (flat st)).
  rewrite zlen_app in Hlen.
  (* the payload part [d] of this buffer is what is returned *)
  assert (Hout : forall d rest x', k = d ++ rest ->
            get_body (set_state x' r) (BufRef_new (s + zlen L) (zlen d)) = Some d).
  { intros d rest x' ->. apply (get_body_new r x' b (d ++ rest) _ _ d rest); auto; try lia.
    apply (slice_suffix b w L (d ++ rest) s) in Hsl; [|done].
    rewrite <- Hsl. f_equal. rewrite Hwk in Hwl. lia. }
  unfold parse_data_chunk, checked_add.
  destruct (Z.ltb_spec (zlen L + zlen data) usize_mod); [|lia].
  destruct (Z.ltb_spec (zlen L + zlen data + 2) usize_mod); [|lia].
  unfold saturating_sub. rewrite (wadd_small s) by lia.
  replace (Z.max 0 (zlen L + zlen data + 2 - 2)) with (zlen L + zlen data) by lia.
  apply split_chunk in Hk as [(q & -> & Hfl)|[(-> & Hfl)|(k' & -> & Htl)]].
  - (* the buffer ends inside the payload *)
    rewrite zlen_app in *. pose proof (zlen_nonneg q).
    destruct (Z.leb_spec (zlen w) (zlen L + (zlen k + zlen q) + 2)); [|lia].
    assert (Hact : (if zlen w <? zlen L + (zlen k + zlen q) then wsub (zlen w) (zlen L)
                    else zlen k + zlen q) = zlen k).
    { destruct (Z.ltb_spec (zlen w) (zlen L + (zlen k + zlen q))); [|lia].
      rewrite wsub_small; lia. }
    rewrite Hact. wp1.
    destruct (Z.ltb_spec (zlen L + (zlen k + zlen q)) (zlen w)); [lia|]. wp1.
    wp1. eapply wp_upd_state; [simpl; by rewrite Hs|]. wp1.
    eexists k, _. split; [apply (Hout k []); by rewrite app_nil_r|].
    split; [by rewrite <- app_assoc|]. rewrite wsub_small by lia.
    replace (zlen L + (zlen k + zlen q) + 2 - zlen w) with (zlen q + 2) by lia.
    apply dec_wait; auto; try lia; [apply wadd_usize|]. rewrite Hfl. by constructor.
  - (* payload and CR *)
    assert (Hl1 : zlen (data ++ [CR]) = zlen data + 1) by (rewrite zlen_app; done).
    rewrite Hl1 in *. destruct (Z.leb_spec (zlen w) (zlen L + zlen data + 2)); [|lia].
    destruct (Z.ltb_spec (zlen w) (zlen L + zlen data)); [lia|]. wp1.
    destruct (Z.ltb_spec (zlen L + zlen data) (zlen w)); [|lia].
    wp1. eapply wp_unwrap; [apply slice_Some; lia|].
    assert (Hcr : ztake (zlen w - (zlen L + zlen data)) (zdrop (zlen L + zlen data) w) = [CR]).
    { rewrite Hw at 2. rewrite app_assoc, <- zlen_app, zdrop_app_exact, ztake_ge; [done|].
      rewrite zlen_app. change (zlen [CR]) with 1. lia. }
    rewrite Hcr. apply wp_crlf_cr.
    wp1. eapply wp_upd_state; [simpl; by rewrite Hs|]. wp1.
    eexists data, _. split; [by apply (Hout data [CR])|]. split; [done|].
    rewrite wsub_small by lia. replace (zlen L + zlen data + 2 - zlen w) with 1 by lia.
    apply dec_wait; auto; try lia; [apply wadd_usize|]. rewrite Hfl. by constructor.
  - (* the whole chunk, and maybe more *)
    assert (Hl1 : zlen (data ++ CR :: LF :: k') = zlen data + 2 + zlen k').
    { rewrite zlen_app, !zlen_cons. lia. }
    pose proof (zlen_nonneg k'). rewrite Hl1 in *.
    assert (Hcr : forall n, 2 <= n -> exists l, ztake n (zdrop (zlen L + zlen data) w) =
                    CR :: LF :: l).
    { intros n Hn. exists (ztake (n - 2) k').
      rewrite Hw, app_assoc, <- zlen_app, zdrop_app_exact.
      change (CR :: LF :: k') with (CRLF ++ k'). rewrite ztake_app_r by done. done. }
    destruct (Z.leb_spec (zlen w) (zlen L + zlen data + 2)).
    + assert (k' = []) as -> by (apply zlen_zero; lia). change (zlen []) with 0 in *.
      destruct (Z.ltb_spec (zlen w) (zlen L + zlen data)); [lia|]. wp1.
      destruct (Z.ltb_spec (zlen L + zlen data) (zlen w)); [|lia].
      wp1. eapply wp_unwrap; [apply slice_Some; lia|].
      destruct (Hcr (zlen w - (zlen L + zlen data))) as (l & ->); [lia|]. apply wp_crlf_full.
      wp1. eapply wp_upd_state; [simpl; by rewrite Hs|]. wp1.
      eexists data, _. split; [by apply (Hout data [CR; LF])|]. split; [done|].
      rewrite wsub_small by lia. replace (zlen L + zlen data + 2 - zlen w) with 0 by lia.
      apply dec_wait; auto; try lia; [apply wadd_usize|].
      simpl in Htl. rewrite <- Htl. by constructor.
    + wp1. eapply wp_unwrap; [apply slice_Some; lia|].
      destruct (Hcr (zlen L + zlen data + 2 - (zlen L + zlen data))) as (l & ->); [lia|].
      wp1. apply wp_crlf_full. wp1. apply wp_assert; [done|].
      wp1. eapply wp_upd_state; [simpl; by rewrite Hs|]. wp1.
      eexists data, _. split; [by apply (Hout data (CR :: LF :: k'))|]. split; [done|].
      rewrite (wadd_small s) by lia.
      apply (dec_multi _ r b _ _ k'); auto; try lia; [apply wadd_usize| | | | ].
      * apply (slice_suffix b w (L ++ data ++ CRLF) k' s) in Hsl;
          [|by rewrite Hw, <- !app_assoc].
        rewrite !zlen_app in Hsl. change (zlen CRLF) with 2 in Hsl. rewrite <- Hsl.
        f_equal. lia.
      * intros ->. change (zlen []) with 0 in *. lia.
      * rewrite <- Htl. by constructor.
      * rewrite zlen_app. lia.
Qed.

Lemma get_body_empty r b :
  body_buf r = Some b -> zlen b <= isize_max -> get_body r (BufRef_new 0 0) = Some [].
Proof.
  intros Hb Hl. unfold get_body. pose proof (zlen_nonneg b).
  rewrite Hb, BufRef_new_get by lia. done.
Qed.

(** A chunk-size line that is still incomplete. *)
Lemma head_chunk_step total r st s e b w q L n body m :
  filled total s e r -> body_buf r = Some b -> slice b s e = Some w -> w <> [] ->
  good_line L n -> L = w ++ q -> q <> [] ->
  crest last ts E 0 (w ++ flat st) body -> good_stream st ->
  2 * zlen w + 4 * zlen (flat st) + zlen st + 1 <= m ->
  zlen (w ++ flat st) <= isize_max -> is_usize total ->
  wp (parse_chunked_buf parse s e) (parse_val total body m s e w) (fun _ _ => False)
    (decoding total body (m - 1)) (r, st).
Proof.
  intros Hf Hb Hsl Hne (_ & Hpar & Hlim) HL Hq Hc Hg Hm Hlen Hu.
  destruct (filled_fields _ _ _ _ _ Hf Hb) as (Hsz & Hrw & (x0 & Hs) & Hbl & Hr).
  apply slice_length in Hsl as Hwl. apply zlen_pos in Hne as Hpos.
  rewrite HL, zlen_app in Hlim. pose proof (zlen_nonneg q).
  unfold parse_chunked_buf. wp1. wp1. wp1. eapply wp_unwrap; [done|].
  wp1. eapply wp_unwrap; [done|]. rewrite (Hpar w q) by done.
  destruct (Z.ltb_spec PARTIAL_CHUNK_HEAD_LIMIT (zlen w)); [lia|].
  wp1. eapply wp_upd_state; [simpl; by rewrite Hs|]. wp1.
  exists [], body. split; [apply (get_body_empty _ b); [done|lia]|].
  split; [done|]. change (zlen []) with 0. rewrite wadd_0 by done.
  eapply (dec_chunked _ _ _ _ 0 w 0); simpl; auto; [|lia].
  eapply (ac_head _ _ e (zlen w) b w); simpl; auto; try lia.
  - replace (e - zlen w) with s by lia. done.
  - by apply (Hpar w q).
Qed.

Lemma parse_step total r st s e b w body m :
  good_line last 0 -> Forall trailer_ok ts ->
  filled total s e r -> body_buf r = Some b -> slice b s e = Some w -> w <> [] ->
  crest last ts E 0 (w ++ flat st) body -> good_stream st ->
  2 * zlen w + 4 * zlen (flat st) + zlen st + 1 <= m ->
  zlen (w ++ flat st) <= isize_max -> is_usize total ->
  wp (parse_chunked_buf parse s e) (parse_val total body m s e w) (fun _ _ => False)
    (decoding total body (m - 1)) (r, st).
Proof.
  intros Hlast Hts Hf Hb Hsl Hne Hc Hg Hm Hlen Hu.
  assert (exists cs, Forall chunk_ok cs /\ body = payload cs /\
            w ++ flat st = tail_bytes last ts E cs) as (cs & Hcs & Hbody & HW).
  { inversion Hc as [cs Hcs| |p cs Hcs Hx]; [by eauto|].
    pose proof (zlen_nonneg p). lia. }
  assert (Hcase : forall L n R, good_line L n -> tail_bytes last ts E cs = L ++ R ->
     (forall k, w = L ++ k -> k ++ flat st = R ->
        wp (parse_chunked_buf parse s e) (parse_val total body m s e w) (fun _ _ => False)
          (decoding total body (m - 1)) (r, st)) ->
     wp (parse_chunked_buf parse s e) (parse_val total body m s e w) (fun _ _ => False)
          (decoding total body (m - 1)) (r, st)).
  { intros L n R HL HW' Hk. rewrite HW' in HW.
    apply app_eq_inv in HW as [(k & -> & ->)|(q & -> & Hfl)]; [by apply (Hk k)|].
    destruct q as [|c0 q].
    - apply (Hk []); [by rewrite !app_nil_r|by rewrite Hfl].
    - by eapply head_chunk_step. }
  assert (usize_mod = 2 * (isize_max + 1)) as Hmod by done.
  destruct cs as [|c cs]; simpl in Hbody.
  - eapply (Hcase last 0 (enc_trailers ts ++ E)); [done| |].
    { unfold tail_bytes, message. simpl. by rewrite <- app_assoc. }
    intros k Hw Hk. unfold parse_chunked_buf. wp1. wp1. wp1. eapply wp_unwrap; [done|].
    wp1. eapply wp_unwrap; [done|]. rewrite Hw at 1. rewrite (proj1 Hlast).
    destruct (Z.ltb_spec usize_max 0); [uz|]. simpl. rewrite Hbody.
    by eapply last_chunk_step.
  - inversion_clear Hcs as [|?? [Hline Hdata] Hcs'].
    eapply (Hcase (c_line c) (zlen (c_data c)) (c_data c ++ CR :: LF :: tail_bytes last ts E cs));
      [done| |].
    { unfold tail_bytes, message, enc_chunks. simpl. unfold enc_chunk.
      by rewrite <- !app_assoc. }
    intros k Hw Hk. unfold parse_chunked_buf. wp1. wp1. wp1. eapply wp_unwrap; [done|].
    wp1. eapply wp_unwrap; [done|]. rewrite Hw at 1. rewrite (proj1 Hline).
    assert (Hd : zlen (c_data c) <= isize_max).
    { rewrite Hw, <- app_assoc, Hk, !zlen_app in Hlen.
      pose proof (zlen_nonneg (c_line c)).
      pose proof (zlen_nonneg (CR :: LF :: tail_bytes last ts E cs)). lia. }
    apply zlen_pos in Hdata as Hpos.
    destruct (Z.ltb_spec usize_max (zlen (c_data c))); [unfold usize_max in *; lia|].
    destruct (Z.eqb_spec (zlen (c_data c)) 0); [lia|].
    rewrite Hbody. eapply data_chunk_step; eauto. by destruct Hline as (_ & _ & ?).
Qed.

Lemma chunked_step total r st x w f body m :
  good_line last 0 -> Forall trailer_ok ts ->
  2 + zlen (enc_trailers ts) <= TRAILER_SIZE_LIMIT ->
  at_chunked total r x w f -> crest last ts E x (w ++ flat st) body ->
  2 * zlen w + 4 * zlen (flat st) + zlen st + f <= m ->
  body_buf_size r = BODY_BUFFER_SIZE -> is_usize total -> good_stream st ->
  zlen (w ++ flat st) <= isize_max ->
  wp (do_read_chunked_body parse) (step_val total body m) (fun _ _ => False)
    (decoding total body (m - 1)) (r, st).
Proof.
  intros Hlast Hts Htl Hac Hc Hm Hsz Hu Hg Hlen.
  assert (exists s e x0, body_state r = Chunked total s e x0) as (s & e & x0 & Hs)
    by (destruct Hac; eauto).
  unfold do_read_chunked_body. wp1. wp1. rewrite Hs. wp1.
  eapply wp_mono; [| | |by eapply fill_step]; [|done..].
  intros [e' x'] [r1 st1] (b & w' & Hf & Hx & Hb & Hsl & Hne & HW & Hg1 & Hs0 & Hm1).
  simpl in *. subst x'. rewrite HW in *.
  destruct (filled_fields _ _ _ _ _ Hf Hb) as (_ & _ & _ & Hbl & Hr).
  apply slice_length in Hsl as Hwl. apply zlen_pos in Hne as Hpos.
  destruct (Z.eqb_spec e' 0); [lia|].
  destruct (Z.ltb_spec 0 x).
  { rewrite Hs0 in * by done. by eapply payload_step. }
  assert (x = 0) as ->.
  { destruct Hc as [| |p]; [done|lia|]. pose proof (zlen_nonneg p). lia. }
  wp1. eapply wp_mono; [| | |by eapply parse_step]; [|done..].
  intros [[ref|] [idx|]] [r2 st2] H2; simpl in H2; try by wp1.
  destruct H2 as (-> & -> & b2 & L & k & Hb2 & Hb2l & Hsl2 & Hw2 & HL & -> & Hst2 & Hrw2
                 & Hsz2 & Hk & Hg2 & Hm2 & Hlen2).
  assert (Hwk : zlen w' = zlen L + zlen k) by (rewrite Hw2, zlen_app; lia).
  pose proof (zlen_nonneg k). apply zlen_pos in HL as HLpos.
  apply slice_range in Hsl2 as Hr2.
  assert (Hte : zlen (ztake e' b2) = e') by (rewrite zlen_ztake by lia; lia).
  wp1. wp1. wp1. eapply wp_unwrap; [done|]. wp1. apply wp_assert; [lia|].
  wp1. wp1. wp1.
  assert (Hd : zdrop (s + zlen L) (ztake e' b2) = k).
  { apply (slice_suffix b2 w' L k s) in Hsl2; [|done]. rewrite slice_Some in Hsl2 by lia.
    injection Hsl2 as Hsl2. rewrite <- Hsl2.
    unfold ztake, zdrop. rewrite skipn_firstn_comm. f_equal. lia. }
  rewrite Hd. exists [], []. split; [apply (get_body_empty _ k); [done|lia]|].
  split; [done|]. change (zlen []) with 0. rewrite wadd_0 by done.
  assert (zlen (w' ++ flat st2) = zlen L + zlen (k ++ flat st2))
    by (rewrite !zlen_app; lia).
  eapply (dec_final _ _ _ _ 0 2 k); simpl; auto; try lia.
  - destruct (decide (k = [])) as [->|Hkne].
    + by constructor.
    + eapply af_buf; simpl; eauto; [|by apply zlen_pos|apply slice_all]. lia.
  - rewrite Hk. by constructor.
  - rewrite Hk, zlen_app. lia.
Qed.

(** ** The trailer section *)

(** One step of the CRLF CRLF matcher on a buffer that starts as it should:
    [n] bytes are accepted and the state becomes [st']. *)
Definition matches_end (r : BodyReader) (st : list rd_event) (cur : list byte)
    (t : TrailersEndParseState) (st' : ParseState) : Prop :=
  forall (Q : TrailersEndParseState -> reader_io -> Prop) Qe Qc,
    Q t (set_state st' r, st) -> wp (parse_trailers_end cur) Q Qe Qc (r, st).

Lemma ztake_cons2 m (a c : byte) l : 2 <= m -> exists l', ztake m (a :: c :: l) = a :: c :: l'.
Proof.
  intros Hm. exists (ztake (m - 2) l). change (a :: c :: l) with ([a; c] ++ l).
  rewrite ztake_app_r by done. done.
Qed.

Lemma ztake_cons1 m (a : byte) l : 1 <= m -> exists l', ztake m (a :: l) = a :: l'.
Proof.
  intros Hm. exists (ztake (m - 1) l). change (a :: l) with ([a] ++ l).
  rewrite ztake_app_r by done. done.
Qed.

Section matcher.
Context (r : BodyReader) (st : list rd_event) (total t : Z).

Lemma match_crlf k l :
  body_state r = ChunkedFinal total t 0 k -> k = 0 \/ k = 2 ->
  matches_end r st (CR :: LF :: l) (if k =? 0 then NotEnd 2 else TrailersComplete 2)
    (if k =? 0 then ChunkedFinal total t 0 2 else Complete total).
Proof.
  intros Hs Hk Q Qe Qc HQ. unfold parse_trailers_end. wp1. apply wp_assert; [done|].
  wp1. wp1. rewrite Hs. change (zlen TRAILERS_END) with 4. wp1. apply wp_assert; [lia|].
  pose proof (zlen_nonneg l).
  destruct (ztake_cons2 (Z.min (zlen (CR :: LF :: l)) (4 - k)) CR LF l) as (l' & ->).
  { rewrite !zlen_cons. lia. }
  wp1. eapply wp_unwrap; [done|]. destruct Hk as [-> | ->]; exact HQ.
Qed.

Lemma match_cr k :
  body_state r = ChunkedFinal total t 0 k -> k = 0 \/ k = 2 ->
  matches_end r st [CR] (NotEnd 1) (ChunkedFinal total t 0 (k + 1)).
Proof.
  intros Hs Hk Q Qe Qc HQ. unfold parse_trailers_end. wp1. apply wp_assert; [done|].
  wp1. wp1. rewrite Hs. change (zlen TRAILERS_END) with 4. wp1. apply wp_assert; [lia|].
  rewrite ztake_ge by (change (zlen [CR]) with 1; lia).
  wp1. eapply wp_unwrap; [done|]. destruct Hk as [-> | ->]; exact HQ.
Qed.

Lemma match_lf k l :
  body_state r = ChunkedFinal total t 0 k -> k = 1 \/ k = 3 ->
  matches_end r st (LF :: l) (if k =? 1 then NotEnd 1 else TrailersComplete 1)
    (if k =? 1 then ChunkedFinal total t 0 2 else Complete total).
Proof.
  intros Hs Hk Q Qe Qc HQ. unfold parse_trailers_end. wp1. apply wp_assert; [done|].
  wp1. wp1. rewrite Hs. change (zlen TRAILERS_END) with 4. wp1. apply wp_assert; [lia|].
  pose proof (zlen_nonneg l).
  destruct (ztake_cons1 (Z.min (zlen (LF :: l)) (4 - k)) LF l) as (l' & ->).
  { rewrite !zlen_cons. lia. }
  wp1. eapply wp_unwrap; [done|]. destruct Hk as [-> | ->]; exact HQ.
Qed.

Lemma match_text c l :
  body_state r = ChunkedFinal total t 0 2 -> c <> CR -> c <> LF ->
  matches_end r st (c :: l) (NotEnd 0) (ChunkedFinal total (wadd t 2) 0 0).
Proof.
  intros Hs Hcr Hlf Q Qe Qc HQ. unfold parse_trailers_end. wp1. apply wp_assert; [done|].
  wp1. wp1. rewrite Hs. change (zlen TRAILERS_END) with 4. wp1. apply wp_assert; [done|].
  pose proof (zlen_nonneg l).
  destruct (ztake_cons1 (Z.min (zlen (c :: l)) (4 - 2)) c l) as (l' & ->).
  { rewrite !zlen_cons. lia. }
  wp1. eapply wp_unwrap; [done|]. rewrite !bool_decide_true by done. simpl.
  wp1. wp1. wp1. done.
Qed.

End matcher.

Lemma crlf_position_text t l : no_crlf t -> crlf_position (t ++ CR :: l) = Some (zlen t).
Proof.
  induction 1 as [|c t [Hcr Hlf] _ IH]; [done|]. simpl. rewrite bool_decide_false by tauto.
  rewrite IH. simpl. by rewrite zlen_cons.
Qed.

Lemma crlf_position_none t : no_crlf t -> crlf_position t = None.
Proof.
  induction 1 as [|c t [Hcr Hlf] _ IH]; [done|]. simpl. rewrite bool_decide_false by tauto.
  by rewrite IH.
Qed.

(** What one run over a buffer ends with. *)
Definition trailers_val (total : Z) (r : BodyReader) (st : list rd_event)
    (res : option BufRef) (s' : reader_io) : Prop :=
  match res with
  | None => decoded total s'
  | Some ref =>
      ref = BufRefMk 0 0 /\ s'.2 = st /\
      exists t k, s'.1 = set_state (ChunkedFinal total t 0 k) r /\ trest E k (flat st) /\
        0 <= t /\ t + k + zlen (flat st) - zlen E <= TRAILER_SIZE_LIMIT
  end.

Lemma trest_bound k W : trest E k W -> zlen E <= zlen W /\ 0 <= k <= 3.
Proof.
  destruct 1 as [t ts'|ts'|ts'|]; rewrite ?zlen_cons, ?zlen_app, ?zlen_cons, ?zlen_app;
    try pose proof (zlen_nonneg t); try pose proof (zlen_nonneg (enc_trailers ts')); lia.
Qed.

(** The loop, at a position where [cur] is what is left of the buffer [b]. *)
Lemma trailers_loop_step fuel r st b buf total start n t k :
  body_state r = ChunkedFinal total t 0 k -> body_buf r = Some b ->
  ztake n b = buf -> zlen buf = n -> zlen b <= isize_max -> 0 <= start <= n ->
  trest E k (zdrop start buf ++ flat st) -> 0 <= t ->
  t + k + zlen (zdrop start buf ++ flat st) - zlen E <= TRAILER_SIZE_LIMIT ->
  good_stream st -> loop_fuel n start k < Z.of_nat fuel ->
  wp (trailers_loop fuel buf total start n) (trailers_val total r st) (fun _ _ => False)
    (fun _ => False) (r, st).
Proof.
  assert (usize_mod = 2 * (isize_max + 1)) as Hmod by done.
  assert (TRAILER_SIZE_LIMIT < isize_max) as Hlim by done.
  revert r start t k. induction fuel as [|fuel IH];
    intros r start t k Hs Hb Hbuf Hn Hbl Hst Htr Ht Hbud Hg Hfu.
  { unfold loop_fuel in Hfu. destruct (k =? 0); lia. }
  destruct (trest_bound _ _ Htr) as [HEW Hk].
  assert (Hnb : n <= isize_max) by (rewrite <- Hn, <- Hbuf, zlen_ztake by lia; lia).
  assert (Hcl : zlen (zdrop start buf) = n - start) by (rewrite zlen_zdrop by lia; lia).
  simpl trailers_loop. destruct (Z.leb_spec n start).
  { wp1. rewrite zdrop_ge in * by lia. split; [done|]. split; [done|].
    exists t, k. split; [|done]. destruct r; simpl in *; by subst. }
  wp1. wp1. rewrite Hs. wp1. eapply wp_unwrap; [apply slice_Some; lia|].
  rewrite ztake_ge by lia.
  (* the loop goes on at [start + i] with [t'] and [k'] *)
  assert (Hgo : forall i t' k' r', r' = set_state (ChunkedFinal total t' 0 k') r ->
    0 <= i <= n - start -> trest E k' (zdrop (start + i) buf ++ flat st) -> 0 <= t' ->
    t' + k' + zlen (zdrop (start + i) buf ++ flat st) - zlen E <= TRAILER_SIZE_LIMIT ->
    loop_fuel n (start + i) k' < Z.of_nat fuel ->
    wp (trailers_loop fuel buf total (start + i) n) (trailers_val total r st)
      (fun _ _ => False) (fun _ => False) (r', st)).
  { intros i t' k' r' -> Hi Htr' Ht' Hbud' Hfu'.
    eapply wp_mono; [| | |eapply IH; [done..|lia|done|done|done|done|done]]; [|done..].
    by intros [ref|] s'. }
  (* or it is over at [start + i] *)
  assert (Hend : forall i r', r' = set_state (Complete total) r -> 0 <= i <= n - start ->
    zdrop (start + i) buf ++ flat st = E ->
    wp (let! r := self in let! r := unwrap (finish_body_buf (start + i) n r) in
        do! upd (fun _ => r); ret None)
      (trailers_val total r st) (fun _ _ => False) (fun _ => False) (r', st)).
  { intros i r' -> Hi HE. wp1. wp1. wp1. eapply wp_unwrap.
    { unfold finish_body_buf. simpl. rewrite Hb, Hbuf, Hn.
      destruct (Z.leb_spec (start + i) n); [done|lia]. }
    wp1. wp1. wp1. unfold decoded. simpl. split; [done|]. split; [done|].
    case_bool_decide as Hnil; simpl; [by rewrite Hnil in HE|done]. }
  clear IH. set (cur := zdrop start buf) in *.
  assert (Hdrop : forall i, 0 <= i -> zdrop (start + i) buf = zdrop i cur).
  { intros i Hi. unfold cur. rewrite zdrop_zdrop by lia. done. }
  assert (Hne : cur <> []) by (intros Hnil; rewrite Hnil in Hcl; change (zlen []) with 0 in Hcl; lia).
  clearbody cur. unfold loop_fuel in Hfu.
  rewrite zlen_app in Hbud, HEW.
  inversion Htr as [tx ts' Hno Hts' Hk0 HW|ts' Hts' Hk0 HW|ts' Hts' Hk0 HW|Hk0 HW];
    subst k; simpl (_ =? _) in *; cbn match in *; symmetry in HW.
  - (* in the text of a trailer *)
    apply split_chunk in HW as [(q & -> & Hfl)|[(-> & Hfl)|(k' & -> & Htl)]].
    + apply Forall_app in Hno as [Hno1 Hno2].
      assert (Htr' : trest E 0 (flat st)) by (rewrite Hfl; by constructor).
      destruct (trest_bound _ _ Htr') as [HEf _].
      wp1. rewrite crlf_position_none by done. rewrite wsub_small by lia.
      rewrite wadd_small by lia.
      destruct (Z.ltb_spec TRAILER_SIZE_LIMIT (t + (n - start))); [lia|].
      wp1. wp1. wp1. wp1. split; [done|]. split; [done|].
      exists (t + (n - start)), 0. split; [done|]. split; [done|]. lia.
    + assert (Htr' : trest E 1 (flat st)) by (rewrite Hfl; by constructor).
      destruct (trest_bound _ _ Htr') as [HEf _].
      wp1. rewrite crlf_position_text by done. rewrite zdrop_app_exact.
      rewrite zlen_app in *. change (zlen [CR]) with 1 in *. pose proof (zlen_nonneg tx).
      rewrite wadd_small by lia.
      destruct (Z.ltb_spec TRAILER_SIZE_LIMIT (t + zlen tx)); [lia|].
      wp1. wp1. wp1. wp1. eapply match_cr; [done|by left|]. cbn match.
      rewrite <- Z.add_assoc. eapply (Hgo _ (t + zlen tx) 1); [done|lia| | | |];
        rewrite ?Hdrop by lia; rewrite ?(zdrop_ge (zlen tx + 1))
          by (rewrite zlen_app; change (zlen [CR]) with 1; lia); simpl.
      * done.
      * lia.
      * lia.
      * unfold loop_fuel. simpl. lia.
    + assert (Htr' : trest E 2 (k' ++ flat st)) by (rewrite <- Htl; by constructor).
      destruct (trest_bound _ _ Htr') as [HEf _]. rewrite zlen_app in HEf.
      wp1. rewrite crlf_position_text by done. rewrite zdrop_app_exact.
      rewrite zlen_app, !zlen_cons in *. pose proof (zlen_nonneg tx). pose proof (zlen_nonneg k').
      rewrite wadd_small by lia.
      destruct (Z.ltb_spec TRAILER_SIZE_LIMIT (t + zlen tx)); [lia|].
      wp1. wp1. wp1. wp1. eapply match_crlf; [done|by left|]. simpl. cbn match.
      rewrite <- Z.add_assoc.
      assert (Hdk : zdrop (zlen tx + 2) (tx ++ CR :: LF :: k') = k').
      { rewrite zdrop_app_r by lia. replace (zlen tx + 2 - zlen tx) with 2 by lia. done. }
      eapply (Hgo _ (t + zlen tx) 2); [done|lia| | | |]; rewrite ?Hdrop, ?Hdk by lia.
      * done.
      * lia.
      * rewrite zlen_app. lia.
      * unfold loop_fuel. simpl. lia.
  - (* LF of a trailer line *)
    destruct cur as [|c k']; [done|]. simpl in HW. injection HW as -> Htl.
    rewrite zlen_cons in *. wp1. wp1. cbn match. wp1.
    eapply match_lf; [done|by left|]. simpl. cbn match.
    eapply (Hgo 1 t 2); [done|pose proof (zlen_nonneg k'); lia| | | |];
      rewrite ?Hdrop by lia; change (zdrop 1 (LF :: k')) with k'.
    + rewrite Htl. by constructor.
    + done.
    + rewrite zlen_app. lia.
    + unfold loop_fuel. simpl. lia.
  - (* start of a line: a trailer, or the end *)
    destruct ts' as [|tx ts']; simpl in HW.
    + wp1. wp1. cbn match. destruct cur as [|c1 [|c2 k']]; [done| |]; simpl in HW.
      * injection HW as -> Hfl. wp1. eapply match_cr; [done|by right|]. simpl. cbn match.
        eapply (Hgo 1 t 3); [done|rewrite Hcl in *; change (zlen [CR]) with 1 in *; lia| | | |];
          rewrite ?Hdrop by lia; change (zdrop 1 [CR]) with (@nil byte); simpl.
        -- rewrite Hfl. constructor.
        -- done.
        -- change (zlen [CR]) with 1 in Hbud. lia.
        -- unfold loop_fuel. simpl. change (zlen [CR]) with 1 in *. lia.
      * injection HW as -> -> HE. wp1. eapply match_crlf; [done|by right|]. simpl. cbn match.
        rewrite !zlen_cons in Hcl. pose proof (zlen_nonneg k').
        eapply Hend; [done|lia|]. rewrite Hdrop by lia. done.
    + inversion_clear Hts' as [|?? [Hnt Hno] Hts2]. destruct tx as [|c0 tx]; [done|].
      inversion_clear Hno as [|?? [Hcr Hlf] Hno2]. simpl in HW.
      destruct cur as [|c k']; [done|]. injection HW as -> Htl.
      wp1. wp1. cbn match. wp1. eapply match_text; [done|done|done|]. cbn match.
      rewrite zlen_cons in *. pose proof (zlen_nonneg k'). pose proof (zlen_nonneg (flat st)).
      rewrite wadd_small by lia.
      eapply (Hgo 0 (t + 2) 0); [done|lia| | | |]; rewrite ?Hdrop by lia; rewrite ?zdrop_0.
      * simpl. rewrite Htl. rewrite <- app_assoc. simpl.
        apply (trest_text E (c0 :: tx) ts'); [by constructor|done].
      * lia.
      * rewrite zlen_app, zlen_cons. lia.
      * unfold loop_fuel. simpl. lia.
  - (* the very last LF *)
    destruct cur as [|c k']; [done|]. simpl in HW. injection HW as -> HE.
    wp1. wp1. cbn match. wp1. eapply match_lf; [done|by right|]. simpl. cbn match.
    rewrite zlen_cons in Hcl. pose proof (zlen_nonneg k').
    eapply Hend; [done|lia|]. rewrite Hdrop by lia. done.
Qed.

Lemma trest_nonempty k W : trest E k W -> W <> [].
Proof. destruct 1 as [[|??] ?|?|[|[|??] ?]|]; done. Qed.

Lemma final_step total t r st k w m :
  at_final total t r k w -> trest E k (w ++ flat st) -> 0 <= t ->
  t + k + zlen (w ++ flat st) - zlen E <= TRAILER_SIZE_LIMIT ->
  2 * zlen w + 4 * zlen (flat st) + zlen st <= m ->
  body_buf_size r = BODY_BUFFER_SIZE -> is_usize total -> good_stream st ->
  zlen (w ++ flat st) <= isize_max ->
  wp do_read_chunked_body_final (step_val total [] m) (fun _ _ => False)
    (decoding total [] (m - 1)) (r, st).
Proof.
  intros Haf Htr Ht Hbud Hm Hsz Hu Hg Hlen.
  assert (0 < BODY_BUFFER_SIZE < isize_max) as Hbs by done.
  (* one pass of the loop over the buffered bytes [w'] *)
  assert (Hloop : forall r' st' b w' e, body_state r' = ChunkedFinal total t 0 k ->
    rewind_buf_len r' = 0 -> body_buf_size r' = BODY_BUFFER_SIZE ->
    body_buf r' = Some b -> slice b 0 e = Some w' -> 0 < e -> zlen b <= isize_max ->
    w ++ flat st = w' ++ flat st' -> good_stream st' ->
    2 * zlen w' + 4 * zlen (flat st') + zlen st' <= m ->
    wp (if e =? 0 then do! upd (set_state (Done total)); fail ConnectionClosed
        else
          let! r := self in
          let! b := unwrap (body_buf r) in
          let! buf := unwrap (slice b 0 e) in
          trailers_loop (2 * length buf + 2) buf total 0 e)
      (step_val total [] m) (fun _ _ => False) (decoding total [] (m - 1)) (r', st')).
  { intros r' st' b w' e Hs Hrw Hsz' Hb Hsl He Hbl HW Hg' Hm'.
    destruct (Z.eqb_spec e 0); [lia|]. apply slice_length in Hsl as Hwl.
    rewrite Z.sub_0_r in Hwl. apply slice_range in Hsl as Hr.
    wp1. wp1. wp1. eapply wp_unwrap; [done|]. wp1. eapply wp_unwrap; [done|].
    rewrite HW in *. pose proof (zlen_nonneg w').
    eapply wp_mono; [| | |eapply (trailers_loop_step _ r' st' b w' total 0 e t k)];
      auto; try lia; try done.
    - intros [ref|] [r2 st2] H2; simpl in *; [|done].
      destruct H2 as (-> & -> & t' & k' & -> & Htr' & Ht' & Hbud').
      exists [], []. split.
      { unfold get_body, BufRef_get. simpl. rewrite Hb. by rewrite slice_Some by lia. }
      split; [done|]. change (zlen []) with 0. rewrite wadd_0 by done.
      eapply (dec_final _ _ _ _ t' k' []); simpl; auto.
      + by constructor.
      + change (zlen []) with 0. lia.
      + rewrite zlen_app in Hlen. lia.
    - rewrite slice_Some in Hsl by lia. injection Hsl as <-. rewrite Z.sub_0_r. done.
    - unfold loop_fuel. unfold zlen in Hwl. destruct (k =? 0); lia. }
  unfold do_read_chunked_body_final. wp1. wp1.
  destruct Haf as [Hs Hrw|w b e Hs Hrw Hb Hbl He Hsl]; rewrite Hs.
  - wp1. simpl. wp1. wp1. apply wp_read_buf_good with (b := []);
      [by rewrite Hsz|done|by apply trest_nonempty in Htr|done| |].
    + intros now st' Hnow Hnl Hfl Hg' Hst. apply zlen_pos in Hnow as Hpos.
      rewrite Hsz in Hnl. rewrite Hfl, zlen_app in Hm. change (zlen []) with 0 in Hm.
      eapply (Hloop _ _ now now); simpl; auto; try lia. apply slice_all.
    + intros st' Hfl Hg' Hst. eapply (dec_final _ _ _ _ t k []); simpl; rewrite ?Hfl; auto.
      * by constructor.
      * lia.
  - wp1. destruct (Z.eqb_spec e 0); [lia|]. simpl. wp1. wp1. wp1.
    by eapply (Hloop _ _ b w).
Qed.

(** ** Running to the end *)

Definition message_spec : Prop :=
  good_line last 0 /\ Forall trailer_ok ts /\ 2 + zlen (enc_trailers ts) <= TRAILER_SIZE_LIMIT.

Lemma read_body_step total body m s :
  message_spec -> decoding total body m s ->
  wp (read_body parse) (step_val total body m) (fun _ _ => False)
    (decoding total body (m - 1)) s.
Proof.
  intros (Hlast & Hts & Htl) Hd. destruct s as [r st].
  destruct Hd as [x w f Hac Hc Hm Hsz Hu Hg Hlen|t k w -> Haf Htr Ht Hbud Hm Hsz Hu Hg Hlen];
    simpl in *; unfold wp; rewrite read_body_dispatch.
  - assert (exists s e x0, body_state r = Chunked total s e x0) as (s & e & x0 & ->)
      by (destruct Hac; eauto).
    by eapply chunked_step.
  - assert (exists e, body_state r = ChunkedFinal total t e k) as (e & ->)
      by (destruct Haf; eauto).
    by eapply final_step.
Qed.

End decoding.

(** The driver: call [read_body] until it returns [None], keeping the bytes each
    reference points to and calling again after a cancelled read. *)
Fixpoint read_all (fuel : nat) (s : reader_io) : option (list byte * reader_io) :=
  match fuel with
  | O => None
  | S fuel =>
      match read_body parse s with
      | Val None s' => Some ([], s')
      | Val (Some ref) s' =>
          match get_body s'.1 ref, read_all fuel s' with
          | Some d, Some (ds, s'') => Some (d ++ ds, s'')
          | _, _ => None
          end
      | Cancelled s' => read_all fuel s'
      | Fail _ _ | Panic => None
      end
  end.

Lemma decoding_bound last ts E total body m s : decoding last ts E total body m s -> 0 <= m.
Proof.
  destruct 1 as [x w f Hac|t k w];
    pose proof (zlen_nonneg w); pose proof (zlen_nonneg (flat s.2)); pose proof (zlen_nonneg s.2);
    [destruct Hac|]; lia.
Qed.

Lemma read_all_decodes last ts E fuel total body m s :
  message_spec last ts -> decoding last ts E total body m s -> m < Z.of_nat fuel ->
  exists s', read_all fuel s = Some (body, s') /\ decoded E (wadd total (zlen body)) s'.
Proof.
  intros Hspec. revert total body m s. induction fuel as [|fuel IH]; intros total body m s Hd Hm.
  { apply decoding_bound in Hd. lia. }
  assert (is_usize total) as Hu by by destruct Hd.
  pose proof (read_body_step _ _ _ _ _ _ _ Hspec Hd) as Hst. unfold wp in Hst. simpl.
  destruct (read_body parse s) as [[ref|] s'|e s'|s'|]; simpl in Hst; try done.
  - destruct Hst as (d & body' & Hget & -> & Hd'). rewrite Hget.
    destruct (IH _ _ _ _ Hd') as (s2 & -> & Hdone); [lia|].
    exists s2. split; [done|]. by rewrite zlen_app, <- wadd_wadd.
  - destruct Hst as [-> Hdone]. exists s'. split; [done|].
    change (zlen []) with 0. by rewrite wadd_0.
  - destruct (IH _ _ _ _ Hst) as (s2 & -> & Hdone); [lia|]. eauto.
Qed.

(** ** Content-Length bodies *)

(** [w] is rewound into the buffer and not read yet. *)
Definition rewound (r : BodyReader) (w : list byte) : Prop :=
  (w = [] /\ rewind_buf_len r = 0) \/
  (w <> [] /\ body_buf r = Some w /\ rewind_buf_len r = zlen w).

Lemma rewound_read r st limit w (Q : Z -> reader_io -> Prop) Qe Qc :
  rewound r w -> 0 < limit -> good_stream st -> w ++ flat st <> [] ->
  (forall now st', now <> [] -> w ++ flat st = now ++ flat st' -> good_stream st' ->
     zlen (flat st') + zlen st' < zlen w + zlen (flat st) + zlen st ->
     zlen now <= Z.max limit (zlen w) ->
     Q (zlen now) (set_buf (Some now) (set_rewind 0 r), st')) ->
  (forall st', w = [] -> flat st' = flat st -> good_stream st' -> zlen st' < zlen st ->
     Qc (set_buf (Some []) (set_rewind 0 r), st')) ->
  wp (if rewind_buf_len r =? 0 then do! upd prepare_buf_for_io; read_buf limit
      else ret (rewind_buf_len r)) Q Qe Qc (set_rewind 0 r, st).
Proof.
  intros [[-> Hrw]|(Hne & Hb & Hrw)] Hl Hg Hf HQ HC; rewrite Hrw.
  - simpl. wp1. wp1. apply wp_read_buf_good with (b := []); auto.
    intros now st' Hnow Hnl Hfl Hg' Hst. apply zlen_pos in Hnow as Hpos.
    apply HQ; auto; [|lia]. rewrite Hfl, zlen_app. change (zlen []) with 0. lia.
  - apply zlen_pos in Hne as Hpos. destruct (Z.eqb_spec (zlen w) 0); [lia|]. wp1.
    replace (set_rewind 0 r) with (set_buf (Some w) (set_rewind 0 r))
      by (destruct r; simpl in *; by subst).
    apply HQ; auto; lia.
Qed.

(** [B] is left of a body of [cl] bytes, [E] follows it. *)
Record sized (cl : Z) (B E : list byte) (m : Z) (s : reader_io) : Prop := {
  sized_state : exists read, body_state s.1 = Partial read (zlen B) /\ 0 <= read /\
                  read + zlen B = cl /\ cl < usize_mod;
  sized_bytes : exists w, rewound s.1 w /\ w ++ flat s.2 = B ++ E /\
                  zlen w + zlen (flat s.2) + zlen s.2 <= m;
  sized_nonempty : B <> [];
  sized_size : body_buf_size s.1 = BODY_BUFFER_SIZE;
  sized_stream : good_stream s.2;
  sized_len : zlen (B ++ E) <= isize_max
}.

Lemma sized_step cl B E m s :
  sized cl B E m s ->
  wp (read_body parse)
    (fun res s' => exists ref d B', res = Some ref /\ get_body s'.1 ref = Some d /\
       B = d ++ B' /\ ((B' = [] /\ decoded E cl s') \/ sized cl B' E (m - 1) s'))
    (fun _ _ => False) (sized cl B E (m - 1)) s.
Proof.
  intros [(read & Hs & Hread & Hcl & Hmax) (w & Hw & HW & Hm) Hne Hsz Hg Hlen].
  destruct s as [r st]. simpl in *. unfold wp. rewrite read_body_dispatch, Hs.
  rewrite wp_eq_run. unfold do_read_body. rewrite zlen_app in Hlen.
  apply zlen_pos in Hne as Hpos. pose proof (zlen_nonneg E).
  wp1. wp1. wp1. wp1. wp1. rewrite Hs. eapply rewound_read; eauto.
  - rewrite Hsz. unfold BODY_BUFFER_SIZE. destruct (negb _); lia.
  - rewrite HW. by destruct B.
  - intros now st' Hnow HW' Hg' Hm' _. rewrite HW in HW'.
    apply zlen_pos in Hnow as Hnpos. pose proof (zlen_nonneg (flat st')).
    assert (Hnl : zlen now + zlen (flat st') <= isize_max)
      by (rewrite <- zlen_app, <- HW', zlen_app; lia).
    destruct (Z.eqb_spec (zlen now) 0); [lia|].
    apply app_eq_inv in HW' as [(k & HB & Hfl)|(k & Hnow' & HE)].
    + (* the buffer holds part of the body: [B = now ++ k] *)
      assert (HBl : zlen B = zlen now + zlen k) by (rewrite HB, zlen_app; lia).
      pose proof (zlen_nonneg k). destruct (Z.leb_spec (zlen B) (zlen now)).
      * assert (k = []) as -> by (apply zlen_zero; lia).
        wp1. wp1. wp1. wp1. wp1. eapply wp_unwrap.
        { unfold finish_body_buf. simpl. rewrite ztake_ge by lia.
          destruct (Z.leb_spec (zlen B) (zlen now)); [done|lia]. }
        wp1. wp1. wp1. exists (BufRef_new 0 (zlen B)), B, []. split; [done|]. split.
        { unfold get_body. simpl. rewrite app_nil_r in HB. rewrite HB.
          rewrite ztake_ge by lia. rewrite BufRef_new_get by lia.
          rewrite zdrop_0, ztake_ge by lia. done. }
        split; [by rewrite app_nil_r|]. left. split; [done|]. unfold decoded. simpl.
        rewrite wadd_small, Hcl by lia. split; [done|]. split; [done|].
        rewrite zdrop_ge by lia. rewrite bool_decide_true by done. simpl. by rewrite Hfl.
      * wp1. wp1. wp1. exists (BufRef_new 0 (zlen now)), now, k. split; [done|]. split.
        { unfold get_body. simpl. rewrite BufRef_new_get by lia.
          rewrite zdrop_0, ztake_ge by lia. done. }
        split; [done|]. right. split; simpl; auto.
        -- exists (read + zlen now). rewrite wadd_small, wsub_small by lia.
           split; [f_equal; lia|]. lia.
        -- exists []. split; [by left|]. split; [by rewrite Hfl|].
           change (zlen []) with 0. lia.
        -- intros ->. change (zlen []) with 0 in *. lia.
        -- rewrite zlen_app. lia.
    + (* the buffer reaches past it: [now = B ++ k] *)
      assert (HBl : zlen now = zlen B + zlen k) by (rewrite Hnow', zlen_app; lia).
      pose proof (zlen_nonneg k). destruct (Z.leb_spec (zlen B) (zlen now)); [|lia].
      wp1. wp1. wp1. wp1. wp1. eapply wp_unwrap.
      { unfold finish_body_buf. simpl. rewrite (ztake_ge (zlen now)) by lia.
        destruct (Z.leb_spec (zlen B) (zlen now)); [done|lia]. }
      wp1. wp1. wp1. exists (BufRef_new 0 (zlen B)), B, []. split; [done|]. split.
      { unfold get_body. simpl. rewrite Hnow', ztake_app_exact. rewrite BufRef_new_get by lia.
        rewrite zdrop_0, ztake_ge by lia. done. }
      split; [by rewrite app_nil_r|]. left. split; [done|]. unfold decoded. simpl.
      rewrite wadd_small, Hcl by lia. split; [done|]. split; [done|].
      rewrite Hnow', zdrop_app_exact. case_bool_decide as Hk; simpl; [by rewrite Hk in HE|done].
  - intros st' -> Hfl Hg' Hst. split; simpl; auto.
    + eauto 8.
    + exists []. split; [by left|]. rewrite Hfl. split; [done|].
      change (zlen []) with 0 in *. lia.
    + rewrite zlen_app. lia.
Qed.

Lemma read_all_decoded E total fuel s :
  decoded E total s -> (0 < fuel)%nat -> read_all fuel s = Some ([], s).
Proof.
  intros [Hs _] Hf. destruct fuel; [lia|]. simpl. destruct s as [r st].
  rewrite read_body_dispatch. simpl in Hs. by rewrite Hs.
Qed.

Lemma read_all_sized fuel cl B E m s :
  sized cl B E m s -> 0 <= m -> m + 1 < Z.of_nat fuel ->
  exists s', read_all fuel s = Some (B, s') /\ decoded E cl s'.
Proof.
  revert B m s. induction fuel as [|fuel IH]; intros B m s Hd H0 Hm; [lia|].
  pose proof (sized_step _ _ _ _ _ Hd) as Hst. unfold wp in Hst. simpl.
  assert (forall B s', sized cl B E (m - 1) s' -> 0 <= m - 1).
  { intros B0 s' [_ (w & _ & _ & Hb) _ _ _ _].
    pose proof (zlen_nonneg w). pose proof (zlen_nonneg (flat s'.2)).
    pose proof (zlen_nonneg s'.2). lia. }
  destruct (read_body parse s) as [res s'|e s'|s'|]; try done.
  - destruct Hst as (ref & d & B' & -> & Hget & -> & Hd'). rewrite Hget.
    destruct Hd' as [[-> Hdec]|Hd'].
    + rewrite (read_all_decoded E cl) by (done || lia). eauto.
    + destruct (IH _ _ _ Hd') as (s2 & -> & Hdec); [eauto|lia|]. eauto.
  - destruct (IH _ _ _ Hst) as (s2 & -> & Hdec); [eauto|lia|]. eauto.
Qed.

End wire.
