(* ===== verification/BodySpec.v ===== *)
(** * HTTP/1 body reader: its contract

    What callers of [BodyReader] rely on, from any state the API can reach: no
    panic and no reference outside the buffer, cancelled reads that can be
    resumed, and the decoding of whole messages whatever way they arrive.

    [httparse]'s chunk-size parser is a parameter.  What is assumed of it is
    [ChunkSizeBounds] and [HexLines]; [ref_parse] is a parser that has both. *)

From stdpp Require Import base list numbers strings.
From S2P Require Import Prelude Errors BodyReader BodyReaderSafety BodyDecode.
Local Open Scope Z_scope.

(** ** Chunk-size lines *)

(** The parser takes upper-case hexadecimal lines, whole or in pieces. *)
Class HexLines (parse : list byte -> chunk_status) : Prop := {
  hex_lines : forall n, 0 <= n < usize_mod -> good_line parse (hex_line n) n
}.

Definition hex_val (b : byte) : option Z :=
  let c := Z.of_N (Byte.to_N b) in
  if (48 <=? c) && (c <=? 57) then Some (c - 48)
  else if (65 <=? c) && (c <=? 70) then Some (c - 55)
  else if (97 <=? c) && (c <=? 102) then Some (c - 87)
  else None.

(** A chunk-size parser: hexadecimal digits and CRLF. *)
Fixpoint ref_parse_go (acc pos : Z) (seen : bool) (buf : list byte) : chunk_status :=
  match buf with
  | [] => CsPartial
  | b :: rest =>
      if bool_decide (b = CR) then
        match rest with
        | [] => if seen then CsPartial else CsInvalid
        | c :: _ => if seen && bool_decide (c = LF) then CsComplete (pos + 2) acc else CsInvalid
        end
      else match hex_val b with
           | Some d => if acc * 16 + d <? usize_mod
                       then ref_parse_go (acc * 16 + d) (pos + 1) true rest else CsInvalid
           | None => CsInvalid
           end
  end.
Definition ref_parse (buf : list byte) : chunk_status := ref_parse_go 0 0 false buf.

Lemma hex_val_range b d : hex_val b = Some d -> 0 <= d < 16.
Proof. unfold hex_val. repeat case_match; naive_solver lia. Qed.

Lemma hex_val_digit d : 0 <= d < 16 -> hex_val (hex_digit d) = Some d /\ hex_digit d <> CR.
Proof.
  intros H. assert (exists k, (k < 16)%nat /\ d = Z.of_nat k) as (k & Hk & ->)
    by (exists (Z.to_nat d); lia).
  do 16 (destruct k as [|k]; [done|]). lia.
Qed.

Lemma ref_parse_go_bounds buf acc pos seen c n :
  0 <= acc < usize_mod -> ref_parse_go acc pos seen buf = CsComplete c n ->
  pos <= c <= pos + zlen buf /\ 0 <= n < usize_mod.
Proof.
  revert acc pos seen. induction buf as [|b rest IH]; intros acc pos seen Hacc; simpl; [done|].
  pose proof (zlen_nonneg rest). case_bool_decide.
  - destruct rest as [|c' rest]; [by destruct seen|]. case_match; [|done].
    intros [= <- <-]. rewrite !zlen_cons in *. pose proof (zlen_nonneg rest). lia.
  - destruct (hex_val b) as [d|] eqn:Hd; [|done]. apply hex_val_range in Hd.
    destruct (Z.ltb_spec (acc * 16 + d) usize_mod); [|done].
    intros Hgo%IH; [|lia]. rewrite zlen_cons. lia.
Qed.

#[export] Instance ref_parse_bounds : ChunkSizeBounds ref_parse.
Proof.
  constructor. intros buf c n H. apply (ref_parse_go_bounds buf 0 0) in H; [lia|done].
Qed.

(** Digits are consumed one by one. *)
Definition digits_val (acc : Z) (ds : list byte) : Z :=
  fold_left (fun a b => a * 16 + default 0 (hex_val b)) ds acc.
Definition digits_ok (ds : list byte) : Prop := Forall (fun b => is_Some (hex_val b) /\ b <> CR) ds.

Lemma digits_val_mono ds acc : 0 <= acc -> acc <= digits_val acc ds.
Proof.
  revert acc. induction ds as [|b ds IH]; intros acc H; simpl; [done|].
  assert (0 <= default 0 (hex_val b))
    by (destruct (hex_val b) eqn:E; simpl; [apply hex_val_range in E|]; lia).
  etransitivity; [|apply IH]; lia.
Qed.

Lemma ref_parse_go_digits ds rest acc pos seen :
  0 <= acc -> digits_ok ds -> digits_val acc ds < usize_mod ->
  ref_parse_go acc pos seen (ds ++ rest) =
  ref_parse_go (digits_val acc ds) (pos + zlen ds) (seen || bool_decide (ds <> [])) rest.
Proof.
  revert acc pos seen. induction ds as [|b ds IH]; intros acc pos seen Hacc Hok Hlt.
  { simpl. by rewrite Z.add_0_r, orb_false_r. }
  inversion_clear Hok as [|?? [[d Hd] Hcr] Hok']. simpl in *. rewrite Hd in *. simpl in *.
  apply hex_val_range in Hd as Hr. rewrite bool_decide_false by done.
  pose proof (digits_val_mono ds (acc * 16 + d)).
  destruct (Z.ltb_spec (acc * 16 + d) usize_mod); [|lia].
  rewrite IH by (done || lia). rewrite zlen_cons, orb_true_r. simpl. f_equal. lia.
Qed.

Lemma digits_val_app acc d1 d2 : digits_val acc (d1 ++ d2) = digits_val (digits_val acc d1) d2.
Proof. apply fold_left_app. Qed.

Lemma hex_go_spec fuel n :
  0 <= n < 16 ^ Z.of_nat fuel -> (0 < fuel)%nat ->
  digits_ok (hex_go fuel n) /\ digits_val 0 (hex_go fuel n) = n /\
  0 < zlen (hex_go fuel n) <= Z.of_nat fuel.
Proof.
  revert n. induction fuel as [|fuel IH]; intros n Hn Hf; [lia|]. simpl.
  destruct (Z.ltb_spec n 16).
  - destruct (hex_val_digit n) as [H1 H2]; [lia|]. unfold digits_val. simpl. rewrite H1.
    split; [repeat constructor; eauto|]. rewrite zlen_cons, (zlen_nil (A:=byte)). simpl. lia.
  - destruct fuel as [|fuel]; [simpl in Hn; lia|].
    destruct (IH (n / 16)) as (Hok & Hv & Hl); [|lia|].
    { rewrite Nat2Z.inj_succ, Z.pow_succ_r in Hn by lia.
      split; [apply Z.div_pos; lia|apply Z.div_lt_upper_bound; lia]. }
    pose proof (Z.mod_pos_bound n 16). destruct (hex_val_digit (n mod 16)) as [H1 H2]; [lia|].
    rewrite digits_val_app, Hv. unfold digits_val. cbn [fold_left]. rewrite H1.
    split; [apply Forall_app; split; [done|repeat constructor; eauto]|].
    rewrite zlen_app, zlen_cons, (zlen_nil (A:=byte)). simpl default.
    pose proof (Z.div_mod n 16). lia.
Qed.

Lemma hex_spec n : 0 <= n < usize_mod ->
  digits_ok (hex n) /\ digits_val 0 (hex n) = n /\ 0 < zlen (hex n) <= 16.
Proof. intros H. apply (hex_go_spec 16); [done|lia]. Qed.

#[export] Instance ref_parse_hex : HexLines ref_parse.
Proof.
  constructor. intros n Hn. destruct (hex_spec n Hn) as (Hok & Hv & Hl).
  assert (Hne : hex n <> []) by (intros Hnil; rewrite Hnil in Hl; by destruct Hl).
  unfold hex_line, ref_parse. split; [|split].
  - intros rest. rewrite <- app_assoc, ref_parse_go_digits by (done || lia).
    simpl. rewrite bool_decide_true by done. simpl. rewrite Hv, zlen_app. done.
  - intros p q Heq Hq. apply app_eq_inv in Heq as [(k & Hk & ->)|(k & -> & Hk)].
    + rewrite Hk, digits_val_app in Hv. rewrite Hk in Hok. apply Forall_app in Hok as [Hok1 _].
      pose proof (digits_val_mono p 0 ltac:(lia)).
      pose proof (digits_val_mono k (digits_val 0 p) ltac:(lia)).
      rewrite <- (app_nil_r p), ref_parse_go_digits by (done || lia). done.
    + rewrite ref_parse_go_digits by (done || lia).
      unfold CRLF in Hk. destruct k as [|b1 [|b2 k]]; simplify_list_eq; [done| |].
      * by rewrite (bool_decide_true (hex n <> [])) by done.
      * by destruct k.
  - rewrite zlen_app. change (zlen CRLF) with 2. unfold PARTIAL_CHUNK_HEAD_LIMIT. lia.
Qed.


(** ** Safety *)

Section contract.
Context (parse : list byte -> chunk_status).

(** C25: from every reader the API can produce - any initialiser, any sequence of
    successful, failed and cancelled reads on any stream, any overread
    bookkeeping - [read_body] does not panic, whatever the stream gives next,
    and a reference it returns lies inside the buffer it refers to. *)
Theorem read_body_never_panics r st :
  ChunkSizeBounds parse -> reachable parse r ->
  match read_body parse (r, st) with
  | Val (Some ref) (r', _) => is_Some (get_body r' ref)
  | Panic => False
  | _ => True
  end.
Proof.
  intros Hcs Hr. pose proof (read_body_safe_wp parse r st (reachable_ok parse r Hr)) as H.
  unfold wp in H. destruct (read_body parse (r, st)) as [[ref|] [r' st']|e s'|s'|]; try done.
  by destruct H.
Qed.

(** C26: dropping the future of [read_body] at its [.await] loses nothing: with
    the reader as the dropped call left it, the call made next behaves - same
    result, same final state - as the interrupted one would have. *)
Theorem read_body_cancel_safe r st r' st' :
  reachable parse r -> ChunkSizeBounds parse ->
  read_body parse (r, st) = Cancelled (r', st') ->
  st = RPend :: st' /\ read_body parse (r', st') = read_body parse (r, st').
Proof.
  intros Hr Hcs Hc. apply (read_body_resumes parse r st r' st'); [|done].
  by apply (reachable_ok parse).
Qed.

(** ** Whole messages *)

Lemma payload_le cs : zlen (payload cs) <= zlen (enc_chunks cs).
Proof.
  induction cs as [|c cs IH]; [done|]. unfold payload, enc_chunks, enc_chunk in *. simpl.
  rewrite !zlen_app in *. pose proof (zlen_nonneg (c_line c)). change (zlen CRLF) with 2. lia.
Qed.

Lemma start_decoding (own : bool) up rewind st cs last ts E :
  Forall (chunk_ok parse) cs -> good_stream st ->
  rewind ++ flat st = message cs last ts ++ E -> zlen (message cs last ts ++ E) <= isize_max ->
  decoding parse last ts E 0 (payload cs) (2 * zlen rewind + 4 * zlen (flat st) + zlen st + 1)
    ((if own then init_chunked_owned else init_chunked) rewind (new up), st).
Proof.
  intros Hcs Hg Heq Hlen.
  apply dec_chunked with (x := 0) (w := rewind) (f := if bool_decide (rewind = []) then 0 else 1).
  - case_bool_decide as Hr; [subst|].
    + apply ac_wait; by destruct own.
    + assert (zlen rewind <= isize_max)
        by (rewrite <- Heq, zlen_app in Hlen; pose proof (zlen_nonneg (flat st)); lia).
      destruct own; [by apply ac_rewind|]. unfold init_chunked, prepare_buf.
      rewrite bool_decide_false by done. by apply ac_rewind.
  - simpl. rewrite Heq. by constructor.
  - simpl. case_bool_decide; lia.
  - destruct own; [done|]. etransitivity; [apply prepare_buf_fields|done].
  - done.
  - done.
  - simpl. by rewrite Heq.
Qed.

Lemma read_all_message (own up : bool) rewind st cs last ts E fuel :
  message_ok parse cs last ts -> good_stream st ->
  rewind ++ flat st = message cs last ts ++ E ->
  zlen (message cs last ts ++ E) <= isize_max ->
  2 * zlen rewind + 4 * zlen (flat st) + zlen st + 1 < Z.of_nat fuel ->
  exists s', read_all parse fuel
      ((if own then init_chunked_owned else init_chunked) rewind (new up), st)
      = Some (payload cs, s') /\ decoded E (zlen (payload cs)) s'.
Proof.
  intros (Hcs & Hlast & Hts & Htl) Hg Heq Hlen Hfuel.
  destruct (read_all_decodes parse last ts E fuel 0 (payload cs) _ _
              ltac:(done) (start_decoding own up rewind st cs last ts E Hcs Hg Heq Hlen) Hfuel)
    as (s' & Hall & Hd). exists s'. split; [done|].
  rewrite wadd_small in Hd; [done|lia|apply zlen_nonneg|].
  pose proof (payload_le cs). unfold message in Hlen. rewrite !zlen_app in Hlen.
  pose proof (zlen_nonneg last). pose proof (zlen_nonneg (enc_trailers ts)).
  pose proof (zlen_nonneg E). unfold isize_max in Hlen. uz.
Qed.

(** C21: a well-formed chunked message - any chunks, any trailers, any number of
    bytes of it already rewound, the rest arriving in any fragmentation with
    any number of cancelled reads - is decoded to exactly its payload: the
    reader ends in [Complete] with the payload's length, and every byte that
    follows the message is left for the next one. *)
Theorem chunked_message_decodes (own up : bool) rewind st cs last ts E fuel :
  message_ok parse cs last ts -> good_stream st ->
  rewind ++ flat st = message cs last ts ++ E ->
  zlen (message cs last ts ++ E) <= isize_max ->
  2 * zlen rewind + 4 * zlen (flat st) + zlen st + 1 < Z.of_nat fuel ->
  exists s', read_all parse fuel
      ((if own then init_chunked_owned else init_chunked) rewind (new up), st)
      = Some (payload cs, s') /\
    body_state s'.1 = Complete (zlen (payload cs)) /\
    default [] (body_buf_overread s'.1) ++ flat s'.2 = E.
Proof.
  intros Hok Hg Heq Hlen Hfuel.
  destruct (read_all_message own up rewind st cs last ts E fuel) as (s' & Hall & Hd & _ & HE);
    eauto.
Qed.

Definition start_sized (own up : bool) (cl : Z) (rewind : list byte) : BodyReader :=
  (if own then init_content_length_owned else init_content_length) cl rewind (new up).

Lemma start_sized_empty own up rewind st :
  good_stream st -> decoded (rewind ++ flat st) 0 (start_sized own up 0 rewind, st).
Proof.
  intros Hg. unfold decoded. destruct own; simpl;
    unfold start_sized, init_content_length, init_content_length_owned; simpl;
    by case_bool_decide; subst.
Qed.

Lemma start_sized_sized own up rewind st B E :
  good_stream st -> rewind ++ flat st = B ++ E -> zlen (B ++ E) <= isize_max -> B <> [] ->
  sized (zlen B) B E (zlen rewind + zlen (flat st) + zlen st)
    (start_sized own up (zlen B) rewind, st).
Proof.
  intros Hg Heq Hlen HB. apply zlen_pos in HB as Hpos.
  assert (zlen B < usize_mod)
    by (rewrite zlen_app in Hlen; pose proof (zlen_nonneg E); unfold isize_max in Hlen; uz).
  assert (Hf : let r := start_sized own up (zlen B) rewind in
            rewound r rewind /\ body_state r = Partial 0 (zlen B) /\
            body_buf_size r = BODY_BUFFER_SIZE).
  { unfold rewound, start_sized. destruct own; simpl;
      unfold init_content_length, init_content_length_owned, prepare_buf;
      destruct (Z.eqb_spec (zlen B) 0); try lia.
    - destruct (decide (rewind = [])) as [->|]; simpl; auto 6.
    - case_bool_decide; subst; simpl; auto 6. }
  destruct Hf as (Hf1 & Hf2 & Hf3). split; auto.
  - exists 0. split; [done|]. lia.
  - exists rewind. split; [done|]. split; [done|]. simpl. lia.
Qed.

(** a body with [Content-Length: cl] is returned whole, and nothing but it:
    the [cl] bytes of [B] in any fragmentation, the bytes [E] after them kept. *)
Theorem content_length_decodes (own up : bool) rewind st B E fuel :
  good_stream st -> rewind ++ flat st = B ++ E -> zlen (B ++ E) <= isize_max ->
  zlen rewind + zlen (flat st) + zlen st + 1 < Z.of_nat fuel ->
  exists s', read_all parse fuel
      ((if own then init_content_length_owned else init_content_length)
         (zlen B) rewind (new up), st) = Some (B, s') /\
    body_state s'.1 = Complete (zlen B) /\
    default [] (body_buf_overread s'.1) ++ flat s'.2 = E.
Proof.
  intros Hg Heq Hlen Hfuel. pose proof (zlen_nonneg rewind).
  pose proof (zlen_nonneg (flat st)). pose proof (zlen_nonneg st).
  change ((if own then init_content_length_owned else init_content_length)
         (zlen B) rewind (new up)) with (start_sized own up (zlen B) rewind).
  destruct (decide (B = [])) as [->|HB].
  - pose proof (start_sized_empty own up rewind st Hg) as Hd. rewrite Heq in Hd.
    eexists. split; [eapply read_all_decoded; [exact Hd|lia]|]. destruct Hd as (? & _ & ?). done.
  - destruct (read_all_sized parse fuel _ _ _ _ _ (start_sized_sized own up rewind st B E
                Hg Heq Hlen HB)) as (s' & Hall & Hd & _ & HE); [lia|lia|].
    exists s'. done.
Qed.

(** Reading until the peer closes: [w] is buffered, [flat st] still to come. *)
Record until_close (total : Z) (w : list byte) (s : reader_io) : Prop := {
  uc_state : body_state s.1 = UntilClose total;
  uc_total : is_usize total;
  uc_rewound : rewound s.1 w;
  uc_size : body_buf_size s.1 = BODY_BUFFER_SIZE;
  uc_stream : good_stream s.2;
  uc_len : zlen w <= isize_max
}.

Definition until_close_val (total : Z) (w : list byte) (s : reader_io) (res : option BufRef)
    (s' : reader_io) : Prop :=
  match res with
  | None => w ++ flat s.2 = [] /\ body_state s'.1 = Complete total /\ s'.2 = []
  | Some ref => exists d, get_body s'.1 ref = Some d /\ w ++ flat s.2 = d ++ flat s'.2 /\
      until_close (wadd total (zlen d)) [] s' /\
      zlen (flat s'.2) + zlen s'.2 < zlen w + zlen (flat s.2) + zlen s.2
  end.

Lemma flat_nil_good st : good_stream st -> flat st = [] -> st = [] \/ exists st', st = RPend :: st'.
Proof.
  intros Hg Hf. destruct st as [|[[|b bs]| |] st]; inversion_clear Hg; simpl in *; try done; eauto.
Qed.

Lemma until_close_step total w s :
  until_close total w s ->
  wp (read_body parse) (until_close_val total w s) (fun _ _ => False)
    (fun s' => w = [] /\ flat s'.2 = flat s.2 /\ until_close total [] s' /\ zlen s'.2 < zlen s.2) s.
Proof.
  intros [Hs Hu Hw Hsz Hg Hl]. destruct s as [r st]. simpl in *. unfold wp.
  rewrite read_body_dispatch, Hs, wp_eq_run. unfold do_read_body_until_closed.
  wp1. wp1. wp1. wp1. wp1. rewrite Hs.
  destruct (decide (w ++ flat st = [])) as [Hnil|Hne].
  - apply app_nil in Hnil as [-> Hfl]. destruct Hw as [[_ Hrw]|(? & _)]; [|done].
    rewrite Hrw. simpl. wp1. wp1. unfold wp, read_buf, prepare_buf_for_io. simpl. rewrite Hsz.
    destruct (flat_nil_good st Hg Hfl) as [->|[st' ->]]; simpl; [done|].
    inversion_clear Hg. split; [done|]. split; [done|]. split; [|rewrite zlen_cons; lia].
    split; simpl; auto. by left.
  - eapply rewound_read; eauto; [by rewrite Hsz| |].
    + intros now st' Hnow HW Hg' Hm Hnl. apply zlen_pos in Hnow as Hpos.
      destruct (Z.eqb_spec (zlen now) 0); [lia|]. wp1. wp1. wp1. simpl.
      assert (zlen now <= isize_max)
        by (rewrite Hsz in Hnl; assert (BODY_BUFFER_SIZE < isize_max) by done; lia).
      exists now. split.
      { unfold get_body. simpl. rewrite BufRef_new_get by lia.
        rewrite zdrop_0, ztake_ge by lia. done. }
      split; [done|]. split; [|lia]. split; simpl; auto using wadd_usize. { by left. } done.
    + intros st' -> Hfl Hg' Hm. split; [done|]. split; [done|]. split; [|done].
      split; simpl; auto. by left.
Qed.

Lemma read_all_until_close fuel total w s :
  until_close total w s -> zlen w + zlen (flat s.2) + zlen s.2 < Z.of_nat fuel ->
  exists s', read_all parse fuel s = Some (w ++ flat s.2, s') /\
    body_state s'.1 = Complete (wadd total (zlen (w ++ flat s.2))) /\ s'.2 = [].
Proof.
  revert total w s. induction fuel as [|fuel IH]; intros total w s Hu Hm.
  { pose proof (zlen_nonneg w). pose proof (zlen_nonneg (flat s.2)). pose proof (zlen_nonneg s.2). lia. }
  pose proof (until_close_step _ _ _ Hu) as Hst. unfold wp in Hst. simpl.
  destruct (read_body parse s) as [[ref|] s'|e s'|s'|]; simpl in Hst; try done.
  - destruct Hst as (d & Hget & -> & Hu' & Hlt). rewrite Hget.
    destruct (IH _ _ _ Hu') as (s2 & -> & Hc & Hnil); [change (zlen []) with 0; lia|].
    exists s2. split; [done|]. split; [|done].
    rewrite Hc, wadd_wadd, (zlen_app d). done.
  - destruct Hst as (-> & Hc & Hnil). exists s'. rewrite Hc. change (zlen []) with 0.
    rewrite wadd_0 by apply (uc_total _ _ _ Hu). done.
  - destruct Hst as (-> & Hfl & Hu' & Hlt). destruct (IH _ _ _ Hu') as (s2 & -> & Hc & Hnil).
    { rewrite Hfl. lia. }
    exists s2. rewrite <- Hfl. done.
Qed.

(** a close-delimited body is everything up to the end of the stream. *)
Theorem close_delimited_decodes (own up : bool) rewind st fuel :
  good_stream st -> zlen rewind + zlen (flat st) <= isize_max ->
  zlen rewind + zlen (flat st) + zlen st < Z.of_nat fuel ->
  exists s', read_all parse fuel
      ((if own then init_close_delimited_owned else init_close_delimited) rewind (new up), st)
      = Some (rewind ++ flat st, s') /\
    body_state s'.1 = Complete (zlen (rewind ++ flat st)) /\ s'.2 = [].
Proof.
  intros Hg Hl Hfuel. pose proof (zlen_nonneg rewind). pose proof (zlen_nonneg (flat st)).
  destruct (read_all_until_close fuel 0 rewind
    ((if own then init_close_delimited_owned else init_close_delimited) rewind (new up), st))
    as (s' & Hall & Hc & Hnil); [|done|].
  - split; simpl; [by destruct own|done| |destruct own; [done|]|done|lia].
    + unfold rewound. destruct own; simpl; unfold init_close_delimited, prepare_buf.
      * destruct (decide (rewind = [])) as [->|]; auto.
      * case_bool_decide; subst; auto.
    + apply prepare_buf_fields.
  - exists s'. split; [done|]. rewrite Hc. split; [|done]. f_equal. simpl.
    rewrite zlen_app. unfold isize_max in Hl.
    rewrite (wadd_small 0 (zlen rewind + zlen (flat st))); [lia|lia|lia|uz].
Qed.

End contract.

(** ** The theorems at a concrete message *)

Definition wit_chunk (d : string) : chunk :=
  {| c_line := hex_line (zlen (bytes_of d)); c_data := bytes_of d |}.

(** Two chunks and a trailer; the message is cut inside the first chunk line, in
    the data and in the trailer, one read is cancelled, and a request follows. *)
Definition wit_chunks : list chunk := [wit_chunk "hello"; wit_chunk "pingora"].
Definition wit_trailers : list (list byte) := [bytes_of "a: b"].
Definition wit_message : list byte := message wit_chunks (hex_line 0) wit_trailers.
Definition wit_next : list byte := bytes_of "GET /".
Definition wit_stream : list rd_event :=
  let w := wit_message ++ wit_next in
  [RPend; RData (ztake 5 (zdrop 2 w)); RPend; RData (ztake 18 (zdrop 7 w)); RData (zdrop 25 w)].

Lemma wit_message_ok : message_ok ref_parse wit_chunks (hex_line 0) wit_trailers.
Proof.
  assert (H : forall n, 0 <= n < usize_mod -> good_line ref_parse (hex_line n) n)
    by apply ref_parse_hex.
  split; [|split; [|split; [|done]]].
  - repeat apply Forall_cons_2; try apply Forall_nil_2; (split; [by apply H|done]).
  - by apply H.
  - by repeat constructor.
Qed.

Lemma wit_good_stream : good_stream wit_stream.
Proof. repeat constructor; done. Qed.

Lemma chunked_message_decodes_witness :
  exists s', read_all ref_parse 400 (init_chunked (ztake 2 wit_message) (new true), wit_stream)
      = Some (bytes_of "hellopingora", s') /\
    body_state s'.1 = Complete 12 /\
    default [] (body_buf_overread s'.1) ++ flat s'.2 = bytes_of "GET /".
Proof.
  apply (chunked_message_decodes ref_parse false true (ztake 2 wit_message) wit_stream
           wit_chunks (hex_line 0) wit_trailers wit_next 400);
    [apply wit_message_ok|apply wit_good_stream|reflexivity|vm_compute; discriminate|reflexivity].
Defined.

Lemma content_length_decodes_witness :
  exists s', read_all ref_parse 100
      (init_content_length 5 (bytes_of "he") (new false),
       [RPend; RData (bytes_of "l"); RData (bytes_of "loGET /")])
      = Some (bytes_of "hello", s') /\
    body_state s'.1 = Complete 5 /\
    default [] (body_buf_overread s'.1) ++ flat s'.2 = bytes_of "GET /".
Proof.
  apply (content_length_decodes ref_parse false false (bytes_of "he")
    [RPend; RData (bytes_of "l"); RData (bytes_of "loGET /")]
    (bytes_of "hello") (bytes_of "GET /") 100);
    [repeat constructor; discriminate|reflexivity|vm_compute; discriminate|reflexivity].
Defined.

Lemma close_delimited_decodes_witness :
  exists s', read_all ref_parse 100
      (init_close_delimited_owned (bytes_of "he") (new true), [RData (bytes_of "llo"); RPend])
      = Some (bytes_of "hello", s') /\
    body_state s'.1 = Complete 5 /\ s'.2 = [].
Proof.
  apply (close_delimited_decodes ref_parse true true (bytes_of "he")
    [RData (bytes_of "llo"); RPend] 100);
    [repeat constructor; discriminate|vm_compute; discriminate|reflexivity].
Defined.

(** A reader that has read a partial chunk head. *)
Definition wit_reader : BodyReader :=
  match read_body ref_parse (init_chunked (bytes_of "5") (new true), []) with
  | Val _ (r, _) => r
  | _ => new true
  end.

Lemma wit_reader_reachable : reachable ref_parse wit_reader.
Proof.
  eapply (reach_read _ _ [] (Some (BufRef_new 0 0)) _ []).
  - apply (reach_init _ true (InitChunked (bytes_of "5"))). simpl. split; [|done]. done.
  - reflexivity.
Qed.

Lemma read_body_never_panics_witness :
  is_Some (get_body wit_reader (BufRef_new 0 0)) /\
  match read_body ref_parse (wit_reader, [RData (CRLF ++ bytes_of "hel")]) with
  | Val (Some ref) (r', _) => is_Some (get_body r' ref)
  | Panic => False
  | _ => True
  end.
Proof.
  split; [by eexists|]. apply (read_body_never_panics ref_parse wit_reader).
  - apply ref_parse_bounds.
  - apply wit_reader_reachable.
Defined.

Lemma read_body_cancel_safe_witness :
  exists r', read_body ref_parse (wit_reader, [RPend; RData CRLF]) = Cancelled (r', [RData CRLF]) /\
  read_body ref_parse (r', [RData CRLF]) = read_body ref_parse (wit_reader, [RData CRLF]).
Proof.
  eexists. split; [reflexivity|].
  eapply (read_body_cancel_safe ref_parse wit_reader [RPend; RData CRLF]).
  - apply wit_reader_reachable.
  - apply ref_parse_bounds.
  - reflexivity.
Defined.
