(* ===== verification/BodyFraming.v ===== *)
(** * The framings of a body

    The three ways in which a message says where its body ends, what the body
    looks like on the wire in each, and that a body reader set up for a framing
    reads exactly that body.  The server session and the client session share
    it. *)

From stdpp Require Import base list numbers strings.
From Stdlib Require Import ZArith Lia.
From S2P Require Import Prelude Errors BodyReader BodyReaderSafety BodyDecode BodySpec.
Local Open Scope Z_scope.

Inductive Framing := FChunked | FLength (n : Z) | FClose.

Section framing.
Context (parse : list byte -> chunk_status).

(** The body reader for a framing, on bytes that were read with the head. *)
Definition framing_init (own : bool) (f : Framing) (extra : list byte) : BodyReader -> BodyReader :=
  match f with
  | FChunked => (if own then init_chunked_owned else init_chunked) extra
  | FLength n => (if own then init_content_length_owned else init_content_length) n extra
  | FClose => (if own then init_close_delimited_owned else init_close_delimited) extra
  end.

(** A body on the wire, the data it carries, and what can follow it. *)
Definition framed (f : Framing) (body data next : list byte) : Prop :=
  match f with
  | FChunked => exists cs last ts, message_ok parse cs last ts /\ body = message cs last ts /\ data = payload cs
  | FLength n => zlen body = n /\ data = body
  | FClose => data = body /\ next = []
  end.

Definition started (r : BodyReader) : Prop := body_state r <> ToStart.

Lemma started_need_init r : started r -> need_init r = false.
Proof. unfold started, need_init. by destruct (body_state r). Qed.

Lemma framing_started own f extra r : started (framing_init own f extra r).
Proof.
  unfold started. destruct f as [|n|], own; simpl; unfold init_chunked, init_chunked_owned,
    init_content_length, init_content_length_owned, init_close_delimited, init_close_delimited_owned,
    prepare_buf; try case_bool_decide; try destruct (n =? 0); done.
Qed.

Lemma read_body_done r st : body_done r = true -> read_body parse (r, st) = Val None (r, st).
Proof.
  intros Hd. unfold read_body, bind, self. simpl. unfold body_done in Hd. by destruct (body_state r).
Qed.

Lemma framed_reads own up f body data extra st next fuel :
  framed f body data next -> good_stream st -> extra ++ flat st = body ++ next ->
  zlen (body ++ next) <= isize_max ->
  2 * zlen extra + 4 * zlen (flat st) + zlen st + 1 < Z.of_nat fuel ->
  exists r, read_all parse fuel (framing_init own f extra (new up), st) = Some (data, r) /\
    body_state r.1 = Complete (zlen data) /\ (f <> FClose -> decoded next (zlen data) r).
Proof.
  intros Hf Hg Heq Hlen Hfuel. pose proof (zlen_nonneg extra). pose proof (zlen_nonneg (flat st)).
  pose proof (zlen_nonneg st). destruct f as [|n|]; simpl in *.
  - destruct Hf as (cs & last & ts & Hok & -> & ->).
    destruct (read_all_message parse own up extra st cs last ts next fuel) as (r & Hr & Hr1); try done.
    exists r. split; [done|]. split; [apply Hr1|done].
  - destruct Hf as [<- ->].
    change ((if own then init_content_length_owned else init_content_length) (zlen body) extra (new up))
      with (start_sized own up (zlen body) extra).
    destruct (decide (body = [])) as [->|HB].
    + pose proof (start_sized_empty own up extra st Hg) as He. rewrite Heq in He.
      eexists. split; [eapply read_all_decoded; [exact He|lia]|]. split; [apply He|done].
    + destruct (read_all_sized parse fuel _ _ _ _ _ (start_sized_sized own up extra st body next
                  Hg Heq Hlen HB)) as (r & Hall & Hr); [lia|lia|].
      exists r. split; [done|]. split; [apply Hr|done].
  - destruct Hf as [-> ->]. rewrite app_nil_r in *.
    destruct (close_delimited_decodes parse own up extra st fuel Hg) as (r & Hall & Hc & _).
    { rewrite <- zlen_app, Heq. done. } { lia. }
    rewrite Heq in *. exists r. done.
Qed.

End framing.
