(* ===== verification/BodySteady.v ===== *)
(** * The body reader stays usable

    A reader that has been set up stays set up through every call, whatever the
    call's outcome; on a stream that is never pending no call is cancelled. *)

From stdpp Require Import base list numbers strings.
From Stdlib Require Import ZArith Lia.
From S2P Require Import Prelude Errors BodyReader BodyFraming.
Local Open Scope Z_scope.

Definition never_pending (st : list rd_event) : Prop := Forall (fun ev => ev <> RPend) st.

Definition steady_state (pend : bool) (s : reader_io) : Prop :=
  started s.1 /\ (pend = false -> never_pending s.2).

(** What [m] leaves can be read on, and it is cancelled only if [pend]. *)
Definition steady {A} (pend : bool) (m : RM A) : Prop :=
  forall s, steady_state pend s ->
    match m s with
    | Val _ s' | Fail _ s' => steady_state pend s'
    | Cancelled s' => pend = true /\ steady_state pend s'
    | Panic => True
    end.

Lemma steady_bind pend {A B} (m : RM A) (k : A -> RM B) :
  steady pend m -> (forall a, steady pend (k a)) -> steady pend (bind m k).
Proof.
  intros Hm Hk s Hs. unfold bind. specialize (Hm s Hs). destruct (m s); try done. by apply Hk.
Qed.

Lemma steady_self pend {B} (k : BodyReader -> RM B) :
  (forall r, started r -> steady pend (k r)) -> steady pend (bind self k).
Proof. intros Hk s Hs. apply (Hk s.1); [by destruct Hs|done]. Qed.

Lemma steady_unwrap pend {A B} (o : option A) (k : A -> RM B) :
  (forall a, o = Some a -> steady pend (k a)) -> steady pend (bind (unwrap o) k).
Proof. intros Hk s Hs. destruct o as [a|]; [|done]. by apply (Hk a). Qed.

Lemma steady_ret pend {A} (a : A) : steady pend (ret a).
Proof. by intros s Hs. Qed.
Lemma steady_fail pend {A} e : steady (A := A) pend (fail e).
Proof. by intros s Hs. Qed.
Lemma steady_panic pend {A} : steady (A := A) pend panic.
Proof. by intros s Hs. Qed.
Lemma steady_assert pend b : steady pend (assert b).
Proof. destruct b; by intros s Hs. Qed.
Lemma steady_unwrap_end pend {A} (o : option A) : steady pend (unwrap o).
Proof. destruct o; by intros s Hs. Qed.
Lemma steady_upd pend f : (forall r, started r -> started (f r)) -> steady pend (upd f).
Proof. intros Hf s [Hs Hp]. split; [by apply Hf|done]. Qed.

Lemma steady_upd_state pend f :
  (forall st st', st <> ToStart -> f st = Some st' -> st' <> ToStart) -> steady pend (upd_state f).
Proof.
  intros Hf. unfold upd_state. apply steady_self. intros r Hr. apply steady_unwrap. intros st Hst.
  apply steady_upd. intros r' _. unfold started. simpl. by eapply Hf.
Qed.

Lemma steady_read_buf pend limit : steady pend (read_buf limit).
Proof.
  intros [r st] [Hs Hp]. unfold read_buf. destruct (limit =? 0); [done|].
  assert (forall ev st', pend = false -> st = ev :: st' -> ev <> RPend /\ never_pending st') as Hst.
  { intros ev st' Hf ->. specialize (Hp Hf). by apply Forall_cons in Hp. }
  destruct st as [|[bs| |] st]; [done|..].
  - split; [done|]. intros Hf. destruct (Hst _ _ Hf eq_refl) as [_ Hn]. simpl.
    case_bool_decide; [done|]. by constructor.
  - split; [done|]. intros Hf. by apply (Hst _ _ Hf eq_refl).
  - destruct pend; [done|]. by destruct (Hst _ _ eq_refl eq_refl).
Qed.

Lemma finish_body_buf_state e n r r' : finish_body_buf e n r = Some r' -> body_state r' = body_state r.
Proof.
  unfold finish_body_buf. destruct (body_buf r); [|done]. repeat case_match; naive_solver.
Qed.

Create HintDb steady.
#[export] Hint Resolve steady_ret steady_fail steady_panic steady_assert steady_unwrap_end
  steady_read_buf : steady.

Lemma steady_fail_done pend {A} e : steady (A := A) pend (fail_done e).
Proof.
  apply steady_bind; [|auto with steady]. apply steady_upd_state.
  intros st st' Hs [= <-]. by destruct st.
Qed.
#[export] Hint Resolve steady_fail_done : steady.

Ltac steady_start :=
  intros; unfold started, set_state, set_buf, set_rewind, prepare_buf_for_io, reserve_buf_for_io in *;
  simpl; congruence.

Ltac steady_step :=
  match goal with
  | |- steady _ (bind self _) => apply steady_self; intros
  | |- steady _ (bind (unwrap _) _) => apply steady_unwrap; intros
  | |- steady _ (bind _ _) => apply steady_bind; [|intros]
  | |- steady _ (upd_state _) => apply steady_upd_state; intros ? ? ?;
       first [intros [= <-]; unfold ps_done, ps_finish | unfold partial_chunk, multi_chunk, partial_chunk_head, new_buf, read_final_chunk];
       repeat case_match; try (intros [= <-]); congruence
  | |- steady _ (upd (fun _ => ?r)) =>
       apply steady_upd; intros; unfold started in *;
       match goal with H : finish_body_buf _ _ _ = Some r |- _ => rewrite (finish_body_buf_state _ _ _ _ H) end;
       assumption
  | |- steady _ (upd _) => apply steady_upd; steady_start
  | |- steady _ (if ?b then _ else _) => destruct b
  | |- steady _ (match ?x with _ => _ end) => destruct x eqn:?
  | |- _ => solve [auto with steady]
  end.
Ltac steady_go := repeat steady_step.

Lemma steady_validate_crlf pend buf lf trailer : steady pend (validate_crlf buf lf trailer).
Proof. unfold validate_crlf. steady_go. Qed.
#[export] Hint Resolve steady_validate_crlf : steady.

Lemma steady_do_read_body pend : steady pend do_read_body.
Proof. unfold do_read_body. steady_go. Qed.
Lemma steady_until_closed pend : steady pend do_read_body_until_closed.
Proof. unfold do_read_body_until_closed. steady_go. Qed.
Lemma steady_payload pend e x : steady pend (chunked_payload e x).
Proof. unfold chunked_payload. steady_go. Qed.
Lemma steady_fill_head pend e x : steady pend (fill_partial_head e x).
Proof. unfold fill_partial_head, read_more_head. steady_go. Qed.
#[export] Hint Resolve steady_do_read_body steady_until_closed steady_payload steady_fill_head : steady.
Lemma steady_fill pend s e x : steady pend (chunked_fill s e x).
Proof. unfold chunked_fill. steady_go. Qed.
Lemma steady_trailers_end pend buf : steady pend (parse_trailers_end buf).
Proof. unfold parse_trailers_end. steady_go. Qed.
#[export] Hint Resolve steady_fill steady_trailers_end : steady.
Lemma steady_trailers_loop pend fuel buf read start n : steady pend (trailers_loop fuel buf read start n).
Proof.
  revert start. induction fuel as [|fuel IH]; intros start; simpl; [auto with steady|].
  steady_go; apply IH.
Qed.
#[export] Hint Resolve steady_trailers_loop : steady.
Lemma steady_final pend : steady pend do_read_chunked_body_final.
Proof. unfold do_read_chunked_body_final. steady_go. Qed.
#[export] Hint Resolve steady_final : steady.

Section parser.
Context (parse : list byte -> chunk_status).

Lemma steady_parse_chunked pend s e : steady pend (parse_chunked_buf parse s e).
Proof. unfold parse_chunked_buf, parse_last_chunk, parse_data_chunk. steady_go. Qed.
#[local] Hint Resolve steady_parse_chunked : steady.
Lemma steady_chunked pend : steady pend (do_read_chunked_body parse).
Proof. unfold do_read_chunked_body. steady_go. Qed.
#[local] Hint Resolve steady_chunked : steady.
Lemma steady_read_body pend : steady pend (read_body parse).
Proof. unfold read_body. steady_go. Qed.

End parser.

