(* ===== verification/BodyWriter.v ===== *)
(** * HTTP/1 body writer

    [BodyWriter] of [src/pingora-core/src/protocols/http/v1/body.rs]: framing of
    a body on the wire (Content-Length, chunked, until close), through the async
    API ([write_body], [finish]) and through the cancel-safe task API, whose
    poll functions keep the progress of a write across dropped futures.

    A poll function is written in the same monad as async code: [Poll::Ready] of
    an [Ok] is [Val], of an [Err] is [Fail], and [Poll::Pending], like an
    [.await] at which the future is dropped, is [Cancelled]. *)

From stdpp Require Import base list numbers strings.
From S2P Require Import Prelude Errors BodyReader.
Local Open Scope Z_scope.

Definition LAST_CHUNK : list byte := [Byte.x30; CR; LF; CR; LF].

(** ** State *)

Inductive BodyMode :=
| ToSelect
| ContentLength (total written : Z)
| ChunkedEncoding (written : Z)
| UntilCloseMode (written : Z)
| CompleteMode (written : Z).

(** Expectations that panic ([None]) in another mode. *)
Definition expect_content_length (m : BodyMode) : option (Z * Z) :=
  match m with ContentLength total written => Some (total, written) | _ => None end.
Definition expect_chunked (m : BodyMode) : option Z :=
  match m with ChunkedEncoding written => Some written | _ => None end.
Definition expect_until_close (m : BodyMode) : option Z :=
  match m with UntilCloseMode written => Some written | _ => None end.

(** A buffer being written: bytes, or the chain chunk header / data / CRLF. *)
Inductive WriteBuf :=
| Simple (b : list byte)
| Chained (header data crlf : list byte).

Definition wb_remaining (w : WriteBuf) : Z :=
  match w with
  | Simple b => zlen b
  | Chained a b c => zlen a + zlen b + zlen c
  end.

(** [Buf::advance]; a [Chain] drains its first part before its second. *)
Definition wb_advance (w : WriteBuf) (cnt : Z) : WriteBuf :=
  match w with
  | Simple b => Simple (zdrop cnt b)
  | Chained a b c =>
      if cnt <=? zlen a then Chained (zdrop cnt a) b c
      else let cnt := cnt - zlen a in
           if cnt <=? zlen b then Chained [] (zdrop cnt b) c
           else Chained [] [] (zdrop (cnt - zlen b) c)
  end.

(** All slices of the buffer, in order ([chunks_vectored]). *)
Definition wb_bytes (w : WriteBuf) : list byte :=
  match w with
  | Simple b => b
  | Chained a b c => a ++ b ++ c
  end.

Inductive WriteState :=
| WIdle
| Writing (size : Z) (buf : WriteBuf)
| Flushing (size : Z)
| WDone (size : Z)
| TimedOut.

#[export] Instance WriteBuf_eq_dec : EqDecision WriteBuf.
Proof. solve_decision. Defined.
#[export] Instance WriteState_eq_dec : EqDecision WriteState.
Proof. solve_decision. Defined.

Inductive FinishWriteState :=
| FNotStarted
| FIdle
| WritingLastChunk (buf : WriteBuf)
| FFlushing
| FDone.

(** [timeout_fut] is modelled by whether the timer has been created. *)
Record SendBodyState := mkSendBody {
  pending_bytes : option (list byte);
  write_state : WriteState;
  timeout_duration : option Z;
  timeout_fut : bool
}.

Definition SendBodyState_new : SendBodyState := mkSendBody None WIdle None false.

Record BodyWriter := mkWriter {
  body_mode : BodyMode;
  send_body_state : SendBodyState;
  send_finish_state : FinishWriteState
}.

Definition writer_new : BodyWriter := mkWriter ToSelect SendBodyState_new FNotStarted.

Definition set_mode (m : BodyMode) (w : BodyWriter) : BodyWriter :=
  mkWriter m (send_body_state w) (send_finish_state w).
Definition set_body_task (f : SendBodyState -> SendBodyState) (w : BodyWriter) : BodyWriter :=
  mkWriter (body_mode w) (f (send_body_state w)) (send_finish_state w).
Definition set_finish (f : FinishWriteState) (w : BodyWriter) : BodyWriter :=
  mkWriter (body_mode w) (send_body_state w) f.
Definition set_write_state (ws : WriteState) : BodyWriter -> BodyWriter :=
  set_body_task (fun t => mkSendBody (pending_bytes t) ws (timeout_duration t) (timeout_fut t)).
Definition set_pending (b : option (list byte)) : BodyWriter -> BodyWriter :=
  set_body_task (fun t => mkSendBody b (write_state t) (timeout_duration t) (timeout_fut t)).
Definition set_timer (b : bool) : BodyWriter -> BodyWriter :=
  set_body_task (fun t => mkSendBody (pending_bytes t) (write_state t) (timeout_duration t) b).

Definition writer_init_chunked (w : BodyWriter) : BodyWriter := set_mode (ChunkedEncoding 0) w.
Definition writer_init_close_delimited (w : BodyWriter) : BodyWriter :=
  set_mode (UntilCloseMode 0) w.
Definition writer_init_content_length (cl : Z) (w : BodyWriter) : BodyWriter :=
  set_mode (ContentLength cl 0) w.
Definition writer_convert_to_close_delimited (w : BodyWriter) : BodyWriter :=
  match body_mode w with
  | UntilCloseMode _ => w
  | _ => set_mode (UntilCloseMode 0) w
  end.

Definition finished (w : BodyWriter) : bool :=
  match body_mode w with
  | CompleteMode _ => true
  | ContentLength total written => total <=? written
  | _ => false
  end.

Definition is_close_delimited (w : BodyWriter) : bool :=
  match body_mode w with UntilCloseMode _ => true | _ => false end.

(** ** The stream *)

(** One poll of the stream's write or flush: ready (a write accepts up to [n]
    bytes), an I/O error, or pending.  After the listed polls the stream is
    always ready. *)
Inductive wr_event := IoReady (n : Z) | IoErr | IoPend.

Record writer_io := mkWio {
  wr : BodyWriter;
  wr_out : list byte;        (** bytes the stream has accepted *)
  wr_flushed : Z;            (** how many of them a flush has covered *)
  wr_events : list wr_event; (** outcomes of the next polls *)
  wr_timer : list bool       (** whether the next polls of the timer find it fired *)
}.

Definition WM (A : Type) : Type := M writer_io ErrorType A.

Definition set_wr (w : BodyWriter) (s : writer_io) : writer_io :=
  mkWio w (wr_out s) (wr_flushed s) (wr_events s) (wr_timer s).
Definition wself : WM BodyWriter := fun s => Val (wr s) s.
Definition wupd (f : BodyWriter -> BodyWriter) : WM unit := modify (fun s => set_wr (f (wr s)) s).

Inductive io_poll := PollOk | PollErr | PollPending.

(** tokio's [write_all_buf] (and [write_all]): write until the buffer is empty;
    a write that accepts nothing is the [WriteZero] error. *)
Fixpoint write_loop (evs : list wr_event) (out : list byte) (buf : WriteBuf)
    : io_poll * list wr_event * list byte * WriteBuf :=
  if wb_remaining buf =? 0 then (PollOk, evs, out, buf)
  else match evs with
       | [] => (PollOk, [], out ++ wb_bytes buf, wb_advance buf (wb_remaining buf))
       | IoPend :: evs => (PollPending, evs, out, buf)
       | IoErr :: evs => (PollErr, evs, out, buf)
       | IoReady n :: evs =>
           let n := Z.min n (wb_remaining buf) in
           if n <=? 0 then (PollErr, evs, out, buf)
           else write_loop evs (out ++ ztake n (wb_bytes buf)) (wb_advance buf n)
       end.

(** Poll [write_all_buf] of a buffer kept in the state through [keep]: what is
    left of the buffer stays there. *)
Definition poll_write_all_buf (keep : WriteBuf -> BodyWriter -> BodyWriter) (buf : WriteBuf)
    : WM unit :=
  fun s =>
    let '(res, evs, out, buf) := write_loop (wr_events s) (wr_out s) buf in
    let s := mkWio (keep buf (wr s)) out (wr_flushed s) evs (wr_timer s) in
    match res with
    | PollOk => Val tt s
    | PollErr => Fail WriteError s
    | PollPending => Cancelled s
    end.

(** [write_all(..).await] of bytes the caller holds. *)
Definition write_all (b : list byte) : WM unit := poll_write_all_buf (fun _ w => w) (Simple b).

Definition poll_flush : WM unit :=
  fun s =>
    let flushed evs := mkWio (wr s) (wr_out s) (zlen (wr_out s)) evs (wr_timer s) in
    let keep evs := mkWio (wr s) (wr_out s) (wr_flushed s) evs (wr_timer s) in
    match wr_events s with
    | [] => Val tt (flushed [])
    | IoReady _ :: evs => Val tt (flushed evs)
    | IoErr :: evs => Fail WriteError (keep evs)
    | IoPend :: evs => Cancelled (keep evs)
    end.

(** A [Result] that is inspected instead of propagated. *)
Definition attempt {A} (m : WM A) : WM (A + ErrorType) :=
  fun s => match m s with
           | Val a s' => Val (inl a) s'
           | Fail e s' => Val (inr e) s'
           | Cancelled s' => Cancelled s'
           | Panic => Panic
           end.

(** ** The async API *)

Definition do_write_body (buf : list byte) : WM (option Z) :=
  let! w := wself in
  match body_mode w with
  | ContentLength total written =>
      if total <=? written then ret None
      else
        let to_write := wsub total written in
        let to_write := if to_write <? zlen buf then to_write else zlen buf in
        let! part := unwrap (slice buf 0 to_write) in
        do! write_all part;
        do! wupd (set_mode (ContentLength total (wadd written to_write)));
        let! w := wself in
        do! (if finished w then poll_flush else ret tt);
        ret (Some to_write)
  | _ => panic
  end.

Definition do_write_chunked_body (buf : list byte) : WM (option Z) :=
  let! w := wself in
  match body_mode w with
  | ChunkedEncoding written =>
      let chunk_size := zlen buf in
      if chunk_size =? 0 then ret (Some 0)
      else
        do! poll_write_all_buf (fun _ w => w) (Chained (hex_line chunk_size) buf CRLF);
        do! poll_flush;
        do! wupd (set_mode (ChunkedEncoding (wadd written chunk_size)));
        ret (Some chunk_size)
  | _ => panic
  end.

Definition do_write_until_close_body (buf : list byte) : WM (option Z) :=
  let! w := wself in
  match body_mode w with
  | UntilCloseMode written =>
      do! write_all buf;
      do! wupd (set_mode (UntilCloseMode (wadd written (zlen buf))));
      do! poll_flush;
      ret (Some (zlen buf))
  | _ => panic
  end.

Definition write_body (buf : list byte) : WM (option Z) :=
  let! w := wself in
  match body_mode w with
  | CompleteMode _ => ret None
  | ContentLength _ _ => do_write_body buf
  | ChunkedEncoding _ => do_write_chunked_body buf
  | UntilCloseMode _ => do_write_until_close_body buf
  | ToSelect => ret None
  end.

Definition do_finish_body : WM (option Z) :=
  let! w := wself in
  match body_mode w with
  | ContentLength total written =>
      do! wupd (set_mode (CompleteMode written));
      if written <? total then fail PREMATURE_BODY_END else ret (Some written)
  | _ => panic
  end.

Definition do_finish_chunked_body : WM (option Z) :=
  let! w := wself in
  match body_mode w with
  | ChunkedEncoding written =>
      let! res := attempt (write_all LAST_CHUNK) in
      do! wupd (set_mode (CompleteMode written));
      match res with
      | inl _ => ret (Some written)
      | inr e => fail e
      end
  | _ => panic
  end.

Definition do_finish_until_close_body : WM (option Z) :=
  let! w := wself in
  match body_mode w with
  | UntilCloseMode written => do! wupd (set_mode (CompleteMode written)); ret (Some written)
  | _ => panic
  end.

Definition finish : WM (option Z) :=
  let! w := wself in
  match body_mode w with
  | CompleteMode _ => ret None
  | ContentLength _ _ => do_finish_body
  | ChunkedEncoding _ => do_finish_chunked_body
  | UntilCloseMode _ => do_finish_until_close_body
  | ToSelect => ret None
  end.

(** ** The cancel-safe body task *)

(** Panics ([None]) when a task is in progress or has timed out. *)
Definition send_body_task (bytes : list byte) (timeout : option Z) (w : BodyWriter)
    : option BodyWriter :=
  match write_state (send_body_state w) with
  | WIdle | WDone _ =>
      Some (set_body_task (fun _ => mkSendBody (Some bytes) WIdle timeout false) w)
  | _ => None
  end.

(** The [Writing] phase: resume the write, then account for it. *)
Definition write_phase (account : Z -> WM WriteState) : WM unit :=
  let! w := wself in
  match write_state (send_body_state w) with
  | Writing size buf =>
      do! poll_write_all_buf (fun b => set_write_state (Writing size b)) buf;
      let! ws := account size in
      wupd (set_write_state ws)
  | _ => ret tt
  end.

(** The [Flushing] phase. *)
Definition flush_phase : WM unit :=
  let! w := wself in
  match write_state (send_body_state w) with
  | Flushing size => do! poll_flush; wupd (set_write_state (WDone size))
  | _ => ret tt
  end.

(** The result of the state the phases end in. *)
Definition task_result : WM (option Z) :=
  let! w := wself in
  match write_state (send_body_state w) with
  | WDone size => do! wupd (set_timer false); ret (Some size)
  | TimedOut => fail WriteTimedout
  | _ => panic
  end.

(** Setup of a task: [Some r] is an early return of [r]. *)
Definition content_length_setup : WM (option (option Z)) :=
  let! w := wself in
  match write_state (send_body_state w) with
  | WIdle =>
      do! wupd (set_pending None);
      match pending_bytes (send_body_state w) with
      | Some bytes =>
          let! tw := unwrap (expect_content_length (body_mode w)) in
          let '(total, written) := tw in
          if total <=? written then do! wupd (set_write_state (WDone 0)); ret (Some None)
          else
            let remaining := wsub total written in
            let bytes := if remaining <? zlen bytes then ztake remaining bytes else bytes in
            do! wupd (set_write_state (Writing (zlen bytes) (Simple bytes)));
            ret None
      | None => do! wupd (set_write_state (WDone 0)); ret (Some None)
      end
  | _ => ret None
  end.

Definition content_length_account (bytes_written : Z) : WM WriteState :=
  let! w := wself in
  let! tw := unwrap (expect_content_length (body_mode w)) in
  let '(total, written) := tw in
  do! wupd (set_mode (ContentLength total (wadd written bytes_written)));
  ret (if total <=? wadd written bytes_written then Flushing bytes_written
       else WDone bytes_written).

Definition poll_write_content_length_body_task : WM (option Z) :=
  let! early := content_length_setup in
  match early with
  | Some r => ret r
  | None => do! write_phase content_length_account; do! flush_phase; task_result
  end.

Definition chunked_setup : WM (option (option Z)) :=
  let! w := wself in
  match write_state (send_body_state w) with
  | WIdle =>
      do! wupd (set_pending None);
      match pending_bytes (send_body_state w) with
      | Some bytes =>
          if zlen bytes =? 0 then do! wupd (set_write_state (WDone 0)); ret (Some (Some 0))
          else
            do! wupd (set_write_state (Writing (zlen bytes)
                        (Chained (hex_line (zlen bytes)) bytes CRLF)));
            ret None
      | None => do! wupd (set_write_state (WDone 0)); ret (Some None)
      end
  | _ => ret None
  end.

Definition chunked_account (bytes_written : Z) : WM WriteState :=
  let! w := wself in
  let! written := unwrap (expect_chunked (body_mode w)) in
  do! wupd (set_mode (ChunkedEncoding (wadd written bytes_written)));
  ret (Flushing bytes_written).

Definition poll_write_chunked_body_task : WM (option Z) :=
  let! early := chunked_setup in
  match early with
  | Some r => ret r
  | None => do! write_phase chunked_account; do! flush_phase; task_result
  end.

Definition until_close_setup : WM (option (option Z)) :=
  let! w := wself in
  match write_state (send_body_state w) with
  | WIdle =>
      do! wupd (set_pending None);
      match pending_bytes (send_body_state w) with
      | Some bytes =>
          do! wupd (set_write_state (Writing (zlen bytes) (Simple bytes)));
          ret None
      | None => do! wupd (set_write_state (WDone 0)); ret (Some None)
      end
  | _ => ret None
  end.

Definition until_close_account (bytes_written : Z) : WM WriteState :=
  let! w := wself in
  let! written := unwrap (expect_until_close (body_mode w)) in
  do! wupd (set_mode (UntilCloseMode (wadd written bytes_written)));
  ret (Flushing bytes_written).

Definition poll_write_until_close_body_task : WM (option Z) :=
  let! early := until_close_setup in
  match early with
  | Some r => ret r
  | None => do! write_phase until_close_account; do! flush_phase; task_result
  end.

(** The timer of a task with a [timeout_duration], created at the first pending
    poll and polled after it. *)
Definition check_timeout : WM (option Z) :=
  fun s =>
    match timeout_duration (send_body_state (wr s)) with
    | None => Cancelled s
    | Some _ =>
        let s := set_wr (set_timer true (wr s)) s in
        let fired := head (wr_timer s) in
        let s := mkWio (wr s) (wr_out s) (wr_flushed s) (wr_events s) (tail (wr_timer s)) in
        match fired with
        | Some true =>
            Fail WriteTimedout (set_wr (set_timer false (set_write_state TimedOut (wr s))) s)
        | _ => Cancelled s
        end
    end.

Definition poll_write_current_body_task : WM (option Z) :=
  let! w := wself in
  match write_state (send_body_state w) with
  | TimedOut => fail WriteTimedout
  | _ =>
      fun s =>
        let result :=
          match body_mode w with
          | CompleteMode _ => ret None s
          | ContentLength _ _ => poll_write_content_length_body_task s
          | ChunkedEncoding _ => poll_write_chunked_body_task s
          | UntilCloseMode _ => poll_write_until_close_body_task s
          | ToSelect => ret None s
          end in
        match result with
        | Cancelled s' => check_timeout s'
        | _ => result
        end
  end.

(** ** The cancel-safe finish task *)

Definition send_finish_task (w : BodyWriter) : BodyWriter := set_finish FIdle w.

Definition poll_finish_content_length_task : WM (option Z) :=
  let! w := wself in
  match body_mode w with
  | ContentLength total written =>
      if written <? total then do! wupd (set_finish FDone); fail PREMATURE_BODY_END
      else
        do! wupd (set_mode (CompleteMode written));
        do! wupd (set_finish FDone);
        ret (Some written)
  | _ => panic
  end.

(** The loop goes through each of its three working states at most once. *)
Definition finish_flush (written : Z) : WM (option Z) :=
  do! poll_flush;
  do! wupd (set_mode (CompleteMode written));
  do! wupd (set_finish FDone);
  ret (Some written).

Definition finish_write (written : Z) (buf : WriteBuf) : WM (option Z) :=
  do! poll_write_all_buf (fun b => set_finish (WritingLastChunk b)) buf;
  do! wupd (set_finish FFlushing);
  finish_flush written.

Definition poll_finish_chunked_task : WM (option Z) :=
  let! w := wself in
  let! written := unwrap (expect_chunked (body_mode w)) in
  match send_finish_state w with
  | FIdle =>
      do! wupd (set_finish (WritingLastChunk (Simple LAST_CHUNK)));
      finish_write written (Simple LAST_CHUNK)
  | WritingLastChunk buf => finish_write written buf
  | FFlushing => finish_flush written
  | FDone | FNotStarted => panic
  end.

Definition poll_finish_until_close_task : WM (option Z) :=
  let! w := wself in
  match body_mode w with
  | UntilCloseMode written =>
      do! wupd (set_mode (CompleteMode written));
      do! wupd (set_finish FDone);
      ret (Some written)
  | _ => panic
  end.

Definition poll_write_current_finish_task : WM (option Z) :=
  let! w := wself in
  match send_finish_state w with
  | FNotStarted | FDone => ret None
  | _ =>
      match body_mode w with
      | CompleteMode _ => ret None
      | ContentLength _ _ => poll_finish_content_length_task
      | ChunkedEncoding _ => poll_finish_chunked_task
      | UntilCloseMode _ => poll_finish_until_close_task
      | ToSelect => ret None
      end
  end.
