(* ===== verification/BodyWriterSpec.v ===== *)
(** * HTTP/1 body writer: its contract

    [write_effect] says what writing a buffer means in each mode: the bytes that
    go on the wire, the value returned and the mode afterwards.  The async API
    and the task API are proved to implement it, the latter whatever polls are
    pending and wherever its futures are dropped.  Together with the reader's
    decoding theorems this gives the round trip over the wire. *)

From stdpp Require Import base list numbers strings.
From S2P Require Import Prelude Errors BodyReader BodyReaderSafety BodyDecode BodySpec BodyWriter.
Local Open Scope Z_scope.

(** ** The abstract effect of a write *)

Record effect := mkEffect { eff_wire : list byte; eff_result : option Z; eff_mode : BodyMode }.

Definition write_effect (m : BodyMode) (b : list byte) : effect :=
  match m with
  | CompleteMode _ | ToSelect => mkEffect [] None m
  | ContentLength total written =>
      if total <=? written then mkEffect [] None m
      else let n := Z.min (total - written) (zlen b) in
           mkEffect (ztake n b) (Some n) (ContentLength total (written + n))
  | ChunkedEncoding written =>
      if bool_decide (b = []) then mkEffect [] (Some 0) m
      else mkEffect (hex_line (zlen b) ++ b ++ CRLF) (Some (zlen b))
             (ChunkedEncoding (wadd written (zlen b)))
  | UntilCloseMode written =>
      mkEffect b (Some (zlen b)) (UntilCloseMode (wadd written (zlen b)))
  end.

Definition mode_ok (m : BodyMode) : Prop :=
  match m with
  | ContentLength total written => 0 <= written <= total /\ total < usize_mod
  | ChunkedEncoding written | UntilCloseMode written => is_usize written
  | _ => True
  end.

Lemma write_effect_ok m b : mode_ok m -> mode_ok (eff_mode (write_effect m b)).
Proof.
  destruct m as [|total written| | |]; simpl; auto using wadd_usize.
  - intros [H1 H2]. destruct (Z.leb_spec total written); simpl; [lia|].
    pose proof (zlen_nonneg b). lia.
  - case_bool_decide; simpl; auto using wadd_usize.
Qed.

(** ** The stream *)

Definition good_io (ev : wr_event) : Prop :=
  match ev with IoReady n => 0 < n | IoPend => True | IoErr => False end.
Definition good_io_stream (evs : list wr_event) : Prop := Forall good_io evs.

Lemma wb_remaining_bytes w : wb_remaining w = zlen (wb_bytes w).
Proof. destruct w; simpl; [done|]. rewrite !zlen_app. lia. Qed.

Lemma wb_advance_bytes w n : wb_bytes (wb_advance w n) = zdrop n (wb_bytes w).
Proof.
  destruct w as [b|a b c]; simpl; [done|].
  destruct (Z.leb_spec n (zlen a)); simpl; [by rewrite zdrop_app_l|].
  rewrite (zdrop_app_r n a) by lia.
  destruct (Z.leb_spec (n - zlen a) (zlen b)); simpl; [by rewrite zdrop_app_l|].
  by rewrite zdrop_app_r by lia.
Qed.

(** The loop moves a prefix of the buffer to the wire; only an empty buffer ends
    it, and it fails only on a stream that does. *)
Lemma write_loop_spec evs out buf res evs' out' buf' :
  write_loop evs out buf = (res, evs', out', buf') ->
  exists p, out' = out ++ p /\ wb_bytes buf = p ++ wb_bytes buf' /\ evs' `suffix_of` evs /\
    match res with
    | PollOk => wb_bytes buf' = []
    | PollErr => ~ good_io_stream evs
    | PollPending => (length evs' < length evs)%nat
    end.
Proof.
  revert out buf. induction evs as [|ev evs IH]; intros out buf; simpl;
    destruct (Z.eqb_spec (wb_remaining buf) 0) as [Hz|Hz].
  1,3: intros [= <- <- <- <-]; rewrite wb_remaining_bytes in Hz; apply zlen_zero in Hz;
    exists []; rewrite !app_nil_r, Hz; done.
  - intros [= <- <- <- <-]. exists (wb_bytes buf).
    rewrite wb_advance_bytes, wb_remaining_bytes, zdrop_ge, app_nil_r by lia. done.
  - destruct ev as [n| |].
    + destruct (Z.leb_spec (Z.min n (wb_remaining buf)) 0).
      * intros [= <- <- <- <-]. exists []. rewrite app_nil_r.
        split; [done|]. split; [done|]. split; [by apply suffix_cons_r|].
        rewrite wb_remaining_bytes in *. pose proof (zlen_nonneg (wb_bytes buf)).
        intros Hg. inversion_clear Hg as [|?? Hn _]. simpl in Hn. lia.
      * intros (p & -> & Hp & Hs & Hres)%IH. rewrite wb_advance_bytes in Hp.
        exists (ztake (Z.min n (wb_remaining buf)) (wb_bytes buf) ++ p).
        split; [by rewrite app_assoc|]. split.
        { by rewrite <- app_assoc, <- Hp, ztake_zdrop. }
        split; [by apply suffix_cons_r|]. destruct res; [done| |simpl; lia].
        intros Hg. by inversion_clear Hg.
    + intros [= <- <- <- <-]. exists []. rewrite app_nil_r.
      split; [done|]. split; [done|]. split; [by apply suffix_cons_r|].
      intros Hg. inversion_clear Hg. done.
    + intros [= <- <- <- <-]. exists []. rewrite app_nil_r.
      split; [done|]. split; [done|]. split; [by apply suffix_cons_r|]. simpl. lia.
Qed.

(** ** What the theorems observe of a state *)

Record seen (md : BodyMode) (ws : WriteState) (fin : FinishWriteState) (out : list byte)
    (td : option Z) (s : writer_io) : Prop := {
  seen_mode : body_mode (wr s) = md;
  seen_write : write_state (send_body_state (wr s)) = ws;
  seen_finish : send_finish_state (wr s) = fin;
  seen_out : wr_out s = out;
  seen_td : timeout_duration (send_body_state (wr s)) = td
}.

(** The polls [s'] has used up since [s]. *)
Definition later (s s' : writer_io) : Prop := wr_events s' `suffix_of` wr_events s.
Definition strictly_later (s s' : writer_io) : Prop :=
  later s s' /\ (length (wr_events s') < length (wr_events s))%nat.

Lemma later_good s s' : later s s' -> good_io_stream (wr_events s) -> good_io_stream (wr_events s').
Proof. intros [k Hk] Hg. unfold good_io_stream in Hg. rewrite Hk in Hg. by apply Forall_app in Hg as [_ ?]. Qed.

Lemma wp_wself (Q : BodyWriter -> writer_io -> Prop) Qe Qc s : Q (wr s) s -> wp wself Q Qe Qc s.
Proof. done. Qed.

Lemma wp_wupd f (Q : unit -> writer_io -> Prop) Qe Qc s :
  Q tt (set_wr (f (wr s)) s) -> wp (wupd f) Q Qe Qc s.
Proof. done. Qed.

Lemma wp_poll_write_all_buf keep buf (Q : unit -> writer_io -> Prop) Qe Qc s :
  (forall p rest s', wb_bytes buf = p ++ wb_bytes rest -> wr_out s' = wr_out s ++ p ->
     wr s' = keep rest (wr s) -> later s s' ->
     (wb_bytes rest = [] -> Q tt s') /\
     (~ good_io_stream (wr_events s) -> Qe WriteError s') /\
     (strictly_later s s' -> Qc s')) ->
  wp (poll_write_all_buf keep buf) Q Qe Qc s.
Proof.
  intros H. unfold wp, poll_write_all_buf.
  destruct (write_loop (wr_events s) (wr_out s) buf) as [[[res evs] out] rest] eqn:Hw.
  apply write_loop_spec in Hw as (p & -> & Hp & Hs & Hres).
  set (s' := mkWio _ _ _ _ _). destruct (H p rest s') as (HQ & HE & HC); [done..|].
  destruct res; [by apply HQ|by apply HE|by apply HC].
Qed.

Lemma wp_poll_flush (Q : unit -> writer_io -> Prop) Qe Qc s :
  (forall s', wr s' = wr s -> wr_out s' = wr_out s -> later s s' ->
     (wr_flushed s' = zlen (wr_out s) -> Q tt s') /\
     (~ good_io_stream (wr_events s) -> Qe WriteError s') /\
     (strictly_later s s' -> Qc s')) ->
  wp poll_flush Q Qe Qc s.
Proof.
  intros H. unfold wp, poll_flush, later, strictly_later in *.
  destruct (wr_events s) as [|[n| |] evs] eqn:Hev.
  - eapply H; simpl; done.
  - eapply H; simpl; auto. unfold later. by apply suffix_cons_r.
  - eapply H; simpl; auto; [by apply suffix_cons_r|]. intros Hg. inversion_clear Hg. done.
  - eapply H; simpl; auto; [by apply suffix_cons_r|].
    split; [unfold later; simpl; rewrite Hev; by apply suffix_cons_r|lia].
Qed.

Ltac ww :=
  lazymatch goal with
  | |- wp wself _ _ _ _ => apply wp_wself
  | |- wp (wupd _) _ _ _ _ => apply wp_wupd
  | |- _ => wp_step
  end.

(** ** The async API *)

Definition prefix_out (o wire : list byte) (s : writer_io) : Prop :=
  exists p rest, wire = p ++ rest /\ wr_out s = o ++ p.

Definition wrote (s : writer_io) (e : effect) (res : option Z) (s' : writer_io) : Prop :=
  res = eff_result e /\ wr s' = set_mode (eff_mode e) (wr s) /\
  wr_out s' = wr_out s ++ eff_wire e /\ later s s'.

Lemma set_mode_id w : set_mode (body_mode w) w = w.
Proof. by destruct w. Qed.

(** Writing [buf] and then flushing, as the three modes do. *)
Lemma later_trans s1 s2 s3 : later s1 s2 -> later s2 s3 -> later s1 s3.
Proof. unfold later. intros. by etransitivity. Qed.

Lemma wrote_nothing s res :
  wrote s (mkEffect [] res (body_mode (wr s))) res s.
Proof. split; [done|]. simpl. rewrite set_mode_id, app_nil_r. unfold later. done. Qed.

Lemma not_good_later s s' :
  later s s' -> ~ good_io_stream (wr_events s') -> ~ good_io_stream (wr_events s).
Proof. intros Hl Hb Hg. by eapply Hb, later_good. Qed.

Lemma prefix_out_full o wire s : wr_out s = o ++ wire -> prefix_out o wire s.
Proof. exists wire, []. by rewrite app_nil_r. Qed.

Section async.
Context (s : writer_io) (b : list byte).

Definition async_err (e : ErrorType) (s' : writer_io) : Prop :=
  e = WriteError /\ ~ good_io_stream (wr_events s) /\
  prefix_out (wr_out s) (eff_wire (write_effect (body_mode (wr s)) b)) s'.
Definition async_cancel (s' : writer_io) : Prop :=
  prefix_out (wr_out s) (eff_wire (write_effect (body_mode (wr s)) b)) s' /\ wr s' = wr s \/
  wr_out s' = wr_out s ++ eff_wire (write_effect (body_mode (wr s)) b).

Lemma write_all_async buf (Q : unit -> writer_io -> Prop) :
  wb_bytes buf = eff_wire (write_effect (body_mode (wr s)) b) ->
  (forall s', wr s' = wr s -> wr_out s' = wr_out s ++ wb_bytes buf -> later s s' -> Q tt s') ->
  wp (poll_write_all_buf (fun _ w => w) buf) Q async_err async_cancel s.
Proof.
  intros Hw HQ. apply wp_poll_write_all_buf. intros p rest s' Hp Ho Hwr Hl.
  split; [|split].
  - intros Hr. rewrite Hr, app_nil_r in Hp. apply HQ; [done| |done]. by rewrite Hp.
  - intros Hb. split; [done|]. split; [done|]. exists p, (wb_bytes rest). by rewrite <- Hw.
  - intros _. left. split; [|done]. exists p, (wb_bytes rest). by rewrite <- Hw.
Qed.

Lemma flush_async s1 (Q : unit -> writer_io -> Prop) :
  wr_out s1 = wr_out s ++ eff_wire (write_effect (body_mode (wr s)) b) -> later s s1 ->
  (forall s', wr s' = wr s1 -> wr_out s' = wr_out s1 -> later s s' -> Q tt s') ->
  wp poll_flush Q async_err async_cancel s1.
Proof.
  intros Ho Hl HQ. apply wp_poll_flush. intros s' Hwr Ho' Hl'. split; [|split].
  - intros _. apply HQ; eauto using later_trans.
  - intros Hb. split; [done|]. split; [by eapply not_good_later|].
    apply prefix_out_full. by rewrite Ho', Ho.
  - intros _. right. by rewrite Ho', Ho.
Qed.

Lemma write_body_effect :
  mode_ok (body_mode (wr s)) ->
  wp (write_body b) (wrote s (write_effect (body_mode (wr s)) b)) async_err async_cancel s.
Proof.
  intros Hok. unfold write_body. ww. ww. pose proof (zlen_nonneg b) as Hb0.
  destruct (body_mode (wr s)) as [|total written|written|written|written] eqn:Hm.
  1,5: ww; simpl; rewrite <- Hm; apply wrote_nothing.
  - unfold do_write_body. ww. ww. rewrite Hm. simpl in Hok.
    destruct (Z.leb_spec total written) as [Hle|Hlt].
    { ww. simpl. destruct (Z.leb_spec total written); [|lia]. rewrite <- Hm. apply wrote_nothing. }
    assert (Hn : (if wsub total written <? zlen b then wsub total written else zlen b)
                 = Z.min (total - written) (zlen b)).
    { rewrite wsub_small by lia. destruct (Z.ltb_spec (total - written) (zlen b)); lia. }
    rewrite Hn. set (n := Z.min _ _) in *.
    assert (Heff : write_effect (ContentLength total written) b =
                   mkEffect (ztake n b) (Some n) (ContentLength total (written + n))).
    { simpl. by destruct (Z.leb_spec total written); [lia|]. }
    ww. eapply wp_unwrap.
    { rewrite slice_Some by lia. by rewrite zdrop_0, Z.sub_0_r. }
    ww. apply write_all_async; [by rewrite Hm, Heff|]. simpl. intros s1 Hwr Ho Hl.
    ww. ww. ww. ww. ww. rewrite wadd_small by lia.
    assert (Hfin : forall s', wr s' = set_mode (ContentLength total (written + n)) (wr s1) ->
              wr_out s' = wr_out s1 -> later s s' ->
              wrote s (write_effect (ContentLength total written) b) (Some n) s').
    { intros s' H1 H2 H3. rewrite Heff. split; [done|]. simpl. by rewrite H1, H2, Hwr, Ho. }
    destruct (finished _).
    + apply flush_async; [by rewrite Hm, Heff|done|]. intros s' H1 H2 H3. ww.
      apply Hfin; [by rewrite H1|by rewrite H2|done].
    + ww. ww. by apply Hfin.
  - unfold do_write_chunked_body. ww. ww. rewrite Hm.
    destruct (Z.eqb_spec (zlen b) 0) as [Hz|Hz].
    { apply zlen_zero in Hz. ww. simpl. rewrite bool_decide_true by done.
      rewrite <- Hm. apply wrote_nothing. }
    assert (Heff : write_effect (ChunkedEncoding written) b =
      mkEffect (hex_line (zlen b) ++ b ++ CRLF) (Some (zlen b))
        (ChunkedEncoding (wadd written (zlen b)))).
    { simpl. by rewrite bool_decide_false by (by intros ->). }
    ww. apply write_all_async; [by rewrite Hm, Heff|]. intros s1 Hwr Ho Hl.
    ww. apply flush_async; [by rewrite Hm, Heff|done|]. intros s2 H1 H2 H3.
    ww. ww. ww. rewrite Heff. split; [done|]. simpl. by rewrite H1, H2, Hwr, Ho.
  - unfold do_write_until_close_body. ww. ww. rewrite Hm.
    ww. apply write_all_async; [by rewrite Hm|]. intros s1 Hwr Ho Hl.
    ww. ww. ww. apply flush_async; [by rewrite Hm|done|]. intros s2 H1 H2 H3.
    ww. split; [done|]. simpl in *. by rewrite H1, H2, Hwr, Ho.
Qed.

End async.

(** ** The body task *)

Section task.
Context (m : BodyMode) (o b : list byte) (td : option Z) (fin : FinishWriteState).
Let eff := write_effect m b.

(** Where a task for [b], started in mode [m] with [o] on the wire, can be
    between two polls. *)
Inductive task_at (s : writer_io) : Prop :=
| ta_idle :
    seen m WIdle fin o td s -> pending_bytes (send_body_state (wr s)) = Some b -> task_at s
| ta_writing n buf p :
    seen m (Writing n buf) fin (o ++ p) td s -> eff_wire eff = p ++ wb_bytes buf ->
    eff_result eff = Some n -> task_at s
| ta_flushing n :
    seen (eff_mode eff) (Flushing n) fin (o ++ eff_wire eff) td s -> eff_result eff = Some n ->
    task_at s.

(** The task is over; the next one can be queued. *)
Definition task_done (s : writer_io) : Prop :=
  exists ws, seen (eff_mode eff) ws fin (o ++ eff_wire eff) td s /\
    match ws with WIdle | WDone _ => True | _ => False end.

Definition timed_out (s : writer_io) : Prop :=
  td <> None /\ write_state (send_body_state (wr s)) = TimedOut /\ prefix_out o (eff_wire eff) s.

Definition poll_val (s0 : writer_io) (res : option Z) (s : writer_io) : Prop :=
  res = eff_result eff /\ task_done s /\ later s0 s.
Definition poll_err (s0 : writer_io) (e : ErrorType) (s : writer_io) : Prop :=
  e = WriteError /\ ~ good_io_stream (wr_events s0) /\ task_at s /\ later s0 s.
Definition poll_pending (s0 s : writer_io) : Prop := task_at s /\ strictly_later s0 s.

Lemma strictly_later_trans s1 s2 s3 : later s1 s2 -> strictly_later s2 s3 -> strictly_later s1 s3.
Proof.
  intros H1 [H2 H3]. split; [by eapply later_trans|]. apply suffix_length in H1. lia.
Qed.

(** The result of a task that has finished its phases. *)
Lemma task_result_ok s0 s n :
  seen (eff_mode eff) (WDone n) fin (o ++ eff_wire eff) td s -> eff_result eff = Some n ->
  later s0 s -> wp task_result (poll_val s0) (poll_err s0) (poll_pending s0) s.
Proof.
  intros [Hmd Hws Hfin Ho Htd] Hn Hl. unfold task_result. ww. ww. rewrite Hws. ww. ww. ww.
  split; [done|]. split; [|done]. exists (WDone n). by split; [split|].
Qed.

Lemma flush_tail_ok s0 s n :
  seen (eff_mode eff) (Flushing n) fin (o ++ eff_wire eff) td s \/
    seen (eff_mode eff) (WDone n) fin (o ++ eff_wire eff) td s ->
  eff_result eff = Some n -> later s0 s ->
  wp (do! flush_phase; task_result) (poll_val s0) (poll_err s0) (poll_pending s0) s.
Proof.
  intros [[Hmd Hws Hfin Ho Htd]|Hdone] Hn Hl; ww; unfold flush_phase; ww; ww.
  - rewrite Hws. ww. apply wp_poll_flush. intros s' Hwr Ho' Hl'.
    assert (seen (eff_mode eff) (Flushing n) fin (o ++ eff_wire eff) td s')
      by (split; rewrite ?Hwr, ?Ho'; done).
    split; [|split].
    + intros _. ww. apply (task_result_ok s0 _ n); [|done|].
      * split; simpl; rewrite ?Hwr, ?Ho'; done.
      * by eapply later_trans.
    + intros Hb. split; [done|]. split; [by eapply not_good_later|].
      split; [by eapply ta_flushing|by eapply later_trans].
    + intros Hs. split; [by eapply ta_flushing|by eapply strictly_later_trans].
  - rewrite (seen_write _ _ _ _ _ _ Hdone). ww. by eapply task_result_ok.
Qed.

(** What a mode's bookkeeping after a completed write must do. *)
Definition accounts (account : Z -> WM WriteState) : Prop :=
  forall s n, body_mode (wr s) = m -> eff_result eff = Some n ->
    exists ws, account n s = Val ws (set_wr (set_mode (eff_mode eff) (wr s)) s) /\
      (ws = Flushing n \/ ws = WDone n).

Lemma write_tail_ok account s0 s n buf p :
  accounts account -> seen m (Writing n buf) fin (o ++ p) td s ->
  eff_wire eff = p ++ wb_bytes buf -> eff_result eff = Some n -> later s0 s ->
  wp (do! write_phase account; do! flush_phase; task_result)
    (poll_val s0) (poll_err s0) (poll_pending s0) s.
Proof.
  intros Hacc [Hmd Hws Hfin Ho Htd] Hw Hn Hl. ww. unfold write_phase. ww. ww. rewrite Hws.
  ww. apply wp_poll_write_all_buf. intros q rest s' Hq Ho' Hwr Hl'.
  assert (Hat : task_at s').
  { eapply (ta_writing s' n rest (p ++ q)); [|by rewrite Hw, Hq, app_assoc|done].
    split; rewrite ?Hwr, ?Ho', ?Ho; simpl; rewrite ?app_assoc; done. }
  split; [|split].
  - intros Hr. destruct (Hacc s' n) as (ws & Hrun & Hcase); [by rewrite Hwr|done|].
    ww. unfold wp at 1. rewrite Hrun. ww.
    apply (flush_tail_ok s0 _ n); [|done|].
    + rewrite Hr, app_nil_r in Hq.
      destruct Hcase as [-> | ->]; [left|right]; split; simpl; rewrite ?Hwr; auto;
        by rewrite Ho', Ho, Hw, Hq, app_assoc.
    + by eapply later_trans.
  - intros Hb. split; [done|]. split; [by eapply not_good_later|].
    split; [done|by eapply later_trans].
  - intros Hs. split; [done|by eapply strictly_later_trans].
Qed.

(** What a mode's setup must do with the pending bytes: start writing the
    frame, or return at once when there is nothing to put on the wire. *)
Definition sets_up (setup : WM (option (option Z))) : Prop :=
  forall s, seen m WIdle fin o td s -> pending_bytes (send_body_state (wr s)) = Some b ->
    exists s', later s s' /\
      ((exists r, setup s = Val (Some r) s' /\ r = eff_result eff /\ task_done s') \/
       (exists n buf, setup s = Val None s' /\ seen m (Writing n buf) fin o td s' /\
          eff_wire eff = wb_bytes buf /\ eff_result eff = Some n)).

Definition keeps_task (setup : WM (option (option Z))) : Prop :=
  forall s, write_state (send_body_state (wr s)) <> WIdle -> setup s = Val None s.

Lemma mode_task_ok setup account s :
  sets_up setup -> keeps_task setup -> accounts account -> task_at s ->
  wp (let! early := setup in
      match early with
      | Some r => ret r
      | None => do! write_phase account; do! flush_phase; task_result
      end) (poll_val s) (poll_err s) (poll_pending s) s.
Proof.
  intros Hset Hkeep Hacc Hat. assert (Hrefl : later s s) by (unfold later; done).
  destruct Hat as [Hs Hp|n buf p Hs Hw Hn|n Hs Hn]; ww; unfold wp at 1.
  - destruct (Hset s Hs Hp) as (s' & Hl & [(r & -> & Hr & Hd)|(n & buf & -> & Hs' & Hw & Hn)]).
    + ww. by split.
    + eapply (write_tail_ok account s s' n buf []); [done| |by rewrite Hw|done|done].
      by rewrite app_nil_r.
  - rewrite Hkeep by (by rewrite (seen_write _ _ _ _ _ _ Hs)). by eapply write_tail_ok.
  - pose proof (seen_write _ _ _ _ _ _ Hs) as Hws. rewrite Hkeep by (by rewrite Hws).
    ww. unfold write_phase. ww. ww. rewrite Hws. ww. eapply flush_tail_ok; eauto.
Qed.

End task.

(** ** The three modes *)

Section modes.
Context (o b : list byte) (td : option Z) (fin : FinishWriteState).

Lemma content_length_sets_up total written :
  mode_ok (ContentLength total written) ->
  sets_up (ContentLength total written) o b td fin content_length_setup.
Proof.
  intros Hok s [Hmd Hws Hfin Ho Htd] Hp. simpl in Hok. pose proof (zlen_nonneg b).
  unfold content_length_setup, bind, wself. rewrite Hws, Hp. simpl. rewrite Hmd. simpl.
  destruct (Z.leb_spec total written) as [Hle|Hlt].
  - eexists. split; [|left; eexists; split; [reflexivity|]]; [unfold later; done|].
    split; [done|]. exists (WDone 0). simpl. destruct (Z.leb_spec total written); [|lia].
    split; [|done]. split; simpl; rewrite ?app_nil_r; done.
  - rewrite wsub_small by lia.
    eexists. split; [|right; eexists _, _; split; [reflexivity|]]; [unfold later; done|].
    split; [by split|]. simpl. destruct (Z.ltb_spec (total - written) (zlen b)).
    + rewrite Z.min_l, zlen_ztake, Z.min_l by lia. done.
    + rewrite Z.min_r, ztake_ge by lia. done.
Qed.

Lemma content_length_accounts total written :
  mode_ok (ContentLength total written) ->
  accounts (ContentLength total written) b content_length_account.
Proof.
  intros Hok s n Hmd Hn. simpl in *. pose proof (zlen_nonneg b).
  destruct (Z.leb_spec total written); [done|]. simpl in *. injection Hn as <-.
  unfold content_length_account, bind, wself. simpl. rewrite Hmd. simpl.
  rewrite wadd_small by lia. eexists. split; [reflexivity|]. case_match; auto.
Qed.

Lemma chunked_sets_up written :
  sets_up (ChunkedEncoding written) o b td fin chunked_setup.
Proof.
  intros s [Hmd Hws Hfin Ho Htd] Hp. unfold chunked_setup, bind, wself. rewrite Hws, Hp. simpl.
  destruct (Z.eqb_spec (zlen b) 0) as [Hz|Hz].
  - apply zlen_zero in Hz. rewrite bool_decide_true by done.
    eexists. split; [|left; eexists; split; [reflexivity|]]; [unfold later; done|].
    split; [done|]. exists (WDone 0). simpl. rewrite bool_decide_true by done.
    split; [|done]. split; simpl; rewrite ?app_nil_r; done.
  - rewrite bool_decide_false by (by intros ->).
    eexists. split; [|right; eexists _, _; split; [reflexivity|]]; [unfold later; done|].
    by split; [split|].
Qed.

Lemma chunked_accounts written :
  mode_ok (ChunkedEncoding written) -> accounts (ChunkedEncoding written) b chunked_account.
Proof.
  intros Hok s n Hmd Hn. simpl in *. unfold chunked_account, bind, wself. simpl.
  rewrite Hmd. simpl. eexists. split; [|by left]. case_bool_decide; simpl in *; simplify_eq.
  - by rewrite wadd_0.
  - done.
Qed.

Lemma until_close_sets_up written :
  sets_up (UntilCloseMode written) o b td fin until_close_setup.
Proof.
  intros s [Hmd Hws Hfin Ho Htd] Hp. unfold until_close_setup, bind, wself. rewrite Hws, Hp.
  eexists. split; [|right; eexists _, _; split; [reflexivity|]]; [unfold later; done|].
  by split; [split|].
Qed.

Lemma until_close_accounts written :
  accounts (UntilCloseMode written) b until_close_account.
Proof.
  intros s n Hmd Hn. simpl in *. simplify_eq. unfold until_close_account, bind, wself. simpl.
  rewrite Hmd. eexists. split; [reflexivity|]. by left.
Qed.

Lemma setups_keep :
  keeps_task content_length_setup /\ keeps_task chunked_setup /\ keeps_task until_close_setup.
Proof.
  repeat split; intros s Hs;
    unfold content_length_setup, chunked_setup, until_close_setup, bind, wself;
    by destruct (write_state (send_body_state (wr s))).
Qed.

(** ** One poll of the task *)

Definition task_err (m : BodyMode) (s0 : writer_io) (e : ErrorType) (s : writer_io) : Prop :=
  poll_err m o b td fin s0 e s \/ (e = WriteTimedout /\ timed_out m o b td s).

Lemma task_at_mode m s :
  task_at m o b td fin s ->
  write_state (send_body_state (wr s)) <> TimedOut /\
  (body_mode (wr s) = m \/ body_mode (wr s) = eff_mode (write_effect m b)) /\
  timeout_duration (send_body_state (wr s)) = td /\
  prefix_out o (eff_wire (write_effect m b)) s.
Proof.
  destruct 1 as [[Hmd Hws Hfin Ho Htd] _|n buf p [Hmd Hws Hfin Ho Htd] Hw _
                |n [Hmd Hws Hfin Ho Htd] _]; rewrite Hws; (split; [done|]);
    (split; [auto|]); (split; [done|]).
  - exists [], (eff_wire (write_effect m b)). by rewrite app_nil_r.
  - by exists p, (wb_bytes buf).
  - by apply prefix_out_full.
Qed.

(** The dispatch on the mode: the mode of a task in progress is [m], or [m]
    after its write, which is handled by the same function. *)
Definition mode_poll (m : BodyMode) : WM (option Z) :=
  match m with
  | CompleteMode _ | ToSelect => ret None
  | ContentLength _ _ => poll_write_content_length_body_task
  | ChunkedEncoding _ => poll_write_chunked_body_task
  | UntilCloseMode _ => poll_write_until_close_body_task
  end.

Lemma mode_poll_effect m : mode_poll (eff_mode (write_effect m b)) = mode_poll m.
Proof. destruct m; simpl; try done; by case_match. Qed.

Lemma mode_poll_ok m s :
  mode_ok m -> task_at m o b td fin s ->
  wp (mode_poll m) (poll_val m o b td fin s) (poll_err m o b td fin s)
    (poll_pending m o b td fin s) s.
Proof.
  intros Hok Hat. destruct setups_keep as (Hk1 & Hk2 & Hk3).
  destruct m as [|total written|written|written|written]; simpl.
  1,5: destruct Hat as [Hs Hp|n buf p _ _ Hn|n _ Hn]; [|done..]; ww;
    split; [done|]; split; [|unfold later; done]; exists WIdle; simpl; by rewrite app_nil_r.
  - apply mode_task_ok; auto using content_length_sets_up, content_length_accounts.
  - apply mode_task_ok; auto using chunked_sets_up, chunked_accounts.
  - apply mode_task_ok; auto using until_close_sets_up, until_close_accounts.
Qed.

Lemma task_at_timer m t s x :
  task_at m o b td fin s ->
  task_at m o b td fin
    (mkWio (set_timer t (wr s)) (wr_out s) (wr_flushed s) (wr_events s) x).
Proof.
  destruct 1 as [[Hmd Hws Hfin Ho Htd] Hp|n buf p [Hmd Hws Hfin Ho Htd] Hw Hn
                |n [Hmd Hws Hfin Ho Htd] Hn].
  - by apply ta_idle.
  - by apply (ta_writing m o b td fin _ n buf p).
  - by apply (ta_flushing m o b td fin _ n).
Qed.

Lemma poll_task_ok m s :
  mode_ok m -> task_at m o b td fin s ->
  wp poll_write_current_body_task (poll_val m o b td fin s) (task_err m s)
    (poll_pending m o b td fin s) s.
Proof.
  intros Hok Hat. destruct (task_at_mode _ _ Hat) as (Hto & Hmd & Htd & _).
  assert (Hrun : poll_write_current_body_task s =
    match mode_poll m s with Cancelled s' => check_timeout s' | r => r end).
  { unfold poll_write_current_body_task, bind, wself.
    assert (mode_poll (body_mode (wr s)) = mode_poll m) as <-
      by (destruct Hmd as [-> | ->]; [done|apply mode_poll_effect]).
    destruct (body_mode (wr s)); simpl;
      destruct (write_state (send_body_state (wr s))); try done; by case_match. }
  pose proof (mode_poll_ok m s Hok Hat) as H. unfold wp in *. rewrite Hrun.
  destruct (mode_poll m s) as [res s'|e s'|s'|]; [done|by left| |done].
  destruct H as [Hat' [Hl Hlt]]. unfold check_timeout.
  destruct (task_at_mode _ _ Hat') as (_ & _ & Htd' & Hpre).
  destruct (timeout_duration (send_body_state (wr s'))) as [d|]; [|done]. simpl.
  destruct (head (wr_timer s')) as [[|]|]; simpl.
  - right. split; [done|]. split; [by rewrite <- Htd'|]. split; [done|]. apply Hpre.
  - split; [by apply task_at_timer|done].
  - split; [by apply task_at_timer|done].
Qed.

End modes.

(** ** Any schedule of polls *)

(** [s'] is reached from [s] by polls that were pending (the future may have
    been dropped after each) or failed to write (and were tried again). *)
Inductive polled (s : writer_io) : writer_io -> Prop :=
| polled_refl : polled s s
| polled_pending s1 s2 :
    polled s s1 -> poll_write_current_body_task s1 = Cancelled s2 -> polled s s2
| polled_error s1 s2 :
    polled s s1 -> poll_write_current_body_task s1 = Fail WriteError s2 -> polled s s2.

Lemma polled_task_at m o b td fin s s' :
  mode_ok m -> task_at m o b td fin s -> polled s s' -> task_at m o b td fin s'.
Proof.
  intros Hok Hat Hp. induction Hp as [|s1 s2 _ IH Hr|s1 s2 _ IH Hr]; [done| |];
    pose proof (poll_task_ok o b td fin m s1 Hok IH) as H; unfold wp in H; rewrite Hr in H.
  - apply H.
  - by destruct H as [(_ & _ & H & _)|[H _]].
Qed.

Lemma send_task_at bytes td s w :
  send_body_task bytes td (wr s) = Some w ->
  task_at (body_mode (wr s)) (wr_out s) bytes td (send_finish_state (wr s)) (set_wr w s).
Proof.
  unfold send_body_task. intros H. apply ta_idle.
  - split; simpl; destruct (write_state (send_body_state (wr s))); simplify_eq; done.
  - simpl. destruct (write_state (send_body_state (wr s))); simplify_eq; done.
Qed.

(** ** Running to completion *)

Fixpoint drive {A} (poll : WM A) (fuel : nat) (s : writer_io) : option (A * writer_io) :=
  match fuel with
  | O => None
  | S fuel =>
      match poll s with
      | Val a s' => Some (a, s')
      | Cancelled s' => drive poll fuel s'
      | Fail _ _ | Panic => None
      end
  end.

Lemma drive_task m o b fin fuel s :
  mode_ok m -> task_at m o b None fin s -> good_io_stream (wr_events s) ->
  (length (wr_events s) < fuel)%nat ->
  exists s', drive poll_write_current_body_task fuel s =
      Some (eff_result (write_effect m b), s') /\
    task_done m o b None fin s' /\ later s s'.
Proof.
  intros Hok. revert s. induction fuel as [|fuel IH]; intros s Hat Hg Hf; [lia|].
  pose proof (poll_task_ok o b None fin m s Hok Hat) as H. unfold wp in H. simpl.
  destruct (poll_write_current_body_task s) as [res s'|e s'|s'|]; [| | |done].
  - destruct H as (-> & Hd & Hl). eauto.
  - destruct H as [(_ & Hb & _)|(_ & Htd & _)]; done.
  - destruct H as [Hat' [Hl Hlt]].
    destruct (IH s' Hat') as (s2 & -> & Hd & Hl2); [by eapply later_good|lia|].
    exists s2. eauto using later_trans.
Qed.

(** The wire bytes of a whole sequence of writes, and the mode after it. *)
Fixpoint wire (m : BodyMode) (bs : list (list byte)) : list byte :=
  match bs with
  | [] => []
  | b :: bs => eff_wire (write_effect m b) ++ wire (eff_mode (write_effect m b)) bs
  end.
Fixpoint mode_after (m : BodyMode) (bs : list (list byte)) : BodyMode :=
  match bs with
  | [] => m
  | b :: bs => mode_after (eff_mode (write_effect m b)) bs
  end.

(** Queue and drive each buffer in turn, with at most [fuel] polls each. *)
Fixpoint write_tasks (fuel : nat) (bs : list (list byte)) (s : writer_io) : option writer_io :=
  match bs with
  | [] => Some s
  | b :: bs =>
      match send_body_task b None (wr s) with
      | None => None
      | Some w =>
          match drive poll_write_current_body_task fuel (set_wr w s) with
          | Some (_, s') => write_tasks fuel bs s'
          | None => None
          end
      end
  end.

Definition ready_for_task (w : BodyWriter) : Prop :=
  match write_state (send_body_state w) with WIdle | WDone _ => True | _ => False end.

Lemma write_tasks_wire fuel bs s :
  mode_ok (body_mode (wr s)) -> ready_for_task (wr s) -> good_io_stream (wr_events s) ->
  (length (wr_events s) < fuel)%nat ->
  exists s', write_tasks fuel bs s = Some s' /\
    wr_out s' = wr_out s ++ wire (body_mode (wr s)) bs /\
    body_mode (wr s') = mode_after (body_mode (wr s)) bs /\
    send_finish_state (wr s') = send_finish_state (wr s) /\ later s s'.
Proof.
  revert s. induction bs as [|b bs IH]; intros s Hok Hr Hg Hf.
  { exists s. rewrite app_nil_r. unfold later. done. }
  simpl. destruct (send_body_task b None (wr s)) as [w|] eqn:Hsend.
  2: { unfold send_body_task, ready_for_task in *. by destruct (write_state _). }
  apply send_task_at in Hsend.
  destruct (drive_task _ _ _ _ fuel _ Hok Hsend) as (s1 & -> & (ws & Hs & Hws) & Hl); [done..|].
  destruct Hs as [Hmd Hw Hfin Ho Htd].
  destruct (IH s1) as (s2 & -> & Ho2 & Hm2 & Hf2 & Hl2).
  - rewrite Hmd. by apply write_effect_ok.
  - unfold ready_for_task. by rewrite Hw.
  - by eapply later_good.
  - unfold later in Hl. apply suffix_length in Hl. simpl in Hl. lia.
  - exists s2. rewrite Ho2, Hm2, Hf2, Ho, Hmd, Hfin, app_assoc.
    split; [done|]. split; [done|]. split; [done|]. split; [done|]. by eapply later_trans.
Qed.

(** ** The finish task of a chunked body *)

Section finish_task.
Context (written : Z) (o : list byte).

Inductive finish_at (s : writer_io) : Prop :=
| fa_idle :
    body_mode (wr s) = ChunkedEncoding written -> send_finish_state (wr s) = FIdle ->
    wr_out s = o -> finish_at s
| fa_writing buf p :
    body_mode (wr s) = ChunkedEncoding written ->
    send_finish_state (wr s) = WritingLastChunk buf ->
    wr_out s = o ++ p -> LAST_CHUNK = p ++ wb_bytes buf -> finish_at s
| fa_flushing :
    body_mode (wr s) = ChunkedEncoding written -> send_finish_state (wr s) = FFlushing ->
    wr_out s = o ++ LAST_CHUNK -> finish_at s.

Definition finish_done (s : writer_io) : Prop :=
  body_mode (wr s) = CompleteMode written /\ send_finish_state (wr s) = FDone /\
  wr_out s = o ++ LAST_CHUNK /\ wr_flushed s = zlen (wr_out s).

Definition finish_val (s0 : writer_io) (res : option Z) (s : writer_io) : Prop :=
  res = Some written /\ finish_done s /\ later s0 s.
Definition finish_err (s0 : writer_io) (e : ErrorType) (s : writer_io) : Prop :=
  e = WriteError /\ ~ good_io_stream (wr_events s0) /\ finish_at s.
Definition finish_pending (s0 s : writer_io) : Prop := finish_at s /\ strictly_later s0 s.

Lemma finish_flush_ok s0 s :
  body_mode (wr s) = ChunkedEncoding written -> send_finish_state (wr s) = FFlushing ->
  wr_out s = o ++ LAST_CHUNK -> later s0 s ->
  wp (finish_flush written) (finish_val s0) (finish_err s0) (finish_pending s0) s.
Proof.
  intros Hm Hf Ho Hl. unfold finish_flush. ww. apply wp_poll_flush. intros s' Hwr Ho' Hl'.
  assert (Hat : finish_at s') by (apply fa_flushing; rewrite ?Hwr, ?Ho'; done).
  split; [|split].
  - intros Hfl. repeat ww. split; [done|]. split; [|by eapply later_trans].
    split; [done|]. split; [done|]. simpl. by rewrite Hfl, Ho'.
  - intros Hb. split; [done|]. split; [by eapply not_good_later|done].
  - intros Hs. split; [done|by eapply strictly_later_trans].
Qed.

Lemma finish_write_ok s0 s buf p :
  body_mode (wr s) = ChunkedEncoding written -> wr_out s = o ++ p ->
  LAST_CHUNK = p ++ wb_bytes buf -> later s0 s ->
  wp (finish_write written buf) (finish_val s0) (finish_err s0) (finish_pending s0) s.
Proof.
  intros Hm Ho Hw Hl. unfold finish_write. ww. apply wp_poll_write_all_buf.
  intros q rest s' Hq Ho' Hwr Hl'.
  assert (Hat : finish_at s').
  { apply (fa_writing s' rest (p ++ q)); rewrite ?Hwr; simpl; [done|done| |].
    - by rewrite Ho', Ho, app_assoc.
    - by rewrite Hw, Hq, app_assoc. }
  split; [|split].
  - intros Hr. rewrite Hr, app_nil_r in Hq. ww. ww.
    apply finish_flush_ok; simpl; [by rewrite Hwr|done| |by eapply later_trans].
    by rewrite Ho', Ho, Hw, Hq, app_assoc.
  - intros Hb. split; [done|]. split; [by eapply not_good_later|done].
  - intros Hs. split; [done|by eapply strictly_later_trans].
Qed.

Lemma poll_finish_ok s :
  finish_at s ->
  wp poll_write_current_finish_task (finish_val s) (finish_err s) (finish_pending s) s.
Proof.
  intros Hat. assert (Hrefl : later s s) by (unfold later; done).
  unfold poll_write_current_finish_task, poll_finish_chunked_task. ww. ww.
  destruct Hat as [Hm Hf Ho|buf p Hm Hf Ho Hw|Hm Hf Ho]; rewrite Hf, Hm; ww; ww; rewrite Hm, Hf;
    ww; (eapply wp_unwrap; [reflexivity|]).
  - ww. ww. apply (finish_write_ok _ _ _ []); rewrite ?app_nil_r; done.
  - by eapply finish_write_ok.
  - by apply finish_flush_ok.
Qed.

Lemma drive_finish fuel s :
  finish_at s -> good_io_stream (wr_events s) -> (length (wr_events s) < fuel)%nat ->
  exists s', drive poll_write_current_finish_task fuel s = Some (Some written, s') /\
    finish_done s'.
Proof.
  revert s. induction fuel as [|fuel IH]; intros s Hat Hg Hf; [lia|].
  pose proof (poll_finish_ok s Hat) as H. unfold wp in H. simpl.
  destruct (poll_write_current_finish_task s) as [res s'|e s'|s'|]; [| | |done].
  - destruct H as (-> & Hd & Hl). eauto.
  - destruct H as (_ & Hb & _). done.
  - destruct H as [Hat' [Hl Hlt]]. apply IH; [done|by eapply later_good|lia].
Qed.

End finish_task.

(** ** A chunked body, from the first buffer to the last chunk *)

Definition chunked_session (fuel : nat) (bs : list (list byte)) (s : writer_io)
    : option (option Z * writer_io) :=
  match write_tasks fuel bs s with
  | None => None
  | Some s' => drive poll_write_current_finish_task fuel (set_wr (send_finish_task (wr s')) s')
  end.

Definition start_chunked (evs : list wr_event) : writer_io :=
  mkWio (writer_init_chunked writer_new) [] 0 evs [].

(** The chunks a sequence of buffers is sent as: empty buffers send none. *)
Definition chunks_of (bs : list (list byte)) : list chunk :=
  map (fun b => {| c_line := hex_line (zlen b); c_data := b |}) (filter (fun b => b <> []) bs).

Lemma chunked_wire bs w : wire (ChunkedEncoding w) bs = enc_chunks (chunks_of bs).
Proof.
  revert w. induction bs as [|b bs IH]; intros w; [done|]. unfold chunks_of in *. simpl.
  rewrite filter_cons. case_bool_decide as Hb.
  - subst b. simpl. apply IH.
  - rewrite decide_True by done. simpl. rewrite IH. unfold enc_chunks. simpl.
    unfold enc_chunk at 2. simpl. by rewrite !app_assoc.
Qed.

Lemma chunked_mode_after bs w :
  is_usize w -> mode_after (ChunkedEncoding w) bs = ChunkedEncoding (wadd w (zlen (concat bs))).
Proof.
  revert w. induction bs as [|b bs IH]; intros w Hw; simpl; [by rewrite wadd_0|].
  case_bool_decide as Hb; simpl.
  - subst b. by apply IH.
  - rewrite IH by apply wadd_usize. by rewrite wadd_wadd, zlen_app.
Qed.

Lemma chunks_of_payload bs : payload (chunks_of bs) = concat bs.
Proof.
  unfold payload, chunks_of. rewrite map_map. simpl.
  induction bs as [|b bs IH]; [done|]. rewrite filter_cons. case_decide as Hb; simpl.
  - by rewrite IH.
  - by rewrite Hb, IH.
Qed.

Lemma chunk_len_le bs b : b ∈ bs -> zlen b <= zlen (enc_chunks (chunks_of bs)).
Proof.
  unfold chunks_of, enc_chunks.
  induction bs as [|b' bs IH]; intros Hb; [by apply elem_of_nil in Hb|].
  rewrite filter_cons. pose proof (zlen_nonneg b').
  apply elem_of_cons in Hb as [-> |Hb]; case_decide as Hne; simpl; rewrite ?zlen_app.
  - unfold enc_chunk at 1. simpl. rewrite !zlen_app. pose proof (zlen_nonneg (hex_line (zlen b'))).
    match goal with |- context [concat ?l] => pose proof (zlen_nonneg (concat l)) end.
    change (zlen CRLF) with 2. lia.
  - rewrite Hne. apply zlen_nonneg.
  - specialize (IH Hb). match goal with |- context [zlen (enc_chunk ?c)] =>
      pose proof (zlen_nonneg (enc_chunk c)) end. lia.
  - by apply IH.
Qed.

Lemma message_prefix_len cs last ts E :
  zlen (message cs last ts ++ E) <= isize_max -> zlen (enc_chunks cs) <= isize_max.
Proof.
  unfold message. rewrite !zlen_app. pose proof (zlen_nonneg last).
  pose proof (zlen_nonneg (enc_trailers ts)). pose proof (zlen_nonneg E). lia.
Qed.

Lemma chunks_of_ok parse bs :
  HexLines parse -> zlen (enc_chunks (chunks_of bs)) <= isize_max ->
  Forall (chunk_ok parse) (chunks_of bs).
Proof.
  intros Hhex Hlen. apply Forall_fmap, Forall_forall. intros b [Hne Hb]%list_elem_of_filter.
  apply chunk_len_le in Hb. split; [|done]. simpl. apply Hhex.
  pose proof (zlen_nonneg b). unfold isize_max in Hlen. uz.
Qed.

Lemma chunked_session_wire fuel bs evs :
  good_io_stream evs -> (length evs < fuel)%nat ->
  exists s', chunked_session fuel bs (start_chunked evs)
      = Some (Some (wadd 0 (zlen (concat bs))), s') /\
    wr_out s' = message (chunks_of bs) (hex_line 0) [] /\ wr_flushed s' = zlen (wr_out s') /\
    body_mode (wr s') = CompleteMode (wadd 0 (zlen (concat bs))).
Proof.
  intros Hg Hf. unfold chunked_session.
  destruct (write_tasks_wire fuel bs (start_chunked evs)) as (s1 & -> & Ho & Hm & Hfin & Hl);
    [done..|].
  simpl in *. rewrite chunked_mode_after in Hm by done. rewrite chunked_wire in Ho.
  destruct (drive_finish (wadd 0 (zlen (concat bs))) (wr_out s1) fuel
              (set_wr (send_finish_task (wr s1)) s1)) as (s2 & -> & Hmd & _ & Ho2 & Hfl).
  - by apply fa_idle.
  - by eapply (later_good (start_chunked evs)).
  - unfold later in Hl. apply suffix_length in Hl. simpl in *. lia.
  - exists s2. split; [done|]. split; [|done]. by rewrite Ho2, Ho.
Qed.

(** ** Content-Length bodies, under any use of the task API *)

Section content_length.
Context (cl : Z).

(** Every state the task API can bring a writer for [cl] bytes to: tasks and the
    finish task are queued and polled in any order, with any outcome. *)
Inductive cl_reach : writer_io -> Prop :=
| cr_start evs timer :
    cl_reach (mkWio (writer_init_content_length cl writer_new) [] 0 evs timer)
| cr_send s bytes td w :
    cl_reach s -> send_body_task bytes td (wr s) = Some w -> cl_reach (set_wr w s)
| cr_poll s a s' : cl_reach s -> poll_write_current_body_task s = Val a s' -> cl_reach s'
| cr_poll_err s e s' : cl_reach s -> poll_write_current_body_task s = Fail e s' -> cl_reach s'
| cr_poll_pending s s' : cl_reach s -> poll_write_current_body_task s = Cancelled s' -> cl_reach s'
| cr_finish s : cl_reach s -> cl_reach (set_wr (send_finish_task (wr s)) s)
| cr_fpoll s a s' : cl_reach s -> poll_write_current_finish_task s = Val a s' -> cl_reach s'
| cr_fpoll_err s e s' : cl_reach s -> poll_write_current_finish_task s = Fail e s' -> cl_reach s'
| cr_fpoll_pending s s' :
    cl_reach s -> poll_write_current_finish_task s = Cancelled s' -> cl_reach s'.

(** The bytes on the wire, against the count in the mode. *)
Definition cl_count (w : Z) (ws : WriteState) (n : Z) : Prop :=
  match ws with
  | WIdle | WDone _ | Flushing _ => n = w
  | Writing size buf => w <= n /\ n + wb_remaining buf = w + size /\ w < cl /\ w + size <= cl
  | TimedOut => w <= n <= cl /\ (w = cl -> n = cl)
  end.

Definition cl_inv (s : writer_io) : Prop :=
  (exists w, body_mode (wr s) = ContentLength cl w /\ 0 <= w <= cl /\
     cl_count w (write_state (send_body_state (wr s))) (zlen (wr_out s))) \/
  (body_mode (wr s) = CompleteMode cl /\ zlen (wr_out s) = cl).

Context (Hcl : 0 <= cl < usize_mod).

Lemma cl_inv_of s w ws :
  body_mode (wr s) = ContentLength cl w -> 0 <= w <= cl ->
  write_state (send_body_state (wr s)) = ws -> cl_count w ws (zlen (wr_out s)) -> cl_inv s.
Proof. intros. left. exists w. by subst ws. Qed.

Lemma cl_flush_tail s w :
  body_mode (wr s) = ContentLength cl w -> 0 <= w <= cl ->
  cl_count w (write_state (send_body_state (wr s))) (zlen (wr_out s)) ->
  match write_state (send_body_state (wr s)) with WDone _ | Flushing _ => True | _ => False end ->
  wp (do! flush_phase; task_result) (fun _ => cl_inv) (fun _ => cl_inv) cl_inv s.
Proof.
  intros Hm Hw Hc Hws. ww. unfold flush_phase, task_result. ww. ww.
  destruct (write_state (send_body_state (wr s))) as [| |n|n|] eqn:Hs; try done; simpl in Hc.
  - ww. apply wp_poll_flush. intros s' Hwr Ho _.
    assert (cl_inv s') by (apply (cl_inv_of s' w (Flushing n)); rewrite ?Hwr, ?Ho; done).
    split; [|done]. intros _. repeat ww. simpl. ww. ww. ww.
    apply (cl_inv_of _ w (WDone n)); simpl; rewrite ?Hwr, ?Ho; done.
  - ww. ww. ww. rewrite Hs. ww. ww. ww. by apply (cl_inv_of _ w (WDone n)).
Qed.

Lemma cl_write_tail s w :
  body_mode (wr s) = ContentLength cl w -> 0 <= w <= cl ->
  cl_count w (write_state (send_body_state (wr s))) (zlen (wr_out s)) ->
  match write_state (send_body_state (wr s)) with WIdle | TimedOut => False | _ => True end ->
  wp (do! write_phase content_length_account; do! flush_phase; task_result)
    (fun _ => cl_inv) (fun _ => cl_inv) cl_inv s.
Proof.
  intros Hm Hw Hc Hws. ww. unfold write_phase. ww. ww.
  destruct (write_state (send_body_state (wr s))) as [|n buf|n|n|] eqn:Hs; try done;
    [|ww; eapply cl_flush_tail; rewrite ?Hs; done..].
  simpl in Hc. rewrite wb_remaining_bytes in Hc. ww. apply wp_poll_write_all_buf.
  intros p rest s' Hp Ho Hwr _. rewrite Hp, zlen_app in Hc. pose proof (zlen_nonneg p).
  assert (Hi : cl_inv s').
  { apply (cl_inv_of s' w (Writing n rest)); rewrite ?Hwr; simpl; [done|done|done|].
    rewrite wb_remaining_bytes, Ho, zlen_app. lia. }
  split; [|done]. intros Hr. rewrite Hr in Hc. change (zlen []) with 0 in Hc.
  ww. unfold content_length_account. ww. ww. ww. eapply wp_unwrap.
  { rewrite Hwr. simpl. by rewrite Hm. }
  cbv beta iota. ww. ww. ww. ww. rewrite wadd_small by lia.
  apply (cl_flush_tail _ (w + n)); simpl; [done|lia| |by destruct (cl <=? w + n)].
  rewrite Ho, zlen_app. destruct (Z.leb_spec cl (w + n)); simpl; lia.
Qed.

Lemma cl_task_poll s w :
  body_mode (wr s) = ContentLength cl w -> 0 <= w <= cl ->
  cl_count w (write_state (send_body_state (wr s))) (zlen (wr_out s)) ->
  write_state (send_body_state (wr s)) <> TimedOut ->
  wp poll_write_content_length_body_task (fun _ => cl_inv) (fun _ => cl_inv) cl_inv s.
Proof.
  intros Hm Hw Hc Hto. unfold poll_write_content_length_body_task, content_length_setup.
  ww. ww. ww. destruct (write_state (send_body_state (wr s))) as [|n buf|n|n|] eqn:Hs; try done;
    [|ww; eapply cl_write_tail; rewrite ?Hs; done..].
  simpl in Hc. ww. ww. destruct (pending_bytes (send_body_state (wr s))) as [b|].
  2: { repeat ww. by apply (cl_inv_of _ w (WDone 0)). }
  pose proof (zlen_nonneg b). rewrite Hm.
  ww. eapply wp_unwrap; [reflexivity|]. cbv beta iota. destruct (Z.leb_spec cl w).
  { repeat ww. by apply (cl_inv_of _ w (WDone 0)). }
  ww. ww. ww. rewrite wsub_small by lia. apply (cl_write_tail _ w); simpl; [done|done| |done].
  destruct (Z.ltb_spec (cl - w) (zlen b)); [rewrite zlen_ztake by lia|]; lia.
Qed.

Lemma cl_check_timeout s :
  cl_inv s -> wp check_timeout (fun _ => cl_inv) (fun _ => cl_inv) cl_inv s.
Proof.
  intros Hi. unfold wp, check_timeout.
  destruct (timeout_duration (send_body_state (wr s))); [|done]. simpl.
  destruct (head (wr_timer s)) as [[|]|]; [|exact Hi..].
  destruct Hi as [(w & Hm & Hw & Hc)|Hi]; [|by right].
  apply (cl_inv_of _ w TimedOut); simpl; [done|done|done|].
  destruct (write_state (send_body_state (wr s))); simpl in Hc; try lia.
  rewrite wb_remaining_bytes in Hc. pose proof (zlen_nonneg (wb_bytes buf)). lia.
Qed.

Lemma cl_poll s :
  cl_inv s -> wp poll_write_current_body_task (fun _ => cl_inv) (fun _ => cl_inv) cl_inv s.
Proof.
  intros Hi. unfold poll_write_current_body_task. ww. ww.
  destruct (decide (write_state (send_body_state (wr s)) = TimedOut)) as [Hto|Hto].
  { rewrite Hto. by ww. }
  assert (Hmode : wp (mode_poll (body_mode (wr s))) (fun _ => cl_inv) (fun _ => cl_inv) cl_inv s).
  { destruct Hi as [(w & Hm & Hw & Hc)|[Hm Hn]]; rewrite Hm; simpl.
    - by eapply cl_task_poll.
    - ww. by right. }
  set (run := mode_poll (body_mode (wr s)) s) in *.
  assert (Hrun : forall X, X = match run with Cancelled s' => check_timeout s' | r => r end ->
    match X with Val _ s' => cl_inv s' | Fail _ s' => cl_inv s' | Cancelled s' => cl_inv s'
               | Panic => False end).
  { intros X ->. unfold wp in Hmode. subst run.
    destruct (mode_poll (body_mode (wr s)) s); try done. by apply cl_check_timeout. }
  unfold wp. apply Hrun. subst run. destruct (body_mode (wr s)); simpl;
    destruct (write_state (send_body_state (wr s))); try done; by case_match.
Qed.

Lemma cl_finish_poll s :
  cl_inv s -> wp poll_write_current_finish_task (fun _ => cl_inv) (fun _ => cl_inv) cl_inv s.
Proof.
  intros Hi. unfold poll_write_current_finish_task. ww. ww.
  destruct (send_finish_state (wr s)); try (by ww);
  (destruct Hi as [(w & Hm & Hw & Hc)|[Hm Hn]]; rewrite Hm; [|ww; by right]);
  unfold poll_finish_content_length_task; ww; ww; rewrite Hm;
  (destruct (Z.ltb_spec w cl); repeat ww; [by apply (cl_inv_of _ w _ Hm Hw eq_refl)|]);
  (right; assert (w = cl) as -> by lia; split; [done|]; simpl);
  destruct (write_state (send_body_state (wr s))); simpl in Hc; try lia; tauto.
Qed.

Lemma cl_reach_inv s : cl_reach s -> cl_inv s.
Proof.
  induction 1 as [evs timer|s bytes td w _ IH Hs|s a s' _ IH Hp|s e s' _ IH Hp|s s' _ IH Hp|s _ IH
                 |s a s' _ IH Hp|s e s' _ IH Hp|s s' _ IH Hp].
  - left. exists 0. simpl. split; [done|]. split; [lia|done].
  - unfold send_body_task in Hs. destruct IH as [(w' & Hm & Hw & Hc)|[Hm Hn]].
    + left. exists w'. destruct (write_state (send_body_state (wr s))); simplify_eq/=; done.
    + right. by destruct (write_state (send_body_state (wr s))); simplify_eq/=.
  - pose proof (cl_poll s IH) as H. unfold wp in H. by rewrite Hp in H.
  - pose proof (cl_poll s IH) as H. unfold wp in H. by rewrite Hp in H.
  - pose proof (cl_poll s IH) as H. unfold wp in H. by rewrite Hp in H.
  - exact IH.
  - pose proof (cl_finish_poll s IH) as H. unfold wp in H. by rewrite Hp in H.
  - pose proof (cl_finish_poll s IH) as H. unfold wp in H. by rewrite Hp in H.
  - pose proof (cl_finish_poll s IH) as H. unfold wp in H. by rewrite Hp in H.
Qed.

End content_length.

(** ** The contract *)

(** the async API.  [write_body] puts exactly the frame of its buffer on the
    wire - cut to the remaining Content-Length, as one chunk, or as it is - and
    returns and counts what [write_effect] says.  It never panics; an error or
    a dropped call has written a prefix of that frame and nothing else. *)
Theorem write_body_implements_effect b s :
  mode_ok (body_mode (wr s)) ->
  let e := write_effect (body_mode (wr s)) b in
  match write_body b s with
  | Val res s' => res = eff_result e /\ wr s' = set_mode (eff_mode e) (wr s) /\
                  wr_out s' = wr_out s ++ eff_wire e
  | Fail err s' => err = WriteError /\ ~ good_io_stream (wr_events s) /\
                   prefix_out (wr_out s) (eff_wire e) s'
  | Cancelled s' => prefix_out (wr_out s) (eff_wire e) s'
  | Panic => False
  end.
Proof.
  intros Hok e. pose proof (write_body_effect s b Hok) as H. unfold wp in H. subst e.
  destruct (write_body b s) as [res s'|err s'|s'|]; [|done| |done].
  - by destruct H as (-> & Hw & Ho & _).
  - destruct H as [[H _]|H]; [done|by apply prefix_out_full].
Qed.

(** the task API is cancel-safe.  Queue [bytes] and poll any number of times,
    dropping the future after any pending poll and retrying after any failed
    one: the wire always holds a prefix of the frame, no byte of it twice, no
    poll panics, and the poll that completes returns what the async API would
    have returned, with the same mode and the same bytes on the wire. *)
Theorem body_task_cancel_safe bytes td s w s1 :
  mode_ok (body_mode (wr s)) -> send_body_task bytes td (wr s) = Some w ->
  polled (set_wr w s) s1 ->
  let e := write_effect (body_mode (wr s)) bytes in
  prefix_out (wr_out s) (eff_wire e) s1 /\
  match poll_write_current_body_task s1 with
  | Val res s2 => res = eff_result e /\ body_mode (wr s2) = eff_mode e /\
                  wr_out s2 = wr_out s ++ eff_wire e /\ ready_for_task (wr s2)
  | Fail err s2 => (err = WriteError \/ err = WriteTimedout /\ td <> None) /\
                   prefix_out (wr_out s) (eff_wire e) s2
  | Cancelled s2 => prefix_out (wr_out s) (eff_wire e) s2
  | Panic => False
  end.
Proof.
  intros Hok Hs Hp e. apply send_task_at in Hs. eapply polled_task_at in Hp as Hat; [|done..].
  split; [by eapply task_at_mode|].
  pose proof (poll_task_ok _ _ _ _ _ _ Hok Hat) as H. unfold wp in H. subst e.
  destruct (poll_write_current_body_task s1) as [res s2|err s2|s2|]; [| | |done].
  - destruct H as (-> & (ws & [Hmd Hw _ Ho _] & Hws) & _). unfold ready_for_task. by rewrite Hw.
  - destruct H as [(-> & _ & Hat2 & _)|(-> & Htd & _ & Hpre)]; [|by auto].
    split; [by left|by eapply task_at_mode].
  - destruct H as [Hat2 _]. by eapply task_at_mode.
Qed.

(** a queued task completes: without I/O errors or a timeout, one poll more
    than the stream has pending or partial polls is enough. *)
Theorem body_task_completes fuel bytes s w :
  mode_ok (body_mode (wr s)) -> send_body_task bytes None (wr s) = Some w ->
  good_io_stream (wr_events s) -> (length (wr_events s) < fuel)%nat ->
  exists s', drive poll_write_current_body_task fuel (set_wr w s) =
      Some (eff_result (write_effect (body_mode (wr s)) bytes), s') /\
    wr_out s' = wr_out s ++ eff_wire (write_effect (body_mode (wr s)) bytes).
Proof.
  intros Hok Hs Hg Hf. apply send_task_at in Hs.
  destruct (drive_task _ _ _ _ fuel _ Hok Hs Hg Hf) as (s' & Hd & (ws & Hseen & _) & _).
  exists s'. split; [done|apply (seen_out _ _ _ _ _ _ Hseen)].
Qed.

(** a Content-Length is never overrun and never falsely completed.  However
    the task API is used - tasks of any size, errors, timeouts, dropped
    futures, finishing at any time - at most [cl] bytes reach the wire, and the
    writer is [Complete] only once exactly [cl] have. *)
Theorem content_length_respected cl s :
  0 <= cl < usize_mod -> cl_reach cl s ->
  zlen (wr_out s) <= cl /\
  (forall n, body_mode (wr s) = CompleteMode n -> n = cl /\ zlen (wr_out s) = cl).
Proof.
  intros Hcl Hr. destruct (cl_reach_inv cl Hcl s Hr) as [(w & Hm & Hw & Hc)|[Hm Hn]].
  - split; [|by rewrite Hm]. destruct (write_state (send_body_state (wr s))); simpl in Hc; try lia.
    rewrite wb_remaining_bytes in Hc. pose proof (zlen_nonneg (wb_bytes buf)). lia.
  - rewrite Hm. split; [lia|]. by intros n [= <-].
Qed.

(** C22: the round trip.  A body sent as chunked through the task API, in any
    buffers (empty ones included) over a stream that accepts it in any pieces,
    is read back by [BodyReader] from any fragmentation of the wire: same
    bytes, same length, and the bytes of the next message are left untouched. *)
Theorem chunked_round_trip parse (up : bool) bs evs fuel rewind st E rfuel :
  HexLines parse -> good_io_stream evs -> (length evs < fuel)%nat ->
  zlen (message (chunks_of bs) (hex_line 0) [] ++ E) <= isize_max ->
  good_stream st -> 2 * zlen rewind + 4 * zlen (flat st) + zlen st + 1 < Z.of_nat rfuel ->
  exists s n, chunked_session fuel bs (start_chunked evs) = Some (n, s) /\
    wr_flushed s = zlen (wr_out s) /\
    (rewind ++ flat st = wr_out s ++ E ->
     exists r, read_all parse rfuel (init_chunked rewind (new up), st) = Some (concat bs, r) /\
       body_state r.1 = Complete (zlen (concat bs)) /\
       default [] (body_buf_overread r.1) ++ flat r.2 = E).
Proof.
  intros Hhex Hg Hf Hlen Hst Hfuel.
  destruct (chunked_session_wire fuel bs evs Hg Hf) as (s & Hs & Ho & Hfl & _).
  eexists s, _. split; [exact Hs|]. split; [done|]. rewrite Ho. intros Hrw.
  destruct (read_all_message parse false up rewind st (chunks_of bs) (hex_line 0) [] E rfuel)
    as (r & Hr & Hd & _ & HE); [|done..|].
  - apply message_prefix_len in Hlen as Hl. split; [by apply chunks_of_ok|].
    split; [by apply Hhex|]. by split.
  - rewrite chunks_of_payload in *. eauto.
Qed.

(** ** The theorems at concrete writers *)

Definition wit_events : list wr_event := [IoReady 2; IoPend; IoReady 3; IoPend; IoErr; IoReady 100].
Definition wit_writer : writer_io :=
  mkWio (writer_init_content_length 8 writer_new) [] 0 wit_events [].
Definition wit_sent : writer_io :=
  match send_body_task (bytes_of "hello") (Some 5) (wr wit_writer) with
  | Some w => set_wr w wit_writer
  | None => wit_writer
  end.
Definition wit_polled : writer_io :=
  match poll_write_current_body_task wit_sent with Cancelled s => s | _ => wit_sent end.

Lemma write_body_implements_effect_witness :
  mode_ok (body_mode (wr wit_writer)) /\
  exists s', write_body (bytes_of "hi") wit_writer = Val (Some 2) s' /\
    wr_out s' = bytes_of "hi".
Proof.
  split; [vm_compute; done|].
  pose proof (write_body_implements_effect (bytes_of "hi") wit_writer ltac:(vm_compute; done)) as H.
  destruct (write_body (bytes_of "hi") wit_writer) as [res s'| | |] eqn:Hw; try (by vm_compute in Hw).
  destruct H as (-> & _ & Ho). exists s'. split; [reflexivity|exact Ho].
Defined.

Lemma body_task_cancel_safe_witness :
  prefix_out [] (bytes_of "hello") wit_polled /\ wr_out wit_polled = bytes_of "he".
Proof.
  split; [|reflexivity].
  destruct (body_task_cancel_safe (bytes_of "hello") (Some 5) wit_writer (wr wit_sent) wit_polled)
    as [H _].
  - vm_compute. done.
  - reflexivity.
  - eapply polled_pending; [apply polled_refl|reflexivity].
  - exact H.
Defined.

Lemma body_task_completes_witness :
  exists s', drive poll_write_current_body_task 9
      (set_wr (set_body_task (fun _ => mkSendBody (Some (bytes_of "hi")) WIdle None false)
                 (writer_init_chunked writer_new))
         (start_chunked [IoPend; IoReady 4; IoPend])) = Some (Some 2, s') /\
    wr_out s' = hex_line 2 ++ bytes_of "hi" ++ CRLF.
Proof.
  apply (body_task_completes 9 (bytes_of "hi") (start_chunked [IoPend; IoReady 4; IoPend])).
  - vm_compute. done.
  - reflexivity.
  - by repeat constructor.
  - simpl. lia.
Defined.

Lemma content_length_respected_witness :
  zlen (wr_out wit_polled) <= 8 /\
  (forall n, body_mode (wr wit_polled) = CompleteMode n -> n = 8 /\ zlen (wr_out wit_polled) = 8).
Proof.
  apply (content_length_respected 8 wit_polled); [vm_compute; done|].
  eapply (cr_poll_pending 8 wit_sent); [|reflexivity].
  eapply (cr_send 8 wit_writer (bytes_of "hello") (Some 5)); [apply cr_start|reflexivity].
Defined.

Lemma chunked_round_trip_witness :
  let bs := [bytes_of "hello"; []; bytes_of "pingora"] in
  let st := [RData (hex_line 5 ++ bytes_of "he"); RPend;
             RData (bytes_of "llo" ++ CRLF ++ hex_line 7 ++ bytes_of "pingora" ++ CRLF);
             RData (LAST_CHUNK ++ bytes_of "GET /")] in
  exists s n, chunked_session 9 bs (start_chunked [IoReady 1; IoPend; IoReady 4; IoPend])
      = Some (n, s) /\
    wr_flushed s = zlen (wr_out s) /\
    ([] ++ flat st = wr_out s ++ bytes_of "GET /" ->
     exists r, read_all ref_parse 400 (init_chunked [] (new true), st) = Some (concat bs, r) /\
       body_state r.1 = Complete (zlen (concat bs)) /\
       default [] (body_buf_overread r.1) ++ flat r.2 = bytes_of "GET /").
Proof.
  intros bs st. apply (chunked_round_trip ref_parse true bs _ 9 [] st (bytes_of "GET /") 400).
  - apply ref_parse_hex.
  - by repeat constructor.
  - simpl. lia.
  - vm_compute. discriminate.
  - by repeat constructor.
  - reflexivity.
Defined.
