(* ===== verification/Framing.v ===== *)
(** * Framing decisions of HTTP/1

    [src/pingora-core/src/protocols/http/v1/common.rs]: how the Connection,
    Transfer-Encoding and Content-Length fields of a message are read, and
    [src/pingora-core/src/protocols/http/authority.rs]: that a request names one
    authority. *)

From stdpp Require Import base list numbers strings.
From Stdlib Require Import ZArith Lia.
From S2P Require Import Prelude Errors Text Headers Parser BodyReader BodyWriter.
Local Open Scope Z_scope.

Definition INIT_HEADER_BUF_SIZE : Z := 4096.
Definition MAX_HEADER_SIZE : Z := 1048575.
Definition BODY_BUF_LIMIT : Z := 1024 * 64.
Definition HEADER_SECTION_END : list byte := CRLF ++ CRLF.

Definition COMMA : byte := Byte.x2c.

Definition h_connection : list byte := bytes_of "connection".
Definition h_content_length : list byte := bytes_of "content-length".
Definition h_transfer_encoding : list byte := bytes_of "transfer-encoding".
Definition h_upgrade : list byte := bytes_of "upgrade".
Definition h_expect : list byte := bytes_of "expect".
Definition h_host : list byte := bytes_of "host".
Definition h_date : list byte := bytes_of "date".

(** Durations are in milliseconds. *)
Inductive KeepaliveStatus := KTimeout (d : Z) | KInfinite | KOff.

(** ** Connection *)

Record ConnectionValue := MkConn { conn_keep_alive : bool; conn_upgrade : bool; conn_close : bool }.

(** The scan of the tokens returns as soon as both are seen. *)
Fixpoint connection_tokens (tokens : list (list byte)) (close upgrade : bool) : bool * bool :=
  match tokens with
  | [] => (close, upgrade)
  | t :: tokens =>
      let '(close, upgrade) :=
        if eq_ignore_ascii_case t (bytes_of "close") then (true, upgrade)
        else if eq_ignore_ascii_case t (bytes_of "upgrade") then (close, true)
        else (close, upgrade) in
      if upgrade && close then (true, true) else connection_tokens tokens close upgrade
  end.

Definition connection_list (value : list byte) : list (list byte) :=
  filter (fun x => x <> []) (map trim (split_byte COMMA value)).

Definition parse_connection_header (value : list byte) : ConnectionValue :=
  if eq_ignore_ascii_case value (bytes_of "close") then MkConn false false true
  else if eq_ignore_ascii_case value (bytes_of "keep-alive") then MkConn true false false
  else if eq_ignore_ascii_case value (bytes_of "upgrade") then MkConn false true false
  else
    let value := if is_utf8 value then value else [] in
    let '(close, upgrade) := connection_tokens (connection_list value) false false in
    if upgrade && close then MkConn false true true
    else if close then MkConn false false true
    else if upgrade then MkConn false true false
    else MkConn false false false.

Definition is_buf_keepalive (header_value : option (list byte)) : option bool :=
  v ← header_value;
  let value := parse_connection_header v in
  if conn_keep_alive value then Some true
  else if conn_close value then Some false
  else None.

(** ** Numbers *)

(** Arithmetic of [u64] that refuses to overflow. *)
Definition checked_mul_u64 (a b : Z) : option Z := if a * b <? 2 ^ 64 then Some (a * b) else None.
Definition checked_add_u64 (a b : Z) : option Z := if a + b <? 2 ^ 64 then Some (a + b) else None.

Fixpoint from_digits_go (result : Z) (bytes : list byte) : option Z :=
  match bytes with
  | [] => Some result
  | b :: bytes =>
      if is_ascii_digit b then
        result ← checked_mul_u64 result 10;
        result ← checked_add_u64 result (byte_val b - 48);
        from_digits_go result bytes
      else None
  end.

Definition from_digits (bytes : list byte) : option Z :=
  if bool_decide (bytes = []) then None else from_digits_go 0 bytes.

(** [str::parse::<u64>], and of a 64-bit [usize]: an optional plus, at least one digit, no overflow. *)
Definition parse_u64 (s : list byte) : option Z :=
  from_digits (match s with c :: ds => if bool_decide (c = Byte.x2b) then ds else s | [] => [] end).

(** [Ok(None)] is [inl None]. *)
Definition buf_to_content_length (header_value : option (list byte)) : option Z + Error :=
  match header_value with
  | None => inl None
  | Some buf =>
      if is_utf8 buf then
        match parse_i64 buf with
        | Some cl_length =>
            if 0 <=? cl_length then inl (Some cl_length)
            else inr (Errors.explain InvalidHTTPHeader "negative Content-Length header value")
        | None => inr (Errors.explain InvalidHTTPHeader "invalid Content-Length header value")
        end
      else inr (Errors.explain InvalidHTTPHeader "invalid Content-Length header encoding")
  end.

Definition header_value_content_length (header_value : option (list byte)) : option Z :=
  match header_value with
  | Some v => match buf_to_content_length (Some v) with inl r => r | inr _ => None end
  | None => None
  end.

(** ** Header offsets *)

(** [KVRef] of [src/pingora-core/src/utils/mod.rs]. *)
Record KVRef := MkKVRef { kv_name : BufRef; kv_value : BufRef }.

Definition KVRef_new (name_s name_len value_s value_len : Z) : KVRef :=
  MkKVRef (BufRefMk name_s (wadd name_s name_len)) (BufRefMk value_s (wadd value_s value_len)).
Definition get_name_bytes (r : KVRef) (buf : list byte) : option (list byte) := BufRef_get (kv_name r) buf.
Definition get_value_bytes (r : KVRef) (buf : list byte) : option (list byte) := BufRef_get (kv_value r) buf.

(** The parser's slices point into the buffer: their offsets are the differences
    to its base. *)
Fixpoint populate_headers (headers : list ParsedHeader) : list KVRef :=
  match headers with
  | [] => []
  | h :: headers =>
      if name_len h =? 0 then populate_headers headers
      else KVRef_new (name_at h) (name_len h) (value_at h) (value_len h) :: populate_headers headers
  end.

Section framing.
Context {hmap : Type -> Type} `{HM : HMap hmap} {Uri : Type} `{HC : HttpCrate Uri}.
Implicit Types (headers : hmap (list byte)).

(** ** Transfer-Encoding *)

Definition find_last_te_token (bytes : list byte) : list byte :=
  trim_ascii (default [] (last (split_byte COMMA bytes))).

Definition is_chunked_encoding_from_headers headers : bool :=
  match last (hm_get_all headers h_transfer_encoding) with
  | None => false
  | Some bytes =>
      if eq_ignore_ascii_case bytes (bytes_of "chunked") then true
      else eq_ignore_ascii_case (find_last_te_token bytes) (bytes_of "chunked")
  end.

(** ** Content-Length *)

Fixpoint parse_all_tokens (tokens : list (list byte)) (content_length : option Z)
    : option (option Z) :=
  match tokens with
  | [] => Some content_length
  | v :: tokens =>
      n ← from_digits (trim v);
      match content_length with
      | None => parse_all_tokens tokens (Some n)
      | Some prev => if prev =? n then parse_all_tokens tokens content_length else None
      end
  end.

Fixpoint parse_all_lines (lines : list (list byte)) (content_length : option Z)
    : option (option Z) :=
  match lines with
  | [] => Some content_length
  | value :: lines =>
      if value_is_visible value then
        content_length ← parse_all_tokens (split_byte COMMA value) content_length;
        parse_all_lines lines content_length
      else None
  end.

Definition content_length_parse_all headers : option Z :=
  mjoin (parse_all_lines (hm_get_all headers h_content_length) None).

(** [usize::try_from] fails only where [usize] is narrower than [u64]. *)
Definition content_length_for_framing headers : option Z + Error :=
  match content_length_parse_all headers with
  | Some cl =>
      if cl <? usize_mod then inl (Some cl)
      else inr (Errors.explain InvalidHTTPHeader "Content-Length exceeds the platform maximum")
  | None =>
      if hm_contains_key headers h_content_length
      then inr (Errors.explain InvalidHTTPHeader "invalid Content-Length header")
      else inl None
  end.

Definition unit_result {A} (r : A + Error) : unit + Error :=
  match r with inl _ => inl tt | inr e => inr e end.

Definition validate_content_length headers : unit + Error :=
  match hm_get headers h_transfer_encoding with
  | Some _ => inl tt
  | None => unit_result (content_length_for_framing headers)
  end.

Definition validate_content_length_without_transfer_encoding headers : unit + Error :=
  match hm_get headers h_transfer_encoding with
  | Some _ => inr (Errors.explain InvalidHTTPHeader "invalid Transfer-Encoding header")
  | None => unit_result (content_length_for_framing headers)
  end.

Definition content_length_is_single_token headers : bool :=
  match hm_get_all headers h_content_length with
  | [value] => negb (bool_decide (COMMA ∈ value))
  | _ => false
  end.

(** ** The body of a response *)

Definition init_body_writer_comm headers (w : BodyWriter) : BodyWriter :=
  if is_chunked_encoding_from_headers headers then writer_init_chunked w
  else match content_length_for_framing headers with
       | inl (Some length) => writer_init_content_length length w
       | inl None => writer_init_close_delimited w
       | inr _ => writer_init_close_delimited w
       end.

(** ** Upgrades and expectations *)

Definition is_upgrade_req (req : RequestHeader hmap Uri) : bool :=
  bool_decide (req_version req = HTTP_11) && bool_decide (is_Some (hm_get (req_headers req) h_upgrade)).

Definition is_expect_continue_req (req : RequestHeader hmap Uri) : bool :=
  bool_decide (req_version req = HTTP_11) &&
  match hm_get (req_headers req) h_expect with
  | Some v => eq_ignore_ascii_case v (bytes_of "100-continue")
  | None => false
  end.

Definition is_upgrade_resp (header : ResponseHeader hmap) : bool :=
  (resp_status header =? 101) && bool_decide (resp_version header = HTTP_11).

(** ** One authority *)

Definition AT : byte := Byte.x40.
Definition COLON : byte := Byte.x3a.
Definition contains (c : byte) (s : list byte) : bool := bool_decide (c ∈ s).

Definition fail_header {A} (context : string) : A + Error := inr (Errors.explain InvalidHTTPHeader context).

(** The scan of [has_ambiguous_port_suffix] after the first byte's bracket. *)
Fixpoint port_scan (inside colon : bool) (s : list byte) : bool :=
  match s with
  | [] => inside
  | c :: s =>
      if inside then
        if bool_decide (c = Byte.x5b) then true
        else if bool_decide (c = Byte.x5d) then port_scan false colon s
        else port_scan true colon s
      else if bool_decide (c = Byte.x5b) || bool_decide (c = Byte.x5d) then true
      else if bool_decide (c = COLON) then if colon then true else port_scan false true s
      else port_scan false colon s
  end.

Definition has_ambiguous_port_suffix (authority : list byte) : bool :=
  match authority with
  | c :: s => if bool_decide (c = Byte.x5b) then port_scan true false s else port_scan false false authority
  | [] => false
  end.

Definition reconcile_connect_host (authority authority_host host : list byte) : unit + Error :=
  if bool_decide (host = authority) || bool_decide (host = authority_host) then inl tt
  else fail_header "Host header differs from CONNECT request target".

Definition connect_target_end (target : list byte) : nat :=
  default (length target) (position is_target_delim target).

Definition validate_connect_authority (target : list byte) (host : option (list byte)) : unit + Error :=
  let authority_target := take (connect_target_end target) target in
  if contains AT authority_target then fail_header "userinfo in request target"
  else if has_ambiguous_port_suffix authority_target then
    fail_header "ambiguous CONNECT request target"
  else
    let parsed_authority := parse_authority authority_target in
    match parsed_authority with
    | Some (authority_host, true) =>
        match host with
        | None => inl tt
        | Some host => reconcile_connect_host authority_target authority_host host
        end
    | _ =>
        match raw_target_authority target with
        | Absolute _ authority _ =>
            if contains AT authority then fail_header "userinfo in request target"
            else if has_ambiguous_port_suffix authority then
              fail_header "ambiguous CONNECT request target"
            else match host with
                 | None => fail_header "missing Host header for absolute-form CONNECT request target"
                 | Some host =>
                     match parse_authority authority with
                     | Some (parsed_host, _) => reconcile_connect_host authority parsed_host host
                     | None => reconcile_connect_host authority authority host
                     end
                 end
        | AmbiguousAuthority => fail_header "ambiguous CONNECT request target"
        | NoAuthority =>
            if negb (bool_decide (authority_target = [])) && bool_decide (parsed_authority = None) then
              match host with
              | None => fail_header "missing Host header for malformed CONNECT request target"
              | Some host => reconcile_connect_host authority_target authority_target host
              end
            else inl tt
        end
    end.

Definition validate_request_authority_fields (req : RequestHeader hmap Uri) : unit + Error :=
  let hosts := hm_get_all (req_headers req) h_host in
  match hosts with
  | _ :: _ :: _ => fail_header "multiple Host header fields"
  | _ =>
      let host := head hosts in
      let uri_auth := uri_authority (req_uri req) in
      if match host with Some h => contains AT h | None => false end then
        fail_header "userinfo in Host header"
      else if match uri_auth with Some a => contains AT a | None => false end then
        fail_header "userinfo in URI authority"
      else if match host, uri_auth with
              | Some h, Some a => negb (bool_decide (h = a))
              | _, _ => false
              end then
        fail_header "Host header differs from URI authority"
      else inl tt
  end.

Definition validate_request_authority (req : RequestHeader hmap Uri) : unit + Error :=
  match validate_request_authority_fields req with
  | inr e => inr e
  | inl _ =>
      let host := hm_get (req_headers req) h_host in
      if bool_decide (req_method req = bytes_of "CONNECT") then
        validate_connect_authority (raw_path req) host
      else
        match raw_target_authority (raw_path req) with
        | NoAuthority => inl tt
        | AmbiguousAuthority => fail_header "ambiguous HTTP absolute-form request target"
        | Absolute scheme authority _ =>
            if is_http_family_scheme scheme && bool_decide (parse_authority authority = None) then
              fail_header "unparseable absolute-form authority"
            else if contains AT authority then fail_header "userinfo in request target"
            else if match host with Some h => negb (bool_decide (h = authority)) | None => false end then
              fail_header "Host header differs from request-target authority"
            else inl tt
        end
  end.

End framing.
