(* ===== verification/FramingSpec.v ===== *)
(** * Framing decisions of HTTP/1: theorems *)

From stdpp Require Import base list numbers strings sets.
From Stdlib Require Import ZArith Lia.
From S2P Require Import Prelude Errors Text Headers Parser BodyReader BodyWriter Framing HeadersSpec.
Local Open Scope Z_scope.

(** ** Content-Length *)

Lemma is_digit_range c : is_ascii_digit c = true <-> 48 <= byte_val c <= 57.
Proof. unfold is_ascii_digit, in_range. rewrite andb_true_iff, !Z.leb_le. done. Qed.

Definition value_from (acc : Z) (ds : list byte) : Z :=
  foldl (fun n d => n * 10 + (byte_val d - 48)) acc ds.

Lemma value_from_ge ds acc : all_digits ds = true -> 0 <= acc -> acc <= value_from acc ds.
Proof.
  revert acc. induction ds as [|d ds IH]; intros acc Hd Hacc; simpl; [lia|].
  apply andb_true_iff in Hd as [Hd Hds]. apply is_digit_range in Hd.
  specialize (IH (acc * 10 + (byte_val d - 48)) Hds ltac:(lia)). lia.
Qed.

Lemma from_digits_go_spec ds acc n :
  0 <= acc < 2 ^ 64 ->
  from_digits_go acc ds = Some n <-> all_digits ds = true /\ value_from acc ds = n /\ n < 2 ^ 64.
Proof.
  revert acc. induction ds as [|d ds IH]; intros acc Hacc; simpl.
  { split; [intros [= <-]; split_and!; [done|done|lia]|by intros (_ & <- & _)]. }
  destruct (is_ascii_digit d) eqn:Hd; simpl; [|by split; [|intros [? _]]].
  apply is_digit_range in Hd. unfold checked_mul_u64, checked_add_u64.
  assert (all_digits ds = true -> acc * 10 + (byte_val d - 48) <= value_from (acc * 10 + (byte_val d - 48)) ds)
    as Hge by (intros; apply value_from_ge; [done|lia]).
  destruct (Z.ltb_spec (acc * 10) (2 ^ 64)); simpl; [|split; [done|]; intros (Ha & <- & Hn); specialize (Hge Ha);
    unfold value_from in *; lia].
  destruct (Z.ltb_spec (acc * 10 + (byte_val d - 48)) (2 ^ 64)); simpl;
    [apply IH; lia|split; [done|]; intros (Ha & <- & Hn); specialize (Hge Ha); unfold value_from in *; lia].
Qed.

(** The values a Content-Length element can have. *)
Definition element_value (e : list byte) (n : Z) : Prop :=
  e <> [] /\ all_digits e = true /\ digits_value e = n /\ n < 2 ^ 64.

Lemma from_digits_spec e n : from_digits e = Some n <-> element_value e n.
Proof.
  unfold from_digits, element_value. case_bool_decide as He.
  - split; [done|]. by intros [? _].
  - rewrite from_digits_go_spec by lia. naive_solver.
Qed.

Definition agrees (cl : option Z) (n : Z) : Prop := match cl with Some p => p = n | None => True end.

Lemma parse_all_tokens_spec ts cl r :
  parse_all_tokens ts cl = Some r <->
  match ts with
  | [] => r = cl
  | _ => exists n, r = Some n /\ agrees cl n /\ Forall (fun t => element_value (trim t) n) ts
  end.
Proof.
  revert cl. induction ts as [|t ts IH]; intros cl; simpl; [naive_solver|].
  destruct (from_digits (trim t)) as [n|] eqn:Hn; simpl.
  - apply from_digits_spec in Hn. assert (forall n', element_value (trim t) n' -> n' = n) as Huniq.
    { intros n' (_ & _ & H1 & _). destruct Hn as (_ & _ & H2 & _). congruence. }
    assert (agrees cl n -> parse_all_tokens ts (Some n) = Some r <->
            exists n0, r = Some n0 /\ agrees cl n0 /\ Forall (fun t => element_value (trim t) n0) (t :: ts)) as Hgo.
    { intros Hcl. rewrite IH. destruct ts as [|t' ts].
      - split; [intros ->; exists n; split_and!; [done|done|by constructor]|].
        intros (n0 & -> & _ & Hf). apply Forall_cons in Hf as [Hf _]. by rewrite (Huniq n0 Hf).
      - split.
        + intros (n0 & -> & <- & Hf). exists n. split_and!; [done|done|by constructor].
        + intros (n0 & -> & _ & Hf). apply Forall_cons in Hf as [Hf Hf'].
          rewrite (Huniq n0 Hf) in *. exists n. done. }
    destruct cl as [p|]; [|by apply Hgo]. simpl in *. destruct (Z.eqb_spec p n) as [->|Hne]; [by apply Hgo|].
    split; [done|]. intros (n0 & _ & -> & Hf). apply Forall_cons in Hf as [Hf _].
    by rewrite (Huniq n0 Hf) in Hne.
  - split; [done|]. intros (n0 & _ & _ & Hf). apply Forall_cons in Hf as [Hf _].
    apply from_digits_spec in Hf. congruence.
Qed.

Lemma split_at_nonempty p s : split_at p s <> [].
Proof. destruct s as [|c s]; simpl; [done|]. destruct (p c); [done|]. by destruct (split_at p s). Qed.

Section content_length.
Context {hmap : Type -> Type} `{HM : HMap hmap} {Uri : Type} `{HC : HttpCrate Uri}.
Implicit Types (headers : hmap (list byte)).

(** The elements of all Content-Length lines. *)
Definition line_elements (value : list byte) : list (list byte) := map trim (split_byte COMMA value).

Lemma parse_all_lines_spec ls cl r :
  parse_all_lines ls cl = Some r <->
  match ls with
  | [] => r = cl
  | _ => exists n, r = Some n /\ agrees cl n /\
           Forall (fun l => value_is_visible l = true /\ Forall (fun e => element_value e n) (line_elements l)) ls
  end.
Proof.
  revert cl. induction ls as [|l ls IH]; intros cl; simpl; [naive_solver|].
  destruct (value_is_visible l) eqn:Hl.
  2:{ split; [done|]. intros (n & _ & _ & Hf). apply Forall_cons in Hf as [[? _] _]. congruence. }
  assert (forall c, parse_all_tokens (split_byte COMMA l) cl = Some c <->
          exists n, c = Some n /\ agrees cl n /\ Forall (fun e => element_value e n) (line_elements l)) as Ht.
  { intros c. rewrite parse_all_tokens_spec. unfold line_elements.
    pose proof (split_at_nonempty (fun c => bool_decide (c = COMMA)) l). unfold split_byte.
    destruct (split_at _ l) eqn:Hs; [done|]. setoid_rewrite Forall_fmap. done. }
  split.
  - intros (c & Hc & Hr)%bind_Some. apply Ht in Hc as (n & -> & Hcl & Hf). apply IH in Hr.
    exists n. destruct ls as [|l' ls]; [subst; split_and!; [done|done|by constructor]|].
    destruct Hr as (n' & -> & Heq & Hf'). simpl in Heq. subst n'. split_and!; [done|done|by constructor].
  - intros (n & -> & Hcl & Hf). apply Forall_cons in Hf as [[_ Hf] Hfs].
    rewrite (proj2 (Ht (Some n))) by (by exists n). simpl. apply IH.
    destruct ls; [done|]. by exists n.
Qed.

Lemma content_length_parse_all_spec headers n :
  content_length_parse_all headers = Some n <->
  hm_get_all headers h_content_length <> [] /\
  Forall (fun l => value_is_visible l = true /\ Forall (fun e => element_value e n) (line_elements l))
    (hm_get_all headers h_content_length).
Proof.
  unfold content_length_parse_all.
  destruct (parse_all_lines _ None) as [r|] eqn:Hr; simpl.
  - apply parse_all_lines_spec in Hr. destruct (hm_get_all headers h_content_length) as [|l ls].
    + subst r. naive_solver.
    + destruct Hr as (n' & -> & _ & Hf). split; [by intros [= <-]|]. intros [_ Hf'].
      f_equal. apply Forall_cons in Hf as [[_ Hf] _]. apply Forall_cons in Hf' as [[_ Hf'] _].
      unfold line_elements, split_byte in Hf, Hf'.
      pose proof (split_at_nonempty (fun c => bool_decide (c = COMMA)) l).
      destruct (split_at _ l); [done|]. simpl in Hf, Hf'.
      apply Forall_cons in Hf as [(_ & _ & <- & _) _]. apply Forall_cons in Hf' as [(_ & _ & <- & _) _]. done.
  - split; [done|]. intros [Hne Hf]. assert (parse_all_lines (hm_get_all headers h_content_length) None
      = Some (Some n)) as Hs; [|congruence].
    apply parse_all_lines_spec. destruct (hm_get_all headers h_content_length); [done|]. by exists n.
Qed.

Lemma content_length_range headers n : content_length_parse_all headers = Some n -> 0 <= n < usize_mod.
Proof.
  intros [Hne Hf]%content_length_parse_all_spec. destruct (hm_get_all headers h_content_length) as [|l ls]; [done|].
  apply Forall_cons in Hf as [[_ Hf] _]. unfold line_elements, split_byte in Hf.
  pose proof (split_at_nonempty (fun c => bool_decide (c = COMMA)) l).
  destruct (split_at _ l); [done|]. apply Forall_cons in Hf as [(_ & Hd & <- & Hlt) _].
  unfold usize_mod. split; [|lia]. apply (value_from_ge _ 0 Hd). lia.
Qed.

(** the Content-Length of a message, over all its lines and their comma
    separated elements: [Some n] exactly when there is at least one line, every
    line is visible text and every element is a number, without sign and below
    2^64, all equal to [n]; framing is refused exactly when there is a line and no
    such [n]. *)
Theorem content_length_exact headers :
  (forall n, content_length_parse_all headers = Some n <->
     hm_get_all headers h_content_length <> [] /\
     Forall (fun l => value_is_visible l = true /\ Forall (fun e => element_value e n) (line_elements l))
       (hm_get_all headers h_content_length)) /\
  match content_length_for_framing headers with
  | inl (Some n) => content_length_parse_all headers = Some n /\ 0 <= n < usize_mod
  | inl None => hm_get_all headers h_content_length = []
  | inr e => hm_get_all headers h_content_length <> [] /\ etype e = InvalidHTTPHeader /\
             forall n, content_length_parse_all headers <> Some n
  end.
Proof.
  split; [apply content_length_parse_all_spec|]. unfold content_length_for_framing, hm_contains_key.
  destruct (content_length_parse_all headers) as [n|] eqn:Hn.
  - pose proof (content_length_range headers n Hn). destruct (Z.ltb_spec n usize_mod); [done|lia].
  - destruct (hm_get_all headers h_content_length); [done|]. done.
Qed.

(** ** One authority *)

Ltac split_checks :=
  repeat match goal with
  | H : context [if ?b then fail_header _ else _] |- _ => destruct b eqn:?; [done|]
  | H : context [if ?b then _ else fail_header _] |- _ => destruct b eqn:?; [|done]
  end.





End content_length.

(** ** A request to run them with *)


