(* ===== verification/HeaderWriter.v ===== *)
(** * The cancel-safe header writer

    [HeaderWriter] of [src/pingora-core/src/protocols/http/v1/header.rs]: the
    bytes of a serialized header are written, and flushed if asked to, over any
    number of polls; what is left to write is kept between them. *)

From stdpp Require Import base list numbers strings.
From S2P Require Import Prelude Errors BodyWriter.
Local Open Scope Z_scope.

Inductive HeaderWriteState :=
| HIdle
| HWriting (size : Z) (buf : list byte)
| HFlushing (size : Z)
| HDone
| HTimedOut.

Record HeaderWriter := MkHeaderWriter {
  pending_header : option (list byte);
  should_flush : bool;
  header_state : HeaderWriteState;
  header_timeout : option Z;
  header_timer : bool
}.

Definition header_writer_new : HeaderWriter := MkHeaderWriter None false HIdle None false.

Definition set_header_state (st : HeaderWriteState) (w : HeaderWriter) : HeaderWriter :=
  MkHeaderWriter (pending_header w) (should_flush w) st (header_timeout w) (header_timer w).
Definition set_header_timer (b : bool) (w : HeaderWriter) : HeaderWriter :=
  MkHeaderWriter (pending_header w) (should_flush w) (header_state w) (header_timeout w) b.

(** [None]: the assertion that no task is in progress fails. *)
Definition send_header_task (header_bytes : list byte) (flush : bool) (timeout : option Z)
    (w : HeaderWriter) : option HeaderWriter :=
  match header_state w with
  | HIdle | HDone => Some (MkHeaderWriter (Some header_bytes) flush HIdle timeout false)
  | _ => None
  end.

Definition header_io : Type := HeaderWriter * writer_io.
Definition HWM (A : Type) : Type := M header_io ErrorType A.

Definition hself : HWM HeaderWriter := fun s => Val s.1 s.
Definition hupd (f : HeaderWriter -> HeaderWriter) : HWM unit := modify (fun s => (f s.1, s.2)).

Definition on_io {A} (m : WM A) : HWM A :=
  fun s => match m s.2 with
           | Val a w => Val a (s.1, w)
           | Fail e w => Fail e (s.1, w)
           | Cancelled w => Cancelled (s.1, w)
           | Panic => Panic
           end.

(** [write_all_buf] of the buffer kept in [HWriting]. *)
Definition poll_write_header (size : Z) (buf : list byte) : HWM unit :=
  fun s =>
    let '(res, evs, out, rest) := write_loop (wr_events s.2) (wr_out s.2) (Simple buf) in
    let s := (set_header_state (HWriting size (wb_bytes rest)) s.1,
              mkWio (wr s.2) out (wr_flushed s.2) evs (wr_timer s.2)) in
    match res with
    | PollOk => Val tt s
    | PollErr => Fail WriteError s
    | PollPending => Cancelled s
    end.

Definition header_flush (size : Z) : HWM Z :=
  do! on_io poll_flush;
  do! hupd (set_header_state HDone);
  ret size.

Definition header_write (size : Z) (buf : list byte) : HWM Z :=
  do! poll_write_header size buf;
  let! w := hself in
  if should_flush w then do! hupd (set_header_state (HFlushing size)); header_flush size
  else do! hupd (set_header_state HDone); ret size.

Definition poll_do_write_header_and_flush : HWM Z :=
  let! w := hself in
  match header_state w with
  | HIdle =>
      match pending_header w with
      | Some header_bytes =>
          let size := zlen header_bytes in
          do! hupd (fun w => MkHeaderWriter None (should_flush w) (HWriting size header_bytes)
                               (header_timeout w) (header_timer w));
          header_write size header_bytes
      | None => do! hupd (set_header_state HDone); ret 0
      end
  | HWriting size buf => header_write size buf
  | HFlushing size => header_flush size
  | HDone => ret 0
  | HTimedOut => fail WriteTimedout
  end.

(** The timer is created at the first pending poll and polled after the write. *)
Definition check_header_timeout : HWM Z :=
  fun s =>
    match header_timeout s.1 with
    | None => Cancelled s
    | Some _ =>
        let fired := head (wr_timer s.2) in
        let w := mkWio (wr s.2) (wr_out s.2) (wr_flushed s.2) (wr_events s.2) (tail (wr_timer s.2)) in
        match fired with
        | Some true => Fail WriteTimedout (set_header_timer false (set_header_state HTimedOut s.1), w)
        | _ => Cancelled (set_header_timer true s.1, w)
        end
    end.

Definition poll_write_current_header_task : HWM Z :=
  let! w := hself in
  match header_state w with
  | HTimedOut => fail WriteTimedout
  | _ =>
      fun s =>
        match poll_do_write_header_and_flush s with
        | Val size s' =>
            Val size (match header_state s'.1 with
                      | HDone => (set_header_timer false s'.1, s'.2)
                      | _ => s'
                      end)
        | Fail e s' => Fail e s'
        | Cancelled s' => check_header_timeout s'
        | Panic => Panic
        end
  end.
