(* ===== verification/LinkedListSpec.v ===== *)
(** * The LRU's doubly linked list: refinement to a sequence

    [repr l xs]: the list [l] stands for the sequence [xs] of (index, value)
    pairs.  Each operation of [LinkedList.v] ids related to the operation on
    sequences it implements. *)

From stdpp Require Import base numbers sets option list.
From S2P Require Import Prelude LinkedList.
Local Open Scope Z_scope.

Section spec.
Context {K : Type} (default_k : K).
Implicit Types (ns : Nodes K) (l : LinkedList K) (xs : list (Z * K)) (ids : list Z).

(** ** Looking at the node store *)

Definition nx ns (i : Z) : option Z := next <$> nodes_index ns i.
Definition pv ns (i : Z) : option Z := prev <$> nodes_index ns i.
Definition dt ns (i : Z) : option K := data <$> nodes_index ns i.

Lemma nodes_update_Some i f ns n :
  nodes_index ns i = Some n -> exists ns', nodes_update i f ns = Some ns' /\
    length (data_nodes ns') = length (data_nodes ns) /\
    forall j, nodes_index ns' j = if decide (i = j) then Some (f n) else nodes_index ns j.
Proof.
  unfold nodes_index, nodes_update. intros Hn.
  destruct (Z.eqb_spec i HEAD) as [->|Hh].
  { eexists. split; [done|]. split; [done|]. intros j. simpl. injection Hn as ->.
    case_decide as Hj; [by subst j|]. by destruct (Z.eqb_spec j HEAD); [subst|]. }
  destruct (Z.eqb_spec i TAIL) as [->|Ht].
  { eexists. split; [done|]. split; [done|]. intros j. simpl. injection Hn as ->.
    case_decide as Hj; [by subst j|]. destruct (Z.eqb_spec j HEAD); [done|].
    by destruct (Z.eqb_spec j TAIL); [subst|]. }
  destruct (Z.ltb_spec i 0); [done|]. rewrite Hn. simpl. eexists. split; [done|].
  split; [simpl; by rewrite length_insert|].
  intros j. simpl. unfold HEAD, TAIL, OFFSET in *. case_decide as Hj.
  - subst j. destruct (Z.eqb_spec i 0); [done|]. destruct (Z.eqb_spec i 1); [done|].
    destruct (Z.ltb_spec i 0); [lia|]. apply list_lookup_insert_eq. by eapply lookup_lt_Some.
  - destruct (Z.eqb_spec j 0); [done|]. destruct (Z.eqb_spec j 1); [done|].
    destruct (Z.ltb_spec j 0); [done|]. apply list_lookup_insert_ne. lia.
Qed.

Lemma nodes_index_in ns i :
  OFFSET <= i < OFFSET + zlen (data_nodes ns) -> is_Some (nodes_index ns i).
Proof.
  unfold nodes_index, OFFSET, HEAD, TAIL, zlen. intros H.
  destruct (Z.eqb_spec i 0); [lia|]. destruct (Z.eqb_spec i 1); [lia|].
  destruct (Z.ltb_spec i 0); [lia|]. apply lookup_lt_is_Some. lia.
Qed.

Lemma nodes_index_Some ns i n :
  nodes_index ns i = Some n -> i = HEAD \/ i = TAIL \/ OFFSET <= i < OFFSET + zlen (data_nodes ns).
Proof.
  unfold nodes_index, OFFSET, HEAD, TAIL, zlen. intros H.
  destruct (Z.eqb_spec i 0); [by left|]. destruct (Z.eqb_spec i 1); [by right; left|].
  destruct (Z.ltb_spec i 0); [done|]. apply lookup_lt_Some in H. lia.
Qed.

(** ** Chains of links *)

(** Following [next] from [a] visits [ids] and arrives at [b], and [prev] goes
    back the same way. *)
Fixpoint chain ns (a : Z) ids (b : Z) : Prop :=
  match ids with
  | [] => nx ns a = Some b /\ pv ns b = Some a
  | i :: ids => nx ns a = Some i /\ pv ns i = Some a /\ chain ns i ids b
  end.

Lemma chain_app ns a ids1 i ids2 b :
  chain ns a (ids1 ++ i :: ids2) b <-> chain ns a ids1 i /\ chain ns i ids2 b.
Proof.
  revert a. induction ids1 as [|j ids1 IH]; intros a; simpl; [tauto|]. rewrite IH. tauto.
Qed.

Lemma last_cons i ids (a : Z) : List.last (i :: ids) a = List.last ids i.
Proof.
  revert i a. induction ids as [|j ids IH]; intros i a; [done|].
  change (List.last (i :: j :: ids) a) with (List.last (j :: ids) a).
  by rewrite !IH.
Qed.

Lemma chain_first ns a ids b :
  chain ns a ids b -> nx ns a = Some (default b (hd_error ids)).
Proof. destruct ids; simpl; tauto. Qed.

Lemma chain_last ns a ids b :
  chain ns a ids b -> pv ns b = Some (List.last ids a).
Proof.
  revert a. induction ids as [|i ids IH]; intros a; [simpl; tauto|].
  intros (_ & _ & H). rewrite (IH i H). f_equal. symmetry. apply last_cons.
Qed.

(** Only the [next] of the chain's sources and the [prev] of its targets matter. *)
Lemma chain_ext ns ns' a ids b :
  (forall j, j = a \/ j ∈ ids -> nx ns' j = nx ns j) ->
  (forall j, j = b \/ j ∈ ids -> pv ns' j = pv ns j) ->
  chain ns a ids b -> chain ns' a ids b.
Proof.
  revert a. induction ids as [|i ids IH]; intros a Hn Hp; simpl.
  - intros [H1 H2]. rewrite Hn, Hp by auto. done.
  - intros (H1 & H2 & H3). rewrite Hn, Hp by set_solver. split; [done|]. split; [done|].
    apply IH; [| |done]; intros j Hj; [apply Hn|apply Hp]; set_solver.
Qed.

(** ** The representation *)

Record repr l xs : Prop := {
  repr_chain : chain (nodes l) HEAD xs.*1 TAIL;
  repr_ends : pv (nodes l) HEAD = Some NULL /\ nx (nodes l) TAIL = Some NULL;
  repr_data : Forall (fun x => dt (nodes l) x.1 = Some x.2) xs;
  repr_free : Forall (fun i => nx (nodes l) i = Some NULL /\ pv (nodes l) i = Some NULL) (free l);
  repr_slots : Forall (fun i => OFFSET <= i < OFFSET + zlen (data_nodes (nodes l)))
                 (xs.*1 ++ free l);
  repr_nodup : NoDup (xs.*1 ++ free l);
  repr_count : zlen xs + zlen (free l) = zlen (data_nodes (nodes l));
  repr_max : OFFSET + zlen (data_nodes (nodes l)) <= MAX_SLOTS
}.

Lemma repr_empty : repr (with_capacity default_k) [].
Proof. by split; try apply Forall_nil_2; try apply NoDup_nil_2. Qed.

(** A store that differs only in the nodes listed. *)
Lemma slot_bounds l xs i :
  repr l xs -> i ∈ xs.*1 \/ i ∈ free l -> OFFSET <= i < NULL /\ i <> HEAD /\ i <> TAIL.
Proof.
  intros H Hi. pose proof (repr_max _ _ H). pose proof (repr_slots _ _ H) as Hs.
  rewrite Forall_forall in Hs. specialize (Hs i (proj2 (elem_of_app _ _ _) Hi)).
  unfold OFFSET, HEAD, TAIL, MAX_SLOTS, NULL in *. lia.
Qed.

Lemma repr_len l xs : repr l xs -> len l = zlen xs.
Proof.
  intros H. unfold len, nodes_len. rewrite <- (repr_count _ _ H).
  pose proof (repr_max _ _ H). rewrite <- (repr_count _ _ H) in *.
  pose proof (zlen_nonneg xs). pose proof (zlen_nonneg (free l)).
  unfold MAX_SLOTS, OFFSET in *. rewrite wsub_small by uz. lia.
Qed.

Lemma repr_index l xs i d : repr l xs -> (i, d) ∈ xs -> nodes_index (nodes l) i <> None /\ dt (nodes l) i = Some d.
Proof.
  intros H Hi. pose proof (repr_data _ _ H) as Hd. rewrite Forall_forall in Hd.
  specialize (Hd _ Hi). simpl in Hd. split; [|done]. unfold dt in Hd. by destruct (nodes_index _ _).
Qed.

Lemma valid_member l xs i d : repr l xs -> (i, d) ∈ xs -> valid_index l i = true /\ to_compact i = Some i.
Proof.
  intros H Hi. assert (Hm : i ∈ xs.*1) by (apply list_elem_of_fmap; by exists (i, d)).
  pose proof (slot_bounds l xs i H (or_introl Hm)) as (Hb & _ & _).
  pose proof (repr_slots _ _ H) as Hs. rewrite Forall_forall in Hs.
  specialize (Hs i (proj2 (elem_of_app _ _ _) (or_introl Hm))).
  unfold valid_index, is_valid_slot, to_compact, nodes_len. unfold OFFSET in *.
  destruct (Z.eqb_spec i NULL); [lia|].
  destruct (Z.leb_spec 2 i), (Z.ltb_spec (i - 2) (zlen (data_nodes (nodes l)))),
    (Z.leb_spec 0 i), (Z.ltb_spec i NULL); try lia. done.
Qed.

(** [peek] returns the value stored under an index of the list. *)
Lemma repr_peek l xs i d : repr l xs -> (i, d) ∈ xs -> peek l i = Some d.
Proof.
  intros H Hi. destruct (valid_member _ _ _ _ H Hi) as [Hv _].
  unfold peek, node. rewrite Hv. by apply (repr_index _ _ _ _ H Hi).
Qed.

(** ** Links after an insertion or a removal *)

Lemma upd_nodes_Some i f l n :
  nodes_index (nodes l) i = Some n -> exists l', upd_nodes (nodes_update i f) l = Some l' /\
    free l' = free l /\ zlen (data_nodes (nodes l')) = zlen (data_nodes (nodes l)) /\
    forall j, nodes_index (nodes l') j = if decide (i = j) then Some (f n) else nodes_index (nodes l) j.
Proof.
  intros Hn. destruct (nodes_update_Some i f _ _ Hn) as (ns' & Hu & Hl & Hj).
  exists (mkList ns' (free l)). unfold upd_nodes. rewrite Hu. simpl. unfold zlen. by rewrite Hl.
Qed.

(** [l'] has the slots of [l], with other links. *)
Definition relinked l l' (fnx fpv : Z -> option Z) : Prop :=
  free l' = free l /\ zlen (data_nodes (nodes l')) = zlen (data_nodes (nodes l)) /\
  (forall j, nx (nodes l') j = fnx j) /\ (forall j, pv (nodes l') j = fpv j) /\
  (forall j, dt (nodes l') j = dt (nodes l) j).

Lemma insert_after_spec l n a x :
  a <> TAIL -> a <> n -> nx (nodes l) a = Some x -> x <> n -> x <> a ->
  is_Some (nodes_index (nodes l) n) -> is_Some (nodes_index (nodes l) x) ->
  exists l', insert_after n a l = Some l' /\
    relinked l l' (fun j => if decide (a = j) then Some n else if decide (n = j) then Some x
                            else nx (nodes l) j)
                  (fun j => if decide (n = j) then Some a else if decide (x = j) then Some n
                            else pv (nodes l) j).
Proof.
  intros Hat Han Hx Hxn Hxa [nn Hn] [xn Hxx]. unfold insert_after.
  destruct (Z.eqb_spec a TAIL); [done|]. destruct (Z.eqb_spec a n); [done|]. simpl.
  unfold nx in Hx. destruct (nodes_index (nodes l) a) as [an|] eqn:Ha; [|done].
  simpl in *. injection Hx as ->.
  destruct (upd_nodes_Some a (set_next n) l an Ha) as (l1 & -> & Hf1 & Hl1 & Hj1). simpl.
  assert (Hn1 : nodes_index (nodes l1) n = Some nn) by (rewrite Hj1, decide_False by done; done).
  destruct (upd_nodes_Some n (fun n => set_prev a (set_next x n)) l1 nn Hn1)
    as (l2 & -> & Hf2 & Hl2 & Hj2). simpl.
  assert (Hx2 : nodes_index (nodes l2) x = Some xn)
    by (rewrite Hj2, decide_False, Hj1, decide_False by done; done).
  destruct (upd_nodes_Some x (set_prev n) l2 xn Hx2) as (l3 & -> & Hf3 & Hl3 & Hj3).
  exists l3. split; [done|]. split; [congruence|]. split; [congruence|].
  unfold nx, pv, dt in *. repeat split; intros j; rewrite Hj3;
    (destruct (decide (x = j)) as [<-|]; [rewrite ?decide_False by done; by rewrite ?Hxx|]);
    rewrite Hj2; (destruct (decide (n = j)) as [<-|]; [rewrite ?decide_False by done; by rewrite ?Hn|]);
    rewrite Hj1; (destruct (decide (a = j)) as [<-|]; [by rewrite ?Ha|]); done.
Qed.

Lemma unlink_spec l i p x :
  i <> HEAD -> i <> TAIL -> nx (nodes l) i = Some x -> pv (nodes l) i = Some p ->
  x <> NULL -> p <> NULL -> x <> i -> p <> i ->
  is_Some (nodes_index (nodes l) p) -> is_Some (nodes_index (nodes l) x) ->
  exists l', unlink i l = Some l' /\
    relinked l l' (fun j => if decide (i = j) then Some NULL else if decide (p = j) then Some x
                            else nx (nodes l) j)
                  (fun j => if decide (i = j) then Some NULL else if decide (x = j) then Some p
                            else pv (nodes l) j).
Proof.
  intros Hh Ht Hx Hp Hxn Hpn Hxi Hpi [pn Hpp] [xn Hxx]. unfold unlink.
  destruct (Z.eqb_spec i HEAD); [done|]. destruct (Z.eqb_spec i TAIL); [done|]. simpl.
  unfold nx, pv in Hx, Hp. destruct (nodes_index (nodes l) i) as [nd|] eqn:Hi; [|done].
  simpl in *. injection Hx as ->. injection Hp as ->.
  destruct (upd_nodes_Some i (fun n => set_prev NULL (set_next NULL n)) l nd Hi)
    as (l1 & -> & Hf1 & Hl1 & Hj1). simpl.
  destruct (Z.eqb_spec p NULL); [done|]. destruct (Z.eqb_spec x NULL); [done|]. simpl.
  assert (Hp1 : nodes_index (nodes l1) p = Some pn)
    by (rewrite Hj1, decide_False by done; done).
  destruct (upd_nodes_Some p (set_next x) l1 pn Hp1) as (l2 & -> & Hf2 & Hl2 & Hj2).
  simpl. assert (exists y, nodes_index (nodes l2) x = Some y /\ next y = next (if decide (p = x) then set_next x pn else xn) /\ data y = data xn) as (y & Hy & Hyn & Hyd).
  { rewrite Hj2. case_decide as Hpx.
    - eexists. split; [done|]. split; [done|]. simpl. rewrite Hpx in Hpp. congruence.
    - rewrite Hj1, decide_False by done. eauto. }
  destruct (upd_nodes_Some x (set_prev p) l2 y Hy) as (l3 & -> & Hf3 & Hl3 & Hj3).
  exists l3. split; [done|]. split; [congruence|]. split; [congruence|].
  unfold nx, pv, dt in *. repeat split; intros j; rewrite Hj3;
    (destruct (decide (x = j)) as [Hj|Hj];
     [subst j; rewrite ?(decide_False (P := i = x)) by done; rewrite ?Hxx; simpl;
      try (rewrite Hyn; case_decide; done); try done; by rewrite Hyd|]);
    rewrite Hj2; (destruct (decide (p = j)) as [<-|];
      [rewrite ?(decide_False (P := i = p)) by done; by rewrite ?Hpp|]);
    rewrite Hj1; (destruct (decide (i = j)) as [<-|]; [by rewrite ?Hi|]); done.
Qed.

Lemma chain_insert l l' a ids1 ids2 b n :
  NoDup (a :: ids1 ++ ids2) -> b ∉ a :: ids1 ++ ids2 -> n ∉ a :: ids1 ++ ids2 -> n <> b ->
  let p := List.last ids1 a in let x := default b (hd_error ids2) in
  (forall j, nx (nodes l') j = if decide (p = j) then Some n else if decide (n = j) then Some x
                               else nx (nodes l) j) ->
  (forall j, pv (nodes l') j = if decide (n = j) then Some p else if decide (x = j) then Some n
                               else pv (nodes l) j) ->
  chain (nodes l) a (ids1 ++ ids2) b -> chain (nodes l') a (ids1 ++ n :: ids2) b.
Proof.
  revert a. induction ids1 as [|i ids1 IH]; intros a Hnd Hb Hn Hnb p x Hnx Hpv Hc;
    cbn [chain app] in *.
  - subst p. simpl in *. split; [by rewrite Hnx, decide_True|]. split; [by rewrite Hpv, decide_True|].
    assert (n <> a) by set_solver.
    destruct ids2 as [|y ids2]; subst x; simpl in *.
    + rewrite Hnx, decide_False, decide_True by done. split; [done|].
      by rewrite Hpv, decide_False, decide_True by done.
    + destruct Hc as (H1 & H2 & H3).
      split; [by rewrite Hnx, decide_False, decide_True by done|].
      split; [rewrite Hpv, decide_False, decide_True by set_solver; done|].
      eapply chain_ext; [| |exact H3]; intros j Hj.
      * apply NoDup_cons in Hnd as [Hay Hnd].
        rewrite Hnx, !decide_False by set_solver. done.
      * apply NoDup_cons in Hnd as [Hay Hnd]. apply NoDup_cons in Hnd as [Hy Hnd].
        rewrite Hpv, !decide_False by set_solver. done.
  - destruct Hc as (H1 & H2 & H3). subst p. rewrite last_cons in *.
    apply NoDup_cons in Hnd as [Ha Hnd].
    assert (Hp : List.last ids1 i ∈ i :: ids1).
    { clear. revert i. induction ids1 as [|k ids1 IH]; intros i; [set_solver|].
      rewrite last_cons. specialize (IH k). set_solver. }
    split; [rewrite Hnx, !decide_False by set_solver; done|]. split.
    + rewrite Hpv, !decide_False; [done| |set_solver].
      apply NoDup_cons in Hnd as [Hi _]. subst x.
      destruct ids2 as [|y ids2]; simpl; [set_solver|]. set_solver.
    + apply (IH i); auto; set_solver.
Qed.

Lemma chain_remove l l' a ids1 i ids2 b :
  NoDup (a :: ids1 ++ i :: ids2) -> b ∉ a :: ids1 ++ i :: ids2 ->
  let p := List.last ids1 a in let x := default b (hd_error ids2) in
  (forall j, j <> i -> nx (nodes l') j = if decide (p = j) then Some x else nx (nodes l) j) ->
  (forall j, j <> i -> pv (nodes l') j = if decide (x = j) then Some p else pv (nodes l) j) ->
  chain (nodes l) a (ids1 ++ i :: ids2) b -> chain (nodes l') a (ids1 ++ ids2) b.
Proof.
  revert a. induction ids1 as [|k ids1 IH]; intros a Hnd Hb p x Hnx Hpv Hc;
    cbn [chain app] in *.
  - destruct Hc as (H1 & H2 & H3). subst p. simpl in *.
    apply NoDup_cons in Hnd as [Ha Hnd]. apply NoDup_cons in Hnd as [Hi Hnd].
    destruct ids2 as [|y ids2]; subst x; simpl in *.
    + split; [rewrite Hnx, decide_True by set_solver; done|].
      by rewrite Hpv, decide_True by set_solver.
    + destruct H3 as (H3 & H4 & H5).
      split; [rewrite Hnx, decide_True by set_solver; done|].
      split; [rewrite Hpv, decide_True by set_solver; done|].
      apply NoDup_cons in Hnd as [Hy Hnd].
      eapply chain_ext; [| |exact H5]; intros j Hj.
      * rewrite Hnx, decide_False by set_solver. done.
      * rewrite Hpv, decide_False by set_solver. done.
  - destruct Hc as (H1 & H2 & H3). subst p. rewrite last_cons in *.
    apply NoDup_cons in Hnd as [Ha Hnd].
    assert (Hp : List.last ids1 k ∈ k :: ids1).
    { clear. revert k. induction ids1 as [|j ids1 IH]; intros k; [set_solver|].
      rewrite last_cons. specialize (IH j). set_solver. }
    split; [rewrite Hnx, decide_False by set_solver; done|]. split.
    + apply NoDup_cons in Hnd as [Hk _]. rewrite Hpv, decide_False; [done| |set_solver].
      subst x. destruct ids2 as [|y ids2]; simpl; set_solver.
    + apply (IH k); auto; set_solver.
Qed.

(** ** A slot that is neither in the list nor free *)

Record detached l xs (i : Z) (d : K) : Prop := {
  det_chain : chain (nodes l) HEAD xs.*1 TAIL;
  det_ends : pv (nodes l) HEAD = Some NULL /\ nx (nodes l) TAIL = Some NULL;
  det_data : Forall (fun x => dt (nodes l) x.1 = Some x.2) ((i, d) :: xs);
  det_free : Forall (fun i => nx (nodes l) i = Some NULL /\ pv (nodes l) i = Some NULL) (free l);
  det_slots : Forall (fun i => OFFSET <= i < OFFSET + zlen (data_nodes (nodes l)))
                (i :: xs.*1 ++ free l);
  det_nodup : NoDup (i :: xs.*1 ++ free l);
  det_count : 1 + zlen xs + zlen (free l) = zlen (data_nodes (nodes l));
  det_max : OFFSET + zlen (data_nodes (nodes l)) <= MAX_SLOTS
}.

(** The sentinels are no slots. *)
Lemma slots_sentinels l ids :
  Forall (fun i => OFFSET <= i < OFFSET + zlen (data_nodes (nodes l))) ids ->
  HEAD ∉ ids /\ TAIL ∉ ids.
Proof.
  intros H. rewrite Forall_forall in H.
  split; intros Hi; apply H in Hi; unfold OFFSET, HEAD, TAIL in *; lia.
Qed.

Lemma slots_index l ids i :
  Forall (fun i => OFFSET <= i < OFFSET + zlen (data_nodes (nodes l))) ids ->
  i = HEAD \/ i = TAIL \/ i ∈ ids -> is_Some (nodes_index (nodes l) i).
Proof.
  intros H [->|[->|Hi]]; [by eexists..|]. apply nodes_index_in. rewrite Forall_forall in H. auto.
Qed.

Lemma last_member (ids : list Z) a : List.last ids a = a \/ List.last ids a ∈ ids.
Proof.
  revert a. induction ids as [|i ids IH]; intros a; [by left|]. right. rewrite last_cons.
  destruct (IH i) as [-> |]; set_solver.
Qed.

Lemma first_member (ids : list Z) b : default b (hd_error ids) = b \/ default b (hd_error ids) ∈ ids.
Proof. destruct ids; simpl; set_solver. Qed.

(** Putting the detached slot between [ids1] and [ids2]: the links. *)
Lemma attach_links l ids1 ids2 i :
  chain (nodes l) HEAD (ids1 ++ ids2) TAIL ->
  pv (nodes l) HEAD = Some NULL -> nx (nodes l) TAIL = Some NULL ->
  Forall (fun i => OFFSET <= i < OFFSET + zlen (data_nodes (nodes l)))
    (i :: (ids1 ++ ids2) ++ free l) ->
  NoDup (i :: (ids1 ++ ids2) ++ free l) ->
  exists l', insert_after i (List.last ids1 HEAD) l = Some l' /\ free l' = free l /\
    zlen (data_nodes (nodes l')) = zlen (data_nodes (nodes l)) /\
    chain (nodes l') HEAD (ids1 ++ i :: ids2) TAIL /\
    pv (nodes l') HEAD = Some NULL /\ nx (nodes l') TAIL = Some NULL /\
    (forall j, dt (nodes l') j = dt (nodes l) j) /\
    (forall j, j ∈ free l -> nx (nodes l') j = nx (nodes l) j /\ pv (nodes l') j = pv (nodes l) j).
Proof.
  intros Hc He1 He2 Hs Hnd. pose proof (slots_sentinels _ _ Hs) as [Hh Ht].
  remember (List.last ids1 HEAD) as p eqn:Ep. remember (default TAIL (hd_error ids2)) as x eqn:Ex.
  apply NoDup_cons in Hnd as [Hi Hnd]. apply NoDup_app in Hnd as (Hnd1 & Hdisj & _).
  apply NoDup_app in Hnd1 as Hnd2. destruct Hnd2 as (_ & Hn12 & _).
  rewrite elem_of_cons, !elem_of_app in Hh, Ht. rewrite !elem_of_app in Hi.
  setoid_rewrite elem_of_app in Hdisj.
  assert (HT : HEAD <> TAIL) by done.
  assert (Hp : p = HEAD \/ p ∈ ids1) by (subst p; apply last_member).
  assert (Hx : x = TAIL \/ x ∈ ids2) by (subst x; apply first_member).
  assert (Hnx : nx (nodes l) p = Some x).
  { clear -Hc Ep Ex. subst p x. destruct (decide (ids1 = [])) as [->|Hne]; simpl in *;
      [by apply chain_first|].
    destruct (exists_last Hne) as (ys & j & ->). rewrite List.last_last.
    rewrite <- app_assoc in Hc. apply chain_app in Hc as [_ Hc]. by apply chain_first in Hc. }
  assert (Hpx : x <> p) by (clear -Hh Ht HT Hn12 Hp Hx; naive_solver).
  assert (Hix : x <> i) by (clear -Hi Ht Hx; naive_solver).
  assert (Hip : p <> i) by (clear -Hi Hh Hp; naive_solver).
  assert (Hpt : p <> TAIL) by (clear -Ht HT Hp; naive_solver).
  assert (Hxh : x <> HEAD) by (clear -Hh HT Hx; naive_solver).
  destruct (insert_after_spec l i p x) as (l' & Hl' & Hfr & Hlen & Hnx' & Hpv' & Hdt'); auto.
  - apply (slots_index _ _ _ Hs). right. right. by left.
  - apply (slots_index _ _ _ Hs). rewrite elem_of_cons, !elem_of_app. clear -Hx. naive_solver.
  - exists l'. split; [done|]. split; [done|]. split; [done|]. split; [|split; [|split]].
    + rewrite Ep, Ex in *. eapply (chain_insert l l'); [| | | |exact Hnx'|exact Hpv'|exact Hc];
        rewrite ?NoDup_cons, ?elem_of_cons, ?elem_of_app; clear -Hh Ht HT Hi Hnd1; naive_solver.
    + rewrite Hpv', !decide_False; [done|done|clear -Hh; naive_solver].
    + rewrite Hnx', !decide_False; [done|clear -Ht; naive_solver|done].
    + split; [done|]. intros j Hj.
      assert (i <> j /\ p <> j /\ x <> j) as (? & ? & ?)
        by (clear -Hj Hh Ht Hi Hp Hx Hdisj; naive_solver).
      by rewrite Hnx', Hpv', !decide_False.
Qed.

Lemma attach l xs1 xs2 i d :
  detached l (xs1 ++ xs2) i d ->
  exists l', insert_after i (List.last xs1.*1 HEAD) l = Some l' /\
    repr l' (xs1 ++ (i, d) :: xs2).
Proof.
  intros [Hc [He1 He2] Hd Hf Hs Hnd Hcnt Hmax]. rewrite fmap_app in *.
  destruct (attach_links _ _ _ _ Hc He1 He2 Hs Hnd)
    as (l' & Hl' & Hfr & Hlen & Hc' & Hh & Ht & Hdt & Hfree).
  exists l'. split; [done|]. split; rewrite ?fmap_app, ?fmap_cons, ?Hfr, ?Hlen; try done.
  - assert (Hd' : Forall (fun y => dt (nodes l') y.1 = Some y.2) ((i, d) :: xs1 ++ xs2)).
    { eapply Forall_impl; [exact Hd|]. intros y Hy. by rewrite Hdt. }
    eapply Permutation_Forall; [|exact Hd']. apply Permutation_middle.
  - rewrite Forall_forall in *. intros j Hj. destruct (Hfree j Hj) as [-> ->]. auto.
  - eapply Permutation_Forall; [|exact Hs]. by rewrite <- Permutation_middle.
  - simpl. by rewrite <- Permutation_middle.
  - rewrite zlen_app, zlen_cons. rewrite zlen_app in Hcnt. lia.
Qed.

(** Taking a slot out of the list. *)
Lemma detach_links l ids1 i ids2 :
  chain (nodes l) HEAD (ids1 ++ i :: ids2) TAIL ->
  pv (nodes l) HEAD = Some NULL -> nx (nodes l) TAIL = Some NULL ->
  Forall (fun i => OFFSET <= i < OFFSET + zlen (data_nodes (nodes l)))
    ((ids1 ++ i :: ids2) ++ free l) ->
  NoDup ((ids1 ++ i :: ids2) ++ free l) ->
  OFFSET + zlen (data_nodes (nodes l)) <= MAX_SLOTS ->
  exists l', unlink i l = Some l' /\ free l' = free l /\
    zlen (data_nodes (nodes l')) = zlen (data_nodes (nodes l)) /\
    chain (nodes l') HEAD (ids1 ++ ids2) TAIL /\
    pv (nodes l') HEAD = Some NULL /\ nx (nodes l') TAIL = Some NULL /\
    (forall j, dt (nodes l') j = dt (nodes l) j) /\
    (forall j, j ∈ free l -> nx (nodes l') j = nx (nodes l) j /\ pv (nodes l') j = pv (nodes l) j) /\
    nx (nodes l') i = Some NULL /\ pv (nodes l') i = Some NULL.
Proof.
  intros Hc He1 He2 Hs Hnd Hmax. pose proof (slots_sentinels _ _ Hs) as [Hh Ht].
  apply chain_app in Hc as Hc'. destruct Hc' as [Hc1 Hc2].
  apply chain_last in Hc1 as Hpv. apply chain_first in Hc2 as Hnx.
  remember (List.last ids1 HEAD) as p eqn:Ep. remember (default TAIL (hd_error ids2)) as x eqn:Ex.
  assert (Hp : p = HEAD \/ p ∈ ids1) by (subst p; apply last_member).
  assert (Hx : x = TAIL \/ x ∈ ids2) by (subst x; apply first_member).
  apply NoDup_app in Hnd as (Hnd & Hdisj & _). apply NoDup_app in Hnd as Hnd'.
  destruct Hnd' as (_ & Hn12 & Hn2). apply NoDup_cons in Hn2 as [Hi2 _].
  rewrite !elem_of_app, elem_of_cons in Hh, Ht.
  setoid_rewrite elem_of_app in Hdisj. setoid_rewrite elem_of_cons in Hdisj.
  setoid_rewrite elem_of_cons in Hn12.
  assert (HT : HEAD <> TAIL) by done.
  assert (HN : forall j, j = HEAD \/ j = TAIL \/ j ∈ ids1 ++ i :: ids2 -> j <> NULL).
  { intros j [->|[->|Hj]]; [done..|]. rewrite Forall_forall in Hs.
    specialize (Hs j (proj2 (elem_of_app _ _ _) (or_introl Hj))). unfold MAX_SLOTS, NULL in *. lia. }
  setoid_rewrite elem_of_app in HN. setoid_rewrite elem_of_cons in HN.
  assert (Hxi : x <> i) by (clear -Hx Ht Hi2; naive_solver).
  assert (Hpi : p <> i) by (clear -Hp Hh Hn12; naive_solver).
  destruct (unlink_spec l i p x) as (l' & Hl' & Hfr & Hlen & Hnx' & Hpv' & Hdt'); auto.
  - clear -Hh. naive_solver.
  - clear -Ht. naive_solver.
  - clear -HN Hx. naive_solver.
  - clear -HN Hp. naive_solver.
  - apply (slots_index _ _ _ Hs). rewrite !elem_of_app. clear -Hp. naive_solver.
  - apply (slots_index _ _ _ Hs). rewrite !elem_of_app, elem_of_cons. clear -Hx. naive_solver.
  - exists l'. split; [done|]. split; [done|]. split; [done|]. split; [|split; [|split; [|split]]].
    + rewrite Ep, Ex in *. eapply (chain_remove l l'); [| | | |exact Hc].
      * apply NoDup_cons. rewrite !elem_of_app, !elem_of_cons. clear -Hh Hnd. naive_solver.
      * rewrite !elem_of_cons, !elem_of_app, !elem_of_cons. clear -Ht HT. naive_solver.
      * intros j Hj. by rewrite Hnx', (decide_False (P := i = j)) by congruence.
      * intros j Hj. by rewrite Hpv', (decide_False (P := i = j)) by congruence.
    + rewrite Hpv', !decide_False; [done|clear -Hh HT Hx; naive_solver|clear -Hh; naive_solver].
    + rewrite Hnx', !decide_False; [done|clear -Ht HT Hp; naive_solver|clear -Ht; naive_solver].
    + done.
    + rewrite Hnx', Hpv', !decide_True by done. split; [|done]. intros j Hj.
      assert (i <> j /\ p <> j /\ x <> j) as (? & ? & ?)
        by (clear -Hj Hh Ht Hp Hx Hdisj; naive_solver).
      by rewrite Hnx', Hpv', !decide_False.
Qed.

Lemma detach l xs1 i d xs2 :
  repr l (xs1 ++ (i, d) :: xs2) ->
  exists l', unlink i l = Some l' /\ detached l' (xs1 ++ xs2) i d /\
    nx (nodes l') i = Some NULL /\ pv (nodes l') i = Some NULL.
Proof.
  intros [Hc [He1 He2] Hd Hf Hs Hnd Hcnt Hmax]. rewrite fmap_app in *. simpl in *.
  destruct (detach_links _ _ _ _ Hc He1 He2 Hs Hnd Hmax)
    as (l' & Hl' & Hfr & Hlen & Hc' & Hh & Ht & Hdt & Hfree & Hi1 & Hi2).
  exists l'. split; [done|]. split; [|done].
  split; rewrite ?fmap_app, ?Hfr, ?Hlen; try done.
  - assert (Hd' : Forall (fun y => dt (nodes l') y.1 = Some y.2) (xs1 ++ (i, d) :: xs2)).
    { eapply Forall_impl; [exact Hd|]. intros y Hy. by rewrite Hdt. }
    eapply Permutation_Forall; [|exact Hd']. symmetry. apply Permutation_middle.
  - rewrite Forall_forall in *. intros j Hj. destruct (Hfree j Hj) as [-> ->]. auto.
  - eapply Permutation_Forall; [|exact Hs]. by rewrite <- Permutation_middle.
  - by rewrite <- Permutation_middle in Hnd.
  - rewrite zlen_app, zlen_cons in Hcnt. rewrite zlen_app. lia.
Qed.

(** ** Allocation and release *)

(** There is a free slot, or the vector can grow by one. *)
Definition room l : Prop := free l <> [] \/ OFFSET + zlen (data_nodes (nodes l)) < MAX_SLOTS.

(** [ns'] agrees with [ns] on the links and data of [ids] and of the sentinels. *)
Lemma chain_agree ns ns' ids :
  (forall j, j = HEAD \/ j = TAIL \/ j ∈ ids -> nx ns' j = nx ns j /\ pv ns' j = pv ns j) ->
  chain ns HEAD ids TAIL -> chain ns' HEAD ids TAIL.
Proof. intros H. apply chain_ext; intros j Hj; apply H; tauto. Qed.

(** A store in which only a slot outside [xs] and the free list has changed. *)
Lemma detached_intro l l' xs i d :
  chain (nodes l) HEAD xs.*1 TAIL ->
  pv (nodes l) HEAD = Some NULL -> nx (nodes l) TAIL = Some NULL ->
  Forall (fun x => dt (nodes l) x.1 = Some x.2) xs ->
  Forall (fun i => nx (nodes l) i = Some NULL /\ pv (nodes l) i = Some NULL) (free l') ->
  (forall j, j <> i -> nodes_index (nodes l') j = nodes_index (nodes l) j) ->
  dt (nodes l') i = Some d ->
  Forall (fun i => OFFSET <= i < OFFSET + zlen (data_nodes (nodes l'))) (i :: xs.*1 ++ free l') ->
  NoDup (i :: xs.*1 ++ free l') ->
  1 + zlen xs + zlen (free l') = zlen (data_nodes (nodes l')) ->
  OFFSET + zlen (data_nodes (nodes l')) <= MAX_SLOTS ->
  detached l' xs i d.
Proof.
  intros Hc He1 He2 Hd Hf Hag Hdi Hs Hnd Hcnt Hmax.
  pose proof (slots_sentinels _ _ Hs) as [Hh Ht]. apply NoDup_cons in Hnd as Hnd'.
  destruct Hnd' as [Hi _]. rewrite elem_of_cons in Hh, Ht. rewrite elem_of_app in Hi.
  split; try done.
  - eapply chain_agree; [|exact Hc]. intros j Hj. unfold nx, pv.
    rewrite Hag; [done|]. clear -Hj Hh Ht Hi. naive_solver.
  - unfold nx, pv in *. rewrite !Hag by (clear -Hh Ht; naive_solver). done.
  - apply Forall_cons. split; [done|]. rewrite Forall_forall in *. intros [j e] Hj.
    unfold dt. simpl. rewrite Hag; [by apply (Hd (j, e))|]. intros ->. apply Hi. left.
    apply list_elem_of_fmap. by exists (i, e).
  - rewrite Forall_forall in *. intros j Hj. unfold nx, pv in *.
    rewrite Hag; [by apply Hf|]. clear -Hj Hi. naive_solver.
Qed.

Lemma nodes_index_push ns n j :
  nodes_index (mkNodes (n_head ns) (n_tail ns) (data_nodes ns ++ [n])) j =
  if decide (j = OFFSET + zlen (data_nodes ns)) then Some n else nodes_index ns j.
Proof.
  unfold nodes_index, zlen, OFFSET, HEAD, TAIL. simpl.
  destruct (Z.eqb_spec j 0); [rewrite decide_False by lia; done|].
  destruct (Z.eqb_spec j 1); [rewrite decide_False by lia; done|].
  destruct (Z.ltb_spec j 0); [rewrite decide_False by lia; done|].
  case_decide as Hj.
  - replace (Z.to_nat (j - 2)) with (length (data_nodes ns)) by lia.
    by rewrite lookup_app_r, Nat.sub_diag by lia.
  - destruct (decide (Z.to_nat (j - 2) < length (data_nodes ns))%nat) as [Hlt|Hge].
    + by rewrite lookup_app_l.
    + rewrite !(proj2 (lookup_ge_None _ _)); rewrite ?length_app; simpl; [done|lia..].
Qed.

Lemma new_node_spec l xs d :
  repr l xs -> room l -> exists i l', new_node d l = Some (i, l') /\ detached l' xs i d.
Proof.
  intros H Hroom. destruct H as [Hc [He1 He2] Hd Hf Hs Hnd Hcnt Hmax]. unfold new_node.
  destruct (free l) as [|i fr] eqn:Hfr.
  - (* a new slot *)
    destruct Hroom as [|Hroom]; [done|]. rewrite app_nil_r in *.
    pose proof (zlen_nonneg (data_nodes (nodes l))) as Hm0.
    unfold nodes_new_node. rewrite (proj2 (checked_add_Some _ _ (OFFSET + zlen (data_nodes (nodes l)))))
      by (unfold MAX_SLOTS, OFFSET in *; uz). simpl.
    unfold to_compact. unfold NULL, MAX_SLOTS, OFFSET in *.
    destruct (Z.leb_spec 0 (2 + zlen (data_nodes (nodes l)))); [|lia].
    destruct (Z.ltb_spec (2 + zlen (data_nodes (nodes l))) (2 ^ 32 - 1)); [|lia]. simpl.
    eexists _, _. split; [done|].
    assert (Hnew : 2 + zlen (data_nodes (nodes l)) ∉ xs.*1).
    { intros Hi. rewrite Forall_forall in Hs. apply Hs in Hi. lia. }
    eapply (detached_intro l); simpl; try done; rewrite ?zlen_app; change (zlen [_]) with 1.
    + intros j Hj. by rewrite nodes_index_push, decide_False.
    + unfold dt. by rewrite nodes_index_push, decide_True.
    + rewrite app_nil_r. apply Forall_cons. split; [unfold OFFSET; lia|].
      eapply Forall_impl; [exact Hs|]. intros j Hj. unfold OFFSET. simpl in Hj. lia.
    + rewrite app_nil_r. by apply NoDup_cons.
    + change (zlen []) with 0 in *. lia.
    + unfold MAX_SLOTS, OFFSET. lia.
  - (* a recycled slot *)
    assert (is_Some (nodes_index (nodes l) i)) as [n Hn].
    { apply (slots_index _ _ _ Hs). rewrite elem_of_app, elem_of_cons. auto. }
    destruct (nodes_update_Some i (set_data d) _ _ Hn) as (ns' & -> & Hl & Hj). simpl.
    eexists _, _. split; [done|]. apply Forall_cons in Hf as [_ Hf].
    assert (Hz : zlen (data_nodes ns') = zlen (data_nodes (nodes l))) by (unfold zlen; by rewrite Hl).
    eapply (detached_intro l); simpl; try done; rewrite ?Hz; try done.
    + intros j Hne. by rewrite Hj, decide_False.
    + unfold dt. by rewrite Hj, decide_True.
    + eapply Permutation_Forall; [|exact Hs]. by rewrite <- Permutation_middle.
    + by rewrite <- Permutation_middle in Hnd.
    + rewrite zlen_cons in Hcnt. lia.
Qed.

(** The slot goes on the free list, its value replaced by the default. *)
Lemma release l xs i d :
  detached l xs i d -> nx (nodes l) i = Some NULL -> pv (nodes l) i = Some NULL ->
  exists l', upd_nodes (nodes_update i (set_data default_k)) (mkList (nodes l) (i :: free l)) = Some l' /\
    repr l' xs.
Proof.
  intros [Hc [He1 He2] Hd Hf Hs Hnd Hcnt Hmax] Hi1 Hi2.
  apply Forall_cons in Hd as [Hdi Hd]. simpl in Hdi.
  assert (exists n, nodes_index (nodes l) i = Some n) as [n Hn].
  { unfold dt in Hdi. destruct (nodes_index (nodes l) i); [by eexists|done]. }
  destruct (upd_nodes_Some i (set_data default_k) (mkList (nodes l) (i :: free l)) n Hn)
    as (l' & -> & Hfr & Hlen & Hj). simpl in *. exists l'. split; [done|].
  assert (Hnx : forall j, nx (nodes l') j = nx (nodes l) j).
  { intros j. unfold nx in *. rewrite Hj. case_decide; [subst; by rewrite Hn|done]. }
  assert (Hpv : forall j, pv (nodes l') j = pv (nodes l) j).
  { intros j. unfold pv in *. rewrite Hj. case_decide; [subst; by rewrite Hn|done]. }
  apply NoDup_cons in Hnd as Hnd'. destruct Hnd' as [Hni _]. rewrite elem_of_app in Hni.
  split; rewrite ?Hfr, ?Hlen, ?Hnx, ?Hpv; try done.
  - eapply chain_agree; [|exact Hc]. intros j _. by rewrite Hnx, Hpv.
  - rewrite Forall_forall in *. intros [j e] Hin. unfold dt. simpl. rewrite Hj, decide_False.
    + by apply (Hd (j, e)).
    + intros <-. apply Hni. left. apply list_elem_of_fmap. by exists (i, e).
  - apply Forall_cons. rewrite Hnx, Hpv. split; [done|].
    eapply Forall_impl; [exact Hf|]. intros j [H1 H2]. by rewrite Hnx, Hpv.
  - eapply Permutation_Forall; [|exact Hs]. by rewrite <- Permutation_middle.
  - by rewrite <- Permutation_middle.
  - rewrite zlen_cons. lia.
Qed.

(** ** The operations *)

Lemma push_head_repr l xs d :
  repr l xs -> room l -> exists i l', push_head d l = Some (i, l') /\ repr l' ((i, d) :: xs).
Proof.
  intros H Hroom. destruct (new_node_spec l xs d H Hroom) as (i & l1 & Hnew & Hdet).
  unfold push_head. rewrite Hnew. simpl.
  destruct (attach l1 [] xs i d Hdet) as (l2 & Hins & Hr). simpl in Hins. rewrite Hins. simpl. eauto.
Qed.

Lemma n_tail_pv l : pv (nodes l) TAIL = Some (prev (n_tail (nodes l))).
Proof. done. Qed.
Lemma n_head_nx l : nx (nodes l) HEAD = Some (next (n_head (nodes l))).
Proof. done. Qed.

Lemma push_tail_repr l xs d :
  repr l xs -> room l -> exists i l', push_tail d l = Some (i, l') /\ repr l' (xs ++ [(i, d)]).
Proof.
  intros H Hroom. destruct (new_node_spec l xs d H Hroom) as (i & l1 & Hnew & Hdet).
  unfold push_tail. rewrite Hnew. simpl.
  pose proof (chain_last _ _ _ _ (det_chain _ _ _ _ Hdet)) as Hp.
  rewrite n_tail_pv in Hp. injection Hp as ->. rewrite <- (app_nil_r xs) in Hdet.
  destruct (attach l1 xs [] i d Hdet) as (l2 & -> & Hr). simpl. eauto.
Qed.

Lemma remove_at_repr l xs1 i d xs2 :
  repr l (xs1 ++ (i, d) :: xs2) ->
  exists l', remove_at default_k i l = Some (d, l') /\ repr l' (xs1 ++ xs2).
Proof.
  intros H. destruct (detach l xs1 i d xs2 H) as (l1 & Hu & Hdet & Hi1 & Hi2).
  unfold remove_at. rewrite Hu. simpl.
  pose proof (det_data _ _ _ _ Hdet) as Hd. apply Forall_cons in Hd as [Hd _]. simpl in Hd.
  unfold dt in Hd. destruct (nodes_index (nodes l1) i) as [n|] eqn:Hn; [|done]. simpl in Hd.
  injection Hd as <-. simpl.
  destruct (release l1 (xs1 ++ xs2) i (data n) Hdet Hi1 Hi2) as (l2 & -> & Hr). simpl. eauto.
Qed.

Lemma remove_repr l xs1 i d xs2 :
  repr l (xs1 ++ (i, d) :: xs2) ->
  exists l', remove default_k i l = Some (d, l') /\ repr l' (xs1 ++ xs2).
Proof.
  intros H. unfold remove. destruct (valid_member l _ i d H ltac:(set_solver)) as [_ ->].
  simpl. by apply remove_at_repr.
Qed.

Lemma pop_tail_repr l xs :
  repr l xs ->
  match reverse xs with
  | [] => pop_tail default_k l = Some (None, l)
  | (i, d) :: ys => exists l', pop_tail default_k l = Some (Some d, l') /\ repr l' (reverse ys)
  end.
Proof.
  intros H. pose proof (chain_last _ _ _ _ (repr_chain _ _ H)) as Hp.
  rewrite n_tail_pv in Hp. injection Hp as Hp. unfold pop_tail. rewrite Hp.
  destruct (reverse xs) as [|[i d] ys] eqn:Hrev.
  - apply (f_equal reverse) in Hrev. rewrite reverse_involutive in Hrev. by subst xs.
  - apply (f_equal reverse) in Hrev. rewrite reverse_involutive, reverse_cons in Hrev. subst xs.
    rewrite fmap_app. simpl. rewrite List.last_last.
    pose proof (slot_bounds l _ i H) as (_ & Hh & _).
    { left. rewrite fmap_app, elem_of_app. right. by left. }
    destruct (Z.eqb_spec i HEAD); [done|].
    destruct (remove_at_repr l (reverse ys) i d [] H) as (l' & -> & Hr). simpl.
    rewrite app_nil_r in Hr. eauto.
Qed.

Lemma promote_repr l xs1 i d xs2 :
  repr l (xs1 ++ (i, d) :: xs2) ->
  exists l', promote i l = Some l' /\ repr l' ((i, d) :: xs1 ++ xs2).
Proof.
  intros H. unfold promote. destruct (valid_member l _ i d H ltac:(set_solver)) as [_ ->]. simpl.
  pose proof (chain_first _ _ _ _ (repr_chain _ _ H)) as Hp.
  rewrite n_head_nx in Hp. injection Hp as Hp. rewrite Hp.
  destruct xs1 as [|[j e] xs1]; simpl.
  - rewrite Z.eqb_refl. eauto.
  - destruct (Z.eqb_spec j i) as [->|Hne].
    { pose proof (repr_nodup _ _ H) as Hnd. simpl in Hnd. apply NoDup_cons in Hnd as [Hnd _].
      exfalso. apply Hnd. rewrite fmap_app, !elem_of_app. simpl. rewrite elem_of_cons. auto. }
    destruct (detach l ((j, e) :: xs1) i d xs2 H) as (l1 & -> & Hdet & _). simpl.
    apply (attach l1 [] _ i d Hdet).
Qed.

(** Every slot is in the list or free. *)
Lemma slot_cases l xs i :
  repr l xs -> OFFSET <= i < OFFSET + zlen (data_nodes (nodes l)) -> i ∈ xs.*1 \/ i ∈ free l.
Proof.
  intros H Hr. destruct (decide (i ∈ xs.*1)) as [|Hi]; [by left|].
  destruct (decide (i ∈ free l)) as [|Hf]; [by right|]. exfalso.
  assert (Hnd : NoDup (i :: xs.*1 ++ free l)).
  { apply NoDup_cons. split; [|apply (repr_nodup _ _ H)]. rewrite elem_of_app. tauto. }
  assert (Hall : forall j, j ∈ i :: xs.*1 ++ free l -> j ∈ seqZ OFFSET (zlen (data_nodes (nodes l)))).
  { intros j Hj. apply elem_of_seqZ. apply elem_of_cons in Hj as [->|Hj]; [done|].
    pose proof (repr_slots _ _ H) as Hs. rewrite Forall_forall in Hs. by apply Hs. }
  pose proof (submseteq_length _ _ (NoDup_submseteq _ _ Hnd Hall)) as Hlen.
  rewrite length_seqZ in Hlen. simpl in Hlen. rewrite length_app, length_fmap in Hlen.
  pose proof (repr_count _ _ H). unfold zlen in *. lia.
Qed.

(** An index that is not in the list - never allocated, a sentinel or already
    removed - cannot be unlinked. *)
Lemma unlink_absent l xs i : repr l xs -> i ∉ xs.*1 -> unlink i l = None.
Proof.
  intros H Hi. unfold unlink.
  destruct (Z.eqb_spec i HEAD); [done|]. destruct (Z.eqb_spec i TAIL); [done|]. simpl.
  destruct (nodes_index (nodes l) i) as [nd|] eqn:Hn; [|done]. simpl.
  destruct (upd_nodes_Some i (fun n => set_prev NULL (set_next NULL n)) l nd Hn) as (l1 & -> & _).
  simpl. enough (prev nd = NULL) as -> by done.
  pose proof (nodes_index_Some _ _ _ Hn) as [|[|Hr]]; [done..|].
  destruct (slot_cases l xs i H Hr) as [|Hf]; [done|].
  pose proof (repr_free _ _ H) as Hfr. rewrite Forall_forall in Hfr. specialize (Hfr i Hf) as [_ Hp].
  unfold pv in Hp. rewrite Hn in Hp. by injection Hp.
Qed.

Lemma remove_absent l xs i : repr l xs -> i ∉ xs.*1 -> remove default_k i l = None.
Proof.
  intros H Hi. unfold remove, remove_at. destruct (to_compact i) as [j|] eqn:Hc; [|done]. simpl.
  unfold to_compact in Hc. case_match; simplify_eq. by rewrite (unlink_absent l xs).
Qed.

Lemma promote_absent l xs i : repr l xs -> i ∉ xs.*1 -> i <> TAIL -> promote i l = None.
Proof.
  intros H Hi Ht. unfold promote. destruct (to_compact i) as [j|] eqn:Hc; [|done]. simpl.
  unfold to_compact in Hc. case_match; simplify_eq.
  pose proof (chain_first _ _ _ _ (repr_chain _ _ H)) as Hp. rewrite n_head_nx in Hp.
  injection Hp as ->. destruct (Z.eqb_spec (default TAIL (hd_error xs.*1)) j) as [He|_].
  - destruct (first_member xs.*1 TAIL); congruence.
  - by rewrite (unlink_absent l xs).
Qed.

(** ** Navigation *)

Lemma head_repr l xs : repr l xs -> head l = fst <$> hd_error xs.
Proof.
  intros H. pose proof (chain_first _ _ _ _ (repr_chain _ _ H)) as Hp. rewrite n_head_nx in Hp.
  injection Hp as Hp. unfold head. rewrite Hp. destruct xs as [|[i d] xs]; [done|]. simpl.
  destruct (slot_bounds l _ i H) as (_ & _ & Ht); [left; by left|].
  by destruct (Z.eqb_spec i TAIL).
Qed.

Lemma tail_repr l xs : repr l xs -> tail l = fst <$> last xs.
Proof.
  intros H. pose proof (chain_last _ _ _ _ (repr_chain _ _ H)) as Hp. rewrite n_tail_pv in Hp.
  injection Hp as Hp. unfold tail. rewrite Hp. destruct xs as [|[i d] xs _] using rev_ind; [done|].
  rewrite fmap_app, last_snoc. simpl. rewrite List.last_last.
  destruct (slot_bounds l _ i H) as (_ & Hh & _).
  { left. rewrite fmap_app, elem_of_app. right. by left. }
  by destruct (Z.eqb_spec i HEAD).
Qed.

(** Position [k] of the sequence of indices, sentinels included. *)
Lemma step_next l xs1 i d xs2 a :
  repr l (xs1 ++ (i, d) :: xs2) -> a = List.last xs1.*1 HEAD ->
  exists n m, nodes_index (nodes l) a = Some n /\ next n = i /\
    nodes_index (nodes l) i = Some m /\ data m = d /\ i <> TAIL /\ i <> NULL.
Proof.
  intros H ->. pose proof (repr_chain _ _ H) as Hc. rewrite fmap_app in Hc.
  assert (Hin : (i, d) ∈ xs1 ++ (i, d) :: xs2) by set_solver.
  assert (Hi : i ∈ (xs1 ++ (i, d) :: xs2).*1) by (apply list_elem_of_fmap; by exists (i, d)).
  destruct (slot_bounds l _ i H (or_introl Hi)) as (Hb & _ & Ht).
  destruct (repr_index l _ i d H Hin) as [_ Hdt].
  assert (Hnx : nx (nodes l) (List.last xs1.*1 HEAD) = Some i).
  { clear -Hc. destruct xs1 as [|x xs1 _] using rev_ind; [apply Hc|].
    rewrite fmap_app in *. simpl in *. rewrite List.last_last. rewrite <- app_assoc in Hc.
    apply chain_app in Hc as [_ Hc]. apply Hc. }
  unfold nx, dt in *. destruct (nodes_index (nodes l) (List.last xs1.*1 HEAD)) as [n|]; [|done].
  destruct (nodes_index (nodes l) i) as [m|]; [|done]. simpl in *. simplify_eq.
  exists n, m. repeat split; auto. lia.
Qed.

Lemma last_next l xs : repr l xs ->
  exists n, nodes_index (nodes l) (List.last xs.*1 HEAD) = Some n /\ next n = TAIL.
Proof.
  intros H. pose proof (repr_chain _ _ H) as Hc.
  assert (Hnx : nx (nodes l) (List.last xs.*1 HEAD) = Some TAIL).
  { destruct xs as [|x xs _] using rev_ind; [apply Hc|].
    rewrite fmap_app in *. simpl in *. rewrite List.last_last.
    apply chain_app in Hc as [_ Hc]. apply Hc. }
  unfold nx in Hnx. destruct (nodes_index (nodes l) _); [|done]. simpl in Hnx. simplify_eq. eauto.
Qed.

(** The iterator driven to its end, and the backward one. *)
Fixpoint collect (step : Iter -> option (option K * Iter)) (fuel : nat) (it : Iter)
    : option (list K) :=
  match fuel with
  | O => None
  | S fuel =>
      '(o, it) ← step it;
      match o with
      | None => Some []
      | Some d => ds ← collect step fuel it; Some (d :: ds)
      end
  end.

Lemma collect_next l xs1 xs2 t n fuel :
  repr l (xs1 ++ xs2) -> (length xs2 < fuel)%nat ->
  collect (iter_next l) fuel (mkIter (List.last xs1.*1 HEAD) t n) = Some xs2.*2.
Proof.
  revert xs1 n fuel. induction xs2 as [|[i d] xs2 IH]; intros xs1 n fuel H Hf;
    (destruct fuel as [|fuel]; [simpl in Hf; lia|]); simpl.
  - rewrite app_nil_r in H. destruct (last_next l xs1 H) as (nd & Hnd & Hn).
    unfold iter_next. simpl. rewrite Hnd. simpl. by rewrite Hn.
  - destruct (step_next l xs1 i d xs2 _ H eq_refl) as (nd & m & Hnd & Hn & Hm & Hd & Ht & Hnull).
    assert (Hstep : iter_next l (mkIter (List.last xs1.*1 HEAD) t n) =
              Some (Some d, mkIter i t (wsub n 1))).
    { unfold iter_next. simpl. rewrite Hnd. simpl. rewrite Hn.
      destruct (Z.eqb_spec i TAIL); [done|]. destruct (Z.eqb_spec i NULL); [done|]. simpl.
      rewrite Hm. simpl. by rewrite Hd. }
    rewrite Hstep. simpl.
    assert (Hl : i = List.last (xs1 ++ [(i, d)]).*1 HEAD)
      by (rewrite fmap_app; simpl; by rewrite List.last_last).
    rewrite Hl at 1. rewrite (IH (xs1 ++ [(i, d)])); [done| |simpl in Hf; lia].
    by rewrite <- app_assoc.
Qed.

Lemma near_loop_spec `{EqDecision K} l xs1 xs2 v fuel :
  repr l (xs1 ++ xs2) ->
  near_loop l (List.last xs1.*1 HEAD) v fuel = Some (bool_decide (v ∈ take fuel xs2.*2)).
Proof.
  revert xs1 xs2. induction fuel as [|fuel IH]; intros xs1 xs2 H; [done|]. simpl.
  destruct xs2 as [|[i d] xs2].
  - rewrite app_nil_r in H. destruct (last_next l xs1 H) as (nd & Hnd & Hn).
    rewrite Hnd. simpl. by rewrite Hn.
  - destruct (step_next l xs1 i d xs2 _ H eq_refl) as (nd & m & Hnd & Hn & Hm & Hd & Ht & _).
    rewrite Hnd. simpl. rewrite Hn. destruct (Z.eqb_spec i TAIL); [done|]. rewrite Hm. simpl.
    rewrite Hd. case_bool_decide as Hv.
    + subst v. rewrite bool_decide_true by set_solver. done.
    + assert (Hl : i = List.last (xs1 ++ [(i, d)]).*1 HEAD)
        by (rewrite fmap_app; simpl; by rewrite List.last_last).
      rewrite Hl at 1. rewrite (IH (xs1 ++ [(i, d)]) xs2) by (by rewrite <- app_assoc).
      f_equal. apply bool_decide_ext. set_solver.
Qed.

Lemma new_node_full l xs d : repr l xs -> ~ room l -> new_node d l = None.
Proof.
  intros H Hr. unfold new_node, room in *. destruct (free l); [|destruct Hr; by left].
  unfold nodes_new_node. destruct (checked_add _ _) as [m|] eqn:Hc; [|done]. simpl.
  apply checked_add_Some in Hc as [-> _]. unfold to_compact.
  destruct (Z.ltb_spec (zlen (data_nodes (nodes l)) + OFFSET) NULL); [|by rewrite andb_false_r].
  destruct Hr. right. unfold MAX_SLOTS, NULL in *. lia.
Qed.

(** ** The abstract list *)

Inductive lop := PushHead (d : K) | PushTail (d : K) | PopTail | Remove (i : Z) | Promote (i : Z).
Inductive lres := RIndex (i : Z) | RData (o : option K) | RUnit.

(** What each operation does to the sequence.  New values get any index that is
    not in use; promoting the tail sentinel of an empty list does nothing. *)
Inductive lstep : list (Z * K) -> lop -> lres -> list (Z * K) -> Prop :=
| ls_push_head xs i d : i ∉ xs.*1 -> lstep xs (PushHead d) (RIndex i) ((i, d) :: xs)
| ls_push_tail xs i d : i ∉ xs.*1 -> lstep xs (PushTail d) (RIndex i) (xs ++ [(i, d)])
| ls_pop_empty : lstep [] PopTail (RData None) []
| ls_pop xs i d : lstep (xs ++ [(i, d)]) PopTail (RData (Some d)) xs
| ls_remove xs1 i d xs2 :
    lstep (xs1 ++ (i, d) :: xs2) (Remove i) (RData (Some d)) (xs1 ++ xs2)
| ls_promote xs1 i d xs2 :
    lstep (xs1 ++ (i, d) :: xs2) (Promote i) RUnit ((i, d) :: xs1 ++ xs2)
| ls_promote_sentinel : lstep [] (Promote TAIL) RUnit [].

Definition run_lop (op : lop) (l : LinkedList K) : option (lres * LinkedList K) :=
  match op with
  | PushHead d => '(i, l) ← push_head d l; Some (RIndex i, l)
  | PushTail d => '(i, l) ← push_tail d l; Some (RIndex i, l)
  | PopTail => '(o, l) ← pop_tail default_k l; Some (RData o, l)
  | Remove i => '(d, l) ← remove default_k i l; Some (RData (Some d), l)
  | Promote i => l ← promote i l; Some (RUnit, l)
  end.

(** When an operation panics. *)
Definition panics l xs (op : lop) : Prop :=
  match op with
  | PushHead _ | PushTail _ => ~ room l
  | PopTail => False
  | Remove i | Promote i => i ∉ xs.*1
  end.

Lemma member_split xs i : i ∈ xs.*1 -> exists xs1 d xs2, xs = xs1 ++ (i, d) :: xs2.
Proof.
  intros Hi. apply list_elem_of_fmap in Hi as ([j d] & -> & Hin).
  apply list_elem_of_split in Hin as (xs1 & xs2 & ->). eauto.
Qed.

Lemma nodup_head_fresh l i d xs : repr l ((i, d) :: xs) -> i ∉ xs.*1.
Proof.
  intros H. pose proof (repr_nodup _ _ H) as Hnd. simpl in Hnd.
  apply NoDup_cons in Hnd as [Hi _]. rewrite elem_of_app in Hi. tauto.
Qed.

Lemma nodup_tail_fresh l i d xs : repr l (xs ++ [(i, d)]) -> i ∉ xs.*1.
Proof.
  intros H. pose proof (repr_nodup _ _ H) as Hnd. rewrite fmap_app in Hnd. simpl in Hnd.
  rewrite <- app_assoc in Hnd. simpl in Hnd. rewrite <- Permutation_middle in Hnd.
  apply NoDup_cons in Hnd as [Hi _]. rewrite elem_of_app in Hi. tauto.
Qed.

Lemma room_dec l : Decision (room l).
Proof. apply _. Qed.

Lemma run_lop_spec op l xs :
  repr l xs ->
  match run_lop op l with
  | Some (r, l') => exists xs', lstep xs op r xs' /\ repr l' xs'
  | None => panics l xs op
  end.
Proof.
  intros H. destruct op as [d|d| |i|i]; simpl.
  - destruct (room_dec l) as [Hr|Hr].
    + destruct (push_head_repr l xs d H Hr) as (i & l' & -> & Hr'). simpl. eexists. split; [|done].
      constructor. by eapply nodup_head_fresh.
    + unfold push_head. by rewrite (new_node_full l xs).
  - destruct (room_dec l) as [Hr|Hr].
    + destruct (push_tail_repr l xs d H Hr) as (i & l' & -> & Hr'). simpl. eexists. split; [|done].
      constructor. by eapply nodup_tail_fresh.
    + unfold push_tail. by rewrite (new_node_full l xs).
  - pose proof (pop_tail_repr l xs H) as Hp. destruct (reverse xs) as [|[i d] ys] eqn:Hrev;
      apply (f_equal reverse) in Hrev; rewrite reverse_involutive in Hrev; subst xs.
    + rewrite Hp. simpl. eexists. split; [constructor|done].
    + destruct Hp as (l' & -> & Hr). simpl. rewrite reverse_cons. eexists. split; [constructor|done].
  - destruct (decide (i ∈ xs.*1)) as [Hi|Hi].
    + destruct (member_split xs i Hi) as (xs1 & d & xs2 & ->).
      destruct (remove_repr l xs1 i d xs2 H) as (l' & -> & Hr). simpl. eexists. split; [constructor|done].
    + by rewrite (remove_absent l xs).
  - destruct (decide (i ∈ xs.*1)) as [Hi|Hi].
    + destruct (member_split xs i Hi) as (xs1 & d & xs2 & ->).
      destruct (promote_repr l xs1 i d xs2 H) as (l' & -> & Hr). simpl. eexists. split; [constructor|done].
    + destruct (decide (i = TAIL)) as [->|Ht]; [|by rewrite (promote_absent l xs)].
      unfold promote. change (to_compact TAIL) with (Some TAIL). cbn [mbind option_bind].
      pose proof (head_repr l xs H) as Hhd. unfold head in Hhd.
      destruct (next (n_head (nodes l)) =? TAIL) eqn:He; simpl.
      * destruct xs as [|x xs]; [|done]. eexists. split; [constructor|done].
      * done.
Qed.

(** Several operations in a row. *)
Fixpoint run_lops (ops : list lop) (l : LinkedList K) : option (list lres * LinkedList K) :=
  match ops with
  | [] => Some ([], l)
  | op :: ops =>
      '(r, l) ← run_lop op l;
      '(rs, l) ← run_lops ops l;
      Some (r :: rs, l)
  end.

Inductive lsteps : list (Z * K) -> list lop -> list lres -> list (Z * K) -> Prop :=
| lss_nil xs : lsteps xs [] [] xs
| lss_cons xs op r xs' ops rs xs'' :
    lstep xs op r xs' -> lsteps xs' ops rs xs'' -> lsteps xs (op :: ops) (r :: rs) xs''.

Lemma run_lops_spec ops l xs rs l' :
  repr l xs -> run_lops ops l = Some (rs, l') -> exists xs', lsteps xs ops rs xs' /\ repr l' xs'.
Proof.
  revert l xs rs. induction ops as [|op ops IH]; intros l xs rs H Hrun; simpl in Hrun.
  - simplify_eq. eexists. split; [constructor|done].
  - pose proof (run_lop_spec op l xs H) as Hs. destruct (run_lop op l) as [[r l1]|]; [|done].
    destruct Hs as (xs1 & Hst & H1). simpl in Hrun.
    destruct (run_lops ops l1) as [[rs1 l2]|] eqn:Hrest; [|done]. simpl in Hrun. simplify_eq.
    destruct (IH _ _ _ H1 Hrest) as (xs' & Hsts & H'). exists xs'. split; [|done].
    by econstructor.
Qed.

End spec.

(** ** The contract *)

(** the arena-allocated list is a list.  Any sequence of operations from an
    empty list that does not panic does what the same operations do on a plain
    sequence, returns the same values, hands out indices not in use, and leaves
    the links, the free list and the length consistent: iterating gives exactly
    the sequence, [len] its length, [head] and [tail] its ends. *)
Theorem linked_list_refines {K} (default_k : K) ops rs l :
  run_lops default_k ops (with_capacity default_k) = Some (rs, l) ->
  exists xs, lsteps [] ops rs xs /\ repr l xs /\ len l = zlen xs /\
    head l = fst <$> hd_error xs /\ tail l = fst <$> last xs /\
    collect (iter_next l) (S (length xs)) (iter l) = Some xs.*2.
Proof.
  intros Hrun. destruct (run_lops_spec default_k ops _ [] rs l (repr_empty default_k) Hrun)
    as (xs & Hs & H).
  exists xs. split; [done|]. split; [done|]. split; [by apply repr_len|].
  split; [by apply head_repr|]. split; [by apply tail_repr|].
  apply (collect_next l [] xs); [done|lia].
Qed.

(** an operation panics exactly when it should: [push] when all
    [u32::MAX - 2] slots are in use, [remove] and [promote] only on an index
    that is not in the list (so a removed index never corrupts the list), and
    [pop_tail] never; otherwise it takes the step of the abstract list. *)
Theorem linked_list_panics {K} (default_k : K) op l xs :
  repr l xs ->
  match run_lop default_k op l with
  | Some (r, l') => exists xs', lstep xs op r xs' /\ repr l' xs'
  | None => panics l xs op
  end.
Proof. apply run_lop_spec. Qed.

(** [exist_near_head] looks at exactly the first [n] values. *)
Theorem exist_near_head_spec {K} `{EqDecision K} l (xs : list (Z * K)) v n :
  repr l xs -> exist_near_head v n l = Some (bool_decide (v ∈ take (Z.to_nat n) xs.*2)).
Proof. apply (near_loop_spec l [] xs). Qed.

(** A run: 7 and 8 at the head, 9 at the tail, promote 7's slot, remove 9's. *)
Definition wit_ops : list (@lop Z) :=
  [PushHead 7; PushHead 8; PushTail 9; Promote 2; Remove 4; PushTail 5; PopTail].
Definition wit_list : LinkedList Z :=
  match run_lops 0 wit_ops (with_capacity 0) with Some (_, l) => l | None => with_capacity 0 end.

Lemma linked_list_refines_witness :
  exists xs, lsteps [] wit_ops
      [RIndex 2; RIndex 3; RIndex 4; RUnit; RData (Some 9); RIndex 4; RData (Some 5)] xs /\
    repr wit_list xs /\ len wit_list = zlen xs /\
    head wit_list = fst <$> hd_error xs /\ tail wit_list = fst <$> last xs /\
    collect (iter_next wit_list) (S (length xs)) (iter wit_list) = Some xs.*2.
Proof.
  apply (linked_list_refines 0 wit_ops
    [RIndex 2; RIndex 3; RIndex 4; RUnit; RData (Some 9); RIndex 4; RData (Some 5)] wit_list).
  vm_compute. reflexivity.
Defined.

Lemma linked_list_panics_witness :
  exists xs', lstep [] (PushHead 7) (RIndex 2) xs' /\
    repr (match push_head 7 (with_capacity 0) with Some (_, l) => l | None => with_capacity 0 end) xs'.
Proof.
  pose proof (linked_list_panics 0 (PushHead 7) (with_capacity 0) [] (repr_empty 0)) as H.
  vm_compute in H |- *. exact H.
Defined.

Lemma exist_near_head_spec_witness :
  exist_near_head 3 1 (with_capacity 0) = Some (bool_decide (3 ∈ take (Z.to_nat 1) ([] : list (Z * Z)).*2)).
Proof. apply (exist_near_head_spec (with_capacity 0) [] 3 1). apply repr_empty. Defined.
