(* ===== verification/Lru.v ===== *)
(** * The sharded LRU

    [src/pingora-lru/src/lib.rs]: [LruUnit], a hash table of weighted entries
    with the list of its keys in order of use, and [Lru], [N] such units with
    shared counters.  [None] is a panic.

    The units' locks make each method atomic on its shard, so a method is one
    step here; the relaxed counters are updated within that step. *)

From stdpp Require Import base numbers option gmap list.
From S2P Require Import Prelude LinkedList.
Local Open Scope Z_scope.

Inductive Placement := PlaceHead | PlaceTail.
Inductive Upsert := Updated (old : Z) | NewlyAdmitted | Rejected.

Section unit.
Context {T : Type}.

Record LruNode := mkLruNode { ln_data : T; list_index : Z; ln_weight : Z }.

Record LruUnit := mkUnit {
  lookup_table : gmap Z LruNode;
  order : LinkedList Z;
  used_weight : Z
}.

(** The hash table is a finite map; the list's values are the keys. *)
Definition unit_with_capacity : LruUnit := mkUnit ∅ (LinkedList.with_capacity 0) 0.

Definition unit_peek (u : LruUnit) (key : Z) : option T := ln_data <$> lookup_table u !! key.
Definition unit_peek_weight (u : LruUnit) (key : Z) : option Z :=
  ln_weight <$> lookup_table u !! key.

Definition set_node_data (d : T) (n : LruNode) : LruNode :=
  mkLruNode d (list_index n) (ln_weight n).

(** Returns the node, the unit's used weight and the old weight. *)
Definition adjust_weight (node : LruNode) (used weight : Z) : LruNode * Z * Z :=
  let old_weight := ln_weight node in
  if weight =? old_weight then (node, used, old_weight)
  else (mkLruNode (ln_data node) (list_index node) weight,
        wsub (wadd used weight) old_weight, old_weight).

(** A new entry at the head. *)
Definition unit_push (key : Z) (data : T) (weight : Z) (u : LruUnit) : option LruUnit :=
  '(list_index, ord) ← push_head key (order u);
  Some (mkUnit (<[key := mkLruNode data list_index weight]> (lookup_table u)) ord
          (wadd (used_weight u) weight)).

Definition unit_admit (key : Z) (data : T) (weight : Z) (u : LruUnit) : option (Z * LruUnit) :=
  match lookup_table u !! key with
  | Some node =>
      let '(node, used, old_weight) := adjust_weight node (used_weight u) weight in
      let node := set_node_data data node in
      ord ← promote (list_index node) (order u);
      Some (old_weight, mkUnit (<[key := node]> (lookup_table u)) ord used)
  | None => u ← unit_push key data weight u; Some (0, u)
  end.

Definition unit_increment_weight (key : Z) (admit_data : T) (delta : Z) (max_weight : option Z)
    (u : LruUnit) : option (Z * Z * bool * LruUnit) :=
  match lookup_table u !! key with
  | Some node =>
      let incremented := saturating_add (ln_weight node) delta in
      let new_weight :=
        match max_weight with
        | None => incremented
        | Some m => Z.max (Z.min incremented m) (ln_weight node)
        end in
      let '(node, used, old_weight) := adjust_weight node (used_weight u) new_weight in
      ord ← promote (list_index node) (order u);
      Some (old_weight, new_weight, false, mkUnit (<[key := node]> (lookup_table u)) ord used)
  | None =>
      let weight := Z.max (match max_weight with None => delta | Some m => Z.min delta m end) 1 in
      u ← unit_push key admit_data weight u;
      Some (0, weight, true, u)
  end.

(** [update] returns the new data and the weight it asks for. *)
Definition unit_update_or_admit (key : Z) (update : T -> Z -> T * Z) (admit_data : T * Z)
    (u : LruUnit) : option (option Z * Z * LruUnit) :=
  match lookup_table u !! key with
  | Some node =>
      let '(data, w) := update (ln_data node) (ln_weight node) in
      let node := set_node_data data node in
      let new_weight := Z.max w 1 in
      let '(node, used, old_weight) := adjust_weight node (used_weight u) new_weight in
      ord ← promote (list_index node) (order u);
      Some (Some old_weight, new_weight, mkUnit (<[key := node]> (lookup_table u)) ord used)
  | None =>
      let '(data, weight) := admit_data in
      let weight := Z.max weight 1 in
      u ← unit_push key data weight u;
      Some (None, weight, u)
  end.

Definition unit_access (key : Z) (u : LruUnit) : option (bool * LruUnit) :=
  match lookup_table u !! key with
  | Some node =>
      ord ← promote (list_index node) (order u);
      Some (true, mkUnit (lookup_table u) ord (used_weight u))
  | None => Some (false, u)
  end.

Definition unit_set_weight (key weight : Z) (u : LruUnit) : option Z * LruUnit :=
  match lookup_table u !! key with
  | None => (None, u)
  | Some node =>
      let '(node, used, old_weight) := adjust_weight node (used_weight u) weight in
      (Some old_weight, mkUnit (<[key := node]> (lookup_table u)) (order u) used)
  end.

Definition unit_set_weight_if_unchanged (key expected_weight weight : Z) (u : LruUnit)
    : bool * LruUnit :=
  match lookup_table u !! key with
  | None => (false, u)
  | Some node =>
      if ln_weight node =? expected_weight then
        let '(node, used, _) := adjust_weight node (used_weight u) weight in
        (true, mkUnit (<[key := node]> (lookup_table u)) (order u) used)
      else (false, u)
  end.

Definition need_promote (u : LruUnit) (key limit : Z) : option bool :=
  near ← exist_near_head key limit (order u); Some (negb near).

Definition unit_evict (u : LruUnit) : option (option (T * Z) * LruUnit) :=
  '(o, ord) ← pop_tail 0 (order u);
  match o with
  | None => Some (None, mkUnit (lookup_table u) ord (used_weight u))
  | Some key =>
      node ← lookup_table u !! key;
      Some (Some (ln_data node, ln_weight node),
            mkUnit (delete key (lookup_table u)) ord (wsub (used_weight u) (ln_weight node)))
  end.

Definition unit_peek_lru (u : LruUnit) : option (T * Z) :=
  idx ← tail (order u);
  key ← peek (order u) idx;
  node ← lookup_table u !! key;
  Some (ln_data node, ln_weight node).

Definition unit_remove (key : Z) (u : LruUnit) : option (option (T * Z) * LruUnit) :=
  match lookup_table u !! key with
  | None => Some (None, u)
  | Some node =>
      '(list_key, ord) ← remove 0 (list_index node) (order u);
      if key =? list_key then
        Some (Some (ln_data node, ln_weight node),
              mkUnit (delete key (lookup_table u)) ord (wsub (used_weight u) (ln_weight node)))
      else None
  end.

Definition unit_insert_at (key : Z) (data : T) (weight : Z) (placement : Placement) (u : LruUnit)
    : option (bool * LruUnit) :=
  match lookup_table u !! key with
  | Some _ => Some (false, u)
  | None =>
      '(list_index, ord) ← match placement with
                           | PlaceHead => push_head key (order u)
                           | PlaceTail => push_tail key (order u)
                           end;
      Some (true, mkUnit (<[key := mkLruNode data list_index weight]> (lookup_table u)) ord
                    (wadd (used_weight u) weight))
  end.

Definition unit_insert_tail (key : Z) (data : T) (weight : Z) : LruUnit -> option (bool * LruUnit) :=
  unit_insert_at key data weight PlaceTail.

(** [LruUnitIter::next]. *)
Definition unit_iter_next (u : LruUnit) (it : Iter) : option (option (T * Z) * Iter) :=
  '(o, it) ← iter_next (order u) it;
  match o with
  | None => Some (None, it)
  | Some key => node ← lookup_table u !! key; Some (Some (ln_data node, ln_weight node), it)
  end.

End unit.
Arguments LruNode : clear implicits.
Arguments LruUnit : clear implicits.

(** ** The sharded LRU *)

Section lru.
Context {T : Type}.

Record Lru := mkLru {
  units : list (LruUnit T);
  shard_lens : list Z;
  weight : Z;
  weight_limit : Z;
  len_watermark : option Z;
  lru_len : Z;
  evicted_weight : Z;
  evicted_len : Z
}.

Definition lru_new (n : nat) (weight_limit : Z) (len_watermark : option Z) : Lru :=
  mkLru (replicate n unit_with_capacity) (replicate n 0) 0 weight_limit len_watermark 0 0 0.

(** Number of shards, and the shard of a key; [% 0] panics. *)
Definition shards (l : Lru) : Z := zlen (units l).
Definition get_shard (key n_shards : Z) : option nat :=
  if n_shards =? 0 then None else Some (Z.to_nat (key mod n_shards)).

Definition set_weight_limit (w : Z) (l : Lru) : Lru :=
  mkLru (units l) (shard_lens l) (weight l) w (len_watermark l) (lru_len l) (evicted_weight l)
    (evicted_len l).
Definition set_units (us : list (LruUnit T)) (l : Lru) : Lru :=
  mkLru us (shard_lens l) (weight l) (weight_limit l) (len_watermark l) (lru_len l)
    (evicted_weight l) (evicted_len l).
Definition set_total (w : Z) (l : Lru) : Lru :=
  mkLru (units l) (shard_lens l) w (weight_limit l) (len_watermark l) (lru_len l)
    (evicted_weight l) (evicted_len l).

Definition incr_count (shard : nat) (l : Lru) : Lru :=
  mkLru (units l) (alter (fun n => wadd n 1) shard (shard_lens l)) (weight l) (weight_limit l)
    (len_watermark l) (wadd (lru_len l) 1) (evicted_weight l) (evicted_len l).
Definition decr_count (shard : nat) (l : Lru) : Lru :=
  mkLru (units l) (alter (fun n => wsub n 1) shard (shard_lens l)) (weight l) (weight_limit l)
    (len_watermark l) (wsub (lru_len l) 1) (evicted_weight l) (evicted_len l).
Definition count_evicted (w : Z) (l : Lru) : Lru :=
  mkLru (units l) (shard_lens l) (weight l) (weight_limit l) (len_watermark l) (lru_len l)
    (wadd (evicted_weight l) w) (wadd (evicted_len l) 1).
Definition add_weight (w : Z) (l : Lru) : Lru := set_total (wadd (weight l) w) l.
Definition sub_weight (w : Z) (l : Lru) : Lru := set_total (wsub (weight l) w) l.

Definition apply_weight_change (old_weight new_weight : Z) (l : Lru) : Lru :=
  if old_weight <=? new_weight then add_weight (wsub new_weight old_weight) l
  else sub_weight (wsub old_weight new_weight) l.

(** The shard of a key and its unit; the write lock. *)
Definition lock (key : Z) (l : Lru) : option (nat * LruUnit T) :=
  shard ← get_shard key (shards l);
  u ← units l !! shard;
  Some (shard, u).
Definition unlock (shard : nat) (u : LruUnit T) (l : Lru) : Lru :=
  set_units (<[shard := u]> (units l)) l.

Definition lru_admit (key : Z) (data : T) (w : Z) (l : Lru) : option (nat * Lru) :=
  '(shard, u) ← lock key l;
  let w := Z.max w 1 in
  '(old_weight, u) ← unit_admit key data w u;
  let l := unlock shard u l in
  Some (shard,
        if old_weight =? w then l
        else if 0 <? old_weight then apply_weight_change old_weight w l
        else incr_count shard (add_weight w l)).

Definition increment_weight (key : Z) (admit_data : T) (delta : Z) (max_weight : option Z) (l : Lru)
    : option (Z * Lru) :=
  '(shard, u) ← lock key l;
  '(old_weight, new_weight, admitted, u) ← unit_increment_weight key admit_data delta max_weight u;
  let l := add_weight (wsub new_weight old_weight) (unlock shard u l) in
  Some (new_weight, if admitted : bool then incr_count shard l else l).

Definition update_or_admit (key : Z) (update : T -> Z -> T * Z) (admit_data : T * Z) (l : Lru)
    : option (option Z * Lru) :=
  '(shard, u) ← lock key l;
  '(old_weight, new_weight, u) ← unit_update_or_admit key update admit_data u;
  let l := unlock shard u l in
  Some (old_weight,
        match old_weight with
        | Some old => if old =? new_weight then l else apply_weight_change old new_weight l
        | None => incr_count shard (add_weight new_weight l)
        end).

Definition update_if (key : Z) (predicate : T -> bool) (update : T -> Z -> T * Z) (promote_ : bool)
    (l : Lru) : option (option Z * Lru) :=
  '(shard, u) ← lock key l;
  match lookup_table u !! key with
  | None => Some (None, l)
  | Some node =>
      if predicate (ln_data node) then
        let '(data, w) := update (ln_data node) (ln_weight node) in
        let node := set_node_data data node in
        let new_weight := Z.max w 1 in
        let '(node, used, old_weight) := adjust_weight node (used_weight u) new_weight in
        ord ← (if promote_ then promote (list_index node) (order u) else Some (order u));
        let l := unlock shard (mkUnit (<[key := node]> (lookup_table u)) ord used) l in
        Some (Some old_weight,
              if old_weight =? new_weight then l
              else sub_weight old_weight (add_weight new_weight l))
      else Some (None, l)
  end.

Definition upsert_if (key : Z) (predicate : T -> bool) (update : T -> Z -> T * Z)
    (admit_data : T * Z) (l : Lru) : option (Upsert * Lru) :=
  '(shard, u) ← lock key l;
  let rejected := match unit_peek u key with Some d => negb (predicate d) | None => false end in
  if rejected then Some (Rejected, l)
  else
    '(old_weight, new_weight, u) ← unit_update_or_admit key update admit_data u;
    let l := unlock shard u l in
    Some (match old_weight with Some w => Updated w | None => NewlyAdmitted end,
          match old_weight with
          | Some old => if old =? new_weight then l
                        else sub_weight old (add_weight new_weight l)
          | None => incr_count shard (add_weight new_weight l)
          end).

Definition lru_set_weight (key w : Z) (l : Lru) : option (option Z * Lru) :=
  '(shard, u) ← lock key l;
  let w := Z.max w 1 in
  let '(old_weight, u) := unit_set_weight key w u in
  match old_weight with
  | None => Some (None, l)
  | Some old =>
      let l := unlock shard u l in
      Some (Some old, if old =? w then l else apply_weight_change old w l)
  end.

Definition lru_set_weight_if_unchanged (key expected_weight w : Z) (l : Lru) : option (bool * Lru) :=
  '(shard, u) ← lock key l;
  let w := Z.max w 1 in
  let '(ok, u) := unit_set_weight_if_unchanged key expected_weight w u in
  if ok : bool then
    let l := unlock shard u l in
    Some (true, if expected_weight =? w then l else apply_weight_change expected_weight w l)
  else Some (false, l).

Definition lru_promote (key : Z) (l : Lru) : option (bool * Lru) :=
  '(shard, u) ← lock key l;
  '(b, u) ← unit_access key u;
  Some (b, unlock shard u l).

Definition promote_top_n (key top : Z) (l : Lru) : option (bool * Lru) :=
  '(shard, u) ← lock key l;
  need ← need_promote u key top;
  if need : bool then lru_promote key l else Some (true, l).

Definition evict_shard_at (shard : nat) (l : Lru) : option (option (T * Z) * Lru) :=
  u ← units l !! shard;
  '(evicted, u) ← unit_evict u;
  let l := unlock shard u l in
  Some (evicted,
        match evicted with
        | Some (_, w) => count_evicted w (decr_count shard (sub_weight w l))
        | None => l
        end).

Definition evict_shard (seed : Z) (l : Lru) : option (option (T * Z) * Lru) :=
  shard ← get_shard seed (shards l);
  evict_shard_at shard l.

(** Probe successive shards from [shard] until one yields an item or all [fuel]
    shards were tried. *)
Fixpoint probe (fuel : nat) (shard : nat) (l : Lru) : option (option (T * Z) * Lru) :=
  match fuel with
  | O => Some (None, l)
  | S fuel =>
      '(evicted, l) ← evict_shard_at shard l;
      match evicted with
      | Some item => Some (Some item, l)
      | None => probe fuel (Nat.modulo (S shard) (length (units l))) l
      end
  end.

(** The two random shards of one iteration, and the longer of them. *)
Definition choose (rng : nat * nat) (l : Lru) : option nat :=
  if shards l <=? 1 then Some 0%nat
  else
    len_a ← shard_lens l !! rng.1;
    len_b ← shard_lens l !! rng.2;
    Some (if (len_b <=? len_a) then rng.1 else rng.2).

Definition over_limit (initial_weight initial_len limit : Z) (l : Lru) : bool :=
  ((limit <? initial_weight) && (limit <? weight l))
  || match len_watermark l with
     | Some w => (w <? initial_len) && (w <? lru_len l)
     | None => false
     end.

(** [evict_to_limit_with_rng]: [rng k] are the random choices of iteration [k];
    [fuel] bounds the iterations. *)
Fixpoint evict_loop (fuel : nat) (rng : nat -> nat * nat) (k : nat)
    (initial_weight initial_len limit : Z) (l : Lru) : option (list (T * Z) * Lru) :=
  match fuel with
  | O => None
  | S fuel =>
      if over_limit initial_weight initial_len limit l then
        start ← choose (rng k) l;
        '(evicted, l) ← probe (length (units l)) start l;
        match evicted with
        | Some item =>
            '(items, l) ← evict_loop fuel rng (S k) (saturating_sub initial_weight item.2)
                            (saturating_sub initial_len 1) limit l;
            Some (item :: items, l)
        | None => Some ([], l)
        end
      else Some ([], l)
  end.

Definition evict_to_limit (fuel : nat) (rng : nat -> nat * nat) (l : Lru)
    : option (list (T * Z) * Lru) :=
  evict_loop fuel rng 0 (weight l) (lru_len l) (weight_limit l) l.

Definition lru_remove (key : Z) (l : Lru) : option (option (T * Z) * Lru) :=
  '(shard, u) ← lock key l;
  '(removed, u) ← unit_remove key u;
  let l := unlock shard u l in
  Some (removed,
        match removed with
        | Some (_, w) => decr_count shard (sub_weight w l)
        | None => l
        end).

Definition remove_matching (key : Z) (predicate : T -> Z -> bool) (count_as_eviction : bool)
    (l : Lru) : option (option (T * Z) * Lru) :=
  '(shard, u) ← lock key l;
  match lookup_table u !! key with
  | None => Some (None, l)
  | Some node =>
      if predicate (ln_data node) (ln_weight node) then
        '(removed, u) ← unit_remove key u;
        let l := unlock shard u l in
        match removed with
        | None => Some (None, l)
        | Some (d, w) =>
            let l := decr_count shard (sub_weight w l) in
            Some (Some (d, w), if count_as_eviction then count_evicted w l else l)
        end
      else Some (None, l)
  end.

Definition remove_if_weight (key : Z) (predicate : T -> Z -> bool) : Lru -> option (option (T * Z) * Lru) :=
  remove_matching key predicate false.
Definition remove_if (key : Z) (predicate : T -> bool) : Lru -> option (option (T * Z) * Lru) :=
  remove_if_weight key (fun d _ => predicate d).
Definition evict_if (key : Z) (predicate : T -> bool) : Lru -> option (option (T * Z) * Lru) :=
  remove_matching key (fun d _ => predicate d) true.

(** The scan of [select_lru_if]: visited entries move to the head. *)
Fixpoint select_loop (n : nat) (predicate : T -> bool) (select : T -> Z -> T) (u : LruUnit T)
    : option (option (T * Z) * LruUnit T) :=
  match n with
  | O => Some (None, u)
  | S n =>
      match (idx ← tail (order u); peek (order u) idx) with
      | None => Some (None, u)
      | Some key =>
          match lookup_table u !! key with
          | None => Some (None, u)
          | Some node =>
              ord ← promote (list_index node) (order u);
              if predicate (ln_data node) then
                let node := set_node_data (select (ln_data node) (ln_weight node)) node in
                Some (Some (ln_data node, ln_weight node),
                      mkUnit (<[key := node]> (lookup_table u)) ord (used_weight u))
              else select_loop n predicate select (mkUnit (lookup_table u) ord (used_weight u))
          end
      end
  end.

Definition select_lru_if (seed max_scan : Z) (predicate : T -> bool) (select : T -> Z -> T) (l : Lru)
    : option (option (T * Z) * Lru) :=
  '(shard, u) ← lock seed l;
  '(o, u) ← select_loop (Z.to_nat (Z.min max_scan (Z.of_nat (size (lookup_table u)))))
              predicate select u;
  Some (o, unlock shard u l).

Definition insert_tail (key : Z) (data : T) (w : Z) (l : Lru) : option (bool * Lru) :=
  '(shard, u) ← lock key l;
  '(inserted, u) ← unit_insert_tail key data w u;
  let l := unlock shard u l in
  Some (inserted, if inserted : bool then incr_count shard (add_weight w l) else l).

(** [mutate_pair]: write one of the two values back. *)
Definition write_back (key : Z) (shard : nat) (value : option (T * Z)) (existed : bool)
    (placement : Placement) (l : Lru) : option Lru :=
  u ← units l !! shard;
  match value with
  | Some (data, w) =>
      match lookup_table u !! key with
      | Some node =>
          let '(node, used, _) := adjust_weight node (used_weight u) w in
          let node := set_node_data data node in
          Some (unlock shard (mkUnit (<[key := node]> (lookup_table u)) (order u) used) l)
      | None =>
          '(_, u) ← unit_insert_at key data w placement u;
          Some (incr_count shard (unlock shard u l))
      end
  | None =>
      if existed then
        '(_, u) ← unit_remove key u;
        Some (decr_count shard (unlock shard u l))
      else Some l
  end.

Definition value_weight (v : option (T * Z)) : Z :=
  match v with Some (_, w) => w | None => 0 end.
Definition floor_weight (v : option (T * Z)) : option (T * Z) :=
  match v with Some (d, w) => Some (d, Z.max w 1) | None => None end.
Definition read_value (u : LruUnit T) (key : Z) : option (T * Z) :=
  match lookup_table u !! key with Some n => Some (ln_data n, ln_weight n) | None => None end.

Definition mutate_pair {R : Type} (first second : Z)
    (mutate : option (T * Z) -> option (T * Z) -> option (T * Z) * option (T * Z) * Placement * R)
    (l : Lru) : option (option R * Lru) :=
  if first =? second then Some (None, l)
  else
    '(a, ua) ← lock first l;
    '(b, ub) ← lock second l;
    let left0 := read_value ua first in
    let right0 := read_value ub second in
    let '(left_, right_, placement, result) := mutate left0 right0 in
    let left_ := floor_weight left_ in
    let right_ := floor_weight right_ in
    let old_left := value_weight left0 in
    let old_right := value_weight right0 in
    let new_left := value_weight left_ in
    let new_right := value_weight right_ in
    let l := add_weight (saturating_sub new_left old_left) l in
    let l := add_weight (saturating_sub new_right old_right) l in
    l ← write_back first a left_ (bool_decide (is_Some left0)) placement l;
    l ← write_back second b right_ (bool_decide (is_Some right0)) placement l;
    let l := sub_weight (saturating_sub old_left new_left) l in
    let l := sub_weight (saturating_sub old_right new_right) l in
    Some (Some result, l).

Definition lru_peek (key : Z) (l : Lru) : option bool :=
  '(_, u) ← lock key l; Some (match unit_peek u key with Some _ => true | None => false end).
Definition lru_peek_weight (key : Z) (l : Lru) : option (option Z) :=
  '(_, u) ← lock key l; Some (unit_peek_weight u key).
Definition peek_lru (shard : nat) (l : Lru) : option (T * Z) :=
  u ← units l !! shard; unit_peek_lru u.

End lru.
Arguments Lru : clear implicits.
