(* ===== verification/LruSpec.v ===== *)
(** * The sharded LRU: refinement to weighted sequences

    A unit stands for the sequence of its entries (key, (data, weight)), most
    recently used first, with no key twice.  The [spec_*] functions say what each
    operation does to it; the unit's hash table, linked list and weight counter
    are proved to implement them together. *)

From stdpp Require Import base numbers option gmap list.
From S2P Require Import Prelude LinkedList LinkedListSpec Lru.
Local Open Scope Z_scope.

(** ** Units *)

Section unit.
Context {T : Type}.

Record entry := mkEntry { e_idx : Z; e_key : Z; e_data : T; e_w : Z }.

Definition node_of (e : entry) : LruNode T := mkLruNode (e_data e) (e_idx e) (e_w e).
Definition link (e : entry) : Z * Z := (e_idx e, e_key e).
Definition view (e : entry) : Z * (T * Z) := (e_key e, (e_data e, e_w e)).

Definition wsum (es : list entry) : Z := foldr (fun e n => e_w e + n) 0 es.

Definition table_ok (tbl : gmap Z (LruNode T)) (es : list entry) : Prop :=
  forall k n, tbl !! k = Some n <-> exists e, e ∈ es /\ e_key e = k /\ node_of e = n.

Record urepr (u : LruUnit T) (es : list entry) : Prop := {
  ur_order : repr (order u) (link <$> es);
  ur_table : table_ok (lookup_table u) es;
  ur_keys : NoDup (e_key <$> es);
  ur_used : used_weight u = wsum es mod usize_mod
}.

Lemma wsum_app es1 es2 : wsum (es1 ++ es2) = wsum es1 + wsum es2.
Proof. induction es1 as [|e es1 IH]; simpl; lia. Qed.

Lemma wsum_middle es1 e es2 : wsum (es1 ++ e :: es2) = e_w e + wsum (es1 ++ es2).
Proof. rewrite !wsum_app. simpl. lia. Qed.

Lemma table_ok_perm tbl es es' : es ≡ₚ es' -> table_ok tbl es -> table_ok tbl es'.
Proof. intros Hp H k n. rewrite (H k n). by setoid_rewrite Hp. Qed.

(** [rest]: the entries whose key is not [k]. *)
Definition others (k : Z) (es rest : list entry) : Prop :=
  forall e, e ∈ rest <-> e ∈ es /\ e_key e <> k.

Lemma table_ok_update tbl es rest e' :
  table_ok tbl es -> others (e_key e') es rest ->
  table_ok (<[e_key e' := node_of e']> tbl) (e' :: rest).
Proof.
  intros H Ho k n. destruct (decide (k = e_key e')) as [->|Hne].
  - rewrite lookup_insert_eq. split.
    + intros [= <-]. exists e'. split; [by left|done].
    + intros (e & Hin & Hk & <-). apply elem_of_cons in Hin as [->|Hin]; [done|].
      apply Ho in Hin as [_ Hin]. congruence.
  - rewrite lookup_insert_ne by done. rewrite (H k n). split.
    + intros (e & Hin & Hk & Hn). exists e. split; [|done]. right. apply Ho. split; congruence.
    + intros (e & Hin & Hk & Hn). exists e. split; [|done].
      apply elem_of_cons in Hin as [->|Hin]; [congruence|]. by apply Ho in Hin as [? _].
Qed.

Lemma table_ok_delete tbl es rest k :
  table_ok tbl es -> others k es rest -> table_ok (delete k tbl) rest.
Proof.
  intros H Ho j n. destruct (decide (j = k)) as [->|Hne].
  - rewrite lookup_delete_eq. split; [done|]. intros (e & Hin & Hk & _).
    apply Ho in Hin as [_ Hin]. congruence.
  - rewrite lookup_delete_ne by done. rewrite (H j n).
    split; intros (e & Hin & Hk & Hn); exists e; (split; [|done]).
    + apply Ho. split; congruence.
    + by apply Ho in Hin as [? _].
Qed.

Lemma others_middle es1 e es2 :
  NoDup (e_key <$> es1 ++ e :: es2) -> others (e_key e) (es1 ++ e :: es2) (es1 ++ es2).
Proof.
  rewrite fmap_app, fmap_cons, <- Permutation_middle. intros [Hk _]%NoDup_cons e'.
  rewrite <- fmap_app in Hk. rewrite !elem_of_app, elem_of_cons. split.
  - intros Hin. split; [tauto|]. intros He. apply Hk. apply list_elem_of_fmap.
    exists e'. split; [done|]. rewrite elem_of_app. tauto.
  - intros [[|[->|]] Hne]; [tauto|congruence|tauto].
Qed.

Lemma others_absent es k : k ∉ e_key <$> es -> others k es es.
Proof.
  intros Hk e. split; [|tauto]. intros Hin. split; [done|]. intros He. apply Hk.
  apply list_elem_of_fmap. eauto.
Qed.

Lemma urepr_found u es k n :
  urepr u es -> lookup_table u !! k = Some n ->
  exists es1 e es2, es = es1 ++ e :: es2 /\ e_key e = k /\ node_of e = n.
Proof.
  intros H Hk. apply (ur_table _ _ H) in Hk as (e & Hin & Hk & Hn).
  apply list_elem_of_split in Hin as (es1 & es2 & ->). eauto 7.
Qed.

Lemma urepr_absent u es k : urepr u es -> lookup_table u !! k = None -> k ∉ e_key <$> es.
Proof.
  intros H Hk Hin. apply list_elem_of_fmap in Hin as (e & -> & Hin).
  assert (lookup_table u !! e_key e = Some (node_of e)); [|congruence].
  apply (ur_table _ _ H). eauto.
Qed.

Definition reweigh (w : Z) (d : T) (e : entry) : entry := mkEntry (e_idx e) (e_key e) d w.

Lemma adjust_weight_spec e S w :
  adjust_weight (node_of e) ((e_w e + S) mod usize_mod) w =
  (node_of (reweigh w (e_data e) e), (w + S) mod usize_mod, e_w e).
Proof.
  unfold adjust_weight, node_of, wsub, wadd. simpl.
  destruct (Z.eqb_spec w (e_w e)) as [->|Hne]; [done|].
  rewrite Zplus_mod_idemp_l, Zminus_mod_idemp_l. do 3 f_equal. lia.
Qed.

Lemma keys_middle es1 e es2 e' :
  e_key e' = e_key e -> NoDup (e_key <$> es1 ++ e :: es2) ->
  NoDup (e_key <$> es1 ++ e' :: es2) /\ NoDup (e_key <$> e' :: es1 ++ es2) /\
  NoDup (e_key <$> es1 ++ es2).
Proof.
  intros Hk. rewrite !fmap_app, !fmap_cons, fmap_app, Hk. intros Hnd. split; [done|].
  rewrite <- Permutation_middle in Hnd. split; [done|]. by apply NoDup_cons in Hnd as [_ ?].
Qed.

(** ** The four ways a unit changes *)

(** An entry is rewritten and moved to the head. *)
Lemma replace_front u es1 e es2 e' used :
  urepr u (es1 ++ e :: es2) -> e_key e' = e_key e -> e_idx e' = e_idx e ->
  used = wsum (e' :: es1 ++ es2) mod usize_mod ->
  exists ord, promote (e_idx e) (order u) = Some ord /\
    urepr (mkUnit (<[e_key e := node_of e']> (lookup_table u)) ord used) (e' :: es1 ++ es2).
Proof.
  intros [Ho Ht Hk Hu] Hkey Hidx ->. rewrite fmap_app, fmap_cons in Ho.
  destruct (promote_repr (order u) (link <$> es1) (e_idx e) (e_key e) (link <$> es2) Ho)
    as (ord & Hp & Hr). exists ord. split; [done|]. split; simpl.
  - unfold link at 1. rewrite Hidx, Hkey, fmap_app. done.
  - rewrite <- Hkey. eapply table_ok_update; [exact Ht|]. rewrite Hkey. by apply others_middle.
  - by apply (keys_middle es1 e es2 e').
  - done.
Qed.

(** An entry is rewritten where it is. *)
Lemma replace_in_place u es1 e es2 e' used :
  urepr u (es1 ++ e :: es2) -> e_key e' = e_key e -> e_idx e' = e_idx e ->
  used = wsum (es1 ++ e' :: es2) mod usize_mod ->
  urepr (mkUnit (<[e_key e := node_of e']> (lookup_table u)) (order u) used) (es1 ++ e' :: es2).
Proof.
  intros [Ho Ht Hk Hu] Hkey Hidx ->. split; simpl.
  - rewrite fmap_app, fmap_cons in *. unfold link at 2. rewrite Hidx, Hkey. done.
  - eapply table_ok_perm; [apply Permutation_middle|]. rewrite <- Hkey.
    eapply table_ok_update; [exact Ht|]. rewrite Hkey. by apply others_middle.
  - by apply (keys_middle es1 e es2 e').
  - done.
Qed.

(** A new entry at the head or at the tail. *)
Definition place (p : Placement) (e : entry) (es : list entry) : list entry :=
  match p with PlaceHead => e :: es | PlaceTail => es ++ [e] end.

Lemma insert_new u es k d w p :
  urepr u es -> k ∉ e_key <$> es -> room (order u) ->
  exists i ord,
    match p with PlaceHead => push_head k (order u) | PlaceTail => push_tail k (order u) end
      = Some (i, ord) /\
    urepr (mkUnit (<[k := mkLruNode d i w]> (lookup_table u)) ord (wadd (used_weight u) w))
      (place p (mkEntry i k d w) es).
Proof.
  intros [Ho Ht Hk Hu] Hnew Hroom.
  assert (exists i ord,
    match p with PlaceHead => push_head k (order u) | PlaceTail => push_tail k (order u) end
      = Some (i, ord) /\ repr ord (link <$> place p (mkEntry i k d w) es)) as (i & ord & Hp & Hr).
  { destruct p; [destruct (push_head_repr _ _ k Ho Hroom) as (i & ord & Hp & Hr)
                |destruct (push_tail_repr _ _ k Ho Hroom) as (i & ord & Hp & Hr)];
      exists i, ord; split; auto. simpl. by rewrite fmap_app. }
  exists i, ord. split; [done|].
  assert (Hperm : mkEntry i k d w :: es ≡ₚ place p (mkEntry i k d w) es).
  { destruct p; [done|]. simpl. apply Permutation_cons_append. }
  split; simpl; [done| | |].
  - eapply table_ok_perm; [exact Hperm|].
    apply (table_ok_update _ es es (mkEntry i k d w)); [done|]. by apply others_absent.
  - rewrite <- Hperm. by apply NoDup_cons.
  - rewrite Hu. unfold wadd. rewrite Zplus_mod_idemp_l. f_equal.
    destruct p; simpl; [lia|]. rewrite wsum_app. simpl. lia.
Qed.

(** An entry is dropped, with its slot. *)
Lemma drop_entry u es1 e es2 ord :
  urepr u (es1 ++ e :: es2) -> repr ord (link <$> es1 ++ es2) ->
  urepr (mkUnit (delete (e_key e) (lookup_table u)) ord (wsub (used_weight u) (e_w e))) (es1 ++ es2).
Proof.
  intros [Ho Ht Hk Hu] Hr. split; simpl; [done| | |].
  - eapply table_ok_delete; [exact Ht|]. by apply others_middle.
  - by apply (keys_middle es1 e es2 e).
  - rewrite Hu, wsum_middle. unfold wsub. rewrite Zminus_mod_idemp_l. f_equal. lia.
Qed.

(** ** Specifications *)

Fixpoint find (k : Z) (vs : list (Z * (T * Z))) : option (T * Z) :=
  match vs with
  | [] => None
  | (j, x) :: vs => if decide (j = k) then Some x else find k vs
  end.
Fixpoint del (k : Z) (vs : list (Z * (T * Z))) : list (Z * (T * Z)) :=
  match vs with
  | [] => []
  | (j, x) :: vs => if decide (j = k) then vs else (j, x) :: del k vs
  end.
(** Change the entry of [k] without moving it. *)
Fixpoint upd (k : Z) (x' : T * Z) (vs : list (Z * (T * Z))) : list (Z * (T * Z)) :=
  match vs with
  | [] => []
  | (j, x) :: vs => if decide (j = k) then (j, x') :: vs else (j, x) :: upd k x' vs
  end.

Definition unit_ok (u : LruUnit T) (vs : list (Z * (T * Z))) : Prop :=
  exists es, urepr u es /\ view <$> es = vs.

Lemma find_middle es1 e es2 :
  NoDup (e_key <$> es1 ++ e :: es2) ->
  find (e_key e) (view <$> es1 ++ e :: es2) = Some (e_data e, e_w e) /\
  del (e_key e) (view <$> es1 ++ e :: es2) = view <$> es1 ++ es2 /\
  forall d w, upd (e_key e) (d, w) (view <$> es1 ++ e :: es2) = view <$> es1 ++ reweigh w d e :: es2.
Proof.
  induction es1 as [|e1 es1 IH]; rewrite <- ?app_comm_cons, ?fmap_cons; intros Hnd.
  - simpl. rewrite !decide_True by done. split; [done|]. split; [done|].
    intros d w. by rewrite decide_True.
  - apply NoDup_cons in Hnd as [Hn Hnd].
    assert (e_key e1 <> e_key e).
    { intros He. apply Hn. rewrite He. apply list_elem_of_fmap. exists e. split; [done|].
      rewrite elem_of_app, elem_of_cons. tauto. }
    cbn [find del upd]. unfold view at 1 3. cbn [find del upd].
    rewrite !decide_False by done. destruct (IH Hnd) as (-> & -> & H3).
    split; [done|]. split; [done|]. intros d w. rewrite <- app_comm_cons, fmap_cons.
    unfold view at 1. cbn [upd]. rewrite decide_False by done. by rewrite H3.
Qed.

Lemma find_absent k es : k ∉ e_key <$> es -> find k (view <$> es) = None.
Proof.
  induction es as [|e es IH]; simpl; intros Hk; [done|].
  rewrite elem_of_cons in Hk. rewrite decide_False by (intros He; apply Hk; by left).
  apply IH. tauto.
Qed.

Lemma ok_room u vs : unit_ok u vs -> zlen vs + OFFSET < MAX_SLOTS -> room (order u).
Proof.
  intros (es & H & <-) Hl. unfold room. destruct (free (order u)) as [|i fr] eqn:Hf; [|by left].
  right. pose proof (repr_count _ _ (ur_order _ _ H)) as Hc. rewrite Hf in Hc.
  unfold zlen in *. rewrite !length_fmap in *. simpl in Hc. lia.
Qed.

(** What the hash table says is what the sequence says. *)
Lemma ok_lookup u vs k :
  unit_ok u vs -> find k vs = (fun n => (ln_data n, ln_weight n)) <$> lookup_table u !! k.
Proof.
  intros (es & H & <-). destruct (lookup_table u !! k) as [n|] eqn:Hk; simpl.
  - destruct (urepr_found _ _ _ _ H Hk) as (es1 & e & es2 & -> & <- & <-).
    by apply (find_middle es1 e es2), ur_keys with (u := u).
  - apply find_absent. by eapply urepr_absent.
Qed.

(** The operations of a unit, their results, and what they do to the sequence. *)
Inductive uop :=
| UAdmit (k : Z) (d : T) (w : Z)
| UIncrement (k : Z) (d : T) (delta : Z) (max : option Z)
| UUpdate (k : Z) (update : T -> Z -> T * Z) (admit_data : T * Z)
| UAccess (k : Z)
| USetWeight (k w : Z)
| USetWeightIf (k expected w : Z)
| UEvict
| URemove (k : Z)
| UInsert (k : Z) (d : T) (w : Z) (p : Placement).

Inductive ures :=
| RWeight (old : Z) | RIncr (old new : Z) (admitted : bool) | RUpd (old : option Z) (new : Z)
| RBool (b : bool) | ROpt (o : option Z) | RItem (o : option (T * Z)).

Definition run_uop (op : uop) (u : LruUnit T) : option (ures * LruUnit T) :=
  match op with
  | UAdmit k d w => '(old, u) ← unit_admit k d w u; Some (RWeight old, u)
  | UIncrement k d delta max =>
      '(old, new, adm, u) ← unit_increment_weight k d delta max u; Some (RIncr old new adm, u)
  | UUpdate k f a => '(old, new, u) ← unit_update_or_admit k f a u; Some (RUpd old new, u)
  | UAccess k => '(b, u) ← unit_access k u; Some (RBool b, u)
  | USetWeight k w => let '(o, u) := unit_set_weight k w u in Some (ROpt o, u)
  | USetWeightIf k x w => let '(b, u) := unit_set_weight_if_unchanged k x w u in Some (RBool b, u)
  | UEvict => '(o, u) ← unit_evict u; Some (RItem o, u)
  | URemove k => '(o, u) ← unit_remove k u; Some (RItem o, u)
  | UInsert k d w p => '(b, u) ← unit_insert_at k d w p u; Some (RBool b, u)
  end.

Definition incremented (w delta : Z) (max : option Z) : Z :=
  match max with
  | None => saturating_add w delta
  | Some m => Z.max (Z.min (saturating_add w delta) m) w
  end.
Definition capped (delta : Z) (max : option Z) : Z :=
  Z.max (match max with None => delta | Some m => Z.min delta m end) 1.

Definition spec_uop (op : uop) (vs : list (Z * (T * Z))) : ures * list (Z * (T * Z)) :=
  match op with
  | UAdmit k d w =>
      match find k vs with
      | Some (_, old) => (RWeight old, (k, (d, w)) :: del k vs)
      | None => (RWeight 0, (k, (d, w)) :: vs)
      end
  | UIncrement k d delta max =>
      match find k vs with
      | Some (d0, w0) => let w := incremented w0 delta max in
                         (RIncr w0 w false, (k, (d0, w)) :: del k vs)
      | None => let w := capped delta max in (RIncr 0 w true, (k, (d, w)) :: vs)
      end
  | UUpdate k f a =>
      match find k vs with
      | Some (d0, w0) => let w := Z.max (f d0 w0).2 1 in
                         (RUpd (Some w0) w, (k, ((f d0 w0).1, w)) :: del k vs)
      | None => (RUpd None (Z.max a.2 1), (k, (a.1, Z.max a.2 1)) :: vs)
      end
  | UAccess k =>
      match find k vs with
      | Some x => (RBool true, (k, x) :: del k vs)
      | None => (RBool false, vs)
      end
  | USetWeight k w =>
      match find k vs with
      | Some (d0, w0) => (ROpt (Some w0), upd k (d0, w) vs)
      | None => (ROpt None, vs)
      end
  | USetWeightIf k expected w =>
      match find k vs with
      | Some (d0, w0) => if w0 =? expected then (RBool true, upd k (d0, w) vs) else (RBool false, vs)
      | None => (RBool false, vs)
      end
  | UEvict =>
      match last vs with
      | Some (k, x) => (RItem (Some x), removelast vs)
      | None => (RItem None, vs)
      end
  | URemove k =>
      match find k vs with
      | Some x => (RItem (Some x), del k vs)
      | None => (RItem None, vs)
      end
  | UInsert k d w p =>
      match find k vs with
      | Some _ => (RBool false, vs)
      | None => (RBool true, match p with PlaceHead => (k, (d, w)) :: vs
                                        | PlaceTail => vs ++ [(k, (d, w))] end)
      end
  end.

Lemma ok_cases u vs k :
  unit_ok u vs ->
  (exists es1 e es2, urepr u (es1 ++ e :: es2) /\ view <$> es1 ++ e :: es2 = vs /\ e_key e = k /\
     lookup_table u !! k = Some (node_of e) /\ find k vs = Some (e_data e, e_w e) /\
     del k vs = view <$> es1 ++ es2 /\
     (forall d w, upd k (d, w) vs = view <$> es1 ++ reweigh w d e :: es2) /\
     used_weight u = (e_w e + wsum (es1 ++ es2)) mod usize_mod) \/
  (lookup_table u !! k = None /\ find k vs = None /\
     exists es, urepr u es /\ view <$> es = vs /\ k ∉ e_key <$> es).
Proof.
  intros (es & H & <-). destruct (lookup_table u !! k) as [n|] eqn:Hk; [left|right].
  - destruct (urepr_found _ _ _ _ H Hk) as (es1 & e & es2 & -> & <- & <-).
    destruct (find_middle es1 e es2 (ur_keys _ _ H)) as (H1 & H2 & H3).
    exists es1, e, es2. rewrite <- wsum_middle, <- (ur_used _ _ H). auto 10.
  - pose proof (urepr_absent _ _ _ H Hk) as Ha. split; [done|]. split; [by apply find_absent|].
    exists es. auto.
Qed.

(** A new entry at the head, as three operations insert it. *)
Lemma unit_push_ok u vs es k d w :
  urepr u es -> view <$> es = vs -> k ∉ e_key <$> es -> zlen vs + OFFSET < MAX_SLOTS ->
  exists u', unit_push k d w u = Some u' /\ unit_ok u' ((k, (d, w)) :: vs).
Proof.
  intros H <- Hk Hl. assert (Hroom : room (order u)) by (eapply ok_room; [by exists es|done]).
  destruct (insert_new u es k d w PlaceHead H Hk Hroom) as (i & ord & Hp & Hr). unfold unit_push.
  simpl in Hp. rewrite Hp. simpl. eexists. split; [done|]. eexists. split; [exact Hr|]. done.
Qed.

(** An entry given new data and weight and moved to the head. *)
Lemma front_ok u es1 e es2 d w :
  urepr u (es1 ++ e :: es2) ->
  exists ord, promote (e_idx e) (order u) = Some ord /\
    unit_ok (mkUnit (<[e_key e := node_of (reweigh w d e)]> (lookup_table u)) ord
               ((w + wsum (es1 ++ es2)) mod usize_mod))
      ((e_key e, (d, w)) :: (view <$> es1 ++ es2)).
Proof.
  intros H. destruct (replace_front u es1 e es2 (reweigh w d e)
    ((w + wsum (es1 ++ es2)) mod usize_mod) H eq_refl eq_refl eq_refl) as (ord & Hp & Hr).
  exists ord. split; [done|]. eexists. split; [exact Hr|]. done.
Qed.

Lemma in_place_ok u es1 e es2 w :
  urepr u (es1 ++ e :: es2) ->
  unit_ok (mkUnit (<[e_key e := node_of (reweigh w (e_data e) e)]> (lookup_table u)) (order u)
             ((w + wsum (es1 ++ es2)) mod usize_mod)) (view <$> es1 ++ reweigh w (e_data e) e :: es2).
Proof.
  intros H. eexists. split; [|done]. apply (replace_in_place u es1 e es2); [done..|].
  by rewrite wsum_middle.
Qed.

Lemma access_ok u es1 e es2 :
  urepr u (es1 ++ e :: es2) ->
  exists ord, promote (e_idx e) (order u) = Some ord /\
    unit_ok (mkUnit (lookup_table u) ord (used_weight u)) (view <$> e :: es1 ++ es2).
Proof.
  intros H. destruct (replace_front u es1 e es2 e (used_weight u) H eq_refl eq_refl)
    as (ord & Hp & Hr); [by rewrite (ur_used _ _ H), wsum_middle|].
  exists ord. split; [done|]. eexists. split; [|done].
  rewrite insert_id in Hr; [done|]. apply (ur_table _ _ H). exists e. split; [|done].
  rewrite elem_of_app, elem_of_cons. auto.
Qed.

Lemma evict_ok u vs :
  unit_ok u vs ->
  exists u', unit_evict u = Some (match last vs with Some (_, x) => Some x | None => None end, u') /\
    unit_ok u' (removelast vs).
Proof.
  intros (es & H & <-). pose proof (pop_tail_repr 0 (order u) _ (ur_order _ _ H)) as Hp.
  unfold unit_evict. destruct es as [|e es _] using rev_ind.
  - simpl in Hp. rewrite Hp. simpl. eexists. split; [done|]. exists []. split; [|done]. by destruct u.
  - rewrite fmap_app, reverse_app in Hp. simpl in Hp. destruct Hp as (ord & -> & Hr). simpl.
    assert (lookup_table u !! e_key e = Some (node_of e)) as ->.
    { apply (ur_table _ _ H). exists e. split; [|done]. rewrite elem_of_app. right. by left. }
    cbn [mbind option_bind]. rewrite fmap_app. change (view <$> [e]) with [view e].
    rewrite last_snoc. eexists. split; [done|].
    rewrite removelast_last. exists es. split; [|done].
    rewrite <- (app_nil_r es). apply drop_entry; [done|]. rewrite app_nil_r.
    by rewrite reverse_involutive in Hr.
Qed.

Lemma remove_ok u es1 e es2 :
  urepr u (es1 ++ e :: es2) -> lookup_table u !! e_key e = Some (node_of e) ->
  exists u', unit_remove (e_key e) u = Some (Some (e_data e, e_w e), u') /\
    unit_ok u' (view <$> es1 ++ es2).
Proof.
  intros H Hk. unfold unit_remove. rewrite Hk. simpl.
  pose proof (ur_order _ _ H) as Ho. rewrite fmap_app, fmap_cons in Ho.
  destruct (remove_repr 0 (order u) _ _ _ _ Ho) as (ord & -> & Hr). simpl.
  rewrite Z.eqb_refl. eexists. split; [done|]. exists (es1 ++ es2). split; [|done].
  apply drop_entry; [done|]. by rewrite fmap_app.
Qed.

Lemma run_uop_spec op u vs :
  unit_ok u vs -> zlen vs + OFFSET < MAX_SLOTS ->
  exists u', run_uop op u = Some ((spec_uop op vs).1, u') /\ unit_ok u' (spec_uop op vs).2.
Proof.
  intros Hok Hl.
  destruct op as [k d w|k d delta max|k f a|k|k w|k x w| |k|k d w p]; simpl.
  7: { destruct (evict_ok u vs Hok) as (u' & -> & Hu). simpl. eexists. split; [|].
       - by destruct (last vs) as [[??]|].
       - destruct (last vs) as [[??]|] eqn:Hlast; [done|]. apply last_None in Hlast. by subst vs. }
  all: destruct (ok_cases u vs k Hok) as [(es1 & e & es2 & H & <- & <- & Ht & Hf & Hd & Hup & Hu)
                                          |(Ht & Hf & es & H & Hvs & Hk)];
    rewrite Hf; unfold unit_admit, unit_increment_weight, unit_update_or_admit, unit_access,
      unit_set_weight, unit_set_weight_if_unchanged, unit_insert_at; rewrite ?Ht, ?Hd, ?Hu.
  - rewrite adjust_weight_spec. destruct (front_ok u es1 e es2 d w H) as (ord & Hp & Hr).
    simpl. rewrite Hp. simpl. eauto.
  - destruct (unit_push_ok u vs es k d w H Hvs Hk Hl) as (u' & -> & Hr). simpl. eauto.
  - rewrite adjust_weight_spec.
    destruct (front_ok u es1 e es2 (e_data e) (incremented (e_w e) delta max) H) as (ord & Hp & Hr).
    simpl. rewrite Hp. simpl. eauto.
  - destruct (unit_push_ok u vs es k d (capped delta max) H Hvs Hk Hl) as (u' & Hp & Hr).
    unfold capped in *. rewrite Hp. simpl. eauto.
  - destruct (f (e_data e) (e_w e)) as [d w] eqn:Hfe. simpl. rewrite Hfe.
    change (set_node_data d (node_of e)) with (node_of (reweigh (e_w e) d e)).
    change (e_w e) with (e_w (reweigh (e_w e) d e)) at 2. rewrite adjust_weight_spec.
    destruct (front_ok u es1 e es2 d (Z.max w 1) H) as (ord & Hp & Hr). simpl. rewrite Hp. simpl.
    eauto.
  - destruct a as [d w]. destruct (unit_push_ok u vs es k d (Z.max w 1) H Hvs Hk Hl)
      as (u' & -> & Hr). simpl. eauto.
  - destruct (access_ok u es1 e es2 H) as (ord & Hp & Hr). simpl. rewrite Hp. simpl. rewrite Hu in Hr.
    eauto.
  - simpl. eauto.
  - rewrite adjust_weight_spec. eexists. split; [done|]. simpl. rewrite Hup. by apply in_place_ok.
  - simpl. eauto.
  - simpl. destruct (e_w e =? x); [|eauto]. rewrite adjust_weight_spec. eexists. split; [done|].
    simpl. rewrite Hup. by apply in_place_ok.
  - simpl. eauto.
  - destruct (remove_ok u es1 e es2 H Ht) as (u' & -> & Hr). simpl. eauto.
  - unfold unit_remove. rewrite Ht. simpl. eauto.
  - simpl. eauto.
  - assert (Hroom : room (order u)) by (eapply ok_room; done).
    destruct (insert_new u es k d w p H Hk Hroom) as (i & ord & -> & Hr). simpl.
    eexists. split; [done|]. eexists. split; [exact Hr|]. subst vs. destruct p; [done|].
    simpl. by rewrite fmap_app.
Qed.
End unit.

(** ** The sharded LRU *)

Section lru.
Context {T : Type}.
Implicit Types (l : Lru T) (vs : list (Z * (T * Z))) (vss : list (list (Z * (T * Z)))).

Definition vsum vs : Z := foldr (fun x n => x.2.2 + n) 0 vs.
Definition total vss : Z := foldr (fun vs n => vsum vs + n) 0 vss.
Definition count vss : Z := foldr (fun vs n => zlen vs + n) 0 vss.

(** Weights are positive [usize]s. *)
Definition weights_ok vs : Prop := Forall (fun x => 1 <= x.2.2 < usize_mod) vs.

(** The LRU stands for one sequence per shard; its counters are the sums. *)
Record lru_ok l vss : Prop := {
  lo_units : Forall2 unit_ok (units l) vss;
  lo_lens : shard_lens l = (fun vs => zlen vs mod usize_mod) <$> vss;
  lo_weight : weight l = total vss mod usize_mod;
  lo_len : lru_len l = count vss mod usize_mod;
  lo_pos : Forall weights_ok vss
}.

Lemma total_insert vss i vs vs' :
  vss !! i = Some vs -> total (<[i := vs']> vss) = total vss - vsum vs + vsum vs'.
Proof.
  revert i. induction vss as [|v vss IH]; intros [|i] Hi; simplify_eq/=; [lia|].
  rewrite (IH _ Hi). lia.
Qed.

Lemma count_insert vss i vs vs' :
  vss !! i = Some vs -> count (<[i := vs']> vss) = count vss - zlen vs + zlen vs'.
Proof.
  revert i. induction vss as [|v vss IH]; intros [|i] Hi; simplify_eq/=; [lia|].
  rewrite (IH _ Hi). lia.
Qed.

(** One shard changes and the counters follow. *)
Lemma lru_step l l' vss i vs vs' u' :
  lru_ok l vss -> vss !! i = Some vs -> unit_ok u' vs' -> weights_ok vs' ->
  units l' = <[i := u']> (units l) ->
  shard_lens l' = <[i := zlen vs' mod usize_mod]> (shard_lens l) ->
  weight l' = (weight l + (vsum vs' - vsum vs)) mod usize_mod ->
  lru_len l' = (lru_len l + (zlen vs' - zlen vs)) mod usize_mod ->
  lru_ok l' (<[i := vs']> vss).
Proof.
  intros [Hu Hl Hw Hn Hp] Hi Hok Hpos Hu' Hl' Hw' Hn'. split.
  - rewrite Hu'. by apply Forall2_insert.
  - by rewrite Hl', Hl, list_fmap_insert.
  - rewrite Hw', Hw, Zplus_mod_idemp_l, (total_insert _ _ _ _ Hi). f_equal. lia.
  - rewrite Hn', Hn, Zplus_mod_idemp_l, (count_insert _ _ _ _ Hi). f_equal. lia.
  - by apply Forall_insert.
Qed.

Lemma lru_lock l vss key :
  lru_ok l vss -> units l <> [] ->
  exists i u vs, lock key l = Some (i, u) /\ units l !! i = Some u /\ vss !! i = Some vs /\
    unit_ok u vs /\ weights_ok vs /\ get_shard key (shards l) = Some i.
Proof.
  intros H Hne. unfold lock, get_shard, shards.
  assert (Hpos : 0 < zlen (units l)) by (unfold zlen; destruct (units l); [done|simpl; lia]).
  destruct (Z.eqb_spec (zlen (units l)) 0); [lia|]. simpl.
  pose proof (Z.mod_pos_bound key (zlen (units l)) Hpos).
  assert (is_Some (units l !! Z.to_nat (key mod zlen (units l)))) as [u Hu].
  { apply lookup_lt_is_Some. unfold zlen in *. lia. }
  destruct (Forall2_lookup_l _ _ _ _ _ (lo_units _ _ H) Hu) as (vs & Hvs & Hok).
  rewrite Hu. simpl. eexists _, _, _. split; [done|]. split; [done|]. split; [exact Hvs|].
  split; [done|]. split; [|done]. by apply (Forall_lookup_1 _ _ _ _ (lo_pos _ _ H) Hvs).
Qed.

(** ** Effects on the counters *)

Lemma find_In k vs x : find k vs = Some x -> (k, x) ∈ vs.
Proof.
  induction vs as [|[j y] vs IH]; simpl; [done|]. case_decide as Hj.
  - intros [= ->]. subst j. by left.
  - intros H. right. auto.
Qed.

Lemma del_effect k vs d w :
  find k vs = Some (d, w) -> vsum (del k vs) = vsum vs - w /\ zlen (del k vs) = zlen vs - 1.
Proof.
  induction vs as [|[j [d' w']] vs IH]; simpl; [done|]. case_decide as Hj.
  - intros [= -> ->]. rewrite zlen_cons. lia.
  - intros H. destruct (IH H) as [H1 H2]. simpl. rewrite !zlen_cons. lia.
Qed.

Lemma upd_effect k vs d w d' w' :
  find k vs = Some (d, w) ->
  vsum (upd k (d', w') vs) = vsum vs - w + w' /\ zlen (upd k (d', w') vs) = zlen vs.
Proof.
  induction vs as [|[j [e v]] vs IH]; simpl; [done|]. case_decide as Hj.
  - intros [= -> ->]. simpl. rewrite !zlen_cons. lia.
  - intros H. destruct (IH H) as [H1 H2]. simpl. rewrite !zlen_cons. lia.
Qed.

Lemma del_weights k vs : weights_ok vs -> weights_ok (del k vs).
Proof.
  induction 1 as [|[j x] vs Hx Hvs IH]; simpl; [constructor|]. case_decide; [done|]. by constructor.
Qed.

Lemma upd_weights k d w vs : 1 <= w < usize_mod -> weights_ok vs -> weights_ok (upd k (d, w) vs).
Proof.
  intros Hw. induction 1 as [|[j x] vs Hx Hvs IH]; simpl; [constructor|].
  case_decide; by constructor.
Qed.

Lemma find_weight k vs d w : weights_ok vs -> find k vs = Some (d, w) -> 1 <= w < usize_mod.
Proof.
  intros H Hf. apply find_In in Hf. unfold weights_ok in H. rewrite Forall_forall in H.
  by apply (H _ Hf).
Qed.

Lemma removelast_effect vs k d w :
  last vs = Some (k, (d, w)) ->
  vsum (removelast vs) = vsum vs - w /\ zlen (removelast vs) = zlen vs - 1.
Proof.
  destruct vs as [|x vs _] using rev_ind; [done|]. rewrite last_snoc. intros [= ->].
  rewrite removelast_last. unfold vsum, zlen. rewrite foldr_app, length_app. simpl.
  split; [|lia]. clear. induction vs as [|y vs IH]; simpl; lia.
Qed.

Lemma wadd_add a b : wadd (a mod usize_mod) b = (a mod usize_mod + b) mod usize_mod.
Proof. done. Qed.

Lemma mod_again a : (a mod usize_mod + 0) mod usize_mod = a mod usize_mod.
Proof. rewrite Z.add_0_r. by apply Z.mod_mod. Qed.

(** What a method has done when it returns: shard [i] replaced, the total weight
    moved by [dw], the counts still to be updated. *)
Record changed l l1 (i : nat) (u' : LruUnit T) (dw : Z) : Prop := {
  ch_units : units l1 = <[i := u']> (units l);
  ch_lens : shard_lens l1 = shard_lens l;
  ch_len : lru_len l1 = lru_len l;
  ch_weight : weight l1 = (weight l + dw) mod usize_mod
}.

Lemma changed_unlock l i u : weight l = weight l mod usize_mod -> changed l (unlock i u l) i u 0.
Proof. intros H. split; simpl; auto. by rewrite Z.add_0_r. Qed.

Lemma changed_add l l1 i u dw w : changed l l1 i u dw -> changed l (add_weight w l1) i u (dw + w).
Proof.
  intros [H1 H2 H3 H4]. split; simpl; auto. rewrite H4. unfold wadd.
  rewrite Zplus_mod_idemp_l. f_equal. lia.
Qed.

Lemma changed_sub l l1 i u dw w : changed l l1 i u dw -> changed l (sub_weight w l1) i u (dw - w).
Proof.
  intros [H1 H2 H3 H4]. split; simpl; auto. rewrite H4. unfold wsub.
  rewrite Zminus_mod_idemp_l. f_equal. lia.
Qed.

Lemma changed_apply l l1 i u dw o n :
  0 <= o < usize_mod -> 0 <= n < usize_mod -> changed l l1 i u dw ->
  changed l (apply_weight_change o n l1) i u (dw + (n - o)).
Proof.
  intros Ho Hn H. unfold apply_weight_change. destruct (Z.leb_spec o n).
  - rewrite wsub_small by lia. by apply changed_add.
  - rewrite wsub_small by lia. replace (dw + (n - o)) with (dw - (o - n)) by lia. by apply changed_sub.
Qed.

Lemma lru_weight_mod l vss : lru_ok l vss -> weight l = weight l mod usize_mod.
Proof. intros H. rewrite (lo_weight _ _ H). by rewrite Z.mod_mod. Qed.

Lemma shard_len_at l vss i vs :
  lru_ok l vss -> vss !! i = Some vs -> shard_lens l !! i = Some (zlen vs mod usize_mod).
Proof. intros H Hi. by rewrite (lo_lens _ _ H), list_lookup_fmap, Hi. Qed.

Lemma alter_at {A} (f : A -> A) (xs : list A) i x :
  xs !! i = Some x -> alter f i xs = <[i := f x]> xs.
Proof.
  intros H. apply list_eq. intros j. destruct (decide (i = j)) as [<-|Hne].
  - rewrite list_lookup_alter_eq, H. simpl. symmetry. apply list_lookup_insert_eq.
    by eapply lookup_lt_Some.
  - by rewrite list_lookup_alter_ne, list_lookup_insert_ne.
Qed.

Lemma finish_same l l1 vss i vs vs' u' dw :
  lru_ok l vss -> vss !! i = Some vs -> changed l l1 i u' dw -> unit_ok u' vs' -> weights_ok vs' ->
  dw = vsum vs' - vsum vs -> zlen vs' = zlen vs -> lru_ok l1 (<[i := vs']> vss).
Proof.
  intros H Hi [H1 H2 H3 H4] Hu Hw -> Hz. eapply lru_step; eauto.
  - rewrite H2, Hz. symmetry. apply list_insert_id. by eapply shard_len_at.
  - rewrite H3, Hz, Z.sub_diag, (lo_len _ _ H). by rewrite mod_again.
Qed.

Lemma finish_incr l l1 vss i vs vs' u' dw :
  lru_ok l vss -> vss !! i = Some vs -> changed l l1 i u' dw -> unit_ok u' vs' -> weights_ok vs' ->
  dw = vsum vs' - vsum vs -> zlen vs' = zlen vs + 1 -> lru_ok (incr_count i l1) (<[i := vs']> vss).
Proof.
  intros H Hi [H1 H2 H3 H4] Hu Hw -> Hz. pose proof (shard_len_at _ _ _ _ H Hi) as Hl.
  eapply lru_step; eauto; simpl.
  - rewrite H2, Hz. rewrite (alter_at _ _ _ _ Hl).
    f_equal. unfold wadd. by rewrite Zplus_mod_idemp_l.
  - rewrite H3, Hz, (lo_len _ _ H). unfold wadd. f_equal. lia.
Qed.

Lemma finish_decr l l1 vss i vs vs' u' dw :
  lru_ok l vss -> vss !! i = Some vs -> changed l l1 i u' dw -> unit_ok u' vs' -> weights_ok vs' ->
  dw = vsum vs' - vsum vs -> zlen vs' = zlen vs - 1 -> lru_ok (decr_count i l1) (<[i := vs']> vss).
Proof.
  intros H Hi [H1 H2 H3 H4] Hu Hw -> Hz. pose proof (shard_len_at _ _ _ _ H Hi) as Hl.
  eapply lru_step; eauto; simpl.
  - rewrite H2, Hz. rewrite (alter_at _ _ _ _ Hl).
    f_equal. unfold wsub. by rewrite Zminus_mod_idemp_l.
  - rewrite H3, Hz, (lo_len _ _ H). unfold wsub. f_equal. lia.
Qed.


(** ** The operations on the whole *)

Inductive gop :=
| GAdmit (k : Z) (d : T) (w : Z)
| GIncrement (k : Z) (d : T) (delta : Z) (max : option Z)
| GUpdate (k : Z) (f : T -> Z -> T * Z) (a : T * Z)
| GUpdateIf (k : Z) (p : T -> bool) (f : T -> Z -> T * Z) (promote_ : bool)
| GUpsertIf (k : Z) (p : T -> bool) (f : T -> Z -> T * Z) (a : T * Z)
| GSetWeight (k w : Z)
| GSetWeightIf (k expected w : Z)
| GPromote (k : Z)
| GEvict (k : Z)
| GRemove (k : Z)
| GRemoveIf (k : Z) (p : T -> Z -> bool) (count_as_eviction : bool)
| GInsertTail (k : Z) (d : T) (w : Z).

Definition gop_key (op : gop) : Z :=
  match op with
  | GAdmit k _ _ | GIncrement k _ _ _ | GUpdate k _ _ | GUpdateIf k _ _ _ | GUpsertIf k _ _ _
  | GSetWeight k _ | GSetWeightIf k _ _ | GPromote k | GEvict k | GRemove k | GRemoveIf k _ _
  | GInsertTail k _ _ => k
  end.

Definition run_gop (op : gop) (l : Lru T) : option (Lru T) :=
  match op with
  | GAdmit k d w => snd <$> lru_admit k d w l
  | GIncrement k d delta max => snd <$> increment_weight k d delta max l
  | GUpdate k f a => snd <$> update_or_admit k f a l
  | GUpdateIf k p f b => snd <$> update_if k p f b l
  | GUpsertIf k p f a => snd <$> upsert_if k p f a l
  | GSetWeight k w => snd <$> lru_set_weight k w l
  | GSetWeightIf k x w => snd <$> lru_set_weight_if_unchanged k x w l
  | GPromote k => snd <$> lru_promote k l
  | GEvict k => snd <$> evict_shard k l
  | GRemove k => snd <$> lru_remove k l
  | GRemoveIf k p b => snd <$> remove_matching k p b l
  | GInsertTail k d w => snd <$> insert_tail k d w l
  end.

(** The effect on the sequence of the key's shard. *)
Definition spec_gop (op : gop) vs : list (Z * (T * Z)) :=
  match op with
  | GAdmit k d w => (spec_uop (UAdmit k d (Z.max w 1)) vs).2
  | GIncrement k d delta max => (spec_uop (UIncrement k d delta max) vs).2
  | GUpdate k f a => (spec_uop (UUpdate k f a) vs).2
  | GUpdateIf k p f b =>
      match find k vs with
      | Some (d, w) =>
          if p d then
            let x := ((f d w).1, Z.max (f d w).2 1) in
            if b then (k, x) :: del k vs else upd k x vs
          else vs
      | None => vs
      end
  | GUpsertIf k p f a =>
      match find k vs with
      | Some (d, w) => if p d then (spec_uop (UUpdate k f a) vs).2 else vs
      | None => (spec_uop (UUpdate k f a) vs).2
      end
  | GSetWeight k w => (spec_uop (USetWeight k (Z.max w 1)) vs).2
  | GSetWeightIf k x w => (spec_uop (USetWeightIf k x (Z.max w 1)) vs).2
  | GPromote k => (spec_uop (UAccess k) vs).2
  | GEvict _ => removelast vs
  | GRemove k => (spec_uop (URemove k) vs).2
  | GRemoveIf k p _ =>
      match find k vs with
      | Some (d, w) => if p d w then del k vs else vs
      | None => vs
      end
  | GInsertTail k d w => (spec_uop (UInsert k d w PlaceTail) vs).2
  end.

(** Arguments are [usize]s; what is inserted at the tail has a positive weight. *)
Definition gop_ok (op : gop) : Prop :=
  match op with
  | GAdmit _ _ w | GSetWeight _ w => is_usize w
  | GSetWeightIf _ x w => is_usize x /\ is_usize w
  | GIncrement _ _ delta max => is_usize delta /\ match max with Some m => is_usize m | None => True end
  | GUpdate _ f a | GUpsertIf _ _ f a => (forall d w, is_usize (f d w).2) /\ is_usize a.2
  | GUpdateIf _ _ f _ => forall d w, is_usize (f d w).2
  | GInsertTail _ _ w => 1 <= w < usize_mod
  | _ => True
  end.

(** A unit operation, seen from the LRU: the new sequence and what it did to the
    counters. *)
Lemma unit_step op u vs :
  unit_ok u vs -> zlen vs + OFFSET < MAX_SLOTS ->
  exists u', run_uop op u = Some ((spec_uop op vs).1, u') /\ unit_ok u' (spec_uop op vs).2.
Proof. apply run_uop_spec. Qed.

Lemma cons_weights k d w vs : 1 <= w < usize_mod -> weights_ok vs -> weights_ok ((k, (d, w)) :: vs).
Proof. by constructor. Qed.

Lemma vsum_cons k d w vs : vsum ((k, (d, w)) :: vs) = w + vsum vs.
Proof. done. Qed.

Lemma max_usize w : is_usize w -> 1 <= Z.max w 1 < usize_mod.
Proof. uz. Qed.


Section ops.
Context (l : Lru T) (vss : list (list (Z * (T * Z)))).
Context (H : lru_ok l vss) (Hne : units l <> [])
  (Hsz : Forall (fun vs => zlen vs + OFFSET < MAX_SLOTS) vss).

(** [op] does to the shard of its key what [spec_gop] says, and the counters of
    the whole agree with the sequences again. *)
Definition gop_refines (op : gop) : Prop :=
  exists i l', get_shard (gop_key op) (shards l) = Some i /\ run_gop op l = Some l' /\
    lru_ok l' (alter (spec_gop op) i vss) /\ length (units l') = length (units l).

Definition good (l' : Lru T) (i : nat) vs' : Prop :=
  lru_ok l' (<[i := vs']> vss) /\ length (units l') = length (units l).

Lemma close_none i vs : vss !! i = Some vs -> good l i vs.
Proof. intros Hi. split; [by rewrite list_insert_id|done]. Qed.

Lemma close_same l1 i vs vs' u' dw :
  vss !! i = Some vs -> changed l l1 i u' dw -> unit_ok u' vs' -> weights_ok vs' ->
  dw = vsum vs' - vsum vs -> zlen vs' = zlen vs -> good l1 i vs'.
Proof.
  intros Hi Hch Hu Hw Hd Hz. split; [by eapply finish_same|].
  rewrite (ch_units _ _ _ _ _ Hch). apply length_insert.
Qed.

Lemma close_incr l1 i vs vs' u' dw :
  vss !! i = Some vs -> changed l l1 i u' dw -> unit_ok u' vs' -> weights_ok vs' ->
  dw = vsum vs' - vsum vs -> zlen vs' = zlen vs + 1 -> good (incr_count i l1) i vs'.
Proof.
  intros Hi Hch Hu Hw Hd Hz. split; [by eapply finish_incr|].
  simpl. rewrite (ch_units _ _ _ _ _ Hch). apply length_insert.
Qed.

Lemma close_decr l1 i vs vs' u' dw :
  vss !! i = Some vs -> changed l l1 i u' dw -> unit_ok u' vs' -> weights_ok vs' ->
  dw = vsum vs' - vsum vs -> zlen vs' = zlen vs - 1 -> good (decr_count i l1) i vs'.
Proof.
  intros Hi Hch Hu Hw Hd Hz. split; [by eapply finish_decr|].
  simpl. rewrite (ch_units _ _ _ _ _ Hch). apply length_insert.
Qed.

(** An entry replaced at the head: what it does to the sums. *)
Lemma front_effect k vs d0 w0 d w :
  find k vs = Some (d0, w0) -> weights_ok vs -> 1 <= w < usize_mod ->
  weights_ok ((k, (d, w)) :: del k vs) /\
  vsum ((k, (d, w)) :: del k vs) - vsum vs = w - w0 /\
  zlen ((k, (d, w)) :: del k vs) = zlen vs /\ 1 <= w0 < usize_mod.
Proof.
  intros Hf Hw Hb. destruct (del_effect _ _ _ _ Hf) as [H1 H2].
  split; [by apply cons_weights, del_weights|]. rewrite vsum_cons, zlen_cons.
  pose proof (find_weight _ _ _ _ Hw Hf). lia.
Qed.

Lemma in_place_effect k vs d0 w0 d w :
  find k vs = Some (d0, w0) -> weights_ok vs -> 1 <= w < usize_mod ->
  weights_ok (upd k (d, w) vs) /\ vsum (upd k (d, w) vs) - vsum vs = w - w0 /\
  zlen (upd k (d, w) vs) = zlen vs /\ 1 <= w0 < usize_mod.
Proof.
  intros Hf Hw Hb. destruct (upd_effect _ _ _ _ d w Hf) as [H1 H2].
  split; [by apply upd_weights|]. pose proof (find_weight _ _ _ _ Hw Hf). lia.
Qed.

Lemma shard_room i vs : vss !! i = Some vs -> zlen vs + OFFSET < MAX_SLOTS.
Proof. apply (Forall_lookup_1 _ _ _ _ Hsz). Qed.

(** The shard of a key, ready to be changed. *)
Lemma locked k :
  exists i u vs, lock k l = Some (i, u) /\ units l !! i = Some u /\ vss !! i = Some vs /\
    unit_ok u vs /\ weights_ok vs /\ get_shard k (shards l) = Some i /\
    (forall f, alter f i vss = <[i := f vs]> vss) /\
    (forall u', changed l (unlock i u' l) i u' 0) /\
    (forall op, exists u', run_uop op u = Some ((spec_uop op vs).1, u') /\
                  unit_ok u' (spec_uop op vs).2).
Proof.
  destruct (lru_lock l vss k H Hne) as (i & u & vs & Hlk & Hu & Hi & Hok & Hw & Hsh).
  exists i, u, vs. do 6 (split; [done|]). split; [by intros f; apply alter_at|].
  split; [intros u'; by apply changed_unlock, (lru_weight_mod l vss)|].
  intros op. apply run_uop_spec; [done|by eapply shard_room].
Qed.

(** The entry's weight moved from [w0] to [w], by one counter update or by two. *)
Lemma close_reweigh i vs vs' u' w0 w :
  vss !! i = Some vs -> unit_ok u' vs' -> weights_ok vs' ->
  vsum vs' - vsum vs = w - w0 -> zlen vs' = zlen vs ->
  1 <= w0 < usize_mod -> 1 <= w < usize_mod ->
  good (if w0 =? w then unlock i u' l else apply_weight_change w0 w (unlock i u' l)) i vs' /\
  good (if w0 =? w then unlock i u' l else sub_weight w0 (add_weight w (unlock i u' l))) i vs' /\
  good (add_weight (wsub w w0) (unlock i u' l)) i vs'.
Proof.
  intros Hi Hu Hw Hv Hz H0 H1.
  pose proof (changed_unlock l i u' (lru_weight_mod l vss H)) as Hun.
  split; [|split].
  - destruct (Z.eqb_spec w0 w).
    + eapply close_same; eauto; lia.
    + pose proof (changed_apply l _ i u' 0 w0 w ltac:(lia) ltac:(lia) Hun) as Hch.
      eapply close_same; eauto; lia.
  - destruct (Z.eqb_spec w0 w).
    + eapply close_same; eauto; lia.
    + pose proof (changed_sub _ _ _ _ _ w0 (changed_add _ _ _ _ _ w Hun)) as Hch.
      eapply close_same; eauto; lia.
  - pose proof (changed_add _ _ _ _ _ (wsub w w0) Hun) as [Hc1 Hc2 Hc3 Hc4].
    apply (close_same _ i vs vs' u' (w - w0)); auto; try lia. split; auto.
    rewrite Hc4. unfold wsub. by rewrite Z.add_0_l, Zplus_mod_idemp_r.
Qed.

(** A new entry. *)
Lemma close_insert i vs vs' u' w :
  vss !! i = Some vs -> unit_ok u' vs' -> weights_ok vs' -> vsum vs' - vsum vs = w ->
  zlen vs' = zlen vs + 1 -> good (incr_count i (add_weight w (unlock i u' l))) i vs'.
Proof.
  intros Hi Hu Hw Hv Hz. pose proof (changed_unlock l i u' (lru_weight_mod l vss H)) as Hun.
  pose proof (changed_add _ _ _ _ _ w Hun) as Hch. eapply close_incr; eauto; lia.
Qed.

(** An entry dropped. *)
Lemma close_drop i vs vs' u' w :
  vss !! i = Some vs -> unit_ok u' vs' -> weights_ok vs' -> vsum vs' - vsum vs = - w ->
  zlen vs' = zlen vs - 1 -> good (decr_count i (sub_weight w (unlock i u' l))) i vs'.
Proof.
  intros Hi Hu Hw Hv Hz. pose proof (changed_unlock l i u' (lru_weight_mod l vss H)) as Hun.
  pose proof (changed_sub _ _ _ _ _ w Hun) as Hch. eapply close_decr; eauto; lia.
Qed.

Lemma new_effect k d w vs :
  weights_ok vs -> 1 <= w < usize_mod ->
  weights_ok ((k, (d, w)) :: vs) /\ vsum ((k, (d, w)) :: vs) - vsum vs = w /\
  zlen ((k, (d, w)) :: vs) = zlen vs + 1.
Proof. intros Hw Hb. split; [by constructor|]. rewrite vsum_cons, zlen_cons. lia. Qed.

Lemma gop_admit k d w : is_usize w -> gop_refines (GAdmit k d w).
Proof.
  intros Hus. destruct (locked k) as (i & u & vs & Hlk & Hu & Hi & Hok & Hw & Hsh & Hal & Hun & Hop).
  destruct (Hop (UAdmit k d (Z.max w 1))) as (u' & Hrun & Hok'). simpl in Hrun, Hok'.
  exists i. simpl. rewrite Hal. cbn [spec_gop spec_uop]. unfold lru_admit. rewrite Hlk. simpl.
  destruct (unit_admit k d (Z.max w 1) u) as [[old u1]|]; [|done]. simpl in Hrun |- *.
  pose proof (max_usize w Hus) as Hmx.
  destruct (find k vs) as [[d0 w0]|] eqn:Hf; cbn [fst snd] in *; simplify_eq;
    (eexists; split; [done|]; split; [done|]).
  - destruct (front_effect k vs d0 w0 d _ Hf Hw Hmx) as (H1 & H2 & H3 & H4).
    destruct (Z.ltb_spec 0 w0); [|lia]. by apply (close_reweigh i vs).
  - destruct (new_effect k d _ vs Hw Hmx) as (H1 & H2 & H3).
    destruct (Z.eqb_spec 0 (Z.max w 1)); [lia|]. by apply (close_insert i vs).
Qed.

Lemma incremented_ok w0 delta max :
  1 <= w0 < usize_mod -> is_usize delta -> 1 <= incremented w0 delta max < usize_mod.
Proof. intros. unfold incremented. destruct max; uz. Qed.

Lemma capped_ok delta max :
  is_usize delta -> 1 <= capped delta max < usize_mod.
Proof. intros. unfold capped. destruct max; uz. Qed.

Lemma gop_increment k d delta max : is_usize delta -> gop_refines (GIncrement k d delta max).
Proof.
  intros Hus. destruct (locked k) as (i & u & vs & Hlk & Hu & Hi & Hok & Hw & Hsh & Hal & Hun & Hop).
  destruct (Hop (UIncrement k d delta max)) as (u' & Hrun & Hok'). simpl in Hrun, Hok'.
  exists i. simpl. rewrite Hal. cbn [spec_gop spec_uop]. unfold increment_weight. rewrite Hlk. simpl.
  destruct (unit_increment_weight k d delta max u) as [[[[old new] adm] u1]|]; [|done].
  simpl in Hrun |- *.
  destruct (find k vs) as [[d0 w0]|] eqn:Hf; cbn [fst snd] in *; simplify_eq;
    (eexists; split; [done|]; split; [done|]).
  - pose proof (incremented_ok w0 delta max (find_weight _ _ _ _ Hw Hf) Hus) as Hb.
    destruct (front_effect k vs d0 w0 d0 _ Hf Hw Hb) as (H1 & H2 & H3 & H4).
    by apply (close_reweigh i vs).
  - pose proof (capped_ok delta max Hus) as Hb.
    destruct (new_effect k d _ vs Hw Hb) as (H1 & H2 & H3).
    rewrite wsub_small by lia. rewrite Z.sub_0_r. by apply (close_insert i vs).
Qed.

(** [update_or_admit], as [upsert_if] uses it too. *)
Lemma update_close k f a i u vs u' old new u1 :
  (forall d w, is_usize (f d w).2) -> is_usize a.2 ->
  vss !! i = Some vs -> weights_ok vs ->
  Some (RUpd old new, u1) = Some ((spec_uop (UUpdate k f a) vs).1, u') ->
  unit_ok u' (spec_uop (UUpdate k f a) vs).2 -> u = u1 ->
  let l' := unlock i u l in
  good match old with
       | Some old => if old =? new then l' else apply_weight_change old new l'
       | None => incr_count i (add_weight new l')
       end i (spec_uop (UUpdate k f a) vs).2 /\
  good match old with
       | Some old => if old =? new then l' else sub_weight old (add_weight new l')
       | None => incr_count i (add_weight new l')
       end i (spec_uop (UUpdate k f a) vs).2.
Proof.
  intros Hf Ha Hi Hw Hrun Hok' ->. simpl in *.
  destruct (find k vs) as [[d0 w0]|] eqn:Hfind; cbn [fst snd] in *; simplify_eq.
  - pose proof (max_usize _ (Hf d0 w0)) as Hb.
    destruct (front_effect k vs d0 w0 (f d0 w0).1 _ Hfind Hw Hb) as (H1 & H2 & H3 & H4).
    split; by apply (close_reweigh i vs).
  - destruct (new_effect k a.1 _ vs Hw (max_usize _ Ha)) as (H1 & H2 & H3).
    split; by apply (close_insert i vs).
Qed.

Lemma gop_update k f a :
  (forall d w, is_usize (f d w).2) -> is_usize a.2 -> gop_refines (GUpdate k f a).
Proof.
  intros Hf Ha. destruct (locked k) as (i & u & vs & Hlk & Hu & Hi & Hok & Hw & Hsh & Hal & Hun & Hop).
  destruct (Hop (UUpdate k f a)) as (u' & Hrun & Hok'). unfold run_uop in Hrun.
  exists i. cbn [gop_key run_gop]. rewrite Hal. cbn [spec_gop]. unfold update_or_admit. rewrite Hlk. simpl.
  destruct (unit_update_or_admit k f a u) as [[[old new] u1]|]; [|done].
  eexists. split; [done|]. split; [done|]. by apply (update_close k f a i u1 vs u' old new u1).
Qed.

Lemma gop_upsert k p f a :
  (forall d w, is_usize (f d w).2) -> is_usize a.2 -> gop_refines (GUpsertIf k p f a).
Proof.
  intros Hf Ha. destruct (locked k) as (i & u & vs & Hlk & Hu & Hi & Hok & Hw & Hsh & Hal & Hun & Hop).
  destruct (Hop (UUpdate k f a)) as (u' & Hrun & Hok'). unfold run_uop in Hrun.
  exists i. cbn [gop_key run_gop]. rewrite Hal. cbn [spec_gop]. unfold upsert_if. rewrite Hlk.
  cbn [mbind option_bind].
  pose proof (ok_lookup u vs k Hok) as Hlook. unfold unit_peek.
  assert (Hgo : exists l', snd <$> ('(old_weight, new_weight, u0) ← unit_update_or_admit k f a u;
    Some (match old_weight with Some w => Updated w | None => NewlyAdmitted end,
          match old_weight with
          | Some old => if old =? new_weight then unlock i u0 l
                        else sub_weight old (add_weight new_weight (unlock i u0 l))
          | None => incr_count i (add_weight new_weight (unlock i u0 l))
          end)) = Some l' /\ good l' i (spec_uop (UUpdate k f a) vs).2).
  { destruct (unit_update_or_admit k f a u) as [[[old new] u1]|]; [|done].
    eexists. split; [done|]. by apply (update_close k f a i u1 vs u' old new u1). }
  destruct Hgo as (l1 & Hl1 & Hg1).
  destruct (lookup_table u !! k) as [n|]; simpl in Hlook; rewrite Hlook; cbn [fmap option_fmap].
  - simpl. destruct (p (ln_data n)); simpl.
    + exists l1. by split; [|split].
    + exists l. split; [done|]. split; [done|]. by apply close_none.
  - exists l1. by split; [|split].
Qed.

Lemma gop_set_weight k w : is_usize w -> gop_refines (GSetWeight k w).
Proof.
  intros Hus. destruct (locked k) as (i & u & vs & Hlk & Hu & Hi & Hok & Hw & Hsh & Hal & Hun & Hop).
  destruct (Hop (USetWeight k (Z.max w 1))) as (u' & Hrun & Hok'). simpl in Hrun, Hok'.
  exists i. simpl. rewrite Hal. cbn [spec_gop spec_uop]. unfold lru_set_weight. rewrite Hlk. cbn [mbind option_bind].
  pose proof (max_usize w Hus) as Hmx.
  destruct (unit_set_weight k (Z.max w 1) u) as [o u1]. simpl.
  destruct (find k vs) as [[d0 w0]|] eqn:Hf; cbn [fst snd] in *; simplify_eq;
    (eexists; split; [done|]; split; [done|]).
  - destruct (in_place_effect k vs d0 w0 d0 _ Hf Hw Hmx) as (H1 & H2 & H3 & H4).
    by apply (close_reweigh i vs).
  - by apply close_none.
Qed.

Lemma gop_set_weight_if k x w : is_usize w -> gop_refines (GSetWeightIf k x w).
Proof.
  intros Hus. destruct (locked k) as (i & u & vs & Hlk & Hu & Hi & Hok & Hw & Hsh & Hal & Hun & Hop).
  destruct (Hop (USetWeightIf k x (Z.max w 1))) as (u' & Hrun & Hok'). simpl in Hrun, Hok'.
  exists i. simpl. rewrite Hal. cbn [spec_gop spec_uop]. unfold lru_set_weight_if_unchanged. rewrite Hlk.
  cbn [mbind option_bind]. pose proof (max_usize w Hus) as Hmx.
  destruct (unit_set_weight_if_unchanged k x (Z.max w 1) u) as [o u1]. simpl.
  destruct (find k vs) as [[d0 w0]|] eqn:Hf; cbn [fst snd] in *; simplify_eq.
  - destruct (in_place_effect k vs d0 w0 d0 _ Hf Hw Hmx) as (H1 & H2 & H3 & H4).
    destruct (Z.eqb_spec w0 x) as [->|]; cbn [fst snd] in *; simplify_eq;
      (eexists; split; [done|]; split; [done|]).
    + by apply (close_reweigh i vs).
    + by apply close_none.
  - eexists. split; [done|]. split; [done|]. by apply close_none.
Qed.

Lemma access_effect k vs x :
  find k vs = Some x -> weights_ok vs ->
  weights_ok ((k, x) :: del k vs) /\ vsum ((k, x) :: del k vs) = vsum vs /\
  zlen ((k, x) :: del k vs) = zlen vs.
Proof.
  destruct x as [d w]. intros Hf Hw.
  destruct (front_effect k vs d w d w Hf Hw (find_weight _ _ _ _ Hw Hf)) as (H1 & H2 & H3 & _).
  split; [done|]. lia.
Qed.

Lemma gop_promote k : gop_refines (GPromote k).
Proof.
  destruct (locked k) as (i & u & vs & Hlk & Hu & Hi & Hok & Hw & Hsh & Hal & Hun & Hop).
  destruct (Hop (UAccess k)) as (u' & Hrun & Hok'). simpl in Hrun, Hok'.
  exists i. simpl. rewrite Hal. cbn [spec_gop spec_uop]. unfold lru_promote. rewrite Hlk. cbn [mbind option_bind].
  destruct (unit_access k u) as [[b u1]|]; [|done]. simpl in Hrun |- *.
  destruct (find k vs) as [x|] eqn:Hf; cbn [fst snd] in *; simplify_eq;
    (eexists; split; [done|]; split; [done|]).
  - destruct (access_effect k vs x Hf Hw) as (H1 & H2 & H3).
    eapply close_same; [done|apply Hun|done|done|lia|lia].
  - eapply close_same; [done|apply Hun|done|done|lia|lia].
Qed.

Lemma good_evicted l1 i vs' w : good l1 i vs' -> good (count_evicted w l1) i vs'.
Proof. intros [[H1 H2 H3 H4 H5] Hl]. split; [|done]. by split. Qed.

Lemma removelast_weights vs : weights_ok vs -> weights_ok (removelast vs).
Proof.
  intros Hw. destruct vs as [|x vs _] using rev_ind; [done|]. rewrite removelast_last.
  by apply Forall_app in Hw as [? _].
Qed.

(** Evicting from a shard, with the item. *)
Lemma evict_shard_at_ok i u vs :
  units l !! i = Some u -> vss !! i = Some vs -> unit_ok u vs -> weights_ok vs ->
  exists l', evict_shard_at i l = Some (snd <$> last vs, l') /\ good l' i (removelast vs) /\
    weight_limit l' = weight_limit l /\ len_watermark l' = len_watermark l.
Proof.
  intros Hu Hi Hok Hw. unfold evict_shard_at. rewrite Hu. cbn [mbind option_bind].
  destruct (evict_ok u vs Hok) as (u' & -> & Hok').
  destruct (last vs) as [[k [d w]]|] eqn:Hlast; simpl; (eexists; split; [done|]; split; [|done]).
  - destruct (removelast_effect vs k d w Hlast) as [H1 H2].
    apply good_evicted, (close_drop i vs); auto using removelast_weights; lia.
  - apply last_None in Hlast. subst vs.
    eapply close_same; [done|by apply changed_unlock, (lru_weight_mod l vss)|done|done|done|done].
Qed.

Lemma gop_evict k : gop_refines (GEvict k).
Proof.
  destruct (locked k) as (i & u & vs & Hlk & Hu & Hi & Hok & Hw & Hsh & Hal & Hun & Hop).
  exists i. cbn [gop_key run_gop]. rewrite Hal. cbn [spec_gop]. unfold evict_shard. rewrite Hsh.
  cbn [mbind option_bind]. destruct (evict_shard_at_ok i u vs Hu Hi Hok Hw) as (l' & -> & Hg & _).
  exists l'. by split; [|split].
Qed.

(** Removing the entry of a key that is there. *)
Lemma remove_found k i u vs d w :
  vss !! i = Some vs -> weights_ok vs -> unit_ok u vs -> find k vs = Some (d, w) ->
  exists u', unit_remove k u = Some (Some (d, w), u') /\
    good (decr_count i (sub_weight w (unlock i u' l))) i (del k vs).
Proof.
  intros Hi Hw Hok Hf. destruct (del_effect _ _ _ _ Hf) as [H1 H2].
  destruct (run_uop_spec (URemove k) u vs Hok (shard_room i vs Hi)) as (u' & Hrun & Hok').
  simpl in Hrun, Hok'. rewrite Hf in Hrun, Hok'.
  destruct (unit_remove k u) as [[o u1]|]; [|done]. simpl in Hrun. simplify_eq.
  exists u'. split; [done|]. apply (close_drop i vs); auto using del_weights; lia.
Qed.

Lemma gop_remove k : gop_refines (GRemove k).
Proof.
  destruct (locked k) as (i & u & vs & Hlk & Hu & Hi & Hok & Hw & Hsh & Hal & Hun & Hop).
  destruct (Hop (URemove k)) as (u' & Hrun & Hok'). simpl in Hrun, Hok'.
  exists i. simpl. rewrite Hal. cbn [spec_gop spec_uop]. unfold lru_remove. rewrite Hlk. cbn [mbind option_bind].
  destruct (find k vs) as [[d w]|] eqn:Hf.
  - destruct (remove_found k i u vs d w Hi Hw Hok Hf) as (u1 & -> & Hg). simpl.
    eexists. split; [done|]. split; [done|]. exact Hg.
  - destruct (unit_remove k u) as [[o u1]|]; [|done]. simpl in Hrun |- *. simplify_eq.
    eexists. split; [done|]. split; [done|]. eapply close_same; [done|apply Hun|done|done|lia|done].
Qed.

Lemma gop_remove_if k p b : gop_refines (GRemoveIf k p b).
Proof.
  destruct (locked k) as (i & u & vs & Hlk & Hu & Hi & Hok & Hw & Hsh & Hal & Hun & Hop).
  exists i. simpl. rewrite Hal. cbn [spec_gop spec_uop]. unfold remove_matching. rewrite Hlk. cbn [mbind option_bind].
  pose proof (ok_lookup u vs k Hok) as Hlook.
  destruct (lookup_table u !! k) as [n|]; simpl in Hlook; rewrite Hlook.
  - destruct (p (ln_data n) (ln_weight n)).
    + destruct (remove_found k i u vs _ _ Hi Hw Hok Hlook) as (u1 & -> & Hg). simpl.
      eexists. split; [done|]. split; [done|]. destruct b; [by apply good_evicted|done].
    + eexists. split; [done|]. split; [done|]. by apply close_none.
  - eexists. split; [done|]. split; [done|]. by apply close_none.
Qed.

Lemma gop_update_if k p f b :
  (forall d w, is_usize (f d w).2) -> gop_refines (GUpdateIf k p f b).
Proof.
  intros Hf. destruct (locked k) as (i & u & vs & Hlk & Hu & Hi & Hok & Hw & Hsh & Hal & Hun & Hop).
  exists i. simpl. rewrite Hal. cbn [spec_gop spec_uop]. unfold update_if. rewrite Hlk. cbn [mbind option_bind].
  destruct (ok_cases u vs k Hok) as [(es1 & e & es2 & Hr & Hvs & Hk & Ht & Hfind & Hd & Hup & Hus)
                                    |(Ht & Hfind & _)]; rewrite Ht, Hfind.
  2: { eexists. split; [done|]. split; [done|]. by apply close_none. }
  simpl. destruct (p (e_data e)).
  2: { eexists. split; [done|]. split; [done|]. by apply close_none. }
  pose proof (max_usize _ (Hf (e_data e) (e_w e))) as Hmx.
  destruct (f (e_data e) (e_w e)) as [d w]. simpl in Hmx.
  pose proof (adjust_weight_spec (reweigh (e_w e) d e) (wsum (es1 ++ es2)) (Z.max w 1)) as Hadj.
  change (node_of (reweigh (e_w e) d e)) with (set_node_data d (node_of e)) in Hadj.
  cbn [e_w e_data reweigh] in Hadj. rewrite Hus, Hadj. cbn [mbind option_bind].
  subst k. destruct b.
  - destruct (front_ok u es1 e es2 d (Z.max w 1) Hr) as (ord & Hp & Hok'). simpl. rewrite Hp. simpl.
    rewrite <- Hd in Hok'. destruct (front_effect _ vs _ _ d _ Hfind Hw Hmx) as (H1 & H2 & H3 & H4).
    eexists. split; [done|]. split; [done|]. by apply (close_reweigh i vs).
  - simpl. destruct (in_place_effect _ vs _ _ d _ Hfind Hw Hmx) as (H1 & H2 & H3 & H4).
    eexists. split; [done|]. split; [done|]. apply (close_reweigh i vs); auto.
    rewrite Hup. eexists. split; [|done].
    apply (replace_in_place u es1 e es2 (reweigh (Z.max w 1) d e)); [done..|]. by rewrite wsum_middle.
Qed.

Lemma gop_insert_tail k d w : 1 <= w < usize_mod -> gop_refines (GInsertTail k d w).
Proof.
  intros Hb. destruct (locked k) as (i & u & vs & Hlk & Hu & Hi & Hok & Hw & Hsh & Hal & Hun & Hop).
  destruct (Hop (UInsert k d w PlaceTail)) as (u' & Hrun & Hok'). simpl in Hrun, Hok'.
  exists i. simpl. rewrite Hal. cbn [spec_gop spec_uop]. unfold insert_tail, unit_insert_tail. rewrite Hlk.
  cbn [mbind option_bind].
  destruct (unit_insert_at k d w PlaceTail u) as [[b u1]|]; [|done]. simpl in Hrun |- *.
  destruct (find k vs) as [x|] eqn:Hf; cbn [fst snd] in *; simplify_eq;
    (eexists; split; [done|]; split; [done|]).
  - eapply close_same; [done|apply Hun|done|done|lia|done].
  - apply (close_insert i vs); auto.
    + apply Forall_app. split; [done|]. by apply Forall_singleton.
    + unfold vsum. rewrite foldr_app. simpl. clear. induction vs as [|y vs IH]; simpl; lia.
    + rewrite zlen_app. done.
Qed.

Lemma gop_all op : gop_ok op -> gop_refines op.
Proof.
  destruct op; simpl; intros.
  - by apply gop_admit.
  - apply gop_increment. tauto.
  - apply gop_update; tauto.
  - by apply gop_update_if.
  - apply gop_upsert; tauto.
  - by apply gop_set_weight.
  - apply gop_set_weight_if. tauto.
  - apply gop_promote.
  - apply gop_evict.
  - apply gop_remove.
  - apply gop_remove_if.
  - by apply gop_insert_tail.
Qed.

End ops.

(** ** Eviction *)

Definition same_limits l l' : Prop :=
  weight_limit l' = weight_limit l /\ len_watermark l' = len_watermark l /\
  length (units l') = length (units l).

Lemma same_limits_trans l1 l2 l3 : same_limits l1 l2 -> same_limits l2 l3 -> same_limits l1 l3.
Proof. unfold same_limits. intuition congruence. Qed.

Lemma lru_shard l vss i :
  lru_ok l vss -> (i < length (units l))%nat ->
  exists u vs, units l !! i = Some u /\ vss !! i = Some vs /\ unit_ok u vs /\ weights_ok vs.
Proof.
  intros H Hi. apply lookup_lt_is_Some in Hi as [u Hu].
  destruct (Forall2_lookup_l _ _ _ _ _ (lo_units _ _ H) Hu) as (vs & Hvs & Hok).
  exists u, vs. repeat split; auto. by apply (Forall_lookup_1 _ _ _ _ (lo_pos _ _ H) Hvs).
Qed.

(** [probe] evicts the tail of the first non-empty shard it meets, or finds all
    the shards it visits empty. *)
Lemma probe_spec n i l vss :
  lru_ok l vss -> (i < length (units l))%nat ->
  (exists j vs k x l', vss !! j = Some vs /\ last vs = Some (k, x) /\
     probe n i l = Some (Some x, l') /\ lru_ok l' (<[j := removelast vs]> vss) /\ same_limits l l') \/
  (exists l', probe n i l = Some (None, l') /\ lru_ok l' vss /\ same_limits l l' /\
     forall t, (t < n)%nat -> vss !! ((i + t) mod length (units l))%nat = Some []).
Proof.
  revert i l. induction n as [|n IH]; intros i l H Hi.
  { right. exists l. split; [done|]. split; [done|]. split; [done|]. lia. }
  destruct (lru_shard l vss i H Hi) as (u & vs & Hu & Hvs & Hok & Hw).
  destruct (evict_shard_at_ok l vss H i u vs Hu Hvs Hok Hw) as (l1 & Hev & [Hok1 Hlen1] & Hlim & Hwm).
  simpl. rewrite Hev. simpl.
  destruct (last vs) as [[k x]|] eqn:Hlast; simpl.
  - left. exists i, vs, k, x, l1. repeat split; auto; apply Hok1.
  - apply last_None in Hlast. subst vs. simpl in Hok1. rewrite list_insert_id in Hok1 by done.
    rewrite Hlen1.
    assert (Hs : same_limits l l1) by done.
    assert (Hi' : (S i mod length (units l) < length (units l1))%nat)
      by (rewrite Hlen1; apply Nat.mod_upper_bound; lia).
    destruct (IH _ l1 Hok1 Hi') as [(j & vs & k & x & l2 & H1 & H2 & H3 & H4 & H5)
                                   |(l2 & H1 & H2 & H3 & H4)].
    + left. exists j, vs, k, x, l2. eauto 10 using same_limits_trans.
    + right. exists l2. split; [done|]. split; [done|]. split; [by eapply same_limits_trans|].
      intros [|t] Ht.
      * rewrite Nat.add_0_r, Nat.mod_small by lia. done.
      * specialize (H4 t ltac:(lia)). rewrite Hlen1, Nat.Div0.add_mod_idemp_l in H4.
        by rewrite Nat.add_succ_r.
Qed.

(** Going once round visits every shard. *)
Lemma round_trip_empty (vss : list (list (Z * (T * Z)))) i N :
  length vss = N -> (i < N)%nat -> (forall t, (t < N)%nat -> vss !! ((i + t) mod N)%nat = Some []) ->
  Forall (.= []) vss.
Proof.
  intros Hl Hi H. apply Forall_lookup_2. intros j vs Hj.
  pose proof (lookup_lt_Some _ _ _ Hj) as Hlt.
  specialize (H ((j + N - i) mod N)%nat ltac:(apply Nat.mod_upper_bound; lia)).
  rewrite Nat.Div0.add_mod_idemp_r in H.
  replace (i + (j + N - i))%nat with (j + 1 * N)%nat in H by lia.
  rewrite Nat.Div0.mod_add, Nat.mod_small in H by lia. congruence.
Qed.

Lemma empty_sums vss : Forall (.= []) vss -> total vss = 0 /\ count vss = 0.
Proof.
  induction 1 as [|vs vss -> _ [IH1 IH2]]; simpl; [done|]. rewrite IH1, IH2. done.
Qed.

Lemma sums_nonneg vss : Forall weights_ok vss -> 0 <= total vss /\ 0 <= count vss.
Proof.
  induction 1 as [|vs vss Hw _ [IH1 IH2]]; simpl; [lia|].
  assert (0 <= vsum vs). { clear -Hw. induction Hw as [|x vs Hx _ IH]; simpl in *; lia. }
  pose proof (zlen_nonneg vs). lia.
Qed.

Definition items_weight (items : list (T * Z)) : Z := foldr (fun x n => x.2 + n) 0 items.

(** Only least recently used entries leave: what stays is a prefix. *)
Definition evicted_tails vss vss' : Prop := Forall2 prefix vss' vss.

Lemma evicted_tails_refl vss : evicted_tails vss vss.
Proof. unfold evicted_tails. done. Qed.

Lemma evicted_tails_step vss vss' j vs :
  vss !! j = Some vs -> evicted_tails (<[j := removelast vs]> vss) vss' -> evicted_tails vss vss'.
Proof.
  intros Hj H. unfold evicted_tails in *. etransitivity; [exact H|].
  rewrite <- (list_insert_id vss j vs Hj) at 2. apply Forall2_insert; [done|].
  destruct vs as [|x vs _] using rev_ind; [done|]. rewrite removelast_last. by exists [x].
Qed.

Definition within_limits l : Prop :=
  weight l <= weight_limit l /\
  match len_watermark l with Some w => lru_len l <= w | None => True end.

Lemma over_limit_false l vss :
  over_limit (weight l) (lru_len l) (weight_limit l) l = false -> within_limits l.
Proof.
  unfold over_limit, within_limits. rewrite orb_false_iff, andb_false_iff.
  intros [Hw Hl]. split; [destruct Hw as [Hw|Hw]; apply Z.ltb_ge in Hw; lia|].
  destruct (len_watermark l) as [w|]; [|done]. rewrite andb_false_iff in Hl.
  destruct Hl as [Hl|Hl]; apply Z.ltb_ge in Hl; lia.
Qed.

Definition rng_ok (n : nat) (rng : nat -> nat * nat) : Prop :=
  forall k, ((rng k).1 < n)%nat /\ ((rng k).2 < n)%nat.

Lemma choose_spec rng k l vss :
  lru_ok l vss -> units l <> [] -> rng_ok (length (units l)) rng ->
  exists i, choose (rng k) l = Some i /\ (i < length (units l))%nat.
Proof.
  intros H Hne Hr. destruct (Hr k) as [Ha Hb]. unfold choose.
  destruct (shards l <=? 1).
  { exists 0%nat. split; [done|]. destruct (units l); [done|simpl; lia]. }
  assert (Hl : length (shard_lens l) = length (units l)).
  { rewrite (lo_lens _ _ H), length_fmap. symmetry. apply (Forall2_length _ _ _ (lo_units _ _ H)). }
  rewrite <- Hl in Ha, Hb. apply lookup_lt_is_Some in Ha as [x Hx]. apply lookup_lt_is_Some in Hb as [y Hy].
  rewrite Hx, Hy. simpl. eexists. split; [done|].
  destruct (y <=? x); rewrite <- Hl; by eapply lookup_lt_Some.
Qed.


Lemma evict_loop_spec fuel rng k l vss :
  lru_ok l vss -> units l <> [] -> rng_ok (length (units l)) rng ->
  total vss < usize_mod -> count vss < usize_mod -> 0 <= weight_limit l ->
  match len_watermark l with Some w => 0 <= w | None => True end -> count vss < Z.of_nat fuel ->
  exists items l' vss',
    evict_loop fuel rng k (weight l) (lru_len l) (weight_limit l) l = Some (items, l') /\
    lru_ok l' vss' /\ within_limits l' /\ same_limits l l' /\ evicted_tails vss vss' /\
    total vss = total vss' + items_weight items /\ count vss = count vss' + zlen items.
Proof.
  revert k l vss. induction fuel as [|fuel IH]; intros k l vss H Hne Hr Ht Hc Hlim Hwm Hf;
    pose proof (sums_nonneg vss (lo_pos _ _ H)) as [Ht0 Hc0]; [lia|].
  cbn [evict_loop].
  destruct (over_limit (weight l) (lru_len l) (weight_limit l) l) eqn:Hover.
  2: { exists [], l, vss. split; [done|]. split; [done|]. split; [by eapply over_limit_false|].
       split; [done|]. split; [apply evicted_tails_refl|]. simpl. change (zlen []) with 0. lia. }
  destruct (choose_spec rng k l vss H Hne Hr) as (i & -> & Hi). cbn [mbind option_bind].
  destruct (probe_spec (length (units l)) i l vss H Hi)
    as [(j & vs & key & [d w] & l1 & Hj & Hlast & -> & Hok1 & Hs1)|(l1 & -> & Hok1 & Hs1 & Hall)];
    cbn [mbind option_bind].
  - destruct (removelast_effect vs key d w Hlast) as [Hv Hz].
    pose proof (total_insert vss j vs (removelast vs) Hj) as Htot.
    pose proof (count_insert vss j vs (removelast vs) Hj) as Hcnt.
    pose proof (sums_nonneg _ (lo_pos _ _ Hok1)) as [Ht1 Hc1].
    destruct Hs1 as (Hs1 & Hs2 & Hs3).
    assert (Hw : 1 <= w).
    { apply last_Some_elem_of in Hlast.
      pose proof (Forall_lookup_1 _ _ _ _ (lo_pos _ _ H) Hj) as Hpos.
      unfold weights_ok in Hpos. rewrite Forall_forall in Hpos. apply Hpos in Hlast.
      simpl in Hlast. lia. }
    assert (Ew : saturating_sub (weight l) w = weight l1).
    { rewrite (lo_weight _ _ H), (lo_weight _ _ Hok1), !Z.mod_small by lia.
      unfold saturating_sub. lia. }
    assert (El : saturating_sub (lru_len l) 1 = lru_len l1).
    { rewrite (lo_len _ _ H), (lo_len _ _ Hok1), !Z.mod_small by lia. unfold saturating_sub. lia. }
    cbn [snd]. rewrite Ew, El, <- Hs1.
    destruct (IH (S k) l1 (<[j := removelast vs]> vss)) as (items & l2 & vss' & -> & Hok2 & Hw2 & Hs2' & Htl & Ht2 & Hc2);
      rewrite ?Hs1, ?Hs2, ?Hs3; auto; try lia.
    { intros Hnil. apply Hne. apply length_zero_iff_nil. rewrite <- Hs3, Hnil. done. }
    exists ((d, w) :: items), l2, vss'. split; [done|]. split; [done|]. split; [done|].
    split; [by eapply same_limits_trans|]. split; [by eapply evicted_tails_step|].
    simpl. rewrite zlen_cons. lia.
  - assert (Hemp : Forall (.= []) vss).
    { eapply (round_trip_empty vss i (length (units l))); [|done|done].
      symmetry. apply (Forall2_length _ _ _ (lo_units _ _ H)). }
    destruct (empty_sums vss Hemp) as [Hz1 Hz2]. destruct Hs1 as (Hs1 & Hs2 & Hs3).
    exists [], l1, vss. split; [done|]. split; [done|]. split.
    { unfold within_limits. rewrite Hs1, Hs2, (lo_weight _ _ Hok1), (lo_len _ _ Hok1), Hz1, Hz2.
      split; [rewrite Z.mod_0_l by done; lia|]. destruct (len_watermark l); [|done].
      rewrite Z.mod_0_l by done. lia. }
    split; [done|]. split; [apply evicted_tails_refl|]. simpl. change (zlen []) with 0. lia.
Qed.


(** ** Sequences of operations *)

Fixpoint run_gops (ops : list gop) (l : Lru T) : option (Lru T) :=
  match ops with
  | [] => Some l
  | op :: ops => l ← run_gop op l; run_gops ops l
  end.

Definition spec_shard (n : nat) (op : gop) : nat := Z.to_nat (gop_key op mod Z.of_nat n).
Definition spec_gops (n : nat) (ops : list gop) vss : list (list (Z * (T * Z))) :=
  foldl (fun vss op => alter (spec_gop op) (spec_shard n op) vss) vss ops.

Lemma zlen_del k vs : zlen (del k vs) <= zlen vs.
Proof. induction vs as [|[j x] vs IH]; simpl; [done|]. case_decide; rewrite !zlen_cons; lia. Qed.
Lemma zlen_upd k x vs : zlen (upd k x vs) = zlen vs.
Proof. induction vs as [|[j y] vs IH]; simpl; [done|]. case_decide; rewrite !zlen_cons; lia. Qed.

Lemma spec_gop_len op vs : zlen (spec_gop op vs) <= zlen vs + 1.
Proof.
  pose proof (zlen_nonneg vs). destruct op; simpl; repeat case_match; simpl;
    rewrite ?zlen_cons, ?zlen_upd, ?zlen_app; try lia;
    try (match goal with |- context [del ?k ?v] => pose proof (zlen_del k v) end; lia).
  - destruct vs as [|x vs _] using rev_ind; [done|]. rewrite removelast_last, zlen_app in *.
    change (zlen [x]) with 1 in *. lia.
  - change (zlen [(k, (d, w))]) with 1. lia.
Qed.

Lemma sizes_alter b op i vss :
  Forall (fun vs => zlen vs <= b) vss -> Forall (fun vs => zlen vs <= b + 1) (alter (spec_gop op) i vss).
Proof.
  intros H. apply Forall_lookup_2. intros j vs Hj. destruct (decide (i = j)) as [<-|Hne].
  - rewrite list_lookup_alter_eq in Hj. destruct (vss !! i) as [v|] eqn:Hv; [|done].
    simplify_eq/=. pose proof (Forall_lookup_1 _ _ _ _ H Hv) as Hb. simpl in Hb.
    pose proof (spec_gop_len op v). lia.
  - rewrite list_lookup_alter_ne in Hj by done.
    pose proof (Forall_lookup_1 _ _ _ _ H Hj) as Hb. simpl in Hb. lia.
Qed.

Lemma run_gops_spec ops l vss b :
  lru_ok l vss -> units l <> [] -> Forall gop_ok ops ->
  Forall (fun vs => zlen vs <= b) vss -> b + zlen ops + OFFSET < MAX_SLOTS ->
  exists l', run_gops ops l = Some l' /\ lru_ok l' (spec_gops (length (units l)) ops vss) /\
    length (units l') = length (units l).
Proof.
  revert l vss b. induction ops as [|op ops IH]; intros l vss b H Hne Hops Hb Hbound; simpl.
  { eauto. }
  inversion_clear Hops as [|?? Hop Hops']. rewrite zlen_cons in Hbound.
  pose proof (zlen_nonneg ops).
  destruct (gop_all l vss H Hne) with (op := op) as (i & l1 & Hi & Hrun & Hok & Hlen); [|done|].
  { eapply Forall_impl; [exact Hb|]. intros vs Hvs. simpl in Hvs. lia. }
  rewrite Hrun. simpl.
  assert (Hne1 : units l1 <> []).
  { intros Hnil. apply Hne, length_zero_iff_nil. by rewrite <- Hlen, Hnil. }
  assert (spec_shard (length (units l)) op = i) as ->.
  { unfold get_shard, shards, zlen in Hi. unfold spec_shard. case_match; [done|]. by injection Hi. }
  destruct (IH l1 _ (b + 1) Hok Hne1 Hops' (sizes_alter b op i vss Hb) ltac:(lia))
    as (l2 & -> & Hok2 & Hlen2).
  rewrite Hlen in *. eauto.
Qed.

Lemma unit_new_ok : unit_ok (unit_with_capacity (T := T)) [].
Proof.
  exists []. split; [|done]. split; simpl; [apply repr_empty| |apply NoDup_nil_2|done].
  intros k nd. rewrite lookup_empty. split; [done|]. intros (e & He & _). by apply elem_of_nil in He.
Qed.

Lemma lru_new_ok n limit watermark : lru_ok (lru_new n limit watermark) (replicate n []).
Proof.
  split; simpl.
  - induction n as [|n IH]; simpl; constructor; [apply unit_new_ok|done].
  - rewrite fmap_replicate. done.
  - induction n as [|n IH]; simpl; [done|]. done.
  - induction n as [|n IH]; simpl; [done|]. done.
  - apply Forall_replicate. constructor.
Qed.

End lru.

(** ** The contract *)

(** C37: a unit is an LRU.  Its hash table, linked list and weight counter
    together implement, on every operation and every branch, the specification
    on the sequence of entries in order of use: same result, no panic - the
    unwraps and the assertion that list and table agree never fail - and the
    invariant holds again. *)
Theorem lru_unit_refines {T} (op : uop) (u : LruUnit T) vs :
  unit_ok u vs -> zlen vs + OFFSET < MAX_SLOTS ->
  exists u', run_uop op u = Some ((spec_uop op vs).1, u') /\ unit_ok u' (spec_uop op vs).2.
Proof. apply run_uop_spec. Qed.

(** the accounting of the sharded LRU.  After any sequence of operations on
    [n] shards - admissions, updates, conditional and unconditional removals,
    evictions, promotions - each shard holds the specified sequence and the
    global weight, the global count and every shard's count are the exact sums
    over the entries (modulo the machine word), with no panic on the way. *)
Theorem lru_accounting {T} (ops : list (@gop T)) n limit watermark :
  (0 < n)%nat -> Forall gop_ok ops -> zlen ops + OFFSET < MAX_SLOTS ->
  exists l, run_gops ops (lru_new n limit watermark) = Some l /\
    let vss := spec_gops n ops (replicate n []) in
    Forall2 unit_ok (units l) vss /\
    weight l = total vss mod usize_mod /\ lru_len l = count vss mod usize_mod /\
    shard_lens l = (fun vs => zlen vs mod usize_mod) <$> vss.
Proof.
  intros Hn Hops Hb.
  destruct (run_gops_spec ops (lru_new n limit watermark) (replicate n []) 0 (lru_new_ok n limit watermark))
    as (l & Hrun & [H1 H2 H3 H4 _] & _).
  - simpl. by destruct n; [lia|].
  - done.
  - by apply Forall_replicate.
  - lia.
  - simpl in *. rewrite length_replicate in *. eauto 10.
Qed.

(** [evict_to_limit] enforces its limits.  Whatever the random choices, one
    turn more than there are entries ends the loop; afterwards the weight is
    within the limit and the count within the watermark, only least recently
    used entries have left (what stays of a shard is a prefix of it), and the
    items returned account for exactly the weight and the count that went. *)
Theorem evict_to_limit_enforces {T} (l : Lru T) vss rng fuel :
  lru_ok l vss -> units l <> [] -> rng_ok (length (units l)) rng ->
  total vss < usize_mod -> count vss < usize_mod -> 0 <= weight_limit l ->
  match len_watermark l with Some w => 0 <= w | None => True end -> count vss < Z.of_nat fuel ->
  exists items l' vss', evict_to_limit fuel rng l = Some (items, l') /\
    lru_ok l' vss' /\ within_limits l' /\ evicted_tails vss vss' /\
    total vss = total vss' + items_weight items /\ count vss = count vss' + zlen items.
Proof.
  intros H Hne Hr Ht Hc Hlim Hwm Hf. unfold evict_to_limit.
  destruct (evict_loop_spec fuel rng 0 l vss H Hne Hr Ht Hc Hlim Hwm Hf)
    as (items & l' & vss' & Hrun & H1 & H2 & _ & H3 & H4 & H5). eauto 12.
Qed.

(** the count can be wrong.  [insert_tail] keeps a weight of 0, which
    [lru_admit] then takes for "no previous entry": the same key is counted twice,
    although one entry is stored. *)
Theorem insert_tail_zero_miscounts :
  exists l, ('(_, l) ← insert_tail 1 tt 0 (lru_new 1 100 None);
             '(_, l) ← lru_admit 1 tt 5 l; Some l) = Some l /\
    lru_len l = 2 /\ shard_lens l = [2] /\
    (fun u => map_to_list (lookup_table u)) <$> units l = [[(1, mkLruNode tt 2 5)]].
Proof. eexists. split; [vm_compute; reflexivity|]. vm_compute. done. Qed.

(** ** The theorems at a concrete LRU *)

Definition wit_gops : list (@gop Z) :=
  [GAdmit 1 10 3; GAdmit 2 20 4; GAdmit 3 30 0; GPromote 1; GIncrement 2 0 5 (Some 7);
   GUpdateIf 3 (fun d => d =? 30) (fun d _ => (d + 1, 6)) true; GRemove 2; GInsertTail 5 50 2].

Lemma wit_gops_ok : Forall gop_ok wit_gops.
Proof.
  unfold wit_gops. repeat (apply Forall_cons_2); [..|constructor]; unfold gop_ok; simpl;
    try (by intros); uz.
Qed.

(** Shard 0 is empty, shard 1 holds the keys 3, 1 and 5. *)
Definition wit_lru : Lru Z :=
  match run_gops wit_gops (lru_new 2 8 (Some 2)) with Some l => l | None => lru_new 2 8 None end.
Definition wit_views : list (list (Z * (Z * Z))) := [[]; [(3, (31, 6)); (1, (10, 3)); (5, (50, 2))]].

Lemma wit_lru_ok : lru_ok wit_lru wit_views.
Proof.
  destruct (run_gops_spec wit_gops (lru_new 2 8 (Some 2)) [[]; []] 0 (lru_new_ok 2 8 (Some 2)))
    as (l & Hrun & Hok & _); [done|apply wit_gops_ok|by repeat constructor|done|].
  unfold wit_lru. rewrite Hrun. exact Hok.
Qed.

Lemma lru_accounting_witness :
  exists l, run_gops wit_gops (lru_new 2 8 (Some 2)) = Some l /\
    Forall2 unit_ok (units l) wit_views /\ weight l = 11 /\ lru_len l = 3 /\ shard_lens l = [0; 3].
Proof.
  apply (lru_accounting wit_gops 2 8 (Some 2)); [lia|apply wit_gops_ok|done].
Defined.

Lemma evict_to_limit_enforces_witness :
  exists items l' vss', evict_to_limit 4 (fun _ => (0%nat, 1%nat)) wit_lru = Some (items, l') /\
    lru_ok l' vss' /\ within_limits l' /\ evicted_tails wit_views vss' /\
    11 = total vss' + items_weight items /\ 3 = count vss' + zlen items.
Proof.
  apply (evict_to_limit_enforces wit_lru wit_views (fun _ => (0%nat, 1%nat)) 4).
  - apply wit_lru_ok.
  - vm_compute. discriminate.
  - intros k. vm_compute. split; lia.
  - reflexivity.
  - reflexivity.
  - vm_compute. discriminate.
  - vm_compute. discriminate.
  - reflexivity.
Defined.

Lemma lru_unit_refines_witness :
  exists u', run_uop (UAdmit 7 1 2) (unit_with_capacity (T := Z)) = Some (RWeight 0, u') /\
    unit_ok u' [(7, (1, 2))].
Proof.
  apply (lru_unit_refines (UAdmit 7 1 2) unit_with_capacity []); [apply unit_new_ok|reflexivity].
Defined.
