(* ===== verification/Limits.v ===== *)
(** * Event counting: estimator, in-flight guards, rate

    The crate [src/pingora-limits]: the count-min sketch [Estimator]
    ([estimator.rs]), the [Inflight] counter with its drop guards
    ([inflight.rs]) and the two-window [Rate] ([rate.rs]), the last one both as
    a function of one caller and as the steps its threads interleave.

    A counter is an [AtomicIsize]: a [Z] whose additions wrap at 64 bits.  The
    hash functions ([ahash::RandomState]) are parameters; their states are
    drawn from a supply [rs]. *)

From stdpp Require Import base list numbers.
From Stdlib Require Import ZArith Lia.
From Stdlib Require Import Floats.SpecFloat.
From S2P Require Import Prelude.
Local Open Scope Z_scope.

(** ** [isize] *)

Definition isize_max : Z := 2 ^ 63 - 1.
Definition isize_min : Z := - 2 ^ 63.
Definition isize_wrap (z : Z) : Z := (z + 2 ^ 63) mod 2 ^ 64 - 2 ^ 63.

(** ** Estimator *)

(** One row: its counters and the hasher that picks one of them. *)
Record Row (H : Type) := MkRow { slot : list Z; hasher : H }.
Arguments MkRow {H}.
Arguments slot {H}.
Arguments hasher {H}.

Definition Estimator (H : Type) := list (Row H).

Section estimator.
Context {K H : Type} (hash : K -> H -> Z).

Definition estimator_new (rs : nat -> H) (hashes slots : nat) : Estimator H :=
  map (fun i => MkRow (replicate slots 0) (rs i)) (seq 0 hashes).

(** [slot[hash % slot.len()]]: the remainder by zero panics. *)
Definition column (r : Row H) (key : K) : option nat :=
  if zlen (slot r) =? 0 then None
  else Some (Z.to_nat (hash key (hasher r) mod zlen (slot r))).

Definition counter (r : Row H) (c : nat) : Z := slot r !!! c.

(** [fetch_add]; [fetch_sub] is the addition of the opposite. *)
Definition fetch_add (r : Row H) (c : nat) (value : Z) : Row H :=
  MkRow (<[c := isize_wrap (counter r c + value)]> (slot r)) (hasher r).
Definition fetch_sub (r : Row H) (c : nat) (value : Z) : Row H :=
  MkRow (<[c := isize_wrap (counter r c - value)]> (slot r)) (hasher r).

(** The fold of [incr]: [None] is a panic. *)
Fixpoint incr_fold (e : Estimator H) (key : K) (value min : Z) : option (Estimator H * Z) :=
  match e with
  | [] => Some ([], min)
  | r :: rest =>
      match column r key with
      | None => None
      | Some c =>
          let current := counter r c in
          match incr_fold rest key value (Z.min min (isize_wrap (current + value))) with
          | None => None
          | Some (rest', m) => Some (fetch_add r c value :: rest', m)
          end
      end
  end.
Definition incr (e : Estimator H) (key : K) (value : Z) : option (Estimator H * Z) :=
  incr_fold e key value isize_max.

Fixpoint decr (e : Estimator H) (key : K) (value : Z) : option (Estimator H) :=
  match e with
  | [] => Some []
  | r :: rest =>
      match column r key with
      | None => None
      | Some c =>
          match decr rest key value with
          | None => None
          | Some rest' => Some (fetch_sub r c value :: rest')
          end
      end
  end.

Fixpoint get_fold (e : Estimator H) (key : K) (min : Z) : option Z :=
  match e with
  | [] => Some min
  | r :: rest =>
      match column r key with
      | None => None
      | Some c => get_fold rest key (Z.min min (counter r c))
      end
  end.
Definition get (e : Estimator H) (key : K) : option Z := get_fold e key isize_max.

Definition reset (e : Estimator H) : Estimator H :=
  map (fun r => MkRow (map (fun _ => 0) (slot r)) (hasher r)) e.

End estimator.

(** *** The atomic actions of an estimator

    [incr] and [decr] take no lock: each is a sequence of [fetch_add]s, one per
    row, which those of other threads may come between. *)

Record Atom := MkAtom { at_row : nat; at_col : nat; at_delta : Z }.

Definition apply_atom {H} (e : Estimator H) (a : Atom) : Estimator H :=
  match e !! at_row a with
  | Some r => <[at_row a := fetch_add r (at_col a) (at_delta a)]> e
  | None => e
  end.

(** The actions of [incr key value] (and of [decr key (-value)]). *)
Definition atoms_of {K H} (hash : K -> H -> Z) (e : Estimator H) (key : K) (value : Z)
  : list Atom :=
  imap (fun i r => MkAtom i (default 0%nat (column hash r key)) value) e.

(** ** Inflight *)

Definition INFLIGHT_HASHES : nat := 4.
Definition INFLIGHT_SLOTS : nat := 8192.

(** The estimator is behind an [Arc] the guards share: one store. *)
Record Inflight (H : Type) := MkInflight { inf_estimator : Estimator H; inf_hasher : H }.
Arguments MkInflight {H}.
Arguments inf_estimator {H}.
Arguments inf_hasher {H}.

Record Guard := MkGuard { gid : Z; gvalue : Z }.

Section inflight.
Context {T H : Type} (hash : T -> H -> Z) (hash64 : Z -> H -> Z).

Definition inflight_new (rs : nat -> H) : Inflight H :=
  MkInflight (estimator_new rs INFLIGHT_HASHES INFLIGHT_SLOTS) (rs INFLIGHT_HASHES).

Definition guard_incr (i : Inflight H) (g : Guard) : option (Inflight H * Z) :=
  match incr hash64 (inf_estimator i) (gid g) (gvalue g) with
  | Some (e, v) => Some (MkInflight e (inf_hasher i), v)
  | None => None
  end.

Definition guard_get (i : Inflight H) (g : Guard) : option Z :=
  get hash64 (inf_estimator i) (gid g).

Definition guard_drop (i : Inflight H) (g : Guard) : option (Inflight H) :=
  match decr hash64 (inf_estimator i) (gid g) (gvalue g) with
  | Some e => Some (MkInflight e (inf_hasher i))
  | None => None
  end.

Definition inflight_incr (i : Inflight H) (key : T) (value : Z)
  : option (Inflight H * Guard * Z) :=
  let guard := MkGuard (hash key (inf_hasher i)) value in
  match guard_incr i guard with
  | Some (i', estimation) => Some (i', guard, estimation)
  | None => None
  end.

End inflight.

(** ** Double-precision floats

    [f64] is IEEE binary64; integers are converted with rounding to nearest. *)

Definition f64 : Type := spec_float.
Definition f64_of_Z (z : Z) : f64 := binary_normalize 53 1024 z 0 false.
Definition f64_mul : f64 -> f64 -> f64 := SFmul 53 1024.
Definition f64_div : f64 -> f64 -> f64 := SFdiv 53 1024.
Definition f64_add : f64 -> f64 -> f64 := SFadd 53 1024.
Definition f64_sub : f64 -> f64 -> f64 := SFsub 53 1024.
Definition f64_zero : f64 := S754_zero false.
Arguments f64_of_Z : simpl never.
Arguments f64_mul : simpl never.
Arguments f64_div : simpl never.

(** ** Rate *)

Definition RATE_HASHES : nat := 4.
Definition RATE_SLOTS : nat := 1024.

(** Times are in milliseconds since [start]; [interval] is a [Duration], in
    nanoseconds. *)
Record Rate (H : Type) := MkRate {
  red_slot : Estimator H;
  blue_slot : Estimator H;
  red_or_blue : bool;
  reset_interval_ms : Z;
  last_reset_time : Z;
  interval : Z
}.
Arguments MkRate {H}.
Arguments red_slot {H}.
Arguments blue_slot {H}.
Arguments red_or_blue {H}.
Arguments reset_interval_ms {H}.
Arguments last_reset_time {H}.
Arguments interval {H}.

Record RateComponents := MkRateComponents {
  prev_samples : Z;
  curr_samples : Z;
  rc_interval : Z;
  current_interval_fraction : f64
}.

Definition as_millis (nanos : Z) : Z := nanos / 1000000.
(** [Duration::as_secs_f64]: whole seconds plus nanoseconds over [1e9]. *)
Definition as_secs_f64 (nanos : Z) : f64 :=
  f64_add (f64_of_Z (nanos / 1000000000))
          (f64_div (f64_of_Z (nanos mod 1000000000)) (f64_of_Z 1000000000)).

Definition PROPORTIONAL_RATE_ESTIMATE_CALC_FN (rate_info : RateComponents) : f64 :=
  let prev := f64_of_Z (prev_samples rate_info) in
  let curr := f64_of_Z (curr_samples rate_info) in
  let interval_secs := as_secs_f64 (rc_interval rate_info) in
  let interval_fraction := current_interval_fraction rate_info in
  let weighted_count :=
    f64_add (f64_mul prev (f64_sub (f64_of_Z 1) interval_fraction)) curr in
  f64_div weighted_count interval_secs.

Section rate.
Context {K H : Type} (hash : K -> H -> Z).

Definition new_with_estimator_config (rs_red rs_blue : nat -> H) (interval : Z)
    (hashes slots : nat) : Rate H :=
  {| red_slot := estimator_new rs_red hashes slots;
     blue_slot := estimator_new rs_blue hashes slots;
     red_or_blue := true;
     reset_interval_ms := as_millis interval mod usize_mod;
     last_reset_time := 0;
     interval := interval |}.

Definition rate_new (rs_red rs_blue : nat -> H) (interval : Z) : Rate H :=
  new_with_estimator_config rs_red rs_blue interval RATE_HASHES RATE_SLOTS.

Definition current (r : Rate H) (flag : bool) : Estimator H :=
  if flag then red_slot r else blue_slot r.
Definition previous (r : Rate H) (flag : bool) : Estimator H :=
  if flag then blue_slot r else red_slot r.

(** The same places, as the targets of a mutation. *)
Definition set_current (r : Rate H) (flag : bool) (e : Estimator H) : Rate H :=
  if flag
  then MkRate e (blue_slot r) (red_or_blue r) (reset_interval_ms r) (last_reset_time r) (interval r)
  else MkRate (red_slot r) e (red_or_blue r) (reset_interval_ms r) (last_reset_time r) (interval r).
Definition set_previous (r : Rate H) (flag : bool) (e : Estimator H) : Rate H :=
  set_current r (negb flag) e.
Definition store_flag (r : Rate H) (flag : bool) : Rate H :=
  MkRate (red_slot r) (blue_slot r) flag (reset_interval_ms r) (last_reset_time r) (interval r).
Definition store_last (r : Rate H) (t : Z) : Rate H :=
  MkRate (red_slot r) (blue_slot r) (red_or_blue r) (reset_interval_ms r) t (interval r).

(** [self.reset_interval_ms * 2], at 64 bits. *)
Definition two_intervals (r : Rate H) : Z := (reset_interval_ms r * 2) mod usize_mod.

(** [maybe_reset] of a caller no other thread comes between: the
    [compare_exchange] succeeds. *)
Definition maybe_reset (now : Z) (r : Rate H) : Rate H * Z :=
  let last_reset := last_reset_time r in
  let past_ms := wsub now last_reset in
  if past_ms <? reset_interval_ms r then (r, past_ms)
  else
    let flag := red_or_blue r in
    let r := store_last r now in
    let r := set_previous r flag (reset (previous r flag)) in
    let r := store_flag r (negb flag) in
    let r := if two_intervals r <=? wsub now last_reset
             then set_current r flag (reset (current r flag)) else r in
    (r, past_ms).

Definition observe (now : Z) (r : Rate H) (key : K) (events : Z) : option (Rate H * Z) :=
  let '(r, _) := maybe_reset now r in
  match incr hash (current r (red_or_blue r)) key events with
  | Some (e, v) => Some (set_current r (red_or_blue r) e, v)
  | None => None
  end.

Definition rate (now : Z) (r : Rate H) (key : K) : option (Rate H * f64) :=
  let '(r, past_ms) := maybe_reset now r in
  if two_intervals r <=? past_ms then Some (r, f64_zero)
  else
    match get hash (previous r (red_or_blue r)) key with
    | Some samples =>
        Some (r, f64_div (f64_mul (f64_of_Z samples) (f64_of_Z 1000))
                         (f64_of_Z (reset_interval_ms r)))
    | None => None
    end.

(** The samples [rate_with] hands to its closure. *)
Definition samples (past_ms : Z) (r : Rate H) (key : K) : option (Z * Z) :=
  if two_intervals r <=? past_ms then Some (0, 0)
  else if reset_interval_ms r <=? past_ms then
    match get hash (previous r (red_or_blue r)) key with
    | Some p => Some (p, 0)
    | None => None
    end
  else
    let '(prev_est, curr_est) := if red_or_blue r then (blue_slot r, red_slot r)
                                 else (red_slot r, blue_slot r) in
    match get hash prev_est key, get hash curr_est key with
    | Some p, Some c => Some (p, c)
    | _, _ => None
    end.

(** [past_ms % reset_interval_ms] panics on an interval below a millisecond. *)
Definition rate_with {T} (now : Z) (r : Rate H) (key : K) (rate_calc_fn : RateComponents -> T)
  : option (Rate H * T) :=
  let '(r, past_ms) := maybe_reset now r in
  match samples past_ms r key with
  | None => None
  | Some (p, c) =>
      if reset_interval_ms r =? 0 then None
      else Some (r, rate_calc_fn
             {| prev_samples := p; curr_samples := c; rc_interval := interval r;
                current_interval_fraction :=
                  f64_div (f64_of_Z (past_ms mod reset_interval_ms r))
                          (f64_of_Z (reset_interval_ms r)) |})
  end.

(** *** Threads

    [observe] as the sequence of its accesses to shared state; between any two
    of them other threads may run.  (An estimator's own operations are one step
    here: their interleaving is the subject of [Atom].) *)
Inductive pc :=
| Start                                        (** read the clock *)
| LoadLast (now : Z)
| LoadFlag (now last past : Z)
| Cas (now last past : Z) (flag : bool)
| ClearPrevious (now last past : Z) (flag : bool)
| StoreFlag (now last past : Z) (flag : bool)
| ClearStale (now last past : Z) (flag : bool)
| AfterReset (past : Z)                        (** [maybe_reset] has returned *)
| DoIncr (flag : bool)
| Finished (v : Z)
| Panicked.

Definition thread_step (clock : Z) (key : K) (events : Z) (p : pc) (r : Rate H) : pc * Rate H :=
  match p with
  | Start => (LoadLast clock, r)
  | LoadLast now =>
      let last := last_reset_time r in
      let past := wsub now last in
      if past <? reset_interval_ms r then (AfterReset past, r) else (LoadFlag now last past, r)
  | LoadFlag now last past => (Cas now last past (red_or_blue r), r)
  | Cas now last past flag =>
      if last_reset_time r =? last then (ClearPrevious now last past flag, store_last r now)
      else if wsub now 1000 <=? last_reset_time r then (AfterReset past, r) else (Panicked, r)
  | ClearPrevious now last past flag =>
      (StoreFlag now last past flag, set_previous r flag (reset (previous r flag)))
  | StoreFlag now last past flag => (ClearStale now last past flag, store_flag r (negb flag))
  | ClearStale now last past flag =>
      (AfterReset past,
       if two_intervals r <=? wsub now last
       then set_current r flag (reset (current r flag)) else r)
  | AfterReset past => (DoIncr (red_or_blue r), r)
  | DoIncr flag =>
      match incr hash (current r flag) key events with
      | Some (e, v) => (Finished v, set_current r flag e)
      | None => (Panicked, r)
      end
  | Finished v => (Finished v, r)
  | Panicked => (Panicked, r)
  end.

(** A world: the monotonic clock, the shared rate, and the threads, each with
    the event it reports. *)
Record World := MkWorld { clock : Z; shared : Rate H; threads : list (K * Z * pc) }.

Inductive sched := Tick (d : Z) | Run (i : nat).

Definition world_step (w : World) (s : sched) : World :=
  match s with
  | Tick d => MkWorld (clock w + Z.max 0 d) (shared w) (threads w)
  | Run i =>
      match threads w !! i with
      | Some (key, events, p) =>
          let '(p', r') := thread_step (clock w) key events p (shared w) in
          MkWorld (clock w) r' (<[i := (key, events, p')]> (threads w))
      | None => w
      end
  end.

Definition run_sched (w : World) (ss : list sched) : World := foldl world_step w ss.

End rate.

Arguments MkWorld {K H}.
Arguments clock {K H}.
Arguments shared {K H}.
Arguments threads {K H}.
