(* ===== verification/LimitsSpec.v ===== *)
(** * Event counting: what the counters count

    The estimator is related to a ledger, the list of additions made to it since
    it was created or reset: a counter holds the wrapped sum of the ledger's
    entries whose key falls in its column.  On top of that relation: the
    count-min bounds, the independence of the result from the interleaving of
    the atomic additions, the balance of the in-flight guards, and the windows
    [Rate] reports on, for one caller and for racing threads. *)

From stdpp Require Import base list numbers sets sorting.
From Stdlib Require Import ZArith Lia Permutation.
From Stdlib Require Import Floats.SpecFloat.
From S2P Require Import Prelude Limits.
Local Open Scope Z_scope.

(** ** Wrapping arithmetic *)

Lemma isize_wrap_id z : isize_min <= z <= isize_max -> isize_wrap z = z.
Proof.
  unfold isize_wrap, isize_min, isize_max. intros.
  rewrite Z.mod_small; lia.
Qed.

Lemma isize_wrap_add a b : isize_wrap (isize_wrap a + b) = isize_wrap (a + b).
Proof.
  unfold isize_wrap.
  replace ((a + 2 ^ 63) mod 2 ^ 64 - 2 ^ 63 + b + 2 ^ 63)
    with ((a + 2 ^ 63) mod 2 ^ 64 + b) by lia.
  rewrite Z.add_mod_idemp_l by lia. do 2 f_equal. lia.
Qed.

Lemma isize_wrap_range z : isize_min <= isize_wrap z <= isize_max.
Proof.
  unfold isize_wrap, isize_min, isize_max.
  pose proof (Z.mod_pos_bound (z + 2 ^ 63) (2 ^ 64)). lia.
Qed.

(** ** Ledgers *)

Section ledger.
Context {K : Type}.
Implicit Types (L : list (K * Z)) (sel : K -> bool).

(** The sum of the entries whose key is selected. *)
Fixpoint tally sel L : Z :=
  match L with
  | [] => 0
  | (k, v) :: L => (if sel k then v else 0) + tally sel L
  end.

Lemma tally_app sel L1 L2 : tally sel (L1 ++ L2) = tally sel L1 + tally sel L2.
Proof. induction L1 as [|[k v] L1 IH]; simpl; lia. Qed.

Lemma tally_perm sel L1 L2 : L1 ≡ₚ L2 -> tally sel L1 = tally sel L2.
Proof. induction 1 as [|[]|[] []|]; simpl; lia. Qed.

Context `{EqDecision K}.

(** What was really added for a key, and over all keys. *)
Definition net (key : K) L : Z := tally (fun k => bool_decide (k = key)) L.
Definition total L : Z := tally (fun _ => true) L.

Lemma tally_split sel k0 L :
  tally sel L = (if sel k0 then net k0 L else 0) + tally sel (filter (fun x => x.1 <> k0) L).
Proof.
  unfold net. induction L as [|[k v] L IH]; [by destruct (sel k0)|].
  rewrite filter_cons. simpl.
  destruct (decide (k = k0)) as [->|Hne].
  - rewrite decide_False by (simpl; tauto). rewrite bool_decide_true by done.
    destruct (sel k0); lia.
  - rewrite decide_True by done. rewrite bool_decide_false by done. simpl.
    destruct (sel k0), (sel k); lia.
Qed.

Lemma net_filter k0 k L :
  net k (filter (fun x => x.1 <> k0) L) = if bool_decide (k = k0) then 0 else net k L.
Proof.
  unfold net. induction L as [|[k' v] L IH]; [by destruct (bool_decide _)|].
  rewrite filter_cons. simpl.
  destruct (decide (k' = k0)) as [->|Hne].
  - rewrite decide_False by (simpl; tauto). rewrite IH.
    repeat case_bool_decide; subst; try done; lia.
  - rewrite decide_True by done. simpl. rewrite IH.
    repeat case_bool_decide; subst; try done; lia.
Qed.

(** Where no key is below zero, selecting more keys sums to more. *)
Lemma tally_mono sel sel' L :
  (forall k, 0 <= net k L) -> (forall k, sel k = true -> sel' k = true) ->
  tally sel L <= tally sel' L.
Proof.
  remember (length L) as n eqn:Hn. revert L Hn.
  induction (lt_wf n) as [n _ IH]. intros L -> Hnet Hsel.
  destruct L as [|[k0 v0] L0] eqn:HL; [done|]. rewrite <-HL in *.
  rewrite (tally_split sel k0 L), (tally_split sel' k0 L).
  assert (tally sel (filter (fun x => x.1 <> k0) L)
          <= tally sel' (filter (fun x => x.1 <> k0) L)) as Hrest.
  { eapply IH; [|done| |done].
    - subst L. rewrite filter_cons, decide_False by (simpl; tauto).
      pose proof (length_filter (fun x : K * Z => x.1 <> k0) L0). simpl. lia.
    - intros k. rewrite net_filter. case_bool_decide; [lia|apply Hnet]. }
  specialize (Hnet k0). specialize (Hsel k0).
  destruct (sel k0), (sel' k0); lia.
Qed.

Lemma tally_ext sel sel' L :
  (forall k v, (k, v) ∈ L -> sel k = sel' k) -> tally sel L = tally sel' L.
Proof.
  induction L as [|[k v] L IH]; intros Hext; [done|]. simpl.
  rewrite (Hext k v) by left. rewrite IH; [done|].
  intros k' v' ?. apply (Hext k' v'). by right.
Qed.

End ledger.

(** ** The estimator and its ledger *)

Section estimator.
Context {K H : Type} (hash : K -> H -> Z).
Implicit Types (L : list (K * Z)) (e : Estimator H) (n : nat).

Definition col (h : H) n (key : K) : nat := Z.to_nat (hash key h mod Z.of_nat n).
Definition in_col (h : H) n (c : nat) (key : K) : bool := bool_decide (col h n key = c).

Definition row_repr n L (r : Row H) : Prop :=
  length (slot r) = n /\
  forall c, (c < n)%nat -> slot r !! c = Some (isize_wrap (tally (in_col (hasher r) n c) L)).

(** [e] has the hashers [hs] and holds the ledger [L]. *)
Definition est_repr n (hs : list H) L e : Prop :=
  map hasher e = hs /\ Forall (row_repr n L) e.

(** The value read for a key. *)
Definition estimate n (hs : list H) L (key : K) : Z :=
  foldl (fun m h => Z.min m (isize_wrap (tally (in_col h n (col h n key)) L))) isize_max hs.

Lemma col_lt h n key : (0 < n)%nat -> (col h n key < n)%nat.
Proof.
  intros. unfold col. pose proof (Z.mod_pos_bound (hash key h) (Z.of_nat n)). lia.
Qed.

Lemma row_column n L r key :
  (0 < n)%nat -> row_repr n L r -> column hash r key = Some (col (hasher r) n key).
Proof.
  intros Hn [Hlen _]. unfold column, zlen, col. rewrite Hlen.
  destruct (Z.eqb_spec (Z.of_nat n) 0); [lia|done].
Qed.

Lemma row_counter n L r c :
  row_repr n L r -> (c < n)%nat -> counter r c = isize_wrap (tally (in_col (hasher r) n c) L).
Proof. intros [_ Hs] Hc. unfold counter. by rewrite list_lookup_total_alt, Hs. Qed.

Lemma row_fetch_add n L r key v :
  (0 < n)%nat -> row_repr n L r ->
  row_repr n (L ++ [(key, v)]) (fetch_add r (col (hasher r) n key) v).
Proof.
  intros Hn Hr. pose proof (col_lt (hasher r) n key Hn) as Hc.
  destruct Hr as [Hlen Hs]. split; [simpl; by rewrite length_insert|].
  intros c Hcn. simpl. rewrite tally_app. simpl. unfold in_col at 2.
  destruct (decide (c = col (hasher r) n key)) as [->|Hne].
  - rewrite list_lookup_insert_eq by lia. rewrite bool_decide_true by done.
    rewrite (row_counter n L) by done. rewrite isize_wrap_add. do 2 f_equal. lia.
  - rewrite list_lookup_insert_ne by done. rewrite bool_decide_false by done.
    rewrite Hs by done. do 2 f_equal. lia.
Qed.

Lemma fetch_sub_add (r : Row H) c v : fetch_sub r c v = fetch_add r c (- v).
Proof. done. Qed.

Lemma est_repr_new rs hashes n : est_repr n (map rs (seq 0 hashes)) [] (estimator_new rs hashes n).
Proof.
  unfold est_repr, estimator_new. split; [by rewrite map_map|].
  apply Forall_forall. intros r (i & -> & _)%list_elem_of_fmap. split; simpl.
  - apply length_replicate.
  - intros c Hc. by rewrite lookup_replicate_2.
Qed.

Lemma incr_fold_repr n hs L e key v m :
  (0 < n)%nat -> est_repr n hs L e ->
  exists e', est_repr n hs (L ++ [(key, v)]) e' /\
    incr_fold hash e key v m
    = Some (e', foldl (fun m h => Z.min m (isize_wrap
                         (tally (in_col h n (col h n key)) (L ++ [(key, v)])))) m hs).
Proof.
  intros Hn [Hh Hall]. subst hs. revert m.
  induction Hall as [|r e Hr Hall IH]; intros m; simpl; [by exists []|].
  rewrite (row_column n L) by done.
  pose proof (row_fetch_add n L r key v Hn Hr) as Hr'.
  pose proof (col_lt (hasher r) n key Hn) as Hc.
  destruct (IH (Z.min m (isize_wrap (counter r (col (hasher r) n key) + v))))
    as (e' & [Hh' Hall'] & ->).
  exists (fetch_add r (col (hasher r) n key) v :: e'). split.
  - split; [simpl; by f_equal|by constructor].
  - do 3 f_equal. rewrite (row_counter n L) by done. rewrite isize_wrap_add.
    rewrite tally_app. simpl. unfold in_col at 3. rewrite bool_decide_true by done.
    by rewrite Z.add_0_r.
Qed.

Lemma incr_repr n hs L e key v :
  (0 < n)%nat -> est_repr n hs L e ->
  exists e', est_repr n hs (L ++ [(key, v)]) e' /\
    incr hash e key v = Some (e', estimate n hs (L ++ [(key, v)]) key).
Proof. apply incr_fold_repr. Qed.

Lemma decr_repr n hs L e key v :
  (0 < n)%nat -> est_repr n hs L e ->
  exists e', est_repr n hs (L ++ [(key, - v)]) e' /\ decr hash e key v = Some e'.
Proof.
  intros Hn [Hh Hall]. subst hs.
  induction Hall as [|r e Hr Hall (e' & [Hh' Hall'] & Heq)]; simpl; [by exists []|].
  rewrite (row_column n L), Heq, fetch_sub_add by done.
  pose proof (row_fetch_add n L r key (- v) Hn Hr) as Hr'.
  eexists. split; [|done]. split; [simpl; by f_equal|by constructor].
Qed.

Lemma get_fold_repr n hs L e key m :
  (0 < n)%nat -> est_repr n hs L e ->
  get_fold hash e key m
  = Some (foldl (fun m h => Z.min m (isize_wrap (tally (in_col h n (col h n key)) L))) m hs).
Proof.
  intros Hn [Hh Hall]. subst hs. revert m.
  induction Hall as [|r e Hr Hall IH]; intros m; simpl; [done|].
  rewrite (row_column n L) by done. rewrite IH.
  do 2 f_equal. f_equal. apply row_counter; [done|]. by apply col_lt.
Qed.

Lemma get_repr n hs L e key :
  (0 < n)%nat -> est_repr n hs L e -> get hash e key = Some (estimate n hs L key).
Proof. apply get_fold_repr. Qed.

Lemma reset_repr n hs L e : est_repr n hs L e -> est_repr n hs [] (reset e).
Proof.
  intros [Hh Hall]. split; [unfold reset; by rewrite map_map|].
  unfold reset. apply Forall_fmap. eapply Forall_impl; [done|].
  intros r [Hlen _]. split; simpl; [by rewrite length_map|].
  intros c Hc. rewrite list_lookup_fmap.
  destruct (lookup_lt_is_Some_2 (slot r) c) as [? ->]; [lia|done].
Qed.

(** Ledgers with the same sums are represented alike. *)
Lemma est_repr_ext n hs L L' e :
  (forall sel, tally sel L = tally sel L') -> est_repr n hs L e -> est_repr n hs L' e.
Proof.
  intros Hext [Hh Hall]. split; [done|]. eapply Forall_impl; [done|].
  intros r [Hlen Hs]. split; [done|]. intros c Hc. by rewrite <-Hext, Hs.
Qed.

(** The representation is a function of the ledger. *)
Lemma est_repr_inj n hs L e e' : est_repr n hs L e -> est_repr n hs L e' -> e = e'.
Proof.
  intros [Hh Hall] [Hh' Hall']. subst hs. revert e' Hh' Hall'.
  induction Hall as [|r e [Hlen Hs] Hall IH]; intros [|r' e'] Hh' Hall'; try done.
  simpl in Hh'. injection Hh' as Hhd Htl. inversion_clear Hall' as [|? ? [Hlen' Hs'] Hall''].
  f_equal; [|by apply IH].
  destruct r as [s h], r' as [s' h']. simpl in *. subst h'. f_equal.
  apply list_eq. intros c. destruct (decide (c < n)%nat).
  - by rewrite Hs, Hs'.
  - by rewrite !lookup_ge_None_2 by lia.
Qed.

(** *** Count-min bounds *)

Context `{EqDecision K}.

Lemma estimate_lower n hs L key m :
  (forall k, 0 <= net k L) -> total L <= isize_max -> net key L <= m ->
  net key L <= foldl (fun m h => Z.min m (isize_wrap
                        (tally (in_col h n (col h n key)) L))) m hs.
Proof.
  intros Hnet Htot. revert m. induction hs as [|h hs IH]; intros m Hm; simpl; [done|].
  apply IH. apply Z.min_glb; [done|].
  assert (net key L <= tally (in_col h n (col h n key)) L <= isize_max) as [??].
  { split; [|transitivity (total L); [|done]]; apply tally_mono; try done.
    intros k ->%bool_decide_eq_true. by apply bool_decide_eq_true. }
  rewrite isize_wrap_id; [done|]. specialize (Hnet key). unfold isize_min. lia.
Qed.

Lemma foldl_min_le (f : H -> Z) hs m : foldl (fun m h => Z.min m (f h)) m hs <= m.
Proof.
  revert m. induction hs as [|h hs IH]; intros m; simpl; [lia|].
  etrans; [apply IH|lia].
Qed.

Lemma foldl_min_elem (f : H -> Z) hs h m :
  h ∈ hs -> foldl (fun m h => Z.min m (f h)) m hs <= f h.
Proof.
  intros Hin. revert m. induction Hin as [h hs|h h' hs _ IH]; intros m; simpl.
  - etrans; [apply foldl_min_le|lia].
  - apply IH.
Qed.

Lemma estimate_upper n hs h L key :
  h ∈ hs -> (forall k, 0 <= net k L) -> total L <= isize_max ->
  estimate n hs L key <= tally (in_col h n (col h n key)) L.
Proof.
  intros Hin Hnet Htot. unfold estimate.
  etrans; [by apply (foldl_min_elem
    (fun h => isize_wrap (tally (in_col h n (col h n key)) L)) hs h)|].
  rewrite isize_wrap_id; [done|]. split.
  - transitivity (tally (fun _ : K => false) L); [|by apply tally_mono].
    assert (tally (fun _ : K => false) L = 0) as ->; [|unfold isize_min; lia].
    clear. induction L as [|[k v] L IH]; simpl; lia.
  - transitivity (total L); [|done]. by apply tally_mono.
Qed.

End estimator.

(** ** Sequences of operations on an estimator *)

Inductive est_op (K : Type) := OpIncr (key : K) (v : Z) | OpDecr (key : K) (v : Z) | OpReset.
Arguments OpIncr {K}.
Arguments OpDecr {K}.
Arguments OpReset {K}.

Section runs.
Context {K H : Type} (hash : K -> H -> Z).

Definition est_step (e : Estimator H) (op : est_op K) : option (Estimator H) :=
  match op with
  | OpIncr key v => fst <$> incr hash e key v
  | OpDecr key v => decr hash e key v
  | OpReset => Some (reset e)
  end.

Fixpoint est_run (e : Estimator H) (ops : list (est_op K)) : option (Estimator H) :=
  match ops with
  | [] => Some e
  | op :: ops => est_step e op ≫= fun e' => est_run e' ops
  end.

(** What an operation does to the ledger. *)
Definition post (L : list (K * Z)) (op : est_op K) : list (K * Z) :=
  match op with
  | OpIncr key v => L ++ [(key, v)]
  | OpDecr key v => L ++ [(key, - v)]
  | OpReset => []
  end.
Definition ledger (ops : list (est_op K)) : list (K * Z) := foldl post [] ops.

Lemma est_step_repr n hs L e op :
  (0 < n)%nat -> est_repr hash n hs L e ->
  exists e', est_step e op = Some e' /\ est_repr hash n hs (post L op) e'.
Proof.
  intros Hn He. destruct op as [key v|key v|]; simpl.
  - destruct (incr_repr hash n hs L e key v Hn He) as (e' & ? & ->). by exists e'.
  - destruct (decr_repr hash n hs L e key v Hn He) as (e' & ? & ->). by exists e'.
  - eexists. split; [done|]. by eapply reset_repr.
Qed.

Lemma est_run_repr n hs L e ops :
  (0 < n)%nat -> est_repr hash n hs L e ->
  exists e', est_run e ops = Some e' /\ est_repr hash n hs (foldl post L ops) e'.
Proof.
  intros Hn. revert L e. induction ops as [|op ops IH]; intros L e He; simpl; [by exists e|].
  destruct (est_step_repr n hs L e op Hn He) as (e' & -> & He'). simpl. by apply IH.
Qed.

(** *** Interleavings *)

Lemma apply_atom_comm (e : Estimator H) a b :
  apply_atom (apply_atom e a) b = apply_atom (apply_atom e b) a.
Proof.
  unfold apply_atom, Estimator in *. destruct a as [i c v], b as [j d w]. simpl.
  destruct (e !! i) as [r|] eqn:Hi, (e !! j) as [s|] eqn:Hj;
    rewrite ?Hi, ?Hj; try done.
  2-3: rewrite list_lookup_insert_ne by congruence; by rewrite ?Hi, ?Hj.
  destruct (decide (i = j)) as [->|Hij].
  - simplify_eq. rewrite !list_lookup_insert_eq by (by eapply lookup_lt_Some).
    rewrite !list_insert_insert_eq. f_equal. unfold fetch_add, counter. simpl. f_equal.
    destruct (decide (c = d)) as [->|Hcd].
    + destruct (decide (d < length (slot r))%nat).
      * rewrite !list_lookup_total_insert_eq by done. rewrite !list_insert_insert_eq.
        f_equal. rewrite !isize_wrap_add. f_equal. lia.
      * by rewrite !list_insert_ge by (rewrite ?length_insert; lia).
    + rewrite !list_lookup_total_insert_ne by done. by apply list_insert_insert_ne.
  - rewrite !list_lookup_insert_ne by done. rewrite Hi, Hj. by apply list_insert_insert_ne.
Qed.

Lemma apply_atoms_perm (e : Estimator H) as1 as2 :
  as1 ≡ₚ as2 -> foldl apply_atom e as1 = foldl apply_atom e as2.
Proof.
  intros Hp. revert e. induction Hp as [|a ? ? _ IH|a b l|? ? ? _ IH1 _ IH2]; intros e; simpl.
  - done.
  - apply IH.
  - by rewrite apply_atom_comm.
  - by rewrite IH1.
Qed.

Lemma apply_atom_app (e1 e2 : Estimator H) i c v :
  apply_atom (e1 ++ e2) (MkAtom (length e1 + i) c v) = e1 ++ apply_atom e2 (MkAtom i c v).
Proof.
  unfold apply_atom, Estimator in *. simpl. rewrite lookup_app_r by lia.
  replace (length e1 + i - length e1)%nat with i by lia.
  destruct (e2 !! i) as [r|]; [|done]. by rewrite insert_app_r.
Qed.

Lemma column_len n (r : Row H) key :
  (0 < n)%nat -> length (slot r) = n -> column hash r key = Some (col hash (hasher r) n key).
Proof.
  intros Hn Hr. unfold column, zlen, col. rewrite Hr.
  destruct (Z.eqb_spec (Z.of_nat n) 0); [lia|done].
Qed.

(** The additions of [key]: on the rows of [e2], which are those of a larger
    estimator from row [length e1] on. *)
Lemma atoms_incr_go n (e1 e2 : Estimator H) key v :
  (0 < n)%nat -> Forall (fun r => length (slot r) = n) e2 ->
  foldl apply_atom (e1 ++ e2)
    (imap (fun i r => MkAtom (length e1 + i) (default 0%nat (column hash r key)) v) e2)
  = e1 ++ map (fun r => fetch_add r (col hash (hasher r) n key) v) e2.
Proof.
  intros Hn Hall. revert e1. induction Hall as [|r e2 Hr Hall IH]; intros e1; simpl; [done|].
  rewrite apply_atom_app. unfold apply_atom at 2. simpl.
  rewrite (column_len n) by done.
  simpl. set (r' := fetch_add _ _ _).
  specialize (IH (e1 ++ [r'])). rewrite <-!app_assoc in IH. simpl in IH. rewrite <-IH.
  f_equal. apply imap_ext. intros i x _. simpl. rewrite length_app. simpl. f_equal. lia.
Qed.

Lemma incr_map n (e : Estimator H) key v m :
  (0 < n)%nat -> Forall (fun r => length (slot r) = n) e ->
  fst <$> incr_fold hash e key v m
  = Some (map (fun r => fetch_add r (col hash (hasher r) n key) v) e).
Proof.
  intros Hn Hall. revert m. induction Hall as [|r e Hr Hall IH]; intros m; simpl; [done|].
  rewrite (column_len n) by done.
  specialize (IH (Z.min m (isize_wrap (counter r (col hash (hasher r) n key) + v)))).
  destruct (incr_fold _ _ _ _ _) as [[e' m']|]; simpl in *; by simplify_eq.
Qed.

Lemma decr_map n (e : Estimator H) key v :
  (0 < n)%nat -> Forall (fun r => length (slot r) = n) e ->
  decr hash e key v = Some (map (fun r => fetch_add r (col hash (hasher r) n key) (- v)) e).
Proof.
  intros Hn Hall. induction Hall as [|r e Hr Hall IH]; simpl; [done|].
  by rewrite (column_len n), IH, fetch_sub_add by done.
Qed.

(** The actions of an operation of one thread; [reset] stores instead of adding. *)
Definition atoms (e : Estimator H) (op : est_op K) : list Atom :=
  match op with
  | OpIncr key v => atoms_of hash e key v
  | OpDecr key v => atoms_of hash e key (- v)
  | OpReset => []
  end.

Definition is_update (op : est_op K) : bool :=
  match op with OpReset => false | _ => true end.

Definition rows (n : nat) (e : Estimator H) : Prop := Forall (fun r => length (slot r) = n) e.

Lemma atoms_step n e op :
  (0 < n)%nat -> rows n e -> is_update op = true ->
  est_step e op = Some (foldl apply_atom e (atoms e op)).
Proof.
  intros Hn Hr Hu. destruct op as [key v|key v|]; [| |done]; simpl.
  - unfold incr. rewrite (incr_map n) by done. f_equal. symmetry. by apply (atoms_incr_go n []).
  - rewrite (decr_map n) by done. f_equal. symmetry. by apply (atoms_incr_go n []).
Qed.

(** Additions leave rows, hashers and so the actions of an operation alone. *)
Lemma atoms_after n e a op :
  (0 < n)%nat -> rows n e -> rows n (apply_atom e a) /\ atoms (apply_atom e a) op = atoms e op.
Proof.
  unfold rows. intros Hn Hr. unfold apply_atom.
  destruct (e !! at_row a) as [r|] eqn:Hi; [|done]. split.
  - apply Forall_insert; [done|]. simpl. rewrite length_insert.
    by eapply (Forall_lookup_1 (fun r => length (slot r) = n)).
  - assert (forall key, column hash (fetch_add r (at_col a) (at_delta a)) key
                        = column hash r key) as Hcol.
    { intros key. unfold column, zlen. simpl. by rewrite length_insert. }
    assert (forall key v, atoms_of hash (<[at_row a := fetch_add r (at_col a) (at_delta a)]> e) key v
                          = atoms_of hash e key v) as Hof.
    { intros key v. unfold atoms_of, Estimator in *. apply list_eq. intros j.
      rewrite !list_lookup_imap. destruct (decide (j = at_row a)) as [->|Hne].
      - rewrite list_lookup_insert_eq by (by eapply lookup_lt_Some). rewrite Hi. simpl.
        by rewrite Hcol.
      - by rewrite list_lookup_insert_ne. }
    by destruct op; simpl.
Qed.

Lemma atoms_after_all n e l op :
  (0 < n)%nat -> rows n e ->
  rows n (foldl apply_atom e l) /\ atoms (foldl apply_atom e l) op = atoms e op.
Proof.
  intros Hn. revert e. induction l as [|a l IH]; intros e Hr; simpl; [done|].
  destruct (atoms_after n e a op Hn Hr) as [Hr' Ha].
  destruct (IH _ Hr') as [? ->]. done.
Qed.

Lemma atoms_run n e e0 ops :
  (0 < n)%nat -> rows n e -> forallb is_update ops = true ->
  (forall op, atoms e op = atoms e0 op) ->
  est_run e ops = Some (foldl apply_atom e (concat (map (atoms e0) ops))).
Proof.
  intros Hn. revert e. induction ops as [|op ops IH]; intros e Hr Hu He; simpl in *; [done|].
  apply andb_true_iff in Hu as [Hu1 Hu2].
  rewrite (atoms_step n), He by done. simpl. rewrite foldl_app. apply IH; [|done|].
  - by apply (atoms_after_all n _ _ op).
  - intros op'. rewrite (proj2 (atoms_after_all n e _ op' Hn Hr)). apply He.
Qed.

Lemma repr_rows n hs L e : est_repr hash n hs L e -> rows n e.
Proof. intros [_ Hall]. eapply Forall_impl; [done|]. by intros r [? _]. Qed.

End runs.

(** Count-min sketch.  Any sequence of increments, decrements and resets of
    a fresh estimator runs without a panic; the value an [incr] returns is what
    [get] gives next; and as long as no key's net count is negative and the
    counts together fit an [isize], the value read for a key is never below its
    true count since the last reset and never above the count of all keys, and
    it is exactly the true count when in one of the rows no other key shares
    its column. *)
Theorem estimator_estimates {K H : Type} `{EqDecision K} (hash : K -> H -> Z)
    (rs : nat -> H) (hashes slots : nat) (ops : list (est_op K)) :
  (0 < hashes)%nat -> (0 < slots)%nat ->
  exists e, est_run hash (estimator_new rs hashes slots) ops = Some e /\
    (forall key d, exists e' x, incr hash e key d = Some (e', x) /\ get hash e' key = Some x) /\
    forall key, exists v, get hash e key = Some v /\
      ((forall k, 0 <= net k (ledger ops)) -> total (ledger ops) <= isize_max ->
       net key (ledger ops) <= v <= total (ledger ops) /\
       ((exists i, (i < hashes)%nat /\
           forall k, k ∈ (ledger ops).*1 -> k <> key ->
             hash k (rs i) mod Z.of_nat slots <> hash key (rs i) mod Z.of_nat slots) ->
        v = net key (ledger ops))).
Proof.
  intros Hh Hs.
  destruct (est_run_repr hash slots _ [] _ ops Hs (est_repr_new hash rs hashes slots))
    as (e & Hrun & He). fold (ledger ops) in He.
  exists e. split; [done|]. split.
  { intros key d. destruct (incr_repr hash slots _ _ e key d Hs He) as (e' & He' & ->).
    eexists _, _. split; [done|]. by apply get_repr. }
  intros key. eexists. split; [by apply get_repr|]. intros Hnet Htot.
  assert (net key (ledger ops) <= total (ledger ops)) as Hle by (by apply tally_mono).
  assert (net key (ledger ops)
          <= estimate hash slots (map rs (seq 0 hashes)) (ledger ops) key) as Hlow.
  { apply estimate_lower; [done..|lia]. }
  assert (forall i, (i < hashes)%nat -> rs i ∈ map rs (seq 0 hashes)) as Hin.
  { intros i Hi. apply list_elem_of_fmap. exists i. split; [done|]. apply elem_of_seq. lia. }
  split; [split; [done|]|].
  - etrans; [by apply (estimate_upper hash slots _ (rs 0%nat)); auto|]. by apply tally_mono.
  - intros (i & Hi & Hcol). apply Z.le_antisymm; [|done].
    etrans; [by apply (estimate_upper hash slots _ (rs i)); auto|].
    apply Z.eq_le_incl. apply tally_ext. intros k v Hk. unfold in_col, col.
    destruct (decide (k = key)) as [->|Hne]; [by rewrite !bool_decide_true|].
    rewrite !bool_decide_false; [done|done|]. intros Heq. apply (Hcol k); [|done|].
    + apply list_elem_of_fmap. by exists (k, v).
    + apply (f_equal Z.of_nat) in Heq.
      rewrite !Z2Nat.id in Heq by (apply Z.mod_pos_bound; lia). done.
Qed.

Lemma estimator_estimates_witness :
  exists v, get (fun k h => k + h) (default [] (est_run (fun k h => k + h)
      (estimator_new Z.of_nat 2 4) [OpIncr 1 5; OpIncr 6 2; OpDecr 1 1])) 1 = Some v /\ v = 4.
Proof.
  destruct (estimator_estimates (fun k h => k + h) Z.of_nat 2 4
              [OpIncr 1 5; OpIncr 6 2; OpDecr 1 1] ltac:(lia) ltac:(lia))
    as (e & He & _ & Hget).
  destruct (Hget 1) as (v & Hv & Hbound). exists v. rewrite He. split; [exact Hv|].
  destruct Hbound as [_ Hexact].
  - intros k. unfold net. simpl. repeat case_bool_decide; lia.
  - vm_compute. discriminate.
  - rewrite Hexact; [reflexivity|]. exists 0%nat. split; [lia|].
    intros k Hk Hne. simpl in Hk. rewrite !elem_of_cons in Hk.
    destruct Hk as [->|[->|[->|Hk%elem_of_nil]]]; [done| |done|done].
    vm_compute. discriminate.
Defined.

(** The estimator takes no lock: the atomic additions of concurrent [incr]
    and [decr] calls may interleave in any order.  Whatever the order, the
    counters end up as after running the calls one by one. *)
Theorem estimator_interleaving {K H : Type} (hash : K -> H -> Z) (rs : nat -> H)
    (hashes slots : nat) (before : list (est_op K)) e (calls : list (est_op K))
    (trace : list Atom) :
  (0 < slots)%nat ->
  est_run hash (estimator_new rs hashes slots) before = Some e ->
  forallb is_update calls = true ->
  trace ≡ₚ concat (map (atoms hash e) calls) ->
  est_run hash e calls = Some (foldl apply_atom e trace).
Proof.
  intros Hs Hrun Hu Hp.
  destruct (est_run_repr hash slots _ [] _ before Hs (est_repr_new hash rs hashes slots))
    as (e' & Hrun' & He). simplify_eq.
  rewrite (apply_atoms_perm e _ _ Hp). apply (atoms_run hash slots); [done| |done|done].
  by eapply repr_rows.
Qed.

Lemma estimator_interleaving_witness :
  est_run (fun k h => k + h) (estimator_new Z.of_nat 2 4) [OpIncr 1 5; OpDecr 3 2]
  = Some (foldl apply_atom (estimator_new Z.of_nat 2 4)
            [MkAtom 1 0 (-2); MkAtom 0 1 5; MkAtom 0 3 (-2); MkAtom 1 2 5]).
Proof.
  apply (estimator_interleaving (fun k h => k + h) Z.of_nat 2 4 []
           (estimator_new Z.of_nat 2 4) [OpIncr 1 5; OpDecr 3 2]); [lia|done|done|].
  vm_compute. symmetry.
  etrans; [apply (Permutation_app_comm [_; _; _] [_])|]. simpl.
  apply perm_skip, perm_skip, perm_swap.
Defined.

(** ** In-flight guards *)

Section inflight.
Context {T H : Type} (hash : T -> H -> Z) (hash64 : Z -> H -> Z).

(** A program that holds guards: it takes one, or drops the [i]-th it holds. *)
Inductive inf_op := Take (key : T) (v : Z) | DropNth (i : nat).

Definition inf_step (s : Inflight H * list Guard) (op : inf_op)
  : option (Inflight H * list Guard) :=
  let '(inf, live) := s in
  match op with
  | Take key v =>
      inflight_incr hash hash64 inf key v ≫= fun '(inf', g, _) => Some (inf', live ++ [g])
  | DropNth i =>
      match live !! i with
      | Some g => guard_drop hash64 inf g ≫= fun inf' => Some (inf', delete i live)
      | None => Some s
      end
  end.

Fixpoint inf_run (s : Inflight H * list Guard) (ops : list inf_op)
  : option (Inflight H * list Guard) :=
  match ops with
  | [] => Some s
  | op :: ops => inf_step s op ≫= fun s' => inf_run s' ops
  end.

Definition held (live : list Guard) : list (Z * Z) := map (fun g => (gid g, gvalue g)) live.

Definition inf_repr (hs : list H) (hh : H) (s : Inflight H * list Guard) : Prop :=
  est_repr hash64 INFLIGHT_SLOTS hs (held s.2) (inf_estimator s.1) /\ inf_hasher s.1 = hh.

Lemma slots_pos : (0 < INFLIGHT_SLOTS)%nat.
Proof. apply Nat.ltb_lt. vm_compute. done. Qed.

Lemma inf_step_repr hs hh s op :
  inf_repr hs hh s -> exists s', inf_step s op = Some s' /\ inf_repr hs hh s'.
Proof.
  destruct s as [inf live]. intros [He Hh]. destruct op as [key v|i]; simpl in *.
  - unfold inflight_incr, guard_incr. simpl.
    destruct (incr_repr hash64 _ _ _ _ (hash key (inf_hasher inf)) v slots_pos He)
      as (e' & He' & ->). simpl. eexists. split; [done|]. split; [|done]. simpl.
    unfold held. by rewrite map_app.
  - destruct (live !! i) as [g|] eqn:Hi; [|by eexists].
    unfold guard_drop.
    destruct (decr_repr hash64 _ _ _ _ (gid g) (gvalue g) slots_pos He) as (e' & He' & ->).
    simpl. eexists. split; [done|]. split; [|done]. simpl.
    eapply est_repr_ext; [|done]. intros sel. rewrite tally_app.
    rewrite (tally_perm sel (held live) ((gid g, gvalue g) :: held (delete i live))).
    + simpl. destruct (sel (gid g)); lia.
    + unfold held. rewrite (delete_Permutation live i g Hi) at 1. done.
Qed.

Lemma inf_run_repr hs hh s ops :
  inf_repr hs hh s -> exists s', inf_run s ops = Some s' /\ inf_repr hs hh s'.
Proof.
  revert s. induction ops as [|op ops IH]; intros s Hs; simpl; [by exists s|].
  destruct (inf_step_repr hs hh s op Hs) as (s' & -> & Hs'). simpl. by apply IH.
Qed.

Lemma held_nonneg sel live : (forall g, g ∈ live -> 0 <= gvalue g) -> 0 <= tally sel (held live).
Proof.
  induction live as [|g live IH]; intros Hv; simpl; [done|].
  specialize (IH ltac:(intros g' ?; apply Hv; by right)).
  specialize (Hv g ltac:(left)). destruct (sel (gid g)); lia.
Qed.

End inflight.
Arguments Take {T}.
Arguments DropNth {T}.

(** Guards balance.  However guards are taken and dropped, nothing panics,
    what is counted is what the guards still held add up to (so a key's count is
    never below its held guards, nor above all of them), and once every guard
    is dropped all counters are back to those of a fresh [Inflight]. *)
Theorem inflight_balanced {T H : Type} (hash : T -> H -> Z) (hash64 : Z -> H -> Z)
    (rs : nat -> H) (ops : list inf_op) :
  exists inf live, inf_run hash hash64 (inflight_new rs, []) ops = Some (inf, live) /\
    (live = [] -> inf = inflight_new rs) /\
    ((forall g, g ∈ live -> 0 <= gvalue g) -> total (held live) <= isize_max ->
     forall g, g ∈ live -> exists v, guard_get hash64 inf g = Some v /\
       gvalue g <= net (gid g) (held live) <= v /\ v <= total (held live)).
Proof.
  pose (hs := map rs (seq 0 INFLIGHT_HASHES)).
  assert (inf_repr hash64 hs (rs INFLIGHT_HASHES) (inflight_new rs, [])) as Hinit.
  { split; [exact (est_repr_new hash64 rs INFLIGHT_HASHES INFLIGHT_SLOTS)|done]. }
  destruct (inf_run_repr hash hash64 _ _ _ ops Hinit) as ([inf live] & Hrun & He & Hh).
  simpl in He, Hh. exists inf, live. split; [done|]. split.
  - intros ->. destruct inf as [e h]. simpl in *. subst h. unfold inflight_new. f_equal.
    eapply est_repr_inj; [done|].
    exact (est_repr_new hash64 rs INFLIGHT_HASHES INFLIGHT_SLOTS).
  - intros Hv Htot g Hg. eexists. split; [by apply get_repr; [apply slots_pos|]|].
    assert (forall k, 0 <= net k (held live)) as Hnet by (intros; by apply held_nonneg).
    assert (net (gid g) (held live) <= total (held live)) by (by apply tally_mono).
    repeat split.
    + apply list_elem_of_split in Hg as (l1 & l2 & ->). unfold net, held.
      rewrite map_app, tally_app. simpl. rewrite bool_decide_true by done.
      assert (0 <= tally (fun k => bool_decide (k = gid g)) (held l1)).
      { apply held_nonneg. intros g' ?. apply Hv. set_solver. }
      assert (0 <= tally (fun k => bool_decide (k = gid g)) (held l2)).
      { apply held_nonneg. intros g' ?. apply Hv. set_solver. }
      unfold held in *. lia.
    + apply estimate_lower; [done..|lia].
    + etrans; [apply (estimate_upper hash64 _ hs (rs 0%nat)); [|done..]|by apply tally_mono].
      left.
Qed.

(** ** Windows of a rate *)

Lemma wsub_past now last : 0 <= last -> last <= now < usize_mod -> wsub now last = now - last.
Proof. intros. unfold wsub. apply Z.mod_small. lia. Qed.

Section windows.
Context {K H : Type} (hash : K -> H -> Z) (slots : nat) (hs_red hs_blue : list H) (I : Z).
Hypothesis slots_nonzero : (0 < slots)%nat.
Hypothesis interval_range : 1 <= I /\ I * 2 < usize_mod.

(** The events of the current and of the last completed interval, with their
    times; the current ones are in the sketch [w_red] says. *)
Record Window := MkWindow {
  w_prev : list (Z * K * Z);
  w_cur : list (Z * K * Z);
  w_last : Z;
  w_red : bool
}.

Definition time (ev : Z * K * Z) : Z := ev.1.1.
Definition untimed (l : list (Z * K * Z)) : list (K * Z) := map (fun ev => (ev.1.2, ev.2)) l.

(** The windows at [now], [past] after the last reset. *)
Definition advance_by (past now : Z) (w : Window) : Window :=
  if past <? I then w
  else MkWindow (if past <? I * 2 then w_cur w else []) [] now (negb (w_red w)).
Definition advance (now : Z) (w : Window) : Window := advance_by (now - w_last w) now w.

Definition hs_of (red : bool) : list H := if red then hs_red else hs_blue.
Definition est_cur (w : Window) (key : K) : Z :=
  estimate hash slots (hs_of (w_red w)) (untimed (w_cur w)) key.
Definition est_prev (w : Window) (key : K) : Z :=
  estimate hash slots (hs_of (negb (w_red w))) (untimed (w_prev w)) key.

Inductive rate_op := Observe (now : Z) (key : K) (events : Z) | RateOf (now : Z) (key : K)
                   | RateWith (now : Z) (key : K).
Inductive rate_out := OutCount (v : Z) | OutRate (x : f64) | OutSamples (c : RateComponents).

Definition op_time (op : rate_op) : Z :=
  match op with Observe now _ _ => now | RateOf now _ => now | RateWith now _ => now end.

(** What the operations return, in terms of the windows. *)
Definition spec_out (nanos : Z) (w : Window) (op : rate_op) : Window * rate_out :=
  let w' := advance (op_time op) w in
  let past := op_time op - w_last w in
  match op with
  | Observe now key events =>
      let w'' := MkWindow (w_prev w') (w_cur w' ++ [(now, key, events)]) (w_last w') (w_red w') in
      (w'', OutCount (est_cur w'' key))
  | RateOf now key =>
      (w', OutRate (if I * 2 <=? past then f64_zero
                    else f64_div (f64_mul (f64_of_Z (est_prev w' key)) (f64_of_Z 1000))
                                 (f64_of_Z I)))
  | RateWith now key =>
      (w', OutSamples
        {| prev_samples := if I * 2 <=? past then 0 else est_prev w' key;
           curr_samples := if I <=? past then 0 else est_cur w' key;
           rc_interval := nanos;
           current_interval_fraction := f64_div (f64_of_Z (past mod I)) (f64_of_Z I) |})
  end.

Definition rate_step (r : Rate H) (op : rate_op) : option (Rate H * rate_out) :=
  match op with
  | Observe now key events =>
      match observe hash now r key events with
      | Some (r', v) => Some (r', OutCount v) | None => None end
  | RateOf now key =>
      match rate hash now r key with
      | Some (r', v) => Some (r', OutRate v) | None => None end
  | RateWith now key => rate_with hash now r key OutSamples
  end.

Fixpoint rate_run (r : Rate H) (ops : list rate_op) : option (Rate H * list rate_out) :=
  match ops with
  | [] => Some (r, [])
  | op :: ops =>
      match rate_step r op with
      | Some (r', o) =>
          match rate_run r' ops with
          | Some (r'', os) => Some (r'', o :: os)
          | None => None
          end
      | None => None
      end
  end.

Fixpoint spec_run (nanos : Z) (w : Window) (ops : list rate_op) : Window * list rate_out :=
  match ops with
  | [] => (w, [])
  | op :: ops =>
      let '(w', o) := spec_out nanos w op in
      let '(w'', os) := spec_run nanos w' ops in (w'', o :: os)
  end.

Definition rate_repr (nanos : Z) (w : Window) (r : Rate H) : Prop :=
  est_repr hash slots (hs_of (w_red w)) (untimed (w_cur w)) (current r (red_or_blue r)) /\
  est_repr hash slots (hs_of (negb (w_red w))) (untimed (w_prev w))
           (previous r (red_or_blue r)) /\
  red_or_blue r = w_red w /\ last_reset_time r = w_last w /\ reset_interval_ms r = I /\
  interval r = nanos.

Lemma two_intervals_eq nanos w r : rate_repr nanos w r -> two_intervals r = I * 2.
Proof.
  intros (_ & _ & _ & _ & Hi & _). unfold two_intervals. rewrite Hi. apply Z.mod_small. lia.
Qed.

Lemma maybe_reset_by nanos w r now past :
  rate_repr nanos w r -> wsub now (w_last w) = past ->
  exists r', maybe_reset now r = (r', past) /\ rate_repr nanos (advance_by past now w) r'.
Proof.
  intros Hr Hpast. pose proof (two_intervals_eq _ _ _ Hr) as H2.
  destruct Hr as (Hc & Hp & Hf & Hlast & Hi & Hn).
  unfold maybe_reset, advance_by. rewrite Hlast, Hi, Hpast.
  destruct (Z.ltb_spec past I); [by exists r|].
  destruct r as [red blue flag ims last nn]. simpl in Hf, Hlast, Hi, Hn.
  subst flag last ims nn. unfold two_intervals in H2. simpl in H2.
  destruct (w_red w); simpl in *; unfold two_intervals; simpl; rewrite H2;
    destruct (Z.leb_spec (I * 2) past), (Z.ltb_spec past (I * 2));
    try lia; (eexists; split; [done|]); repeat split; simpl;
    try (by eapply reset_repr); first [apply Hc|apply Hp|done].
Qed.

Lemma maybe_reset_repr nanos w r now :
  rate_repr nanos w r -> 0 <= w_last w -> w_last w <= now < usize_mod ->
  exists r', maybe_reset now r = (r', now - w_last w) /\ rate_repr nanos (advance now w) r'.
Proof. intros Hr Hl Hnow. apply maybe_reset_by; [done|]. by apply wsub_past. Qed.

Lemma observe_after_reset nanos w r r1 now past key v :
  maybe_reset now r = (r1, past) -> rate_repr nanos w r1 ->
  let w' := MkWindow (w_prev w) (w_cur w ++ [(now, key, v)]) (w_last w) (w_red w) in
  exists r', observe hash now r key v = Some (r', est_cur w' key) /\ rate_repr nanos w' r'.
Proof.
  intros Hm (Hc & Hp & Hf & Hlast & Hi & Hn). unfold observe. rewrite Hm.
  destruct (incr_repr hash slots _ _ _ key v slots_nonzero Hc) as (e' & He' & ->).
  eexists. split.
  - unfold est_cur, untimed. simpl. by rewrite map_app.
  - destruct r1 as [red blue flag ims last nn]. simpl in *. subst.
    destruct (w_red w); repeat split; simpl;
      try (unfold untimed; rewrite map_app); try apply He'; try apply Hp; done.
Qed.

Lemma observe_resets nanos w r now past key v :
  rate_repr nanos w r -> wsub now (w_last w) = past -> I <= past ->
  exists r' x, observe hash now r key v = Some (r', x) /\
    rate_repr nanos (MkWindow (if past <? I * 2 then w_cur w else []) [(now, key, v)] now
                              (negb (w_red w))) r'.
Proof.
  intros Hr Hpast Hge. destruct (maybe_reset_by _ _ _ _ _ Hr Hpast) as (r1 & Hm & Hr1).
  destruct (observe_after_reset _ _ _ _ _ _ key v Hm Hr1) as (r' & -> & Hr').
  eexists _, _. split; [done|]. unfold advance_by in Hr'.
  destruct (Z.ltb_spec past I); [lia|]. done.
Qed.

Lemma w_last_advance now w : w_last w <= now -> w_last w <= w_last (advance now w) <= now.
Proof. unfold advance, advance_by. case_match; simpl; lia. Qed.

Lemma rate_step_repr nanos w r op w' o :
  rate_repr nanos w r -> 0 <= w_last w -> w_last w <= op_time op < usize_mod ->
  spec_out nanos w op = (w', o) ->
  exists r', rate_step r op = Some (r', o) /\ rate_repr nanos w' r'.
Proof.
  intros Hr Hl Ht Hspec.
  destruct (maybe_reset_repr nanos w r _ Hr Hl Ht) as (r1 & Hm & Hr1).
  pose proof (two_intervals_eq _ _ _ Hr1) as H2.
  pose proof Hr1 as (Hc & Hp & Hf & Hlast & Hi & Hn).
  unfold spec_out in Hspec. destruct op as [now key v|now key|now key]; simpl in *.
  - simplify_eq. destruct (observe_after_reset _ _ _ _ _ _ key v Hm Hr1) as (r' & -> & Hr').
    by exists r'.
  - unfold rate. rewrite Hm, H2. simplify_eq.
    destruct (I * 2 <=? now - w_last w); [by eexists|].
    rewrite (get_repr hash slots _ _ _ key slots_nonzero Hp), Hi. by eexists.
  - unfold rate_with, samples. rewrite Hm, H2, Hi, Hn. simplify_eq.
    pose proof (get_repr hash slots _ _ _ key slots_nonzero Hp) as Hgp.
    pose proof (get_repr hash slots _ _ _ key slots_nonzero Hc) as Hgc.
    unfold current, previous in Hgp, Hgc.
    assert (I =? 0 = false) as -> by (by apply Z.eqb_neq; lia).
    destruct (Z.leb_spec (I * 2) (now - w_last w)), (Z.leb_spec I (now - w_last w)); try lia.
    + by eexists.
    + unfold previous. rewrite Hgp. by eexists.
    + destruct (red_or_blue r1); rewrite Hgp, Hgc; by eexists.
Qed.

(** Times along a run never go back and stay within 64 bits. *)
Fixpoint ordered (from : Z) (ops : list rate_op) : Prop :=
  match ops with
  | [] => True
  | op :: ops => from <= op_time op < usize_mod /\ ordered (op_time op) ops
  end.

Definition last_time (from : Z) (ops : list rate_op) : Z := foldl (fun _ op => op_time op) from ops.

Definition events_of (op : rate_op) : list (Z * K * Z) :=
  match op with Observe now key v => [(now, key, v)] | _ => [] end.
Definition history (ops : list rate_op) : list (Z * K * Z) := concat (map events_of ops).

(** Which events, of all those in [h], the windows at time [now] hold. *)
Definition window_ok (h : list (Z * K * Z)) (now : Z) (w : Window) : Prop :=
  0 <= w_last w <= now /\
  w_cur w = filter (fun ev => w_last w <= time ev) h /\
  Forall (fun ev => time ev < w_last w + I /\ time ev <= now) (w_cur w) /\
  Forall (fun ev => w_last w - I * 2 < time ev < w_last w) (w_prev w) /\
  Forall (fun ev => 0 <= time ev <= now) h.

Lemma filter_none (P : Z * K * Z -> Prop) `{forall x, Decision (P x)} l :
  Forall (fun x => ~ P x) l -> filter P l = [].
Proof. induction 1; [done|]. by rewrite filter_cons, decide_False. Qed.

Lemma advance_ok h now now' w :
  window_ok h now w -> now <= now' -> window_ok h now' (advance now' w).
Proof.
  intros (Hl & Hcur & Hc & Hp & Hh) Hnow. unfold advance, advance_by, window_ok.
  destruct (Z.ltb_spec (now' - w_last w) I) as [?|Hge]; simpl.
  - split_and!; [lia..|done| |done|].
    + eapply Forall_impl; [exact Hc|]. simpl. lia.
    + eapply Forall_impl; [exact Hh|]. simpl. lia.
  - assert (Forall (fun ev => time ev < now') h) as Hlt.
    { apply Forall_forall. intros ev Hev. rewrite Forall_forall in Hh, Hc.
      destruct (decide (w_last w <= time ev)) as [Hle|Hgt].
      - assert (ev ∈ w_cur w) as Hin by (rewrite Hcur; by apply list_elem_of_filter).
        specialize (Hc ev Hin). lia.
      - lia. }
    split_and!; [lia..| | | |].
    + symmetry. apply filter_none. eapply Forall_impl; [exact Hlt|]. simpl. lia.
    + done.
    + destruct (Z.ltb_spec (now' - w_last w) (I * 2)); [|done].
      apply Forall_forall. intros ev Hev. rewrite Forall_forall in Hc.
      specialize (Hc ev Hev). rewrite Hcur in Hev. apply list_elem_of_filter in Hev. lia.
    + eapply Forall_impl; [exact Hh|]. simpl. lia.
Qed.

Lemma spec_out_ok nanos h now w op w' o :
  window_ok h now w -> now <= op_time op -> spec_out nanos w op = (w', o) ->
  window_ok (h ++ events_of op) (op_time op) w'.
Proof.
  intros Hw Hnow Hspec. pose proof (advance_ok h now _ w Hw Hnow) as Ha.
  unfold spec_out in Hspec. destruct op as [t key v|t key|t key]; simpl in *; simplify_eq;
    [|by rewrite app_nil_r..].
  destruct Ha as (Hl & Hcur & Hc & Hp & Hh).
  assert (t < w_last (advance t w) + I).
  { unfold advance, advance_by in *. case_match; simpl in *; lia. }
  split_and!; simpl.
  - lia.
  - lia.
  - rewrite filter_app, <-Hcur. f_equal. unfold filter. simpl.
    by rewrite decide_True by (unfold time; simpl; lia).
  - apply Forall_app. split; [done|]. apply Forall_singleton. unfold time. simpl. lia.
  - done.
  - apply Forall_app. split; [done|]. apply Forall_singleton. unfold time. simpl. lia.
Qed.

Lemma rate_run_repr nanos h now w r ops :
  rate_repr nanos w r -> window_ok h now w -> ordered now ops ->
  exists r' w' outs, rate_run r ops = Some (r', outs) /\ spec_run nanos w ops = (w', outs) /\
    window_ok (h ++ history ops) (last_time now ops) w'.
Proof.
  revert h now w r. induction ops as [|op ops IH]; intros h now w r Hr Hw Ho; simpl in *.
  - exists r, w, []. by rewrite app_nil_r.
  - destruct Ho as [Ht Ho]. destruct (spec_out nanos w op) as [w1 o] eqn:Hspec.
    pose proof Hw as (Hl & _).
    destruct (rate_step_repr nanos w r op w1 o Hr ltac:(lia) ltac:(lia) Hspec) as (r1 & -> & Hr1).
    pose proof (spec_out_ok nanos h now w op w1 o Hw ltac:(lia) Hspec) as Hw1.
    destruct (IH _ _ _ _ Hr1 Hw1 Ho) as (r' & w' & outs & -> & -> & Hw').
    exists r', w', (o :: outs). split_and!; [done..|].
    unfold history in *. simpl. by rewrite app_assoc.
Qed.

End windows.

(** Windows of [Rate], for callers one after the other at times that do not
    go back.  No operation panics, and each returns what the abstract windows
    say: [observe] the estimate of the current window, [rate] the estimate of the
    previous window over the interval (0 after two silent intervals),
    [rate_with] both.  The current window holds exactly the events since the
    last reset, all less than one interval after it; the previous one only
    events of the two intervals before the reset. *)
Theorem rate_windows {K H : Type} (hash : K -> H -> Z) (rs_red rs_blue : nat -> H)
    (hashes slots : nat) (nanos : Z) (ops : list rate_op) :
  let I := as_millis nanos in
  (0 < slots)%nat -> 1 <= I -> I * 2 < usize_mod -> ordered 0 ops ->
  exists r w outs,
    rate_run hash (new_with_estimator_config rs_red rs_blue nanos hashes slots) ops
    = Some (r, outs) /\
    spec_run hash slots (map rs_red (seq 0 hashes)) (map rs_blue (seq 0 hashes)) I nanos
      (MkWindow [] [] 0 true) ops = (w, outs) /\
    window_ok I (history ops) (last_time 0 ops) w.
Proof.
  intros I Hs H1 H2 Ho.
  destruct (rate_run_repr (K:=K) hash slots (map rs_red (seq 0 hashes))
              (map rs_blue (seq 0 hashes)) I Hs (conj H1 H2) nanos [] 0
              (MkWindow [] [] 0 true)
              (new_with_estimator_config rs_red rs_blue nanos hashes slots) ops)
    as (r & w & outs & Hrun & Hspec & Hw); [| |done|by exists r, w, outs].
  - assert (reset_interval_ms
              (new_with_estimator_config rs_red rs_blue nanos hashes slots) = I) as HI.
    { simpl. apply Z.mod_small. unfold I in *. lia. }
    split_and!; [apply est_repr_new|apply est_repr_new|done|done|done|done].
  - unfold window_ok. simpl. split_and!; [lia..|done|done|done|done].
Qed.

Lemma rate_windows_witness :
  exists r w,
    rate_run (fun k h => k + h)
      (new_with_estimator_config Z.of_nat Z.of_nat 1000000000 2 4)
      [Observe 0 1 3; Observe 10 1 2; Observe 1000 1 4; RateOf 1001 1; RateOf 3500 1]
    = Some (r, [OutCount 3; OutCount 5; OutCount 4; OutRate (f64_of_Z 5); OutRate f64_zero]) /\
    window_ok 1000 [(0, 1, 3); (10, 1, 2); (1000, 1, 4)] 3500 w.
Proof.
  destruct (rate_windows (fun k h => k + h) Z.of_nat Z.of_nat 2 4 1000000000
    [Observe 0 1 3; Observe 10 1 2; Observe 1000 1 4; RateOf 1001 1; RateOf 3500 1])
    as (r & w & outs & Hrun & Hspec & Hw).
  - lia.
  - vm_compute. discriminate.
  - vm_compute. reflexivity.
  - vm_compute. repeat split; discriminate.
  - exists r, w. split; [|exact Hw]. rewrite Hrun. do 2 f_equal.
    vm_compute in Hspec. injection Hspec as _ <-. vm_compute. reflexivity.
Defined.

(** ** Racing threads *)

Section threads.
Context {K H : Type} (hash : K -> H -> Z).

Definition thread_steps (n : nat) (clock : Z) (key : K) (events : Z) (s : pc * Rate H)
  : pc * Rate H :=
  Nat.iter n (fun '(p, r) => thread_step hash clock key events p r) s.

Lemma run_thread n i c (r : Rate H) (ths : list (K * Z * pc)) key events p :
  ths !! i = Some (key, events, p) ->
  run_sched hash (MkWorld c r ths) (replicate n (Run i))
  = let '(p', r') := thread_steps n c key events (p, r) in
    MkWorld c r' (<[i := (key, events, p')]> ths).
Proof.
  intros Hi. induction n as [|n IH].
  - simpl. by rewrite list_insert_id.
  - rewrite replicate_S_end. unfold run_sched in *. rewrite foldl_app, IH. unfold thread_steps.
    rewrite Nat.iter_succ.
    fold (thread_steps n c key events (p, r)). destruct (thread_steps _ _ _ _ _) as [p' r'].
    simpl. rewrite list_lookup_insert_eq by (by eapply lookup_lt_Some).
    destruct (thread_step _ _ _ _ _ _) as [p'' r'']. simpl. by rewrite list_insert_insert_eq.
Qed.

Lemma run_sched_app (w : World) ss1 ss2 :
  run_sched hash w (ss1 ++ ss2) = run_sched hash (run_sched hash w ss1) ss2.
Proof. apply foldl_app. Qed.

(** A thread up to the decision to reset, and its attempt to be the one. *)
Lemma steps_load c key events (r : Rate H) :
  reset_interval_ms r <= wsub c (last_reset_time r) ->
  thread_steps 2 c key events (Start, r)
  = (LoadFlag c (last_reset_time r) (wsub c (last_reset_time r)), r).
Proof.
  intros Hge. unfold thread_steps. simpl.
  destruct (Z.ltb_spec (wsub c (last_reset_time r)) (reset_interval_ms r)); [lia|done].
Qed.

Lemma steps_cas c key events now last past (r : Rate H) :
  thread_steps 2 c key events (LoadFlag now last past, r)
  = if last_reset_time r =? last
    then (ClearPrevious now last past (red_or_blue r), store_last r now)
    else if wsub now 1000 <=? last_reset_time r then (AfterReset past, r) else (Panicked, r).
Proof. done. Qed.

(** From its first load on, an undisturbed thread does what [observe] does. *)
Lemma observe_from_load c key events now (r : Rate H) :
  thread_steps 8 c key events (LoadLast now, r)
  = match observe hash now r key events with
    | Some (r', v) => (Finished v, r')
    | None => (Panicked, (maybe_reset now r).1)
    end.
Proof.
  unfold thread_steps, observe, maybe_reset. simpl.
  destruct (_ <? _) eqn:Hlt; simpl.
  - destruct (incr _ _ _ _) as [[]|]; done.
  - rewrite Z.eqb_refl. simpl. destruct (incr _ _ _ _) as [[]|]; done.
Qed.

Lemma steps_from_start c key events (r : Rate H) :
  thread_steps 9 c key events (Start, r) = thread_steps 8 c key events (LoadLast c, r).
Proof. apply (Nat.iter_succ_r 8). Qed.

End threads.

(** The thread's steps refine [observe]: a thread that no other thread comes
    between ends, after its nine shared accesses, with the state and result of
    [observe] at the time its first step read from the clock. *)
Theorem observe_solo {K H : Type} (hash : K -> H -> Z) (now : Z) (r r' : Rate H)
    (key : K) (events v : Z) :
  observe hash now r key events = Some (r', v) ->
  run_sched hash (MkWorld now r [(key, events, Start)]) (replicate 9 (Run 0))
  = MkWorld now r' [(key, events, Finished v)].
Proof.
  intros Hobs. rewrite (run_thread hash 9 0 now r _ key events Start) by done.
  by rewrite steps_from_start, observe_from_load, Hobs.
Qed.

Lemma observe_solo_witness :
  exists r', run_sched (fun k h => k + h)
    (MkWorld 5 (new_with_estimator_config Z.of_nat Z.of_nat 2000000 1 2) [(1, 7, Start)])
    (replicate 9 (Run 0)) = MkWorld 5 r' [(1, 7, Finished 7)].
Proof.
  eexists. apply (observe_solo (fun k h => k + h) 5). vm_compute. reflexivity.
Defined.

(** The time check of a lost race is wrong in the first second.  Two threads
    that report an event of a fresh rate at the same moment, less than a second
    but at least one interval after its creation, can interleave so that the one
    whose [compare_exchange] fails panics: [now - 1000] wraps around below zero
    and the assertion [new >= now - 1000] fails. *)
Theorem rate_assert_race {K H : Type} (hash : K -> H -> Z) (rs_red rs_blue : nat -> H)
    (hashes slots : nat) (nanos now : Z) (k1 k2 : K) (v1 v2 : Z) :
  1 <= as_millis nanos <= now -> now < 1000 ->
  exists ss,
    threads (run_sched hash
      (MkWorld now (new_with_estimator_config rs_red rs_blue nanos hashes slots)
         [(k1, v1, Start); (k2, v2, Start)]) ss) !! 1%nat = Some (k2, v2, Panicked).
Proof.
  intros HI Hnow.
  exists (replicate 2 (Run 0) ++ replicate 2 (Run 1) ++ replicate 2 (Run 0) ++ replicate 2 (Run 1)).
  set (r0 := new_with_estimator_config _ _ _ _ _).
  assert (wsub now 0 = now) as Hw by (rewrite wsub_past; rewrite ?usize_mod_val; lia).
  assert (reset_interval_ms r0 <= wsub now (last_reset_time r0)) as Hge.
  { simpl. rewrite Hw, Z.mod_small; rewrite ?usize_mod_val; lia. }
  assert (wsub now 1000 = now - 1000 + usize_mod) as Hwrap.
  { unfold wsub. rewrite <-(Z.mod_add _ 1) by done. apply Z.mod_small. rewrite usize_mod_val. lia. }
  rewrite !run_sched_app.
  rewrite (run_thread _ 2 0 _ _ _ k1 v1 Start), steps_load by done. simpl (<[_ := _]> _).
  rewrite (run_thread _ 2 1 _ _ _ k2 v2 Start), steps_load by done. simpl (<[_ := _]> _).
  rewrite (run_thread _ 2 0 _ _ _ k1 v1 (LoadFlag now 0 (wsub now 0))), steps_cas by done.
  rewrite Z.eqb_refl. simpl (<[_ := _]> _).
  rewrite (run_thread _ 2 1 _ _ _ k2 v2 (LoadFlag now 0 (wsub now 0))), steps_cas by done.
  simpl (last_reset_time _). destruct (Z.eqb_spec now 0); [lia|]. rewrite Hwrap.
  destruct (Z.leb_spec (now - 1000 + usize_mod) now) as [Hle|]; [|done].
  rewrite usize_mod_val in Hle. lia.
Qed.

Lemma rate_assert_race_witness :
  exists ss,
    threads (run_sched (fun k h => k + h)
      (MkWorld 150 (new_with_estimator_config Z.of_nat Z.of_nat 100000000 4 8)
         [(1, 1, Start); (2, 1, Start)]) ss) !! 1%nat = Some (2, 1, Panicked).
Proof.
  apply (rate_assert_race (fun k h => k + h)); vm_compute; repeat split; discriminate.
Defined.

(** A reset can undo another one.  A thread reads the clock at [t]; before it
    loads [last_reset_time], another one resets at [t + 1] and counts its event.
    The first then computes [now - last_reset] as a wrapped, huge time, and resets
    again, clearing both windows: the event just counted by the other thread is
    in neither window, although both calls have returned and no time has
    passed. *)
Theorem rate_race_loses_events {K H : Type} (hash : K -> H -> Z) (rs_red rs_blue : nat -> H)
    (hashes slots : nat) (nanos t : Z) (k1 k2 : K) (v1 v2 : Z) :
  (0 < slots)%nat -> 1 <= as_millis nanos -> as_millis nanos * 2 < usize_mod ->
  as_millis nanos <= t + 1 -> t + 1 < usize_mod -> 0 <= t ->
  exists ss r x1 x2,
    run_sched hash
      (MkWorld t (new_with_estimator_config rs_red rs_blue nanos hashes slots)
         [(k1, v1, Start); (k2, v2, Start)]) ss
    = MkWorld (t + 1) r [(k1, v1, Finished x1); (k2, v2, Finished x2)] /\
    est_repr hash slots (map rs_red (seq 0 hashes)) [(k2, v2)] (current r (red_or_blue r)) /\
    est_repr hash slots (map rs_blue (seq 0 hashes)) [] (previous r (red_or_blue r)).
Proof.
  intros Hs H1 H2 Ht Htmax Ht0.
  exists ([Run 1; Tick 1] ++ replicate 9 (Run 0) ++ replicate 8 (Run 1)).
  set (r0 := new_with_estimator_config _ _ _ _ _).
  set (hr := map rs_red (seq 0 hashes)). set (hb := map rs_blue (seq 0 hashes)).
  assert (rate_repr (K:=K) hash slots hr hb (as_millis nanos) nanos
            (MkWindow [] [] 0 true) r0) as Hr0.
  { split_and!; [apply est_repr_new|apply est_repr_new|done|done| |done].
    apply Z.mod_small. lia. }
  destruct (observe_resets hash slots hr hb _ Hs (conj H1 H2) nanos _ r0 (t + 1) (t + 1) k1 v1 Hr0)
    as (r1 & x1 & Ho1 & Hr1); [rewrite wsub_past; simpl; lia|done|].
  destruct (observe_resets hash slots hr hb _ Hs (conj H1 H2) nanos _ r1 t (usize_mod - 1) k2 v2 Hr1)
    as (r2 & x2 & Ho2 & Hr2); [|lia|].
  { simpl. unfold wsub. rewrite <-(Z.mod_add _ 1) by done. rewrite Z.mod_small; lia. }
  destruct (Z.ltb_spec (usize_mod - 1) (as_millis nanos * 2)); [lia|].
  exists r2, x1, x2. destruct Hr2 as (Hc & Hp & Hf & _). simpl in Hc, Hp. split; [|done].
  rewrite !run_sched_app. change (run_sched hash _ [Run 1; Tick 1])
    with (MkWorld (t + 1) r0 [(k1, v1, Start); (k2, v2, LoadLast t)]).
  rewrite (run_thread _ 9 0 _ _ _ k1 v1 Start) by done.
  rewrite steps_from_start, observe_from_load, Ho1. simpl (<[_ := _]> _).
  rewrite (run_thread _ 8 1 _ _ _ k2 v2 (LoadLast t)) by done.
  by rewrite observe_from_load, Ho2.
Qed.

Lemma rate_race_loses_events_witness :
  exists ss r x1 x2,
    run_sched (fun k h => k + h)
      (MkWorld 999 (new_with_estimator_config Z.of_nat Z.of_nat 1000000000 2 4)
         [(1, 50, Start); (2, 1, Start)]) ss
    = MkWorld 1000 r [(1, 50, Finished x1); (2, 1, Finished x2)] /\
    get (fun k h => k + h) (current r (red_or_blue r)) 1 = Some 0 /\
    get (fun k h => k + h) (previous r (red_or_blue r)) 1 = Some 0.
Proof.
  destruct (rate_race_loses_events (fun k h => k + h) Z.of_nat Z.of_nat 2 4 1000000000 999
              1 2 50 1) as (ss & r & x1 & x2 & Hrun & Hc & Hp);
    [lia|vm_compute; done..|].
  exists ss, r, x1, x2. split; [exact Hrun|].
  split.
  - rewrite (get_repr _ 4 _ _ _ 1 ltac:(lia) Hc). reflexivity.
  - rewrite (get_repr _ 4 _ _ _ 1 ltac:(lia) Hp). reflexivity.
Defined.
