(* ===== verification/H1Server.v ===== *)
(** * HTTP/1 server session

    [HttpSession] of [src/pingora-core/src/protocols/http/v1/server.rs]: reading
    and validating a request, reading its body, framing and writing the response
    (directly, in batches, and through the cancel-safe task interface), keepalive,
    pipelining and reuse of the connection; [FixedBuffer] of
    [src/pingora-core/src/protocols/http/body_buffer.rs].

    The session holds its end of the stream: what reads will give and what writes
    will do.  A future that is dropped at a pending [.await] leaves the session as
    it is there; where a timer guards the [.await], the next of [awaits] says
    whether it fired.  [httparse], the regular expression of a request line with
    illegal characters and percent-encoding are parameters.  Durations are in
    milliseconds, their values only pass through.  Digests, the user context and
    log lines are left out. *)

From stdpp Require Import base list numbers strings.
From Stdlib Require Import ZArith Lia.
From Stdlib Require Import Floats.SpecFloat.
From S2P Require Import Limits.
From S2P Require Import Prelude Errors Text Headers Parser BodyReader BodyWriter HeaderWriter Framing.
Local Open Scope Z_scope.

(** ** A buffer with a size limit *)

Record FixedBuffer := MkFixed { fb_buffer : list byte; fb_capacity : Z; fb_truncated : bool }.

Definition fixed_new (capacity : Z) : FixedBuffer := MkFixed [] capacity false.
Definition write_to_buffer (data : list byte) (b : FixedBuffer) : FixedBuffer :=
  if fb_truncated b then b
  else if zlen (fb_buffer b) + zlen data <=? fb_capacity b
  then MkFixed (fb_buffer b ++ data) (fb_capacity b) false
  else MkFixed [] (fb_capacity b) true.
Definition fixed_clear (b : FixedBuffer) : FixedBuffer := MkFixed [] (fb_capacity b) false.
Definition fixed_get_buffer (b : FixedBuffer) : option (list byte) :=
  if bool_decide (fb_buffer b = []) then None else Some (fb_buffer b).

(** ** Request lines with illegal characters *)

(** The match of [REQUEST_LINE_REGEX] in a buffer: start and end of the URI; and
    [percent_encode] with [URI_ESC_CHARSET]. *)
Class RequestLine := {
  request_line_uri : list byte -> option (Z * Z);
  percent_encode : list byte -> list byte
}.

Definition escape_illegal_request_line `{RequestLine} (buf : list byte) : option (list byte) :=
  match request_line_uri buf with
  | None => None
  | Some (uri_start, uri_end) =>
      let new_buf := ztake uri_start buf ++ percent_encode (ztake (uri_end - uri_start) (zdrop uri_start buf)) in
      if zlen new_buf =? uri_end then None else Some (new_buf ++ zdrop uri_end buf)
  end.

(** ** Floating point *)

(** [as u64]: truncation towards zero, saturating. *)
Definition f64_to_u64 (x : f64) : Z :=
  match x with
  | S754_finite false m e =>
      Z.min (if 0 <=? e then Zpos m * 2 ^ e else Zpos m / 2 ^ (- e)) (2 ^ 64 - 1)
  | S754_infinity false => 2 ^ 64 - 1
  | _ => 0
  end.

Module Server.
Section session.
Context {hmap : Type -> Type} `{HM : HMap hmap} {Uri : Type} `{HC : HttpCrate Uri} `{RL : RequestLine}.
Variable httparse_request : Z -> list byte -> ParseStatus ParsedRequest + ParseError.
Variable parse_chunk_size : list byte -> chunk_status.
(** [date::get_cached_date]. *)
Variable cached_date : list byte.

(** ** The session *)

(** [HttpTask] of [src/pingora-core/src/protocols/http/mod.rs]; trailers are not
    written by HTTP/1. *)
Inductive HttpTask :=
| THeader (header : ResponseHeader hmap) (end_stream : bool)
| TBody (data : option (list byte)) (end_stream : bool)
| TUpgradedBody (data : option (list byte)) (end_stream : bool)
| TTrailer
| TDone
| TFailed (e : Error).

Inductive ProxyTaskWriter :=
| WritingHeader (header : ResponseHeader hmap) (end_stream : bool)
| WritingBody (end_stream : bool)
| FinishingBody.

Record HttpSession := MkHttp {
  underlying_stream : list rd_event  (** what the reads of the stream will give *);
  io : writer_io  (** the body writer and what the writes of the stream will do *);
  awaits : list bool  (** at the next pending awaits: does the timer fire *);
  buf : list byte;
  raw_header : option BufRef;
  preread_body : option (list byte);
  body_reader : BodyReader;
  header_writer : HeaderWriter;
  tasks : list HttpTask;
  current_writer : option ProxyTaskWriter;
  body_write_buf : list byte;
  body_bytes_sent : Z;
  body_bytes_read : Z;
  update_resp_headers : bool;
  keepalive_timeout : KeepaliveStatus;
  read_timeout : option Z;
  write_timeout_ : option Z;
  total_drain_timeout : option Z;
  response_written : option (ResponseHeader hmap);
  request_header : option (RequestHeader hmap Uri);
  retry_buffer : option FixedBuffer;
  upgraded : bool;
  min_send_rate : option Z;
  ignore_info_resp_ : bool;
  close_on_response_before_downstream_finish : bool;
  keepalive_reuses_remaining : option Z;
  half_closed : bool;
  abort_on_close : bool;
  proxy_tasks_enabled : bool;
  pipelining_enabled : bool;
  limit : HeaderLimit  (** the field header_limit *);
  pipelined_prefix : option (list byte);
  pipelined_idle_bytes_stashed : bool
}.

Definition set_underlying_stream (x : list rd_event) (s : HttpSession) : HttpSession :=
  MkHttp x (io s) (awaits s) (buf s) (raw_header s) (preread_body s) (body_reader s)
    (header_writer s) (tasks s) (current_writer s) (body_write_buf s) (body_bytes_sent s)
    (body_bytes_read s) (update_resp_headers s) (keepalive_timeout s) (read_timeout s)
    (write_timeout_ s) (total_drain_timeout s) (response_written s) (request_header s)
    (retry_buffer s) (upgraded s) (min_send_rate s) (ignore_info_resp_ s)
    (close_on_response_before_downstream_finish s) (keepalive_reuses_remaining s) (half_closed
    s) (abort_on_close s) (proxy_tasks_enabled s) (pipelining_enabled s) (limit s)
    (pipelined_prefix s) (pipelined_idle_bytes_stashed s).
Definition set_io (x : writer_io) (s : HttpSession) : HttpSession :=
  MkHttp (underlying_stream s) x (awaits s) (buf s) (raw_header s) (preread_body s) (body_reader
    s) (header_writer s) (tasks s) (current_writer s) (body_write_buf s) (body_bytes_sent s)
    (body_bytes_read s) (update_resp_headers s) (keepalive_timeout s) (read_timeout s)
    (write_timeout_ s) (total_drain_timeout s) (response_written s) (request_header s)
    (retry_buffer s) (upgraded s) (min_send_rate s) (ignore_info_resp_ s)
    (close_on_response_before_downstream_finish s) (keepalive_reuses_remaining s) (half_closed
    s) (abort_on_close s) (proxy_tasks_enabled s) (pipelining_enabled s) (limit s)
    (pipelined_prefix s) (pipelined_idle_bytes_stashed s).
Definition set_awaits (x : list bool) (s : HttpSession) : HttpSession :=
  MkHttp (underlying_stream s) (io s) x (buf s) (raw_header s) (preread_body s) (body_reader s)
    (header_writer s) (tasks s) (current_writer s) (body_write_buf s) (body_bytes_sent s)
    (body_bytes_read s) (update_resp_headers s) (keepalive_timeout s) (read_timeout s)
    (write_timeout_ s) (total_drain_timeout s) (response_written s) (request_header s)
    (retry_buffer s) (upgraded s) (min_send_rate s) (ignore_info_resp_ s)
    (close_on_response_before_downstream_finish s) (keepalive_reuses_remaining s) (half_closed
    s) (abort_on_close s) (proxy_tasks_enabled s) (pipelining_enabled s) (limit s)
    (pipelined_prefix s) (pipelined_idle_bytes_stashed s).
Definition set_buf (x : list byte) (s : HttpSession) : HttpSession :=
  MkHttp (underlying_stream s) (io s) (awaits s) x (raw_header s) (preread_body s) (body_reader
    s) (header_writer s) (tasks s) (current_writer s) (body_write_buf s) (body_bytes_sent s)
    (body_bytes_read s) (update_resp_headers s) (keepalive_timeout s) (read_timeout s)
    (write_timeout_ s) (total_drain_timeout s) (response_written s) (request_header s)
    (retry_buffer s) (upgraded s) (min_send_rate s) (ignore_info_resp_ s)
    (close_on_response_before_downstream_finish s) (keepalive_reuses_remaining s) (half_closed
    s) (abort_on_close s) (proxy_tasks_enabled s) (pipelining_enabled s) (limit s)
    (pipelined_prefix s) (pipelined_idle_bytes_stashed s).
Definition set_raw_header (x : option BufRef) (s : HttpSession) : HttpSession :=
  MkHttp (underlying_stream s) (io s) (awaits s) (buf s) x (preread_body s) (body_reader s)
    (header_writer s) (tasks s) (current_writer s) (body_write_buf s) (body_bytes_sent s)
    (body_bytes_read s) (update_resp_headers s) (keepalive_timeout s) (read_timeout s)
    (write_timeout_ s) (total_drain_timeout s) (response_written s) (request_header s)
    (retry_buffer s) (upgraded s) (min_send_rate s) (ignore_info_resp_ s)
    (close_on_response_before_downstream_finish s) (keepalive_reuses_remaining s) (half_closed
    s) (abort_on_close s) (proxy_tasks_enabled s) (pipelining_enabled s) (limit s)
    (pipelined_prefix s) (pipelined_idle_bytes_stashed s).
Definition set_preread_body (x : option (list byte)) (s : HttpSession) : HttpSession :=
  MkHttp (underlying_stream s) (io s) (awaits s) (buf s) (raw_header s) x (body_reader s)
    (header_writer s) (tasks s) (current_writer s) (body_write_buf s) (body_bytes_sent s)
    (body_bytes_read s) (update_resp_headers s) (keepalive_timeout s) (read_timeout s)
    (write_timeout_ s) (total_drain_timeout s) (response_written s) (request_header s)
    (retry_buffer s) (upgraded s) (min_send_rate s) (ignore_info_resp_ s)
    (close_on_response_before_downstream_finish s) (keepalive_reuses_remaining s) (half_closed
    s) (abort_on_close s) (proxy_tasks_enabled s) (pipelining_enabled s) (limit s)
    (pipelined_prefix s) (pipelined_idle_bytes_stashed s).
Definition set_body_reader (x : BodyReader) (s : HttpSession) : HttpSession :=
  MkHttp (underlying_stream s) (io s) (awaits s) (buf s) (raw_header s) (preread_body s) x
    (header_writer s) (tasks s) (current_writer s) (body_write_buf s) (body_bytes_sent s)
    (body_bytes_read s) (update_resp_headers s) (keepalive_timeout s) (read_timeout s)
    (write_timeout_ s) (total_drain_timeout s) (response_written s) (request_header s)
    (retry_buffer s) (upgraded s) (min_send_rate s) (ignore_info_resp_ s)
    (close_on_response_before_downstream_finish s) (keepalive_reuses_remaining s) (half_closed
    s) (abort_on_close s) (proxy_tasks_enabled s) (pipelining_enabled s) (limit s)
    (pipelined_prefix s) (pipelined_idle_bytes_stashed s).
Definition set_header_writer (x : HeaderWriter) (s : HttpSession) : HttpSession :=
  MkHttp (underlying_stream s) (io s) (awaits s) (buf s) (raw_header s) (preread_body s)
    (body_reader s) x (tasks s) (current_writer s) (body_write_buf s) (body_bytes_sent s)
    (body_bytes_read s) (update_resp_headers s) (keepalive_timeout s) (read_timeout s)
    (write_timeout_ s) (total_drain_timeout s) (response_written s) (request_header s)
    (retry_buffer s) (upgraded s) (min_send_rate s) (ignore_info_resp_ s)
    (close_on_response_before_downstream_finish s) (keepalive_reuses_remaining s) (half_closed
    s) (abort_on_close s) (proxy_tasks_enabled s) (pipelining_enabled s) (limit s)
    (pipelined_prefix s) (pipelined_idle_bytes_stashed s).
Definition set_tasks (x : list HttpTask) (s : HttpSession) : HttpSession :=
  MkHttp (underlying_stream s) (io s) (awaits s) (buf s) (raw_header s) (preread_body s)
    (body_reader s) (header_writer s) x (current_writer s) (body_write_buf s) (body_bytes_sent
    s) (body_bytes_read s) (update_resp_headers s) (keepalive_timeout s) (read_timeout s)
    (write_timeout_ s) (total_drain_timeout s) (response_written s) (request_header s)
    (retry_buffer s) (upgraded s) (min_send_rate s) (ignore_info_resp_ s)
    (close_on_response_before_downstream_finish s) (keepalive_reuses_remaining s) (half_closed
    s) (abort_on_close s) (proxy_tasks_enabled s) (pipelining_enabled s) (limit s)
    (pipelined_prefix s) (pipelined_idle_bytes_stashed s).
Definition set_current_writer (x : option ProxyTaskWriter) (s : HttpSession) : HttpSession :=
  MkHttp (underlying_stream s) (io s) (awaits s) (buf s) (raw_header s) (preread_body s)
    (body_reader s) (header_writer s) (tasks s) x (body_write_buf s) (body_bytes_sent s)
    (body_bytes_read s) (update_resp_headers s) (keepalive_timeout s) (read_timeout s)
    (write_timeout_ s) (total_drain_timeout s) (response_written s) (request_header s)
    (retry_buffer s) (upgraded s) (min_send_rate s) (ignore_info_resp_ s)
    (close_on_response_before_downstream_finish s) (keepalive_reuses_remaining s) (half_closed
    s) (abort_on_close s) (proxy_tasks_enabled s) (pipelining_enabled s) (limit s)
    (pipelined_prefix s) (pipelined_idle_bytes_stashed s).
Definition set_body_write_buf (x : list byte) (s : HttpSession) : HttpSession :=
  MkHttp (underlying_stream s) (io s) (awaits s) (buf s) (raw_header s) (preread_body s)
    (body_reader s) (header_writer s) (tasks s) (current_writer s) x (body_bytes_sent s)
    (body_bytes_read s) (update_resp_headers s) (keepalive_timeout s) (read_timeout s)
    (write_timeout_ s) (total_drain_timeout s) (response_written s) (request_header s)
    (retry_buffer s) (upgraded s) (min_send_rate s) (ignore_info_resp_ s)
    (close_on_response_before_downstream_finish s) (keepalive_reuses_remaining s) (half_closed
    s) (abort_on_close s) (proxy_tasks_enabled s) (pipelining_enabled s) (limit s)
    (pipelined_prefix s) (pipelined_idle_bytes_stashed s).
Definition set_body_bytes_sent (x : Z) (s : HttpSession) : HttpSession :=
  MkHttp (underlying_stream s) (io s) (awaits s) (buf s) (raw_header s) (preread_body s)
    (body_reader s) (header_writer s) (tasks s) (current_writer s) (body_write_buf s) x
    (body_bytes_read s) (update_resp_headers s) (keepalive_timeout s) (read_timeout s)
    (write_timeout_ s) (total_drain_timeout s) (response_written s) (request_header s)
    (retry_buffer s) (upgraded s) (min_send_rate s) (ignore_info_resp_ s)
    (close_on_response_before_downstream_finish s) (keepalive_reuses_remaining s) (half_closed
    s) (abort_on_close s) (proxy_tasks_enabled s) (pipelining_enabled s) (limit s)
    (pipelined_prefix s) (pipelined_idle_bytes_stashed s).
Definition set_body_bytes_read (x : Z) (s : HttpSession) : HttpSession :=
  MkHttp (underlying_stream s) (io s) (awaits s) (buf s) (raw_header s) (preread_body s)
    (body_reader s) (header_writer s) (tasks s) (current_writer s) (body_write_buf s)
    (body_bytes_sent s) x (update_resp_headers s) (keepalive_timeout s) (read_timeout s)
    (write_timeout_ s) (total_drain_timeout s) (response_written s) (request_header s)
    (retry_buffer s) (upgraded s) (min_send_rate s) (ignore_info_resp_ s)
    (close_on_response_before_downstream_finish s) (keepalive_reuses_remaining s) (half_closed
    s) (abort_on_close s) (proxy_tasks_enabled s) (pipelining_enabled s) (limit s)
    (pipelined_prefix s) (pipelined_idle_bytes_stashed s).
Definition set_update_resp_headers (x : bool) (s : HttpSession) : HttpSession :=
  MkHttp (underlying_stream s) (io s) (awaits s) (buf s) (raw_header s) (preread_body s)
    (body_reader s) (header_writer s) (tasks s) (current_writer s) (body_write_buf s)
    (body_bytes_sent s) (body_bytes_read s) x (keepalive_timeout s) (read_timeout s)
    (write_timeout_ s) (total_drain_timeout s) (response_written s) (request_header s)
    (retry_buffer s) (upgraded s) (min_send_rate s) (ignore_info_resp_ s)
    (close_on_response_before_downstream_finish s) (keepalive_reuses_remaining s) (half_closed
    s) (abort_on_close s) (proxy_tasks_enabled s) (pipelining_enabled s) (limit s)
    (pipelined_prefix s) (pipelined_idle_bytes_stashed s).
Definition set_keepalive_timeout (x : KeepaliveStatus) (s : HttpSession) : HttpSession :=
  MkHttp (underlying_stream s) (io s) (awaits s) (buf s) (raw_header s) (preread_body s)
    (body_reader s) (header_writer s) (tasks s) (current_writer s) (body_write_buf s)
    (body_bytes_sent s) (body_bytes_read s) (update_resp_headers s) x (read_timeout s)
    (write_timeout_ s) (total_drain_timeout s) (response_written s) (request_header s)
    (retry_buffer s) (upgraded s) (min_send_rate s) (ignore_info_resp_ s)
    (close_on_response_before_downstream_finish s) (keepalive_reuses_remaining s) (half_closed
    s) (abort_on_close s) (proxy_tasks_enabled s) (pipelining_enabled s) (limit s)
    (pipelined_prefix s) (pipelined_idle_bytes_stashed s).
Definition set_read_timeout (x : option Z) (s : HttpSession) : HttpSession :=
  MkHttp (underlying_stream s) (io s) (awaits s) (buf s) (raw_header s) (preread_body s)
    (body_reader s) (header_writer s) (tasks s) (current_writer s) (body_write_buf s)
    (body_bytes_sent s) (body_bytes_read s) (update_resp_headers s) (keepalive_timeout s) x
    (write_timeout_ s) (total_drain_timeout s) (response_written s) (request_header s)
    (retry_buffer s) (upgraded s) (min_send_rate s) (ignore_info_resp_ s)
    (close_on_response_before_downstream_finish s) (keepalive_reuses_remaining s) (half_closed
    s) (abort_on_close s) (proxy_tasks_enabled s) (pipelining_enabled s) (limit s)
    (pipelined_prefix s) (pipelined_idle_bytes_stashed s).
Definition set_write_timeout (x : option Z) (s : HttpSession) : HttpSession :=
  MkHttp (underlying_stream s) (io s) (awaits s) (buf s) (raw_header s) (preread_body s)
    (body_reader s) (header_writer s) (tasks s) (current_writer s) (body_write_buf s)
    (body_bytes_sent s) (body_bytes_read s) (update_resp_headers s) (keepalive_timeout s)
    (read_timeout s) x (total_drain_timeout s) (response_written s) (request_header s)
    (retry_buffer s) (upgraded s) (min_send_rate s) (ignore_info_resp_ s)
    (close_on_response_before_downstream_finish s) (keepalive_reuses_remaining s) (half_closed
    s) (abort_on_close s) (proxy_tasks_enabled s) (pipelining_enabled s) (limit s)
    (pipelined_prefix s) (pipelined_idle_bytes_stashed s).
Definition set_total_drain_timeout (x : option Z) (s : HttpSession) : HttpSession :=
  MkHttp (underlying_stream s) (io s) (awaits s) (buf s) (raw_header s) (preread_body s)
    (body_reader s) (header_writer s) (tasks s) (current_writer s) (body_write_buf s)
    (body_bytes_sent s) (body_bytes_read s) (update_resp_headers s) (keepalive_timeout s)
    (read_timeout s) (write_timeout_ s) x (response_written s) (request_header s) (retry_buffer
    s) (upgraded s) (min_send_rate s) (ignore_info_resp_ s)
    (close_on_response_before_downstream_finish s) (keepalive_reuses_remaining s) (half_closed
    s) (abort_on_close s) (proxy_tasks_enabled s) (pipelining_enabled s) (limit s)
    (pipelined_prefix s) (pipelined_idle_bytes_stashed s).
Definition set_response_written (x : option (ResponseHeader hmap)) (s : HttpSession) : HttpSession :=
  MkHttp (underlying_stream s) (io s) (awaits s) (buf s) (raw_header s) (preread_body s)
    (body_reader s) (header_writer s) (tasks s) (current_writer s) (body_write_buf s)
    (body_bytes_sent s) (body_bytes_read s) (update_resp_headers s) (keepalive_timeout s)
    (read_timeout s) (write_timeout_ s) (total_drain_timeout s) x (request_header s)
    (retry_buffer s) (upgraded s) (min_send_rate s) (ignore_info_resp_ s)
    (close_on_response_before_downstream_finish s) (keepalive_reuses_remaining s) (half_closed
    s) (abort_on_close s) (proxy_tasks_enabled s) (pipelining_enabled s) (limit s)
    (pipelined_prefix s) (pipelined_idle_bytes_stashed s).
Definition set_request_header (x : option (RequestHeader hmap Uri)) (s : HttpSession) : HttpSession :=
  MkHttp (underlying_stream s) (io s) (awaits s) (buf s) (raw_header s) (preread_body s)
    (body_reader s) (header_writer s) (tasks s) (current_writer s) (body_write_buf s)
    (body_bytes_sent s) (body_bytes_read s) (update_resp_headers s) (keepalive_timeout s)
    (read_timeout s) (write_timeout_ s) (total_drain_timeout s) (response_written s) x
    (retry_buffer s) (upgraded s) (min_send_rate s) (ignore_info_resp_ s)
    (close_on_response_before_downstream_finish s) (keepalive_reuses_remaining s) (half_closed
    s) (abort_on_close s) (proxy_tasks_enabled s) (pipelining_enabled s) (limit s)
    (pipelined_prefix s) (pipelined_idle_bytes_stashed s).
Definition set_retry_buffer (x : option FixedBuffer) (s : HttpSession) : HttpSession :=
  MkHttp (underlying_stream s) (io s) (awaits s) (buf s) (raw_header s) (preread_body s)
    (body_reader s) (header_writer s) (tasks s) (current_writer s) (body_write_buf s)
    (body_bytes_sent s) (body_bytes_read s) (update_resp_headers s) (keepalive_timeout s)
    (read_timeout s) (write_timeout_ s) (total_drain_timeout s) (response_written s)
    (request_header s) x (upgraded s) (min_send_rate s) (ignore_info_resp_ s)
    (close_on_response_before_downstream_finish s) (keepalive_reuses_remaining s) (half_closed
    s) (abort_on_close s) (proxy_tasks_enabled s) (pipelining_enabled s) (limit s)
    (pipelined_prefix s) (pipelined_idle_bytes_stashed s).
Definition set_upgraded (x : bool) (s : HttpSession) : HttpSession :=
  MkHttp (underlying_stream s) (io s) (awaits s) (buf s) (raw_header s) (preread_body s)
    (body_reader s) (header_writer s) (tasks s) (current_writer s) (body_write_buf s)
    (body_bytes_sent s) (body_bytes_read s) (update_resp_headers s) (keepalive_timeout s)
    (read_timeout s) (write_timeout_ s) (total_drain_timeout s) (response_written s)
    (request_header s) (retry_buffer s) x (min_send_rate s) (ignore_info_resp_ s)
    (close_on_response_before_downstream_finish s) (keepalive_reuses_remaining s) (half_closed
    s) (abort_on_close s) (proxy_tasks_enabled s) (pipelining_enabled s) (limit s)
    (pipelined_prefix s) (pipelined_idle_bytes_stashed s).
Definition set_min_send_rate (x : option Z) (s : HttpSession) : HttpSession :=
  MkHttp (underlying_stream s) (io s) (awaits s) (buf s) (raw_header s) (preread_body s)
    (body_reader s) (header_writer s) (tasks s) (current_writer s) (body_write_buf s)
    (body_bytes_sent s) (body_bytes_read s) (update_resp_headers s) (keepalive_timeout s)
    (read_timeout s) (write_timeout_ s) (total_drain_timeout s) (response_written s)
    (request_header s) (retry_buffer s) (upgraded s) x (ignore_info_resp_ s)
    (close_on_response_before_downstream_finish s) (keepalive_reuses_remaining s) (half_closed
    s) (abort_on_close s) (proxy_tasks_enabled s) (pipelining_enabled s) (limit s)
    (pipelined_prefix s) (pipelined_idle_bytes_stashed s).
Definition set_ignore_info_resp (x : bool) (s : HttpSession) : HttpSession :=
  MkHttp (underlying_stream s) (io s) (awaits s) (buf s) (raw_header s) (preread_body s)
    (body_reader s) (header_writer s) (tasks s) (current_writer s) (body_write_buf s)
    (body_bytes_sent s) (body_bytes_read s) (update_resp_headers s) (keepalive_timeout s)
    (read_timeout s) (write_timeout_ s) (total_drain_timeout s) (response_written s)
    (request_header s) (retry_buffer s) (upgraded s) (min_send_rate s) x
    (close_on_response_before_downstream_finish s) (keepalive_reuses_remaining s) (half_closed
    s) (abort_on_close s) (proxy_tasks_enabled s) (pipelining_enabled s) (limit s)
    (pipelined_prefix s) (pipelined_idle_bytes_stashed s).
Definition set_close_on_response_before_downstream_finish (x : bool) (s : HttpSession) : HttpSession :=
  MkHttp (underlying_stream s) (io s) (awaits s) (buf s) (raw_header s) (preread_body s)
    (body_reader s) (header_writer s) (tasks s) (current_writer s) (body_write_buf s)
    (body_bytes_sent s) (body_bytes_read s) (update_resp_headers s) (keepalive_timeout s)
    (read_timeout s) (write_timeout_ s) (total_drain_timeout s) (response_written s)
    (request_header s) (retry_buffer s) (upgraded s) (min_send_rate s) (ignore_info_resp_ s) x
    (keepalive_reuses_remaining s) (half_closed s) (abort_on_close s) (proxy_tasks_enabled s)
    (pipelining_enabled s) (limit s) (pipelined_prefix s) (pipelined_idle_bytes_stashed s).
Definition set_keepalive_reuses_remaining (x : option Z) (s : HttpSession) : HttpSession :=
  MkHttp (underlying_stream s) (io s) (awaits s) (buf s) (raw_header s) (preread_body s)
    (body_reader s) (header_writer s) (tasks s) (current_writer s) (body_write_buf s)
    (body_bytes_sent s) (body_bytes_read s) (update_resp_headers s) (keepalive_timeout s)
    (read_timeout s) (write_timeout_ s) (total_drain_timeout s) (response_written s)
    (request_header s) (retry_buffer s) (upgraded s) (min_send_rate s) (ignore_info_resp_ s)
    (close_on_response_before_downstream_finish s) x (half_closed s) (abort_on_close s)
    (proxy_tasks_enabled s) (pipelining_enabled s) (limit s) (pipelined_prefix s)
    (pipelined_idle_bytes_stashed s).
Definition set_half_closed (x : bool) (s : HttpSession) : HttpSession :=
  MkHttp (underlying_stream s) (io s) (awaits s) (buf s) (raw_header s) (preread_body s)
    (body_reader s) (header_writer s) (tasks s) (current_writer s) (body_write_buf s)
    (body_bytes_sent s) (body_bytes_read s) (update_resp_headers s) (keepalive_timeout s)
    (read_timeout s) (write_timeout_ s) (total_drain_timeout s) (response_written s)
    (request_header s) (retry_buffer s) (upgraded s) (min_send_rate s) (ignore_info_resp_ s)
    (close_on_response_before_downstream_finish s) (keepalive_reuses_remaining s) x
    (abort_on_close s) (proxy_tasks_enabled s) (pipelining_enabled s) (limit s)
    (pipelined_prefix s) (pipelined_idle_bytes_stashed s).
Definition set_abort_on_close (x : bool) (s : HttpSession) : HttpSession :=
  MkHttp (underlying_stream s) (io s) (awaits s) (buf s) (raw_header s) (preread_body s)
    (body_reader s) (header_writer s) (tasks s) (current_writer s) (body_write_buf s)
    (body_bytes_sent s) (body_bytes_read s) (update_resp_headers s) (keepalive_timeout s)
    (read_timeout s) (write_timeout_ s) (total_drain_timeout s) (response_written s)
    (request_header s) (retry_buffer s) (upgraded s) (min_send_rate s) (ignore_info_resp_ s)
    (close_on_response_before_downstream_finish s) (keepalive_reuses_remaining s) (half_closed
    s) x (proxy_tasks_enabled s) (pipelining_enabled s) (limit s) (pipelined_prefix s)
    (pipelined_idle_bytes_stashed s).
Definition set_proxy_tasks_enabled (x : bool) (s : HttpSession) : HttpSession :=
  MkHttp (underlying_stream s) (io s) (awaits s) (buf s) (raw_header s) (preread_body s)
    (body_reader s) (header_writer s) (tasks s) (current_writer s) (body_write_buf s)
    (body_bytes_sent s) (body_bytes_read s) (update_resp_headers s) (keepalive_timeout s)
    (read_timeout s) (write_timeout_ s) (total_drain_timeout s) (response_written s)
    (request_header s) (retry_buffer s) (upgraded s) (min_send_rate s) (ignore_info_resp_ s)
    (close_on_response_before_downstream_finish s) (keepalive_reuses_remaining s) (half_closed
    s) (abort_on_close s) x (pipelining_enabled s) (limit s) (pipelined_prefix s)
    (pipelined_idle_bytes_stashed s).
Definition set_pipelining_enabled (x : bool) (s : HttpSession) : HttpSession :=
  MkHttp (underlying_stream s) (io s) (awaits s) (buf s) (raw_header s) (preread_body s)
    (body_reader s) (header_writer s) (tasks s) (current_writer s) (body_write_buf s)
    (body_bytes_sent s) (body_bytes_read s) (update_resp_headers s) (keepalive_timeout s)
    (read_timeout s) (write_timeout_ s) (total_drain_timeout s) (response_written s)
    (request_header s) (retry_buffer s) (upgraded s) (min_send_rate s) (ignore_info_resp_ s)
    (close_on_response_before_downstream_finish s) (keepalive_reuses_remaining s) (half_closed
    s) (abort_on_close s) (proxy_tasks_enabled s) x (limit s) (pipelined_prefix s)
    (pipelined_idle_bytes_stashed s).
Definition set_limit (x : HeaderLimit) (s : HttpSession) : HttpSession :=
  MkHttp (underlying_stream s) (io s) (awaits s) (buf s) (raw_header s) (preread_body s)
    (body_reader s) (header_writer s) (tasks s) (current_writer s) (body_write_buf s)
    (body_bytes_sent s) (body_bytes_read s) (update_resp_headers s) (keepalive_timeout s)
    (read_timeout s) (write_timeout_ s) (total_drain_timeout s) (response_written s)
    (request_header s) (retry_buffer s) (upgraded s) (min_send_rate s) (ignore_info_resp_ s)
    (close_on_response_before_downstream_finish s) (keepalive_reuses_remaining s) (half_closed
    s) (abort_on_close s) (proxy_tasks_enabled s) (pipelining_enabled s) x (pipelined_prefix s)
    (pipelined_idle_bytes_stashed s).
Definition set_pipelined_prefix (x : option (list byte)) (s : HttpSession) : HttpSession :=
  MkHttp (underlying_stream s) (io s) (awaits s) (buf s) (raw_header s) (preread_body s)
    (body_reader s) (header_writer s) (tasks s) (current_writer s) (body_write_buf s)
    (body_bytes_sent s) (body_bytes_read s) (update_resp_headers s) (keepalive_timeout s)
    (read_timeout s) (write_timeout_ s) (total_drain_timeout s) (response_written s)
    (request_header s) (retry_buffer s) (upgraded s) (min_send_rate s) (ignore_info_resp_ s)
    (close_on_response_before_downstream_finish s) (keepalive_reuses_remaining s) (half_closed
    s) (abort_on_close s) (proxy_tasks_enabled s) (pipelining_enabled s) (limit s) x
    (pipelined_idle_bytes_stashed s).
Definition set_pipelined_idle_bytes_stashed (x : bool) (s : HttpSession) : HttpSession :=
  MkHttp (underlying_stream s) (io s) (awaits s) (buf s) (raw_header s) (preread_body s)
    (body_reader s) (header_writer s) (tasks s) (current_writer s) (body_write_buf s)
    (body_bytes_sent s) (body_bytes_read s) (update_resp_headers s) (keepalive_timeout s)
    (read_timeout s) (write_timeout_ s) (total_drain_timeout s) (response_written s)
    (request_header s) (retry_buffer s) (upgraded s) (min_send_rate s) (ignore_info_resp_ s)
    (close_on_response_before_downstream_finish s) (keepalive_reuses_remaining s) (half_closed
    s) (abort_on_close s) (proxy_tasks_enabled s) (pipelining_enabled s) (limit s)
    (pipelined_prefix s) x.

Definition SM (A : Type) : Type := M HttpSession Error A.

Definition upd (f : HttpSession -> HttpSession) : SM unit := modify f.

Definition http_new (stream : list rd_event) (w : writer_io) (awaits : list bool) : HttpSession :=
  MkHttp stream (set_wr writer_new w) awaits [] None None (BodyReader.new false) header_writer_new [] None
    [] 0 0 true KOff (Some 60000) None None None None None false None false true None false true false
    false DEFAULT_HEADER_LIMIT None false.

(** ** The stream *)

(** One read of at most so many bytes; [inr tt]: an I/O error. *)
Definition stream_read (max : option Z) : SM (list byte + unit) :=
  fun s =>
    match underlying_stream s with
    | [] => Val (inl []) s
    | RPend :: st => Cancelled (set_underlying_stream st s)
    | RErr :: st => Val (inr tt) (set_underlying_stream st s)
    | RData bs :: st =>
        match max with
        | None => Val (inl bs) (set_underlying_stream st s)
        | Some n =>
            let later := zdrop n bs in
            Val (inl (ztake n bs))
              (set_underlying_stream (if bool_decide (later = []) then st else RData later :: st) s)
        end
    end.

Definition on_reader {A} (m : RM A) : SM A :=
  fun s =>
    let keep r := set_body_reader r.1 (set_underlying_stream r.2 s) in
    match m (body_reader s, underlying_stream s) with
    | Val a r => Val a (keep r)
    | Fail e r => Fail (Errors.new e) (keep r)
    | Cancelled r => Cancelled (keep r)
    | Panic => Panic
    end.

Definition on_writer {A} (m : WM A) : SM A :=
  fun s =>
    match m (io s) with
    | Val a w => Val a (set_io w s)
    | Fail e w => Fail (Errors.new e) (set_io w s)
    | Cancelled w => Cancelled (set_io w s)
    | Panic => Panic
    end.

Definition on_header_writer {A} (m : HWM A) : SM A :=
  fun s =>
    let keep h := set_header_writer h.1 (set_io h.2 s) in
    match m (header_writer s, io s) with
    | Val a h => Val a (keep h)
    | Fail e h => Fail (Errors.new e) (keep h)
    | Cancelled h => Cancelled (keep h)
    | Panic => Panic
    end.

Definition map_err {A} (f : Error -> Error) (m : SM A) : SM A :=
  fun s => match m s with Fail e s' => Fail (f e) s' | r => r end.

(** [timeout(t, m).await]: [None] when the timer fires while [m] is pending. *)
Definition on_timer {A} (t : option Z) (m : SM A) : SM (option A) :=
  match t with
  | None => let! a := m in ret (Some a)
  | Some _ =>
      fun s =>
        match m s with
        | Val a s' => Val (Some a) s'
        | Fail e s' => Fail e s'
        | Cancelled s' =>
            match awaits s' with
            | true :: rest => Val None (set_awaits rest s')
            | _ :: rest => Cancelled (set_awaits rest s')
            | [] => Cancelled s'
            end
        | Panic => Panic
        end
  end.

Definition with_timeout {A} (t : option Z) (e : Error) (m : SM A) : SM A :=
  let! r := on_timer t m in
  match r with Some a => ret a | None => fail e end.

(** [std::future::pending().await]: never ready. *)
Definition pending {A} : SM A := fun s => Cancelled s.

(** ** Keepalive *)

Definition set_keepalive (seconds : option Z) (s : HttpSession) : HttpSession :=
  set_keepalive_timeout
    match seconds with
    | Some sec => if 0 <? sec then KTimeout (sec * 1000) else KInfinite
    | None => KOff
    end s.

Definition get_keepalive_timeout (s : HttpSession) : option Z :=
  match keepalive_timeout s with
  | KTimeout d => Some (d / 1000)
  | KInfinite => Some 0
  | KOff => None
  end.

Definition will_keepalive (s : HttpSession) : bool :=
  match keepalive_timeout s, keepalive_reuses_remaining s with
  | KOff, _ => false
  | _, Some 0 => false
  | _, _ => true
  end.

Definition get_header (name : list byte) (s : HttpSession) : option (list byte) :=
  r ← request_header s; hm_get (req_headers r) name.

Definition get_method (s : HttpSession) : option (list byte) := req_method <$> request_header s.

Definition is_connection_keepalive (s : HttpSession) : option bool :=
  is_buf_keepalive (get_header h_connection s).

(** [get_keepalive_values] is [(None, None)]. *)
Definition respect_keepalive : SM unit :=
  let! s := get in
  match is_connection_keepalive s with
  | Some true => upd (set_keepalive (Some 0))
  | Some false => upd (set_keepalive None)
  | None =>
      let! req := unwrap (request_header s) in
      upd (set_keepalive (if bool_decide (req_version req = HTTP_11) then Some 0 else None))
  end.

Definition set_server_keepalive (keepalive : option Z) (s : HttpSession) : HttpSession :=
  match is_connection_keepalive s with
  | Some false => set_keepalive None s
  | _ => set_keepalive keepalive s
  end.

(** ** Reading the request *)

Definition read_request_buf (already_read : Z) : SM (option (list byte)) :=
  let! s := get in
  let! read_result :=
    match keepalive_timeout s with
    | KTimeout d => on_timer (Some d) (stream_read None)
    | KInfinite => on_timer None (stream_read None)
    | KOff =>
        let! r := with_timeout (read_timeout s) (explain ReadTimedout "timeout") (stream_read None) in
        ret (Some r)
    end in
  match read_result with
  | None => ret None
  | Some (inl []) =>
      if 0 <? already_read then fail (explain ConnectionClosed "while reading request headers")
      else ret None
  | Some (inl bytes) => ret (Some bytes)
  | Some (inr _) =>
      if 0 <? already_read then
        fail (because ReadError "while reading request headers" (Foreign "I/O error"))
      else ret None
  end.

Definition validate_request : SM unit :=
  let! s := get in
  let! req := unwrap (request_header s) in
  match validate_request_authority req with
  | inr e => fail e
  | inl _ =>
      match validate_content_length (req_headers req) with
      | inr e => fail e
      | inl _ =>
          if hm_contains_key (req_headers req) h_transfer_encoding then
            if bool_decide (req_version req = HTTP_10) then
              fail (explain InvalidHTTPHeader "HTTP/1.0 requests cannot include Transfer-Encoding header")
            else if negb (is_chunked_encoding_from_headers (req_headers req)) then
              fail (explain InvalidHTTPHeader "non-chunked final Transfer-Encoding")
            else ret tt
          else ret tt
      end
  end.

(** The fields parsed, appended one by one; [None]: an offset is out of range. *)
Fixpoint append_headers (refs : list KVRef) (buf : list byte) (req : RequestHeader hmap Uri)
    : option (RequestHeader hmap Uri + Error) :=
  match refs with
  | [] => Some (inl req)
  | r :: refs =>
      name ← get_name_bytes r buf;
      value ← get_value_bytes r buf;
      let '(req, res) := req_append_header (FromText name) value req in
      match res with
      | inl _ => append_headers refs buf req
      | inr e => Some (inr (because InvalidHTTPHeader "while parsing request header" (BErr e)))
      end
  end.

Definition version_of (v : option Z) : Version :=
  match v with Some 1 => HTTP_11 | Some 0 => HTTP_10 | _ => HTTP_09 end.

Definition has_both_te_and_cl (req : RequestHeader hmap Uri) : bool :=
  hm_contains_key (req_headers req) h_content_length &&
  hm_contains_key (req_headers req) h_transfer_encoding.

(** A complete head of [n] bytes at the front of [b]. *)
Definition request_parsed (n : Z) (p : ParsedRequest) (b : list byte) (detached_suffix : option (list byte))
    : SM Z :=
  do! upd (set_raw_header (Some (BufRefMk 0 n)));
  let header_refs := populate_headers (pr_headers p) in
  match req_build (default [] (pr_method p)) (default [] (pr_path p)) with
  | inr e => fail e
  | inl req =>
      let req := set_version (version_of (pr_version p)) req in
      let! preread := (if n =? zlen b then ret (default [] detached_suffix)
                       else unwrap ((fun rest => rest ++ default [] detached_suffix) <$> slice b n (zlen b))) in
      let b := ztake n b in
      let! built := unwrap (append_headers header_refs b req) in
      match built with
      | inr e => fail e
      | inl req =>
          let both := has_both_te_and_cl req in
          let req := if both then (req_remove_header h_content_length req).1 else req in
          do! upd (set_buf b);
          do! upd (set_preread_body (Some preread));
          do! upd (set_request_header (Some req));
          do! upd (fun s => set_body_reader (reinit (body_reader s)) s);
          do! upd (set_pipelined_idle_bytes_stashed false);
          do! upd (set_response_written None);
          do! respect_keepalive;
          do! (if both then upd (set_keepalive None) else ret tt);
          do! validate_request;
          ret n
      end
  end.

(** The position of the first blank line. *)
Fixpoint find_section_end (b : list byte) : option Z :=
  if bool_decide (take 4 b = HEADER_SECTION_END) then Some 0
  else match b with [] => None | _ :: b => Z.succ <$> find_section_end b end.

Definition invalid_head (e : ParseError) : Error :=
  because InvalidHTTPHeader "buf" (Foreign "parse error").

(** The inner loop: parse, or escape the request line and parse again.  [inl]:
    the request is read; [inr]: more bytes are needed. *)
Fixpoint parse_loop (fuel : nat) (b : list byte) (detached_suffix : option (list byte))
    : SM (Z + list byte * option (list byte)) :=
  match fuel with
  | O => panic
  | S fuel =>
      let! s := get in
      match parse_head httparse_request b (limit s) with
      | inl (PComplete n p) => let! n := request_parsed n p b detached_suffix in ret (inl n)
      | inl PPartial => ret (inr (b, detached_suffix))
      | inr e =>
          if bool_decide (e = PToken) || bool_decide (e = PVersion) then
            let '(b, detached_suffix) :=
              match detached_suffix, find_section_end b with
              | None, Some separator_start =>
                  (ztake (separator_start + 4) b, Some (zdrop (separator_start + 4) b))
              | _, _ => (b, detached_suffix)
              end in
            match escape_illegal_request_line b with
            | Some new_buf => parse_loop fuel new_buf detached_suffix
            | None => fail (invalid_head e)
            end
          else fail (invalid_head e)
      end
  end.

Fixpoint read_request_loop (fuel : nat) (b : list byte) (detached_suffix : option (list byte))
    (already_read : Z) (skip_next_read : bool) : SM (option Z) :=
  match fuel with
  | O => panic
  | S fuel' =>
      if MAX_HEADER_SIZE <? already_read then
        fail (explain InvalidHTTPHeader "Request header larger than the maximum")
      else
        let! more := (if skip_next_read then ret (Some []) else read_request_buf already_read) in
        match more with
        | None => ret None
        | Some bytes =>
            let! r := parse_loop fuel (b ++ bytes) detached_suffix in
            match r with
            | inl n => ret (Some n)
            | inr (b, detached_suffix) => read_request_loop fuel' b detached_suffix (zlen b) false
            end
        end
  end.

(** [tokio::task::consume_budget]: an [.await] that can be pending. *)
Definition consume_budget : SM unit :=
  fun s => match awaits s with
           | true :: rest => Cancelled (set_awaits rest s)
           | _ :: rest => Val tt (set_awaits rest s)
           | [] => Val tt s
           end.

Definition read_request (fuel : nat) : SM (option Z) :=
  do! upd (set_buf []);
  let! s := get in
  do! (match pipelined_prefix s with
       | Some (_ :: _) => consume_budget
       | _ => ret tt
       end);
  let! s := get in
  let b := default [] (pipelined_prefix s) in
  do! upd (set_pipelined_prefix None);
  read_request_loop fuel b None (zlen b) (negb (zlen b =? 0)).

(** ** The request body *)

Definition is_chunked_encoding (req : RequestHeader hmap Uri) : bool :=
  is_chunked_encoding_from_headers (req_headers req).

Definition init_body_reader : SM unit :=
  let! s := get in
  if need_init (body_reader s) then
    do! upd (fun s => set_retry_buffer (fixed_clear <$> retry_buffer s) s);
    let preread := default [] (preread_body s) in
    do! upd (set_preread_body None);
    let! init :=
      (if upgraded s then ret (init_close_delimited_owned preread)
       else
         let! req := unwrap (request_header s) in
         if is_chunked_encoding req then ret (init_chunked_owned preread)
         else
           let cl := match content_length_for_framing (req_headers req) with inl cl => cl | inr _ => None end in
           ret (init_content_length_owned (default 0 cl) preread)) in
    upd (fun s => set_body_reader (init (body_reader s)) s)
  else ret tt.

Definition do_read_body : SM (option BufRef) :=
  do! init_body_reader;
  on_reader (BodyReader.read_body parse_chunk_size).

Definition read_body : SM (option BufRef) :=
  let! s := get in
  with_timeout (read_timeout s) (explain ReadTimedout "reading body") do_read_body.

Definition read_body_bytes : SM (option (list byte)) :=
  let! read := read_body in
  match read with
  | None => ret None
  | Some b =>
      let! s := get in
      let! bytes := unwrap (get_body (body_reader s) b) in
      do! upd (fun s => set_body_bytes_read (wadd (body_bytes_read s) (zlen bytes)) s);
      do! upd (fun s => set_retry_buffer (write_to_buffer bytes <$> retry_buffer s) s);
      ret (Some bytes)
  end.

Definition is_body_done : SM bool :=
  do! init_body_reader;
  let! s := get in ret (body_done (body_reader s)).
Definition is_body_complete : SM bool :=
  do! init_body_reader;
  let! s := get in ret (body_complete (body_reader s)).
Definition is_body_empty : SM bool :=
  do! init_body_reader;
  let! s := get in ret (body_empty (body_reader s)).

Fixpoint do_drain_request_body (fuel : nat) : SM unit :=
  match fuel with
  | O => panic
  | S fuel =>
      let! r := read_body_bytes in
      match r with
      | Some _ => do_drain_request_body fuel
      | None => ret tt
      end
  end.

Definition drain_request_body (fuel : nat) : SM unit :=
  let! done := is_body_done in
  if done then ret tt
  else
    let! s := get in
    with_timeout (total_drain_timeout s) (explain ReadTimedout "draining body") (do_drain_request_body fuel).

Definition enable_retry_buffering (s : HttpSession) : HttpSession :=
  match retry_buffer s with
  | None => set_retry_buffer (Some (fixed_new BODY_BUF_LIMIT)) s
  | Some _ => s
  end.
Definition retry_buffer_truncated (s : HttpSession) : bool :=
  match retry_buffer s with Some b => fb_truncated b | None => false end.
Definition get_retry_buffer (s : HttpSession) : option (list byte) :=
  b ← retry_buffer s; if fb_truncated b then None else fixed_get_buffer b.

(** ** The response header *)

Definition is_informational (status : Z) : bool := (100 <=? status) && (status <? 200).

Definition session_is_upgrade_req (s : HttpSession) : bool :=
  match request_header s with Some req => is_upgrade_req req | None => false end.
Definition session_is_expect_continue_req (s : HttpSession) : bool :=
  match request_header s with Some req => is_expect_continue_req req | None => false end.
Definition is_upgrade (header : ResponseHeader hmap) (s : HttpSession) : option bool :=
  if session_is_upgrade_req s then Some (is_upgrade_resp header) else None.

Definition ignore_info_resp (status : Z) (s : HttpSession) : bool :=
  ignore_info_resp_ s && negb (status =? 101) &&
  negb ((status =? 100) && session_is_expect_continue_req s).

(** The timeout of a write, in milliseconds. *)
Definition write_timeout (buf_len : Z) (s : HttpSession) : option Z :=
  match min_send_rate s with
  | Some rate =>
      if 0 <? rate then
        Some (f64_to_u64 (f64_mul (f64_div (f64_of_Z (Z.max buf_len rate)) (f64_of_Z rate)) (f64_of_Z 1000)))
      else write_timeout_ s
  | None => write_timeout_ s
  end.

Definition set_session_min_send_rate (rate : option Z) (s : HttpSession) : HttpSession :=
  set_min_send_rate (match rate with Some r => if 0 <? r then Some r else None | None => None end) s.

Definition http_resp_header_to_buf (resp : ResponseHeader hmap) : option (option (list byte)) :=
  match resp_version resp with
  | HTTP_2 => Some None
  | v =>
      let version := bytes_of match v with
                              | HTTP_09 => "HTTP/0.9 " | HTTP_10 => "HTTP/1.0 " | _ => "HTTP/1.1 "
                              end in
      wire ← header_to_h1_wire (resp_maps resp);
      Some (Some (version ++ decimal (resp_status resp) ++ bytes_of " " ++
                  default [] (get_reason_phrase resp) ++ CRLF ++ wire ++ CRLF))
  end.

Definition init_body_writer (header : ResponseHeader hmap) (s : HttpSession) : HttpSession :=
  let upd_writer f := set_io (set_wr (f (wr (io s))) (io s)) s in
  let status := resp_status header in
  if bool_decide (status ∈ [204; 304]) || bool_decide (get_method s = Some (bytes_of "HEAD")) then
    upd_writer (writer_init_content_length 0)
  else if is_informational status && negb (status =? 101) then s
  else if bool_decide (is_upgrade header s = Some true) then upd_writer writer_init_close_delimited
  else upd_writer (init_body_writer_comm (resp_headers header)).

Definition insert_resp_header (name value : list byte) (header : ResponseHeader hmap)
    : SM (ResponseHeader hmap) :=
  let! r := unwrap (resp_insert_header (FromHeaderName name) value header) in
  match r.2 with inl _ => ret r.1 | inr e => fail e end.

(** The Date and Connection fields of a final response. *)
Definition update_headers (header : ResponseHeader hmap) : SM (ResponseHeader hmap) :=
  let! s := get in
  if negb (is_informational (resp_status header)) && update_resp_headers s then
    let! header := insert_resp_header h_date cached_date header in
    insert_resp_header h_connection (bytes_of (if will_keepalive s then "keep-alive" else "close")) header
  else ret header.

(** What a final response or a 101 does to the reader and the writer. *)
Definition start_response (header : ResponseHeader hmap) : SM unit :=
  let! s := get in
  do! (if bool_decide (is_upgrade header s = Some true) then
         do! upd (set_upgraded true);
         let! s := get in
         if need_init (body_reader s) then init_body_reader
         else upd (fun s => set_body_reader (convert_to_close_delimited (body_reader s)) s)
       else ret tt);
  upd (init_body_writer header).

Definition prepare_response_header (header : ResponseHeader hmap)
    : SM (option (ResponseHeader hmap * list byte * bool)) :=
  let! s := get in
  let status := resp_status header in
  if is_informational status && ignore_info_resp status s then ret None
  else if match response_written s with
          | Some resp => negb (is_informational (resp_status resp)) || upgraded s
          | None => false
          end then ret None
  else
    do! (if close_on_response_before_downstream_finish s then
           let! unfinished :=
             (match request_header s with
              | None => ret true
              | Some _ => let! done := is_body_done in ret (negb done)
              end) in
           if (unfinished : bool) then upd (set_keepalive None) else ret tt
         else ret tt);
    let! header := update_headers header in
    do! (if status =? 101 then upd (set_keepalive None) else ret tt);
    do! (if (status =? 101) || negb (is_informational status) then start_response header else ret tt);
    let! s := get in
    do! (if is_close_delimited (wr (io s)) then upd (set_keepalive None) else ret tt);
    let! wire := unwrap (http_resp_header_to_buf header) in
    match wire with
    | None => fail (explain WriteError "serializing response header")
    | Some write_buf =>
        let should_flush := is_informational status ||
                            negb (bool_decide (is_Some (hm_get (resp_headers header) h_content_length))) in
        ret (Some (header, write_buf, should_flush))
    end.

Definition write_response_header (header : ResponseHeader hmap) : SM unit :=
  let! p := prepare_response_header header in
  match p with
  | None => ret tt
  | Some (header, write_buf, flush) =>
      do! on_writer (write_all write_buf);
      let! s := get in
      do! (if flush || finished (wr (io s)) then on_writer poll_flush else ret tt);
      upd (set_response_written (Some header))
  end.

Definition write_continue_response : SM unit :=
  let! s := get in
  match response_written s with
  | None => match resp_build 100 with inl h => write_response_header h | inr _ => panic end
  | Some _ => ret tt
  end.

(** ** The response body *)

Definition count_sent (written : option Z) : SM unit :=
  match written with
  | Some n => upd (fun s => set_body_bytes_sent (wadd (body_bytes_sent s) n) s)
  | None => ret tt
  end.

Definition do_write_body (b : list byte) : SM (option Z) :=
  let! written := on_writer (BodyWriter.write_body b) in
  do! count_sent written;
  ret written.

Definition write_body (b : list byte) : SM (option Z) :=
  let! s := get in
  with_timeout (write_timeout (zlen b) s) (explain WriteTimedout "writing body") (do_write_body b).

(** The buffer is cleared whatever the result is. *)
Definition do_write_body_buf : SM (option Z) :=
  let! s := get in
  if bool_decide (body_write_buf s = []) then ret None
  else
    fun s =>
      match on_writer (BodyWriter.write_body (body_write_buf s)) s with
      | Val written s' => (do! count_sent written; do! upd (set_body_write_buf []); ret written) s'
      | Fail e s' => Fail e (set_body_write_buf [] s')
      | r => r
      end.

Definition write_body_buf : SM (option Z) :=
  let! s := get in
  with_timeout (write_timeout (zlen (body_write_buf s)) s) (explain WriteTimedout "writing body")
    do_write_body_buf.

Definition maybe_force_close_body_reader (s : HttpSession) : HttpSession :=
  if upgraded s && negb (body_done (body_reader s))
  then set_body_reader (init_content_length 0 [] (body_reader s)) s else s.

Definition finish_body : SM (option Z) :=
  let! res := on_writer BodyWriter.finish in
  do! on_writer poll_flush;
  do! upd maybe_force_close_body_reader;
  ret res.

Definition has_pending_proxy_tasks (s : HttpSession) : bool :=
  bool_decide (is_Some (current_writer s)) || negb (bool_decide (tasks s = [])).

Definition is_response_complete (s : HttpSession) : bool :=
  match response_written s with Some h => negb (is_informational (resp_status h)) | None => false end &&
  negb (has_pending_proxy_tasks s) && finished (wr (io s)).

(** ** Proxied responses *)

Definition write_non_empty_body (data : option (list byte)) (is_upgraded : bool) : SM unit :=
  let! s := get in
  do! assert (Bool.eqb is_upgraded (upgraded s));
  match data with
  | None | Some [] => ret tt
  | Some d => let! _ := map_err as_down (write_body d) in ret tt
  end.

Definition response_duplex (task : HttpTask) : SM bool :=
  let! end_stream :=
    match task with
    | THeader header end_stream =>
        do! map_err as_down (write_response_header header); ret end_stream
    | TBody data end_stream => do! write_non_empty_body data false; ret end_stream
    | TUpgradedBody data end_stream => do! write_non_empty_body data true; ret end_stream
    | TTrailer | TDone => ret true
    | TFailed e => fail e
    end in
  let! _ := (if (end_stream : bool) then map_err as_down finish_body else ret None) in
  let! s := get in
  ret (end_stream || finished (wr (io s))).

Definition buffer_body_data (data : option (list byte)) (is_upgraded : bool) : SM unit :=
  let! s := get in
  do! assert (Bool.eqb is_upgraded (upgraded s));
  match data with
  | None => ret tt
  | Some d =>
      if negb (bool_decide (d = [])) && negb (finished (wr (io s)))
      then upd (set_body_write_buf (body_write_buf s ++ d)) else ret tt
  end.

Fixpoint duplex_tasks (ts : list HttpTask) (end_stream : bool) : SM bool :=
  match ts with
  | [] => ret end_stream
  | task :: ts =>
      let! end_stream :=
        match task with
        | THeader header end_stream =>
            do! map_err as_down (write_response_header header); ret end_stream
        | TBody data end_stream => do! buffer_body_data data false; ret end_stream
        | TUpgradedBody data end_stream => do! buffer_body_data data true; ret end_stream
        | TTrailer | TDone => ret true
        | TFailed e =>
            let! _ := map_err as_down write_body_buf in
            do! on_writer poll_flush;
            fail e
        end in
      duplex_tasks ts end_stream
  end.

Definition response_duplex_vec (ts : list HttpTask) : SM bool :=
  match ts with
  | [task] => response_duplex task
  | _ =>
      let! end_stream := duplex_tasks ts false in
      let! _ := map_err as_down write_body_buf in
      let! _ := (if (end_stream : bool) then map_err as_down finish_body else ret None) in
      let! s := get in
      ret (end_stream || finished (wr (io s)))
  end.

(** ** The cancel-safe task interface *)

Definition send_proxy_task (task : HttpTask) (s : HttpSession) : HttpSession :=
  set_tasks (tasks s ++ [task]) s.

(** Resume the write in progress. *)
Definition resume_writer (w : ProxyTaskWriter) : SM unit :=
  match w with
  | WritingHeader _ _ =>
      let! _ := map_err as_down (on_header_writer poll_write_current_header_task) in ret tt
  | WritingBody _ =>
      let! written := map_err as_down (on_writer poll_write_current_body_task) in
      count_sent written
  | FinishingBody =>
      let! _ := map_err as_down (on_writer poll_write_current_finish_task) in ret tt
  end.

Definition start_body_task (data : option (list byte)) (end_stream : bool) : SM (option bool) :=
  match data with
  | None | Some [] => ret (Some end_stream)
  | Some d =>
      let! s := get in
      let! w := unwrap (send_body_task d (write_timeout (zlen d) s) (wr (io s))) in
      do! upd (fun s => set_io (set_wr w (io s)) s);
      do! upd (set_current_writer (Some (WritingBody end_stream)));
      ret None
  end.

(** Start the next task; [Some end_stream]: there is nothing to write for it. *)
Definition start_task (task : HttpTask) : SM (option bool) :=
  match task with
  | THeader header end_stream =>
      let! p := prepare_response_header header in
      match p with
      | None => ret (Some end_stream)
      | Some (header, write_buf, should_flush) =>
          let! s := get in
          let flush := should_flush || finished (wr (io s)) in
          let! h := unwrap (send_header_task write_buf flush None (header_writer s)) in
          do! upd (set_header_writer h);
          do! upd (set_current_writer (Some (WritingHeader header end_stream)));
          ret None
      end
  | TBody data end_stream =>
      let! s := get in
      do! assert (negb (upgraded s)); start_body_task data end_stream
  | TUpgradedBody data end_stream =>
      let! s := get in
      do! assert (upgraded s); start_body_task data end_stream
  | TTrailer | TDone => ret (Some true)
  | TFailed e => fail e
  end.

Fixpoint write_tasks_loop (fuel : nat) (end_stream : bool) : SM bool :=
  match fuel with
  | O => panic
  | S fuel =>
      let! s := get in
      match current_writer s with
      | Some w =>
          do! resume_writer w;
          do! upd (set_current_writer None);
          match w with
          | WritingHeader header e =>
              do! upd (set_response_written (Some header)); write_tasks_loop fuel e
          | WritingBody e => write_tasks_loop fuel e
          | FinishingBody => do! upd maybe_force_close_body_reader; ret true
          end
      | None =>
          match tasks s with
          | [] =>
              if end_stream then
                do! upd (fun s => set_io (set_wr (send_finish_task (wr (io s))) (io s)) s);
                do! upd (set_current_writer (Some FinishingBody));
                write_tasks_loop fuel end_stream
              else ret end_stream
          | task :: ts =>
              do! upd (set_tasks ts);
              let! r := start_task task in
              write_tasks_loop fuel (default end_stream r)
          end
      end
  end.

Definition write_proxy_tasks (fuel : nat) : SM bool :=
  let! end_stream := write_tasks_loop fuel false in
  let! s := get in
  ret (end_stream || finished (wr (io s))).

(** ** Idling and reuse *)

Definition read_idle_probe (context : string) : SM (list byte) :=
  let! r := stream_read (Some 1) in
  match r with
  | inl probe => ret probe
  | inr _ => fail (because ReadError context (Foreign "I/O error"))
  end.

Definition idle : SM Z :=
  let! probe := read_idle_probe "during HTTP idle state" in ret (zlen probe).

Definition closed_early (s : HttpSession) : Error :=
  explain ConnectionClosed
    (match response_written s with
     | None => "Prematurely before response header is sent"
     | Some _ => "Prematurely before response body is complete"
     end).

Definition read_body_or_idle (no_body_expected : bool) : SM (option (list byte)) :=
  let! done := (if no_body_expected then ret true else is_body_done) in
  let! s := get in
  if (done : bool) then
    if half_closed s then
      if abort_on_close s then fail (closed_early s) else pending
    else if pipelining_enabled s && pipelined_idle_bytes_stashed s then pending
    else
      let! probe := read_idle_probe "during HTTP body-or-idle state" in
      match probe with
      | [] =>
          do! upd (set_half_closed true);
          do! upd (set_keepalive None);
          let! s := get in
          if abort_on_close s then fail (closed_early s) else pending
      | _ =>
          if pipelining_enabled s then
            do! upd (fun s => set_body_reader (push_body_overread probe (body_reader s)) s);
            do! upd (set_pipelined_idle_bytes_stashed true);
            pending
          else fail (explain ConnectError "Sent data after end of body")
      end
  else read_body_bytes.

Record ReusableHttpStream := MkReusable {
  reusable_stream : list rd_event;
  reusable_prefix : option (list byte)
}.

(** [None]: the connection is shut down or closed. *)
Definition reuse (fuel : nat) : SM (option ReusableHttpStream) :=
  let! s := get in
  if negb (will_keepalive s) then ret None
  else
    do! drain_request_body fuel;
    let! s := get in
    if has_bytes_overread (body_reader s) && negb (pipelining_enabled s) then ret None
    else
      let pipelined_prefix :=
        if pipelining_enabled s then
          match (take_body_overread (body_reader s)).1 with
          | Some (_ :: _) as prefix => prefix
          | _ => None
          end
        else None in
      ret (Some (MkReusable (underlying_stream s) pipelined_prefix)).

End session.
End Server.
