(* ===== verification/H1ServerSpec.v ===== *)
(** * HTTP/1 server session: theorems *)

From stdpp Require Import base list numbers strings.
From Stdlib Require Import ZArith Lia.
From S2P Require Import Prelude Errors Text Headers Parser BodyReader BodyReaderSafety BodyDecode BodySpec BodyFraming BodySteady.
From S2P Require Import BodyWriter HeaderWriter Framing HeadersSpec FramingSpec H1Server.
Local Open Scope Z_scope.

(** ** Requests *)

Section server.
Context {hmap : Type -> Type} `{HM : HMap hmap, HL : !HMapLaws hmap} {Uri : Type} `{HC : HttpCrate Uri}
  `{RL : RequestLine}.
Context (httparse_request : Z -> list byte -> ParseStatus ParsedRequest + ParseError).
Context (parse : list byte -> chunk_status).

Abbreviation Sess := (@Server.HttpSession hmap Uri).
Abbreviation Req := (RequestHeader hmap Uri).

(** What a request says about its framing, after RFC 9112, section 6. *)
Record validated (req : Req) : Prop := {
  va_authority : validate_request_authority req = inl tt;
  va_chunked : hm_contains_key (req_headers req) h_transfer_encoding = true ->
    req_version req <> HTTP_10 /\ is_chunked_encoding_from_headers (req_headers req) = true /\
    hm_get_all (req_headers req) h_content_length = [];
  va_length : hm_contains_key (req_headers req) h_transfer_encoding = false ->
    exists cl, content_length_for_framing (req_headers req) = inl cl
}.

Definition request_framing (req : Req) : Framing :=
  if hm_contains_key (req_headers req) h_transfer_encoding then FChunked
  else FLength (default 0 (content_length_parse_all (req_headers req))).

Lemma request_framing_not_close req : request_framing req <> FClose.
Proof. unfold request_framing. by destruct (hm_contains_key _ _). Qed.

(** The keepalive a request asks for; never after both ways of framing. *)
Definition request_keepalive (req : Req) (both : bool) : KeepaliveStatus :=
  if both then KOff
  else match is_buf_keepalive (hm_get (req_headers req) h_connection) with
       | Some true => KInfinite
       | Some false => KOff
       | None => if bool_decide (req_version req = HTTP_11) then KInfinite else KOff
       end.

(** The header a complete head parses to: without the Content-Length fields if
    there is a Transfer-Encoding too. *)
Definition request_of (p : ParsedRequest) (head : list byte) : option (Req + Error) :=
  match req_build (default [] (pr_method p)) (default [] (pr_path p)) with
  | inr e => Some (inr e)
  | inl req => Server.append_headers (populate_headers (pr_headers p)) head
                 (set_version (Server.version_of (pr_version p)) req)
  end.

Definition without_both (req : Req) : Req :=
  if Server.has_both_te_and_cl req then (req_remove_header h_content_length req).1 else req.

(** The session a request leaves when it has been read. *)
Record request_read (s s1 : Sess) (req0 : Req) (extra : list byte) : Prop := {
  rr_header : Server.request_header s1 = Some (without_both req0);
  rr_preread : Server.preread_body s1 = Some extra;
  rr_reader : Server.body_reader s1 = reinit (Server.body_reader s);
  rr_stream : Server.underlying_stream s1 = Server.underlying_stream s;
  rr_keepalive : Server.keepalive_timeout s1 =
    request_keepalive (without_both req0) (Server.has_both_te_and_cl req0);
  rr_upgraded : Server.upgraded s1 = Server.upgraded s;
  rr_pipelining : Server.pipelining_enabled s1 = Server.pipelining_enabled s;
  rr_reuses : Server.keepalive_reuses_remaining s1 = Server.keepalive_reuses_remaining s;
  rr_io : Server.io s1 = Server.io s;
  rr_response : Server.response_written s1 = None;
  rr_valid : validated (without_both req0)
}.

Lemma contains_get_all {A} (m : hmap A) k : hm_contains_key m k = false <-> hm_get_all m k = [].
Proof. unfold hm_contains_key. by destruct (hm_get_all m k). Qed.

Lemma hm_get_contains {A} (m : hmap A) k :
  hm_get m k = None <-> hm_contains_key m k = false.
Proof. unfold hm_get, hm_contains_key. by destruct (hm_get_all m k). Qed.

Lemma removed_get_all (req : Req) k :
  hm_get_all (req_headers (req_remove_header k req).1) k = [] /\
  forall k', k' <> k -> hm_get_all (req_headers (req_remove_header k req).1) k' = hm_get_all (req_headers req) k'.
Proof.
  unfold req_remove_header, remove_header_value. destruct (hm_remove _ k) as [r m] eqn:Hr. simpl.
  pose proof (get_all_removed _ (req_headers req) k) as Hg. simpl in Hr. rewrite Hr in Hg. done.
Qed.

Lemma without_both_framing (req : Req) :
  hm_contains_key (req_headers (without_both req)) h_transfer_encoding = true ->
  hm_get_all (req_headers (without_both req)) h_content_length = [].
Proof.
  unfold without_both, Server.has_both_te_and_cl. intros Hte.
  destruct (hm_contains_key (req_headers req) h_content_length) eqn:Hcl; simpl in *;
    [|by apply contains_get_all].
  destruct (hm_contains_key (req_headers req) h_transfer_encoding) eqn:Hte'; simpl in *; [|congruence].
  apply removed_get_all.
Qed.

Lemma validate_request_spec (s : Sess) req :
  Server.request_header s = Some req ->
  (hm_contains_key (req_headers req) h_transfer_encoding = true ->
   hm_get_all (req_headers req) h_content_length = []) ->
  match Server.validate_request s with
  | Val _ s' => s' = s /\ validated req
  | Fail _ s' => s' = s /\ ~ validated req
  | _ => False
  end.
Proof.
  intros Hreq Hcl. unfold Server.validate_request, bind, get. rewrite Hreq. simpl.
  destruct (validate_request_authority req) as [[]|e] eqn:Ha;
    [|split; [done|]; intros [Ha' _ _]; congruence].
  unfold validate_content_length.
  destruct (hm_contains_key (req_headers req) h_transfer_encoding) eqn:Hte.
  - destruct (hm_get (req_headers req) h_transfer_encoding) eqn:Hget;
      [|apply hm_get_contains in Hget; congruence].
    case_bool_decide as Hv; [split; [done|]; intros [_ Hc _]; destruct (Hc Hte); congruence|].
    destruct (is_chunked_encoding_from_headers (req_headers req)) eqn:Hch; simpl.
    + split; [done|]. constructor; [done| |congruence]. auto.
    + split; [done|]. intros [_ Hc _]. destruct (Hc Hte) as (_ & ? & _). congruence.
  - rewrite (proj2 (hm_get_contains _ _) Hte).
    destruct (content_length_for_framing (req_headers req)) as [cl|e] eqn:Hf; simpl.
    + split; [done|]. constructor; [done|congruence|by eauto].
    + split; [done|]. intros [_ _ Hl]. destruct (Hl Hte). congruence.
Qed.

(** The fields of the session that a keepalive update touches. *)
Lemma respect_keepalive_spec (s : Sess) req :
  Server.request_header s = Some req ->
  Server.respect_keepalive s = Val tt (Server.set_keepalive_timeout (request_keepalive req false) s).
Proof.
  intros Hreq. unfold Server.respect_keepalive, bind, get, Server.is_connection_keepalive,
    Server.get_header, request_keepalive. rewrite Hreq. simpl.
  destruct (is_buf_keepalive _) as [[]|]; [done|done|]. by case_bool_decide.
Qed.

(** A complete head, from either side: the session it leaves when it is
    accepted, and why it is refused. *)
Lemma request_parsed_spec n p b d (s : Sess) :
  0 <= n <= zlen b ->
  match Server.request_parsed n p b d s with
  | Val n' s1 => n' = n /\ exists req0, request_of p (ztake n b) = Some (inl req0) /\
      request_read s s1 req0 (zdrop n b ++ default [] d)
  | Fail _ _ => match request_of p (ztake n b) with
                | Some (inl req0) => ~ validated (without_both req0)
                | Some (inr _) => True
                | None => False
                end
  | Cancelled _ => False
  | Panic => request_of p (ztake n b) = None
  end.
Proof.
  intros Hn. unfold Server.request_parsed, request_of, bind, Server.upd, modify.
  destruct (req_build _ _) as [req|e]; [|done].
  assert ((if n =? zlen b then ret (default [] d)
           else unwrap ((fun rest => rest ++ default [] d) <$> slice b n (zlen b)))
          (Server.set_raw_header (Some (BufRefMk 0 n)) s)
          = Val (zdrop n b ++ default [] d) (Server.set_raw_header (Some (BufRefMk 0 n)) s)
            :> exec Sess Error _) as ->.
  { destruct (Z.eqb_spec n (zlen b)) as [->|Hne]; [by rewrite zdrop_ge by lia|].
    rewrite slice_Some by lia. simpl. by rewrite ztake_ge by (rewrite zlen_zdrop; lia). }
  destruct (Server.append_headers _ _ _) as [[req0|e]|] eqn:Ha; [|done|done]. unfold unwrap, ret.
  set (req1 := if Server.has_both_te_and_cl req0 then _ else req0).
  change req1 with (without_both req0). clear req1.
  rewrite (respect_keepalive_spec _ (without_both req0)) by done.
  set (s' := Server.set_keepalive_timeout _ _).
  assert (forall s2 : Sess, Server.request_header s2 = Some (without_both req0) ->
          (validated (without_both req0) -> request_read s s2 req0 (zdrop n b ++ default [] d)) ->
          match match Server.validate_request s2 with
                | Val _ s' => Val n s' | Fail e s' => Fail e s' | Cancelled s' => Cancelled s' | Panic => Panic
                end with
          | Val n' s1 => n' = n /\ exists req1, Some (inl req0) = Some (@inl Req Error req1) /\
              request_read s s1 req1 (zdrop n b ++ default [] d)
          | Fail _ _ => ~ validated (without_both req0)
          | Cancelled _ => False
          | Panic => Some (@inl Req Error req0) = None
          end) as Htail.
  { intros s2 Hreq Hread.
    pose proof (validate_request_spec s2 (without_both req0) Hreq (without_both_framing req0)) as Hval.
    destruct (Server.validate_request s2) as [[] s3|e s3| |]; [|by destruct Hval|done..].
    destruct Hval as [-> Hval]. split; [done|]. exists req0. split; [done|]. by apply Hread. }
  unfold request_keepalive in s'.
  destruct (Server.has_both_te_and_cl req0) eqn:Hb; apply Htail; [done| |done|]; intros Hv;
    constructor; try done; unfold request_keepalive; by rewrite Hb.
Qed.

(** ** Reading to the end of the head *)



(** The session as it was, up to what reading the head consumes. *)
Record same_session (s s' : Sess) : Prop := {
  ss_reader : Server.body_reader s' = Server.body_reader s;
  ss_upgraded : Server.upgraded s' = Server.upgraded s;
  ss_pipelining : Server.pipelining_enabled s' = Server.pipelining_enabled s;
  ss_reuses : Server.keepalive_reuses_remaining s' = Server.keepalive_reuses_remaining s;
  ss_io : Server.io s' = Server.io s
}.

Lemma same_session_refl s : same_session s s.
Proof. done. Qed.

Lemma request_read_from s s' s1 req0 extra :
  same_session s s' -> request_read s' s1 req0 extra ->
  request_read (Server.set_underlying_stream (Server.underlying_stream s1) s) s1 req0 extra.
Proof. intros [] []. constructor; simpl; congruence. Qed.







(** ** The body of a request *)

Lemma init_body_reader_spec (s : Sess) req extra :
  Server.request_header s = Some req -> Server.preread_body s = Some extra ->
  need_init (Server.body_reader s) = true -> Server.upgraded s = false -> validated req ->
  exists s', Server.init_body_reader s = Val tt s' /\
    Server.body_reader s' = framing_init true (request_framing req) extra (Server.body_reader s) /\
    Server.underlying_stream s' = Server.underlying_stream s /\
    Server.keepalive_timeout s' = Server.keepalive_timeout s /\
    Server.keepalive_reuses_remaining s' = Server.keepalive_reuses_remaining s /\
    Server.pipelining_enabled s' = Server.pipelining_enabled s /\
    Server.request_header s' = Some req.
Proof.
  intros Hreq Hpre Hneed Hup Hv. unfold Server.init_body_reader, bind, get, Server.upd, modify.
  rewrite Hneed. simpl. rewrite Hpre, Hup. simpl. rewrite Hreq. simpl.
  unfold Server.is_chunked_encoding, request_framing.
  destruct (hm_contains_key (req_headers req) h_transfer_encoding) eqn:Hte.
  - destruct (va_chunked req Hv Hte) as (_ & -> & _). eexists. split; [reflexivity|]. done.
  - destruct (va_length req Hv Hte) as [cl Hcl]. rewrite Hcl.
    assert (is_chunked_encoding_from_headers (req_headers req) = false) as ->.
    { unfold is_chunked_encoding_from_headers. apply contains_get_all in Hte. by rewrite Hte. }
    eexists. split; [reflexivity|]. simpl. split; [|done].
    unfold content_length_for_framing in Hcl.
    destruct (content_length_parse_all (req_headers req)) as [n|].
    + destruct (n <? usize_mod); congruence.
    + destruct (hm_contains_key _ h_content_length); [done|]. by injection Hcl as <-.
Qed.


(** ** From one request to the next *)

(** Bytes, as the reads give them. *)
Definition data_stream (st : list rd_event) : Prop :=
  Forall (fun ev => match ev with RData bs => bs <> [] | _ => False end) st.

Lemma data_good st : data_stream st -> good_stream st.
Proof. intros H. eapply Forall_impl; [exact H|]. by intros []. Qed.
Lemma data_never_pending st : data_stream st -> never_pending st.
Proof. intros H. eapply Forall_impl; [exact H|]. by intros []. Qed.

(** The reader at the end of what a session reads. *)
Record moved (s s' : Sess) (r : reader_io) : Prop := {
  mv_reader : Server.body_reader s' = r.1;
  mv_stream : Server.underlying_stream s' = r.2;
  mv_keepalive : Server.keepalive_timeout s' = Server.keepalive_timeout s;
  mv_reuses : Server.keepalive_reuses_remaining s' = Server.keepalive_reuses_remaining s;
  mv_pipelining : Server.pipelining_enabled s' = Server.pipelining_enabled s;
  mv_header : Server.request_header s' = Server.request_header s
}.

Lemma moved_trans s1 s2 s3 r r' : moved s1 s2 r -> moved s2 s3 r' -> moved s1 s3 r'.
Proof. intros [] []. constructor; congruence. Qed.

Lemma init_not_needed (s : Sess) :
  started (Server.body_reader s) -> Server.init_body_reader s = Val tt s.
Proof.
  intros Hs. unfold Server.init_body_reader, bind, get. unfold started in Hs.
  unfold need_init. by destruct (body_state (Server.body_reader s)).
Qed.

Lemma read_body_bytes_run (s : Sess) :
  steady_state false (Server.body_reader s, Server.underlying_stream s) ->
  match read_body parse (Server.body_reader s, Server.underlying_stream s) with
  | Val None r => exists s', Server.read_body_bytes parse s = Val None s' /\ moved s s' r
  | Val (Some ref) r =>
      match get_body r.1 ref with
      | Some d => exists s', Server.read_body_bytes parse s = Val (Some d) s' /\ moved s s' r
      | None => True
      end
  | _ => True
  end.
Proof.
  intros Hs. pose proof (steady_read_body parse false _ Hs) as Hst.
  unfold Server.read_body_bytes, Server.read_body, Server.with_timeout, Server.on_timer, bind, get.
  cbv beta.
  assert (Server.do_read_body parse s =
    match read_body parse (Server.body_reader s, Server.underlying_stream s) with
    | Val a r => Val a (Server.set_body_reader r.1 (Server.set_underlying_stream r.2 s))
    | Fail e r => Fail (Errors.new e) (Server.set_body_reader r.1 (Server.set_underlying_stream r.2 s))
    | Cancelled r => Cancelled (Server.set_body_reader r.1 (Server.set_underlying_stream r.2 s))
    | Panic => Panic
    end) as Hdo.
  { unfold Server.do_read_body, bind at 1. rewrite init_not_needed by apply Hs. done. }
  destruct (read_body parse _) as [[ref|] r| | |]; try done.
  - destruct (get_body r.1 ref) as [d|] eqn:Hg; [|done].
    destruct (Server.read_timeout s); rewrite Hdo; simpl;
      rewrite Hg; simpl; eexists; split; [reflexivity|done|reflexivity|done].
  - destruct (Server.read_timeout s); rewrite Hdo; simpl;
      eexists; split; [reflexivity|done|reflexivity|done].
Qed.

(** A handler that reads the body to its end. *)
Fixpoint collect (fuel : nat) : @Server.SM hmap Uri (list byte) :=
  match fuel with
  | O => panic
  | S fuel =>
      let! r := Server.read_body_bytes parse in
      match r with
      | Some d => let! ds := collect fuel in ret (d ++ ds)
      | None => ret []
      end
  end.

Lemma collect_read_all fuel d r (s : Sess) :
  steady_state false (Server.body_reader s, Server.underlying_stream s) ->
  read_all parse fuel (Server.body_reader s, Server.underlying_stream s) = Some (d, r) ->
  exists s', collect fuel s = Val d s' /\ Server.do_drain_request_body parse fuel s = Val tt s' /\
    moved s s' r /\ steady_state false r.
Proof.
  revert d s. induction fuel as [|fuel IH]; intros d s Hs; [done|]. cbn [read_all].
  pose proof (read_body_bytes_run s Hs) as Hrun. pose proof (steady_read_body parse false _ Hs) as Hst.
  destruct (read_body parse _) as [[ref|] r1| | |]; try done; [..|by destruct Hst].
  - destruct (get_body r1.1 ref) as [d1|]; [|done].
    destruct (read_all parse fuel r1) as [[ds r2]|] eqn:Hall; [|done]. intros [= <- <-].
    destruct Hrun as (s1 & Hrb & Hm). cbn [collect Server.do_drain_request_body]. unfold bind. rewrite Hrb.
    destruct r1 as [rd1 st1]. destruct (IH ds s1) as (s2 & -> & -> & Hm2 & Hst2).
    + by rewrite (mv_reader _ _ _ Hm), (mv_stream _ _ _ Hm).
    + by rewrite (mv_reader _ _ _ Hm), (mv_stream _ _ _ Hm).
    + exists s2. split; [done|]. split; [done|]. split; [by eapply moved_trans|done].
  - intros [= <- <-]. destruct Hrun as (s1 & Hrb & Hm).
    cbn [collect Server.do_drain_request_body]. unfold bind. rewrite Hrb. by exists s1.
Qed.

(** Reading starts by setting up the body reader. *)
Lemma init_read_timeout (s s' : Sess) :
  Server.init_body_reader s = Val tt s' -> Server.read_timeout s' = Server.read_timeout s.
Proof.
  unfold Server.init_body_reader, bind, get, Server.upd, modify.
  destruct (need_init (Server.body_reader s)); [|by intros [= <-]].
  destruct (Server.upgraded s); simpl; [by intros [= <-]|].
  destruct (Server.request_header s); simpl; [|done].
  destruct (Server.is_chunked_encoding _); by intros [= <-].
Qed.

Lemma collect_init fuel (s s' : Sess) :
  Server.init_body_reader s = Val tt s' -> started (Server.body_reader s') ->
  collect fuel s = collect fuel s'.
Proof.
  intros Hi Hs. destruct fuel as [|fuel]; [done|]. cbn [collect].
  assert (Server.read_body_bytes parse s = Server.read_body_bytes parse s') as Hr.
  { assert (Server.do_read_body parse s = Server.do_read_body parse s') as Hd.
    { unfold Server.do_read_body, bind. by rewrite Hi, (init_not_needed s'). }
    unfold Server.read_body_bytes, Server.read_body, Server.with_timeout, Server.on_timer, bind, get.
    cbv beta. rewrite (init_read_timeout _ _ Hi).
    destruct (Server.read_timeout s); by rewrite Hd. }
  unfold bind. by rewrite Hr.
Qed.

Lemma read_request_buf_data already bs st (s : Sess) :
  Server.underlying_stream s = RData bs :: st -> bs <> [] ->
  Server.read_request_buf already s = Val (Some bs) (Server.set_underlying_stream st s).
Proof.
  intros Hst Hbs. unfold Server.read_request_buf, Server.with_timeout, Server.on_timer, bind, get.
  unfold Server.stream_read. cbv beta.
  destruct (Server.keepalive_timeout s); [| |destruct (Server.read_timeout s)]; rewrite Hst;
    by destruct bs.
Qed.

Lemma flat_nonempty st : data_stream st -> flat st <> [] ->
  exists bs st', st = RData bs :: st' /\ bs <> [] /\ data_stream st'.
Proof.
  intros Hd Hne. destruct st as [|[bs| |] st]; [done| |by apply Forall_cons in Hd as [? _]..].
  apply Forall_cons in Hd as [Hbs Hd]. by exists bs, st.
Qed.

Lemma head_read lim head p rest fuel b (skip : bool) (s : Sess) :
  parses_to httparse_request lim head p -> Server.limit s = lim -> data_stream (Server.underlying_stream s) ->
  b ++ flat (Server.underlying_stream s) = head ++ rest -> head <> [] ->
  zlen b <= MAX_HEADER_SIZE -> zlen head <= MAX_HEADER_SIZE ->
  (if skip then b <> [] else zlen b < zlen head) ->
  zlen (Server.underlying_stream s) + (if skip then 2 else 1) < Z.of_nat fuel ->
  exists extra st', data_stream st' /\ extra ++ flat st' = rest /\
    zlen st' <= zlen (Server.underlying_stream s) /\
    Server.read_request_loop httparse_request fuel b None (zlen b) skip s =
    (let! n := Server.request_parsed (zlen head) p (head ++ extra) None in ret (Some n))
      (Server.set_underlying_stream st' s).
Proof.
  intros [Hpart Hcomp] Hlim. revert b skip s Hlim.
  induction fuel as [|fuel IH]; intros b skip s Hlim Hd Heq Hne Hb Hhead Hskip Hfuel;
    [pose proof (zlen_nonneg (Server.underlying_stream s)); destruct skip; lia|].
  cbn [Server.read_request_loop]. destruct (Z.ltb_spec MAX_HEADER_SIZE (zlen b)); [lia|].
  (* the bytes at hand when the parser runs *)
  assert (exists bytes st', (if skip then ret (Some []) else Server.read_request_buf (zlen b)) s
            = Val (Some bytes) (Server.set_underlying_stream st' s) :> exec Sess Error _ /\
          data_stream st' /\ (b ++ bytes) ++ flat st' = head ++ rest /\ b ++ bytes <> [] /\
          zlen st' <= zlen (Server.underlying_stream s) /\
          (if skip then True else zlen st' < zlen (Server.underlying_stream s)))
    as (bytes & st' & Hread & Hd' & Heq' & Hne' & Hle & Hlt).
  { destruct skip.
    - exists [], (Server.underlying_stream s). rewrite app_nil_r. split_and!; try done. by destruct s.
    - destruct (flat_nonempty (Server.underlying_stream s)) as (bs & st' & Hst & Hbs & Hd'); [done| |].
      + intros Hf. rewrite Hf, app_nil_r in Heq. subst b. rewrite zlen_app in Hskip.
        pose proof (zlen_nonneg rest). lia.
      + exists bs, st'. rewrite (read_request_buf_data _ bs st') by done.
        split_and!; try done; [|by destruct b|rewrite Hst, zlen_cons; lia..].
        rewrite <- app_assoc. rewrite Hst in Heq. done. }
  unfold bind at 1. rewrite Hread. unfold bind at 1. cbn [Server.parse_loop]. unfold bind at 1, get.
  cbn [Server.limit Server.set_underlying_stream]. rewrite Hlim.
  destruct (prefix_split (b ++ bytes) (flat st') head rest Heq') as [[Hshort Hpre]|(extra & Hpre & Hrest)].
  - rewrite Hpre, Hpart, <- Hpre by (split; [by apply zlen_pos|done]). cbv beta iota.
    destruct (IH (b ++ bytes) false (Server.set_underlying_stream st' s)) as (extra & st'' & Hg); try done.
    + lia.
    + simpl. destruct skip; lia.
    + destruct Hg as (Hd'' & Hr & Hl & Hloop). exists extra, st''. split_and!; try done. simpl in Hl. lia.
  - rewrite Hpre, Hcomp. exists extra, st'. split_and!; try done. cbv beta iota.
    unfold bind. by destruct (Server.request_parsed _ _ _ _ _).
Qed.

Lemma read_request_head lim head p rest fuel (s : Sess) req0 :
  parses_to httparse_request lim head p -> Server.limit s = lim -> data_stream (Server.underlying_stream s) ->
  Server.awaits s = [] ->
  default [] (Server.pipelined_prefix s) ++ flat (Server.underlying_stream s) = head ++ rest -> head <> [] ->
  zlen (default [] (Server.pipelined_prefix s)) <= MAX_HEADER_SIZE -> zlen head <= MAX_HEADER_SIZE ->
  request_of p head = Some (inl req0) -> validated (without_both req0) ->
  zlen (Server.underlying_stream s) + 2 < Z.of_nat fuel ->
  exists extra s0 s1, Server.read_request httparse_request fuel s = Val (Some (zlen head)) s1 /\
    same_session s s0 /\ request_read s0 s1 req0 extra /\ data_stream (Server.underlying_stream s1) /\
    extra ++ flat (Server.underlying_stream s1) = rest /\
    zlen (Server.underlying_stream s1) <= zlen (Server.underlying_stream s).
Proof.
  intros Hp Hlim Hd Haw Heq Hne Hpre Hhead Hof Hv Hfuel.
  set (pre := default [] (Server.pipelined_prefix s)) in *. pose proof (zlen_nonneg pre).
  set (s' := Server.set_pipelined_prefix None (Server.set_buf [] s)).
  assert (Server.read_request httparse_request fuel s =
          Server.read_request_loop httparse_request fuel pre None (zlen pre) (negb (zlen pre =? 0)) s') as ->.
  { unfold Server.read_request, bind, Server.upd, modify, get, Server.consume_budget. cbv beta.
    match goal with |- match ?m with _ => _ end = _ =>
      assert (m = Val tt (Server.set_buf [] s)) as -> end; [|done].
    cbn [Server.pipelined_prefix Server.set_buf].
    destruct (Server.pipelined_prefix s) as [[|]|]; [done| |done].
    cbn [Server.awaits Server.set_buf]. by rewrite Haw. }
  destruct (head_read lim head p rest fuel pre (negb (zlen pre =? 0)) s')
    as (extra & st' & Hd' & Hrest & Hle & Hloop); try done.
  - destruct (Z.eqb_spec (zlen pre) 0) as [Hz|Hz]; simpl.
    + rewrite Hz. by apply zlen_pos.
    + intros He. rewrite He in Hz. done.
  - simpl. destruct (negb (zlen pre =? 0)); lia.
  - rewrite Hloop. unfold bind.
    pose proof (request_parsed_spec (zlen head) p (head ++ extra) None (Server.set_underlying_stream st' s')) as Hr.
    rewrite zlen_app, ztake_app_exact, zdrop_app_exact in Hr. rewrite Hof in Hr.
    pose proof (zlen_nonneg head). pose proof (zlen_nonneg extra). specialize (Hr ltac:(lia)).
    destruct (Server.request_parsed _ _ _ _ _) as [n s1| | |]; try done.
    destruct Hr as (-> & req1 & [= <-] & Hread). simpl in Hread. rewrite app_nil_r in Hread.
    exists extra, (Server.set_underlying_stream st' s'), s1. split_and!; try done.
    + by rewrite (rr_stream _ _ _ _ Hread).
    + by rewrite (rr_stream _ _ _ _ Hread).
    + by rewrite (rr_stream _ _ _ _ Hread).
Qed.

(** What [reuse] hands on. *)
Definition connection_left (s : Sess) (next : list byte) (o : option Server.ReusableHttpStream) : Prop :=
  match o with
  | Some c =>
      Server.will_keepalive s = true /\
      default [] (Server.reusable_prefix c) ++ flat (Server.reusable_stream c) = next /\
      (Server.pipelining_enabled s = false -> Server.reusable_prefix c = None)
  | None => Server.will_keepalive s = false \/ Server.pipelining_enabled s = false
  end.

Lemma will_keepalive_ext (s s' : Sess) :
  Server.keepalive_timeout s' = Server.keepalive_timeout s ->
  Server.keepalive_reuses_remaining s' = Server.keepalive_reuses_remaining s ->
  Server.will_keepalive s' = Server.will_keepalive s.
Proof. intros H1 H2. unfold Server.will_keepalive. by rewrite H1, H2. Qed.

Lemma reuse_leaves fuel (s s' : Sess) data r next :
  Server.init_body_reader s = Val tt s' ->
  Server.keepalive_timeout s' = Server.keepalive_timeout s ->
  Server.keepalive_reuses_remaining s' = Server.keepalive_reuses_remaining s ->
  Server.pipelining_enabled s' = Server.pipelining_enabled s ->
  steady_state false (Server.body_reader s', Server.underlying_stream s') ->
  read_all parse fuel (Server.body_reader s', Server.underlying_stream s') = Some (data, r) ->
  default [] (body_buf_overread r.1) ++ flat r.2 = next ->
  exists o s2, Server.reuse parse fuel s = Val o s2 /\ connection_left s next o.
Proof.
  intros Hinit Hka Hru Hpi Hst Hall Hnext. unfold Server.reuse, bind at 1, get.
  destruct (Server.will_keepalive s) eqn:Hw; simpl; [|exists None, s; split; [done|by left]].
  assert (exists s2, Server.drain_request_body parse fuel s = Val tt s2 /\ Server.body_reader s2 = r.1 /\
            Server.underlying_stream s2 = r.2 /\ Server.pipelining_enabled s2 = Server.pipelining_enabled s)
    as (s2 & Hdrain & Hr1 & Hr2 & Hpi2).
  { unfold Server.drain_request_body, Server.is_body_done, bind, get. rewrite Hinit. simpl.
    destruct (body_done (Server.body_reader s')) eqn:Hdone.
    - exists s'. destruct fuel as [|fuel]; [done|]. cbn [read_all] in Hall.
      rewrite (read_body_done parse _ _ Hdone) in Hall. by injection Hall as <- <-.
    - destruct (collect_read_all fuel data r s' Hst Hall) as (s2 & _ & Hdr & Hm & _). exists s2.
      unfold Server.with_timeout, Server.on_timer, bind. cbv beta.
      destruct (Server.total_drain_timeout s'); rewrite Hdr; (split; [done|]); destruct Hm;
        (split; [done|]); (split; [done|]); congruence. }
  unfold bind at 1. rewrite Hdrain. unfold bind, get. rewrite Hpi2, Hr1, Hr2.
  destruct (has_bytes_overread r.1) eqn:Ho; destruct (Server.pipelining_enabled s) eqn:Hp; simpl.
  - eexists _, s2. split; [reflexivity|]. simpl. rewrite Hw. split_and!; [done| |congruence].
    unfold has_bytes_overread in Ho. by destruct (body_buf_overread r.1) as [[|]|].
  - exists None, s2. split; [done|]. by right.
  - eexists _, s2. split; [reflexivity|]. simpl. rewrite Hw. split_and!; [done| |congruence].
    unfold has_bytes_overread in Ho. destruct (body_buf_overread r.1) as [[|]|]; [done| |done].
    apply bool_decide_eq_false in Ho. by destruct Ho.
  - eexists _, s2. split; [reflexivity|]. simpl. rewrite Hw. split_and!; [done| |done].
    unfold has_bytes_overread in Ho. destruct (body_buf_overread r.1) as [[|]|]; [done| |done].
    apply bool_decide_eq_false in Ho. by destruct Ho.
Qed.

(** C1: on a connection that carries a request head, its body in the framing the
    head announces, and whatever follows, delivered in any fragments and with any
    part of it pipelined from the request before: the head is read, a handler
    that reads the body gets exactly its data, and the connection handed on
    (whether the body was read by the handler or has to be drained) starts with
    exactly the bytes that follow the body.  It is not handed on when keepalive is
    off, or when pipelining is off and bytes of the next request were read. *)
Theorem request_boundaries lim head p body data next fuel (s : Sess) req0 :
  parses_to httparse_request lim head p -> Server.limit s = lim -> data_stream (Server.underlying_stream s) ->
  Server.awaits s = [] -> Server.body_reader s = new false -> Server.upgraded s = false ->
  default [] (Server.pipelined_prefix s) ++ flat (Server.underlying_stream s) = head ++ body ++ next ->
  head <> [] ->
  zlen (default [] (Server.pipelined_prefix s)) <= MAX_HEADER_SIZE -> zlen head <= MAX_HEADER_SIZE ->
  request_of p head = Some (inl req0) -> validated (without_both req0) ->
  framed parse (request_framing (without_both req0)) body data next ->
  zlen (body ++ next) <= isize_max ->
  4 * zlen (body ++ next) + zlen (Server.underlying_stream s) + 2 < Z.of_nat fuel ->
  exists s1 s2, Server.read_request httparse_request fuel s = Val (Some (zlen head)) s1 /\
    Server.request_header s1 = Some (without_both req0) /\
    collect fuel s1 = Val data s2 /\
    (exists o s', Server.reuse parse fuel s1 = Val o s' /\ connection_left s1 next o) /\
    (exists o s', Server.reuse parse fuel s2 = Val o s' /\ connection_left s1 next o).
Proof.
  intros Hp Hlim Hd Haw Hbr Hup Heq Hne Hpre Hhead Hof Hv Hfr Hmax Hfuel.
  pose proof (zlen_nonneg (body ++ next)). pose proof (zlen_nonneg (Server.underlying_stream s)).
  destruct (read_request_head lim head p (body ++ next) fuel s req0)
    as (extra & s0 & s1 & Hrd & Hs0 & Hread & Hd1 & Hrest & Hle); try done; [lia|].
  destruct (init_body_reader_spec s1 (without_both req0) extra) as (s1' & Hi & Hb & Hst1 & Hka & Hru & Hpi & Hrq).
  { apply Hread. } { apply Hread. }
  { by rewrite (rr_reader _ _ _ _ Hread). }
  { by rewrite (rr_upgraded _ _ _ _ Hread), (ss_upgraded _ _ Hs0). } { done. }
  rewrite (rr_reader _ _ _ _ Hread), (ss_reader _ _ Hs0), Hbr in Hb.
  change (reinit (new false)) with (new false) in Hb.
  pose proof (framing_started true (request_framing (without_both req0)) extra (new false)) as Hstart.
  destruct (framed_reads parse true false _ body data extra (Server.underlying_stream s1) next fuel
              Hfr (data_good _ Hd1) Hrest Hmax) as (r & Hall & _ & Hdec).
  { pose proof (f_equal zlen Hrest) as Hl. rewrite zlen_app in Hl.
    pose proof (zlen_nonneg extra). pose proof (zlen_nonneg (flat (Server.underlying_stream s1))). lia. }
  specialize (Hdec (request_framing_not_close _)). pose proof Hdec as (Hdone & _ & Hnext).
  rewrite <- Hb, <- Hst1 in Hall. rewrite <- Hb in Hstart.
  assert (steady_state false (Server.body_reader s1', Server.underlying_stream s1')) as Hst.
  { split; [done|]. intros _. simpl. rewrite Hst1. by apply data_never_pending. }
  destruct (collect_read_all fuel data r s1' Hst Hall) as (s2 & Hcol & _ & Hm & Hfin).
  exists s1, s2. split; [done|]. split; [apply Hread|]. split; [|split].
  - by rewrite (collect_init fuel s1 s1').
  - by eapply (reuse_leaves fuel s1 s1').
  - assert (started r.1) as Hr by (unfold started; by rewrite Hdone).
    destruct (reuse_leaves fuel s2 s2 [] r next) as (o & s' & Hre & Hc); try done.
    + apply init_not_needed. by rewrite (mv_reader _ _ _ Hm).
    + by rewrite (mv_reader _ _ _ Hm), (mv_stream _ _ _ Hm), <- surjective_pairing.
    + rewrite (mv_reader _ _ _ Hm), (mv_stream _ _ _ Hm), <- surjective_pairing.
      eapply (read_all_decoded parse next (zlen data)); [done|lia].
    + exists o, s'. split; [done|]. revert Hc. unfold connection_left.
      rewrite (will_keepalive_ext s1 s2), (mv_pipelining _ _ _ Hm), Hpi; [done| |].
      * by rewrite (mv_keepalive _ _ _ Hm).
      * by rewrite (mv_reuses _ _ _ Hm).
Qed.

End server.

(** ** A connection to run them with *)


#[local] Instance no_escape : RequestLine := {| request_line_uri _ := None; percent_encode b := b |}.

Definition wit_head : list byte :=
  bytes_of "POST /x HTTP/1.1" ++ [CR; LF] ++ bytes_of "Host: h" ++ [CR; LF] ++
  bytes_of "Content-Length: 5" ++ [CR; LF; CR; LF].
Definition wit_parsed : ParsedRequest :=
  MkPReq (Some (bytes_of "POST")) (Some (bytes_of "/x")) (Some 1)
    [MkParsed 18 4 24 1; MkParsed 27 14 43 1].
Definition wit_parser := one_head wit_head wit_parsed.

(** Four bytes were read with the request before; then fragments, the last of
    which runs into the next request. *)
Definition wit_session : @Server.HttpSession amap (list byte) :=
  Server.set_pipelining_enabled true
    (Server.set_pipelined_prefix (Some (ztake 4 wit_head))
       (Server.http_new
          [RData (ztake 20 (zdrop 4 wit_head)); RData (zdrop 24 wit_head ++ bytes_of "he");
           RData (bytes_of "lloGET /")] (mkWio writer_new [] 0 [] []) [])).


Definition wit_req : RequestHeader amap (list byte) :=
  match request_of wit_parsed wit_head with
  | Some (inl r) => r
  | _ => req_new_no_case
  end.

Lemma wit_validated : validated (without_both wit_req).
Proof.
  constructor; [vm_compute; reflexivity|intros H; by vm_compute in H|].
  intros _. exists (Some 5). vm_compute. reflexivity.
Qed.

Lemma request_boundaries_witness :
  exists s1 s2, Server.read_request wit_parser 200 wit_session = Val (Some 48) s1 /\
    collect ref_parse 200 s1 = Val (bytes_of "hello") s2 /\
    exists o s', Server.reuse ref_parse 200 s1 = Val o s' /\ connection_left s1 (bytes_of "GET /") o.
Proof.
  destruct (request_boundaries wit_parser ref_parse DEFAULT_HEADER_LIMIT wit_head wit_parsed
    (bytes_of "hello") (bytes_of "hello") (bytes_of "GET /") 200 wit_session wit_req)
    as (s1 & s2 & Hr & _ & Hc & Hu & _).
  - apply one_head_parses.
  - reflexivity.
  - repeat constructor; discriminate.
  - reflexivity.
  - reflexivity.
  - reflexivity.
  - reflexivity.
  - discriminate.
  - vm_compute; discriminate.
  - vm_compute; discriminate.
  - vm_compute; reflexivity.
  - apply wit_validated.
  - split; reflexivity.
  - vm_compute; discriminate.
  - vm_compute; reflexivity.
  - exists s1, s2. auto.
Defined.
