(* ===== verification/H1Client.v ===== *)
(** * HTTP/1 client session

    [HttpSession] of [src/pingora-core/src/protocols/http/v1/client.rs]: writing a
    request and its body, reading response heads (informational ones too) in
    a way that survives cancellation, framing and reading the response body, and
    deciding whether the connection can be used again.

    The session holds its end of the stream as the server session of [H1Server]
    does; [httparse] is a parameter, and so is what an I/O error of the stream
    says of itself.  Digests, addresses and log lines are left out. *)

From stdpp Require Import base list numbers strings.
From Stdlib Require Import ZArith Lia.
From S2P Require Import Prelude Errors Text Headers Parser BodyReader BodyWriter Framing H1Server.
Local Open Scope Z_scope.

(** [str::split_once] at one byte. *)
Definition split_once (c : byte) (s : list byte) : option (list byte * list byte) :=
  (fun i => (take i s, drop (S i) s)) <$> position (fun b => bool_decide (b = c)) s.

(** What an I/O error says: is it from the operating system, is its kind
    [TimedOut]. *)
Record IoError := MkIoError { raw_os_error : bool; timed_out : bool }.

Definition with_retry (r : RetryType) (e : Error) : Error :=
  let 'mkError t s _ c x := e in mkError t s r c x.

Module Client.
Section session.
Context {hmap : Type -> Type} `{HM : HMap hmap} {Uri : Type} `{HC : HttpCrate Uri}.
(** One pass of [httparse] over a response head. *)
Variable httparse_response : ResponseParserConfig -> Z -> list byte -> ParseStatus ParsedResponse + ParseError.
Variable parse_chunk_size : list byte -> chunk_status.
Variable io_error : IoError.

(** ** The session *)

Record HttpSession := MkClient {
  underlying_stream : list rd_event  (** what the reads of the stream will give *);
  io : writer_io  (** the body writer and what the writes of the stream will do *);
  awaits : list bool  (** at the next pending awaits: does the timer fire *);
  buf : list byte;
  response_header_read_buf : list byte;
  raw_header : option BufRef;
  preread_body : option BufRef;
  body_reader : BodyReader;
  read_timeout : option Z;
  write_timeout : option Z;
  keepalive_timeout : KeepaliveStatus;
  response_header : option (ResponseHeader hmap);
  request_written : option (RequestHeader hmap Uri);
  bytes_sent : Z;
  body_recv : Z;
  upgraded : bool;
  received_upgrade_req_body : bool;
  close_delimited_resp : bool;
  allow_h1_response_invalid_content_length : bool;
  response_parser_config : ResponseParserConfig
}.

Definition set_underlying_stream (x : list rd_event) (s : HttpSession) : HttpSession :=
  MkClient x (io s) (awaits s) (buf s) (response_header_read_buf s) (raw_header s) (preread_body
    s) (body_reader s) (read_timeout s) (write_timeout s) (keepalive_timeout s) (response_header
    s) (request_written s) (bytes_sent s) (body_recv s) (upgraded s) (received_upgrade_req_body
    s) (close_delimited_resp s) (allow_h1_response_invalid_content_length s)
    (response_parser_config s).
Definition set_io (x : writer_io) (s : HttpSession) : HttpSession :=
  MkClient (underlying_stream s) x (awaits s) (buf s) (response_header_read_buf s) (raw_header
    s) (preread_body s) (body_reader s) (read_timeout s) (write_timeout s) (keepalive_timeout s)
    (response_header s) (request_written s) (bytes_sent s) (body_recv s) (upgraded s)
    (received_upgrade_req_body s) (close_delimited_resp s)
    (allow_h1_response_invalid_content_length s) (response_parser_config s).
Definition set_awaits (x : list bool) (s : HttpSession) : HttpSession :=
  MkClient (underlying_stream s) (io s) x (buf s) (response_header_read_buf s) (raw_header s)
    (preread_body s) (body_reader s) (read_timeout s) (write_timeout s) (keepalive_timeout s)
    (response_header s) (request_written s) (bytes_sent s) (body_recv s) (upgraded s)
    (received_upgrade_req_body s) (close_delimited_resp s)
    (allow_h1_response_invalid_content_length s) (response_parser_config s).
Definition set_buf (x : list byte) (s : HttpSession) : HttpSession :=
  MkClient (underlying_stream s) (io s) (awaits s) x (response_header_read_buf s) (raw_header s)
    (preread_body s) (body_reader s) (read_timeout s) (write_timeout s) (keepalive_timeout s)
    (response_header s) (request_written s) (bytes_sent s) (body_recv s) (upgraded s)
    (received_upgrade_req_body s) (close_delimited_resp s)
    (allow_h1_response_invalid_content_length s) (response_parser_config s).
Definition set_response_header_read_buf (x : list byte) (s : HttpSession) : HttpSession :=
  MkClient (underlying_stream s) (io s) (awaits s) (buf s) x (raw_header s) (preread_body s)
    (body_reader s) (read_timeout s) (write_timeout s) (keepalive_timeout s) (response_header s)
    (request_written s) (bytes_sent s) (body_recv s) (upgraded s) (received_upgrade_req_body s)
    (close_delimited_resp s) (allow_h1_response_invalid_content_length s)
    (response_parser_config s).
Definition set_raw_header (x : option BufRef) (s : HttpSession) : HttpSession :=
  MkClient (underlying_stream s) (io s) (awaits s) (buf s) (response_header_read_buf s) x
    (preread_body s) (body_reader s) (read_timeout s) (write_timeout s) (keepalive_timeout s)
    (response_header s) (request_written s) (bytes_sent s) (body_recv s) (upgraded s)
    (received_upgrade_req_body s) (close_delimited_resp s)
    (allow_h1_response_invalid_content_length s) (response_parser_config s).
Definition set_preread_body (x : option BufRef) (s : HttpSession) : HttpSession :=
  MkClient (underlying_stream s) (io s) (awaits s) (buf s) (response_header_read_buf s)
    (raw_header s) x (body_reader s) (read_timeout s) (write_timeout s) (keepalive_timeout s)
    (response_header s) (request_written s) (bytes_sent s) (body_recv s) (upgraded s)
    (received_upgrade_req_body s) (close_delimited_resp s)
    (allow_h1_response_invalid_content_length s) (response_parser_config s).
Definition set_body_reader (x : BodyReader) (s : HttpSession) : HttpSession :=
  MkClient (underlying_stream s) (io s) (awaits s) (buf s) (response_header_read_buf s)
    (raw_header s) (preread_body s) x (read_timeout s) (write_timeout s) (keepalive_timeout s)
    (response_header s) (request_written s) (bytes_sent s) (body_recv s) (upgraded s)
    (received_upgrade_req_body s) (close_delimited_resp s)
    (allow_h1_response_invalid_content_length s) (response_parser_config s).
Definition set_read_timeout (x : option Z) (s : HttpSession) : HttpSession :=
  MkClient (underlying_stream s) (io s) (awaits s) (buf s) (response_header_read_buf s)
    (raw_header s) (preread_body s) (body_reader s) x (write_timeout s) (keepalive_timeout s)
    (response_header s) (request_written s) (bytes_sent s) (body_recv s) (upgraded s)
    (received_upgrade_req_body s) (close_delimited_resp s)
    (allow_h1_response_invalid_content_length s) (response_parser_config s).
Definition set_write_timeout (x : option Z) (s : HttpSession) : HttpSession :=
  MkClient (underlying_stream s) (io s) (awaits s) (buf s) (response_header_read_buf s)
    (raw_header s) (preread_body s) (body_reader s) (read_timeout s) x (keepalive_timeout s)
    (response_header s) (request_written s) (bytes_sent s) (body_recv s) (upgraded s)
    (received_upgrade_req_body s) (close_delimited_resp s)
    (allow_h1_response_invalid_content_length s) (response_parser_config s).
Definition set_keepalive_timeout (x : KeepaliveStatus) (s : HttpSession) : HttpSession :=
  MkClient (underlying_stream s) (io s) (awaits s) (buf s) (response_header_read_buf s)
    (raw_header s) (preread_body s) (body_reader s) (read_timeout s) (write_timeout s) x
    (response_header s) (request_written s) (bytes_sent s) (body_recv s) (upgraded s)
    (received_upgrade_req_body s) (close_delimited_resp s)
    (allow_h1_response_invalid_content_length s) (response_parser_config s).
Definition set_response_header (x : option (ResponseHeader hmap)) (s : HttpSession) : HttpSession :=
  MkClient (underlying_stream s) (io s) (awaits s) (buf s) (response_header_read_buf s)
    (raw_header s) (preread_body s) (body_reader s) (read_timeout s) (write_timeout s)
    (keepalive_timeout s) x (request_written s) (bytes_sent s) (body_recv s) (upgraded s)
    (received_upgrade_req_body s) (close_delimited_resp s)
    (allow_h1_response_invalid_content_length s) (response_parser_config s).
Definition set_request_written (x : option (RequestHeader hmap Uri)) (s : HttpSession) : HttpSession :=
  MkClient (underlying_stream s) (io s) (awaits s) (buf s) (response_header_read_buf s)
    (raw_header s) (preread_body s) (body_reader s) (read_timeout s) (write_timeout s)
    (keepalive_timeout s) (response_header s) x (bytes_sent s) (body_recv s) (upgraded s)
    (received_upgrade_req_body s) (close_delimited_resp s)
    (allow_h1_response_invalid_content_length s) (response_parser_config s).
Definition set_bytes_sent (x : Z) (s : HttpSession) : HttpSession :=
  MkClient (underlying_stream s) (io s) (awaits s) (buf s) (response_header_read_buf s)
    (raw_header s) (preread_body s) (body_reader s) (read_timeout s) (write_timeout s)
    (keepalive_timeout s) (response_header s) (request_written s) x (body_recv s) (upgraded s)
    (received_upgrade_req_body s) (close_delimited_resp s)
    (allow_h1_response_invalid_content_length s) (response_parser_config s).
Definition set_body_recv (x : Z) (s : HttpSession) : HttpSession :=
  MkClient (underlying_stream s) (io s) (awaits s) (buf s) (response_header_read_buf s)
    (raw_header s) (preread_body s) (body_reader s) (read_timeout s) (write_timeout s)
    (keepalive_timeout s) (response_header s) (request_written s) (bytes_sent s) x (upgraded s)
    (received_upgrade_req_body s) (close_delimited_resp s)
    (allow_h1_response_invalid_content_length s) (response_parser_config s).
Definition set_upgraded (x : bool) (s : HttpSession) : HttpSession :=
  MkClient (underlying_stream s) (io s) (awaits s) (buf s) (response_header_read_buf s)
    (raw_header s) (preread_body s) (body_reader s) (read_timeout s) (write_timeout s)
    (keepalive_timeout s) (response_header s) (request_written s) (bytes_sent s) (body_recv s) x
    (received_upgrade_req_body s) (close_delimited_resp s)
    (allow_h1_response_invalid_content_length s) (response_parser_config s).
Definition set_received_upgrade_req_body (x : bool) (s : HttpSession) : HttpSession :=
  MkClient (underlying_stream s) (io s) (awaits s) (buf s) (response_header_read_buf s)
    (raw_header s) (preread_body s) (body_reader s) (read_timeout s) (write_timeout s)
    (keepalive_timeout s) (response_header s) (request_written s) (bytes_sent s) (body_recv s)
    (upgraded s) x (close_delimited_resp s) (allow_h1_response_invalid_content_length s)
    (response_parser_config s).
Definition set_close_delimited_resp (x : bool) (s : HttpSession) : HttpSession :=
  MkClient (underlying_stream s) (io s) (awaits s) (buf s) (response_header_read_buf s)
    (raw_header s) (preread_body s) (body_reader s) (read_timeout s) (write_timeout s)
    (keepalive_timeout s) (response_header s) (request_written s) (bytes_sent s) (body_recv s)
    (upgraded s) (received_upgrade_req_body s) x (allow_h1_response_invalid_content_length s)
    (response_parser_config s).
Definition set_allow_h1_response_invalid_content_length (x : bool) (s : HttpSession) : HttpSession :=
  MkClient (underlying_stream s) (io s) (awaits s) (buf s) (response_header_read_buf s)
    (raw_header s) (preread_body s) (body_reader s) (read_timeout s) (write_timeout s)
    (keepalive_timeout s) (response_header s) (request_written s) (bytes_sent s) (body_recv s)
    (upgraded s) (received_upgrade_req_body s) (close_delimited_resp s) x
    (response_parser_config s).
Definition set_response_parser_config (x : ResponseParserConfig) (s : HttpSession) : HttpSession :=
  MkClient (underlying_stream s) (io s) (awaits s) (buf s) (response_header_read_buf s)
    (raw_header s) (preread_body s) (body_reader s) (read_timeout s) (write_timeout s)
    (keepalive_timeout s) (response_header s) (request_written s) (bytes_sent s) (body_recv s)
    (upgraded s) (received_upgrade_req_body s) (close_delimited_resp s)
    (allow_h1_response_invalid_content_length s) x.

Definition CM (A : Type) : Type := M HttpSession Error A.

Definition upd (f : HttpSession -> HttpSession) : CM unit := modify f.

Definition client_new (stream : list rd_event) (w : writer_io) (awaits : list bool) : HttpSession :=
  MkClient stream (set_wr writer_new w) awaits [] [] None None (BodyReader.new true) None None KOff None None
    0 0 false false false false (response_config_new DEFAULT_HEADER_LIMIT).

(** [new_with_options]: of the options of a peer, the one the session reads. *)
Definition client_new_with_options (options : option bool) stream w awaits : HttpSession :=
  let session := client_new stream w awaits in
  match options with
  | Some allow => set_allow_h1_response_invalid_content_length allow session
  | None => session
  end.

Definition set_header_count_limit (limit : HeaderLimit) (s : HttpSession) : HttpSession :=
  let c := response_parser_config s in
  set_response_parser_config
    (MkRespConfig limit (allow_spaces_after_header_name_in_responses c)
       (allow_obsolete_multiline_headers_in_responses c)) s.

(** ** The stream *)

Definition stream_read : CM (list byte + unit) :=
  fun s =>
    match underlying_stream s with
    | [] => Val (inl []) s
    | RPend :: st => Cancelled (set_underlying_stream st s)
    | RErr :: st => Val (inr tt) (set_underlying_stream st s)
    | RData bs :: st => Val (inl bs) (set_underlying_stream st s)
    end.

Definition on_reader {A} (m : RM A) : CM A :=
  fun s =>
    let keep r := set_body_reader r.1 (set_underlying_stream r.2 s) in
    match m (body_reader s, underlying_stream s) with
    | Val a r => Val a (keep r)
    | Fail e r => Fail (Errors.new e) (keep r)
    | Cancelled r => Cancelled (keep r)
    | Panic => Panic
    end.

Definition on_writer {A} (m : WM A) : CM A :=
  fun s =>
    match m (io s) with
    | Val a w => Val a (set_io w s)
    | Fail e w => Fail (Errors.new e) (set_io w s)
    | Cancelled w => Cancelled (set_io w s)
    | Panic => Panic
    end.

(** [timeout(t, m).await]: [None] when the timer fires while [m] is pending. *)
Definition on_timer {A} (t : option Z) (m : CM A) : CM (option A) :=
  match t with
  | None => let! a := m in ret (Some a)
  | Some _ =>
      fun s =>
        match m s with
        | Val a s' => Val (Some a) s'
        | Fail e s' => Fail e s'
        | Cancelled s' =>
            match awaits s' with
            | true :: rest => Val None (set_awaits rest s')
            | _ :: rest => Cancelled (set_awaits rest s')
            | [] => Cancelled s'
            end
        | Panic => Panic
        end
  end.

Definition with_timeout {A} (t : option Z) (e : Error) (m : CM A) : CM A :=
  let! r := on_timer t m in
  match r with Some a => ret a | None => fail e end.

(** ** Writing the request *)

(** Bytes that must not be in a request target. *)
Definition request_target_has_forbidden_byte (path : list byte) : bool :=
  existsb (fun b => bool_decide (b ∈ [Byte.x00; Byte.x0a; Byte.x0d; Byte.x20])) path.

Definition version_text (v : Version) : list byte :=
  bytes_of match v with
           | HTTP_09 => "HTTP/0.9" | HTTP_10 => "HTTP/1.0" | HTTP_11 => "HTTP/1.1" | HTTP_2 => "HTTP/2"
           end%string.

(** The outer [None] is the failed assertion of [header_to_h1_wire]. *)
Definition http_req_header_to_wire (req : RequestHeader hmap Uri) : option (option (list byte)) :=
  if request_target_has_forbidden_byte (raw_path req) then Some None
  else
    fields ← header_to_h1_wire (req_maps req);
    Some (Some (req_method req ++ [SP] ++ raw_path req ++ [SP] ++ version_text (req_version req) ++ CRLF ++
                fields ++ CRLF)).

Definition client_init_body_writer_comm (headers : hmap (list byte)) (w : BodyWriter) : BodyWriter :=
  if is_chunked_encoding_from_headers headers then writer_init_chunked w
  else match content_length_for_framing headers with
       | inl (Some length) => writer_init_content_length length w
       | inl None => writer_init_content_length 0 w
       | inr _ => writer_init_content_length 0 w
       end.

Definition init_req_body_writer (req : RequestHeader hmap Uri) (s : HttpSession) : HttpSession :=
  set_io (set_wr (client_init_body_writer_comm (req_headers req) (wr (io s))) (io s)) s.

(** A write of the request head: a timeout, and an I/O error, by its kind. *)
Definition write_request_bytes (to_wire : list byte) : CM unit :=
  let! s := get in
  let timed_out_error := because WriteTimedout "while writing request headers (timeout)" (Foreign "I/O error") in
  let! r := on_timer (write_timeout s) (on_writer (attempt (write_all to_wire))) in
  match r with
  | Some (inl _) => ret tt
  | Some (inr _) =>
      fail (if timed_out io_error then timed_out_error
            else because WriteError "while writing request headers" (Foreign "I/O error"))
  | None => fail timed_out_error
  end.

Definition write_request_header (req : RequestHeader hmap Uri) : CM Z :=
  do! upd (init_req_body_writer req);
  let! wire := unwrap (http_req_header_to_wire req) in
  match wire with
  | None => fail (explain InvalidHTTPHeader
                    "request-line contains forbidden delimiter bytes or unsupported HTTP version")
  | Some to_wire =>
      do! write_request_bytes to_wire;
      let! flushed := on_writer (attempt poll_flush) in
      match flushed with
      | inr _ => fail (because WriteError "flushing request header" (Foreign "I/O error"))
      | inl _ =>
          do! upd (set_request_written (Some req));
          ret (zlen to_wire)
      end
  end.

Definition do_write_body (b : list byte) : CM (option Z) :=
  let! written := on_writer (BodyWriter.write_body b) in
  do! (match written with
       | Some n => upd (fun s => set_bytes_sent (wadd (bytes_sent s) n) s)
       | None => ret tt
       end);
  ret written.

Definition write_body (b : list byte) : CM (option Z) :=
  let! s := get in
  with_timeout (write_timeout s) (explain WriteTimedout "writing body") (do_write_body b).

Definition maybe_force_close_body_reader : CM unit :=
  upd (fun s =>
    if upgraded s && received_upgrade_req_body s && negb (body_done (body_reader s))
    then set_body_reader (init_content_length 0 [] (body_reader s)) s else s).

Definition finish_body : CM (option Z) :=
  let! res := on_writer BodyWriter.finish in
  let! flushed := on_writer (attempt poll_flush) in
  match flushed with
  | inr _ => fail (because WriteError "flushing body" (Foreign "I/O error"))
  | inl _ => do! maybe_force_close_body_reader; ret res
  end.

(** ** What the session knows *)

Definition get_header (name : list byte) (s : HttpSession) : option (list byte) :=
  r ← response_header s; hm_get (resp_headers r) name.
Definition get_status (s : HttpSession) : option Z := resp_status <$> response_header s.

Definition session_is_upgrade_req (s : HttpSession) : bool :=
  match request_written s with Some req => is_upgrade_req req | None => false end.
Definition is_upgrade (header : ResponseHeader hmap) (s : HttpSession) : option bool :=
  if session_is_upgrade_req s then Some (is_upgrade_resp header) else None.

Definition maybe_upgrade_body_writer (s : HttpSession) : HttpSession :=
  if upgraded s then
    let s := set_received_upgrade_req_body true s in
    set_io (set_wr (writer_convert_to_close_delimited (wr (io s))) (io s)) s
  else s.

Definition get_content_length (s : HttpSession) : option Z + Error :=
  match response_header s with
  | Some h => content_length_for_framing (resp_headers h)
  | None => inl None
  end.

Definition is_chunked_encoding (s : HttpSession) : bool :=
  match response_header s with
  | Some h => is_chunked_encoding_from_headers (resp_headers h)
  | None => false
  end.

(** ** Framing the response *)

(** The status decides alone ([inl]: what to do), or says whether this is an
    upgrade ([inr]). *)
Definition body_by_status (s : HttpSession) : (list byte -> BodyReader -> BodyReader) + bool :=
  match get_status s with
  | Some code =>
      if code =? 101 then inr (session_is_upgrade_req s)
      else if (100 <=? code) && (code <=? 199) then inl (fun _ r => r)
      else if bool_decide (code ∈ [204; 304]) then inl (init_content_length 0)
      else inr false
  | None => inr false
  end.

Definition init_body_reader : CM unit :=
  let! s := get in
  if need_init (body_reader s) then
    let! preread := unwrap (preread_body s ≫= fun r => BufRef_get r (buf s)) in
    let init f := upd (fun s => set_body_reader (f preread (body_reader s)) s) in
    match body_by_status s with
    | inl f => init f
    | inr upgraded =>
        if match request_written s with
           | Some req => bool_decide (req_method req = bytes_of "HEAD")
           | None => false
           end then init (init_content_length 0)
        else if upgraded then do! init init_close_delimited; upd (set_close_delimited_resp true)
        else if is_chunked_encoding s then init init_chunked
        else match get_content_length s with
             | inl (Some cl) => init (init_content_length cl)
             | _ => do! init init_close_delimited; upd (set_close_delimited_resp true)
             end
    end
  else ret tt.

Definition validate_response : CM unit :=
  let! s := get in
  let! h := unwrap (response_header s) in
  match validate_content_length (resp_headers h) with
  | inl _ => ret tt
  | inr e =>
      if allow_h1_response_invalid_content_length s && content_length_is_single_token (resp_headers h)
      then ret tt else fail e
  end.

(** ** Reading the response head *)

Definition clear_response_header_read_state (s : HttpSession) : HttpSession :=
  set_preread_body None (set_response_header_read_buf [] s).

Definition fail_response_header_read {A} (e : Error) : CM A :=
  do! upd clear_response_header_read_state; fail e.

(** The fields of a head, normalized. *)
Fixpoint append_headers (refs : list KVRef) (b : list byte) (h : ResponseHeader hmap)
    : option (ResponseHeader hmap + Error) :=
  match refs with
  | [] => Some (inl h)
  | r :: refs =>
      name ← get_name_bytes r b;
      value ← get_value_bytes r b;
      match resp_append_header (FromText name) (header_value_from_raw value) h with
      | (h, inl _) => append_headers refs b h
      | (_, inr e) => Some (inr (because InvalidHTTPHeader "while parsing request header" (BErr e)))
      end
  end.

Definition has_both_te_and_cl (h : ResponseHeader hmap) : bool :=
  hm_contains_key (resp_headers h) h_content_length && hm_contains_key (resp_headers h) h_transfer_encoding.

(** A complete head of [n] bytes at the front of the buffer. *)
Definition response_parsed (n : Z) (p : ParsedResponse) : CM Z :=
  let! s := get in
  let b := response_header_read_buf s in
  let total_read := zlen b in
  let header_refs := populate_headers (pp_headers p) in
  let! code := unwrap (pp_code p) in
  match resp_build code with
  | inr e => fail_response_header_read e
  | inl h =>
      let h := resp_set_version (Server.version_of (pp_version p)) h in
      let h := set_reason_phrase (pp_reason p) h in
      do! upd (set_response_header_read_buf []);
      let! built := unwrap (append_headers header_refs b h) in
      match built with
      | inr e => fail_response_header_read e
      | inl h =>
          let h := if has_both_te_and_cl h then (resp_remove_header h_content_length h).1 else h in
          do! upd (set_raw_header (Some (BufRefMk 0 n)));
          do! upd (set_preread_body (Some (BufRefMk n total_read)));
          do! upd (set_buf b);
          do! upd (set_response_header (Some h));
          do! (fun s => match validate_response s with
                        | Fail e s' => fail_response_header_read e s'
                        | r => r
                        end);
          do! upd (fun s => set_upgraded (default false (is_upgrade h s)) s);
          do! init_body_reader;
          ret n
      end
  end.

Definition head_closed (already_read : Z) : Error :=
  with_retry ReusedOnly (explain ConnectionClosed "while reading response headers").
Definition head_read_error (already_read : Z) : Error :=
  let e := because ReadError "while reading response headers" (Foreign "I/O error") in
  if raw_os_error io_error then with_retry ReusedOnly e else e.

(** One read of the head: bytes are kept in the session as they come. *)
Definition read_head_bytes : CM unit :=
  let! s := get in
  let already_read := zlen (response_header_read_buf s) in
  if MAX_HEADER_SIZE <? already_read then
    fail_response_header_read (explain InvalidHTTPHeader "Response header larger than MAX_HEADER_SIZE")
  else
    let! r := on_timer (read_timeout s) stream_read in
    match r with
    | None => fail_response_header_read (explain ReadTimedout "while reading response headers")
    | Some (inl []) => fail_response_header_read (head_closed already_read)
    | Some (inl bytes) => upd (fun s => set_response_header_read_buf (response_header_read_buf s ++ bytes) s)
    | Some (inr _) => fail_response_header_read (head_read_error already_read)
    end.

Fixpoint read_response_loop (fuel : nat) (parse_existing_buffer : bool) : CM Z :=
  match fuel with
  | O => panic
  | S fuel =>
      let! s := get in
      let read_on := do! read_head_bytes; read_response_loop fuel true in
      if parse_existing_buffer then
        let config := response_parser_config s in
        match parse_head (httparse_response config) (response_header_read_buf s) (header_limit config) with
        | inl (PComplete n p) => response_parsed n p
        | inl PPartial => read_on
        | inr e => fail_response_header_read (because InvalidHTTPHeader "buf" (Foreign "parse error"))
        end
      else read_on
  end.

Definition read_response (fuel : nat) : CM Z :=
  let! s := get in
  let! parse_existing_buffer :=
    (if bool_decide (response_header_read_buf s = []) then
       do! upd (set_preread_body None);
       match preread_body s with
       | Some r =>
           if BufRef_is_empty r then do! upd (set_buf []); ret false
           else
             let! preread := unwrap (BufRef_get r (buf s)) in
             do! upd (set_response_header_read_buf preread);
             ret true
       | None => do! upd (set_buf []); ret false
       end
     else ret true) in
  read_response_loop fuel parse_existing_buffer.

Definition read_resp_header_parts (fuel : nat) : CM (ResponseHeader hmap) :=
  let! _ := read_response fuel in
  let! s := get in
  unwrap (response_header s).

(** ** Reading the response body *)

Definition do_read_body : CM (option BufRef) :=
  do! init_body_reader;
  on_reader (BodyReader.read_body parse_chunk_size).

(** [read_body_ref] and [read_body_bytes]. *)
Definition read_body_bytes : CM (option (list byte)) :=
  let! s := get in
  let! read := with_timeout (read_timeout s) (explain ReadTimedout "reading body") do_read_body in
  match read with
  | None => ret None
  | Some b =>
      let! s := get in
      let! slice := unwrap (get_body (body_reader s) b) in
      do! upd (fun s => set_body_recv (saturating_add (body_recv s) (zlen slice)) s);
      ret (Some slice)
  end.

Definition is_body_done : CM bool :=
  do! init_body_reader;
  let! s := get in ret (body_done (body_reader s)).

(** ** Tasks *)

Definition should_read_resp_header (s : HttpSession) : bool :=
  match get_status s with
  | Some code => negb (code =? 101) && (100 <=? code) && (code <=? 199)
  | None => true
  end.

Definition read_response_task (fuel : nat) : CM (@Server.HttpTask hmap) :=
  let! s := get in
  if should_read_resp_header s then
    let! resp_header := read_resp_header_parts fuel in
    let! end_of_body := is_body_done in
    ret (Server.THeader resp_header end_of_body)
  else
    let! done := is_body_done in
    if (done : bool) then ret Server.TDone
    else
      let! body := read_body_bytes in
      let! end_of_body := is_body_done in
      let! s := get in
      ret (if upgraded s then Server.TUpgradedBody body end_of_body else Server.TBody body end_of_body).

(** ** Keepalive and reuse *)

Definition set_keepalive (seconds : option Z) (s : HttpSession) : HttpSession :=
  set_keepalive_timeout
    match seconds with
    | Some sec => if 0 <? sec then KTimeout (sec * 1000) else KInfinite
    | None => KOff
    end s.

Definition will_keepalive (s : HttpSession) : bool :=
  match keepalive_timeout s with KOff => false | _ => true end.

Definition is_connection_keepalive (s : HttpSession) : option bool :=
  match request_written s ≫= fun req => is_buf_keepalive (hm_get (req_headers req) h_connection) with
  | Some false => Some false
  | _ => is_buf_keepalive (get_header h_connection s)
  end.

(** One parameter of a Keep-Alive field. *)
Definition keepalive_param (acc : option Z * option Z) (param : list byte) : option Z * option Z :=
  match split_once Byte.x3d param with
  | Some (k, v) =>
      if bool_decide (trim k = bytes_of "timeout") then (parse_u64 (trim v), acc.2)
      else if bool_decide (trim k = bytes_of "max") then (acc.1, parse_u64 (trim v))
      else acc
  | None => acc
  end.

Definition get_keepalive_values (s : HttpSession) : option Z * option Z :=
  match get_header (bytes_of "keep-alive") s with
  | Some value => if is_utf8 value then foldl keepalive_param (None, None) (split_byte COMMA value) else (None, None)
  | None => (None, None)
  end.

Definition respect_keepalive (s : HttpSession) : HttpSession :=
  if upgraded s || bool_decide (get_status s = Some 101) then set_keepalive None s
  else if need_init (body_reader s) || close_delimited_resp s then set_keepalive None s
  else if has_bytes_overread (body_reader s) then set_keepalive None s
  else if bool_decide (resp_version <$> response_header s = Some HTTP_10) &&
          bool_decide (is_Some (get_header h_transfer_encoding s)) then set_keepalive None s
  else
    match is_connection_keepalive s with
    | Some true => set_keepalive (Some (default 0 (get_keepalive_values s).1)) s
    | Some false => set_keepalive None s
    | None =>
        set_keepalive (if bool_decide (resp_version <$> response_header s = Some HTTP_11) then Some 0 else None) s
    end.

(** [None]: the connection is shut down. *)
Definition reuse (s : HttpSession) : option (list rd_event) :=
  let s := if negb (body_complete (body_reader s)) || has_bytes_overread (body_reader s)
           then set_keepalive None s else s in
  match keepalive_timeout s with
  | KOff => None
  | _ => Some (underlying_stream s)
  end.

End session.
End Client.
