(* ===== verification/H1ClientSpec.v ===== *)
(** * HTTP/1 client session: theorems *)

From stdpp Require Import base list numbers strings.
From Stdlib Require Import ZArith Lia.
From S2P Require Import Prelude Errors Text Headers Parser BodyReader BodyReaderSafety BodyDecode BodySpec BodyFraming BodySteady.
From S2P Require Import BodyWriter Framing HeadersSpec FramingSpec H1Server H1Client.
Local Open Scope Z_scope.

Lemma BufRef_empty_get r b w : BufRef_is_empty r = true -> BufRef_get r b = Some w -> w = [].
Proof.
  unfold BufRef_is_empty, BufRef_get. intros He%Z.eqb_eq Hs. apply slice_length in Hs.
  apply zlen_zero. lia.
Qed.
Lemma BufRef_nonempty_get r b w : BufRef_is_empty r = false -> BufRef_get r b = Some w -> w <> [].
Proof.
  unfold BufRef_is_empty, BufRef_get. intros He%Z.eqb_neq Hs ->. apply slice_length in Hs.
  change (zlen []) with 0 in Hs. lia.
Qed.

Section client.
Context {hmap : Type -> Type} `{HM : HMap hmap, HL : !HMapLaws hmap} {Uri : Type} `{HC : HttpCrate Uri}.
Context (httparse_response : ResponseParserConfig -> Z -> list byte -> ParseStatus ParsedResponse + ParseError).
Context (parse : list byte -> chunk_status) (io_error : IoError).

Abbreviation Sess := (@Client.HttpSession hmap Uri).
Abbreviation Req := (RequestHeader hmap Uri).
Abbreviation Resp := (ResponseHeader hmap).
Abbreviation Task := (@Server.HttpTask hmap).

(** ** What a response says about its body, after RFC 9112, section 6.3 *)

Definition is_info (h : Resp) : bool :=
  (100 <=? resp_status h) && (resp_status h <=? 199) && negb (resp_status h =? 101).

Definition is_head (req : option Req) : bool :=
  match req with Some r => bool_decide (req_method r = bytes_of "HEAD") | None => false end.
Definition asks_upgrade (req : option Req) : bool :=
  match req with Some r => is_upgrade_req r | None => false end.

Definition response_framing (req : option Req) (h : Resp) : Framing :=
  if bool_decide (resp_status h ∈ [204; 304]) || is_head req then FLength 0
  else if (resp_status h =? 101) && asks_upgrade req then FClose
  else if is_chunked_encoding_from_headers (resp_headers h) then FChunked
  else match content_length_for_framing (resp_headers h) with
       | inl (Some n) => FLength n
       | _ => FClose
       end.

(** The header a complete head parses to. *)
Definition response_of (p : ParsedResponse) (b : list byte) : option (Resp + Error) :=
  code ← pp_code p;
  match resp_build code with
  | inr e => Some (inr e)
  | inl h => Client.append_headers (populate_headers (pp_headers p)) b
               (set_reason_phrase (pp_reason p) (resp_set_version (Server.version_of (pp_version p)) h))
  end.

Definition resp_without_both (h : Resp) : Resp :=
  if Client.has_both_te_and_cl h then (resp_remove_header h_content_length h).1 else h.

(** A response that is accepted; with the option, one unusable Content-Length is. *)
Definition resp_valid (allow : bool) (h : Resp) : Prop :=
  validate_content_length (resp_headers h) = inl tt \/
  allow && content_length_is_single_token (resp_headers h) = true.

(** ** Reading a head *)

(** The bytes of the next head that have been read. *)
Definition at_hand (s : Sess) : option (list byte) :=
  if bool_decide (Client.response_header_read_buf s = []) then
    match Client.preread_body s with
    | Some r => BufRef_get r (Client.buf s)
    | None => Some []
    end
  else Some (Client.response_header_read_buf s).

Record reading (s : Sess) (bytes : list byte) : Prop := {
  rd_good : good_stream (Client.underlying_stream s);
  rd_quiet : Forall (fun b => b = false) (Client.awaits s);
  rd_hand : exists w, at_hand s = Some w /\ w ++ flat (Client.underlying_stream s) = bytes
}.

(** What reading a head does not touch before the head is complete. *)
Record kept (s s' : Sess) : Prop := {
  kp_reader : Client.body_reader s' = Client.body_reader s;
  kp_header : Client.response_header s' = Client.response_header s;
  kp_request : Client.request_written s' = Client.request_written s;
  kp_allow : Client.allow_h1_response_invalid_content_length s' =
             Client.allow_h1_response_invalid_content_length s;
  kp_config : Client.response_parser_config s' = Client.response_parser_config s;
  kp_close : Client.close_delimited_resp s' = Client.close_delimited_resp s
}.

Lemma kept_refl s : kept s s.
Proof. done. Qed.
Lemma kept_trans s1 s2 s3 : kept s1 s2 -> kept s2 s3 -> kept s1 s3.
Proof. intros [] []. constructor; congruence. Qed.

Abbreviation read_loop := (Client.read_response_loop (HM := HM) (HC := HC) httparse_response io_error).

(** A head that has not been read whole, or the point where it is. *)
Definition head_progress (fuel : nat) (pe : bool) (s : Sess) (head : list byte) (p : ParsedResponse)
    (rest : list byte) : Prop :=
  (exists s', read_loop fuel pe s = Cancelled s' /\ kept s s' /\ reading s' (head ++ rest) /\
     zlen (Client.underlying_stream s') < zlen (Client.underlying_stream s)) \/
  (exists s' extra, read_loop fuel pe s = Client.response_parsed (zlen head) p s' /\ kept s s' /\
     Client.response_header_read_buf s' = head ++ extra /\ extra ++ flat (Client.underlying_stream s') = rest /\
     good_stream (Client.underlying_stream s') /\ Forall (fun b => b = false) (Client.awaits s') /\
     zlen (Client.underlying_stream s') <= zlen (Client.underlying_stream s)).

(** One read: bytes come, or the future is dropped with what it has. *)
Lemma read_head_bytes_run (s : Sess) :
  good_stream (Client.underlying_stream s) -> Forall (fun b => b = false) (Client.awaits s) ->
  flat (Client.underlying_stream s) <> [] ->
  zlen (Client.response_header_read_buf s) <= MAX_HEADER_SIZE ->
  (exists aw st, Client.read_head_bytes io_error s =
     Cancelled (Client.set_awaits aw (Client.set_underlying_stream st s)) /\
     Forall (fun b => b = false) aw /\ Client.underlying_stream s = RPend :: st) \/
  (exists bs st, Client.read_head_bytes io_error s =
     Val tt (Client.set_response_header_read_buf (Client.response_header_read_buf s ++ bs)
               (Client.set_underlying_stream st s)) /\
     bs <> [] /\ Client.underlying_stream s = RData bs :: st).
Proof.
  intros Hg Hq Hne Hmax. apply Z.ltb_ge in Hmax.
  destruct (Client.underlying_stream s) as [|[bs| |] st] eqn:Hst; [done| |by inversion Hg|].
  - right. exists bs, st. apply Forall_cons in Hg as [Hbs _].
    unfold Client.read_head_bytes, Client.on_timer, Client.stream_read, bind, get. cbv beta zeta.
    rewrite Hmax. destruct (Client.read_timeout s); rewrite Hst; by destruct bs.
  - left. unfold Client.read_head_bytes, Client.on_timer, Client.stream_read, bind, get. cbv beta zeta.
    rewrite Hmax. destruct (Client.read_timeout s); rewrite Hst; simpl.
    + destruct (Client.awaits s) as [|[] aw] eqn:Haw.
      * exists [], st. split; [|done]. f_equal. destruct s; simpl in *; by subst.
      * by apply Forall_cons in Hq as [? _].
      * apply Forall_cons in Hq as [_ Hq]. by exists aw, st.
    + exists (Client.awaits s), st. split; [|done]. by destruct s.
Qed.

Lemma read_loop_head head p rest : forall fuel (pe : bool) (s : Sess),
  parses_to (httparse_response (Client.response_parser_config s))
    (header_limit (Client.response_parser_config s)) head p ->
  good_stream (Client.underlying_stream s) -> Forall (fun b => b = false) (Client.awaits s) ->
  Client.response_header_read_buf s ++ flat (Client.underlying_stream s) = head ++ rest ->
  (Client.response_header_read_buf s = [] -> Client.preread_body s = None) ->
  head <> [] -> zlen head <= MAX_HEADER_SIZE ->
  (if pe then Client.response_header_read_buf s <> [] else Client.response_header_read_buf s = []) ->
  zlen (Client.underlying_stream s) + (if pe then 0 else 1) < Z.of_nat fuel ->
  head_progress fuel pe s head p rest.
Proof.
  induction fuel as [|fuel IH]; intros pe s Hp Hg Hq Heq Hpre Hne Hmax Hpe Hfuel;
    [pose proof (zlen_nonneg (Client.underlying_stream s)); destruct pe; lia|].
  assert (zlen (Client.response_header_read_buf s) < zlen head ->
          (Client.response_header_read_buf s = [] \/ pe = true) ->
          (let! _ := Client.read_head_bytes io_error in read_loop fuel true) s = read_loop (S fuel) pe s ->
          head_progress (S fuel) pe s head p rest) as Hread.
  { intros Hshort Hor Heql.
    destruct (read_head_bytes_run s) as [(aw & st & Hr & Haw & Hst)|(bs & st & Hr & Hbs & Hst)]; try done.
    - intros Hf. rewrite Hf, app_nil_r in Heq. rewrite Heq, zlen_app in Hshort.
      pose proof (zlen_nonneg rest). lia.
    - lia.
    - left. eexists. split; [rewrite <- Heql; unfold bind at 1; rewrite Hr; reflexivity|].
      split; [done|]. split; [|simpl; rewrite Hst, zlen_cons; lia].
      rewrite Hst in Hg, Heq. apply Forall_cons in Hg as [_ Hg]. constructor; [done|done|].
      exists (Client.response_header_read_buf s). split; [|done]. unfold at_hand. simpl.
      case_bool_decide as Hb; [|done]. by rewrite Hpre, Hb.
    - rewrite Hst in Hg, Heq. apply Forall_cons in Hg as [_ Hg].
      destruct (IH true (Client.set_response_header_read_buf (Client.response_header_read_buf s ++ bs)
                           (Client.set_underlying_stream st s))) as [(s' & Hc & Hk & Hrd & Hlt)|Hdone]; try done.
      + simpl. rewrite <- app_assoc. done.
      + simpl. intros Hnil. apply app_nil in Hnil as [_ ?]. done.
      + simpl. intros Hnil. apply app_nil in Hnil as [_ ?]. done.
      + simpl. rewrite Hst, zlen_cons in Hfuel. destruct pe; lia.
      + left. exists s'. split; [rewrite <- Heql; unfold bind at 1; rewrite Hr; exact Hc|].
        split; [by destruct Hk|]. split; [done|]. rewrite Hst, zlen_cons. simpl in Hlt. lia.
      + right. destruct Hdone as (s' & extra & Hc & Hk & Hrb & Hrest & Hg' & Hq' & Hle).
        exists s', extra. split; [rewrite <- Heql; unfold bind at 1; rewrite Hr; exact Hc|].
        split; [by destruct Hk|]. split_and!; try done. rewrite Hst, zlen_cons. simpl in Hle. lia. }
  destruct pe.
  - destruct (prefix_split (Client.response_header_read_buf s) (flat (Client.underlying_stream s)) head rest Heq)
      as [[Hshort Hpre']|(extra & Hb & Hrest)].
    + apply Hread; [done|by right|]. cbn [Client.read_response_loop]. unfold bind at 2, get. cbv beta zeta.
      destruct Hp as [Hpart _]. rewrite Hpre', Hpart; [done|]. split; [by apply zlen_pos|done].
    + right. exists s, extra. split; [|split_and!; try done; lia].
      cbn [Client.read_response_loop]. unfold bind at 1, get. cbv beta zeta.
      destruct Hp as [_ Hcomp]. by rewrite Hb, Hcomp.
  - apply Hread; [rewrite Hpe; by apply zlen_pos|by left|].
    cbn [Client.read_response_loop]. unfold bind at 2, get. done.
Qed.

Abbreviation read_resp := (Client.read_response (HM := HM) (HC := HC) httparse_response io_error).

Lemma read_response_head head p rest fuel (s : Sess) :
  parses_to (httparse_response (Client.response_parser_config s))
    (header_limit (Client.response_parser_config s)) head p ->
  reading s (head ++ rest) -> head <> [] -> zlen head <= MAX_HEADER_SIZE ->
  zlen (Client.underlying_stream s) + 1 < Z.of_nat fuel ->
  (exists s', read_resp fuel s = Cancelled s' /\ kept s s' /\ reading s' (head ++ rest) /\
     zlen (Client.underlying_stream s') < zlen (Client.underlying_stream s)) \/
  (exists s' extra, read_resp fuel s = Client.response_parsed (zlen head) p s' /\ kept s s' /\
     Client.response_header_read_buf s' = head ++ extra /\ extra ++ flat (Client.underlying_stream s') = rest /\
     good_stream (Client.underlying_stream s') /\ Forall (fun b => b = false) (Client.awaits s') /\
     zlen (Client.underlying_stream s') <= zlen (Client.underlying_stream s)).
Proof.
  intros Hp [Hg Hq (w & Hw & Heq)] Hne Hmax Hfuel.
  assert (exists s0 pe, read_resp fuel s = read_loop fuel pe s0 /\ kept s s0 /\
            Client.underlying_stream s0 = Client.underlying_stream s /\ Client.awaits s0 = Client.awaits s /\
            Client.response_header_read_buf s0 = w /\
            (Client.response_header_read_buf s0 = [] -> Client.preread_body s0 = None) /\
            (if pe : bool then w <> [] else w = []))
    as (s0 & pe & Hr & Hk & Hst & Haw & Hrb & Hpre & Hpe).
  { unfold Client.read_response, at_hand in *. unfold bind at 1, get. cbv beta zeta.
    case_bool_decide as Hb.
    - unfold bind at 1, bind at 1, Client.upd, modify.
      destruct (Client.preread_body s) as [r|] eqn:Hpr.
      + destruct (BufRef_is_empty r) eqn:Her.
        * assert (w = []) as -> by (by eapply BufRef_empty_get). unfold bind, ret.
          eexists _, false. split; [reflexivity|]. by rewrite <- Hb.
        * unfold bind. rewrite Hw. simpl. eexists _, true. split; [reflexivity|].
          split; [done|]. split_and!; try done. by eapply BufRef_nonempty_get.
      + injection Hw as <-. unfold bind, ret. eexists _, false. split; [reflexivity|]. by rewrite <- Hb.
    - injection Hw as <-. exists s, true. by unfold bind, ret. }
  rewrite Hr, <- Hst. subst w.
  assert (head_progress fuel pe s0 head p rest) as [(s' & Hc & Hk' & Hrd & Hlt)|Hdone].
  { apply read_loop_head; try done.
    - by rewrite (kp_config _ _ Hk).
    - by rewrite Hst.
    - by rewrite Haw.
    - by rewrite Hst.
    - rewrite Hst. destruct pe; lia. }
  - left. exists s'. split; [done|]. split; [by eapply kept_trans|done].
  - right. destruct Hdone as (s' & extra & Hc & Hk' & Hd). exists s', extra. split; [done|].
    split; [by eapply kept_trans|done].
Qed.

(** ** A complete head *)

Lemma append_headers_more refs b extra (h h' : Resp) :
  Client.append_headers refs b h = Some (inl h') -> Client.append_headers refs (b ++ extra) h = Some (inl h').
Proof.
  revert h. induction refs as [|r refs IH]; intros h; [done|]. cbn [Client.append_headers].
  unfold get_name_bytes, get_value_bytes, BufRef_get.
  destruct (slice b (bref_start (kv_name r)) _) as [name|] eqn:Hn; simpl; [|done].
  rewrite (slice_app_Some _ _ _ _ _ Hn).
  destruct (slice b (bref_start (kv_value r)) _) as [value|] eqn:Hv; simpl; [|done].
  rewrite (slice_app_Some _ _ _ _ _ Hv). simpl.
  destruct (resp_append_header _ _ _) as [h1 [|]]; [apply IH|done].
Qed.

Lemma response_of_more p b extra (h : Resp) :
  response_of p b = Some (inl h) -> response_of p (b ++ extra) = Some (inl h).
Proof.
  unfold response_of. destruct (pp_code p) as [code|]; [|done]. simpl.
  destruct (resp_build code); [apply append_headers_more|done].
Qed.

Definition is_close (f : Framing) : bool := match f with FClose => true | _ => false end.

(** The session once its body reader is set up. *)
Definition after_init (f : Framing) (extra : list byte) (s : Sess) : Sess :=
  let s1 := Client.set_body_reader (framing_init false f extra (Client.body_reader s)) s in
  if is_close f then Client.set_close_delimited_resp true s1 else s1.

Lemma init_body_reader_run (s : Sess) h r extra :
  Client.response_header s = Some h -> Client.preread_body s = Some r ->
  BufRef_get r (Client.buf s) = Some extra -> need_init (Client.body_reader s) = true ->
  Client.init_body_reader s = Val tt (if is_info h then s
                                      else after_init (response_framing (Client.request_written s) h) extra s).
Proof.
  intros Hh Hp Hg Hn. unfold Client.init_body_reader, bind, get. cbv beta. rewrite Hn, Hp. simpl. rewrite Hg.
  unfold Client.body_by_status, Client.get_status, unwrap, ret. rewrite Hh. cbn [fmap option_fmap option_map].
  unfold response_framing, is_info, Client.is_chunked_encoding, Client.get_content_length.
  rewrite Hh. set (c := resp_status h).
  assert (asks_upgrade (Client.request_written s) = Client.session_is_upgrade_req s) as -> by done.
  fold (is_head (Client.request_written s)).
  destruct (Z.eqb_spec c 101) as [->|Hc]; simpl.
  - destruct (is_head _); simpl; [done|]. destruct (Client.session_is_upgrade_req s); simpl; [done|].
    destruct (is_chunked_encoding_from_headers _); [done|].
    by destruct (content_length_for_framing _) as [[]|].
  - rewrite andb_true_r. destruct ((100 <=? c) && (c <=? 199)) eqn:Hi.
    { unfold Client.upd, modify. f_equal. by destruct s. }
    case_bool_decide as H2; [done|]. simpl. destruct (is_head _); simpl; [done|].
    destruct (is_chunked_encoding_from_headers _); [done|].
    by destruct (content_length_for_framing _) as [[]|].
Qed.

(** The session when a head has been read. *)
Record head_taken (s s1 : Sess) (h : Resp) (extra : list byte) : Prop := {
  ht_header : Client.response_header s1 = Some h;
  ht_stream : Client.underlying_stream s1 = Client.underlying_stream s;
  ht_awaits : Client.awaits s1 = Client.awaits s;
  ht_request : Client.request_written s1 = Client.request_written s;
  ht_allow : Client.allow_h1_response_invalid_content_length s1 =
             Client.allow_h1_response_invalid_content_length s;
  ht_config : Client.response_parser_config s1 = Client.response_parser_config s;
  ht_upgraded : Client.upgraded s1 = asks_upgrade (Client.request_written s) && is_upgrade_resp h;
  ht_hand : exists r, Client.preread_body s1 = Some r /\ BufRef_get r (Client.buf s1) = Some extra;
  ht_buf : Client.response_header_read_buf s1 = [];
  ht_reader : Client.body_reader s1 =
    if is_info h then Client.body_reader s
    else framing_init false (response_framing (Client.request_written s) h) extra (Client.body_reader s);
  ht_close : Client.close_delimited_resp s1 =
    if is_info h then Client.close_delimited_resp s
    else is_close (response_framing (Client.request_written s) h) || Client.close_delimited_resp s
}.

Lemma response_parsed_run p head extra (s : Sess) h0 :
  Client.response_header_read_buf s = head ++ extra -> response_of p head = Some (inl h0) ->
  resp_valid (Client.allow_h1_response_invalid_content_length s) (resp_without_both h0) ->
  need_init (Client.body_reader s) = true ->
  exists s1, Client.response_parsed (zlen head) p s = Val (zlen head) s1 /\
    head_taken s s1 (resp_without_both h0) extra.
Proof.
  intros Hb Hof Hv Hn. apply (response_of_more _ _ extra) in Hof. unfold response_of in Hof.
  destruct (pp_code p) as [code|] eqn:Hcode; [|done]. simpl in Hof.
  unfold Client.response_parsed, bind at 1, get. cbv beta zeta. rewrite Hcode.
  unfold unwrap at 1, bind at 1, ret at 1. destruct (resp_build code) as [h1|e]; [|done].
  unfold bind at 1, Client.upd at 1, modify at 1. rewrite Hb.
  unfold bind at 1. unfold unwrap at 1. rewrite Hof. unfold ret at 1.
  fold (resp_without_both h0). set (h := resp_without_both h0) in *.
  unfold bind at 1 2 3 4 5, Client.upd at 1 2 3 4, modify.
  match goal with |- context [Client.validate_response ?st] => set (s2 := st) end.
  assert (Client.validate_response s2 = Val tt s2) as ->.
  { unfold Client.validate_response, bind, get. simpl. destruct Hv as [-> | Hv]; [done|].
    rewrite Hv. by destruct (validate_content_length _). }
  unfold bind at 1, Client.upd at 1, modify.
  match goal with |- context [bind Client.init_body_reader _ ?st] => set (s3 := st) end.
  assert (BufRef_get (BufRefMk (zlen head) (zlen (head ++ extra))) (head ++ extra) = Some extra) as Hget.
  { unfold BufRef_get. simpl. rewrite slice_Some by (rewrite zlen_app; pose proof (zlen_nonneg head);
      pose proof (zlen_nonneg extra); lia).
    rewrite zdrop_app_exact, ztake_ge; [done|]. rewrite zlen_app. lia. }
  unfold bind. rewrite (init_body_reader_run s3 h (BufRefMk (zlen head) (zlen (head ++ extra))) extra) by done.
  eexists. split; [reflexivity|].
  assert (Client.upgraded s3 = asks_upgrade (Client.request_written s) && is_upgrade_resp h) as Hup.
  { simpl. unfold Client.is_upgrade, Client.session_is_upgrade_req, asks_upgrade. simpl.
    by destruct (match Client.request_written s with Some _ => _ | None => _ end). }
  unfold after_init. change (Client.request_written s3) with (Client.request_written s).
  constructor; destruct (is_info h); try done; try destruct (is_close _); try done;
    eexists; (split; [reflexivity|exact Hget]).
Qed.

(** ** The tasks of a response *)

Abbreviation read_task := (Client.read_response_task (HM := HM) (HC := HC) httparse_response parse io_error).

Definition last_task (t : Task) : bool :=
  match t with
  | Server.THeader _ e | Server.TBody _ e | Server.TUpgradedBody _ e => e
  | _ => true
  end.

Definition task_data (t : Task) : list byte :=
  match t with
  | Server.TBody (Some d) _ | Server.TUpgradedBody (Some d) _ => d
  | _ => []
  end.

Definition task_header (t : Task) : option Resp :=
  match t with Server.THeader h _ => Some h | _ => None end.

(** A caller that reads task after task; a future it drops is called again. *)
Fixpoint read_tasks (n fuel : nat) (s : Sess) : option (list Task * Sess) :=
  match fuel with
  | O => None
  | S fuel =>
      match read_task n s with
      | Val t s' => if last_task t then Some ([t], s')
                    else '(ts, s'') ← read_tasks n fuel s'; Some (t :: ts, s'')
      | Cancelled s' => read_tasks n fuel s'
      | _ => None
      end
  end.

Definition then_task (t : Task) (r : option (list Task * Sess)) (s : Sess) : option (list Task * Sess) :=
  if last_task t then Some ([t], s) else '(ts, s') ← r; Some (t :: ts, s').

(** A message head: its bytes, what they parse to, and the header it is. *)
Record Head := MkHead { hd_bytes : list byte; hd_parsed : ParsedResponse; hd_header : Resp }.

Record head_ok (s : Sess) (m : Head) : Prop := {
  hk_nonempty : hd_bytes m <> [];
  hk_size : zlen (hd_bytes m) <= MAX_HEADER_SIZE;
  hk_parses : parses_to (httparse_response (Client.response_parser_config s))
                (header_limit (Client.response_parser_config s)) (hd_bytes m) (hd_parsed m);
  hk_header : exists h0, response_of (hd_parsed m) (hd_bytes m) = Some (inl h0) /\
                hd_header m = resp_without_both h0;
  hk_valid : resp_valid (Client.allow_h1_response_invalid_content_length s) (hd_header m)
}.

Lemma head_ok_ext (s s' : Sess) m :
  Client.response_parser_config s' = Client.response_parser_config s ->
  Client.allow_h1_response_invalid_content_length s' = Client.allow_h1_response_invalid_content_length s ->
  head_ok s m -> head_ok s' m.
Proof. intros H1 H2 []. constructor; try done; by rewrite ?H1, ?H2. Qed.

Lemma is_body_done_run (s s0 : Sess) h extra :
  head_taken s0 s h extra -> need_init (Client.body_reader s0) = true ->
  Client.is_body_done s = Val (if is_info h then false else body_done (Client.body_reader s)) s.
Proof.
  intros [] Hn. destruct ht_hand0 as (r & Hr & Hget). unfold Client.is_body_done, bind, get.
  destruct (is_info h) eqn:Hi.
  - rewrite (init_body_reader_run s h r extra), Hi by (done || by rewrite ht_reader0).
    rewrite ht_reader0. unfold need_init, body_done in *. by destruct (body_state (Client.body_reader s0)).
  - unfold Client.init_body_reader, bind, get.
    assert (need_init (Client.body_reader s) = false) as ->; [|done].
    rewrite ht_reader0. apply started_need_init, framing_started.
Qed.

Lemma head_task n m rest : forall (s : Sess),
  head_ok s m -> reading s (hd_bytes m ++ rest) -> need_init (Client.body_reader s) = true ->
  Client.should_read_resp_header s = true -> zlen (Client.underlying_stream s) + 1 < Z.of_nat n ->
  exists k s0 s1 extra, 1 <= Z.of_nat k <= zlen (Client.underlying_stream s) - zlen (Client.underlying_stream s1) + 1 /\
    kept s s0 /\ head_taken s0 s1 (hd_header m) extra /\ good_stream (Client.underlying_stream s1) /\
    Forall (fun b => b = false) (Client.awaits s1) /\ extra ++ flat (Client.underlying_stream s1) = rest /\
    forall f, read_tasks n (k + f) s =
      then_task (Server.THeader (hd_header m)
                   (if is_info (hd_header m) then false else body_done (Client.body_reader s1)))
        (read_tasks n f s1) s1.
Proof.
  intros s. remember (length (Client.underlying_stream s)) as len eqn:Hlen. revert s Hlen.
  induction (lt_wf len) as [len _ IH]. intros s Hlen Hok Hrd Hn Hsh Hfuel.
  pose proof Hok as []. destruct hk_header0 as (h0 & Hof & Hh0).
  destruct (read_response_head (hd_bytes m) (hd_parsed m) rest n s)
    as [(s' & Hc & Hk & Hrd' & Hlt)|(s' & extra & Hc & Hk & Hrb & Hrest & Hg & Hq & Hle)]; try done.
  - destruct (IH (length (Client.underlying_stream s'))) with (s := s')
      as (k & s0 & s1 & extra & Hkk & Hk0 & Ht & Hrem).
    { unfold zlen in Hlt. lia. } { done. }
    { by apply (head_ok_ext s); [apply Hk..|]. } { done. } { by rewrite (kp_reader _ _ Hk). }
    { unfold Client.should_read_resp_header, Client.get_status in *. by rewrite (kp_header _ _ Hk). } { lia. }
    destruct Hrem as (Hg & Hq & Hrest & Hgo). exists (S k), s0, s1, extra.
    split; [lia|]. split; [by eapply kept_trans|]. split; [done|]. split_and!; try done.
    intros f. rewrite <- Hgo. cbn [Nat.add read_tasks]. unfold Client.read_response_task, bind at 1, get.
    rewrite Hsh. unfold Client.read_resp_header_parts, bind. by rewrite Hc.
  - destruct (response_parsed_run (hd_parsed m) (hd_bytes m) extra s' h0) as (s1 & Hp & Ht); try done.
    { rewrite <- Hh0, (kp_allow _ _ Hk). done. } { by rewrite (kp_reader _ _ Hk). }
    rewrite <- Hh0 in Ht. exists 1%nat, s', s1, extra.
    rewrite (ht_stream _ _ _ _ Ht). split; [lia|]. split; [done|]. split; [done|]. split; [done|].
    split; [by rewrite (ht_awaits _ _ _ _ Ht)|]. split; [done|]. intros f.
    cbn [Nat.add read_tasks]. unfold Client.read_response_task, bind at 1, get. rewrite Hsh.
    unfold Client.read_resp_header_parts, bind. rewrite Hc, Hp. unfold get.
    rewrite (ht_header _ _ _ _ Ht). simpl.
    rewrite (is_body_done_run s1 s' (hd_header m) extra Ht) by (by rewrite (kp_reader _ _ Hk)). done.
Qed.

(** ** The body of a response *)

Record body_read (s s' : Sess) (r : reader_io) : Prop := {
  br_reader : Client.body_reader s' = r.1;
  br_stream : Client.underlying_stream s' = r.2;
  br_header : Client.response_header s' = Client.response_header s;
  br_request : Client.request_written s' = Client.request_written s;
  br_close : Client.close_delimited_resp s' = Client.close_delimited_resp s;
  br_upgraded : Client.upgraded s' = Client.upgraded s;
  br_awaits : Forall (fun b => b = false) (Client.awaits s) -> Forall (fun b => b = false) (Client.awaits s')
}.

Lemma body_read_trans s1 s2 s3 r r' : body_read s1 s2 r -> body_read s2 s3 r' -> body_read s1 s3 r'.
Proof. intros [] []. constructor; [congruence..|auto]. Qed.

Lemma client_init_not_needed (s : Sess) :
  started (Client.body_reader s) -> Client.init_body_reader s = Val tt s.
Proof. intros Hs. unfold Client.init_body_reader, bind, get. by rewrite (started_need_init _ Hs). Qed.

Lemma is_body_done_started (s : Sess) :
  started (Client.body_reader s) -> Client.is_body_done s = Val (body_done (Client.body_reader s)) s.
Proof. intros Hs. unfold Client.is_body_done, bind, get. by rewrite (client_init_not_needed s Hs). Qed.

(** One call of the session that reads the body. *)
Lemma client_read_body_bytes_run (s : Sess) :
  started (Client.body_reader s) -> Forall (fun b => b = false) (Client.awaits s) ->
  match read_body parse (Client.body_reader s, Client.underlying_stream s) with
  | Val None r => exists s', Client.read_body_bytes parse s = Val None s' /\ body_read s s' r
  | Val (Some ref) r =>
      match get_body r.1 ref with
      | Some d => exists s', Client.read_body_bytes parse s = Val (Some d) s' /\ body_read s s' r
      | None => True
      end
  | Cancelled r => exists s', Client.read_body_bytes parse s = Cancelled s' /\ body_read s s' r
  | _ => True
  end.
Proof.
  intros Hs Hq. unfold Client.read_body_bytes, Client.with_timeout, Client.on_timer, bind, get. cbv beta.
  assert (Client.do_read_body parse s = Client.on_reader (read_body parse) s) as Hdo.
  { unfold Client.do_read_body, bind. by rewrite (client_init_not_needed s Hs). }
  unfold Client.on_reader in Hdo. destruct (read_body parse _) as [[ref|] r| |r|]; try done.
  - destruct (get_body r.1 ref) as [d|] eqn:Hg; [|done].
    destruct (Client.read_timeout s); rewrite Hdo; simpl; rewrite Hg; simpl;
      eexists; split; [reflexivity|done|reflexivity|done].
  - destruct (Client.read_timeout s); rewrite Hdo; simpl; eexists; split; [reflexivity|done|reflexivity|done].
  - destruct (Client.read_timeout s); rewrite Hdo; simpl; [|by eexists].
    destruct (Client.awaits s) as [|[] aw] eqn:Haw.
    + by eexists.
    + by apply Forall_cons in Hq as [? _].
    + eexists. split; [reflexivity|]. constructor; try done. simpl. rewrite Haw.
      by intros [_ ?]%Forall_cons.
Qed.

Lemma read_task_body n (s : Sess) :
  started (Client.body_reader s) -> Client.should_read_resp_header s = false ->
  read_task n s =
  if body_done (Client.body_reader s) then Val Server.TDone s
  else match Client.read_body_bytes parse s with
       | Val b s1 =>
           match Client.is_body_done s1 with
           | Val e s2 => Val (if Client.upgraded s2 then Server.TUpgradedBody b e else Server.TBody b e) s2
           | Fail e s2 => Fail e s2 | Cancelled s2 => Cancelled s2 | Panic => Panic
           end
       | Fail e s1 => Fail e s1 | Cancelled s1 => Cancelled s1 | Panic => Panic
       end.
Proof.
  intros Hs Hsh. unfold Client.read_response_task, bind, get. cbv beta. rewrite Hsh.
  rewrite (is_body_done_started s Hs). by destruct (body_done (Client.body_reader s)).
Qed.

Lemma body_tasks n : forall fuel data r (s : Sess),
  started (Client.body_reader s) -> Forall (fun b => b = false) (Client.awaits s) ->
  Client.should_read_resp_header s = false ->
  read_all parse fuel (Client.body_reader s, Client.underlying_stream s) = Some (data, r) ->
  body_done r.1 = true ->
  exists ts s', read_tasks n fuel s = Some (ts, s') /\ concat (map task_data ts) = data /\
    omap task_header ts = [] /\ body_read s s' r.
Proof.
  induction fuel as [|fuel IH]; intros data r s Hs Hq Hsh Hall Hd; [done|].
  cbn [read_all] in Hall. cbn [read_tasks]. rewrite (read_task_body n s Hs Hsh).
  destruct (body_done (Client.body_reader s)) eqn:Hnd.
  { rewrite (read_body_done parse _ _ Hnd) in Hall. injection Hall as <- <-.
    exists [Server.TDone], s. done. }
  pose proof (client_read_body_bytes_run s Hs Hq) as Hrun.
  pose proof (steady_read_body parse true (Client.body_reader s, Client.underlying_stream s)
                (conj Hs (fun H : true = false => False_ind _ (diff_true_false H)))) as Hst.
  assert (forall s' r1, body_read s s' r1 -> steady_state true r1 ->
            started (Client.body_reader s') /\ Client.should_read_resp_header s' = false /\
            (Client.body_reader s', Client.underlying_stream s') = r1) as Hnext.
  { intros s' r1 [] [H1 _]. split; [by rewrite br_reader0|].
    split; [unfold Client.should_read_resp_header, Client.get_status in *; by rewrite br_header0|].
    by rewrite br_reader0, br_stream0, <- surjective_pairing. }
  destruct (read_body parse _) as [[ref|] r1| |r1|]; try done.
  - destruct (get_body r1.1 ref) as [d|]; [|done]. destruct Hrun as (s1 & -> & Hbr).
    destruct (Hnext s1 r1 Hbr Hst) as (Hs1 & Hsh1 & Hr1). rewrite (is_body_done_started s1 Hs1).
    destruct (read_all parse fuel r1) as [[ds r2]|] eqn:Hrest; [|done]. injection Hall as <- <-.
    set (t := if Client.upgraded s1 then Server.TUpgradedBody (Some d) (body_done (Client.body_reader s1))
              else Server.TBody (Some d) (body_done (Client.body_reader s1))).
    assert (task_data t = d /\ task_header t = None /\ last_task t = body_done (Client.body_reader s1))
      as (Htd & Hth & ->).
    { unfold t. by destruct (Client.upgraded s1). }
    clearbody t. destruct (body_done (Client.body_reader s1)) eqn:Hd1.
    + assert (ds = [] /\ r2 = r1) as [-> ->].
      { destruct fuel as [|fuel']; [done|]. cbn [read_all] in Hrest. rewrite <- Hr1 in Hrest.
        rewrite (read_body_done parse _ _ Hd1) in Hrest. injection Hrest as <- <-. by rewrite Hr1. }
      exists [t], s1. split; [done|]. split; [simpl; by rewrite Htd|]. simpl. by rewrite Hth.
    + destruct (IH ds r2 s1) as (ts & s2 & Hts & Hdata & Hhd & Hbr2); try done.
      { by apply Hbr. } { by rewrite Hr1. }
      rewrite Hts. exists (t :: ts), s2. split; [done|].
      split; [simpl; by rewrite Htd, Hdata|]. split; [simpl; by rewrite Hth|]. by eapply body_read_trans.
  - injection Hall as <- <-. destruct Hrun as (s1 & -> & Hbr).
    destruct (Hnext s1 r1 Hbr Hst) as (Hs1 & Hsh1 & Hr1).
    rewrite (is_body_done_started s1 Hs1), (br_reader _ _ _ Hbr), Hd.
    destruct (Client.upgraded s1); by eexists _, s1.
  - destruct Hrun as (s1 & -> & Hbr). destruct Hst as [_ Hst].
    destruct (Hnext s1 r1 Hbr Hst) as (Hs1 & Hsh1 & Hr1).
    destruct (IH data r s1) as (ts & s2 & Hts & Hdata & Hhd & Hbr2); try done.
    { by apply Hbr. } { by rewrite Hr1. }
    exists ts, s2. split; [done|]. split; [done|]. split; [done|]. by eapply body_read_trans.
Qed.

(** ** Reuse *)

(** May the connection be used again, by what the two heads say? *)
Definition persists (req : option Req) (h : Resp) : bool :=
  negb (resp_status h =? 101) &&
  negb (bool_decide (resp_version h = HTTP_10) && hm_contains_key (resp_headers h) h_transfer_encoding) &&
  match req ≫= (fun r => is_buf_keepalive (hm_get (req_headers r) h_connection)) with
  | Some false => false
  | _ => default (bool_decide (resp_version h = HTTP_11)) (is_buf_keepalive (hm_get (resp_headers h) h_connection))
  end.

Lemma reuse_run (s : Sess) h :
  Client.response_header s = Some h -> body_complete (Client.body_reader s) = true ->
  Client.upgraded s = asks_upgrade (Client.request_written s) && is_upgrade_resp h ->
  Client.reuse (Client.respect_keepalive s) =
  if persists (Client.request_written s) h && negb (Client.close_delimited_resp s) &&
     negb (has_bytes_overread (Client.body_reader s))
  then Some (Client.underlying_stream s) else None.
Proof.
  intros Hh Hc Hup.
  assert (forall ka, Client.reuse (Client.set_keepalive ka s) =
            if negb (has_bytes_overread (Client.body_reader s)) && bool_decide (is_Some ka)
            then Some (Client.underlying_stream s) else None) as Hset.
  { intros ka. unfold Client.reuse. simpl. rewrite Hc. simpl.
    destruct (has_bytes_overread (Client.body_reader s)); simpl; [done|].
    destruct ka as [k|]; simpl; [|done]. by destruct (0 <? k). }
  assert (need_init (Client.body_reader s) = false) as Hn.
  { unfold body_complete, need_init in *. by destruct (body_state (Client.body_reader s)). }
  unfold Client.respect_keepalive, persists, Client.get_status, Client.is_connection_keepalive, Client.get_header.
  rewrite Hh, Hn. cbn [fmap option_fmap option_map mbind option_bind].
  assert (hm_contains_key (resp_headers h) h_transfer_encoding =
          bool_decide (is_Some (hm_get (resp_headers h) h_transfer_encoding))) as ->.
  { unfold hm_contains_key, hm_get. by destruct (hm_get_all _ _). }
  destruct (Z.eqb_spec (resp_status h) 101) as [He|He].
  { rewrite (bool_decide_true (Some _ = Some _)) by congruence. rewrite orb_true_r, Hset. simpl.
    by rewrite andb_false_r. }
  rewrite (bool_decide_false (Some _ = Some _)) by congruence.
  assert (Client.upgraded s = false) as ->.
  { rewrite Hup. unfold is_upgrade_resp. destruct (Z.eqb_spec (resp_status h) 101); [done|].
    by rewrite andb_false_r. }
  simpl. destruct (Client.close_delimited_resp s); simpl.
  { rewrite Hset, andb_false_r. simpl. by rewrite andb_false_r. }
  destruct (has_bytes_overread (Client.body_reader s)) eqn:Ho; simpl.
  { rewrite Hset. simpl. by rewrite andb_false_r. }
  rewrite !andb_true_r.
  assert (bool_decide (Some (resp_version h) = Some HTTP_10) = bool_decide (resp_version h = HTTP_10)) as ->
    by (apply bool_decide_ext; split; congruence).
  assert (bool_decide (Some (resp_version h) = Some HTTP_11) = bool_decide (resp_version h = HTTP_11)) as ->
    by (apply bool_decide_ext; split; congruence).
  destruct (bool_decide (resp_version h = HTTP_10) && _); simpl; [by rewrite Hset|].
  destruct (Client.request_written s ≫= _) as [[]|]; simpl; [|by rewrite Hset|].
  all: destruct (is_buf_keepalive _) as [[]|]; simpl; rewrite Hset; simpl; try done.
  all: by destruct (bool_decide (resp_version h = HTTP_11)).
Qed.

(** ** Whole responses *)

Lemma head_taken_reading (s s1 : Sess) h extra rest :
  head_taken s s1 h extra -> good_stream (Client.underlying_stream s1) ->
  Forall (fun b => b = false) (Client.awaits s1) -> extra ++ flat (Client.underlying_stream s1) = rest ->
  reading s1 rest.
Proof.
  intros [] Hg Hq Hrest. constructor; [done..|]. exists extra. split; [|done].
  destruct ht_hand0 as (r & Hr & Hget). unfold at_hand. by rewrite ht_buf0, Hr, bool_decide_true.
Qed.

(** The session between the heads of one response. *)
Record between (s s' : Sess) : Prop := {
  bt_reader : Client.body_reader s' = Client.body_reader s;
  bt_request : Client.request_written s' = Client.request_written s;
  bt_allow : Client.allow_h1_response_invalid_content_length s' =
             Client.allow_h1_response_invalid_content_length s;
  bt_config : Client.response_parser_config s' = Client.response_parser_config s;
  bt_close : Client.close_delimited_resp s' = Client.close_delimited_resp s;
  bt_should : Client.should_read_resp_header s' = true;
  bt_shorter : zlen (Client.underlying_stream s') <= zlen (Client.underlying_stream s)
}.

Lemma info_tasks n rest : forall infos (s : Sess),
  Forall (fun i => head_ok s i /\ is_info (hd_header i) = true) infos ->
  reading s (concat (map hd_bytes infos) ++ rest) -> need_init (Client.body_reader s) = true ->
  Client.should_read_resp_header s = true -> zlen (Client.underlying_stream s) + 1 < Z.of_nat n ->
  exists k s1, Z.of_nat k <= zlen (Client.underlying_stream s) - zlen (Client.underlying_stream s1) + zlen infos /\
    between s s1 /\ reading s1 rest /\
    forall f, read_tasks n (k + f) s =
      '(ts, s') ← read_tasks n f s1; Some (map (fun i => Server.THeader (hd_header i) false) infos ++ ts, s').
Proof.
  induction infos as [|i infos IH]; intros s Hok Hrd Hn Hsh Hfuel.
  { exists 0%nat, s. change (zlen []) with 0. split; [lia|]. split; [constructor; try done; lia|].
    split; [done|]. intros f. simpl. by destruct (read_tasks n f s) as [[]|]. }
  apply Forall_cons in Hok as [[Hi Hinfo] Hok]. simpl in Hrd. rewrite <- app_assoc in Hrd.
  destruct (head_task n i (concat (map hd_bytes infos) ++ rest) s)
    as (k & s0 & s1 & extra & Hk & Hkept & Ht & Hg & Hq & Hrest & Hgo); try done.
  pose proof (head_taken_reading _ _ _ _ _ Ht Hg Hq Hrest) as Hrd1.
  assert (between s s1) as Hbt.
  { destruct Ht, Hkept. rewrite Hinfo in *. constructor; try congruence.
    - unfold Client.should_read_resp_header, Client.get_status. rewrite ht_header0. simpl.
      unfold is_info in Hinfo. rewrite !andb_true_iff in *. tauto.
    - lia. }
  destruct (IH s1) as (k2 & s2 & Hk2 & Hbt2 & Hrd2 & Hgo2); try done.
  - eapply Forall_impl; [exact Hok|]. intros j [Hj ?]. split; [|done].
    by apply (head_ok_ext s); [apply Hbt..|].
  - by rewrite (bt_reader _ _ Hbt).
  - apply Hbt.
  - pose proof (bt_shorter _ _ Hbt). lia.
  - exists (k + k2)%nat, s2. rewrite zlen_cons. split; [lia|].
    split; [destruct Hbt, Hbt2; constructor; try congruence; lia|]. split; [done|].
    intros f. rewrite <- Nat.add_assoc, Hgo, Hinfo. unfold then_task. simpl. rewrite Hgo2.
    by destruct (read_tasks n f s2) as [[]|].
Qed.

(** The connection after a response: handed on only if both heads allow it, the
    response did not end by closing, and nothing behind the response was read. *)
Definition connection_after (req : option Req) (h : Resp) (s : Sess) (next : list byte) : Prop :=
  let f := response_framing req h in
  match Client.reuse (Client.respect_keepalive s) with
  | Some st => f <> FClose /\ persists req h = true /\ flat st = next
  | None => f = FClose \/ persists req h = false \/
            exists over, over <> [] /\ over ++ flat (Client.underlying_stream s) = next
  end.

(** A session that has read the response with head [h] and body [data]. *)
Record response_read (req : option Req) (h : Resp) (data next : list byte) (s : Sess) : Prop := {
  rr_request : Client.request_written s = req;
  rr_header : Client.response_header s = Some h;
  rr_upgraded : Client.upgraded s = asks_upgrade req && is_upgrade_resp h;
  rr_close : Client.close_delimited_resp s = is_close (response_framing req h);
  rr_complete : body_state (Client.body_reader s) = Complete (zlen data);
  rr_next : response_framing req h <> FClose ->
    decoded next (zlen data) (Client.body_reader s, Client.underlying_stream s)
}.

Lemma connection_after_run (s : Sess) req h next (data : list byte) :
  response_read req h data next s -> connection_after req h s next.
Proof.
  intros [Hreq Hh Hup Hcl Hc Hdec]. unfold connection_after.
  assert (body_complete (Client.body_reader s) = true) as Hbc by (unfold body_complete; by rewrite Hc).
  rewrite (reuse_run s h Hh Hbc) by (by rewrite Hreq). rewrite Hreq, Hcl.
  destruct (persists req h); simpl; [|by right; left].
  destruct (response_framing req h) eqn:Hf; simpl; [..|by left].
  all: destruct (Hdec ltac:(done)) as (_ & _ & Hnext);
    unfold has_bytes_overread; destruct (body_buf_overread (Client.body_reader s)) as [o|] eqn:Ho;
    simpl in Hnext; rewrite Ho in Hnext; simpl in *.
  all: try (destruct o as [|b o]; simpl); try (split; [done|]; split; [done|]; by subst).
  all: right; right; exists (b :: o); done.
Qed.

Lemma response_tasks infos m body data next n fuel (s : Sess) :
  Forall (fun i => head_ok s i /\ is_info (hd_header i) = true) infos ->
  head_ok s m -> is_info (hd_header m) = false ->
  reading s (concat (map hd_bytes infos) ++ hd_bytes m ++ body ++ next) ->
  Client.should_read_resp_header s = true -> Client.body_reader s = new true ->
  Client.close_delimited_resp s = false ->
  framed parse (response_framing (Client.request_written s) (hd_header m)) body data next ->
  zlen (body ++ next) <= isize_max ->
  zlen (Client.underlying_stream s) + 1 < Z.of_nat n ->
  4 * zlen (body ++ next) + 2 * zlen (Client.underlying_stream s) + zlen infos + 3 < Z.of_nat fuel ->
  exists ts s1, read_tasks n fuel s = Some (ts, s1) /\
    omap task_header ts = map hd_header infos ++ [hd_header m] /\
    concat (map task_data ts) = data /\
    response_read (Client.request_written s) (hd_header m) data next s1.
Proof.
  intros Hinfos Hm Hfinal Hrd Hsh Hbr Hcl Hfr Hmax Hn Hfuel.
  assert (need_init (Client.body_reader s) = true) as Hni by (by rewrite Hbr).
  destruct (info_tasks n (hd_bytes m ++ body ++ next) infos s Hinfos Hrd Hni Hsh Hn)
    as (k1 & s1 & Hk1 & Hbt & Hrd1 & Hgo1).
  pose proof (bt_shorter _ _ Hbt) as Hsh1.
  destruct (head_task n m (body ++ next) s1)
    as (k2 & s2 & s3 & extra & Hk2 & Hkept & Ht & Hg & Hq & Hrest & Hgo2); try done.
  { by apply (head_ok_ext s); [apply Hbt..|]. } { by rewrite (bt_reader _ _ Hbt). } { apply Hbt. } { lia. }
  pose proof (zlen_nonneg (body ++ next)). pose proof (zlen_nonneg (Client.underlying_stream s3)).
  pose proof (zlen_nonneg infos).
  assert (exists f, fuel = (k1 + (k2 + f))%nat) as [f ->] by (exists (fuel - k1 - k2)%nat; lia).
  assert (Client.request_written s2 = Client.request_written s) as Hreq
    by (rewrite (kp_request _ _ Hkept); apply Hbt).
  set (fr := response_framing (Client.request_written s) (hd_header m)) in *.
  assert (Client.body_reader s3 = framing_init false fr extra (new true)) as Hr3.
  { rewrite (ht_reader _ _ _ _ Ht), Hfinal, Hreq, (kp_reader _ _ Hkept), (bt_reader _ _ Hbt), Hbr. done. }
  assert (Client.close_delimited_resp s3 = is_close fr) as Hc3.
  { rewrite (ht_close _ _ _ _ Ht), Hfinal, Hreq, (kp_close _ _ Hkept), (bt_close _ _ Hbt), Hcl.
    by rewrite orb_false_r. }
  assert (Client.should_read_resp_header s3 = false) as Hsh3.
  { unfold Client.should_read_resp_header, Client.get_status. rewrite (ht_header _ _ _ _ Ht). simpl.
    unfold is_info in Hfinal. revert Hfinal. by destruct (_ =? 101), (100 <=? _), (_ <=? 199). }
  destruct (framed_reads parse false true fr body data extra (Client.underlying_stream s3) next f)
    as (r & Hall & Hcomp & Hdec); try done.
  { pose proof (f_equal zlen Hrest) as Hl. rewrite zlen_app in Hl. pose proof (zlen_nonneg extra).
    pose proof (zlen_nonneg (flat (Client.underlying_stream s3))). lia. }
  rewrite <- Hr3 in Hall.
  destruct (body_tasks n f data r s3) as (ts & s4 & Hts & Hdata & Hhd & Hb4); try done.
  { rewrite Hr3. apply framing_started. } { unfold body_done. by rewrite Hcomp. }
  (* the tasks, with or without a body after the head *)
  assert (exists ts' s5, read_tasks n (k2 + f) s1 = Some (ts', s5) /\
            omap task_header ts' = [hd_header m] /\ concat (map task_data ts') = data /\
            body_read s3 s5 r) as (ts' & s5 & Hts' & Hhd' & Hdata' & Hb5).
  { rewrite Hgo2, Hfinal. unfold then_task. cbn [last_task].
    destruct (body_done (Client.body_reader s3)) eqn:Hd3.
    - assert (data = [] /\ r = (Client.body_reader s3, Client.underlying_stream s3)) as [-> ->].
      { destruct f as [|f]; [done|]. cbn [read_all] in Hall.
        rewrite (read_body_done parse _ _ Hd3) in Hall. by injection Hall as <- <-. }
      eexists _, s3. split; [reflexivity|]. done.
    - rewrite Hts. simpl. eexists _, s4. split; [reflexivity|].
      split; [|done]. change (hd_header m :: omap task_header ts = [hd_header m]). by rewrite Hhd. }
  exists (map (fun i => Server.THeader (hd_header i) false) infos ++ ts'), s5.
  split; [by rewrite Hgo1, Hts'|]. split; [|split].
  - rewrite omap_app, Hhd'. f_equal. clear. induction infos as [|i infos IH]; [done|]. csimpl. by rewrite IH.
  - rewrite map_app, concat_app, Hdata'. clear. induction infos as [|i infos IH]; [done|]. simpl. done.
  - constructor.
    + by rewrite (br_request _ _ _ Hb5), (ht_request _ _ _ _ Ht).
    + by rewrite (br_header _ _ _ Hb5), (ht_header _ _ _ _ Ht).
    + by rewrite (br_upgraded _ _ _ Hb5), (ht_upgraded _ _ _ _ Ht), Hreq.
    + by rewrite (br_close _ _ _ Hb5), Hc3.
    + by rewrite (br_reader _ _ _ Hb5).
    + rewrite (br_reader _ _ _ Hb5), (br_stream _ _ _ Hb5), <- surjective_pairing. done.
Qed.

(** C2: on a connection that carries any number of informational heads, a final
    head, its body in the framing the two heads announce, and whatever follows,
    delivered in any fragments and with the reads dropped at any [.await] and
    called again: the tasks of the session are those heads, in order, and data
    that is exactly the body's; and the connection is handed on only if both
    heads allow it, the response was not delimited by closing, and no byte that
    follows the body was read, in which case all of them are still to come. *)
Theorem response_boundaries infos m body data next n fuel (s : Sess) :
  Forall (fun i => head_ok s i /\ is_info (hd_header i) = true) infos ->
  head_ok s m -> is_info (hd_header m) = false ->
  reading s (concat (map hd_bytes infos) ++ hd_bytes m ++ body ++ next) ->
  Client.should_read_resp_header s = true -> Client.body_reader s = new true ->
  Client.close_delimited_resp s = false ->
  framed parse (response_framing (Client.request_written s) (hd_header m)) body data next ->
  zlen (body ++ next) <= isize_max ->
  zlen (Client.underlying_stream s) + 1 < Z.of_nat n ->
  4 * zlen (body ++ next) + 2 * zlen (Client.underlying_stream s) + zlen infos + 3 < Z.of_nat fuel ->
  exists ts s1, read_tasks n fuel s = Some (ts, s1) /\
    omap task_header ts = map hd_header infos ++ [hd_header m] /\
    concat (map task_data ts) = data /\
    connection_after (Client.request_written s) (hd_header m) s1 next.
Proof.
  intros Hinfos Hm Hfinal Hrd Hsh Hbr Hcl Hfr Hmax Hn Hfuel.
  destruct (response_tasks infos m body data next n fuel s) as (ts & s1 & Hts & Hh & Hd & Hr); try done.
  exists ts, s1. split_and!; try done. by eapply connection_after_run.
Qed.

End client.

(** ** A connection to run it with *)

Definition wit_hints : list byte := bytes_of "HTTP/1.1 103 Early Hints" ++ [CR; LF; CR; LF].
Definition wit_hints_parsed : ParsedResponse := MkPResp (Some 1) (Some 103) (Some (bytes_of "Early Hints")) [].
Definition wit_ok : list byte :=
  bytes_of "HTTP/1.1 200 OK" ++ [CR; LF] ++ bytes_of "Content-Length: 5" ++ [CR; LF; CR; LF].
Definition wit_ok_parsed : ParsedResponse :=
  MkPResp (Some 1) (Some 200) (Some (bytes_of "OK")) [MkParsed 17 14 33 1].
Definition wit_response_parser (c : ResponseParserConfig) := two_heads wit_hints wit_hints_parsed wit_ok wit_ok_parsed.

(** A session that waits for its response: fragments, with a read dropped. *)
Definition wit_client : @Client.HttpSession amap (list byte) :=
  Client.set_request_written (Some req_new_no_case)
    (Client.client_new
       [RData (ztake 10 wit_hints); RPend; RData (zdrop 10 wit_hints ++ ztake 5 wit_ok);
        RData (zdrop 5 wit_ok ++ bytes_of "he"); RPend; RData (bytes_of "llo")]
       (mkWio writer_new [] 0 [] []) []).

Definition wit_head_of (p : ParsedResponse) (b : list byte) : Head (hmap := amap) :=
  MkHead b p match response_of p b with
             | Some (inl h) => resp_without_both h
             | _ => resp_new
             end.

Lemma wit_heads_ok :
  head_ok wit_response_parser wit_client (wit_head_of wit_hints_parsed wit_hints) /\
  head_ok wit_response_parser wit_client (wit_head_of wit_ok_parsed wit_ok).
Proof.
  split; constructor.
  - done.
  - vm_compute; discriminate.
  - apply two_heads_first.
  - eexists. split; vm_compute; reflexivity.
  - left. vm_compute. reflexivity.
  - done.
  - vm_compute; discriminate.
  - apply two_heads_second. intros rest. split; reflexivity.
  - eexists. split; vm_compute; reflexivity.
  - left. vm_compute. reflexivity.
Qed.

Lemma response_boundaries_witness :
  exists ts s1, read_tasks wit_response_parser ref_parse (MkIoError true false) 20 100 wit_client = Some (ts, s1) /\
    map resp_status (omap task_header ts) = [103; 200] /\
    concat (map task_data ts) = bytes_of "hello" /\
    match Client.reuse (Client.respect_keepalive s1) with Some st => flat st = [] | None => False end.
Proof.
  destruct wit_heads_ok as [Hh Ho].
  destruct (response_boundaries wit_response_parser ref_parse (MkIoError true false)
    [wit_head_of wit_hints_parsed wit_hints] (wit_head_of wit_ok_parsed wit_ok)
    (bytes_of "hello") (bytes_of "hello") [] 20 100 wit_client) as (ts & s1 & Hr & Hhd & Hdata & Hconn).
  - constructor; [split; [exact Hh|vm_compute; reflexivity]|constructor].
  - exact Ho.
  - vm_compute; reflexivity.
  - constructor; [repeat constructor; discriminate|constructor|]. exists []. split; reflexivity.
  - reflexivity.
  - reflexivity.
  - reflexivity.
  - split; reflexivity.
  - vm_compute; discriminate.
  - reflexivity.
  - reflexivity.
  - exists ts, s1. split; [exact Hr|]. rewrite Hhd. split; [vm_compute; reflexivity|]. split; [exact Hdata|].
    unfold connection_after in Hconn. destruct (Client.reuse _); [apply Hconn|].
    destruct Hconn as [Hf|[Hf|(over & Hne & Hov)]]; [vm_compute in Hf; discriminate Hf..|].
    apply app_nil in Hov as [Hov _]. exact (Hne Hov).
Defined.
