(* ===== verification/Range.v ===== *)
(** * Range requests

    The module [range_filter] of [src/pingora-proxy/src/proxy_cache.rs]: parsing
    of a Range field against the length of the response, the change of the
    response header to 206 or 416, and the filter that cuts the body into the
    requested range, or into the parts of a multipart response, as its pieces
    go by.

    Sizes are 64-bit and wrap, as they do in a release build; [None] is a panic.
    The random number a boundary is made of is an argument.  The regular
    expression of a range part is anchored and its character classes are
    disjoint, so it is matched from left to right; the decimal digits outside
    ASCII that its [\d] also matches come from the tables of the [regex] crate
    and are a parameter. *)

From stdpp Require Import base list numbers strings.
From Stdlib Require Import ZArith Lia.
From S2P Require Import Prelude Errors Text Headers Framing.
Local Open Scope Z_scope.

Module Range.

(** [std::ops::Range<usize>]. *)
Record Range := MkRange { r_start : Z; r_end : Z }.

#[export] Instance Range_eq_dec : EqDecision Range.
Proof. solve_decision. Defined.

(** ** The types *)

Record MultiRangeInfo := MkMulti {
  m_ranges : list Range;
  m_boundary : list byte;
  m_total_length : Z;
  m_content_type : option (list byte)
}.

Inductive RangeType :=
| RNone
| RSingle (r : Range)
| RMulti (info : MultiRangeInfo)
| RInvalid.

(** [format!("{:016x}", rng.gen::<u64>())]. *)
Definition generate_boundary (rnd : Z) : list byte :=
  let digits := lowercase (hex rnd) in
  replicate (16 - length digits) Byte.x30 ++ digits.

Definition multi_new (rnd : Z) (ranges : list Range) : MultiRangeInfo :=
  MkMulti ranges (generate_boundary rnd) 0 None.
Definition set_content_type (content_type : list byte) (i : MultiRangeInfo) : MultiRangeInfo :=
  MkMulti (m_ranges i) (m_boundary i) (m_total_length i) (Some content_type).
Definition set_total_length (total_length : Z) (i : MultiRangeInfo) : MultiRangeInfo :=
  MkMulti (m_ranges i) (m_boundary i) total_length (m_content_type i).

(** [format!("bytes {}-{}/{}", start, end - 1, total)]. *)
Definition content_range (r : Range) (total : Z) : list byte :=
  bytes_of "bytes " ++ decimal (r_start r) ++ bytes_of "-" ++ decimal (wsub (r_end r) 1) ++
  bytes_of "/" ++ decimal total.

Fixpoint multipart_length_go (i : MultiRangeInfo) (ranges : list Range) (total_length : Z) : Z :=
  match ranges with
  | [] => total_length
  | range :: ranges =>
      let total_length := wadd total_length (wadd (wadd 4 (zlen (m_boundary i))) 2) in
      let total_length :=
        wadd total_length
          (match m_content_type i with Some ct => wadd (wadd 14 (zlen ct)) 2 | None => 0 end) in
      let total_length :=
        wadd total_length
          (wadd (zlen (bytes_of "Content-Range: " ++ content_range range (m_total_length i))) 2) in
      let total_length := wadd total_length 2 in
      multipart_length_go i ranges (wadd total_length (wsub (r_end range) (r_start range)))
  end.

Definition calculate_multipart_length (i : MultiRangeInfo) : Z :=
  wadd (multipart_length_go i (m_ranges i) 0) (wadd (wadd 4 (zlen (m_boundary i))) 4).

(** ** Parsing a Range field *)

Definition parse_number (input : list byte) : option Z :=
  if is_utf8 input then parse_u64 input else None.

Section parse.
(** The UTF-8 encodings of the decimal digits outside ASCII. *)
Variable unicode_digits : list (list byte).

(** [\d*]: the longest run of digits and what follows it. *)
Fixpoint digit_run (fuel : nat) (s : list byte) : list byte * list byte :=
  match fuel, s with
  | S fuel, c :: s' =>
      if is_ascii_digit c then
        let '(ds, rest) := digit_run fuel s' in (c :: ds, rest)
      else match strip_one unicode_digits s with
           | Some s' =>
               let '(ds, rest) := digit_run fuel s' in
               (take (length s - length s') s ++ ds, rest)
           | None => ([], s)
           end
  | _, _ => ([], s)
  end.

(** The expression [^\s*(?P<start>\d* )-(?P<end>\d* )\s*$]. *)
Definition single_range_part (part : list byte) : option (list byte * list byte) :=
  let s := strip_all white_space (length part) part in
  let '(start, s) := digit_run (length s) s in
  match s with
  | c :: s =>
      if bool_decide (c = Byte.x2d) then
        let '(end_, s) := digit_run (length s) s in
        if bool_decide (strip_all white_space (length s) s = []) then Some (start, end_) else None
      else None
  | [] => None
  end.

(** The early return when there are too many parts. *)
Fixpoint too_many_ranges (max_multipart_ranges : option Z) (range_count : Z) (parts : list (list byte))
    : bool :=
  match parts with
  | [] => false
  | _ :: parts =>
      let range_count := range_count + 1 in
      match max_multipart_ranges with
      | Some max_ranges =>
          if max_ranges <=? range_count then true
          else too_many_ranges max_multipart_ranges range_count parts
      | None => too_many_ranges max_multipart_ranges range_count parts
      end
  end.

(** The range that a part selects; [None] for a part that is skipped. *)
Definition part_range (content_length : Z) (maybe_start end_ : option Z) : option Range :=
  match maybe_start with
  | Some start =>
      if content_length <=? start then None
      else
        let end_ := wadd (Z.min (default (wsub content_length 1) end_) (wsub content_length 1)) 1 in
        if end_ <=? start then None else Some (MkRange start end_)
  | None =>
      match end_ with
      | Some end_ =>
          if end_ <=? content_length then Some (MkRange (wsub content_length end_) content_length)
          else Some (MkRange 0 content_length)
      | None => None
      end
  end.

(** The loop over the parts; [None] declines the whole field. *)
Fixpoint process_parts (content_length : Z) (parts : list (list byte)) (last_range_end : Z)
    (ranges : list Range) : option (list Range) :=
  match parts with
  | [] => Some ranges
  | part :: parts =>
      match single_range_part part with
      | None => None
      | Some (start, end_) =>
          match part_range content_length (parse_u64 start) (parse_u64 end_) with
          | None => process_parts content_length parts last_range_end ranges
          | Some range =>
              if r_start range <? last_range_end then None
              else process_parts content_length parts (r_end range) (ranges ++ [range])
          end
      end
  end.

(** [splitn(2, "=")]: the prefix, and the rest where there is one. *)
Definition split_prefix (s : list byte) : list byte * option (list byte) :=
  match position (fun c => bool_decide (c = Byte.x3d)) s with
  | Some i => (take i s, Some (drop (S i) s))
  | None => (s, None)
  end.

Definition range_type_of (rnd : Z) (ranges : list Range) : RangeType :=
  match ranges with
  | [] => RInvalid
  | [r] => RSingle r
  | _ => RMulti (multi_new rnd ranges)
  end.

Definition parse_range_header (rnd : Z) (range : list byte) (content_length : Z)
    (max_multipart_ranges : option Z) : RangeType :=
  if is_utf8 range then
    let '(prefix, rest) := split_prefix range in
    if eq_ignore_ascii_case prefix (bytes_of "bytes") then
      match rest with
      | None => RNone
      | Some ranges_str =>
          if bool_decide (trim ranges_str = []) then RInvalid
          else
            let parts := split_byte Byte.x2c ranges_str in
            if too_many_ranges max_multipart_ranges 0 parts then RNone
            else match process_parts content_length parts 0 [] with
                 | None => RNone
                 | Some ranges => range_type_of rnd ranges
                 end
      end
    else RNone
  else RNone.

(** ** The response header *)

Section header.
Context {hmap : Type -> Type} `{HM : HMap hmap} {Uri : Type} `{HC : HttpCrate Uri}.

Definition is_get_or_head (method : list byte) : bool :=
  bool_decide (method = bytes_of "GET") || bool_decide (method = bytes_of "HEAD").

(** Does If-Range match the response? *)
Definition if_range_matches (if_range : list byte) (resp : ResponseHeader hmap) : bool :=
  if (2 <=? zlen if_range) && bool_decide (last if_range = Some Byte.x22) then
    match hm_get (resp_headers resp) (bytes_of "etag") with
    | Some etag => bool_decide (etag = if_range)
    | None => false
    end
  else match hm_get (resp_headers resp) (bytes_of "last-modified") with
       | Some last_modified => bool_decide (last_modified = if_range)
       | None => false
       end.

Definition request_range_type (rnd : Z) (req : RequestHeader hmap Uri) (resp : ResponseHeader hmap)
    (content_length : Z) (max_multipart_ranges : option Z) : RangeType :=
  if is_get_or_head (req_method req) then
    match hm_get (req_headers req) (bytes_of "range") with
    | None => RNone
    | Some range_header =>
        let matches :=
          match hm_get (req_headers req) (bytes_of "if-range") with
          | Some if_range => if_range_matches if_range resp
          | None => true
          end in
        if matches then parse_range_header rnd range_header content_length max_multipart_ranges
        else RNone
    end
  else RNone.

(** [resp.insert_header(..).unwrap()] and [resp.set_status(..).unwrap()]. *)
Definition insert_unwrap (name value : list byte) (resp : ResponseHeader hmap)
    : option (ResponseHeader hmap) :=
  match resp_insert_header (FromHeaderName name) value resp with
  | Some (resp, inl _) => Some resp
  | _ => None
  end.
Definition set_status_unwrap (code : Z) (resp : ResponseHeader hmap) : option (ResponseHeader hmap) :=
  match set_status code resp with inl resp => Some resp | inr _ => None end.
Definition remove_field (name : list byte) (resp : ResponseHeader hmap) : ResponseHeader hmap :=
  (resp_remove_header name resp).1.

Definition multi_of_response (info : MultiRangeInfo) (content_length : Z) (resp : ResponseHeader hmap)
    : MultiRangeInfo :=
  let content_type :=
    match hm_get (resp_headers resp) (bytes_of "content-type") with
    | Some v => if value_is_visible v then v else bytes_of "application/octet-stream"
    | None => bytes_of "application/octet-stream"
    end in
  set_content_type content_type (set_total_length content_length info).

(** The changes to the response for each kind of range. *)
Definition apply_range_type (range_type : RangeType) (content_length : Z) (resp : ResponseHeader hmap)
    : option (RangeType * ResponseHeader hmap) :=
  match range_type with
  | RNone =>
      resp ← insert_unwrap (bytes_of "accept-ranges") (bytes_of "bytes") resp;
      Some (RNone, resp)
  | RSingle r =>
      resp ← set_status_unwrap 206 resp;
      let resp := remove_field (bytes_of "accept-ranges") resp in
      resp ← insert_unwrap (bytes_of "content-length") (decimal (wsub (r_end r) (r_start r))) resp;
      resp ← insert_unwrap (bytes_of "content-range") (content_range r content_length) resp;
      Some (RSingle r, resp)
  | RMulti info =>
      let info := multi_of_response info content_length resp in
      let total_length := calculate_multipart_length info in
      resp ← set_status_unwrap 206 resp;
      let resp := remove_field (bytes_of "accept-ranges") resp in
      resp ← insert_unwrap (bytes_of "content-length") (decimal total_length) resp;
      resp ← insert_unwrap (bytes_of "content-type")
               (bytes_of "multipart/byteranges; boundary=" ++ m_boundary info) resp;
      Some (RMulti info, remove_field (bytes_of "content-range") resp)
  | RInvalid =>
      resp ← set_status_unwrap 416 resp;
      resp ← insert_unwrap (bytes_of "content-length") (bytes_of "0") resp;
      let resp := remove_field (bytes_of "accept-ranges") resp in
      let resp := remove_field (bytes_of "content-type") resp in
      let resp := remove_field (bytes_of "content-encoding") resp in
      let resp := remove_field (bytes_of "transfer-encoding") resp in
      resp ← insert_unwrap (bytes_of "content-range")
               (bytes_of "bytes */" ++ decimal content_length) resp;
      Some (RInvalid, resp)
  end.

Definition range_header_filter (rnd : Z) (req : RequestHeader hmap Uri) (resp : ResponseHeader hmap)
    (max_multipart_ranges : option Z) : option (RangeType * ResponseHeader hmap) :=
  if negb (resp_status resp =? 200) then Some (RNone, resp)
  else match hm_get (resp_headers resp) (bytes_of "content-length") with
       | None => Some (RNone, resp)
       | Some content_length_bytes =>
           match parse_number content_length_bytes with
           | None => Some (RNone, resp)
           | Some content_length =>
               apply_range_type
                 (request_range_type rnd req resp content_length max_multipart_ranges)
                 content_length resp
           end
       end.

End header.
End parse.

(** ** The body filter *)

Record RangeBodyFilter := MkFilter {
  f_range : RangeType;
  f_current : Z;
  f_multipart_idx : option Z;
  f_cache_multipart_idx : option Z
}.

Definition is_multi (range : RangeType) : bool := match range with RMulti _ => true | _ => false end.

Definition filter_new : RangeBodyFilter := MkFilter RNone 0 None None.

Definition initial_idx (range : RangeType) : option Z := if is_multi range then Some 0 else None.

Definition new_range (range : RangeType) : RangeBodyFilter :=
  MkFilter range 0 (initial_idx range) None.

Definition is_multipart_range (f : RangeBodyFilter) : bool := is_multi (f_range f).

Definition should_cache_seek_again (f : RangeBodyFilter) : bool :=
  match f_range f with
  | RMulti info =>
      match f_cache_multipart_idx f with
      | Some idx => negb (idx =? wsub (zlen (m_ranges info)) 1)
      | None => false
      end
  | _ => false
  end.

(** [slice::get]. *)
Definition range_at (ranges : list Range) (i : Z) : option Range :=
  if i <? 0 then None else ranges !! Z.to_nat i.

Definition progress_mismatch (multipart_idx cache_multipart_idx ranges : Z) : string :=
  String.string_of_list_byte
    (bytes_of "cache multipart progress mismatch: body_filter_idx=" ++ decimal multipart_idx ++
     bytes_of ", cache_reader_idx=" ++ decimal cache_multipart_idx ++
     bytes_of ", ranges=" ++ decimal ranges).

Definition next_cache_multipart_range (f : RangeBodyFilter) : RangeBodyFilter * (Range + Error) :=
  match f_range f with
  | RMulti info =>
      let cache_multipart_idx :=
        match f_cache_multipart_idx f with Some idx => wadd idx 1 | None => 0 end in
      match f_multipart_idx f with
      | None =>
          (f, inr (explain InternalError "multipart response is missing body filter progress state"))
      | Some multipart_idx =>
          if negb (multipart_idx =? cache_multipart_idx) then
            (f, inr (explain InternalError
                       (progress_mismatch multipart_idx cache_multipart_idx (zlen (m_ranges info)))))
          else
            match range_at (m_ranges info) cache_multipart_idx with
            | None =>
                (f, inr (explain InternalError
                           "cache multipart reader advanced past the final requested range"))
            | Some range =>
                (MkFilter (f_range f) (f_current f) (f_multipart_idx f) (Some cache_multipart_idx),
                 inl range)
            end
      end
  | _ =>
      (f, inr (explain InternalError
                 "tried to advance cache multipart range on a non-multipart response"))
  end.

Definition set_current_cursor (current : Z) (f : RangeBodyFilter) : RangeBodyFilter :=
  MkFilter (f_range f) current (f_multipart_idx f) (f_cache_multipart_idx f).

Definition set_filter (range : RangeType) (f : RangeBodyFilter) : RangeBodyFilter :=
  MkFilter range (f_current f) (initial_idx range) (f_cache_multipart_idx f).

(** The assignment [range_filter.range = RangeType::None]. *)
Definition clear_range (f : RangeBodyFilter) : RangeBodyFilter :=
  MkFilter RNone (f_current f) (f_multipart_idx f) (f_cache_multipart_idx f).

Definition final_boundary (boundary : list byte) : list byte :=
  CRLF ++ bytes_of "--" ++ boundary ++ bytes_of "--" ++ CRLF.

Definition finalize (range : RangeType) (boundary : list byte) : option (list byte) :=
  if is_multi range then Some (final_boundary boundary) else None.

(** [None]: the slice is out of bounds. *)
Definition filter_range_data (start end_ current : Z) (data : list byte) : option (option (list byte)) :=
  if (wadd current (zlen data) <? start) || (end_ <=? current) then Some None
  else if (start <=? current) && (wadd current (zlen data) <=? end_) then Some (Some data)
  else
    let slice_start := saturating_sub start current in
    let slice_end := Z.min (zlen data) (wsub end_ current) in
    Some <$> slice data slice_start slice_end.

Definition build_multipart_header (range : Range) (boundary : list byte) (total_length : Z)
    (content_type : option (list byte)) : list byte :=
  CRLF ++ bytes_of "--" ++ boundary ++ CRLF ++
  match content_type with
  | Some ct => bytes_of "Content-Type: " ++ ct ++ CRLF
  | None => []
  end ++
  bytes_of "Content-Range: " ++ content_range range total_length ++ CRLF ++ CRLF.

Definition current_chunk_includes_range_start (range : Range) (current data_len : Z) : bool :=
  (current <=? r_start range) && (r_start range <? wadd current data_len).

Definition current_chunk_includes_range_end (range : Range) (current data_len : Z) : bool :=
  (current <? r_end range) && (r_end range <=? wadd current data_len).

(** The loop over the remaining ranges: what it emits and the index it leaves. *)
Fixpoint multi_range_go (info : MultiRangeInfo) (final_range : Range) (remaining : list Range)
    (data : list byte) (current data_len : Z) (idx : Z) (result : list byte)
    : option (list byte * Z) :=
  match remaining with
  | [] => Some (result, idx)
  | range :: remaining =>
      sliced ← filter_range_data (r_start range) (r_end range) current data;
      match sliced with
      | None => Some (result, idx)
      | Some sliced =>
          let result :=
            if current_chunk_includes_range_start range current data_len then
              result ++ build_multipart_header range (m_boundary info) (m_total_length info)
                          (m_content_type info)
            else result in
          let result := result ++ sliced in
          if current_chunk_includes_range_end range current data_len then
            let result :=
              if bool_decide (range = final_range) then
                result ++ default [] (finalize (RMulti info) (m_boundary info))
              else result in
            multi_range_go info final_range remaining data current data_len (idx + 1) result
          else multi_range_go info final_range remaining data current data_len idx result
      end
  end.

(** [split_at] panics past the end of the ranges. *)
Definition filter_multi_range_body (f : RangeBodyFilter) (data : list byte) (current data_len : Z)
    : option (option (list byte) * RangeBodyFilter) :=
  match f_range f with
  | RMulti info =>
      multipart_idx ← f_multipart_idx f;
      match last (m_ranges info) with
      | None => Some (None, f)
      | Some final_range =>
          if zlen (m_ranges info) <? multipart_idx then None
          else
            '(result, idx) ← multi_range_go info final_range (zdrop multipart_idx (m_ranges info))
                               data current data_len multipart_idx [];
            Some (if bool_decide (result = []) then None else Some result,
                  MkFilter (f_range f) (f_current f) (Some idx) (f_cache_multipart_idx f))
      end
  | _ => Some (None, f)
  end.

Definition filter_body (f : RangeBodyFilter) (data : option (list byte))
    : option (option (list byte) * RangeBodyFilter) :=
  match f_range f with
  | RNone => Some (data, f)
  | RInvalid => Some (None, f)
  | RSingle r =>
      let current := f_current f in
      let f := set_current_cursor (wadd current (match data with Some d => zlen d | None => 0 end)) f in
      match data with
      | None => Some (None, f)
      | Some d =>
          out ← filter_range_data (r_start r) (r_end r) current d;
          Some (out, f)
      end
  | RMulti _ =>
      match data with
      | None => Some (None, f)
      | Some data =>
          let current := f_current f in
          let data_len := zlen data in
          let f := set_current_cursor (wadd current data_len) f in
          filter_multi_range_body f data current data_len
      end
  end.

End Range.
