(* ===== verification/RangeSpec.v ===== *)
(** * Range requests: theorems

    The body filter cuts the requested bytes out of a body however it is split
    into pieces; the length the response announces is the length of what the
    filter lets through; the ranges of a Range field are the ones RFC 9110
    gives it. *)

From stdpp Require Import base list numbers strings sets.
From Stdlib Require Import ZArith Lia Sorting.Sorted.
From S2P Require Import Prelude Errors Text Headers HeadersSpec Framing FramingSpec Range.
Import Range.
Local Open Scope Z_scope.

(** ** The bytes of a range *)

Section cut.
Context {A : Type}.
Implicit Types l : list A.

(** The elements from [a] up to [b]. *)
Definition cut l (a b : Z) : list A := ztake (b - a) (zdrop a l).

Lemma cut_length l a b : 0 <= a -> a <= b -> b <= zlen l -> zlen (cut l a b) = b - a.
Proof. intros. unfold cut. rewrite zlen_ztake, zlen_zdrop; lia. Qed.

Lemma cut_late l a b : zlen l <= a -> cut l a b = [].
Proof. intros. unfold cut. rewrite zdrop_ge by lia. unfold ztake. by rewrite take_nil. Qed.

Lemma cut_app l d a b : 0 <= a -> a <= b ->
  cut (l ++ d) a b =
  cut l a b ++ cut d (Z.max 0 (a - zlen l)) (Z.max (Z.max 0 (a - zlen l)) (b - zlen l)).
Proof.
  intros Ha Hb. unfold cut, ztake, zdrop, zlen. rewrite drop_app, take_app, length_drop.
  f_equal. destruct (decide (Z.to_nat a <= length l)%nat).
  - f_equal; [lia|]. f_equal. lia.
  - f_equal; [lia|]. f_equal. lia.
Qed.

Lemma cut_whole d a b : a <= 0 -> zlen d <= b -> cut d (Z.max 0 a) (Z.max (Z.max 0 a) b) = d.
Proof.
  intros Ha Hb. pose proof (zlen_nonneg d). unfold cut. rewrite (Z.max_l 0 a) by lia. rewrite zdrop_0, ztake_ge; [done|lia].
Qed.

Lemma cut_empty d a b : b <= 0 \/ zlen d <= a -> cut d (Z.max 0 a) (Z.max (Z.max 0 a) b) = [].
Proof.
  pose proof (zlen_nonneg d). intros [Hb|Ha].
  - unfold cut. replace (_ - _) with 0 by lia. apply ztake_0.
  - apply cut_late. lia.
Qed.

Lemma slice_cut l a b : 0 <= a <= b -> b <= zlen l -> slice l a b = Some (cut l a b).
Proof. apply slice_Some. Qed.

Lemma cut_clamp l a b : 0 <= a <= b -> zlen l <= b -> cut l a b = cut l a (Z.max a (zlen l)).
Proof.
  intros. unfold cut. rewrite !(ztake_ge _ (zdrop a l)); [done|rewrite zlen_zdrop; lia..].
Qed.
End cut.

(** ** A single range *)

Definition range_ok (r : Range) : Prop := 0 <= r_start r <= r_end r /\ r_end r < usize_mod.

(** What the filter lets through of a piece is what the piece adds to the bytes
    of the range. *)
Lemma filter_range_data_spec r l d :
  range_ok r -> zlen l + zlen d < usize_mod ->
  exists out, filter_range_data (r_start r) (r_end r) (zlen l) d = Some out /\
    cut (l ++ d) (r_start r) (r_end r) = cut l (r_start r) (r_end r) ++ default [] out /\
    (r_start r <= zlen l + zlen d -> zlen l < r_end r -> out <> None) /\
    (zlen l + zlen d < r_start r -> out = None).
Proof.
  destruct r as [s e]. unfold range_ok. cbn [r_start r_end]. intros [[Hs He] Hu] Hsz.
  pose proof (zlen_nonneg l). pose proof (zlen_nonneg d).
  rewrite cut_app by lia. unfold filter_range_data. rewrite wadd_small by lia.
  destruct (Z.ltb_spec (zlen l + zlen d) s); simpl.
  { exists None. split_and!; [done|by rewrite cut_empty by lia|lia|done]. }
  destruct (Z.leb_spec e (zlen l)); simpl.
  { exists None. split_and!; [done|by rewrite cut_empty by lia|lia|done]. }
  destruct (Z.leb_spec s (zlen l)), (Z.leb_spec (zlen l + zlen d) e); simpl.
  1: { exists (Some d). split_and!; [done|by rewrite cut_whole by lia|done|lia]. }
  all: rewrite wsub_small by lia; unfold saturating_sub; rewrite slice_cut by lia; simpl;
    eexists; split_and!; [reflexivity| |done|lia]; f_equal; simpl.
  - f_equal; lia.
  - rewrite (Z.min_l (zlen d)) by lia. rewrite cut_clamp by lia. f_equal; lia.
  - f_equal; lia.
Qed.

(** A run of the filter over the pieces of a body: the bytes it lets through. *)
Fixpoint run_filter (f : RangeBodyFilter) (pieces : list (option (list byte)))
    : option (list byte * RangeBodyFilter) :=
  match pieces with
  | [] => Some ([], f)
  | p :: pieces =>
      '(out, f) ← filter_body f p;
      '(rest, f) ← run_filter f pieces;
      Some (default [] out ++ rest, f)
  end.

Definition pieces_bytes (pieces : list (option (list byte))) : list byte :=
  concat (map (default []) pieces).

(** The filter having let the range's part of [l] through. *)
Lemma run_single r pieces l idx c :
  range_ok r -> zlen l + zlen (pieces_bytes pieces) < usize_mod ->
  exists out, run_filter (MkFilter (RSingle r) (zlen l) idx c) pieces =
      Some (out, MkFilter (RSingle r) (zlen l + zlen (pieces_bytes pieces)) idx c) /\
    cut (l ++ pieces_bytes pieces) (r_start r) (r_end r) = cut l (r_start r) (r_end r) ++ out.
Proof.
  intros Hr. revert l. induction pieces as [|p pieces IH]; intros l Hsz; simpl.
  { exists []. rewrite Z.add_0_r, !app_nil_r. done. }
  unfold pieces_bytes in *. simpl in *. rewrite zlen_app in Hsz. pose proof (zlen_nonneg l).
  pose proof (zlen_nonneg (concat (map (default []) pieces))).
  destruct p as [d|]; cbn [from_option id] in *; unfold filter_body; cbn [f_range f_current].
  - pose proof (zlen_nonneg d).
    destruct (filter_range_data_spec r l d Hr ltac:(lia)) as (out & -> & Hcut & _). cbn.
    unfold set_current_cursor; cbn. rewrite wadd_small by lia. rewrite <- zlen_app.
    destruct (IH (l ++ d)) as (rest & -> & Hrest); [rewrite zlen_app; lia|]. cbn.
    exists (default [] out ++ rest). rewrite !zlen_app, Z.add_assoc. split; [done|].
    by rewrite !app_assoc, <- Hcut.
  - rewrite zlen_nil in Hsz. unfold set_current_cursor; cbn. rewrite wadd_small, Z.add_0_r by lia.
    destruct (IH l) as (rest & -> & Hrest); [lia|]. cbn. eauto.
Qed.

(** ** Several ranges *)

(** Ranges in ascending order that do not overlap. *)
Definition ascending : list Range -> Prop := StronglySorted (fun a b => r_end a <= r_start b).
Definition non_empty (r : Range) : Prop := r_start r < r_end r.

Section multi.
Variable info : MultiRangeInfo.
Variable final_range : Range.

Definition part_header (r : Range) : list byte :=
  build_multipart_header r (m_boundary info) (m_total_length info) (m_content_type info).

(** What has been emitted for a range once the bytes [l] of the body have gone by. *)
Definition part_out (l : list byte) (r : Range) : list byte :=
  if r_start r <? zlen l then
    part_header r ++ cut l (r_start r) (r_end r) ++
    (if (r_end r <=? zlen l) && bool_decide (r = final_range) then final_boundary (m_boundary info)
     else [])
  else [].

Definition parts_out (l : list byte) (rs : list Range) : list byte := concat (map (part_out l) rs).

Lemma parts_out_none l rs : Forall (fun r => zlen l <= r_start r) rs -> parts_out l rs = [].
Proof.
  induction 1 as [|r rs Hr _ IH]; [done|]. unfold parts_out in *. simpl. rewrite IH. unfold part_out.
  destruct (Z.ltb_spec (r_start r) (zlen l)); [lia|done].
Qed.

(** One step of the loop: what a piece adds to the output of a range whose end
    has not gone by. *)
Lemma part_out_step l d r sliced :
  range_ok r -> non_empty r -> zlen l < r_end r -> zlen l + zlen d < usize_mod ->
  cut (l ++ d) (r_start r) (r_end r) = cut l (r_start r) (r_end r) ++ sliced ->
  part_out (l ++ d) r =
  part_out l r ++
  (if current_chunk_includes_range_start r (zlen l) (zlen d) then part_header r else []) ++
  sliced ++
  (if current_chunk_includes_range_end r (zlen l) (zlen d) && bool_decide (r = final_range)
   then final_boundary (m_boundary info) else []).
Proof.
  intros [? ?] Hne He Hsz Hcut. pose proof (zlen_nonneg l). pose proof (zlen_nonneg d).
  unfold part_out, current_chunk_includes_range_start, current_chunk_includes_range_end, non_empty in *.
  rewrite wadd_small, zlen_app by lia.
  destruct (Z.leb_spec (r_end r) (zlen l)); [lia|]. destruct (Z.ltb_spec (zlen l) (r_end r)); [|lia].
  rewrite andb_true_l, andb_false_l.
  destruct (Z.ltb_spec (r_start r) (zlen l + zlen d)).
  - rewrite Hcut. destruct (Z.ltb_spec (r_start r) (zlen l)), (Z.leb_spec (zlen l) (r_start r)); try lia;
      cbn [andb app].
    + rewrite app_nil_r, <- !app_assoc. done.
    + rewrite (cut_late l) by lia. done.
  - rewrite !cut_late in Hcut by (rewrite ?zlen_app; lia). simpl in Hcut. subst sliced.
    destruct (Z.ltb_spec (r_start r) (zlen l)); [lia|]. rewrite andb_false_r.
    destruct (Z.leb_spec (r_end r) (zlen l + zlen d)); [lia|done].
Qed.

Lemma multi_range_go_spec l d rs idx acc :
  Forall range_ok rs -> Forall non_empty rs -> ascending rs ->
  Forall (fun r => zlen l < r_end r) rs -> zlen l + zlen d < usize_mod ->
  exists out finished rest,
    multi_range_go info final_range rs d (zlen l) (zlen d) idx acc = Some (acc ++ out, idx + zlen finished) /\
    parts_out (l ++ d) rs = parts_out l rs ++ out /\ rs = finished ++ rest /\
    Forall (fun r => r_end r <= zlen (l ++ d)) finished /\ Forall (fun r => zlen (l ++ d) < r_end r) rest.
Proof.
  intros Hok Hne Hasc Hend Hsz. pose proof (zlen_nonneg l). pose proof (zlen_nonneg d).
  revert idx acc Hok Hne Hend. induction Hasc as [|r rs Hasc IH Hr]; intros idx acc Hok Hne Hend.
  { exists [], [], []. rewrite app_nil_r, zlen_nil, Z.add_0_r. done. }
  apply Forall_cons in Hok as [Hok Hoks], Hne as [Hne Hnes], Hend as [Hend Hends].
  cbn [multi_range_go]. destruct (filter_range_data_spec r l d Hok Hsz) as (o & -> & Hcut & Hsome & Hnone).
  cbn [mbind option_bind]. unfold non_empty in Hne.
  assert (Forall (fun r' => r_end r <= r_start r' /\ r_start r' < r_end r') rs) as Hlater.
  { apply Forall_and. split; [done|exact Hnes]. }
  assert (parts_out l rs = []) as Hnil.
  { apply parts_out_none. eapply Forall_impl; [exact Hlater|]. simpl. lia. }
  destruct o as [sliced|]; [|clear Hnone].
  - clear Hsome Hnone. pose proof (part_out_step l d r sliced Hok Hne Hend Hsz Hcut) as Hstep.
    fold (part_header r). unfold finalize. cbn [is_multi from_option id].
    set (hdr := if current_chunk_includes_range_start r _ _ then part_header r else []) in *.
    set (e := current_chunk_includes_range_end r _ _) in *.
    set (ft := if e && bool_decide (r = final_range) then _ else []) in *.
    set (acc' := acc ++ hdr ++ sliced ++ ft).
    destruct (IH (if e then idx + 1 else idx) acc' Hoks Hnes Hends) as (out & fin & rest & Hgo & Hout & Hrs & Hf & Hl).
    exists (hdr ++ sliced ++ ft ++ out), (if e then r :: fin else fin), (if e then rest else r :: rest).
    assert (e = (r_end r <=? zlen (l ++ d))) as He.
    { subst e. unfold current_chunk_includes_range_end. rewrite wadd_small, zlen_app by lia.
      destruct (Z.ltb_spec (zlen l) (r_end r)); [done|lia]. }
    split_and!.
    + transitivity (Some (acc' ++ out, (if e then idx + 1 else idx) + zlen fin)).
      * rewrite <- Hgo. subst acc' ft hdr. destruct e, (current_chunk_includes_range_start r _ _);
          cbn [andb]; [case_bool_decide..| |]; rewrite ?app_nil_r, ?app_nil_l, <- ?app_assoc; done.
      * f_equal. subst acc'. rewrite <- !app_assoc. f_equal. destruct e; rewrite ?zlen_cons; lia.
    + unfold parts_out in *. simpl. rewrite Hstep, Hout, Hnil, app_nil_r, app_nil_l, <- !app_assoc. done.
    + destruct e; [by rewrite Hrs|].
      destruct fin as [|r' fin]; [by rewrite Hrs|]. exfalso. apply Forall_cons in Hf as [Hf _].
      subst rs. apply Forall_cons in Hlater as [[? ?] _]. symmetry in He. apply Z.leb_gt in He. lia.
    + rewrite He. destruct (Z.leb_spec (r_end r) (zlen (l ++ d))); [by constructor|done].
    + rewrite He. destruct (Z.leb_spec (r_end r) (zlen (l ++ d))); [done|by constructor].
  - assert (zlen l + zlen d < r_start r) as Hs.
    { destruct (Z.le_gt_cases (r_start r) (zlen l + zlen d)) as [Hle|]; [|lia]. by destruct (Hsome Hle Hend). }
    assert (Forall (fun r => zlen (l ++ d) <= r_start r /\ r_start r < r_end r) (r :: rs)) as Hall.
    { rewrite zlen_app. constructor; [lia|]. eapply Forall_impl; [exact Hlater|]. simpl. lia. }
    exists [], [], (r :: rs). rewrite !app_nil_r, zlen_nil, Z.add_0_r. split_and!; [done| |done|done|].
    + rewrite !parts_out_none; [done|..]; (eapply Forall_impl; [exact Hall|]); rewrite zlen_app; simpl; lia.
    + eapply Forall_impl; [exact Hall|]. simpl. lia.
Qed.

(** A range whose end has gone by emits no more. *)
Lemma part_out_finished l d r :
  range_ok r -> non_empty r -> r_end r <= zlen l -> part_out (l ++ d) r = part_out l r.
Proof.
  intros [? ?] Hne He. unfold part_out, non_empty in *. rewrite zlen_app. pose proof (zlen_nonneg d).
  destruct (Z.ltb_spec (r_start r) (zlen l + zlen d)), (Z.ltb_spec (r_start r) (zlen l)); try lia.
  destruct (Z.leb_spec (r_end r) (zlen l + zlen d)), (Z.leb_spec (r_end r) (zlen l)); try lia.
  rewrite cut_app, cut_empty by lia. by rewrite app_nil_r.
Qed.

Lemma parts_out_finished l d rs :
  Forall range_ok rs -> Forall non_empty rs -> Forall (fun r => r_end r <= zlen l) rs ->
  parts_out (l ++ d) rs = parts_out l rs.
Proof.
  intros Hok Hne He. unfold parts_out. f_equal. apply map_ext_Forall.
  apply Forall_forall. intros r Hin. rewrite Forall_forall in Hok, Hne, He. apply part_out_finished; auto.
Qed.

Definition finished_at (l : list byte) (r : Range) : bool := r_end r <=? zlen l.

(** The filter once the bytes [l] have gone by. *)
Definition multi_state (l : list byte) (c : option Z) (f : RangeBodyFilter) : Prop :=
  exists finished rest, m_ranges info = finished ++ rest /\
    f = MkFilter (RMulti info) (zlen l) (Some (zlen finished)) c /\
    Forall (fun r => r_end r <= zlen l) finished /\ Forall (fun r => zlen l < r_end r) rest.

Context (Hok : Forall range_ok (m_ranges info)) (Hne : Forall non_empty (m_ranges info))
  (Hasc : ascending (m_ranges info)) (Hlast : last (m_ranges info) = Some final_range).

Lemma ascending_app_r rs1 rs2 : ascending (rs1 ++ rs2) -> ascending rs2.
Proof. induction rs1; [done|]. simpl. inversion 1; auto. Qed.

Lemma filter_body_multi l c f d :
  multi_state l c f -> zlen l + zlen d < usize_mod ->
  exists out f', filter_body f (Some d) = Some (out, f') /\ multi_state (l ++ d) c f' /\
    parts_out (l ++ d) (m_ranges info) = parts_out l (m_ranges info) ++ default [] out.
Proof.
  intros (fin & rest & Hrs & -> & Hfin & Hrest) Hsz. pose proof (zlen_nonneg l). pose proof (zlen_nonneg d).
  cbn [filter_body f_range f_current]. unfold filter_multi_range_body, set_current_cursor.
  cbn [f_range f_current f_multipart_idx f_cache_multipart_idx mbind option_bind]. rewrite Hlast.
  pose proof (zlen_nonneg rest).
  destruct (Z.ltb_spec (zlen (m_ranges info)) (zlen fin)) as [Hlt|_]; [rewrite Hrs, zlen_app in Hlt; lia|].
  replace (zdrop (zlen fin) (m_ranges info)) with rest by (by rewrite Hrs, zdrop_app_exact).
  pose proof Hok as Hok'. pose proof Hne as Hne'. pose proof Hasc as Hasc'. rewrite Hrs in Hok', Hne', Hasc'.
  apply Forall_app in Hok' as [Hokf Hokr], Hne' as [Hnef Hner]. apply ascending_app_r in Hasc'.
  destruct (multi_range_go_spec l d rest (zlen fin) [] Hokr Hner Hasc' Hrest Hsz)
    as (out & fin' & rest' & -> & Hout & Hrest' & Hf' & Hr'). cbn [mbind option_bind app].
  eexists _, _. split; [done|]. split.
  - exists (fin ++ fin'), rest'. rewrite wadd_small by lia. rewrite <- !zlen_app.
    split_and!; [by rewrite Hrs, Hrest', app_assoc|done| |done]. apply Forall_app. split; [|done].
    eapply Forall_impl; [exact Hfin|]. rewrite zlen_app. simpl. lia.
  - rewrite Hrs. unfold parts_out in *. rewrite !map_app, !concat_app, Hout.
    rewrite <- !(app_assoc _ _ (default _ _)). f_equal; [by apply (parts_out_finished l d)|].
    case_bool_decide as Ho; simpl; by rewrite ?Ho.
Qed.

Lemma run_multi pieces l c f :
  multi_state l c f -> zlen l + zlen (pieces_bytes pieces) < usize_mod ->
  exists out f', run_filter f pieces = Some (out, f') /\ multi_state (l ++ pieces_bytes pieces) c f' /\
    parts_out (l ++ pieces_bytes pieces) (m_ranges info) = parts_out l (m_ranges info) ++ out.
Proof.
  revert l f. induction pieces as [|p pieces IH]; intros l f Hf Hsz; simpl.
  { exists [], f. by rewrite !app_nil_r. }
  unfold pieces_bytes in *. simpl in *. rewrite zlen_app in Hsz.
  pose proof (zlen_nonneg (concat (map (default []) pieces))).
  destruct p as [d|]; cbn [from_option id] in *.
  - destruct (filter_body_multi l c f d Hf ltac:(lia)) as (out & f' & -> & Hf' & Hout).
    cbn [mbind option_bind]. destruct (IH (l ++ d) f' Hf') as (rest & f'' & -> & Hf'' & Hrest).
    { rewrite zlen_app. lia. }
    cbn [mbind option_bind]. eexists _, _. split; [done|]. rewrite !app_assoc. split; [done|].
    by rewrite Hrest, Hout.
  - assert (filter_body f None = Some (None, f)) as ->.
    { destruct Hf as (? & ? & _ & -> & _). done. }
    rewrite zlen_nil in Hsz. cbn [mbind option_bind app]. destruct (IH l f Hf ltac:(lia)) as (rest & f'' & -> & Hf'' & Hrest).
    cbn [mbind option_bind]. eauto.
Qed.

(** The multipart body of RFC 9110, section 14.6. *)
Definition multipart_body (body : list byte) : list byte :=
  concat (map (fun r => part_header r ++ cut body (r_start r) (r_end r)) (m_ranges info)) ++
  final_boundary (m_boundary info).

Lemma parts_out_init (body : list byte) rs r :
  Forall (fun r => r_end r <= zlen body) (rs ++ [r]) -> Forall non_empty (rs ++ [r]) ->
  ascending (rs ++ [r]) -> r = final_range ->
  parts_out body (rs ++ [r]) =
  concat (map (fun r => part_header r ++ cut body (r_start r) (r_end r)) (rs ++ [r])) ++
  final_boundary (m_boundary info).
Proof.
  induction rs as [|r0 rs IH]; cbn [app]; intros He Hn Ha Hr; unfold non_empty in *.
  - apply Forall_cons in He as [He _], Hn as [Hn _]. unfold parts_out. cbn [map concat app]. unfold part_out.
    rewrite bool_decide_true by done.
    destruct (Z.ltb_spec (r_start r) (zlen body)), (Z.leb_spec (r_end r) (zlen body)); try lia.
    by rewrite !app_nil_r, <- !app_assoc.
  - apply Forall_cons in He as [He Hes], Hn as [Hn Hns]. inversion Ha as [|x xs Ha' Hr0]; subst x xs.
    unfold parts_out in *. cbn [map concat app]. rewrite IH by done. unfold part_out.
    assert (r0 <> r) as Hneq.
    { apply Forall_app in Hr0 as [_ Hr0]. apply Forall_cons in Hr0 as [Hr0 _]. intros ->. lia. }
    rewrite bool_decide_false by congruence. rewrite andb_false_r, app_nil_r.
    destruct (Z.ltb_spec (r_start r0) (zlen body)); [|lia]. by rewrite <- !app_assoc.
Qed.

Lemma run_multi_new pieces :
  zlen (pieces_bytes pieces) < usize_mod ->
  Forall (fun r => r_end r <= zlen (pieces_bytes pieces)) (m_ranges info) ->
  exists f', run_filter (new_range (RMulti info)) pieces = Some (multipart_body (pieces_bytes pieces), f').
Proof.
  intros Hsz Hin. destruct (run_multi pieces [] None (new_range (RMulti info))) as (out & f' & Hrun & _ & Hout).
  - exists [], (m_ranges info). split_and!; [done|done|constructor|].
    eapply Forall_impl; [exact (proj2 (Forall_and _ _) (conj Hok Hne))|].
    intros r [[[? ?] ?] Hr]. unfold non_empty in Hr. rewrite zlen_nil. lia.
  - done.
  - exists f'. rewrite Hrun. do 2 f_equal. rewrite app_nil_l in Hout.
    rewrite (parts_out_none []), app_nil_l in Hout
      by (eapply Forall_impl; [exact Hok|]; intros r [? ?]; rewrite zlen_nil; lia).
    rewrite <- Hout. unfold multipart_body. apply last_Some in Hlast as [rs Hrs]. rewrite Hrs in *.
    by apply parts_out_init.
Qed.
End multi.

(** ** The announced length *)

(** Equality of sums modulo the word size. *)
#[local] Existing Instances eqm_setoid Zplus_eqm Zminus_eqm.
Ltac mod_norm :=
  unfold wadd, wsub;
  match goal with |- ?a mod ?n = ?b mod ?n =>
    change (eqm n a b); repeat rewrite (Zmod_eqm n); unfold eqm; f_equal
  end.

Lemma part_header_length info r :
  zlen (part_header info r) =
  4 + zlen (m_boundary info) + 2 +
  match m_content_type info with Some ct => 14 + zlen ct + 2 | None => 0 end +
  (zlen (bytes_of "Content-Range: " ++ content_range r (m_total_length info)) + 2) + 2.
Proof.
  unfold part_header, build_multipart_header. rewrite !zlen_app.
  change (zlen CRLF) with 2. change (zlen (bytes_of "--")) with 2.
  destruct (m_content_type info) as [ct|]; [rewrite !zlen_app|rewrite zlen_nil]; 
    change (zlen CRLF) with 2; change (zlen (bytes_of "Content-Type: ")) with 14; lia.
Qed.

Lemma multipart_length_go_spec info body rs acc :
  Forall range_ok rs -> Forall (fun r => r_end r <= zlen body) rs ->
  multipart_length_go info rs acc mod usize_mod =
  (acc + zlen (concat (map (fun r => part_header info r ++ cut body (r_start r) (r_end r)) rs)))
    mod usize_mod.
Proof.
  intros Hok Hin. revert acc. induction rs as [|r rs IH]; intros acc; cbn [multipart_length_go map concat].
  { by rewrite zlen_nil, Z.add_0_r. }
  apply Forall_cons in Hok as [[? ?] Hok], Hin as [? Hin]. rewrite IH by done.
  rewrite !zlen_app, cut_length, part_header_length, zlen_app by lia.
  destruct (m_content_type info); mod_norm; lia.
Qed.

Lemma calculate_multipart_length_spec info body :
  Forall range_ok (m_ranges info) -> Forall (fun r => r_end r <= zlen body) (m_ranges info) ->
  calculate_multipart_length info = zlen (multipart_body info body) mod usize_mod.
Proof.
  intros Hok Hin. unfold calculate_multipart_length, multipart_body. rewrite zlen_app. unfold wadd at 1.
  rewrite Zplus_mod, (multipart_length_go_spec info body), <- Zplus_mod by done.
  unfold final_boundary. rewrite !zlen_app. change (zlen CRLF) with 2. change (zlen (bytes_of "--")) with 2.
  mod_norm. lia.
Qed.

(** ** Decimal numbers *)

Lemma byte_of_val_val v : 0 <= v < 256 -> byte_val (byte_of_val v) = v.
Proof.
  intros Hv. unfold byte_of_val, byte_val. destruct (Byte.of_N (Z.to_N v)) as [b|] eqn:Hb.
  - simpl. apply Byte.to_of_N in Hb. rewrite Hb. lia.
  - exfalso. apply Byte.of_N_None_iff in Hb. lia.
Qed.

Lemma digit_byte d : 0 <= d < 10 -> is_ascii_digit (byte_of_val (48 + d)) = true.
Proof. intros. apply is_digit_range. rewrite byte_of_val_val; lia. Qed.

Lemma all_digits_app a b : all_digits (a ++ b) = all_digits a && all_digits b.
Proof. apply forallb_app. Qed.

Lemma decimal_go_spec fuel n :
  0 <= n < 10 ^ Z.of_nat fuel ->
  all_digits (decimal_go fuel n) = true /\ digits_value (decimal_go fuel n) = n /\
  (fuel <> O -> decimal_go fuel n <> []).
Proof.
  revert n. induction fuel as [|fuel IH]; intros n Hn.
  { simpl in *. split_and!; [done|cbn; lia|done]. }
  cbn [decimal_go]. pose proof (Z.mod_pos_bound n 10 ltac:(lia)) as Hm.
  assert (forall ds, digits_value (ds ++ [byte_of_val (48 + n mod 10)]) = digits_value ds * 10 + n mod 10) as Hv.
  { intros ds. unfold digits_value. rewrite foldl_app. simpl. rewrite byte_of_val_val by lia. lia. }
  rewrite all_digits_app, Hv. cbn [all_digits forallb]. rewrite digit_byte by lia.
  assert (0 <= n / 10 < 10 ^ Z.of_nat fuel) as Hd.
  { split; [apply Z.div_pos; lia|]. apply Z.div_lt_upper_bound; [lia|].
    rewrite Nat2Z.inj_succ, Z.pow_succ_r in Hn by lia. lia. }
  pose proof (Z.div_mod n 10 ltac:(lia)). destruct (Z.ltb_spec n 10).
  - split_and!; [done|cbn; rewrite Z.mod_small; lia|done].
  - destruct (IH _ Hd) as (-> & -> & _). split_and!; [done|lia|]. intros _ He. by apply app_nil in He as [_ ?].
Qed.

Lemma decimal_spec n : is_usize n ->
  all_digits (decimal n) = true /\ digits_value (decimal n) = n /\ decimal n <> [].
Proof.
  intros Hn. destruct (decimal_go_spec 20 n) as (? & ? & Hd).
  - unfold is_usize in Hn. rewrite usize_mod_val in Hn. change (10 ^ Z.of_nat 20) with 100000000000000000000. lia.
  - split_and!; [done|done|by apply Hd].
Qed.

Lemma digit_not_plus c : is_ascii_digit c = true -> c <> Byte.x2b.
Proof. by intros H ->. Qed.

Lemma parse_u64_digits ds : ds <> [] -> all_digits ds = true -> digits_value ds < usize_mod ->
  parse_u64 ds = Some (digits_value ds).
Proof.
  intros Hne Hd Hv. unfold parse_u64. destruct ds as [|c ds]; [done|].
  assert (c <> Byte.x2b) by (apply digit_not_plus; by apply andb_true_iff in Hd as [? _]).
  rewrite bool_decide_false by done. apply from_digits_spec. split_and!; [done|done|done|exact Hv].
Qed.

Lemma parse_u64_decimal n : is_usize n -> parse_u64 (decimal n) = Some n.
Proof.
  intros Hn. destruct (decimal_spec n Hn) as (Hd & Hv & Hne).
  rewrite parse_u64_digits; [by rewrite Hv|done..|]. rewrite Hv. apply Hn.
Qed.

Lemma utf8_go_ascii fuel s : (length s <= fuel)%nat -> Forall (fun c => in_range 0 127 c = true) s ->
  (utf8_go fuel s).2 = true.
Proof.
  revert s. induction fuel as [|fuel IH]; intros [|c s] Hf Hs; [done|simpl in Hf; lia|done|].
  apply Forall_cons in Hs as [Hc Hs]. cbn [utf8_go]. unfold utf8_char. rewrite Hc. cbn [drop]. rewrite drop_0.
  specialize (IH s ltac:(simpl in Hf; lia) Hs). destruct (utf8_go fuel s) as [r v]. simpl in IH |- *. exact IH.
Qed.

Lemma is_utf8_ascii s : Forall (fun c => in_range 0 127 c = true) s -> is_utf8 s = true.
Proof. by apply utf8_go_ascii. Qed.

Lemma digit_ascii c : is_ascii_digit c = true -> in_range 0 127 c = true.
Proof. rewrite is_digit_range. unfold in_range. rewrite andb_true_iff, !Z.leb_le. lia. Qed.

Lemma all_digits_ascii ds : all_digits ds = true -> Forall (fun c => in_range 0 127 c = true) ds.
Proof.
  unfold all_digits. rewrite forallb_forall, Forall_forall. intros H c Hc. apply digit_ascii, H.
  by apply list_elem_of_In.
Qed.

Lemma parse_number_decimal n : is_usize n -> parse_number (decimal n) = Some n.
Proof.
  intros Hn. unfold parse_number. destruct (decimal_spec n Hn) as (Hd & _).
  rewrite is_utf8_ascii by (by apply all_digits_ascii). by apply parse_u64_decimal.
Qed.

(** ** Any Range field: the ranges ascend and lie within the body *)

Definition range_in (content_length : Z) (r : Range) : Prop :=
  range_ok r /\ r_end r <= content_length.

Lemma parse_u64_usize s n : parse_u64 s = Some n -> is_usize n.
Proof.
  unfold parse_u64. set (ds := match s with [] => [] | _ => _ end). clearbody ds.
  rewrite from_digits_spec. intros (_ & Hd & <- & Hn). split; [|exact Hn].
  apply (value_from_ge ds 0 Hd). lia.
Qed.

Lemma part_range_in content_length start end_ r :
  is_usize content_length -> (forall n, start = Some n -> is_usize n) -> (forall n, end_ = Some n -> is_usize n) ->
  part_range content_length start end_ = Some r -> range_in content_length r.
Proof.
  intros [? ?] Hs He. unfold part_range, range_in, range_ok. destruct start as [a|].
  - destruct (Hs a eq_refl) as [? ?]. destruct (Z.leb_spec content_length a); [done|].
    rewrite wsub_small by lia.
    assert (0 <= default (content_length - 1) end_) as Hd.
    { destruct end_ as [b|]; simpl; [by destruct (He b eq_refl)|lia]. }
    rewrite wadd_small by lia. destruct (Z.leb_spec (Z.min (default (content_length - 1) end_) (content_length - 1) + 1) a);
      [done|]. intros [= <-]. simpl. lia.
  - destruct end_ as [b|]; [|done]. destruct (He b eq_refl) as [? ?].
    destruct (Z.leb_spec b content_length); intros [= <-]; simpl; [rewrite wsub_small by lia; lia|lia].
Qed.

Lemma ascending_snoc rs r : ascending rs -> Forall (fun a => r_end a <= r_start r) rs -> ascending (rs ++ [r]).
Proof.
  induction 1 as [|a rs Ha IH Hr]; intros Hall; simpl.
  - repeat constructor.
  - apply Forall_cons in Hall as [? Hall]. constructor; [by apply IH|]. apply Forall_app. split; [done|].
    by constructor.
Qed.

Section field.
Variable unicode_digits : list (list byte).

Lemma process_parts_ok content_length parts last acc rs :
  is_usize content_length ->
  Forall (range_in content_length) acc -> ascending acc -> Forall (fun r => r_end r <= last) acc ->
  process_parts unicode_digits content_length parts last acc = Some rs ->
  Forall (range_in content_length) rs /\ ascending rs.
Proof.
  intros Hlen. revert last acc. induction parts as [|p parts IH]; intros last acc Hin Hasc Hlast; cbn [process_parts].
  { by intros [= <-]. }
  destruct (single_range_part unicode_digits p) as [[s e]|]; [|done].
  destruct (part_range _ _ _) as [r|] eqn:Hr; [|by apply IH].
  apply part_range_in in Hr as [Hrok Hrlen]; [|done|by intros n ?%parse_u64_usize..].
  destruct (Z.ltb_spec (r_start r) last); [done|]. apply IH.
  - apply Forall_app. split; [done|]. by apply Forall_singleton.
  - apply ascending_snoc; [done|]. eapply Forall_impl; [exact Hlast|]. simpl. lia.
  - apply Forall_app. split; [|by apply Forall_singleton]. eapply Forall_impl; [exact Hlast|].
    simpl. destruct Hrok. lia.
Qed.

Definition ranges_of (rt : RangeType) : list Range :=
  match rt with RSingle r => [r] | RMulti i => m_ranges i | _ => [] end.

Lemma parse_range_header_ranges rnd range content_length max :
  parse_range_header unicode_digits rnd range content_length max ∈ [RNone; RInvalid] \/
  exists parts rs, process_parts unicode_digits content_length parts 0 [] = Some rs /\
    parse_range_header unicode_digits rnd range content_length max = range_type_of rnd rs.
Proof.
  unfold parse_range_header. destruct (is_utf8 range); [|set_solver].
  destruct (split_prefix range) as [p [rest|]]; (destruct (eq_ignore_ascii_case _ _); [|set_solver]);
    [|set_solver].
  case_bool_decide; [set_solver|]. destruct (too_many_ranges _ _ _); [set_solver|].
  destruct (process_parts _ _ _ _ _) as [rs|] eqn:Hp; [|set_solver]. right. eauto.
Qed.

Lemma ranges_of_type rnd rs : ranges_of (range_type_of rnd rs) = rs.
Proof. by destruct rs as [|? [|? ?]]. Qed.

Lemma parsed_ranges_ok rnd range content_length max :
  is_usize content_length ->
  let rs := ranges_of (parse_range_header unicode_digits rnd range content_length max) in
  Forall (range_in content_length) rs /\ ascending rs.
Proof.
  intros Hlen rs. destruct (parse_range_header_ranges rnd range content_length max) as [Hin|(parts & rs' & Hp & Heq)].
  - subst rs. assert (ranges_of (parse_range_header unicode_digits rnd range content_length max) = []) as ->.
    { apply elem_of_cons in Hin as [->|Hin]; [done|]. by apply list_elem_of_singleton in Hin as ->. }
    split; constructor.
  - subst rs. rewrite Heq, ranges_of_type. eapply process_parts_ok; [done| | | |exact Hp]; constructor.
Qed.

Lemma parsed_multi_non_empty rnd range content_length max :
  let rt := parse_range_header unicode_digits rnd range content_length max in
  is_multi rt = true -> ranges_of rt <> [].
Proof.
  intros rt. subst rt. destruct (parse_range_header_ranges rnd range content_length max) as [Hin|(_ & rs & _ & ->)].
  - apply elem_of_cons in Hin as [->|Hin]; [done|]. by apply list_elem_of_singleton in Hin as ->.
  - by destruct rs as [|? [|? ?]].
Qed.
End field.

(** ** The response *)

(** The fields the filter writes and removes. *)
Definition range_fields : list (list byte) :=
  map bytes_of ["accept-ranges"; "content-length"; "content-range"; "content-type"; "content-encoding";
                "transfer-encoding"]%string.

(** [HeaderName::from_bytes] takes a name in any case. *)
Class ReadsNames (Uri : Type) `{HttpCrate Uri} : Prop :=
  reads_name : forall c, lowercase c ∈ range_fields -> header_name_of c = Some (lowercase c).

Section reply.
Context {hmap : Type -> Type} `{HM : HMap hmap, HL : !HMapLaws hmap} {Uri : Type} `{HC : HttpCrate Uri}.
Context `{HN : !ReadsNames Uri}.
Implicit Types resp : ResponseHeader hmap.

Lemma insert_unwrap_spec n v resp resp' :
  n ∈ range_fields -> insert_unwrap n v resp = Some resp' ->
  hm_get_all (resp_headers resp') n = [v] /\ resp_status resp' = resp_status resp /\
  forall k, k <> n -> hm_get_all (resp_headers resp') k = hm_get_all (resp_headers resp) k.
Proof.
  intros Hn. unfold insert_unwrap, resp_insert_header, insert_header_value.
  assert (lowercase (into_case_header_name (FromHeaderName n)) = n) as Hl.
  { assert (Forall (fun n => lowercase (into_case_header_name (FromHeaderName n)) = n) range_fields) as Hall
      by (repeat constructor).
    rewrite Forall_forall in Hall. auto. }
  rewrite reads_name, Hl by (by rewrite Hl). cbn [resp_maps fst snd].
  destruct (match resp_header_name_map resp with Some n0 => _ | None => _ end) as [names|]; cbn; [|done].
  destruct (hm_insert (resp_headers resp) n v) as [values|] eqn:Hi; cbn; [|done].
  intros [= <-]. apply get_all_inserted in Hi as [Hi Ho]. done.
Qed.

Lemma remove_field_spec n resp :
  hm_get_all (resp_headers (remove_field n resp)) n = [] /\
  resp_status (remove_field n resp) = resp_status resp /\
  forall k, k <> n -> hm_get_all (resp_headers (remove_field n resp)) k = hm_get_all (resp_headers resp) k.
Proof.
  unfold remove_field, resp_remove_header, remove_header_value. cbn [resp_maps fst snd].
  pose proof (get_all_removed _ (resp_headers resp) n) as [Hr Ho].
  destruct (hm_remove (resp_headers resp) n) as [r values]. done.
Qed.

Lemma set_status_unwrap_spec c resp resp' :
  set_status_unwrap c resp = Some resp' ->
  resp_status resp' = c /\ resp_headers resp' = resp_headers resp.
Proof.
  unfold set_status_unwrap, set_status, status_of. destruct (_ && _); [|done]. by intros [= <-].
Qed.

Definition field_of resp (n : string) : option (list byte) := hm_get (resp_headers resp) (bytes_of n).

(** The body of the reply that a range type stands for. *)
Definition reply_body (rt : RangeType) (body : list byte) : list byte :=
  match rt with
  | RNone => body
  | RSingle r => cut body (r_start r) (r_end r)
  | RMulti info => multipart_body info body
  | RInvalid => []
  end.

Definition reply_status (rt : RangeType) : Z :=
  match rt with RNone => 200 | RSingle _ | RMulti _ => 206 | RInvalid => 416 end.

(** What the response says about its body. *)
Definition describes resp (rt : RangeType) (n : Z) : Prop :=
  match rt with
  | RNone => field_of resp "accept-ranges" = Some (bytes_of "bytes")
  | RSingle r => field_of resp "content-range" = Some (content_range r n)
  | RMulti info =>
      field_of resp "content-type" = Some (bytes_of "multipart/byteranges; boundary=" ++ m_boundary info) /\
      field_of resp "content-range" = None /\ m_total_length info = n
  | RInvalid => field_of resp "content-range" = Some (bytes_of "bytes */" ++ decimal n)
  end.

(** The length each kind of range announces. *)
Definition announced (rt : RangeType) : option (list byte) :=
  match rt with
  | RNone => None
  | RSingle r => Some (decimal (wsub (r_end r) (r_start r)))
  | RMulti info => Some (decimal (calculate_multipart_length info))
  | RInvalid => Some (bytes_of "0")
  end.

Ltac field_names := by (unfold range_fields; set_solver).
Ltac head_of := unfold field_of, hm_get;
  repeat match goal with
  | H : hm_get_all _ _ = _ |- _ => rewrite H
  | H : forall k, k <> _ -> hm_get_all _ k = _ |- _ => rewrite H by discriminate
  end.
Ltac header_step :=
  match goal with
  | H : (insert_unwrap ?n ?v ?r ≫= _) = Some _ |- _ =>
      let r' := fresh "resp" in let Hi := fresh "Hi" in
      destruct (insert_unwrap n v r) as [r'|] eqn:Hi; [|discriminate H]; cbn [mbind option_bind] in H;
      apply insert_unwrap_spec in Hi as (?Hg & ?Hs & ?Ho); [|field_names]
  | H : (set_status_unwrap ?c ?r ≫= _) = Some _ |- _ =>
      let r' := fresh "resp" in let Hi := fresh "Hi" in
      destruct (set_status_unwrap c r) as [r'|] eqn:Hi; [|discriminate H]; cbn [mbind option_bind] in H;
      apply set_status_unwrap_spec in Hi as [?Hs ?Hh]
  | H : context [remove_field ?n ?r] |- _ =>
      let r' := fresh "resp" in
      pose proof (remove_field_spec n r) as (?Hg & ?Hs & ?Ho); set (r' := remove_field n r) in *; clearbody r'
  end.

Lemma apply_range_type_spec rt n resp rt' resp' :
  resp_status resp = 200 -> apply_range_type rt n resp = Some (rt', resp') ->
  ranges_of rt' = ranges_of rt /\ is_multi rt' = is_multi rt /\
  resp_status resp' = reply_status rt' /\ describes resp' rt' n /\
  field_of resp' "content-length" =
    match announced rt' with Some v => Some v | None => field_of resp "content-length" end.
Proof.
  intros Hst Hap. destruct rt as [|r|info|]; cbn [apply_range_type] in Hap; repeat header_step;
    injection Hap as <- <-; cbn [ranges_of reply_status describes announced];
    (split_and!; [done|done|congruence|..]).
  all: rewrite ?Hh in *; head_of; try done.
  all: split_and!; head_of; done.
Qed.

Variable unicode_digits : list (list byte).

Lemma range_header_filter_spec rnd req resp max rt resp' cl n :
  resp_status resp = 200 -> field_of resp "content-length" = Some cl -> parse_number cl = Some n ->
  range_header_filter unicode_digits rnd req resp max = Some (rt, resp') ->
  Forall (range_in n) (ranges_of rt) /\ ascending (ranges_of rt) /\
  (is_multi rt = true -> ranges_of rt <> []) /\ resp_status resp' = reply_status rt /\ describes resp' rt n /\
  field_of resp' "content-length" = match announced rt with Some v => Some v | None => Some cl end.
Proof.
  intros Hst Hcl Hn Hf. unfold range_header_filter in Hf. rewrite Hst in Hf. cbn [negb Z.eqb Pos.eqb] in Hf.
  unfold field_of in Hcl. rewrite Hcl, Hn in Hf.
  apply apply_range_type_spec in Hf as (Hrs & Hm & Hst' & Hd & Ha); [|done].
  unfold field_of at 2 in Ha. rewrite Hcl in Ha. rewrite Hrs, Hm.
  assert (is_usize n) as Hu.
  { unfold parse_number in Hn. destruct (is_utf8 cl); [|done]. by apply parse_u64_usize in Hn. }
  clear Hrs Hm. assert (let rs := ranges_of (request_range_type unicode_digits rnd req resp n max) in
    Forall (range_in n) rs /\ ascending rs /\
    (is_multi (request_range_type unicode_digits rnd req resp n max) = true -> rs <> [])) as (Hin & Hasc & Hm).
  { unfold request_range_type. destruct (is_get_or_head _); [|by repeat constructor].
    destruct (hm_get (req_headers req) _); [|by repeat constructor].
    destruct (match hm_get _ _ with Some _ => _ | None => _ end); [|by repeat constructor].
    destruct (parsed_ranges_ok unicode_digits rnd l n max Hu). split_and!; [done..|].
    apply parsed_multi_non_empty. }
  done.
Qed.

Lemma run_none pieces f : f_range f = RNone ->
  run_filter f pieces = Some (pieces_bytes pieces, f).
Proof.
  intros Hf. induction pieces as [|p pieces IH]; [done|]. cbn [run_filter]. unfold filter_body.
  rewrite Hf. cbn [mbind option_bind]. rewrite IH. done.
Qed.

Lemma run_invalid pieces f : f_range f = RInvalid -> run_filter f pieces = Some ([], f).
Proof.
  intros Hf. induction pieces as [|p pieces IH]; [done|]. cbn [run_filter]. unfold filter_body.
  rewrite Hf. cbn [mbind option_bind]. rewrite IH. done.
Qed.

(** The filter lets through exactly the body of the reply. *)
Lemma run_reply rt pieces :
  zlen (pieces_bytes pieces) < usize_mod ->
  Forall (range_in (zlen (pieces_bytes pieces))) (ranges_of rt) -> ascending (ranges_of rt) ->
  Forall non_empty (ranges_of rt) -> (is_multi rt = true -> ranges_of rt <> []) ->
  exists f', run_filter (new_range rt) pieces = Some (reply_body rt (pieces_bytes pieces), f').
Proof.
  intros Hsz Hin Hasc Hne Hm. destruct rt as [|r|info|]; cbn [ranges_of reply_body] in *.
  - rewrite run_none by done. eauto.
  - apply Forall_singleton in Hin as [Hok _].
    destruct (run_single r pieces [] None None Hok) as (out & Hrun & Hcut); [rewrite zlen_nil; lia|].
    unfold new_range, initial_idx. cbn [is_multi]. rewrite zlen_nil in Hrun. rewrite Hrun.
    rewrite (cut_late []) in Hcut by (destruct Hok; rewrite zlen_nil; lia). simpl in Hcut.
    rewrite Hcut. eauto.
  - destruct (last (m_ranges info)) as [fin|] eqn:Hl; [|by apply last_None in Hl; destruct (Hm eq_refl)].
    apply (run_multi_new info fin); try done; (eapply Forall_impl; [exact Hin|]); by intros ? [? ?].
  - rewrite run_invalid by done. eauto.
Qed.

Lemma announced_length rt body :
  Forall (range_in (zlen body)) (ranges_of rt) -> zlen (reply_body rt body) < usize_mod ->
  match announced rt with
  | Some v => parse_number v = Some (zlen (reply_body rt body))
  | None => rt = RNone
  end.
Proof.
  intros Hin Hsz. destruct rt as [|r|info|]; cbn [ranges_of reply_body announced] in *; [done| | |done].
  - apply Forall_singleton in Hin as [[? ?] ?]. rewrite cut_length in * by lia. rewrite wsub_small by lia.
    apply parse_number_decimal. split; lia.
  - pose proof (zlen_nonneg (multipart_body info body)).
    rewrite (calculate_multipart_length_spec info body), Z.mod_small by
      (try (eapply Forall_impl; [exact Hin|]; intros ? [? ?]; done); lia).
    by apply parse_number_decimal.
Qed.
End reply.

Section claims.
Context {hmap : Type -> Type} `{HM : HMap hmap, HL : !HMapLaws hmap} {Uri : Type} `{HC : HttpCrate Uri}.
Context `{HN : !ReadsNames Uri}.
Variable unicode_digits : list (list byte).

(** C14: serving a 200 response to a range request.  When the response announces
    the length of its body and the request's ranges are not empty, then however
    the body is split into pieces the filter lets through exactly the reply that
    the range type stands for (the whole body, the bytes of the range, the
    multipart encoding of the ranges, or nothing), the new Content-Length is the
    length of what is let through, and status, Content-Range and Content-Type
    describe it. *)
Theorem range_reply_exact rnd req resp max rt resp' cl pieces :
  resp_status resp = 200 -> field_of resp "content-length" = Some cl ->
  parse_number cl = Some (zlen (pieces_bytes pieces)) ->
  range_header_filter unicode_digits rnd req resp max = Some (rt, resp') ->
  Forall non_empty (ranges_of rt) -> zlen (reply_body rt (pieces_bytes pieces)) < usize_mod ->
  (exists f', run_filter (new_range rt) pieces = Some (reply_body rt (pieces_bytes pieces), f')) /\
  (field_of resp' "content-length" ≫= parse_number) = Some (zlen (reply_body rt (pieces_bytes pieces))) /\
  resp_status resp' = reply_status rt /\ describes resp' rt (zlen (pieces_bytes pieces)).
Proof.
  intros Hst Hcl Hn Hf Hne Hsz.
  destruct (range_header_filter_spec _ _ _ _ _ _ _ _ _ Hst Hcl Hn Hf) as (Hin & Hasc & Hm & Hst' & Hd & Hlen).
  split_and!; [|..|done|done].
  - apply run_reply; try done.
    unfold parse_number in Hn. destruct (is_utf8 cl); [|done]. by apply parse_u64_usize in Hn as [_ ?].
  - pose proof (announced_length rt _ Hin Hsz) as Ha. rewrite Hlen.
    destruct (announced rt); [done|]. subst rt. exact Hn.
Qed.
End claims.

(** ** The definitions on an example *)

#[export] Instance simple_reads : ReadsNames (list byte).
Proof.
  intros c Hc. simpl. rewrite bool_decide_false; [done|]. intros ->. unfold range_fields in Hc. set_solver.
Qed.

(** The Arabic-Indic digits. *)
Definition arabic_indic : list (list byte) :=
  map (fun c => [Byte.xd9; c])
    [Byte.xa0; Byte.xa1; Byte.xa2; Byte.xa3; Byte.xa4; Byte.xa5; Byte.xa6; Byte.xa7; Byte.xa8; Byte.xa9].

Definition get_with (range : string) : RequestHeader amap (list byte) :=
  MkReq (bytes_of "GET") (bytes_of "/") HTTP_11 [(bytes_of "range", bytes_of range)] None FromUri true.
Definition ok_with (len : Z) : ResponseHeader amap :=
  MkResp 200 HTTP_11 [(bytes_of "content-length", decimal len); (bytes_of "etag", bytes_of "x")] None None.

Lemma range_reply_exact_witness :
  exists resp info f',
    range_header_filter arabic_indic 255 (get_with "bytes=0-1,-3") (ok_with 10) None = Some (RMulti info, resp) /\
    m_ranges info = [MkRange 0 2; MkRange 7 10] /\
    run_filter (new_range (RMulti info)) (map (Some ∘ bytes_of) ["0123"; "45678"; "9"]%string) =
      Some (multipart_body info (bytes_of "0123456789"), f') /\
    (field_of resp "content-length" ≫= parse_number) = Some (zlen (multipart_body info (bytes_of "0123456789"))).
Proof.
  pose (res := range_header_filter arabic_indic 255 (get_with "bytes=0-1,-3") (ok_with 10) None).
  destruct res as [[rt resp]|] eqn:Hres; [|vm_compute in Hres; discriminate Hres].
  assert (exists info, rt = RMulti info /\ m_ranges info = [MkRange 0 2; MkRange 7 10]) as (info & -> & Hr).
  { vm_compute in Hres. injection Hres as <- _. eexists. split; reflexivity. }
  assert (zlen (reply_body (RMulti info) (bytes_of "0123456789")) < usize_mod) as Hsz.
  { vm_compute in Hres. injection Hres as <- _. vm_compute. reflexivity. }
  destruct (range_reply_exact arabic_indic 255 (get_with "bytes=0-1,-3") (ok_with 10) None (RMulti info) resp
    (decimal 10) (map (Some ∘ bytes_of) ["0123"; "45678"; "9"]%string)) as ((f' & Hrun) & Hlen & _);
    [reflexivity|reflexivity|reflexivity|exact Hres| |exact Hsz|].
  { cbn [ranges_of]. rewrite Hr. repeat constructor. }
  exists resp, info, f'. split_and!; [exact Hres|exact Hr|exact Hrun|exact Hlen].
Defined.
