(* ===== verification/RangeFieldSpec.v ===== *)
(** * Range fields: theorems

    The Range field of a request, written in the grammar of RFC 9110 with any
    white space around its parts, is read as the ranges the RFC gives it. *)

From stdpp Require Import base list numbers strings sets.
From Stdlib Require Import ZArith Lia Sorting.Sorted.
From S2P Require Import Prelude Errors Text Headers HeadersSpec Framing FramingSpec Range RangeSpec.
Import Range.
Local Open Scope Z_scope.

(** ** The reference *)

(** int-range and suffix-range of RFC 9110, section 14.1.1. *)
Inductive Spec :=
| FirstLast (first last : Z)
| From (first : Z)
| Suffix (length : Z).

(** The range that a part selects of a body; [None] when it selects nothing
    (14.1.2) or its last position comes before its first. *)
Definition select (len : Z) (s : Spec) : option Range :=
  match s with
  | FirstLast a b => if (a <? len) && (a <=? b) then Some (MkRange a (Z.min (b + 1) len)) else None
  | From a => if a <? len then Some (MkRange a len) else None
  | Suffix n => Some (MkRange (Z.max 0 (len - n)) len)
  end.

(** Positions of the machine's width; a suffix of some length. *)
Definition spec_fits (s : Spec) : Prop :=
  match s with
  | FirstLast a b => is_usize a /\ is_usize b
  | From a => is_usize a
  | Suffix n => is_usize n
  end.

Fixpoint disjoint_after (last : Z) (rs : list Range) : bool :=
  match rs with
  | [] => true
  | r :: rs => (last <=? r_start r) && disjoint_after (r_end r) rs
  end.

(** A field is declined when it has too many parts, or ranges that overlap or
    are out of order. *)
Definition select_all (rnd len : Z) (max : option Z) (specs : list Spec) : RangeType :=
  let rs := omap (select len) specs in
  if match max with Some m => m <=? zlen specs | None => false end then RNone
  else if disjoint_after 0 rs then range_type_of rnd rs else RNone.

(** ** The text of a field *)

Definition spec_text (s : Spec) : list byte :=
  match s with
  | FirstLast a b => decimal a ++ bytes_of "-" ++ decimal b
  | From a => decimal a ++ bytes_of "-"
  | Suffix n => bytes_of "-" ++ decimal n
  end.

(** A part with the white space before and after it. *)
Record Part := MkPart { p_before : list byte; p_spec : Spec; p_after : list byte }.

Definition blank_byte (c : byte) : Prop := c = Byte.x20 \/ c = Byte.x09.
Definition part_ok (p : Part) : Prop :=
  Forall blank_byte (p_before p) /\ Forall blank_byte (p_after p) /\ spec_fits (p_spec p).

Definition part_text (p : Part) : list byte := p_before p ++ spec_text (p_spec p) ++ p_after p.

Fixpoint join_commas (ps : list (list byte)) : list byte :=
  match ps with
  | [] => []
  | [p] => p
  | p :: ps => p ++ Byte.x2c :: join_commas ps
  end.

Definition range_field (parts : list Part) : list byte :=
  bytes_of "bytes=" ++ join_commas (map part_text parts).

(** ** Reading one part *)

Lemma strip_blank c s : blank_byte c -> strip_one white_space (c :: s) = Some s.
Proof. by intros [->| ->]. Qed.

(** A byte that starts no white space. *)
Definition solid (c : byte) : bool := is_ascii_digit c || bool_decide (c = Byte.x2d).

Lemma strip_solid c s : solid c = true -> strip_one white_space (c :: s) = None.
Proof. destruct c; try (intros H; discriminate H); reflexivity. Qed.

Definition head_ok (P : byte -> Prop) (s : list byte) : Prop :=
  match s with c :: _ => P c | [] => True end.

Lemma strip_all_blank fuel b s :
  Forall blank_byte b -> (length b <= fuel)%nat -> head_ok (fun c => solid c = true) s ->
  strip_all white_space fuel (b ++ s) = s.
Proof.
  intros Hb. revert fuel. induction Hb as [|c b Hc Hb IH]; intros fuel Hf Hs; cbn [app].
  - destruct s as [|c s]; [by destruct fuel|]. destruct fuel; cbn [strip_all]; [done|].
    by rewrite (strip_solid c s Hs).
  - destruct fuel as [|fuel]; [simpl in Hf; lia|]. cbn [strip_all]. rewrite strip_blank by done.
    apply IH; [simpl in Hf; lia|done].
Qed.

Section read.
Variable unicode_digits : list (list byte).
(** The digits outside ASCII start with a byte outside ASCII. *)
Hypothesis non_ascii : Forall (fun d => exists c r, d = c :: r /\ 128 <= byte_val c) unicode_digits.

Lemma no_unicode_digit c s : byte_val c < 128 -> strip_one unicode_digits (c :: s) = None.
Proof.
  intros Hc. revert non_ascii. induction unicode_digits as [|d ds IH]; [done|].
  intros [(c' & r & -> & Hc') Hds]%Forall_cons. cbn [strip_one foldr strip_prefix].
  rewrite bool_decide_false by (intros ->; lia). by apply IH.
Qed.

Definition stops (c : byte) : Prop := is_ascii_digit c = false /\ byte_val c < 128.

Lemma digit_run_digits fuel ds s :
  all_digits ds = true -> (length ds <= fuel)%nat -> head_ok stops s ->
  digit_run unicode_digits fuel (ds ++ s) = (ds, s).
Proof.
  revert fuel. induction ds as [|d ds IH]; intros fuel Hd Hf Hs; cbn [app].
  - destruct fuel; cbn [digit_run]; [done|]. destruct s as [|c s]; [done|]. destruct Hs as [-> Hc].
    by rewrite no_unicode_digit.
  - apply andb_true_iff in Hd as [Hd Hds]. destruct fuel as [|fuel]; [simpl in Hf; lia|].
    cbn [digit_run]. rewrite Hd, IH; [done|done|simpl in Hf; lia|done].
Qed.

Lemma blank_stops b : Forall blank_byte b -> head_ok stops b.
Proof. by destruct 1 as [|c b [->| ->] _]. Qed.

Lemma single_range_part_text b start end_ a :
  Forall blank_byte b -> Forall blank_byte a -> all_digits start = true -> all_digits end_ = true ->
  single_range_part unicode_digits (b ++ (start ++ bytes_of "-" ++ end_) ++ a) = Some (start, end_).
Proof.
  intros Hb Ha Hs He. unfold single_range_part. rewrite strip_all_blank; [|done|rewrite length_app; lia|].
  2: { destruct start as [|c start]; [done|]. simpl in Hs |- *. unfold solid.
       apply andb_true_iff in Hs as [-> _]. done. }
  rewrite <- !app_assoc. rewrite digit_run_digits; [|done|rewrite length_app; lia|done].
  change (bytes_of "-" ++ end_ ++ a) with (Byte.x2d :: end_ ++ a). cbv beta iota.
  rewrite (bool_decide_true (Byte.x2d = Byte.x2d)) by done.
  rewrite digit_run_digits; [|done|rewrite length_app; lia|by apply blank_stops].
  rewrite bool_decide_true; [done|]. rewrite <- (app_nil_r a) at 2. by apply strip_all_blank.
Qed.

Lemma single_range_part_spec p :
  part_ok p ->
  exists start end_, single_range_part unicode_digits (part_text p) = Some (start, end_) /\
    forall len, is_usize len ->
      part_range len (parse_u64 start) (parse_u64 end_) = select len (p_spec p).
Proof.
  destruct p as [b s a]. unfold part_ok, part_text. cbn [p_before p_spec p_after]. intros (Hb & Ha & Hs).
  assert (forall n, is_usize n -> all_digits (decimal n) = true) as Hdec by (intros n Hn; by apply decimal_spec).
  destruct s as [x y|x|x]; cbn [spec_text spec_fits] in *.
  - destruct Hs as [Hx Hy]. exists (decimal x), (decimal y). split; [by apply single_range_part_text; auto|].
    intros len [? ?]. rewrite !parse_u64_decimal by done. cbn [part_range select default from_option id].
    destruct Hx, Hy. destruct (Z.leb_spec len x), (Z.ltb_spec x len); try lia; [done|].
    rewrite wsub_small, wadd_small by lia. cbn [andb].
    destruct (Z.leb_spec (Z.min y (len - 1) + 1) x), (Z.leb_spec x y); try lia; [done|].
    do 2 f_equal. lia.
  - exists (decimal x), []. split.
    { rewrite <- (app_nil_r (bytes_of "-")). by apply single_range_part_text; auto. }
    intros len [? ?]. rewrite parse_u64_decimal by done. change (parse_u64 []) with (@None Z).
    cbn [part_range select default from_option]. destruct Hs.
    destruct (Z.leb_spec len x), (Z.ltb_spec x len); try lia; [done|].
    rewrite wsub_small, wadd_small by lia. destruct (Z.leb_spec (Z.min (len - 1) (len - 1) + 1) x); [lia|].
    do 2 f_equal. lia.
  - exists [], (decimal x). split; [by apply (single_range_part_text b [] (decimal x) a); auto|].
    intros len [? ?]. rewrite parse_u64_decimal by done. change (parse_u64 []) with (@None Z).
    cbn [part_range select]. destruct Hs. destruct (Z.leb_spec x len); do 2 f_equal; [|lia].
    rewrite wsub_small by lia. lia.
Qed.

(** ** Reading the parts *)

Lemma process_parts_select len ps last acc :
  is_usize len -> Forall part_ok ps ->
  process_parts unicode_digits len (map part_text ps) last acc =
  let rs := omap (fun p => select len (p_spec p)) ps in
  if disjoint_after last rs then Some (acc ++ rs) else None.
Proof.
  intros Hlen Hps. revert last acc. induction Hps as [|p ps Hp _ IH]; intros last acc; cbn [map process_parts].
  { simpl. by rewrite app_nil_r. }
  destruct (single_range_part_spec p Hp) as (start & end_ & -> & Hsel). rewrite Hsel by done. simpl.
  destruct (select len (p_spec p)) as [r|]; [|apply IH]. simpl.
  destruct (Z.ltb_spec (r_start r) last), (Z.leb_spec last (r_start r)); try lia; cbn [andb]; [done|].
  rewrite IH. cbv zeta. by rewrite <- (app_assoc acc [r]).
Qed.

Lemma too_many_spec max count parts :
  too_many_ranges max count parts =
  match max with
  | Some m => negb (bool_decide (parts = [])) && (m <=? count + zlen parts)
  | None => false
  end.
Proof.
  revert count. induction parts as [|p parts IH]; intros count; cbn [too_many_ranges].
  { by destruct max. }
  destruct max as [m|]; [|apply IH]. rewrite bool_decide_false by done. cbn [negb andb]. rewrite zlen_cons.
  pose proof (zlen_nonneg parts).
  destruct (Z.leb_spec m (count + 1)), (Z.leb_spec m (count + (1 + zlen parts))); try lia; try done.
  - rewrite IH. destruct parts as [|q parts]; [rewrite zlen_nil in *; lia|]. cbn. apply Z.leb_le. lia.
  - rewrite IH. destruct (bool_decide _); [done|]. cbn. apply Z.leb_gt. lia.
Qed.
End read.

(** ** The whole field *)

(** The bytes of a part: digits, a dash, blanks. *)
Definition part_byte (c : byte) : Prop := solid c = true \/ blank_byte c.

Lemma digits_part_bytes ds : all_digits ds = true -> Forall part_byte ds.
Proof.
  unfold all_digits. rewrite forallb_forall, Forall_forall. intros H c Hc. left. unfold solid.
  rewrite H; [done|]. by apply list_elem_of_In.
Qed.

Lemma part_text_bytes p : part_ok p -> Forall part_byte (part_text p) /\ Byte.x2d ∈ part_text p.
Proof.
  destruct p as [b s a]. unfold part_ok, part_text. cbn [p_before p_spec p_after]. intros (Hb & Ha & Hs).
  assert (forall n, is_usize n -> Forall part_byte (decimal n)) as Hdec.
  { intros n Hn. apply digits_part_bytes. by apply decimal_spec. }
  assert (Forall part_byte (bytes_of "-")) as Hd by (repeat constructor).
  split.
  - rewrite !Forall_app. split_and!; [eapply Forall_impl; [exact Hb|by right]| |eapply Forall_impl; [exact Ha|by right]].
    destruct s; cbn [spec_text spec_fits] in *; rewrite ?Forall_app; naive_solver.
  - rewrite !elem_of_app. right; left.
    assert (Byte.x2d ∈ bytes_of "-") by (by left). destruct s; cbn [spec_text]; rewrite !elem_of_app; tauto.
Qed.

Lemma part_byte_cases c : part_byte c -> in_range 0 127 c = true /\ c <> Byte.x2c.
Proof.
  intros [Hs|[->| ->]]; [|done..]. unfold solid in Hs. apply orb_true_iff in Hs as [Hs|Hs].
  - split; [by apply digit_ascii|]. by intros ->.
  - by apply bool_decide_eq_true in Hs as ->.
Qed.

Lemma split_byte_cons b p s : Forall (fun c => c <> b) p -> split_byte b (p ++ b :: s) = p :: split_byte b s.
Proof.
  unfold split_byte. induction 1 as [|c p Hc _ IH]; cbn [app split_at].
  - by rewrite bool_decide_true.
  - rewrite bool_decide_false, IH by done. done.
Qed.

Lemma split_byte_last b p : Forall (fun c => c <> b) p -> split_byte b p = [p].
Proof.
  unfold split_byte. induction 1 as [|c p Hc _ IH]; cbn [split_at]; [done|].
  rewrite bool_decide_false, IH by done. done.
Qed.

Lemma split_join ps : ps <> [] -> Forall (Forall (fun c => c <> Byte.x2c)) ps ->
  split_byte Byte.x2c (join_commas ps) = ps.
Proof.
  intros Hne Hps. destruct Hps as [|p ps Hp Hps]; [done|]. clear Hne.
  revert p Hp. induction Hps as [|q ps Hq Hps IH]; intros p Hp; [by apply split_byte_last|].
  change (join_commas (p :: q :: ps)) with (p ++ Byte.x2c :: join_commas (q :: ps)).
  rewrite split_byte_cons, IH by done. done.
Qed.

Lemma strip_all_keeps ws c fuel s :
  Forall (fun w => c ∉ w) ws -> c ∈ s -> c ∈ strip_all ws fuel s.
Proof.
  intros Hws. revert s. induction fuel as [|fuel IH]; intros s Hs; cbn [strip_all]; [done|].
  destruct (strip_one ws s) as [s'|] eqn:Ho; [|done]. apply IH.
  clear IH. induction Hws as [|w ws Hw _ IHw]; [done|]. cbn [strip_one foldr] in Ho.
  destruct (strip_prefix w s) as [r|] eqn:Hp; [|by apply IHw].
  injection Ho as ->. apply strip_prefix_spec in Hp as ->. set_solver.
Qed.

Lemma elem_rev (c : byte) s : c ∈ rev s <-> c ∈ s.
Proof. rewrite !list_elem_of_In. symmetry. apply in_rev. Qed.

Lemma trim_keeps c s : Forall (fun w => c ∉ w) white_space -> c ∈ s -> trim s <> [].
Proof.
  intros Hws Hs Ht. assert (c ∈ trim s) as Hin; [|rewrite Ht in Hin; set_solver].
  unfold trim. rewrite elem_rev. apply strip_all_keeps; [|rewrite elem_rev; by apply strip_all_keeps].
  rewrite Forall_map. eapply Forall_impl; [exact Hws|]. intros w Hw. simpl. by rewrite elem_rev.
Qed.

Lemma join_bytes (P : byte -> Prop) ps : P Byte.x2c -> Forall (Forall P) ps -> Forall P (join_commas ps).
Proof.
  intros Hc. induction 1 as [|p ps Hp Hps IH]; [constructor|]. destruct ps as [|q ps]; [done|].
  change (join_commas (p :: q :: ps)) with (p ++ Byte.x2c :: join_commas (q :: ps)).
  apply Forall_app. split; [done|]. by constructor.
Qed.

Lemma join_first c p ps : c ∈ p -> c ∈ join_commas (p :: ps).
Proof. intros Hc. destruct ps; [done|]. cbn [join_commas]. rewrite elem_of_app. by left. Qed.

Lemma omap_parts len ps : omap (fun p => select len (p_spec p)) ps = omap (select len) (map p_spec ps).
Proof. induction ps as [|p ps IH]; [done|]. cbn. destruct (select len (p_spec p)); [f_equal|]; exact IH. Qed.

(** a Range field written in the grammar of RFC 9110, with blanks around its
    parts, is read as the ranges the RFC selects: [first-last] and [first-] cut
    to the body and dropped when they select nothing, [-length] the last bytes.
    No range at all is 416, one range a single part, more a multipart reply; a
    field with as many parts as the limit, or whose ranges overlap or are out
    of order, is ignored. *)
Theorem range_field_selects (unicode_digits : list (list byte)) rnd len max (parts : list Part) :
  Forall (fun d => exists c r, d = c :: r /\ 128 <= byte_val c) unicode_digits ->
  parts <> [] -> Forall part_ok parts -> is_usize len ->
  parse_range_header unicode_digits rnd (range_field parts) len max =
  select_all rnd len max (map p_spec parts).
Proof.
  intros Hu Hne Hps Hlen. destruct parts as [|p ps]; [done|]. clear Hne.
  assert (Forall (fun t => Forall part_byte t) (map part_text (p :: ps))) as Hb.
  { rewrite Forall_map. eapply Forall_impl; [exact Hps|]. intros q Hq. by apply part_text_bytes. }
  unfold parse_range_header. rewrite is_utf8_ascii.
  2: { unfold range_field. apply Forall_app. split; [repeat constructor|]. apply join_bytes; [done|].
       eapply Forall_impl; [exact Hb|]. intros t Ht. eapply Forall_impl; [exact Ht|]. apply part_byte_cases. }
  change (split_prefix (range_field (p :: ps)))
    with (bytes_of "bytes", Some (drop 0 (join_commas (map part_text (p :: ps))))).
  rewrite drop_0. change (eq_ignore_ascii_case (bytes_of "bytes") (bytes_of "bytes")) with true. cbv iota.
  rewrite bool_decide_false.
  2: { apply (trim_keeps Byte.x2d).
       - apply (bool_decide_unpack _). vm_compute. exact I.
       - apply join_first. apply Forall_cons in Hps as [Hp _]. by apply part_text_bytes. }
  rewrite split_join; [|done|].
  2: { eapply Forall_impl; [exact Hb|]. intros t Ht. eapply Forall_impl; [exact Ht|]. apply part_byte_cases. }
  rewrite too_many_spec, process_parts_select by done. cbv zeta. rewrite omap_parts. unfold select_all.
  rewrite bool_decide_false, Z.add_0_l by done. unfold zlen. rewrite !length_map. cbn [negb andb].
  destruct max as [m|]; [destruct (m <=? _); [done|]|]; by destruct (disjoint_after _ _).
Qed.

Lemma range_field_selects_witness :
  parse_range_header arabic_indic 7
    (range_field [MkPart [] (FirstLast 0 99) []; MkPart [Byte.x20] (FirstLast 400 300) [];
                  MkPart [Byte.x20; Byte.x09] (Suffix 50) [Byte.x20]]) 320 (Some 200) =
  RMulti (multi_new 7 [MkRange 0 100; MkRange 270 320]).
Proof.
  rewrite (range_field_selects arabic_indic); [reflexivity|..].
  - unfold arabic_indic. repeat (constructor; [eexists _, _; split; [reflexivity|vm_compute; discriminate]|]).
    constructor.
  - discriminate.
  - repeat constructor; vm_compute; reflexivity || discriminate.
  - split; [discriminate|reflexivity].
Defined.

(** ** Where the code departs from the RFC *)

(** A suffix of length zero selects nothing, but is read as an empty range: the
    reply is a 206 whose Content-Range has its last position before its first. *)
Lemma empty_suffix_served :
  match range_header_filter arabic_indic 0 (get_with "bytes=-0") (ok_with 10) None with
  | Some (rt, resp) =>
      rt = RSingle (MkRange 10 10) /\ resp_status resp = 206 /\
      field_of resp "content-range" = Some (bytes_of "bytes 10-9/10")
  | None => False
  end.
Proof. vm_compute. done. Qed.

(** On an empty body the last position wraps around. *)
Lemma empty_body_suffix_served :
  match range_header_filter arabic_indic 0 (get_with "bytes=-5") (ok_with 0) None with
  | Some (rt, resp) =>
      resp_status resp = 206 /\
      field_of resp "content-range" = Some (bytes_of "bytes 0-18446744073709551615/0")
  | None => False
  end.
Proof. vm_compute. done. Qed.

(** In a multipart reply the header of an empty range is counted in the length but
    not sent. *)
Lemma empty_suffix_miscounted :
  match range_header_filter arabic_indic 0 (get_with "bytes=0-1,-0") (ok_with 10) None with
  | Some (rt, resp) =>
      match run_filter (new_range rt) [Some (bytes_of "0123456789")] with
      | Some (out, _) => (field_of resp "content-length" ≫= parse_number) = Some 213 /\ zlen out = 119
      | None => False
      end
  | None => False
  end.
Proof. vm_compute. done. Qed.

(** A first position that does not fit 64 bits is read as no position, which makes the
    last position the length of a suffix. *)
Lemma oversized_first_is_suffix :
  parse_range_header arabic_indic 0 (bytes_of "bytes=18446744073709551616-5") 10 None =
  RSingle (MkRange 5 10).
Proof. vm_compute. done. Qed.

(** A field with exactly as many ranges as the limit is declined. *)
Lemma limit_is_exclusive :
  parse_range_header arabic_indic 0 (bytes_of "bytes=0-1,3-4") 10 (Some 2) = RNone /\
  parse_range_header arabic_indic 0 (bytes_of "bytes=0-1,3-4") 10 (Some 3) =
    RMulti (multi_new 0 [MkRange 0 2; MkRange 3 5]).
Proof. vm_compute. done. Qed.
