(* ===== verification/Conditional.v ===== *)
(** * Conditional requests, dates and error responses

    [src/pingora-core/src/protocols/http/conditional_filter.rs], [date.rs] and
    [error_resp.rs]: whether a cached response is answered with 304, the change
    of the header to 304, the cached Date value and the generated error
    responses.  [httpdate] and [chrono] are parameters: a date is its number of
    seconds. *)

From stdpp Require Import base list numbers strings.
From Stdlib Require Import ZArith Lia.
From S2P Require Import Prelude Errors Text Headers Range.
Import Range.
Local Open Scope Z_scope.

Module Conditional.

(** ** Entity tags *)

Definition COMMA : byte := Byte.x2c.

Definition strip_weak_prefix (etag : list byte) : list byte :=
  match strip_prefix (bytes_of "W/") etag with Some e => e | None => etag end.

(** From the next comma on, past commas and white space, without a weak prefix. *)
Definition next_etag (remaining : list byte) : option (list byte) :=
  match position (fun b => bool_decide (b = COMMA)) remaining with
  | None => None
  | Some next_delimiter_pos =>
      let remaining := drop next_delimiter_pos remaining in
      match position (fun b => negb (is_ascii_whitespace b) && negb (bool_decide (b = COMMA))) remaining with
      | None => None
      | Some next_etag_pos => Some (strip_weak_prefix (drop next_etag_pos remaining))
      end
  end.

(** The loop; every round drops a byte at least. *)
Fixpoint etag_loop (fuel : nat) (target_etag remaining : list byte) : bool :=
  match fuel with
  | O => false
  | S fuel =>
      if (length remaining <? length target_etag)%nat then false
      else
        let found := bool_decide (take (length target_etag) remaining = target_etag) in
        let remaining := if found then trim_ascii_start (drop (length target_etag) remaining) else remaining in
        if found && match remaining with [] => true | c :: _ => bool_decide (c = COMMA) end then true
        else match next_etag remaining with
             | Some remaining => etag_loop fuel target_etag remaining
             | None => false
             end
  end.

Definition weak_validate_etag (input_etag_header target_etag : list byte) : bool :=
  if bool_decide (input_etag_header = bytes_of "*") then true
  else
    let remaining := strip_weak_prefix input_etag_header in
    etag_loop (S (length remaining)) (strip_weak_prefix target_etag) remaining.

(** ** The filter *)

Section filter.
Context {hmap : Type -> Type} `{HM : HMap hmap} {Uri : Type} `{HC : HttpCrate Uri}.
(** [httpdate::parse_http_date]: [inr] is the text of its error. *)
Variable parse_http_date : list byte -> Z + string.

Definition parse_bytes_as_http_date (bytes : list byte) : Z + Error :=
  if is_utf8 bytes then
    match parse_http_date bytes with
    | inl d => inl d
    | inr e => inr (because InvalidHTTPHeader "Invalid HTTP date" (Foreign e))
    end
  else inr (explain InvalidHTTPHeader "HTTP date has unsupported characters (bytes outside of UTF-8)").

Definition header_as_http_date (headers : hmap (list byte)) (name : list byte) : option Z + Error :=
  match hm_get headers name with
  | None => inl None
  | Some v => match parse_bytes_as_http_date v with inl d => inl (Some d) | inr e => inr e end
  end.
Definition req_header_as_http_date (req : RequestHeader hmap Uri) (name : list byte) : option Z + Error :=
  header_as_http_date (req_headers req) name.
Definition resp_header_as_http_date (resp : ResponseHeader hmap) (name : list byte) : option Z + Error :=
  header_as_http_date (resp_headers resp) name.

Definition not_modified_filter (req : RequestHeader hmap Uri) (resp : ResponseHeader hmap) : bool :=
  if negb (resp_status resp =? 200) then false
  else if hm_contains_key (req_headers req) (bytes_of "if-none-match") then
    match hm_get (resp_headers resp) (bytes_of "etag") with
    | Some etag =>
        existsb (fun inm => weak_validate_etag inm etag) (hm_get_all (req_headers req) (bytes_of "if-none-match"))
    | None => false
    end
  else if is_get_or_head (req_method req) then
    match req_header_as_http_date req (bytes_of "if-modified-since") with
    | inl (Some if_modified_since) =>
        match resp_header_as_http_date resp (bytes_of "last-modified") with
        | inl (Some last_modified) => last_modified <=? if_modified_since
        | _ => false
        end
    | _ => false
    end
  else false.

(** [None]: the status is refused. *)
Definition to_304 (resp : ResponseHeader hmap) : option (ResponseHeader hmap) :=
  resp ← set_status_unwrap 304 resp;
  let resp := remove_field (bytes_of "content-length") resp in
  let resp := remove_field (bytes_of "content-type") resp in
  let resp := remove_field (bytes_of "transfer-encoding") resp in
  let resp := remove_field (bytes_of "content-encoding") resp in
  Some (remove_field (bytes_of "accept-ranges") resp).

(** ** Error responses *)

(** [None]: an [unwrap] panics. *)
Definition gen_error_response (server_name : list byte) (code : Z) : option (ResponseHeader hmap) :=
  match resp_build code with
  | inr _ => None
  | inl resp =>
      resp ← insert_unwrap (bytes_of "server") server_name resp;
      resp ← insert_unwrap (bytes_of "date") (bytes_of "Sun, 06 Nov 1994 08:49:37 GMT") resp;
      resp ← insert_unwrap (bytes_of "content-length") (bytes_of "0") resp;
      insert_unwrap (bytes_of "cache-control") (bytes_of "private, no-store") resp
  end.

End filter.

(** ** The cached Date value *)

Section date.
(** [chrono]'s text of a date. *)
Variable to_date_string : Z -> list byte.

(** Times are in nanoseconds since the epoch. *)
Record CacheableDate := MkDate { h1_date : list byte; epoch : Z }.
Definition as_secs (d : Z) : Z := d / 1000000000.

Definition date_new (now : Z) : CacheableDate := MkDate (to_date_string (as_secs now)) now.
Definition date_update (d_now : Z) (c : CacheableDate) : CacheableDate :=
  if negb (as_secs d_now =? as_secs (epoch c)) then MkDate (to_date_string (as_secs d_now)) d_now else c.
Definition get_date (now : Z) (c : CacheableDate) : list byte * CacheableDate :=
  let c := date_update now c in (h1_date c, c).
End date.

End Conditional.
