(* ===== verification/ConditionalSpec.v ===== *)
(** * Conditional requests: theorems

    The search for an entity tag in an If-None-Match list is exact for lists in
    the grammar of RFC 9110, unless the tag looks like a separator; the decision
    for 304 follows the precedence of RFC 9110. *)

From stdpp Require Import base list numbers strings sets.
From Stdlib Require Import ZArith Lia.
From S2P Require Import Prelude Errors Text Headers HeadersSpec Range RangeSpec Conditional.
Import Range Conditional.
Local Open Scope Z_scope.

(** ** Lists of entity tags *)

Definition DQUOTE : byte := Byte.x22.

(** The bytes of an opaque tag: no quote and no white space. *)
Definition etagc (c : byte) : Prop := c <> DQUOTE /\ is_ascii_whitespace c = false.
(** The bytes between two tags. *)
Definition sepc (c : byte) : Prop := is_ascii_whitespace c = true \/ c = COMMA.

(** A tag, weak or not, and what follows it. *)
Record Entry := MkEntry { e_weak : bool; e_opaque : list byte; e_sep : list byte }.

Definition tag_text (opaque : list byte) : list byte := DQUOTE :: opaque ++ [DQUOTE].
Definition weak_text (weak : bool) : list byte := if weak then bytes_of "W/" else [].

Fixpoint render (es : list Entry) : list byte :=
  match es with
  | [] => []
  | e :: es => weak_text (e_weak e) ++ tag_text (e_opaque e) ++ e_sep e ++ render es
  end.

(** A comma separates a tag from the next one. *)
Fixpoint list_ok (es : list Entry) : Prop :=
  match es with
  | [] => True
  | e :: es =>
      Forall etagc (e_opaque e) /\ Forall sepc (e_sep e) /\ (es <> [] -> COMMA ∈ e_sep e) /\ list_ok es
  end.

(** A tag that can be read out of the separator between two tags. *)
Definition separator_like (o : list byte) : Prop :=
  exists n w, o = replicate (S n) COMMA ++ weak_text w.

Definition lists_tag (o : list byte) (es : list Entry) : bool :=
  existsb (fun e => bool_decide (e_opaque e = o)) es.

(** ** Positions *)

Lemma position_app_none p a b : Forall (fun c => p c = false) a ->
  position p (a ++ b) = (fun i => (length a + i)%nat) <$> position p b.
Proof.
  induction 1 as [|c a Hc _ IH]; simpl; [by destruct (position p b)|]. rewrite Hc, IH. by destruct (position p b).
Qed.

Lemma is_comma c : bool_decide (c = COMMA) = true <-> c = COMMA.
Proof. apply bool_decide_eq_true. Qed.

(** A list of bytes without a comma, or cut at its first one. *)
Lemma comma_cases (s : list byte) :
  Forall (fun c => bool_decide (c = COMMA) = false) s \/
  exists a b, s = a ++ COMMA :: b /\ Forall (fun c => bool_decide (c = COMMA) = false) a.
Proof.
  induction s as [|c s [IH|(a & b & -> & IH)]]; [by left|..].
  - destruct (bool_decide (c = COMMA)) eqn:Hc; [right|left; by constructor].
    apply is_comma in Hc as ->. by exists [], s.
  - right. destruct (bool_decide (c = COMMA)) eqn:Hc.
    + apply is_comma in Hc as ->. by exists [], (a ++ COMMA :: b).
    + exists (c :: a), b. split; [done|by constructor].
Qed.

(** Leading separators are skipped. *)
Lemma sep_cases (s : list byte) : exists a b, s = a ++ b /\ Forall sepc a /\
  match b with [] => True | c :: _ => ~ sepc c end.
Proof.
  induction s as [|c s (a & b & -> & Ha & Hb)]; [by exists [], []|].
  destruct (is_ascii_whitespace c) eqn:Hw; [exists (c :: a), b; split_and!; [done|constructor; [by left|done]|done]|].
  destruct (decide (c = COMMA)) as [->|Hc]; [exists (COMMA :: a), b; split_and!; [done|constructor; [by right|done]|done]|].
  exists [], (c :: a ++ b). split_and!; [done|constructor|]. intros [?|?]; congruence.
Qed.

Definition skips (b : byte) : bool := negb (is_ascii_whitespace b) && negb (bool_decide (b = COMMA)).

Lemma skips_sep c : skips c = false <-> sepc c.
Proof.
  unfold skips, sepc. rewrite andb_false_iff, !negb_false_iff, bool_decide_eq_true. done.
Qed.

(** The search for the next tag, from a text whose first comma is known. *)
Lemma next_etag_comma a seps b :
  Forall (fun c => bool_decide (c = COMMA) = false) a -> Forall sepc seps ->
  next_etag (a ++ COMMA :: seps ++ b) =
  match b with
  | [] => None
  | c :: _ => if skips c then Some (strip_weak_prefix b) else next_etag (COMMA :: seps ++ b)
  end.
Proof.
  intros Ha Hs. assert (position skips (COMMA :: seps ++ b) = (fun i => (S (length seps) + i)%nat) <$> position skips b) as Hpos.
  { change (COMMA :: seps ++ b) with ((COMMA :: seps) ++ b). rewrite position_app_none; [done|].
    constructor; [done|]. eapply Forall_impl; [exact Hs|]. intros c Hc. by apply skips_sep. }
  unfold next_etag. rewrite position_app_none by done. cbn [position].
  rewrite (bool_decide_true (COMMA = COMMA)) by done. cbn [fmap option_fmap option_map].
  rewrite Nat.add_0_r, drop_app_length. fold skips in *. cbn [drop].
  change (fun b0 => negb (is_ascii_whitespace b0) && negb (bool_decide (b0 = COMMA))) with skips.
  rewrite Hpos. destruct b as [|c b]; [done|]. cbn [position]. destruct (skips c) eqn:Hc; [|done].
  cbn [fmap option_fmap option_map]. rewrite Nat.add_0_r.
  change (COMMA :: seps ++ c :: b) with ((COMMA :: seps) ++ c :: b). by rewrite (drop_app_length (COMMA :: seps)).
Qed.

Lemma next_etag_none a : Forall (fun c => bool_decide (c = COMMA) = false) a -> next_etag a = None.
Proof. intros Ha. unfold next_etag. apply position_None in Ha. by rewrite Ha. Qed.

Lemma strip_weak_length s : (length (strip_weak_prefix s) <= length s)%nat.
Proof.
  unfold strip_weak_prefix. destruct (strip_prefix _ s) as [r|] eqn:Hp; [|done].
  apply strip_prefix_spec in Hp as ->. rewrite length_app. lia.
Qed.

Lemma next_etag_shrinks s s' : next_etag s = Some s' -> (length s' < length s)%nat.
Proof.
  unfold next_etag. destruct (position _ s) as [i|] eqn:Hi; [|done].
  apply position_Some in Hi as (_ & c & Hs & Hc). apply is_comma in Hc as ->.
  set (r := drop i s). assert (r = COMMA :: drop (S i) s) as Hr.
  { subst r. pose proof (f_equal (drop i) Hs) as H. rewrite drop_app_length' in H; [done|].
    rewrite length_take. assert (i < length s)%nat; [|lia].
    pose proof (f_equal length Hs) as Hl. rewrite length_app, length_take in Hl. simpl in Hl. lia. }
  rewrite Hr. cbn [position]. destruct (position _ (drop (S i) s)) as [j|]; [|done]. cbn.
  intros [= <-]. pose proof (strip_weak_length (drop j (drop (S i) s))) as Hl. rewrite !length_drop in Hl.
  assert (length r = length s - i)%nat as Hlr by (subst r; apply length_drop). rewrite Hr in Hlr. simpl in Hlr. lia.
Qed.

(** ** The search *)

Lemma quote_split (a b u v : list byte) : a ++ DQUOTE :: u = b ++ DQUOTE :: v ->
  DQUOTE ∉ a -> DQUOTE ∉ b -> a = b /\ u = v.
Proof.
  revert b. induction a as [|c a IH]; intros [|d b] Heq Ha Hb; simpl in *.
  - by injection Heq as ->.
  - injection Heq as <- _. set_solver.
  - injection Heq as -> _. set_solver.
  - injection Heq as <- Heq. destruct (IH b Heq) as [-> ->]; [set_solver..|done].
Qed.

Lemma etagc_no_quote o : Forall etagc o -> DQUOTE ∉ o.
Proof. rewrite Forall_forall. intros Ho Hin. by destruct (Ho _ Hin). Qed.

Lemma sepc_no_quote s : Forall sepc s -> DQUOTE ∉ s.
Proof. rewrite Forall_forall. intros Hs Hin. by destruct (Hs _ Hin) as [?|?]. Qed.

Lemma comma_free_nonws (a : list byte) c : c ∈ a -> Forall (fun c => bool_decide (c = COMMA) = false) a -> c <> COMMA.
Proof. rewrite Forall_forall. intros Hc Ha ->. by specialize (Ha _ Hc). Qed.

Lemma list_ok_cons e es : list_ok (e :: es) <->
  Forall etagc (e_opaque e) /\ Forall sepc (e_sep e) /\ (es <> [] -> COMMA ∈ e_sep e) /\ list_ok es.
Proof. done. Qed.

(** Separators, cut after their first comma. *)
Lemma sep_comma s : Forall sepc s -> COMMA ∈ s ->
  exists a b, s = a ++ COMMA :: b /\ Forall (fun c => bool_decide (c = COMMA) = false) a /\
    Forall (fun c => is_ascii_whitespace c = true) a /\ Forall sepc b.
Proof.
  intros Hs Hc. destruct (comma_cases s) as [Hn|(a & b & -> & Ha)].
  - exfalso. by eapply comma_free_nonws.
  - apply Forall_app in Hs as [Hsa Hsb]. apply Forall_cons in Hsb as [_ Hsb]. exists a, b. split_and!; try done.
    rewrite Forall_forall in *. intros c Hin. destruct (Hsa c Hin) as [?| ->]; [done|]. by specialize (Ha _ Hin).
Qed.

Definition after_tag (s : list byte) (es : list Entry) : list byte := DQUOTE :: s ++ render es.

(** The first tag of a list, without its weak prefix. *)
Definition first_tag (es : list Entry) : list byte :=
  match es with [] => [] | e :: es => tag_text (e_opaque e) ++ e_sep e ++ render es end.

Lemma strip_weak_quote s : strip_weak_prefix (DQUOTE :: s) = DQUOTE :: s.
Proof. done. Qed.

Lemma strip_weak_first e es : strip_weak_prefix (render (e :: es)) = first_tag (e :: es).
Proof. unfold strip_weak_prefix. simpl. by destruct (e_weak e). Qed.

(** From the end of a tag the search goes to the next one. *)
Lemma next_after_tag s es :
  Forall sepc s -> (es <> [] -> COMMA ∈ s) ->
  forall x, Forall (fun c => bool_decide (c = COMMA) = false) x ->
  next_etag (x ++ after_tag s es) = match es with [] => None | _ => Some (first_tag es) end.
Proof.
  intros Hs Hc x Hx. unfold after_tag.
  assert (Forall (fun c => bool_decide (c = COMMA) = false) (x ++ [DQUOTE])) as Hx'.
  { apply Forall_app. split; [done|by constructor]. }
  destruct (decide (COMMA ∈ s)) as [Hin|Hin].
  - destruct (sep_comma s Hs Hin) as (a & b & -> & Ha & _ & Hb).
    replace (x ++ DQUOTE :: (a ++ COMMA :: b) ++ render es) with (((x ++ [DQUOTE]) ++ a) ++ COMMA :: b ++ render es)
      by (by rewrite <- !app_assoc).
    rewrite next_etag_comma; [|by apply Forall_app|done].
    destruct es as [|e es]; [done|]. rewrite <- (strip_weak_first e es).
    destruct (render (e :: es)) as [|c t] eqn:Hr; [by destruct e as [[]]|].
    assert (skips c = true) as ->; [|done]. simpl in Hr. destruct (e_weak e); by injection Hr as <- _.
  - destruct es as [|e es]; [|by destruct Hin; apply Hc]. rewrite next_etag_none; [done|]. simpl. rewrite app_nil_r.
    change (DQUOTE :: s) with ([DQUOTE] ++ s). rewrite app_assoc. apply Forall_app. split; [done|].
    rewrite Forall_forall. intros c Hcs. apply bool_decide_eq_false. by intros ->.
Qed.

(** From inside a tag with a comma it goes on inside the tag. *)
Lemma next_inside a b s es :
  Forall (fun c => bool_decide (c = COMMA) = false) a -> Forall etagc b ->
  exists x, Forall etagc x /\ next_etag (a ++ COMMA :: b ++ after_tag s es) = Some (x ++ after_tag s es).
Proof.
  intros Ha Hb. destruct (sep_cases b) as (cs & b' & -> & Hcs & Hb'). apply Forall_app in Hb as [_ Hb].
  rewrite <- app_assoc, next_etag_comma by done.
  assert (exists x, Forall etagc x /\ strip_weak_prefix (b' ++ after_tag s es) = x ++ after_tag s es) as (x & Hx & Hst).
  { unfold strip_weak_prefix. destruct b' as [|c b']; [by exists []|]. destruct b' as [|c2 b'].
    - exists [c]. split; [done|]. cbn. case_bool_decide; done.
    - cbn. case_bool_decide; [|by exists (c :: c2 :: b')]. case_bool_decide; [|by exists (c :: c2 :: b')].
      exists b'. split; [|done]. by apply Forall_cons in Hb as [_ [_ Hb]%Forall_cons]. }
  exists x. split; [done|]. rewrite <- Hst. destruct b' as [|c b']; [done|]. cbn [app].
  assert (skips c = true) as ->; [|done]. destruct (skips c) eqn:Hc; [done|]. by apply skips_sep in Hc.
Qed.

Section search.
Variable o : list byte.
Hypothesis tag_ok : Forall etagc o.
Hypothesis tag_no_separator : ~ separator_like o.

Lemma take_target (r : list byte) : take (length (tag_text o)) r = tag_text o -> exists t, r = tag_text o ++ t.
Proof. intros Ht. exists (drop (length (tag_text o)) r). by rewrite <- Ht at 1; rewrite take_drop. Qed.

Lemma tag_text_app t : tag_text o ++ t = DQUOTE :: o ++ DQUOTE :: t.
Proof. unfold tag_text. simpl. by rewrite <- app_assoc. Qed.

Lemma not_in_separator s es t :
  Forall sepc s -> (es <> [] -> COMMA ∈ s) -> list_ok es -> after_tag s es <> tag_text o ++ t.
Proof.
  intros Hs Hc Hes Heq. rewrite tag_text_app in Heq. unfold after_tag in Heq. injection Heq as Heq.
  assert (forall p q r : list byte, DQUOTE ∉ p -> p ++ q = o ++ DQUOTE :: r -> exists o2, o = p ++ o2 /\ q = o2 ++ DQUOTE :: r) as Hpre.
  { intros p. clear -p. revert o. induction p as [|c p IH]; intros o q r Hp Hq; simpl in *; [by exists o|].
    destruct o as [|d o]; simpl in Hq; [injection Hq as -> _; set_solver|]. injection Hq as <- Hq.
    destruct (IH o q r ltac:(set_solver) Hq) as (o2 & -> & ->). by exists o2. }
  destruct (Hpre s (render es) t (sepc_no_quote _ Hs) Heq) as (o2 & Ho & Hr).
  destruct es as [|e es]; [by destruct o2|]. specialize (Hc ltac:(done)).
  assert (o2 = weak_text (e_weak e)) as ->.
  { pose proof tag_ok as Hok. rewrite Ho in Hok. apply Forall_app in Hok as [_ Hok2]. simpl in Hr.
    change (tag_text (e_opaque e) ++ e_sep e ++ render es) with (DQUOTE :: (e_opaque e ++ [DQUOTE]) ++ e_sep e ++ render es) in Hr.
    destruct (quote_split _ _ _ _ (eq_sym Hr)) as [? _]; [by apply etagc_no_quote|by destruct (e_weak e); set_solver|done]. }
  apply tag_no_separator. pose proof tag_ok as Hok. rewrite Ho in Hok. apply Forall_app in Hok as [Hok _].
  assert (s = replicate (length s) COMMA) as Hrep.
  { clear -Hs Hok. induction s as [|c s IH]; [done|]. apply Forall_cons in Hs as [Hc Hs], Hok as [[_ Hw] Hok].
    simpl. f_equal; [|by apply IH]. destruct Hc as [?|?]; [congruence|done]. }
  exists (length s - 1)%nat, (e_weak e). rewrite Ho. f_equal. rewrite Hrep at 1. f_equal.
  destruct s; [set_solver|simpl; lia].
Qed.

Lemma lists_tag_length es : lists_tag o es = true -> (length (tag_text o) <= length (render es))%nat.
Proof.
  induction es as [|e es IH]; [done|]. unfold lists_tag. cbn [existsb render]. fold (lists_tag o es).
  rewrite !length_app. case_bool_decide as He; [rewrite He; lia|]. cbn [orb]. intros Hl. specialize (IH Hl). lia.
Qed.

Lemma trim_sep s es : Forall sepc s -> (es <> [] -> COMMA ∈ s) ->
  match trim_ascii_start (s ++ render es) with [] => true | c :: _ => bool_decide (c = COMMA) end = true.
Proof.
  intros Hs Hc. destruct (decide (COMMA ∈ s)) as [Hin|Hin].
  - destruct (sep_comma s Hs Hin) as (a & b & -> & _ & Ha & _). rewrite <- app_assoc. clear -Ha.
    unfold trim_ascii_start. induction Ha as [|c a Hc _ IH]; simpl; [done|]. by rewrite Hc.
  - destruct es as [|e es]; [|by destruct Hin; apply Hc]. simpl. rewrite app_nil_r. clear Hc.
    unfold trim_ascii_start. induction Hs as [|c s Hc _ IH]; [done|]. simpl.
    destruct Hc as [->| ->]; [apply IH; set_solver|set_solver].
Qed.

(** One round that finds nothing. *)
Lemma etag_loop_miss fuel r :
  (forall t, r <> tag_text o ++ t) -> (length (tag_text o) <= length r)%nat ->
  etag_loop (S fuel) (tag_text o) r =
  match next_etag r with Some r' => etag_loop fuel (tag_text o) r' | None => false end.
Proof.
  intros Hno Hlen. cbn [etag_loop]. destruct (Nat.ltb_spec (length r) (length (tag_text o))); [lia|].
  rewrite bool_decide_false; [done|]. intros Ht. destruct (take_target r Ht) as [t Hr]. by eapply Hno.
Qed.

Lemma etag_loop_exact fuel :
  (forall es s x, Forall etagc x -> Forall sepc s -> (es <> [] -> COMMA ∈ s) -> list_ok es ->
     (length (x ++ after_tag s es) < fuel)%nat ->
     etag_loop fuel (tag_text o) (x ++ after_tag s es) = lists_tag o es) /\
  (forall e es, list_ok (e :: es) -> (length (first_tag (e :: es)) < fuel)%nat ->
     etag_loop fuel (tag_text o) (first_tag (e :: es)) = lists_tag o (e :: es)).
Proof.
  induction fuel as [|fuel [IHin IHat]]; [split; intros; lia|].
  (* what follows the first comma of a text that ends a tag *)
  assert (forall es s x, Forall (fun c => c = DQUOTE \/ etagc c) x ->
    (forall a b, x = a ++ COMMA :: b -> Forall etagc b) -> Forall sepc s -> (es <> [] -> COMMA ∈ s) -> list_ok es ->
    (length (x ++ after_tag s es) < S fuel)%nat ->
    match next_etag (x ++ after_tag s es) with Some r' => etag_loop fuel (tag_text o) r' | None => false end =
    lists_tag o es) as Hnext.
  { intros es s x Hx Hcut Hs Hc Hes Hlen. destruct (comma_cases x) as [Hn|(a & b & -> & Ha)].
    - pose proof (next_etag_shrinks (x ++ after_tag s es)) as Hsh.
      rewrite (next_after_tag s es Hs Hc x Hn) in Hsh |- *. destruct es as [|e es]; [done|].
      apply IHat; [done|]. specialize (Hsh _ eq_refl). lia.
    - specialize (Hcut a b eq_refl). pose proof (next_etag_shrinks ((a ++ COMMA :: b) ++ after_tag s es)) as Hsh.
      destruct (next_inside a b s es Ha Hcut) as (x' & Hx' & Hnx). rewrite <- app_assoc in Hsh |- *. cbn [app] in Hsh |- *.
      rewrite Hnx in Hsh |- *. specialize (Hsh _ eq_refl). apply IHin; try done.
      rewrite <- app_assoc in Hlen. cbn [app] in Hlen. lia. }
  split.
  - intros es s x Hx Hs Hc Hes Hlen.
    destruct (Nat.ltb_spec (length (x ++ after_tag s es)) (length (tag_text o))) as [Hshort|Hlong].
    { cbn [etag_loop]. destruct (Nat.ltb_spec (length (x ++ after_tag s es)) (length (tag_text o))); [|lia].
      symmetry. apply not_true_is_false. intros Hl%lists_tag_length. unfold after_tag in Hshort.
      rewrite length_app in Hshort. cbn [length] in Hshort. rewrite length_app in Hshort. lia. }
    rewrite etag_loop_miss; [|intros t Ht|done].
    + apply Hnext; try done; [eapply Forall_impl; [exact Hx|by right]|].
      intros a b ->. apply Forall_app in Hx as [_ Hx]. by apply Forall_cons in Hx as [_ ?].
    + destruct x as [|c x]; [by eapply not_in_separator|]. rewrite tag_text_app in Ht. injection Ht as -> _.
      apply Forall_cons in Hx as [[? _] _]. done.
  - intros e es (Ho' & Hs & Hc & Hes) Hlen. cbn [first_tag] in *.
    assert (tag_text (e_opaque e) ++ e_sep e ++ render es = (DQUOTE :: e_opaque e) ++ after_tag (e_sep e) es) as Hform.
    { unfold tag_text, after_tag. cbn [app]. by rewrite <- app_assoc. }
    unfold lists_tag. cbn [existsb]. fold (lists_tag o es). case_bool_decide as Heq; cbn [orb].
    + rewrite Heq. cbn [etag_loop]. rewrite length_app. destruct (Nat.ltb_spec (length (tag_text o) + length (e_sep e ++ render es)) (length (tag_text o))); [lia|].
      rewrite take_app_length, bool_decide_true, drop_app_length by done. by rewrite trim_sep.
    + destruct (Nat.ltb_spec (length (tag_text (e_opaque e) ++ e_sep e ++ render es)) (length (tag_text o))) as [Hshort|Hlong].
      { cbn [etag_loop]. destruct (Nat.ltb_spec (length (tag_text (e_opaque e) ++ e_sep e ++ render es)) (length (tag_text o))); [|lia].
        symmetry. apply not_true_is_false. intros Hl%lists_tag_length. rewrite !length_app in Hshort. lia. }
      rewrite etag_loop_miss; [|intros t Ht|done].
      * rewrite Hform in Hlen |- *. apply Hnext; try done.
        { constructor; [by left|]. eapply Forall_impl; [exact Ho'|by right]. }
        intros [|c a] b Hab; [done|]. injection Hab as _ Hab. rewrite Hab in Ho'.
        apply Forall_app in Ho' as [_ Ho']. by apply Forall_cons in Ho' as [_ ?].
      * rewrite tag_text_app, Hform in Ht. unfold after_tag in Ht. injection Ht as Ht.
        destruct (quote_split _ _ _ _ Ht) as [? _]; [by apply etagc_no_quote..|done].
Qed.
End search.

Lemma strip_weak_tag w o : strip_weak_prefix (weak_text w ++ tag_text o) = tag_text o.
Proof. by destruct w. Qed.

Lemma render_not_star e es : render (e :: es) <> bytes_of "*".
Proof. simpl. by destruct (e_weak e). Qed.

(** a list of entity tags in the grammar of RFC 9110, weak or strong, with commas
    in the tags and any white space and empty elements between them, matches a
    quoted tag exactly when one of its tags has the same opaque text, provided
    the tag does not itself read as a separator (commas, perhaps with the prefix
    of a weak tag). *)
Theorem weak_validate_etag_exact (es : list Entry) (w : bool) (o : list byte) :
  es <> [] -> list_ok es -> Forall etagc o -> ~ separator_like o ->
  weak_validate_etag (render es) (weak_text w ++ tag_text o) = lists_tag o es.
Proof.
  intros Hne Hes Ho Hsep. destruct es as [|e es]; [done|]. unfold weak_validate_etag.
  rewrite bool_decide_false by apply render_not_star. rewrite strip_weak_tag, strip_weak_first.
  apply (etag_loop_exact o Ho Hsep); [done|lia].
Qed.

Lemma weak_validate_etag_exact_witness :
  weak_validate_etag (bytes_of "W/x") (bytes_of "x") = true /\
  lists_tag (bytes_of "b") [MkEntry false (bytes_of "a,b") (bytes_of ", "); MkEntry true (bytes_of "b") []] = true /\
  weak_validate_etag (render [MkEntry false (bytes_of "a,b") (bytes_of ", "); MkEntry true (bytes_of "b") []])
    (weak_text false ++ tag_text (bytes_of "b")) = true.
Proof.
  split; [reflexivity|]. split; [reflexivity|].
  rewrite (weak_validate_etag_exact _ false (bytes_of "b")); [reflexivity|discriminate| | |].
  - cbn [list_ok e_opaque e_sep]. split_and!; try done; try (repeat constructor; discriminate).
  - repeat constructor; discriminate.
  - intros (n & w & H). by destruct n, w.
Defined.

(** ** Where the search goes wrong *)

(** The tag [","] is found between the tags ["x,"] and [",z"]. *)
Lemma separator_tag_found :
  let es := [MkEntry false (bytes_of "x,") (bytes_of ","); MkEntry false (bytes_of ",z") []] in
  list_ok es /\ lists_tag (bytes_of ",") es = false /\
  weak_validate_etag (render es) (tag_text (bytes_of ",")) = true.
Proof.
  split; [|split; reflexivity]. cbn [list_ok e_opaque e_sep]. split_and!; try done; try (repeat constructor; discriminate).
Qed.
