(* ===== verification/Ketama.v ===== *)
(** * Consistent hashing ring

    The crate [src/pingora-ketama]: buckets (an address and a weight), the ring
    of hash points built from them ([Continuum]), and the look-up of the point
    that serves a key, both in the default layout ([V1]) and in the packed one
    of the feature [v2].

    [crc32] is the checksum of [crc32fast], a parameter.  The ring is sorted by
    [sort_unstable] (and by [i_key_sort] for [V2]), which promise a sorted
    permutation and nothing about the order of equal points: [RingSort]. *)

From stdpp Require Import base list numbers strings sorting.
From Stdlib Require Import ZArith Lia.
From S2P Require Import Prelude.
Local Open Scope Z_scope.

(** ** Socket addresses and their text *)

Inductive IpAddr :=
| IpV4 (a b c d : Z)                 (** octets *)
| IpV6 (segments : list Z).          (** eight 16-bit segments *)

Inductive SocketAddr :=
| SaV4 (ip : IpAddr) (port : Z)
| SaV6 (ip : IpAddr) (port flowinfo scope_id : Z).

#[export] Instance IpAddr_eq_dec : EqDecision IpAddr.
Proof. solve_decision. Defined.
#[export] Instance SocketAddr_eq_dec : EqDecision SocketAddr.
Proof. solve_decision. Defined.

Definition sa_ip (a : SocketAddr) : IpAddr :=
  match a with SaV4 ip _ => ip | SaV6 ip _ _ _ => ip end.
Definition sa_port (a : SocketAddr) : Z :=
  match a with SaV4 _ p => p | SaV6 _ p _ _ => p end.

(** [{}] and [{:x}] of an unsigned integer below [2^64]. *)
Fixpoint digits_go (fuel : nat) (radix n : Z) : list Z :=
  match fuel with
  | O => []
  | S fuel => if n <? radix then [n] else digits_go fuel radix (n / radix) ++ [n mod radix]
  end.
Definition lower_digit (d : Z) : byte :=
  nth (Z.to_nat d)
    [Byte.x30; Byte.x31; Byte.x32; Byte.x33; Byte.x34; Byte.x35; Byte.x36; Byte.x37;
     Byte.x38; Byte.x39; Byte.x61; Byte.x62; Byte.x63; Byte.x64; Byte.x65; Byte.x66] Byte.x30.
Definition decimal (n : Z) : list byte := map lower_digit (digits_go 20 10 n).
Definition lower_hex (n : Z) : list byte := map lower_digit (digits_go 16 16 n).

(** Text of an [Ipv6Addr]: the first of the longest runs of zero segments, when
    longer than one, is written as a double colon. *)
Definition join_colon (l : list Z) : list byte :=
  match map lower_hex l with
  | [] => []
  | first :: tail => first ++ concat (map (fun s => bytes_of ":" ++ s) tail)
  end.

Fixpoint longest_zeros (i : nat) (segments : list Z) (current longest : nat * nat) : nat * nat :=
  match segments with
  | [] => longest
  | s :: rest =>
      if s =? 0 then
        let current := ((if (current.2 =? 0)%nat then i else current.1), S current.2) in
        longest_zeros (S i) rest current
          (if (longest.2 <? current.2)%nat then current else longest)
      else longest_zeros (S i) rest (0%nat, 0%nat) longest
  end.

Definition display_v4 (a b c d : Z) : list byte :=
  decimal a ++ bytes_of "." ++ decimal b ++ bytes_of "." ++ decimal c ++ bytes_of "." ++ decimal d.

Definition display_ip (ip : IpAddr) : list byte :=
  match ip with
  | IpV4 a b c d => display_v4 a b c d
  | IpV6 [0; 0; 0; 0; 0; 65535; hi; lo] =>
      bytes_of "::ffff:" ++ display_v4 (hi / 256) (hi mod 256) (lo / 256) (lo mod 256)
  | IpV6 segments =>
      let '(start, len) := longest_zeros 0 segments (0%nat, 0%nat) (0%nat, 0%nat) in
      if (1 <? len)%nat
      then join_colon (take start segments) ++ bytes_of "::"
             ++ join_colon (drop (start + len) segments)
      else join_colon segments
  end.

(** ** Buckets and points *)

Definition DEFAULT_POINT_MULTIPLE : Z := 160.
Definition u32_mod : Z := 2 ^ 32.
Definition u16_mod : Z := 2 ^ 16.

Record Bucket := MkBucket { node : SocketAddr; weight : Z }.

#[export] Instance Bucket_eq_dec : EqDecision Bucket.
Proof. solve_decision. Defined.

(** [Bucket::new] panics on a weight of zero. *)
Definition bucket_new (n : SocketAddr) (w : Z) : option Bucket :=
  if w =? 0 then None else Some (MkBucket n w).

Record PointV1 := MkPointV1 { p1_node : Z; p1_hash : Z }.

Definition byte_of (z : Z) : byte :=
  default Byte.x00 (Byte.of_N (Z.to_N (z mod 256))).

(** [to_le_bytes]; the targets are little-endian, so [to_ne_bytes] too. *)
Fixpoint le_bytes (n : nat) (z : Z) : list byte :=
  match n with
  | O => []
  | S n => byte_of z :: le_bytes n (z / 256)
  end.
Fixpoint of_le_bytes (l : list byte) : Z :=
  match l with
  | [] => 0
  | b :: l => byte_val b + 256 * of_le_bytes l
  end.

(** Six bytes: the hash in the first four, the node in the last two. *)
Definition PointV2 : Type := list byte.
Definition p2_new (n h : Z) : PointV2 := le_bytes 4 h ++ le_bytes 2 n.
Definition p2_hash (p : PointV2) : Z := of_le_bytes (take 4 p).
Definition p2_node (p : PointV2) : Z := of_le_bytes (take 2 (drop 4 p)).

Inductive Version := V1 | V2 (multiple : Z).

Definition point_multiple (v : Version) : Z :=
  match v with V1 => DEFAULT_POINT_MULTIPLE | V2 m => m end.

(** A ring under construction, and the finished one. *)
Inductive RingBuilder := BuilderV1 (ring : list PointV1) | BuilderV2 (ring : list PointV2).
Inductive VersionedRing := RingV1 (ring : list PointV1) | RingV2 (ring : list PointV2).

Definition builder_new (v : Version) : RingBuilder :=
  match v with V1 => BuilderV1 [] | V2 _ => BuilderV2 [] end.

Definition push (b : RingBuilder) (n h : Z) : RingBuilder :=
  match b with
  | BuilderV1 ring => BuilderV1 (ring ++ [MkPointV1 n h])
  | BuilderV2 ring => BuilderV2 (ring ++ [p2_new n h])
  end.

(** [Vec::dedup_by]: of a run of consecutive elements that are the same, the
    first stays. *)
Fixpoint dedup_after {A} (same : A -> A -> bool) (b : A) (l : list A) : list A :=
  match l with
  | [] => []
  | a :: l => if same a b then dedup_after same b l else a :: dedup_after same a l
  end.
Definition dedup_by {A} (same : A -> A -> bool) (l : list A) : list A :=
  match l with [] => [] | a :: l => a :: dedup_after same a l end.

(** What the sorting routines promise: a permutation in the order of the key. *)
Class RingSort := {
  sort_by : forall {A : Type}, (A -> Z) -> list A -> list A;
  sort_by_perm : forall A (key : A -> Z) l, sort_by key l ≡ₚ l;
  sort_by_sorted : forall A (key : A -> Z) l, StronglySorted (fun a b => key a <= key b) (sort_by key l)
}.

(** [i_key_sort] breaks ties by the address; only the order by hash matters to
    the ring, in which one point per hash stays. *)
Definition sort `{RingSort} (b : RingBuilder) : RingBuilder :=
  match b with
  | BuilderV1 ring =>
      BuilderV1 (dedup_by (fun a b => p1_hash a =? p1_hash b) (sort_by p1_hash ring))
  | BuilderV2 ring =>
      BuilderV2 (dedup_by (fun a b => bool_decide (take 4 a = take 4 b)) (sort_by p2_hash ring))
  end.

Definition ring_from (b : RingBuilder) : VersionedRing :=
  match b with BuilderV1 ring => RingV1 ring | BuilderV2 ring => RingV2 ring end.

(** ** Binary search

    [slice::binary_search_by] of the standard library; [cmp i] is the order of
    the [i]-th element relative to the one sought. *)
Fixpoint bs_loop (fuel : nat) (cmp : nat -> comparison) (base size : nat) : nat :=
  match fuel with
  | O => base
  | S fuel =>
      if (1 <? size)%nat then
        let half := (size / 2)%nat in
        let mid := (base + half)%nat in
        let base := match cmp mid with Gt => base | _ => mid end in
        bs_loop fuel cmp base (size - half)
      else base
  end.

Definition binary_search_by (len : nat) (cmp : nat -> comparison) : nat + nat :=
  if (len =? 0)%nat then inr 0%nat
  else
    let base := bs_loop len cmp 0 len in
    match cmp base with
    | Eq => inl base
    | Lt => inr (S base)
    | Gt => inr base
    end.

(** The order of the [i]-th point's hash and [hash]; only indices below the
    length are asked for. *)
Definition cmp_at (hashes : list Z) (hash : Z) (i : nat) : comparison :=
  Z.compare (hashes !!! i) hash.

Definition ring_hashes (r : VersionedRing) : list Z :=
  match r with RingV1 ring => map p1_hash ring | RingV2 ring => map p2_hash ring end.
Definition ring_nodes (r : VersionedRing) : list Z :=
  match r with RingV1 ring => map p1_node ring | RingV2 ring => map p2_node ring end.

Definition ring_len (r : VersionedRing) : nat :=
  match r with RingV1 ring => length ring | RingV2 ring => length ring end.

Definition ring_node_idx (r : VersionedRing) (hash : Z) : nat :=
  match binary_search_by (ring_len r) (cmp_at (ring_hashes r) hash) with
  | inl i => i
  | inr i => if (i =? ring_len r)%nat then 0%nat else i
  end.

Definition ring_get (r : VersionedRing) (index : nat) : option Z :=
  match r with
  | RingV1 ring => p1_node <$> ring !! index
  | RingV2 ring => p2_node <$> ring !! index
  end.

(** ** Continuum *)

Record Continuum := MkContinuum { ring : VersionedRing; addrs : list SocketAddr }.

Section continuum.
Context `{RingSort} (crc32 : list byte -> Z).

(** The text hashed for a bucket: host, a zero byte, port. *)
Definition hash_bytes (b : Bucket) : list byte :=
  display_ip (sa_ip (node b)) ++ [Byte.x00] ++ decimal (sa_port (node b)).

(** The points of one bucket, each hashed with the previous hash appended. *)
Fixpoint push_points (builder : RingBuilder) (input : list byte) (n : Z) (count : nat)
    (prev_hash : Z) : RingBuilder :=
  match count with
  | O => builder
  | S count =>
      let hash := crc32 (input ++ le_bytes 4 prev_hash) in
      push_points (push builder n hash) input n count hash
  end.

Definition num_points (v : Version) (b : Bucket) : Z := (weight b * point_multiple v) mod u32_mod.

(** The loop over the buckets; [node as u16] wraps. *)
Fixpoint push_buckets (v : Version) (builder : RingBuilder) (addrs : list SocketAddr)
    (buckets : list Bucket) : RingBuilder * list SocketAddr :=
  match buckets with
  | [] => (builder, addrs)
  | b :: buckets =>
      let addrs' := addrs ++ [node b] in
      let n := (zlen addrs' - 1) mod u16_mod in
      push_buckets v
        (push_points builder (hash_bytes b) n (Z.to_nat (num_points v b)) 0) addrs' buckets
  end.

Definition new_with_version (buckets : list Bucket) (v : Version) : Continuum :=
  match buckets with
  | [] => MkContinuum (RingV1 []) []
  | _ =>
      let '(builder, addrs) := push_buckets v (builder_new v) [] buckets in
      MkContinuum (ring_from (sort builder)) addrs
  end.

Definition continuum_new (buckets : list Bucket) : Continuum := new_with_version buckets V1.

Definition node_idx (c : Continuum) (input : list byte) : nat :=
  ring_node_idx (ring c) (crc32 input).

(** [self.addrs[n]] with a bad [n] panics: the outer option. *)
Definition addr_at (c : Continuum) (point : option Z) : option (option SocketAddr) :=
  match point with
  | None => Some None
  | Some n =>
      match addrs c !! Z.to_nat n with
      | Some a => Some (Some a)
      | None => None
      end
  end.

Definition continuum_node (c : Continuum) (hash_key : list byte) : option (option SocketAddr) :=
  addr_at c (ring_get (ring c) (node_idx c hash_key)).

Definition get_addr (c : Continuum) (idx : nat) : option (option SocketAddr * nat) :=
  let point := ring_get (ring c) idx in
  let idx' := match point with
              | Some _ => ((idx + 1) mod ring_len (ring c))%nat
              | None => idx
              end in
  match addr_at c point with
  | Some a => Some (a, idx')
  | None => None
  end.

(** An iterator is its index; [next] advances it. *)
Definition node_iter (c : Continuum) (hash_key : list byte) : nat := node_idx c hash_key.
Definition iter_next (c : Continuum) (it : nat) : option (option SocketAddr * nat) := get_addr c it.

Fixpoint iter_take (n : nat) (c : Continuum) (it : nat) : option (list (option SocketAddr)) :=
  match n with
  | O => Some []
  | S n =>
      match iter_next c it with
      | Some (a, it') =>
          match iter_take n c it' with
          | Some l => Some (a :: l)
          | None => None
          end
      | None => None
      end
  end.

End continuum.
