(* ===== verification/KetamaSpec.v ===== *)
(** * Consistent hashing ring: what a look-up returns

    The ring built from buckets has strictly increasing hashes, one for each
    hash of a point of a bucket, and each point belongs to a bucket that has
    this hash.  The look-up by binary search returns the clockwise successor of
    the key's hash.  From that: a key stays on its server when other servers
    come or go, and the fail-over iterator goes once around the ring. *)

From stdpp Require Import base list numbers sets strings sorting.
From Stdlib Require Import ZArith Lia.
From S2P Require Import Prelude Ketama.
Local Open Scope Z_scope.

(** ** Little-endian bytes *)

Lemma byte_val_of z : byte_val (byte_of z) = z mod 256.
Proof.
  unfold byte_val, byte_of. pose proof (Z.mod_pos_bound z 256 ltac:(lia)).
  destruct (Byte.of_N (Z.to_N (z mod 256))) as [b|] eqn:Hb; simpl.
  - apply Byte.to_of_N in Hb. rewrite Hb. lia.
  - apply Byte.of_N_None_iff in Hb. lia.
Qed.

Lemma of_le_bytes_le n z : of_le_bytes (le_bytes n z) = z mod 256 ^ Z.of_nat n.
Proof.
  revert z. induction n as [|n IH]; intros z; [by rewrite Z.mod_1_r|].
  cbn [le_bytes of_le_bytes]. rewrite byte_val_of, IH.
  replace (Z.of_nat (S n)) with (Z.succ (Z.of_nat n)) by lia.
  rewrite Z.pow_succ_r by lia. rewrite Z.rem_mul_r by lia. done.
Qed.

Lemma le_bytes_length n z : length (le_bytes n z) = n.
Proof. revert z. induction n as [|n IH]; intros z; simpl; [done|]. by rewrite IH. Qed.

Lemma of_le_bytes_inj l1 l2 :
  length l1 = length l2 -> of_le_bytes l1 = of_le_bytes l2 -> l1 = l2.
Proof.
  revert l2. induction l1 as [|a l1 IH]; intros [|b l2] Hlen Heq; try done.
  cbn [of_le_bytes] in Heq. pose proof (byte_val_range a). pose proof (byte_val_range b).
  assert (of_le_bytes l1 = of_le_bytes l2) by lia.
  f_equal; [apply byte_val_inj; lia|]. apply IH; [by injection Hlen|done].
Qed.

Lemma p2_hash_new n h : 0 <= h < u32_mod -> p2_hash (p2_new n h) = h.
Proof.
  intros Hh. unfold p2_hash, p2_new.
  rewrite take_app_le by (rewrite le_bytes_length; lia).
  rewrite take_ge by (rewrite le_bytes_length; lia).
  rewrite of_le_bytes_le. by apply Z.mod_small.
Qed.

Lemma p2_node_new n h : 0 <= n < u16_mod -> p2_node (p2_new n h) = n.
Proof.
  intros Hn. unfold p2_node, p2_new.
  rewrite drop_app_ge by (rewrite le_bytes_length; lia).
  rewrite le_bytes_length. simpl (4 - 4)%nat. rewrite drop_0.
  rewrite take_ge by (rewrite le_bytes_length; lia).
  rewrite of_le_bytes_le. by apply Z.mod_small.
Qed.

(** Going around a ring of [n] from [k] passes [i]. *)
Lemma rotate_index n k i :
  (k < n)%nat -> (i < n)%nat -> exists j, (j < n)%nat /\ ((k + j) mod n = i)%nat.
Proof.
  intros Hk Hi. destruct (decide (k <= i)%nat).
  - exists (i - k)%nat. split; [lia|]. rewrite Nat.mod_small; lia.
  - exists (n - k + i)%nat. split; [lia|].
    replace (k + (n - k + i))%nat with (i + 1 * n)%nat by lia.
    rewrite Nat.Div0.mod_add. apply Nat.mod_small. lia.
Qed.

(** ** Binary search *)

Section search.
Context (hs : list Z) (h : Z).
Hypothesis Hsorted : StronglySorted Z.lt hs.

Lemma sorted_lookup i j x y :
  hs !! i = Some x -> hs !! j = Some y -> (i < j)%nat -> x < y.
Proof.
  intros Hi Hj Hij. revert i j Hi Hj Hij. induction Hsorted as [|a l Hl IH Ha]; intros i j Hi Hj Hij.
  - done.
  - destruct j as [|j]; [lia|]. destruct i as [|i]; simpl in *.
    + simplify_eq. rewrite Forall_forall in Ha. apply Ha. by eapply list_elem_of_lookup_2.
    + apply (IH Hl i j); [done..|lia].
Qed.

Lemma total_lookup i : (i < length hs)%nat -> hs !! i = Some (hs !!! i).
Proof. intros. by apply list_lookup_lookup_total_lt. Qed.

(** What the loop keeps true of the window [base .. base + size). *)
Definition bs_inv (base size : nat) : Prop :=
  (base + size <= length hs)%nat /\ (1 <= size)%nat /\
  (base = 0%nat \/ hs !!! base <= h) /\
  (forall j, (base + size <= j < length hs)%nat -> h < hs !!! j).

Lemma bs_loop_inv fuel base size :
  bs_inv base size -> (size <= S fuel)%nat -> bs_inv (bs_loop fuel (cmp_at hs h) base size) 1.
Proof.
  revert base size. induction fuel as [|fuel IH]; intros base size Hinv Hf; cbn [bs_loop]; cbv zeta.
  - assert (size = 1%nat) as -> by (destruct Hinv; lia). done.
  - destruct (Nat.ltb_spec 1 size) as [Hs|Hs].
    2:{ assert (size = 1%nat) as -> by (destruct Hinv; lia). done. }
    assert (1 <= size / 2 < size)%nat as Hhalf.
    { split; [by apply Nat.div_le_lower_bound; lia|by apply Nat.div_lt; lia]. }
    pose proof (Nat.Div0.mul_div_le size 2) as Hmul.
    destruct Hinv as (Hlen & H1 & Hb & Hhi).
    apply IH; [|lia].
    unfold cmp_at. destruct (Z.compare_spec (hs !!! (base + size / 2)%nat) h) as [He|Hl|Hg].
    1-2: split_and!; [lia|lia|right; lia|]; intros j Hj; apply Hhi; lia.
    split_and!; [lia|lia|done|]. intros j Hj.
    destruct (decide (base + size / 2 = j)%nat) as [<-|Hne]; [done|].
    transitivity (hs !!! (base + size / 2)%nat); [done|].
    eapply (sorted_lookup (base + size / 2) j); [apply total_lookup; lia..|lia].
Qed.

Lemma binary_search_spec :
  match binary_search_by (length hs) (cmp_at hs h) with
  | inl i => hs !! i = Some h
  | inr i => (i <= length hs)%nat /\ (forall j, (j < i)%nat -> hs !!! j < h) /\
             (forall j, (i <= j < length hs)%nat -> h < hs !!! j)
  end.
Proof.
  unfold binary_search_by. destruct (Nat.eqb_spec (length hs) 0) as [H0|H0].
  { split_and!; intros; lia. }
  destruct (bs_loop_inv (length hs) 0 (length hs)) as (Hlen & _ & Hb & Hhi).
  { split_and!; [lia|lia|by left|intros; lia]. }
  { lia. }
  set (b := bs_loop _ _ _ _) in *. unfold cmp_at.
  destruct (Z.compare_spec (hs !!! b) h) as [He|Hl|Hg].
  - rewrite <-He. apply total_lookup. lia.
  - split_and!; [lia| |intros; apply Hhi; lia]. intros j Hj.
    destruct (decide (j = b)) as [->|]; [done|].
    transitivity (hs !!! b); [|done].
    eapply (sorted_lookup j b); [apply total_lookup; lia..|lia].
  - assert (b = 0%nat) as Hb0 by (destruct Hb; lia). rewrite Hb0 in *.
    split_and!; [lia|intros; lia|]. intros j Hj.
    destruct (decide (j = 0%nat)) as [->|]; [done|]. apply Hhi. lia.
Qed.

End search.

(** ** The clockwise successor *)

(** [s] is the first hash at or after [h] in [S], going around past the end. *)
Definition is_succ (S : list Z) (h s : Z) : Prop :=
  s ∈ S /\
  ((h <= s /\ forall x, x ∈ S -> h <= x -> s <= x) \/
   ((forall x, x ∈ S -> x < h) /\ forall x, x ∈ S -> s <= x)).

Lemma is_succ_unique S h s s' : is_succ S h s -> is_succ S h s' -> s = s'.
Proof.
  intros [Hin H1] [Hin' H2]. destruct H1 as [[? H1]|[H1 H1']], H2 as [[? H2]|[H2 H2']].
  - apply Z.le_antisymm; auto.
  - specialize (H2 s Hin). lia.
  - specialize (H1 s' Hin'). lia.
  - apply Z.le_antisymm; auto.
Qed.

Lemma is_succ_subset S S' h s :
  is_succ S h s -> (forall x, x ∈ S' -> x ∈ S) -> s ∈ S' -> is_succ S' h s.
Proof. intros [_ Hs] Hsub Hin. split; [done|]. naive_solver. Qed.

Lemma ring_hashes_length r : length (ring_hashes r) = ring_len r.
Proof. destruct r; apply length_map. Qed.

Lemma ring_nodes_length r : length (ring_nodes r) = ring_len r.
Proof. destruct r; apply length_map. Qed.

Lemma ring_get_nodes r i : ring_get r i = ring_nodes r !! i.
Proof. destruct r; simpl; by rewrite list_lookup_fmap. Qed.

Lemma ring_node_idx_succ r h :
  StronglySorted Z.lt (ring_hashes r) -> (0 < ring_len r)%nat ->
  exists s, ring_hashes r !! ring_node_idx r h = Some s /\ is_succ (ring_hashes r) h s.
Proof.
  intros Hs Hlen. unfold ring_node_idx. rewrite <-ring_hashes_length in *.
  pose proof (binary_search_spec (ring_hashes r) h Hs) as Hspec.
  set (hs := ring_hashes r) in *.
  destruct (binary_search_by _ _) as [i|i].
  - exists h. split; [done|]. split; [by eapply list_elem_of_lookup_2|]. left. split; [lia|auto].
  - destruct Hspec as (Hi & Hlow & Hhigh).
    destruct (Nat.eqb_spec i (length hs)) as [->|Hne].
    + exists (hs !!! 0%nat). split; [by apply total_lookup|].
      split; [by eapply list_elem_of_lookup_2, total_lookup|]. right. split.
      * intros x (j & Hj)%list_elem_of_lookup. pose proof (lookup_lt_Some _ _ _ Hj).
        rewrite total_lookup in Hj by done. simplify_eq. by apply Hlow.
      * intros x (j & Hj)%list_elem_of_lookup. destruct j as [|j].
        -- rewrite total_lookup in Hj by done. simplify_eq. done.
        -- apply Z.lt_le_incl. eapply (sorted_lookup hs Hs 0 (S j)); [|done|lia].
           by apply total_lookup.
    + exists (hs !!! i). split; [apply total_lookup; lia|].
      split; [by eapply list_elem_of_lookup_2, total_lookup; lia|]. left. split.
      * apply Z.lt_le_incl, Hhigh. lia.
      * intros x (j & Hj)%list_elem_of_lookup Hx. pose proof (lookup_lt_Some _ _ _ Hj).
        destruct (decide (j < i)%nat) as [Hlt|Hge].
        { rewrite total_lookup in Hj by done. simplify_eq. specialize (Hlow j Hlt). lia. }
        destruct (decide (j = i)) as [->|]; [rewrite total_lookup in Hj by done; by simplify_eq|].
        apply Z.lt_le_incl. eapply (sorted_lookup hs Hs i j); [|done|lia].
        apply total_lookup. lia.
Qed.

(** ** Sorting and deduplication *)

Section dedup.
Context {A : Type} (key : A -> Z) (same : A -> A -> bool).

(** [same] decides equality of keys on the elements at hand. *)
Definition same_ok (l : list A) : Prop :=
  forall a b, a ∈ l -> b ∈ l -> same a b = true <-> key a = key b.

Lemma dedup_after_spec b l :
  same_ok (b :: l) -> StronglySorted (fun a b => key a <= key b) (b :: l) ->
  let r := dedup_after same b l in
  StronglySorted Z.lt (key b :: map key r) /\ (forall a, a ∈ r -> a ∈ l) /\
  (forall a, a ∈ l -> key a = key b \/ key a ∈ map key r).
Proof.
  revert b. induction l as [|a l IH]; intros b Hok Hs; simpl.
  - split_and!; [repeat constructor|done|]. by intros a Ha%elem_of_nil.
  - inversion_clear Hs as [|? ? Hs' Hall]. rewrite Forall_cons in Hall. destruct Hall as [Hba Hall].
    destruct (same a b) eqn:Hsame.
    + assert (key a = key b) as Heq by (apply Hok; [right; left|left|done]).
      inversion_clear Hs' as [|? ? Hs'' Hall'].
      destruct (IH b) as (Hsort & Hin & Hcov).
      { intros x y Hx Hy. apply Hok; set_solver. }
      { by constructor. }
      split_and!; [done| |].
      * intros x Hx. right. auto.
      * intros x [->|Hx]%elem_of_cons; [by left|auto].
    + assert (key b < key a) as Hlt.
      { destruct (decide (key a = key b)) as [He|]; [|lia].
        apply Hok in He; [congruence|right; left|left]. }
      destruct (IH a) as (Hsort & Hin & Hcov).
      { intros x y Hx Hy. apply Hok; set_solver. }
      { done. }
      simpl. split_and!.
      * constructor; [done|]. inversion_clear Hsort as [|? ? _ Hgt]. constructor; [done|].
        eapply Forall_impl; [exact Hgt|]. simpl. lia.
      * intros x [->|Hx]%elem_of_cons; [left|right; auto].
      * intros x [->|Hx]%elem_of_cons; right; [left|].
        destruct (Hcov x Hx) as [->|?]; [left|by right].
Qed.

Lemma dedup_by_spec l :
  same_ok l -> StronglySorted (fun a b => key a <= key b) l ->
  let r := dedup_by same l in
  StronglySorted Z.lt (map key r) /\ (forall a, a ∈ r -> a ∈ l) /\
  (forall a, a ∈ l -> key a ∈ map key r).
Proof.
  destruct l as [|b l]; intros Hok Hs; simpl.
  - split_and!; [constructor|done|]. by intros a Ha%elem_of_nil.
  - destruct (dedup_after_spec b l Hok Hs) as (Hsort & Hin & Hcov). split_and!; [done| |].
    + intros x [->|Hx]%elem_of_cons; [left|right; auto].
    + intros x [->|Hx]%elem_of_cons; [left|]. destruct (Hcov x Hx) as [->|?]; [left|by right].
Qed.

End dedup.

(** ** The points of a ring *)

Definition pt1 (p : PointV1) : Z * Z := (p1_node p, p1_hash p).
Definition pt2 (p : PointV2) : Z * Z := (p2_node p, p2_hash p).
Definition builder_points (b : RingBuilder) : list (Z * Z) :=
  match b with BuilderV1 l => map pt1 l | BuilderV2 l => map pt2 l end.
Definition ring_points (r : VersionedRing) : list (Z * Z) :=
  match r with RingV1 l => map pt1 l | RingV2 l => map pt2 l end.

Lemma ring_hashes_points r : ring_hashes r = map snd (ring_points r).
Proof. destruct r; simpl; by rewrite map_map. Qed.

Lemma ring_nodes_points r : ring_nodes r = map fst (ring_points r).
Proof. destruct r; simpl; by rewrite map_map. Qed.

(** Packed points have six bytes. *)
Definition packed (b : RingBuilder) : Prop :=
  match b with BuilderV1 _ => True | BuilderV2 l => Forall (fun p => length p = 6%nat) l end.

Lemma p2_same_ok l :
  Forall (fun p : PointV2 => length p = 6%nat) l ->
  same_ok p2_hash (fun a b => bool_decide (take 4 a = take 4 b)) l.
Proof.
  intros Hl a b Ha Hb. rewrite Forall_forall in Hl. rewrite bool_decide_eq_true.
  unfold p2_hash. split; [by intros ->|]. apply of_le_bytes_inj.
  rewrite !length_take, (Hl a), (Hl b) by done. done.
Qed.

(** Sorting gives a ring of strictly increasing hashes, made of the builder's
    points, in which every hash of the builder is still there. *)
Lemma sort_spec `{RingSort} b :
  packed b ->
  let r := ring_from (sort b) in
  StronglySorted Z.lt (ring_hashes r) /\
  (forall p, p ∈ ring_points r -> p ∈ builder_points b) /\
  (forall p, p ∈ builder_points b -> p.2 ∈ ring_hashes r).
Proof.
  intros Hp. destruct b as [l|l]; simpl in *.
  - destruct (dedup_by_spec p1_hash (fun a b => p1_hash a =? p1_hash b) (sort_by p1_hash l))
      as (Hs & Hin & Hcov).
    { intros a b _ _. apply Z.eqb_eq. }
    { apply sort_by_sorted. }
    split_and!; [done| |].
    + intros p (q & -> & Hq)%list_elem_of_fmap. apply list_elem_of_fmap. exists q.
      split; [done|]. rewrite <-(sort_by_perm _ p1_hash l). auto.
    + intros p (q & -> & Hq)%list_elem_of_fmap. apply (Hcov q). by rewrite sort_by_perm.
  - destruct (dedup_by_spec p2_hash (fun a b => bool_decide (take 4 a = take 4 b))
                (sort_by p2_hash l)) as (Hs & Hin & Hcov).
    { apply p2_same_ok. by rewrite sort_by_perm. }
    { apply sort_by_sorted. }
    split_and!; [done| |].
    + intros p (q & -> & Hq)%list_elem_of_fmap. apply list_elem_of_fmap. exists q.
      split; [done|]. rewrite <-(sort_by_perm _ p2_hash l). auto.
    + intros p (q & -> & Hq)%list_elem_of_fmap. apply (Hcov q). by rewrite sort_by_perm.
Qed.

(** ** The points of the buckets *)

Section continuum.
Context `{RingSort} (crc32 : list byte -> Z).
Hypothesis crc32_range : forall l, 0 <= crc32 l < u32_mod.

Fixpoint chain (input : list byte) (count : nat) (prev_hash : Z) : list Z :=
  match count with
  | O => []
  | S count =>
      let hash := crc32 (input ++ le_bytes 4 prev_hash) in hash :: chain input count hash
  end.

(** The hashes of the points of a bucket: they depend on its address and weight
    only. *)
Definition bucket_hashes (v : Version) (b : Bucket) : list Z :=
  chain (hash_bytes b) (Z.to_nat (num_points v b)) 0.

Lemma push_spec bl n h :
  packed bl -> 0 <= n < u16_mod -> 0 <= h < u32_mod ->
  packed (push bl n h) /\ builder_points (push bl n h) = builder_points bl ++ [(n, h)].
Proof.
  intros Hp Hn Hh. destruct bl as [l|l]; simpl in *; rewrite map_app; [done|]. split.
  - apply Forall_app. split; [done|]. apply Forall_singleton.
    unfold p2_new. by rewrite length_app, !le_bytes_length.
  - do 2 f_equal. simpl. unfold pt2. by rewrite p2_node_new, p2_hash_new.
Qed.

Lemma push_points_spec bl input n count prev :
  packed bl -> 0 <= n < u16_mod ->
  packed (push_points crc32 bl input n count prev) /\
  builder_points (push_points crc32 bl input n count prev)
  = builder_points bl ++ map (pair n) (chain input count prev).
Proof.
  revert bl prev. induction count as [|count IH]; intros bl prev Hp Hn;
    cbn [push_points chain map].
  - by rewrite app_nil_r.
  - destruct (push_spec bl n (crc32 (input ++ le_bytes 4 prev)) Hp Hn (crc32_range _)) as [Hp' Heq].
    destruct (IH (push bl n (crc32 (input ++ le_bytes 4 prev)))
                (crc32 (input ++ le_bytes 4 prev)) Hp' Hn) as [? ->].
    split; [done|]. by rewrite Heq, <-app_assoc.
Qed.

(** The points pushed for buckets that start at index [k]. *)
Fixpoint points_from (v : Version) (k : Z) (bs : list Bucket) : list (Z * Z) :=
  match bs with
  | [] => []
  | b :: bs => map (pair (k mod u16_mod)) (bucket_hashes v b) ++ points_from v (k + 1) bs
  end.

Lemma push_buckets_spec v bl as0 bs :
  packed bl ->
  let '(bl', as') := push_buckets crc32 v bl as0 bs in
  packed bl' /\ as' = as0 ++ map node bs /\
  builder_points bl' = builder_points bl ++ points_from v (zlen as0) bs.
Proof.
  revert bl as0. induction bs as [|b bs IH]; intros bl as0 Hp; simpl.
  - by rewrite !app_nil_r.
  - assert (zlen (as0 ++ [node b]) - 1 = zlen as0) as Hz.
    { rewrite zlen_app. change (zlen [node b]) with 1. lia. }
    assert (zlen (as0 ++ [node b]) = zlen as0 + 1) as Hz' by lia.
    rewrite Hz.
    destruct (push_points_spec bl (hash_bytes b) (zlen as0 mod u16_mod)
                (Z.to_nat (num_points v b)) 0 Hp) as [Hp' Hpts].
    { apply Z.mod_pos_bound. done. }
    specialize (IH _ (as0 ++ [node b]) Hp').
    destruct (push_buckets _ _ _ _ _) as [bl' as']. destruct IH as (? & -> & ->).
    split_and!; [done|by rewrite <-app_assoc|].
    by rewrite Hpts, Hz', <-app_assoc.
Qed.

Lemma points_from_elem v k bs n h :
  0 <= k -> k + zlen bs <= u16_mod ->
  (n, h) ∈ points_from v k bs <->
  exists i b, bs !! i = Some b /\ n = k + Z.of_nat i /\ h ∈ bucket_hashes v b.
Proof.
  revert k. induction bs as [|b bs IH]; intros k Hk Hlen; simpl.
  - split; [by intros ?%elem_of_nil|]. by intros (i & b & Hi & _).
  - rewrite zlen_cons in Hlen. pose proof (zlen_nonneg bs).
    rewrite elem_of_app, IH by lia. split.
    + intros [(h' & [= -> ->] & Hh)%list_elem_of_fmap|(i & b' & Hi & -> & Hh)].
      * exists 0%nat, b. split_and!; [done| |done]. rewrite Z.mod_small by lia. lia.
      * exists (S i), b'. split_and!; [done|lia|done].
    + intros (i & b' & Hi & -> & Hh). destruct i as [|i]; simpl in Hi.
      * simplify_eq. left. apply list_elem_of_fmap. exists h. split; [|done].
        f_equal. rewrite Z.mod_small; lia.
      * right. exists i, b'. split_and!; [done|lia|done].
Qed.

(** *** The invariant of a built ring *)

Definition ring_of (bs : list Bucket) (v : Version) (c : Continuum) : Prop :=
  StronglySorted Z.lt (ring_hashes (ring c)) /\
  addrs c = map node bs /\
  (forall n h, (n, h) ∈ ring_points (ring c) ->
     exists i b, bs !! i = Some b /\ n = Z.of_nat i /\ h ∈ bucket_hashes v b) /\
  (forall b h, b ∈ bs -> h ∈ bucket_hashes v b -> h ∈ ring_hashes (ring c)).

Lemma new_with_version_ring bs v :
  zlen bs <= u16_mod -> ring_of bs v (new_with_version crc32 bs v).
Proof.
  intros Hlen. destruct bs as [|b0 bs0].
  - split_and!; [constructor|done| |]; [by intros ? ? ?%elem_of_nil|].
    by intros ? ? ?%elem_of_nil.
  - unfold new_with_version. set (bs := b0 :: bs0) in *. clearbody bs.
    assert (packed (builder_new v)) as Hp by (by destruct v; constructor).
    pose proof (push_buckets_spec v (builder_new v) [] bs Hp) as Hspec.
    destruct (push_buckets _ _ _ _ _) as [bl as']. destruct Hspec as (Hp' & -> & Hpts).
    assert (builder_points bl = points_from v 0 bs) as Hpts' by (by rewrite Hpts; destruct v).
    destruct (sort_spec bl Hp') as (Hs & Hin & Hcov).
    split_and!; simpl.
    + done.
    + done.
    + intros n h Hnh. apply Hin in Hnh. rewrite Hpts' in Hnh.
      apply points_from_elem in Hnh as (i & b & ? & -> & ?); [|lia..]. by exists i, b.
    + intros b h (i & Hi)%list_elem_of_lookup Hh. apply (Hcov (Z.of_nat i, h)).
      rewrite Hpts'. apply points_from_elem; [lia..|]. by exists i, b.
Qed.

(** A look-up on a non-empty ring: the address of a bucket that has the
    successor of the key's hash among its points. *)
Lemma node_succ bs v c key :
  ring_of bs v c -> (0 < ring_len (ring c))%nat ->
  exists s b, is_succ (ring_hashes (ring c)) (crc32 key) s /\ b ∈ bs /\
    s ∈ bucket_hashes v b /\ continuum_node crc32 c key = Some (Some (node b)).
Proof.
  intros (Hs & Ha & Hown & _) Hlen.
  destruct (ring_node_idx_succ (ring c) (crc32 key) Hs Hlen) as (s & Hi & Hsucc).
  rewrite ring_hashes_points in Hi. rewrite list_lookup_fmap in Hi.
  destruct (ring_points (ring c) !! ring_node_idx (ring c) (crc32 key)) as [[n s']|] eqn:Hp;
    [|done]. simpl in Hi. simplify_eq.
  destruct (Hown n s) as (i & b & Hb & -> & Hbs); [by eapply list_elem_of_lookup_2|].
  exists s, b. split_and!; [done|by eapply list_elem_of_lookup_2|done|].
  unfold continuum_node, node_idx. rewrite ring_get_nodes, ring_nodes_points, list_lookup_fmap, Hp.
  simpl. rewrite Nat2Z.id, Ha, list_lookup_fmap, Hb. done.
Qed.

Lemma ring_empty_iff bs v c :
  ring_of bs v c -> ring_len (ring c) = 0%nat <-> forall b, b ∈ bs -> bucket_hashes v b = [].
Proof.
  intros (_ & _ & Hown & Hcov). rewrite <-ring_hashes_length. split.
  - intros Hz b Hb. apply nil_length_inv in Hz. destruct (bucket_hashes v b) as [|h l] eqn:Hh; [done|].
    specialize (Hcov b h Hb). rewrite Hh, Hz in Hcov.
    specialize (Hcov ltac:(left)). by apply elem_of_nil in Hcov.
  - intros Hall. destruct (ring_hashes (ring c)) as [|h l] eqn:Hr; [done|].
    rewrite ring_hashes_points in Hr. destruct (ring_points (ring c)) as [|[n h'] ps] eqn:Hp; [done|].
    destruct (Hown n h' ltac:(left)) as (i & b & Hb & _ & Hh).
    rewrite (Hall b) in Hh by (by eapply list_elem_of_lookup_2). by apply elem_of_nil in Hh.
Qed.

Lemma node_empty c key : ring_len (ring c) = 0%nat -> continuum_node crc32 c key = Some None.
Proof.
  intros Hz. unfold continuum_node. rewrite ring_get_nodes, lookup_ge_None_2; [done|].
  rewrite ring_nodes_length. lia.
Qed.

Definition all_hashes (v : Version) (bs : list Bucket) : list Z :=
  concat (map (bucket_hashes v) bs).

Lemma all_hashes_elem v bs h : h ∈ all_hashes v bs <-> exists b, b ∈ bs /\ h ∈ bucket_hashes v b.
Proof.
  unfold all_hashes. rewrite list_elem_of_In, in_concat. split.
  - intros (l & Hl & Hh). apply list_elem_of_In in Hl, Hh.
    apply list_elem_of_fmap in Hl as (b & -> & Hb). by exists b.
  - intros (b & Hb & Hh). exists (bucket_hashes v b). split; apply list_elem_of_In; [|done].
    by apply list_elem_of_fmap_2.
Qed.

Lemma ring_hashes_all bs v c h :
  ring_of bs v c -> h ∈ ring_hashes (ring c) <-> h ∈ all_hashes v bs.
Proof.
  intros (_ & _ & Hown & Hcov). rewrite all_hashes_elem. split.
  - rewrite ring_hashes_points. intros ([n h'] & -> & Hp)%list_elem_of_fmap.
    destruct (Hown _ _ Hp) as (i & b & Hb & _ & Hh). exists b.
    split; [by eapply list_elem_of_lookup_2|done].
  - intros (b & Hb & Hh). by apply (Hcov b).
Qed.

Lemma is_succ_ext S S' h s : (forall x, x ∈ S <-> x ∈ S') -> is_succ S h s -> is_succ S' h s.
Proof. intros Heq [Hin Hs]. split; [by apply Heq|]. setoid_rewrite <-Heq. done. Qed.

Lemma lookup_cases bs v key :
  zlen bs <= u16_mod ->
  let c := new_with_version crc32 bs v in
  (all_hashes v bs = [] /\ continuum_node crc32 c key = Some None) \/
  (exists s b, is_succ (all_hashes v bs) (crc32 key) s /\ b ∈ bs /\ s ∈ bucket_hashes v b /\
     continuum_node crc32 c key = Some (Some (node b))).
Proof.
  intros Hlen c. pose proof (new_with_version_ring bs v Hlen) as Hr. fold c in Hr.
  destruct (decide (ring_len (ring c) = 0%nat)) as [Hz|Hnz].
  - left. split; [|by apply node_empty].
    destruct (all_hashes v bs) as [|h l] eqn:Ha; [done|].
    assert (h ∈ all_hashes v bs) as (b & Hb & Hh)%all_hashes_elem by (rewrite Ha; left).
    rewrite (proj1 (ring_empty_iff bs v c Hr) Hz b Hb) in Hh. by apply elem_of_nil in Hh.
  - right. destruct (node_succ bs v c key Hr) as (s & b & Hs & Hb & Hh & Hn); [lia|].
    exists s, b. split_and!; [|done..]. eapply is_succ_ext; [|done].
    intros x. by apply ring_hashes_all.
Qed.

(** *** Going around the ring *)

(** The address of the [i]-th point of the ring. *)
Definition ring_addr (c : Continuum) (i : nat) : option SocketAddr :=
  ring_nodes (ring c) !! i ≫= fun n => addrs c !! Z.to_nat n.

Lemma addr_lookup bs v c i n :
  ring_of bs v c -> ring_nodes (ring c) !! i = Some n ->
  exists a, addrs c !! Z.to_nat n = Some a.
Proof.
  intros (_ & Ha & Hown & _) Hi. rewrite ring_nodes_points, list_lookup_fmap in Hi.
  destruct (ring_points (ring c) !! i) as [[n' h]|] eqn:Hp; [|done]. simpl in Hi. simplify_eq.
  destruct (Hown n h) as (j & b & Hb & -> & _); [by eapply list_elem_of_lookup_2|].
  exists (node b). rewrite Nat2Z.id, Ha, list_lookup_fmap, Hb. done.
Qed.

Lemma get_addr_step bs v c i :
  ring_of bs v c -> (i < ring_len (ring c))%nat ->
  exists a, get_addr c i = Some (Some a, ((i + 1) mod ring_len (ring c))%nat) /\
    ring_addr c i = Some a.
Proof.
  intros Hr Hi. rewrite <-ring_nodes_length in Hi.
  destruct (lookup_lt_is_Some_2 _ _ Hi) as [n Hn].
  destruct (addr_lookup bs v c i n Hr Hn) as [a Ha].
  exists a. unfold get_addr, ring_addr. rewrite ring_get_nodes, Hn. simpl. by rewrite Ha.
Qed.

(** The [k]-th item of the iterator is the [k]-th point after its start. *)
Lemma iter_take_spec bs v c k i :
  ring_of bs v c -> (i < ring_len (ring c))%nat ->
  exists l, iter_take k c i = Some (map Some l) /\ length l = k /\
    forall j, (j < k)%nat -> l !! j = ring_addr c ((i + j) mod ring_len (ring c))%nat.
Proof.
  intros Hr. revert i. induction k as [|k IH]; intros i Hi; simpl.
  - exists []. split_and!; [done|done|]. intros; lia.
  - destruct (get_addr_step bs v c i Hr Hi) as (a & Hg & Ha). unfold iter_next. rewrite Hg.
    destruct (IH ((i + 1) mod ring_len (ring c))%nat) as (l & -> & Hlen & Hl).
    { apply Nat.mod_upper_bound. lia. }
    exists (a :: l). split_and!; [done|simpl; by rewrite Hlen|]. intros j Hj.
    destruct j as [|j]; simpl.
    + rewrite Nat.add_0_r, Nat.mod_small by done. by rewrite Ha.
    + rewrite Hl by lia. rewrite Nat.Div0.add_mod_idemp_l.
      by replace (i + 1 + j)%nat with (i + S j)%nat by lia.
Qed.

Lemma ring_node_idx_lt c key :
  StronglySorted Z.lt (ring_hashes (ring c)) -> (0 < ring_len (ring c))%nat ->
  (node_idx crc32 c key < ring_len (ring c))%nat.
Proof.
  intros Hs Hlen. destruct (ring_node_idx_succ (ring c) (crc32 key) Hs Hlen) as (s & Hi & _).
  apply lookup_lt_Some in Hi. by rewrite ring_hashes_length in Hi.
Qed.

End continuum.

(** Look-up.  In a ring built from at most 2^16 buckets, of either version,
    a look-up does not panic; it returns the address of a bucket that owns the
    clockwise successor of the key's hash among the hashes of all the buckets'
    points, and nothing only when no bucket has a point. *)
Theorem ketama_lookup `{RingSort} (crc32 : list byte -> Z) (bs : list Bucket) (v : Version)
    (key : list byte) :
  (forall l, 0 <= crc32 l < u32_mod) -> zlen bs <= u16_mod ->
  let c := new_with_version crc32 bs v in
  (all_hashes crc32 v bs = [] /\ continuum_node crc32 c key = Some None) \/
  (exists s b, is_succ (all_hashes crc32 v bs) (crc32 key) s /\ b ∈ bs /\
     s ∈ bucket_hashes crc32 v b /\ continuum_node crc32 c key = Some (Some (node b))).
Proof. intros Hc Hlen. by apply lookup_cases. Qed.

(** Consistency.  Take a set of servers and any part of it, such that points
    of different addresses never share a hash.  A key whose server is in the
    part is on the same server in the ring of the part: removing servers only
    moves the keys of the removed ones, adding servers only moves keys to the
    added ones. *)
Theorem ketama_consistent `{RingSort} (crc32 : list byte -> Z) (bs bs' : list Bucket)
    (v : Version) (key : list byte) (b : Bucket) :
  (forall l, 0 <= crc32 l < u32_mod) -> zlen bs <= u16_mod -> zlen bs' <= u16_mod ->
  bs' ⊆ bs ->
  (forall x y h, x ∈ bs -> y ∈ bs -> h ∈ bucket_hashes crc32 v x -> h ∈ bucket_hashes crc32 v y ->
     node x = node y) ->
  continuum_node crc32 (new_with_version crc32 bs v) key = Some (Some (node b)) ->
  (forall x, x ∈ bs -> node x = node b -> x ∈ bs') ->
  continuum_node crc32 (new_with_version crc32 bs' v) key = Some (Some (node b)).
Proof.
  intros Hc Hlen Hlen' Hsub Hdisj Hnode Hkept.
  destruct (lookup_cases crc32 Hc bs v key Hlen) as [[_ Hn]|(s & x & Hs & Hx & Hsx & Hn)];
    rewrite Hnode in Hn; [done|]. injection Hn as Hnx.
  assert (x ∈ bs') as Hx' by auto.
  assert (s ∈ all_hashes crc32 v bs') as Hs' by (apply all_hashes_elem; eauto).
  assert (is_succ (all_hashes crc32 v bs') (crc32 key) s) as Hsucc'.
  { eapply is_succ_subset; [done| |done]. intros h. rewrite !all_hashes_elem. naive_solver. }
  destruct (lookup_cases crc32 Hc bs' v key Hlen')
    as [[Hemp _]|(s2 & y & Hs2 & Hy & Hsy & Hn2)].
  - rewrite Hemp in Hs'. by apply elem_of_nil in Hs'.
  - rewrite (is_succ_unique _ _ _ _ Hs2 Hsucc') in Hsy. rewrite Hn2. do 2 f_equal.
    rewrite Hnx. apply (Hdisj y x s); auto.
Qed.

(** Fail-over.  The iterator of a key starts at the server of the key and
    goes once around the ring: within as many steps as the ring has points it
    gives, without a panic, every server that still has a point. *)
Theorem ketama_failover `{RingSort} (crc32 : list byte -> Z) (bs : list Bucket) (v : Version)
    (key : list byte) :
  (forall l, 0 <= crc32 l < u32_mod) -> zlen bs <= u16_mod ->
  let c := new_with_version crc32 bs v in
  (0 < ring_len (ring c))%nat ->
  exists l, iter_take (ring_len (ring c)) c (node_iter crc32 c key) = Some (map Some l) /\
    (Some <$> head l) = continuum_node crc32 c key /\
    length l = ring_len (ring c) /\
    (forall i a, ring_addr c i = Some a -> a ∈ l) /\
    forall a, a ∈ l -> exists b, b ∈ bs /\ node b = a.
Proof.
  intros Hc Hlen c Hpos. pose proof (new_with_version_ring crc32 Hc bs v Hlen) as Hr. fold c in Hr.
  pose proof (ring_node_idx_lt crc32 c key (proj1 Hr) Hpos) as Hidx.
  destruct (iter_take_spec crc32 bs v c (ring_len (ring c)) _ Hr Hidx) as (l & Hl & Hlenl & Hat).
  exists l. split_and!; [done| |done| |].
  - specialize (Hat 0%nat Hpos). rewrite Nat.add_0_r, Nat.mod_small in Hat by done.
    destruct (get_addr_step crc32 bs v c _ Hr Hidx) as (a & Hg & Ha).
    rewrite Ha in Hat. destruct l as [|a' l]; [done|]. simpl in Hat. simplify_eq. simpl.
    unfold get_addr in Hg. unfold continuum_node.
    destruct (addr_at _ _) as [o|]; [by simplify_eq|done].
  - intros i a Hi. set (n := ring_len (ring c)) in *. set (k := node_idx crc32 c key) in *.
    assert (i < n)%nat as Hin.
    { unfold ring_addr in Hi. destruct (ring_nodes (ring c) !! i) eqn:Hn; [|done].
      apply lookup_lt_Some in Hn. by rewrite ring_nodes_length in Hn. }
    assert (exists j, (j < n)%nat /\ ((k + j) mod n = i)%nat) as (j & Hj & Hji).
    { by apply rotate_index. }
    apply (list_elem_of_lookup_2 l j). rewrite Hat, Hji by done. done.
  - intros a (j & Hj)%list_elem_of_lookup. pose proof (lookup_lt_Some _ _ _ Hj).
    rewrite Hat in Hj by lia. unfold ring_addr in Hj.
    destruct (ring_nodes (ring c) !! _) as [n|]; [|done]. simpl in Hj.
    destruct Hr as (_ & Ha & _). rewrite Ha in Hj.
    apply list_elem_of_lookup_2 in Hj. apply list_elem_of_fmap in Hj as (b & -> & Hb). by exists b.
Qed.

(** ** Instances

    A sorting routine that keeps the promise, and the CRC-32 of IEEE 802.3
    (reflected, polynomial [0xEDB88320]) bit by bit. *)

Definition key_le {A} (key : A -> Z) (a b : A) : Prop := key a <= key b.

#[export] Instance key_le_dec {A} (key : A -> Z) : RelDecision (key_le key).
Proof. intros a b. unfold key_le. solve_decision. Defined.

#[export] Instance key_le_trans {A} (key : A -> Z) : Transitive (key_le key).
Proof. intros a b c. unfold key_le. lia. Qed.
#[export] Instance key_le_total {A} (key : A -> Z) : Total (key_le key).
Proof. intros a b. unfold key_le. lia. Qed.

#[export] Program Instance merge_ring_sort : RingSort := {
  sort_by A key l := merge_sort (key_le key) l
}.
Next Obligation. intros A key l. apply merge_sort_Permutation. Qed.
Next Obligation.
  intros A key l. apply (StronglySorted_merge_sort (key_le key)).
Qed.

Definition crc_bit (c : Z) : Z :=
  if Z.testbit c 0 then Z.lxor 3988292384 (Z.shiftr c 1) else Z.shiftr c 1.
Definition crc_byte (c : Z) (b : byte) : Z := Nat.iter 8 crc_bit (Z.lxor c (byte_val b)).
Definition crc32_ieee (l : list byte) : Z := Z.lxor (foldl crc_byte 4294967295 l) 4294967295 mod u32_mod.

Lemma crc32_ieee_range l : 0 <= crc32_ieee l < u32_mod.
Proof. apply Z.mod_pos_bound. done. Qed.

(** The check value of the algorithm. *)
Example crc32_check : crc32_ieee (bytes_of "123456789") = 3421780262.
Proof. vm_compute. reflexivity. Qed.

Definition localhost (d w : Z) : Bucket := MkBucket (SaV4 (IpV4 127 0 0 d) 12345) w.

(** The example of the crate's documentation. *)
Example ketama_example :
  let c := continuum_new crc32_ieee [localhost 1 1; localhost 2 2; localhost 3 3] in
  map (fun k => continuum_node crc32_ieee c (bytes_of k)) ["some_key"; "another_key"; "last_key"]%string
  = [Some (Some (node (localhost 3 3))); Some (Some (node (localhost 3 3)));
     Some (Some (node (localhost 2 2)))].
Proof. vm_compute. reflexivity. Qed.

Lemma ketama_lookup_witness :
  exists s b, is_succ (all_hashes crc32_ieee (V2 2) [localhost 1 1; localhost 2 2])
                (crc32_ieee (bytes_of "some_key")) s /\
    b ∈ [localhost 1 1; localhost 2 2] /\ s ∈ bucket_hashes crc32_ieee (V2 2) b.
Proof.
  destruct (ketama_lookup crc32_ieee [localhost 1 1; localhost 2 2] (V2 2) (bytes_of "some_key"))
    as [[Hempty _]|(s & b & Hs & Hb & Hsb & _)].
  - exact crc32_ieee_range.
  - vm_compute. discriminate.
  - vm_compute in Hempty. discriminate.
  - exists s, b. auto.
Defined.

Lemma ketama_consistent_witness :
  continuum_node crc32_ieee
    (new_with_version crc32_ieee [localhost 1 1; localhost 3 2] (V2 2)) (bytes_of "some_key")
  = continuum_node crc32_ieee
    (new_with_version crc32_ieee [localhost 1 1; localhost 2 1; localhost 3 2] (V2 2))
    (bytes_of "some_key").
Proof.
  etrans.
  - apply (ketama_consistent crc32_ieee [localhost 1 1; localhost 2 1; localhost 3 2]
             [localhost 1 1; localhost 3 2] (V2 2) (bytes_of "some_key") (localhost 3 2)).
    + exact crc32_ieee_range.
    + vm_compute. discriminate.
    + vm_compute. discriminate.
    + set_solver.
    + intros x y h Hx Hy Hhx Hhy.
      assert (Forall (fun x => Forall (fun y => Forall (fun h => h ∈ bucket_hashes crc32_ieee (V2 2) y ->
                node x = node y) (bucket_hashes crc32_ieee (V2 2) x))
                [localhost 1 1; localhost 2 1; localhost 3 2])
                [localhost 1 1; localhost 2 1; localhost 3 2]) as Hall
        by (refine (bool_decide_unpack _ _); vm_compute; exact I).
      rewrite Forall_forall in Hall. specialize (Hall x Hx). rewrite Forall_forall in Hall.
      specialize (Hall y Hy). rewrite Forall_forall in Hall. exact (Hall h Hhx Hhy).
    + vm_compute. reflexivity.
    + intros x Hx Hn. rewrite !elem_of_cons in Hx.
      destruct Hx as [->|[->|[->|Hx]]]; [vm_compute in Hn; discriminate..|set_solver|set_solver].
  - vm_compute. reflexivity.
Defined.

Lemma ketama_failover_witness :
  exists l, iter_take 4 (new_with_version crc32_ieee [localhost 1 1; localhost 2 1] (V2 2))
      (node_iter crc32_ieee (new_with_version crc32_ieee [localhost 1 1; localhost 2 1] (V2 2))
         (bytes_of "k")) = Some (map Some l) /\
    node (localhost 1 1) ∈ l /\ node (localhost 2 1) ∈ l.
Proof.
  destruct (ketama_failover crc32_ieee [localhost 1 1; localhost 2 1] (V2 2) (bytes_of "k"))
    as (l & Hl & _ & _ & Hall & _).
  - exact crc32_ieee_range.
  - vm_compute. discriminate.
  - vm_compute. lia.
  - exists l. split; [exact Hl|].
    assert (forall a, a ∈ omap (ring_addr (new_with_version crc32_ieee [localhost 1 1; localhost 2 1] (V2 2)))
              [0; 1; 2; 3]%nat -> a ∈ l) as Hin.
    { intros a (i & _ & Hi)%list_elem_of_omap. exact (Hall i a Hi). }
    split; apply Hin; refine (bool_decide_unpack _ _); vm_compute; exact I.
Defined.
