(* ===== verification/Selection.v ===== *)
(** * Backend selection

    [src/pingora-load-balancing/src/selection]: the interface a selection
    mechanism offers ([BackendSelection], [BackendIter]), weighted selection
    over an algorithm (hash, round robin, random), consistent hashing, the
    iterator that skips repeats, and the choice of the first acceptable backend
    ([LoadBalancer::select_with] of [src/pingora-load-balancing/src/lib.rs]).

    A [BTreeSet<Backend>] is the list of its elements in order.  A selector is
    shared behind an [Arc] by its iterators: what they mutate (the counter of
    round robin, the generator of random) is part of the state an iterator
    steps.  [None] is a panic. *)

From stdpp Require Import base list numbers gmap.
From Stdlib Require Import ZArith Lia.
From S2P Require Import Prelude Ketama.
Local Open Scope Z_scope.

(** ** Backends *)

(** A Unix socket without a path name cannot be hashed, and so is no backend. *)
Inductive SockAddr := Inet (a : SocketAddr) | Unix (path : list byte).

#[export] Instance SockAddr_eq_dec : EqDecision SockAddr.
Proof. solve_decision. Defined.

(** [ext] annotates a backend and is ignored when backends are compared. *)
Record Backend (Ext : Type) := MkBackend { addr : SockAddr; bweight : Z; ext : Ext }.
Arguments MkBackend {Ext}.
Arguments addr {Ext}.
Arguments bweight {Ext}.
Arguments ext {Ext}.

Definition backend_eqb {Ext} (a b : Backend Ext) : bool :=
  bool_decide (addr a = addr b) && (bweight a =? bweight b).

(** ** Interfaces *)

(** [BackendIter]: the next choice, and the state afterwards. *)
Class BackendIter (Ext I : Type) := {
  next : I -> option (option (Backend Ext) * I)
}.

(** [SelectionAlgorithm]: a number for a key, from a state behind the scenes. *)
Class SelectionAlgorithm (A : Type) := {
  alg_new : A;
  alg_next : A -> list byte -> Z * A
}.

(** ** Algorithms *)

(** Every [Hasher] is an algorithm, without state: a wrapper keeps the instances
    apart. *)
Record Hashed := MkHashed { hash_of : list byte -> Z }.
Definition hashed_algorithm (h : list byte -> Z) : SelectionAlgorithm Hashed :=
  {| alg_new := MkHashed h; alg_next a key := (hash_of a key, a) |}.

Record RoundRobin := MkRoundRobin { rr_counter : Z }.
#[export] Instance round_robin_algorithm : SelectionAlgorithm RoundRobin :=
  {| alg_new := MkRoundRobin 0;
     alg_next a _ := (rr_counter a, MkRoundRobin (wadd (rr_counter a) 1)) |}.

(** The thread's generator: the numbers it has still to give, and the count of
    those given. *)
Record RandomAlg := MkRandom { draws : nat -> Z; drawn : nat }.
Definition random_algorithm (rng : nat -> Z) : SelectionAlgorithm RandomAlg :=
  {| alg_new := MkRandom rng 0;
     alg_next a _ := (draws a (drawn a), MkRandom (draws a) (S (drawn a))) |}.

(** ** Weighted selection *)

Section weighted.
Context {Ext A : Type} `{SelectionAlgorithm A}.

Record Weighted := MkWeighted {
  backends : list (Backend Ext);
  weighted : list Z;               (* u16 indices into [backends] *)
  algorithm : A
}.

(** The two nested loops of [build]. *)
Fixpoint weighted_indices (index : Z) (bs : list (Backend Ext)) : list Z :=
  match bs with
  | [] => []
  | b :: bs => replicate (Z.to_nat (bweight b)) (index mod u16_mod)
               ++ weighted_indices (index + 1) bs
  end.

Definition weighted_build (bs : list (Backend Ext)) : option Weighted :=
  if zlen bs <=? u16_mod - 1 then Some (MkWeighted bs (weighted_indices 0 bs) alg_new) else None.

Record WeightedIterator := MkWeightedIterator { index : Z; wi_backend : Weighted; first : bool }.

Definition set_algorithm (w : Weighted) (a : A) : Weighted :=
  MkWeighted (backends w) (weighted w) a.

(** [WeightedIterator::new], from [Weighted::iter]. *)
Definition weighted_iter (w : Weighted) (key : list byte) : WeightedIterator :=
  let '(i, a) := alg_next (algorithm w) key in
  MkWeightedIterator i (set_algorithm w a) true.

Definition weighted_next (it : WeightedIterator) : option (option (Backend Ext) * WeightedIterator) :=
  let w := wi_backend it in
  match backends w with
  | [] => Some (None, it)
  | _ =>
      if first it then
        let len := zlen (weighted w) in
        if len =? 0 then Some (None, it)
        else
          match weighted w !! Z.to_nat (index it mod len) with
          | None => None
          | Some i =>
              match backends w !! Z.to_nat i with
              | None => None
              | Some b => Some (Some b, MkWeightedIterator (index it) w false)
              end
          end
      else
        let '(i, a) := alg_next (algorithm w) (le_bytes 8 (index it)) in
        let len := zlen (backends w) in
        match backends w !! Z.to_nat (i mod len) with
        | None => None
        | Some b => Some (Some b, MkWeightedIterator i (set_algorithm w a) false)
        end
  end.

#[export] Instance weighted_backend_iter : BackendIter Ext WeightedIterator :=
  {| next := weighted_next |}.

End weighted.
Arguments Weighted : clear implicits.
Arguments WeightedIterator : clear implicits.

(** ** Consistent hashing *)

Section consistent.
Context {Ext : Type} `{RingSort} (crc32 : list byte -> Z).

(** [backends]: a map from addresses; of two backends with one address the
    later stays. *)
Record KetamaHashing := MkKetama {
  k_ring : Continuum;
  k_backends : list (SockAddr * Backend Ext)
}.

(** [KetamaConfig]; with the feature [v2] a point multiple selects version 2. *)
Definition ketama_version (v2 : bool) (point_multiple : option Z) : Version :=
  match point_multiple with
  | Some m => if v2 then V2 m else V1
  | None => V1
  end.

(** Buckets of the internet addresses; a weight of zero (of 32 bits) panics. *)
Fixpoint buckets (bs : list (Backend Ext)) : option (list Bucket) :=
  match bs with
  | [] => Some []
  | b :: bs =>
      match addr b with
      | Inet a =>
          match bucket_new a (bweight b mod u32_mod), buckets bs with
          | Some x, Some l => Some (x :: l)
          | _, _ => None
          end
      | Unix _ => buckets bs
      end
  end.

Definition build_with_config (v2 : bool) (bs : list (Backend Ext)) (point_multiple : option Z)
  : option KetamaHashing :=
  match buckets bs with
  | Some l => Some (MkKetama (new_with_version crc32 l (ketama_version v2 point_multiple))
                             (map (fun b => (addr b, b)) bs))
  | None => None
  end.

Definition ketama_build (v2 : bool) (bs : list (Backend Ext)) : option KetamaHashing :=
  build_with_config v2 bs None.

(** [HashMap::get] after [collect]: the last entry of the key. *)
Definition map_get (l : list (SockAddr * Backend Ext)) (a : SockAddr) : option (Backend Ext) :=
  foldl (fun r e => if bool_decide (e.1 = a) then Some e.2 else r) None l.

Record OwnedNodeIterator := MkOwned { o_idx : nat; o_ring : KetamaHashing }.

Definition ketama_iter (k : KetamaHashing) (key : list byte) : OwnedNodeIterator :=
  MkOwned (node_idx crc32 (k_ring k) key) k.

Definition ketama_next (it : OwnedNodeIterator) : option (option (Backend Ext) * OwnedNodeIterator) :=
  match get_addr (k_ring (o_ring it)) (o_idx it) with
  | None => None
  | Some (a, idx') =>
      Some (match a with
            | Some a => map_get (k_backends (o_ring it)) (Inet a)
            | None => None
            end, MkOwned idx' (o_ring it))
  end.

#[export] Instance ketama_backend_iter : BackendIter Ext OwnedNodeIterator :=
  {| next := ketama_next |}.

End consistent.
Arguments KetamaHashing : clear implicits.
Arguments OwnedNodeIterator : clear implicits.

(** ** Unique items and selection *)

Section unique.
Context {Ext I : Type} `{BackendIter Ext I} (hash_key : Backend Ext -> Z).

Record UniqueIterator := MkUnique {
  u_iter : I;
  seen : gset Z;
  max_iterations : nat;
  steps : nat
}.

Definition unique_new (iter : I) (max : nat) : UniqueIterator := MkUnique iter ∅ max 0.

(** The loop of [get_next]: every round but the last takes a step, so
    [max_iterations - steps] rounds and one more are enough. *)
Fixpoint get_next_loop (fuel : nat) (u : UniqueIterator)
  : option (option (Backend Ext) * UniqueIterator) :=
  match fuel with
  | O => None
  | S fuel =>
      match next (u_iter u) with
      | None => None
      | Some (None, it) => Some (None, MkUnique it (seen u) (max_iterations u) (steps u))
      | Some (Some item, it) =>
          if (max_iterations u <=? steps u)%nat
          then Some (None, MkUnique it (seen u) (max_iterations u) (steps u))
          else
            let k := hash_key item in
            if bool_decide (k ∈ seen u)
            then get_next_loop fuel (MkUnique it (seen u) (max_iterations u) (S (steps u)))
            else Some (Some item,
                       MkUnique it ({[k]} ∪ seen u) (max_iterations u) (S (steps u)))
      end
  end.

Definition get_next (u : UniqueIterator) : option (option (Backend Ext) * UniqueIterator) :=
  get_next_loop (S (max_iterations u - steps u)) u.

(** The loop of [select_with]; [ready] is the view's answer for a backend. *)
Fixpoint select_loop (fuel : nat) (accept : Backend Ext -> bool -> bool)
    (ready : Backend Ext -> bool) (u : UniqueIterator) : option (option (Backend Ext) * UniqueIterator) :=
  match fuel with
  | O => None
  | S fuel =>
      match get_next u with
      | None => None
      | Some (None, u') => Some (None, u')
      | Some (Some b, u') =>
          if accept b (ready b) then Some (Some b, u') else select_loop fuel accept ready u'
      end
  end.

(** [it] is the selector's iterator for the key. *)
Definition select_with (it : I) (max : nat) (accept : Backend Ext -> bool -> bool)
    (ready : Backend Ext -> bool) : option (option (Backend Ext) * UniqueIterator) :=
  select_loop (S max) accept ready (unique_new it max).

Definition select (it : I) (max : nat) (ready : Backend Ext -> bool)
  : option (option (Backend Ext) * UniqueIterator) :=
  select_with it max (fun _ health => health) ready.

End unique.
Arguments UniqueIterator : clear implicits.
