(* ===== verification/SelectionSpec.v ===== *)
(** * Backend selection: which backend is chosen

    [select_with] is the first acceptable item among the distinct ones of the
    first [max_iterations] the selector gives, whatever the selector.  Weighted
    selection stays within its backends for every algorithm; under round robin a
    full cycle serves each backend as often as its weight says, and a search
    reaches every backend; a search over the ring reaches every server on it. *)

From stdpp Require Import base list numbers sets gmap strings.
From Stdlib Require Import ZArith Lia.
From S2P Require Import Prelude Ketama KetamaSpec Selection.
Local Open Scope Z_scope.

(** ** The first acceptable of the distinct items *)

Section unique.
Context {Ext I : Type} `{BackendIter Ext I} (hash_key : Backend Ext -> Z).

(** What an iterator gives in at most [n] calls; [None] if a call panics. *)
Fixpoint items (n : nat) (it : I) : option (list (Backend Ext)) :=
  match n with
  | O => Some []
  | S n =>
      match next it with
      | None => None
      | Some (None, _) => Some []
      | Some (Some b, it') => cons b <$> items n it'
      end
  end.

(** The items whose key was not there before. *)
Fixpoint uniq (keys : gset Z) (l : list (Backend Ext)) : list (Backend Ext) :=
  match l with
  | [] => []
  | b :: l => if bool_decide (hash_key b ∈ keys) then uniq keys l
              else b :: uniq ({[hash_key b]} ∪ keys) l
  end.

Lemma uniq_elem keys l b : b ∈ uniq keys l -> b ∈ l /\ hash_key b ∉ keys.
Proof.
  revert keys. induction l as [|a l IH]; intros keys; simpl; [by intros ?%elem_of_nil|].
  case_bool_decide as Ha.
  - intros [? ?]%IH. split; [by right|done].
  - intros [->|Hb]%elem_of_cons; [split; [left|done]|].
    apply IH in Hb as [? Hk]. split; [by right|set_solver].
Qed.

Lemma uniq_nodup keys l : NoDup (map hash_key (uniq keys l)).
Proof.
  revert keys. induction l as [|a l IH]; intros keys; simpl; [constructor|].
  case_bool_decide; [apply IH|]. simpl. constructor; [|apply IH].
  intros (b & Hb & Hin)%list_elem_of_fmap. apply uniq_elem in Hin as [_ Hin]. set_solver.
Qed.

Lemma uniq_covers keys l b :
  b ∈ l -> hash_key b ∈ keys \/ exists b', b' ∈ uniq keys l /\ hash_key b' = hash_key b.
Proof.
  revert keys. induction l as [|a l IH]; intros keys; [by intros ?%elem_of_nil|].
  intros [->|Hb]%elem_of_cons; simpl; case_bool_decide as Ha.
  - by left.
  - right. exists a. split; [left|done].
  - by apply IH.
  - destruct (IH ({[hash_key a]} ∪ keys) Hb) as [Hin|(b' & Hin & Hk)].
    + apply elem_of_union in Hin as [Hin%elem_of_singleton|Hin]; [|by left].
      right. exists a. split; [left|done].
    + right. exists b'. split; [by right|done].
Qed.

(** [u] has [todo] rounds left and will still see [l]. *)
Definition unique_inv (u : UniqueIterator I) (l : list (Backend Ext)) : Prop :=
  (steps u <= max_iterations u)%nat /\
  exists l', items (S (max_iterations u - steps u)) (u_iter u) = Some l' /\
             l = take (max_iterations u - steps u) l'.

Lemma get_next_loop_spec fuel u l :
  (max_iterations u - steps u < fuel)%nat -> unique_inv u l ->
  exists u', get_next_loop hash_key fuel u = Some (head (uniq (seen u) l), u') /\
    (uniq (seen u) l = [] \/
     ((steps u < steps u')%nat /\ max_iterations u' = max_iterations u /\
      exists l2, unique_inv u' l2 /\ uniq (seen u') l2 = tail (uniq (seen u) l))).
Proof.
  revert u l. induction fuel as [|fuel IH]; intros u l Hf (Hs & l' & Hitems & ->); [lia|].
  cbn [get_next_loop]. cbn [items] in Hitems.
  destruct (next (u_iter u)) as [[[b|] it]|] eqn:Hnext; [|simplify_eq..].
  2:{ rewrite take_nil. simpl. eexists. split; [done|by left]. }
  destruct (Nat.leb_spec (max_iterations u) (steps u)) as [Hle|Hlt].
  { replace (max_iterations u - steps u)%nat with 0%nat by lia. simpl.
    eexists. split; [done|by left]. }
  destruct (items (max_iterations u - steps u) it) as [l1|] eqn:Hl1; [|done].
  simpl in Hitems. simplify_eq.
  replace (max_iterations u - steps u)%nat with (S (max_iterations u - S (steps u))) in * by lia.
  cbn [take uniq]. case_bool_decide as Hk.
  - destruct (IH (MkUnique it (seen u) (max_iterations u) (S (steps u)))
                 (take (max_iterations u - S (steps u)) l1)) as (u' & -> & Hcase).
    { simpl. lia. }
    { split; [simpl; lia|]. by exists l1. }
    simpl in Hcase. exists u'. split; [done|].
    destruct Hcase as [?|(? & ? & ?)]; [by left|right]. split_and!; [lia|done|done].
  - eexists. split; [done|]. right. simpl. split_and!; [lia|done|].
    exists (take (max_iterations u - S (steps u)) l1). split; [|done].
    split; [simpl; lia|]. by exists l1.
Qed.

Lemma select_loop_spec fuel accept ready u l :
  (max_iterations u - steps u < fuel)%nat -> unique_inv u l ->
  exists u', select_loop hash_key fuel accept ready u
    = Some (find (fun b => accept b (ready b)) (uniq (seen u) l), u').
Proof.
  revert u l. induction fuel as [|fuel IH]; intros u l Hf Hu; [lia|]. cbn [select_loop].
  destruct (get_next_loop_spec (S (max_iterations u - steps u)) u l ltac:(lia) Hu)
    as (u' & Hget & Hcase).
  unfold get_next. rewrite Hget.
  destruct (uniq (seen u) l) as [|b rest] eqn:Hq; simpl.
  { by eexists. }
  destruct (accept b (ready b)); [by eexists|].
  destruct Hcase as [?|(Hlt & Hmax & l2 & Hu2 & Hq2)]; [done|]. simpl in Hq2. rewrite <-Hq2.
  apply IH; [|done]. destruct Hu2 as [? _]. lia.
Qed.

End unique.

(** Search.  Whatever the selector, if its iterator does not panic,
    [select_with] returns, after finitely many steps, the first item accepted
    among the distinct items of the first [max_iterations]; no item is offered
    to [accept] twice. *)
Theorem select_with_first {Ext I : Type} `{BackendIter Ext I} (hash_key : Backend Ext -> Z)
    (it : I) (max : nat) (accept : Backend Ext -> bool -> bool) (ready : Backend Ext -> bool)
    (l : list (Backend Ext)) :
  items (S max) it = Some l ->
  (exists u', select_with hash_key it max accept ready
     = Some (find (fun b => accept b (ready b)) (uniq hash_key ∅ (take max l)), u')) /\
  NoDup (map hash_key (uniq hash_key ∅ (take max l))).
Proof.
  intros Hl. split; [|apply uniq_nodup]. unfold select_with.
  apply (select_loop_spec hash_key (S max) accept ready (unique_new it max)); [simpl; lia|].
  split; [simpl; lia|]. exists l. simpl (max_iterations _). simpl (steps _).
  by rewrite Nat.sub_0_r.
Qed.

(** What [select] may return, for a [ready] that looks at the key only. *)
Lemma select_complete {Ext I : Type} `{BackendIter Ext I} (hash_key : Backend Ext -> Z)
    (it : I) (max : nat) (ready : Backend Ext -> bool) (l : list (Backend Ext)) :
  items (S max) it = Some l ->
  (forall x y, hash_key x = hash_key y -> ready x = ready y) ->
  exists o u', select hash_key it max ready = Some (o, u') /\
    match o with
    | Some b => b ∈ take max l /\ ready b = true
    | None => forall b, b ∈ take max l -> ready b = false
    end.
Proof.
  intros Hl Hready.
  destruct (select_loop_spec hash_key (S max) (fun _ health => health) ready
              (unique_new it max) (take max l)) as (u' & Hsel).
  { simpl. lia. }
  { split; [simpl; lia|]. exists l. simpl (max_iterations _). simpl (steps _).
    by rewrite Nat.sub_0_r. }
  eexists _, u'. split; [exact Hsel|]. simpl (seen _) in *.
  destruct (find _ _) as [b|] eqn:Hfind.
  - apply find_some in Hfind as [Hin Hr]. apply list_elem_of_In in Hin.
    apply uniq_elem in Hin as [? _]. done.
  - intros b Hb. destruct (uniq_covers hash_key ∅ _ b Hb) as [Hbad|(b' & Hb' & Hk)].
    { by apply not_elem_of_empty in Hbad. }
    rewrite (Hready b b') by done. apply list_elem_of_In in Hb'.
    exact (find_none _ _ Hfind b' Hb').
Qed.

(** ** Rotations *)

Lemma rotation_perm {A} (l L : list A) (c : nat) :
  length L = length l ->
  (forall k, (k < length l)%nat -> L !! k = l !! ((c + k) mod length l)%nat) ->
  L ≡ₚ l.
Proof.
  intros Hlen Hat. destruct (decide (length l = 0%nat)) as [Hz|Hnz].
  { apply nil_length_inv in Hz. subst l. by apply nil_length_inv in Hlen as ->. }
  set (n := length l) in *. set (c' := (c mod n)%nat).
  assert (c' < n)%nat as Hc' by (by apply Nat.mod_upper_bound).
  assert (L = drop c' l ++ take c' l) as ->.
  - apply list_eq. intros k. destruct (decide (k < n)%nat) as [Hk|Hk].
    + rewrite Hat by done. rewrite <-Nat.Div0.add_mod_idemp_l. fold c'.
      destruct (decide (k < n - c')%nat).
      * rewrite lookup_app_l by (rewrite length_drop; fold n; lia).
        rewrite lookup_drop, Nat.mod_small by lia. done.
      * rewrite lookup_app_r by (rewrite length_drop; fold n; lia).
        rewrite length_drop. fold n. rewrite lookup_take_lt by lia.
        replace (c' + k)%nat with ((k - (n - c')) + 1 * n)%nat by lia.
        rewrite Nat.Div0.mod_add, Nat.mod_small by lia. done.
    + rewrite !lookup_ge_None_2; [done| |]; [|lia].
      rewrite length_app, length_drop, length_take. fold n. lia.
  - rewrite Permutation_app_comm. by rewrite take_drop.
Qed.

(** ** Weighted selection *)

Section weighted.
Context {Ext : Type}.
Implicit Types (bs : list (Backend Ext)).

(** Each backend as often as its weight. *)
Definition spread bs : list (Backend Ext) :=
  concat (map (fun b => replicate (Z.to_nat (bweight b)) b) bs).

Lemma weighted_indices_spread k bs0 bs :
  zlen bs0 = k -> k + zlen bs <= u16_mod ->
  map (fun i => (bs0 ++ bs) !! Z.to_nat i) (weighted_indices k bs) = map Some (spread bs).
Proof.
  revert k bs0. induction bs as [|b bs IH]; intros k bs0 Hk Hlen; simpl; [done|].
  rewrite zlen_cons in Hlen. pose proof (zlen_nonneg bs). pose proof (zlen_nonneg bs0).
  unfold spread in *. simpl. rewrite !map_app. f_equal.
  - rewrite Z.mod_small by lia. rewrite !fmap_replicate. f_equal.
    rewrite list_lookup_middle; [done|]. unfold zlen in *. lia.
  - specialize (IH (k + 1) (bs0 ++ [b])). rewrite <-IH; [|rewrite zlen_app; subst; done|lia].
    by rewrite <-app_assoc.
Qed.

(** What holds of a selector as long as it lives: its backends, and the index
    list that stands for them. *)
Definition weighted_ok {A} (w : Weighted Ext A) bs : Prop :=
  backends w = bs /\ map (fun i => bs !! Z.to_nat i) (weighted w) = map Some (spread bs).

Context {A : Type} `{SelectionAlgorithm A}.

Lemma weighted_build_ok bs w : weighted_build bs = Some w -> weighted_ok w bs.
Proof.
  unfold weighted_build. destruct (Z.leb_spec (zlen bs) (u16_mod - 1)); [|done].
  intros [= <-]. split; [done|]. apply (weighted_indices_spread 0 []); [done|lia].
Qed.

Lemma weighted_len {B} (w : Weighted Ext B) bs :
  weighted_ok w bs -> length (weighted w) = length (spread bs).
Proof. intros [_ Hw]. apply (f_equal length) in Hw. by rewrite !length_map in Hw. Qed.

Lemma spread_elem bs b : b ∈ spread bs -> b ∈ bs /\ 0 < bweight b.
Proof.
  unfold spread. intros Hb. apply list_elem_of_In, in_concat in Hb as (l & Hl & Hb).
  apply list_elem_of_In, list_elem_of_fmap in Hl as (x & -> & Hx).
  apply list_elem_of_In, elem_of_replicate in Hb as [-> Hn]. split; [done|lia].
Qed.

(** The first choice: by the algorithm's number, among the backends repeated by
    weight. *)
Lemma weighted_first (w : Weighted Ext A) bs i :
  weighted_ok w bs -> spread bs <> [] ->
  exists b, spread bs !! Z.to_nat (i mod zlen (spread bs)) = Some b /\
    weighted_next (MkWeightedIterator i w true)
    = Some (Some b, MkWeightedIterator i w false).
Proof.
  intros Hok Hne. pose proof (weighted_len w bs Hok) as Hlen. destruct Hok as [Hb Hw].
  assert (0 < zlen (spread bs)) as Hpos.
  { destruct (spread bs); [done|]. rewrite zlen_cons. pose proof (zlen_nonneg l). lia. }
  pose proof (Z.mod_pos_bound i (zlen (spread bs)) Hpos) as Hmod.
  destruct (lookup_lt_is_Some_2 (spread bs) (Z.to_nat (i mod zlen (spread bs)))) as [b Hat].
  { unfold zlen in *. lia. }
  exists b. split; [done|]. unfold weighted_next. simpl. rewrite Hb.
  destruct bs as [|b0 bs0] eqn:Hbs; [done|]. rewrite <-Hbs in *.
  replace (zlen (weighted w)) with (zlen (spread bs)) by (unfold zlen; by rewrite Hlen).
  destruct (Z.eqb_spec (zlen (spread bs)) 0); [lia|].
  apply (f_equal (fun l => l !! Z.to_nat (i mod zlen (spread bs)))) in Hw.
  rewrite !list_lookup_fmap, Hat in Hw. simpl in Hw.
  destruct (weighted w !! _) as [j|]; [|done]. simpl in Hw. injection Hw as Hw. by rewrite Hw.
Qed.

(** Later choices: by the algorithm's next number, among the backends. *)
Lemma weighted_fallback (w : Weighted Ext A) bs i :
  weighted_ok w bs -> bs <> [] ->
  let '(j, a) := alg_next (algorithm w) (le_bytes 8 i) in
  exists b, bs !! Z.to_nat (j mod zlen bs) = Some b /\
    weighted_next (MkWeightedIterator i w false)
    = Some (Some b, MkWeightedIterator j (set_algorithm w a) false).
Proof.
  intros [Hb Hw] Hne. destruct (alg_next (algorithm w) (le_bytes 8 i)) as [j a] eqn:Halg.
  assert (0 < zlen bs) as Hpos.
  { destruct bs; [done|]. rewrite zlen_cons. pose proof (zlen_nonneg bs). lia. }
  pose proof (Z.mod_pos_bound j (zlen bs) Hpos) as Hmod.
  destruct (lookup_lt_is_Some_2 bs (Z.to_nat (j mod zlen bs))) as [b Hat].
  { unfold zlen in *. lia. }
  exists b. split; [done|]. unfold weighted_next. simpl (wi_backend _). rewrite Hb.
  destruct bs as [|b0 bs0] eqn:Hbs; [done|]. rewrite <-Hbs in *.
  simpl (first _). simpl (index _). rewrite Halg. by rewrite Hat.
Qed.

Lemma set_algorithm_ok (w : Weighted Ext A) bs a :
  weighted_ok w bs -> weighted_ok (set_algorithm w a) bs.
Proof. done. Qed.

(** The state of an iterator, whatever the algorithm. *)
Lemma weighted_items n bs it :
  weighted_ok (wi_backend it) bs ->
  exists l, items n it = Some l /\ Forall (fun b => b ∈ bs) l /\
    (spread bs <> [] \/ first it = false -> bs <> [] -> length l = n) /\
    (first it = true -> match head l with Some b => 0 < bweight b | None => True end).
Proof.
  revert it. induction n as [|n IH]; intros it Hok.
  { exists []. by repeat split. }
  assert (forall it, weighted_ok (wi_backend it) bs ->
            exists l, items n it = Some l /\ Forall (fun b => b ∈ bs) l /\
              (first it = false -> bs <> [] -> length l = n)) as IH'.
  { intros it' Hit'. destruct (IH it' Hit') as (l & ? & ? & Hl & _). exists l. naive_solver. }
  cbn [items next weighted_backend_iter].
  destruct (decide (bs = [])) as [->|Hne].
  { exists []. unfold weighted_next. destruct Hok as [-> _]. split_and!; [done..| |done]. by intros. }
  destruct it as [i w fst]. simpl in Hok. destruct fst.
  - destruct (decide (spread bs = [])) as [Hs|Hs].
    + pose proof (weighted_len w bs Hok) as Hz. rewrite Hs in Hz. exists [].
      unfold weighted_next. simpl. destruct Hok as [-> _]. destruct bs; [done|].
      unfold zlen. rewrite Hz. simpl. split_and!; [done|done| |done].
      intros [?|?]; done.
    + destruct (weighted_first w bs i Hok Hs) as (b & Hb & ->).
      destruct (IH' (MkWeightedIterator i w false) Hok) as (l & -> & Hl & Hlen).
      apply list_elem_of_lookup_2, spread_elem in Hb as [Hb Hpos].
      exists (b :: l). split_and!; [done|by constructor| |done].
      intros _ _. simpl. by rewrite Hlen.
  - pose proof (weighted_fallback w bs i Hok Hne) as Hf.
    destruct (alg_next (algorithm w) (le_bytes 8 i)) as [j a]. destruct Hf as (b & Hb & ->).
    destruct (IH' (MkWeightedIterator j (set_algorithm w a) false) Hok) as (l & -> & Hl & Hlen).
    apply list_elem_of_lookup_2 in Hb.
    exists (b :: l). split_and!; [done|by constructor| |done].
    intros _ _. simpl. by rewrite Hlen.
Qed.

End weighted.

(** Weighted selection, for every algorithm (hash, round robin, random, or
    another).  An iterator never panics and never leaves the backends; its first
    choice has a positive weight; it never runs dry unless there is no backend or
    no weight at all. *)
Theorem weighted_selection_safe {Ext A : Type} `{SelectionAlgorithm A}
    (bs : list (Backend Ext)) (w : Weighted Ext A) (key : list byte) (n : nat) :
  weighted_build bs = Some w ->
  exists l, items n (weighted_iter w key) = Some l /\ Forall (fun b => b ∈ bs) l /\
    (Exists (fun b => 0 < bweight b) bs -> length l = n) /\
    (match head l with Some b => 0 < bweight b | None => True end).
Proof.
  intros Hw%weighted_build_ok. unfold weighted_iter.
  destruct (alg_next (algorithm w) key) as [i a].
  destruct (weighted_items n bs (MkWeightedIterator i (set_algorithm w a) true) Hw)
    as (l & Hl & Hin & Hlen & Hhead).
  exists l. split_and!; [done|done| |by apply Hhead].
  intros Hex. apply Hlen.
  - left. intros Hs. apply Exists_exists in Hex as (b & Hb & Hpos).
    assert (b ∈ spread bs) as Hin'; [|rewrite Hs in Hin'; by apply elem_of_nil in Hin'].
    unfold spread. apply list_elem_of_In, in_concat. exists (replicate (Z.to_nat (bweight b)) b).
    split; apply list_elem_of_In; [apply list_elem_of_fmap; by exists b|].
    apply elem_of_replicate. split; [done|lia].
  - intros ->. by apply Exists_nil in Hex.
Qed.

(** ** Round robin *)

Section round_robin.
Context {Ext : Type}.
Implicit Types (bs : list (Backend Ext)) (w : Weighted Ext RoundRobin).

(** [n] requests, each with its own iterator and served by its first choice. *)
Fixpoint serve (n : nat) (key : list byte) w : option (list (Backend Ext)) :=
  match n with
  | O => Some []
  | S n =>
      match weighted_next (weighted_iter w key) with
      | Some (Some b, it) => cons b <$> serve n key (wi_backend it)
      | _ => None
      end
  end.

Lemma wadd_succ c : 0 <= c -> c + 1 < usize_mod -> wadd c 1 = c + 1.
Proof. intros. unfold wadd. apply Z.mod_small. lia. Qed.

Lemma Z_mod_nat c n : 0 <= c -> Z.to_nat (c mod Z.of_nat n) = (Z.to_nat c mod n)%nat.
Proof.
  intros. rewrite <-(Z2Nat.id c) at 1 by done. rewrite <-Nat2Z.inj_mod. apply Nat2Z.id.
Qed.

Lemma serve_spec n key w bs :
  weighted_ok w bs -> spread bs <> [] -> 0 <= rr_counter (algorithm w) ->
  rr_counter (algorithm w) + Z.of_nat n < usize_mod ->
  exists l, serve n key w = Some l /\ length l = n /\
    forall k, (k < n)%nat ->
      l !! k = spread bs !! ((Z.to_nat (rr_counter (algorithm w)) + k) mod length (spread bs))%nat.
Proof.
  revert w. induction n as [|n IH]; intros w Hok Hne Hc Hmax.
  { exists []. split_and!; [done|done|]. intros; lia. }
  cbn [serve]. unfold weighted_iter. cbn [alg_next round_robin_algorithm].
  set (w1 := set_algorithm w (MkRoundRobin (wadd (rr_counter (algorithm w)) 1))).
  destruct (weighted_first w1 bs (rr_counter (algorithm w)) Hok Hne) as (b & Hb & ->).
  simpl (wi_backend _).
  assert (rr_counter (algorithm w1) = rr_counter (algorithm w) + 1) as Hc1.
  { simpl. apply wadd_succ; lia. }
  destruct (IH w1 Hok Hne) as (l & -> & Hlen & Hl); [lia..|].
  exists (b :: l). split_and!; [done|simpl; by rewrite Hlen|]. intros [|k] Hk; simpl.
  - rewrite Nat.add_0_r, <-Z_mod_nat by done. by rewrite <-Hb.
  - rewrite Hl by lia. rewrite Hc1. f_equal.
    replace (Z.to_nat (rr_counter (algorithm w)) + S k)%nat
      with (Z.to_nat (rr_counter (algorithm w) + 1) + k)%nat by lia. done.
Qed.

(** The fallbacks walk through the backends. *)
Lemma fallback_spec n i w bs :
  weighted_ok w bs -> bs <> [] -> 0 <= rr_counter (algorithm w) ->
  rr_counter (algorithm w) + Z.of_nat n < usize_mod ->
  exists l, items n (MkWeightedIterator i w false) = Some l /\ length l = n /\
    forall k, (k < n)%nat ->
      l !! k = bs !! ((Z.to_nat (rr_counter (algorithm w)) + k) mod length bs)%nat.
Proof.
  revert i w. induction n as [|n IH]; intros i w Hok Hne Hc Hmax.
  { exists []. split_and!; [done|done|]. intros; lia. }
  cbn [items next weighted_backend_iter].
  pose proof (weighted_fallback w bs i Hok Hne) as Hf.
  cbn [alg_next round_robin_algorithm] in Hf. destruct Hf as (b & Hb & ->).
  set (w1 := set_algorithm w (MkRoundRobin (wadd (rr_counter (algorithm w)) 1))).
  assert (rr_counter (algorithm w1) = rr_counter (algorithm w) + 1) as Hc1.
  { simpl. apply wadd_succ; lia. }
  destruct (IH (rr_counter (algorithm w)) w1 Hok Hne) as (l & -> & Hlen & Hl); [lia..|].
  exists (b :: l). split_and!; [done|simpl; by rewrite Hlen|]. intros [|k] Hk; simpl.
  - rewrite Nat.add_0_r, <-Z_mod_nat by done. by rewrite <-Hb.
  - rewrite Hl by lia. rewrite Hc1. f_equal.
    replace (Z.to_nat (rr_counter (algorithm w)) + S k)%nat
      with (Z.to_nat (rr_counter (algorithm w) + 1) + k)%nat by lia. done.
Qed.

End round_robin.

(** Fairness of round robin.  From any value of the shared counter (short of
    its 64-bit wrap-around), a cycle of as many requests as the weights sum up to
    serves every backend exactly as many times as its weight. *)
Theorem round_robin_fair {Ext : Type} (bs : list (Backend Ext)) (w : Weighted Ext RoundRobin)
    (c : Z) (key : list byte) :
  weighted_build bs = Some w -> 0 <= c -> c + zlen (spread bs) < usize_mod ->
  exists l, serve (length (spread bs)) key (set_algorithm w (MkRoundRobin c)) = Some l /\
    l ≡ₚ spread bs.
Proof.
  intros Hw%weighted_build_ok Hc Hmax.
  destruct (decide (spread bs = [])) as [->|Hne]; [by exists []|].
  destruct (serve_spec (length (spread bs)) key (set_algorithm w (MkRoundRobin c)) bs)
    as (l & Hl & Hlen & Hat); [done..|].
  exists l. split; [done|]. by apply (rotation_perm _ _ (Z.to_nat c)).
Qed.

(** Round robin reaches every backend.  With a bound of one more than the
    number of backends, [select] returns a ready backend whenever there is one,
    and nothing only when none is ready. *)
Theorem round_robin_complete {Ext : Type} (bs : list (Backend Ext)) (w : Weighted Ext RoundRobin)
    (c : Z) (key : list byte) (hash_key : Backend Ext -> Z) (ready : Backend Ext -> bool)
    (max : nat) :
  weighted_build bs = Some w -> spread bs <> [] -> 0 <= c ->
  c + Z.of_nat max + 2 < usize_mod -> (length bs < max)%nat ->
  (forall x y, hash_key x = hash_key y -> ready x = ready y) ->
  exists o u', select hash_key (weighted_iter (set_algorithm w (MkRoundRobin c)) key) max ready
               = Some (o, u') /\
    match o with
    | Some b => b ∈ bs /\ ready b = true
    | None => forall b, b ∈ bs -> ready b = false
    end.
Proof.
  intros Hw%weighted_build_ok Hs Hc Hmax Hlt Hready.
  unfold weighted_iter. cbn [alg_next round_robin_algorithm].
  set (w1 := set_algorithm (set_algorithm w (MkRoundRobin c)) _).
  assert (rr_counter (algorithm w1) = c + 1) as Hc1 by (simpl; apply wadd_succ; lia).
  assert (bs <> []) as Hne by (by intros ->).
  assert (weighted_ok w1 bs) as Hok1 by done.
  destruct (weighted_first w1 bs c Hok1 Hs) as (b0 & Hb0 & Hfirst).
  destruct (fallback_spec max c w1 bs Hok1 Hne) as (l & Hl & Hlen & Hat); [lia..|].
  assert (items (S max) (MkWeightedIterator c w1 true) = Some (b0 :: l)) as Hitems.
  { cbn [items next weighted_backend_iter]. rewrite Hfirst, Hl. done. }
  destruct (select_complete hash_key _ max ready _ Hitems Hready) as (o & u' & Hsel & Ho).
  exists o, u'. split; [exact Hsel|].
  assert (forall b, b ∈ l -> b ∈ bs) as Hsub.
  { intros b (k & Hk)%list_elem_of_lookup. pose proof (lookup_lt_Some _ _ _ Hk).
    rewrite Hat in Hk by lia. by eapply list_elem_of_lookup_2. }
  apply list_elem_of_lookup_2, spread_elem in Hb0 as [Hb0 _].
  destruct max as [|max]; [lia|]. cbn [take] in Ho. destruct o as [b|].
  - destruct Ho as [Hb Hr]. split; [|done].
    apply elem_of_cons in Hb as [->|Hb]; [done|].
    apply Hsub. apply elem_of_take in Hb as (i & Hi & _). by eapply list_elem_of_lookup_2.
  - intros b Hb. apply Ho. right.
    assert (take (length bs) l ≡ₚ bs) as Hperm.
    { apply (rotation_perm _ _ (Z.to_nat (c + 1))).
      - rewrite length_take. lia.
      - intros k Hk. rewrite lookup_take_lt by done. rewrite Hat, Hc1 by lia. done. }
    rewrite <-Hperm in Hb. apply elem_of_take in Hb as (i & Hi & Hib).
    apply elem_of_take. exists i. split; [done|lia].
Qed.

(** ** Consistent hashing *)

Section consistent.
Context {Ext : Type} `{RingSort} (crc32 : list byte -> Z).
Hypothesis crc32_range : forall l, 0 <= crc32 l < u32_mod.
Implicit Types (bs : list (Backend Ext)).

Lemma buckets_elem bs l x :
  buckets bs = Some l -> x ∈ l -> exists b, b ∈ bs /\ addr b = Inet (node x).
Proof.
  revert l. induction bs as [|b bs IH]; intros l; simpl; [intros [= <-] ?%elem_of_nil; done|].
  destruct (addr b) as [a|path] eqn:Ha.
  - unfold bucket_new. destruct (_ =? 0); [done|]. destruct (buckets bs) as [l'|]; [|done].
    intros [= <-] [->|Hx]%elem_of_cons.
    + exists b. split; [left|done].
    + destruct (IH l' eq_refl Hx) as (b' & ? & ?). exists b'. split; [by right|done].
  - intros Hl Hx. destruct (IH l Hl Hx) as (b' & ? & ?). exists b'. split; [by right|done].
Qed.

Lemma buckets_len bs l : buckets bs = Some l -> zlen l <= zlen bs.
Proof.
  revert l. induction bs as [|b bs IH]; intros l; simpl; [by intros [= <-]|]. rewrite zlen_cons.
  destruct (addr b).
  - unfold bucket_new. destruct (_ =? 0); [done|]. destruct (buckets bs) as [l'|]; [|done].
    intros [= <-]. rewrite zlen_cons. specialize (IH l' eq_refl). lia.
  - intros Hl. specialize (IH l Hl). lia.
Qed.

Lemma map_get_go (l : list (SockAddr * Backend Ext)) a r :
  (exists b, (a, b) ∈ l) \/ (exists b, r = Some b) ->
  exists b, foldl (fun r e => if bool_decide (e.1 = a) then Some e.2 else r) r l = Some b /\
    ((a, b) ∈ l \/ r = Some b).
Proof.
  revert r. induction l as [|[a' b'] l IH]; intros r Hex; simpl.
  - destruct Hex as [(b & Hb)|[b ->]]; [by apply elem_of_nil in Hb|]. exists b. auto.
  - case_bool_decide as Ha.
    + simpl in Ha. subst a'. destruct (IH (Some b') ltac:(right; eauto)) as (b & -> & [Hb|[= ->]]).
      * exists b. split; [done|left; by right].
      * exists b. split; [done|left; left].
    + destruct (IH r) as (b & -> & Hb).
      { destruct Hex as [(b & Hb)|?]; [|by right]. left. exists b.
        apply elem_of_cons in Hb as [[= <- _]|Hb]; done. }
      exists b. split; [done|]. destruct Hb as [?|?]; [left; by right|by right].
Qed.

Lemma map_get_spec bs a :
  (exists b, b ∈ bs /\ addr b = a) ->
  exists b, map_get (map (fun b => (addr b, b)) bs) a = Some b /\ b ∈ bs /\ addr b = a.
Proof.
  intros (b0 & Hb0 & Ha0).
  destruct (map_get_go (map (fun b => (addr b, b)) bs) a None) as (b & Hget & [Hb|]); [|  |done].
  - left. exists b0. apply list_elem_of_fmap. exists b0. by rewrite Ha0.
  - apply list_elem_of_fmap in Hb as (b' & [= -> ->] & Hb'). exists b'. by repeat split.
Qed.

(** A built selector. *)
Definition ketama_ok (k : KetamaHashing Ext) bs : Prop :=
  exists l v, buckets bs = Some l /\ ring_of crc32 l v (k_ring k) /\
    k_backends k = map (fun b => (addr b, b)) bs.

Lemma ketama_build_ok v2 bs pm k :
  build_with_config crc32 v2 bs pm = Some k -> zlen bs <= u16_mod -> ketama_ok k bs.
Proof.
  unfold build_with_config. destruct (buckets bs) as [l|] eqn:Hl; [|done].
  intros [= <-] Hlen. exists l, (ketama_version v2 pm). split_and!; [done| |done].
  apply new_with_version_ring; [done|]. pose proof (buckets_len bs l Hl). lia.
Qed.

(** The backend at the [i]-th point of the ring. *)
Definition ring_backend (k : KetamaHashing Ext) (i : nat) : option (Backend Ext) :=
  ring_addr (k_ring k) i ≫= fun a => map_get (k_backends k) (Inet a).

Lemma ketama_items n bs k i :
  ketama_ok k bs -> (i < ring_len (ring (k_ring k)))%nat ->
  exists l, items n (MkOwned i k) = Some l /\ length l = n /\ Forall (fun b => b ∈ bs) l /\
    forall j, (j < n)%nat -> l !! j = ring_backend k ((i + j) mod ring_len (ring (k_ring k)))%nat.
Proof.
  intros (bk & v & Hbk & Hring & Hmap). revert i.
  induction n as [|n IH]; intros i Hi.
  { exists []. split_and!; [done|done|constructor|]. intros; lia. }
  cbn [items next ketama_backend_iter]. unfold ketama_next. simpl (o_ring _). simpl (o_idx _).
  destruct (get_addr_step crc32 bk v (k_ring k) i Hring Hi) as (a & -> & Ha).
  assert (exists b, map_get (k_backends k) (Inet a) = Some b /\ b ∈ bs /\ addr b = Inet a)
    as (b & Hget & Hb & _).
  { rewrite Hmap. apply map_get_spec. unfold ring_addr in Ha.
    destruct (ring_nodes _ !! i) as [m|]; [|done]. simpl in Ha.
    destruct Hring as (_ & Haddrs & _). rewrite Haddrs in Ha.
    apply list_elem_of_lookup_2, list_elem_of_fmap in Ha as (x & -> & Hx).
    by eapply buckets_elem. }
  rewrite Hget.
  destruct (IH ((i + 1) mod ring_len (ring (k_ring k)))%nat) as (l & -> & Hlen & Hin & Hat).
  { apply Nat.mod_upper_bound. lia. }
  exists (b :: l). split_and!; [done|simpl; by rewrite Hlen|by constructor|].
  intros [|j] Hj; simpl.
  - rewrite Nat.add_0_r, Nat.mod_small by done. unfold ring_backend. by rewrite Ha.
  - rewrite Hat by lia. rewrite Nat.Div0.add_mod_idemp_l.
    by replace (i + 1 + j)%nat with (i + S j)%nat by lia.
Qed.

End consistent.

(** Search on the ring.  With a bound of at least the number of points of
    the ring, [select] does not panic, returns only ready backends, starts at the
    key's server, and returns nothing only when the backend of every point is
    not ready. *)
Theorem ketama_select_complete {Ext : Type} `{RingSort} (crc32 : list byte -> Z) (v2 : bool)
    (bs : list (Backend Ext)) (pm : option Z) (k : KetamaHashing Ext) (key : list byte)
    (hash_key : Backend Ext -> Z) (ready : Backend Ext -> bool) (max : nat) :
  (forall l, 0 <= crc32 l < u32_mod) -> zlen bs <= u16_mod ->
  build_with_config crc32 v2 bs pm = Some k ->
  (0 < ring_len (ring (k_ring k)) <= max)%nat ->
  (forall x y, hash_key x = hash_key y -> ready x = ready y) ->
  exists o u', select hash_key (ketama_iter crc32 k key) max ready = Some (o, u') /\
    match o with
    | Some b => b ∈ bs /\ ready b = true
    | None => forall i b, ring_backend k i = Some b -> ready b = false
    end.
Proof.
  intros Hc Hlen Hk [Hpos Hmax] Hready.
  pose proof (ketama_build_ok crc32 Hc v2 bs pm k Hk Hlen) as Hok.
  assert (node_idx crc32 (k_ring k) key < ring_len (ring (k_ring k)))%nat as Hidx.
  { destruct Hok as (l & v & _ & (Hs & _) & _). by apply ring_node_idx_lt. }
  destruct (ketama_items crc32 (S max) bs k _ Hok Hidx) as (l & Hl & Hlenl & Hin & Hat).
  destruct (select_complete hash_key (ketama_iter crc32 k key) max ready l Hl Hready)
    as (o & u' & Hsel & Ho).
  exists o, u'. split; [exact Hsel|]. destruct o as [b|].
  - destruct Ho as [(i & Hi & _)%elem_of_take Hr]. split; [|done].
    rewrite Forall_forall in Hin. apply Hin. by eapply list_elem_of_lookup_2.
  - intros i b Hb. apply Ho. set (n := ring_len (ring (k_ring k))) in *.
    set (s := node_idx crc32 (k_ring k) key) in *.
    assert (i < n)%nat as Hi.
    { unfold ring_backend, ring_addr in Hb. destruct (ring_nodes _ !! i) eqn:Hn; [|done].
      apply lookup_lt_Some in Hn. by rewrite ring_nodes_length in Hn. }
    assert (exists j, (j < n)%nat /\ ((s + j) mod n = i)%nat) as (j & Hj & Hji).
    { by apply rotate_index. }
    apply elem_of_take. exists j. split; [|lia]. rewrite Hat, Hji by lia. done.
Qed.

(** ** Instances and witnesses *)

Definition srv (a b c d w : Z) : Backend unit := MkBackend (Inet (SaV4 (IpV4 a b c d) 80)) w tt.
Definition last_octet (b : Backend unit) : Z :=
  match addr b with Inet (SaV4 (IpV4 _ _ _ d) _) => d | _ => -1 end.

(** The crate's test of round robin: weights 8, 1, 1. *)
Definition rr3 : list (Backend unit) := [srv 1 0 0 1 8; srv 1 0 0 255 1; srv 1 1 1 1 1].
Definition rr3_weighted : Weighted unit RoundRobin :=
  MkWeighted rr3 (weighted_indices 0 rr3) (MkRoundRobin 0).

Example round_robin_test :
  items 5 (weighted_iter rr3_weighted (bytes_of "test"))
  = Some [srv 1 0 0 1 8; srv 1 0 0 255 1; srv 1 1 1 1 1; srv 1 0 0 1 8; srv 1 0 0 255 1] /\
  serve 7 (bytes_of "test1") (set_algorithm rr3_weighted (MkRoundRobin 5))
  = Some [srv 1 0 0 1 8; srv 1 0 0 1 8; srv 1 0 0 1 8; srv 1 0 0 255 1; srv 1 1 1 1 1;
          srv 1 0 0 1 8; srv 1 0 0 1 8].
Proof. split; vm_compute; reflexivity. Qed.

(** FNV-1a of 64 bits, the default algorithm, on the crate's test. *)
Definition fnv1a (l : list byte) : Z :=
  foldl (fun h b => (Z.lxor h (byte_val b) * 1099511628211) mod usize_mod)
        14695981039346656037 l.
Definition fnv3 : list (Backend unit) := [srv 1 0 0 1 10; srv 1 0 0 255 1; srv 1 1 1 1 1].

Example fnv_test :
  let alg := hashed_algorithm fnv1a in
  items 11 (weighted_iter (MkWeighted fnv3 (weighted_indices 0 fnv3) (MkHashed fnv1a)) (bytes_of "test"))
  = Some (map (fun i => nth i fnv3 (srv 0 0 0 0 0)) [0; 0; 0; 2; 1; 0; 0; 2; 0; 1; 2]%nat).
Proof. vm_compute. reflexivity. Qed.

Lemma select_with_first_witness :
  exists u', select_with last_octet (weighted_iter rr3_weighted (bytes_of "k")) 4
               (fun b _ => negb (last_octet b =? 1)) (fun _ => true)
             = Some (Some (srv 1 0 0 255 1), u').
Proof.
  destruct (select_with_first last_octet (weighted_iter rr3_weighted (bytes_of "k")) 4
              (fun b _ => negb (last_octet b =? 1)) (fun _ => true)
              [srv 1 0 0 1 8; srv 1 0 0 255 1; srv 1 1 1 1 1; srv 1 0 0 1 8; srv 1 0 0 255 1])
    as [(u' & Hu) _]; [vm_compute; reflexivity|].
  exists u'. exact Hu.
Defined.

Lemma weighted_selection_safe_witness :
  exists l, items 6 (weighted_iter rr3_weighted (bytes_of "k")) = Some l /\ length l = 6%nat.
Proof.
  destruct (weighted_selection_safe (A:=RoundRobin) rr3 rr3_weighted (bytes_of "k") 6)
    as (l & Hl & _ & Hlen & _); [vm_compute; reflexivity|].
  exists l. split; [exact Hl|]. apply Hlen. left. vm_compute. reflexivity.
Defined.

Lemma round_robin_fair_witness :
  exists l, serve 10 (bytes_of "k") (set_algorithm rr3_weighted (MkRoundRobin 7)) = Some l /\
    l ≡ₚ spread rr3.
Proof.
  apply (round_robin_fair rr3 rr3_weighted 7 (bytes_of "k"));
    [vm_compute; reflexivity|lia|vm_compute; reflexivity].
Defined.

Lemma round_robin_complete_witness :
  exists o u', select last_octet
      (weighted_iter (set_algorithm rr3_weighted (MkRoundRobin 3)) (bytes_of "k")) 4
      (fun b => last_octet b =? 255) = Some (o, u') /\ o <> None.
Proof.
  destruct (round_robin_complete rr3 rr3_weighted 3 (bytes_of "k") last_octet
              (fun b => last_octet b =? 255) 4) as (o & u' & Hsel & Ho).
  - vm_compute. reflexivity.
  - vm_compute. discriminate.
  - lia.
  - vm_compute. reflexivity.
  - vm_compute. lia.
  - intros x y Hxy. by rewrite Hxy.
  - exists o, u'. split; [exact Hsel|]. intros ->.
    specialize (Ho (srv 1 0 0 255 1) ltac:(right; left)). vm_compute in Ho. discriminate.
Defined.

Definition two_servers : list (Backend unit) := [srv 127 0 0 1 1; srv 127 0 0 2 1].
Definition two_ring : KetamaHashing unit :=
  MkKetama (new_with_version crc32_ieee
              [MkBucket (SaV4 (IpV4 127 0 0 1) 80) 1; MkBucket (SaV4 (IpV4 127 0 0 2) 80) 1] (V2 2))
           (map (fun b => (addr b, b)) two_servers).

Lemma ketama_select_complete_witness :
  exists o u', select last_octet (ketama_iter crc32_ieee two_ring (bytes_of "k")) 4
                 (fun b => last_octet b =? 2) = Some (o, u') /\ o <> None.
Proof.
  destruct (ketama_select_complete crc32_ieee true two_servers (Some 2) two_ring
              (bytes_of "k") last_octet (fun b => last_octet b =? 2) 4) as (o & u' & Hsel & Ho).
  - exact crc32_ieee_range.
  - vm_compute. discriminate.
  - vm_compute. reflexivity.
  - vm_compute. lia.
  - intros x y Hxy. by rewrite Hxy.
  - exists o, u'. split; [exact Hsel|]. intros ->.
    specialize (Ho 3%nat (srv 127 0 0 2 1) ltac:(vm_compute; reflexivity)).
    vm_compute in Ho. discriminate Ho.
Defined.
