(* ===== verification/CacheControl.v ===== *)
(** * Cache-Control

    [src/pingora-cache/src/cache_control.rs]: the directives of a Cache-Control
    header, their parser, and their reading by a shared cache
    ([InterpretCacheControl]).

    The regular expression [RE_CACHE_DIRECTIVE] is translated into the scanner
    it denotes: its parts are such that a match never has to be undone, so
    leftmost-first matching takes one pass.  Unicode lowercasing and the parser
    of floating point text are parameters; a header map ([http::HeaderMap]) is
    whatever satisfies [HeaderMap]. *)

From stdpp Require Import base list numbers strings.
From Stdlib Require Import ZArith Lia.
From Stdlib Require Import Floats.SpecFloat.
From S2P Require Import Prelude Errors Ketama Limits.
Local Open Scope Z_scope.

(** ** Header maps *)

(** Names are in lower case, as [HeaderName] keeps them. *)
Class HeaderMap (M : Type) := {
  get_all : M -> list byte -> list (list byte);
  remove_header : M -> list byte -> M;
  insert_header : M -> list byte -> list byte -> M;
  append_header : M -> list byte -> list byte -> M;
  (** [HeaderName::from_bytes]: a valid name, in lower case. *)
  header_name : list byte -> option (list byte);
  get_all_remove : forall m k, get_all (remove_header m k) k = [];
  get_all_remove_ne : forall m k k', k <> k' -> get_all (remove_header m k) k' = get_all m k';
  get_all_insert : forall m k v, get_all (insert_header m k v) k = [v];
  get_all_insert_ne : forall m k k' v, k <> k' -> get_all (insert_header m k v) k' = get_all m k';
  get_all_append : forall m k v, get_all (append_header m k v) k = get_all m k ++ [v];
  get_all_append_ne : forall m k k' v, k <> k' -> get_all (append_header m k v) k' = get_all m k'
}.

Definition header_get {M} `{HeaderMap M} (m : M) (k : list byte) : option (list byte) :=
  head (get_all m k).
Definition contains_key {M} `{HeaderMap M} (m : M) (k : list byte) : bool :=
  match get_all m k with [] => false | _ => true end.

(** ** Directives *)

Definition DELTA_SECONDS_OVERFLOW_VALUE : Z := 2 ^ 31 - 1.

Inductive DirectiveKey :=
| MaxAge | SMaxAge | NoCache | NoStore | Private | Public | MustRevalidate
| ProxyRevalidate | MustUnderstand | NoTransform | Immutable
| StaleWhileRevalidate | StaleIfError | OnlyIfCached
| Unknown (s : list byte).

#[export] Instance DirectiveKey_eq_dec : EqDecision DirectiveKey.
Proof. solve_decision. Defined.

Definition as_str (k : DirectiveKey) : list byte :=
  match k with
  | MaxAge => bytes_of "max-age"
  | SMaxAge => bytes_of "s-maxage"
  | NoCache => bytes_of "no-cache"
  | NoStore => bytes_of "no-store"
  | Private => bytes_of "private"
  | Public => bytes_of "public"
  | MustRevalidate => bytes_of "must-revalidate"
  | ProxyRevalidate => bytes_of "proxy-revalidate"
  | MustUnderstand => bytes_of "must-understand"
  | NoTransform => bytes_of "no-transform"
  | Immutable => bytes_of "immutable"
  | StaleWhileRevalidate => bytes_of "stale-while-revalidate"
  | StaleIfError => bytes_of "stale-if-error"
  | OnlyIfCached => bytes_of "only-if-cached"
  | Unknown s => s
  end.

Definition known_keys : list DirectiveKey :=
  [MaxAge; SMaxAge; NoCache; NoStore; Private; Public; MustRevalidate; ProxyRevalidate;
   MustUnderstand; NoTransform; Immutable; StaleWhileRevalidate; StaleIfError; OnlyIfCached].

(** [from_lowercase] and [from_lowercase_owned]. *)
Definition from_lowercase (s : list byte) : DirectiveKey :=
  match find (fun k => bool_decide (as_str k = s)) known_keys with
  | Some k => k
  | None => Unknown s
  end.

(** ** Values *)

Definition DQUOTE : byte := Byte.x22.
Definition BACKSLASH : byte := Byte.x5c.
Definition COMMA : byte := Byte.x2c.
Definition SEMICOLON : byte := Byte.x3b.
Definition EQUALS : byte := Byte.x3d.

(** [parse_as_bytes]: the value without its quotes, if it has both. *)
Definition parse_as_bytes (v : list byte) : list byte :=
  match v with
  | b :: rest =>
      if bool_decide (b = DQUOTE) then
        match last rest with
        | Some e => if bool_decide (e = DQUOTE) then removelast rest else v
        | None => v
        end
      else v
  | [] => v
  end.

(** [str::parse::<u32>]: an optional plus sign, then digits; the first problem
    from the left decides the error. *)
Inductive IntErrorKind := Empty | InvalidDigit | PosOverflow.

Definition to_digit (b : byte) : option Z :=
  if (48 <=? byte_val b) && (byte_val b <=? 57) then Some (byte_val b - 48) else None.

Fixpoint parse_digits (acc : Z) (l : list byte) : Z + IntErrorKind :=
  match l with
  | [] => inl acc
  | b :: l =>
      match to_digit b with
      | None => inr InvalidDigit
      | Some d =>
          let r := acc * 10 + d in
          if r <? u32_mod then parse_digits r l else inr PosOverflow
      end
  end.

Definition parse_u32 (l : list byte) : Z + IntErrorKind :=
  match l with
  | [] => inr Empty
  | [b] => if bool_decide (b = Byte.x2b) then inr InvalidDigit else parse_digits 0 l
  | b :: rest => if bool_decide (b = Byte.x2b) then parse_digits 0 rest else parse_digits 0 l
  end.

(** ** Text: UTF-8, lower case and floats are the standard library's *)

Class Text := {
  (** [str::from_utf8] and [to_lowercase]; [None]: not UTF-8. *)
  to_lowercase : list byte -> option (list byte);
  is_utf8 : list byte -> bool;
  parse_f64 : list byte -> option f64
}.

(** [f.is_finite() && f >= 0.0], and [f.floor()] of such an [f]. *)
Definition f64_nonneg_finite (f : f64) : bool :=
  match f with
  | S754_zero _ => true
  | S754_finite s _ _ => negb s
  | _ => false
  end.
Definition f64_floor (f : f64) : Z :=
  match f with
  | S754_finite s m e =>
      let v := if s then Z.neg m else Z.pos m in
      if 0 <=? e then v * 2 ^ e else v / 2 ^ (- e)
  | _ => 0
  end.
(** [f >= DELTA_SECONDS_OVERFLOW_VALUE as f64], an integer in range. *)
Definition f64_ge_overflow (f : f64) : bool := DELTA_SECONDS_OVERFLOW_VALUE <=? f64_floor f.

Section values.
Context `{Text}.

Definition parse_as_str (v : list byte) : option (list byte) :=
  let s := parse_as_bytes v in if is_utf8 s then Some s else None.

(** [None] is the error ([InternalError]). *)
Definition parse_as_delta_seconds (v : list byte) : option Z :=
  match parse_as_str v with
  | None => None
  | Some s =>
      match parse_u32 s with
      | inl value => Some value
      | inr PosOverflow => Some DELTA_SECONDS_OVERFLOW_VALUE
      | inr _ => None
      end
  end.

Definition parse_as_delta_seconds_floor (v : list byte) : option Z :=
  match parse_as_str v with
  | None => None
  | Some s =>
      match parse_u32 s with
      | inl value => Some value
      | inr PosOverflow => Some DELTA_SECONDS_OVERFLOW_VALUE
      | inr _ =>
          match parse_f64 s with
          | Some f =>
              if f64_nonneg_finite f then
                if f64_ge_overflow f then Some DELTA_SECONDS_OVERFLOW_VALUE
                else Some (f64_floor f)
              else None
          | None => None
          end
      end
  end.

End values.

(** ** Lists of field names *)

Definition is_ows (b : byte) : bool := bool_decide (b = Byte.x20) || bool_decide (b = Byte.x09).

(** [trim_ows]: [position] and [rposition] of what is not white space. *)
Fixpoint position (p : byte -> bool) (l : list byte) : option nat :=
  match l with
  | [] => None
  | b :: l => if p b then Some 0%nat else S <$> position p l
  end.
Fixpoint rposition (p : byte -> bool) (l : list byte) : option nat :=
  match l with
  | [] => None
  | b :: l => match rposition p l with
              | Some i => Some (S i)
              | None => if p b then Some 0%nat else None
              end
  end.
Definition trim_ows (l : list byte) : list byte :=
  let head := default 0%nat (position (fun b => negb (is_ows b)) l) in
  let tail := match rposition (fun b => negb (is_ows b)) l with
              | Some r => S r
              | None => head
              end in
  take (tail - head) (drop head l).

(** [slice::split] *)
Fixpoint split_on (sep : byte) (l : list byte) : list (list byte) :=
  match l with
  | [] => [[]]
  | b :: l =>
      if bool_decide (b = sep) then [] :: split_on sep l
      else match split_on sep l with
           | part :: parts => (b :: part) :: parts
           | [] => [[b]]
           end
  end.

(** The items of [ListValueIter]. *)
Definition list_values (v : list byte) : list (list byte) :=
  map trim_ows (split_on COMMA (parse_as_bytes v)).

(** ** The scanner of [RE_CACHE_DIRECTIVE] *)

(** [\s] of an ASCII pattern. *)
Definition re_space (b : byte) : bool :=
  let v := byte_val b in ((9 <=? v) && (v <=? 13)) || (v =? 32).

(** The class of token characters: no control character, space or delimiter. *)
Definition delimiters : list byte :=
  [Byte.x28; Byte.x29; Byte.x3c; Byte.x3e; Byte.x40; Byte.x2c; Byte.x3b; Byte.x3a; Byte.x5c;
   Byte.x22; Byte.x2f; Byte.x5b; Byte.x5d; Byte.x3f; Byte.x3d; Byte.x7b; Byte.x7d].
Definition token_char (b : byte) : bool :=
  (32 <? byte_val b) && negb (byte_val b =? 127) && negb (bool_decide (b ∈ delimiters)).

Fixpoint span (p : byte -> bool) (l : list byte) : list byte * list byte :=
  match l with
  | [] => ([], [])
  | b :: rest => if p b then let '(x, y) := span p rest in (b :: x, y) else ([], l)
  end.

(** What follows the opening quote of a quoted-string, up to its closing one:
    characters other than quote and backslash, or a backslash and any character
    but a line feed. *)
Fixpoint quoted_rest (l : list byte) : option (list byte * list byte) :=
  match l with
  | [] => None
  | b :: rest =>
      if bool_decide (b = DQUOTE) then Some ([b], rest)
      else if bool_decide (b = BACKSLASH) then
        match rest with
        | [] => None
        | c :: rest' =>
            if bool_decide (c = LF) then None
            else match quoted_rest rest' with
                 | Some (q, r) => Some (b :: c :: q, r)
                 | None => None
                 end
        end
      else match quoted_rest rest with
           | Some (q, r) => Some (b :: q, r)
           | None => None
           end
  end.

(** A token or a quoted-string. *)
Definition value_at (l : list byte) : option (list byte * list byte) :=
  match span token_char l with
  | ([], _) =>
      match l with
      | b :: rest =>
          if bool_decide (b = DQUOTE) then
            match quoted_rest rest with
            | Some (q, r) => Some (b :: q, r)
            | None => None
            end
          else None
      | [] => None
      end
  | (t, r) => Some (t, r)
  end.

(** A name, and a value if an equals sign and one follow. *)
Definition directive_at (l : list byte) : option (list byte * option (list byte) * list byte) :=
  match span token_char l with
  | ([], _) => None
  | (t, r) =>
      match r with
      | b :: r' =>
          if bool_decide (b = EQUALS) then
            match value_at r' with
            | Some (v, r'') => Some (t, Some v, r'')
            | None => Some (t, None, r)
            end
          else Some (t, None, r)
      | [] => Some (t, None, r)
      end
  end.

(** [\s*[,;]\s*] *)
Definition delim_at (l : list byte) : option (list byte) :=
  match (span re_space l).2 with
  | b :: r => if bool_decide (b = COMMA) || bool_decide (b = SEMICOLON)
              then Some (span re_space r).2 else None
  | [] => None
  end.

Definition match_at (at_start : bool) (l : list byte)
  : option (list byte * option (list byte) * list byte) :=
  match (if at_start then directive_at l else None) with
  | Some m => Some m
  | None => match delim_at l with Some r => directive_at r | None => None end
  end.

(** [captures_iter]: one match after the other; each round consumes a byte. *)
Fixpoint captures_go (fuel : nat) (at_start : bool) (l : list byte)
  : list (list byte * option (list byte)) :=
  match fuel with
  | O => []
  | S fuel =>
      match match_at at_start l with
      | Some (name, value, rest) => (name, value) :: captures_go fuel false rest
      | None => match l with [] => [] | _ :: l => captures_go fuel false l end
      end
  end.
Definition captures_iter (l : list byte) : list (list byte * option (list byte)) :=
  captures_go (S (length l)) true l.

(** ** CacheControl *)

(** [IndexMap]: inserting a key that is there replaces its value. *)
Definition DirectiveMap : Type := list (DirectiveKey * option (list byte)).

Fixpoint dir_get (d : DirectiveMap) (k : DirectiveKey) : option (option (list byte)) :=
  match d with
  | [] => None
  | (k', v) :: d => if bool_decide (k' = k) then Some v else dir_get d k
  end.
Fixpoint dir_insert (d : DirectiveMap) (k : DirectiveKey) (v : option (list byte)) : DirectiveMap :=
  match d with
  | [] => [(k, v)]
  | (k', v') :: d => if bool_decide (k' = k) then (k, v) :: d else (k', v') :: dir_insert d k v
  end.

Record CacheControl := MkCacheControl {
  directives : DirectiveMap;
  allow_float_seconds : bool
}.

Inductive Cacheable := Yes | No | Default.

#[export] Instance Cacheable_eq_dec : EqDecision Cacheable.
Proof. solve_decision. Defined.

Section cache_control.
Context `{Text} {M : Type} `{HeaderMap M}.

(** One directive of a line; a name that is not UTF-8 is skipped. *)
Definition add_directive (d : DirectiveMap) (c : list byte * option (list byte)) : DirectiveMap :=
  match to_lowercase c.1 with
  | None => d
  | Some name => dir_insert d (from_lowercase name) c.2
  end.

Definition from_headers (lines : list (list byte)) : CacheControl :=
  MkCacheControl (foldl add_directive [] (concat (map captures_iter lines))) false.

Definition with_float_seconds (cc : CacheControl) : CacheControl :=
  MkCacheControl (directives cc) true.

Definition from_headers_named (name : list byte) (headers : M) : option CacheControl :=
  if contains_key headers name then Some (from_headers (get_all headers name)) else None.

(** [from_req_headers] and [from_resp_headers]. *)
Definition from_resp_headers (headers : M) : option CacheControl :=
  from_headers_named (bytes_of "cache-control") headers.

Definition has_directive (cc : CacheControl) (k : DirectiveKey) : bool :=
  match dir_get (directives cc) k with Some _ => true | None => false end.
Definition has_key (cc : CacheControl) (k : list byte) : bool := has_directive cc (from_lowercase k).
Definition public (cc : CacheControl) : bool := has_directive cc Public.
Definition has_key_without_value (cc : CacheControl) (k : DirectiveKey) : bool :=
  match dir_get (directives cc) k with Some None => true | _ => false end.
Definition private (cc : CacheControl) : bool := has_key_without_value cc Private.
Definition get_field_names (cc : CacheControl) (k : DirectiveKey) : option (list (list byte)) :=
  match dir_get (directives cc) k with
  | Some (Some value) => Some (list_values value)
  | _ => None
  end.
Definition private_field_names (cc : CacheControl) := get_field_names cc Private.
Definition no_cache (cc : CacheControl) : bool := has_key_without_value cc NoCache.
Definition no_cache_field_names (cc : CacheControl) := get_field_names cc NoCache.
Definition no_store (cc : CacheControl) : bool := has_directive cc NoStore.

(** [Result<Option<u32>>]: the outer [None] is the error. *)
Definition parse_delta_seconds (cc : CacheControl) (k : DirectiveKey) : option (option Z) :=
  match dir_get (directives cc) k with
  | Some (Some v) =>
      match (if allow_float_seconds cc then parse_as_delta_seconds_floor v
             else parse_as_delta_seconds v) with
      | Some value => Some (Some value)
      | None => None
      end
  | _ => Some None
  end.
Definition max_age (cc : CacheControl) := parse_delta_seconds cc MaxAge.
Definition s_maxage (cc : CacheControl) := parse_delta_seconds cc SMaxAge.
Definition stale_while_revalidate (cc : CacheControl) := parse_delta_seconds cc StaleWhileRevalidate.
Definition stale_if_error (cc : CacheControl) := parse_delta_seconds cc StaleIfError.
Definition must_revalidate (cc : CacheControl) : bool := has_directive cc MustRevalidate.
Definition proxy_revalidate (cc : CacheControl) : bool := has_directive cc ProxyRevalidate.
Definition only_if_cached (cc : CacheControl) : bool := has_directive cc OnlyIfCached.

(** *** Reading by a shared cache; durations are in seconds *)

Definition is_cacheable (cc : CacheControl) : Cacheable :=
  if no_store cc || private cc then No
  else if has_directive cc SMaxAge || has_directive cc MaxAge || public cc then Yes
  else Default.

Definition allow_caching_authorized_req (cc : CacheControl) : bool :=
  must_revalidate cc || public cc || has_directive cc SMaxAge.

Definition fresh_duration (cc : CacheControl) : option Z :=
  if no_cache cc then Some 0
  else
    match s_maxage cc with
    | None => None
    | Some (Some s) => Some s
    | Some None => default None (max_age cc)
    end.

Definition forbids_stale (cc : CacheControl) : bool :=
  must_revalidate cc || proxy_revalidate cc || has_directive cc SMaxAge.

Definition serve_stale_while_revalidate_duration (cc : CacheControl) : option Z :=
  if forbids_stale cc then Some 0 else default None (stale_while_revalidate cc).

Definition serve_stale_if_error_duration (cc : CacheControl) : option Z :=
  if forbids_stale cc then Some 0 else default None (stale_if_error cc).

Definition strip_listed_headers (resp : M) (field_names : list (list byte)) : M :=
  foldl (fun r name => match header_name name with
                       | Some h => remove_header r h
                       | None => r
                       end) resp field_names.

Definition strip_private_headers (cc : CacheControl) (resp : M) : M :=
  let resp := match private_field_names cc with
              | Some names => strip_listed_headers resp names
              | None => resp
              end in
  match no_cache_field_names cc with
  | Some names => strip_listed_headers resp names
  | None => resp
  end.

End cache_control.
