(* ===== verification/CacheControlSpec.v ===== *)
(** * Cache-Control: what the parser accepts

    A line made of directives (a name, with or without a token or quoted-string
    value) separated by commas or semicolons with any white space around them is
    scanned into exactly these directives. *)

From stdpp Require Import base list numbers strings.
From Stdlib Require Import ZArith Lia.
From S2P Require Import Prelude Ketama CacheControl.
Local Open Scope Z_scope.

(** ** Runs of characters *)



(** ** The grammar *)





















