(* ===== verification/CacheMeta.v ===== *)
(** * Cache metadata and admission policy

    [src/pingora-cache/src/meta.rs] (the metadata of a cached response and its
    freshness), [filters.rs] (whether a response may be stored and until when it
    is fresh), [variance.rs] (the key of a variant) and [max_file_size.rs].

    A [SystemTime] is the number of nanoseconds since the epoch; its seconds are
    an [i64].  HTTP dates, the hash function and the header map are parameters.
    The binary encoding of metadata ([rmp_serde]) is not modelled. *)

From stdpp Require Import base list numbers strings gmap.
From Stdlib Require Import ZArith Lia.
From S2P Require Import Prelude Ketama CacheControl.
Local Open Scope Z_scope.

(** ** Time *)

Definition nanos_per_sec : Z := 1000000000.
Definition UNIX_EPOCH : Z := 0.

(** [checked_add] and [checked_sub] of a duration in seconds. *)
Definition checked_add_secs (t secs : Z) : option Z :=
  let r := t + secs * nanos_per_sec in
  if r / nanos_per_sec <=? 2 ^ 63 - 1 then Some r else None.
Definition checked_sub_secs (t secs : Z) : option Z :=
  let r := t - secs * nanos_per_sec in
  if - 2 ^ 63 <=? r / nanos_per_sec then Some r else None.

(** [duration_since], in nanoseconds; the error is a time before [earlier]. *)
Definition duration_since (t earlier : Z) : option Z :=
  if earlier <=? t then Some (t - earlier) else None.

(** ** Reasons not to cache *)

Inductive NoCacheReason :=
| NeverEnabled | OriginNotCache | ResponseTooLarge | PredictedResponseTooLarge
| StorageError | InternalError | Deferred | DeclinedToUpstream | UpstreamError
| CacheLockGiveUp | CacheLockTimeout | CacheLockRetryLimit
| CustomReason (name : list byte).

#[export] Instance NoCacheReason_eq_dec : EqDecision NoCacheReason.
Proof. solve_decision. Defined.

(** ** Metadata *)

Definition HashBinary : Type := list byte.

Record InternalMeta := MkInternalMeta {
  version : Z;
  fresh_until : Z;
  created : Z;
  updated : Z;
  stale_while_revalidate_sec : Z;
  stale_if_error_sec : Z;
  variance : option HashBinary;
  epoch_override : option Z;
  provenance_field : option Z
}.

Definition META_VERSION : Z := 2.

Record ResponseHeader (M : Type) := MkResponseHeader { status : Z; headers : M }.
Arguments MkResponseHeader {M}.
Arguments status {M}.
Arguments headers {M}.

(** The type map of [http::Extensions]: the value kept for a type, both opaque. *)
Definition Extensions : Type := gmap Z Z.

Record CacheMeta (M : Type) := MkCacheMeta {
  internal : InternalMeta;
  header : ResponseHeader M;
  extensions : Extensions
}.
Arguments MkCacheMeta {M}.
Arguments internal {M}.
Arguments header {M}.
Arguments extensions {M}.

Section meta.
Context {M : Type}.
Implicit Types (m : CacheMeta M).

Definition meta_new (fresh_until created swr sie : Z) (h : ResponseHeader M) : CacheMeta M :=
  MkCacheMeta
    {| version := META_VERSION; fresh_until := fresh_until; created := created;
       updated := created; stale_while_revalidate_sec := swr; stale_if_error_sec := sie;
       variance := None; epoch_override := None; provenance_field := Some created |} h ∅.

Definition upd_internal m (f : InternalMeta -> InternalMeta) : CacheMeta M :=
  MkCacheMeta (f (internal m)) (header m) (extensions m).

Definition provenance m : Z := default (created (internal m)) (provenance_field (internal m)).

Definition set_provenance m (p : Z) : CacheMeta M :=
  upd_internal m (fun i => MkInternalMeta (version i) (fresh_until i) (created i) (updated i)
    (stale_while_revalidate_sec i) (stale_if_error_sec i) (variance i) (epoch_override i) (Some p)).
Definition reset_provenance_to_created m : CacheMeta M := set_provenance m (created (internal m)).

Definition epoch m : Z := default (updated (internal m)) (epoch_override (internal m)).

Definition put_epoch_override m (e : option Z) : CacheMeta M :=
  upd_internal m (fun i => MkInternalMeta (version i) (fresh_until i) (created i) (updated i)
    (stale_while_revalidate_sec i) (stale_if_error_sec i) (variance i) e (provenance_field i)).
Definition set_epoch_override m (e : Z) : CacheMeta M := put_epoch_override m (Some e).
Definition remove_epoch_override m : CacheMeta M := put_epoch_override m None.

Definition is_fresh m (time : Z) : bool := time <=? fresh_until (internal m).

Definition fresh_sec m : Z :=
  match duration_since (fresh_until (internal m)) (epoch m) with
  | Some d => d / nanos_per_sec
  | None => 0
  end.

Definition age m (now : Z) : Z := default 0 (duration_since now (epoch m)).

Definition can_serve_stale m (serve_stale_sec time : Z) : bool :=
  if serve_stale_sec =? 0 then false
  else match checked_add_secs (fresh_until (internal m)) serve_stale_sec with
       | Some stale_until => time <=? stale_until
       | None => true
       end.

Definition serve_stale_while_revalidate m (time : Z) : bool :=
  can_serve_stale m (stale_while_revalidate_sec (internal m)) time.
Definition serve_stale_if_error m (time : Z) : bool :=
  can_serve_stale m (stale_if_error_sec (internal m)) time.

Definition disable_serve_stale m : CacheMeta M :=
  upd_internal m (fun i => MkInternalMeta (version i) (fresh_until i) (created i) (updated i)
    0 0 (variance i) (epoch_override i) (provenance_field i)).

Definition expire_at m (instant : Z) : CacheMeta M :=
  upd_internal m (fun i => MkInternalMeta (version i) (Z.min (fresh_until i) instant) (created i)
    (updated i) (stale_while_revalidate_sec i) (stale_if_error_sec i) (variance i)
    (epoch_override i) (provenance_field i)).

Definition update_freshness m (now fresh_until swr sie : Z) : CacheMeta M :=
  upd_internal m (fun i => MkInternalMeta (version i) fresh_until (created i) now swr sie
    (variance i) (epoch_override i) (provenance_field i)).

Definition put_variance m (v : option HashBinary) : CacheMeta M :=
  upd_internal m (fun i => MkInternalMeta (version i) (fresh_until i) (created i) (updated i)
    (stale_while_revalidate_sec i) (stale_if_error_sec i) v (epoch_override i)
    (provenance_field i)).
Definition set_variance m (v : HashBinary) : CacheMeta M := put_variance m (Some v).
Definition remove_variance m : CacheMeta M := put_variance m None.

(** What a revalidation keeps of the old metadata ([created], provenance). *)
Definition set_created m (t : Z) : CacheMeta M :=
  upd_internal m (fun i => MkInternalMeta (version i) (fresh_until i) t (updated i)
    (stale_while_revalidate_sec i) (stale_if_error_sec i) (variance i) (epoch_override i)
    (provenance_field i)).

Definition set_header m (h : ResponseHeader M) : CacheMeta M :=
  MkCacheMeta (internal m) h (extensions m).
Definition set_extensions m (x : Extensions) : CacheMeta M :=
  MkCacheMeta (internal m) (header m) x.

End meta.

(** *** Defaults *)

(** [fresh_sec_fn] gives a duration in seconds for a status. *)
Record CacheMetaDefaults := MkDefaults {
  fresh_sec_fn : Z -> option Z;
  default_swr_sec : Z;
  default_sie_sec : Z
}.

Definition default_fresh_sec (d : CacheMetaDefaults) (resp_status : Z) : option Z :=
  if resp_status =? 304 then fresh_sec_fn d 200 else fresh_sec_fn d resp_status.

(** ** Filters *)

Inductive RespCacheable (M : Type) :=
| CacheableResp (meta : CacheMeta M)
| Uncacheable (reason : NoCacheReason).
Arguments CacheableResp {M}.
Arguments Uncacheable {M}.

Inductive Method := GET | HEAD | OtherMethod (name : list byte).

#[export] Instance Method_eq_dec : EqDecision Method.
Proof. solve_decision. Defined.

Definition request_cacheable (m : Method) : bool :=
  match m with GET | HEAD => true | _ => false end.

Section filters.
Context `{Text} {M : Type} `{HeaderMap M}.
(** [HeaderValue::to_str] then [HttpDate]: nanoseconds since the epoch. *)
Variable parse_http_date : list byte -> option Z.

Definition freshness_ttl_to_time (now fresh : Z) : option Z :=
  if fresh =? 0 then checked_sub_secs now 1 else checked_add_secs now fresh.

(** [None] without an [Expires] header or with several; an invalid date is a
    time in the past. *)
Definition calculate_expires_header_time (resp : ResponseHeader M) : option Z :=
  match get_all (headers resp) (bytes_of "expires") with
  | [v] => Some (default UNIX_EPOCH (parse_http_date v))
  | _ => None
  end.

Definition calculate_fresh_until (now : Z) (cache_control : option CacheControl)
    (resp : ResponseHeader M) (authorization_present : bool) (defaults : CacheMetaDefaults)
  : option Z :=
  if authorization_present &&
     match cache_control with
     | None => true
     | Some cc => negb (allow_caching_authorized_req cc)
     end
  then None
  else if match cache_control with
          | None => false
          | Some cc => bool_decide (is_cacheable cc = No)
          end
  then None
  else
    match (cc ← cache_control; ttl ← fresh_duration cc; freshness_ttl_to_time now ttl) with
    | Some t => Some t
    | None =>
        match calculate_expires_header_time resp with
        | Some t => Some t
        | None => ttl ← default_fresh_sec defaults (status resp); freshness_ttl_to_time now ttl
        end
    end.

(** Seconds that do not fit a [u32] are the overflow value. *)
Definition to_u32_secs (s : Z) : Z := if s <? u32_mod then s else DELTA_SECONDS_OVERFLOW_VALUE.

Definition calculate_serve_stale_durations (cache_control : option CacheControl)
    (defaults : CacheMetaDefaults) : Z * Z :=
  let swr := default (default_swr_sec defaults)
               (cc ← cache_control; serve_stale_while_revalidate_duration cc) in
  let sie := default (default_sie_sec defaults)
               (cc ← cache_control; serve_stale_if_error_duration cc) in
  (to_u32_secs swr, to_u32_secs sie).

Definition resp_cacheable (now : Z) (cache_control : option CacheControl)
    (resp : ResponseHeader M) (authorization_present : bool) (defaults : CacheMetaDefaults)
  : RespCacheable M :=
  match calculate_fresh_until now cache_control resp authorization_present defaults with
  | None => Uncacheable OriginNotCache
  | Some fresh_until =>
      let '(swr, sie) := calculate_serve_stale_durations cache_control defaults in
      let resp := match cache_control with
                  | Some cc => MkResponseHeader (status resp) (strip_private_headers cc (headers resp))
                  | None => resp
                  end in
      CacheableResp (meta_new fresh_until now swr sie resp)
  end.

(** [upstream::request_filter]: a request header is its method and headers. *)
Definition precondition_headers : list (list byte) :=
  [bytes_of "if-match"; bytes_of "if-none-match"; bytes_of "if-modified-since";
   bytes_of "if-unmodified-since"; bytes_of "if-range"; bytes_of "range"].

Definition request_filter (method : Method) (req : M) (meta : option (CacheMeta M)) : Method * M :=
  let method := if bool_decide (method = HEAD) then GET else method in
  let req := foldl remove_header req precondition_headers in
  match meta with
  | None => (method, req)
  | Some m =>
      let req := match header_get (headers (header m)) (bytes_of "last-modified") with
                 | Some since => insert_header req (bytes_of "if-modified-since") since
                 | None => req
                 end in
      let req := match header_get (headers (header m)) (bytes_of "etag") with
                 | Some etag => insert_header req (bytes_of "if-none-match") etag
                 | None => req
                 end in
      (method, req)
  end.

End filters.

(** ** Variance *)

(** The order of names: bytes from the left. *)
Fixpoint bytes_compare (a b : list byte) : comparison :=
  match a, b with
  | [], [] => Eq
  | [], _ => Lt
  | _, [] => Gt
  | x :: a, y :: b =>
      match Z.compare (byte_val x) (byte_val y) with
      | Eq => bytes_compare a b
      | c => c
      end
  end.

(** A [BTreeMap]: a list in the order of its keys. *)
Definition VarianceBuilder : Type := list (list byte * list byte).

Definition variance_builder_new : VarianceBuilder := [].

(** [add_value], [add_owned_value] and [add_owned_name_value]. *)
Fixpoint add_value (v : VarianceBuilder) (name value : list byte) : VarianceBuilder :=
  match v with
  | [] => [(name, value)]
  | (n, x) :: rest =>
      match bytes_compare name n with
      | Lt => (name, value) :: v
      | Eq => (n, value) :: rest
      | Gt => (n, x) :: add_value rest name value
      end
  end.

Definition has_variance (v : VarianceBuilder) : bool := match v with [] => false | _ => true end.

Definition SALT : list byte := [Byte.x00].

(** What is fed to the hash function. *)
Definition variance_bytes (v : VarianceBuilder) : list byte :=
  concat (map (fun nv => nv.1 ++ SALT ++ nv.2 ++ SALT) v).

Definition variance_finalize (blake2b : list byte -> HashBinary) (v : VarianceBuilder)
  : option HashBinary :=
  if has_variance v then Some (blake2b (variance_bytes v)) else None.

(** ** Maximum file size *)

Record MaxFileSizeTracker := MkTracker { body_bytes : Z; max_size : Z }.

Definition tracker_new (max : Z) : MaxFileSizeTracker := MkTracker 0 max.
Definition allow_caching (t : MaxFileSizeTracker) : bool := body_bytes t <=? max_size t.
Definition add_body_bytes (t : MaxFileSizeTracker) (bytes : Z) : MaxFileSizeTracker * bool :=
  let t' := MkTracker (wadd (body_bytes t) bytes) (max_size t) in (t', allow_caching t').
