(* ===== verification/CacheMetaSpec.v ===== *)
(** * Cache admission: what the policy promises

    Theorems on [CacheMeta]: which responses are admitted and with which
    metadata, and that the key of a variant depends on the set of varying values
    alone. *)

From stdpp Require Import base list numbers strings sets sorting.
From Stdlib Require Import ZArith Lia.
From S2P Require Import Prelude Ketama CacheControl CacheMeta.
Local Open Scope Z_scope.

(** ** Stripped headers *)

Section strip.
Context `{Text} {M : Type} `{HeaderMap M}.

(** The header fields named by a list of field names. *)
Definition listed (names : list (list byte)) (h : list byte) : Prop :=
  exists n, n ∈ names /\ header_name n = Some h.

Lemma listed_cons n names h :
  listed (n :: names) h <-> header_name n = Some h \/ listed names h.
Proof. unfold listed. set_solver. Qed.

Lemma strip_listed_gone names (m : M) h :
  get_all m h = [] \/ listed names h -> get_all (strip_listed_headers m names) h = [].
Proof.
  revert m. induction names as [|n names IH]; intros m Hh; simpl.
  - destruct Hh as [?|(n & Hn & _)]; [done|set_solver].
  - apply IH. rewrite listed_cons in Hh. destruct (header_name n) as [k|]; [|naive_solver].
    destruct (decide (k = h)) as [->|Hne]; [left; apply get_all_remove|].
    destruct Hh as [Hh|[[= ?]|?]]; [|done|by right]. left. by rewrite get_all_remove_ne.
Qed.

Lemma strip_listed_kept names (m : M) h :
  ~ listed names h -> get_all (strip_listed_headers m names) h = get_all m h.
Proof.
  revert m. induction names as [|n names IH]; intros m Hh; simpl; [done|].
  rewrite listed_cons in Hh. rewrite IH by tauto.
  destruct (header_name n) as [k|]; [|done]. apply get_all_remove_ne. naive_solver.
Qed.

(** The fields a Cache-Control header withholds from a shared cache. *)
Definition withheld (cc : CacheControl) (h : list byte) : Prop :=
  (exists names, private_field_names cc = Some names /\ listed names h) \/
  (exists names, no_cache_field_names cc = Some names /\ listed names h).

Lemma strip_private_gone cc (m : M) h :
  withheld cc h -> get_all (strip_private_headers cc m) h = [].
Proof.
  unfold withheld, strip_private_headers.
  intros [(ns & -> & Hl)|(ns & -> & Hl)]; [|apply strip_listed_gone; by right].
  destruct (no_cache_field_names cc); [apply strip_listed_gone; left|];
    apply strip_listed_gone; by right.
Qed.

Lemma strip_private_kept cc (m : M) h :
  ~ withheld cc h -> get_all (strip_private_headers cc m) h = get_all m h.
Proof.
  unfold withheld, strip_private_headers. intros Hn.
  destruct (private_field_names cc), (no_cache_field_names cc);
    repeat rewrite strip_listed_kept by naive_solver; done.
Qed.

(** ** Admission *)

Variable parse_http_date : list byte -> option Z.

(** A shared cache may keep the response at all. *)
Definition storable (cc : option CacheControl) (authorization : bool) : Prop :=
  match cc with
  | None => authorization = false
  | Some cc => no_store cc = false /\ private cc = false /\
               (authorization = true ->
                must_revalidate cc = true \/ public cc = true \/ has_directive cc SMaxAge = true)
  end.

#[global] Instance storable_dec cc authorization : Decision (storable cc authorization).
Proof. unfold storable. destruct cc; apply _. Defined.

(** Sources of freshness, the first that gives a time decides. *)
Definition fresh_sources (now : Z) (cc : option CacheControl) (resp : ResponseHeader M)
    (defaults : CacheMetaDefaults) : list (option Z) :=
  [ (c ← cc; ttl ← fresh_duration c; freshness_ttl_to_time now ttl);
    calculate_expires_header_time parse_http_date resp;
    (ttl ← default_fresh_sec defaults (status resp); freshness_ttl_to_time now ttl) ].

Definition first_some (l : list (option Z)) : option Z :=
  foldr (fun o acc => match o with Some x => Some x | None => acc end) None l.

Lemma calculate_fresh_until_spec now cc resp auth defaults :
  (storable cc auth ->
   calculate_fresh_until parse_http_date now cc resp auth defaults =
   first_some (fresh_sources now cc resp defaults)) /\
  (~ storable cc auth -> calculate_fresh_until parse_http_date now cc resp auth defaults = None).
Proof.
  assert (first_some (fresh_sources now cc resp defaults) =
          match (c ← cc; ttl ← fresh_duration c; freshness_ttl_to_time now ttl) with
          | Some t => Some t
          | None =>
              match calculate_expires_header_time parse_http_date resp with
              | Some t => Some t
              | None => ttl ← default_fresh_sec defaults (status resp); freshness_ttl_to_time now ttl
              end
          end) as ->.
  { unfold first_some, fresh_sources. simpl.
    by destruct (default_fresh_sec defaults (status resp) ≫= _). }
  unfold calculate_fresh_until, storable, is_cacheable, allow_caching_authorized_req.
  destruct cc as [cc|]; [|by destruct auth].
  destruct (no_store cc), (private cc), auth, (must_revalidate cc), (public cc),
    (has_directive cc SMaxAge), (has_directive cc MaxAge); simpl; naive_solver.
Qed.

(** An admitted response's metadata in terms of the header it came from. *)
Lemma stale_durations_forbidden cc defaults :
  forbids_stale cc = true ->
  calculate_serve_stale_durations (Some cc) defaults = (0, 0).
Proof.
  intros Hf. unfold calculate_serve_stale_durations, serve_stale_while_revalidate_duration,
    serve_stale_if_error_duration. simpl. by rewrite Hf.
Qed.

Lemma ttl_zero_stale now t : freshness_ttl_to_time now 0 = Some t -> t < now.
Proof.
  unfold freshness_ttl_to_time, checked_sub_secs, nanos_per_sec. simpl.
  case_match; [|done]. intros [= <-]. lia.
Qed.

Lemma no_cache_time now cc resp defaults t :
  no_cache cc = true -> - 2 ^ 63 * nanos_per_sec <= now - nanos_per_sec ->
  first_some (fresh_sources now (Some cc) resp defaults) = Some t -> t < now.
Proof.
  intros Hnc Hnow. unfold fresh_sources, first_some. simpl.
  unfold fresh_duration. rewrite Hnc. simpl.
  destruct (freshness_ttl_to_time now 0) as [t'|] eqn:Ht.
  - intros [= <-]. by eapply ttl_zero_stale.
  - exfalso. revert Ht. unfold freshness_ttl_to_time, checked_sub_secs. cbn [Z.eqb].
    case_match eqn:Hle; [done|]. apply Z.leb_gt in Hle.
    assert (0 < nanos_per_sec) by done.
    assert (- 2 ^ 63 <= (now - 1 * nanos_per_sec) / nanos_per_sec)
      by (apply Z.div_le_lower_bound; lia). lia.
Qed.

(** C32: Admission to the shared cache.  A response is admitted exactly when
    Cache-Control permits it (no no-store, no bare private, and for an authorized
    request one of must-revalidate, public, s-maxage) and some source gives a
    freshness time, the first of Cache-Control, Expires and the default for its
    status deciding.  What is stored keeps the status, loses every header field
    that private= or no-cache= lists and keeps all others; no-cache makes it stale
    at once, and must-revalidate, proxy-revalidate or s-maxage forbid serving it
    stale. *)
Theorem resp_cacheable_policy now cc resp auth defaults :
  - 2 ^ 63 * nanos_per_sec <= now - nanos_per_sec ->
  match resp_cacheable parse_http_date now cc resp auth defaults with
  | CacheableResp m =>
      storable cc auth /\
      first_some (fresh_sources now cc resp defaults) = Some (fresh_until (internal m)) /\
      created (internal m) = now /\ status (header m) = status resp /\
      match cc with
      | None => headers (header m) = headers resp
      | Some c =>
          (forall h, withheld c h -> get_all (headers (header m)) h = []) /\
          (forall h, ~ withheld c h -> get_all (headers (header m)) h = get_all (headers resp) h) /\
          (no_cache c = true -> is_fresh m now = false) /\
          (forbids_stale c = true -> forall t,
             serve_stale_while_revalidate m t = false /\ serve_stale_if_error m t = false)
      end
  | Uncacheable r =>
      r = OriginNotCache /\
      (storable cc auth -> first_some (fresh_sources now cc resp defaults) = None)
  end.
Proof.
  intros Hnow. unfold resp_cacheable.
  destruct (calculate_fresh_until_spec now cc resp auth defaults) as [Hy Hn].
  destruct (decide (storable cc auth)) as [Hs|Hs].
  - rewrite Hy by done. destruct (first_some _) as [t|] eqn:Ht; [|done].
    destruct (calculate_serve_stale_durations cc defaults) as [swr sie] eqn:Hd. simpl.
    split_and!; [done..|by destruct cc|]. destruct cc as [c|]; [|done]. simpl. split_and!.
    + intros h. apply strip_private_gone.
    + intros h. apply strip_private_kept.
    + intros Hnc. unfold is_fresh. simpl. apply Z.leb_gt. by eapply no_cache_time.
    + intros Hf t'. rewrite stale_durations_forbidden in Hd by done. injection Hd as <- <-. done.
  - rewrite Hn by done. split; [done|tauto].
Qed.

End strip.

(** A header map as a list of fields, and ASCII text. *)
Notation fields := (list (list byte * list byte)).

Definition fields_get (m : fields) (k : list byte) : list (list byte) :=
  map snd (filter (fun f => f.1 = k) m).

Definition fields_remove (m : fields) (k : list byte) : fields := filter (fun f => f.1 <> k) m.

Lemma fields_get_remove m k : fields_get (fields_remove m k) k = [].
Proof.
  unfold fields_get, fields_remove. induction m as [|f m IH]; [done|].
  rewrite filter_cons. case_decide; [|done]. rewrite filter_cons. by rewrite decide_False.
Qed.

Lemma fields_get_remove_ne m k k' : k <> k' -> fields_get (fields_remove m k) k' = fields_get m k'.
Proof.
  intros Hne. unfold fields_get, fields_remove. induction m as [|f m IH]; [done|].
  rewrite filter_cons. case_decide as Hf; rewrite (filter_cons _ f); [rewrite (filter_cons _ f)|].
  - case_decide; simpl; by rewrite IH.
  - rewrite (decide_False (P := f.1 = k')) by congruence. done.
Qed.

Lemma fields_get_insert m k v : fields_get ((k, v) :: fields_remove m k) k = [v].
Proof.
  unfold fields_get. rewrite filter_cons, decide_True by done. simpl. f_equal.
  apply fields_get_remove.
Qed.

Lemma fields_get_insert_ne m k k' v :
  k <> k' -> fields_get ((k, v) :: fields_remove m k) k' = fields_get m k'.
Proof.
  intros Hne. unfold fields_get. rewrite filter_cons, decide_False by done.
  by apply fields_get_remove_ne.
Qed.

Definition fields_append (m : fields) (k v : list byte) : fields := m ++ [(k, v)].

Lemma fields_get_append m k v : fields_get (fields_append m k v) k = fields_get m k ++ [v].
Proof.
  unfold fields_get, fields_append. rewrite filter_app, map_app.
  by rewrite filter_cons, decide_True.
Qed.

Lemma fields_get_append_ne m k k' v :
  k <> k' -> fields_get (fields_append m k v) k' = fields_get m k'.
Proof.
  intros Hne. unfold fields_get, fields_append. rewrite filter_app, map_app.
  rewrite filter_cons, decide_False by done. apply app_nil_r.
Qed.

#[export] Instance fields_map : HeaderMap fields := {|
  get_all := fields_get;
  remove_header := fields_remove;
  insert_header m k v := (k, v) :: fields_remove m k;
  append_header := fields_append;
  header_name := Some;
  get_all_remove := fields_get_remove;
  get_all_remove_ne := fields_get_remove_ne;
  get_all_insert := fields_get_insert;
  get_all_insert_ne := fields_get_insert_ne;
  get_all_append := fields_get_append;
  get_all_append_ne := fields_get_append_ne
|}.

#[export] Instance ascii_text : Text := {|
  to_lowercase := Some;
  is_utf8 _ := true;
  parse_f64 _ := None
|}.

Lemma resp_cacheable_policy_witness :
  let cc := from_headers [bytes_of "max-age=60, private=set-cookie"] in
  let resp := MkResponseHeader 200 [(bytes_of "set-cookie", bytes_of "a"); (bytes_of "etag", bytes_of "e")] in
  match resp_cacheable (fun _ => None) 0 (Some cc) resp false (MkDefaults (fun _ => None) 0 0) with
  | CacheableResp m =>
      get_all (headers (header m)) (bytes_of "set-cookie") = [] /\
      get_all (headers (header m)) (bytes_of "etag") = [bytes_of "e"] /\
      fresh_until (internal m) = 60 * nanos_per_sec /\
      storable (Some cc) false /\
      first_some (fresh_sources (fun _ => None) 0 (Some cc) resp (MkDefaults (fun _ => None) 0 0)) =
        Some (fresh_until (internal m))
  | Uncacheable _ => False
  end.
Proof.
  intros cc resp.
  pose proof (resp_cacheable_policy (fun _ => None) 0 (Some cc) resp false
                (MkDefaults (fun _ => None) 0 0) ltac:(vm_compute; discriminate)) as Hp.
  destruct (resp_cacheable _ _ _ _ _ _) as [m|] eqn:Hm; [|by vm_compute in Hm].
  destruct Hp as (Hs & Hf & _). split_and!; [..|exact Hs|exact Hf]; vm_compute in Hm;
    injection Hm as <-; by vm_compute.
Defined.

(** ** Variance *)

(** The builder after a sequence of [add_value] calls, and the value each name
    then has: the last one given. *)
Definition variance_of (ops : list (list byte * list byte)) : VarianceBuilder :=
  foldl (fun v nv => add_value v nv.1 nv.2) variance_builder_new ops.

Definition last_value (ops : list (list byte * list byte)) (n : list byte) : option (list byte) :=
  foldl (fun acc nv => if bool_decide (nv.1 = n) then Some nv.2 else acc) None ops.

Fixpoint value_in (v : VarianceBuilder) (n : list byte) : option (list byte) :=
  match v with
  | [] => None
  | (k, x) :: v => if bool_decide (k = n) then Some x else value_in v n
  end.

Lemma bytes_compare_eq a b : bytes_compare a b = Eq <-> a = b.
Proof.
  revert b. induction a as [|x a IH]; intros [|y b]; simpl; [done..|].
  destruct (Z.compare_spec (byte_val x) (byte_val y)) as [Heq|Hlt|Hgt].
  - apply byte_val_inj in Heq as ->. rewrite IH. naive_solver.
  - split; [done|]. intros [= -> _]. lia.
  - split; [done|]. intros [= -> _]. lia.
Qed.

Lemma bytes_compare_antisym a b : bytes_compare b a = CompOpp (bytes_compare a b).
Proof.
  revert b. induction a as [|x a IH]; intros [|y b]; simpl; [done..|].
  rewrite (Z.compare_antisym (byte_val x)). destruct (Z.compare (byte_val x) (byte_val y)); [|done..].
  simpl. apply IH.
Qed.

Lemma bytes_compare_trans a b c :
  bytes_compare a b = Lt -> bytes_compare b c = Lt -> bytes_compare a c = Lt.
Proof.
  revert b c. induction a as [|x a IH]; intros [|y b] [|z c]; simpl; try done.
  destruct (Z.compare_spec (byte_val x) (byte_val y)) as [->|Hxy|Hxy]; [|intros _|done];
    destruct (Z.compare_spec (byte_val y) (byte_val z)) as [Hyz|Hyz|Hyz]; try done.
  - apply IH.
  - intros _. rewrite <-Hyz. by rewrite (proj2 (Z.compare_lt_iff _ _) Hxy).
  - intros _. by rewrite (proj2 (Z.compare_lt_iff _ _) (Z.lt_trans _ _ _ Hxy Hyz)).
Qed.

Definition key_lt (a b : list byte * list byte) : Prop := bytes_compare a.1 b.1 = Lt.

#[export] Instance key_lt_trans : Transitive key_lt.
Proof. intros a b c. apply bytes_compare_trans. Qed.

Lemma add_value_bound v n x k :
  key_lt k (n, x) -> Forall (key_lt k) v -> Forall (key_lt k) (add_value v n x).
Proof.
  intros Hk. induction 1 as [|[k' x'] v Hkv Hv IH]; simpl; [by constructor|].
  destruct (bytes_compare n k'); repeat constructor; done.
Qed.

Lemma add_value_sorted v n x : StronglySorted key_lt v -> StronglySorted key_lt (add_value v n x).
Proof.
  induction 1 as [|[k y] v Hv IH Hk]; simpl; [repeat constructor|].
  destruct (bytes_compare n k) eqn:Hc.
  - by constructor.
  - constructor; [by constructor|]. constructor; [done|].
    eapply Forall_impl; [exact Hk|]. intros b Hb. unfold key_lt in *. simpl in *.
    by eapply bytes_compare_trans.
  - constructor; [done|]. apply add_value_bound; [|done].
    unfold key_lt. simpl. rewrite (bytes_compare_antisym n k), Hc. done.
Qed.

Lemma value_in_add v n x k :
  StronglySorted key_lt v ->
  value_in (add_value v n x) k = if bool_decide (n = k) then Some x else value_in v k.
Proof.
  induction 1 as [|[k' y] v Hv IH Hk]; simpl; [done|].
  destruct (bytes_compare n k') eqn:Hc; simpl.
  - apply bytes_compare_eq in Hc as ->. by case_bool_decide.
  - done.
  - rewrite IH. repeat case_bool_decide; subst; try done.
    by rewrite (proj2 (bytes_compare_eq k k) eq_refl) in Hc.
Qed.

Lemma variance_of_go ops v0 acc :
  StronglySorted key_lt v0 -> (forall n, value_in v0 n = acc n) ->
  StronglySorted key_lt (foldl (fun v nv => add_value v nv.1 nv.2) v0 ops) /\
  (forall n, value_in (foldl (fun v nv => add_value v nv.1 nv.2) v0 ops) n =
   foldl (fun acc nv => if bool_decide (nv.1 = n) then Some nv.2 else acc) (acc n) ops).
Proof.
  revert v0 acc. induction ops as [|[n x] ops IH]; intros v0 acc Hs Hv; simpl; [done|].
  destruct (IH (add_value v0 n x) (fun k => if bool_decide (n = k) then Some x else acc k))
    as [Hs' Hv']; [by apply add_value_sorted| |done].
  intros k. rewrite value_in_add by done. by rewrite Hv.
Qed.

Lemma variance_of_sorted ops : StronglySorted key_lt (variance_of ops).
Proof. apply (variance_of_go ops [] (fun _ => None)); [constructor|done]. Qed.

Lemma variance_of_value ops n : value_in (variance_of ops) n = last_value ops n.
Proof. apply (variance_of_go ops [] (fun _ => None)); [constructor|done]. Qed.

#[export] Instance key_lt_irrefl : Irreflexive key_lt.
Proof. intros [k x] Hk. unfold key_lt in Hk. simpl in Hk. by rewrite (proj2 (bytes_compare_eq k k) eq_refl) in Hk. Qed.

Lemma value_in_elem v n x :
  StronglySorted key_lt v -> value_in v n = Some x <-> (n, x) ∈ v.
Proof.
  induction 1 as [|[k y] v Hv IH Hk]; simpl; [set_solver|].
  rewrite elem_of_cons, <-IH. case_bool_decide as Hkn; [|naive_solver]. subst k.
  split; [naive_solver|]. intros [[= ->]|Hin]; [done|]. rewrite IH, list_elem_of_lookup in Hin.
  destruct Hin as [i Hi]. eapply Forall_lookup_1 in Hk; [|exact Hi].
  by destruct (key_lt_irrefl (n, x)).
Qed.

Lemma sorted_NoDup v : StronglySorted key_lt v -> NoDup v.
Proof.
  induction 1 as [|a v Hv IH Hk]; constructor; [|done]. rewrite list_elem_of_lookup. intros [i Hi].
  eapply Forall_lookup_1 in Hk; [|exact Hi]. by destruct (key_lt_irrefl a).
Qed.

(** Builders in order are determined by their values. *)
Lemma sorted_ext v v' :
  StronglySorted key_lt v -> StronglySorted key_lt v' ->
  (forall n, value_in v n = value_in v' n) -> v = v'.
Proof.
  intros Hv Hv' Heq. apply (StronglySorted_unique_strong key_lt); [|done..|].
  - intros a b _ _ Hab Hba. destruct (key_lt_irrefl a). by transitivity b.
  - apply NoDup_Permutation; [by apply sorted_NoDup..|]. intros [n x].
    by rewrite <-!value_in_elem, Heq.
Qed.

(** *** The bytes determine the builder *)

Definition nul_free (l : list byte) : Prop := Byte.x00 ∉ l.

Lemma nul_split a b x y :
  nul_free a -> nul_free b -> a ++ Byte.x00 :: x = b ++ Byte.x00 :: y -> a = b /\ x = y.
Proof.
  unfold nul_free. revert b. induction a as [|c a IH]; intros [|d b] Ha Hb; simpl.
  - by intros [= ->].
  - intros [= <- _]. set_solver.
  - intros [= -> _]. set_solver.
  - intros [= -> Heq]. apply IH in Heq as [-> ->]; set_solver.
Qed.

Definition nul_free_pair (nv : list byte * list byte) : Prop := nul_free nv.1 /\ nul_free nv.2.

Lemma variance_bytes_inj v v' :
  Forall nul_free_pair v -> Forall nul_free_pair v' -> variance_bytes v = variance_bytes v' -> v = v'.
Proof.
  unfold variance_bytes. intros Hv. revert v'.
  induction Hv as [|[n x] v [Hn Hx] Hv IH]; intros [|[n' x'] v'] Hv'; simpl in *.
  - done.
  - by destruct n'.
  - by destruct n.
  - inversion_clear Hv' as [|? ? [Hn' Hx'] Hv'']. simpl in *. rewrite <-!app_assoc. simpl.
    rewrite <-!app_assoc. simpl.
    intros [-> [-> Heq]%nul_split]%nul_split; try done. by rewrite (IH v').
Qed.

Lemma add_value_nul_free v n x :
  nul_free n -> nul_free x -> Forall nul_free_pair v -> Forall nul_free_pair (add_value v n x).
Proof.
  intros Hn Hx. induction 1 as [|[k y] v [Hk Hy] Hv IH]; simpl; [by repeat constructor|].
  destruct (bytes_compare n k); repeat (constructor; try done).
Qed.

Lemma variance_of_nul_free ops : Forall nul_free_pair ops -> Forall nul_free_pair (variance_of ops).
Proof.
  unfold variance_of. generalize (Forall_nil_2 nul_free_pair).
  change (@nil (list byte * list byte)) with variance_builder_new at 1.
  generalize variance_builder_new. intros v Hv Hops. revert v Hv.
  induction Hops as [|[n x] ops [Hn Hx] _ IH]; intros v Hv; simpl; [done|].
  apply IH. by apply add_value_nul_free.
Qed.

(** The key of a variant.  Whatever the order and the repetitions in which
    values were added, two builders feed the same bytes to the hash exactly when
    every name has the same last value in both, so variants differ as soon as one
    value does; and there is no key exactly when nothing was added. *)
Theorem variance_key_canonical ops ops' blake2b :
  Forall nul_free_pair ops -> Forall nul_free_pair ops' ->
  (variance_bytes (variance_of ops) = variance_bytes (variance_of ops') <->
   forall n, last_value ops n = last_value ops' n) /\
  ((forall n, last_value ops n = last_value ops' n) ->
   variance_finalize blake2b (variance_of ops) = variance_finalize blake2b (variance_of ops')) /\
  (variance_finalize blake2b (variance_of ops) = None <-> ops = []).
Proof.
  intros Hops Hops'.
  assert ((forall n, last_value ops n = last_value ops' n) -> variance_of ops = variance_of ops') as Hext.
  { intros Heq. apply sorted_ext; [apply variance_of_sorted..|]. intros n.
    by rewrite !variance_of_value. }
  split_and!.
  - split; [|intros Heq; by rewrite Hext].
    intros Hb%variance_bytes_inj; [|by apply variance_of_nul_free..]. intros n.
    by rewrite <-!variance_of_value, Hb.
  - intros Heq. by rewrite Hext.
  - split; [|by intros ->]. unfold variance_finalize. intros Hnone.
    destruct (variance_of ops) eqn:Hv; [|done].
    destruct ops as [|[n x] ops _] using rev_ind; [done|].
    pose proof (variance_of_value (ops ++ [(n, x)]) n) as Hval. rewrite Hv in Hval.
    unfold last_value in Hval. rewrite foldl_app in Hval. simpl in Hval.
    by rewrite bool_decide_true in Hval.
Qed.

Lemma variance_key_canonical_witness :
  let a := [(bytes_of "a", bytes_of "1"); (bytes_of "b", bytes_of "2")] in
  let b := [(bytes_of "b", bytes_of "2"); (bytes_of "a", bytes_of "0"); (bytes_of "a", bytes_of "1")] in
  variance_finalize (fun l => l) (variance_of a) = variance_finalize (fun l => l) (variance_of b).
Proof.
  intros a b.
  assert (forall l, forallb (fun nv => bool_decide (Byte.x00 ∉ nv.1) && bool_decide (Byte.x00 ∉ nv.2)) l
                    = true -> Forall nul_free_pair l) as Hnul.
  { intros l Hl. apply Forall_forall. intros nv Hin. rewrite forallb_forall in Hl.
    apply list_elem_of_In, Hl, andb_prop in Hin as [?%bool_decide_eq_true ?%bool_decide_eq_true].
    by split. }
  refine (proj1 (proj2 (variance_key_canonical a b (fun l => l) (Hnul a eq_refl) (Hnul b eq_refl))) _).
  intros n. unfold last_value, a, b. simpl. repeat case_bool_decide; subst; done.
Defined.
