(* ===== verification/CacheKey.v ===== *)
(** * Cache keys

    [src/pingora-cache/src/key.rs]: the key of an asset, its primary and variance
    hashes, its compact form and the hexadecimal text of a hash.  The hash
    function (BLAKE2b with 16 bytes of output) is a parameter. *)

From stdpp Require Import base list numbers strings.
From Stdlib Require Import ZArith Lia.
From S2P Require Import Prelude Ketama CacheMeta.
Local Open Scope Z_scope.

Definition KEY_SIZE : nat := 16.

(** ** Hexadecimal text *)

(** [{:02x}]: lower case. *)
Definition lower_hex_digit (d : Z) : byte :=
  nth (Z.to_nat d) (bytes_of "0123456789abcdef") Byte.x30.

Definition hex_byte (b : byte) : list byte :=
  [lower_hex_digit (byte_val b / 16); lower_hex_digit (byte_val b mod 16)].

Definition hex2str (h : list byte) : list byte := concat (map hex_byte h).

(** [hex::decode_to_slice] accepts digits of both cases. *)
Definition hex_val (b : byte) : option Z :=
  let v := byte_val b in
  if (48 <=? v) && (v <=? 57) then Some (v - 48)
  else if (97 <=? v) && (v <=? 102) then Some (v - 87)
  else if (65 <=? v) && (v <=? 70) then Some (v - 55)
  else None.

Definition byte_of (v : Z) : byte := default Byte.x00 (Byte.of_N (Z.to_N v)).

Fixpoint hex_decode (s : list byte) : option (list byte) :=
  match s with
  | [] => Some []
  | h :: l :: s =>
      match hex_val h, hex_val l, hex_decode s with
      | Some h, Some l, Some r => Some (byte_of (h * 16 + l) :: r)
      | _, _, _ => None
      end
  | _ => None
  end.

Definition str2hex (s : list byte) : option HashBinary :=
  if bool_decide (length s = (KEY_SIZE * 2)%nat) then hex_decode s else None.

(** ** Keys *)

(** One fill a reader cannot use ([lock.rs]), by its token and the reason. *)
Record UnusableFill := MkUnusableFill { token : Z; unusable_reason : list byte }.

#[export] Instance UnusableFill_eq_dec : EqDecision UnusableFill.
Proof. solve_decision. Defined.

(** Of the extensions, the one that [HttpCache] reads. *)
Record CacheKey := MkCacheKey {
  primary : list byte;
  primary_bin_override : option HashBinary;
  key_variance : option HashBinary;
  user_tag : list byte;
  unusable_fills : option (list UnusableFill)
}.

Definition cache_key_new (primary user_tag : list byte) : CacheKey :=
  MkCacheKey primary None None user_tag None.

Definition put_variance_key (k : CacheKey) (v : option HashBinary) : CacheKey :=
  MkCacheKey (primary k) (primary_bin_override k) v (user_tag k) (unusable_fills k).
Definition set_variance_key (k : CacheKey) (v : HashBinary) : CacheKey := put_variance_key k (Some v).
Definition get_variance_key (k : CacheKey) : option HashBinary := key_variance k.
Definition remove_variance_key (k : CacheKey) : CacheKey := put_variance_key k None.
Definition set_primary_bin_override (k : CacheKey) (h : HashBinary) : CacheKey :=
  MkCacheKey (primary k) (Some h) (key_variance k) (user_tag k) (unusable_fills k).

Record CompactCacheKey := MkCompactCacheKey {
  compact_primary : HashBinary;
  compact_variance : option HashBinary;
  compact_user_tag : list byte
}.

(** What the trait [CacheHashKey] asks of a key. *)
Class CacheHashKey (K : Type) := {
  primary_bin : K -> HashBinary;
  variance_bin : K -> option HashBinary;
  tag_of : K -> list byte
}.

Section hashing.
Variable blake2b : list byte -> HashBinary.

#[export] Instance cache_key_hash : CacheHashKey CacheKey := {|
  primary_bin k := match primary_bin_override k with
                   | Some h => h
                   | None => blake2b (primary k)
                   end;
  variance_bin := key_variance;
  tag_of := user_tag
|}.

#[export] Instance compact_key_hash : CacheHashKey CompactCacheKey := {|
  primary_bin := compact_primary;
  variance_bin := compact_variance;
  tag_of := compact_user_tag
|}.

Definition combined_bin {K} `{CacheHashKey K} (k : K) : HashBinary :=
  match variance_bin k with
  | Some v => blake2b (primary_bin k ++ v)
  | None => primary_bin k
  end.

Definition hash_key (k : list byte) : HashBinary := blake2b k.
Definition hash_u8 (k : list byte) : option byte := head (blake2b k).

Definition to_compact (k : CacheKey) : CompactCacheKey :=
  MkCompactCacheKey (primary_bin k) (variance_bin k) (user_tag k).

Lemma to_compact_combined k : combined_bin (to_compact k) = combined_bin k.
Proof. done. Qed.

End hashing.

(** ** Text and back *)

Lemma hex_byte_decode b : hex_decode (hex_byte b) = Some [b].
Proof. by destruct b. Qed.

Lemma hex_decode_app b s : hex_decode (hex_byte b ++ s) = r ← hex_decode s; Some (b :: r).
Proof.
  pose proof (hex_byte_decode b) as Hb. unfold hex_byte in *. simpl in *.
  destruct (hex_val (lower_hex_digit (byte_val b / 16))); [|done].
  destruct (hex_val (lower_hex_digit (byte_val b mod 16))); [|done].
  injection Hb as ->. by destruct (hex_decode s).
Qed.

Lemma hex2str_length h : length (hex2str h) = (length h * 2)%nat.
Proof. unfold hex2str. induction h as [|b h IH]; simpl; [done|]. by rewrite IH. Qed.

Lemma str2hex_hex2str h : length h = KEY_SIZE -> str2hex (hex2str h) = Some h.
Proof.
  intros Hl. unfold str2hex. rewrite hex2str_length, Hl, bool_decide_true by done. clear Hl.
  unfold hex2str. induction h as [|b h IH]; [done|]. cbn [map concat].
  by rewrite hex_decode_app, IH.
Qed.
