(* ===== verification/HttpCache.v ===== *)
(** * The HTTP cache state machine

    [src/pingora-cache/src/lib.rs]: [HttpCache], the state a request keeps about
    caching, with its phases and its methods.

    A method runs in the monad of [Prelude] over a [Session]: the [HttpCache] and
    the log of the calls it made to the trait objects it was given.  Those trait
    objects (storage, eviction manager, cache lock, predictor, admission policy)
    are opaque handles; what they answer during a call is a [World].  A panic is
    [Panic], an error that [?] returns early is [Fail].  Tracing is left out. *)

From stdpp Require Import base list numbers strings gmap.
From Stdlib Require Import ZArith Lia.
From S2P Require Import Prelude Errors Ketama CacheControl CacheMeta CacheKey.
Local Open Scope Z_scope.

(** ** Data *)

Inductive CachePhase :=
| Disabled (r : NoCacheReason) | Uninit | Bypass | CacheKeyPhase | Hit | Miss | Stale
| StaleUpdating | Expired | Revalidated | RevalidatedNoCache (r : NoCacheReason).

#[export] Instance CachePhase_eq_dec : EqDecision CachePhase.
Proof. solve_decision. Defined.

Inductive HitStatus :=
| HExpired | ForceExpired | ForceExpiredServeStale | ForceMiss | FailedHitFilter | Fresh
| ForceFresh.

#[export] Instance HitStatus_eq_dec : EqDecision HitStatus.
Proof. solve_decision. Defined.

Definition hit_is_fresh (s : HitStatus) : bool := match s with Fresh | ForceFresh => true | _ => false end.
Definition is_treated_as_miss (s : HitStatus) : bool :=
  match s with ForceMiss | FailedHitFilter => true | _ => false end.

Inductive ForcedFreshness :=
| FForceExpired | FForceExpiredServeStale (expired_at : option Z) | FForceMiss | FForceFresh.

(** [admission::Decision] *)
Inductive Decision := Defer (observed : Z) | Ready (observed : Z).
Definition is_deferred (d : Decision) : bool := match d with Defer _ => true | Ready _ => false end.

(** [lock.rs]: the status of a lock, and what a reader's wait came to. *)
Inductive LockStatus := Waiting | Done | TransientError | GiveUp | Dangling | WaitTimeout | AgeTimeout.

#[export] Instance LockStatus_eq_dec : EqDecision LockStatus.
Proof. solve_decision. Defined.

Inductive LockWaitOutcome :=
| WDone | WTransientError | WDangling | WWaitTimeout | WAgeTimeout | WGiveUp
| WAbandoned (reason : NoCacheReason) (token : Z).

Inductive WaitOutcome := Released | WOAgeTimeout | WOAbandoned (f : UnusableFill).

(** A permit or read lock is known by the lock core it refers to. *)
Inductive Locked := Write (permit : Z) | Read (lock : Z).

Definition is_write (l : Locked) : bool := match l with Write _ => true | Read _ => false end.

Inductive PurgeOutcome := NotFound | Purged (entry_id : option Z) | PurgeExpired.
Inductive PurgeAction := PurgeDelete | PurgeExpire.

(** Handles of trait objects and of the handlers a storage gives out. *)
Definition StorageRef := Z.
Definition EvictionRef := Z.
Definition PredictorRef := Z.
Definition PolicyRef := Z.
Definition LockRef := Z.
Definition HitHandler := Z.
Definition MissHandler := Z.

Record LockCtx := MkLockCtx {
  lock : option Locked;
  cache_lock : LockRef;
  wait_timeout : option Z;
  max_retries : option Z
}.

Record CacheOptionOverrides := MkOverrides {
  o_wait_timeout : option Z;
  o_max_lock_retries : option Z
}.

Record LockAbandon := MkLockAbandon { abandon_reason : NoCacheReason; abandon_token : Z }.

Record HttpCacheDigest := MkDigest {
  lock_duration : option Z;
  lookup_duration : option Z;
  admission_decision : option Decision;
  lock_abandon : option LockAbandon
}.

Definition add_duration_to_opt (target : option Z) (d : Z) : option Z :=
  Some (match target with Some e => e + d | None => d end).

Section http_cache.
Context {M : Type} `{HeaderMap M}.
Notation Meta := (CacheMeta M).

Record HttpCacheInnerEnabled := MkEnabled {
  meta : option Meta;
  valid_after : option Z;
  stale_meta_variance : option HashBinary;
  miss_handler_field : option MissHandler;
  body_reader : option HitHandler;
  storage : StorageRef;
  eviction : option EvictionRef;
  admission : option PolicyRef;
  lock_ctx : option LockCtx
}.

Record HttpCacheInner := MkInner {
  enabled_ctx : option HttpCacheInnerEnabled;
  key : option CacheKey;
  max_file_size_tracker : option MaxFileSizeTracker;
  predictor : option PredictorRef;
  predicted_uncacheable_reason : option NoCacheReason;
  downstream_abandoned : bool
}.

Record HttpCache := MkHttpCache {
  phase : CachePhase;
  inner : option HttpCacheInner;
  digest : HttpCacheDigest
}.

(** Calls to trait objects, in order. *)
Inductive Event :=
| EvLock (l : LockRef) (k : CacheKey) (stale : bool) (got : Locked)
| EvRelease (l : LockRef) (k : CacheKey) (permit : Z) (status : LockStatus)
| EvDropLock (l : Locked)
| EvTakeWriteLock (permit : Z)
| EvSetWriteLock (permit : Z)
| EvPublish (permit : Z) (tokens : list Z)
| EvAccess (e : EvictionRef) (k : CompactCacheKey) (entry : option Z) (size fresh_until : Z)
| EvRemove (e : EvictionRef) (k : CompactCacheKey) (entry : option Z)
| EvFinishHit (h : HitHandler) (s : StorageRef) (k : CacheKey)
| EvFinishMiss (h : MissHandler) (k : CompactCacheKey) (entry : option Z) (fresh_until : Z)
    (e : option EvictionRef) (s : StorageRef)
| EvReleaseDemand (h : MissHandler)
| EvUpdateMeta (s : StorageRef) (k : CacheKey) (m : Meta)
| EvObserve (p : PolicyRef) (k : CacheKey) (d : Decision)
| EvMarkCacheable (p : PredictorRef) (k : CacheKey)
| EvMarkUncacheable (p : PredictorRef) (k : CacheKey) (r : NoCacheReason).

Record Session := MkSession { cache : HttpCache; log : list Event }.

(** What the trait objects answer, and the clock, during one call. *)
Record World := MkWorld {
  w_blake2b : list byte -> HashBinary;
  w_lookup : StorageRef -> CacheKey -> option (Meta * HitHandler) + Error;
  w_get_miss_handler : StorageRef -> CacheKey -> Meta -> MissHandler + Error;
  w_streaming : StorageRef -> bool;
  w_streaming_tag : MissHandler -> option Z;
  w_lookup_streaming : StorageRef -> CacheKey -> option Z -> option (Meta * HitHandler) + Error;
  w_update_meta : StorageRef -> CacheKey -> Meta -> bool + Error;
  w_purge : StorageRef -> CompactCacheKey -> PurgeAction -> PurgeOutcome + Error;
  w_hit_finish : HitHandler -> unit + Error;
  w_count_access : HitHandler -> bool;
  w_eviction_weight : HitHandler -> Z;
  w_hit_entry : HitHandler -> option Z;
  w_miss_entry : MissHandler -> option Z;
  w_miss_finish : MissHandler -> unit + Error;
  w_release_demand : MissHandler -> bool;
  w_cancellation_watcher : MissHandler -> option Z;
  w_lock : LockRef -> CacheKey -> bool -> Locked;
  w_custom_status : LockRef -> list byte -> LockStatus;
  w_predicted_reason : PredictorRef -> CacheKey -> option NoCacheReason;
  w_prediction : PredictorRef -> CacheKey -> bool;
  w_observe : PolicyRef -> CacheKey -> Decision;
  (** How the wait behind a read lock ends, and whether it does in time. *)
  w_wait : Z -> list UnusableFill -> WaitOutcome;
  w_wait_in_time : Z -> Z -> bool;
  w_lock_status : Z -> LockStatus;
  w_elapsed : Z;
  w_now : Z
}.

Notation Run A := (Prelude.M Session Error A).

(** ** Access to the state *)

Definition emit (e : Event) : Run unit := modify (fun s => MkSession (cache s) (log s ++ [e])).
Definition put_cache (h : HttpCache) : Run unit := modify (fun s => MkSession h (log s)).
Definition get_cache : Run HttpCache := let! s := get in ret (cache s).
Definition get_phase : Run CachePhase := let! h := get_cache in ret (phase h).
Definition set_phase (p : CachePhase) : Run unit :=
  let! h := get_cache in put_cache (MkHttpCache p (inner h) (digest h)).
Definition set_digest (d : HttpCacheDigest) : Run unit :=
  let! h := get_cache in put_cache (MkHttpCache (phase h) (inner h) d).

(** [inner], [inner_mut], [inner_enabled], [inner_enabled_mut] *)
Definition get_inner : Run HttpCacheInner := let! h := get_cache in unwrap (inner h).
Definition get_enabled : Run HttpCacheInnerEnabled := let! i := get_inner in unwrap (enabled_ctx i).
Definition set_inner (i : HttpCacheInner) : Run unit :=
  let! h := get_cache in put_cache (MkHttpCache (phase h) (Some i) (digest h)).
Definition set_enabled_ctx (e : option HttpCacheInnerEnabled) : Run unit :=
  let! i := get_inner in
  set_inner (MkInner e (key i) (max_file_size_tracker i) (predictor i)
               (predicted_uncacheable_reason i) (downstream_abandoned i)).
Definition set_key (k : CacheKey) : Run unit :=
  let! i := get_inner in
  set_inner (MkInner (enabled_ctx i) (Some k) (max_file_size_tracker i) (predictor i)
               (predicted_uncacheable_reason i) (downstream_abandoned i)).
Definition set_tracker (t : option MaxFileSizeTracker) : Run unit :=
  let! i := get_inner in
  set_inner (MkInner (enabled_ctx i) (key i) t (predictor i)
               (predicted_uncacheable_reason i) (downstream_abandoned i)).

(** Field updates of the enabled context. *)
Definition upd_enabled (f : HttpCacheInnerEnabled -> HttpCacheInnerEnabled) : Run unit :=
  let! e := get_enabled in set_enabled_ctx (Some (f e)).
Definition with_meta (m : option Meta) (e : HttpCacheInnerEnabled) :=
  MkEnabled m (valid_after e) (stale_meta_variance e) (miss_handler_field e) (body_reader e)
    (storage e) (eviction e) (admission e) (lock_ctx e).
Definition with_valid_after (t : option Z) (e : HttpCacheInnerEnabled) :=
  MkEnabled (meta e) t (stale_meta_variance e) (miss_handler_field e) (body_reader e)
    (storage e) (eviction e) (admission e) (lock_ctx e).
Definition with_stale_variance (v : option HashBinary) (e : HttpCacheInnerEnabled) :=
  MkEnabled (meta e) (valid_after e) v (miss_handler_field e) (body_reader e)
    (storage e) (eviction e) (admission e) (lock_ctx e).
Definition with_miss_handler (h : option MissHandler) (e : HttpCacheInnerEnabled) :=
  MkEnabled (meta e) (valid_after e) (stale_meta_variance e) h (body_reader e)
    (storage e) (eviction e) (admission e) (lock_ctx e).
Definition with_body_reader (h : option HitHandler) (e : HttpCacheInnerEnabled) :=
  MkEnabled (meta e) (valid_after e) (stale_meta_variance e) (miss_handler_field e) h
    (storage e) (eviction e) (admission e) (lock_ctx e).
Definition with_admission (p : option PolicyRef) (e : HttpCacheInnerEnabled) :=
  MkEnabled (meta e) (valid_after e) (stale_meta_variance e) (miss_handler_field e) (body_reader e)
    (storage e) (eviction e) p (lock_ctx e).
Definition with_lock_ctx (l : option LockCtx) (e : HttpCacheInnerEnabled) :=
  MkEnabled (meta e) (valid_after e) (stale_meta_variance e) (miss_handler_field e) (body_reader e)
    (storage e) (eviction e) (admission e) l.
Definition with_lock (l : option Locked) (c : LockCtx) : LockCtx :=
  MkLockCtx l (cache_lock c) (wait_timeout c) (max_retries c).

(** [lock_ctx.lock.take()]; [lock_ctx.lock = Some(l)], which drops the old one. *)
Definition take_lock (c : LockCtx) : Run (option Locked) :=
  do! upd_enabled (with_lock_ctx (Some (with_lock None c)));
  ret (lock c).
Definition replace_lock (c : LockCtx) (l : Locked) : Run unit :=
  do! match lock c with Some old => emit (EvDropLock old) | None => ret tt end;
  upd_enabled (with_lock_ctx (Some (with_lock (Some l) c))).

(** [?]: an error leaves at once, with the state as it is. *)
Definition try {A} (r : A + Error) : Run A := match r with inl a => ret a | inr e => fail e end.

(** ** Construction and queries *)

Definition http_cache_new : HttpCache :=
  MkHttpCache (Disabled NeverEnabled) None (MkDigest None None None None).

Definition phase_enabled (p : CachePhase) : bool :=
  match p with Disabled _ | Bypass => false | _ => true end.
Definition enabled (h : HttpCache) : bool := phase_enabled (phase h).

Definition downstream_abandoned_during_cache_fill (h : HttpCache) : bool :=
  match inner h with Some i => downstream_abandoned i | None => false end.

Definition mark_downstream_abandoned_during_cache_fill : Run bool :=
  let! h := get_cache in
  match inner h with
  | None => ret false
  | Some i =>
      do! set_inner (MkInner (enabled_ctx i) (key i) (max_file_size_tracker i) (predictor i)
                       (predicted_uncacheable_reason i) true);
      ret (negb (downstream_abandoned i))
  end.

Definition bypassing (h : HttpCache) : bool := bool_decide (phase h = Bypass).

Definition upstream_used (h : HttpCache) : bool :=
  match phase h with
  | Disabled _ | Bypass | Miss | Expired | Revalidated | RevalidatedNoCache _ => true
  | Hit | Stale | StaleUpdating => false
  | Uninit | CacheKeyPhase => false
  end.

(** The lock this request holds, if any. *)
Definition held_lock (h : HttpCache) : option Locked :=
  i ← inner h; e ← enabled_ctx i; c ← lock_ctx e; lock c.

Definition lock_publish_fill_tokens (tokens : list Z) : Run unit :=
  let! h := get_cache in
  match held_lock h with
  | Some (Write permit) => emit (EvPublish permit tokens)
  | _ => ret tt
  end.

(** ** Releasing the lock, disabling, bypassing, enabling *)

(** [None]: the reason is never one a writer releases with. *)
Definition release_status (w : World) (l : LockRef) (reason : NoCacheReason) : option LockStatus :=
  match reason with
  | CacheMeta.InternalError | StorageError | Deferred | UpstreamError => Some TransientError
  | DeclinedToUpstream => Some TransientError
  | OriginNotCache | ResponseTooLarge | PredictedResponseTooLarge => Some GiveUp
  | CustomReason r => Some (w_custom_status w l r)
  | NeverEnabled => None
  | CacheLockGiveUp | CacheLockTimeout | CacheLockRetryLimit => None
  end.

Definition release_write_lock (w : World) (reason : NoCacheReason) : Run unit :=
  let! h := get_cache in
  match inner h with
  | None => ret tt
  | Some i =>
      match (e ← enabled_ctx i; lock_ctx e) with
      | None => ret tt
      | Some c =>
          let! l := take_lock c in
          match l with
          | Some (Write permit) =>
              let! status := unwrap (release_status w (cache_lock c) reason) in
              let! k := unwrap (key i) in
              emit (EvRelease (cache_lock c) k permit status)
          | _ => ret tt
          end
      end
  end.

Definition disable (w : World) (reason : NoCacheReason) : Run unit :=
  do! assert (negb (bool_decide (reason = NeverEnabled)));
  let! p := get_phase in
  match p with
  | Disabled old_reason =>
      if bool_decide (old_reason = NeverEnabled) then ret tt else set_phase (Disabled reason)
  | _ =>
      do! set_phase (Disabled reason);
      do! release_write_lock w reason;
      let! i := get_inner in
      let! _ := unwrap (enabled_ctx i) in
      set_enabled_ctx None
  end.

Definition cache_key : Run CacheKey :=
  let! p := get_phase in
  match p with
  | Disabled NeverEnabled | Uninit => panic
  | _ => let! i := get_inner in unwrap (key i)
  end.

Definition bypass (w : World) : Run unit :=
  let! p := get_phase in
  match p with
  | CacheKeyPhase =>
      do! set_phase Bypass;
      let! i := get_inner in
      let! predicted_reason :=
        match predictor i with
        | Some pr => let! k := cache_key in ret (w_predicted_reason w pr k)
        | None => ret None
        end in
      let! i := get_inner in
      do! set_inner (MkInner (enabled_ctx i) (key i) (max_file_size_tracker i) (predictor i)
                       predicted_reason (downstream_abandoned i));
      let! _ := get_enabled in ret tt
  | _ => panic
  end.

Definition make_lock_ctx (cache_lock : option LockRef) (o : option CacheOptionOverrides)
  : option LockCtx :=
  match cache_lock with
  | Some l => Some (MkLockCtx None l (o ≫= o_wait_timeout) (o ≫= o_max_lock_retries))
  | None => None
  end.

Definition enable (storage : StorageRef) (eviction : option EvictionRef)
    (predictor : option PredictorRef) (cache_lock : option LockRef)
    (o : option CacheOptionOverrides) : Run unit :=
  let! h := get_cache in
  match phase h with
  | Disabled _ =>
      put_cache (MkHttpCache Uninit
        (Some (MkInner
           (Some (MkEnabled None None None None None storage eviction None
                    (make_lock_ctx cache_lock o)))
           None None predictor None (downstream_abandoned_during_cache_fill h)))
        (digest h))
  | _ => panic
  end.

Definition set_cache_lock (cache_lock : option LockRef) (o : option CacheOptionOverrides) : Run unit :=
  let! p := get_phase in
  match p with
  | Disabled _ | CacheKeyPhase | Stale | Hit =>
      let! e := get_enabled in
      match (c ← lock_ctx e; lock c) with
      | Some _ => panic
      | None => upd_enabled (with_lock_ctx (make_lock_ctx cache_lock o))
      end
  | _ => panic
  end.

Definition set_admission_policy (policy : PolicyRef) : Run unit :=
  let! p := get_phase in
  match p with
  | Uninit | CacheKeyPhase => upd_enabled (with_admission (Some policy))
  | _ => panic
  end.

(** ** Key and size limit *)

Definition set_cache_key (k : CacheKey) : Run unit :=
  let! p := get_phase in
  match p with
  | Uninit | CacheKeyPhase => do! set_phase CacheKeyPhase; set_key k
  | _ => panic
  end.

Definition maybe_cache_key : Run (option CacheKey) :=
  let! p := get_phase in
  match p with
  | Disabled NeverEnabled | Uninit => ret None
  | _ => let! k := cache_key in ret (Some k)
  end.

Definition max_file_size_bytes : Run (option Z) :=
  let! p := get_phase in
  do! assert (negb (bool_decide (p = Disabled NeverEnabled)));
  let! i := get_inner in ret (max_size <$> max_file_size_tracker i).

Definition set_max_file_size_bytes (n : Z) : Run unit :=
  let! p := get_phase in
  match p with
  | Disabled _ => panic
  | _ => set_tracker (Some (tracker_new n))
  end.

Definition track_body_bytes_for_max_file_size (n : Z) : Run bool :=
  let! p := get_phase in
  do! assert (negb (bool_decide (p = Disabled NeverEnabled)));
  let! i := get_inner in
  match max_file_size_tracker i with
  | None => ret true
  | Some t => let '(t', ok) := add_body_bytes t n in do! set_tracker (Some t'); ret ok
  end.

Definition exceeded_max_file_size : Run bool :=
  let! p := get_phase in
  do! assert (negb (bool_decide (p = Disabled NeverEnabled)));
  let! i := get_inner in
  ret (match max_file_size_tracker i with Some t => negb (allow_caching t) | None => false end).

(** ** Lookup results *)

Definition acquire_lock (w : World) (k : CacheKey) (stale : bool) : Run unit :=
  let! e := get_enabled in
  match lock_ctx e with
  | Some c =>
      let l := w_lock w (cache_lock c) k stale in
      do! emit (EvLock (cache_lock c) k stale l);
      replace_lock c l
  | None => ret tt
  end.

Definition cache_found (w : World) (m : Meta) (hit : HitHandler) (st : HitStatus) : Run unit :=
  let! p := get_phase in
  match p with
  | CacheKeyPhase | Stale =>
      let p' := match st with
                | Fresh | ForceFresh => Hit
                | HExpired | ForceExpired | ForceExpiredServeStale => Stale
                | FailedHitFilter | ForceMiss => p
                end in
      do! set_phase p';
      let! i := get_inner in
      let! k := unwrap (key i) in
      let! e := unwrap (enabled_ctx i) in
      let stale := bool_decide (p' = Stale) in
      do! (if stale || is_treated_as_miss st then acquire_lock w k stale else ret tt);
      if is_treated_as_miss st then upd_enabled (fun e => with_meta None (with_body_reader None e))
      else
        do! match eviction e with
            | Some ev =>
                if w_count_access w hit
                then emit (EvAccess ev (to_compact (w_blake2b w) k) (w_hit_entry w hit)
                             (w_eviction_weight w hit) (fresh_until (internal m)))
                else ret tt
            | None => ret tt
            end;
        upd_enabled (fun e => with_body_reader (Some hit) (with_meta (Some m) e))
  | _ => panic
  end.

Definition cache_miss : Run unit :=
  let! p := get_phase in
  match p with
  | CacheKeyPhase | Bypass | Stale =>
      do! set_phase Miss;
      upd_enabled (fun e => with_stale_variance None (with_meta None e))
  | _ => panic
  end.

Definition hit_handler : Run HitHandler :=
  let! p := get_phase in
  match p with
  | Hit | Stale | StaleUpdating | Revalidated | RevalidatedNoCache _ =>
      let! e := get_enabled in unwrap (body_reader e)
  | _ => panic
  end.

Definition miss_body_reader (w : World) : Run (option HitHandler) :=
  let! p := get_phase in
  match p with
  | Miss | Expired =>
      let! e := get_enabled in
      ret (if w_streaming w (storage e) then body_reader e else None)
  | _ => ret None
  end.

Definition support_streaming_partial_write (w : World) (h : HttpCache) : option bool :=
  i ← inner h; e ← enabled_ctx i; Some (w_streaming w (storage e)).

Definition finish_hit_handler (w : World) : Run unit :=
  let! p := get_phase in
  match p with
  | Hit | Miss | Expired | Stale | StaleUpdating | Revalidated | RevalidatedNoCache _ =>
      let! i := get_inner in
      let! e := unwrap (enabled_ctx i) in
      match body_reader e with
      | None => ret tt
      | Some r =>
          do! upd_enabled (with_body_reader None);
          let! k := unwrap (key i) in
          do! emit (EvFinishHit r (storage e) k);
          try (w_hit_finish w r)
      end
  | _ => panic
  end.

(** ** Writing to the cache *)

(** What the methods that end a fill share: the writer's permit is released. *)
Definition release_permit (k : CacheKey) (status : LockStatus) : Run unit :=
  let! e := get_enabled in
  match lock_ctx e with
  | Some c =>
      let! l := take_lock c in
      match l with
      | Some (Write permit) => emit (EvRelease (cache_lock c) k permit status)
      | _ => ret tt
      end
  | None => ret tt
  end.

Definition set_miss_handler (w : World) : Run unit :=
  let! p := get_phase in
  match p with
  | Miss | Expired =>
      let! i := get_inner in
      let! e := unwrap (enabled_ctx i) in
      match miss_handler_field e with
      | Some _ => panic
      | None =>
          let! m := unwrap (meta e) in
          let! k := unwrap (key i) in
          let! mh := try (w_get_miss_handler w (storage e) k m) in
          do! upd_enabled (with_miss_handler (Some mh));
          if w_streaming w (storage e) then
            do! release_permit k Done;
            let! r := try (w_lookup_streaming w (storage e) k (w_streaming_tag w mh)) in
            match r with
            | Some (_, reader) => upd_enabled (with_body_reader (Some reader))
            | None => panic
            end
          else ret tt
      end
  | _ => panic
  end.

Definition miss_handler : Run (option MissHandler) :=
  let! p := get_phase in
  match p with
  | Miss | Expired => let! e := get_enabled in ret (miss_handler_field e)
  | _ => panic
  end.

Definition maybe_miss_handler (h : HttpCache) : option MissHandler :=
  match phase h with
  | Miss | Expired => i ← inner h; e ← enabled_ctx i; miss_handler_field e
  | _ => None
  end.
Definition is_cache_admission_active (h : HttpCache) : bool :=
  match maybe_miss_handler h with Some _ => true | None => false end.
Definition release_miss_writer_demand (w : World) : Run bool :=
  let! h := get_cache in
  match maybe_miss_handler h with
  | Some mh => do! emit (EvReleaseDemand mh); ret (w_release_demand w mh)
  | None => ret false
  end.
Definition miss_cancellation_watcher (w : World) (h : HttpCache) : option Z :=
  mh ← maybe_miss_handler h; w_cancellation_watcher w mh.

Definition finish_miss_handler (w : World) : Run unit :=
  let! p := get_phase in
  match p with
  | Miss | Expired =>
      let! i := get_inner in
      let! e := unwrap (enabled_ctx i) in
      match miss_handler_field e with
      | None => ret tt
      | Some mh =>
          do! upd_enabled (with_miss_handler None);
          let! k := unwrap (key i) in
          let! m := unwrap (meta e) in
          do! emit (EvFinishMiss mh (to_compact (w_blake2b w) k) (w_miss_entry w mh)
                      (fresh_until (internal m)) (eviction e) (storage e));
          let result := w_miss_finish w mh in
          do! release_permit k (match result with inl _ => Done | inr _ => TransientError end);
          try result
      end
  | _ => panic
  end.

Definition set_cache_meta (m : Meta) : Run unit :=
  let! p := get_phase in
  match p with
  | Stale =>
      let! e := get_enabled in
      let! old_meta := unwrap (meta e) in
      let m := set_provenance m (provenance old_meta) in
      do! upd_enabled (fun e => with_meta (Some m)
            (with_stale_variance (variance (internal old_meta)) e));
      set_phase Expired
  | Miss => upd_enabled (fun e => with_meta (Some m) (with_stale_variance None e))
  | _ => panic
  end.

(** ** Revalidation *)

(** The refreshed metadata: admission time, provenance and extensions of the old
    one are kept, new extensions winning. *)
Definition refreshed_meta (m old_meta : Meta) : Meta :=
  set_extensions (set_provenance (set_created m (created (internal old_meta))) (provenance old_meta))
    (extensions m ∪ extensions old_meta).

Definition revalidate_cache_meta (w : World) (m : Meta) : Run bool :=
  let! p := get_phase in
  match p with
  | Stale =>
      let! i := get_inner in
      let! e := unwrap (enabled_ctx i) in
      let! old_meta := unwrap (meta e) in
      let m := refreshed_meta m old_meta in
      do! upd_enabled (fun e => with_meta (Some m) (with_stale_variance None e));
      let! k := unwrap (key i) in
      do! emit (EvUpdateMeta (storage e) k m);
      do! release_permit k Done;
      do! set_phase Revalidated;
      try (w_update_meta w (storage e) k m)
  | _ => panic
  end.

Definition merged_headers : list (list byte) :=
  [bytes_of "cache-control"; bytes_of "expires"; bytes_of "cache-tag";
   bytes_of "cdn-cache-control"; bytes_of "etag"].

(** The first value replaces what was there, the others are appended. *)
Definition clone_header (resp old : M) (name : list byte) : M :=
  match get_all resp name with
  | [] => old
  | v :: vs => foldl (fun h v => append_header h name v) (insert_header old name v) vs
  end.

Definition revalidate_merge_header (resp : ResponseHeader M) : Run (ResponseHeader M) :=
  let! p := get_phase in
  match p with
  | Stale =>
      let! e := get_enabled in
      let! m := unwrap (meta e) in
      ret (MkResponseHeader (status (header m))
             (foldl (clone_header (headers resp)) (headers (header m)) merged_headers))
  | _ => panic
  end.

Definition revalidate_uncacheable (w : World) (h : ResponseHeader M) (reason : NoCacheReason) : Run unit :=
  let! p := get_phase in
  match p with
  | Stale =>
      let! e := get_enabled in
      let! m := unwrap (meta e) in
      do! upd_enabled (with_meta (Some (set_header m h)));
      do! release_write_lock w reason;
      set_phase (RevalidatedNoCache reason)
  | _ => panic
  end.

Definition set_stale_updating : Run unit :=
  let! p := get_phase in
  match p with Stale => set_phase StaleUpdating | _ => panic end.

(** ** Variance *)

Definition update_variance (v : option HashBinary) : Run unit :=
  let! p := get_phase in
  match p with
  | Miss | Expired =>
      let expired := bool_decide (p = Expired) in
      let! i := get_inner in
      let! e := unwrap (enabled_ctx i) in
      let! k := unwrap (key i) in
      let old_key_variance := get_variance_key k in
      let stale_variance := if expired then stale_meta_variance e else None in
      let reset :=
        expired && match old_key_variance with
                   | Some old => negb (bool_decide (Some old = v))
                   | None => negb (bool_decide (stale_variance = v))
                   end in
      let! m := unwrap (meta e) in
      let m := match v with Some h => set_variance m h | None => remove_variance m end in
      let m := if reset then reset_provenance_to_created m else m in
      do! upd_enabled (fun e => with_meta (Some m) (with_stale_variance None e));
      match old_key_variance with
      | Some old =>
          if bool_decide (Some old = v) then ret tt
          else
            do! release_permit k Done;
            set_key (remove_variance_key k)
      | None => ret tt
      end
  | _ => panic
  end.

Definition cache_meta : Run Meta :=
  let! p := get_phase in
  match p with
  | Stale | StaleUpdating | Expired | Hit | Revalidated | RevalidatedNoCache _ =>
      let! e := get_enabled in unwrap (meta e)
  | Miss =>
      let! e := get_enabled in
      match body_reader e with Some _ => unwrap (meta e) | None => panic end
  | _ => panic
  end.

Definition maybe_cache_meta : Run (option Meta) :=
  let! p := get_phase in
  match p with
  | Miss | Stale | StaleUpdating | Expired | Hit | Revalidated | RevalidatedNoCache _ =>
      let! e := get_enabled in ret (meta e)
  | _ => ret None
  end.

(** ** Lookup *)

(** An asset admitted before [valid_after] is not valid any more. *)
Definition filter_valid (valid_after : option Z) (r : option (Meta * HitHandler))
  : option (Meta * HitHandler) :=
  match r with
  | Some (m, hit) =>
      match valid_after with
      | Some ts => if created (internal m) <? ts then None else Some (m, hit)
      | None => Some (m, hit)
      end
  | None => None
  end.

Definition cache_lookup (w : World) : Run (option (Meta * HitHandler)) :=
  let! h := get_cache in
  match phase h with
  | CacheKeyPhase | Stale =>
      let observe_admission :=
        bool_decide (phase h = CacheKeyPhase) &&
        match admission_decision (digest h) with None => true | Some _ => false end in
      let! i := unwrap (inner h) in
      let! e := unwrap (enabled_ctx i) in
      let! k := unwrap (key i) in
      let! found := try (w_lookup w (storage e) k) in
      let d := digest h in
      let d := MkDigest (lock_duration d) (add_duration_to_opt (lookup_duration d) (w_elapsed w))
                 (admission_decision d) (lock_abandon d) in
      do! set_digest d;
      let storage_miss := match found with None => true | Some _ => false end in
      let result := filter_valid (valid_after e) found in
      let! decision :=
        match (if storage_miss && observe_admission then admission e else None) with
        | Some policy =>
            let dec := w_observe w policy k in
            do! emit (EvObserve policy k dec); ret (Some dec)
        | None => ret None
        end in
      do! match result, decision with
          | None, None => acquire_lock w k false
          | None, Some dec => if is_deferred dec then ret tt else acquire_lock w k false
          | Some _, _ => ret tt
          end;
      do! match decision with
          | Some dec =>
              do! set_digest (MkDigest (lock_duration d) (lookup_duration d) (Some dec) (lock_abandon d));
              if is_deferred dec then disable w Deferred else ret tt
          | None => ret tt
          end;
      ret result
  | _ => panic
  end.

Definition cache_vary_lookup (v : HashBinary) (m : Meta) : Run bool :=
  let! p := get_phase in
  match p with
  | CacheKeyPhase | Stale =>
      do! upd_enabled (with_valid_after (Some (provenance m)));
      let! i := get_inner in
      let! k := unwrap (key i) in
      let is_initial_cache_hit := match get_variance_key k with None => true | Some _ => false end in
      let k := set_variance_key k v in
      do! set_key k;
      let matches_variance := bool_decide (variance (internal m) = key_variance k) in
      do! (if matches_variance && is_initial_cache_hit then set_key (remove_variance_key k)
           else ret tt);
      ret matches_variance
  | _ => panic
  end.

(** ** Locks *)

Definition is_cache_locked : Run bool :=
  let! e := get_enabled in
  ret (match (c ← lock_ctx e; lock c) with Some (Read _) => true | _ => false end).
Definition is_cache_lock_writer : Run bool :=
  let! e := get_enabled in
  ret (match (c ← lock_ctx e; lock c) with Some (Write _) => true | _ => false end).
Definition cache_lock_max_retries : Run (option Z) :=
  let! e := get_enabled in ret (c ← lock_ctx e; max_retries c).

Definition take_write_lock : Run (Z * LockRef) :=
  let! e := get_enabled in
  let! c := unwrap (lock_ctx e) in
  let! taken := take_lock c in
  let! l := unwrap taken in
  match l with
  | Write permit => do! emit (EvTakeWriteLock permit); ret (permit, cache_lock c)
  | Read _ => panic
  end.

(** Without a cache lock the permit is dropped. *)
Definition set_write_lock (permit : Z) : Run unit :=
  let! e := get_enabled in
  match lock_ctx e with
  | Some c => do! emit (EvSetWriteLock permit); replace_lock c (Write permit)
  | None => do! emit (EvSetWriteLock permit); emit (EvDropLock (Write permit))
  end.

Definition has_staled_asset (p : CachePhase) : bool :=
  match p with Stale | StaleUpdating => true | _ => false end.
Definition can_serve_stale_error (w : World) : Run bool :=
  let! p := get_phase in
  if has_staled_asset p then let! m := cache_meta in ret (serve_stale_if_error m (w_now w))
  else ret false.
Definition can_serve_stale_updating (w : World) : Run bool :=
  let! p := get_phase in
  if has_staled_asset p then let! m := cache_meta in ret (serve_stale_while_revalidate m (w_now w))
  else ret false.

Definition released_result (s : LockStatus) : LockWaitOutcome :=
  match s with
  | Done => WDone
  | TransientError => WTransientError
  | Dangling => WDangling
  | WaitTimeout => WWaitTimeout
  | AgeTimeout => WAgeTimeout
  | GiveUp => WGiveUp
  | Waiting => WDangling
  end.

Definition wait_result (w : World) (r : Z) (o : WaitOutcome) : LockWaitOutcome :=
  match o with
  | WOAbandoned f => WAbandoned (CustomReason (unusable_reason f)) (token f)
  | Released | WOAgeTimeout => released_result (w_lock_status w r)
  end.

Definition cache_lock_wait (w : World) : Run LockWaitOutcome :=
  let! mk := maybe_cache_key in
  let unusable := mk ≫= unusable_fills in
  let! e := get_enabled in
  match lock_ctx e with
  | None => panic
  | Some c =>
      let! l := take_lock c in
      match l with
      | Some (Read r) =>
          let! h := get_cache in
          let d := digest h in
          let waited := match unusable with Some u => w_wait w r u | None => Released end in
          let outcome :=
            match wait_timeout c with
            | Some t =>
                if w_wait_in_time w r (saturating_sub t (default 0 (lock_duration d)))
                then wait_result w r waited else WWaitTimeout
            | None => wait_result w r waited
            end in
          do! set_digest (MkDigest (add_duration_to_opt (lock_duration d) (w_elapsed w))
                            (lookup_duration d) (admission_decision d)
                            (match outcome with
                             | WAbandoned reason token => Some (MkLockAbandon reason token)
                             | _ => lock_abandon d
                             end));
          ret outcome
      | _ => panic
      end
  end.

(** ** Purging and prediction *)

Definition purge_impl (w : World) (storage : StorageRef) (eviction : option EvictionRef)
    (k : CompactCacheKey) (action : PurgeAction) : Run bool :=
  let result := w_purge w storage k action in
  do! match result, eviction with
      | inl (Purged entry), Some ev => emit (EvRemove ev k entry)
      | _, _ => ret tt
      end;
  let! outcome := try result in
  ret (match outcome with NotFound => false | Purged _ | PurgeExpired => true end).

Definition purge_action (w : World) (action : PurgeAction) : Run bool :=
  let! p := get_phase in
  match p with
  | CacheKeyPhase =>
      let! i := get_inner in
      let! e := get_enabled in
      let! k := unwrap (key i) in
      purge_impl w (storage e) (eviction e) (to_compact (w_blake2b w) k) action
  | _ => panic
  end.
Definition purge (w : World) : Run bool := purge_action w PurgeDelete.
Definition expire (w : World) : Run bool := purge_action w PurgeExpire.

(** The spawned task is run where it is spawned. *)
Definition spawn_async_purge (w : World) : Run bool :=
  let! p := get_phase in
  match p with
  | Disabled _ | Uninit => panic
  | _ =>
      let! e := get_enabled in
      let! i := get_inner in
      let! k := unwrap (key i) in
      purge_impl w (storage e) (eviction e) (to_compact (w_blake2b w) k) PurgeDelete
  end.

Definition cacheable_prediction (w : World) : Run bool :=
  let! i := get_inner in
  match predictor i with
  | Some pr => let! k := cache_key in ret (w_prediction w pr k)
  | None => ret true
  end.
Definition response_became_cacheable : Run unit :=
  let! i := get_inner in
  match predictor i with
  | Some pr => let! k := cache_key in emit (EvMarkCacheable pr k)
  | None => ret tt
  end.
Definition response_became_uncacheable (reason : NoCacheReason) : Run unit :=
  let! i := get_inner in
  match predictor i with
  | Some pr => let! k := cache_key in emit (EvMarkUncacheable pr k reason)
  | None => ret tt
  end.

End http_cache.
