(* ===== verification/HttpCacheSpec.v ===== *)
(** * The HTTP cache state machine: what can go wrong, and what cannot

    Theorems on [HttpCache]: which fields are set in which phase, exactly when a
    method panics, and the fate of write permits. *)

From stdpp Require Import base list numbers strings gmap.
From Stdlib Require Import ZArith Lia.
From S2P Require Import Prelude Errors CacheControl CacheMeta CacheMetaSpec CacheKey HttpCache.
Local Open Scope Z_scope.

Section spec.
Context {M : Type} `{HeaderMap M}.
Notation Meta := (CacheMeta M).
Notation Cache := (@HttpCache M).
Notation Sess := (@Session M).

(** ** The methods as operations *)

Inductive Op :=
| OpMarkAbandoned | OpPublish (tokens : list Z)
| OpReleaseWriteLock (r : NoCacheReason) | OpDisable (r : NoCacheReason) | OpBypass
| OpEnable (s : StorageRef) (e : option EvictionRef) (p : option PredictorRef) (l : option LockRef)
    (o : option CacheOptionOverrides)
| OpSetCacheLock (l : option LockRef) (o : option CacheOptionOverrides)
| OpSetAdmissionPolicy (p : PolicyRef) | OpSetCacheKey (k : CacheKey)
| OpSetMaxFileSize (n : Z) | OpTrackBodyBytes (n : Z)
| OpCacheFound (m : Meta) (hit : HitHandler) (st : HitStatus) | OpCacheMiss
| OpFinishHitHandler | OpSetMissHandler | OpReleaseDemand | OpFinishMissHandler
| OpSetCacheMeta (m : Meta) | OpRevalidateCacheMeta (m : Meta)
| OpRevalidateUncacheable (h : ResponseHeader M) (r : NoCacheReason) | OpSetStaleUpdating
| OpUpdateVariance (v : option HashBinary) | OpCacheLookup
| OpCacheVaryLookup (v : HashBinary) (m : Meta)
| OpTakeWriteLock | OpSetWriteLock (permit : Z) | OpCacheLockWait
| OpPurge (a : PurgeAction) | OpSpawnAsyncPurge
| OpBecameCacheable | OpBecameUncacheable (r : NoCacheReason)
(** queries *)
| OpCacheKey | OpMaybeCacheKey | OpHitHandler | OpMissBodyReader | OpCacheMeta | OpMaybeCacheMeta
| OpMergeHeader (h : ResponseHeader M) | OpIsCacheLocked | OpIsCacheLockWriter
| OpCanServeStaleError | OpCanServeStaleUpdating | OpCacheablePrediction.

Definition void {A} (m : Prelude.M Sess Error A) : Prelude.M Sess Error unit :=
  let! _ := m in ret tt.

Definition run (w : World) (op : Op) : Prelude.M Sess Error unit :=
  match op with
  | OpMarkAbandoned => void mark_downstream_abandoned_during_cache_fill
  | OpPublish ts => lock_publish_fill_tokens ts
  | OpReleaseWriteLock r => release_write_lock w r
  | OpDisable r => disable w r
  | OpBypass => bypass w
  | OpEnable s e p l o => enable s e p l o
  | OpSetCacheLock l o => set_cache_lock l o
  | OpSetAdmissionPolicy p => set_admission_policy p
  | OpSetCacheKey k => set_cache_key k
  | OpSetMaxFileSize n => set_max_file_size_bytes n
  | OpTrackBodyBytes n => void (track_body_bytes_for_max_file_size n)
  | OpCacheFound m hit st => cache_found w m hit st
  | OpCacheMiss => cache_miss
  | OpFinishHitHandler => finish_hit_handler w
  | OpSetMissHandler => set_miss_handler w
  | OpReleaseDemand => void (release_miss_writer_demand w)
  | OpFinishMissHandler => finish_miss_handler w
  | OpSetCacheMeta m => set_cache_meta m
  | OpRevalidateCacheMeta m => void (revalidate_cache_meta w m)
  | OpRevalidateUncacheable h r => revalidate_uncacheable w h r
  | OpSetStaleUpdating => set_stale_updating
  | OpUpdateVariance v => update_variance v
  | OpCacheLookup => void (cache_lookup w)
  | OpCacheVaryLookup v m => void (cache_vary_lookup v m)
  | OpTakeWriteLock => void take_write_lock
  | OpSetWriteLock permit => set_write_lock permit
  | OpCacheLockWait => void (cache_lock_wait w)
  | OpPurge a => void (purge_action w a)
  | OpSpawnAsyncPurge => void (spawn_async_purge w)
  | OpBecameCacheable => response_became_cacheable
  | OpBecameUncacheable r => response_became_uncacheable r
  | OpCacheKey => void cache_key
  | OpMaybeCacheKey => void maybe_cache_key
  | OpHitHandler => void hit_handler
  | OpMissBodyReader => void (miss_body_reader w)
  | OpCacheMeta => void cache_meta
  | OpMaybeCacheMeta => void maybe_cache_meta
  | OpMergeHeader h => void (revalidate_merge_header h)
  | OpIsCacheLocked => void is_cache_locked
  | OpIsCacheLockWriter => void is_cache_lock_writer
  | OpCanServeStaleError => void (can_serve_stale_error w)
  | OpCanServeStaleUpdating => void (can_serve_stale_updating w)
  | OpCacheablePrediction => void (cacheable_prediction w)
  end.

(** ** Which fields are set in which phase *)

Definition is_some {A} (o : option A) : bool := match o with Some _ => true | None => false end.

(** The phases in which metadata is always there. *)
Definition meta_phase (p : CachePhase) : bool :=
  match p with Hit | Expired | Revalidated | RevalidatedNoCache _ => true | _ => false end.
Definition fill_phase (p : CachePhase) : bool :=
  match p with Miss | Expired => true | _ => false end.

Definition ctx_wf (p : CachePhase) (k : option CacheKey) (e : @HttpCacheInnerEnabled M) : bool :=
  eqb (negb (bool_decide (p = Uninit))) (is_some k) &&
  implb (meta_phase p) (is_some (meta e)) &&
  implb (is_some (miss_handler_field e)) (fill_phase p && is_some (meta e)).

(** [None]: never enabled; no enabled context: disabled; else neither. *)
Definition wf (h : Cache) : bool :=
  match phase h, inner h with
  | Disabled r, None => bool_decide (r = NeverEnabled)
  | Disabled r, Some i => negb (bool_decide (r = NeverEnabled)) && negb (is_some (enabled_ctx i))
  | p, Some i => match enabled_ctx i with Some e => ctx_wf p (key i) e | None => false end
  | _, None => false
  end.

(** ** When a call is allowed *)

Definition ctx_of (h : Cache) : option HttpCacheInnerEnabled := inner h ≫= enabled_ctx.
Definition meta_set (h : Cache) : bool := is_some (e ← ctx_of h; meta e).
Definition key_set (h : Cache) : bool := is_some (i ← inner h; key i).
Definition holds_write (h : Cache) : bool := match held_lock h with Some (Write _) => true | _ => false end.
Definition holds_read (h : Cache) : bool := match held_lock h with Some (Read _) => true | _ => false end.

(** The reasons a writer may give; the others are those of readers. *)
Definition writer_reason (r : NoCacheReason) : bool :=
  match r with
  | NeverEnabled | CacheLockGiveUp | CacheLockTimeout | CacheLockRetryLimit => false
  | _ => true
  end.

Definition is_disabled (p : CachePhase) : bool := match p with Disabled _ => true | _ => false end.
Definition in_lookup (p : CachePhase) : bool := match p with CacheKeyPhase | Stale => true | _ => false end.
Definition hit_phase (p : CachePhase) : bool :=
  match p with
  | Hit | Stale | StaleUpdating | Revalidated | RevalidatedNoCache _ => true
  | _ => false
  end.

Definition can_release (h : Cache) (r : NoCacheReason) : bool :=
  implb (holds_write h) (writer_reason r && negb (bool_decide (phase h = Uninit))).

(** A key can be asked for. *)
Definition key_ready (h : Cache) : bool := negb (bool_decide (phase h = Uninit)) && key_set h.

Definition streaming_reader_ready (w : World) (h : Cache) : bool :=
  match ctx_of h, (i ← inner h; key i) with
  | Some e, Some k =>
      match meta e with
      | Some m =>
          match w_get_miss_handler w (storage e) k m with
          | inl mh =>
              implb (w_streaming w (storage e))
                (match w_lookup_streaming w (storage e) k (w_streaming_tag w mh) with
                 | inl None => false
                 | _ => true
                 end)
          | inr _ => true
          end
      | None => true
      end
  | _, _ => true
  end.

Definition allowed (w : World) (op : Op) (h : Cache) : bool :=
  let p := phase h in
  match op with
  | OpMarkAbandoned | OpPublish _ | OpReleaseDemand | OpMissBodyReader | OpMaybeCacheMeta => true
  | OpReleaseWriteLock r => can_release h r
  | OpDisable r => negb (bool_decide (r = NeverEnabled)) && (is_disabled p || can_release h r)
  | OpBypass => bool_decide (p = CacheKeyPhase)
  | OpEnable _ _ _ _ _ => is_disabled p
  | OpSetCacheLock _ _ =>
      (in_lookup p || bool_decide (p = Hit)) && negb (is_some (held_lock h))
  | OpSetAdmissionPolicy _ | OpSetCacheKey _ =>
      bool_decide (p = Uninit) || bool_decide (p = CacheKeyPhase)
  | OpSetMaxFileSize _ => negb (is_disabled p)
  | OpTrackBodyBytes _ => negb (bool_decide (p = Disabled NeverEnabled))
  | OpCacheFound _ _ _ | OpCacheLookup | OpCacheVaryLookup _ _ => in_lookup p
  | OpCacheMiss => in_lookup p || bool_decide (p = Bypass)
  | OpFinishHitHandler => hit_phase p || fill_phase p
  | OpSetMissHandler =>
      fill_phase p && meta_set h && negb (is_some (e ← ctx_of h; miss_handler_field e)) &&
      streaming_reader_ready w h
  | OpFinishMissHandler => fill_phase p
  | OpSetCacheMeta _ => bool_decide (p = Miss) || (bool_decide (p = Stale) && meta_set h)
  | OpRevalidateCacheMeta _ | OpMergeHeader _ => bool_decide (p = Stale) && meta_set h
  | OpRevalidateUncacheable _ r => bool_decide (p = Stale) && meta_set h && can_release h r
  | OpSetStaleUpdating => bool_decide (p = Stale)
  | OpUpdateVariance _ => fill_phase p && meta_set h
  | OpTakeWriteLock => holds_write h
  | OpSetWriteLock _ | OpIsCacheLocked | OpIsCacheLockWriter => negb (is_disabled p)
  | OpCacheLockWait => holds_read h
  | OpPurge _ => bool_decide (p = CacheKeyPhase)
  | OpSpawnAsyncPurge => negb (is_disabled p) && negb (bool_decide (p = Uninit))
  | OpBecameCacheable | OpBecameUncacheable _ | OpCacheablePrediction =>
      match inner h with
      | None => false
      | Some i => implb (is_some (predictor i)) (key_ready h)
      end
  | OpCacheKey => key_ready h
  | OpMaybeCacheKey => bool_decide (p = Disabled NeverEnabled) || bool_decide (p = Uninit) || key_set h
  | OpHitHandler => hit_phase p && is_some (e ← ctx_of h; body_reader e)
  | OpCacheMeta =>
      meta_set h && (meta_phase p || has_staled_asset p ||
                     (bool_decide (p = Miss) && is_some (e ← ctx_of h; body_reader e)))
  | OpCanServeStaleError | OpCanServeStaleUpdating => implb (has_staled_asset p) (meta_set h)
  end.

(** ** Symbolic execution *)

Definition no_panic {A} (r : exec Sess Error A) : bool :=
  match r with Panic => false | _ => true end.

Definition ok_after {A} (r : exec Sess Error A) : bool :=
  match r with Val _ s | Fail _ s | Cancelled s => wf (cache s) | Panic => true end.

End spec.

(** Evaluates as far as the state is known, then splits on what it is stuck on. *)
Ltac exec_eval :=
  cbn -[bool_decide saturating_sub add_body_bytes to_compact filter_valid clone_header foldl
        refreshed_meta set_provenance provenance set_variance remove_variance set_header
        reset_provenance_to_created remove_variance_key set_variance_key add_duration_to_opt
        wait_result make_lock_ctx tracker_new app serve_stale_if_error
        serve_stale_while_revalidate].
Ltac exec_unfold :=
  unfold run, void, mark_downstream_abandoned_during_cache_fill, lock_publish_fill_tokens,
    bypass, enable, set_cache_lock, set_admission_policy, set_cache_key, set_max_file_size_bytes,
    track_body_bytes_for_max_file_size, cache_found, cache_miss, finish_hit_handler,
    set_miss_handler, release_miss_writer_demand, finish_miss_handler, set_cache_meta,
    revalidate_cache_meta, revalidate_uncacheable, set_stale_updating, update_variance,
    cache_lookup, cache_vary_lookup, take_write_lock, set_write_lock, cache_lock_wait,
    purge_action, spawn_async_purge, purge_impl, response_became_cacheable,
    response_became_uncacheable, cacheable_prediction, hit_handler, miss_body_reader,
    maybe_cache_meta, revalidate_merge_header, is_cache_locked, is_cache_lock_writer,
    can_serve_stale_error, can_serve_stale_updating, cache_meta, maybe_cache_key, cache_key, acquire_lock, disable,
    replace_lock, release_permit, release_write_lock, take_lock, upd_enabled, set_enabled_ctx,
    set_key, set_tracker, set_inner, get_enabled, get_inner, set_digest, set_phase, get_phase,
    get_cache, put_cache, emit, try, bind, ret, get, modify, unwrap, assert, fail, panic,
    allowed, can_release, holds_write, holds_read, held_lock, meta_set, key_set, key_ready, ctx_of.
Ltac exec_split :=
  match goal with
  | |- context [bool_decide ?P] =>
      destruct (decide P); [rewrite (bool_decide_true P) by done|rewrite (bool_decide_false P) by done]
  | |- context [match ?x with _ => _ end] =>
      lazymatch x with
      | context [match _ with _ => _ end] => fail
      | context [bool_decide _] => fail
      | _ => destruct x eqn:?
      end
  end.
Ltac exec_done :=
  simplify_eq;
  first [done
        |match goal with Hr : release_status _ _ ?r = _ |- _ => destruct r; simpl in Hr; simplify_eq; done end
        |rewrite ?andb_true_r, ?andb_false_r; done
        |match goal with Hw : ctx_wf _ _ (MkEnabled ?m _ _ ?mh _ _ _ _ _) = true |- _ =>
           destruct m, mh; done end].
Ltac exec := exec_unfold; exec_eval; repeat (exec_split; exec_eval); exec_done.

Section panics.
Context {M : Type} `{HeaderMap M}.
Notation Sess := (@Session M).

(** The shapes of a well-formed cache. *)
Lemma wf_inv (h : @HttpCache M) :
  wf h = true ->
  (exists d, h = MkHttpCache (Disabled NeverEnabled) None d) \/
  (exists r k t pr pu da d, r <> NeverEnabled /\
     h = MkHttpCache (Disabled r) (Some (MkInner None k t pr pu da)) d) \/
  (exists p m va sv mh br st ev ad lc k t pr pu da d,
     is_disabled p = false /\
     ctx_wf p k (MkEnabled m va sv mh br st ev ad lc) = true /\
     h = MkHttpCache p (Some (MkInner (Some (MkEnabled m va sv mh br st ev ad lc)) k t pr pu da)) d).
Proof.
  destruct h as [p [[[[m va sv mh br st ev ad lc]|] k t pr pu da]|] d].
  - intros Hwf. destruct p; [cbn in Hwf; by rewrite andb_false_r in Hwf|..];
      right; right; eexists _, m, va, sv, mh, br, st, ev, ad, lc, k, t, pr, pu, da, d;
      (split; [|split; [exact Hwf|]]); done.
  - destruct p as [r| | | | | | | | | |]; try done. cbn. rewrite andb_true_r. intros Hr%negb_true_iff.
    apply bool_decide_eq_false in Hr. right; left. by exists r, k, t, pr, pu, da, d.
  - destruct p as [r| | | | | | | | | |]; try done. cbn. intros ->%bool_decide_eq_true. left. by exists d.
Qed.

Lemma exec_ok (w : World) (op : Op) (s : Sess) :
  wf (cache s) = true ->
  no_panic (run w op s) = allowed w op (cache s) /\ ok_after (run w op s) = true.
Proof.
  destruct s as [h lg]. cbn [cache].
  intros [(d & ->)|[(r & k & t & pr & pu & da & d & Hr & ->)|
    (p & m & va & sv & mh & br & st & ev & ad & lc & k & t & pr & pu & da & d & Hp & Hwf & ->)]]%wf_inv.
  - destruct op; exec.
  - destruct op; exec.
  - destruct p; try done; (destruct k; try done); clear Hp; destruct op; exec.
Qed.

End panics.

(** ** Reachable states *)

Section reachable.
Context {M : Type} `{HeaderMap M}.
Notation Sess := (@Session M).

(** The state a call leaves, whether it returned a value or an error. *)
Definition after {A} (r : exec Sess Error A) : option Sess :=
  match r with Val _ s | Fail _ s | Cancelled s => Some s | Panic => None end.

Inductive reachable : Sess -> Prop :=
| reach_new : reachable (MkSession http_cache_new [])
| reach_step s w op s' : reachable s -> after (run w op s) = Some s' -> reachable s'.

Lemma reachable_wf s : reachable s -> wf (cache s) = true.
Proof.
  induction 1 as [|s w op s' _ IH Hs']; [done|].
  destruct (exec_ok w op s IH) as [_ Hok]. unfold after, ok_after in *.
  destruct (run w op s); simplify_eq; done.
Qed.

Fixpoint run_all (w : World) (ops : list Op) (s : Sess) : option Sess :=
  match ops with
  | [] => Some s
  | op :: ops => match after (run w op s) with Some s' => run_all w ops s' | None => None end
  end.

Lemma reachable_run_all w ops s s' : reachable s -> run_all w ops s = Some s' -> reachable s'.
Proof.
  revert s. induction ops as [|op ops IH]; intros s Hs; cbn; [by intros [= <-]|].
  destruct (after (run w op s)) as [s1|] eqn:Hr; [|done]. apply IH. by eapply reach_step.
Qed.

(** C27: The fields of a reachable cache.  Whatever methods were called in whatever
    order, and whatever storage, locks and policies answered: no state is kept
    before caching was enabled, the context is there exactly while caching is
    enabled or bypassed, the key exactly from the key phase on, metadata in every
    phase that promises it, and a writer only during a fill that has metadata. *)
Theorem http_cache_typestate s :
  reachable s ->
  (inner (cache s) = None <-> phase (cache s) = Disabled NeverEnabled) /\
  (ctx_of (cache s) = None <-> is_disabled (phase (cache s)) = true) /\
  (is_disabled (phase (cache s)) = false ->
   key_set (cache s) = negb (bool_decide (phase (cache s) = Uninit))) /\
  (meta_phase (phase (cache s)) = true -> meta_set (cache s) = true) /\
  (forall e mh, ctx_of (cache s) = Some e -> miss_handler_field e = Some mh ->
   fill_phase (phase (cache s)) = true /\ meta_set (cache s) = true).
Proof.
  intros Hs%reachable_wf%wf_inv. destruct (cache s) as [p i d]. clear s.
  destruct Hs as [(? & [= -> -> ->])|[(r & k & t & pr & pu & da & ? & Hr & [= -> -> ->])|
    (p' & m & va & sv & mh & br & st & ev & ad & lc & k & t & pr & pu & da & ? & Hp & Hwf & [= -> -> ->])]].
  - split_and!; cbn; naive_solver.
  - split_and!; cbn; naive_solver.
  - split_and!; cbn; [destruct p'; naive_solver..| | |].
    + intros _. destruct p', k; done.
    + unfold meta_set. cbn. destruct p', k, m; done.
    + intros e mh' [= <-]. cbn. intros ->. unfold meta_set. cbn. destruct p', k, m; done.
Qed.


End reachable.

(** ** Runs *)

(** An empty storage that streams partial writes and grants every lock. *)
Definition empty_world : @World fields := {|
  w_blake2b l := l;
  w_lookup _ _ := inl None;
  w_get_miss_handler _ _ _ := inl 1;
  w_streaming _ := true;
  w_streaming_tag _ := None;
  w_lookup_streaming _ _ _ := inl (Some (meta_new 10 0 0 0 (MkResponseHeader 200 []), 2));
  w_update_meta _ _ _ := inl true;
  w_purge _ _ _ := inl NotFound;
  w_hit_finish _ := inl tt;
  w_count_access _ := true;
  w_eviction_weight _ := 1;
  w_hit_entry _ := None;
  w_miss_entry _ := None;
  w_miss_finish _ := inl tt;
  w_release_demand _ := false;
  w_cancellation_watcher _ := None;
  w_lock _ _ _ := Write 7;
  w_custom_status _ _ := GiveUp;
  w_predicted_reason _ _ := None;
  w_prediction _ _ := true;
  w_observe _ _ := Ready 1;
  w_wait _ _ := Released;
  w_wait_in_time _ _ := true;
  w_lock_status _ := Done;
  w_elapsed := 0;
  w_now := 0
|}.

Definition new_session : @Session fields := MkSession http_cache_new [].

Definition a_key : CacheKey := cache_key_new (bytes_of "/") [].
Definition a_meta : CacheMeta fields := meta_new 10 0 0 0 (MkResponseHeader 200 []).

(** A miss that fills the cache. *)
Definition fill_ops : list (@Op fields) :=
  [OpEnable 0 None None (Some 1) None; OpSetCacheKey a_key; OpCacheLookup; OpCacheMiss;
   OpSetCacheMeta a_meta; OpSetMissHandler].

Lemma http_cache_typestate_witness :
  match run_all empty_world fill_ops new_session with
  | Some s => phase (cache s) = Miss /\ key_set (cache s) = true /\ inner (cache s) <> None
  | None => False
  end.
Proof.
  destruct (run_all empty_world fill_ops new_session) as [s|] eqn:Hs; [|by vm_compute in Hs].
  destruct (http_cache_typestate s (reachable_run_all _ _ _ _ reach_new Hs)) as (Hin & _ & Hkey & _).
  assert (phase (cache s) = Miss) as Hp by (vm_compute in Hs; by injection Hs as <-).
  rewrite Hp in *. split_and!; [done|by apply Hkey|]. intros Hn. by apply Hin in Hn.
Defined.

