(* ===== verification/HttpCachePermits.v ===== *)
(** * Write permits of the cache lock

    A request that gets the write lock of a key must give it back.  Counts, for
    every permit, how often a cache took it and how often it settled it, over any
    sequence of method calls. *)

From stdpp Require Import base list numbers strings gmap.
From Stdlib Require Import ZArith Lia.
From S2P Require Import Prelude Errors CacheControl CacheMeta CacheKey HttpCache CacheMetaSpec HttpCacheSpec.
Local Open Scope Z_scope.

Section permits.
Context {M : Type} `{HeaderMap M}.
Notation Sess := (@Session M).
Notation Run A := (Prelude.M Sess Error A).

Definition one (p q : Z) : Z := if bool_decide (p = q) then 1 else 0.

(** A permit is taken when the lock grants it or it is handed over. *)
Definition takes (p : Z) (e : @Event M) : Z :=
  match e with
  | EvLock _ _ _ (Write q) | EvSetWriteLock q => one p q
  | _ => 0
  end.

(** A permit is settled when it is released with a status, handed over to another
    request, or dropped (which the lock turns into [Dangling]). *)
Definition settles (p : Z) (e : @Event M) : Z :=
  match e with
  | EvRelease _ _ q _ | EvDropLock (Write q) | EvTakeWriteLock q => one p q
  | _ => 0
  end.

Definition total (f : @Event M -> Z) (l : list Event) : Z := foldr (fun e acc => f e + acc) 0 l.

Lemma total_snoc f l e : total f (l ++ [e]) = total f l + f e.
Proof. unfold total. induction l as [|x l IH]; simpl; [lia|]. rewrite IH. lia. Qed.

Arguments total : simpl never.
Arguments one : simpl never.

Definition held_lock_count (p : Z) (l : option Locked) : Z :=
  match l with Some (Write q) => one p q | _ => 0 end.

Definition balance (p : Z) (s : Sess) : Z :=
  total (takes p) (log s) - total (settles p) (log s) - held_lock_count p (held_lock (cache s)).

(** ** Calls that keep the balance *)

Section keep.
Variable p : Z.

Definition keep_result {A} (s : Sess) (r : exec Sess Error A) : Prop :=
  match r with Val _ s' | Fail _ s' | Cancelled s' => balance p s' = balance p s | Panic => True end.

Definition keeps {A} (m : Run A) : Prop := forall s, keep_result s (m s).

Lemma keeps_ret {A} (a : A) : keeps (ret a).
Proof. done. Qed.
Lemma keeps_fail {A} e : keeps (@fail Sess Error A e).
Proof. done. Qed.
Lemma keeps_panic {A} : keeps (@panic Sess Error A).
Proof. done. Qed.
Lemma keeps_unwrap {A} (o : option A) : keeps (unwrap o).
Proof. by destruct o. Qed.
Lemma keeps_assert b : keeps (assert b).
Proof. by destruct b. Qed.
Lemma keeps_try {A} (r : A + Error) : keeps (try r).
Proof. by destruct r. Qed.
Lemma keeps_get : keeps get_cache.
Proof. done. Qed.

Lemma keeps_bind {A B} (m : Run A) (k : A -> Run B) :
  keeps m -> (forall a, keeps (k a)) -> keeps (bind m k).
Proof.
  intros Hm Hk s. specialize (Hm s). unfold bind. destruct (m s) as [a s'|e s'|s'|]; try done.
  cbn in Hm. specialize (Hk a s'). unfold keep_result in *. by destruct (k a s'); rewrite ?Hk.
Qed.

Lemma keeps_set_phase ph : keeps (set_phase ph).
Proof. by intros [h l]. Qed.
Lemma keeps_set_digest d : keeps (set_digest d).
Proof. by intros [h l]. Qed.
Lemma keeps_get_phase : keeps get_phase.
Proof. done. Qed.
Lemma keeps_get_inner : keeps get_inner.
Proof. apply keeps_bind; [apply keeps_get|intros; apply keeps_unwrap]. Qed.
Lemma keeps_get_enabled : keeps get_enabled.
Proof. apply keeps_bind; [apply keeps_get_inner|intros; apply keeps_unwrap]. Qed.
Lemma keeps_cache_key : keeps cache_key.
Proof.
  apply keeps_bind; [apply keeps_get_phase|]. intros [[]| | | | | | | | | |];
    first [apply keeps_panic|apply keeps_bind; [apply keeps_get_inner|intros; apply keeps_unwrap]].
Qed.

Lemma keeps_upd_enabled f :
  (forall e, lock_ctx (f e) = lock_ctx e) -> keeps (upd_enabled f).
Proof.
  intros Hf [[ph [[[e|] k t pr pu da]|] d] l]; try done. cbn. unfold balance, held_lock. cbn.
  by rewrite Hf.
Qed.

Lemma keeps_set_key k : keeps (set_key k).
Proof. by intros [[ph [[[e|] ? t pr pu da]|] d] l]. Qed.
Lemma keeps_set_tracker t : keeps (set_tracker t).
Proof. by intros [[ph [[[e|] ? ? pr pu da]|] d] l]. Qed.

(** Events that concern no permit. *)
Lemma keeps_emit e : takes p e = 0 -> settles p e = 0 -> keeps (emit e).
Proof. intros Ht Hs [h l]. cbn. unfold balance. cbn. rewrite !total_snoc. lia. Qed.

(** *** Calls that move a permit *)

Ltac by_cases :=
  cbn; unfold balance, held_lock; cbn; rewrite ?total_snoc; cbn;
  repeat (case_match; simplify_eq; cbn; rewrite ?total_snoc; cbn); lia.

Lemma keeps_acquire w k stale : keeps (acquire_lock w k stale).
Proof.
  intros [[ph [[[[m va sv mh br st ev ad [[[[q|q]|] cl wt mr]|]]|] ? t pr pu da]|] d] l]; try done; by_cases.
Qed.

Lemma keeps_release_permit k st : keeps (release_permit k st).
Proof.
  intros [[ph [[[[m va sv mh br st' ev ad [[[[q|q]|] cl wt mr]|]]|] ? t pr pu da]|] d] l]; try done; by_cases.
Qed.

Lemma keeps_release_write_lock w r : keeps (release_write_lock w r).
Proof.
  intros [[ph [[[[m va sv mh br st' ev ad [[[[q|q]|] cl wt mr]|]]|] [k|] t pr pu da]|] d] l]; try done;
    cbn; try (destruct (release_status w cl r)); by_cases.
Qed.

Lemma keeps_take_write_lock : keeps take_write_lock.
Proof.
  intros [[ph [[[[m va sv mh br st' ev ad [[[[q|q]|] cl wt mr]|]]|] k t pr pu da]|] d] l]; try done; by_cases.
Qed.

Lemma keeps_set_write_lock q : keeps (set_write_lock q).
Proof.
  intros [[ph [[[[m va sv mh br st' ev ad [[[[q'|q']|] cl wt mr]|]]|] k t pr pu da]|] d] l]; try done; by_cases.
Qed.

(** Without a writer's permit in it, the context can go. *)
Lemma keeps_disable w r : keeps (disable w r).
Proof.
  intros [[ph [[[[m va sv mh br st' ev ad [[[[q|q]|] cl wt mr]|]]|] [k|] t pr pu da]|] d] l];
    unfold disable, assert, bind; destruct (negb _); try done; cbn;
    destruct ph; try (case_bool_decide; done); cbn; try (destruct (release_status w cl r)); try done;
    by_cases.
Qed.

Lemma keeps_set_cache_lock cl o : keeps (set_cache_lock cl o).
Proof.
  intros [[ph [[[[m va sv mh br st' ev ad [[[[q|q]|] cl' wt mr]|]]|] k t pr pu da]|] d] l];
    destruct ph; try done; destruct cl; by_cases.
Qed.

Lemma keeps_cache_lock_wait w : keeps (cache_lock_wait w).
Proof.
  apply keeps_bind.
  { apply keeps_bind; [apply keeps_get_phase|].
    intros [[]| | | | | | | | | |];
      first [apply keeps_ret|apply keeps_bind; [apply keeps_cache_key|intros; apply keeps_ret]]. }
  intros mk [[ph [[[[m va sv mh br st' ev ad [[[[q|q]|] cl wt mr]|]]|] k t pr pu da]|] d] l]; done.
Qed.

(** Everything else is built from these. *)
Ltac keeps_step :=
  match goal with
  | |- keeps (bind _ _) => apply keeps_bind; [|intros]
  | |- keeps (match ?x with _ => _ end) => destruct x
  | |- keeps (let _ := _ in _) => cbv zeta
  | |- keeps (upd_enabled _) => apply keeps_upd_enabled; done
  | |- keeps (emit _) => apply keeps_emit; done
  | |- keeps _ =>
      first [apply keeps_ret|apply keeps_fail|apply keeps_panic|apply keeps_unwrap
            |apply keeps_assert|apply keeps_try|apply keeps_get|apply keeps_set_phase
            |apply keeps_set_digest|apply keeps_get_phase|apply keeps_get_inner
            |apply keeps_get_enabled|apply keeps_cache_key|apply keeps_set_key
            |apply keeps_set_tracker|apply keeps_acquire|apply keeps_release_permit
            |apply keeps_release_write_lock|apply keeps_disable]
  end.

(** [enable] and the two calls that put a whole [HttpCacheInner] back. *)
Lemma keeps_enable s e pr l o (st : Sess) :
  wf (cache st) = true -> keep_result st (enable s e pr l o st).
Proof.
  destruct st as [h lg]. cbn [cache]. intros Hwf.
  destruct (phase h) as [r| | | | | | | | | |] eqn:Hph; unfold enable, bind; cbn; rewrite Hph; try done.
  unfold wf in Hwf. rewrite Hph in Hwf. cbn. unfold balance, held_lock. cbn.
  destruct (inner h) as [[[?|] k t pr' pu da]|]; cbn in *.
  - by rewrite andb_false_r in Hwf.
  - by destruct l.
  - by destruct l.
Qed.

Lemma keeps_mark : keeps mark_downstream_abandoned_during_cache_fill.
Proof. by intros [[ph [[[e|] k t pr pu da]|] d] l]. Qed.

Lemma keeps_bypass w : keeps (bypass w).
Proof.
  intros [[ph [[[e|] [k|] t [pr|] pu da]|] d] l]; destruct ph; done.
Qed.

Lemma keeps_run w op (s : Sess) : wf (cache s) = true -> keep_result s (run w op s).
Proof.
  intros Hwf. destruct op; cbn [run]; unfold void;
    try (apply keeps_enable; done); revert s Hwf;
    refine (fun s _ => (_ : keeps _) s).
  all: try (apply keeps_mark || apply keeps_bypass || apply keeps_take_write_lock
            || apply keeps_set_write_lock || apply keeps_set_cache_lock
            || apply keeps_cache_lock_wait).
  all: try (apply keeps_bind; [apply keeps_mark || apply keeps_take_write_lock
                               || apply keeps_cache_lock_wait|intros; apply keeps_ret]).
  all: unfold lock_publish_fill_tokens, set_admission_policy, set_cache_key,
    set_max_file_size_bytes, track_body_bytes_for_max_file_size, cache_found, cache_miss,
    finish_hit_handler, set_miss_handler, release_miss_writer_demand, finish_miss_handler,
    set_cache_meta, revalidate_cache_meta, revalidate_uncacheable, set_stale_updating,
    update_variance, cache_lookup, cache_vary_lookup, purge_action, spawn_async_purge, purge_impl,
    response_became_cacheable, response_became_uncacheable, cacheable_prediction, maybe_cache_key,
    hit_handler, miss_body_reader, can_serve_stale_error, can_serve_stale_updating, cache_meta,
    maybe_cache_meta, revalidate_merge_header, is_cache_locked, is_cache_lock_writer.
  all: repeat keeps_step.
Qed.

End keep.

Lemma reachable_balance p s : reachable s -> balance p s = 0.
Proof.
  induction 1 as [|s w op s' Hs IH Hafter]; [done|].
  pose proof (keeps_run p w op s (reachable_wf s Hs)) as Hk.
  unfold after, keep_result in *. destruct (run w op s); simplify_eq; lia.
Qed.

(** C28: Write permits are settled exactly once.  Over any sequence of calls, every
    permit was taken as often as it was released, handed over or dropped, plus
    once if the cache still holds it; so a granted permit is never settled twice,
    and a cache that has been disabled holds none. *)
Theorem write_permits_settled p s :
  reachable s ->
  total (takes p) (log s) = total (settles p) (log s) + held_lock_count p (held_lock (cache s)) /\
  (is_disabled (phase (cache s)) = true ->
   total (takes p) (log s) = total (settles p) (log s)).
Proof.
  intros Hs. pose proof (reachable_balance p s Hs) as Hb. unfold balance in Hb. split; [lia|].
  intros Hd. assert (held_lock (cache s) = None) as Hl; [|rewrite Hl in Hb; cbn in Hb; lia].
  apply reachable_wf in Hs. unfold wf in Hs.
  destruct (cache s) as [[] [[[e|] k t pr pu da]|] d]; try done. cbn in *.
  by rewrite andb_false_r in Hs.
Qed.

End permits.

(** The permit of a fill is released once the storage can stream the write. *)
Lemma write_permits_settled_witness :
  match run_all empty_world fill_ops new_session with
  | Some s => total (takes 7) (log s) = 1 /\ total (settles 7) (log s) = 1
  | None => False
  end.
Proof.
  destruct (run_all empty_world fill_ops new_session) as [s|] eqn:Hs; [|by vm_compute in Hs].
  destruct (write_permits_settled 7 s (reachable_run_all _ _ _ _ reach_new Hs)) as [Hb _].
  vm_compute in Hs. injection Hs as <-. split; [done|]. vm_compute in Hb. done.
Defined.
