(* ===== verification/Storage.v ===== *)
(** * Cache storage

    The reading half of [src/pingora-cache/src/storage.rs] (the trait
    [HandleHit]) and the storage of [src/pingora-cache/src/memory.rs]:
    [MemCache], its writers ([MemMissHandler]) and its readers
    ([MemHitHandler]).

    What [Arc]s share is a [Write] in a store, known by its address: the body
    written so far and the [watch] channel that publishes how much of it readers
    may take.  The sender of the channel is held by the writer and by the
    temporary object of the write; it is dropped when neither is there.  A read
    is a poll: it is pending until the channel changes or its sender is gone.  The
    text of a key's hash and the bytes of a stored [CacheMeta] are opaque. *)

From stdpp Require Import base list numbers strings gmap.
From Stdlib Require Import ZArith Lia.
From S2P Require Import Prelude Errors Text CacheControl CacheMeta HttpCache.
Local Open Scope Z_scope.

(** ** The trait [HandleHit] *)

Inductive Poll (A : Type) := Ready (a : A) | Pending | Panicked.
Arguments Ready {A} a.
Arguments Pending {A}.
Arguments Panicked {A}.

(** The operations of a reader of type [H], whose reads depend on a store [W];
    [seek] of a reader that cannot seek is [todo!] unless it is overridden. *)
Class HandleHit (W H : Type) := {
  read_body : W -> H -> Poll (option (list byte) + Error) * H;
  can_seek : H -> bool;
  can_seek_multipart : H -> bool;
  seek : H -> Z -> option Z -> option ((unit + Error) * H);
  seek_multipart : H -> Z -> option Z -> option ((unit + Error) * H)
}.

Inductive MissFinishType := Created (size : Z) | Appended (delta : Z) (max_weight : option Z).

(** ** [MemCache] *)

Module Mem.

Inductive PartialState := Partial (n : Z) | Complete (n : Z) | Aborted.

#[export] Instance PartialState_eq_dec : EqDecision PartialState.
Proof. solve_decision. Defined.

(** A body being written, its channel, and whether its writer is there. *)
Record Write := MkWrite {
  wr_body : list byte;
  wr_state : PartialState;
  wr_version : Z;
  wr_writer : bool
}.

(** *** Readers *)

Record CompleteHit := MkComplete { ch_body : list byte; ch_done : bool; range_start : Z; range_end : Z }.
Record PartialHit := MkPartial { ph_write : Z; ph_version : Z; bytes_read : Z }.
Inductive MemHitHandler := HComplete (c : CompleteHit) | HPartial (p : PartialHit).

(** [None]: the slice is out of bounds. *)
Definition complete_get (c : CompleteHit) : option (option (list byte) * CompleteHit) :=
  if ch_done c then Some (None, c)
  else
    data ← slice (ch_body c) (range_start c) (range_end c);
    Some (Some data, MkComplete (ch_body c) true (range_start c) (range_end c)).

Definition complete_seek (c : CompleteHit) (start : Z) (end_ : option Z) : (unit + Error) * CompleteHit :=
  if zlen (ch_body c) <=? start then
    (inr (explain Errors.InternalError
            (String.string_of_list_byte
               (bytes_of "seek start out of range " ++ decimal start ++ bytes_of " >= " ++
                decimal (zlen (ch_body c))))), c)
  else
    (inl tt,
     MkComplete (ch_body c) false start
       (match end_ with Some e => Z.min (zlen (ch_body c)) e | None => range_end c end)).

(** One poll of [PartialHit::read]; the assertion on [bytes_end] and the slice
    may panic.  [borrow_and_update] marks the version seen, so that [changed]
    waits unless the sender is gone. *)
Definition partial_read (w : Write) (sender_alive : bool) (p : PartialHit)
    : Poll (option (list byte) + Error) * PartialHit :=
  let p := MkPartial (ph_write p) (wr_version w) (bytes_read p) in
  let more (bytes_end : Z) :=
    if bytes_end <? bytes_read p then (Panicked, p)
    else if bytes_read p <? bytes_end then
      match slice (wr_body w) (bytes_read p) bytes_end with
      | None => (Panicked, p)
      | Some new_bytes =>
          (Ready (inl (Some new_bytes)), MkPartial (ph_write p) (ph_version p) bytes_end)
      end
    else if sender_alive then (Pending, p) else (Ready (inl None), p) in
  match wr_state w with
  | Partial s => more s
  | Complete c => if c =? bytes_read p then (Ready (inl None), p) else more c
  | Aborted =>
      (Ready (inr (explain Errors.InternalError "cache write ended before the body was complete")), p)
  end.

Definition should_count_access (h : MemHitHandler) : bool :=
  match h with HComplete _ => true | HPartial _ => false end.
Definition get_eviction_weight (h : MemHitHandler) : Z :=
  match h with HComplete c => zlen (ch_body c) | HPartial _ => 0 end.

(** *** The store *)

Section mem.
Context {K : Type} `{Countable K} {M : Type} {Bin : Type}.
Notation Meta := (CacheMeta M).
(** [CacheMeta::serialize] and [deserialize]. *)
Variable serialize : Meta -> Bin + Error.
Variable deserialize : Bin -> Meta + Error.
(** [HashMap::iter().next()]. *)
Variable first_entry : forall A, gmap Z A -> option A.

Record CacheObject := MkObject { co_meta : Bin; co_body : list byte }.
Record TempObject := MkTemp { to_meta : Bin; to_write : Z }.

Record MemCache := MkMem {
  cached : gmap K CacheObject;
  temp : gmap K (gmap Z TempObject);
  last_temp_id : Z;
  fail_readers : bool;
  writes : gmap Z Write;
  next_write : Z
}.

Definition mem_new (fail : bool) : MemCache := MkMem ∅ ∅ 0 fail ∅ 0.

Definition with_cached (c : gmap K CacheObject) (m : MemCache) : MemCache :=
  MkMem c (temp m) (last_temp_id m) (fail_readers m) (writes m) (next_write m).
Definition with_temp (t : gmap K (gmap Z TempObject)) (m : MemCache) : MemCache :=
  MkMem (cached m) t (last_temp_id m) (fail_readers m) (writes m) (next_write m).
Definition with_writes (w : gmap Z Write) (m : MemCache) : MemCache :=
  MkMem (cached m) (temp m) (last_temp_id m) (fail_readers m) w (next_write m).

(** Does the writer or a temporary object hold the sender? *)
Definition sender_alive (m : MemCache) (w : Z) : bool :=
  match writes m !! w with Some x => wr_writer x | None => false end ||
  bool_decide (map_Exists (fun _ map => map_Exists (fun _ t => to_write t = w) map) (temp m)).

#[export] Instance mem_handle_hit : HandleHit MemCache MemHitHandler := {
  read_body m h :=
    match h with
    | HComplete c =>
        match complete_get c with
        | Some (r, c) => (Ready (inl r), HComplete c)
        | None => (Panicked, h)
        end
    | HPartial p =>
        match writes m !! ph_write p with
        | Some w =>
            let '(r, p) := partial_read w (sender_alive m (ph_write p)) p in (r, HPartial p)
        | None => (Panicked, h)
        end
    end;
  can_seek h := match h with HComplete _ => true | HPartial _ => false end;
  can_seek_multipart h := match h with HComplete _ => true | HPartial _ => false end;
  seek h start end_ :=
    Some match h with
         | HComplete c => let '(r, c) := complete_seek c start end_ in (r, HComplete c)
         | HPartial _ => (inr (explain Errors.InternalError "seek not supported for partial cache"), h)
         end;
  seek_multipart h start end_ :=
    Some match h with
         | HComplete c => let '(r, c) := complete_seek c start end_ in (r, HComplete c)
         | HPartial _ => (inr (explain Errors.InternalError "seek not supported for partial cache"), h)
         end
}.

(** [send_replace]. *)
Definition send_replace (w : Z) (s : PartialState) (m : MemCache) : MemCache :=
  with_writes (alter (fun x => MkWrite (wr_body x) s (wr_version x + 1) (wr_writer x)) w (writes m)) m.

(** *** Writers *)

Record MemMissHandler := MkMiss {
  mh_key : K;
  mh_temp_id : Z;
  mh_write : Z;
  mh_fail_readers_if_dropped : bool;
  mh_finished : bool
}.

(** The body is extended first; what readers may take is published after. *)
Definition write_extend (h : MemMissHandler) (data : list byte) (eof : bool) (m : MemCache)
    : option (PartialState * MemCache) :=
  w ← writes m !! mh_write h;
  match wr_state w with
  | Partial current_bytes =>
      let written := current_bytes + zlen data in
      Some (if eof then Complete written else Partial written,
            with_writes (<[mh_write h := MkWrite (wr_body w ++ data) (wr_state w) (wr_version w) (wr_writer w)]>
                           (writes m)) m)
  | Complete _ | Aborted => None
  end.

Definition write_publish (h : MemMissHandler) (new_state : PartialState) (m : MemCache) : MemCache :=
  send_replace (mh_write h) new_state m.

Definition write_body (h : MemMissHandler) (data : list byte) (eof : bool) (m : MemCache) : option MemCache :=
  '(new_state, m) ← write_extend h data eof m;
  Some (write_publish h new_state m).

Definition remove_temp (k : K) (temp_id : Z) (m : MemCache) : MemCache :=
  match temp m !! k with
  | None => m
  | Some map => with_temp (<[k := delete temp_id map]> (temp m)) m
  end.

(** [Drop for MemMissHandler], then the drop of its sender. *)
Definition miss_drop (h : MemMissHandler) (m : MemCache) : MemCache :=
  let m := remove_temp (mh_key h) (mh_temp_id h) m in
  let m :=
    if mh_fail_readers_if_dropped h && negb (mh_finished h)
    then send_replace (mh_write h) Aborted m else m in
  with_writes (alter (fun x => MkWrite (wr_body x) (wr_state x) (wr_version x) false) (mh_write h) (writes m)) m.

Definition make_cache_object (m : MemCache) (t : TempObject) : option CacheObject :=
  w ← writes m !! to_write t; Some (MkObject (to_meta t) (wr_body w)).

(** [None]: one of the two [unwrap] panics.  The handler is dropped at the end. *)
Definition miss_finish (h : MemMissHandler) (m : MemCache) : option (MissFinishType * MemCache) :=
  map ← temp m !! mh_key h;
  t ← map !! mh_temp_id h;
  cache_object ← make_cache_object m t;
  let size := zlen (co_body cache_object) in
  let m := with_cached (<[mh_key h := cache_object]> (cached m)) m in
  let m := remove_temp (mh_key h) (mh_temp_id h) m in
  Some (Created size, miss_drop (MkMiss (mh_key h) (mh_temp_id h) (mh_write h)
                                   (mh_fail_readers_if_dropped h) true) m).

(** *** [impl Storage for MemCache] *)

Definition hit_from_temp_obj (m : MemCache) (t : TempObject) : option (Meta * MemHitHandler) + Error :=
  match deserialize (to_meta t) with
  | inr e => inr e
  | inl meta =>
      let version := match writes m !! to_write t with Some w => wr_version w | None => 0 end in
      inl (Some (meta, HPartial (MkPartial (to_write t) version 0)))
  end.

Definition lookup (m : MemCache) (hash : K) : option (Meta * MemHitHandler) + Error :=
  match temp m !! hash ≫= first_entry TempObject with
  | Some temp_obj => hit_from_temp_obj m temp_obj
  | None =>
      match cached m !! hash with
      | Some obj =>
          match deserialize (co_meta obj) with
          | inr e => inr e
          | inl meta => inl (Some (meta, HComplete (MkComplete (co_body obj) false 0 (zlen (co_body obj)))))
          end
      | None => inl None
      end
  end.

(** [None]: an [expect] panics. *)
Definition lookup_streaming_write (m : MemCache) (hash : K) (write_tag : option Z)
    : option (option (Meta * MemHitHandler) + Error) :=
  tag ← write_tag;
  map ← temp m !! hash;
  t ← map !! tag;
  Some (hit_from_temp_obj m t).

(** [fetch_add] of a [u64] wraps. *)
Definition get_miss_handler (m : MemCache) (hash : K) (meta : Meta) : (MemMissHandler + Error) * MemCache :=
  match serialize meta with
  | inr e => (inr e, m)
  | inl bin =>
      let w := next_write m in
      let temp_id := last_temp_id m in
      let h := MkMiss hash temp_id w (fail_readers m) false in
      let map := default ∅ (temp m !! hash) in
      (inl h,
       MkMem (cached m) (<[hash := <[temp_id := MkTemp bin w]> map]> (temp m))
         (wadd temp_id 1) (fail_readers m) (<[w := MkWrite [] (Partial 0) 0 true]> (writes m)) (w + 1))
  end.

(** The kind of entry a purge or an expiry targets: its key, or an identity
    that this store does not keep. *)
Inductive PurgeTarget := TActive (hash : K) | TKeyOnly (hash : K) | TIdentified (hash : K) (entry_id : Z).

Definition target_hash (t : PurgeTarget) : K :=
  match t with TActive h | TKeyOnly h | TIdentified h _ => h end.

Definition mem_purge (t : PurgeTarget) (m : MemCache) : PurgeOutcome * MemCache :=
  match t with
  | TIdentified _ _ => (NotFound, m)
  | _ =>
      let hash := target_hash t in
      let temp_removed := bool_decide (is_Some (temp m !! hash)) in
      let cache_removed := bool_decide (is_Some (cached m !! hash)) in
      (if temp_removed || cache_removed then Purged None else NotFound,
       with_cached (delete hash (cached m)) (with_temp (delete hash (temp m)) m))
  end.

Definition mem_expire (t : PurgeTarget) (now : Z) (m : MemCache) : (PurgeOutcome + Error) * MemCache :=
  match t with
  | TIdentified _ _ => (inl NotFound, m)
  | _ =>
      let hash := target_hash t in
      match cached m !! hash with
      | None => (inl NotFound, m)
      | Some obj =>
          match deserialize (co_meta obj) with
          | inr e => (inr e, m)
          | inl meta =>
              match serialize (expire_at meta now) with
              | inr e => (inr e, m)
              | inl bin =>
                  (inl PurgeExpired,
                   with_cached (<[hash := MkObject bin (co_body obj)]> (cached m)) m)
              end
          end
      end
  end.

(** [None]: "no meta found". *)
Definition mem_update_meta (hash : K) (meta : Meta) (m : MemCache) : option ((bool + Error) * MemCache) :=
  match cached m !! hash with
  | None => None
  | Some obj =>
      Some match serialize meta with
           | inr e => (inr e, m)
           | inl bin =>
               (inl true, with_cached (<[hash := MkObject bin (co_body obj)]> (cached m)) m)
           end
  end.

End mem.
End Mem.
