(* ===== verification/StorageSpec.v ===== *)
(** * Cache storage: theorems

    Writers and readers of [MemCache] in every interleaving of their steps: what
    a reader has taken is the beginning of what the writer wrote, and a reader
    whose body ends cleanly has taken all of it. *)

From stdpp Require Import base list numbers strings gmap.
From Stdlib Require Import ZArith Lia.
From S2P Require Import Prelude Errors Text CacheControl CacheMeta HttpCache Storage.
Import Mem.
Local Open Scope Z_scope.

Section store.
Context {K : Type} `{Countable K} {M : Type} {Bin : Type}.
Variable serialize : CacheMeta M -> Bin + Error.
Variable deserialize : Bin -> CacheMeta M + Error.
Variable first_entry : forall A, gmap Z A -> option A.
Notation MemCache := (@MemCache K _ _ Bin).
Implicit Types (m : MemCache) (w : Z) (x : Write).

(** ** Interleavings *)

(** A writer, between extending the body and publishing it or not. *)
Record Writer := MkWriter { w_handler : @MemMissHandler K; w_pending : option PartialState }.
(** A reader, what it has taken, and how its body ended. *)
Record Reader := MkReader { rd_hit : PartialHit; rd_got : list byte; rd_end : option (unit + Error) }.

(** The store, its writers by the address of their write, its readers, and the
    writes that were completed: by their last piece, or by [finish]. *)
Record Sys := MkSys {
  sy_mem : MemCache;
  sy_writers : gmap Z Writer;
  sy_readers : gmap Z Reader;
  sy_whole : gset Z
}.

Definition publishes_end (s : PartialState) : bool := match s with Complete _ => true | _ => false end.

(** What one poll makes of a reader. *)
Definition poll_reader m (r : Reader) : option Reader :=
  match read_body m (HPartial (rd_hit r)) with
  | (Ready (inl (Some d)), HPartial p) => Some (MkReader p (rd_got r ++ d) None)
  | (Ready (inl None), HPartial p) => Some (MkReader p (rd_got r) (Some (inl tt)))
  | (Ready (inr e), HPartial p) => Some (MkReader p (rd_got r) (Some (inr e)))
  | (Pending, HPartial p) => Some (MkReader p (rd_got r) None)
  | _ => None
  end.

Inductive step : Sys -> Sys -> Prop :=
| st_open m m' ws rs wh hash meta h :
    get_miss_handler serialize m hash meta = (inl h, m') ->
    step (MkSys m ws rs wh) (MkSys m' (<[mh_write h := MkWriter h None]> ws) rs wh)
| st_extend m m' ws rs wh w h d eof s :
    ws !! w = Some (MkWriter h None) -> write_extend h d eof m = Some (s, m') ->
    step (MkSys m ws rs wh) (MkSys m' (<[w := MkWriter h (Some s)]> ws) rs wh)
| st_publish m ws rs wh w h s :
    ws !! w = Some (MkWriter h (Some s)) ->
    step (MkSys m ws rs wh)
      (MkSys (write_publish h s m) (<[w := MkWriter h None]> ws) rs
         (if publishes_end s then {[w]} ∪ wh else wh))
| st_finish m m' ws rs wh w h t :
    ws !! w = Some (MkWriter h None) -> miss_finish h m = Some (t, m') ->
    step (MkSys m ws rs wh) (MkSys m' (delete w ws) rs ({[w]} ∪ wh))
| st_drop m ws rs wh w h :
    ws !! w = Some (MkWriter h None) ->
    step (MkSys m ws rs wh) (MkSys (miss_drop h m) (delete w ws) rs wh)
| st_attach m ws rs wh hash meta p r :
    Mem.lookup deserialize first_entry m hash = inl (Some (meta, HPartial p)) ->
    step (MkSys m ws rs wh) (MkSys m ws (<[r := MkReader p [] None]> rs) wh)
| st_attach_tag m ws rs wh hash tag meta p r :
    lookup_streaming_write deserialize m hash tag = Some (inl (Some (meta, HPartial p))) ->
    step (MkSys m ws rs wh) (MkSys m ws (<[r := MkReader p [] None]> rs) wh)
| st_poll m ws rs wh r rd rd' :
    rs !! r = Some rd -> rd_end rd = None -> poll_reader m rd = Some rd' ->
    step (MkSys m ws rs wh) (MkSys m ws (<[r := rd']> rs) wh)
| st_purge m ws rs wh t :
    step (MkSys m ws rs wh) (MkSys (mem_purge t m).2 ws rs wh)
| st_expire m ws rs wh t now :
    step (MkSys m ws rs wh) (MkSys (mem_expire serialize deserialize t now m).2 ws rs wh)
| st_update m m' ws rs wh hash meta r :
    mem_update_meta serialize hash meta m = Some (r, m') ->
    step (MkSys m ws rs wh) (MkSys m' ws rs wh).

Definition sys_new (fail : bool) : Sys := MkSys (mem_new fail) ∅ ∅ ∅.

Inductive reachable (fail : bool) : Sys -> Prop :=
| reach_new : reachable fail (sys_new fail)
| reach_step s s' : reachable fail s -> step s s' -> reachable fail s'.

(** ** The invariant *)

(** The bytes a state lets readers take. *)
Definition published x : Z :=
  match wr_state x with Partial n | Complete n => n | Aborted => zlen (wr_body x) end.

Definition state_size (s : PartialState) : option Z :=
  match s with Partial n | Complete n => Some n | Aborted => None end.

(** A write, with what its writer has still to publish. *)
Record write_ok (fail : bool) (whole : Prop) (pending : option (option PartialState)) x : Prop := {
  wo_bound : 0 <= published x <= zlen (wr_body x);
  wo_writer : wr_writer x = true <-> pending <> None;
  wo_even : (pending = None \/ pending = Some None) -> published x = zlen (wr_body x);
  wo_pending : forall s, pending = Some (Some s) ->
    (exists n, wr_state x = Partial n) /\ state_size s = Some (zlen (wr_body x)) /\ ~ whole;
  wo_live : pending <> None -> wr_state x <> Aborted;
  wo_complete : publishes_end (wr_state x) = true -> whole;
  wo_whole : whole -> publishes_end (wr_state x) = true \/ pending = None;
  wo_dropped : fail = true -> pending = None -> wr_state x <> Aborted -> whole
}.

Record reader_ok (whole : gset Z) m (rd : Reader) : Prop := {
  ro_write : exists x, writes m !! ph_write (rd_hit rd) = Some x /\
    0 <= bytes_read (rd_hit rd) <= published x /\ rd_got rd = ztake (bytes_read (rd_hit rd)) (wr_body x) /\
    (fail_readers m = true -> rd_end rd = Some (inl tt) ->
     ph_write (rd_hit rd) ∈ whole /\ rd_got rd = wr_body x)
}.

Record sys_ok (s : Sys) : Prop := {
  so_writes : forall w x, writes (sy_mem s) !! w = Some x ->
    w < next_write (sy_mem s) /\
    write_ok (fail_readers (sy_mem s)) (w ∈ sy_whole s) (w_pending <$> sy_writers s !! w) x;
  so_writers : forall w wr, sy_writers s !! w = Some wr ->
    mh_write (w_handler wr) = w /\ is_Some (writes (sy_mem s) !! w) /\
    mh_finished (w_handler wr) = false /\ mh_fail_readers_if_dropped (w_handler wr) = fail_readers (sy_mem s);
  so_temp : forall k map i t, temp (sy_mem s) !! k = Some map -> map !! i = Some t ->
    is_Some (writes (sy_mem s) !! to_write t);
  so_readers : forall r rd, sy_readers s !! r = Some rd -> reader_ok (sy_whole s) (sy_mem s) rd;
  so_fresh : forall w, w ∈ sy_whole s -> w < next_write (sy_mem s)
}.

(** ** Every step keeps it *)

(** A write goes from [x] to [x'] without taking anything from its readers. *)
Definition grows (whole : Prop) x x' : Prop :=
  published x <= published x' /\ exists d, wr_body x' = wr_body x ++ d /\ (whole -> d = []).

Lemma grows_refl (P : Prop) x : grows P x x.
Proof. split; [lia|]. exists []. by rewrite app_nil_r. Qed.

Lemma reader_grows wh wh' m m' rd :
  reader_ok wh m rd -> wh ⊆ wh' -> fail_readers m' = fail_readers m ->
  (forall w x, writes m !! w = Some x -> exists x', writes m' !! w = Some x' /\ grows (w ∈ wh) x x') ->
  (forall w x, writes m !! w = Some x -> published x <= zlen (wr_body x)) ->
  reader_ok wh' m' rd.
Proof.
  intros [(x & Hx & Hb & Hg & He)] Hwh Hf Hgr Hpub. destruct (Hgr _ _ Hx) as (x' & Hx' & Hp & d & Hd & Hnil).
  specialize (Hpub _ _ Hx). constructor. exists x'. split_and!; [done|lia|lia| |].
  - rewrite Hd, ztake_app_l; [done|]. lia.
  - rewrite Hf. intros Hfail Hend. destruct (He Hfail Hend) as [Hin Hall]. split; [set_solver|].
    by rewrite Hd, (Hnil Hin), app_nil_r.
Qed.

(** A step that changes at most one write, its writer and whether it is whole. *)
Lemma sys_ok_change m m' ws ws' rs wh wh' w x x' :
  sys_ok (MkSys m ws rs wh) ->
  writes m !! w = Some x -> writes m' = <[w := x']> (writes m) ->
  next_write m' = next_write m -> fail_readers m' = fail_readers m ->
  (forall k map' i t, temp m' !! k = Some map' -> map' !! i = Some t ->
     exists map, temp m !! k = Some map /\ map !! i = Some t) ->
  wh ⊆ wh' -> (forall w', w' <> w -> w' ∈ wh' -> w' ∈ wh) ->
  (forall w', w' <> w -> ws' !! w' = ws !! w') ->
  (forall wr, ws' !! w = Some wr -> exists wr0, ws !! w = Some wr0 /\ w_handler wr = w_handler wr0) ->
  grows (w ∈ wh) x x' ->
  write_ok (fail_readers m) (w ∈ wh') (w_pending <$> ws' !! w) x' ->
  sys_ok (MkSys m' ws' rs wh').
Proof.
  intros [Hw Hwr Ht Hr Hfr] Hx Hwrites Hnext Hfail Htemp Hsub Hoth Hws Hwsw Hgr Hok. simpl in *.
  assert (forall w', is_Some (writes m !! w') -> is_Some (writes m' !! w')) as Hdom.
  { intros w' [y Hy]. rewrite Hwrites. destruct (decide (w' = w)) as [->|];
      [rewrite lookup_insert_eq|rewrite lookup_insert_ne by done]; eauto. }
  constructor; simpl.
  - intros w' y. rewrite Hwrites, Hnext, Hfail. destruct (decide (w' = w)) as [->|Hne].
    + rewrite lookup_insert_eq. intros [= <-]. split; [by destruct (Hw _ _ Hx)|done].
    + rewrite lookup_insert_ne by done. intros Hy. destruct (Hw _ _ Hy) as [Hlt Hy']. split; [done|].
      rewrite Hws by done. assert (w' ∈ wh' <-> w' ∈ wh) as Hiff by (split; [by apply Hoth|set_solver]).
      destruct Hy'. constructor; rewrite ?Hiff; try done. intros s' Hs'. destruct (wo_pending0 s' Hs') as (? & ? & ?).
      split_and!; [done|done|by rewrite Hiff].
  - intros w' wr Hwr'. rewrite Hfail. destruct (decide (w' = w)) as [->|Hne].
    + destruct (Hwsw _ Hwr') as (wr0 & Hwr0 & ->). destruct (Hwr _ _ Hwr0) as (? & ? & ? & ?). auto.
    + rewrite Hws in Hwr' by done. destruct (Hwr _ _ Hwr') as (? & ? & ? & ?). auto.
  - intros k map' i t Hk Hi. destruct (Htemp _ _ _ _ Hk Hi) as (map & Hk' & Hi'). eauto.
  - intros r rd Hrd. apply (reader_grows wh wh' m); [by apply Hr in Hrd|done|done|..].
    + intros w' y Hy. rewrite Hwrites. destruct (decide (w' = w)) as [->|Hne].
      * rewrite lookup_insert_eq. rewrite Hx in Hy. injection Hy as <-. eauto.
      * rewrite lookup_insert_ne by done. exists y. split; [done|apply grows_refl].
    + intros w' y Hy. destruct (Hw _ _ Hy) as [_ []]. lia.
  - intros w' Hin. rewrite Hnext. destruct (decide (w' = w)) as [->|Hne]; [by destruct (Hw _ _ Hx)|auto].
Qed.

(** A step that changes no write. *)
Lemma sys_ok_same m m' ws rs rs' wh :
  sys_ok (MkSys m ws rs wh) -> writes m' = writes m -> next_write m' = next_write m ->
  fail_readers m' = fail_readers m ->
  (forall k map' i t, temp m' !! k = Some map' -> map' !! i = Some t ->
     exists map, temp m !! k = Some map /\ map !! i = Some t) ->
  (forall r rd, rs' !! r = Some rd -> rs !! r = Some rd \/ reader_ok wh m rd) ->
  sys_ok (MkSys m' ws rs' wh).
Proof.
  intros [Hw Hwr Ht Hr Hfr] Hwrites Hnext Hfail Htemp Hrs. simpl in *.
  constructor; simpl; rewrite ?Hwrites, ?Hnext, ?Hfail; try done.
  - intros k map' i t Hk Hi. destruct (Htemp _ _ _ _ Hk Hi) as (map & Hk' & Hi'). eauto.
  - intros r rd Hrd. assert (reader_ok wh m rd) as [Hok] by (destruct (Hrs _ _ Hrd) as [|]; eauto).
    constructor. by rewrite Hwrites, Hfail.
Qed.

Lemma alter_insert_same {A} (f : A -> A) (g : gmap Z A) w a : g !! w = Some a -> alter f w g = <[w := f a]> g.
Proof.
  intros Hw. apply map_eq. intros i. destruct (decide (i = w)) as [->|Hne].
  - by rewrite lookup_alter_eq, Hw, lookup_insert_eq.
  - by rewrite lookup_alter_ne, lookup_insert_ne by done.
Qed.

Lemma extend_ok m m' ws rs wh w h d eof s :
  sys_ok (MkSys m ws rs wh) -> ws !! w = Some (MkWriter h None) -> write_extend h d eof m = Some (s, m') ->
  sys_ok (MkSys m' (<[w := MkWriter h (Some s)]> ws) rs wh).
Proof.
  intros Hok Hws. destruct (so_writers _ Hok w _ Hws) as (Hmh & [x Hx] & _). simpl in Hmh, Hx. unfold write_extend.
  rewrite Hmh, Hx. simpl. destruct (so_writes _ Hok w x Hx) as [_ Hwo]. simpl in Hwo. rewrite Hws in Hwo. simpl in Hwo.
  destruct (wr_state x) as [n| |] eqn:Hst; [|done|done]. intros [= <- <-].
  assert (published x = zlen (wr_body x)) as Hpub by (apply (wo_even _ _ _ _ Hwo); by right).
  assert (n = zlen (wr_body x)) as Hn by (unfold published in Hpub; by rewrite Hst in Hpub).
  assert (w ∉ wh) as Hnw.
  { intros Hin. destruct (wo_whole _ _ _ _ Hwo Hin) as [He|He]; [|done]. by rewrite Hst in He. }
  pose proof (zlen_nonneg d). pose proof (zlen_nonneg (wr_body x)).
  eapply (sys_ok_change m _ ws); try done; simpl.
  - intros ? map' i t Hk Hi. eauto.
  - intros w' Hne. by rewrite lookup_insert_ne.
  - intros wr. rewrite lookup_insert_eq. intros [= <-]. eauto.
  - split; [unfold published; simpl; rewrite Hst; lia|]. exists d. split; [done|]. intros Hin. by destruct Hnw.
  - rewrite lookup_insert_eq. simpl. destruct Hwo.
    constructor; unfold published in *; simpl; rewrite ?Hst in *; try done; rewrite ?zlen_app; try lia.
    + split; [done|]. intros _. by apply wo_writer0.
    + intros [|]; done.
    + intros s [= <-]. split_and!; [eauto| |done]. destruct eof; simpl; f_equal; lia.
Qed.

Lemma publish_ok m ws rs wh w h s :
  sys_ok (MkSys m ws rs wh) -> ws !! w = Some (MkWriter h (Some s)) ->
  sys_ok (MkSys (write_publish h s m) (<[w := MkWriter h None]> ws) rs (if publishes_end s then {[w]} ∪ wh else wh)).
Proof.
  intros Hok Hws. destruct (so_writers _ Hok w _ Hws) as (Hmh & [x Hx] & _). simpl in Hmh, Hx.
  destruct (so_writes _ Hok w x Hx) as [_ Hwo]. simpl in Hwo. rewrite Hws in Hwo. simpl in Hwo.
  destruct (wo_pending _ _ _ _ Hwo s eq_refl) as ((n & Hst) & Hsz & Hnw).
  assert (published (MkWrite (wr_body x) s (wr_version x + 1) (wr_writer x)) = zlen (wr_body x)) as Hpub.
  { unfold published. simpl. destruct s; simpl in *; congruence. }
  unfold write_publish, send_replace. rewrite Hmh.
  eapply (sys_ok_change m _ ws); try done; simpl.
  - by rewrite (alter_insert_same _ _ _ x).
  - intros ? map' i t Hk Hi. eauto.
  - destruct (publishes_end s); set_solver.
  - destruct (publishes_end s); set_solver.
  - intros w' Hne. by rewrite lookup_insert_ne.
  - intros wr. rewrite lookup_insert_eq. intros [= <-]. eauto.
  - split; [rewrite Hpub; destruct Hwo; lia|]. exists []. by rewrite app_nil_r.
  - rewrite lookup_insert_eq. simpl. destruct Hwo. constructor; rewrite ?Hpub; simpl; try done.
    + destruct wo_bound0. lia.
    + split; [done|]. intros _. by apply wo_writer0.
    + intros _. by destruct s.
    + intros ->. set_solver.
    + destruct (publishes_end s) eqn:He; [by left|]. intros Hin. done.
Qed.

Lemma remove_temp_mem k i m :
  writes (remove_temp k i m) = writes m /\ next_write (remove_temp k i m) = next_write m /\
  fail_readers (remove_temp k i m) = fail_readers m /\
  forall k' map' i' t, temp (remove_temp k i m) !! k' = Some map' -> map' !! i' = Some t ->
    exists map, temp m !! k' = Some map /\ map !! i' = Some t.
Proof.
  unfold remove_temp. destruct (temp m !! k) as [map|] eqn:Hk; [|by eauto 10]. simpl. split_and!; [done..|].
  intros k' map' i' t. destruct (decide (k' = k)) as [->|Hne].
  - rewrite lookup_insert_eq. intros [= <-] [_ Hi]%lookup_delete_Some. eauto.
  - rewrite lookup_insert_ne by done. eauto.
Qed.

(** The write after its writer is gone. *)
Definition dropped (abort : bool) x : Write :=
  if abort then MkWrite (wr_body x) Aborted (wr_version x + 1) false
  else MkWrite (wr_body x) (wr_state x) (wr_version x) false.

Lemma miss_drop_mem h m x :
  writes m !! mh_write h = Some x ->
  let m' := miss_drop h m in
  writes m' = <[mh_write h := dropped (mh_fail_readers_if_dropped h && negb (mh_finished h)) x]> (writes m) /\
  next_write m' = next_write m /\ fail_readers m' = fail_readers m /\
  forall k' map' i' t, temp m' !! k' = Some map' -> map' !! i' = Some t ->
    exists map, temp m !! k' = Some map /\ map !! i' = Some t.
Proof.
  intros Hx. destruct (remove_temp_mem (mh_key h) (mh_temp_id h) m) as (Hw & Hn & Hf & Ht).
  unfold miss_drop, dropped, send_replace. destruct (_ && _); simpl; rewrite Hw; split_and!; try done.
  - rewrite (alter_insert_same _ (writes m) _ x), (alter_insert_same _ _ _ _ (lookup_insert_eq _ _ _)) by done.
    by rewrite insert_insert_eq.
  - by rewrite (alter_insert_same _ _ _ x).
Qed.

Lemma gone_ok fail (whole whole' : Prop) x abort :
  write_ok fail whole (Some None) x -> (whole -> whole') ->
  (fail = true -> abort = false -> whole') ->
  write_ok fail whole' None (dropped abort x).
Proof.
  intros [] Himp Hd. assert (published x = zlen (wr_body x)) as Hpub by (apply wo_even0; by right).
  pose proof (zlen_nonneg (wr_body x)).
  unfold dropped, published in *. destruct abort; constructor; simpl in *; try done; try lia; auto.
Qed.

Lemma finish_ok m m' ws rs wh w h t :
  sys_ok (MkSys m ws rs wh) -> ws !! w = Some (MkWriter h None) -> miss_finish h m = Some (t, m') ->
  sys_ok (MkSys m' (delete w ws) rs ({[w]} ∪ wh)).
Proof.
  intros Hok Hws. destruct (so_writers _ Hok w _ Hws) as (Hmh & [x Hx] & Hfin & Hfail). simpl in *.
  destruct (so_writes _ Hok w x Hx) as [_ Hwo]. simpl in Hwo. rewrite Hws in Hwo. simpl in Hwo.
  unfold miss_finish. destruct (temp m !! mh_key h) as [map|]; simpl; [|done].
  destruct (map !! mh_temp_id h) as [t'|]; simpl; [|done]. destruct (make_cache_object m t') as [o|]; simpl; [|done].
  intros [= <- <-]. set (h' := MkMiss _ _ _ _ true). set (m1 := with_cached _ m).
  destruct (remove_temp_mem (mh_key h) (mh_temp_id h) m1) as (Hw1 & Hn1 & Hf1 & Ht1).
  destruct (miss_drop_mem h' (remove_temp (mh_key h) (mh_temp_id h) m1) x) as (Hw2 & Hn2 & Hf2 & Ht2).
  { simpl. by rewrite Hw1, Hmh. }
  assert (published x = zlen (wr_body x)) as Hpub by (apply (wo_even _ _ _ _ Hwo); by right).
  rewrite Hw1 in Hw2. change (mh_fail_readers_if_dropped h' && negb (mh_finished h')) with (mh_fail_readers_if_dropped h && false) in Hw2.
  change (mh_write h') with (mh_write h) in Hw2. rewrite andb_false_r, Hmh in Hw2. rewrite Hn1 in Hn2. rewrite Hf1 in Hf2.
  apply (sys_ok_change m _ ws _ rs wh _ w x (dropped false x)); [done|done|exact Hw2|exact Hn2|exact Hf2|..].
  - intros k' map' i' t0 Hk Hi. destruct (Ht2 _ _ _ _ Hk Hi) as (? & ? & ?). by eapply Ht1.
  - set_solver.
  - set_solver.
  - intros w' Hne. by rewrite lookup_delete_ne.
  - intros wr. by rewrite lookup_delete_eq.
  - split; [done|]. exists []. by rewrite app_nil_r.
  - rewrite lookup_delete_eq. simpl. apply (gone_ok _ (w ∈ wh) _ x false); [exact Hwo|set_solver|intros; set_solver].
Qed.

Lemma drop_ok m ws rs wh w h :
  sys_ok (MkSys m ws rs wh) -> ws !! w = Some (MkWriter h None) ->
  sys_ok (MkSys (miss_drop h m) (delete w ws) rs wh).
Proof.
  intros Hok Hws. destruct (so_writers _ Hok w _ Hws) as (Hmh & [x Hx] & Hfin & Hfail). simpl in *.
  destruct (so_writes _ Hok w x Hx) as [_ Hwo]. simpl in Hwo. rewrite Hws in Hwo. simpl in Hwo.
  destruct (miss_drop_mem h m x) as (Hw2 & Hn2 & Hf2 & Ht2); [by rewrite Hmh|]. rewrite Hmh, Hfin, Hfail, andb_true_r in Hw2.
  assert (published x = zlen (wr_body x)) as Hpub by (apply (wo_even _ _ _ _ Hwo); by right).
  apply (sys_ok_change m _ ws _ rs wh wh w x (dropped (fail_readers m) x));
    [done|done|exact Hw2|exact Hn2|exact Hf2|exact Ht2|done|done|..].
  - intros w' Hne. by rewrite lookup_delete_ne.
  - intros wr. by rewrite lookup_delete_eq.
  - split; [|exists []; rewrite app_nil_r; by destruct (fail_readers m)].
    destruct (fail_readers m); [rewrite Hpub|]; done.
  - rewrite lookup_delete_eq. simpl. apply (gone_ok _ (w ∈ wh)); [exact Hwo|done|]. by intros ->.
Qed.

Lemma open_ok m m' ws rs wh hash meta h :
  sys_ok (MkSys m ws rs wh) -> get_miss_handler serialize m hash meta = (inl h, m') ->
  sys_ok (MkSys m' (<[mh_write h := MkWriter h None]> ws) rs wh).
Proof.
  intros [Hw Hwr Ht Hr Hfr]. unfold get_miss_handler. destruct (serialize meta) as [bin|]; [|done].
  intros [= <- <-]. simpl in *.
  assert (writes m !! next_write m = None) as Hfresh.
  { destruct (writes m !! next_write m) as [x|] eqn:Hx; [|done]. destruct (Hw _ _ Hx). lia. }
  assert (ws !! next_write m = None) as Hnw.
  { destruct (ws !! next_write m) as [wr|] eqn:Hx; [|done]. destruct (Hwr _ _ Hx) as (_ & [? ?] & _). congruence. }
  assert (next_write m ∉ wh) as Hnwh by (intros Hin; specialize (Hfr _ Hin); lia).
  constructor; simpl.
  - intros w x. destruct (decide (w = next_write m)) as [->|Hne].
    + rewrite !lookup_insert_eq. intros [= <-]. split; [lia|]. simpl. constructor; try done; simpl.
      all: unfold published; simpl; rewrite ?zlen_nil; try lia; try done.
    + rewrite !lookup_insert_ne by done. intros Hx. destruct (Hw _ _ Hx). split; [lia|done].
  - intros w wr. destruct (decide (w = next_write m)) as [->|Hne].
    + rewrite !lookup_insert_eq. intros [= <-]. simpl. split_and!; [done|eauto|done|done].
    + rewrite !lookup_insert_ne by done. apply Hwr.
  - intros k map i t. destruct (decide (k = hash)) as [->|Hne].
    + rewrite lookup_insert_eq. intros [= <-]. destruct (decide (i = last_temp_id m)) as [->|Hne'].
      * rewrite lookup_insert_eq. intros [= <-]. simpl. rewrite lookup_insert_eq. eauto.
      * rewrite lookup_insert_ne by done. intros Hi. destruct (temp m !! hash) as [map'|] eqn:Hk; simpl in Hi;
          [|by rewrite lookup_empty in Hi]. destruct (Ht _ _ _ _ Hk Hi) as [x Hx].
        rewrite lookup_insert_ne by congruence. eauto.
    + rewrite lookup_insert_ne by done. intros Hk Hi. destruct (Ht _ _ _ _ Hk Hi) as [x Hx].
      rewrite lookup_insert_ne by congruence. eauto.
  - intros r rd Hrd. destruct (Hr _ _ Hrd) as [(x & Hx & Hrest)]. constructor. exists x. simpl.
    rewrite lookup_insert_ne by congruence. done.
  - intros w Hin. specialize (Hfr _ Hin). lia.
Qed.

Lemma hit_from_temp_ok s k map i t meta p :
  sys_ok s -> temp (sy_mem s) !! k = Some map -> map !! i = Some t ->
  hit_from_temp_obj deserialize (sy_mem s) t = inl (Some (meta, HPartial p)) ->
  reader_ok (sy_whole s) (sy_mem s) (MkReader p [] None).
Proof.
  intros Hok Hk Hi. unfold hit_from_temp_obj. destruct (deserialize (to_meta t)); [|done]. intros [= _ <-].
  destruct (so_temp _ Hok _ _ _ _ Hk Hi) as [x Hx]. constructor. simpl. exists x.
  destruct (so_writes _ Hok _ _ Hx) as [_ []]. split_and!; [done|lia|lia| |done]. by rewrite ztake_0.
Qed.

Lemma poll_ok s r rd :
  sys_ok s -> sy_readers s !! r = Some rd -> rd_end rd = None ->
  exists rd', poll_reader (sy_mem s) rd = Some rd' /\ reader_ok (sy_whole s) (sy_mem s) rd'.
Proof.
  intros Hok Hrd Hend. destruct (so_readers _ Hok _ _ Hrd) as [(x & Hx & Hb & Hg & _)].
  destruct (so_writes _ Hok _ _ Hx) as [_ Hwo]. pose proof Hwo as []. destruct rd as [p got e]. simpl in *. subst e.
  unfold poll_reader. simpl. rewrite Hx. unfold partial_read. cbn [bytes_read ph_write ph_version].
  assert (forall n, wr_state x = Partial n \/ wr_state x = Complete n -> published x = n) as Hn.
  { intros n [Hs|Hs]; unfold published; by rewrite Hs. }
  assert (forall n, published x = n -> bytes_read p < n ->
    slice (wr_body x) (bytes_read p) n = Some (ztake (n - bytes_read p) (zdrop (bytes_read p) (wr_body x))) /\
    reader_ok (sy_whole s) (sy_mem s)
      (MkReader (MkPartial (ph_write p) (wr_version x) n)
         (got ++ ztake (n - bytes_read p) (zdrop (bytes_read p) (wr_body x))) None)) as Hmore.
  { intros n Hpn Hlt. split; [apply slice_Some; lia|]. constructor. simpl. exists x. split_and!; [done|lia|lia| |done].
    rewrite Hg. rewrite <- (ztake_zdrop (bytes_read p) (wr_body x)) at 3. rewrite ztake_app_r;
      rewrite zlen_ztake by lia; rewrite Z.min_l by lia; [done|lia]. }
  assert (forall v e, (fail_readers (sy_mem s) = true -> e = Some (inl tt) ->
      ph_write p ∈ sy_whole s /\ got = wr_body x) ->
    reader_ok (sy_whole s) (sy_mem s) (MkReader (MkPartial (ph_write p) v (bytes_read p)) got e)) as Hstay.
  { intros v e He. constructor. simpl. exists x. split_and!; try done; lia. }
  assert (published x = bytes_read p -> published x = zlen (wr_body x) -> got = wr_body x) as Hall.
  { intros H1 H2. rewrite Hg, <- H1, H2. by apply ztake_ge. }
  destruct (wr_state x) as [n|n|] eqn:Hst.
  - specialize (Hn n (or_introl eq_refl)). destruct (Z.ltb_spec n (bytes_read p)); [lia|].
    destruct (Z.ltb_spec (bytes_read p) n).
    { destruct (Hmore n Hn ltac:(lia)) as [-> Hr]. eauto. }
    destruct (sender_alive (sy_mem s) (ph_write p)) eqn:Hal; [eexists; split; [done|]; by apply Hstay|].
    eexists. split; [done|]. apply Hstay. intros Hfail _. unfold sender_alive in Hal. rewrite Hx in Hal.
    apply orb_false_iff in Hal as [Hnw _].
    assert (w_pending <$> sy_writers s !! ph_write p = None) as Hp.
    { destruct (w_pending <$> _) eqn:He; [|done]. assert (wr_writer x = true) by (by apply wo_writer0). congruence. }
    split; [by apply wo_dropped0|]. apply Hall; [lia|]. apply wo_even0. by left.
  - specialize (Hn n (or_intror eq_refl)). destruct (Z.eqb_spec n (bytes_read p)).
    + eexists. split; [done|]. apply Hstay. intros _ _. split; [by apply wo_complete0|]. apply Hall; [lia|].
      apply wo_even0. destruct (w_pending <$> _) as [[s'|]|] eqn:He; [|by right|by left].
      destruct (wo_pending0 s' eq_refl) as ((k & Hk) & _). done.
    + destruct (Z.ltb_spec n (bytes_read p)); [lia|]. destruct (Z.ltb_spec (bytes_read p) n); [|lia].
      destruct (Hmore n Hn ltac:(lia)) as [-> Hr]. eauto.
  - eexists. split; [done|]. by apply Hstay.
Qed.

(** The iterator of a map gives entries of the map. *)
Hypothesis first_in : forall A (g : gmap Z A) a, first_entry A g = Some a -> exists i, g !! i = Some a.

Lemma purge_mem t m :
  let m' := (mem_purge t m).2 in
  writes m' = writes m /\ next_write m' = next_write m /\ fail_readers m' = fail_readers m /\
  forall k map' i o, temp m' !! k = Some map' -> map' !! i = Some o ->
    exists map, temp m !! k = Some map /\ map !! i = Some o.
Proof.
  assert (forall h, forall k map' i o, delete h (temp m) !! k = Some map' -> map' !! i = Some o ->
    exists map, temp m !! k = Some map /\ map !! i = Some o) as Hd.
  { intros h k map' i o Hk Hi. apply lookup_delete_Some in Hk as [_ Hk]. eauto. }
  destruct t; simpl; split_and!; try done; eauto.
Qed.

Lemma store_step_ok s s' : sys_ok s -> step s s' -> sys_ok s' /\ fail_readers (sy_mem s') = fail_readers (sy_mem s).
Proof.
  intros Hok Hst. destruct Hst as
    [m m' ws rs wh hash meta h Hg|m m' ws rs wh w h d eof st Hw He|m ws rs wh w h st Hw|m m' ws rs wh w h t Hw Hf
    |m ws rs wh w h Hw|m ws rs wh hash meta p r Hl|m ws rs wh hash tag meta p r Hl|m ws rs wh r rd rd' Hr He Hp
    |m ws rs wh t|m ws rs wh t now|m m' ws rs wh hash meta r Hu].
  - split; [by eapply open_ok|]. revert Hg. unfold get_miss_handler. destruct (serialize meta); [|done]. by intros [= _ <-].
  - split; [by eapply extend_ok|]. revert He. unfold write_extend. destruct (writes m !! _); simpl; [|done].
    destruct (wr_state _); [|done|done]. by intros [= _ <-].
  - split; [by eapply publish_ok|done].
  - split; [by eapply finish_ok|]. revert Hf. unfold miss_finish. destruct (temp m !! _); simpl; [|done].
    destruct (g !! _); simpl; [|done]. destruct (make_cache_object m _); simpl; [|done]. intros [= _ <-].
    unfold miss_drop. simpl. rewrite andb_false_r. simpl. rewrite !(proj1 (proj2 (proj2 (remove_temp_mem _ _ _)))). done.
  - split; [by eapply drop_ok|]. destruct (so_writers _ Hok w _ Hw) as (Hmh & [x Hx] & _). simpl in *.
    by destruct (miss_drop_mem h m x) as (_ & _ & ? & _); [by rewrite Hmh|].
  - split; [|done]. apply (sys_ok_same m m ws rs); try done; [eauto|]. intros r' rd'.
    destruct (decide (r' = r)) as [->|Hne]; [|rewrite lookup_insert_ne by done; by left].
    rewrite lookup_insert_eq. intros [= <-]. right. revert Hl. unfold Mem.lookup.
    destruct (temp m !! hash) as [map|] eqn:Hk; simpl; [destruct (first_entry _ map) as [t|] eqn:Ht|].
    + destruct (first_in _ _ _ Ht) as [i Hi]. intros Hl. by eapply (hit_from_temp_ok _ hash map i t _ p Hok).
    + destruct (cached m !! hash); [|done]. by destruct (deserialize _).
    + destruct (cached m !! hash); [|done]. by destruct (deserialize _).
  - split; [|done]. apply (sys_ok_same m m ws rs); try done; [eauto|]. intros r' rd'.
    destruct (decide (r' = r)) as [->|Hne]; [|rewrite lookup_insert_ne by done; by left].
    rewrite lookup_insert_eq. intros [= <-]. right. revert Hl. unfold lookup_streaming_write.
    destruct tag as [tag|]; simpl; [|done]. destruct (temp m !! hash) as [map|] eqn:Hk; simpl; [|done].
    destruct (map !! tag) as [t|] eqn:Hi; simpl; [|done]. intros [= Hl].
    by eapply (hit_from_temp_ok _ hash map tag t _ p Hok).
  - split; [|done]. apply (sys_ok_same m m ws rs); try done; [eauto|]. intros r' rd0.
    destruct (decide (r' = r)) as [->|Hne]; [|rewrite lookup_insert_ne by done; by left].
    rewrite lookup_insert_eq. intros [= <-]. right. destruct (poll_ok _ r rd Hok Hr He) as (? & Hp' & ?).
    simpl in Hp'. rewrite Hp in Hp'. by injection Hp' as <-.
  - destruct (purge_mem t m) as (? & ? & ? & ?). split; [by apply (sys_ok_same m _ ws rs); try done; eauto|done].
  - assert (let m' := (mem_expire serialize deserialize t now m).2 in
      writes m' = writes m /\ next_write m' = next_write m /\ fail_readers m' = fail_readers m /\ temp m' = temp m)
      as (H1 & H2 & H3 & H4).
    { unfold mem_expire. destruct t; simpl; try done; (destruct (cached m !! _); [|done]);
        (destruct (deserialize _); [|done]); by destruct (serialize _). }
    split; [|done]. apply (sys_ok_same m _ ws rs); try done; rewrite ?H4; eauto.
  - assert (writes m' = writes m /\ next_write m' = next_write m /\ fail_readers m' = fail_readers m /\ temp m' = temp m)
      as (H1 & H2 & H3 & H4).
    { revert Hu. unfold mem_update_meta. destruct (cached m !! hash); [|done]. destruct (serialize meta); by intros [= _ <-]. }
    split; [|done]. apply (sys_ok_same m _ ws rs); try done; rewrite ?H4; eauto.
Qed.

Lemma store_reachable_ok fail s : reachable fail s -> sys_ok s /\ fail_readers (sy_mem s) = fail.
Proof.
  induction 1 as [|s s' _ [IH IHf] Hst].
  - split; [|done]. constructor; simpl; intros *; rewrite ?lookup_empty; done.
  - destruct (store_step_ok s s' IH Hst) as [? Hf]. split; [done|congruence].
Qed.
End store.

(** readers of writes in progress, in every interleaving of writers, readers,
    purges and expiries.  What a reader has taken is the beginning of the body
    written so far, and its next poll does not panic.  When the store fails the
    readers of dropped writes, a reader whose body ended cleanly has taken the
    whole body of a write that was completed or finished: a truncated body is
    never passed off as a complete one. *)
Theorem mem_reader_prefix {K : Type} `{Countable K} {M Bin : Type} (serialize : CacheMeta M -> Bin + Error)
    deserialize first_entry fail s r rd :
  (forall A (g : gmap Z A) a, first_entry A g = Some a -> exists i, g !! i = Some a) ->
  reachable (K := K) serialize deserialize first_entry fail s -> sy_readers s !! r = Some rd ->
  exists x, writes (sy_mem s) !! ph_write (rd_hit rd) = Some x /\
    rd_got rd `prefix_of` wr_body x /\
    (rd_end rd = None -> poll_reader (sy_mem s) rd <> None) /\
    (fail = true -> rd_end rd = Some (inl tt) ->
     ph_write (rd_hit rd) ∈ sy_whole s /\ rd_got rd = wr_body x).
Proof.
  intros Hfirst Hreach Hrd. apply store_reachable_ok in Hreach as [Hok Hf]; [|done].
  destruct (so_readers _ Hok _ _ Hrd) as [(x & Hx & Hb & Hg & He)]. exists x. split_and!; [done|..].
  - exists (zdrop (bytes_read (rd_hit rd)) (wr_body x)). by rewrite Hg, ztake_zdrop.
  - intros Hend. destruct (poll_ok _ r rd Hok Hrd Hend) as (? & -> & _). done.
  - intros ->. by apply He.
Qed.

(** ** Writing, finishing and looking up *)

Section roundtrip.
Context {K : Type} `{Countable K} {M : Type} {Bin : Type}.
Variable serialize : CacheMeta M -> Bin + Error.
Variable deserialize : Bin -> CacheMeta M + Error.
Variable first_entry : forall A, gmap Z A -> option A.
Notation MemCache := (@MemCache K _ _ Bin).
Implicit Types m : MemCache.

Fixpoint write_all (h : MemMissHandler) (ds : list (list byte)) m : option MemCache :=
  match ds with
  | [] => Some m
  | d :: ds => m ← write_body h d false m; write_all h ds m
  end.

Lemma write_all_spec h ds m x :
  writes m !! mh_write h = Some x -> wr_state x = Partial (zlen (wr_body x)) ->
  exists m' x', write_all h ds m = Some m' /\ temp m' = temp m /\ cached m' = cached m /\
    writes m' !! mh_write h = Some x' /\ wr_body x' = wr_body x ++ concat ds.
Proof.
  revert m x. induction ds as [|d ds IH]; intros m x Hx Hst; cbn [write_all].
  { exists m, x. by rewrite app_nil_r. }
  unfold write_body, write_extend. rewrite Hx. cbn [mbind option_bind]. rewrite Hst. cbn [mbind option_bind].
  unfold write_publish, send_replace. cbn [with_writes writes].
  rewrite (alter_insert_same _ _ _ _ (lookup_insert_eq _ _ _)), insert_insert_eq. cbn [wr_body wr_version wr_writer].
  set (x1 := MkWrite _ _ _ _). set (m1 := with_writes _ _).
  destruct (IH m1 x1) as (m' & x' & Hw & Ht & Hc & Hx' & Hb).
  { unfold m1. cbn [with_writes writes]. apply lookup_insert_eq. }
  { cbn. by rewrite zlen_app. }
  exists m', x'. split_and!; [exact Hw|done|done|done|]. rewrite Hb. cbn [wr_body concat]. by rewrite app_assoc.
Qed.
End roundtrip.

(** a response written to the store in any pieces and finished is found by the
    next lookup of its key with its metadata and its whole body, which one read
    returns; the size reported to the eviction manager is the size of the body. *)
Theorem mem_write_then_lookup {K : Type} `{Countable K} {M Bin : Type} (serialize : CacheMeta M -> Bin + Error)
    deserialize first_entry (m : MemCache (K := K)) hash meta bin ds :
  (forall A (g : gmap Z A) a, first_entry A g = Some a -> exists i, g !! i = Some a) ->
  serialize meta = inl bin -> deserialize bin = inl meta -> temp m !! hash = None ->
  exists h m1 m2 m3,
    get_miss_handler serialize m hash meta = (inl h, m1) /\
    write_all h ds m1 = Some m2 /\
    miss_finish h m2 = Some (Created (zlen (concat ds)), m3) /\
    exists hit, Mem.lookup deserialize first_entry m3 hash = inl (Some (meta, hit)) /\
      exists hit', read_body m3 hit = (Ready (inl (Some (concat ds))), hit') /\
        (read_body m3 hit').1 = Ready (inl None).
Proof.
  intros Hfirst Hser Hdes Htemp. unfold get_miss_handler. rewrite Hser, Htemp. cbn [default from_option].
  set (h := MkMiss _ _ _ _ _). set (m1 := MkMem _ _ _ _ _ _).
  destruct (write_all_spec h ds m1 (MkWrite [] (Partial 0) 0 true)) as (m2 & x & Hw & Ht & Hc & Hx & Hb);
    [cbn; apply lookup_insert_eq|done|].
  assert (temp m2 !! hash = Some {[last_temp_id m := MkTemp bin (next_write m)]}) as Ht2.
  { rewrite Ht. cbn. by rewrite lookup_insert_eq, insert_empty. }
  set (m3 := with_cached (<[hash := MkObject bin (concat ds)]> (cached m2)) m2).
  eexists h, m1, m2, _. split; [done|]. split; [exact Hw|]. unfold miss_finish. cbn [h mh_key mh_temp_id].
  rewrite Ht2. cbn [mbind option_bind]. rewrite lookup_singleton_eq. cbn [mbind option_bind]. unfold make_cache_object.
  cbn [to_write to_meta]. cbn [h mh_write] in Hx. rewrite Hx. cbn [mbind option_bind co_body]. cbn [wr_body app] in Hb. rewrite Hb.
  split; [done|]. fold m3. unfold miss_drop. cbn [mh_fail_readers_if_dropped mh_finished negb]. rewrite andb_false_r.
  cbn [mh_key mh_temp_id mh_write].
  set (m4 := remove_temp hash (last_temp_id m) (remove_temp hash (last_temp_id m) m3)).
  assert (temp m4 !! hash = Some ∅ /\ cached m4 !! hash = Some (MkObject bin (concat ds))) as [Ht4 Hc4].
  { unfold m4, remove_temp, m3. cbn [with_cached temp]. rewrite Ht2. cbn [with_temp temp].
    rewrite lookup_insert_eq. cbn [with_temp with_cached temp cached].
    rewrite !lookup_insert_eq, delete_singleton_eq. by rewrite delete_empty. }
  unfold Mem.lookup. cbn [with_writes temp cached]. rewrite Ht4, Hc4. cbn [mbind option_bind].
  destruct (first_entry _ ∅) as [a|] eqn:Ha; [destruct (Hfirst _ _ _ Ha) as [i Hi]; by rewrite lookup_empty in Hi|].
  cbn [co_meta co_body]. rewrite Hdes. eexists. split; [done|]. cbn. unfold complete_get. cbn.
  rewrite slice_all. cbn. eauto.
Qed.

(** ** Runs *)

(** The first entry of a map in the order of its keys. *)
Definition first_listed (A : Type) (g : gmap Z A) : option A := snd <$> head (map_to_list g).

Lemma first_listed_in A (g : gmap Z A) a : first_listed A g = Some a -> exists i, g !! i = Some a.
Proof.
  unfold first_listed. intros ([i b] & Hh & ->)%fmap_Some. exists i.
  apply elem_of_map_to_list. by apply head_Some_elem_of in Hh.
Qed.

Definition some_meta : CacheMeta unit := meta_new 0 0 0 0 (MkResponseHeader 200 tt).
Definition ser (m : CacheMeta unit) : CacheMeta unit + Error := inl m.

Abbreviation ZMem := (@MemCache Z _ _ (CacheMeta unit)).
Definition opened (fail : bool) : (@MemMissHandler Z + Error) * ZMem := get_miss_handler ser (mem_new fail) 7 some_meta.
Definition a_handler (fail : bool) : MemMissHandler := MkMiss 7 0 0 fail false.

Lemma mem_write_then_lookup_witness :
  exists h m1 m2 m3,
    get_miss_handler ser (mem_new (K := Z) true) 7 some_meta = (inl h, m1) /\
    write_all h [bytes_of "ab"; bytes_of "c"] m1 = Some m2 /\
    miss_finish h m2 = Some (Created 3, m3) /\
    exists hit, Mem.lookup ser first_listed m3 7 = inl (Some (some_meta, hit)) /\
      exists hit', read_body m3 hit = (Ready (inl (Some (bytes_of "abc"))), hit') /\
        (read_body m3 hit').1 = Ready (inl None).
Proof.
  exact (mem_write_then_lookup ser ser first_listed (mem_new true) 7 some_meta some_meta
           [bytes_of "ab"; bytes_of "c"] first_listed_in eq_refl eq_refl eq_refl).
Defined.

(** A purge takes the temporary object of a write in progress away; the writer that then
    finishes panics. *)
Lemma purge_breaks_finish :
  exists h m1 m2, opened true = (inl h, m1) /\ mem_purge (TActive 7) m1 = (Purged None, m2) /\
    miss_finish h m2 = None.
Proof. eexists _, _, _. split; [vm_compute; reflexivity|]. split; [vm_compute; reflexivity|reflexivity]. Qed.

(** A write of two bytes and the end of its body, read to the end by a reader that was
    attached before. *)
Lemma run_extend (m m' : ZMem) ws rs wh fail w h d eof s :
  reachable ser ser first_listed fail (MkSys m ws rs wh) -> ws !! w = Some (MkWriter h None) ->
  write_extend h d eof m = Some (s, m') ->
  reachable ser ser first_listed fail
    (MkSys (write_publish h s m') (<[w := MkWriter h None]> (<[w := MkWriter h (Some s)]> ws)) rs
       (if publishes_end s then {[w]} ∪ wh else wh)).
Proof.
  intros Hr Hw He. eapply reach_step; [eapply reach_step; [exact Hr|by eapply st_extend]|].
  apply st_publish. apply lookup_insert_eq.
Qed.

Definition mem0 (fail : bool) : ZMem := (opened fail).2.
Definition reader0 : Reader := MkReader (MkPartial 0 0 0) [] None.

Lemma run_attached fail :
  reachable ser ser first_listed fail
    (MkSys (mem0 fail) (<[0 := MkWriter (a_handler fail) None]> ∅) (<[0 := reader0]> ∅) ∅).
Proof.
  eapply reach_step; [eapply reach_step; [apply reach_new|]|].
  - apply (st_open ser ser first_listed (mem_new fail) (mem0 fail) ∅ ∅ ∅ 7 some_meta (a_handler fail)).
    by destruct fail.
  - apply (st_attach ser ser first_listed (mem0 fail) (<[0 := MkWriter (a_handler fail) None]> ∅) ∅ ∅ 7 some_meta
             (MkPartial 0 0 0) 0). by destruct fail; vm_compute.
Qed.

Lemma mem_reader_prefix_witness :
  exists s rd x, reachable (K := Z) ser ser first_listed true s /\ sy_readers s !! 0 = Some rd /\
    rd_end rd = Some (inl tt) /\ writes (sy_mem s) !! ph_write (rd_hit rd) = Some x /\
    rd_got rd = wr_body x /\ wr_body x = bytes_of "ab".
Proof.
  destruct (write_extend (a_handler true) (bytes_of "ab") true (mem0 true)) as [[st m1]|] eqn:He;
    [|vm_compute in He; discriminate He].
  pose proof (run_extend _ m1 _ _ _ _ 0 (a_handler true) (bytes_of "ab") true st (run_attached true)
                (lookup_insert_eq _ _ _) He) as Hr.
  set (ws := <[0 := _]> _) in Hr. set (wh := if publishes_end st then _ else _) in Hr.
  set (m2 := write_publish (a_handler true) st m1) in Hr.
  pose (rd1 := MkReader (MkPartial 0 1 2) (bytes_of "ab") None).
  pose (rd2 := MkReader (MkPartial 0 1 2) (bytes_of "ab") (Some (inl tt))).
  assert (poll_reader m2 reader0 = Some rd1 /\ poll_reader m2 rd1 = Some rd2 /\
    writes m2 !! 0 = Some (MkWrite (bytes_of "ab") (Complete 2) 1 true)) as (H1 & H2 & H3).
  { vm_compute in He. injection He as <- <-. split_and!; vm_compute; reflexivity. }
  assert (reachable ser ser first_listed true (MkSys m2 ws (<[0 := rd2]> (<[0 := rd1]> (<[0 := reader0]> ∅))) wh)) as Hr2.
  { eapply reach_step; [eapply reach_step; [exact Hr|]|].
    - apply (st_poll _ _ _ m2 ws _ wh 0 reader0 rd1); [apply lookup_insert_eq|reflexivity|exact H1].
    - apply (st_poll _ _ _ m2 ws _ wh 0 rd1 rd2); [apply lookup_insert_eq|reflexivity|exact H2]. }
  destruct (mem_reader_prefix ser ser first_listed true _ 0 rd2 first_listed_in Hr2 (lookup_insert_eq _ _ _))
    as (x & Hx & _ & _ & Hall).
  destruct (Hall eq_refl eq_refl) as [_ Hgot].
  exists (MkSys m2 ws (<[0 := rd2]> (<[0 := rd1]> (<[0 := reader0]> ∅))) wh), rd2, x.
  split_and!; [exact Hr2|apply lookup_insert_eq|reflexivity|exact Hx|exact Hgot|]. symmetry. exact Hgot.
Defined.

(** By default the reader of a dropped write sees its body end cleanly. *)
Lemma dropped_write_ends_cleanly :
  reachable ser ser first_listed false
    (MkSys (miss_drop (a_handler false) (mem0 false)) (delete 0 (<[0 := MkWriter (a_handler false) None]> ∅))
       (<[0 := reader0]> ∅) ∅) /\
  rd_end <$> poll_reader (miss_drop (a_handler false) (mem0 false)) reader0 = Some (Some (inl tt)).
Proof.
  split; [|by vm_compute]. eapply reach_step; [apply (run_attached false)|]. apply st_drop. apply lookup_insert_eq.
Qed.
