(* ===== verification/ServeCache.v ===== *)
(** * Serving a response from the cache

    [ServeFromCache] and [cache_hit_header] of
    [src/pingora-proxy/src/proxy_cache.rs]: the state machine that decides, in
    the proxy's response loops, when output comes from the cache instead of the
    upstream, and the tasks it then produces: the stored header, and the body
    that a reader of the storage gives, with a seek for the requested ranges
    where the reader can seek.

    The readers a storage gave out are looked up by their handle; they implement
    the trait [HandleHit].  A read that is pending is a future dropped at its
    [.await]: polling it again is calling the method again. *)

From stdpp Require Import base list numbers strings gmap.
From Stdlib Require Import ZArith Lia.
From S2P Require Import Prelude Errors Text Headers CacheControl CacheMeta CacheKey HttpCache Storage Range.
Import Range.
Local Open Scope Z_scope.

Module Serve.

Inductive ServeFromCache :=
| Off
| OffFillDeclined
| CacheHeader
| CacheHeaderOnly
| CacheHeaderOnlyMiss
| CacheBody (should_seek : bool)
| CacheHeaderMiss
| CacheBodyMiss (should_seek : bool)
| Done
| DoneMiss.

Definition serve_new : ServeFromCache := Off.

Definition is_on (s : ServeFromCache) : bool := match s with Off | OffFillDeclined => false | _ => true end.
Definition is_miss (s : ServeFromCache) : bool :=
  match s with CacheHeaderMiss | CacheHeaderOnlyMiss | CacheBodyMiss _ | DoneMiss => true | _ => false end.
Definition is_miss_header (s : ServeFromCache) : bool := match s with CacheHeaderMiss => true | _ => false end.
Definition is_miss_body (s : ServeFromCache) : bool := match s with CacheBodyMiss _ => true | _ => false end.
Definition should_discard_upstream (s : ServeFromCache) : bool := is_on s && negb (is_miss s).
Definition should_send_to_downstream (s : ServeFromCache) : bool := negb (is_on s).
Definition should_write_response (s : ServeFromCache) (downstream_abandoned : bool) : bool :=
  negb downstream_abandoned && should_send_to_downstream s.
Definition cache_write_failure_is_fatal (s : ServeFromCache) (downstream_abandoned : bool) : bool :=
  is_miss_body s || downstream_abandoned.

Definition is_off (s : ServeFromCache) : bool := match s with Off => true | _ => false end.
Definition is_off_fill_declined (s : ServeFromCache) : bool :=
  match s with OffFillDeclined => true | _ => false end.

Definition decline_fill (s : ServeFromCache) : ServeFromCache :=
  match s with Off => OffFillDeclined | _ => s end.
Definition serve_enable (s : ServeFromCache) : ServeFromCache := CacheHeader.
Definition enable_miss (s : ServeFromCache) : ServeFromCache := if is_on s then s else CacheHeaderMiss.
Definition enable_header_only (s : ServeFromCache) : ServeFromCache :=
  match s with
  | CacheBody _ => Done
  | CacheBodyMiss _ => DoneMiss
  | _ => if is_miss s then CacheHeaderOnlyMiss else CacheHeaderOnly
  end.

Section serve.
Context {M : Type} `{HeaderMap M} {W R : Type} `{HandleHit W R}.
Variable world : @World M.

Definition can_still_fill_cache (s : ServeFromCache) (cache : @HttpCache M) : bool :=
  (is_off s && bool_decide (support_streaming_partial_write world cache = Some true)) ||
  (is_miss s && is_cache_admission_active cache).

Definition abandoned_before_admission (s : ServeFromCache) (cache : @HttpCache M) : bool :=
  downstream_abandoned_during_cache_fill cache &&
  (is_off_fill_declined s || (negb (is_miss s) && negb (enabled cache) && negb (bypassing cache))).

(** The tasks that the cache produces. *)
Inductive CacheTask :=
| TaskHeader (header : CacheMeta.ResponseHeader M) (version : Version) (end_stream : bool)
| TaskBody (data : option (list byte)) (end_stream : bool)
| TaskUpgradedBody (data : option (list byte)) (end_stream : bool)
| TaskDone.

(** The cache session of the request, the readers that the storage gave out and
    the store they read, the serving state and the range filter. *)
Record Serving := MkServing {
  sv_session : @Session M;
  sv_readers : gmap HitHandler R;
  sv_store : W;
  sv_state : ServeFromCache;
  sv_range : RangeBodyFilter
}.
Notation Srv A := (Prelude.M Serving Error A).

Definition set_state (s : ServeFromCache) : Srv unit :=
  modify (fun v => MkServing (sv_session v) (sv_readers v) (sv_store v) s (sv_range v)).
Definition set_range (f : RangeBodyFilter) : Srv unit :=
  modify (fun v => MkServing (sv_session v) (sv_readers v) (sv_store v) (sv_state v) f).
Definition set_reader (h : HitHandler) (r : R) : Srv unit :=
  modify (fun v => MkServing (sv_session v) (<[h := r]> (sv_readers v)) (sv_store v) (sv_state v) (sv_range v)).

(** A method of [HttpCache]. *)
Definition on_cache {A} (m : Prelude.M (@Session M) Error A) : Srv A := fun v =>
  match m (sv_session v) with
  | Val a s => Val a (MkServing s (sv_readers v) (sv_store v) (sv_state v) (sv_range v))
  | Fail e s => Fail e (MkServing s (sv_readers v) (sv_store v) (sv_state v) (sv_range v))
  | Cancelled s => Cancelled (MkServing s (sv_readers v) (sv_store v) (sv_state v) (sv_range v))
  | Panic => Panic
  end.

(** [cache.hit_handler()], [cache.miss_body_reader().unwrap()]. *)
Definition reader_handle (miss : bool) : Srv HitHandler :=
  if miss then (let! o := on_cache (miss_body_reader world) in unwrap o) else on_cache hit_handler.
Definition the_reader (miss : bool) : Srv (HitHandler * R) :=
  let! h := reader_handle miss in
  let! v := get in
  let! r := unwrap (sv_readers v !! h) in
  ret (h, r).

(** [read_body().await?]. *)
Definition read_reader (miss : bool) : Srv (option (list byte)) :=
  let! hr := the_reader miss in
  let! v := get in
  let '(res, r) := read_body (sv_store v) hr.2 in
  do! set_reader hr.1 r;
  match res with
  | Ready (inl d) => ret d
  | Ready (inr e) => fail e
  | Pending => fun v => Cancelled v
  | Panicked => panic
  end.

(** [.or_err(InternalError, context)?]. *)
Definition or_err {A} (context : string) (r : A + Error) : Srv A :=
  match r with inl a => ret a | inr e => fail (because Errors.InternalError context (BErr e)) end.

Definition seek_reader (miss : bool) (context : string) (op : R -> option ((unit + Error) * R)) : Srv unit :=
  let! hr := the_reader miss in
  let! res := unwrap (op hr.2) in
  do! set_reader hr.1 res.2;
  or_err context res.1.

(** [maybe_seek_miss_handler] and [maybe_seek_hit_handler]. *)
Definition maybe_seek (miss : bool) : Srv unit :=
  let! v := get in
  do! match f_range (sv_range v) with
      | RSingle range =>
          let! hr := the_reader miss in
          if can_seek hr.2 then
            do! seek_reader miss (if miss then "cannot seek miss handler" else "cannot seek hit handler")
                  (fun r => seek r (r_start range) (Some (r_end range)));
            let! v := get in
            set_range (clear_range (sv_range v))
          else ret tt
      | RMulti _ =>
          let! hr := the_reader miss in
          if can_seek_multipart hr.2 then
            let! v := get in
            let '(f, res) := next_cache_multipart_range (sv_range v) in
            do! set_range f;
            let! range := match res with inl r => ret r | inr e => fail e end in
            do! seek_reader miss "cannot seek hit handler for multirange"
                  (fun r => seek_multipart r (r_start range) (Some (r_end range)));
            let! v := get in
            set_range (set_current_cursor (r_start range) (sv_range v))
          else ret tt
      | _ => ret tt
      end;
  set_state (if miss then CacheBodyMiss false else CacheBody false).

Definition maybe_seek_hit_handler : Srv unit := maybe_seek false.
Definition maybe_seek_miss_handler : Srv unit := maybe_seek true.

Definition body_task (data : list byte) (upgraded : bool) : CacheTask :=
  if upgraded then TaskUpgradedBody (Some data) false else TaskBody (Some data) false.

(** The loop of the two body states: read, and at the end of what was sought
    seek again for the next range of a multipart reply. *)
Fixpoint body_loop (fuel : nat) (miss upgraded : bool) : Srv CacheTask :=
  match fuel with
  | O => panic
  | S fuel =>
      let! d := read_reader miss in
      match d with
      | Some b => ret (body_task b upgraded)
      | None =>
          let! v := get in
          if should_cache_seek_again (sv_range v) then
            do! maybe_seek miss;
            body_loop fuel miss upgraded
          else
            do! set_state (if miss then DoneMiss else Done);
            ret TaskDone
      end
  end.

(** A reader that can seek keeps being able to, so a second empty read in one
    call ends the loop: the range filter has not moved, and the next seek fails.
    Three rounds are enough. *)
Definition body_rounds : nat := 3.

Definition cache_hit_header : Srv (CacheMeta.ResponseHeader M * Version) :=
  let! m := on_cache cache_meta in
  let! v := get in
  let h := cache (sv_session v) in
  let hdr := CacheMeta.header m in
  let no_body := (CacheMeta.status hdr =? 204) || (CacheMeta.status hdr =? 304) in
  let hs := CacheMeta.headers hdr in
  let hs :=
    if upstream_used h then hs
    else insert_header hs (bytes_of "age") (decimal (age m (w_now world) / nanos_per_sec)) in
  let informational := (100 <=? CacheMeta.status hdr) && (CacheMeta.status hdr <? 200) in
  let hs :=
    if negb no_body && negb informational && bool_decide (header_get hs (bytes_of "content-length") = None)
    then insert_header hs (bytes_of "transfer-encoding") (bytes_of "chunked") else hs in
  ret (MkResponseHeader (CacheMeta.status hdr) hs, HTTP_11).

Definition header_task (next : ServeFromCache) (end_stream : bool) : Srv CacheTask :=
  do! set_state next;
  let! hv := cache_hit_header in
  ret (TaskHeader hv.1 hv.2 end_stream).

Definition next_http_task (upgraded : bool) : Srv CacheTask :=
  let! v := get in
  if negb (enabled (cache (sv_session v))) then fail (explain Errors.InternalError "Cache disabled")
  else match sv_state v with
       | Off | OffFillDeclined => panic
       | CacheHeader => header_task (CacheBody true) false
       | CacheHeaderMiss => header_task (CacheBodyMiss true) false
       | CacheHeaderOnly => header_task Done true
       | CacheHeaderOnlyMiss => header_task DoneMiss true
       | CacheBody should_seek =>
           do! (if should_seek then maybe_seek_hit_handler else ret tt);
           body_loop body_rounds false upgraded
       | CacheBodyMiss should_seek =>
           do! (if should_seek then maybe_seek_miss_handler else ret tt);
           body_loop body_rounds true upgraded
       | Done | DoneMiss => ret TaskDone
       end.

(** [downstream_response_conditional_filter]: what the application's
    [cache_not_modified_filter] answered is an argument ([inr] fails open). *)
Definition header_only (not_modified : bool + Error) (is_head : bool) : bool :=
  match not_modified with inl b => b | inr _ => false end || is_head.
Definition conditional_serve_state (not_modified : bool + Error) (is_head : bool) (s : ServeFromCache)
    : ServeFromCache :=
  if header_only not_modified is_head && is_on s then enable_header_only s else s.

End serve.
End Serve.
