(* ===== verification/ServeCacheSpec.v ===== *)
(** * Serving a response from the cache: theorems

    A body served from the cache through the range filter is the reply that the
    range type stands for, whether the reader of the storage seeks or not and
    however often its reads are pending. *)

From stdpp Require Import base list numbers strings gmap.
From Stdlib Require Import ZArith Lia Sorting.Sorted.
From S2P Require Import Prelude Errors Text Headers CacheControl CacheMeta CacheKey HttpCache Storage Range RangeSpec ServeCache CacheMetaSpec HttpCacheSpec.
Import Range Serve.
Local Open Scope Z_scope.

(** ** What the server asks of a reader *)

(** [reads body r rest]: the reader [r] of [body] has [rest] still to give. *)
Class ReadsBody (W R : Type) `{HandleHit W R} := {
  reads : list byte -> R -> list byte -> Prop;
  reads_no_panic : forall st b r rest, reads b r rest -> (read_body st r).1 <> Panicked;
  reads_data : forall st b r rest d r', reads b r rest -> read_body st r = (Ready (inl (Some d)), r') ->
    exists rest', rest = d ++ rest' /\ reads b r' rest' /\ can_seek_multipart r' = can_seek_multipart r;
  reads_end : forall st b r rest r', reads b r rest -> read_body st r = (Ready (inl None), r') ->
    rest = [] /\ reads b r' [] /\ can_seek_multipart r' = can_seek_multipart r;
  reads_pending : forall st b r rest r', reads b r rest -> read_body st r = (Pending, r') ->
    reads b r' rest /\ can_seek_multipart r' = can_seek_multipart r;
  reads_seek : forall b r rest s e, reads b r rest -> can_seek r = true -> 0 <= s < e -> e <= zlen b ->
    exists r', seek r s (Some e) = Some (inl tt, r') /\ reads b r' (cut b s e);
  reads_seek_multipart : forall b r rest s e, reads b r rest -> can_seek_multipart r = true ->
    0 <= s < e -> e <= zlen b ->
    exists r', seek_multipart r s (Some e) = Some (inl tt, r') /\ reads b r' (cut b s e) /\
      can_seek_multipart r' = true
}.

(** ** Positions of ascending ranges *)

Lemma ascending_lookup rs i j a b :
  ascending rs -> rs !! i = Some a -> rs !! j = Some b -> (i < j)%nat -> r_end a <= r_start b.
Proof.
  intros Hasc. revert i j. induction Hasc as [|r rs Hasc IH Hr]; intros i j Hi Hj Hlt; [done|].
  destruct j as [|j]; [lia|]. destruct i as [|i]; simpl in *.
  - injection Hi as <-. rewrite Forall_forall in Hr. apply Hr. by eapply list_elem_of_lookup_2.
  - eapply IH; [done|done|lia].
Qed.

Lemma index_le_start rs k rg :
  ascending rs -> Forall non_empty rs -> Forall range_ok rs -> rs !! k = Some rg -> Z.of_nat k <= r_start rg.
Proof.
  intros Hasc Hne Hok. revert rg. induction k as [|k IH]; intros rg Hk.
  - rewrite Forall_lookup in Hok. destruct (Hok _ _ Hk) as [? ?]. lia.
  - destruct (lookup_lt_is_Some_2 rs k) as [a Ha]; [apply lookup_lt_Some in Hk; lia|].
    specialize (IH a Ha). pose proof (ascending_lookup rs k (S k) a rg Hasc Ha Hk ltac:(lia)).
    rewrite Forall_lookup in Hne. specialize (Hne _ _ Ha). unfold non_empty in Hne. lia.
Qed.

(** Where the ranges split into those whose end has gone by and the others. *)
Lemma finished_count rs fin rest n k :
  ascending rs -> Forall non_empty rs -> rs = fin ++ rest ->
  Forall (fun r => r_end r <= n) fin -> Forall (fun r => n < r_end r) rest ->
  (forall rg, rs !! k = Some rg -> n <= r_start rg) ->
  (forall rg j, rs !! j = Some rg -> (j < k)%nat -> r_end rg <= n) ->
  (k <= length rs)%nat -> length fin = k.
Proof.
  intros Hasc Hne Hrs Hfin Hrest Hk Hbefore Hlen. rewrite Forall_lookup in Hfin, Hrest, Hne.
  destruct (Nat.lt_trichotomy (length fin) k) as [Hlt|[|Hgt]]; [exfalso|done|exfalso].
  - destruct (lookup_lt_is_Some_2 rs (length fin)) as [a Ha]; [lia|].
    pose proof (Hbefore _ _ Ha Hlt). rewrite Hrs, lookup_app_r, Nat.sub_diag in Ha by lia.
    specialize (Hrest _ _ Ha). simpl in Hrest. lia.
  - destruct (lookup_lt_is_Some_2 rs k) as [a Ha]; [rewrite Hrs, length_app; lia|].
    specialize (Hk _ Ha). specialize (Hne _ _ Ha). unfold non_empty in Hne.
    rewrite Hrs, lookup_app_l in Ha by lia. specialize (Hfin _ _ Ha). simpl in Hfin. lia.
Qed.

Lemma cut_split (l : list byte) a b : 0 <= a <= b -> b <= zlen l -> l = ztake a l ++ cut l a b ++ zdrop b l.
Proof.
  intros Ha Hb. rewrite <- (ztake_zdrop a l) at 1. f_equal. unfold cut.
  rewrite <- (ztake_zdrop (b - a) (zdrop a l)) at 1. f_equal. rewrite zdrop_zdrop by lia. f_equal. lia.
Qed.

Section serving.
Context {M : Type} `{HeaderMap M} {W R : Type} `{HR : HandleHit W R, RB : !ReadsBody W R}.
Variable world : @World M.
Variables (ses : @Session M) (h : HitHandler) (miss upgraded : bool).
(** The cache is on and its reader is [h]. *)
Hypothesis cache_on : enabled (cache ses) = true.
Hypothesis cache_reader : forall v : @Serving M W R, sv_session v = ses -> reader_handle world miss v = Val h v.

Abbreviation body_state b := (if miss then CacheBodyMiss b else CacheBody b).
Abbreviation done_state := (if miss then DoneMiss else Done).

Definition serving (r : R) (readers : gmap HitHandler R) (st : W) (s : ServeFromCache) (f : RangeBodyFilter)
    : @Serving M W R := MkServing ses (<[h := r]> readers) st s f.

(** ** The steps of the state machine *)

Lemma the_reader_eq r rs st s f :
  the_reader world miss (serving r rs st s f) = Val (h, r) (serving r rs st s f).
Proof.
  unfold the_reader, bind, get. rewrite cache_reader by done. cbn. by rewrite lookup_insert_eq.
Qed.

Lemma set_reader_eq r r' rs st s f :
  set_reader h r' (serving r rs st s f) = Val tt (serving r' rs st s f).
Proof. unfold set_reader, modify, serving. cbn. by rewrite insert_insert_eq. Qed.

Lemma read_reader_eq r rs st s f :
  read_reader world miss (serving r rs st s f) =
  let '(res, r') := read_body st r in
  match res with
  | Ready (inl d) => Val d (serving r' rs st s f)
  | Ready (inr e) => Fail e (serving r' rs st s f)
  | Pending => Cancelled (serving r' rs st s f)
  | Panicked => Panic
  end.
Proof.
  unfold read_reader, bind at 1. rewrite the_reader_eq. unfold bind, get. cbn [snd fst sv_store serving].
  destruct (read_body st r) as [res r']. rewrite set_reader_eq. by destruct res as [[d|e]| |].
Qed.

Lemma seek_reader_eq context op r rs st s f r' :
  op r = Some (inl tt, r') ->
  seek_reader world miss context op (serving r rs st s f) = Val tt (serving r' rs st s f).
Proof.
  intros Hop. unfold seek_reader, bind at 1. rewrite the_reader_eq. unfold bind. cbn [snd fst]. rewrite Hop.
  cbn [unwrap ret snd fst]. by rewrite set_reader_eq.
Qed.

(** ** Seeking *)

Lemma maybe_seek_none r rs st s f :
  (match f_range f with
   | RSingle _ => can_seek r = false
   | RMulti _ => can_seek_multipart r = false
   | _ => True
   end) ->
  maybe_seek world miss (serving r rs st s f) = Val tt (serving r rs st (body_state false) f).
Proof.
  intros Hf. unfold maybe_seek, bind at 1 2, get. cbn [sv_range serving].
  destruct (f_range f) as [|rg|info|]; cbn [ret]; try (by destruct miss);
    unfold bind at 1; rewrite the_reader_eq; cbn [snd fst]; rewrite Hf; by destruct miss.
Qed.

Lemma maybe_seek_single r rs st s f rg r' :
  f_range f = RSingle rg -> can_seek r = true -> seek r (r_start rg) (Some (r_end rg)) = Some (inl tt, r') ->
  maybe_seek world miss (serving r rs st s f) = Val tt (serving r' rs st (body_state false) (clear_range f)).
Proof.
  intros Hf Hc Hs. unfold maybe_seek, bind at 1 2, get. cbn [sv_range serving]. rewrite Hf.
  unfold bind at 1. rewrite the_reader_eq. cbn [snd fst]. rewrite Hc. unfold bind at 1.
  rewrite (seek_reader_eq _ _ _ _ _ _ _ r') by done. by destruct miss.
Qed.

Lemma maybe_seek_multi r rs st s f info f' rg r' :
  f_range f = RMulti info -> can_seek_multipart r = true -> next_cache_multipart_range f = (f', inl rg) ->
  seek_multipart r (r_start rg) (Some (r_end rg)) = Some (inl tt, r') ->
  maybe_seek world miss (serving r rs st s f) =
  Val tt (serving r' rs st (body_state false) (set_current_cursor (r_start rg) f')).
Proof.
  intros Hf Hc Hn Hs. unfold maybe_seek, bind at 1 2, get. cbn [sv_range serving]. rewrite Hf.
  unfold bind at 1. rewrite the_reader_eq. cbn [snd fst]. rewrite Hc. unfold bind at 1. cbn [sv_range serving].
  rewrite Hn. unfold bind, ret, set_range, modify. cbn [sv_session sv_readers sv_store sv_state serving].
  fold (serving r rs st s f'). rewrite (seek_reader_eq _ _ _ _ _ _ _ r') by done. by destruct miss.
Qed.

(** ** The invariant *)

Variables (rt : RangeType) (body : list byte).
Hypothesis body_fits : zlen body < usize_mod.
Hypothesis ranges_in : Forall (range_in (zlen body)) (ranges_of rt).
Hypothesis ranges_ascend : ascending (ranges_of rt).
Hypothesis ranges_non_empty : Forall non_empty (ranges_of rt).
Hypothesis multi_some : is_multi rt = true -> ranges_of rt <> [].

Definition final_of (info : MultiRangeInfo) : Range := default (MkRange 0 0) (last (m_ranges info)).

(** Serving the body: [out] has been sent, the reader has [rest] still to give. *)
Inductive going : list byte -> R -> RangeBodyFilter -> list byte -> Prop :=
| going_plain rest r f out : f_range f = RNone -> reads body r rest -> out ++ rest = reply_body rt body ->
    going rest r f out
| going_invalid rest r f : rt = RInvalid -> f_range f = RInvalid -> reads body r rest -> going rest r f []
| going_single rest r rg l idx : rt = RSingle rg -> reads body r rest -> body = l ++ rest ->
    going rest r (MkFilter (RSingle rg) (zlen l) idx None) (cut l (r_start rg) (r_end rg))
| going_multi rest r info l f : rt = RMulti info -> can_seek_multipart r = false -> reads body r rest ->
    body = l ++ rest -> multi_state info l None f ->
    going rest r f (parts_out info (final_of info) l (m_ranges info))
| going_sought rest r info l f k rg tail : rt = RMulti info -> can_seek_multipart r = true ->
    reads body r rest -> body = l ++ rest ++ tail -> m_ranges info !! k = Some rg ->
    r_start rg <= zlen l -> zlen (l ++ rest) = r_end rg -> multi_state info l (Some (Z.of_nat k)) f ->
    going rest r f (parts_out info (final_of info) l (m_ranges info)).

Lemma multi_facts info : rt = RMulti info ->
  Forall range_ok (m_ranges info) /\ Forall non_empty (m_ranges info) /\ ascending (m_ranges info) /\
  last (m_ranges info) = Some (final_of info) /\ Forall (fun r => r_end r <= zlen body) (m_ranges info).
Proof.
  intros ->. cbn [ranges_of is_multi] in *. split_and!; try done.
  - eapply Forall_impl; [exact ranges_in|]. by intros ? [? ?].
  - unfold final_of. destruct (last (m_ranges info)) eqn:Hl; [done|]. apply last_None in Hl. by destruct (multi_some eq_refl).
  - eapply Forall_impl; [exact ranges_in|]. by intros ? [? ?].
Qed.

(** A piece of the body goes through the filter. *)
Lemma going_data rest rest' r r' f out d :
  going rest r f out -> rest = d ++ rest' -> reads body r' rest' ->
  can_seek_multipart r' = can_seek_multipart r ->
  exists o f', filter_body f (Some d) = Some (o, f') /\ going rest' r' f' (out ++ default [] o).
Proof.
  intros Hg Hrest Hr Hc. pose proof (zlen_nonneg d). pose proof (zlen_nonneg rest').
  destruct Hg as [rest r f out Hf Hrd Hout|rest r f Hrt Hf Hrd|rest r rg l idx Hrt Hrd Hb
                 |rest r info l f Hrt Hns Hrd Hb Hm|rest r info l f k rg tail Hrt Hs Hrd Hb Hk Hst Hend Hm].
  - exists (Some d), f. unfold filter_body. rewrite Hf. split; [done|]. apply going_plain; [done|done|].
    simpl. by rewrite <- app_assoc, <- Hrest.
  - exists None, f. unfold filter_body. rewrite Hf. split; [done|]. by apply going_invalid.
  - subst rest. pose proof body_fits as Hsz. rewrite Hb, !zlen_app in Hsz. pose proof (zlen_nonneg l).
    pose proof ranges_in as Hin. rewrite Hrt in Hin. apply Forall_singleton in Hin as [Hok _].
    destruct (filter_range_data_spec rg l d Hok ltac:(lia)) as (o & Ho & Hcut & _).
    unfold filter_body. cbn [f_range f_current]. rewrite Ho. cbn [mbind option_bind].
    unfold set_current_cursor. cbn. rewrite wadd_small, <- zlen_app by lia. eexists o, _. split; [done|].
    rewrite <- Hcut. apply going_single; [done|done|]. by rewrite Hb, app_assoc.
  - destruct (multi_facts info Hrt) as (Hok & Hne & Hasc & Hlast & _). subst rest.
    pose proof body_fits as Hsz. rewrite Hb, !zlen_app in Hsz.
    destruct (filter_body_multi info _ Hok Hne Hasc Hlast l None f d Hm ltac:(lia)) as (o & f' & -> & Hm' & Hout).
    exists o, f'. split; [done|]. rewrite <- Hout. apply (going_multi _ _ info); try done; [congruence|].
    by rewrite Hb, app_assoc.
  - destruct (multi_facts info Hrt) as (Hok & Hne & Hasc & Hlast & _). subst rest.
    pose proof body_fits as Hsz. rewrite Hb, !zlen_app in Hsz. pose proof (zlen_nonneg tail).
    destruct (filter_body_multi info _ Hok Hne Hasc Hlast l _ f d Hm ltac:(lia)) as (o & f' & -> & Hm' & Hout).
    exists o, f'. split; [done|]. rewrite <- Hout. apply (going_sought _ _ info _ _ k rg tail); try done.
    + congruence.
    + by rewrite Hb, <- !app_assoc.
    + rewrite zlen_app. lia.
    + by rewrite <- app_assoc.
Qed.

(** The ranges of a multipart reply that are still to be sought. *)
Definition seeks_left (f : RangeBodyFilter) : nat :=
  match f_range f, f_cache_multipart_idx f with
  | RMulti info, Some i => Z.to_nat (zlen (m_ranges info) - 1 - i)
  | _, _ => 0
  end.

(** A seek to the next range of a multipart reply. *)
Lemma seek_to info k rg l tail c f r rest rs st s :
  rt = RMulti info -> can_seek_multipart r = true -> reads body r rest -> body = l ++ tail ->
  m_ranges info !! k = Some rg -> zlen l <= r_start rg -> 
  (forall rg' j, m_ranges info !! j = Some rg' -> (j < k)%nat -> r_end rg' <= zlen l) ->
  match c with Some i => wadd i 1 | None => 0 end = Z.of_nat k -> multi_state info l c f ->
  exists r' f',
    maybe_seek world miss (serving r rs st s f) = Val tt (serving r' rs st (body_state false) f') /\
    going (cut body (r_start rg) (r_end rg)) r' f' (parts_out info (final_of info) l (m_ranges info)) /\
    cut body (r_start rg) (r_end rg) <> [] /\
    seek_multipart r (r_start rg) (Some (r_end rg)) = Some (inl tt, r') /\
    seeks_left f' = (length (m_ranges info) - 1 - k)%nat.
Proof.
  intros Hrt Hsm Hrd Hb Hk Hl Hbefore Hc (fin & later & Hrs & -> & Hfin & Hlater).
  destruct (multi_facts info Hrt) as (Hok & Hne & Hasc & _ & Hin).
  assert (length fin = k) as Hlen.
  { eapply finished_count; [exact Hasc|done|exact Hrs|done|done| |done|apply lookup_lt_Some in Hk; lia].
    intros rg' Hrg'. rewrite Hk in Hrg'. by injection Hrg' as <-. }
  assert (non_empty rg /\ range_ok rg /\ r_end rg <= zlen body) as (Hne' & [Hok' ?] & Hin').
  { rewrite Forall_lookup in Hne, Hok, Hin. split_and!; [by eapply Hne|by eapply Hok|by eapply (Hin k)]. }
  unfold non_empty in Hne'.
  destruct (reads_seek_multipart body r rest (r_start rg) (r_end rg)) as (r' & Hseek & Hrd' & Hsm'); [done|done|lia|lia|].
  set (f1 := MkFilter (RMulti info) (zlen l) (Some (zlen fin)) (Some (Z.of_nat k))).
  assert (next_cache_multipart_range (MkFilter (RMulti info) (zlen l) (Some (zlen fin)) c) = (f1, inl rg)) as Hnext.
  { unfold next_cache_multipart_range. cbn [f_range f_cache_multipart_idx f_multipart_idx f_current].
    rewrite Hc. unfold zlen at 1. rewrite Hlen, Z.eqb_refl. cbn [negb]. unfold range_at.
    destruct (Z.ltb_spec (Z.of_nat k) 0); [lia|]. rewrite Nat2Z.id, Hk. done. }
  eexists r', _. split; [by eapply maybe_seek_multi|].
  set (l' := ztake (r_start rg) body).
  assert (zlen l' = r_start rg) as Hl' by (unfold l'; rewrite zlen_ztake; lia).
  assert (exists gap, l' = l ++ gap) as [gap Hgap].
  { unfold l'. rewrite Hb. exists (ztake (r_start rg - zlen l) tail). rewrite ztake_app_r; [done|lia]. }
  assert (Forall (fun r => zlen l' <= r_start r /\ zlen l' < r_end r) later) as Hlate.
  { apply Forall_lookup. intros i a Ha. assert (m_ranges info !! (k + i)%nat = Some a) as Ha'.
    { rewrite Hrs, lookup_app_r, Hlen by lia. by replace (k + i - k)%nat with i by lia. }
    rewrite Forall_lookup in Hne. specialize (Hne _ _ Ha'). unfold non_empty in Hne. rewrite Hl'.
    destruct i as [|i]; [rewrite Nat.add_0_r, Hk in Ha'; injection Ha' as <-; lia|].
    pose proof (ascending_lookup _ _ _ _ _ Hasc Hk Ha' ltac:(lia)). lia. }
  assert (seeks_left (set_current_cursor (r_start rg) f1) = (length (m_ranges info) - 1 - k)%nat) as Hleft.
  { unfold seeks_left, f1. cbn. unfold zlen. lia. }
  split; [|split; [|done]; intros Hnil; pose proof (cut_length body (r_start rg) (r_end rg) ltac:(lia) ltac:(lia) ltac:(lia)) as Hcl; rewrite Hnil, zlen_nil in Hcl; lia].
  assert (parts_out info (final_of info) l (m_ranges info) = parts_out info (final_of info) l' (m_ranges info)) as ->.
  { rewrite Hrs in Hok, Hne. apply Forall_app in Hok as [Hokf _], Hne as [Hnef _].
    rewrite Hrs. unfold parts_out. rewrite !map_app, !concat_app. f_equal.
    - symmetry. rewrite Hgap. by apply (parts_out_finished info (final_of info) l gap fin).
    - transitivity (@nil byte); [|symmetry]; apply (parts_out_none info (final_of info));
        (eapply Forall_impl; [exact Hlate|]); simpl; [|lia]. pose proof (zlen_nonneg gap). rewrite Hgap, zlen_app. lia. }
  eapply (going_sought _ _ info l' _ k rg (zdrop (r_end rg) body)); try done.
  - apply cut_split; lia.
  - lia.
  - rewrite zlen_app, Hl', cut_length by lia. lia.
  - exists fin, later. unfold set_current_cursor, f1. cbn. split_and!; [done|by rewrite Hl'| |].
    + eapply Forall_impl; [exact Hfin|]. simpl. lia.
    + eapply Forall_impl; [exact Hlate|]. simpl. lia.
Qed.

Lemma parts_all info l tail :
  rt = RMulti info -> body = l ++ tail -> Forall (fun r => r_end r <= zlen l) (m_ranges info) ->
  parts_out info (final_of info) l (m_ranges info) = multipart_body info body.
Proof.
  intros Hrt Hb Hend. destruct (multi_facts info Hrt) as (Hok & Hne & Hasc & Hlast & Hin).
  rewrite <- (parts_out_finished info (final_of info) l tail) by done. rewrite <- Hb. unfold multipart_body.
  apply last_Some in Hlast as [rs Hrs]. rewrite Hrs in *. by apply parts_out_init.
Qed.

(** The reader has nothing more: the reply is complete, or the next range is sought. *)
Lemma going_end left r f out rs st s :
  going left r f out -> left = [] ->
  if should_cache_seek_again f then
    exists rest' r' f', maybe_seek world miss (serving r rs st s f) = Val tt (serving r' rs st (body_state false) f') /\
      going rest' r' f' out /\ rest' <> [] /\ seeks_left f = S (seeks_left f') /\
      exists a b, seek_multipart r a (Some b) = Some (inl tt, r')
  else out = reply_body rt body.
Proof.
  intros Hg. destruct Hg as [q r' f' out' Hf Hrd Hout|q r' f' Hrt Hf Hrd|q r' rg l idx Hrt Hrd Hb
                 |q r' info l f' Hrt Hns Hrd Hb Hm|q r' info l f' k rg tail Hrt Hs Hrd Hb Hk Hst Hend Hm]; intros ->.
  - unfold should_cache_seek_again. rewrite Hf. by rewrite app_nil_r in Hout.
  - unfold should_cache_seek_again. rewrite Hf, Hrt. done.
  - unfold should_cache_seek_again. cbn [f_range]. rewrite app_nil_r in Hb. by rewrite Hrt, Hb.
  - destruct (multi_facts info Hrt) as (_ & _ & _ & _ & Hin). pose proof Hm as (fin & later & _ & -> & _).
    unfold should_cache_seek_again. cbn [f_range f_cache_multipart_idx]. rewrite Hrt. cbn [reply_body].
    apply (parts_all info l []); [done|done|]. rewrite app_nil_r in Hb. by rewrite <- Hb.
  - destruct (multi_facts info Hrt) as (Hok & Hne & Hasc & _ & Hin). rewrite app_nil_r in Hend.
    assert (Z.of_nat k < usize_mod) as Hksz.
    { pose proof (index_le_start _ _ _ Hasc Hne Hok Hk). rewrite Forall_lookup in Hin, Hok.
      specialize (Hin _ _ Hk). simpl in Hin. destruct (Hok _ _ Hk). lia. }
    assert (0 < zlen (m_ranges info) <= zlen body) as Hn.
    { unfold zlen at 1. pose proof (lookup_lt_Some _ _ _ Hk) as Hlt.
      destruct (lookup_lt_is_Some_2 (m_ranges info) (length (m_ranges info) - 1)) as [a Ha]; [lia|].
      pose proof (index_le_start _ _ _ Hasc Hne Hok Ha). rewrite Forall_lookup in Hin, Hne.
      specialize (Hin _ _ Ha). specialize (Hne _ _ Ha). unfold non_empty in Hne. simpl in Hin. unfold zlen in *. lia. }
    pose proof Hm as (fin & later & _ & Hf & _). rewrite Hf. unfold should_cache_seek_again.
    cbn [f_range f_cache_multipart_idx]. rewrite wsub_small by lia. rewrite <- Hf.
    destruct (Z.eqb_spec (Z.of_nat k) (zlen (m_ranges info) - 1)) as [Hlast|Hmore]; cbn [negb].
    + rewrite Hrt. cbn [reply_body]. apply (parts_all info l tail); [done|done|].
      apply Forall_lookup. intros j a Ha. destruct (decide (j = k)) as [->|].
      * rewrite Hk in Ha. injection Ha as <-. lia.
      * pose proof (lookup_lt_Some _ _ _ Ha). unfold zlen in Hlast.
        pose proof (ascending_lookup _ j k a rg Hasc Ha Hk ltac:(lia)).
        rewrite Forall_lookup in Hok. destruct (Hok _ _ Hk). lia.
    + pose proof (lookup_lt_Some _ _ _ Hk). unfold zlen in Hmore.
      destruct (lookup_lt_is_Some_2 (m_ranges info) (S k)) as [rg' Hk']; [lia|].
      destruct (seek_to info (S k) rg' l tail (Some (Z.of_nat k)) f' r' [] rs st s) as (r2 & f2 & Hms & Hg' & Hcn & Hsk & Hleft);
        try done; [| |assert (Z.of_nat (S k) < zlen (m_ranges info)) by (unfold zlen in *; lia); rewrite wadd_small; lia|].
      * pose proof (ascending_lookup _ k (S k) rg rg' Hasc Hk Hk' ltac:(lia)). lia.
      * intros a j Ha Hj. destruct (decide (j = k)) as [->|]; [rewrite Hk in Ha; injection Ha as <-; lia|].
        pose proof (ascending_lookup _ j k a rg Hasc Ha Hk ltac:(lia)).
        rewrite Forall_lookup in Hok. destruct (Hok _ _ Hk). lia.
      * exists (cut body (r_start rg') (r_end rg')), r2, f2. split_and!; [done|done|done| |eauto].
        rewrite Hleft, Hf. unfold seeks_left. cbn [f_range f_cache_multipart_idx]. unfold zlen. lia.
Qed.

(** ** One call *)

Definition task_data (t : @CacheTask M) : option (list byte) :=
  match t with TaskBody d _ | TaskUpgradedBody d _ => d | _ => None end.

(** What a call does that finds [out] sent: the end of a complete reply, a piece
    that goes through the filter, a pending read, or an error of the reader. *)
Definition call_ok (out : list byte) rs st (res : exec (@Serving M W R) Error (@CacheTask M)) : Prop :=
  match res with
  | Val TaskDone v => out = reply_body rt body /\ exists r f, v = serving r rs st done_state f
  | Val t v => exists d rest r f f' o, task_data t = Some d /\ v = serving r rs st (body_state false) f /\
      filter_body f (Some d) = Some (o, f') /\ going rest r f' (out ++ default [] o)
  | Cancelled v => exists rest r f, v = serving r rs st (body_state false) f /\ going rest r f out
  | Fail e v => exists r, (read_body st r).1 = Ready (inr e)
  | Panic => False
  end.

Lemma going_reads rest r f out : going rest r f out -> reads body r rest.
Proof. by destruct 1. Qed.

(** The reader is asked for a piece; [k] says what happens at the end of what it has. *)
Lemma read_ok rest r f out rs st k :
  going rest r f out ->
  (forall r', rest = [] -> reads body r' [] -> can_seek_multipart r' = can_seek_multipart r ->
     call_ok out rs st (k (serving r' rs st (body_state false) f))) ->
  call_ok out rs st
    ((let! d := read_reader world miss in
      match d with Some b => ret (body_task b upgraded) | None => k end)
     (serving r rs st (body_state false) f)).
Proof.
  intros Hg Hk. pose proof (going_reads _ _ _ _ Hg) as Hrd. unfold bind at 1. rewrite read_reader_eq.
  pose proof (reads_no_panic st body r rest Hrd) as Hnp.
  destruct (read_body st r) as [[[[d|]|e]| |] r'] eqn:Hread; cbn [fst] in Hnp; [| | | |done].
  - destruct (reads_data _ _ _ _ _ _ Hrd Hread) as (rest' & Hrest & Hrd' & Hc).
    destruct (going_data _ _ _ _ _ _ _ Hg Hrest Hrd' Hc) as (o & f' & Hf & Hg').
    unfold body_task, ret, call_ok. destruct upgraded; (exists d, rest', r', f, f', o; done).
  - destruct (reads_end _ _ _ _ _ Hrd Hread) as (Hnil & Hrd' & Hc). by apply Hk.
  - exists r. by rewrite Hread.
  - destruct (reads_pending _ _ _ _ _ Hrd Hread) as [Hrd' Hc].
    exists rest, r', f. split; [done|]. revert Hrd' Hc. clear -Hg. destruct Hg; intros Hrd' Hc.
    + by apply going_plain.
    + by apply going_invalid.
    + by apply going_single.
    + apply (going_multi _ _ info); try done. congruence.
    + apply (going_sought _ _ info _ _ k rg tail); try done. congruence.
Qed.

Lemma going_reader rest r r' f out :
  going rest r f out -> reads body r' rest -> can_seek_multipart r' = can_seek_multipart r -> going rest r' f out.
Proof.
  intros Hg Hrd' Hc. destruct Hg.
  - by apply going_plain.
  - by apply going_invalid.
  - by apply going_single.
  - apply (going_multi _ _ info); try done. congruence.
  - apply (going_sought _ _ info _ _ k rg tail); try done. congruence.
Qed.

Lemma body_loop_ok rest r f out rs st :
  going rest r f out ->
  call_ok out rs st (body_loop world body_rounds miss upgraded (serving r rs st (body_state false) f)).
Proof.
  intros Hg. unfold body_rounds. cbn [body_loop]. apply (read_ok rest); [done|]. intros r' -> Hrd Hc.
  unfold bind at 1, get. cbn [sv_range serving].
  pose proof (going_end _ r' f out rs st (body_state false) (going_reader _ _ r' _ _ Hg Hrd Hc) eq_refl) as Hend.
  destruct (should_cache_seek_again f).
  - destruct Hend as (rest' & r2 & f2 & Hms & Hg' & Hne & _). unfold bind at 1. fold (serving r' rs st (body_state false) f).
    rewrite Hms. by apply (read_ok rest').
  - split; [done|]. by exists r', f.
Qed.

(** The first call after the header: the seek, where the reader can. *)
Lemma start_seek r rs st s :
  reads body r body ->
  exists rest r' f', maybe_seek world miss (serving r rs st s (new_range rt)) =
      Val tt (serving r' rs st (body_state false) f') /\ going rest r' f' [] /\
    (seeks_left f' <= length (ranges_of rt) - 1)%nat /\
    (r' = r \/ exists a b, seek r a (Some b) = Some (inl tt, r') \/ seek_multipart r a (Some b) = Some (inl tt, r')).
Proof.
  intros Hrd. assert (exists t, rt = t) as [t Hrt] by eauto.
  replace (new_range rt) with (new_range t) by (by rewrite Hrt). destruct t as [|rg|info|].
  - exists body, r, (new_range RNone). split; [by apply maybe_seek_none|]. split_and!; [apply going_plain; [done|done|by rewrite Hrt]|cbn; lia|by left].
  - pose proof ranges_in as Hin. pose proof ranges_non_empty as Hne. rewrite Hrt in Hin, Hne.
    apply Forall_singleton in Hin as [[Hok Hu] Hin]. apply (proj1 (Forall_singleton _ _)) in Hne. unfold non_empty in Hne.
    destruct (can_seek r) eqn:Hc.
    + destruct (reads_seek body r body (r_start rg) (r_end rg)) as (r' & Hs & Hrd'); [done|done|lia|lia|].
      eexists _, r', _. split; [by eapply maybe_seek_single|]. split_and!; [|cbn; lia|eauto].
      apply going_plain; [done|done|]. by rewrite Hrt.
    + exists body, r, (new_range (RSingle rg)). split; [by apply maybe_seek_none|].
      split_and!; [|cbn; lia|by left].
      pose proof (going_single body r rg [] None Hrt Hrd eq_refl) as Hg. rewrite zlen_nil in Hg.
      rewrite cut_late in Hg by (rewrite zlen_nil; lia). exact Hg.
  - destruct (multi_facts info) as (Hok & Hne & Hasc & Hlast & Hin); [done|].
    assert (multi_state info [] None (new_range (RMulti info))) as Hm.
    { exists [], (m_ranges info). split_and!; [done|done|constructor|].
      apply Forall_lookup. intros i a Ha. rewrite Forall_lookup in Hok, Hne. destruct (Hok _ _ Ha) as [? _].
      specialize (Hne _ _ Ha). unfold non_empty in Hne. rewrite zlen_nil. lia. }
    assert (parts_out info (final_of info) [] (m_ranges info) = []) as Hnil.
    { apply parts_out_none. eapply Forall_impl; [exact Hok|]. intros a [? ?]. rewrite zlen_nil. lia. }
    destruct (can_seek_multipart r) eqn:Hc.
    + destruct (lookup_lt_is_Some_2 (m_ranges info) 0) as [rg Hk].
      { destruct (m_ranges info); [done|simpl; lia]. }
      destruct (seek_to info 0 rg [] body None (new_range (RMulti info)) r body rs st s) as (r' & f' & Hms & Hg & _ & Hsk & Hleft);
        try done; [|intros; lia|].
      * rewrite Forall_lookup in Hok. destruct (Hok _ _ Hk) as [? _]. rewrite zlen_nil. lia.
      * rewrite Hnil in Hg. eexists _, r', f'. split_and!; [done|done| |eauto]. rewrite Hrt, Hleft. simpl. lia.
    + exists body, r, (new_range (RMulti info)). split; [by apply maybe_seek_none|].
      split_and!; [|cbn; lia|by left]. rewrite <- Hnil. by apply (going_multi _ _ info).
  - exists body, r, (new_range RInvalid). split; [by apply maybe_seek_none|].
    split_and!; [by apply going_invalid|cbn; lia|by left].
Qed.

Definition with_store (st : W) (v : @Serving M W R) : Serving :=
  MkServing (sv_session v) (sv_readers v) st (sv_state v) (sv_range v).
Definition with_filter (f : RangeBodyFilter) (v : @Serving M W R) : Serving :=
  MkServing (sv_session v) (sv_readers v) (sv_store v) (sv_state v) f.

(** Calls of [next_http_task] with each piece passed through the filter, while
    the store changes as it will: [out] is what has been sent. *)
Inductive served (v : @Serving M W R) : list byte -> @Serving M W R -> Prop :=
| served_none st : served v [] (with_store st v)
| served_pending out v1 v2 st : served v out v1 -> next_http_task world upgraded v1 = Cancelled v2 ->
    served v out (with_store st v2)
| served_piece out v1 t v2 d o f st : served v out v1 -> next_http_task world upgraded v1 = Val t v2 ->
    task_data t = Some d -> filter_body (sv_range v2) (Some d) = Some (o, f) ->
    served v (out ++ default [] o) (with_store st (with_filter f v2)).

(** Between calls: before the first one, or serving. *)
Inductive between : list byte -> @Serving M W R -> Prop :=
| between_start r rs st : reads body r body -> between [] (serving r rs st (body_state true) (new_range rt))
| between_going out rest r rs st f : going rest r f out -> between out (serving r rs st (body_state false) f).

Lemma next_started v : sv_session v = ses -> sv_state v = body_state false ->
  next_http_task world upgraded v = body_loop world body_rounds miss upgraded v.
Proof.
  intros Hs Hst. unfold next_http_task, bind at 1, get. rewrite Hs, cache_on, Hst. by destruct miss.
Qed.

Lemma next_starting v : sv_session v = ses -> sv_state v = body_state true ->
  next_http_task world upgraded v =
  (do! maybe_seek world miss; body_loop world body_rounds miss upgraded) v.
Proof.
  intros Hs Hst. unfold next_http_task, bind at 1, get. rewrite Hs, cache_on, Hst. by destruct miss.
Qed.

Lemma between_call out v : between out v ->
  exists rs st, call_ok out rs st (next_http_task world upgraded v).
Proof.
  intros [r rs st Hrd|out' rest r rs st f Hg]; exists rs, st.
  - rewrite next_starting by done. destruct (start_seek r rs st (body_state true) Hrd) as (rest & r' & f' & Hms & Hg & _).
    unfold bind at 1. rewrite Hms. by apply body_loop_ok with rest.
  - rewrite next_started by done. by apply body_loop_ok with rest.
Qed.

Lemma between_store out v st : between out v -> between out (with_store st v).
Proof. intros [r rs st' Hrd|out' rest r rs st' f Hg]; [by apply between_start|by apply between_going with rest]. Qed.

Lemma served_between v out v' : between [] v -> served v out v' -> between out v'.
Proof.
  intros Hv. induction 1 as [st|out v1 v2 st _ IH Hn|out v1 t v2 d o f st _ IH Hn Ht Hf].
  - by apply between_store.
  - destruct (between_call _ _ IH) as (rs & st' & Hc). rewrite Hn in Hc. destruct Hc as (rest & r & f & -> & Hg).
    apply between_store. by apply between_going with rest.
  - destruct (between_call _ _ IH) as (rs & st' & Hc). rewrite Hn in Hc.
    assert (exists d rest r f f' o, task_data t = Some d /\ v2 = serving r rs st' (body_state false) f /\
      filter_body f (Some d) = Some (o, f') /\ going rest r f' (out ++ default [] o)) as
      (d' & rest & r & f0 & f' & o' & Ht' & -> & Hf' & Hg) by (by destruct t).
    rewrite Ht in Ht'. injection Ht' as <-. cbn [sv_range serving] in Hf. rewrite Hf in Hf'. injection Hf' as <- <-.
    apply between_store. by apply (between_going _ rest).
Qed.
End serving.

(** The ranges of a request that fits the body. *)
Record ranges_fit (rt : RangeType) (body : list byte) : Prop := {
  rf_body : zlen body < usize_mod;
  rf_in : Forall (range_in (zlen body)) (ranges_of rt);
  rf_ascending : ascending (ranges_of rt);
  rf_non_empty : Forall non_empty (ranges_of rt);
  rf_multi : is_multi rt = true -> ranges_of rt <> []
}.

(** C15: serving a cached body through the range filter, to a hit or to the request
    that fills the cache, whatever the requested ranges, whether the reader of
    the storage can seek or not, and however often its reads are pending while
    the store changes: no call panics, no piece breaks the filter, an error can
    only come from the reader, and when the end is reported what has been sent
    is the whole reply, part headers and final boundary included. *)
Theorem serve_body_exact {M : Type} `{HeaderMap M} {W R : Type} `{HR : HandleHit W R, RB : !ReadsBody W R}
    (world : @World M) ses h miss upgraded rt body r readers st out v :
  enabled (cache ses) = true ->
  (forall v : @Serving M W R, sv_session v = ses -> reader_handle world miss v = Val h v) ->
  ranges_fit rt body -> reads body r body ->
  served world upgraded
    (MkServing ses (<[h := r]> readers) st (if miss then CacheBodyMiss true else CacheBody true) (new_range rt))
    out v ->
  match next_http_task world upgraded v with
  | Val TaskDone _ => out = reply_body rt body
  | Val t v' => exists d, task_data t = Some d /\ filter_body (sv_range v') (Some d) <> None
  | Cancelled _ => True
  | Fail e _ => exists st r, (read_body st r).1 = Ready (inr e)
  | Panic => False
  end.
Proof.
  intros Hon Hreader [Hb Hin Hasc Hne Hm] Hrd Hserved.
  pose proof (served_between world ses h miss upgraded Hon Hreader rt body Hb Hin Hasc Hne Hm _ _ _
    (between_start ses h miss rt body r readers st Hrd) Hserved) as Hbt.
  destruct (between_call world ses h miss upgraded Hon Hreader rt body Hb Hin Hasc Hne Hm _ _ Hbt) as (rs & st' & Hc).
  destruct (next_http_task world upgraded v) as [t v'|e v'|v'|]; cbn [call_ok] in Hc; [|by eauto|done|done].
  destruct t; [destruct Hc as (d & _ & r' & f & f' & o & Ht & -> & Hf & _); exists d; split; [done|]; cbn; by rewrite Hf..|].
  by destruct Hc.
Qed.

(** ** Complete hits in memory *)

#[export] Existing Instance Mem.mem_handle_hit.

Section memory.
Context {K : Type} `{Countable K} {Bin : Type}.
Notation MemCache := (@Mem.MemCache K _ _ Bin).

Definition mem_reads (body : list byte) (r : Mem.MemHitHandler) (rest : list byte) : Prop :=
  match r with
  | Mem.HComplete c =>
      Mem.ch_body c = body /\ 0 <= Mem.range_start c <= Mem.range_end c /\ Mem.range_end c <= zlen body /\
      rest = if Mem.ch_done c then [] else cut body (Mem.range_start c) (Mem.range_end c)
  | Mem.HPartial _ => False
  end.

Lemma mem_seek_ok body r rest s e : mem_reads body r rest -> 0 <= s < e -> e <= zlen body ->
  exists c, r = Mem.HComplete c /\ Mem.complete_seek c s (Some e) = (inl tt, Mem.MkComplete body false s e).
Proof.
  destruct r as [c|]; [|done]. intros (Hb & _ & _ & _) Hs He. exists c. split; [done|].
  unfold Mem.complete_seek. rewrite Hb. destruct (Z.leb_spec (zlen body) s); [lia|]. by rewrite Z.min_r by lia.
Qed.

#[export] Program Instance mem_reads_body : ReadsBody MemCache Mem.MemHitHandler := {| reads := mem_reads |}.
Next Obligation.
  intros st b [c|] rest; [|done]. intros (<- & H1 & H2 & _). cbn. unfold Mem.complete_get.
  destruct (Mem.ch_done c); [done|]. by rewrite slice_cut by lia.
Qed.
Next Obligation.
  intros st b [c|] rest d r'; [|done]. intros (<- & H1 & H2 & ->). cbn. unfold Mem.complete_get.
  destruct (Mem.ch_done c) eqn:Hd; [done|]. rewrite slice_cut by lia. cbn. intros [= <- <-].
  exists []. rewrite app_nil_r. split_and!; [done| |done]. cbn. split_and!; try done; lia.
Qed.
Next Obligation.
  intros st b [c|] rest r'; [|done]. intros (<- & H1 & H2 & ->). cbn. unfold Mem.complete_get.
  destruct (Mem.ch_done c) eqn:Hd; [|by rewrite slice_cut by lia]. intros [= <-].
  split_and!; [done| |done]. cbn. rewrite Hd. split_and!; try done; lia.
Qed.
Next Obligation.
  intros st b [c|] rest r'; [|done]. intros (<- & H1 & H2 & ->). cbn. unfold Mem.complete_get.
  destruct (Mem.ch_done c); [done|]. by rewrite slice_cut by lia.
Qed.
Next Obligation.
  intros b r rest s e Hr _ Hs He. destruct (mem_seek_ok b r rest s e Hr Hs He) as (c & -> & Hc).
  cbn. rewrite Hc. eexists. split; [done|]. cbn. split_and!; try done; lia.
Qed.
Next Obligation.
  intros b r rest s e Hr _ Hs He. destruct (mem_seek_ok b r rest s e Hr Hs He) as (c & -> & Hc).
  cbn. rewrite Hc. eexists. split; [done|]. cbn. split_and!; try done; lia.
Qed.

Context {M : Type} `{HeaderMap M}.
Variable world : @World M.
Variables (ses : @Session M) (h : HitHandler) (miss upgraded : bool).
Hypothesis cache_on : enabled (cache ses) = true.
Hypothesis cache_reader :
  forall v : @Serving M MemCache Mem.MemHitHandler, sv_session v = ses -> reader_handle world miss v = Val h v.
Variables (rt : RangeType) (body : list byte).
Hypothesis fit : ranges_fit rt body.

Abbreviation at_body b := (if miss then CacheBodyMiss b else CacheBody b).
Notation serve r rs st s f := (serving (W := MemCache) ses h r rs st s f).
Abbreviation mem_going := (going (W := MemCache) rt body).

(** Calls until the end is reported; what is sent. *)
Fixpoint serve_all (fuel : nat) (v : @Serving M MemCache Mem.MemHitHandler) : option (list byte) :=
  match fuel with
  | O => None
  | S fuel =>
      match next_http_task world upgraded v with
      | Val TaskDone _ => Some []
      | Val t v =>
          d ← task_data t;
          '(o, f) ← filter_body (sv_range v) (Some d);
          rest ← serve_all fuel (with_filter f v);
          Some (default [] o ++ rest)
      | _ => None
      end
  end.

Lemma filter_body_keeps f d o f' : filter_body f d = Some (o, f') ->
  f_range f' = f_range f /\ f_cache_multipart_idx f' = f_cache_multipart_idx f.
Proof.
  unfold filter_body. destruct (f_range f) as [|rg|info|] eqn:Hf.
  - by intros [= _ <-].
  - destruct d as [d|]; [|by intros [= _ <-]]. destruct (filter_range_data _ _ _ _); cbn; [|done]. by intros [= _ <-].
  - destruct d as [d|]; [|by intros [= _ <-]]. unfold filter_multi_range_body, set_current_cursor. cbn. rewrite Hf.
    destruct (f_multipart_idx f); cbn; [|done]. destruct (last _); [|by intros [= _ <-]].
    destruct (_ <? _); [done|]. destruct (multi_range_go _ _ _ _ _ _ _ _) as [[? ?]|]; cbn; [|done]. by intros [= _ <-].
  - by intros [= _ <-].
Qed.

Lemma seeks_left_keeps f d o f' : filter_body f d = Some (o, f') -> seeks_left f' = seeks_left f.
Proof. intros [H1 H2]%filter_body_keeps. unfold seeks_left. by rewrite H1, H2. Qed.

Definition used (c : Mem.CompleteHit) : Mem.CompleteHit :=
  Mem.MkComplete (Mem.ch_body c) true (Mem.range_start c) (Mem.range_end c).

(** A reader that is not used up gives all it has at once. *)
Lemma unread_piece n c rest f out rs st :
  Mem.ch_done c = false -> mem_going rest (Mem.HComplete c) f out ->
  body_loop world (S n) miss upgraded (serve (Mem.HComplete c) rs st (at_body false) f) =
    Val (body_task rest upgraded) (serve (Mem.HComplete (used c)) rs st (at_body false) f) /\
  exists o f', filter_body f (Some rest) = Some (o, f') /\
    mem_going [] (Mem.HComplete (used c)) f' (out ++ default [] o).
Proof.
  intros Hd Hg. pose proof (going_reads _ _ _ _ _ _ Hg) as (Hb & H1 & H2 & Hrest). rewrite Hd in Hrest.
  assert (Mem.complete_get c = Some (Some rest, used c)) as Hget.
  { unfold Mem.complete_get. rewrite Hd, Hb, slice_cut by lia. cbn. rewrite <- Hb at 2. by rewrite <- Hrest. }
  split.
  - cbn [body_loop]. unfold bind at 1. rewrite (read_reader_eq world ses h miss cache_reader). cbn [read_body Mem.mem_handle_hit].
    rewrite Hget. done.
  - destruct fit as [Hbf Hin Hasc Hne Hm].
    apply (going_data rt body Hbf Hin Hasc Hne Hm rest [] (Mem.HComplete c)); [done|by rewrite app_nil_r| |done].
    cbn. rewrite Hb. split_and!; try done; lia.
Qed.

Lemma serve_all_going fuel c rest f out rs st :
  mem_going rest (Mem.HComplete c) f out ->
  ((if Mem.ch_done c then 0 else 1) + seeks_left f < fuel)%nat ->
  exists o, serve_all fuel (serve (Mem.HComplete c) rs st (at_body false) f) = Some o /\
    out ++ o = reply_body rt body.
Proof.
  revert c rest f out. induction fuel as [|fuel IH]; intros c rest f out Hg Hfuel; [lia|].
  cbn [serve_all]. rewrite (next_started world ses h miss upgraded cache_on) by done. unfold body_rounds.
  destruct (Mem.ch_done c) eqn:Hd.
  - pose proof (going_reads _ _ _ _ _ _ Hg) as (Hb & H1 & H2 & Hrest). rewrite Hd in Hrest. subst rest.
    assert (Mem.complete_get c = Some (None, c)) as Hget by (unfold Mem.complete_get; by rewrite Hd).
    cbn [body_loop]. unfold bind at 1. rewrite (read_reader_eq world ses h miss cache_reader).
    cbn [read_body Mem.mem_handle_hit]. rewrite Hget. unfold bind at 1, get. cbn [sv_range serving].
    destruct fit as [Hbf Hin Hasc Hne Hm].
    pose proof (going_end world ses h miss cache_reader rt body Hbf Hin Hasc Hne Hm _ _ f out rs st (at_body false) Hg eq_refl) as Hend.
    destruct (should_cache_seek_again f).
    + destruct Hend as (rest' & r2 & f2 & Hms & Hg2 & _ & Hleft & a & b & Hseek).
      cbn in Hseek. unfold Mem.complete_seek in Hseek. destruct (_ <=? a); [done|]. injection Hseek as <-.
      set (c2 := Mem.MkComplete _ _ _ _) in *. unfold bind at 1. unfold serving in Hms at 1. unfold serving at 1.
      rewrite Hms. destruct (unread_piece 1 c2 rest' f2 out rs st eq_refl Hg2) as [Hbl (o & f' & Hf & Hg')].
      change (let! d := read_reader world miss in _) with (body_loop (M := M) (W := MemCache) world 2 miss upgraded).
      rewrite Hbl. unfold body_task. 
      destruct (IH _ _ f' _ Hg') as (o' & Ho' & Hout); [cbn; rewrite (seeks_left_keeps _ _ _ _ Hf); lia|].
      assert (with_filter f' (serve (Mem.HComplete (used c2)) rs st (at_body false) f2) =
              serve (Mem.HComplete (used c2)) rs st (at_body false) f') as Hwf by done.
      exists (default [] o ++ o'). split; [|by rewrite app_assoc].
      destruct upgraded; cbn [task_data mbind option_bind sv_range serving]; rewrite Hf; cbn [mbind option_bind];
        rewrite Hwf, Ho'; done.
    + exists []. split; [by destruct miss|by rewrite app_nil_r].
  - destruct (unread_piece 2 c rest f out rs st Hd Hg) as [Hbl (o & f' & Hf & Hg')]. rewrite Hbl.
    destruct (IH _ _ f' _ Hg') as (o' & Ho' & Hout); [cbn; rewrite (seeks_left_keeps _ _ _ _ Hf); lia|].
    assert (with_filter f' (serve (Mem.HComplete (used c)) rs st (at_body false) f) =
            serve (Mem.HComplete (used c)) rs st (at_body false) f') as Hwf by done.
    exists (default [] o ++ o'). split; [|by rewrite app_assoc]. unfold body_task.
    destruct upgraded; cbn [task_data mbind option_bind sv_range serving]; rewrite Hf; cbn [mbind option_bind];
      rewrite Hwf, Ho'; done.
Qed.
End memory.

(** serving a complete body of the memory store always ends: after the pieces,
    at most one per range and one call more, the end is reported and exactly the
    reply has been sent. *)
Theorem serve_memory_hit_total {K : Type} `{Countable K} {Bin M : Type} `{HeaderMap M} (world : @World M)
    ses h miss upgraded rt body readers (st : @Mem.MemCache K _ _ Bin) :
  enabled (cache ses) = true ->
  (forall v : @Serving M (@Mem.MemCache K _ _ Bin) Mem.MemHitHandler,
     sv_session v = ses -> reader_handle world miss v = Val h v) ->
  ranges_fit rt body ->
  serve_all world upgraded (length (ranges_of rt) + 2)
    (MkServing ses (<[h := Mem.HComplete (Mem.MkComplete body false 0 (zlen body))]> readers) st
       (if miss then CacheBodyMiss true else CacheBody true) (new_range rt)) =
  Some (reply_body rt body).
Proof.
  intros Hon Hreader Hfit. set (c := Mem.MkComplete body false 0 (zlen body)).
  pose proof (zlen_nonneg body). pose proof Hfit as [Hbf Hin Hasc Hne Hm].
  assert (mem_reads body (Mem.HComplete c) body) as Hrd.
  { cbn. split_and!; try lia; [done|]. unfold cut. by rewrite Z.sub_0_r, zdrop_0, ztake_ge. }
  destruct (start_seek (W := @Mem.MemCache K _ _ Bin) (RB := mem_reads_body) world ses h miss Hreader rt body Hin Hasc Hne Hm
    (Mem.HComplete c) readers st (if miss then CacheBodyMiss true else CacheBody true) Hrd)
    as (rest & r' & f' & Hms & Hg & Hleft & Hr).
  assert (exists c', r' = Mem.HComplete c' /\ Mem.ch_done c' = false) as (c' & -> & Hd).
  { destruct Hr as [->|(a & b & [Hs|Hs])]; [by exists c|..]; cbn in Hs; unfold Mem.complete_seek in Hs;
      (destruct (_ <=? a); [done|]); injection Hs as <-; by eexists. }
  rewrite Nat.add_comm. cbn [Nat.add serve_all].
  rewrite (next_starting world ses h miss upgraded Hon Hreader) by done.
  unfold bind at 1. fold (serving (W := @Mem.MemCache K _ _ Bin) ses h (Mem.HComplete c) readers st
    (if miss then CacheBodyMiss true else CacheBody true) (new_range rt)). rewrite Hms.
  destruct (serve_all_going world ses h miss upgraded Hon Hreader rt body Hfit (S (S (length (ranges_of rt))))
    c' rest f' [] readers st Hg) as (o & Ho & Hout); [rewrite Hd; lia|].
  cbn [serve_all] in Ho. rewrite (next_started world ses h miss upgraded Hon Hreader) in Ho by done.
  simpl in Hout. by rewrite <- Hout.
Qed.

(** ** Runs *)

Definition serving_session : @Session CacheMetaSpec.fields :=
  MkSession (MkHttpCache Hit
    (Some (MkInner (Some (MkEnabled None None None None (Some 0) 0 None None None)) None None None None false))
    (MkDigest None None None None)) [].

Lemma serving_reader (v : @Serving fields (@Mem.MemCache Z _ _ (CacheMeta unit)) Mem.MemHitHandler) :
  sv_session v = serving_session -> reader_handle empty_world false v = Val 0 v.
Proof. destruct v as [s ? ? ? ?]. cbn. by intros ->. Qed.

Definition two_ranges : RangeType :=
  RMulti (MkMulti [MkRange 0 2; MkRange 5 6] (bytes_of "b") 7 None).

Lemma two_ranges_fit : ranges_fit two_ranges (bytes_of "0123456").
Proof.
  constructor.
  - reflexivity.
  - repeat constructor; vm_compute; discriminate.
  - repeat constructor. vm_compute. discriminate.
  - repeat constructor.
  - discriminate.
Qed.

Lemma serve_memory_hit_total_witness :
  serve_all empty_world false 4
    (MkServing serving_session {[0 := Mem.HComplete (Mem.MkComplete (bytes_of "0123456") false 0 7)]}
       (Mem.mem_new (K := Z) (Bin := CacheMeta unit) false) (CacheBody true) (new_range two_ranges)) =
  Some (reply_body two_ranges (bytes_of "0123456")).
Proof.
  exact (serve_memory_hit_total (K := Z) (Bin := CacheMeta unit) empty_world serving_session 0 false false two_ranges
           (bytes_of "0123456") ∅ (Mem.mem_new false) eq_refl serving_reader two_ranges_fit).
Defined.

Lemma serve_body_exact_witness :
  match next_http_task empty_world false
    (MkServing serving_session {[0 := Mem.HComplete (Mem.MkComplete (bytes_of "0123456") false 0 7)]}
       (Mem.mem_new (K := Z) (Bin := CacheMeta unit) false) (CacheBody true) (new_range two_ranges)) with
  | Val TaskDone _ => [] = reply_body two_ranges (bytes_of "0123456")
  | Val t v' => exists d, task_data t = Some d /\ filter_body (sv_range v') (Some d) <> None
  | Cancelled _ => True
  | Fail e _ => exists (st : @Mem.MemCache Z _ _ (CacheMeta unit)) r, (read_body st r).1 = Ready (inr e)
  | Panic => False
  end.
Proof.
  apply (serve_body_exact (W := @Mem.MemCache Z _ _ (CacheMeta unit)) (RB := mem_reads_body) empty_world serving_session 0 false false two_ranges
           (bytes_of "0123456") (Mem.HComplete (Mem.MkComplete (bytes_of "0123456") false 0 7)) ∅
           (Mem.mem_new (K := Z) (Bin := CacheMeta unit) false));
    [reflexivity|exact serving_reader|exact two_ranges_fit| |].
  - cbn. split_and!; [reflexivity|lia|lia|reflexivity|reflexivity].
  - exact (served_none _ _ _ (Mem.mem_new false)).
Defined.
