(* ===== verification/ProxyCache.v ===== *)
(** * The proxy's cache lookup

    [src/pingora-proxy/src/proxy_cache.rs]: how [HttpProxy::proxy_cache] drives the
    [HttpCache] of a request, from the cache key to the point where the response
    is served from the cache or the request goes upstream: variants, forced
    freshness, waiting behind the cache lock, retries and serving stale.

    The callbacks of the proxied application are parameters that answer without
    touching the cache; [cache_miss] is the default one.  Serving the hit itself is
    where the model ends. *)

From stdpp Require Import base list numbers strings gmap.
From Stdlib Require Import ZArith Lia.
From S2P Require Import Prelude Errors CacheControl CacheMeta CacheKey HttpCache.
Local Open Scope Z_scope.

Definition DEFAULT_MAX_CACHE_LOCK_RETRIES : Z := 2.

(** [None]: continue to the upstream; [Some]: the response comes from the cache. *)
Inductive LookupEnd := GoUpstream | ServeFromCache.

#[export] Instance LookupEnd_eq_dec : EqDecision LookupEnd.
Proof. solve_decision. Defined.

Section proxy_cache.
Context {M : Type} `{HeaderMap M}.
Notation Meta := (CacheMeta M).
Notation Run A := (Prelude.M (@Session M) Error A).

(** What the trait objects and the callbacks answer in one round of the loop. *)
Record Round := MkRound {
  r_world : @World M;
  r_vary : Meta -> option HashBinary;
  r_hit_filter : Meta -> bool -> option ForcedFreshness + Error;
  r_should_serve_stale : bool
}.

Definition catch {A} (m : Run A) : Run (A + Error) :=
  fun s => match m s with
           | Val a s' => Val (inl a) s'
           | Fail e s' => Val (inr e) s'
           | Cancelled s' => Cancelled s'
           | Panic => Panic
           end.

(** [true]: look the asset up again. *)
Definition handle_lock_wait_outcome (w : World) (outcome : LockWaitOutcome) : Run bool :=
  match outcome with
  | WDone => ret true
  | WTransientError => ret true
  | WGiveUp => do! disable w CacheLockGiveUp; ret false
  | WAbandoned reason _ => do! disable w reason; ret false
  | WDangling => ret true
  | WWaitTimeout => do! disable w CacheLockTimeout; ret false
  | WAgeTimeout => ret true
  end.

(** The number of retries after this one is counted, and whether it was too many. *)
Definition cache_lock_retry_limit_exceeded (w : World) (retries : Z) : Run (Z * bool) :=
  let retries := wadd retries 1 in
  let! limit := cache_lock_max_retries in
  if retries <=? default DEFAULT_MAX_CACHE_LOCK_RETRIES limit then ret (retries, false)
  else do! disable w CacheLockRetryLimit; ret (retries, true).

(** The freshness of the hit, and the metadata it is used with. *)
Definition hit_status_of (r : Round) (m : Meta) : Meta * HitStatus :=
  let fresh := is_fresh m (w_now (r_world r)) in
  match r_hit_filter r m fresh with
  | inr _ => (m, FailedHitFilter)
  | inl None => (m, if fresh then Fresh else HExpired)
  | inl (Some FForceExpired) => (disable_serve_stale m, ForceExpired)
  | inl (Some (FForceExpiredServeStale expired_at)) =>
      (match expired_at with Some t => expire_at m t | None => m end, ForceExpiredServeStale)
  | inl (Some FForceMiss) => (m, ForceMiss)
  | inl (Some FForceFresh) => (m, ForceFresh)
  end.

(** How a round ends: the loop is left, or another round follows with the given
    number of retries. *)
Inductive Next := Break (e : LookupEnd) | Continue (retries : Z).

(** Wait for the request that fills the cache, then try again. *)
Definition wait_and_retry (w : World) (retries : Z) : Run Next :=
  let! outcome := cache_lock_wait w in
  let! again := handle_lock_wait_outcome w outcome in
  if again : bool then
    let! c := cache_lock_retry_limit_exceeded w retries in
    if c.2 : bool then ret (Break GoUpstream) else ret (Continue c.1)
  else ret (Break GoUpstream).

Definition on_miss (w : World) (retries : Z) : Run Next :=
  let! h := get_cache in
  if negb (enabled h) then ret (Break GoUpstream)
  else
    let! locked := is_cache_locked in
    if locked : bool then wait_and_retry w retries
    else do! cache_miss; ret (Break GoUpstream).

(** [sub]: the write lock a background subrequest was given, if any. *)
Definition on_stale (r : Round) (sub : option Z) (retries : Z) : Run Next :=
  let w := r_world r in
  let! locked := is_cache_locked in
  if locked : bool then
    match sub with
    | Some permit => do! set_write_lock permit; ret (Break GoUpstream)
    | None =>
        let! can := can_serve_stale_updating w in
        if can && r_should_serve_stale r then
          do! set_stale_updating; ret (Break ServeFromCache)
        else wait_and_retry w retries
    end
  else
    let! writer := is_cache_lock_writer in
    if writer : bool then
      let! can := can_serve_stale_updating w in
      if can && r_should_serve_stale r then
        let! _ := take_write_lock in
        let! _ := cache_key in
        do! set_stale_updating; ret (Break ServeFromCache)
      else ret (Break GoUpstream)
    else ret (Break GoUpstream).

Definition on_found (r : Round) (sub : option Z) (retries : Z) (m : Meta) (hit : HitHandler) : Run Next :=
  let '(m, st) := hit_status_of r m in
  do! cache_found (r_world r) m hit st;
  if is_treated_as_miss st then on_miss (r_world r) retries
  else if hit_is_fresh st then ret (Break ServeFromCache)
  else on_stale r sub retries.

Definition lookup_round (r : Round) (sub : option Z) (retries : Z) : Run Next :=
  let w := r_world r in
  let! res := catch (cache_lookup w) in
  match res with
  | inr _ => do! cache_miss; ret (Break GoUpstream)
  | inl None => on_miss w retries
  | inl (Some (m, hit)) =>
      let! k := cache_key in
      match key_variance k with
      | Some v =>
          if bool_decide (Some v = variance (internal m)) then on_found r sub retries m hit
          else do! disable w CacheMeta.InternalError; ret (Break GoUpstream)
      | None =>
          match r_vary r m with
          | Some v =>
              let! same := cache_vary_lookup v m in
              if same : bool then on_found r sub retries m hit else ret (Continue retries)
          | None => on_found r sub retries m hit
          end
      end
  end.

(** [None]: the fuel was not enough. *)
Fixpoint lookup_loop (fuel : nat) (rounds : nat -> Round) (sub : option Z) (n : nat) (retries : Z)
  : Run (option LookupEnd) :=
  match fuel with
  | O => ret None
  | S fuel =>
      let! next := lookup_round (rounds n) sub retries in
      match next with
      | Break e => ret (Some e)
      | Continue retries => lookup_loop fuel rounds sub (S n) retries
      end
  end.

(** What comes before the loop: the key, then the prediction.  [true]: look up. *)
Definition proxy_cache_prepare (w : World) (key_callback : CacheKey + Error) : Run bool :=
  let! h := get_cache in
  do! (if enabled h then
         match key_callback with
         | inl k => set_cache_key k
         | inr _ => disable w StorageError
         end
       else ret tt);
  let! h := get_cache in
  let! bypass_it :=
    (if enabled h then let! p := cacheable_prediction w in ret (negb p) else ret false) in
  do! (if bypass_it : bool then bypass w else ret tt);
  let! h := get_cache in
  ret (enabled h).

(** [proxy_cache], for a request that is not a purge. *)
Definition proxy_cache (w : World) (key_callback : CacheKey + Error) (fuel : nat)
    (rounds : nat -> Round) (sub : option Z) : Run (option LookupEnd) :=
  let! go := proxy_cache_prepare w key_callback in
  if go : bool then lookup_loop fuel rounds sub 0 0 else ret (Some GoUpstream).

End proxy_cache.
