(* ===== verification/ProxyCacheSpec.v ===== *)
(** * The proxy's cache lookup: it ends, and never panics

    The lookup loop of [ProxyCache] against the state machine of [HttpCache]: each
    call it makes is allowed where it makes it, the number of rounds is bounded,
    and the state it leaves is one the rest of the proxy can work with. *)

From stdpp Require Import base list numbers strings gmap.
From Stdlib Require Import ZArith Lia.
From S2P Require Import Prelude Errors CacheControl CacheMeta CacheKey HttpCache CacheMetaSpec HttpCacheSpec ProxyCache.
Local Open Scope Z_scope.

Section spec.
Context {M : Type} `{HeaderMap M}.
Notation Sess := (@Session M).
Notation Meta := (CacheMeta M).

(** An enabled cache without a writer, by what the loop depends on. *)
Definition at_state (p : CachePhase) (m : option Meta) (br : option HitHandler)
    (lc : option LockCtx) (k : CacheKey) (s : Sess) : Prop :=
  exists va sv st ev ad t pr pu da d lg,
    s = MkSession (MkHttpCache p
          (Some (MkInner (Some (MkEnabled m va sv None br st ev ad lc)) (Some k) t pr pu da)) d) lg.

Definition unlocked (lc : option LockCtx) : option LockCtx := with_lock None <$> lc.

Definition retry_limit (lc : option LockCtx) : Z :=
  default DEFAULT_MAX_CACHE_LOCK_RETRIES (lc ≫= max_retries).

(** What each way out of the loop promises. *)
Definition ended (e : LookupEnd) (s : Sess) : Prop :=
  match e with
  | GoUpstream =>
      is_disabled (phase (cache s)) = true \/ phase (cache s) = Miss \/
      (phase (cache s) = Stale /\ meta_set (cache s) = true)
  | ServeFromCache =>
      (phase (cache s) = Hit \/ phase (cache s) = StaleUpdating) /\
      meta_set (cache s) = true /\ is_some (e ← ctx_of (cache s); body_reader e) = true
  end.

(** A round is left for good, or the next one starts: after a wait one retry more,
    or with the variance in the key. *)
Definition round_ok (lc : option LockCtx) (k : CacheKey) (retries : Z) (n : Next) (s : Sess) : Prop :=
  match n with
  | Break e => ended e s
  | Continue retries' => exists p m br k',
      in_lookup p = true /\ at_state p m br (unlocked lc) k' s /\
      ((retries' = retries + 1 /\ retries' <= retry_limit lc /\ key_variance k' = key_variance k) \/
       (retries' = retries /\ key_variance k = None /\ key_variance k' <> None))
  end.

Notation safe m Q s := (wp m Q (fun _ _ => False) (fun _ => False) s).

Lemma safe_seq {A B} (m : Prelude.M Sess Error A) (k : A -> Prelude.M Sess Error B) P Q s :
  safe m P s -> (forall a s', P a s' -> safe (k a) Q s') -> safe (bind m k) Q s.
Proof. intros Hm Hk. apply wp_bind. revert Hm. by apply wp_mono. Qed.

Lemma safe_ret {A} (a : A) (Q : A -> Sess -> Prop) s : Q a s -> safe (@ret Sess Error A a) Q s.
Proof. done. Qed.

(** *** The calls of the loop *)

Ltac open_state H := destruct H as (va & sv & st & ev & ad & t & pr & pu & da & d & lg & ->).
Ltac show_state := repeat eexists.

Definition no_write (lc : option LockCtx) : Prop :=
  match lc ≫= lock with Some (Write _) => False | _ => True end.

Lemma disable_spec w reason p m br lc k s :
  at_state p m br lc k s -> is_disabled p = false -> no_write lc -> reason <> NeverEnabled ->
  safe (disable w reason) (fun _ s' => is_disabled (phase (cache s')) = true) s.
Proof.
  intros Hs Hp Hl Hr. open_state Hs. unfold wp, disable, bind.
  rewrite bool_decide_false by done. cbn.
  destruct p; try done; destruct lc as [[[[q|q]|] cl wt mr]|]; done.
Qed.

Lemma cache_lock_wait_spec w p m br r cl wt mr k s :
  at_state p m br (Some (MkLockCtx (Some (Read r)) cl wt mr)) k s -> in_lookup p = true ->
  safe (cache_lock_wait w)
    (fun o s' => at_state p m br (Some (MkLockCtx None cl wt mr)) k s' /\
       match o with WAbandoned reason _ => reason <> NeverEnabled | _ => True end) s.
Proof.
  intros Hs Hp. open_state Hs. unfold wp, cache_lock_wait, maybe_cache_key, bind.
  assert (forall o, match wait_result w r o with
                    | WAbandoned reason _ => reason <> NeverEnabled | _ => True end) as Ho.
  { intros [| |f]; simpl; [by destruct (w_lock_status w r)..|done]. }
  destruct p; try done; cbn -[wait_result saturating_sub add_duration_to_opt]; (split; [show_state|]);
    (destruct wt as [wt|]; [destruct (w_wait_in_time _ _ _)|]); solve [apply Ho|done].
Qed.

Lemma get_ctx_spec {A} (f : HttpCacheInnerEnabled -> A) p m br lc k s (Q : A -> Sess -> Prop) :
  at_state p m br lc k s ->
  (forall va sv st ev ad, Q (f (MkEnabled m va sv None br st ev ad lc)) s) ->
  safe (let! e := get_enabled in ret (f e)) Q s.
Proof. intros Hs HQ. open_state Hs. cbn. apply HQ. Qed.

Lemma retry_limit_spec w retries p m br cl wt mr k s :
  at_state p m br (Some (MkLockCtx None cl wt mr)) k s -> in_lookup p = true ->
  0 <= retries <= default DEFAULT_MAX_CACHE_LOCK_RETRIES mr ->
  default DEFAULT_MAX_CACHE_LOCK_RETRIES mr < usize_max ->
  safe (cache_lock_retry_limit_exceeded w retries)
    (fun c s' => if c.2 : bool then is_disabled (phase (cache s')) = true
                 else s' = s /\ c.1 = retries + 1 /\ c.1 <= default DEFAULT_MAX_CACHE_LOCK_RETRIES mr) s.
Proof.
  intros Hs Hp Hr Hmax. unfold cache_lock_retry_limit_exceeded, cache_lock_max_retries.
  assert (wadd retries 1 = retries + 1) as -> by (unfold wadd, usize_max in *; rewrite Z.mod_small; lia).
  eapply safe_seq; [by eapply (get_ctx_spec _ _ _ _ _ _ _ (fun o s' => o = mr /\ s' = s))|].
  intros o s' [-> ->]. apply wp_if; intros Hle.
  - apply safe_ret. split_and!; [done..|]. by apply Z.leb_le.
  - eapply safe_seq; [eapply disable_spec; [exact Hs|by destruct p|done..]|]. intros [] s' Hd.
    by apply safe_ret.
Qed.

Lemma wait_and_retry_ok w retries p m br r cl wt mr k s :
  at_state p m br (Some (MkLockCtx (Some (Read r)) cl wt mr)) k s ->
  in_lookup p = true -> 0 <= retries <= default DEFAULT_MAX_CACHE_LOCK_RETRIES mr ->
  default DEFAULT_MAX_CACHE_LOCK_RETRIES mr < usize_max ->
  safe (wait_and_retry w retries)
    (round_ok (Some (MkLockCtx (Some (Read r)) cl wt mr)) k retries) s.
Proof.
  intros Hs Hp Hr Hmax. unfold wait_and_retry.
  eapply safe_seq; [by eapply cache_lock_wait_spec|]. intros o s' [Hs' Ho].
  assert (forall reason, reason <> NeverEnabled ->
    safe (disable w reason) (fun _ s' => is_disabled (phase (cache s')) = true) s') as Hdis
    by (intros; eapply disable_spec; [exact Hs'|by destruct p|done..]).
  eapply (safe_seq _ _ (fun again s'' => if again : bool then s'' = s'
                                         else is_disabled (phase (cache s'')) = true)).
  { destruct o; try (by apply safe_ret); (eapply safe_seq; [by apply Hdis|]); intros [] ? ?; by apply safe_ret. }
  intros [] s''; [intros ->|intros Hd; apply safe_ret; by left].
  eapply safe_seq; [by eapply retry_limit_spec|]. intros [n []] s''; cbn [fst snd].
  - intros Hd. apply safe_ret. by left.
  - intros (-> & -> & Hle). apply safe_ret. exists p, m, br, k. split_and!; [done..|]. by left.
Qed.

(** A lookup leaves the lock it may have taken, or a disabled cache. *)
Definition lock_free (lc : option LockCtx) : Prop := lc ≫= lock = None.

Definition locked_by (lc : option LockCtx) (lc' : option LockCtx) : Prop :=
  match lc with
  | None => lc' = None
  | Some c => exists l, lc' = Some (with_lock (Some l) c)
  end.

Lemma cache_lookup_spec w p m br lc k s :
  at_state p m br lc k s -> in_lookup p = true -> lock_free lc ->
  safe (catch (cache_lookup w))
    (fun r s' => match r with
                 | inr _ => s' = s
                 | inl (Some _) => at_state p m br lc k s'
                 | inl None => is_disabled (phase (cache s')) = true \/
                               exists lc', at_state p m br lc' k s' /\ locked_by lc lc'
                 end) s.
Proof.
  intros Hs Hp Hl. open_state Hs. unfold wp, catch, cache_lookup, bind.
  destruct lc as [[[l|] cl wt mr]|]; try done;
    (destruct p; try done); cbn -[bool_decide filter_valid add_duration_to_opt];
    (destruct (w_lookup w st k) as [found|]; [|done]); cbn -[bool_decide filter_valid add_duration_to_opt];
    destruct (filter_valid va found) as [res|] eqn:Hf;
    try (destruct found; [|done]; cbn; show_state);
    try (destruct (match found with Some _ => false | None => true end && _ : bool);
         destruct ad as [policy|]; try (destruct (w_observe w policy k) eqn:Ho));
    cbn -[add_duration_to_opt]; rewrite ?Ho; cbn -[add_duration_to_opt];
    first [left; done|right; eexists; split; [show_state|by eexists]].
Qed.

Lemma on_miss_ok w retries p m br lc lc' k s :
  at_state p m br lc' k s -> in_lookup p = true -> lock_free lc -> locked_by lc lc' ->
  0 <= retries <= retry_limit lc -> retry_limit lc < usize_max ->
  safe (on_miss w retries) (round_ok lc k retries) s.
Proof.
  intros Hs Hp Hf Hl Hr Hmax. unfold on_miss.
  eapply (safe_seq _ _ (fun h s' => s' = s /\ h = cache s)); [done|]. intros h s' [-> ->].
  assert (enabled (cache s) = true) as -> by (open_state Hs; by destruct p). cbn [negb].
  eapply safe_seq.
  { eapply (get_ctx_spec _ _ _ _ _ _ _ (fun b s' =>
      b = match lc' ≫= lock with Some (Read _) => true | _ => false end /\ s' = s)); [exact Hs|done]. }
  intros b s' [-> ->].
  assert (safe (do! cache_miss; ret (Break GoUpstream)) (round_ok lc k retries) s) as Hmiss.
  { open_state Hs. destruct p; try done; right; left; done. }
  destruct lc as [[l cl wt mr]|]; cbn in Hl.
  - destruct Hl as [[q|r] ->]; cbn; [exact Hmiss|].
    assert (l = None) as -> by (by destruct l).
    eapply wp_mono; [| | |by eapply wait_and_retry_ok]; [|done..].
    intros [e|n] s'; done.
  - rewrite Hl. exact Hmiss.
Qed.

Lemma cache_found_spec w m' hit hs p m br lc k s :
  at_state p m br lc k s -> in_lookup p = true -> lock_free lc ->
  safe (cache_found w m' hit hs)
    (fun _ s' =>
       if hit_is_fresh hs then at_state Hit (Some m') (Some hit) lc k s'
       else exists lc', locked_by lc lc' /\
         if is_treated_as_miss hs then at_state p None None lc' k s'
         else at_state Stale (Some m') (Some hit) lc' k s') s.
Proof.
  intros Hs Hp Hl. open_state Hs. unfold wp, cache_found, bind.
  destruct lc as [[[l|] cl wt mr]|]; try done; destruct p; try done;
    destruct hs; cbn -[to_compact]; try (destruct ev as [ev|]; [destruct (w_count_access w hit)|]);
    cbn -[to_compact]; first [by show_state|eexists; split; [by eexists|by show_state]].
Qed.

Lemma cache_vary_lookup_spec v m' p m br lc k s :
  at_state p m br lc k s -> in_lookup p = true -> key_variance k = None ->
  safe (cache_vary_lookup v m')
    (fun same s' => exists k', at_state p m br lc k' s' /\
       if same : bool then key_variance k' = None else key_variance k' <> None) s.
Proof.
  intros Hs Hp Hk. open_state Hs. unfold wp, cache_vary_lookup, bind.
  destruct p; try done; cbn -[provenance]; unfold get_variance_key; rewrite Hk;
    destruct (bool_decide _); cbn -[provenance]; eexists; (split; [show_state|done]).
Qed.

Lemma cache_key_spec p m br lc k s :
  at_state p m br lc k s -> in_lookup p = true -> safe cache_key (fun k' s' => k' = k /\ s' = s) s.
Proof. intros Hs Hp. open_state Hs. by destruct p. Qed.

Lemma on_stale_ok r sub retries m hit lc lc' k s :
  at_state Stale (Some m) (Some hit) lc' k s -> lock_free lc -> locked_by lc lc' ->
  0 <= retries <= retry_limit lc -> retry_limit lc < usize_max ->
  safe (on_stale r sub retries) (round_ok lc k retries) s.
Proof.
  intros Hs Hf Hl Hr Hmax. unfold on_stale.
  set (can := serve_stale_while_revalidate m (w_now (r_world r))).
  assert (forall s, at_state Stale (Some m) (Some hit) lc' k s ->
    safe (can_serve_stale_updating (r_world r)) (fun b s' => b = can /\ s' = s) s) as Hcan
    by (intros s' Hs'; open_state Hs'; done).
  destruct lc as [[l cl wt mr]|]; cbn in Hl.
  2: { rewrite Hl in Hs. open_state Hs. right; right; done. }
  destruct Hl as [[q|q] ->].
  - (* this request is the writer *)
    eapply (safe_seq _ _ (fun b s' => b = false /\ s' = s)); [open_state Hs; done|]. intros ? ? [-> ->].
    eapply (safe_seq _ _ (fun b s' => b = true /\ s' = s)); [open_state Hs; done|]. intros ? ? [-> ->].
    eapply safe_seq; [by apply Hcan|]. intros ? ? [-> ->]. apply wp_if; intros _.
    + open_state Hs. split; [by right|done].
    + open_state Hs. right; right; done.
  - eapply (safe_seq _ _ (fun b s' => b = true /\ s' = s)); [open_state Hs; done|]. intros ? ? [-> ->].
    destruct sub as [permit|]; [open_state Hs; right; right; done|].
    eapply safe_seq; [by apply Hcan|]. intros ? ? [-> ->]. apply wp_if; intros _.
    + open_state Hs. split; [by right|done].
    + assert (l = None) as -> by (by destruct l).
      eapply wp_mono; [| | |by eapply wait_and_retry_ok]; [|done..]. intros [e|n] s'; done.
Qed.

Lemma on_found_ok r sub retries m' hit p m br lc k s :
  at_state p m br lc k s -> in_lookup p = true -> lock_free lc ->
  0 <= retries <= retry_limit lc -> retry_limit lc < usize_max ->
  safe (on_found r sub retries m' hit) (round_ok lc k retries) s.
Proof.
  intros Hs Hp Hf Hr Hmax. unfold on_found.
  destruct (hit_status_of r m') as [m'' hs].
  eapply safe_seq; [by eapply cache_found_spec|]. intros [] s'. destruct (hit_is_fresh hs) eqn:Hfr.
  - assert (is_treated_as_miss hs = false) as -> by (by destruct hs). intros Hs'.
    open_state Hs'. split; [by left|done].
  - intros (lc' & Hl & Hs'). destruct (is_treated_as_miss hs).
    + by eapply on_miss_ok.
    + by eapply on_stale_ok.
Qed.

Lemma round_ok_key lc k k' retries n s :
  key_variance k' = key_variance k -> round_ok lc k' retries n s -> round_ok lc k retries n s.
Proof.
  intros Hk. destruct n as [e|n]; [done|]. cbn. setoid_rewrite Hk. done.
Qed.

Lemma lookup_round_ok r sub retries p m br lc k s :
  at_state p m br lc k s -> in_lookup p = true -> lock_free lc ->
  0 <= retries <= retry_limit lc -> retry_limit lc < usize_max ->
  safe (lookup_round r sub retries) (round_ok lc k retries) s.
Proof.
  intros Hs Hp Hf Hr Hmax. unfold lookup_round.
  eapply safe_seq; [by eapply cache_lookup_spec|]. intros [[[m' hit]|]|e] s' Hs'.
  - eapply safe_seq; [by eapply cache_key_spec|]. intros k' s'' [-> ->].
    destruct (key_variance k) as [v|] eqn:Hk.
    + apply wp_if; intros _; [by eapply on_found_ok|].
      eapply safe_seq; [eapply disable_spec; [exact Hs'|by destruct p| |done]|].
      * unfold no_write. by rewrite Hf.
      * intros [] s'' Hd. apply safe_ret. by left.
    + destruct (r_vary r m') as [v|]; [|by eapply on_found_ok].
      eapply safe_seq; [by eapply cache_vary_lookup_spec|]. intros same s'' (k' & Hs'' & Hk').
      destruct same.
      * eapply wp_mono; [| | |by eapply on_found_ok]; [|done..]. intros n s3.
        apply round_ok_key. by rewrite Hk.
      * apply safe_ret. exists p, m, br, k'. split_and!; [done| |right; done].
        by destruct lc as [[[] ? ? ?]|].
  - destruct Hs' as [Hd|(lc' & Hs' & Hl)].
    + unfold on_miss. eapply (safe_seq _ _ (fun h s3 => s3 = s' /\ h = cache s')); [done|].
      intros h s3 [-> ->]. unfold enabled. destruct (phase (cache s')) eqn:Hph; try done.
      apply safe_ret. left. by rewrite Hph.
    + by eapply on_miss_ok.
  - subst s'. open_state Hs. destruct p; try done; right; left; done.
Qed.

(** *** The loop *)

Definition rank (lc : option LockCtx) (k : CacheKey) (retries : Z) : Z :=
  retry_limit lc - retries + match key_variance k with None => 1 | Some _ => 0 end.

Lemma lookup_loop_ok fuel rounds sub n retries p m br lc k s :
  at_state p m br lc k s -> in_lookup p = true -> lock_free lc ->
  0 <= retries <= retry_limit lc -> retry_limit lc < usize_max ->
  rank lc k retries < Z.of_nat fuel ->
  safe (lookup_loop fuel rounds sub n retries)
    (fun o s' => match o with Some e => ended e s' | None => False end) s.
Proof.
  revert n retries p m br lc k s. induction fuel as [|fuel IH];
    intros n retries p m br lc k s Hs Hp Hf Hr Hmax Hfuel.
  { unfold rank in Hfuel. destruct (key_variance k); lia. }
  cbn [lookup_loop]. eapply safe_seq; [by eapply lookup_round_ok|].
  intros [e|n'] s'; [by intros ?; apply safe_ret|].
  intros (p' & m' & br' & k' & Hp' & Hs' & Hcase).
  assert (retry_limit (unlocked lc) = retry_limit lc) as Hlim by (by destruct lc as [[]|]).
  eapply IH; [exact Hs'|done| | | |]; rewrite ?Hlim; try lia.
  - by destruct lc as [[]|].
  - unfold rank in *. rewrite Hlim.
    destruct Hcase as [(-> & _ & ->)|(-> & Hk & Hk')]; [destruct (key_variance k); lia|].
    rewrite Hk in Hfuel. destruct (key_variance k'); [lia|done].
Qed.

Lemma prepare_spec w key_callback s :
  wf (cache s) = true -> phase (cache s) = Uninit \/ is_disabled (phase (cache s)) = true ->
  lock_free (e ← ctx_of (cache s); lock_ctx e) ->
  safe (proxy_cache_prepare w key_callback)
    (fun go s' => if go : bool
                  then exists m br k, key_callback = inl k /\
                         at_state CacheKeyPhase m br (e ← ctx_of (cache s); lock_ctx e) k s'
                  else is_disabled (phase (cache s')) = true \/ phase (cache s') = Bypass) s.
Proof.
  destruct s as [h lg]. cbn [cache].
  intros [(d & ->)|[(r & k & t & pr & pu & da & d & Hr & ->)|
    (p & m & va & sv & mh & br & st & ev & ad & lc & k & t & pr & pu & da & d & Hp & Hwf & ->)]]%wf_inv Hph Hl.
  - by left.
  - by left.
  - assert (p = Uninit) as -> by (destruct p; naive_solver). unfold wp, proxy_cache_prepare, bind.
    destruct k, mh; try done.
    destruct lc as [[[|] cl wt mr]|]; try done; destruct key_callback as [k|e]; cbn;
      try (left; done); destruct pr as [pr|]; cbn; try (by eexists m, br, k; split; [|show_state]);
      destruct (w_prediction w pr k); cbn; first [by right|by eexists m, br, k; split; [|show_state]].
Qed.

End spec.

(** C23: The cache lookup of the proxy ends and is safe.  From a cache that was just
    enabled (or is disabled) with its lock not taken, whatever storage, locks,
    variance, filters and waits answer in each round, [proxy_cache] does not panic
    and needs at most the retry limit and two rounds more.  It goes upstream with
    caching disabled or bypassed, on a miss, or with a stale asset whose metadata
    is there for revalidation; it serves from the cache only with metadata and a
    body reader in hand, on a hit or a stale asset another request updates. *)
Theorem proxy_cache_lookup_safe {M : Type} `{HeaderMap M} (w : @World M) key_callback rounds sub
    (fuel : nat) (s : @Session M) :
  wf (cache s) = true -> phase (cache s) = Uninit \/ is_disabled (phase (cache s)) = true ->
  lock_free (e ← ctx_of (cache s); lock_ctx e) ->
  0 <= retry_limit (e ← ctx_of (cache s); lock_ctx e) < usize_max ->
  retry_limit (e ← ctx_of (cache s); lock_ctx e) + 1 < Z.of_nat fuel ->
  match proxy_cache w key_callback fuel rounds sub s with
  | Val (Some e) s' => ended e s' \/ (e = GoUpstream /\ phase (cache s') = Bypass)
  | _ => False
  end.
Proof.
  intros Hwf Hph Hl Hlim Hfuel.
  set (lc := e ← ctx_of (cache s); lock_ctx e) in *.
  assert (wp (proxy_cache w key_callback fuel rounds sub)
    (fun o s' => match o with
                 | Some e => ended e s' \/ (e = GoUpstream /\ phase (cache s') = Bypass)
                 | None => False
                 end) (fun _ _ => False) (fun _ => False) s) as Hwp.
  { eapply safe_seq; [by apply prepare_spec|]. intros [] s'.
    - intros (m & br & k & _ & Hs').
      assert (rank lc k 0 < Z.of_nat fuel) by (unfold rank; destruct (key_variance k); lia).
      pose proof (lookup_loop_ok fuel rounds sub 0 0 CacheKeyPhase m br lc k s' Hs' eq_refl Hl
                    ltac:(lia) ltac:(lia) ltac:(done)) as Hloop.
      revert Hloop. apply wp_mono; [|done..]. intros [e|] ?; [by left|done].
    - intros [Hd|Hb]; apply safe_ret; [left; by left|by right]. }
  unfold wp in Hwp. destruct (proxy_cache w key_callback fuel rounds sub s) as [[e|]| | |]; done.
Qed.

(** A request for which caching was enabled, with at most one lock retry. *)
Definition enabled_session : @Session fields :=
  default new_session (run_all empty_world [OpEnable 0 None None (Some 1) None] new_session).

(** A round that finds an empty storage. *)
Definition empty_round : Round :=
  MkRound empty_world (fun _ => None) (fun _ _ => inl None) false.

(** An empty storage: one round, and the request goes upstream on a miss. *)
Lemma proxy_cache_lookup_safe_witness :
  match proxy_cache empty_world (inl a_key) 4 (fun _ => empty_round) None enabled_session with
  | Val (Some e) s' => ended e s' \/ (e = GoUpstream /\ phase (cache s') = Bypass)
  | _ => False
  end /\
  match proxy_cache empty_world (inl a_key) 4 (fun _ => empty_round) None enabled_session with
  | Val (Some e) s' => e = GoUpstream /\ phase (cache s') = Miss
  | _ => False
  end.
Proof.
  split; [|by vm_compute].
  apply (proxy_cache_lookup_safe empty_world (inl a_key) (fun _ => empty_round) None 4 enabled_session);
    vm_compute; intuition congruence.
Defined.
