(* ===== verification/CacheLock.v ===== *)
(** * The cache lock

    [src/pingora-cache/src/lock.rs] and [hashtable.rs]: one request fetches an
    asset, the others wait for it.  A [LockCore] is shared by the writer's permit,
    the readers and the lock table, so cores live in a store and the others hold
    references.  What happens under one lock or in one atomic access is one
    operation; [release] reads the status of the lock and then changes the table,
    so it is also given as two.  The hash of a key is its number in the table. *)

From stdpp Require Import base list numbers strings gmap.
From Stdlib Require Import ZArith Lia.
From S2P Require Import Prelude Ketama CacheMeta CacheKey HttpCache.
Local Open Scope Z_scope.

Definition N_SHARDS : nat := 16.

(** ** Publishing what a fill is *)

Definition first_match (published : list Z) (unusable : list UnusableFill) : option UnusableFill :=
  find (fun candidate => bool_decide (token candidate ∈ published)) unusable.

(** A reader to be told, known by the channel it waits on. *)
Record TokenWaiter := MkTokenWaiter { unusable : list UnusableFill; tell : Z }.

Record FillState := MkFillState {
  published : list Z;
  waiters : list TokenWaiter;
  sweep_cursor : nat
}.

Definition WAITER_SWEEP_BUDGET : nat := 8.

(** [Vec::swap_remove]: the last element takes the place of the removed one. *)
Definition swap_remove {A} (i : nat) (l : list A) : list A :=
  match last l with
  | Some x => if bool_decide (S i = length l) then removelast l else <[i := x]> (removelast l)
  | None => l
  end.

(** [closed]: whether the reader has dropped its end of the channel. *)
Fixpoint sweep (closed : Z -> bool) (budget : nat) (ws : list TokenWaiter) (cursor : nat)
  : list TokenWaiter * nat :=
  match budget with
  | O => (ws, cursor)
  | S budget =>
      match ws with
      | [] => (ws, cursor)
      | _ =>
          let cursor := if (length ws <=? cursor)%nat then 0%nat else cursor in
          match ws !! cursor with
          | Some w =>
              if closed (tell w) then sweep closed budget (swap_remove cursor ws) cursor
              else sweep closed budget ws (S cursor)
          | None => (ws, cursor)
          end
      end
  end.

Inductive Watching := Registered | AlreadyPublished (f : UnusableFill).

Definition watch_fill (closed : Z -> bool) (f : FillState) (u : list UnusableFill) (channel : Z)
  : FillState * Watching :=
  match first_match (published f) u with
  | Some matched => (f, AlreadyPublished matched)
  | None =>
      let '(ws, cursor) := sweep closed WAITER_SWEEP_BUDGET (waiters f) (sweep_cursor f) in
      (MkFillState (published f) (ws ++ [MkTokenWaiter u channel]) cursor, Registered)
  end.

(** The pass over the waiters; each round shortens the list or advances. *)
Fixpoint publish_go (closed : Z -> bool) (tokens : list Z) (fuel : nat) (ws : list TokenWaiter)
    (i : nat) (woken : list (Z * UnusableFill)) : list TokenWaiter * list (Z * UnusableFill) :=
  match fuel with
  | O => (ws, woken)
  | S fuel =>
      match ws !! i with
      | None => (ws, woken)
      | Some w =>
          if closed (tell w) then publish_go closed tokens fuel (swap_remove i ws) i woken
          else match first_match tokens (unusable w) with
               | Some matched =>
                   publish_go closed tokens fuel (swap_remove i ws) i (woken ++ [(tell w, matched)])
               | None => publish_go closed tokens fuel ws (S i) woken
               end
      end
  end.

(** The new state, and the readers told with what they matched. *)
Definition core_publish (closed : Z -> bool) (f : FillState) (tokens : list Z)
  : FillState * list (Z * UnusableFill) :=
  let '(ws, woken) := publish_go closed tokens (S (length (waiters f))) (waiters f) 0 [] in
  (MkFillState tokens ws (sweep_cursor f), woken).

(** ** Lock cores *)

Record LockCore := MkLockCore {
  lock_start : Z;
  age_timeout : Z;
  (** permits of the semaphore *)
  available_permits : Z;
  core_status : LockStatus;
  stale_writer : bool;
  fill : FillState;
  published_any : bool
}.

Definition core_new (now timeout : Z) (stale : bool) : LockCore :=
  MkLockCore now timeout 0 Waiting stale (MkFillState [] [] 0) false.

Definition core_locked (c : LockCore) : bool := available_permits c =? 0.

Definition store_status (c : LockCore) (s : LockStatus) : LockCore :=
  MkLockCore (lock_start c) (age_timeout c) (available_permits c) s (stale_writer c) (fill c)
    (published_any c).

(** [None]: the assertion on the status fails. *)
Definition core_unlock (c : LockCore) (reason : LockStatus) : option LockCore :=
  if bool_decide (reason = WaitTimeout) then None
  else Some (MkLockCore (lock_start c) (age_timeout c) (available_permits c + 10) reason
               (stale_writer c) (fill c) (published_any c)).

Definition expired (c : LockCore) (now : Z) : bool := age_timeout c <=? now - lock_start c.

(** [ReadLock::lock_status] *)
Definition read_lock_status (c : LockCore) (now : Z) : LockStatus :=
  if bool_decide (core_status c = Waiting) && expired c now then AgeTimeout else core_status c.

(** [WritePermit::publish] *)
Definition permit_publish (closed : Z -> bool) (c : LockCore) (tokens : list Z)
  : LockCore * list (Z * UnusableFill) :=
  if bool_decide (tokens = []) && negb (published_any c) then (c, [])
  else
    let '(f, woken) := core_publish closed (fill c) tokens in
    (MkLockCore (lock_start c) (age_timeout c) (available_permits c) (core_status c)
       (stale_writer c) f (negb (bool_decide (tokens = []))), woken).

(** ** The lock table *)

Definition CoreRef := nat.

(** [permits]: the write permits that are not finished, with the key they were
    given for; [cores] is the shared store. *)
Record CacheLock := MkCacheLock {
  lock_table : list (gmap Z CoreRef);
  cores : gmap CoreRef LockCore;
  next_core : CoreRef;
  permits : gmap CoreRef Z;
  age_timeout_default : Z
}.

Definition cache_lock_new (age_timeout : Z) : CacheLock :=
  MkCacheLock (replicate N_SHARDS ∅) ∅ 0%nat ∅ age_timeout.

Definition get_shard (key : Z) (n_shards : nat) : nat := Z.to_nat (key mod Z.of_nat n_shards).

Definition table_get (t : list (gmap Z CoreRef)) (key : Z) : option CoreRef :=
  shard ← t !! get_shard key (length t); shard !! key.
Definition table_alter (f : gmap Z CoreRef -> gmap Z CoreRef) (t : list (gmap Z CoreRef)) (key : Z)
  : list (gmap Z CoreRef) := alter f (get_shard key (length t)) t.

Definition set_table (l : CacheLock) (t : list (gmap Z CoreRef)) : CacheLock :=
  MkCacheLock t (cores l) (next_core l) (permits l) (age_timeout_default l).
Definition set_core (l : CacheLock) (id : CoreRef) (c : LockCore) : CacheLock :=
  MkCacheLock (lock_table l) (<[id := c]> (cores l)) (next_core l) (permits l) (age_timeout_default l).
Definition finish_permit (l : CacheLock) (id : CoreRef) : CacheLock :=
  MkCacheLock (lock_table l) (cores l) (next_core l) (delete id (permits l)) (age_timeout_default l).

(** A lock that readers may replace. *)
Definition replaceable (s : LockStatus) : bool :=
  match s with Dangling | AgeTimeout => true | _ => false end.

Inductive LockedRef := WriteRef (id : CoreRef) | ReadRef (id : CoreRef).

(** [WritePermit::new] and the insertion of its stub. *)
Definition insert_new (l : CacheLock) (now key : Z) (stale : bool) : CacheLock * LockedRef :=
  let id := next_core l in
  (MkCacheLock (table_alter (fun m => <[key := id]> m) (lock_table l) key)
     (<[id := core_new now (age_timeout_default l) stale]> (cores l))
     (S id) (<[id := key]> (permits l)) (age_timeout_default l),
   WriteRef id).

Definition cl_lock (l : CacheLock) (now key : Z) (stale : bool) : CacheLock * LockedRef :=
  match table_get (lock_table l) key with
  | Some id =>
      match cores l !! id with
      | Some c => if replaceable (core_status c) then insert_new l now key stale else (l, ReadRef id)
      | None => insert_new l now key stale
      end
  | None => insert_new l now key stale
  end.

(** [WritePermit::unlock]: the permit is finished and the core unlocked. *)
Definition permit_unlock (l : CacheLock) (id : CoreRef) (reason : LockStatus) : option CacheLock :=
  match cores l !! id with
  | Some c =>
      match core_unlock c reason with
      | Some c' => Some (set_core (finish_permit l id) id c')
      | None => None
      end
  | None => None
  end.

(** [Drop for WritePermit], of a permit that is not finished. *)
Definition permit_drop (l : CacheLock) (id : CoreRef) : option CacheLock := permit_unlock l id Dangling.

(** [release] in its two steps: what the status was, then the table. *)
Definition release_check (l : CacheLock) (id : CoreRef) : bool :=
  match cores l !! id with
  | Some c => bool_decide (core_status c = AgeTimeout)
  | None => false
  end.

Definition release_finish (l : CacheLock) (key : Z) (id : CoreRef) (aged : bool) (reason : LockStatus)
  : option CacheLock :=
  if aged then permit_unlock l id AgeTimeout
  else
    match table_get (lock_table l) key with
    | Some _ => permit_unlock (set_table l (table_alter (delete key) (lock_table l) key)) id reason
    | None => permit_drop l id
    end.

Definition cl_release (l : CacheLock) (key : Z) (id : CoreRef) (reason : LockStatus) : option CacheLock :=
  release_finish l key id (release_check l id) reason.

(** ** Waiting *)

(** [wait_inner] up to where it blocks: [None] when it has to wait, registered for
    publications if it names any. *)
Definition wait_start (closed : Z -> bool) (c : LockCore) (now : Z) (u : list UnusableFill) (channel : Z)
  : LockCore * option WaitOutcome :=
  if negb (core_locked c) then (c, Some Released)
  else if age_timeout c <? now - lock_start c then (store_status c AgeTimeout, Some WOAgeTimeout)
  else
    match u with
    | [] => (c, None)
    | _ =>
        match watch_fill closed (fill c) u channel with
        | (_, AlreadyPublished matched) => (c, Some (WOAbandoned matched))
        | (f, Registered) =>
            (MkLockCore (lock_start c) (age_timeout c) (available_permits c) (core_status c)
               (stale_writer c) f (published_any c), None)
        end
    end.

(** What wakes it: the writer, the lock's age, or a publication; the writer wins. *)
Definition wait_wake (c : LockCore) (now : Z) (told : option UnusableFill)
  : LockCore * option WaitOutcome :=
  if negb (core_locked c) then (c, Some Released)
  else if age_timeout c <=? now - lock_start c then (store_status c AgeTimeout, Some WOAgeTimeout)
  else match told with
       | Some matched => (c, Some (WOAbandoned matched))
       | None => (c, None)
       end.

(** A reader's or a writer's access to its core. *)
Definition on_core (f : LockCore -> LockCore) (l : CacheLock) (id : CoreRef) : CacheLock :=
  match cores l !! id with Some c => set_core l id (f c) | None => l end.
