(* ===== verification/CacheLockSpec.v ===== *)
(** * The cache lock: one writer per key

    Mutual exclusion of writers over any sequence of operations, what a release
    leaves behind, who is told of a publication, and the interleaving in which a
    release takes another writer's lock out of the table. *)

From stdpp Require Import base list numbers strings gmap.
From Stdlib Require Import ZArith Lia.
From S2P Require Import Prelude Ketama CacheMeta CacheKey HttpCache CacheLock.
Local Open Scope Z_scope.

(** ** The table *)






(** ** The invariant *)

(** The permit's lock is in force: neither released nor given up on. *)
Definition live (l : CacheLock) (id : CoreRef) : Prop :=
  exists c, cores l !! id = Some c /\ core_status c = Waiting.














(** ** Runs of requests *)







(** ** A race in [release] *)

(** Another writer's lock taken out of the table.  Request A holds the lock and
    starts to release it, having seen that it is not timed out; before it reaches
    the table, a reader gives A up as too old and request B gets the lock; A then
    removes B's entry, so C is granted the same key although B is still fetching. *)
Theorem release_race_two_writers :
  let l0 := (cl_lock (cache_lock_new 10) 0 5 false).1 in
  let aged := release_check l0 0%nat in
  let l1 := on_core (fun c => (wait_wake c 10 None).1) l0 0%nat in
  let '(l2, b) := cl_lock l1 10 5 false in
  exists l3, release_finish l2 5 0%nat aged Done = Some l3 /\
    let '(l4, c) := cl_lock l3 11 5 false in
    b = WriteRef 1%nat /\ c = WriteRef 2%nat /\
    permits l4 !! 1%nat = Some 5 /\ permits l4 !! 2%nat = Some 5 /\ live l4 1%nat /\ live l4 2%nat.
Proof. vm_compute. eexists. split; [done|]. repeat split; by eexists. Qed.

(** ** Publications *)

Lemma removelast_snoc {A} (l : list A) x : removelast (l ++ [x]) = l.
Proof. apply removelast_last. Qed.

Lemma swap_remove_spec {A} (l : list A) i x :
  l !! i = Some x -> exists r, swap_remove i l = take i l ++ r /\ drop (S i) l ≡ₚ r.
Proof.
  destruct l as [|y l _] using rev_ind; [done|]. intros Hi.
  unfold swap_remove. rewrite last_snoc, length_app, removelast_snoc. cbn [length].
  assert (i < length (l ++ [y]))%nat as Hlt by (by eapply lookup_lt_Some). rewrite length_app in Hlt.
  cbn [length] in Hlt. case_bool_decide as Hlast.
  - exists []. rewrite app_nil_r, take_app_length' by lia. split; [done|].
    rewrite drop_ge; [done|]. rewrite length_app. cbn. lia.
  - exists (y :: drop (S i) l). split.
    + rewrite take_app_le by lia. rewrite insert_take_drop by lia. done.
    + rewrite drop_app_le by lia. by rewrite Permutation_app_comm.
Qed.

Section publish.
Variables (closed : Z -> bool) (tokens : list Z).

Definition is_open (w : TokenWaiter) : Prop := closed (tell w) = false.
Definition stays (w : TokenWaiter) : Prop := is_open w /\ first_match tokens (unusable w) = None.
Definition told (w : TokenWaiter) : option (Z * UnusableFill) :=
  if closed (tell w) then None
  else match first_match tokens (unusable w) with Some f => Some (tell w, f) | None => None end.

#[global] Instance is_open_dec w : base.Decision (is_open w).
Proof. unfold is_open. apply _. Defined.
#[global] Instance stays_dec w : base.Decision (stays w).
Proof. unfold stays. apply _. Defined.

(** What comes before the index stays; what comes after is yet to be looked at. *)
Lemma publish_go_spec fuel ws i woken :
  (length ws - i < fuel)%nat -> Forall stays (take i ws) ->
  let '(ws', woken') := publish_go closed tokens fuel ws i woken in
  ws' ≡ₚ take i ws ++ filter stays (drop i ws) /\ woken' ≡ₚ woken ++ omap told (drop i ws).
Proof.
  revert ws i woken. induction fuel as [|fuel IH]; intros ws i woken Hf Hpre; [lia|].
  cbn [publish_go]. destruct (ws !! i) as [w|] eqn:Hi.
  2: { apply lookup_ge_None in Hi. rewrite drop_ge, take_ge by lia. cbn. by rewrite !app_nil_r. }
  assert (i < length ws)%nat as Hlt by (by eapply lookup_lt_Some).
  rewrite (drop_S ws w i Hi).
  destruct (swap_remove_spec ws i w Hi) as (r & Hsw & Hr).
  assert (take i (swap_remove i ws) = take i ws /\ drop i (swap_remove i ws) = r) as [Ht Hd].
  { rewrite Hsw, take_app_length', drop_app_length' by (rewrite length_take; lia). done. }
  assert (length (swap_remove i ws) = (length ws - 1)%nat) as Hlen.
  { rewrite Hsw, length_app, <-Hr, length_take, length_drop. lia. }
  destruct (closed (tell w)) eqn:Hc; [|destruct (first_match tokens (unusable w)) as [f|] eqn:Hm].
  - specialize (IH (swap_remove i ws) i woken). rewrite Ht, Hd in IH.
    specialize (IH ltac:(lia) Hpre). destruct (publish_go _ _ _ _ _ _) as [ws' woken'].
    destruct IH as [-> ->]. rewrite filter_cons_False by (unfold stays, is_open; rewrite Hc; naive_solver).
    cbn [omap list_omap]. unfold told at 2. rewrite Hc. by rewrite Hr.
  - specialize (IH (swap_remove i ws) i (woken ++ [(tell w, f)])). rewrite Ht, Hd in IH.
    specialize (IH ltac:(lia) Hpre). destruct (publish_go _ _ _ _ _ _) as [ws' woken'].
    destruct IH as [-> ->]. rewrite filter_cons_False by (unfold stays; rewrite Hm; naive_solver).
    cbn [omap list_omap]. unfold told at 2. rewrite Hc, Hm. rewrite <-app_assoc. by rewrite Hr.
  - assert (stays w) as Hst by done. specialize (IH ws (S i) woken).
    rewrite (take_S_r ws i w Hi) in IH.
    specialize (IH ltac:(lia) ltac:(by apply Forall_app_2; [|constructor])).
    destruct (publish_go _ _ _ _ _ _) as [ws' woken']. destruct IH as [-> ->].
    rewrite filter_cons_True by done. cbn [omap list_omap]. unfold told at 2. rewrite Hc, Hm.
    by rewrite <-app_assoc.
Qed.

(** The sweep drops readers that are gone, and no other. *)
Lemma sweep_spec budget ws cursor : filter is_open (sweep closed budget ws cursor).1 ≡ₚ filter is_open ws.
Proof.
  revert ws cursor. induction budget as [|budget IH]; intros ws cursor; [done|]. cbn [sweep].
  destruct ws as [|w0 ws0]; [done|]. set (ws := w0 :: ws0). set (c := if (length ws <=? cursor)%nat then 0%nat else cursor).
  destruct (ws !! c) as [w|] eqn:Hc; [|done]. destruct (closed (tell w)) eqn:Hw; [|apply IH].
  rewrite IH. destruct (swap_remove_spec ws c w Hc) as (r & -> & Hr). rewrite filter_app, <-Hr.
  rewrite <-(take_drop_middle ws c w Hc) at 3. rewrite filter_app.
  rewrite (filter_cons_False _ w); [done|]. unfold is_open. by rewrite Hw.
Qed.

End publish.

(** Publications reach exactly the readers they concern.  A publication replaces
    the previous one and tells every waiting reader that cannot use a published
    fill, each with its first match, and no other; all others still waiting stay
    registered.  A reader that comes later is told at once if what is published
    concerns it; else it is registered and, apart from readers that are gone, no
    one loses their place. *)
Theorem publication_exact closed f tokens u channel :
  (let '(f', woken) := core_publish closed f tokens in
   published f' = tokens /\ woken ≡ₚ omap (told closed tokens) (waiters f) /\
   waiters f' ≡ₚ filter (stays closed tokens) (waiters f)) /\
  match watch_fill closed f u channel with
  | (f', AlreadyPublished m) => f' = f /\ first_match (published f) u = Some m
  | (f', Registered) =>
      first_match (published f) u = None /\ published f' = published f /\
      filter (is_open closed) (waiters f') ≡ₚ
      filter (is_open closed) (waiters f ++ [MkTokenWaiter u channel])
  end.
Proof.
  split.
  - unfold core_publish.
    pose proof (publish_go_spec closed tokens (S (length (waiters f))) (waiters f) 0 []
                  ltac:(lia) ltac:(constructor)) as Hp.
    destruct (publish_go _ _ _ _ _ _) as [ws woken]. cbn [take drop] in Hp. cbn.
    destruct Hp as [-> ->]. by rewrite drop_0.
  - unfold watch_fill. destruct (first_match (published f) u) eqn:Hm; [done|].
    pose proof (sweep_spec closed WAITER_SWEEP_BUDGET (waiters f) (sweep_cursor f)) as Hs.
    destruct (sweep _ _ _ _) as [ws cursor]. cbn in *. split_and!; [done..|].
    rewrite !filter_app. by rewrite Hs.
Qed.
