(* ===== verification/Backends.v ===== *)
(** * Backend views and their health

    [src/pingora-load-balancing/src/lib.rs] ([HealthRegistry], [Backends],
    [LoadBalancer]), [health_check.rs] ([Health]) and [discovery.rs] ([Static]).

    Enablement flags ([Arc<AtomicBool>]) and health values ([Health]) are shared by
    views, readiness snapshots and the registry, so they live in a store and are
    referred to by number.  A weak handle can be upgraded while some snapshot
    still refers to its flag.  A [BTreeSet<Backend>] is the list of its elements
    in order; the hash of a backend, the key under which a registry groups
    backends and the sort of a slice are parameters. *)

From stdpp Require Import base list numbers gmap.
From Stdlib Require Import ZArith Lia.
From S2P Require Import Prelude Selection.
Local Open Scope Z_scope.

(** ** Health *)

Record HealthInner := MkHealth { healthy : bool; consecutive_counter : Z }.

Definition health_default : HealthInner := MkHealth true 0.

(** The new value, and whether it flipped. *)
Definition observe_health (h : HealthInner) (health : bool) (flip_threshold : Z) : HealthInner * bool :=
  if negb (eqb (healthy h) health) then
    let c := wadd (consecutive_counter h) 1 in
    if flip_threshold <=? c then (MkHealth health 0, true) else (MkHealth (healthy h) c, false)
  else if 0 <? consecutive_counter h then (MkHealth (healthy h) 0, false)
  else (h, false).

(** ** The store of shared cells *)

Notation FlagRef := nat (only parsing).
Notation HealthRef := nat (only parsing).

Record Store := MkStore {
  flags : gmap FlagRef bool;
  next_flag : FlagRef;
  healths : gmap HealthRef HealthInner;
  next_health : HealthRef
}.

Definition new_flag (s : Store) (b : bool) : FlagRef * Store :=
  (next_flag s, MkStore (<[next_flag s := b]> (flags s)) (S (next_flag s)) (healths s) (next_health s)).
Definition new_health (s : Store) : HealthRef * Store :=
  (next_health s,
   MkStore (flags s) (next_flag s) (<[next_health s := health_default]> (healths s)) (S (next_health s))).
Definition store_flag (s : Store) (r : FlagRef) (b : bool) : Store :=
  MkStore (<[r := b]> (flags s)) (next_flag s) (healths s) (next_health s).
Definition store_health (s : Store) (r : HealthRef) (h : HealthInner) : Store :=
  MkStore (flags s) (next_flag s) (<[r := h]> (healths s)) (next_health s).

Definition load_flag (s : Store) (r : FlagRef) : bool := default false (flags s !! r).
Definition health_ready (s : Store) (r : HealthRef) : bool :=
  match healths s !! r with Some h => healthy h | None => false end.

Record BackendReadiness := MkReadiness { enabled_flag : FlagRef; health_ref : HealthRef }.

Definition readiness_ready (s : Store) (r : BackendReadiness) : bool :=
  load_flag s (enabled_flag r) && health_ready s (health_ref r).

(** Keyed by the hash of the backend. *)
Notation ReadinessSnapshot := (gmap Z BackendReadiness).

Section backends.
Context {Ext : Type}.
Notation Bk := (Backend Ext).
Variables (hash_key equivalence_key : Bk -> Z) (sort_unstable : list Bk -> list Bk).

Definition snapshot_get (r : ReadinessSnapshot) (b : Bk) : option BackendReadiness := r !! hash_key b.
Definition snapshot_ready (s : Store) (r : ReadinessSnapshot) (b : Bk) : bool :=
  match snapshot_get r b with Some x => readiness_ready s x | None => false end.

(** ** The health registry *)

Record HealthRegistry := MkRegistry {
  targets : list Bk;
  health_map : gmap Z HealthRef;
  views : list (Z * list Bk);
  next_view_id : Z;
  pending_view_removals : list Z
}.

Definition registry_new : HealthRegistry := MkRegistry [] ∅ [] 1 [].

(** [BTreeMap::insert] and [remove] *)
Fixpoint views_insert (vs : list (Z * list Bk)) (id : Z) (bs : list Bk) : list (Z * list Bk) :=
  match vs with
  | [] => [(id, bs)]
  | (i, x) :: rest =>
      if id <? i then (id, bs) :: vs
      else if id =? i then (id, bs) :: rest
      else (i, x) :: views_insert rest id bs
  end.
Definition views_remove (vs : list (Z * list Bk)) (id : Z) : list (Z * list Bk) :=
  filter (fun v => v.1 <> id) vs.

(** The first backend of every key, over all views in order. *)
Fixpoint targets_by_key (seen : gset Z) (bs : list Bk) : list Bk :=
  match bs with
  | [] => []
  | b :: bs =>
      if bool_decide (equivalence_key b ∈ seen) then targets_by_key seen bs
      else b :: targets_by_key ({[equivalence_key b]} ∪ seen) bs
  end.

(** Keeps the health of the keys that stay; a new key starts healthy. *)
Fixpoint health_of_targets (old : gmap Z HealthRef) (s : Store) (ts : list Bk)
  : gmap Z HealthRef * Store :=
  match ts with
  | [] => (∅, s)
  | b :: ts =>
      let key := equivalence_key b in
      let '(r, s) := match old !! key with Some r => (r, s) | None => new_health s end in
      let '(m, s) := health_of_targets old s ts in
      (<[key := r]> m, s)
  end.

(** Also whether the registry gained its first target, which wakes the service. *)
Definition reconcile (g : HealthRegistry) (s : Store) (vs : list (Z * list Bk))
  : HealthRegistry * Store * bool :=
  let ts := sort_unstable (targets_by_key ∅ (concat (map snd vs))) in
  let '(m, s) := health_of_targets (health_map g) s ts in
  (MkRegistry ts m vs (next_view_id g) (pending_view_removals g), s,
   match targets g, ts with [], _ :: _ => true | _, _ => false end).

Definition apply_pending_view_removals (g : HealthRegistry) (s : Store) : HealthRegistry * Store :=
  match pending_view_removals g with
  | [] => (g, s)
  | ids =>
      let vs := foldl views_remove (views g) ids in
      let changed := negb (bool_decide (length vs = length (views g))) in
      let g := MkRegistry (targets g) (health_map g) vs (next_view_id g) [] in
      if changed then (reconcile g s vs).1 else (g, s)
  end.

Definition register_view (g : HealthRegistry) (s : Store) : Z * HealthRegistry * Store :=
  let '(g, s) := apply_pending_view_removals g s in
  (next_view_id g,
   MkRegistry (targets g) (health_map g) (views_insert (views g) (next_view_id g) [])
     (wadd (next_view_id g) 1) (pending_view_removals g), s).

Definition update_view (g : HealthRegistry) (s : Store) (id : Z) (bs : list Bk)
  : HealthRegistry * Store :=
  let '(g, s) := apply_pending_view_removals g s in
  (reconcile g s (views_insert (views g) id bs)).1.

Definition defer_view_removal (g : HealthRegistry) (id : Z) : HealthRegistry :=
  MkRegistry (targets g) (health_map g) (views g) (next_view_id g) (pending_view_removals g ++ [id]).

Definition target_count (g : HealthRegistry) (s : Store) : Z * HealthRegistry * Store :=
  let '(g, s) := apply_pending_view_removals g s in (zlen (targets g), g, s).

(** [check_and_report]; [None]: the check did not complete. *)
Definition check_and_report (check : Bk -> option bool) (threshold : bool -> Z) (b : Bk)
    (r : HealthRef) (s : Store) : Store :=
  match check b, healths s !! r with
  | Some ok, Some h => store_health s r (observe_health h ok (threshold ok)).1
  | _, _ => s
  end.

Definition check_target (check : Bk -> option bool) (threshold : bool -> Z) (g : HealthRegistry)
    (s : Store) (b : Bk) : Store :=
  match health_map g !! equivalence_key b with
  | Some r => check_and_report check threshold b r s
  | None => s
  end.

(** [run_health_check], target by target. *)
Definition run_health_check (check : Bk -> option bool) (threshold : bool -> Z) (g : HealthRegistry)
    (s : Store) : HealthRegistry * Store :=
  let '(g, s) := apply_pending_view_removals g s in
  (g, foldl (check_target check threshold g) s (targets g)).

(** ** A backend view *)

Record Backends := MkBackends {
  view_id : Z;
  v_backends : list Bk;
  v_readiness : ReadinessSnapshot;
  generation : Z;
  enablement_handles : gmap Z FlagRef
}.

Definition backends_new (g : HealthRegistry) (s : Store) : Backends * HealthRegistry * Store :=
  let '(id, g, s) := register_view g s in (MkBackends id [] ∅ 0 ∅, g, s).

Definition snapshot_flags (r : ReadinessSnapshot) : gset FlagRef :=
  list_to_set (map (fun x => enabled_flag x.2) (map_to_list r)).

(** The flags that the view's snapshot and those [held] elsewhere keep alive. *)
Definition alive (v : Backends) (held : list ReadinessSnapshot) : gset FlagRef :=
  snapshot_flags (v_readiness v) ∪ ⋃ (map snapshot_flags held).

(** The flag of one backend of the new membership. *)
Definition flag_of (v : Backends) (handles : gmap Z FlagRef) (s : Store) (b : Bk) : FlagRef * Store :=
  match snapshot_get (v_readiness v) b with
  | Some current => (enabled_flag current, s)
  | None => match handles !! hash_key b with
            | Some r => (r, s)
            | None => new_flag s true
            end
  end.

Fixpoint readiness_of (v : Backends) (reg_health : gmap Z HealthRef) (enablement : gmap Z bool)
    (bs : list Bk) (handles : gmap Z FlagRef) (s : Store) (acc : ReadinessSnapshot)
  : ReadinessSnapshot * gmap Z FlagRef * Store :=
  match bs with
  | [] => (acc, handles, s)
  | b :: bs =>
      let k := hash_key b in
      let '(r, s) := flag_of v handles s b in
      let s := match enablement !! k with Some e => store_flag s r e | None => s end in
      let handles := <[k := r]> handles in
      let '(h, s) := match reg_health !! equivalence_key b with
                     | Some h => (h, s)
                     | None => new_health s
                     end in
      readiness_of v reg_health enablement bs handles s (<[k := MkReadiness r h]> acc)
  end.

Definition backend_list_eqb (a b : list Bk) : bool :=
  bool_decide (length a = length b) && forallb (fun p => backend_eqb p.1 p.2) (zip a b).

Record BackendUpdate := MkUpdate {
  u_generation : Z;
  u_backends : list Bk;
  u_readiness : ReadinessSnapshot;
  (** what requests see while the callback rebuilds the selector *)
  u_transition : ReadinessSnapshot
}.

(** Overrides for the present membership. *)
Definition store_overrides (r : ReadinessSnapshot) (enablement : gmap Z bool) (s : Store) : Store :=
  foldl (fun s ke => match r !! ke.1 with
                     | Some x => store_flag s (enabled_flag x) ke.2
                     | None => s
                     end) s (map_to_list enablement).

Definition do_update (v : Backends) (g : HealthRegistry) (s : Store) (held : list ReadinessSnapshot)
    (new_backends : list Bk) (enablement : gmap Z bool)
  : Backends * HealthRegistry * Store * option BackendUpdate :=
  if negb (backend_list_eqb (v_backends v) new_backends) then
    let gen := wadd (generation v) 1 in
    let '(g, s) := update_view g s (view_id v) new_backends in
    let handles := filter (fun kr => kr.2 ∈ alive v held) (enablement_handles v) in
    let '(r, handles, s) := readiness_of v (health_map g) enablement new_backends handles s ∅ in
    (MkBackends (view_id v) new_backends r gen handles, g, s,
     Some (MkUpdate gen new_backends r (r ∪ v_readiness v)))
  else (v, g, store_overrides (v_readiness v) enablement s, None).

Definition backends_ready (v : Backends) (s : Store) (b : Bk) : bool :=
  snapshot_ready s (v_readiness v) b.

Definition set_enable (v : Backends) (held : list ReadinessSnapshot) (s : Store) (b : Bk) (e : bool)
  : Store :=
  match v_readiness v !! hash_key b with
  | Some r => store_flag s (enabled_flag r) e
  | None =>
      match enablement_handles v !! hash_key b with
      | Some r => if bool_decide (r ∈ alive v held) then store_flag s r e else s
      | None => s
      end
  end.

Definition get_backend (v : Backends) : list Bk := v_backends v.

(** [Drop for Backends] *)
Definition backends_drop (v : Backends) (g : HealthRegistry) : HealthRegistry :=
  defer_view_removal g (view_id v).

(** ** The load balancer *)

Section load_balancer.
Context {S : Type} (build_selector : list Bk -> S).

Record LoadBalancer := MkLB { lb_backends : Backends; lb_selector : S }.

Definition from_backends (v : Backends) : LoadBalancer := MkLB v (build_selector (get_backend v)).

(** [update]; the outer [None] is the error of the discovery. *)
Definition lb_update (lb : LoadBalancer) (g : HealthRegistry) (s : Store)
    (held : list ReadinessSnapshot) (discovered : option (list Bk * gmap Z bool))
  : option (LoadBalancer * HealthRegistry * Store) :=
  match discovered with
  | None => None
  | Some (bs, enablement) =>
      let '(v, g, s, u) := do_update (lb_backends lb) g s held bs enablement in
      Some (MkLB v (match u with Some u => build_selector (u_backends u) | None => lb_selector lb end), g, s)
  end.

End load_balancer.
End backends.
