(* ===== verification/BackendsSpec.v ===== *)
(** * Backend views: health, targets and readiness

    Theorems on [Backends]: when health flips, what the registry tracks as views
    change, and which backends of a view are ready after an update. *)

From stdpp Require Import base list numbers gmap.
From Stdlib Require Import ZArith Lia.
From S2P Require Import Prelude Ketama Selection Backends.
Local Open Scope Z_scope.

(** ** Health flips on long enough runs *)

Section health.
Variable threshold : bool -> Z.

Definition observe_all (h : HealthInner) (obs : list bool) : HealthInner :=
  foldl (fun h o => (observe_health h o (threshold o)).1) h obs.

(** Reference: a maximal run of [n] equal observations decides if it is as long as
    its threshold. *)
Definition run_effect (h : bool) (r : bool * nat) : bool :=
  if threshold r.1 <=? Z.of_nat r.2 then r.1 else h.

Fixpoint maximal (prev : option bool) (runs : list (bool * nat)) : Prop :=
  match runs with
  | [] => True
  | (v, n) :: runs => (0 < n)%nat /\ Some v <> prev /\ maximal (Some v) runs
  end.

Definition flatten (runs : list (bool * nat)) : list bool :=
  concat (map (fun r => replicate r.2 r.1) runs).

(** A run of the health already there leaves the counter at zero. *)
Lemma observe_same h v n :
  healthy h = v -> 0 <= consecutive_counter h -> (0 < n)%nat ->
  observe_all h (replicate n v) = MkHealth v 0.
Proof.
  intros Hv Hc Hn. destruct n as [|n]; [lia|]. clear Hn. revert h Hv Hc.
  induction n as [|n IH]; intros h Hv Hc; simpl.
  all: assert ((observe_health h v (threshold v)).1 = MkHealth v 0) as Ho
    by (unfold observe_health; rewrite Hv, eqb_reflx; destruct h as [hv c]; simpl in *;
        destruct (0 <? c) eqn:Hlt; simpl; [by subst|]; apply Z.ltb_ge in Hlt; f_equal; [done|lia]).
  - done.
  - rewrite Ho. by apply (IH (MkHealth v 0)).
Qed.

(** A run of the other value: it counts up to its threshold. *)
Lemma observe_other h v n :
  healthy h = negb v -> 0 <= consecutive_counter h ->
  consecutive_counter h < Z.max 1 (threshold v) ->
  consecutive_counter h + Z.of_nat n < usize_max ->
  observe_all h (replicate n v) =
  (if bool_decide (0 < n)%nat && (threshold v <=? consecutive_counter h + Z.of_nat n)
   then MkHealth v 0 else MkHealth (negb v) (consecutive_counter h + Z.of_nat n)).
Proof.
  revert h. induction n as [|n IH]; intros h Hv Hc Hlt Hmax.
  { destruct h as [hv c]. simpl in *. subst. f_equal. lia. }
  cbn [replicate]. change (observe_all h (v :: replicate n v)) with
    (observe_all (observe_health h v (threshold v)).1 (replicate n v)).
  rewrite (bool_decide_true (0 < S n)%nat) by lia. simpl (true && _).
  unfold observe_health. rewrite Hv.
  assert (eqb (negb v) v = false) as -> by (by destruct v). simpl (negb false). cbv iota.
  assert (wadd (consecutive_counter h) 1 = consecutive_counter h + 1) as ->
    by (unfold wadd, usize_max in *; rewrite Z.mod_small; lia).
  destruct (threshold v <=? consecutive_counter h + 1) eqn:Ht; simpl.
  - apply Z.leb_le in Ht. rewrite (proj2 (Z.leb_le (threshold v) _)) by lia.
    destruct n as [|n]; [done|]. apply observe_same; simpl; [done|lia..].
  - apply Z.leb_gt in Ht. rewrite IH by (simpl; try done; lia). simpl.
    replace (consecutive_counter h + 1 + Z.of_nat n) with (consecutive_counter h + Z.of_nat (S n)) by lia.
    destruct n as [|n].
    + rewrite bool_decide_false by lia. simpl. rewrite (proj2 (Z.leb_gt _ _)) by lia. done.
    + rewrite bool_decide_true by lia. done.
Qed.

Lemma observe_all_app h a b : observe_all h (a ++ b) = observe_all (observe_all h a) b.
Proof. apply foldl_app. Qed.

(** The value after the runs so far, and that the counter is of the last run. *)
Lemma observe_runs runs h prev :
  maximal prev runs ->
  (consecutive_counter h = 0 \/ (prev = Some (negb (healthy h)) /\
     0 <= consecutive_counter h < Z.max 1 (threshold (negb (healthy h))))) ->
  (prev = None -> consecutive_counter h = 0) ->
  Forall (fun r : bool * nat => Z.of_nat r.2 < usize_max) runs ->
  healthy (observe_all h (flatten runs)) = foldl run_effect (healthy h) runs.
Proof.
  revert h prev. induction runs as [|[v n] runs IH]; intros h prev Hmax Hc Hnone Hb; [done|].
  destruct Hmax as (Hn & Hne & Hmax). inversion_clear Hb as [|? ? Hbn Hb']. simpl in Hbn.
  unfold flatten. cbn [map concat]. rewrite observe_all_app. fold (flatten runs). cbn [foldl fst snd].
  destruct (decide (healthy h = v)) as [Hv|Hv].
  - rewrite observe_same by (try done; destruct Hc as [->|[_ ?]]; lia).
    rewrite (IH (MkHealth v 0) (Some v)); [|done|by left|done|done].
    unfold run_effect at 3. cbn [fst snd healthy]. rewrite Hv. by destruct (threshold v <=? Z.of_nat n).
  - assert (healthy h = negb v) as Hv' by (by destruct (healthy h), v).
    assert (consecutive_counter h = 0) as Hc0.
    { destruct Hc as [?|[Hp _]]; [done|]. rewrite Hp, Hv', negb_involutive in Hne. done. }
    rewrite observe_other by (try done; lia). rewrite Hc0, Z.add_0_l.
    rewrite bool_decide_true by done. simpl (true && _). unfold run_effect at 2. simpl.
    destruct (threshold v <=? Z.of_nat n) eqn:Ht; rewrite (IH _ (Some v)); try done.
    + by left.
    + by rewrite Hv'.
    + right. simpl. rewrite negb_involutive. split; [done|]. apply Z.leb_gt in Ht. lia.
Qed.

End health.

(** When health flips.  Whatever the sequence of check results, split into its
    maximal runs of equal results, the health of a target is that of the last run
    at least as long as the threshold for its result, and the initial one if
    there was none. *)
Theorem health_follows_runs threshold runs :
  maximal None runs -> Forall (fun r : bool * nat => Z.of_nat r.2 < usize_max) runs ->
  healthy (observe_all threshold health_default (flatten runs)) =
  foldl (run_effect threshold) true runs.
Proof. intros Hm Hb. apply (observe_runs threshold runs health_default None); auto. Qed.

Lemma health_follows_runs_witness :
  healthy (observe_all (fun _ => 2) health_default [false; true; false; false]) = false.
Proof.
  refine (health_follows_runs (fun _ => 2) [(false, 1%nat); (true, 1%nat); (false, 2%nat)] _ _).
  - repeat split; try lia; done.
  - repeat constructor.
Defined.

(** ** The registry *)

Section registry.
Context {Ext : Type}.
Notation Bk := (Backend Ext).
Variables (equivalence_key : Bk -> Z) (sort_unstable : list Bk -> list Bk).
Hypothesis sort_permutes : forall l, sort_unstable l ≡ₚ l.

(** Health cells are allocated in order, and every key of the registry has its own. *)
Record registry_ok (g : HealthRegistry) (s : Store) : Prop := {
  ok_fresh : forall r, (next_health s <= r)%nat -> healths s !! r = None;
  ok_cell : forall k r, health_map (Ext := Ext) g !! k = Some r -> is_Some (healths s !! r);
  ok_inj : forall k k' r, health_map g !! k = Some r -> health_map g !! k' = Some r -> k = k'
}.

Definition tracked (vs : list (Z * list Bk)) (k : Z) : Prop :=
  exists b, b ∈ concat (map snd vs) /\ equivalence_key b = k.

Lemma targets_by_key_spec seen bs :
  NoDup (map equivalence_key (targets_by_key equivalence_key seen bs)) /\
  (forall b, b ∈ targets_by_key equivalence_key seen bs -> b ∈ bs /\ equivalence_key b ∉ seen) /\
  (forall b, b ∈ bs -> equivalence_key b ∉ seen ->
     exists b', b' ∈ targets_by_key equivalence_key seen bs /\ equivalence_key b' = equivalence_key b).
Proof.
  revert seen. induction bs as [|b bs IH]; intros seen; cbn [targets_by_key].
  { split_and!; [constructor|set_solver..]. }
  case_bool_decide as Hseen.
  - destruct (IH seen) as (Hnd & Hsub & Hall). split_and!; [done| |].
    + intros x Hx%Hsub. set_solver.
    + intros x [->|Hx]%elem_of_cons Hnot; [done|by apply Hall].
  - destruct (IH ({[equivalence_key b]} ∪ seen)) as (Hnd & Hsub & Hall). split_and!.
    + cbn [map]. constructor; [|done]. rewrite list_elem_of_fmap. intros (x & Hk & Hx).
      apply Hsub in Hx. set_solver.
    + intros x [->|Hx]%elem_of_cons; [set_solver|]. apply Hsub in Hx. set_solver.
    + intros x [->|Hx]%elem_of_cons Hnot; [exists b; set_solver|].
      destruct (decide (equivalence_key x = equivalence_key b)) as [Heq|Hne]; [exists b; set_solver|].
      destruct (Hall x Hx) as (b' & Hb' & ?); [set_solver|]. exists b'. set_solver.
Qed.

Lemma health_of_targets_spec old s ts :
  (forall r, (next_health s <= r)%nat -> healths s !! r = None) ->
  (forall k r, old !! k = Some r -> is_Some (healths s !! r)) ->
  NoDup (map equivalence_key ts) ->
  let '(m, s') := health_of_targets equivalence_key old s ts in
  (next_health s <= next_health s')%nat /\ flags s' = flags s /\ next_flag s' = next_flag s /\
  (forall r, (next_health s' <= r)%nat -> healths s' !! r = None) /\
  (forall r, (r < next_health s)%nat -> healths s' !! r = healths s !! r) /\
  (forall k, is_Some (m !! k) <-> k ∈ map equivalence_key ts) /\
  (forall k r, m !! k = Some r -> match old !! k with
     | Some r' => r = r'
     | None => (next_health s <= r)%nat /\ healths s' !! r = Some health_default
     end) /\
  (forall k k' r, m !! k = Some r -> m !! k' = Some r -> old !! k = None -> old !! k' = None -> k = k').
Proof.
  revert s. induction ts as [|b ts IH]; intros s Hfresh Hold Hnd; cbn [health_of_targets map] in *.
  { split_and!; try done. intros k. split; [by intros [? Hk]|set_solver]. }
  inversion_clear Hnd as [|? ? Hnb Hnd'].
  destruct (old !! equivalence_key b) as [r0|] eqn:Hb.
  - specialize (IH s Hfresh Hold Hnd'). destruct (health_of_targets _ _ _ _) as [m s'].
    destruct IH as (H1 & H2 & H3 & H4 & H5 & H6 & H7 & H8). split_and!; try done.
    + intros k. rewrite lookup_insert_is_Some, H6, elem_of_cons. naive_solver.
    + intros k r. rewrite lookup_insert_Some. intros [[Hk <-]|[Hne Hk]]; [by rewrite <-Hk, Hb|by apply H7].
    + intros k k' r. rewrite !lookup_insert_Some.
      intros [[<- _]|[_ Hk]] [[<- _]|[_ Hk']] Ho Ho'; [congruence..|by apply (H8 k k' r)].
  - unfold new_health. cbn. set (s1 := MkStore _ _ _ _).
    assert (forall r, (next_health s1 <= r)%nat -> healths s1 !! r = None) as Hfresh1.
    { intros r Hr. cbn in *. rewrite lookup_insert_ne by lia. apply Hfresh. lia. }
    assert (forall k r, old !! k = Some r -> is_Some (healths s1 !! r)) as Hold1.
    { intros k r Hk%Hold. cbn. by apply lookup_insert_is_Some'; right. }
    specialize (IH s1 Hfresh1 Hold1 Hnd'). destruct (health_of_targets _ _ _ _) as [m s'].
    destruct IH as (H1 & H2 & H3 & H4 & H5 & H6 & H7 & H8). cbn in H1, H5.
    assert (healths s' !! next_health s = Some health_default) as Hnew.
    { rewrite H5 by lia. cbn. apply lookup_insert_eq. }
    split_and!; try done; try lia.
    + intros r Hr. rewrite H5 by lia. cbn. by rewrite lookup_insert_ne by lia.
    + intros k. rewrite lookup_insert_is_Some, H6, elem_of_cons. naive_solver.
    + intros k r. rewrite lookup_insert_Some. intros [[Hk <-]|[Hne Hk]]; [rewrite <-Hk, Hb; done|].
      specialize (H7 k r Hk). destruct (old !! k); [done|]. cbn in H7. split; [lia|tauto].
    + intros k k' r. rewrite !lookup_insert_Some.
      intros [[<- <-]|[_ Hk]] [[<- Hr]|[_ Hk']] Ho Ho'; [done| | |by apply (H8 k k' r)].
      * apply H7 in Hk'. rewrite Ho' in Hk'. cbn in Hk'. lia.
      * subst r. apply H7 in Hk. rewrite Ho in Hk. cbn in Hk. lia.
Qed.

Lemma targets_keys vs k :
  k ∈ map equivalence_key (sort_unstable (targets_by_key equivalence_key ∅ (concat (map snd vs))))
  <-> tracked vs k.
Proof.
  rewrite sort_permutes. destruct (targets_by_key_spec ∅ (concat (map snd vs))) as (_ & Hsub & Hall).
  unfold tracked. rewrite list_elem_of_fmap. split.
  - intros (b & -> & [Hb _]%Hsub). by exists b.
  - intros (b & Hb & <-). destruct (Hall b Hb) as (b' & Hb' & Hk); [set_solver|]. by exists b'.
Qed.

Lemma reconcile_ok g s vs :
  registry_ok g s ->
  let '(g', s', woke) := reconcile equivalence_key sort_unstable g s vs in
  registry_ok g' s' /\ flags s' = flags s /\ next_flag s' = next_flag s /\ views g' = vs /\
  (next_health s <= next_health s')%nat /\
  NoDup (map equivalence_key (targets g')) /\
  (forall b, b ∈ targets g' -> b ∈ concat (map snd vs)) /\
  (forall k, is_Some (health_map g' !! k) <-> tracked vs k) /\
  (forall r, (r < next_health s)%nat -> healths s' !! r = healths s !! r) /\
  (forall k r, health_map g' !! k = Some r -> match health_map g !! k with
     | Some r' => r = r'
     | None => (next_health s <= r)%nat /\ healths s' !! r = Some health_default
     end) /\
  (woke = true <-> targets g = [] /\ targets g' <> []).
Proof.
  intros Hok. unfold reconcile. set (ts := sort_unstable _).
  assert (NoDup (map equivalence_key ts)) as Hnd.
  { unfold ts. rewrite sort_permutes. apply targets_by_key_spec. }
  pose proof (health_of_targets_spec (health_map g) s ts (ok_fresh g s Hok) (ok_cell g s Hok) Hnd) as Hh.
  destruct (health_of_targets _ _ _ _) as [m s']. cbn.
  destruct Hh as (H1 & H2 & H3 & H4 & H5 & H6 & H7 & H8). split_and!; try done.
  - assert (forall r, is_Some (healths s !! r) -> (r < next_health s)%nat) as Hlt.
    { intros r [h Hr]. destruct (decide (next_health s <= r)%nat) as [Hle|]; [|lia].
      by rewrite (ok_fresh g s Hok r Hle) in Hr. }
    split; cbn; [done|..].
    + intros k r Hk%H7. destruct (health_map g !! k) as [r'|] eqn:Hg; [subst r'|destruct Hk as [_ ->]; by eexists].
      pose proof (ok_cell g s Hok k r Hg) as Hc. rewrite H5 by (by apply Hlt). done.
    + intros k k' r Hk Hk'. pose proof (H7 _ _ Hk) as Hc. pose proof (H7 _ _ Hk') as Hc'.
      destruct (health_map g !! k) as [r1|] eqn:Hg, (health_map g !! k') as [r2|] eqn:Hg'; subst.
      * by apply (ok_inj g s Hok k k' r2).
      * destruct Hc' as [Hge _]. pose proof (Hlt _ (ok_cell g s Hok _ _ Hg)). lia.
      * destruct Hc as [Hge _]. pose proof (Hlt _ (ok_cell g s Hok _ _ Hg')). lia.
      * by apply (H8 k k' r).
  - intros b. unfold ts. rewrite sort_permutes. apply targets_by_key_spec.
  - intros k. rewrite H6. apply targets_keys.
  - destruct (targets g), ts; naive_solver.
Qed.

Lemma update_view_ok g s id bs :
  registry_ok g s ->
  let '(g', s') := update_view equivalence_key sort_unstable g s id bs in
  registry_ok g' s' /\ flags s' = flags s /\ next_flag s' = next_flag s /\
  (next_health s <= next_health s')%nat /\
  (exists vs, views g' = views_insert vs id bs) /\
  NoDup (map equivalence_key (targets g')) /\
  (forall b, b ∈ targets g' -> b ∈ concat (map snd (views g'))) /\
  (forall k, is_Some (health_map g' !! k) <-> tracked (views g') k) /\
  (forall r, (r < next_health s)%nat -> healths s' !! r = healths s !! r) /\
  (pending_view_removals g = [] -> forall k r, health_map g' !! k = Some r ->
     match health_map g !! k with
     | Some r' => r = r'
     | None => (next_health s <= r)%nat /\ healths s' !! r = Some health_default
     end).
Proof.
  intros Hok. unfold update_view.
  assert (exists g1 s1, apply_pending_view_removals equivalence_key sort_unstable g s = (g1, s1) /\
    registry_ok g1 s1 /\ flags s1 = flags s /\ next_flag s1 = next_flag s /\
    (next_health s <= next_health s1)%nat /\
    (forall r, (r < next_health s)%nat -> healths s1 !! r = healths s !! r) /\
    (pending_view_removals g = [] -> g1 = g /\ s1 = s)) as (g1 & s1 & -> & Hok1 & Hf & Hn & Hle & Hh & Hp).
  { unfold apply_pending_view_removals. destruct (pending_view_removals g) as [|i ids].
    - by exists g, s.
    - set (g0 := MkRegistry _ _ _ _ _). assert (registry_ok g0 s) as Hok0 by (destruct Hok; by split).
      set (vs := foldl _ _ _). pose proof (reconcile_ok g0 s vs Hok0) as Hr.
      destruct (reconcile equivalence_key sort_unstable g0 s vs) as [[g1 s1] woke].
      destruct (negb _); [exists g1, s1|exists g0, s]; naive_solver. }
  pose proof (reconcile_ok g1 s1 (views_insert (views g1) id bs) Hok1) as Hr.
  destruct (reconcile _ _ _ _ _) as [[g' s'] woke].
  destruct Hr as (R1 & R2 & R3 & R4 & R5 & R6 & R7 & R8 & R9 & R10 & _). cbn.
  split_and!; [done|congruence..|lia|by eexists|done|by rewrite R4|by rewrite R4| |].
  - intros r Hr. rewrite R9 by lia. by apply Hh.
  - intros Hnil. destruct (Hp Hnil) as [-> ->]. exact R10.
Qed.

(** *** Checks of different targets commute *)

Lemma check_target_comm check threshold g s b b' :
  registry_ok g s -> equivalence_key b <> equivalence_key b' ->
  check_target equivalence_key check threshold g (check_target equivalence_key check threshold g s b) b' =
  check_target equivalence_key check threshold g (check_target equivalence_key check threshold g s b') b.
Proof.
  intros Hok Hne. unfold check_target, check_and_report.
  destruct (health_map g !! equivalence_key b) as [r|] eqn:Hr; [|by destruct (health_map g !! _)].
  destruct (health_map g !! equivalence_key b') as [r'|] eqn:Hr'; [|done].
  assert (r <> r') as Hrr by (intros ->; by apply Hne, (ok_inj g s Hok _ _ r')).
  destruct (check b) as [o|]; [|by destruct (check b'); [destruct (healths s !! r')|]].
  destruct (check b') as [o'|]; [|by destruct (healths s !! r)].
  destruct (healths s !! r) as [h|] eqn:Hh; destruct (healths s !! r') as [h'|] eqn:Hh'; cbn;
    rewrite ?lookup_insert_ne by done; rewrite ?Hh, ?Hh'; try done.
  unfold store_health. cbn. f_equal. by rewrite insert_insert_ne by done.
Qed.

Lemma check_target_ok check threshold g s b :
  registry_ok g s -> registry_ok g (check_target equivalence_key check threshold g s b).
Proof.
  intros Hok. unfold check_target, check_and_report.
  destruct (health_map g !! _) as [r|]; [|done]. destruct (check b) as [o|]; [|done].
  destruct (healths s !! r) as [h|] eqn:Hh; [|done]. destruct Hok as [Hf Hc Hi]. split; cbn; [| |done].
  - intros r' Hr'. rewrite lookup_insert_ne; [by apply Hf|]. intros ->. by rewrite Hf in Hh.
  - intros k r' Hk%Hc. by apply lookup_insert_is_Some'; right.
Qed.

Lemma checks_permute check threshold g s ts ts' :
  registry_ok g s -> NoDup (map equivalence_key ts) -> ts ≡ₚ ts' ->
  foldl (check_target equivalence_key check threshold g) s ts =
  foldl (check_target equivalence_key check threshold g) s ts'.
Proof.
  intros Hok Hnd Hp. revert s Hok. induction Hp as [|b ts ts' Hp IH|b b' ts|ts ts1 ts2 Hp1 IH1 Hp2 IH2];
    intros s Hok; cbn [foldl map] in *; [done|..].
  - inversion_clear Hnd. apply IH; [done|by apply check_target_ok].
  - f_equal. inversion_clear Hnd as [|? ? Hn _]. apply check_target_comm; [done|]. intros Heq.
    apply Hn. rewrite Heq. by left.
  - rewrite IH1 by done. apply IH2; [by rewrite <-Hp1|done].
Qed.

(** What the registry tracks.  Publishing a view makes the tracked keys exactly
    those of the backends in the views, one target each; a key that stays keeps
    its health cell and everything observed so far, a new one starts healthy in a
    cell of its own; and the order in which the targets of a health-check pass are
    checked, one by one or concurrently, does not change its result. *)
Theorem registry_tracks_views g s id bs :
  registry_ok g s -> pending_view_removals g = [] ->
  let '(g', s') := update_view equivalence_key sort_unstable g s id bs in
  registry_ok g' s' /\
  (forall k, is_Some (health_map g' !! k) <-> tracked (views g') k) /\
  (forall k r, health_map g' !! k = Some r -> match health_map g !! k with
     | Some r' => r = r' /\ healths s' !! r = healths s !! r
     | None => healths s !! r = None /\ healths s' !! r = Some health_default
     end) /\
  NoDup (map equivalence_key (targets g')) /\
  (forall b, b ∈ targets g' -> b ∈ concat (map snd (views g'))) /\
  (forall check threshold ts, ts ≡ₚ targets g' ->
     foldl (check_target equivalence_key check threshold g') s' ts =
     foldl (check_target equivalence_key check threshold g') s' (targets g')).
Proof.
  intros Hok Hnil. pose proof (update_view_ok g s id bs Hok) as Hu.
  destruct (update_view _ _ _ _ _ _) as [g' s'].
  destruct Hu as (U1 & _ & _ & _ & _ & U5 & U6 & U7 & U8 & U9). split_and!; try done.
  - intros k r Hk. specialize (U9 Hnil k r Hk). destruct (health_map g !! k) as [r'|] eqn:Hg.
    + subst r'. split; [done|]. apply U8. destruct (ok_cell g s Hok k r Hg) as [h Hh].
      destruct (decide (next_health s <= r)%nat) as [Hle|]; [|lia].
      by rewrite (ok_fresh g s Hok r Hle) in Hh.
    + destruct U9 as [Hle ?]. split; [|done]. by apply (ok_fresh g s Hok).
  - intros check threshold ts Hts. apply checks_permute; [done| |done]. by rewrite Hts.
Qed.

End registry.

Definition backend_at (n : Z) : Backend unit := MkBackend (Unix []) n tt.

Lemma registry_tracks_views_witness :
  let '(g, s) := update_view bweight id registry_new (MkStore ∅ 0 ∅ 0) 1 [backend_at 1; backend_at 2] in
  is_Some (health_map g !! 1) /\ health_ready s 0%nat = true.
Proof.
  pose proof (registry_tracks_views bweight id (fun l => Permutation_refl l) registry_new
    (MkStore ∅ 0 ∅ 0) 1 [backend_at 1; backend_at 2]
    ltac:(split; cbn; [done|intros k r; by rewrite lookup_empty..]) eq_refl) as Hr.
  destruct (update_view _ _ _ _ _ _) as [g s] eqn:Hu. destruct Hr as (_ & Hk & _).
  vm_compute in Hu. injection Hu as <- <-. split; [|done]. apply Hk.
  exists (backend_at 1). split; [left|done].
Defined.

(** ** Readiness of a view *)

Section readiness.
Context {Ext : Type}.
Notation Bk := (Backend Ext).
Variables (hash_key equivalence_key : Bk -> Z).

(** Flags are allocated in order; every key has its own. *)
Record handles_ok (handles : gmap Z nat) (s : Store) : Prop := {
  ho_fresh : forall r, (next_flag s <= r)%nat -> flags s !! r = None;
  ho_cell : forall k r, handles !! k = Some r -> is_Some (flags s !! r);
  ho_inj : forall k k' r, handles !! k = Some r -> handles !! k' = Some r -> k = k'
}.

(** The handles know the flag of every backend of the view. *)
Record view_ok (v : @Backends Ext) (s : Store) : Prop := {
  vo_handles : handles_ok (enablement_handles v) s;
  vo_known : forall k x, v_readiness v !! k = Some x ->
    enablement_handles v !! k = Some (enabled_flag x)
}.

(** What the flag of a backend is to be: what the discovery says, else what it is
    in the view or in a snapshot still in use, else enabled. *)
Definition wanted (enablement : gmap Z bool) (handles : gmap Z nat) (s : Store) (k : Z) : bool :=
  match enablement !! k with
  | Some e => e
  | None => match handles !! k with Some r => load_flag s r | None => true end
  end.

Lemma store_flag_ok handles s r b :
  is_Some (flags s !! r) -> handles_ok handles s -> handles_ok handles (store_flag s r b).
Proof.
  intros [x Hx] [Hf Hc Hi]. split; cbn; [| |done].
  - intros r' Hr'. rewrite lookup_insert_ne; [by apply Hf|]. intros ->. by rewrite Hf in Hx.
  - intros k r' Hk%Hc. by apply lookup_insert_is_Some'; right.
Qed.

(** One backend: its flag and what becomes of the others. *)
Lemma flag_step (v : @Backends Ext) enablement handles s b :
  handles_ok handles s ->
  (forall x, v_readiness v !! hash_key b = Some x -> handles !! hash_key b = Some (enabled_flag x)) ->
  let '(r, s1) := flag_of hash_key v handles s b in
  let s2 := match enablement !! hash_key b with Some e => store_flag s1 r e | None => s1 end in
  let handles' := <[hash_key b := r]> handles in
  handles_ok handles' s2 /\ healths s2 = healths s /\ next_health s2 = next_health s /\
  load_flag s2 r = wanted enablement handles s (hash_key b) /\
  (forall r', handles !! hash_key b = Some r' -> r = r') /\
  (forall k r', k <> hash_key b -> handles !! k = Some r' -> load_flag s2 r' = load_flag s r').
Proof.
  intros Hok Hknown. unfold flag_of, snapshot_get, wanted.
  assert (match v_readiness v !! hash_key b with
          | Some current => (enabled_flag current, s)
          | None => match handles !! hash_key b with Some r => (r, s) | None => new_flag s true end
          end = match handles !! hash_key b with Some r => (r, s) | None => new_flag s true end) as ->.
  { destruct (v_readiness v !! hash_key b) as [x|]; [|done]. by rewrite (Hknown x eq_refl). }
  destruct (handles !! hash_key b) as [r|] eqn:Hr.
  - destruct (ho_cell _ _ Hok _ _ Hr) as [e0 He0].
    rewrite (insert_id handles) by done. destruct (enablement !! hash_key b) as [e|];
      [|split_and!; naive_solver].
    split_and!; [by apply store_flag_ok; [eexists|]|done..| | |].
    + unfold load_flag. cbn. by rewrite lookup_insert_eq.
    + naive_solver.
    + intros k r' Hk Hkr'. unfold load_flag. cbn. rewrite lookup_insert_ne; [done|].
      intros ->. by apply Hk, (ho_inj _ _ Hok _ _ r').
  - cbn. set (s1 := MkStore _ _ _ _).
    assert (forall k r', handles !! k = Some r' -> (r' < next_flag s)%nat) as Hlt.
    { intros k r' [e He]%(ho_cell _ _ Hok). destruct (decide (next_flag s <= r')%nat) as [Hle|]; [|lia].
      by rewrite (ho_fresh _ _ Hok _ Hle) in He. }
    assert (handles_ok (<[hash_key b := next_flag s]> handles) s1) as Hok1.
    { split; cbn.
      - intros r Hr'. rewrite lookup_insert_ne by lia. apply (ho_fresh _ _ Hok). lia.
      - intros k r. rewrite lookup_insert_Some. intros [[_ <-]|[_ Hk]].
        + rewrite lookup_insert_eq. by eexists.
        + apply lookup_insert_is_Some'. right. by eapply (ho_cell _ _ Hok).
      - intros k k' r. rewrite !lookup_insert_Some.
        intros [[<- <-]|[_ Hk]] [[<- Hr']|[_ Hk']]; [done| | |by apply (ho_inj _ _ Hok k k' r)].
        + apply Hlt in Hk'. lia.
        + apply Hlt in Hk. lia. }
    assert (load_flag s1 (next_flag s) = true) as Hnew by (unfold load_flag; cbn; by rewrite lookup_insert_eq).
    assert (forall e r', (r' < next_flag s)%nat ->
      load_flag (store_flag s1 (next_flag s) e) r' = load_flag s r' /\ load_flag s1 r' = load_flag s r') as Hother.
    { intros e r' Hr'. unfold load_flag. cbn. by rewrite !lookup_insert_ne by lia. }
    destruct (enablement !! hash_key b) as [e|].
    + split_and!; [|done..| |done|].
      * apply store_flag_ok; [|done]. cbn. rewrite lookup_insert_eq. by eexists.
      * unfold load_flag. cbn. by rewrite lookup_insert_eq.
      * intros k r' _ Hk%Hlt. by apply Hother.
    + split_and!; [done..|]. intros k r' _ Hk%Hlt. by apply (Hother true).
Qed.

Lemma readiness_of_spec (v : @Backends Ext) reg_health enablement bs handles s acc :
  handles_ok handles s -> NoDup (map hash_key bs) ->
  (forall k x, v_readiness v !! k = Some x -> handles !! k = Some (enabled_flag x)) ->
  (forall b, b ∈ bs -> is_Some (reg_health !! equivalence_key b)) ->
  let '(acc', handles', s') :=
    readiness_of hash_key equivalence_key v reg_health enablement bs handles s acc in
  handles_ok handles' s' /\ healths s' = healths s /\ next_health s' = next_health s /\
  (forall k, k ∉ map hash_key bs -> acc' !! k = acc !! k) /\
  (forall k r, k ∉ map hash_key bs -> handles !! k = Some r ->
     handles' !! k = Some r /\ load_flag s' r = load_flag s r) /\
  (forall b, b ∈ bs -> exists r h,
     acc' !! hash_key b = Some (MkReadiness r h) /\ handles' !! hash_key b = Some r /\
     reg_health !! equivalence_key b = Some h /\
     load_flag s' r = wanted enablement handles s (hash_key b)).
Proof.
  revert handles s acc. induction bs as [|b bs IH]; intros handles s acc Hok Hnd Hknown Hreg;
    cbn [readiness_of map] in *; [split_and!; try done; set_solver|].
  inversion_clear Hnd as [|? ? Hnb Hnd'].
  pose proof (flag_step v enablement handles s b Hok (Hknown (hash_key b))) as Hf.
  destruct (flag_of hash_key v handles s b) as [r s1].
  set (s2 := match enablement !! hash_key b with Some e => store_flag s1 r e | None => s1 end) in *.
  destruct Hf as (Hok2 & Hh2 & Hn2 & Hw & Hsame & Hoth).
  destruct (Hreg b) as [h Hh]; [by left|]. rewrite Hh.
  specialize (IH (<[hash_key b := r]> handles) s2 (<[hash_key b := MkReadiness r h]> acc) Hok2 Hnd').
  destruct (readiness_of _ _ _ _ _ _ _ _ _) as [[acc' handles'] s'].
  destruct IH as (I1 & I2 & I3 & I4 & I5 & I6).
  { intros k x Hx. destruct (decide (hash_key b = k)) as [<-|Hne];
      [|rewrite lookup_insert_ne by done; by apply Hknown].
    rewrite lookup_insert_eq. f_equal. by apply Hsame, Hknown. }
  { intros b' Hb'. apply Hreg. by right. }
  split_and!; [done|congruence..| | |].
  - intros k Hk. rewrite I4 by set_solver. rewrite lookup_insert_ne by set_solver. done.
  - intros k r' Hk Hkr'. destruct (I5 k r') as [Hk' Hl']; [set_solver|rewrite lookup_insert_ne by set_solver; done|].
    split; [done|]. rewrite Hl'. apply (Hoth k); [set_solver|done].
  - intros b' [->|Hb']%elem_of_cons.
    + destruct (I5 (hash_key b) r) as [Hk' Hl']; [done|apply lookup_insert_eq|].
      exists r, h. split_and!; [|done..|congruence]. rewrite I4 by done. apply lookup_insert_eq.
    + assert (hash_key b <> hash_key b') as Hne.
      { intros Heq. apply Hnb. rewrite Heq. apply list_elem_of_fmap. by exists b'. }
      destruct (I6 b' Hb') as (r' & h' & Ha & Hha & Hrh & Hl). exists r', h'. split_and!; [done..|].
      rewrite Hl. unfold wanted. destruct (enablement !! hash_key b'); [done|].
      rewrite lookup_insert_ne by done. destruct (handles !! hash_key b') eqn:Hb2; [|done].
      by apply (Hoth (hash_key b')).
Qed.

(** The handles that survive: those of snapshots still in use. *)
Lemma filtered_handles_ok (v : @Backends Ext) held s :
  view_ok v s ->
  let handles := filter (fun kr => kr.2 ∈ alive v held) (enablement_handles v) in
  handles_ok handles s /\
  (forall k x, v_readiness v !! k = Some x -> handles !! k = Some (enabled_flag x)).
Proof.
  intros [[Hf Hc Hi] Hk]. cbn. split.
  - split; [done|..].
    + intros k r [Hr _]%map_lookup_filter_Some. by eapply Hc.
    + intros k k' r [Hr _]%map_lookup_filter_Some [Hr' _]%map_lookup_filter_Some. by eapply Hi.
  - intros k x Hx. apply map_lookup_filter_Some. split; [by apply Hk|]. cbn.
    unfold alive. apply elem_of_union_l. unfold snapshot_flags.
    rewrite elem_of_list_to_set. apply list_elem_of_fmap. exists (k, x). split; [done|].
    by apply elem_of_map_to_list.
Qed.

Lemma views_insert_elem (vs : list (Z * list Bk)) id bs b :
  b ∈ bs -> b ∈ concat (map snd (views_insert vs id bs)).
Proof.
  intros Hb. induction vs as [|[i x] vs IH]; cbn [views_insert].
  - cbn. by apply elem_of_app; left.
  - destruct (id <? i); [|destruct (id =? i)]; cbn; apply elem_of_app; [by left..|by right].
Qed.

End readiness.

(** Readiness after discovery.  When the membership of a view changes, exactly
    its new backends can be ready; each is, if its health cell in the registry is
    healthy and it is enabled: as the discovery says, else as it was enabled or
    disabled by hand before (also if it had been removed, as long as some selector
    still used it), else by default.  While the selector is rebuilt the old and
    the new backends are both known. *)
Theorem update_readiness {Ext} (hash_key equivalence_key : Backend Ext -> Z) sort_unstable v g s held
    bs enablement :
  (forall l, sort_unstable l ≡ₚ l) -> registry_ok g s -> view_ok v s -> NoDup (map hash_key bs) ->
  backend_list_eqb (v_backends v) bs = false ->
  let '(v', g', s', u) := do_update hash_key equivalence_key sort_unstable v g s held bs enablement in
  view_ok v' s' /\ get_backend v' = bs /\
  (forall b, b ∈ bs -> exists h, health_map g' !! equivalence_key b = Some h /\
     backends_ready hash_key v' s' b =
     wanted enablement (filter (fun kr => kr.2 ∈ alive v held) (enablement_handles v)) s (hash_key b)
     && health_ready s' h) /\
  (forall b, hash_key b ∉ map hash_key bs -> backends_ready hash_key v' s' b = false) /\
  match u with
  | Some u => u_backends u = bs /\ u_readiness u = v_readiness v' /\
      forall k, is_Some (u_transition u !! k) <->
        is_Some (v_readiness v !! k) \/ is_Some (v_readiness v' !! k)
  | None => False
  end.
Proof.
  intros Hsort Hreg Hv Hnd Hch. unfold do_update. rewrite Hch. cbn [negb].
  pose proof (update_view_ok equivalence_key sort_unstable Hsort g s (view_id v) bs Hreg) as Hu.
  destruct (update_view _ _ _ _ _ _) as [g' s1].
  destruct Hu as (U1 & U2 & U3 & _ & (vs & U4) & _ & _ & U7 & _ & _).
  destruct (filtered_handles_ok v held s Hv) as [Hh Hk]. set (handles := filter _ _) in *.
  assert (handles_ok handles s1) as Hh1.
  { destruct Hh as [F C I]. split; [|rewrite U2; done|done]. intros r. rewrite U2, U3. apply F. }
  pose proof (readiness_of_spec hash_key equivalence_key v (health_map g') enablement bs handles s1 ∅
    Hh1 Hnd Hk) as Hr.
  destruct (readiness_of _ _ _ _ _ _ _ _ _) as [[r handles'] s'].
  destruct Hr as (R1 & R2 & R3 & R4 & R5 & R6).
  { intros b Hb. apply U7. rewrite U4. exists b. split; [by apply views_insert_elem|done]. }
  assert (forall k, k ∉ map hash_key bs -> r !! k = None) as Hout
    by (intros k Hk'; by rewrite R4, lookup_empty).
  split_and!; [split; [done|]|done|..]; cbn.
  - intros k x Hx. destruct (decide (k ∈ map hash_key bs)) as [Hin|Hin]; [|by rewrite Hout in Hx].
    apply list_elem_of_fmap in Hin as (b & -> & Hb).
    destruct (R6 b Hb) as (fr & h & Ha & Hha & _). rewrite Ha in Hx. injection Hx as <-. exact Hha.
  - intros b Hb. destruct (R6 b Hb) as (fr & h & Ha & Hha & Hrh & Hl). exists h. split; [done|].
    unfold backends_ready, snapshot_ready, snapshot_get. cbn. rewrite Ha. unfold readiness_ready.
    cbn. rewrite Hl. f_equal. unfold wanted, load_flag. by rewrite U2.
  - intros b Hb. unfold backends_ready, snapshot_ready, snapshot_get. cbn. by rewrite Hout.
  - done.
  - done.
  - intros k. rewrite lookup_union_is_Some. tauto.
Qed.

Lemma update_readiness_witness :
  let v := MkBackends 1 [] ∅ 0 ∅ in
  let '(v', g', s', _) := do_update bweight bweight (fun l => l) v registry_new (MkStore ∅ 0 ∅ 0) []
    [backend_at 1; backend_at 2] {[2 := false]} in
  backends_ready bweight v' s' (backend_at 1) = true /\
  backends_ready bweight v' s' (backend_at 2) = false.
Proof.
  intros v.
  pose proof (update_readiness bweight bweight (fun l => l) v registry_new (MkStore ∅ 0 ∅ 0) []
    [backend_at 1; backend_at 2] {[2 := false]} (fun l => Permutation_refl l)
    ltac:(split; cbn; [done|intros k r; by rewrite lookup_empty..])
    ltac:(split; [split|]; cbn; [done|intros k r; by rewrite lookup_empty..])
    ltac:(cbn; repeat constructor; set_solver) eq_refl) as Hu.
  destruct (do_update _ _ _ _ _ _ _ _ _) as [[[v' g'] s'] u] eqn:Hd.
  destruct Hu as (_ & _ & Hr & _).
  destruct (Hr (backend_at 1)) as (h & Hh & ->); [by left|].
  destruct (Hr (backend_at 2)) as (h2 & Hh2 & ->); [right; by left|].
  vm_compute in Hd. injection Hd as <- <- <- <-. vm_compute in Hh, Hh2.
  injection Hh as <-. injection Hh2 as <-. vm_compute. done.
Defined.
