(* ===== verification/Interleave.v ===== *)
(** * Programs of atomic steps

    Operations that several threads run at once are programs: trees of atomic
    steps on a shared state.  A program can be run alone, or its steps can be
    interleaved with those of other programs.  Every program is finite, so it
    ends in every interleaving.

    Threads own resources: what a state and all threads own together is
    conserved by every step of every interleaving if each program only moves
    resources between itself and the state. *)

From stdpp Require Import base list list_tactics numbers.
From S2P Require Import Prelude.

(** ** Programs *)

Inductive prog (W A : Type) : Type :=
  | Done (a : A)
  | Step (B : Type) (f : W -> B * W) (k : B -> prog W A).
Arguments Done {W A} a.
Arguments Step {W A B} f k.

Fixpoint pbind {W A B} (p : prog W A) (k : A -> prog W B) : prog W B :=
  match p with
  | Done a => k a
  | Step f j => Step f (fun b => pbind (j b) k)
  end.

(** One atomic step. *)
Definition atomic {W A} (f : W -> A * W) : prog W A := Step f Done.

Declare Scope prog_scope.
Delimit Scope prog_scope with prog.
Notation "x <~ p ;; q" := (pbind p (fun x => q))
  (at level 100, p at next level, right associativity) : prog_scope.
Notation "p ;;; q" := (pbind p (fun _ => q)) (at level 100, right associativity) : prog_scope.

(** A [for] loop whose body may end it with a result. *)
Fixpoint for_until {W A} (n : nat) (body : prog W (option A)) (last : prog W A) : prog W A :=
  match n with
  | O => last
  | S n => pbind body (fun r => match r with Some a => Done a | None => for_until n body last end)
  end.

(** A [for] loop over a list. *)
Fixpoint for_each {W A} (l : list A) (body : A -> prog W unit) : prog W unit :=
  match l with [] => Done tt | a :: l => pbind (body a) (fun _ => for_each l body) end.

(** ** Alone *)

Fixpoint prun {W A} (p : prog W A) (w : W) : A * W :=
  match p with
  | Done a => (a, w)
  | Step f k => let (b, w') := f w in prun (k b) w'
  end.

Lemma prun_bind {W A B} (p : prog W A) (k : A -> prog W B) w :
  prun (pbind p k) w = let (a, w') := prun p w in prun (k a) w'.
Proof.
  revert w. induction p as [a|C f j IH]; intros w; simpl; [done|]. destruct (f w) as [c w']. apply IH.
Qed.

Lemma pbind_assoc {W A B C} (p : prog W A) (k : A -> prog W B) (j : B -> prog W C) w :
  prun (pbind (pbind p k) j) w = prun (pbind p (fun a => pbind (k a) j)) w.
Proof. rewrite !prun_bind. destruct (prun p w). by rewrite prun_bind. Qed.

Lemma prun_atomic {W A} (f : W -> A * W) w : prun (atomic f) w = f w.
Proof. simpl. by destruct (f w). Qed.

(** ** Interleaved *)

Lemma concat_insert {R} (hs : list (list R)) i h h' : hs !! i = Some h ->
  exists r, concat hs ≡ₚ h ++ r /\ concat (<[i := h']> hs) ≡ₚ h' ++ r.
Proof.
  revert i. induction hs as [|x hs IH]; intros [|i] H; simplify_eq/=; [by exists (concat hs)|].
  destruct (IH i H) as (r & H1 & H2). exists (x ++ r). rewrite H1, H2. split; solve_Permutation.
Qed.

Section threads.
Context {W A : Type}.

(** The thread chosen takes one step; one that has ended does nothing. *)
Definition tstep (i : nat) (c : list (prog W A) * W) : list (prog W A) * W :=
  match fst c !! i with
  | Some (Step f k) => let (b, w') := f (snd c) in (<[i := k b]> (fst c), w')
  | _ => c
  end.

Fixpoint interleave (schedule : list nat) (c : list (prog W A) * W) : list (prog W A) * W :=
  match schedule with [] => c | i :: schedule => interleave schedule (tstep i c) end.

(** ** Ownership *)

Context {R : Type}.
(** What the state owns. *)
Variable owned : W -> list R.
(** What holds of the state between steps. *)
Variable inv : W -> Prop.
(** How the state can develop. *)
Variable later : W -> W -> Prop.
Context `{!PreOrder later}.

(** A program with the resources [h], started in [w0] or later, keeps the
    invariant, lets the state develop and only moves resources. *)
Fixpoint moves {B} (w0 : W) (p : prog W B) (h : list R) (post : W -> B -> list R -> Prop) : Prop :=
  match p with
  | Done b => forall w, later w0 w -> post w b h
  | Step f k => forall w, later w0 w -> inv w ->
      let (b, w') := f w in
      inv w' /\ later w w' /\ exists h', owned w' ++ h' ≡ₚ owned w ++ h /\ moves w' (k b) h' post
  end.

Lemma moves_later {B} (p : prog W B) w0 w1 h post : moves w0 p h post -> later w0 w1 -> moves w1 p h post.
Proof.
  destruct p as [b|C f k]; simpl; intros Hp Hl; [intros w Hw|intros w Hw]; apply Hp; by transitivity w1.
Qed.

Lemma moves_done {B} (b : B) w0 h post : (forall w, later w0 w -> post w b h) -> moves w0 (Done b) h post.
Proof. done. Qed.

Lemma moves_bind {B C} (p : prog W B) (k : B -> prog W C) w0 h post post' :
  moves w0 p h post -> (forall w b h, later w0 w -> post w b h -> moves w (k b) h post') ->
  moves w0 (pbind p k) h post'.
Proof.
  revert w0 h. induction p as [b|D f j IH]; intros w0 h Hp Hk; simpl in *; [by apply Hk; [done|apply Hp]|].
  intros w Hl Hw. specialize (Hp w Hl Hw). destruct (f w) as [d w']. destruct Hp as (? & ? & h' & ? & ?).
  split; [done|]. split; [done|]. exists h'. split; [done|]. apply IH; [done|].
  intros w2 b h2 Hl2. apply Hk. transitivity w; [done|]. by transitivity w'.
Qed.

Lemma moves_atomic {B} (f : W -> B * W) w0 h (post : W -> B -> list R -> Prop) :
  (forall w, later w0 w -> inv w -> inv (snd (f w)) /\ later w (snd (f w)) /\
     exists h', owned (snd (f w)) ++ h' ≡ₚ owned w ++ h /\ forall w2, later (snd (f w)) w2 -> post w2 (fst (f w)) h') ->
  moves w0 (atomic f) h post.
Proof. intros H w Hl Hw. specialize (H w Hl Hw). by destruct (f w). Qed.

Lemma moves_mono {B} (p : prog W B) : forall w0 h (post post' : W -> B -> list R -> Prop), moves w0 p h post ->
  (forall w b h, post w b h -> post' w b h) -> moves w0 p h post'.
Proof.
  induction p as [b|D g j IH]; intros w0 h post post' Hp Himp; simpl in *; [by eauto|].
  intros w Hl Hw. specialize (Hp w Hl Hw). destruct (g w) as [d w']. destruct Hp as (? & ? & h' & ? & ?).
  split; [done|]. split; [done|]. exists h'. split; [done|]. by eapply IH.
Qed.

(** What is not needed is kept. *)
Lemma moves_frame {B} (p : prog W B) f : forall w0 h (post : W -> B -> list R -> Prop), moves w0 p h post ->
  moves w0 p (h ++ f) (fun w b hf => exists h', hf = h' ++ f /\ post w b h').
Proof.
  induction p as [b|D g j IH]; intros w0 h post Hp; simpl in *.
  - intros w Hw. exists h. split; [done|]. by apply Hp.
  - intros w Hl Hw. specialize (Hp w Hl Hw). destruct (g w) as [d w']. destruct Hp as (? & ? & h' & Hh & ?).
    split; [done|]. split; [done|]. exists (h' ++ f). split; [by rewrite !(assoc_L (++)), Hh|]. by apply IH.
Qed.

(** A program run alone. *)
Lemma moves_prun {B} (p : prog W B) : forall w0 h (post : W -> B -> list R -> Prop), moves w0 p h post -> inv w0 ->
  let (b, w) := prun p w0 in inv w /\ later w0 w /\ exists h', owned w ++ h' ≡ₚ owned w0 ++ h /\ post w b h'.
Proof.
  induction p as [b|D g j IH]; intros w0 h post Hp Hw; simpl in *.
  - split; [done|]. split; [done|]. exists h. split; [done|]. by apply Hp.
  - specialize (Hp w0 ltac:(done) Hw). destruct (g w0) as [d w']. destruct Hp as (Hw' & Hl & h' & Hh & Hm).
    specialize (IH d w' h' post Hm Hw'). destruct (prun (j d) w') as [b w]. destruct IH as (? & ? & h2 & Hh2 & ?).
    split; [done|]. split; [by transitivity w'|]. exists h2. split; [by rewrite Hh2|done].
Qed.

(** The loops. *)
Lemma moves_for_until {B} n (body : prog W (option B)) last w0 h (post : W -> B -> list R -> Prop) :
  (forall w, later w0 w -> moves w body h (fun w r h' => match r with Some b => forall w', later w w' -> post w' b h' | None => h' = h end)) ->
  (forall w, later w0 w -> moves w last h post) -> moves w0 (for_until n body last) h post.
Proof.
  intros Hb Hl. assert (Hall : forall w, later w0 w -> moves w (for_until n body last) h post); [|by apply Hall].
  induction n as [|n IH]; intros w Hw; simpl; [by apply Hl|]. eapply moves_bind; [by apply Hb|].
  intros w' [b|] h' Hw'; simpl; [done|]. intros ->. apply IH. by transitivity w.
Qed.

Lemma moves_for_each {B} (l : list B) body w0 h :
  (forall w b, later w0 w -> moves w (body b) h (fun _ _ h' => h' = h)) ->
  moves w0 (for_each l body) h (fun _ _ h' => h' = h).
Proof.
  intros Hb. assert (Hall : forall w, later w0 w -> moves w (for_each l body) h (fun _ _ h' => h' = h)); [|by apply Hall].
  induction l as [|b l IH]; intros w Hw; simpl; [done|]. eapply moves_bind; [by apply Hb|].
  intros w' _ h' Hw' ->. apply IH. by transitivity w.
Qed.

(** At its end a thread has given all away. *)
Definition spent (_ : W) (_ : A) (h : list R) : Prop := h = [].

(** The invariant holds and nothing is lost or doubled, whatever the schedule;
    what is neither given away nor in the state is in the hands of a thread
    that has not ended. *)
Theorem interleave_conserves ps hs w schedule :
  inv w -> Forall2 (fun p h => moves w p h spent) ps hs ->
  let (ps', w') := interleave schedule (ps, w) in
  inv w' /\ exists hs', Forall2 (fun p h => moves w' p h spent) ps' hs' /\
    owned w' ++ concat hs' ≡ₚ owned w ++ concat hs.
Proof.
  revert ps hs w. induction schedule as [|i schedule IH]; intros ps hs w Hw Hps; simpl.
  { split; [done|]. by exists hs. }
  unfold tstep. simpl. destruct (ps !! i) as [[a|B f k]|] eqn:Hi; [by apply IH| |by apply IH].
  destruct (Forall2_lookup_l _ _ _ _ _ Hps Hi) as (h & Hh & Hm). specialize (Hm w ltac:(done) Hw).
  destruct (f w) as [b w']. destruct Hm as (Hw' & Hl & h' & Hperm & Hm).
  destruct (concat_insert hs i h h' Hh) as (r & Hr & Hr').
  assert (Hps' : Forall2 (fun p h => moves w' p h spent) (<[i := k b]> ps) (<[i := h']> hs)).
  { apply Forall2_insert; [|done]. eapply Forall2_impl; [|exact Hps]. simpl. intros p0 h0 Hp0. by apply (moves_later p0 w w'). }
  specialize (IH _ _ w' Hw' Hps').
  destruct (interleave schedule (<[i := k b]> ps, w')) as [ps' w'']. destruct IH as (? & hs' & ? & Hp).
  split; [done|]. exists hs'. split; [done|].
  by rewrite Hp, Hr', Hr, !(assoc_L (++)), Hperm.
Qed.

(** Threads that have ended hold nothing. *)
Definition ended (ps : list (prog W A)) : Prop := Forall (fun p => exists a, p = Done a) ps.

Lemma ended_spent w ps hs : ended ps -> Forall2 (fun p h => moves w p h spent) ps hs -> concat hs = [].
Proof.
  intros He Hps. induction Hps as [|p h ps hs Hp Hps IH]; [done|]. pose proof (Forall_inv He) as [a ->].
  apply Forall_inv_tail in He. simpl. by rewrite (Hp w ltac:(done)), (IH He).
Qed.

End threads.
