(* ===== verification/Pool.v ===== *)
(** * The connection pool

    [src/pingora-pool/src/lru.rs] and [src/pingora-pool/src/connection.rs]: idle
    connections by group, the shared bound on their number and the watchers of
    idle connections.

    Operations are programs of atomic steps ([Interleave]): an access to an
    atomic, to the lock-free queue, or a section under one lock is a step.  What
    is done under a guard of the map of pools that excludes other writers is one
    step; so is the loop of [evict_lru], which holds the locks of all shards.
    The lock [hot_queue_remove_lock] only excludes interleavings, and is left
    out.  [Arc]s, [Notify]s and [oneshot] channels are addresses in the state;
    the connections handed out and the ones closed by a drop are recorded.

    The crates [lru], [crossbeam_queue] and [dashmap] are interfaces; so are the
    hash of an identifier and the order of a [HashMap]. *)

From stdpp Require Import base list numbers gmap fin_maps.
From Stdlib Require Import ZArith Lia.
From S2P Require Import Prelude Interleave.
Local Open Scope Z_scope.
Local Open Scope prog_scope.

(** ** The crates *)

(** [crossbeam_queue::ArrayQueue]: a bounded queue, its oldest element first. *)
Class ArrayQueueCrate (Q : Type -> Type) := {
  aq_new : forall {A}, nat -> Q A;
  aq_push : forall {A}, A -> Q A -> option A * Q A;
  aq_pop : forall {A}, Q A -> option A * Q A;
  aq_len : forall {A}, Q A -> nat;
  aq_is_empty : forall {A}, Q A -> bool;
  aq_list : forall {A}, Q A -> list A;
  aq_cap : forall {A}, Q A -> nat;
  aq_new_spec {A} n : aq_list (aq_new (A:=A) n) = [] /\ aq_cap (aq_new (A:=A) n) = n;
  aq_push_room {A} (a : A) q : (length (aq_list q) < aq_cap q)%nat ->
    fst (aq_push a q) = None /\ aq_list (snd (aq_push a q)) = aq_list q ++ [a] /\
    aq_cap (snd (aq_push a q)) = aq_cap q;
  aq_push_full {A} (a : A) q : (aq_cap q <= length (aq_list q))%nat -> aq_push a q = (Some a, q);
  aq_pop_spec {A} (q : Q A) :
    fst (aq_pop q) = head (aq_list q) /\ aq_list (snd (aq_pop q)) = tail (aq_list q) /\
    aq_cap (snd (aq_pop q)) = aq_cap q;
  aq_len_spec {A} (q : Q A) : aq_len q = length (aq_list q);
  aq_is_empty_spec {A} (q : Q A) : aq_is_empty q = true <-> aq_list q = []
}.

Fixpoint assoc_get {A} (k : Z) (l : list (Z * A)) : option A :=
  match l with [] => None | (i, a) :: l => if i =? k then Some a else assoc_get k l end.

(** [lru::LruCache] without a bound, its least recently used entry first. *)
Class LruCrate (L : Type -> Type) := {
  lc_unbounded : forall {A}, L A;
  lc_put : forall {A}, Z -> A -> L A -> option A * L A;
  lc_pop : forall {A}, Z -> L A -> option A * L A;
  lc_peek_lru : forall {A}, L A -> option (Z * A);
  lc_pop_lru : forall {A}, L A -> option (Z * A) * L A;
  lc_iter : forall {A}, L A -> list (Z * A);
  lc_clear : forall {A}, L A -> L A;
  lc_list : forall {A}, L A -> list (Z * A);
  lc_unbounded_spec {A} : lc_list (lc_unbounded (A:=A)) = [];
  lc_put_spec {A} k (a : A) l :
    fst (lc_put k a l) = assoc_get k (lc_list l) /\
    lc_list (snd (lc_put k a l)) = filter (fun e => fst e <> k) (lc_list l) ++ [(k, a)];
  lc_pop_spec {A} k (l : L A) :
    fst (lc_pop k l) = assoc_get k (lc_list l) /\
    lc_list (snd (lc_pop k l)) = filter (fun e => fst e <> k) (lc_list l);
  lc_peek_lru_spec {A} (l : L A) : lc_peek_lru l = head (lc_list l);
  lc_pop_lru_spec {A} (l : L A) :
    fst (lc_pop_lru l) = head (lc_list l) /\ lc_list (snd (lc_pop_lru l)) = tail (lc_list l);
  lc_iter_spec {A} (l : L A) : lc_iter l ≡ₚ lc_list l;
  lc_clear_spec {A} (l : L A) : lc_list (lc_clear l) = []
}.

Module Pool.

(** ** Data *)

(** [oneshot::channel], as its receiver sees it. *)
Inductive Use := Waiting | Sent | SenderDropped.

Record ConnectionMeta := MkMeta { key : Z; id : Z }.
Record PoolConnection (S : Type) := MkPoolConnection { notify_use : nat; connection : S }.
#[global] Arguments MkPoolConnection {S} notify_use connection.
#[global] Arguments notify_use {S} p.
#[global] Arguments connection {S} p.
Record Node := MkNode { close_notifier : nat; meta : ConnectionMeta; order : Z }.

Definition N_SHARDS : Z := 16.
Definition HOT_QUEUE_SIZE : nat := 16.

Section pool.
Context {Q : Type -> Type} {AQ : ArrayQueueCrate Q} {L : Type -> Type} {LC : LruCrate L}.
Context {D : Type -> Type} `{DF : FMap D, DL : !∀ A, Lookup Z A (D A), DE : !∀ A, Empty (D A)}.
Context `{DP : !∀ A, PartialAlter Z A (D A), DO : !OMap D, DM : !Merge D, DFo : !∀ A, MapFold Z A (D A)} `{FM : !FinMap Z D}.
Context {S : Type}.
(** [DefaultHasher] on an identifier, and the first key of a [HashMap]'s iteration. *)
Variable hash : Z -> Z.
Variable any_key : gmap Z (PoolConnection S) -> option Z.

Record PoolNode := MkPoolNode { connections : gmap Z (PoolConnection S); hot_queue : Q (Z * PoolConnection S) }.

Record Lru := MkLru { lrus : list (L Node); l_len : Z; l_order : Z; l_size : Z; l_drain : bool }.

Record ConnectionPool := MkPool {
  nodes : list PoolNode;
  pools : D nat;
  lru : Lru;
  notifiers : list bool;
  uses : list Use;
  given : list S;
  closed : list S
}.

Notation P := (prog ConnectionPool).

Definition set_nodes x w := MkPool x (pools w) (lru w) (notifiers w) (uses w) (given w) (closed w).
Definition set_pools x w := MkPool (nodes w) x (lru w) (notifiers w) (uses w) (given w) (closed w).
Definition set_lru x w := MkPool (nodes w) (pools w) x (notifiers w) (uses w) (given w) (closed w).
Definition set_notifiers x w := MkPool (nodes w) (pools w) (lru w) x (uses w) (given w) (closed w).
Definition set_uses x w := MkPool (nodes w) (pools w) (lru w) (notifiers w) x (given w) (closed w).
Definition set_given x w := MkPool (nodes w) (pools w) (lru w) (notifiers w) (uses w) x (closed w).
Definition set_closed x w := MkPool (nodes w) (pools w) (lru w) (notifiers w) (uses w) (given w) x.

Definition set_lrus x l := MkLru x (l_len l) (l_order l) (l_size l) (l_drain l).
Definition set_len x l := MkLru (lrus l) x (l_order l) (l_size l) (l_drain l).
Definition set_order x l := MkLru (lrus l) (l_len l) x (l_size l) (l_drain l).
Definition set_drain x l := MkLru (lrus l) (l_len l) (l_order l) (l_size l) x.

(** *** Notifications *)

Definition new_notifier (w : ConnectionPool) : nat * ConnectionPool :=
  (length (notifiers w), set_notifiers (notifiers w ++ [false]) w).
Definition notify_one (n : nat) (w : ConnectionPool) : ConnectionPool :=
  set_notifiers (<[n := true]> (notifiers w)) w.
(** One poll of [notified()]: it takes the permit. *)
Definition poll_notified (n : nat) (w : ConnectionPool) : bool * ConnectionPool :=
  (default false (notifiers w !! n), set_notifiers (<[n := false]> (notifiers w)) w).

Definition new_oneshot (w : ConnectionPool) : nat * ConnectionPool :=
  (length (uses w), set_uses (uses w ++ [Waiting]) w).
Definition poll_use (u : nat) (w : ConnectionPool) : Use * ConnectionPool :=
  (default SenderDropped (uses w !! u), w).

Definition release (c : PoolConnection S) (w : ConnectionPool) : S * ConnectionPool :=
  (connection c,
   set_given (given w ++ [connection c]) (set_uses (<[notify_use c := Sent]> (uses w)) w)).

(** Dropping it drops the sender and closes the connection. *)
Definition drop_connection (c : PoolConnection S) (w : ConnectionPool) : ConnectionPool :=
  set_closed (closed w ++ [connection c]) (set_uses (<[notify_use c := SenderDropped]> (uses w)) w).
Definition drop_option (c : option (PoolConnection S)) (w : ConnectionPool) : ConnectionPool :=
  match c with Some c => drop_connection c w | None => w end.

(** ** [PoolNode] *)

Definition node_new : PoolNode := MkPoolNode ∅ (aq_new HOT_QUEUE_SIZE).

(** A step on the node an [Arc] points to. *)
Definition the_node (a : nat) (w : ConnectionPool) : PoolNode := default node_new (nodes w !! a).
Definition set_node (a : nat) (n : PoolNode) (w : ConnectionPool) : ConnectionPool :=
  set_nodes (<[a := n]> (nodes w)) w.

Definition queue_push (a : nat) (e : Z * PoolConnection S) (w : ConnectionPool)
    : option (Z * PoolConnection S) * ConnectionPool :=
  let n := the_node a w in
  let (r, q) := aq_push e (hot_queue n) in (r, set_node a (MkPoolNode (connections n) q) w).
Definition queue_pop (a : nat) (w : ConnectionPool) : option (Z * PoolConnection S) * ConnectionPool :=
  let n := the_node a w in
  let (r, q) := aq_pop (hot_queue n) in (r, set_node a (MkPoolNode (connections n) q) w).
Definition queue_len (a : nat) (w : ConnectionPool) : nat * ConnectionPool :=
  (aq_len (hot_queue (the_node a w)), w).
Definition queue_is_empty (a : nat) (w : ConnectionPool) : bool * ConnectionPool :=
  (aq_is_empty (hot_queue (the_node a w)), w).

Definition table_remove (a : nat) (i : Z) (w : ConnectionPool) : option (PoolConnection S) * ConnectionPool :=
  let n := the_node a w in
  (connections n !! i, set_node a (MkPoolNode (delete i (connections n)) (hot_queue n)) w).
(** A connection it replaces is dropped. *)
Definition table_insert (a : nat) (e : Z * PoolConnection S) (w : ConnectionPool) : unit * ConnectionPool :=
  let n := the_node a w in
  (tt, drop_option (connections n !! fst e)
         (set_node a (MkPoolNode (<[fst e := snd e]> (connections n)) (hot_queue n)) w)).
Definition table_is_empty (a : nat) (w : ConnectionPool) : bool * ConnectionPool :=
  (bool_decide (connections (the_node a w) = ∅), w).
(** The key was just found: the [unwrap] does not fail. *)
Definition table_any (a : nat) (w : ConnectionPool) : option (Z * PoolConnection S) * ConnectionPool :=
  match any_key (connections (the_node a w)) with
  | None => (None, w)
  | Some i => let (c, w) := table_remove a i w in (c ← c; Some (i, c), w)
  end.

Definition get_any (a : nat) : P (option (Z * PoolConnection S)) :=
  hot_conn <~ atomic (queue_pop a);;
  match hot_conn with
  | Some _ => Done hot_conn
  | None => atomic (table_any a)
  end.

Definition node_insert (a : nat) (i : Z) (conn : PoolConnection S) : P unit :=
  r <~ atomic (queue_push a (i, conn));;
  match r with
  | None => Done tt
  | Some node => atomic (table_insert a node)
  end.

Definition is_empty (a : nat) : P bool :=
  e <~ atomic (queue_is_empty a);;
  if e then atomic (table_is_empty a) else Done false.

(** One round of the loop over the queue. *)
Definition remove_round (a : nat) (i : Z) : P (option (option (PoolConnection S))) :=
  popped <~ atomic (queue_pop a);;
  match popped with
  | Some (conn_id, conn) =>
      if conn_id =? i then Done (Some (Some conn))
      else node_insert a conn_id conn;;; Done None
  | None => Done (Some None)
  end.

Definition remove (a : nat) (i : Z) : P (option (PoolConnection S)) :=
  removed <~ atomic (table_remove a i);;
  match removed with
  | Some _ => Done removed
  | None =>
      max_len <~ atomic (queue_len a);;
      for_until max_len (remove_round a i) (Done None)
  end.

(** ** [Lru] *)

Definition lru_new (size : Z) : Lru := MkLru (replicate 16 lc_unbounded) 0 0 size false.

Definition shard (i : Z) : nat := Z.to_nat (hash i mod N_SHARDS).
Definition the_shard (l : Lru) (s : nat) : L Node := default lc_unbounded (lrus l !! s).

Definition evict_headroom (size : Z) : Z := Z.min N_SHARDS (size / 4).

(** The shard whose oldest entry is the oldest, and that entry's order. *)
Fixpoint oldest_from (index : nat) (ls : list (L Node)) (oldest : option (nat * Z)) : option (nat * Z) :=
  match ls with
  | [] => oldest
  | l :: ls =>
      let oldest :=
        match lc_peek_lru l with
        | Some (_, node) =>
            match oldest with
            | None => Some (index, order node)
            | Some (_, o) => if order node <? o then Some (index, order node) else oldest
            end
        | None => oldest
        end in
      oldest_from (Datatypes.S index) ls oldest
  end.

(** The loop under all locks; every round lowers the length. *)
Fixpoint evict_loop (fuel : nat) (drain_target : Z) (w : ConnectionPool) (metas : list ConnectionMeta)
    : list ConnectionMeta * ConnectionPool :=
  match fuel with
  | O => (metas, w)
  | Datatypes.S fuel =>
      if l_len (lru w) <=? drain_target then (metas, w)
      else
        match oldest_from 0 (lrus (lru w)) None with
        | None => (metas, w)
        | Some (index, _) =>
            let (popped, l) := lc_pop_lru (the_shard (lru w) index) in
            match popped with
            | None => (metas, w)
            | Some (_, evicted) =>
                let w := set_lru (set_len (l_len (lru w) - 1) (set_lrus (<[index := l]> (lrus (lru w))) (lru w))) w in
                evict_loop fuel drain_target (notify_one (close_notifier evicted) w) (metas ++ [meta evicted])
            end
        end
  end.

Definition evict_locked (w : ConnectionPool) : list ConnectionMeta * ConnectionPool :=
  let size := l_size (lru w) in
  evict_loop (Z.to_nat (l_len (lru w))) (saturating_sub size (evict_headroom size)) w [].

Definition over_size (w : ConnectionPool) : bool * ConnectionPool := (l_size (lru w) <? l_len (lru w), w).

Definition evict_lru : P (list ConnectionMeta) :=
  over <~ atomic over_size;;
  if over then atomic evict_locked else Done [].

Definition fetch_add_order (w : ConnectionPool) : Z * ConnectionPool :=
  (l_order (lru w), set_lru (set_order (wadd (l_order (lru w)) 1) (lru w)) w).
(** Whether the new length is over the size; the sum after [fetch_add] wraps in
    a release build. *)
Definition fetch_add_len (w : ConnectionPool) : bool * ConnectionPool :=
  (l_size (lru w) <? wadd (l_len (lru w)) 1, set_lru (set_len (wadd (l_len (lru w)) 1) (lru w)) w).
Definition fetch_sub_len (w : ConnectionPool) : unit * ConnectionPool :=
  (tt, set_lru (set_len (wsub (l_len (lru w)) 1) (lru w)) w).
Definition shard_put (i : Z) (node : Node) (w : ConnectionPool) : option Node * ConnectionPool :=
  let (old, l) := lc_put i node (the_shard (lru w) (shard i)) in
  (old, set_lru (set_lrus (<[shard i := l]> (lrus (lru w))) (lru w)) w).
Definition shard_pop (i : Z) (w : ConnectionPool) : option Node * ConnectionPool :=
  let (old, l) := lc_pop i (the_shard (lru w) (shard i)) in
  (old, set_lru (set_lrus (<[shard i := l]> (lrus (lru w))) (lru w)) w).

Definition lru_put (i : Z) (value : Node) : P (list ConnectionMeta) :=
  drain <~ atomic (fun w => (l_drain (lru w), w));;
  if drain then atomic (fun w => (tt, notify_one (close_notifier value) w));;; Done []
  else
    o <~ atomic fetch_add_order;;
    replaced <~ atomic (shard_put i (MkNode (close_notifier value) (meta value) o));;
    match replaced with
    | Some _ => Done []
    | None =>
        over <~ atomic fetch_add_len;;
        if over then evict_lru else Done []
    end.

Definition lru_add (i : Z) (m : ConnectionMeta) : P (nat * list ConnectionMeta) :=
  notifier <~ atomic new_notifier;;
  evicted <~ lru_put i (MkNode notifier m 0);;
  Done (notifier, evicted).

Definition lru_pop (i : Z) : P (option Node) :=
  popped <~ atomic (shard_pop i);;
  match popped with
  | Some _ => atomic fetch_sub_len;;; Done popped
  | None => Done None
  end.

Definition drain_shard (s : nat) (w : ConnectionPool) : unit * ConnectionPool :=
  let l := the_shard (lru w) s in
  let w := fold_left (fun w e => notify_one (close_notifier (snd e)) w) (lc_iter l) w in
  (tt, set_lru (set_lrus (<[s := lc_clear l]> (lrus (lru w))) (lru w)) w).
Definition drain : P unit :=
  atomic (fun w => (tt, set_lru (set_drain true (lru w)) w));;;
  for_each (seq 0 16) (fun s => atomic (drain_shard s));;;
  atomic (fun w => (tt, set_lru (set_len 0 (lru w)) w)).

(** ** [ConnectionPool] *)

Definition pool_new (size : Z) : ConnectionPool := MkPool [] ∅ (lru_new size) [] [] [] [].

Definition lookup_pool (k : Z) (w : ConnectionPool) : option nat * ConnectionPool := (pools w !! k, w).

(** [entry().or_insert_with()]. *)
Definition pool_entry (k : Z) (w : ConnectionPool) : nat * ConnectionPool :=
  match pools w !! k with
  | Some a => (a, w)
  | None =>
      let a := length (nodes w) in
      (a, set_pools (<[k := a]> (pools w)) (set_nodes (nodes w ++ [node_new]) w))
  end.

(** The guard of the entry is held over the insertion. *)
Definition insert_pool_connection (k i : Z) (c : PoolConnection S) : P unit :=
  atomic (fun w => let (a, w) := pool_entry k w in prun (node_insert a i c) w).

(** The predicate is evaluated under the guard. *)
Definition remove_if_empty (k : Z) (w : ConnectionPool) : unit * ConnectionPool :=
  match pools w !! k with
  | Some a =>
      let (e, w) := prun (is_empty a) w in
      (tt, if e then set_pools (delete k (pools w)) w else w)
  | None => (tt, w)
  end.

Definition try_remove_empty_node (k : Z) : P unit :=
  node <~ atomic (lookup_pool k);;
  match node with
  | Some a => e <~ is_empty a;; if e then atomic (remove_if_empty k) else Done tt
  | None => Done tt
  end.

Definition pop_evicted (m : ConnectionMeta) : P unit :=
  node <~ atomic (lookup_pool (key m));;
  match node with
  | None => Done tt
  | Some a =>
      r <~ remove a (id m);;
      atomic (fun w => (tt, drop_option r w));;;
      e <~ is_empty a;;
      if e then try_remove_empty_node (key m) else Done tt
  end.

Definition pop_closed (m : ConnectionMeta) : P unit :=
  pop_evicted m;;; lru_pop (id m);;; Done tt.

Definition get (k : Z) : P (option S) :=
  node <~ atomic (lookup_pool k);;
  match node with
  | None => Done None
  | Some a =>
      r <~ get_any a;;
      match r with
      | Some (i, c) =>
          lru_pop i;;;
          e <~ is_empty a;;
          (if e then try_remove_empty_node k else Done tt);;;
          s <~ atomic (release c);;
          Done (Some s)
      | None => try_remove_empty_node k;;; Done None
      end
  end.

Definition put (m : ConnectionMeta) (conn : S) : P (nat * nat) :=
  ne <~ lru_add (id m) m;;
  for_each (snd ne) pop_evicted;;;
  use <~ atomic new_oneshot;;
  insert_pool_connection (key m) (id m) (MkPoolConnection use conn);;;
  Done (fst ne, use).

(** ** Watchers of idle connections *)

(** [read_with_timeout]: the read is polled before the timer; [None] is pending. *)
Definition read_with_timeout (timeout : option Z) (read : option (Z + unit)) (elapsed : bool) : option (Z + unit) :=
  match read with
  | Some r => Some r
  | None => match timeout with Some _ => if elapsed then Some (inl 0) else None | None => None end
  end.

(** The first branch of both [select]s, and the second; [None] goes on. *)
Definition poll_taken (notify_evicted watch_use : nat) : P (option bool) :=
  u <~ atomic (poll_use watch_use);;
  match u with
  | Sent => Done (Some false)
  | SenderDropped => e <~ atomic (poll_notified notify_evicted);; Done (Some e)
  | Waiting =>
      e <~ atomic (poll_notified notify_evicted);;
      Done (if e then Some true else None)
  end.

(** One poll; [None] is pending. *)
Definition idle_poll (m : ConnectionMeta) (timeout : option Z) (notify_evicted watch_use : nat)
    (read : option (Z + unit)) (elapsed : bool) : P (option bool) :=
  t <~ poll_taken notify_evicted watch_use;;
  match t with
  | Some r => Done (Some r)
  | None =>
      match read_with_timeout timeout read elapsed with
      | None => Done None
      | Some _ => pop_closed m;;; Done (Some false)
      end
  end.

Definition idle_timeout (m : ConnectionMeta) (timeout : option Z) (notify_evicted watch_use : nat)
    (changed elapsed : bool) : P (option bool) :=
  t <~ poll_taken notify_evicted watch_use;;
  match t with
  | Some r => Done (Some r)
  | None =>
      if changed then pop_closed m;;; Done (Some false)
      else match timeout with
           | Some _ => if elapsed then pop_closed m;;; Done (Some false) else Done None
           | None => Done None
           end
  end.

End pool.

End Pool.
