(* ===== verification/PoolSpec.v ===== *)
(** * The connection pool: theorems on its use by one thread at a time

    Run one after the other, the operations of the pool implement a list of idle
    connections, the oldest first, that never gets longer than the size of the
    pool: what is put is found again under its group until it is taken, closed,
    or evicted because it is among the oldest.  The nodes of groups without a
    connection are removed. *)

From stdpp Require Import base list list_tactics numbers strings gmap fin_maps.
From Stdlib Require Import ZArith Lia Sorting.Sorted.
From S2P Require Import Prelude Interleave Pool.
Import Pool.
Local Open Scope Z_scope.

Section spec.
Context {Q : Type -> Type} {AQ : ArrayQueueCrate Q} {L : Type -> Type} {LC : LruCrate L}.
Context {D : Type -> Type} `{DF : FMap D, DL : !∀ A, Lookup Z A (D A), DE : !∀ A, Empty (D A)}.
Context `{DP : !∀ A, PartialAlter Z A (D A), DO : !OMap D, DM : !Merge D, DFo : !∀ A, MapFold Z A (D A)} `{FM : !FinMap Z D}.
Context {S : Type}.
Variable hash : Z -> Z.
Variable any_key : gmap Z (PoolConnection S) -> option Z.
Hypothesis any_key_none : forall m, any_key m = None -> m = ∅.
Hypothesis any_key_some : forall m i, any_key m = Some i -> is_Some (m !! i).

Notation W := (@ConnectionPool Q L D S).
Notation PoolNode := (@PoolNode Q S).
Notation PC := (PoolConnection S).
Implicit Types (w : W) (n : PoolNode).

(** ** Nodes *)

(** What a node holds. *)
Definition entries n : list (Z * PC) := map_to_list (connections n) ++ aq_list (hot_queue n).

Lemma set_node_twice a n1 n2 w : set_node a n2 (set_node a n1 w) = set_node a n2 w.
Proof. unfold set_node, set_nodes. simpl. by rewrite list_insert_insert_eq. Qed.

Lemma set_node_lookup a n n' w : nodes w !! a = Some n -> nodes (set_node a n' w) !! a = Some n'.
Proof. intros Ha. simpl. apply list_lookup_insert_eq. by eapply lookup_lt_Some. Qed.

Lemma the_node_eq a n w : nodes w !! a = Some n -> the_node a w = n.
Proof. unfold the_node. by intros ->. Qed.

Lemma node_insert_spec a i c n w :
  nodes w !! a = Some n -> i ∉ (entries n).*1 ->
  exists n', prun (node_insert a i c) w = (tt, set_node a n' w) /\ entries n' ≡ₚ (i, c) :: entries n /\
    (aq_list (hot_queue n') = aq_list (hot_queue n) ++ [(i, c)] \/
     aq_list (hot_queue n') = aq_list (hot_queue n)).
Proof.
  intros Ha Hi. unfold node_insert. rewrite prun_bind, prun_atomic. unfold queue_push.
  rewrite (the_node_eq _ _ _ Ha).
  destruct (decide (length (aq_list (hot_queue n)) < aq_cap (hot_queue n))%nat) as [Hlt|Hge].
  - destruct (aq_push_room (i, c) (hot_queue n) Hlt) as (Hp1 & Hp2 & _).
    destruct (aq_push (i, c) (hot_queue n)) as [r q]. simpl in *. subst r. simpl.
    eexists. split; [done|]. unfold entries. simpl. rewrite Hp2. split; [solve_Permutation|by left].
  - rewrite (aq_push_full (i, c) (hot_queue n)) by lia. cbn [fst snd]. rewrite prun_atomic.
    unfold table_insert. rewrite (the_node_eq a (MkPoolNode (connections n) (hot_queue n))) by by eapply set_node_lookup.
    simpl. destruct (connections n !! i) as [c'|] eqn:Hc.
    { destruct Hi. unfold entries. rewrite fmap_app. apply elem_of_app. left.
      apply list_elem_of_fmap. exists (i, c'). split; [done|]. by apply elem_of_map_to_list. }
    simpl. rewrite set_node_twice. eexists. split; [done|]. unfold entries. simpl. split; [|by right].
    by rewrite map_to_list_insert by done.
Qed.

Lemma is_empty_spec a n w : nodes w !! a = Some n -> prun (is_empty a) w = (bool_decide (entries n = []), w).
Proof.
  intros Ha. unfold is_empty. rewrite prun_bind, prun_atomic. unfold queue_is_empty.
  rewrite (the_node_eq _ _ _ Ha). destruct (aq_is_empty (hot_queue n)) eqn:He.
  - apply aq_is_empty_spec in He. rewrite prun_atomic. unfold table_is_empty.
    rewrite (the_node_eq _ _ _ Ha). f_equal. apply bool_decide_ext. unfold entries. rewrite He, app_nil_r.
    by rewrite map_to_list_empty_iff.
  - simpl. f_equal. symmetry. apply bool_decide_false. unfold entries. intros [_ Hnil]%app_eq_nil.
    apply aq_is_empty_spec in Hnil. congruence.
Qed.

Lemma get_any_spec a n w : nodes w !! a = Some n ->
  exists r n', prun (get_any any_key a) w = (r, set_node a n' w) /\
    match r with
    | Some (i, c) => entries n ≡ₚ (i, c) :: entries n'
    | None => entries n = [] /\ entries n' = []
    end.
Proof.
  intros Ha. unfold get_any. rewrite prun_bind, prun_atomic. unfold queue_pop. rewrite (the_node_eq _ _ _ Ha).
  destruct (aq_pop_spec (hot_queue n)) as (Hp1 & Hp2 & _). destruct (aq_pop (hot_queue n)) as [r q]. simpl in *.
  destruct (aq_list (hot_queue n)) as [|[i c] es] eqn:Hes; simpl in *; subst r.
  - cbn [prun]. rewrite prun_atomic. unfold table_any.
    rewrite (the_node_eq a (MkPoolNode (connections n) q)) by by eapply set_node_lookup. simpl.
    destruct (any_key (connections n)) as [i|] eqn:Hk.
    + destruct (any_key_some _ _ Hk) as [c Hc]. unfold table_remove.
      rewrite (the_node_eq a (MkPoolNode (connections n) q)) by by eapply set_node_lookup. simpl. rewrite Hc. simpl.
      rewrite set_node_twice. do 2 eexists. split; [done|]. unfold entries. simpl. rewrite Hp2, Hes, !app_nil_r.
      symmetry. by apply map_to_list_delete.
    + apply any_key_none in Hk. do 2 eexists. split; [done|]. unfold entries. simpl.
      by rewrite Hk, Hes, Hp2, map_to_list_empty.
  - simpl. do 2 eexists. split; [done|]. unfold entries. simpl. rewrite Hp2, Hes. solve_Permutation.
Qed.

(** The loop over the queue: [rest] is still to be looked at. *)
Lemma remove_loop a i m : forall n w rest moved others,
  nodes w !! a = Some n -> aq_list (hot_queue n) = rest ++ moved -> length rest = m ->
  NoDup (entries n).*1 -> entries n ≡ₚ rest ++ others -> i ∉ others.*1 ->
  exists r n', prun (for_until m (remove_round a i) (Done None)) w = (r, set_node a n' w) /\
    match r with
    | Some c => entries n ≡ₚ (i, c) :: entries n'
    | None => i ∉ (entries n).*1 /\ entries n' ≡ₚ entries n
    end.
Proof.
  induction m as [|m IH]; intros n w rest moved others Ha Hq Hm Hnd Hall Hi.
  - destruct rest; [|done]. simpl. exists None, n. split.
    { unfold set_node, set_nodes. rewrite list_insert_id by done. by destruct w. }
    split; [|done]. by rewrite Hall.
  - destruct rest as [|[j c] rest]; [done|]. simpl in Hm. cbn [for_until]. rewrite prun_bind.
    unfold remove_round at 1. rewrite prun_bind, prun_atomic. unfold queue_pop. rewrite (the_node_eq _ _ _ Ha).
    destruct (aq_pop_spec (hot_queue n)) as (Hp1 & Hp2 & _). destruct (aq_pop (hot_queue n)) as [r q]. rewrite Hq in Hp1, Hp2.
    simpl in Hp1, Hp2. subst r. cbv beta iota zeta.
    set (n1 := MkPoolNode (connections n) q).
    assert (Hn1 : entries n ≡ₚ (j, c) :: entries n1).
    { unfold entries, n1. simpl. rewrite Hq, Hp2. solve_Permutation. }
    destruct (j =? i) eqn:Hji.
    + apply Z.eqb_eq in Hji as ->. simpl. do 2 eexists. by split.
    + apply Z.eqb_neq in Hji. rewrite prun_bind.
      assert (j ∉ (entries n1).*1) by (rewrite Hn1 in Hnd; simpl in Hnd; by apply NoDup_cons in Hnd as [? _]).
      destruct (node_insert_spec a j c n1 (set_node a n1 w)) as (n2 & Hr & Hp & Hq2);
        [by eapply set_node_lookup|done|].
      rewrite Hr. simpl. rewrite set_node_twice.
      assert (Hsame : entries n2 ≡ₚ entries n) by by rewrite Hp, Hn1.
      assert (exists moved', aq_list (hot_queue n2) = rest ++ moved') as [moved' Hmoved].
      { simpl in Hq2. rewrite Hp2 in Hq2. destruct Hq2 as [->| ->]; [|by eexists].
        rewrite <- (assoc_L (++)). by eexists. }
      destruct (IH n2 (set_node a n2 w) rest moved' ((j, c) :: others)) as (r & n' & Hr' & Hres);
        [by eapply set_node_lookup|done|lia|by rewrite Hsame| |simpl; rewrite not_elem_of_cons; split; [congruence|done]|].
      { rewrite Hsame, Hall. solve_Permutation. }
      rewrite set_node_twice in Hr'. exists r, n'. split; [done|]. destruct r; by rewrite Hsame in Hres.
Qed.

Lemma node_remove_spec a i n w : nodes w !! a = Some n -> NoDup (entries n).*1 ->
  exists r n', prun (remove a i) w = (r, set_node a n' w) /\
    match r with
    | Some c => entries n ≡ₚ (i, c) :: entries n'
    | None => i ∉ (entries n).*1 /\ entries n' ≡ₚ entries n
    end.
Proof.
  intros Ha Hnd. unfold remove. rewrite prun_bind, prun_atomic. unfold table_remove. rewrite (the_node_eq _ _ _ Ha).
  set (n1 := MkPoolNode (delete i (connections n)) (hot_queue n)).
  destruct (connections n !! i) as [c|] eqn:Hc.
  - simpl. exists (Some c), n1. split; [done|]. unfold entries, n1. simpl. by rewrite <- (map_to_list_delete _ i c) by done.
  - rewrite prun_bind, prun_atomic. unfold queue_len.
    assert (Ha1 : nodes (set_node a n1 w) !! a = Some n1) by by eapply set_node_lookup.
    rewrite (the_node_eq _ _ _ Ha1), aq_len_spec. simpl.
    assert (Hn1 : entries n1 = entries n) by (unfold entries, n1; simpl; by rewrite delete_id).
    destruct (remove_loop a i (length (aq_list (hot_queue n))) n1 (set_node a n1 w) (aq_list (hot_queue n)) []
      (map_to_list (connections n))) as (r & n' & Hr & Hres).
    + done.
    + by rewrite app_nil_r.
    + done.
    + by rewrite Hn1.
    + rewrite Hn1. unfold entries. solve_Permutation.
    + intros ([j c] & ? & Hel%elem_of_map_to_list)%list_elem_of_fmap. simplify_eq/=.
    + rewrite set_node_twice in Hr. exists r, n'. by rewrite Hn1 in Hres.
Qed.

(** ** The bound *)

(** An idle connection: what was put, and the channels returned for it. *)
Record Idle := MkIdle { i_meta : ConnectionMeta; i_conn : S; i_notifier : nat; i_use : nat }.
Definition i_id (e : Idle) : Z := id (i_meta e).
Definition i_key (e : Idle) : Z := key (i_meta e).

(** With its order in the shards of the LRU. *)
Notation Tracked := (Idle * Z)%type.
Definition t_id (t : Tracked) : Z := i_id (fst t).
Definition t_node (t : Tracked) : Z * Node := (t_id t, MkNode (i_notifier (fst t)) (i_meta (fst t)) (snd t)).
Definition shard_list (s : nat) (ts : list Tracked) : list (Z * Node) :=
  t_node <$> filter (fun t => shard hash (t_id t) = s) ts.

(** The shards hold [ts], the oldest first. *)
Record lru_rel (l : @Lru L) (ts : list Tracked) : Prop := {
  lr_len : l_len l = zlen ts;
  lr_shards : length (lrus l) = 16%nat;
  lr_lists : forall s, (s < 16)%nat -> lc_list (the_shard l s) = shard_list s ts;
  lr_sorted : StronglySorted (fun t1 t2 => snd t1 < snd t2) ts;
  lr_orders : Forall (fun t => snd t < l_order l) ts;
  lr_ids : NoDup (t_id <$> ts)
}.

Lemma shard_lt i : (shard hash i < 16)%nat.
Proof. unfold shard, N_SHARDS. pose proof (Z.mod_pos_bound (hash i) 16). lia. Qed.

Lemma lrus_lookup l s : length (lrus l) = 16%nat -> (s < 16)%nat -> lrus l !! s = Some (the_shard l s).
Proof. intros Hl Hs. unfold the_shard. by destruct (lookup_lt_is_Some_2 (lrus l) s) as [x ->]; [lia|]. Qed.

(** A shard is replaced. *)
Lemma lists_insert l l' s x ts ts' :
  length (lrus l) = 16%nat -> lrus l' = <[s := x]> (lrus l) ->
  (forall s', (s' < 16)%nat -> lc_list (the_shard l s') = shard_list s' ts) ->
  lc_list x = shard_list s ts' -> (forall s', s' <> s -> shard_list s' ts' = shard_list s' ts) ->
  forall s', (s' < 16)%nat -> lc_list (the_shard l' s') = shard_list s' ts'.
Proof.
  intros Hlen Hl' Hts Hx Hother s' Hs'. unfold the_shard. rewrite Hl'. destruct (decide (s' = s)) as [->|Hne].
  - rewrite list_lookup_insert_eq by lia. done.
  - rewrite list_lookup_insert_ne by done. rewrite Hother by done. by apply Hts.
Qed.

Lemma assoc_get_none {A} i (l : list (Z * A)) : i ∉ l.*1 -> assoc_get i l = None.
Proof.
  induction l as [|[j a] l IH]; simpl; [done|]. intros [? ?]%not_elem_of_cons.
  rewrite (proj2 (Z.eqb_neq j i)) by done. by apply IH.
Qed.

Lemma filter_absent {A} i (l : list (Z * A)) : i ∉ l.*1 -> filter (fun e => fst e <> i) l = l.
Proof.
  induction l as [|[j a] l IH]; simpl; [done|]. intros [? ?]%not_elem_of_cons.
  rewrite filter_cons_True by done. by rewrite IH.
Qed.

Lemma shard_list_ids s ts i : i ∈ (shard_list s ts).*1 -> i ∈ t_id <$> ts.
Proof.
  unfold shard_list. rewrite <- list_fmap_compose, !list_elem_of_fmap. intros (t & -> & [_ Ht]%list_elem_of_filter).
  by exists t.
Qed.

Lemma shard_list_app s ts1 ts2 : shard_list s (ts1 ++ ts2) = shard_list s ts1 ++ shard_list s ts2.
Proof. unfold shard_list. by rewrite filter_app, fmap_app. Qed.

Lemma shard_list_one s t : shard_list s [t] = if decide (shard hash (t_id t) = s) then [t_node t] else [].
Proof. unfold shard_list. rewrite filter_cons, filter_nil. by case_decide. Qed.

Lemma shard_list_drop s ts1 t ts2 :
  NoDup (t_id <$> ts1 ++ t :: ts2) ->
  filter (fun e => fst e <> t_id t) (shard_list s (ts1 ++ t :: ts2)) = shard_list s (ts1 ++ ts2).
Proof.
  intros Hnd. rewrite (cons_middle t), !shard_list_app, !filter_app, shard_list_one.
  assert (t_id t ∉ t_id <$> ts1 /\ t_id t ∉ t_id <$> ts2) as [Hni1 Hni2].
  { rewrite fmap_app, fmap_cons in Hnd. apply NoDup_app in Hnd as (_ & Hd & Hnd). apply NoDup_cons in Hnd as [? _].
    split; [|done]. intros Hin. apply (Hd _ Hin). by left. }
  rewrite (filter_absent _ (shard_list s ts1)), (filter_absent _ (shard_list s ts2)) by (intros Hin; by apply shard_list_ids in Hin).
  case_decide; [rewrite filter_cons_False by (simpl; tauto)|]; by rewrite filter_nil.
Qed.

Lemma shard_list_assoc s ts1 t ts2 : shard hash (t_id t) = s ->
  NoDup (t_id <$> ts1 ++ t :: ts2) -> assoc_get (t_id t) (shard_list s (ts1 ++ t :: ts2)) = Some (snd (t_node t)).
Proof.
  intros Hs Hnd. rewrite (cons_middle t), !shard_list_app, shard_list_one, decide_True by done.
  assert (Hni : t_id t ∉ (shard_list s ts1).*1).
  { intros Hin%shard_list_ids. rewrite fmap_app in Hnd. apply NoDup_app in Hnd as (_ & Hd & _).
    apply (Hd _ Hin). by left. }
  clear Hnd. induction (shard_list s ts1) as [|[j a] l IH]; simpl.
  - by rewrite Z.eqb_refl.
  - simpl in Hni. apply not_elem_of_cons in Hni as [? ?]. rewrite (proj2 (Z.eqb_neq _ _)) by done. by apply IH.
Qed.

(** What pops and evictions leave alone. *)
Definition same_params (l l' : @Lru L) : Prop :=
  l_order l' = l_order l /\ l_size l' = l_size l /\ l_drain l' = l_drain l.

Lemma sorted_remove ts1 (t : Tracked) ts2 (R : Tracked -> Tracked -> Prop) :
  StronglySorted R (ts1 ++ t :: ts2) -> StronglySorted R (ts1 ++ ts2).
Proof.
  induction ts1 as [|x ts1 IH]; simpl; intros Hs; apply StronglySorted_inv in Hs as [Hs Hall]; [done|].
  constructor; [by apply IH|]. rewrite Forall_app, Forall_cons in Hall. rewrite Forall_app. tauto.
Qed.

Lemma set_lru_lru l w : lru (set_lru l w) = l.
Proof. done. Qed.

Lemma lru_pop_present w ts1 t ts2 :
  lru_rel (lru w) (ts1 ++ t :: ts2) -> zlen (ts1 ++ t :: ts2) < usize_mod ->
  exists l', prun (lru_pop hash (t_id t)) w = (Some (snd (t_node t)), set_lru l' w) /\
    lru_rel l' (ts1 ++ ts2) /\ same_params (lru w) l'.
Proof.
  intros [Hlen Hsh Hlists Hsort Hord Hids] Hlt. unfold lru_pop. rewrite prun_bind, prun_atomic. unfold shard_pop.
  pose proof (shard_lt (t_id t)) as Hs.
  destruct (lc_pop_spec (t_id t) (the_shard (lru w) (shard hash (t_id t)))) as [Hp1 Hp2].
  rewrite (Hlists _ Hs) in Hp1, Hp2. rewrite shard_list_assoc in Hp1 by done. rewrite shard_list_drop in Hp2 by done.
  destruct (lc_pop (t_id t) (the_shard (lru w) (shard hash (t_id t)))) as [old l]. simpl in Hp1, Hp2. subst old. simpl.
  eexists. split; [unfold set_lru, fetch_sub_len; simpl; reflexivity|]. split; [|done]. split; simpl.
  - rewrite wsub_small; rewrite Hlen; rewrite !zlen_app, zlen_cons in *; pose proof (zlen_nonneg ts1);
      pose proof (zlen_nonneg ts2); lia.
  - by rewrite length_insert.
  - eapply (lists_insert (lru w)); [done|done|done|done|].
    intros s' Hs'. rewrite !shard_list_app. f_equal. change (t :: ts2) with ([t] ++ ts2).
    rewrite shard_list_app, shard_list_one, decide_False by done. done.
  - by eapply sorted_remove.
  - rewrite Forall_app, Forall_cons in Hord. rewrite Forall_app. tauto.
  - rewrite fmap_app in *. rewrite fmap_cons, <- Permutation_middle in Hids. by apply NoDup_cons in Hids as [_ ?].
Qed.

Lemma lru_pop_absent w ts i : lru_rel (lru w) ts -> i ∉ t_id <$> ts ->
  exists l', prun (lru_pop hash i) w = (None, set_lru l' w) /\ lru_rel l' ts /\ same_params (lru w) l'.
Proof.
  intros [Hlen Hsh Hlists Hsort Hord Hids] Hi. unfold lru_pop. rewrite prun_bind, prun_atomic. unfold shard_pop.
  pose proof (shard_lt i) as Hs.
  assert (i ∉ (shard_list (shard hash i) ts).*1) by (intros Hin; by apply shard_list_ids in Hin).
  destruct (lc_pop_spec i (the_shard (lru w) (shard hash i))) as [Hp1 Hp2].
  rewrite (Hlists _ Hs) in Hp1, Hp2. rewrite assoc_get_none in Hp1 by done. rewrite filter_absent in Hp2 by done.
  destruct (lc_pop i (the_shard (lru w) (shard hash i))) as [old l]. simpl in Hp1, Hp2. subst old. simpl.
  eexists. split; [done|]. split; [|done]. split; simpl; [done| |by eapply (lists_insert (lru w))|done..].
  by rewrite length_insert.
Qed.

(** A new entry is the youngest. *)
Lemma shard_put_rel w ts e :
  lru_rel (lru w) ts -> i_id e ∉ t_id <$> ts -> l_order (lru w) < usize_mod - 1 -> 0 <= l_order (lru w) ->
  zlen ts < usize_mod - 1 ->
  let o := l_order (lru w) in
  let w1 := snd (fetch_add_order w) in
  let (old, w2) := shard_put hash (i_id e) (MkNode (i_notifier e) (i_meta e) o) w1 in
  old = None /\ exists l', snd (fetch_add_len w2) = set_lru l' w /\ lru_rel l' (ts ++ [(e, o)]) /\
    l_order l' = o + 1 /\ l_size l' = l_size (lru w) /\ l_drain l' = l_drain (lru w).
Proof.
  intros [Hlen Hsh Hlists Hsort Hord Hids] Hi Ho Ho0 Hz. unfold shard_put, fetch_add_order. cbn [snd].
  rewrite set_lru_lru. change (the_shard (set_order _ (lru w))) with (the_shard (lru w)).
  pose proof (shard_lt (i_id e)) as Hs.
  assert (i_id e ∉ (shard_list (shard hash (i_id e)) ts).*1) by (intros Hin; by apply shard_list_ids in Hin).
  destruct (lc_put_spec (i_id e) (MkNode (i_notifier e) (i_meta e) (l_order (lru w))) (the_shard (lru w) (shard hash (i_id e))))
    as [Hp1 Hp2].
  rewrite (Hlists _ Hs) in Hp1, Hp2. rewrite assoc_get_none in Hp1 by done. rewrite filter_absent in Hp2 by done.
  destruct (lc_put _ _ _) as [old l]. simpl in Hp1, Hp2. split; [done|]. eexists.
  split; [unfold fetch_add_len, set_lru; simpl; reflexivity|]. simpl. split; [|rewrite wadd_small by lia; done].
  pose proof (zlen_nonneg ts). split; simpl.
  - rewrite Hlen, wadd_small by lia. by rewrite zlen_app.
  - by rewrite length_insert.
  - eapply (lists_insert (lru w)); [done|done|done| |].
    + rewrite shard_list_app, shard_list_one, decide_True by done. by rewrite Hp2.
    + intros s' Hs'. rewrite shard_list_app, shard_list_one, decide_False by done. by rewrite app_nil_r.
  - clear -Hsort Hord. induction ts as [|t ts IH]; simpl; [repeat constructor|].
    apply Forall_cons in Hord as [? ?]. apply StronglySorted_inv in Hsort as [? ?].
    constructor; [by apply IH|]. rewrite Forall_app, Forall_singleton. by split.
  - rewrite wadd_small by lia. rewrite Forall_app, Forall_singleton. split; [|simpl; lia].
    eapply Forall_impl; [exact Hord|]. simpl. intros t ?. lia.
  - rewrite fmap_app. apply NoDup_app. split; [done|]. split; [|simpl; by apply NoDup_singleton].
    intros x Hx Hx'. simpl in Hx'. apply list_elem_of_singleton in Hx' as ->. by apply Hi.
Qed.

(** *** Eviction *)

Lemma oldest_from_spec ls : forall index acc,
  match oldest_from index ls acc with
  | None => acc = None /\ Forall (fun l => lc_list l = []) ls
  | Some (j, o) =>
      (acc = Some (j, o) \/ exists i l e, ls !! i = Some l /\ j = (index + i)%nat /\ head (lc_list l) = Some e /\
         order (snd e) = o) /\
      (forall j' o', acc = Some (j', o') -> o <= o') /\
      Forall (fun l => forall e, head (lc_list l) = Some e -> o <= order (snd e)) ls
  end.
Proof.
  induction ls as [|l ls IH]; intros index acc; cbn [oldest_from].
  - destruct acc as [[j o]|]; [|by split]. split; [by left|]. split; [|done]. by intros ? ? [= _ ->].
  - rewrite lc_peek_lru_spec. destruct (head (lc_list l)) as [[k node]|] eqn:Hh.
    + assert (exists a b, (match acc with
        | None => Some (index, order node)
        | Some (_, o) => if order node <? o then Some (index, order node) else acc end) = Some (a, b) /\
        b <= order node /\ (forall j' o', acc = Some (j', o') -> b <= o') /\
        (acc = Some (a, b) \/ (a, b) = (index, order node))) as (a & b & Hacc & Hle & Hle' & Hfrom).
      { destruct acc as [[j o]|]; [|do 2 eexists; split; [done|]; split; [lia|]; split; [done|by right]].
        destruct (Z.ltb_spec (order node) o); do 2 eexists; (split; [done|]).
        - split; [lia|]. split; [|by right]. intros ? ? [= _ ->]. lia.
        - split; [lia|]. split; [|by left]. intros ? ? [= _ ->]. lia. }
      rewrite Hacc. specialize (IH (Datatypes.S index) (Some (a, b))).
      destruct (oldest_from (Datatypes.S index) ls (Some (a, b))) as [[j o]|]; [|by destruct IH].
      destruct IH as (Hwhere & Hacc' & Hall). specialize (Hacc' _ _ eq_refl).
      split; [|split; [intros ? ? Ha; specialize (Hle' _ _ Ha); lia|constructor; [|done]]].
      * destruct Hwhere as [[= <- <-]|(i & l' & e & ? & -> & ? & ?)].
        -- destruct Hfrom as [->|[= -> ->]]; [by left|]. right. exists 0%nat, l, (k, node). split_and!; [done|lia|done|done].
        -- right. exists (Datatypes.S i), l', e. split_and!; [done|lia|done|done].
      * intros e. rewrite Hh. intros [= <-]. simpl. lia.
    + specialize (IH (Datatypes.S index) acc).
      destruct (oldest_from (Datatypes.S index) ls acc) as [[j o]|].
      * destruct IH as (Hwhere & Hacc & Hall). split; [|split; [done|constructor; [|done]; rewrite Hh; done]].
        destruct Hwhere as [->|(i & l' & e & ? & -> & ? & ?)]; [by left|].
        right. exists (Datatypes.S i), l', e. split_and!; [done|lia|done|done].
      * destruct IH as (-> & ?). split; [done|]. constructor; [|done]. by destruct (lc_list l).
Qed.

Lemma shard_list_head s ts e : head (shard_list s ts) = Some e ->
  exists t, t ∈ ts /\ e = t_node t /\ shard hash (t_id t) = s.
Proof.
  intros He. assert (Hin : e ∈ shard_list s ts) by (destruct (shard_list s ts); simplify_eq/=; by left).
  unfold shard_list in Hin. apply list_elem_of_fmap in Hin as (t & -> & [? ?]%list_elem_of_filter). by exists t.
Qed.

(** The shard that holds the oldest entry is found. *)
Lemma oldest_found l t ts : lru_rel l (t :: ts) ->
  oldest_from 0 (lrus l) None = Some (shard hash (t_id t), snd t).
Proof.
  intros [Hlen Hsh Hlists Hsort Hord Hids]. pose proof (oldest_from_spec (lrus l) 0 None) as Hspec.
  pose proof (shard_lt (t_id t)) as Hs.
  assert (Hhead : head (shard_list (shard hash (t_id t)) (t :: ts)) = Some (t_node t)).
  { change (t :: ts) with ([t] ++ ts). by rewrite shard_list_app, shard_list_one, decide_True by done. }
  pose proof (Hlists _ Hs) as Hl. pose proof (lrus_lookup l _ Hsh Hs) as Hlook.
  apply StronglySorted_inv in Hsort as [_ Hmin]. rewrite Forall_forall in Hmin.
  destruct (oldest_from 0 (lrus l) None) as [[j o]|].
  - destruct Hspec as ([?|(i & x & e & Hi & -> & He & <-)] & _ & Hall); [done|].
    assert (Hi16 : (i < 16)%nat) by (rewrite <- Hsh; by eapply lookup_lt_Some).
    rewrite (lrus_lookup l i Hsh Hi16) in Hi. simplify_eq. rewrite (Hlists _ Hi16) in He.
    destruct (shard_list_head _ _ _ He) as (t' & Ht' & -> & <-).
    rewrite Forall_lookup in Hall. specialize (Hall _ _ Hlook (t_node t)). rewrite Hl in Hall. specialize (Hall Hhead).
    simpl in Hall. apply list_elem_of_In in Ht'. destruct Ht' as [->|Ht'%list_elem_of_In]; [done|].
    specialize (Hmin t' Ht'). simpl in Hmin. lia.
  - destruct Hspec as [_ Hall]. rewrite Forall_lookup in Hall. rewrite (Hall _ _ Hlook) in Hl. by rewrite <- Hl in Hhead.
Qed.

Definition notify_all (ts : list Tracked) (w : W) : W :=
  fold_left (fun w t => notify_one (i_notifier (fst t)) w) ts w.

Lemma notify_all_set_lru ts : forall l l' w, set_lru l' (notify_all ts (set_lru l w)) = set_lru l' (notify_all ts w).
Proof.
  induction ts as [|t ts IH]; intros l l' w; [done|]. cbn [notify_all fold_left].
  change (set_lru l' (notify_all ts (set_lru l (notify_one (i_notifier (fst t)) w))) =
          set_lru l' (notify_all ts (notify_one (i_notifier (fst t)) w))).
  apply IH.
Qed.

Lemma pool_evict_loop_spec fuel target : forall w ts metas, lru_rel (lru w) ts -> 0 <= target ->
  zlen ts - target <= Z.of_nat fuel ->
  let k := Z.to_nat (zlen ts - target) in
  exists l', evict_loop fuel target w metas =
      (metas ++ ((fun t => i_meta (fst t)) <$> take k ts), set_lru l' (notify_all (take k ts) w)) /\
    lru_rel l' (drop k ts) /\ same_params (lru w) l'.
Proof.
  induction fuel as [|fuel IH]; intros w ts metas Hrel Ht Hfuel k.
  { assert (k = 0%nat) as -> by (unfold k; lia). simpl. rewrite app_nil_r, drop_0.
    exists (lru w). split; [by destruct w|done]. }
  cbn [evict_loop]. rewrite (lr_len _ _ Hrel). destruct (Z.leb_spec (zlen ts) target).
  { assert (k = 0%nat) as -> by (unfold k; lia). simpl. rewrite app_nil_r, drop_0.
    exists (lru w). split; [by destruct w|done]. }
  destruct ts as [|t ts]; [rewrite zlen_nil in *; lia|]. rewrite (oldest_found _ _ _ Hrel).
  pose proof (shard_lt (t_id t)) as Hs. set (s := shard hash (t_id t)) in *.
  destruct (lc_pop_lru_spec (the_shard (lru w) s)) as [Hp1 Hp2]. rewrite (lr_lists _ _ Hrel _ Hs) in Hp1, Hp2.
  change (t :: ts) with ([t] ++ ts) in Hp1, Hp2. rewrite shard_list_app, shard_list_one, decide_True in Hp1, Hp2 by done.
  destruct (lc_pop_lru (the_shard (lru w) s)) as [popped l]. simpl in Hp1, Hp2. subst popped. cbv beta iota zeta.
  destruct Hrel as [Hlen Hsh Hlists Hsort Hord Hids].
  edestruct (IH (notify_one (i_notifier (fst t)) (set_lru (set_len (zlen (t :: ts) - 1)
    (set_lrus (<[s := l]> (lrus (lru w))) (lru w))) w)) ts (metas ++ [i_meta (fst t)])) as (l' & Heq & Hrel' & Hsame).
  - split; simpl.
    + rewrite zlen_cons. lia.
    + by rewrite length_insert.
    + eapply (lists_insert (lru w)); [done|done|done|done|].
      intros s' Hs'. change (t :: ts) with ([t] ++ ts). by rewrite shard_list_app, shard_list_one, decide_False by done.
    + by apply StronglySorted_inv in Hsort as [? _].
    + by apply Forall_cons in Hord as [_ ?].
    + by apply NoDup_cons in Hids as [_ ?].
  - done.
  - rewrite zlen_cons in *. lia.
  - assert (k = Datatypes.S (Z.to_nat (zlen ts - target))) as -> by (unfold k; rewrite zlen_cons in *; lia).
    exists l'. cbn [close_notifier meta t_node snd]. rewrite Heq. split; [|done]. f_equal.
    + simpl. by rewrite <- (assoc_L (++)).
    + cbn [take]. match goal with |- context [set_lru (set_len ?a ?b) w] =>
        apply (notify_all_set_lru (take (Z.to_nat (zlen ts - target)) ts) (set_len a b) l' (notify_one (i_notifier (fst t)) w)) end.
Qed.

(** ** Groups *)

Definition t_entry (t : Tracked) : Z * PC := (t_id t, MkPoolConnection (i_use (fst t)) (i_conn (fst t))).
Definition group (k : Z) (ts : list Tracked) : list (Z * PC) := t_entry <$> filter (fun t => i_key (fst t) = k) ts.

(** The nodes of the map hold [ts], by group; none is empty, and none is shared. *)
Record nodes_rel (w : W) (ts : list Tracked) : Prop := {
  nr_pools : forall k,
    match pools w !! k with
    | Some a => exists n, nodes w !! a = Some n /\ entries n ≡ₚ group k ts /\ group k ts <> []
    | None => group k ts = []
    end;
  nr_inj : forall k1 k2 a, pools w !! k1 = Some a -> pools w !! k2 = Some a -> k1 = k2
}.

Lemma group_app k ts1 ts2 : group k (ts1 ++ ts2) = group k ts1 ++ group k ts2.
Proof. unfold group. by rewrite filter_app, fmap_app. Qed.

Lemma group_one k t : group k [t] = if decide (i_key (fst t) = k) then [t_entry t] else [].
Proof. unfold group. rewrite filter_cons, filter_nil. by case_decide. Qed.

Lemma group_ids k ts : (group k ts).*1 = t_id <$> filter (fun t => i_key (fst t) = k) ts.
Proof. unfold group. by rewrite <- list_fmap_compose. Qed.

Lemma group_NoDup k ts : NoDup (t_id <$> ts) -> NoDup (group k ts).*1.
Proof.
  intros Hnd. rewrite group_ids. eapply sublist_NoDup; [exact Hnd|]. f_equiv. apply sublist_filter.
Qed.

Lemma group_id_in k ts i : i ∈ (group k ts).*1 -> i ∈ t_id <$> ts.
Proof.
  rewrite group_ids, !list_elem_of_fmap. intros (t & -> & [_ ?]%list_elem_of_filter). by exists t.
Qed.

Lemma group_perm k ts1 ts2 : ts1 ≡ₚ ts2 -> group k ts1 ≡ₚ group k ts2.
Proof. unfold group. by intros ->. Qed.

Lemma nodes_rel_ext w w' ts : pools w' = pools w -> nodes w' = nodes w -> nodes_rel w ts -> nodes_rel w' ts.
Proof. intros Hp Hn [H1 H2]. split; [intros k; specialize (H1 k)|]; by rewrite ?Hp, ?Hn. Qed.

(** A change to the node of one group does not concern another. *)
Lemma other_pools w k a n' ts ts' k' :
  nodes_rel w ts -> pools w !! k = Some a -> k' <> k -> group k' ts' ≡ₚ group k' ts ->
  match pools w !! k' with
  | Some a' => exists n, nodes (set_node a n' w) !! a' = Some n /\ entries n ≡ₚ group k' ts' /\ group k' ts' <> []
  | None => group k' ts' = []
  end.
Proof.
  intros [Hp Hi] Hk Hkk Ho. specialize (Hp k'). destruct (pools w !! k') as [a'|] eqn:Hk'.
  - destruct Hp as (n & Hn' & He & Hnn). exists n. split; [|split; [by rewrite Ho|]].
    + simpl. rewrite list_lookup_insert_ne; [done|]. intros <-. by specialize (Hi _ _ _ Hk Hk').
    + intros Hnil. rewrite Hnil in Ho. by apply Permutation_nil_l in Ho.
  - rewrite Hp in Ho. by apply Permutation_nil_r in Ho.
Qed.

(** The node of the group [k] is replaced. *)
Lemma nodes_rel_set w k a n' ts ts' :
  nodes_rel w ts -> pools w !! k = Some a -> entries n' ≡ₚ group k ts' -> group k ts' <> [] ->
  (forall k', k' <> k -> group k' ts' ≡ₚ group k' ts) -> nodes_rel (set_node a n' w) ts'.
Proof.
  intros Hrel Hk Hn Hne Ho. split; [|exact (nr_inj _ _ Hrel)]. intros k'. change (pools (set_node a n' w)) with (pools w).
  destruct (decide (k' = k)) as [->|Hkk].
  - rewrite Hk. exists n'. split; [|done]. pose proof (nr_pools _ _ Hrel k) as Hp. rewrite Hk in Hp. destruct Hp as (n & Hn' & _).
    by eapply set_node_lookup.
  - by apply (other_pools _ _ _ _ _ _ _ Hrel Hk Hkk), Ho.
Qed.

(** A node that has become empty is removed from the map. *)
Lemma nodes_rel_delete w k a n' ts ts' :
  nodes_rel w ts -> pools w !! k = Some a -> group k ts' = [] ->
  (forall k', k' <> k -> group k' ts' ≡ₚ group k' ts) ->
  nodes_rel (set_pools (delete k (pools w)) (set_node a n' w)) ts'.
Proof.
  intros Hrel Hk Hn Ho. split.
  - intros k'. cbn [pools set_pools]. destruct (decide (k' = k)) as [->|Hkk]; [by rewrite lookup_delete_eq|].
    rewrite lookup_delete_ne by done. by apply (other_pools _ _ _ _ _ _ _ Hrel Hk Hkk), Ho.
  - intros k1 k2 a'. cbn [pools set_pools]. rewrite !lookup_delete_Some. intros [_ ?] [_ ?]. by eapply (nr_inj _ _ Hrel).
Qed.

Lemma try_remove_spec w k a n : pools w !! k = Some a -> nodes w !! a = Some n ->
  prun (try_remove_empty_node k) w = (tt, if decide (entries n = []) then set_pools (delete k (pools w)) w else w).
Proof.
  intros Hk Hn. unfold try_remove_empty_node. rewrite prun_bind, prun_atomic. unfold lookup_pool. rewrite Hk.
  rewrite prun_bind, (is_empty_spec _ _ _ Hn). 
  destruct (decide (entries n = [])) as [He|He]; [rewrite bool_decide_true by done|by rewrite bool_decide_false].
  rewrite prun_atomic. unfold remove_if_empty. rewrite Hk, (is_empty_spec _ _ _ Hn). by rewrite bool_decide_true.
Qed.

(** After a connection has left the node of its group. *)
Definition cleaned (k : Z) (a : nat) (n' : PoolNode) (w : W) : W :=
  if decide (entries n' = []) then set_pools (delete k (pools w)) (set_node a n' w) else set_node a n' w.

Lemma cleanup_spec w k a n n' :
  pools w !! k = Some a -> nodes w !! a = Some n ->
  prun (pbind (is_empty a) (fun e => if e then try_remove_empty_node k else Done tt)) (set_node a n' w) =
  (tt, cleaned k a n' w).
Proof.
  intros Hk Hn. assert (Ha : nodes (set_node a n' w) !! a = Some n') by by eapply set_node_lookup.
  rewrite prun_bind, (is_empty_spec _ _ _ Ha). unfold cleaned.
  destruct (decide (entries n' = [])) as [He|He]; [rewrite bool_decide_true by done|by rewrite bool_decide_false].
  rewrite (try_remove_spec (set_node a n' w) k a n' Hk Ha). by rewrite decide_True.
Qed.

Lemma cleaned_rel w k a n n' t ts1 ts2 :
  nodes_rel w (ts1 ++ t :: ts2) -> pools w !! k = Some a -> nodes w !! a = Some n -> i_key (fst t) = k ->
  entries n' ≡ₚ group k (ts1 ++ ts2) -> nodes_rel (cleaned k a n' w) (ts1 ++ ts2).
Proof.
  intros Hrel Hk Hn Ht He. unfold cleaned.
  assert (Ho : forall k', k' <> k -> group k' (ts1 ++ ts2) ≡ₚ group k' (ts1 ++ t :: ts2)).
  { intros k' Hne. rewrite (cons_middle t), !group_app, group_one, decide_False by congruence. done. }
  destruct (decide (entries n' = [])) as [Hnil|Hnil].
  - eapply nodes_rel_delete; [done|done| |done]. rewrite Hnil in He. by apply Permutation_nil_l in He.
  - eapply nodes_rel_set; [done|done|done| |done]. intros Hg. rewrite Hg in He. by apply Permutation_nil_r in He.
Qed.

(** What an operation on the nodes does elsewhere. *)
Definition elsewhere (w w' : W) (us : list Use) (gv cl : list S) : Prop :=
  lru w' = lru w /\ notifiers w' = notifiers w /\ uses w' = us /\ given w' = gv /\ closed w' = cl.

Lemma cleaned_elsewhere k a n' w us gv cl w0 :
  elsewhere w0 w us gv cl -> elsewhere w0 (cleaned k a n' w) us gv cl.
Proof. unfold cleaned. by case_decide. Qed.

Lemma group_middle k ts1 t ts2 : i_key (fst t) = k ->
  group k (ts1 ++ t :: ts2) ≡ₚ t_entry t :: group k (ts1 ++ ts2).
Proof.
  intros Hk. rewrite (cons_middle t), !group_app, group_one, decide_True by done. solve_Permutation.
Qed.

Lemma group_middle_ne k ts1 t ts2 : i_key (fst t) = k -> group k (ts1 ++ t :: ts2) <> [].
Proof.
  intros Hk Hnil. pose proof (group_middle k ts1 t ts2 Hk) as Hp. rewrite Hnil in Hp. by apply Permutation_nil_cons in Hp.
Qed.

Lemma NoDup_middle_id ts1 t ts2 : NoDup (t_id <$> ts1 ++ t :: ts2) -> t_id t ∉ t_id <$> ts1 ++ ts2.
Proof. rewrite fmap_app, fmap_cons, <- Permutation_middle, <- fmap_app. by intros [? _]%NoDup_cons. Qed.

(** An entry of a group is the one with its identifier. *)
Lemma group_entry k ts1 t ts2 c es : i_key (fst t) = k -> NoDup (t_id <$> ts1 ++ t :: ts2) ->
  group k (ts1 ++ t :: ts2) ≡ₚ (t_id t, c) :: es ->
  (t_id t, c) = t_entry t /\ es ≡ₚ group k (ts1 ++ ts2).
Proof.
  intros Hk Hnd Hp. rewrite group_middle in Hp by done.
  assert (Hin : (t_id t, c) ∈ t_entry t :: group k (ts1 ++ ts2)) by (rewrite Hp; by left).
  apply elem_of_cons in Hin as [Heq|Hin].
  - split; [done|]. rewrite Heq in Hp. by apply Permutation_cons_inv in Hp.
  - destruct (NoDup_middle_id _ _ _ Hnd). apply (group_id_in k). apply list_elem_of_fmap. by exists (t_id t, c).
Qed.

Lemma pop_evicted_present w ts1 t ts2 :
  nodes_rel w (ts1 ++ t :: ts2) -> NoDup (t_id <$> ts1 ++ t :: ts2) ->
  exists w', prun (pop_evicted (i_meta (fst t))) w = (tt, w') /\ nodes_rel w' (ts1 ++ ts2) /\
    elsewhere w w' (<[i_use (fst t) := SenderDropped]> (uses w)) (given w) (closed w ++ [i_conn (fst t)]).
Proof.
  intros Hrel Hnd. unfold pop_evicted. rewrite prun_bind, prun_atomic. unfold lookup_pool.
  pose proof (nr_pools _ _ Hrel (i_key (fst t))) as Hp. unfold i_key in Hp.
  destruct (pools w !! key (i_meta (fst t))) as [a|] eqn:Hk.
  2:{ by apply group_middle_ne in Hp. }
  destruct Hp as (n & Hn & He & _). rewrite prun_bind.
  destruct (node_remove_spec a (t_id t) n w Hn) as (r & n' & Hr & Hres).
  { rewrite He. by apply group_NoDup. }
  change (id (i_meta (fst t))) with (t_id t). rewrite Hr. destruct r as [c|].
  2:{ destruct Hres as [Hni _]. destruct Hni. rewrite He, group_middle by done. simpl. by left. }
  rewrite He in Hres. destruct (group_entry _ _ _ _ _ _ eq_refl Hnd Hres) as [Hc He']. injection Hc as ->.
  rewrite prun_bind, prun_atomic. cbn [drop_option].
  set (c := MkPoolConnection (i_use (fst t)) (i_conn (fst t))).
  change (drop_connection c (set_node a n' w)) with (set_node a n' (drop_connection c w)).
  rewrite (cleanup_spec (drop_connection c w) _ _ n) by done.
  eexists. split; [done|]. split.
  - by eapply (cleaned_rel (drop_connection c w)); [apply (nodes_rel_ext w)|..].
  - by apply cleaned_elsewhere.
Qed.

Lemma pop_evicted_absent w ts m :
  nodes_rel w ts -> NoDup (t_id <$> ts) -> id m ∉ t_id <$> ts ->
  exists w', prun (pop_evicted m) w = (tt, w') /\ nodes_rel w' ts /\
    elsewhere w w' (uses w) (given w) (closed w).
Proof.
  intros Hrel Hnd Hni. unfold pop_evicted. rewrite prun_bind, prun_atomic. unfold lookup_pool.
  pose proof (nr_pools _ _ Hrel (key m)) as Hp. destruct (pools w !! key m) as [a|] eqn:Hk.
  2:{ simpl. by exists w. }
  destruct Hp as (n & Hn & He & Hne). rewrite prun_bind.
  destruct (node_remove_spec a (id m) n w Hn) as (r & n' & Hr & Hres).
  { rewrite He. by apply group_NoDup. }
  rewrite Hr. destruct r as [c|].
  { destruct Hni. apply (group_id_in (key m)). rewrite <- He, Hres. simpl. by left. }
  destruct Hres as [_ He']. rewrite prun_bind, prun_atomic. cbn [drop_option].
  rewrite (cleanup_spec w _ _ n) by done. eexists. split; [done|].
  rewrite He in He'. split; [|by apply cleaned_elsewhere]. unfold cleaned. destruct (decide (entries n' = [])) as [Hnil|_].
  - rewrite Hnil in He'. by apply Permutation_nil_l in He'.
  - by eapply nodes_rel_set.
Qed.

(** The evicted connections leave their nodes one after the other. *)
Lemma pop_evicted_all evs : forall w rest,
  nodes_rel w (evs ++ rest) -> NoDup (t_id <$> evs ++ rest) ->
  exists w', prun (for_each ((fun t => i_meta (fst t)) <$> evs) pop_evicted) w = (tt, w') /\ nodes_rel w' rest /\
    elsewhere w w' (foldl (fun us t => <[i_use (fst t) := SenderDropped]> us) (uses w) evs) (given w)
      (closed w ++ ((fun t => i_conn (fst t)) <$> evs)).
Proof.
  induction evs as [|t evs IH]; intros w rest Hrel Hnd.
  { simpl. exists w. split; [done|]. split; [done|]. by rewrite app_nil_r. }
  cbn [fmap list_fmap for_each]. rewrite prun_bind.
  destruct (pop_evicted_present w [] t (evs ++ rest) Hrel Hnd) as (w1 & Hr & Hrel1 & He1).
  rewrite Hr. apply NoDup_cons in Hnd as [_ Hnd]. destruct (IH w1 rest Hrel1 Hnd) as (w2 & Hr2 & Hrel2 & He2).
  exists w2. split; [done|]. split; [done|]. unfold elsewhere in *. destruct He1 as (E1 & E2 & E3 & E4 & E5).
  rewrite E1, E2, E3, E4, E5, <- (assoc_L (++)) in He2. done.
Qed.

Lemma insert_pool_spec w ts t : nodes_rel w ts -> t_id t ∉ t_id <$> ts ->
  exists w', prun (insert_pool_connection (i_key (fst t)) (t_id t) (snd (t_entry t))) w = (tt, w') /\
    nodes_rel w' (ts ++ [t]) /\ elsewhere w w' (uses w) (given w) (closed w).
Proof.
  intros Hrel Hni. unfold insert_pool_connection. rewrite prun_atomic. unfold pool_entry.
  pose proof (nr_pools _ _ Hrel (i_key (fst t))) as Hp. set (k := i_key (fst t)) in *.
  assert (Hg : group k (ts ++ [t]) ≡ₚ t_entry t :: group k ts) by (rewrite group_middle, app_nil_r; done).
  assert (Ho : forall k', k' <> k -> group k' (ts ++ [t]) ≡ₚ group k' ts).
  { intros k' Hne. rewrite group_app, group_one, decide_False by (unfold k in Hne; congruence). by rewrite app_nil_r. }
  assert (Hng : t_id t ∉ (group k ts).*1) by (intros Hin; by apply group_id_in in Hin).
  destruct (pools w !! k) as [a|] eqn:Hk.
  - destruct Hp as (n & Hn & He & _).
    destruct (node_insert_spec a (t_id t) (snd (t_entry t)) n w Hn) as (n' & Hr & He' & _); [by rewrite He|].
    rewrite Hr. eexists. split; [done|]. split; [|done].
    eapply (nodes_rel_set w); [done|done| | |done].
    + by rewrite He', He, Hg.
    + by apply group_middle_ne.
  - set (w1 := set_pools _ _).
    assert (Hn : nodes w1 !! length (nodes w) = Some node_new).
    { simpl. by rewrite lookup_app_r, Nat.sub_diag by lia. }
    assert (Hnew : entries node_new = []).
    { unfold entries, node_new. simpl. rewrite map_to_list_empty. simpl. apply aq_new_spec. }
    destruct (node_insert_spec (length (nodes w)) (t_id t) (snd (t_entry t)) node_new w1 Hn) as (n' & Hr & He' & _).
    { rewrite Hnew. by apply not_elem_of_nil. }
    rewrite Hr. eexists. split; [done|]. split; [|done].
    assert (Hlt : forall k' a', pools w !! k' = Some a' -> (a' < length (nodes w))%nat).
    { intros k' a' Hk'. pose proof (nr_pools _ _ Hrel k') as Hp'. rewrite Hk' in Hp'. destruct Hp' as (n2 & ? & _).
      by eapply lookup_lt_Some. }
    split.
    + intros k'. cbn [pools set_node set_nodes w1 set_pools]. destruct (decide (k' = k)) as [->|Hkk].
      * rewrite lookup_insert_eq. exists n'. split; [by eapply set_node_lookup|]. split.
        -- by rewrite He', Hnew, Hg, Hp.
        -- by apply group_middle_ne.
      * rewrite lookup_insert_ne by done. pose proof (nr_pools _ _ Hrel k') as Hp'. specialize (Ho k' Hkk).
        destruct (pools w !! k') as [a'|] eqn:Hk'.
        -- destruct Hp' as (n2 & Hn2 & He2 & Hne2). exists n2. split; [|split; [by rewrite Ho|]].
           ++ simpl. rewrite list_lookup_insert_ne by (specialize (Hlt _ _ Hk'); lia).
              by rewrite lookup_app_l by (by eapply lookup_lt_Some).
           ++ intros Hnil. rewrite Hnil in Ho. by apply Permutation_nil_l in Ho.
        -- rewrite Hp' in Ho. by apply Permutation_nil_r in Ho.
    + intros k1 k2 a'. cbn [pools set_node set_nodes w1 set_pools]. rewrite !lookup_insert_Some.
      intros [[<- <-]|[? Hk1]] [[<- Ha]|[? Hk2]]; [done| | |by eapply (nr_inj _ _ Hrel)].
      * specialize (Hlt _ _ Hk2). lia.
      * subst a'. specialize (Hlt _ _ Hk1). lia.
Qed.

(** ** The channels of a connection *)

(** What became of a connection that is no longer idle. *)
Inductive Fate := Taken | Evicted | Closed.

Definition chan_state (f : option Fate) : bool * Use :=
  match f with
  | None => (false, Waiting)
  | Some Taken => (false, Sent)
  | Some Evicted => (true, SenderDropped)
  | Some Closed => (false, SenderDropped)
  end.

Definition chan_ok (ns : list bool) (us : list Use) (c : Idle * option Fate) : Prop :=
  ns !! i_notifier (fst c) = Some (fst (chan_state (snd c))) /\ us !! i_use (fst c) = Some (snd (chan_state (snd c))).

Record chan_rel (ns : list bool) (us : list Use) (cs : list (Idle * option Fate)) : Prop := {
  cr_ok : Forall (chan_ok ns us) cs;
  cr_notifiers : NoDup ((fun c => i_notifier (fst c)) <$> cs);
  cr_uses : NoDup ((fun c => i_use (fst c)) <$> cs)
}.

Lemma chan_rel_perm ns us cs cs' : cs ≡ₚ cs' -> chan_rel ns us cs -> chan_rel ns us cs'.
Proof. intros Hp [H1 H2 H3]. by split; rewrite <- Hp. Qed.

Lemma chan_rel_new ns us cs m c : chan_rel ns us cs ->
  chan_rel (ns ++ [false]) (us ++ [Waiting]) ((MkIdle m c (length ns) (length us), None) :: cs).
Proof.
  intros [H1 H2 H3]. rewrite Forall_forall in H1. split.
  - constructor; [split; simpl; by rewrite lookup_app_r, Nat.sub_diag by lia|].
    apply Forall_forall. intros x Hx. destruct (H1 x Hx) as [? ?].
    split; by apply lookup_app_l_Some.
  - rewrite fmap_cons. constructor; [|done]. intros (x & Heq & Hx)%list_elem_of_fmap. destruct (H1 x Hx) as [Hl _].
    apply lookup_lt_Some in Hl. simpl in Heq. lia.
  - rewrite fmap_cons. constructor; [|done]. intros (x & Heq & Hx)%list_elem_of_fmap. destruct (H1 x Hx) as [_ Hl].
    apply lookup_lt_Some in Hl. simpl in Heq. lia.
Qed.

Lemma chan_rel_set ns us e f f' cs b u : chan_rel ns us ((e, f) :: cs) -> chan_state f' = (b, u) ->
  chan_rel (<[i_notifier e := b]> ns) (<[i_use e := u]> us) ((e, f') :: cs).
Proof.
  intros [H1 H2 H3] Hf. apply Forall_cons in H1 as [[Hn Hu] H1]. rewrite Forall_forall in H1.
  split; [|done..]. constructor.
  - split; simpl; rewrite Hf; apply list_lookup_insert_eq; by eapply lookup_lt_Some.
  - rewrite fmap_cons in H2, H3. apply NoDup_cons in H2 as [H2 _]. apply NoDup_cons in H3 as [H3 _].
    apply Forall_forall. intros x Hx. destruct (H1 x Hx) as [? ?]. split.
    + rewrite list_lookup_insert_ne; [done|]. intros Heq. apply H2. apply list_elem_of_fmap. by exists x.
    + rewrite list_lookup_insert_ne; [done|]. intros Heq. apply H3. apply list_elem_of_fmap. by exists x.
Qed.

Lemma chan_rel_evict (evs : list Idle) : forall ns us cs, chan_rel ns us (((fun e => (e, None)) <$> evs) ++ cs) ->
  chan_rel (foldl (fun ns e => <[i_notifier e := true]> ns) ns evs)
    (foldl (fun us e => <[i_use e := SenderDropped]> us) us evs)
    (((fun e => (e, Some Evicted)) <$> evs) ++ cs).
Proof.
  induction evs as [|e evs IH]; intros ns us cs Hrel; [done|]. cbn [foldl fmap list_fmap app] in *.
  apply (chan_rel_set _ _ _ _ (Some Evicted) _ true SenderDropped) in Hrel; [|done].
  eapply chan_rel_perm; [|apply (IH _ _ ((e, Some Evicted) :: cs))]; [solve_Permutation|].
  eapply chan_rel_perm; [|exact Hrel]. solve_Permutation.
Qed.

(** ** The abstract pool *)

(** The idle connections, the oldest first, and what became of the others. *)
Record APool := MkAPool { a_idle : list Idle; a_past : list (Idle * Fate) }.

Definition a_chans (p : APool) : list (Idle * option Fate) :=
  ((fun e => (e, None)) <$> a_idle p) ++ ((fun x => (fst x, Some (snd x))) <$> a_past p).

Definition is_taken (f : Fate) : bool := match f with Taken => true | _ => false end.
Definition a_given (p : APool) : list S := i_conn ∘ fst <$> filter (fun x => is_taken (snd x) = true) (a_past p).
Definition a_closed (p : APool) : list S := i_conn ∘ fst <$> filter (fun x => is_taken (snd x) = false) (a_past p).

(** How many are evicted when there are too many: down to the size less the headroom. *)
Definition overflow_of (size n : Z) : nat :=
  if size <? n then Z.to_nat (n - (size - evict_headroom size)) else 0.
Definition overflow (size : Z) (es : list Idle) : nat := overflow_of size (zlen es).

Inductive Op := OpPut (m : ConnectionMeta) (c : S) | OpGet (k : Z) | OpClosed (m : ConnectionMeta).

Inductive astep (size : Z) (p : APool) : Op -> option S -> APool -> Prop :=
  | AStepPut m c (n u : nat) :
      let all := a_idle p ++ [MkIdle m c n u] in
      let k := overflow size all in
      astep size p (OpPut m c) None (MkAPool (drop k all) (a_past p ++ ((fun e => (e, Evicted)) <$> take k all)))
  | AStepGet es1 e es2 : a_idle p = es1 ++ e :: es2 ->
      astep size p (OpGet (i_key e)) (Some (i_conn e)) (MkAPool (es1 ++ es2) (a_past p ++ [(e, Taken)]))
  | AStepNone k : Forall (fun e => i_key e <> k) (a_idle p) -> astep size p (OpGet k) None p
  | AStepClosed es1 e es2 : a_idle p = es1 ++ e :: es2 ->
      astep size p (OpClosed (i_meta e)) None (MkAPool (es1 ++ es2) (a_past p ++ [(e, Closed)]))
  | AStepGone m : Forall (fun e => i_id e <> id m) (a_idle p) -> astep size p (OpClosed m) None p.

(** The state implements the abstract one. *)
Record pool_rel (size : Z) (w : W) (p : APool) : Prop := {
  pr_tracked : exists ts, ts.*1 = a_idle p /\ lru_rel (lru w) ts /\ nodes_rel w ts;
  pr_chans : chan_rel (notifiers w) (uses w) (a_chans p);
  pr_size : l_size (lru w) = size;
  pr_drain : l_drain (lru w) = false;
  pr_bound : zlen (a_idle p) <= size;
  pr_order : 0 <= l_order (lru w);
  pr_given : given w = a_given p;
  pr_closed : closed w = a_closed p
}.

Lemma fst_middle (ts : list Tracked) es1 e es2 : ts.*1 = es1 ++ e :: es2 ->
  exists ts1 o ts2, ts = ts1 ++ (e, o) :: ts2 /\ ts1.*1 = es1 /\ ts2.*1 = es2.
Proof.
  intros H. apply fmap_app_inv in H as (ts1 & ts' & -> & H & ->).
  destruct ts' as [|[e' o] ts2]; [done|]. simplify_eq/=. by exists ts1, o, ts2.
Qed.

Lemma t_ids ts : t_id <$> ts = i_id <$> ts.*1.
Proof. by rewrite <- list_fmap_compose. Qed.

Lemma a_given_snoc es past e f es' :
  a_given (MkAPool es' (past ++ [(e, f)])) = a_given (MkAPool es past) ++ (if is_taken f then [i_conn e] else []).
Proof.
  unfold a_given. simpl. rewrite filter_app, fmap_app. f_equal. rewrite filter_cons, filter_nil. simpl. by destruct f.
Qed.

Lemma a_closed_snoc es past e f es' :
  a_closed (MkAPool es' (past ++ [(e, f)])) = a_closed (MkAPool es past) ++ (if is_taken f then [] else [i_conn e]).
Proof.
  unfold a_closed. simpl. rewrite filter_app, fmap_app. f_equal. rewrite filter_cons, filter_nil. simpl. by destruct f.
Qed.

(** The fate of one idle connection is settled. *)
Lemma settle_one (p : APool) es1 e es2 f ns us b u : a_idle p = es1 ++ e :: es2 -> chan_state (Some f) = (b, u) ->
  chan_rel ns us (a_chans p) ->
  chan_rel (<[i_notifier e := b]> ns) (<[i_use e := u]> us) (a_chans (MkAPool (es1 ++ es2) (a_past p ++ [(e, f)]))).
Proof.
  intros Hp Hf Hc.
  set (rest := ((fun e => (e, @None Fate)) <$> es1) ++ ((fun e => (e, None)) <$> es2) ++
               ((fun x => (fst x, Some (snd x))) <$> a_past p)).
  eapply (chan_rel_perm _ _ ((e, Some f) :: rest)).
  { unfold a_chans, rest. simpl. rewrite !fmap_app. simpl. solve_Permutation. }
  eapply chan_rel_set; [|done]. eapply chan_rel_perm; [|exact Hc].
  unfold a_chans, rest. rewrite Hp, fmap_app, fmap_cons. solve_Permutation.
Qed.

Lemma elem_split {A} (x : A) l : x ∈ l -> exists l1 l2, l = l1 ++ x :: l2.
Proof. apply list_elem_of_split. Qed.

(** *** The operations *)

(** An idle connection has left the pool and was not evicted. *)
Lemma settle_pool size w p es1 e es2 f u w1 ts :
  pool_rel size w p -> a_idle p = es1 ++ e :: es2 -> chan_state (Some f) = (false, u) ->
  ts.*1 = es1 ++ es2 -> lru_rel (lru w1) ts -> nodes_rel w1 ts -> same_params (lru w) (lru w1) ->
  notifiers w1 = notifiers w -> uses w1 = <[i_use e := u]> (uses w) ->
  given w1 = given w ++ (if is_taken f then [i_conn e] else []) ->
  closed w1 = closed w ++ (if is_taken f then [] else [i_conn e]) ->
  pool_rel size w1 (MkAPool (es1 ++ es2) (a_past p ++ [(e, f)])).
Proof.
  intros [_ Hch Hsize Hdrain Hb Ho Hg Hc] Hp Hf Hts Hlru Hnodes (S1 & S2 & S3) En Eu Eg Ec. split.
  - by exists ts.
  - rewrite En, Eu. rewrite <- (list_insert_id (notifiers w) (i_notifier e) false); [by eapply settle_one|].
    apply (proj1 (Forall_forall _ _) (cr_ok _ _ _ Hch) (e, None)). unfold a_chans. rewrite Hp.
    apply elem_of_app. left. apply list_elem_of_fmap. exists e. split; [done|]. apply elem_of_app. right. by left.
  - congruence.
  - congruence.
  - simpl. rewrite Hp in Hb. rewrite !zlen_app, zlen_cons in *. lia.
  - lia.
  - rewrite Eg, (a_given_snoc (a_idle p)), Hg. by destruct p.
  - rewrite Ec, (a_closed_snoc (a_idle p)), Hc. by destruct p.
Qed.

Lemma get_spec size w p k : pool_rel size w p -> size < usize_mod ->
  let (r, w') := prun (get hash any_key k) w in exists p', astep size p (OpGet k) r p' /\ pool_rel size w' p' /\
    l_order (lru w') = l_order (lru w).
Proof.
  intros Hrel Hlt. pose proof Hrel as [(ts & Hts & Hlru & Hnodes) _ _ _ Hb _ _ _]. unfold get.
  rewrite prun_bind, prun_atomic. unfold lookup_pool.
  pose proof (nr_pools _ _ Hnodes k) as Hp. destruct (pools w !! k) as [a|] eqn:Hk.
  2:{ simpl. exists p. split; [|done]. constructor. rewrite <- Hts.
      apply Forall_forall. intros e (t & -> & Ht)%list_elem_of_fmap He.
      apply elem_split in Ht as (t1 & t2 & ->). by apply group_middle_ne in Hp. }
  destruct Hp as (n & Hn & He & Hne). rewrite prun_bind.
  destruct (get_any_spec a n w Hn) as (r & n' & Hr & Hres). rewrite Hr. destruct r as [[i c]|].
  2:{ destruct Hres as [Hnil _]. rewrite Hnil in He. by apply Permutation_nil_l in He. }
  rewrite He in Hres.
  assert (exists ts1 t ts2, ts = ts1 ++ t :: ts2 /\ i_key (fst t) = k /\ i = t_id t) as (ts1 & t & ts2 & -> & Ht & ->).
  { assert (Hin : (i, c) ∈ group k ts) by (rewrite Hres; by left).
    apply list_elem_of_fmap in Hin as (t & [= -> ->] & [Ht Hin]%list_elem_of_filter).
    apply elem_split in Hin as (t1 & t2 & ->). by exists t1, t, t2. }
  destruct (group_entry _ _ _ _ _ _ Ht (lr_ids _ _ Hlru) Hres) as [Hentry He']. injection Hentry as ->.
  rewrite fmap_app, fmap_cons in Hts.
  assert (Hz : zlen (ts1 ++ t :: ts2) = zlen (a_idle p)).
  { rewrite <- Hts. unfold zlen. by rewrite !length_app, !length_cons, !length_fmap. }
  rewrite prun_bind. destruct (lru_pop_present (set_node a n' w) ts1 t ts2 Hlru) as (l' & Hpop & Hlru' & Hsame); [lia|].
  rewrite Hpop. change (set_lru l' (set_node a n' w)) with (set_node a n' (set_lru l' w)).
  rewrite <- (pbind_assoc (is_empty a)), prun_bind, (cleanup_spec (set_lru l' w) k a n) by done.
  rewrite prun_bind, prun_atomic. unfold release. cbn [prun connection notify_use].
  set (w1 := cleaned k a n' (set_lru l' w)).
  assert (Hel : elsewhere (set_lru l' w) w1 (uses w) (given w) (closed w)) by by apply cleaned_elsewhere.
  assert (Hn1 : nodes_rel w1 (ts1 ++ ts2)).
  { eapply cleaned_rel; [apply (nodes_rel_ext w); done|done|done|done|done]. }
  destruct Hel as (El & En & Eu & Eg & Ec). destruct Hsame as (S1 & S2 & S3).
  eexists. split; [rewrite <- Ht; by apply AStepGet|]. split; [|by simpl; rewrite El].
  eapply (settle_pool size w); [done|done|done| | |by apply (nodes_rel_ext w1)|..]; simpl.
  - by rewrite fmap_app.
  - by rewrite El.
  - by rewrite El.
  - done.
  - by rewrite Eu.
  - by rewrite Eg.
  - by rewrite Ec, app_nil_r.
Qed.

Lemma pop_closed_spec size w p m : pool_rel size w p -> size < usize_mod ->
  (forall e, e ∈ a_idle p -> i_id e = id m -> i_meta e = m) ->
  exists w', prun (pop_closed hash m) w = (tt, w') /\
    exists p', astep size p (OpClosed m) None p' /\ pool_rel size w' p' /\ l_order (lru w') = l_order (lru w).
Proof.
  intros Hrel Hlt Hm. pose proof Hrel as [(ts & Hts & Hlru & Hnodes) _ _ _ Hb _ _ _].
  unfold pop_closed. rewrite prun_bind.
  destruct (decide (id m ∈ t_id <$> ts)) as [Hin|Hin].
  - apply list_elem_of_fmap in Hin as (t & Hid & Hin). apply elem_split in Hin as (ts1 & ts2 & ->).
    assert (Hmt : i_meta (fst t) = m).
    { apply Hm; [|by rewrite Hid]. rewrite <- Hts. apply list_elem_of_fmap. exists t. split; [done|].
      apply elem_of_app. right. by left. }
    subst m. rewrite Hid.
    destruct (pop_evicted_present w ts1 t ts2 Hnodes (lr_ids _ _ Hlru)) as (w1 & Hr & Hn1 & El & En & Eu & Eg & Ec).
    rewrite Hr, prun_bind. rewrite <- El in Hlru.
    destruct (lru_pop_present w1 ts1 t ts2 Hlru) as (l' & Hpop & Hlru' & Hsame).
    { replace (zlen (ts1 ++ t :: ts2)) with (zlen (a_idle p)); [lia|]. rewrite <- Hts. unfold zlen. by rewrite length_fmap. }
    rewrite Hpop. simpl. eexists. split; [done|]. rewrite fmap_app, fmap_cons in Hts.
    eexists. split; [by apply AStepClosed|]. split; [|simpl; destruct Hsame as (-> & _); by rewrite El].
    eapply (settle_pool size w); [done|done|done| |done|by apply (nodes_rel_ext w1)|..]; simpl; try done.
    + by rewrite fmap_app.
    + by rewrite <- El.
    + by rewrite Eg, app_nil_r.
  - destruct (pop_evicted_absent w ts m Hnodes (lr_ids _ _ Hlru) Hin) as (w1 & Hr & Hn1 & El & En & Eu & Eg & Ec).
    rewrite Hr, prun_bind. rewrite <- El in Hlru.
    destruct (lru_pop_absent w1 ts (id m) Hlru Hin) as (l' & Hpop & Hlru' & (S1 & S2 & S3)).
    rewrite Hpop. simpl. eexists. split; [done|]. exists p. split; [|split; [|simpl; congruence]].
    + constructor. rewrite <- Hts. apply Forall_forall. intros e (t & -> & Ht)%list_elem_of_fmap He.
      apply Hin. apply list_elem_of_fmap. by exists t.
    + destruct Hrel as [_ Hch Hsize Hdrain _ Ho Hg Hc]. split; simpl; try congruence.
      { exists ts. split; [done|]. split; [done|]. by apply (nodes_rel_ext w1). }
Qed.

Lemma headroom_bounds size : 1 <= size -> 0 <= evict_headroom size < size.
Proof.
  intros Hs. unfold evict_headroom, N_SHARDS. pose proof (Z.div_pos size 4).
  pose proof (Z.div_lt_upper_bound size 4 size). lia.
Qed.

Lemma lru_add_spec size w ts e :
  lru_rel (lru w) ts -> l_size (lru w) = size -> l_drain (lru w) = false -> 1 <= size < usize_mod - 1 ->
  0 <= l_order (lru w) < usize_mod - 1 -> zlen ts <= size -> i_id e ∉ t_id <$> ts ->
  i_notifier e = length (notifiers w) ->
  let all := ts ++ [(e, l_order (lru w))] in
  let k := overflow_of size (zlen all) in
  exists l',
    prun (lru_add hash (i_id e) (i_meta e)) w =
      ((length (notifiers w), (fun t => i_meta (fst t)) <$> take k all),
       set_lru l' (notify_all (take k all) (set_notifiers (notifiers w ++ [false]) w))) /\
    lru_rel l' (drop k all) /\ l_order l' = l_order (lru w) + 1 /\ l_size l' = size /\ l_drain l' = false.
Proof.
  intros Hrel Hsize Hdrain Hs Ho Hz Hni Hn all k. unfold lru_add. rewrite prun_bind, prun_atomic. unfold new_notifier.
  rewrite prun_bind. set (w0 := set_notifiers _ w). unfold lru_put. rewrite prun_bind, prun_atomic.
  change (lru w0) with (lru w). rewrite Hdrain, prun_bind, prun_atomic.
  pose proof (shard_put_rel w0 ts e Hrel Hni ltac:(simpl; lia) ltac:(simpl; lia) ltac:(lia)) as Hput. cbv zeta in Hput.
  change (lru w0) with (lru w) in Hput. rewrite <- Hn.
  change (fetch_add_order w0) with (l_order (lru w), snd (fetch_add_order w0)).
  cbv beta iota. rewrite prun_bind, prun_atomic. cbn [close_notifier meta].
  destruct (shard_put _ _ _ _) as [old w2]. destruct Hput as [-> (l1 & Hl1 & Hrel1 & Ho1 & Hs1 & Hd1)].
  fold all in Hrel1. cbv beta iota. rewrite prun_bind, prun_atomic.
  assert (Hover : fetch_add_len w2 = (size <? zlen all, set_lru l1 w0)).
  { rewrite <- Hl1. unfold fetch_add_len at 1. cbn [snd fetch_add_len]. f_equal.
    assert (El : l_len l1 = wadd (l_len (lru w2)) 1) by (by apply (f_equal (fun w => l_len (lru w))) in Hl1).
    assert (Es : l_size l1 = l_size (lru w2)) by (by apply (f_equal (fun w => l_size (lru w))) in Hl1).
    rewrite <- El, <- Es, Hs1, (lr_len _ _ Hrel1). change (lru w0) with (lru w). by rewrite Hsize. }
  rewrite Hover. unfold k, overflow_of. change (lru w0) with (lru w) in *. destruct (Z.ltb_spec size (zlen all)) as [Hgt|Hle].
  - unfold evict_lru. rewrite prun_bind, prun_atomic. unfold over_size. cbn [lru set_lru].
    rewrite Hs1, (lr_len _ _ Hrel1), Hsize, (proj2 (Z.ltb_lt _ _)) by done.
    rewrite prun_atomic. unfold evict_locked. cbn [lru set_lru]. rewrite Hs1, Hsize, (lr_len _ _ Hrel1).
    pose proof (headroom_bounds size ltac:(lia)). pose proof (zlen_nonneg all).
    assert (Hsat : saturating_sub size (evict_headroom size) = size - evict_headroom size).
    { unfold saturating_sub. lia. }
    rewrite Hsat.
    destruct (pool_evict_loop_spec (Z.to_nat (zlen all)) (size - evict_headroom size) (set_lru l1 w0) all [])
      as (l' & He & Hrel' & (P1 & P2 & P3)); [done|lia|lia|].
    rewrite He. simpl in P1, P2, P3. exists l'. split.
    + simpl. f_equal. apply notify_all_set_lru.
    + split; [done|]. rewrite P1, P2, P3. split; [congruence|split; congruence].
  - simpl. exists l1. split; [done|]. split; [done|]. split; [done|]. split; congruence.
Qed.

Lemma notify_all_fields ts : forall w,
  notifiers (notify_all ts w) = foldl (fun ns e => <[i_notifier e := true]> ns) (notifiers w) (ts.*1) /\
  nodes (notify_all ts w) = nodes w /\ pools (notify_all ts w) = pools w /\ uses (notify_all ts w) = uses w /\
  given (notify_all ts w) = given w /\ closed (notify_all ts w) = closed w.
Proof.
  induction ts as [|t ts IH]; intros w; [done|]. cbn [notify_all fold_left fmap list_fmap foldl].
  apply (IH (notify_one (i_notifier (fst t)) w)).
Qed.

Lemma foldl_uses_app evs x : forall us, Forall (fun e => (i_use e < length us)%nat) evs ->
  foldl (fun us e => <[i_use e := SenderDropped]> us) (us ++ [x]) evs =
  foldl (fun us e => <[i_use e := SenderDropped]> us) us evs ++ [x].
Proof.
  induction evs as [|e evs IH]; intros us Hall; [done|]. apply Forall_cons in Hall as [? Hall]. simpl.
  rewrite insert_app_l by done. apply IH. by rewrite length_insert.
Qed.

Lemma foldl_uses_length evs : forall us,
  length (foldl (fun us e => <[i_use e := SenderDropped]> us) us evs) = length us.
Proof. induction evs as [|e evs IH]; intros us; [done|]. simpl. by rewrite IH, length_insert. Qed.

Lemma foldl_fst (ts : list Tracked) (us : list Use) :
  foldl (fun us t => <[i_use (fst t) := SenderDropped]> us) us ts =
  foldl (fun us e => <[i_use e := SenderDropped]> us) us (ts.*1).
Proof. revert us. induction ts as [|t ts IH]; intros us; [done|]. apply IH. Qed.

Lemma evicted_past (es evs : list Idle) past es' :
  a_given (MkAPool es' (past ++ ((fun e => (e, Evicted)) <$> evs))) = a_given (MkAPool es past) /\
  a_closed (MkAPool es' (past ++ ((fun e => (e, Evicted)) <$> evs))) = a_closed (MkAPool es past) ++ (i_conn <$> evs).
Proof.
  unfold a_given, a_closed. simpl. rewrite !filter_app, !fmap_app. split.
  - rewrite <- (app_nil_r (_ <$> filter _ past)) at 2. f_equal. induction evs; [done|].
    by rewrite fmap_cons, filter_cons_False.
  - f_equal. induction evs; [done|]. rewrite fmap_cons, filter_cons_True by done. simpl. by f_equal.
Qed.

Lemma take_fst (ts : list Tracked) k : (take k ts).*1 = take k ts.*1.
Proof. by rewrite fmap_take. Qed.

Lemma put_chans p ns us m c k : chan_rel ns us (a_chans p) -> (k <= length (a_idle p))%nat ->
  let all := a_idle p ++ [MkIdle m c (length ns) (length us)] in
  chan_rel (foldl (fun ns e => <[i_notifier e := true]> ns) (ns ++ [false]) (take k (a_idle p)))
    (foldl (fun us e => <[i_use e := SenderDropped]> us) us (take k (a_idle p)) ++ [Waiting])
    (a_chans (MkAPool (drop k all) (a_past p ++ ((fun e => (e, Evicted)) <$> take k all)))).
Proof.
  intros Hch Hk all. set (e := MkIdle m c (length ns) (length us)) in *.
  rewrite <- foldl_uses_app.
  2:{ apply Forall_forall. intros x Hx.
      assert (Hin : (x, None) ∈ a_chans p).
      { unfold a_chans. apply elem_of_app. left. apply list_elem_of_fmap. exists x. split; [done|].
        rewrite <- (take_drop k (a_idle p)). apply elem_of_app. by left. }
      apply (proj1 (Forall_forall _ _) (cr_ok _ _ _ Hch)) in Hin as [_ Hin]. by apply lookup_lt_Some in Hin. }
  set (rest := (e, None) :: ((fun e => (e, @None Fate)) <$> drop k (a_idle p)) ++
               ((fun x => (fst x, Some (snd x))) <$> a_past p)).
  eapply (chan_rel_perm _ _ (((fun e => (e, Some Evicted)) <$> take k (a_idle p)) ++ rest)).
  { unfold a_chans, rest, all. cbn [a_idle a_past]. rewrite take_app_le, drop_app_le by done.
    rewrite !fmap_app, <- !list_fmap_compose. cbn [fmap list_fmap]. unfold compose. simpl. solve_Permutation. }
  apply chan_rel_evict. eapply chan_rel_perm; [|apply (chan_rel_new _ _ _ m c Hch)].
  unfold a_chans, rest. rewrite <- (take_drop k (a_idle p)) at 1. rewrite fmap_app. solve_Permutation.
Qed.

Lemma put_spec size w p m c : pool_rel size w p -> 1 <= size < usize_mod - 1 -> l_order (lru w) < usize_mod - 1 ->
  id m ∉ i_id <$> a_idle p ->
  let (r, w') := prun (put hash m c) w in
  exists p', astep size p (OpPut m c) None p' /\ pool_rel size w' p' /\ l_order (lru w') = l_order (lru w) + 1.
Proof.
  intros [(ts & Hts & Hlru & Hnodes) Hch Hsize Hdrain Hb Ho Hg Hc] Hs Hlt Hni.
  set (e := MkIdle m c (length (notifiers w)) (length (uses w))).
  assert (Hz : zlen ts = zlen (a_idle p)) by (rewrite <- Hts; unfold zlen; by rewrite length_fmap).
  rewrite <- Hts, <- t_ids in Hni.
  destruct (lru_add_spec size w ts e Hlru Hsize Hdrain Hs) as (l' & Hadd & Hlru' & Ho' & Hs' & Hd'); [lia|lia|done|done|].
  set (all := ts ++ [(e, l_order (lru w))]) in *. set (k := overflow_of size (zlen all)) in *.
  assert (Hk : (k <= length ts)%nat).
  { unfold k, overflow_of, all. rewrite zlen_app. pose proof (headroom_bounds size ltac:(lia)). unfold zlen in *. simpl.
    case Z.ltb_spec; intros; lia. }
  assert (Htake : take k all = take k ts) by (unfold all; by rewrite take_app_le).
  assert (Hdrop : drop k all = drop k ts ++ [(e, l_order (lru w))]) by (unfold all; by rewrite drop_app_le).
  unfold put. rewrite prun_bind. change (id m) with (i_id e). change m with (i_meta e) at 1. rewrite Hadd, Htake.
  set (w1 := set_lru l' _). cbn [fst snd]. rewrite prun_bind.
  destruct (notify_all_fields (take k ts) (set_notifiers (notifiers w ++ [false]) w)) as (N1 & N2 & N3 & N4 & N5 & N6).
  assert (Hn1 : nodes_rel w1 (take k ts ++ drop k ts)).
  { rewrite take_drop. eapply nodes_rel_ext; [| |exact Hnodes]; [by apply N3|by apply N2]. }
  pose proof (lr_ids _ _ Hlru) as Hids.
  destruct (pop_evicted_all (take k ts) w1 (drop k ts) Hn1) as (w2 & Hr2 & Hn2 & E1 & E2 & E3 & E4 & E5);
    [by rewrite take_drop|].
  rewrite Hr2, prun_bind, prun_atomic. unfold new_oneshot. rewrite prun_bind.
  rewrite foldl_fst, take_fst, Hts in E3. change (uses w1) with (uses (notify_all (take k ts) (set_notifiers (notifiers w ++ [false]) w))) in E3.
  rewrite N4 in E3. cbn [uses set_notifiers] in E3.
  assert (Hlu : length (uses w2) = length (uses w)) by (rewrite E3; apply foldl_uses_length).
  rewrite Hlu.
  destruct (insert_pool_spec (set_uses (uses w2 ++ [Waiting]) w2) (drop k ts) (e, l_order (lru w)))
    as (w3 & Hr3 & Hn3 & F1 & F2 & F3 & F4 & F5).
  { by apply (nodes_rel_ext w2). }
  { rewrite <- (take_drop k ts), fmap_app in Hni. set_solver. }
  change (key m) with (i_key e). change (MkPoolConnection (length (uses w)) c) with (snd (t_entry (e, l_order (lru w)))).
  change (i_id e) with (t_id (e, l_order (lru w))). change (i_key e) with (i_key (fst (e, l_order (lru w)))).
  rewrite Hr3. cbn [prun].
  eexists. split; [apply (AStepPut size p m c (length (notifiers w)) (length (uses w)))|].
  assert (Hall : all.*1 = a_idle p ++ [e]) by (unfold all; by rewrite fmap_app, Hts).
  assert (Hover : overflow size (a_idle p ++ [e]) = k).
  { unfold overflow, k. rewrite <- Hall. unfold zlen. by rewrite length_fmap. }
  fold e. rewrite Hover. split; [|by rewrite F1; simpl; rewrite E1].
  destruct (evicted_past (a_idle p) (take k (a_idle p)) (a_past p) (drop k (a_idle p ++ [e]))) as [G1 G2].
  assert (Htk : take k (a_idle p ++ [e]) = take k (a_idle p)).
  { rewrite take_app_le; [done|]. rewrite <- Hts, length_fmap. done. }
  split; rewrite ?F1, ?F2, ?F3, ?F4, ?F5; cbn [lru notifiers uses given closed set_uses]; rewrite ?E1, ?E2, ?E3, ?E4, ?E5.
  - exists (drop k all). rewrite fmap_drop, Hall. split; [done|]. split; [done|]. by rewrite Hdrop.
  - change (notifiers w1) with (notifiers (notify_all (take k ts) (set_notifiers (notifiers w ++ [false]) w))).
    rewrite N1, take_fst, Hts. apply put_chans; [done|]. by rewrite <- Hts, length_fmap.
  - done.
  - done.
  - cbn [a_idle]. rewrite <- Hover. unfold overflow, overflow_of. pose proof (headroom_bounds size ltac:(lia)).
    rewrite zlen_app. unfold zlen in *. rewrite length_drop, length_app. simpl.
    case Z.ltb_spec; intros; lia.
  - cbn [lru w1 set_lru]. lia.
  - rewrite Htk, G1. change (given w1) with (given (notify_all (take k ts) (set_notifiers (notifiers w ++ [false]) w))).
    rewrite N5. simpl. rewrite Hg. by destruct p.
  - rewrite Htk, G2. change (closed w1) with (closed (notify_all (take k ts) (set_notifiers (notifiers w ++ [false]) w))).
    rewrite N6. simpl. rewrite Hc. f_equal. rewrite <- Hts, <- take_fst, <- list_fmap_compose. done.
Qed.

(** ** Sequences of operations *)

Definition run_op (o : Op) (w : W) : option S * W :=
  match o with
  | OpPut m c => (None, snd (prun (put hash m c) w))
  | OpGet k => prun (get hash any_key k) w
  | OpClosed m => (None, snd (prun (pop_closed hash m) w))
  end.
Fixpoint run_ops (ops : list Op) (w : W) : list (option S) * W :=
  match ops with
  | [] => ([], w)
  | o :: ops => let (r, w) := run_op o w in let (rs, w) := run_ops ops w in (r :: rs, w)
  end.

Inductive aruns (size : Z) : APool -> list Op -> list (option S) -> APool -> Prop :=
  | ARunsNil p : aruns size p [] [] p
  | ARunsCons p o r p1 ops rs p2 :
      astep size p o r p1 -> aruns size p1 ops rs p2 -> aruns size p (o :: ops) (r :: rs) p2.

(** The entry of the LRU for an identifier. *)
Definition tracked (i : Z) (w : W) : option Node := assoc_get i (lc_list (the_shard (lru w) (shard hash i))).

(** An identifier is not put again while it is in the pool, and a connection is
    closed under the group it was put under. *)
Definition op_ok (o : Op) (w : W) : Prop :=
  match o with
  | OpPut m _ => tracked (id m) w = None
  | OpGet _ => True
  | OpClosed m => match tracked (id m) w with Some node => meta node = m | None => True end
  end.
Fixpoint ops_ok (ops : list Op) (w : W) : Prop :=
  match ops with [] => True | o :: ops => op_ok o w /\ ops_ok ops (snd (run_op o w)) end.

Lemma tracked_idle size w p e : pool_rel size w p -> e ∈ a_idle p ->
  exists o, tracked (i_id e) w = Some (MkNode (i_notifier e) (i_meta e) o).
Proof.
  intros [(ts & Hts & Hlru & _) _ _ _ _ _ _ _] He. rewrite <- Hts in He.
  apply list_elem_of_fmap in He as (t & -> & Ht). apply elem_split in Ht as (ts1 & ts2 & ->). unfold tracked.
  change (i_id (fst t)) with (t_id t).
  rewrite (lr_lists _ _ Hlru) by apply shard_lt. rewrite shard_list_assoc by first [done|apply (lr_ids _ _ Hlru)].
  by eexists.
Qed.

Lemma step_refines size w p o : pool_rel size w p -> 1 <= size < usize_mod - 1 -> l_order (lru w) < usize_mod - 1 ->
  op_ok o w ->
  let (r, w') := run_op o w in
  exists p', astep size p o r p' /\ pool_rel size w' p' /\ l_order (lru w') <= l_order (lru w) + 1.
Proof.
  intros Hrel Hs Ho Hok. destruct o as [m c|k|m]; cbn [run_op op_ok] in *.
  - pose proof (put_spec size w p m c Hrel Hs Ho) as Hput. destruct (prun (put hash m c) w) as [r w'].
    destruct Hput as (p' & ? & ? & ?); [|exists p'; cbn [snd]; split_and!; [done|done|lia]].
    intros (e & He & Hin)%list_elem_of_fmap. destruct (tracked_idle _ _ _ _ Hrel Hin) as (o & Ht). congruence.
  - pose proof (get_spec size w p k Hrel ltac:(lia)) as Hget. destruct (prun (get hash any_key k) w) as [r w'].
    destruct Hget as (p' & ? & ? & ?). exists p'. split_and!; [done|done|lia].
  - destruct (pop_closed_spec size w p m Hrel ltac:(lia)) as (w' & Hr & p' & ? & ? & ?).
    { intros e Hin He. destruct (tracked_idle _ _ _ _ Hrel Hin) as (o & Ht). rewrite He in Ht. by rewrite Ht in Hok. }
    rewrite Hr. exists p'. cbn [snd]. split_and!; [done|done|lia].
Qed.

Lemma run_refines size ops : forall w p, pool_rel size w p -> 1 <= size < usize_mod - 1 ->
  l_order (lru w) + zlen ops < usize_mod -> ops_ok ops w ->
  let (rs, w') := run_ops ops w in exists p', aruns size p ops rs p' /\ pool_rel size w' p'.
Proof.
  induction ops as [|o ops IH]; intros w p Hrel Hs Ho Hok; simpl.
  { exists p. split; [constructor|done]. }
  destruct Hok as [Hok Hoks]. rewrite zlen_cons in Ho. pose proof (zlen_nonneg ops).
  pose proof (step_refines size w p o Hrel Hs ltac:(lia) Hok) as Hstep. destruct (run_op o w) as [r w1].
  destruct Hstep as (p1 & Hstep & Hrel1 & Ho1). specialize (IH w1 p1 Hrel1 Hs ltac:(lia) Hoks).
  destruct (run_ops ops w1) as [rs w2]. destruct IH as (p2 & ? & ?). exists p2. split; [by econstructor|done].
Qed.

Lemma pool_new_rel size : 0 <= size -> pool_rel size (pool_new size) (MkAPool [] []).
Proof.
  intros Hs. split; [|split; [apply Forall_nil_2|apply NoDup_nil_2..]|done|done|done|done|done|done].
  exists []. split; [done|]. split.
  - split; [done|done| |constructor|constructor|constructor].
    intros s Hs'. unfold the_shard, shard_list. cbn [lru pool_new lrus lru_new].
    rewrite lookup_replicate_2 by done. simpl. apply lc_unbounded_spec.
  - split; [|intros k1 k2 a; simpl; by rewrite lookup_empty]. intros k. simpl. by rewrite lookup_empty.
Qed.

(** What a watcher of the connection learns from its two channels. *)
Definition fate_seen (f : option Fate) : option bool :=
  match f with None => None | Some Evicted => Some true | Some _ => Some false end.

Lemma watcher_sees ns us cs w c : chan_rel ns us cs -> notifiers w = ns -> uses w = us -> c ∈ cs ->
  fst (prun (poll_taken (i_notifier (fst c)) (i_use (fst c))) w) = fate_seen (snd c).
Proof.
  intros [Hok _ _] <- <- Hc. apply (proj1 (Forall_forall _ _) Hok) in Hc as [Hn Hu].
  unfold poll_taken. rewrite prun_bind, prun_atomic. unfold poll_use. rewrite Hu.
  destruct c as [e [[]|]]; simpl in *; try done; by rewrite Hn.
Qed.

(** C20: Any sequence of puts, gets and closes implements the abstract pool: a get
    returns an idle connection of its group if there is one, a put evicts the
    oldest connections when there are too many, and never more connections are
    idle than the size.  Connections are handed out and closed exactly as the
    abstract pool says, the map has nodes exactly for the groups that have idle
    connections, and a watcher learns whether its connection is still idle, was
    evicted, or was taken or closed. *)
Theorem pool_refines size ops :
  1 <= size < usize_mod - 1 -> zlen ops < usize_mod -> ops_ok ops (pool_new size) ->
  let (rs, w) := run_ops ops (pool_new size) in
  exists p, aruns size (MkAPool [] []) ops rs p /\ zlen (a_idle p) <= size /\
    given w = a_given p /\ closed w = a_closed p /\
    (forall k, is_Some (pools w !! k) <-> exists e, e ∈ a_idle p /\ i_key e = k) /\
    (forall c, c ∈ a_chans p ->
       fst (prun (poll_taken (i_notifier (fst c)) (i_use (fst c))) w) = fate_seen (snd c)).
Proof.
  intros Hs Hz Hok.
  pose proof (run_refines size ops (pool_new size) _ (pool_new_rel size ltac:(lia)) Hs ltac:(simpl; lia) Hok) as Hrun.
  destruct (run_ops ops (pool_new size)) as [rs w]. destruct Hrun as (p & Hruns & Hrel). exists p.
  destruct Hrel as [(ts & Hts & Hlru & Hnodes) Hch Hsize Hdrain Hb Ho Hg Hc].
  split_and!; [done|done|done|done| |intros c Hin; by eapply watcher_sees].
  intros k. pose proof (nr_pools _ _ Hnodes k) as Hp. rewrite <- Hts. split.
  - intros [a Ha]. rewrite Ha in Hp. destruct Hp as (n & _ & _ & Hne).
    unfold group in Hne. destruct (filter _ ts) as [|t l] eqn:Hf; [done|].
    assert (Hin : t ∈ filter (fun t => i_key (fst t) = k) ts) by (rewrite Hf; by left).
    apply list_elem_of_filter in Hin as [Hk Hin]. exists (fst t). split; [|done]. apply list_elem_of_fmap. by exists t.
  - intros (e & (t & -> & Ht)%list_elem_of_fmap & Hk). apply elem_split in Ht as (ts1 & ts2 & ->).
    destruct (pools w !! k); [done|]. by apply group_middle_ne in Hp.
Qed.

End spec.

(** ** Lists as the crates *)

Record ListQueue (A : Type) := MkQueue { lq_cap : nat; lq_items : list A }.
Arguments MkQueue {A} lq_cap lq_items.
Arguments lq_cap {A} l.
Arguments lq_items {A} l.

#[export] Instance list_queue : ArrayQueueCrate ListQueue.
Proof.
  refine {|
    aq_new A n := MkQueue n [];
    aq_push A a q := if (length (lq_items q) <? lq_cap q)%nat then (None, MkQueue (lq_cap q) (lq_items q ++ [a])) else (Some a, q);
    aq_pop A q := (head (lq_items q), MkQueue (lq_cap q) (tail (lq_items q)));
    aq_len A q := length (lq_items q);
    aq_is_empty A q := match lq_items q with [] => true | _ => false end;
    aq_list A q := lq_items q;
    aq_cap A q := lq_cap q |}.
  - done.
  - intros A a q Hlt. by rewrite (proj2 (Nat.ltb_lt _ _) Hlt).
  - intros A a q Hge. by rewrite (proj2 (Nat.ltb_ge _ _) Hge).
  - done.
  - done.
  - intros A q. by destruct (lq_items q).
Defined.

Definition ListLru (A : Type) : Type := list (Z * A).

#[export] Instance list_lru : LruCrate ListLru.
Proof.
  refine {|
    lc_unbounded A := [];
    lc_put A k a l := (assoc_get k l, filter (fun e => fst e <> k) l ++ [(k, a)]);
    lc_pop A k l := (assoc_get k l, filter (fun e => fst e <> k) l);
    lc_peek_lru A l := head l;
    lc_pop_lru A l := (head l, tail l);
    lc_iter A l := reverse l;
    lc_clear A l := [];
    lc_list A l := l |}; try done.
  intros A l. apply reverse_Permutation.
Defined.

Definition first_key {A} (m : gmap Z A) : option Z := fst <$> head (map_to_list m).

Lemma first_key_none {A} (m : gmap Z A) : first_key m = None -> m = ∅.
Proof.
  unfold first_key. destruct (map_to_list m) eqn:Hm; [|done]. intros _. by apply map_to_list_empty_iff.
Qed.
Lemma first_key_some {A} (m : gmap Z A) i : first_key m = Some i -> is_Some (m !! i).
Proof.
  unfold first_key. destruct (map_to_list m) as [|[j a] l] eqn:Hm; [done|]. intros [= <-].
  exists a. apply elem_of_map_to_list. rewrite Hm. by left.
Qed.

Notation TestPool := (@ConnectionPool ListQueue ListLru (gmap Z) string).
Definition test_run : list (@Op string) -> TestPool -> list (option string) * TestPool :=
  run_ops (fun i => i) first_key.

(** Three connections in a pool for two: the first is evicted; one of the
    others is taken, one closed. *)
Definition test_ops : list (@Op string) :=
  [OpPut (MkMeta 101 1) "a"; OpPut (MkMeta 102 2) "b"; OpPut (MkMeta 101 3) "c"; OpGet 101; OpGet 101; OpClosed (MkMeta 102 2)]%string.

Lemma pool_refines_witness :
  fst (test_run test_ops (pool_new 2)) = [None; None; None; Some "c"%string; None; None] /\
  (let (rs, w) := test_run test_ops (pool_new 2) in
   exists p, aruns 2 (MkAPool [] []) test_ops rs p /\ zlen (a_idle p) <= 2 /\
     given w = a_given p /\ closed w = a_closed p /\
     (forall k, is_Some (pools w !! k) <-> exists e, e ∈ a_idle p /\ i_key e = k) /\
     (forall c, c ∈ a_chans p ->
        fst (prun (poll_taken (i_notifier (fst c)) (i_use (fst c))) w) = fate_seen (snd c))).
Proof.
  split; [vm_compute; reflexivity|].
  apply (pool_refines (fun i => i) first_key first_key_none first_key_some 2 test_ops).
  - rewrite usize_mod_val. lia.
  - rewrite usize_mod_val. reflexivity.
  - vm_compute. repeat split.
Defined.

(** ** At the boundary *)

(** With size 0 a connection is evicted before it is inserted: it stays in the
    pool, and nothing bounds how many there are. *)
Lemma size_zero_unbounded :
  let '(_, w) := test_run [OpPut (MkMeta 1 1) "a"; OpPut (MkMeta 1 2) "b"]%string (pool_new 0) in
  l_len (lru w) = 0 /\ closed w = [] /\
  (exists a, pools w !! 1 = Some a /\ (a_node ← nodes w !! a; Some (length (entries a_node))) = Some 2%nat).
Proof. vm_compute. split; [done|]. split; [done|]. by exists 0%nat. Qed.
