(* ===== verification/PoolConcurrent.v ===== *)
(** * The connection pool under concurrency

    Whatever the interleaving of the operations of any number of threads, every
    connection put is in one place: in the pool, handed out, closed, or in the
    hands of an operation that has not ended.  So none is handed out twice, and
    none after it was closed.

    A connection can be stranded, though: an eviction that looks for a connection
    in the queue takes the others out for a moment, and the node that looks empty
    meanwhile can be removed from the map. *)

From stdpp Require Import base list list_tactics numbers strings gmap fin_maps.
From Stdlib Require Import ZArith Lia.
From S2P Require Import Prelude Interleave Pool PoolSpec.
Import Pool.
Local Open Scope Z_scope.

Section concurrent.
Context {Q : Type -> Type} {AQ : ArrayQueueCrate Q} {L : Type -> Type} {LC : LruCrate L}.
Context {D : Type -> Type} `{DF : FMap D, DL : !∀ A, Lookup Z A (D A), DE : !∀ A, Empty (D A)}.
Context `{DP : !∀ A, PartialAlter Z A (D A), DO : !OMap D, DM : !Merge D, DFo : !∀ A, MapFold Z A (D A)} `{FM : !FinMap Z D}.
Context {S : Type}.
Variable hash : Z -> Z.
Variable any_key : gmap Z (PoolConnection S) -> option Z.
Hypothesis any_key_some : forall m i, any_key m = Some i -> is_Some (m !! i).

Notation W := (@ConnectionPool Q L D S).
Notation PoolNode := (@PoolNode Q S).
Notation PC := (PoolConnection S).
Implicit Types (w : W) (n : PoolNode).

(** ** What the state owns *)

Definition node_conns n : list S := connection ∘ snd <$> entries n.
Definition owned (w : W) : list S := concat (node_conns <$> nodes w) ++ given w ++ closed w.
(** The map refers to nodes; nodes stay. *)
Definition inv (w : W) : Prop := forall k a, pools w !! k = Some a -> (a < length (nodes w))%nat.
Definition later (w w' : W) : Prop := (length (nodes w) <= length (nodes w'))%nat.

#[local] Instance later_preorder : PreOrder later.
Proof. split; [intros w|intros w1 w2 w3]; unfold later; lia. Qed.

Notation mv := (moves owned inv later).

Definition valid (a : nat) (w : W) : Prop := (a < length (nodes w))%nat.
Lemma valid_later a w w' : valid a w -> later w w' -> valid a w'.
Proof. unfold valid, later. lia. Qed.
Lemma valid_node a w : valid a w -> exists n, nodes w !! a = Some n.
Proof. apply lookup_lt_is_Some_2. Qed.

(** ** Steps *)

(** A node is replaced by one with other connections. *)
Lemma node_move a n n' w h h' : nodes w !! a = Some n ->
  node_conns n' ++ h' ≡ₚ node_conns n ++ h -> owned (set_node a n' w) ++ h' ≡ₚ owned w ++ h.
Proof.
  intros Ha Hp. unfold owned. cbn [nodes given closed set_node set_nodes].
  assert (Hi : (node_conns <$> nodes w) !! a = Some (node_conns n)) by (by rewrite list_lookup_fmap, Ha).
  destruct (concat_insert _ a _ (node_conns n') Hi) as (r & Hr & Hr').
  rewrite list_fmap_insert, Hr, Hr'. transitivity ((node_conns n' ++ h') ++ r ++ given w ++ closed w); [solve_Permutation|].
  rewrite Hp. solve_Permutation.
Qed.

Lemma set_node_inv a n w : inv w -> inv (set_node a n w) /\ later w (set_node a n w).
Proof. intros Hi. unfold inv, later. simpl. rewrite length_insert. split; [apply Hi|lia]. Qed.

(** A step on one node. *)
Lemma moves_node {B} a (f : W -> B * W) w0 h (post : B -> list S -> Prop) :
  valid a w0 ->
  (forall w n, nodes w !! a = Some n -> exists n' h', snd (f w) = set_node a n' w /\
     node_conns n' ++ h' ≡ₚ node_conns n ++ h /\ post (fst (f w)) h') ->
  mv w0 (atomic f) h (fun _ b h' => post b h').
Proof.
  intros Hv Hf. apply moves_atomic. intros w Hl Hw. destruct (valid_node a w) as [n Hn]; [by eapply valid_later|].
  destruct (Hf w n Hn) as (n' & h' & -> & Hp & Hpost). destruct (set_node_inv a n' w Hw).
  split; [done|]. split; [done|]. exists h'. split; [by eapply node_move|done].
Qed.

(** A step that leaves the nodes alone, as most do. *)
Definition same_nodes (w w' : W) : Prop :=
  nodes w' = nodes w /\ pools w' = pools w /\ given w' = given w /\ closed w' = closed w.

Lemma moves_quiet {B} (f : W -> B * W) w0 h :
  (forall w, same_nodes w (snd (f w))) -> mv w0 (atomic f) h (fun _ _ h' => h' = h).
Proof.
  intros Hf. apply moves_atomic. intros w Hl Hw. destruct (Hf w) as (H1 & H2 & H3 & H4).
  split; [|split; [|exists h; split; [|done]]].
  - intros k a. rewrite H1, H2. apply Hw.
  - unfold later. by rewrite H1.
  - unfold owned. by rewrite H1, H3, H4.
Qed.

Lemma entries_conns n : node_conns n = (connection <$> (map_to_list (connections n)).*2) ++ (connection <$> (aq_list (hot_queue n)).*2).
Proof. unfold node_conns, entries. by rewrite fmap_app, <- !list_fmap_compose. Qed.

(** ** Nodes *)

(** The connection in a result. *)
Definition held (r : option PC) : list S := match r with None => [] | Some c => [connection c] end.
Definition held_entry (r : option (Z * PC)) : list S := held (snd <$> r).

Lemma queue_push_moves a i (c : PC) w0 : valid a w0 ->
  mv w0 (atomic (queue_push a (i, c))) [connection c] (fun _ r h => h = held_entry r).
Proof.
  intros Hv. apply (moves_node a _ _ _ (fun r h => h = held_entry r)); [done|].
  intros w n Hn. unfold queue_push. rewrite (the_node_eq _ _ _ Hn).
  destruct (decide (length (aq_list (hot_queue n)) < aq_cap (hot_queue n))%nat) as [Hlt|Hge].
  - destruct (aq_push_room (i, c) (hot_queue n) Hlt) as (P1 & P2 & _). destruct (aq_push _ _) as [r q]. simpl in *. subst r.
    do 2 eexists. split; [done|]. split; [|done]. rewrite !entries_conns. simpl. rewrite P2, !fmap_app. simpl. solve_Permutation.
  - rewrite (aq_push_full (i, c) (hot_queue n)) by lia. simpl. do 2 eexists. split; [done|]. split; [|done].
    by rewrite !entries_conns.
Qed.

Lemma queue_pop_moves a w0 : valid a w0 ->
  mv w0 (atomic (queue_pop a)) [] (fun _ r h => h = held_entry r).
Proof.
  intros Hv. apply (moves_node a _ _ _ (fun r h => h = held_entry r)); [done|].
  intros w n Hn. unfold queue_pop. rewrite (the_node_eq _ _ _ Hn).
  destruct (aq_pop_spec (hot_queue n)) as (P1 & P2 & _). destruct (aq_pop _) as [r q]. simpl in *.
  do 2 eexists. split; [done|]. split; [|done]. rewrite !entries_conns. simpl. rewrite P1, P2.
  destruct (aq_list (hot_queue n)); simpl; solve_Permutation.
Qed.

Lemma table_remove_moves a i w0 : valid a w0 ->
  mv w0 (atomic (table_remove a i)) [] (fun _ r h => h = held r).
Proof.
  intros Hv. apply (moves_node a _ _ _ (fun r h => h = held r)); [done|].
  intros w n Hn. unfold table_remove. rewrite (the_node_eq _ _ _ Hn). simpl.
  do 2 eexists. split; [done|]. split; [|done]. rewrite !entries_conns. simpl.
  destruct (connections n !! i) as [c|] eqn:Hc.
  - rewrite <- (map_to_list_delete (connections n) i c) by done. simpl. solve_Permutation.
  - rewrite delete_id by done. done.
Qed.

Lemma table_any_moves a w0 : valid a w0 ->
  mv w0 (atomic (table_any any_key a)) [] (fun _ r h => h = held_entry r).
Proof.
  intros Hv. apply (moves_node a _ _ _ (fun r h => h = held_entry r)); [done|].
  intros w n Hn. unfold table_any. rewrite (the_node_eq _ _ _ Hn). destruct (any_key (connections n)) as [i|] eqn:Hk.
  - destruct (any_key_some _ _ Hk) as [c Hc]. unfold table_remove. rewrite (the_node_eq _ _ _ Hn), Hc. simpl.
    do 2 eexists. split; [done|]. split; [|done]. rewrite !entries_conns. simpl.
    rewrite <- (map_to_list_delete (connections n) i c) by done. simpl. solve_Permutation.
  - simpl. exists n, []. split; [|done]. unfold set_node, set_nodes. rewrite list_insert_id by done. by destruct w.
Qed.

(** Handing out and closing are recorded. *)
Lemma drop_moves (c : option PC) w0 :
  mv w0 (atomic (fun w => (tt, drop_option c w))) (held c) (fun _ _ h => h = []).
Proof.
  apply moves_atomic. intros w Hl Hw. destruct c as [c|]; simpl.
  - split; [exact Hw|]. split; [unfold later; simpl; lia|]. exists []. split; [|done]. unfold owned. simpl. solve_Permutation.
  - split; [done|]. split; [done|]. by exists [].
Qed.

Lemma release_moves (c : PC) w0 : mv w0 (atomic (release c)) [connection c] (fun _ _ h => h = []).
Proof.
  apply moves_atomic. intros w Hl Hw. simpl. split; [exact Hw|]. split; [unfold later; simpl; lia|].
  exists []. split; [|done]. unfold owned. simpl. solve_Permutation.
Qed.

Lemma table_insert_moves a e w0 : valid a w0 ->
  mv w0 (atomic (table_insert a e)) [connection (snd e)] (fun _ _ h => h = []).
Proof.
  intros Hv. apply moves_atomic. intros w Hl Hw. destruct (valid_node a w) as [n Hn]; [by eapply valid_later|].
  unfold table_insert. rewrite (the_node_eq _ _ _ Hn). simpl.
  set (n' := MkPoolNode (<[fst e := snd e]> (connections n)) (hot_queue n)).
  destruct (set_node_inv a n' w Hw) as [Hi Hla].
  assert (Hm : owned (set_node a n' w) ++ (connection <$> option_list (connections n !! fst e)) ≡ₚ owned w ++ [connection (snd e)]).
  { eapply node_move; [done|]. rewrite !entries_conns. simpl. destruct (connections n !! fst e) as [c|] eqn:Hc; simpl.
    - rewrite <- insert_delete_eq, map_to_list_insert by apply lookup_delete_eq.
      rewrite <- (map_to_list_delete (connections n) (fst e) c) by done. simpl. solve_Permutation.
    - rewrite map_to_list_insert by done. simpl. solve_Permutation. }
  destruct (connections n !! fst e) as [c|]; simpl in *.
  - split; [exact Hi|]. split; [exact Hla|]. exists []. split; [|done]. rewrite <- Hm. unfold owned. simpl. solve_Permutation.
  - split; [exact Hi|]. split; [exact Hla|]. by exists [].
Qed.

(** Bind lemmas applied to a goal on a composed program. *)
Ltac bind_with H := eapply (moves_bind owned inv later); [apply H|cbv beta].

Lemma node_insert_moves a i (c : PC) w0 : valid a w0 -> mv w0 (node_insert a i c) [connection c] (fun _ _ h => h = []).
Proof.
  intros Hv. unfold node_insert. bind_with (queue_push_moves a i c); [done|]. intros w r h Hl ->.
  destruct r as [e|]; [|by apply moves_done]. apply table_insert_moves. by eapply valid_later.
Qed.

Lemma is_empty_moves a w0 h : mv w0 (is_empty a) h (fun _ _ h' => h' = h).
Proof.
  unfold is_empty. bind_with (moves_quiet (queue_is_empty a) w0 h); [done|]. intros w e h' Hl ->.
  destruct e; [by apply (moves_quiet (table_is_empty a))|by apply moves_done].
Qed.

Lemma get_any_moves a w0 : valid a w0 -> mv w0 (get_any any_key a) [] (fun _ r h => h = held_entry r).
Proof.
  intros Hv. unfold get_any. bind_with (queue_pop_moves a); [done|]. intros w r h Hl ->.
  destruct r as [e|]; [by apply moves_done|]. apply table_any_moves. by eapply valid_later.
Qed.

Lemma remove_moves a i w0 : valid a w0 -> mv w0 (remove a i) [] (fun _ r h => h = held r).
Proof.
  intros Hv. unfold remove. bind_with (table_remove_moves a i); [done|]. intros w r h Hl ->.
  destruct r as [c|]; [by apply moves_done|]. bind_with (moves_quiet (queue_len a) w []); [done|].
  intros w1 n h Hl1 ->. apply (moves_for_until owned inv later); [|intros; by apply moves_done]. intros w2 Hl2.
  assert (Hv2 : valid a w2) by (eapply valid_later; [done|]; transitivity w; [done|]; by transitivity w1).
  unfold remove_round. bind_with (queue_pop_moves a); [done|]. intros w3 r h Hl3 ->.
  destruct r as [[j c]|]; [|by apply moves_done]. destruct (j =? i); [by apply moves_done|].
  bind_with (node_insert_moves a j c); [by eapply valid_later|]. intros w4 u h Hl4 ->. by apply moves_done.
Qed.

(** ** The LRU *)

Lemma evict_loop_quiet fuel target : forall w metas, same_nodes w (snd (evict_loop fuel target w metas)).
Proof.
  induction fuel as [|fuel IH]; intros w metas; simpl; [done|]. destruct (l_len (lru w) <=? target); [done|].
  destruct (oldest_from 0 (lrus (lru w)) None) as [[index o]|]; [|done].
  destruct (lc_pop_lru _) as [[[i evicted]|] l]; [|done]. simpl.
  match goal with |- same_nodes w (snd (evict_loop _ _ ?w1 ?m)) => destruct (IH w1 m) as (H1 & H2 & H3 & H4) end.
  split_and!; [rewrite H1|rewrite H2|rewrite H3|rewrite H4]; done.
Qed.

Lemma evict_lru_moves w0 h : mv w0 evict_lru h (fun _ _ h' => h' = h).
Proof.
  unfold evict_lru. bind_with (moves_quiet over_size w0 h); [done|]. intros w o h' Hl ->.
  destruct o; [|by apply moves_done]. apply (moves_quiet evict_locked). intros w1. apply evict_loop_quiet.
Qed.

Lemma shard_put_quiet i node w : same_nodes w (snd (shard_put hash i node w)).
Proof. unfold shard_put. by destruct (lc_put _ _ _). Qed.
Lemma shard_pop_quiet i w : same_nodes w (snd (shard_pop hash i w)).
Proof. unfold shard_pop. by destruct (lc_pop _ _). Qed.

Lemma lru_put_moves i value w0 h : mv w0 (lru_put hash i value) h (fun _ _ h' => h' = h).
Proof.
  unfold lru_put. bind_with (moves_quiet (fun w => (l_drain (lru w), w)) w0 h); [done|]. intros w d h' Hl ->. destruct d.
  { bind_with (moves_quiet (fun w => (tt, notify_one (close_notifier value) w)) w h); [done|]. intros. by apply moves_done. }
  bind_with (moves_quiet fetch_add_order w h); [done|]. intros w1 o h' Hl1 ->.
  bind_with (moves_quiet (shard_put hash i (MkNode (close_notifier value) (meta value) o)) w1 h); [apply shard_put_quiet|].
  intros w2 r h' Hl2 ->. destruct r; [by apply moves_done|].
  bind_with (moves_quiet fetch_add_len w2 h); [done|]. intros w3 over h' Hl3 ->.
  destruct over; [apply evict_lru_moves|by apply moves_done].
Qed.

Lemma lru_add_moves i m w0 h : mv w0 (lru_add hash i m) h (fun _ _ h' => h' = h).
Proof.
  unfold lru_add. bind_with (moves_quiet new_notifier w0 h); [done|]. intros w n h' Hl ->.
  bind_with lru_put_moves. intros w1 evs h' Hl1 ->. by apply moves_done.
Qed.

Lemma lru_pop_moves i w0 h : mv w0 (lru_pop hash i) h (fun _ _ h' => h' = h).
Proof.
  unfold lru_pop. bind_with (moves_quiet (shard_pop hash i) w0 h); [apply shard_pop_quiet|]. intros w r h' Hl ->.
  destruct r; [|by apply moves_done].
  bind_with (moves_quiet fetch_sub_len w h); [done|]. intros. by apply moves_done.
Qed.

(** ** The pool *)

Lemma lookup_pool_moves k w0 h :
  mv w0 (atomic (lookup_pool k)) h (fun w r h' => h' = h /\ match r with Some a => valid a w | None => True end).
Proof.
  apply moves_atomic. intros w Hl Hw. simpl. split; [done|]. split; [done|]. exists h. split; [done|].
  intros w2 Hl2. split; [done|]. destruct (pools w !! k) as [a|] eqn:Hk; [|done]. eapply valid_later; [by apply (Hw k)|done].
Qed.

Lemma remove_if_moves k w0 h : mv w0 (atomic (remove_if_empty k)) h (fun _ _ h' => h' = h).
Proof.
  apply moves_atomic. intros w Hl Hw. unfold remove_if_empty. destruct (pools w !! k) as [a|] eqn:Hk.
  2:{ simpl. split; [done|]. split; [done|]. by exists h. }
  pose proof (moves_prun owned inv later (is_empty a) w h _ (is_empty_moves a w h) Hw) as Hr.
  destruct (prun (is_empty a) w) as [e w1]. destruct Hr as (Hw1 & Hl1 & h' & Hp & ->). destruct e; cbn [fst snd].
  - split; [|split; [done|by exists h]]. intros k' a'. cbn [pools set_pools nodes]. rewrite lookup_delete_Some.
    intros [_ ?]. by eapply Hw1.
  - split; [done|]. split; [done|]. by exists h.
Qed.

Lemma try_remove_moves k w0 h : mv w0 (try_remove_empty_node k) h (fun _ _ h' => h' = h).
Proof.
  unfold try_remove_empty_node. bind_with (lookup_pool_moves k w0 h). intros w [a|] h' Hl [-> Hv]; [|by apply moves_done].
  bind_with is_empty_moves. intros w1 e h' Hl1 ->. destruct e; [apply remove_if_moves|by apply moves_done].
Qed.

Lemma pop_evicted_moves m w0 : mv w0 (pop_evicted m) [] (fun _ _ h => h = []).
Proof.
  unfold pop_evicted. bind_with (lookup_pool_moves (key m) w0 []). intros w [a|] h Hl [-> Hv]; [|by apply moves_done].
  bind_with (remove_moves a (id m)); [done|]. intros w1 r h Hl1 ->.
  bind_with (drop_moves r). intros w2 u h Hl2 ->.
  bind_with is_empty_moves. intros w3 e h Hl3 ->. destruct e; [apply try_remove_moves|by apply moves_done].
Qed.

Lemma pop_closed_moves m w0 : mv w0 (pop_closed hash m) [] (fun _ _ h => h = []).
Proof.
  unfold pop_closed. bind_with pop_evicted_moves. intros w u h Hl ->.
  bind_with lru_pop_moves. intros w1 r h Hl1 ->. by apply moves_done.
Qed.

Lemma get_moves k w0 : mv w0 (get hash any_key k) [] (fun _ _ h => h = []).
Proof.
  unfold get. bind_with (lookup_pool_moves k w0 []). intros w [a|] h Hl [-> Hv]; [|by apply moves_done].
  bind_with (get_any_moves a); [done|]. intros w1 [[i c]|] h Hl1 ->.
  - bind_with lru_pop_moves. intros w2 r h Hl2 ->.
    bind_with is_empty_moves. intros w3 e h Hl3 ->.
    eapply (moves_bind owned inv later) with (post := fun _ _ h => h = [connection c]).
    { destruct e; [apply try_remove_moves|by apply moves_done]. }
    intros w4 u h Hl4 ->. bind_with (release_moves c). intros w5 s h Hl5 ->. by apply moves_done.
  - bind_with try_remove_moves. intros w2 u h Hl2 ->. by apply moves_done.
Qed.

Lemma insert_pool_moves k i (c : PC) w0 :
  mv w0 (insert_pool_connection k i c) [connection c] (fun _ _ h => h = []).
Proof.
  unfold insert_pool_connection. apply moves_atomic. intros w Hl Hw.
  destruct (pool_entry k w) as [a w1] eqn:He.
  assert (Hentry : inv w1 /\ later w w1 /\ valid a w1 /\ owned w1 ≡ₚ owned w).
  { unfold pool_entry in He. destruct (pools w !! k) as [a'|] eqn:Hk; simplify_eq/=.
    - split_and!; [done|done|by apply (Hw k)|done].
    - split_and!.
      + intros k' a'. simpl. rewrite length_app, lookup_insert_Some. simpl. intros [[<- <-]|[_ Hk']]; [lia|].
        specialize (Hw _ _ Hk'). lia.
      + unfold later. simpl. rewrite length_app. lia.
      + unfold valid. simpl. rewrite length_app. simpl. lia.
      + unfold owned. simpl. rewrite fmap_app, concat_app. simpl. rewrite entries_conns. simpl.
        rewrite map_to_list_empty. simpl. destruct (aq_new_spec (A := Z * PC) HOT_QUEUE_SIZE) as [-> _]. simpl.
        by rewrite !app_nil_r. }
  destruct Hentry as (Hw1 & Hl1 & Hv & Ho).
  pose proof (moves_prun owned inv later (node_insert a i c) w1 _ _ (node_insert_moves a i c w1 Hv) Hw1) as Hr.
  destruct (prun (node_insert a i c) w1) as [u w2]. destruct Hr as (Hw2 & Hl2 & h' & Hp & ->). simpl.
  split; [done|]. split; [by transitivity w1|]. exists []. by rewrite Hp, Ho.
Qed.

Lemma put_moves m (c : S) w0 : mv w0 (put hash m c) [c] (fun _ _ h => h = []).
Proof.
  unfold put. bind_with lru_add_moves. intros w [n evs] h Hl ->.
  eapply (moves_bind owned inv later) with (post := fun _ _ h => h = [c]).
  { apply (moves_for_each owned inv later). intros w1 m1 Hl1.
    eapply moves_mono; [apply (moves_frame owned inv later (pop_evicted m1) [c] w1 [] _ (pop_evicted_moves m1 w1))|].
    by intros w2 u h (h' & -> & ->). }
  intros w1 u h Hl1 ->. bind_with (moves_quiet new_oneshot w1 [c]); [done|]. intros w2 x h Hl2 ->.
  bind_with (insert_pool_moves (key m) (id m) (MkPoolConnection x c)). intros w3 y h Hl3 ->. by apply moves_done.
Qed.

Lemma poll_taken_moves e x w0 : mv w0 (poll_taken e x) [] (fun _ _ h => h = []).
Proof.
  unfold poll_taken. bind_with (moves_quiet (poll_use x) w0 []); [done|]. intros w u h Hl ->.
  destruct u; [|by apply moves_done|]; bind_with (moves_quiet (poll_notified e) w []); try done; intros; by apply moves_done.
Qed.

Lemma idle_poll_moves m t e x r d w0 : mv w0 (idle_poll hash m t e x r d) [] (fun _ _ h => h = []).
Proof.
  unfold idle_poll. bind_with poll_taken_moves. intros w o h Hl ->. destruct o; [by apply moves_done|].
  destruct (read_with_timeout t r d); [|by apply moves_done]. bind_with pop_closed_moves. intros. by apply moves_done.
Qed.

Lemma idle_timeout_moves m t e x c d w0 : mv w0 (idle_timeout hash m t e x c d) [] (fun _ _ h => h = []).
Proof.
  unfold idle_timeout. bind_with poll_taken_moves. intros w o h Hl ->. destruct o; [by apply moves_done|].
  destruct c; [bind_with pop_closed_moves; intros; by apply moves_done|].
  destruct t; [|by apply moves_done]. destruct d; [|by apply moves_done].
  bind_with pop_closed_moves. intros. by apply moves_done.
Qed.

(** ** Threads *)

(** What a thread does: operations of the pool and polls of watchers, with what
    the polls find out about the connection. *)
Inductive Action :=
  | DoPut (m : ConnectionMeta) (c : S)
  | DoGet (k : Z)
  | DoClosed (m : ConnectionMeta)
  | DoIdlePoll (m : ConnectionMeta) (timeout : option Z) (e x : nat) (read : option (Z + unit)) (elapsed : bool)
  | DoIdleTimeout (m : ConnectionMeta) (timeout : option Z) (e x : nat) (changed elapsed : bool).

Definition action (a : Action) : prog W unit :=
  match a with
  | DoPut m c => pbind (put hash m c) (fun _ => Done tt)
  | DoGet k => pbind (get hash any_key k) (fun _ => Done tt)
  | DoClosed m => pop_closed hash m
  | DoIdlePoll m t e x r d => pbind (idle_poll hash m t e x r d) (fun _ => Done tt)
  | DoIdleTimeout m t e x c d => pbind (idle_timeout hash m t e x c d) (fun _ => Done tt)
  end.
Definition supplies (a : Action) : list S := match a with DoPut _ c => [c] | _ => [] end.

Definition thread (l : list Action) : prog W unit := for_each l action.
Definition thread_supplies (l : list Action) : list S := concat (supplies <$> l).

Lemma action_moves a w0 : mv w0 (action a) (supplies a) (fun _ _ h => h = []).
Proof.
  destruct a; cbn [action supplies].
  - bind_with put_moves. intros. by apply moves_done.
  - bind_with get_moves. intros. by apply moves_done.
  - apply pop_closed_moves.
  - bind_with idle_poll_moves. intros. by apply moves_done.
  - bind_with idle_timeout_moves. intros. by apply moves_done.
Qed.

Lemma thread_moves l : forall w0, mv w0 (thread l) (thread_supplies l) spent.
Proof.
  induction l as [|a l IH]; intros w0; [by apply moves_done|].
  eapply (moves_bind owned inv later).
  { apply (moves_frame owned inv later (action a) (thread_supplies l) w0 (supplies a) _ (action_moves a w0)). }
  intros w u h Hl (h' & -> & ->). apply IH.
Qed.

Lemma threads_move w ls : Forall2 (fun p h => mv w p h spent) (thread <$> ls) (thread_supplies <$> ls).
Proof. induction ls as [|l ls IH]; [constructor|]. constructor; [apply thread_moves|exact IH]. Qed.

(** C19: Whatever the number of threads, what they do and how their steps are
    interleaved, the connections the threads put are, each once, in a node, in the
    record of those handed out by [get], in the record of those closed, or in the
    hands of an operation under way; once all threads have ended the last are
    none.  So a connection is never handed out twice, and not after it was
    closed. *)
Theorem pool_conserves size (threads : list (list Action)) (schedule : list nat) :
  let (ps, w) := interleave schedule (thread <$> threads, pool_new size) in
  exists in_hands,
    concat (node_conns <$> nodes w) ++ given w ++ closed w ++ in_hands ≡ₚ concat (thread_supplies <$> threads) /\
    (ended ps -> in_hands = []) /\
    (NoDup (concat (thread_supplies <$> threads)) -> NoDup (given w ++ closed w)).
Proof.
  pose proof (interleave_conserves owned inv later (thread <$> threads) (thread_supplies <$> threads) (pool_new size) schedule) as Hc.
  destruct (interleave schedule (thread <$> threads, pool_new size)) as [ps w].
  destruct Hc as (_ & hs & Hps & Hperm).
  - intros k a. simpl. by rewrite lookup_empty.
  - apply threads_move.
  - exists (concat hs). rewrite <- Hperm. unfold owned. simpl. split; [solve_Permutation|]. split.
    + intros He. by apply (ended_spent owned inv later w ps hs).
    + intros Hnd. rewrite <- (assoc_L (++)) in Hnd. apply NoDup_app in Hnd as (_ & _ & Hnd). apply NoDup_app in Hnd. tauto.
Qed.

End concurrent.

(** ** A stranded connection *)

Definition test_thread : list (@Action string) -> prog TestPool unit := thread (fun i => i) first_key.

Lemma pool_conserves_witness :
  let threads := [[DoPut (MkMeta 7 1) "a"; DoGet 7]; [DoPut (MkMeta 7 2) "b"]]%string in
  let (ps, w) := interleave (flat_map (fun _ => [0; 1]%nat) (seq 0 30)) (test_thread <$> threads, pool_new 4) in
  exists in_hands,
    concat (node_conns <$> nodes w) ++ given w ++ closed w ++ in_hands ≡ₚ concat (thread_supplies <$> threads) /\
    (ended ps -> in_hands = []) /\
    (NoDup (concat (thread_supplies <$> threads)) -> NoDup (given w ++ closed w)).
Proof. cbv zeta. apply (pool_conserves (fun i => i) first_key first_key_some). Defined.

(** The first thread has put 2 and 1; the second closes 1 and has 2 in its hands
    while it looks for it; the third gets 1 and removes the node, which is empty at
    that moment.  The second puts 2 back into a node no get can find: 2 is neither
    handed out nor closed by the pool, its watcher is not notified, and the LRU
    still counts it. *)
Lemma stranded_connection :
  let threads := [[DoPut (MkMeta 7 2) "two"; DoPut (MkMeta 7 1) "one"]; [DoClosed (MkMeta 7 1)]; [DoGet 7]; [DoGet 7]]%string in
  let schedule := (replicate 14 0 ++ replicate 4 1 ++ replicate 11 2 ++ replicate 12 1 ++ replicate 12 3)%nat in
  let (ps, w) := interleave schedule (test_thread <$> threads, pool_new 4) in
  ended ps /\ given w = ["one"%string] /\ closed w = [] /\ pools w !! 7 = None /\ l_len (lru w) = 1 /\
  notifiers w = [false; false] /\ concat (node_conns <$> nodes w) = ["two"%string].
Proof. vm_compute. split_and!; [|done..]. repeat constructor; by eexists. Qed.
