(* ===== verification/UpstreamRequest.v ===== *)
(** * The request sent to an HTTP/1 upstream

    The part of [src/pingora-proxy/src/proxy_common.rs] that sanitizes a request
    before it is forwarded and keeps its authority consistent, the policy of
    [src/pingora-core/src/upstreams/peer.rs], and the first phase of
    [proxy_1to1] in [src/pingora-proxy/src/proxy_h1.rs], which composes them.

    [None] is a panic (a header map that is full).  The application's
    [upstream_request_filter] is a parameter. *)

From stdpp Require Import base list numbers strings.
From Stdlib Require Import ZArith Lia.
From S2P Require Import Prelude Errors Text Headers Framing.
Local Open Scope Z_scope.

Module Upstream.

(** ** The policy *)

Inductive H1UpgradePolicy := WebSocketOnly | Preserve | Deny.
#[export] Instance H1UpgradePolicy_eq_dec : EqDecision H1UpgradePolicy.
Proof. solve_decision. Defined.

Record HttpUpstreamRequestPolicy := MkPolicy {
  strip_hop_by_hop : bool;
  strip_connection_nominated : bool;
  reject_malformed_connection_nominations : bool;
  h1_upgrade : H1UpgradePolicy
}.
#[export] Instance Policy_eq_dec : EqDecision HttpUpstreamRequestPolicy.
Proof. solve_decision. Defined.

Definition policy_default : HttpUpstreamRequestPolicy := MkPolicy true true true WebSocketOnly.
Definition policy_preserve : HttpUpstreamRequestPolicy := MkPolicy false false false Preserve.
Definition policy_deny_upgrades : HttpUpstreamRequestPolicy :=
  MkPolicy (strip_hop_by_hop policy_default) (strip_connection_nominated policy_default)
    (reject_malformed_connection_nominations policy_default) Deny.

Inductive AuthorityPolicy := Standard | Custom.
Definition authority_policy (custom : bool) : AuthorityPolicy := if custom then Custom else Standard.
Definition is_standard (p : AuthorityPolicy) : bool := match p with Standard => true | Custom => false end.

(** ** Nominations of the Connection field *)

Definition MAX_CONNECTION_NOMINATIONS : Z := 10.

Definition KEEP_ALIVE : list byte := bytes_of "keep-alive".
Definition PROXY_CONNECTION : list byte := bytes_of "proxy-connection".
Definition HTTP2_SETTINGS : list byte := bytes_of "http2-settings".

Definition is_tchar (c : byte) : bool :=
  is_ascii_alphanumeric c || bool_decide (c ∈ bytes_of "!#$%&'*+-.^_`|~").

Definition protected_names : list (list byte) :=
  map bytes_of ["host"; "x-forwarded-for"; "x-forwarded-host"; "x-forwarded-proto"]%string.

Section upstream.
Context {hmap : Type -> Type} `{HM : HMap hmap} {Uri : Type} `{HC : HttpCrate Uri}.
Notation Req := (RequestHeader hmap Uri).

Definition connection_nominations (req : Req) : list (list byte) :=
  filter (fun t => t <> [])
    (concat (map (fun v => map trim_ascii (split_byte COMMA v)) (hm_get_all (req_headers req) h_connection))).

Definition nominated_protected : Error :=
  explain InvalidHTTPHeader "protected header cannot be nominated by the Connection header".
Definition nominated_invalid : Error :=
  explain InvalidHTTPHeader "invalid token nominated by the Connection header".

(** The names are at most nine, so the array of ten holds them. *)
Fixpoint parse_tokens (reject_malformed : bool) (nomination_count : Z) (tokens : list (list byte))
    : list (list byte) + Error :=
  match tokens with
  | [] => inl []
  | token :: tokens =>
      let nomination_count := nomination_count + 1 in
      if MAX_CONNECTION_NOMINATIONS <=? nomination_count then
        inr (explain InvalidHTTPHeader "too many Connection header nominations")
      else if bool_decide (head token = Some Byte.x3a) then inr nominated_protected
      else if reject_malformed && negb (forallb is_tchar token) then inr nominated_invalid
      else
        match header_name_of token with
        | None =>
            if reject_malformed then inr nominated_invalid
            else parse_tokens reject_malformed nomination_count tokens
        | Some name =>
            if bool_decide (name ∈ protected_names) then inr nominated_protected
            else match parse_tokens reject_malformed nomination_count tokens with
                 | inl names => inl (name :: names)
                 | inr e => inr e
                 end
        end
  end.

Definition nominations_parse (req : Req) (reject_malformed : bool) : list (list byte) + Error :=
  parse_tokens reject_malformed 0 (connection_nominations req).

Definition remove (name : list byte) (req : Req) : Req := (req_remove_header name req).1.
Definition remove_all (names : list (list byte)) (req : Req) : Req := foldl (fun req name => remove name req) req names.

Definition hop_by_hop : list (list byte) :=
  [KEEP_ALIVE; PROXY_CONNECTION; bytes_of "proxy-authenticate"; bytes_of "proxy-authorization";
   bytes_of "te"; bytes_of "trailer"; h_transfer_encoding; h_connection; h_upgrade; HTTP2_SETTINGS].

Definition strip_standard_hop_by_hop_headers (req : Req) : Req := remove_all hop_by_hop req.

Definition is_websocket_upgrade_request (req : Req) (downstream_is_http11 : bool) : bool :=
  downstream_is_http11 &&
  match hm_get (req_headers req) h_upgrade with
  | Some value => eq_ignore_ascii_case value (bytes_of "websocket")
  | None => false
  end.

(** [req.insert_header(name, value)?] on a [HeaderName]. *)
Definition insert (name value : list byte) (req : Req) : option (Req + Error) :=
  match req_insert_header (FromHeaderName name) value req with
  | None => None
  | Some (req, inl _) => Some (inl req)
  | Some (_, inr e) => Some (inr e)
  end.

Definition and_then (r : option (Req + Error)) (k : Req -> option (Req + Error)) : option (Req + Error) :=
  match r with Some (inl req) => k req | _ => r end.

Definition sanitize_h1_upstream_request (req : Req) (policy : HttpUpstreamRequestPolicy)
    (downstream_is_http11 : bool) : option (Req + Error) :=
  if bool_decide (policy = policy_preserve) then Some (inl req)
  else
    let nominations :=
      if strip_connection_nominated policy
      then nominations_parse req (reject_malformed_connection_nominations policy)
      else inl [] in
    match nominations with
    | inr e => Some (inr e)
    | inl names =>
        if bool_decide (h1_upgrade policy = Preserve) && hm_contains_key (req_headers req) h_upgrade
        then Some (inl req)
        else
          let websocket_upgrade :=
            bool_decide (h1_upgrade policy = WebSocketOnly) &&
            is_websocket_upgrade_request req downstream_is_http11 in
          let req := remove_all names req in
          let req := if strip_hop_by_hop policy then strip_standard_hop_by_hop_headers req else req in
          let without req := remove_all [h_connection; h_upgrade; HTTP2_SETTINGS] req in
          match h1_upgrade policy with
          | WebSocketOnly =>
              let req := without req in
              if websocket_upgrade then
                and_then (insert h_connection (bytes_of "Upgrade") req) (insert h_upgrade (bytes_of "websocket"))
              else Some (inl req)
          | Deny => Some (inl (without req))
          | Preserve => Some (inl req)
          end
    end.

Definition sanitize_h2_upstream_request (req : Req) (policy : HttpUpstreamRequestPolicy) : Req + Error :=
  let nominations :=
    if strip_connection_nominated policy
    then nominations_parse req (reject_malformed_connection_nominations policy)
    else inl [] in
  match nominations with
  | inr e => inr e
  | inl names =>
      let req := remove_all names req in
      inl (if strip_hop_by_hop policy then strip_standard_hop_by_hop_headers req else req)
  end.

Definition finalize_h1_upstream_request_framing (req : Req) (downstream_has_body : bool) : option (Req + Error) :=
  if downstream_has_body && bool_decide (hm_get (req_headers req) h_content_length = None) &&
     bool_decide (hm_get (req_headers req) h_transfer_encoding = None)
  then insert h_transfer_encoding (bytes_of "chunked") req
  else Some (inl req).

(** ** The authority *)

Definition request_authority (req : Req) : option (list byte) :=
  match uri_authority (req_uri req) with
  | Some authority => Some authority
  | None => target_authority (raw_target_authority (raw_path req))
  end.

Definition set_h1_host_from_authority (req : Req) : option (Req + Error) :=
  match request_authority req with
  | None =>
      if hm_contains_key (req_headers req) h_host then Some (inl req) else insert h_host [] req
  | Some authority =>
      if contains AT authority then Some (inr (explain InvalidHTTPHeader "userinfo in request authority"))
      else if bool_decide (hm_get_all (req_headers req) h_host = [authority]) then Some (inl req)
      else
        match header_value_of authority with
        | None => Some (inr (explain InvalidHTTPHeader "invalid authority for Host header"))
        | Some host => insert h_host host req
        end
  end.

(** The text of an authority is a field value. *)
Definition set_h1_host_from_authority_if_absent (req : Req) : option (Req + Error) :=
  if hm_contains_key (req_headers req) h_host then Some (inl req)
  else insert h_host (default [] (uri_authority (req_uri req))) req.

(** [Uri::from_parts] with the scheme and path of a URI and another authority. *)
Variable uri_with_authority : Uri -> list byte -> option Uri.

Definition parse_host_authority (host : list byte) : unit + Error :=
  match parse_authority host with
  | Some _ => inl tt
  | None => inr (because InvalidHTTPHeader "invalid Host override for authority" (Foreign "InvalidUri"))
  end.

Definition reconcile_upstream_authority (req : Req) : Req + Error :=
  match hm_get (req_headers req) h_host with
  | None => inl req
  | Some host =>
      if contains AT host then inr (explain InvalidHTTPHeader "userinfo in Host header")
      else
        match uri_authority (req_uri req) with
        | Some authority =>
            if negb (raw_path_is_utf8 req) then
              inr (explain InvalidHTTPHeader "non-UTF-8 path cannot be reconciled with URI authority")
            else if bool_decide (host = authority) then inl req
            else
              match parse_host_authority host with
              | inr e => inr e
              | inl _ =>
                  match uri_with_authority (req_uri req) host with
                  | Some uri => inl (set_uri uri req)
                  | None =>
                      inr (because InvalidHTTPHeader "failed to apply Host override to URI authority"
                             (Foreign "InvalidUriParts"))
                  end
              end
        | None =>
            match raw_target_authority (raw_path req) with
            | NoAuthority | AmbiguousAuthority => inl req
            | Absolute scheme authority path_and_query =>
                if bool_decide (host = authority) then inl req
                else
                  match parse_host_authority host with
                  | inr e => inr e
                  | inl _ => set_raw_path (scheme ++ bytes_of "://" ++ host ++ path_and_query) req
                  end
            end
        end
  end.

(** ** [upstream::request_filter] of the cache *)

Definition precondition_names : list (list byte) :=
  map bytes_of ["if-match"; "if-none-match"; "if-modified-since"; "if-unmodified-since"; "if-range"; "range"]%string.

(** [meta]: the Last-Modified and ETag values of a stale response.  [None] is a
    panic of the [unwrap]s too. *)
Definition insert_unwrap_opt (name : list byte) (value : option (list byte)) (req : Req) : option Req :=
  match value with
  | None => Some req
  | Some v => match insert name v req with Some (inl req) => Some req | _ => None end
  end.

Definition cache_request_filter (req : Req) (meta : option (option (list byte) * option (list byte))) : option Req :=
  let req := if bool_decide (req_method req = bytes_of "HEAD") then set_method (bytes_of "GET") req else req in
  let req := remove_all precondition_names req in
  match meta with
  | None => Some req
  | Some (last_modified, etag) =>
      req ← insert_unwrap_opt (bytes_of "if-modified-since") last_modified req;
      insert_unwrap_opt (bytes_of "if-none-match") etag req
  end.

(** ** The first phase of [proxy_1to1] *)

(** What the session and the peer say. *)
Record Attempt := MkAttempt {
  at_custom : bool;
  at_policy : HttpUpstreamRequestPolicy;
  at_cache : option (option (option (list byte) * option (list byte)));
  at_filter : Req -> Req + Error;
  at_body_empty : bool
}.

(** The source an error is given: downstream, internal, or as it comes. *)
Inductive Blame := Down (e : Error) | Inside (e : Error) | AsIs (e : Error).

Definition blame (b : Error -> Blame) (r : option (Req + Error)) : option (Req + Blame) :=
  match r with
  | None => None
  | Some (inl req) => Some (inl req)
  | Some (inr e) => Some (inr (b e))
  end.
Definition then_ (r : option (Req + Blame)) (k : Req -> option (Req + Blame)) : option (Req + Blame) :=
  match r with Some (inl req) => k req | _ => r end.

(** After the application's filter, for standard sessions. *)
Definition reconcile (downstream_had_host : bool) (req : Req) : option (Req + Blame) :=
  then_ (blame Inside (Some (reconcile_upstream_authority req))) (fun req =>
  let target_has_authority := bool_decide (is_Some (target_authority (raw_target_authority (raw_path req)))) in
  then_ (if downstream_had_host || bool_decide (is_Some (uri_authority (req_uri req))) || target_has_authority
         then blame Inside (set_h1_host_from_authority req) else Some (inl req)) (fun req =>
  match validate_request_authority req with
  | inl _ => Some (inl req)
  | inr e => Some (inr (Inside e))
  end)).

Definition upstream_request (a : Attempt) (downstream : Req) : option (Req + Blame) :=
  let downstream_had_host := hm_contains_key (req_headers downstream) h_host in
  let req := set_version HTTP_11 downstream in
  then_ (if bool_decide (req_version downstream = HTTP_2) then
           blame Down (match authority_policy (at_custom a) with
                       | Standard => set_h1_host_from_authority req
                       | Custom => set_h1_host_from_authority_if_absent req
                       end)
         else Some (inl req)) (fun req =>
  then_ (blame Down (sanitize_h1_upstream_request req (at_policy a) (bool_decide (req_version downstream = HTTP_11))))
    (fun req =>
  match (match at_cache a with None => Some req | Some meta => cache_request_filter req meta end) with
  | None => None
  | Some req =>
      then_ (blame AsIs (Some (at_filter a req))) (fun req =>
      then_ (if is_standard (authority_policy (at_custom a)) then reconcile downstream_had_host req else Some (inl req))
        (fun req => blame AsIs (finalize_h1_upstream_request_framing req (negb (at_body_empty a)))))
  end)).

End upstream.

End Upstream.
