(* ===== verification/UpstreamRequestSpec.v ===== *)
(** * The request sent to an HTTP/1 upstream: theorems

    What sanitizing does to every field of a request and which Connection fields
    it refuses; that the request that is sent has one framing and one authority,
    whatever the application's filter did, and that a Host chosen by the filter is
    the one that is sent. *)

From stdpp Require Import base list numbers strings sets.
From Stdlib Require Import ZArith Lia.
From S2P Require Import Prelude Errors Text Headers HeadersSpec Framing UpstreamRequest.
Import Upstream.
Local Open Scope Z_scope.

Section spec.
Context {hmap : Type -> Type} `{HM : HMap hmap, HL : !HMapLaws hmap} {Uri : Type} `{HC : HttpCrate Uri}.
Notation Req := (RequestHeader hmap Uri).
Implicit Types req r : Req.

(** The names the code inserts. *)
Definition inserted_names : list (list byte) :=
  [h_connection; h_upgrade; h_transfer_encoding; h_host; bytes_of "if-modified-since"; bytes_of "if-none-match"].

(** [HeaderName::from_bytes] takes a name in any case; [HeaderValue::from_bytes]
    keeps the bytes. *)
Class ReadsFields : Prop := {
  reads_field : forall c, lowercase c ∈ inserted_names -> header_name_of c = Some (lowercase c);
  reads_value : forall v v', header_value_of v = Some v' -> v' = v
}.
Context `{RF : !ReadsFields}.

Definition fields req (name : list byte) : list (list byte) := hm_get_all (req_headers req) name.

(** ** Removing and inserting *)

(** What is not in the fields of a request. *)
Definition same_rest req r : Prop :=
  req_method r = req_method req /\ req_uri r = req_uri req /\ req_version r = req_version req /\
  req_raw_target r = req_raw_target req.

Lemma same_rest_trans a b c : same_rest a b -> same_rest b c -> same_rest a c.
Proof. unfold same_rest. intros (? & ? & ? & ?) (? & ? & ? & ?). split_and!; congruence. Qed.

Lemma req_remove_spec n req :
  fields (remove n req) n = [] /\ (forall k, k <> n -> fields (remove n req) k = fields req k) /\ same_rest req (remove n req).
Proof.
  unfold remove, req_remove_header, remove_header_value, fields. cbn [req_maps fst snd].
  pose proof (get_all_removed _ (req_headers req) n) as [H1 H2].
  destruct (hm_remove (req_headers req) n) as [rm vs]. simpl in *. split_and!; [done|done|done..].
Qed.

Lemma remove_all_spec names : forall req,
  (forall k, fields (remove_all names req) k = if decide (k ∈ names) then [] else fields req k) /\
  same_rest req (remove_all names req).
Proof.
  induction names as [|n names IH]; intros req.
  - split; [|done]. intros k. rewrite decide_False; [done|]. apply not_elem_of_nil.
  - cbn [remove_all foldl]. fold (remove_all names (remove n req)). destruct (IH (remove n req)) as [H1 H2].
    destruct (req_remove_spec n req) as (R1 & R2 & R3). split; [|by eapply same_rest_trans].
    intros k. rewrite H1. destruct (decide (k = n)) as [->|Hne].
    + rewrite R1. repeat case_decide; set_solver.
    + rewrite R2 by done. apply decide_ext. rewrite elem_of_cons. naive_solver.
Qed.

Lemma insert_spec n v req r : n ∈ inserted_names -> insert n v req = Some (inl r) ->
  fields r n = [v] /\ (forall k, k <> n -> fields r k = fields req k) /\ same_rest req r.
Proof.
  intros Hn. unfold insert, req_insert_header, insert_header_value.
  assert (Hl : lowercase (into_case_header_name (FromHeaderName n)) = n).
  { assert (Hall : Forall (fun n => lowercase (into_case_header_name (FromHeaderName n)) = n) inserted_names)
      by (repeat constructor).
    rewrite Forall_forall in Hall. auto. }
  rewrite reads_field by by rewrite Hl. rewrite Hl.
  destruct (match (req_maps req).1 with None => _ | Some _ => _ end) as [names|]; simpl; [|done].
  destruct (hm_insert (req_headers req) n v) as [vs|] eqn:Hi; simpl; [|done]. intros [= <-].
  apply get_all_inserted in Hi as [H1 H2]. done.
Qed.

Lemma insert_no_error n v req e : n ∈ inserted_names -> insert n v req <> Some (inr e).
Proof.
  intros Hn. unfold insert, req_insert_header, insert_header_value.
  assert (Hl : lowercase (into_case_header_name (FromHeaderName n)) = n).
  { assert (Hall : Forall (fun n => lowercase (into_case_header_name (FromHeaderName n)) = n) inserted_names)
      by (repeat constructor).
    rewrite Forall_forall in Hall. auto. }
  rewrite reads_field by by rewrite Hl.
  destruct (match (req_maps req).1 with None => _ | Some _ => _ end) as [names|]; simpl; [|done].
  by destruct (hm_insert _ _ _).
Qed.

(** ** Nominations *)

(** A nomination that is accepted. *)
Definition token_ok (reject_malformed : bool) (token : list byte) : Prop :=
  head token <> Some Byte.x3a /\
  (reject_malformed = true -> forallb is_tchar token = true /\ is_Some (header_name_of token)) /\
  (forall name, header_name_of token = Some name -> name ∉ protected_names).

Lemma parse_tokens_spec rej tokens : forall count names,
  parse_tokens rej count tokens = inl names <->
  Forall (token_ok rej) tokens /\ (tokens = [] \/ count + zlen tokens < MAX_CONNECTION_NOMINATIONS) /\
  names = omap header_name_of tokens.
Proof.
  induction tokens as [|t tokens IH]; intros count names; cbn [parse_tokens].
  { split; [intros [= <-]; split_and!; [done|by left|done]|by intros (_ & _ & ->)]. }
  rewrite zlen_cons, Forall_cons. pose proof (zlen_nonneg tokens).
  destruct (Z.leb_spec MAX_CONNECTION_NOMINATIONS (count + 1)) as [Hmax|Hmax].
  { split; [done|]. intros (_ & [?|?] & _); [done|lia]. }
  assert (Hcount : (tokens = [] \/ count + 1 + zlen tokens < MAX_CONNECTION_NOMINATIONS) <->
    (t :: tokens = [] \/ count + (1 + zlen tokens) < MAX_CONNECTION_NOMINATIONS)).
  { split; [|intros [?|?]; [done|right; lia]]. intros [->|?]; right; [rewrite zlen_nil|]; lia. }
  rewrite <- Hcount. clear Hcount. unfold token_ok at 1.
  case_bool_decide as Hc; [split; [done|tauto]|].
  destruct (rej && negb (forallb is_tchar t)) eqn:Ht.
  { split; [done|]. apply andb_true_iff in Ht as [-> Ht]. intros (((_ & Hrej & _) & _) & _).
    destruct (Hrej eq_refl) as [Hf _]. by rewrite Hf in Ht. }
  assert (Htc : rej = true -> forallb is_tchar t = true) by (intros ->; by destruct (forallb is_tchar t)).
  cbn [omap list_omap]. destruct (header_name_of t) as [name|].
  - case_bool_decide as Hp; [split; [done|intros (((_ & _ & Hall) & _) & _); by destruct (Hall name)]|].
    destruct (parse_tokens rej (count + 1) tokens) as [ns|e] eqn:Hns.
    + apply IH in Hns as (H1 & H2 & ->). split; [intros [= <-]|by intros (_ & _ & ->)].
      split_and!; [done| |by intros ? [= <-]|done|done|done]. intros Hrej. split; [by apply Htc|done].
    + split; [done|]. intros ((_ & H1) & H2 & _). specialize (IH (count + 1) (omap header_name_of tokens)).
      rewrite Hns in IH. discriminate (proj2 IH (conj H1 (conj H2 eq_refl))).
  - destruct rej; [split; [done|intros (((_ & Hrej & _) & _) & _); by destruct (Hrej eq_refl) as [_ [? ?]]]|].
    rewrite IH. naive_solver.
Qed.

(** ** Sanitizing *)

Definition nominated req (name : list byte) : Prop := name ∈ omap header_name_of (connection_nominations req).

#[export] Instance nominated_dec req name : Decision (nominated req name).
Proof. unfold nominated. apply _. Defined.

(** The nominations are accepted, where the policy looks at them. *)
Definition acceptable (policy : HttpUpstreamRequestPolicy) req : Prop :=
  strip_connection_nominated policy = true ->
  Forall (token_ok (reject_malformed_connection_nominations policy)) (connection_nominations req) /\
  zlen (connection_nominations req) < MAX_CONNECTION_NOMINATIONS.

(** The policy leaves the request alone. *)
Definition passes_through (policy : HttpUpstreamRequestPolicy) req : Prop :=
  policy = policy_preserve \/ (h1_upgrade policy = Preserve /\ hm_contains_key (req_headers req) h_upgrade = true).

Definition websocket (policy : HttpUpstreamRequestPolicy) req (http11 : bool) : bool :=
  bool_decide (h1_upgrade policy = WebSocketOnly) && is_websocket_upgrade_request req http11.

Definition stripped (policy : HttpUpstreamRequestPolicy) req (name : list byte) : Prop :=
  (strip_connection_nominated policy = true /\ nominated req name) \/
  (strip_hop_by_hop policy = true /\ name ∈ hop_by_hop) \/
  (h1_upgrade policy <> Preserve /\ name ∈ [h_connection; h_upgrade; HTTP2_SETTINGS]).

Lemma nominations_spec policy req :
  match (if strip_connection_nominated policy
         then nominations_parse req (reject_malformed_connection_nominations policy) else inl []) with
  | inl names => acceptable policy req /\
      forall name, name ∈ names <-> strip_connection_nominated policy = true /\ nominated req name
  | inr _ => ~ acceptable policy req
  end.
Proof.
  unfold acceptable. destruct (strip_connection_nominated policy); [|split; [done|]; intros name; rewrite elem_of_nil; naive_solver].
  unfold nominations_parse.
  pose proof (parse_tokens_spec (reject_malformed_connection_nominations policy) (connection_nominations req) 0) as Hspec.
  assert (Hz : connection_nominations req = [] -> zlen (connection_nominations req) < MAX_CONNECTION_NOMINATIONS) by by intros ->.
  destruct (parse_tokens _ 0 (connection_nominations req)) as [names|e].
  - destruct (proj1 (Hspec names) eq_refl) as (H1 & H2 & ->). split; [|unfold nominated; naive_solver].
    intros _. split; [done|]. destruct H2 as [?|?]; [by apply Hz|lia].
  - intros Hok. destruct (Hok eq_refl) as [H1 H2].
    discriminate (proj2 (Hspec _) (conj H1 (conj (or_intror H2) eq_refl))).
Qed.

Lemma stripped_both names policy req :
  let r := if strip_hop_by_hop policy then strip_standard_hop_by_hop_headers (remove_all names req) else remove_all names req in
  (forall k, fields r k =
     if decide (k ∈ names \/ (strip_hop_by_hop policy = true /\ k ∈ hop_by_hop)) then [] else fields req k) /\
  same_rest req r.
Proof.
  destruct (remove_all_spec names req) as [F1 S1]. unfold strip_standard_hop_by_hop_headers.
  destruct (strip_hop_by_hop policy); cbv zeta.
  - destruct (remove_all_spec hop_by_hop (remove_all names req)) as [F2 S2]. split; [|by eapply same_rest_trans].
    intros k. rewrite F2, F1. repeat case_decide; naive_solver.
  - split; [|done]. intros k. rewrite F1. repeat case_decide; naive_solver.
Qed.

(** What sanitizing for HTTP/1 does in every case. *)
Definition h1_sanitized req policy http11 (result : option (Req + Error)) : Prop :=
  match result with
  | None => websocket policy req http11 = true
  | Some (inr _) => ~ acceptable policy req
  | Some (inl r) =>
      acceptable policy req /\ same_rest req r /\
      (passes_through policy req -> r = req) /\
      (~ passes_through policy req -> forall name,
         (name ∈ [h_connection; h_upgrade] -> websocket policy req http11 = true ->
          fields r name = [bytes_of (if bool_decide (name = h_upgrade) then "websocket" else "Upgrade")]) /\
         (~ (name ∈ [h_connection; h_upgrade] /\ websocket policy req http11 = true) ->
          (stripped policy req name -> fields r name = []) /\
          (~ stripped policy req name -> fields r name = fields req name)))
  end.

Lemma sanitize_h1_cases req policy http11 :
  h1_sanitized req policy http11 (sanitize_h1_upstream_request req policy http11).
Proof.
  unfold h1_sanitized, sanitize_h1_upstream_request. case_bool_decide as Hpres.
  { subst policy. split; [done|]. split; [done|]. split; [done|]. intros []. by left. }
  pose proof (nominations_spec policy req) as Hnom.
  destruct (if strip_connection_nominated policy then _ else _) as [names|e]; [|done]. destruct Hnom as [Hacc Hnames].
  destruct (bool_decide (h1_upgrade policy = Preserve) && hm_contains_key (req_headers req) h_upgrade) eqn:Hskip.
  { apply andb_true_iff in Hskip as [Hp%bool_decide_eq_true Hu]. split; [done|]. split; [done|]. split; [done|].
    intros []. by right. }
  assert (Hnp : ~ passes_through policy req).
  { intros [?|[Hp Hu]]; [done|]. by rewrite bool_decide_true, Hu in Hskip. }
  fold (websocket policy req http11).
  destruct (stripped_both names policy req) as [F2 S2].
  set (r2 := if strip_hop_by_hop policy then _ else _) in *. clearbody r2.
  set (r3 := remove_all [h_connection; h_upgrade; HTTP2_SETTINGS] r2).
  destruct (remove_all_spec [h_connection; h_upgrade; HTTP2_SETTINGS] r2) as [F3 S3]. fold r3 in F3, S3.
  assert (S3' : same_rest req r3) by by eapply same_rest_trans.
  assert (F3' : h1_upgrade policy <> Preserve -> forall k,
    (stripped policy req k -> fields r3 k = []) /\ (~ stripped policy req k -> fields r3 k = fields req k)).
  { intros Hp k. rewrite F3, F2. unfold stripped. specialize (Hnames k). repeat case_decide; naive_solver. }
  clearbody r3. clear F3 S3.
  assert (Hws : websocket policy req http11 = true -> h1_upgrade policy = WebSocketOnly).
  { unfold websocket. intros [Hw%bool_decide_eq_true _]%andb_true_iff. done. }
  destruct (h1_upgrade policy) eqn:Hup.
  - destruct (websocket policy req http11) eqn:Hw.
    + destruct (insert h_connection (bytes_of "Upgrade") r3) as [[r4|e]|] eqn:Hi1; simpl; [| |done].
      2:{ by apply insert_no_error in Hi1; [|by left]. }
      apply insert_spec in Hi1 as (I1 & I2 & I3); [|by left].
      destruct (insert h_upgrade (bytes_of "websocket") r4) as [[r5|e]|] eqn:Hi2; [| |done].
      2:{ by apply insert_no_error in Hi2; [|right; left]. }
      apply insert_spec in Hi2 as (J1 & J2 & J3); [|right; by left].
      split; [done|]. split; [by do 2 (eapply same_rest_trans; [done|])|]. split; [done|]. intros _ name. split.
      * intros Hin _. destruct (decide (name = h_upgrade)) as [->|Hn]; [by rewrite bool_decide_true|].
        rewrite bool_decide_false by done. assert (name = h_connection) as -> by set_solver. by rewrite J2.
      * intros Hnot. assert (name <> h_connection /\ name <> h_upgrade) as [? ?] by set_solver.
        rewrite J2, I2 by done. by apply F3'.
    + split; [done|]. split; [done|]. split; [done|]. intros _ name. split; [done|]. intros _. by apply F3'.
  - split; [done|]. split; [done|]. split; [done|]. intros _ name. split; [by intros _ ?%Hws|]. intros _.
    assert (Hs : stripped policy req name <-> name ∈ names \/ (strip_hop_by_hop policy = true /\ name ∈ hop_by_hop)).
    { unfold stripped. rewrite Hup, Hnames. intuition congruence. }
    rewrite F2, Hs. split; intros Hx; [by rewrite decide_True|by rewrite decide_False].
  - split; [done|]. split; [done|]. split; [done|]. intros _ name. split; [by intros _ ?%Hws|]. intros _. by apply F3'.
Qed.

(** C18: For every policy, sanitizing a request for an HTTP/1 upstream refuses it
    exactly when its Connection field nominates too many fields, a protected or
    pseudo field, or (if the policy says so) something that is not a token; it
    changes nothing but the fields, removes exactly the fields that are nominated,
    hop-by-hop or about upgrades as far as the policy says, and puts in a normal
    WebSocket upgrade exactly where one is to be forwarded (it panics only when
    that does not fit in the header map).  For HTTP/2 it refuses the same and
    removes exactly the nominated and the hop-by-hop fields. *)
Theorem sanitize_exact req policy http11 :
  h1_sanitized req policy http11 (sanitize_h1_upstream_request req policy http11) /\
  match sanitize_h2_upstream_request req policy with
  | inr _ => ~ acceptable policy req
  | inl r => acceptable policy req /\ same_rest req r /\ forall name,
      let gone := (strip_connection_nominated policy = true /\ nominated req name) \/
                  (strip_hop_by_hop policy = true /\ name ∈ hop_by_hop) in
      (gone -> fields r name = []) /\ (~ gone -> fields r name = fields req name)
  end.
Proof.
  split; [apply sanitize_h1_cases|]. unfold sanitize_h2_upstream_request.
  pose proof (nominations_spec policy req) as Hnom.
  destruct (if strip_connection_nominated policy then _ else _) as [names|e]; [|done]. destruct Hnom as [Hacc Hnames].
  split; [done|]. destruct (stripped_both names policy req) as [F S]. split; [done|]. intros name.
  rewrite F, <- Hnames. split; intros Hx; [by rewrite decide_True|by rewrite decide_False].
Qed.

(** ** Framing *)

Lemma get_fields req name : hm_get (req_headers req) name = head (fields req name).
Proof. done. Qed.

Lemma finalize_spec req body r : finalize_h1_upstream_request_framing req body = Some (inl r) ->
  (forall k, k <> h_transfer_encoding -> fields r k = fields req k) /\ same_rest req r /\
  fields r h_transfer_encoding =
    (if body && bool_decide (fields req h_content_length = []) && bool_decide (fields req h_transfer_encoding = [])
     then [bytes_of "chunked"] else fields req h_transfer_encoding).
Proof.
  unfold finalize_h1_upstream_request_framing. rewrite !get_fields.
  assert (Hhead : forall l : list (list byte), bool_decide (head l = None) = bool_decide (l = [])) by by intros [].
  rewrite !Hhead.
  destruct (body && bool_decide (fields req h_content_length = []) && bool_decide (fields req h_transfer_encoding = [])).
  - intros (H1 & H2 & H3)%insert_spec; [|right; right; by left]. done.
  - by intros [= <-].
Qed.

Lemma insert_opt_spec n v req r : n ∈ inserted_names -> insert_unwrap_opt n v req = Some r ->
  (forall k, k <> n -> fields r k = fields req k) /\ same_rest req r.
Proof.
  intros Hn. unfold insert_unwrap_opt. destruct v as [v|]; [|by intros [= <-]].
  destruct (insert n v req) as [[r'|]|] eqn:Hi; [|done..]. intros [= <-]. apply insert_spec in Hi as (_ & ? & ?); done.
Qed.

(** The cache changes the method and the preconditions only. *)
Lemma cache_filter_spec req meta r : cache_request_filter req meta = Some r ->
  (forall k, k ∉ precondition_names -> fields r k = fields req k) /\ req_uri r = req_uri req /\
  req_version r = req_version req /\ req_raw_target r = req_raw_target req.
Proof.
  unfold cache_request_filter. set (r0 := if bool_decide _ then _ else req).
  assert (H0 : req_headers r0 = req_headers req /\ req_uri r0 = req_uri req /\ req_version r0 = req_version req /\
    req_raw_target r0 = req_raw_target req) by (unfold r0; by case_bool_decide).
  clearbody r0. destruct H0 as (E1 & E2 & E3 & E4).
  destruct (remove_all_spec precondition_names r0) as [F1 (_ & S2 & S3 & S4)]. set (r1 := remove_all precondition_names r0) in *.
  assert (F1' : forall k, k ∉ precondition_names -> fields r1 k = fields req k).
  { intros k Hk. rewrite F1, decide_False by done. unfold fields. by rewrite E1. }
  clearbody r1. destruct meta as [[lm et]|]; [|intros [= <-]; split_and!; [done|congruence..]].
  destruct (insert_unwrap_opt _ lm r1) as [r2|] eqn:H2; simpl; [|done]. intros H3.
  apply insert_opt_spec in H2 as [G2 (_ & T2 & T3 & T4)]; [|vm_compute; set_solver].
  apply insert_opt_spec in H3 as [G3 (_ & U2 & U3 & U4)]; [|vm_compute; set_solver].
  split_and!; [|congruence..]. intros k Hk. rewrite G3, G2, F1'; [done|done| |]; intros ->; apply Hk; vm_compute; set_solver.
Qed.

Lemma set_host_spec req r : set_h1_host_from_authority req = Some (inl r) ->
  (forall k, k <> h_host -> fields r k = fields req k) /\ same_rest req r /\
  match request_authority req with
  | Some a => fields r h_host = [a]
  | None => fields r h_host = (if bool_decide (fields req h_host = []) then [[]] else fields req h_host)
  end.
Proof.
  unfold set_h1_host_from_authority. destruct (request_authority req) as [a|].
  - destruct (contains AT a); [done|]. case_bool_decide as Hh; [by intros [= <-]|].
    destruct (header_value_of a) as [v|] eqn:Hv; [|done]. apply reads_value in Hv as ->.
    intros (H1 & H2 & H3)%insert_spec; [done|]. right; right; right; by left.
  - unfold hm_contains_key. fold (fields req h_host). destruct (fields req h_host) as [|h hs] eqn:Hf.
    + intros (H1 & H2 & H3)%insert_spec; [done|]. right; right; right; by left.
    + by intros [= <-].
Qed.

Lemma set_host_absent_spec req r : set_h1_host_from_authority_if_absent req = Some (inl r) ->
  (forall k, k <> h_host -> fields r k = fields req k) /\ same_rest req r.
Proof.
  unfold set_h1_host_from_authority_if_absent. destruct (hm_contains_key _ _); [by intros [= <-]|].
  intros (H1 & H2 & H3)%insert_spec; [done|]. right; right; right; by left.
Qed.

(** ** The authority *)

Lemma scan_scheme_prefix a : Byte.x3a ∉ a -> forall i v b b',
  scan_scheme i v (a ++ Byte.x3a :: b) = scan_scheme i v (a ++ Byte.x3a :: b').
Proof.
  induction a as [|c a IH]; intros Hn i v b b'; simpl; [done|]. rewrite not_elem_of_cons in Hn. destruct Hn as [? Hn].
  rewrite bool_decide_false by done. by apply IH.
Qed.

(** Bytes an authority can have in a target. *)
Definition plain (c : byte) : Prop := is_target_delim c = false /\ c <> Byte.x5c.

Lemma scan_authority_plain http a b : Forall plain a -> match b with c :: _ => is_target_delim c = true | [] => True end ->
  forall i, scan_authority http i (a ++ b) = Some (i + length a)%nat.
Proof.
  induction 1 as [|c a [Hd Hb] Ha IH]; intros Hh i; simpl.
  - rewrite Nat.add_0_r. destruct b as [|c b]; simpl; [done|]. by rewrite Hh.
  - rewrite Hd, (bool_decide_false (c = Byte.x5c)) by done. rewrite andb_false_r, IH by done. f_equal. lia.
Qed.

(** Another authority in the place of the one of an absolute target. *)
Lemma retarget t scheme a pq h : raw_target_authority t = Absolute scheme a pq -> Forall plain h -> h <> [] ->
  raw_target_authority (scheme ++ bytes_of "://" ++ h ++ pq) = Absolute scheme h pq.
Proof.
  intros Ht Hh Hne. pose proof (raw_target_authority_pieces _ _ _ _ Ht) as (-> & _ & Hpq & _).
  revert Ht. unfold raw_target_authority. change (bytes_of "://") with (Byte.x3a :: bytes_of "//").
  cbn [app]. case_bool_decide as Hhead; [done|].
  destruct (scan_scheme 0 true (scheme ++ Byte.x3a :: bytes_of "//" ++ a ++ pq)) as [[i v]|] eqn:Hs; [|done].
  pose proof (scan_scheme_spec _ _ _ _ _ Hs) as (x & y & Hxy & -> & Hx). rewrite Nat.add_0_l.
  rewrite Hxy, take_app_length.
  assert (Hd : forall y : list byte, drop (S (length x)) (x ++ Byte.x3a :: y) = y).
  { intros z. rewrite cons_middle, app_assoc. apply drop_app_length'. rewrite length_app. simpl. lia. }
  rewrite Hd. destruct (strip_prefix (bytes_of "//") y) as [rest|] eqn:Hp;
    destruct (bool_decide (x = []) || negb v) eqn:Hv; try done; [|by destruct (is_http_family_scheme x)].
  destruct (scan_authority (is_http_family_scheme x) 0 rest) as [e|] eqn:Ha; [|done].
  destruct (is_http_family_scheme x && bool_decide (e = 0%nat)) eqn:He; [done|]. intros [= <- _ _].
  clear He Ha Hp rest. destruct x as [|c x]; [done|].
  rewrite bool_decide_false by (intros Hc; by apply Hhead).
  rewrite (scan_scheme_prefix _ Hx 0 true _ (bytes_of "//" ++ a ++ pq)), Hs, Nat.add_0_l. rewrite take_app_length, Hd, Hv.
  change (strip_prefix (bytes_of "//") (bytes_of "//" ++ h ++ pq)) with (Some (h ++ pq)). cbv iota beta.
  rewrite scan_authority_plain, Nat.add_0_l by done. rewrite take_app_length, drop_app_length.
  rewrite (bool_decide_false (length h = 0%nat)) by (by destruct h). by rewrite andb_false_r.
Qed.

Context (uri_with_authority : Uri -> list byte -> option Uri).

(** What [Authority] accepts, and the authority of URIs made from parts. *)
Class AuthorityLaws : Prop := {
  authority_plain : forall a x, parse_authority a = Some x -> a <> [] /\ Forall plain a;
  uri_authority_set : forall u a u', uri_with_authority u a = Some u' -> uri_authority u' = Some a;
  path_no_authority : forall p u, uri_with_path_and_query p = Some u -> uri_authority u = None;
  default_no_authority : uri_authority uri_default = None
}.
Context `{AL : !AuthorityLaws}.

Definition HASH : byte := Byte.x23.

Lemma strip_fragment_none t : HASH ∉ t -> strip_fragment t = t.
Proof.
  intros Hn. unfold strip_fragment. destruct (position _ t) as [i|] eqn:Hp; [|done].
  apply position_Some in Hp as (_ & c & Hc & Hd). apply bool_decide_eq_true in Hd as ->.
  destruct Hn. rewrite Hc. apply elem_of_app. right. by left.
Qed.

(** An absolute target is kept as it is, and its URI has no authority. *)
Lemma set_absolute t scheme a pq req r : HASH ∉ t -> raw_target_authority t = Absolute scheme a pq ->
  set_raw_path t req = inl r ->
  raw_path r = t /\ uri_authority (req_uri r) = None /\ req_headers r = req_headers req /\ req_method r = req_method req.
Proof.
  intros Hn Ht. unfold set_raw_path, parse_request_target. rewrite strip_fragment_none by done.
  assert (Hform : from_uri_form t = false).
  { destruct (from_uri_form t) eqn:Hform; [|done]. apply from_uri_no_authority in Hform. by rewrite Ht in Hform. }
  rewrite Hform, Ht. unfold path_and_query_uri.
  assert (Hraw : forall u, raw_path (MkReq (req_method req) u (req_version req) (req_headers req) (req_header_name_map req)
    (if is_utf8 t then Verbatim t else Lossy t) (req_send_end_stream req)) = t) by (intros u; unfold raw_path; simpl; by destruct (is_utf8 t)).
  destruct (from_utf8_lossy pq) as [|c l].
  - intros [= <-]. split_and!; [apply Hraw|apply default_no_authority|done|done].
  - destruct (uri_with_path_and_query _) as [u|] eqn:Hu; [|done]. intros [= <-].
    split_and!; [apply Hraw|by eapply path_no_authority|done|done].
Qed.

(** The authority of the request is the Host, if it has one of its own. *)
Lemma reconcile_spec req r h hs : fields req h_host = h :: hs -> HASH ∉ raw_path req ->
  reconcile_upstream_authority uri_with_authority req = inl r ->
  req_headers r = req_headers req /\ req_method r = req_method req /\
  (request_authority r = None \/ request_authority r = Some h).
Proof.
  intros Hf Hhash. unfold reconcile_upstream_authority. rewrite get_fields, Hf. cbn [head].
  destruct (contains AT h); [done|]. unfold request_authority. destruct (uri_authority (req_uri req)) as [a|] eqn:Hu.
  - destruct (negb (raw_path_is_utf8 req)); [done|]. case_bool_decide as Ha; [intros [= <-]; rewrite Hu; subst a; tauto|].
    unfold parse_host_authority. destruct (parse_authority h) as [x|]; [|done].
    destruct (uri_with_authority (req_uri req) h) as [u|] eqn:Hw; [|done]. intros [= <-]. simpl.
    rewrite (uri_authority_set _ _ _ Hw). tauto.
  - destruct (raw_target_authority (raw_path req)) as [|scheme a pq|] eqn:Ht; try (intros [= <-]; rewrite Hu, Ht; simpl; tauto).
    case_bool_decide as Ha; [intros [= <-]; rewrite Hu, Ht; subst a; simpl; tauto|].
    unfold parse_host_authority. destruct (parse_authority h) as [x|] eqn:Hp; [|done].
    apply authority_plain in Hp as [Hne Hplain]. intros Hset.
    pose proof (retarget _ _ _ _ h Ht Hplain Hne) as Hre.
    pose proof (raw_target_authority_pieces _ _ _ _ Ht) as (Hpieces & _).
    apply (set_absolute _ scheme h pq) in Hset as (Hr & Hu' & Hh & Hm); [|rewrite Hpieces in Hhash|done].
    + rewrite Hu', Hr, Hre. simpl. tauto.
    + rewrite !elem_of_app in *. intros Hin. apply Hhash. destruct Hin as [?|[?|[Hin|?]]]; try tauto.
      rewrite Forall_forall in Hplain. by destruct (Hplain _ Hin) as [? _].
Qed.

(** ** The request that is sent *)

Notation Attempt := (@Attempt hmap Uri).
Notation reconcile := (reconcile uri_with_authority).

Lemma then_ok (r : option (Req + Blame)) k r' : then_ r k = Some (inl r') -> exists q, r = Some (inl q) /\ k q = Some (inl r').
Proof. destruct r as [[q|]|]; simpl; [|done..]. by exists q. Qed.

Lemma blame_ok b (r : option (Req + Error)) r' : blame b r = Some (inl r') -> r = Some (inl r').
Proof. destruct r as [[q|]|]; simpl; [|done..]. by intros [= ->]. Qed.

(** The phases of a request that is sent. *)
Lemma upstream_request_phases (a : Attempt) d r : upstream_request uri_with_authority a d = Some (inl r) ->
  exists r1 r2 r3 q q',
    (forall k, k <> h_host -> fields r1 k = fields d k) /\
    sanitize_h1_upstream_request r1 (at_policy a) (bool_decide (req_version d = HTTP_11)) = Some (inl r2) /\
    (forall k, k ∉ precondition_names -> fields r3 k = fields r2 k) /\
    at_filter a r3 = inl q /\
    (if at_custom a then q' = q else reconcile (hm_contains_key (req_headers d) h_host) q = Some (inl q')) /\
    finalize_h1_upstream_request_framing q' (negb (at_body_empty a)) = Some (inl r).
Proof.
  unfold upstream_request. intros (r1 & H1 & H)%then_ok. apply then_ok in H as (r2 & H2%blame_ok & H).
  destruct (match at_cache a with None => _ | Some _ => _ end) as [r3|] eqn:H3; [|done].
  apply then_ok in H as (q & H4%blame_ok & H). apply then_ok in H as (q' & H5 & H6%blame_ok).
  exists r1, r2, r3, q, q'. split_and!; [|done| |congruence| |done].
  - assert (Hv : forall k, fields (set_version HTTP_11 d) k = fields d k) by done.
    destruct (bool_decide (req_version d = HTTP_2)); [apply blame_ok in H1|by injection H1 as <-]. intros k Hk. rewrite <- Hv.
    destruct (at_custom a); simpl in H1; [apply set_host_absent_spec in H1 as [Hf _]|apply set_host_spec in H1 as [Hf _]]; by apply Hf.
  - destruct (at_cache a) as [meta|]; [|by injection H3 as <-]. by apply cache_filter_spec in H3 as [? _].
  - destruct (at_custom a); simpl in H5; [by injection H5 as <-|done].
Qed.

Lemma reconcile_phases had q q' : reconcile had q = Some (inl q') ->
  exists q1, reconcile_upstream_authority uri_with_authority q = inl q1 /\
    (if had || bool_decide (is_Some (request_authority q1)) then set_h1_host_from_authority q1 = Some (inl q') else q' = q1) /\
    validate_request_authority q' = inl tt.
Proof.
  unfold UpstreamRequest.Upstream.reconcile. intros (q1 & H1%blame_ok & H)%then_ok. injection H1 as H1.
  apply then_ok in H as (q2 & H2 & H3). exists q1. destruct (validate_request_authority q2) as [[]|] eqn:Hv; [|done].
  injection H3 as <-. split_and!; [done| |done].
  assert (Ha : bool_decide (is_Some (request_authority q1)) =
    bool_decide (is_Some (uri_authority (req_uri q1))) || bool_decide (is_Some (target_authority (raw_target_authority (raw_path q1))))).
  { unfold request_authority. by destruct (uri_authority (req_uri q1)). }
  rewrite Ha, orb_assoc. destruct (had || _ || _); [by apply blame_ok in H2|by injection H2].
Qed.

Lemma same_rest_raw_path req r : same_rest req r -> raw_path r = raw_path req /\ request_authority r = request_authority req.
Proof. unfold raw_path, request_authority, raw_path. intros (_ & -> & _ & ->). done. Qed.


Lemma validated_one_host req : validate_request_authority req = inl tt -> (length (fields req h_host) <= 1)%nat.
Proof.
  unfold validate_request_authority, validate_request_authority_fields. fold (fields req h_host).
  destruct (fields req h_host) as [|? [|? ?]]; simpl; [lia|lia|done].
Qed.

(** The Host of the reconciled request. *)
Lemma reconcile_host had q q' : reconcile had q = Some (inl q') ->
  (forall k, k <> h_host -> fields q' k = fields q k) /\ validate_request_authority q' = inl tt /\
  (forall h hs, fields q h_host = h :: hs -> HASH ∉ raw_path q ->
     fields q' h_host = [h] /\ (request_authority q' = None \/ request_authority q' = Some h)) /\
  (fields q h_host = [] -> had = true \/ is_Some (request_authority q) ->
     fields q' h_host = [default [] (request_authority q)]).
Proof.
  intros (q1 & H1 & H2 & Hv)%reconcile_phases.
  assert (Hh : req_headers q1 = req_headers q /\ (fields q h_host = [] -> q1 = q)).
  { clear H2 Hv. revert H1. unfold reconcile_upstream_authority. rewrite get_fields.
    destruct (fields q h_host) as [|h hs]; [by intros [= <-]|]. cbn [head].
    destruct (contains AT h); [done|]. destruct (uri_authority (req_uri q)) as [au|].
    - destruct (negb (raw_path_is_utf8 q)); [done|]. destruct (bool_decide (h = au)); [by intros [= <-]|].
      destruct (parse_host_authority h); [|done]. destruct (uri_with_authority _ _); [|done]. by intros [= <-].
    - destruct (raw_target_authority (raw_path q)) as [|sc au pq|]; [by intros [= <-]| |by intros [= <-]].
      destruct (bool_decide (h = au)); [by intros [= <-]|]. destruct (parse_host_authority h); [|done].
      unfold set_raw_path. destruct (parse_request_target _) as [[u1 rt]|]; [|done]. by intros [= <-]. }
  destruct Hh as [Hh Hnil].
  assert (Hq1 : forall k, fields q1 k = fields q k) by (intros k; unfold fields; by rewrite Hh).
  assert (Hset : (forall k, k <> h_host -> fields q' k = fields q1 k) /\ same_rest q1 q' /\
    match request_authority q1 with
    | Some a => fields q' h_host = [a]
    | None => fields q' h_host = (if had && bool_decide (fields q1 h_host = []) then [[]] else fields q1 h_host)
    end).
  { destruct had; simpl in H2.
    - by apply set_host_spec in H2.
    - destruct (request_authority q1) as [au|] eqn:Ha.
      + rewrite bool_decide_true in H2 by by eexists. apply set_host_spec in H2 as (? & ? & Hm). by rewrite Ha in Hm.
      + rewrite bool_decide_false in H2 by by intros [? ?]. by subst q'. }
  destruct Hset as (Ho & Hs & Hhost). split_and!.
  - intros k Hk. by rewrite Ho, Hq1.
  - done.
  - intros h hs Hf Hhash. destruct (reconcile_spec _ _ _ _ Hf Hhash H1) as (_ & _ & Ha).
    destruct (same_rest_raw_path _ _ Hs) as [_ ->]. split; [|done].
    destruct Ha as [Ha|Ha]; rewrite Ha in Hhost; [|done]. rewrite Hq1, Hf, andb_false_r in Hhost.
    apply validated_one_host in Hv. rewrite Hhost in Hv |- *. destruct hs; [done|simpl in Hv; lia].
  - intros Hf Hhad. rewrite (Hnil Hf) in *. destruct (request_authority q) as [au|]; [done|].
    destruct Hhad as [->|[? ?]]; [|done]. by rewrite Hf in Hhost.
Qed.


(** C16: If the application's filter leaves the request alone and hop-by-hop fields
    are stripped, the request that is sent has one framing: the Content-Length of
    the client's request, unless its Connection field nominates it, and otherwise
    [chunked] exactly if there is a body; never both, and nothing of the client's
    Transfer-Encoding. *)
Theorem upstream_framing (a : Attempt) d r :
  (forall q, at_filter a q = inl q) -> strip_hop_by_hop (at_policy a) = true -> h1_upgrade (at_policy a) <> Preserve ->
  upstream_request uri_with_authority a d = Some (inl r) ->
  (fields r h_content_length = fields d h_content_length \/
   (fields r h_content_length = [] /\ nominated d h_content_length)) /\
  fields r h_transfer_encoding =
    (if negb (at_body_empty a) && bool_decide (fields r h_content_length = []) then [bytes_of "chunked"] else []) /\
  (fields r h_content_length = [] \/ fields r h_transfer_encoding = []).
Proof.
  intros Hid Hstrip Hup (r1 & r2 & r3 & q & q' & Hr1 & Hsan & Hr3 & Hfil & Hrec & Hfin)%upstream_request_phases.
  rewrite Hid in Hfil. injection Hfil as ->.
  assert (Hq : forall k, k <> h_host -> fields q' k = fields q k).
  { destruct (at_custom a); [by subst q'|]. by apply reconcile_host in Hrec as [? _]. }
  pose proof (sanitize_h1_cases r1 (at_policy a) (bool_decide (req_version d = HTTP_11))) as Hc. rewrite Hsan in Hc.
  destruct Hc as (_ & _ & _ & Hc). specialize (Hc ltac:(intros [Hp|[Hp _]]; [by rewrite Hp in Hstrip|done])).
  assert (Hn : forall name, nominated r1 name <-> nominated d name).
  { intros name. unfold nominated, connection_nominations. fold (fields r1 h_connection) (fields d h_connection).
    by rewrite Hr1. }
  destruct (Hc h_transfer_encoding) as [_ Hte]. destruct (Hc h_content_length) as [_ Hcl]. clear Hc.
  assert (Hte' : fields q' h_transfer_encoding = []).
  { rewrite Hq, Hr3 by (try done; vm_compute; set_solver). apply Hte; [intros [Hin _]; vm_compute in Hin; set_solver|].
    right. left. split; [done|]. vm_compute. set_solver. }
  assert (Hcl' : fields q' h_content_length = fields d h_content_length \/
    (fields q' h_content_length = [] /\ nominated d h_content_length)).
  { rewrite Hq, Hr3 by (try done; vm_compute; set_solver). destruct Hcl as [H1 H2]; [intros [Hin _]; vm_compute in Hin; set_solver|].
    destruct (decide (nominated r1 h_content_length)) as [Hd|Hd].
    - destruct (strip_connection_nominated (at_policy a)) eqn:Hsn.
      + right. rewrite Hn in Hd. split; [|done]. apply H1. left. by rewrite Hn.
      + left. rewrite H2, Hr1; [done|done|]. intros [[? _]|[[_ Hin]|[_ Hin]]]; [congruence|vm_compute in Hin; set_solver..].
    - left. rewrite H2, Hr1; [done|done|]. intros [[_ ?]|[[_ Hin]|[_ Hin]]]; [done|vm_compute in Hin; set_solver..]. }
  apply finalize_spec in Hfin as (Hf & _ & Hfte). rewrite Hte', (bool_decide_true ([] = [])), andb_true_r in Hfte by done.
  rewrite (Hf h_content_length) by done. split_and!; [done|done|]. rewrite Hfte.
  destruct (decide (fields q' h_content_length = [])) as [Hb|Hb]; [by left|right]. by rewrite bool_decide_false, andb_false_r.
Qed.

End spec.

(** ** The definitions on an example *)

(** Membership by evaluation. *)
Ltac is_in := apply (proj1 (bool_decide_eq_true _)); vm_compute; reflexivity.
Ltac not_in H := exfalso; revert H; apply (proj1 (bool_decide_eq_false _)); vm_compute; reflexivity.

(** URIs as a path and perhaps an authority. *)
Definition pair_uri : Type := (option (list byte) * list byte)%type.

#[export] Instance pair_crate : HttpCrate pair_uri := {
  header_name_of s := if bool_decide (s = []) then None else Some (lowercase s);
  header_value_of s := Some s;
  value_is_visible s := true;
  method_of s := if bool_decide (s = []) then None else Some s;
  canonical_reason c := None;
  uri_default := (None, bytes_of "/");
  uri_with_path_and_query p := Some (None, if bool_decide (p = []) then bytes_of "/" else p);
  uri_path_and_query u := Some (snd u);
  uri_authority u := fst u;
  parse_authority a :=
    if bool_decide (a = []) || existsb (fun c => is_target_delim c || bool_decide (c = Byte.x5c)) a
    then None else Some (a, false)
}.

Definition pair_with_authority (u : pair_uri) (a : list byte) : option pair_uri := Some (Some a, snd u).

#[export] Instance pair_reads : ReadsFields (Uri := pair_uri).
Proof.
  split; [|by intros v v' [= <-]]. intros c Hc. simpl. rewrite bool_decide_false; [done|].
  intros ->. vm_compute in Hc. set_solver.
Qed.

#[export] Instance pair_laws : AuthorityLaws pair_with_authority.
Proof.
  split; [|by intros u a u' [= <-]|by intros p u [= <-]|done].
  intros a x. simpl. case_bool_decide; [done|]. simpl. destruct (existsb _ a) eqn:He; [done|]. intros _. split; [done|].
  apply Forall_forall. intros c Hc. apply not_true_iff_false in He. rewrite existsb_exists in He.
  unfold plain. destruct (is_target_delim c) eqn:Hd.
  - destruct He. exists c. split; [by apply list_elem_of_In|]. by rewrite Hd.
  - split; [done|]. intros ->. destruct He. exists Byte.x5c. split; [by apply list_elem_of_In|]. by rewrite bool_decide_true, orb_true_r.
Qed.

Definition test_request (target : string) (fs : list (string * string)) : RequestHeader amap pair_uri :=
  match req_build (bytes_of "POST") (bytes_of target) with
  | inl r => foldl (fun r nv => (req_append_header (FromText (bytes_of (fst nv))) (bytes_of (snd nv)) r).1) r fs
  | inr _ => req_new_no_case
  end.

(** A request with nominated and hop-by-hop fields and a Transfer-Encoding. *)
Definition smuggler : RequestHeader amap pair_uri :=
  test_request "http://h/x" [("Host", "h"); ("Connection", "X-Secret, TE"); ("X-Secret", "1"); ("TE", "trailers");
    ("Transfer-Encoding", "chunked"); ("Content-Length", "3"); ("X-Kept", "2")]%string.


Definition plain_attempt : @Attempt amap pair_uri := MkAttempt false policy_default None inl false.

Definition sent (a : @Attempt amap pair_uri) d : RequestHeader amap pair_uri :=
  match upstream_request pair_with_authority a d with Some (inl r) => r | _ => d end.

Lemma sanitize_exact_witness :
  acceptable policy_default smuggler /\
  match sanitize_h1_upstream_request smuggler policy_default true with
  | Some (inl r) => fields r (bytes_of "x-secret") = [] /\ fields r (bytes_of "x-kept") = [bytes_of "2"]
  | _ => False
  end.
Proof.
  pose proof (sanitize_exact smuggler policy_default true) as [Hc _].
  destruct (sanitize_h1_upstream_request smuggler policy_default true) as [[r|e]|] eqn:Hs.
  - destruct Hc as (Hacc & _ & _ & Hc). split; [exact Hacc|].
    specialize (Hc ltac:(intros [?|[? _]]; discriminate)). split.
    + destruct (Hc (bytes_of "x-secret")) as [_ Hx]. destruct Hx as [Hx _].
      * intros [Hin _]. not_in Hin.
      * apply Hx. left. split; [reflexivity|]. is_in.
    + destruct (Hc (bytes_of "x-kept")) as [_ Hx]. destruct Hx as [_ Hx].
      * intros [Hin _]. not_in Hin.
      * rewrite Hx; [reflexivity|]. intros [[_ Hin]|[[_ Hin]|[_ Hin]]]; not_in Hin.
  - vm_compute in Hs. discriminate Hs.
  - vm_compute in Hs. discriminate Hs.
Defined.


Lemma upstream_framing_witness :
  fields (sent plain_attempt smuggler) h_content_length = [bytes_of "3"] /\
  fields (sent plain_attempt smuggler) h_transfer_encoding = [].
Proof.
  destruct (upstream_framing pair_with_authority plain_attempt smuggler (sent plain_attempt smuggler))
    as (Hcl & Hte & _); [reflexivity|reflexivity|discriminate|vm_compute; reflexivity|].
  assert (Hf : fields (sent plain_attempt smuggler) h_content_length = [bytes_of "3"]) by (vm_compute; reflexivity).
  split; [exact Hf|]. rewrite Hte, Hf. reflexivity.
Defined.
