(* ===== verification/H1Upstream.v ===== *)
(** * The upstream half of an HTTP/1 proxy attempt

    [proxy_handle_upstream] and [send_body_to1] of
    [src/pingora-proxy/src/proxy_h1.rs], [PipeState] of [proxy_common.rs], and the
    release of the session in [src/pingora-core/src/connectors/http/v1.rs]: the loop
    that reads the response of the origin into one pipe while it writes the
    request body that arrives in another.

    A [select!] is a choice of the environment: the loop is run on a list of
    events, each the completion of one branch.  A read that is pending when
    the other branch completes is dropped, which is what [Cancelled] is in the
    session's model.  The pipes belong to the other half: an event says whether
    a send is taken, and what a receive gives. *)

From stdpp Require Import base list numbers strings.
From Stdlib Require Import ZArith Lia.
From S2P Require Import Prelude Errors Text Headers Parser BodyReader BodyWriter Framing H1Server H1Client.
Local Open Scope Z_scope.

(** ** The signal of the downstream half *)

Inductive PipeState := Active | DownstreamComplete | UploadFailed | DownstreamCompleteAfterUploadFailure.

Definition pipe_state_as_u8 (p : PipeState) : Z :=
  match p with
  | Active => 0 | DownstreamComplete => 1 | UploadFailed => 2 | DownstreamCompleteAfterUploadFailure => 3
  end.

Definition is_downstream_complete (raw : Z) : bool :=
  (raw =? pipe_state_as_u8 DownstreamComplete) ||
  (raw =? pipe_state_as_u8 DownstreamCompleteAfterUploadFailure).

Module Upload.
Section half.
Context {hmap : Type -> Type} `{HM : HMap hmap} {Uri : Type} `{HC : HttpCrate Uri}.
Variable httparse_response : ResponseParserConfig -> Z -> list byte -> ParseStatus ParsedResponse + ParseError.
Variable parse_chunk_size : list byte -> chunk_status.
Variable io_error : IoError.

Abbreviation Sess := (@Client.HttpSession hmap Uri).
Abbreviation Task := (@Server.HttpTask hmap).
Abbreviation CM := (@Client.CM hmap Uri).

(** [HttpTask::is_end]. *)
Definition is_end (task : Task) : bool :=
  match task with
  | Server.THeader _ e | Server.TBody _ e | Server.TUpgradedBody _ e => e
  | Server.TTrailer | Server.TDone | Server.TFailed _ => true
  end.

(** [HttpTask::type_str]. *)
Definition type_str (task : Task) : string :=
  match task with
  | Server.THeader _ _ => "Header" | Server.TBody _ _ => "Body" | Server.TUpgradedBody _ _ => "UpgradedBody"
  | Server.TTrailer => "Trailer" | Server.TDone => "Done" | Server.TFailed _ => "Failed"
  end.

Definition into_up {A} (m : CM A) : CM A :=
  fun s => match m s with Fail e s' => Fail (as_up e) s' | r => r end.

(** ** Writing the request body *)

Definition write_data (data : option (list byte)) : CM unit :=
  match data with
  | Some d => let! _ := into_up (Client.write_body d) in ret tt
  | None => ret tt
  end.

Definition send_body_to1 (recv_task : option Task) : CM bool :=
  let! body_done :=
    match recv_task with
    | Some (Server.TBody data e) => do! write_data data; ret e
    | Some (Server.TUpgradedBody data e) =>
        do! Client.upd Client.maybe_upgrade_body_writer;
        do! write_data data;
        ret e
    | _ => do! Client.upd Client.maybe_upgrade_body_writer; ret true
    end in
  if (body_done : bool) then let! _ := into_up Client.finish_body in ret true
  else ret false.

(** ** The loop *)

(** The locals of the loop, with what the two pipes have carried. *)
Record Half := MkHalf {
  client_session : Sess;
  request_done : bool;
  response_done : bool;
  upstream_can_reuse : bool;
  send_error : option Error;
  upgraded : bool;
  tx : list Task  (** the tasks the pipe to the downstream half took *);
  rx : list (option Task)  (** what the pipe from it gave, [None] when its sender is gone *)
}.

Definition half_new (client_session : Sess) : Half :=
  MkHalf client_session false false true None false [] [].

Definition set_client_session (x : Sess) (h : Half) : Half :=
  MkHalf x (request_done h) (response_done h) (upstream_can_reuse h) (send_error h) (upgraded h) (tx h) (rx h).
Definition set_request_done (x : bool) (h : Half) : Half :=
  MkHalf (client_session h) x (response_done h) (upstream_can_reuse h) (send_error h) (upgraded h) (tx h) (rx h).
Definition set_response_done (x : bool) (h : Half) : Half :=
  MkHalf (client_session h) (request_done h) x (upstream_can_reuse h) (send_error h) (upgraded h) (tx h) (rx h).
Definition set_send_error (e : Error) (h : Half) : Half :=
  MkHalf (client_session h) (request_done h) (response_done h) false (Some e) (upgraded h) (tx h) (rx h).
Definition set_half_upgraded (h : Half) : Half :=
  MkHalf (client_session h) (request_done h) (response_done h) (upstream_can_reuse h) (send_error h) true (tx h)
    (rx h).
Definition push_tx (t : Task) (h : Half) : Half :=
  MkHalf (client_session h) (request_done h) (response_done h) (upstream_can_reuse h) (send_error h) (upgraded h)
    (tx h ++ [t]) (rx h).
Definition push_rx (t : option Task) (h : Half) : Half :=
  MkHalf (client_session h) (request_done h) (response_done h) (upstream_can_reuse h) (send_error h) (upgraded h)
    (tx h) (rx h ++ [t]).

Inductive UpEvent :=
| ReadResponse (open : bool) (pipe_state : Z)
    (** the read of the response; is the pipe's receiver still there, and what does the signal say *)
| RecvBody (body : option Task)  (** the receive of a task of the request *).

(** The computation of one branch: [Some b] when it returns [Ok(b)]. *)
Definition HM_ (A : Type) : Type := M Half Error A.

Definition response_task (open : bool) (pipe_state : Z) (task : Task) : HM_ (option bool) :=
  do! modify (set_response_done (is_end task));
  do! modify (fun h =>
        if negb (upgraded h) && Client.upgraded (client_session h) then
          let h := set_half_upgraded h in
          match send_error h with None => set_request_done false h | Some _ => h end
        else h);
  if open then do! modify (push_tx task); ret None
  else
    let! h := get in
    if Client.upgraded (client_session h) then ret None
    else if is_downstream_complete pipe_state then
      if response_done h then ret None else ret (Some false)
    else fail (because InternalError
                 ("Failed to send upstream task " +:+ type_str task +:+ (if response_done h then " (end)" else String.EmptyString)
                  +:+ " to pipe") (Foreign "channel closed")).

Definition read_branch (fuel : nat) (open : bool) (pipe_state : Z) : HM_ (option bool) :=
  let! h := get in
  match Client.read_response_task httparse_response parse_chunk_size io_error fuel (client_session h) with
  | Val task s => do! modify (set_client_session s); response_task open pipe_state task
  | Fail e s =>
      do! modify (set_client_session s);
      do! modify (fun h => if open then push_tx (Server.TFailed (as_up (default e (send_error h)))) h else h);
      ret (Some false)
  | Cancelled s => do! modify (set_client_session s); ret None
  | Panic => panic
  end.

(** Is it the end of a request body that was queued before the upgrade? *)
Definition pre_upgrade_body_end (body : option Task) (s : Sess) : bool :=
  Client.upgraded s && match body with Some (Server.TBody _ true) => true | _ => false end.

Definition body_branch (body : option Task) : HM_ (option bool) :=
  do! modify (push_rx body);
  let! h := get in
  let pre := pre_upgrade_body_end body (client_session h) in
  match send_body_to1 body (client_session h) with
  | Val send_done s =>
      do! modify (set_client_session s);
      let request_done := send_done && negb pre in
      do! modify (set_request_done request_done);
      do! modify (fun h => if request_done && Client.upgraded s then set_response_done true h else h);
      ret None
  | Fail e s =>
      do! modify (set_client_session s);
      do! modify (fun h => set_send_error e (set_request_done true h));
      ret None
  | Cancelled s => fun h => Cancelled (set_client_session s h)
  | Panic => panic
  end.

(** A branch whose guard does not hold is not polled. *)
Definition select (fuel : nat) (ev : UpEvent) : HM_ (option bool) :=
  let! h := get in
  match ev with
  | ReadResponse open pipe_state => if response_done h then ret None else read_branch fuel open pipe_state
  | RecvBody body => if request_done h then ret None else body_branch body
  end.

(** [Cancelled] after the last event: the loop waits. *)
Fixpoint proxy_handle_upstream (fuel : nat) (events : list UpEvent) : HM_ bool :=
  let! h := get in
  if request_done h && response_done h then ret (upstream_can_reuse h)
  else
    match events with
    | [] => fun h => Cancelled h
    | ev :: events =>
        let! r := select fuel ev in
        match r with
        | Some b => ret b
        | None => proxy_handle_upstream fuel events
        end
    end.

(** ** Both halves *)

(** [try_join!]: an error of either half drops the other. *)
Definition joined (downstream upstream : bool + Error) : bool * bool * option Error :=
  match downstream, upstream with
  | inl d, inl u => (d, u, None)
  | inr e, _ | inl _, inr e => (false, false, Some e)
  end.

(** [release_http_session]: the stream that goes back to the pool, if any. *)
Definition release_http_session (s : Sess) : option (list rd_event) :=
  Client.reuse (Client.respect_keepalive s).

(** The attempt as [proxy_to_upstream] ends it. *)
Definition after_attempt (downstream upstream : bool + Error) (s : Sess) : bool * option Error * option (list rd_event) :=
  let '(server_reused, client_reuse, error) := joined downstream upstream in
  (server_reused, error, if client_reuse then release_http_session s else None).

End half.
End Upload.
