(* ===== verification/H1UpstreamSpec.v ===== *)
(** * What the upstream half sends and relays

    Reading the response and writing the request use disjoint parts of the
    session, so their interleaving does not matter: the pipe gets the tasks that
    reading alone gives, the origin gets the bytes that writing alone gives, and
    the session goes back to the pool only where both messages have ended. *)

From stdpp Require Import base list numbers strings.
From Stdlib Require Import ZArith Lia.
From S2P Require Import Prelude Errors Text Headers HeadersSpec Parser BodyReader BodyReaderSafety BodyDecode BodySpec BodyWriter BodyWriterSpec Framing FramingSpec H1Server H1Client BodyFraming H1ClientSpec H1Upstream.
Local Open Scope Z_scope.

(** ** Computations that leave a part of the state alone *)

Definition map_state {S E A} (f : S -> S) (r : exec S E A) : exec S E A :=
  match r with
  | Val a s => Val a (f s)
  | Fail e s => Fail e (f s)
  | Cancelled s => Cancelled (f s)
  | Panic => Panic
  end.

(** [m] neither reads nor writes what [f] sets. *)
Definition blind {S E A} (f : S -> S) (m : M S E A) : Prop := forall s, m (f s) = map_state f (m s).

Section blind.
Context {S E : Type} (f : S -> S).

Lemma blind_ret {A} (a : A) : blind (E := E) f (ret a).
Proof. done. Qed.
Lemma blind_fail {A} (e : E) : blind (A := A) f (fail e).
Proof. done. Qed.
Lemma blind_unwrap {A} (o : option A) : blind (E := E) f (unwrap o).
Proof. by destruct o. Qed.
Lemma blind_bind {A B} (m : M S E A) (k : A -> M S E B) :
  blind f m -> (forall a, blind f (k a)) -> blind f (bind m k).
Proof. intros Hm Hk s. unfold bind. rewrite Hm. destruct (m s); simpl; [apply Hk|done..]. Qed.
Lemma blind_get {A} (k : S -> M S E A) :
  (forall x, blind f (k x)) -> (forall x, k (f x) = k x) -> blind f (bind get k).
Proof. intros Hk Hf s. unfold bind, get. rewrite Hf. apply Hk. Qed.
Lemma blind_modify g : (forall s, g (f s) = f (g s)) -> blind (E := E) f (modify g).
Proof. intros Hg s. unfold modify. simpl. by rewrite Hg. Qed.

(** So what [f] sets is what it was. *)
Lemma blind_keeps {A X} (g : S -> X) (m : M S E A) (a : A) s s' :
  (forall s, g (f s) = g (f s')) -> f s = s -> blind f m -> m s = Val a s' -> f s' = s'.
Proof. intros _ Hs Hb Hm. specialize (Hb s). rewrite Hs, Hm in Hb. simpl in Hb. congruence. Qed.

End blind.

(** The state a computation leaves, if it does. *)
Definition left_in {S E A} (r : exec S E A) : option S :=
  match r with Val _ s | Fail _ s | Cancelled s => Some s | Panic => None end.

(** ** Bytes of a body *)

Lemma wire_app ds ds' : forall m, wire m (ds ++ ds') = wire m ds ++ wire (mode_after m ds) ds'.
Proof. induction ds as [|d ds IH]; intros m; [done|]. simpl. by rewrite IH, app_assoc. Qed.

Lemma mode_after_app ds ds' : forall m, mode_after m (ds ++ ds') = mode_after (mode_after m ds) ds'.
Proof. induction ds as [|d ds IH]; intros m; [done|]. apply IH. Qed.

Lemma mode_after_ok ds : forall m, mode_ok m -> mode_ok (mode_after m ds).
Proof. induction ds as [|d ds IH]; intros m Hm; [done|]. apply IH. by apply write_effect_ok. Qed.

Lemma wire_content_length total ds : forall n, 0 <= n <= total ->
  wire (ContentLength total n) ds = ztake (total - n) (concat ds) /\
  mode_after (ContentLength total n) ds = ContentLength total (n + Z.min (total - n) (zlen (concat ds))).
Proof.
  induction ds as [|d ds IH]; intros n Hn.
  { simpl. change (zlen (@nil byte)) with 0. rewrite ztake_ge by (change (zlen (@nil byte)) with 0; lia).
    split; [done|]. f_equal. lia. }
  cbn [wire mode_after concat]. rewrite zlen_app. pose proof (zlen_nonneg d). pose proof (zlen_nonneg (concat ds)).
  unfold write_effect. destruct (Z.leb_spec total n); simpl.
  - destruct (IH n Hn) as [-> ->]. replace (total - n) with 0 by lia. rewrite !ztake_0. split; [done|]. f_equal. lia.
  - destruct (IH (n + Z.min (total - n) (zlen d))) as [-> ->]; [lia|]. split; [|f_equal; lia].
    destruct (Z.leb_spec (total - n) (zlen d)).
    + rewrite Z.min_l by lia. rewrite ztake_app_l by lia. replace (total - (n + (total - n))) with 0 by lia.
      by rewrite ztake_0, app_nil_r.
    + rewrite Z.min_r by lia. rewrite (ztake_ge _ d), ztake_app_r by lia. do 2 f_equal. lia.
Qed.

(** ** A stream that is never pending *)

(** From [C], [m] is not dropped, and [C] holds after it. *)
Definition calmly {S E A} (C : S -> Prop) (m : M S E A) : Prop :=
  forall s, C s -> match m s with Val _ s' | Fail _ s' => C s' | Cancelled _ => False | Panic => True end.

Definition calm (w : writer_io) : Prop := Forall (fun ev => ev <> IoPend) (wr_events w).

Lemma calmly_bind {S E A B} (C : S -> Prop) (m : M S E A) (k : A -> M S E B) :
  calmly C m -> (forall a, calmly C (k a)) -> calmly C (bind m k).
Proof. intros Hm Hk s Hs. specialize (Hm s Hs). unfold bind. destruct (m s); try done. by apply Hk. Qed.

Lemma calmly_pure {S E A} (C : S -> Prop) (m : M S E A) :
  (forall s, left_in (m s) = Some s \/ m s = Panic) -> (forall s s', m s <> Cancelled s') -> calmly C m.
Proof.
  intros Hm Hc s Hs. specialize (Hc s). destruct (Hm s) as [H|H]; [|by rewrite H].
  destruct (m s) as [a s1|e s1|s1|]; simpl in *; [by injection H as ->..|by destruct (Hc s1)|done].
Qed.

Lemma calm_write_loop evs : forall out buf, Forall (fun ev => ev <> IoPend) evs ->
  let '(res, evs', _, _) := write_loop evs out buf in res <> PollPending /\ Forall (fun ev => ev <> IoPend) evs'.
Proof.
  induction evs as [|ev evs IH]; intros out buf Hf; cbn [write_loop]; destruct (wb_remaining buf =? 0); try done.
  apply Forall_cons in Hf as [H1 Hf]. destruct ev as [n| |]; try done.
  destruct (Z.min n (wb_remaining buf) <=? 0); [done|]. by apply IH.
Qed.

Lemma calm_write_all keep buf : calmly calm (poll_write_all_buf keep buf).
Proof.
  intros w Hw. unfold poll_write_all_buf. pose proof (calm_write_loop (wr_events w) (wr_out w) buf Hw) as H.
  destruct (write_loop _ _ _) as [[[res evs] out] rest]. destruct H as [Hr He]. by destruct res.
Qed.

Lemma calm_flush : calmly calm poll_flush.
Proof.
  intros w Hw. unfold poll_flush, calm in *. destruct (wr_events w) as [|[] evs]; [done|..]; apply Forall_cons in Hw as [Hne Hw]; done.
Qed.

Lemma calm_attempt {A} (m : WM A) : calmly calm m -> calmly calm (attempt m).
Proof. intros Hm w Hw. specialize (Hm w Hw). unfold attempt. by destruct (m w). Qed.

Ltac calm_ret := apply calmly_pure; [by left|done].

Ltac calm_step :=
  lazymatch goal with
  | |- forall _, _ => intros ?
  | |- calmly _ (ret _) => calm_ret
  | |- calmly _ (fail _) => calm_ret
  | |- calmly _ panic => intros ? ?; exact I
  | |- calmly _ wself => calm_ret
  | |- calmly _ (wupd _) => intros ? ?; assumption
  | |- calmly _ (unwrap ?o) => destruct o; cbn [unwrap]
  | |- calmly _ (poll_write_all_buf _ _) => apply calm_write_all
  | |- calmly _ (write_all _) => apply calm_write_all
  | |- calmly _ poll_flush => apply calm_flush
  | |- calmly _ (attempt _) => apply calm_attempt
  | |- calmly _ (bind _ _) => apply calmly_bind
  | |- calmly _ (match ?x with _ => _ end) => destruct x
  | |- calmly _ (if ?x then _ else _) => destruct x
  end.

Lemma calm_write_body b : calmly calm (write_body b).
Proof.
  unfold write_body, do_write_body, do_write_chunked_body, do_write_until_close_body. repeat calm_step.
Qed.

Lemma calm_finish : calmly calm finish.
Proof. unfold finish, do_finish_body, do_finish_chunked_body, do_finish_until_close_body. repeat calm_step. Qed.

Section upstream.
Context {hmap : Type -> Type} `{HM : HMap hmap, HL : !HMapLaws hmap} {Uri : Type} `{HC : HttpCrate Uri}.
Context (httparse_response : ResponseParserConfig -> Z -> list byte -> ParseStatus ParsedResponse + ParseError).
Context (parse : list byte -> chunk_status) (io_error : IoError).

Abbreviation Sess := (@Client.HttpSession hmap Uri).
Abbreviation Task := (@Server.HttpTask hmap).
Abbreviation Half := (@Upload.Half hmap Uri).
Abbreviation read_task := (Client.read_response_task (HM := HM) (HC := HC) httparse_response parse io_error).

(** ** Reading does not see the writer *)

(** The part of the session that writing uses. *)
Definition put_writer (w : writer_io) (n : Z) (s : Sess) : Sess := Client.set_bytes_sent n (Client.set_io w s).

Section reading_is_blind.
Context (w : writer_io) (sent : Z).
Abbreviation f := (put_writer w sent).

Lemma blind_upd g : (forall s, g (f s) = f (g s)) -> blind f (Client.upd g).
Proof. apply blind_modify. Qed.

Lemma blind_stream_read : blind f Client.stream_read.
Proof. intros s. unfold Client.stream_read. simpl. by destruct (Client.underlying_stream s) as [|[]]. Qed.

Lemma blind_on_timer {A} t (m : Client.CM A) : blind f m -> blind f (Client.on_timer t m).
Proof.
  intros Hm. destruct t; simpl; [|apply blind_bind; [done|intros; apply blind_ret]].
  intros s. unfold Client.on_timer. rewrite Hm. destruct (m s) as [|? ?|s'|]; try done.
  simpl. by destruct (Client.awaits s') as [|[]].
Qed.

Lemma blind_on_reader {A} (m : RM A) : blind f (Client.on_reader m).
Proof.
  intros s. unfold Client.on_reader. simpl. by destruct (m (Client.body_reader s, Client.underlying_stream s)).
Qed.

Ltac blind_step :=
  lazymatch goal with
  | |- forall _, _ => intros ?
  | |- blind _ (ret _) => apply blind_ret
  | |- blind _ (fail _) => apply blind_fail
  | |- blind _ panic => intros ?; reflexivity
  | |- blind _ (unwrap _) => apply blind_unwrap
  | |- blind _ Client.stream_read => apply blind_stream_read
  | |- blind _ (Client.on_reader _) => apply blind_on_reader
  | |- blind _ (Client.on_timer _ _) => apply blind_on_timer
  | |- blind _ (Client.upd _) => apply blind_upd; intros ?; reflexivity
  | |- blind _ (bind get _) => apply blind_get; [|intros ?; reflexivity]
  | |- blind _ (bind _ _) => apply blind_bind
  | |- blind _ (match ?x with _ => _ end) => destruct x
  | |- blind _ (if ?x then _ else _) => destruct x
  end.
Ltac blind := repeat blind_step.

Lemma blind_fail_head {A} e : blind f (Client.fail_response_header_read (A := A) e).
Proof. unfold Client.fail_response_header_read. blind. Qed.

Lemma blind_read_head_bytes : blind f (Client.read_head_bytes io_error).
Proof.
  unfold Client.read_head_bytes. blind; try apply blind_fail_head.
Qed.

Lemma blind_init_body_reader : blind f Client.init_body_reader.
Proof.
  unfold Client.init_body_reader. blind.
Qed.

Lemma blind_validate : blind f Client.validate_response.
Proof. unfold Client.validate_response. blind. Qed.

Lemma blind_response_parsed n p : blind f (Client.response_parsed n p).
Proof.
  unfold Client.response_parsed. blind; try apply blind_fail_head; try apply blind_init_body_reader.
  intros s. rewrite blind_validate. destruct (Client.validate_response s); simpl; [done| |done..].
  apply blind_fail_head.
Qed.

Lemma blind_read_loop fuel : forall pe, blind f (Client.read_response_loop httparse_response io_error fuel pe).
Proof.
  induction fuel as [|fuel IH]; intros pe; cbn [Client.read_response_loop]; [intros ?; reflexivity|].
  blind; try apply blind_fail_head; try apply blind_read_head_bytes; try apply IH; apply blind_response_parsed.
Qed.

Lemma blind_read_header fuel : blind f (Client.read_resp_header_parts httparse_response io_error fuel).
Proof. unfold Client.read_resp_header_parts, Client.read_response. blind; apply blind_read_loop. Qed.

Lemma blind_is_body_done : blind f Client.is_body_done.
Proof. unfold Client.is_body_done. blind. apply blind_init_body_reader. Qed.

Lemma blind_read_body_bytes : blind f (Client.read_body_bytes parse).
Proof.
  unfold Client.read_body_bytes, Client.with_timeout, Client.do_read_body. blind. apply blind_init_body_reader.
Qed.

Lemma blind_read_task n : blind f (read_task n).
Proof.
  unfold Client.read_response_task. blind;
    first [apply blind_read_header | apply blind_is_body_done | apply blind_read_body_bytes].
Qed.

End reading_is_blind.

(** ** Writing does not see the reader *)

Lemma put_writer_self (s : Sess) : put_writer (Client.io s) (Client.bytes_sent s) s = s.
Proof. by destruct s. Qed.

(** What writing on a connection that is not upgraded may change. *)
Definition wrote_to (s s' : Sess) : Prop :=
  exists w n aw, s' = Client.set_awaits aw (put_writer w n s) /\ aw `suffix_of` Client.awaits s.

Lemma wrote_to_refl s : wrote_to s s.
Proof. exists (Client.io s), (Client.bytes_sent s), (Client.awaits s). by destruct s. Qed.

Lemma wrote_to_trans s1 s2 s3 : wrote_to s1 s2 -> wrote_to s2 s3 -> wrote_to s1 s3.
Proof.
  intros (w & n & aw & -> & H) (w' & n' & aw' & -> & H'). exists w', n', aw'. split; [done|].
  simpl in H'. by etransitivity.
Qed.

Lemma wrote_to_io s w : wrote_to s (Client.set_io w s).
Proof. exists w, (Client.bytes_sent s), (Client.awaits s). by destruct s. Qed.

Lemma wrote_to_sent s n : wrote_to s (Client.set_bytes_sent n s).
Proof. exists (Client.io s), n, (Client.awaits s). by destruct s. Qed.

Lemma wrote_to_quiet s s' : wrote_to s s' -> Client.awaits s = [] -> exists w n, s' = put_writer w n s.
Proof.
  intros (w & n & aw & -> & H) Hq. rewrite Hq in H. apply suffix_nil_inv in H as ->. exists w, n.
  unfold put_writer, Client.set_awaits. simpl. by rewrite <- Hq.
Qed.

Lemma wrote_to_upgraded s s' : wrote_to s s' -> Client.upgraded s' = Client.upgraded s.
Proof. by intros (w & n & aw & -> & _). Qed.
Lemma wrote_to_header s s' : wrote_to s s' -> Client.response_header s' = Client.response_header s.
Proof. by intros (w & n & aw & -> & _). Qed.

(** Run from [s]: only the writer changes, a value satisfies [Q] with the writer after. *)
Definition writes {A} (m : Client.CM A) (Q : A -> writer_io -> Prop) (s : Sess) : Prop :=
  wp m (fun a s' => wrote_to s s' /\ Q a (Client.io s')) (fun _ s' => wrote_to s s') (fun s' => wrote_to s s') s.

Lemma writes_on_writer {A} (m : WM A) (Q : A -> writer_io -> Prop) Qe Qc s :
  wp m Q Qe Qc (Client.io s) -> writes (Client.on_writer m) Q s.
Proof.
  unfold writes, wp, Client.on_writer. destruct (m (Client.io s)); simpl; eauto using wrote_to_io.
Qed.

Lemma writes_bind {A B} (m : Client.CM A) (k : A -> Client.CM B) P Q s :
  writes m P s -> (forall a s', wrote_to s s' -> P a (Client.io s') -> writes (k a) Q s') -> writes (bind m k) Q s.
Proof.
  unfold writes. intros Hm Hk. apply wp_bind. eapply wp_mono, Hm; [|done..].
  intros a s' [Hw HP]. eapply wp_mono, Hk; [..|done|done].
  - intros b s2 [H2 HQ]. split; [by eapply wrote_to_trans|done].
  - intros e s2 H2. by eapply wrote_to_trans.
  - intros s2 H2. by eapply wrote_to_trans.
Qed.

Lemma writes_ret {A} (a : A) (Q : A -> writer_io -> Prop) s : Q a (Client.io s) -> writes (ret a) Q s.
Proof. intros. split; [apply wrote_to_refl|done]. Qed.

Lemma writes_weaken {A} (m : Client.CM A) (Q Q' : A -> writer_io -> Prop) s :
  writes m Q s -> (forall a w, Q a w -> Q' a w) -> writes m Q' s.
Proof. intros Hm HQ. eapply wp_mono, Hm; [|done..]. intros a s' [? ?]. auto. Qed.

Lemma writes_into_up {A} (m : Client.CM A) Q s : writes m Q s -> writes (Upload.into_up m) Q s.
Proof. unfold writes, wp, Upload.into_up. by destruct (m s). Qed.

Lemma writes_on_timer {A} t (m : Client.CM A) Q s :
  writes m Q s -> writes (Client.on_timer t m) (fun r w => match r with Some a => Q a w | None => True end) s.
Proof.
  unfold writes, wp, Client.on_timer, bind. destruct t; simpl; [|by destruct (m s)].
  destruct (m s) as [a s'|e' s'|s'|]; try done. intros Hw.
  destruct (Client.awaits s') as [|[] rest] eqn:Haw; simpl; [done|..].
  all: destruct Hw as (w & n & aw & -> & H); try split; try done; exists w, n, rest; split; try done;
    simpl in Haw; subst aw; etransitivity; [|exact H]; by apply suffix_cons_r.
Qed.

Lemma writes_timeout {A} t e (m : Client.CM A) Q s : writes m Q s -> writes (Client.with_timeout t e m) Q s.
Proof.
  intros Hm. unfold Client.with_timeout. eapply writes_bind; [by apply writes_on_timer|].
  intros [a|] s1 H1 HQ; [by apply writes_ret|apply wrote_to_refl].
Qed.

Lemma writes_get {A} (k : Sess -> Client.CM A) Q s : writes (k s) Q s -> writes (bind get k) Q s.
Proof. done. Qed.

Lemma client_write_body_writes d s :
  mode_ok (body_mode (wr (Client.io s))) ->
  writes (Client.write_body d)
    (fun _ w => exists r, wrote (Client.io s) (write_effect (body_mode (wr (Client.io s))) d) r w) s.
Proof.
  intros Hok. unfold Client.write_body. apply writes_get, writes_timeout. unfold Client.do_write_body.
  eapply writes_bind; [eapply writes_on_writer, write_body_effect, Hok|]. intros r s1 H1 Hw.
  eapply writes_bind with (P := fun _ w => exists r, wrote _ _ r w).
  - instantiate (1 := write_effect (body_mode (wr (Client.io s))) d). instantiate (1 := Client.io s).
    destruct r; [|by apply writes_ret; eauto]. split; [apply wrote_to_sent|]. simpl. eauto.
  - intros _ s2 H2 [r' Hr']. apply writes_ret. eauto.
Qed.

(** *** The end of a body *)

Definition finish_wire (m : BodyMode) : list byte :=
  match m with ChunkedEncoding _ => LAST_CHUNK | _ => [] end.
Definition finish_mode (m : BodyMode) : BodyMode :=
  match m with
  | ContentLength _ n | ChunkedEncoding n | UntilCloseMode n => CompleteMode n
  | _ => m
  end.
Definition finish_ok (m : BodyMode) : Prop :=
  match m with ContentLength total written => total <= written | _ => True end.

(** The writer after a body has been ended and flushed. *)
Definition ended_body (w w' : writer_io) : Prop :=
  finish_ok (body_mode (wr w)) /\ wr_out w' = wr_out w ++ finish_wire (body_mode (wr w)) /\
  body_mode (wr w') = finish_mode (body_mode (wr w)).

Lemma finish_ends w : wp finish (fun _ w' => ended_body w w') (fun _ _ => True) (fun _ => True) w.
Proof.
  unfold finish, ended_body. ww. ww. destruct (body_mode (wr w)) as [|total n|n|n|n] eqn:Hm.
  1,5: ww; simpl; rewrite Hm, app_nil_r; done.
  - unfold do_finish_body. ww. ww. rewrite Hm. ww. ww. destruct (Z.ltb_spec n total); ww; [done|].
    simpl. rewrite app_nil_r. split; [lia|done].
  - unfold do_finish_chunked_body. ww. ww. rewrite Hm. ww.
    unfold wp, attempt, write_all, poll_write_all_buf.
    destruct (write_loop (wr_events w) (wr_out w) (Simple LAST_CHUNK)) as [[[res evs] out] rest] eqn:Hw.
    destruct (write_loop_spec _ _ _ _ _ _ _ Hw) as (p & -> & Hp & _ & Hres). destruct res; try done.
    simpl. split; [done|]. split; [|done]. rewrite Hres, app_nil_r in Hp. by rewrite <- Hp.
  - unfold do_finish_until_close_body. ww. ww. rewrite Hm. ww. ww. ww. simpl. by rewrite app_nil_r.
Qed.

Lemma client_finish_writes s :
  Client.upgraded s = false ->
  writes Client.finish_body
    (fun _ w => ended_body (Client.io s) w /\ wr_flushed w = zlen (wr_out w)) s.
Proof.
  intros Hu. unfold Client.finish_body.
  eapply writes_bind; [eapply writes_on_writer, finish_ends|]. intros res s1 H1 He.
  eapply writes_bind with (P := fun r w => match r with
    | inl _ => ended_body (Client.io s) w /\ wr_flushed w = zlen (wr_out w) | inr _ => True end).
  - eapply writes_on_writer with (Qe := fun _ _ => True) (Qc := fun _ => True).
    pose proof (wp_poll_flush (fun _ w => ended_body (Client.io s) w /\ wr_flushed w = zlen (wr_out w))
      (fun _ _ => True) (fun _ => True) (Client.io s1)) as Hf.
    unfold wp, attempt in *. destruct (poll_flush (Client.io s1)); try done; apply Hf.
    all: intros w Hwr Ho _; split; [|done]; intros Hfl; split; [|by rewrite Hfl, Ho].
    all: unfold ended_body in *; by rewrite Hwr, Ho.
  - intros [[]|e] s2 H2 Hr; [|by apply (wrote_to_refl s2)].
    assert (Client.upgraded s2 = false) as Hu2.
    { by rewrite (wrote_to_upgraded _ _ H2), (wrote_to_upgraded _ _ H1). }
    unfold writes, wp, Client.maybe_force_close_body_reader, Client.upd, modify, bind, ret. simpl.
    rewrite Hu2. simpl. split; [apply wrote_to_refl|done].
Qed.

(** *** One task of the request *)

Definition task_payload (t : option Task) : list (list byte) :=
  match t with
  | Some (Server.TBody (Some d) _) | Some (Server.TUpgradedBody (Some d) _) => [d]
  | _ => []
  end.
Definition task_ends (t : option Task) : bool :=
  match t with Some (Server.TBody _ e) | Some (Server.TUpgradedBody _ e) => e | _ => true end.

(** [ds] has been written from [w]; with [e], the body has been ended too. *)
Definition written (w : writer_io) (ds : list (list byte)) (e : bool) (w' : writer_io) : Prop :=
  let m := mode_after (body_mode (wr w)) ds in
  if e then finish_ok m /\ wr_out w' = wr_out w ++ wire (body_mode (wr w)) ds ++ finish_wire m /\
            wr_flushed w' = zlen (wr_out w') /\ body_mode (wr w') = finish_mode m
  else wr_out w' = wr_out w ++ wire (body_mode (wr w)) ds /\ body_mode (wr w') = m.

Lemma written_app w ds w1 ds' e w2 :
  written w ds false w1 -> written w1 ds' e w2 -> written w (ds ++ ds') e w2.
Proof.
  unfold written. intros [Ho Hm]. rewrite Hm, Ho, wire_app, mode_after_app. rewrite <- !app_assoc. done.
Qed.

Lemma write_data_writes data s :
  mode_ok (body_mode (wr (Client.io s))) ->
  writes (Upload.write_data data) (fun _ w => written (Client.io s) (option_list data) false w) s.
Proof.
  intros Hok. destruct data as [d|]; simpl.
  - eapply writes_bind; [by apply writes_into_up, client_write_body_writes|].
    intros _ s1 _ (r & _ & Hw & Ho & _). apply writes_ret. unfold written. simpl.
    by rewrite app_nil_r, Hw, Ho.
  - apply writes_ret. unfold written. simpl. by rewrite app_nil_r.
Qed.

Lemma upgrade_writer_noop (s : Sess) : Client.upgraded s = false -> Client.maybe_upgrade_body_writer s = s.
Proof. unfold Client.maybe_upgrade_body_writer. by intros ->. Qed.

Lemma send_body_writes t s :
  Client.upgraded s = false -> mode_ok (body_mode (wr (Client.io s))) ->
  writes (Upload.send_body_to1 t)
    (fun b w => b = task_ends t /\ written (Client.io s) (task_payload t) b w) s.
Proof.
  intros Hu Hok. unfold Upload.send_body_to1.
  eapply writes_bind with (P := fun b w => b = task_ends t /\ written (Client.io s) (task_payload t) false w).
  - assert (forall data e, option_list data = task_payload t -> e = task_ends t ->
      writes (do! Upload.write_data data; ret e)
        (fun b w => b = task_ends t /\ written (Client.io s) (task_payload t) false w) s) as Hdata.
    { intros data e Hd He. eapply writes_bind; [by apply write_data_writes|]. intros u s1 _ Hw. apply writes_ret.
      by rewrite <- Hd. }
    assert (forall A (m : Client.CM A) Q, writes m Q s ->
      writes (do! Client.upd Client.maybe_upgrade_body_writer; m) Q s) as Hup.
    { intros A m Q Hm. unfold writes, wp, bind, Client.upd, modify in *. by rewrite (upgrade_writer_noop s Hu). }
    assert (task_payload t = [] -> task_ends t = true ->
      writes (do! Client.upd Client.maybe_upgrade_body_writer; ret true)
        (fun b w => b = task_ends t /\ written (Client.io s) (task_payload t) false w) s) as Hend.
    { intros Hp He. apply Hup, writes_ret. split; [done|]. rewrite Hp. unfold written. simpl. by rewrite app_nil_r. }
    destruct t as [[| [|] | [|] | | |]|]; auto.
  - intros b s1 H1 [-> Hw]. destruct (task_ends t) eqn:He; [|by apply writes_ret].
    eapply writes_bind.
    { apply writes_into_up, client_finish_writes. by rewrite (wrote_to_upgraded _ _ H1). }
    intros _ s2 H2 [(Hf & Ho & Hm) Hfl]. apply writes_ret. split; [done|].
    rewrite <- (app_nil_r (task_payload t)). eapply written_app; [exact Hw|]. unfold written. by simpl.
Qed.

(** ** Reading keeps the writer, and an upgrade for good *)

Lemma read_task_io n (s s' : Sess) : left_in (read_task n s) = Some s' -> Client.io s' = Client.io s.
Proof.
  pose proof (blind_read_task (Client.io s) (Client.bytes_sent s) n s) as Hb. rewrite put_writer_self in Hb.
  intros Hl. assert (s' = put_writer (Client.io s) (Client.bytes_sent s) s') as ->; [|done].
  destruct (read_task n s); simpl in *; congruence.
Qed.

(** [P] holds of the state after [m] if it does before. *)
Definition stays (P : Sess -> Prop) {A} (m : Client.CM A) : Prop :=
  forall s s', P s -> left_in (m s) = Some s' -> P s'.

Lemma stays_bind P {A B} (m : Client.CM A) (k : A -> Client.CM B) :
  stays P m -> (forall a, stays P (k a)) -> stays P (bind m k).
Proof.
  intros Hm Hk s s' HP. unfold bind. specialize (Hm s). destruct (m s) as [a s1|e s1|s1|]; simpl in *; intros Hl.
  - eapply Hk; [|exact Hl]. by apply Hm.
  - injection Hl as <-. by apply Hm.
  - injection Hl as <-. by apply Hm.
  - done.
Qed.
Lemma stays_pure P {A} (m : Client.CM A) : (forall s, left_in (m s) = Some s \/ m s = Panic) -> stays P m.
Proof. intros Hm s s' HP Hl. destruct (Hm s) as [H|H]; rewrite H in Hl; [by injection Hl as <-|done]. Qed.
Lemma stays_upd P g : (forall s, P s -> P (g s)) -> stays P (Client.upd g).
Proof. intros Hg s s' HP [= <-]. by apply Hg. Qed.

Lemma stays_get P {A} (k : Sess -> Client.CM A) : (forall x, stays P (k x)) -> stays P (bind get k).
Proof. intros Hk s s' HP. unfold bind, get. by apply Hk. Qed.

(** [P] of: is it upgraded, the header, has no timer anything to say. *)
Section stays.
Context (P : bool -> option (ResponseHeader hmap) -> bool -> Prop).
Context (HP : forall up h, P up h false -> P up h true).
Abbreviation Q := (fun s : Sess => P (Client.upgraded s) (Client.response_header s) (bool_decide (Client.awaits s = []))).

Lemma stays_stream_read : stays Q Client.stream_read.
Proof.
  intros s s' H. unfold Client.stream_read. destruct (Client.underlying_stream s) as [|[]]; by intros [= <-].
Qed.

Lemma stays_on_reader {A} (m : RM A) : stays Q (Client.on_reader m).
Proof. intros s s' H. unfold Client.on_reader. destruct (m _); simpl; by intros [= <-]. Qed.

Lemma stays_on_timer {A} t (m : Client.CM A) : stays Q m -> stays Q (Client.on_timer t m).
Proof.
  intros Hm. destruct t; simpl.
  - intros s s' H. specialize (Hm s). unfold Client.on_timer.
    destruct (m s) as [a s1|e s1|s1|]; simpl in *; try (intros [= <-]; by apply Hm).
    specialize (Hm s1 H eq_refl). destruct (Client.awaits s1) as [|b aw] eqn:Haw; [intros [= <-]; by rewrite Haw|].
    assert (P (Client.upgraded s1) (Client.response_header s1) (bool_decide (aw = []))) as Hpop.
    { rewrite bool_decide_false in Hm by done. destruct (bool_decide (aw = [])); auto. }
    destruct b; by intros [= <-].
  - apply stays_bind; [done|]. intros a. apply stays_pure. by left.
Qed.

End stays.

Ltac stays_step :=
  lazymatch goal with
  | |- forall _, _ => intros ?
  | |- stays _ (ret _) => apply stays_pure; intros ?; by left
  | |- stays _ (fail _) => apply stays_pure; intros ?; by left
  | |- stays _ (unwrap ?o) => apply stays_pure; intros ?; destruct o; [by left|by right]
  | |- stays _ Client.stream_read => apply stays_stream_read
  | |- stays _ (Client.on_reader _) => apply stays_on_reader
  | |- stays _ (Client.on_timer _ _) => apply stays_on_timer; [assumption || done|]
  | |- stays _ (Client.upd _) => apply stays_upd; intros ? ?; assumption
  | |- stays _ (bind get _) => apply stays_get
  | |- stays _ (bind _ _) => apply stays_bind
  | |- stays _ (match ?x with _ => _ end) => destruct x
  | |- stays _ (if ?x then _ else _) => destruct x
  end.
Ltac stays := repeat stays_step.

Section stays_reading.
Context (P : bool -> option (ResponseHeader hmap) -> bool -> Prop).
Context (HP : forall up h, P up h false -> P up h true).
Abbreviation Q := (fun s : Sess => P (Client.upgraded s) (Client.response_header s) (bool_decide (Client.awaits s = []))).

Lemma stays_fail_head {A} e : stays Q (Client.fail_response_header_read (A := A) e).
Proof. unfold Client.fail_response_header_read. stays. Qed.
Lemma stays_read_head_bytes : stays Q (Client.read_head_bytes io_error).
Proof. unfold Client.read_head_bytes. stays; apply stays_fail_head. Qed.
Lemma stays_init_body_reader : stays Q Client.init_body_reader.
Proof. unfold Client.init_body_reader. stays. Qed.
Lemma stays_is_body_done : stays Q Client.is_body_done.
Proof. unfold Client.is_body_done. stays. apply stays_init_body_reader. Qed.
Lemma stays_read_body_bytes : stays Q (Client.read_body_bytes parse).
Proof.
  unfold Client.read_body_bytes, Client.with_timeout, Client.do_read_body. stays. apply stays_init_body_reader.
Qed.
Lemma stays_on_writer {A} (m : WM A) : stays Q (Client.on_writer m).
Proof. intros s s' H. unfold Client.on_writer. destruct (m _); simpl; by intros [= <-]. Qed.

End stays_reading.

(** On a connection that is upgraded no head is read any more. *)
Definition is_tunnel (up : bool) (h : option (ResponseHeader hmap)) : Prop :=
  up = true /\ (resp_status <$> h) = Some 101.
Definition tunnel (s : Sess) : Prop := is_tunnel (Client.upgraded s) (Client.response_header s).
Definition maybe_tunnel (up : bool) (h : option (ResponseHeader hmap)) : Prop := up = false \/ is_tunnel up h.

Lemma tunnel_no_head s : tunnel s -> Client.should_read_resp_header s = false.
Proof. intros [_ Hs]. unfold Client.should_read_resp_header, Client.get_status. by rewrite Hs. Qed.

(** Run from [P], [m] leaves a state in [R]. *)
Definition leads {A} (P : Sess -> Prop) (m : Client.CM A) (R : Sess -> Prop) : Prop :=
  forall s s', P s -> left_in (m s) = Some s' -> R s'.

Lemma leads_bind {A B} (P P' R : Sess -> Prop) (m : Client.CM A) (k : A -> Client.CM B) :
  leads P m P' -> (forall s, P' s -> R s) -> (forall a, leads P' (k a) R) -> leads P (bind m k) R.
Proof.
  intros Hm HR Hk s s' HP. unfold bind. specialize (Hm s). destruct (m s) as [a s1|e s1|s1|]; simpl in *; intros Hl.
  - eapply Hk; [|exact Hl]. by apply Hm.
  - injection Hl as <-. by apply HR, Hm.
  - injection Hl as <-. by apply HR, Hm.
  - done.
Qed.

Lemma leads_weaken {A} (P R : Sess -> Prop) (m : Client.CM A) :
  stays P m -> (forall s, P s -> R s) -> leads P m R.
Proof. intros Hm HR s s' HP Hl. apply HR. by eapply Hm. Qed.

Abbreviation plain := (fun s : Sess => Client.upgraded s = false).
Abbreviation settled := (fun s : Sess => maybe_tunnel (Client.upgraded s) (Client.response_header s)).

Lemma plain_settled (s : Sess) : plain s -> settled s.
Proof. by left. Qed.

Lemma stays_validate (P : Sess -> Prop) : stays P Client.validate_response.
Proof.
  apply stays_pure. intros s. unfold Client.validate_response, bind, get, unwrap.
  destruct (Client.response_header s); simpl; [|by right].
  destruct (validate_content_length _); [by left|]. destruct (_ && _); by left.
Qed.

(** After the header is set: the upgrade is decided from it. *)
Lemma upgrade_decided h :
  leads (fun s => plain s /\ Client.response_header s = Some h)
    (do! Client.upd (fun s => Client.set_upgraded (default false (Client.is_upgrade h s)) s);
     do! Client.init_body_reader; ret 0) settled.
Proof.
  eapply leads_bind with (P' := settled); [|done|].
  - intros s s' [_ Hh] [= <-]. simpl. unfold Client.is_upgrade. destruct (Client.session_is_upgrade_req s); [|by left].
    simpl. destruct (is_upgrade_resp h) eqn:Hu; [|by left]. right. split; [done|]. simpl. rewrite Hh. simpl. f_equal.
    unfold is_upgrade_resp in Hu. apply andb_true_iff in Hu as [Hu _]. by apply Z.eqb_eq.
  - intros _. apply leads_weaken; [|done].
    apply stays_bind; [apply (stays_init_body_reader (fun up h _ => maybe_tunnel up h))|].
    intros _. apply stays_pure. by left.
Qed.

Lemma response_parsed_settled n p : leads plain (Client.response_parsed n p) settled.
Proof.
  assert (forall A e, leads plain (Client.fail_response_header_read (A := A) e) settled) as Hfail.
  { intros A e. apply leads_weaken; [apply (stays_fail_head (fun up _ _ => up = false))|apply plain_settled]. }
  assert (forall A (o : option A), leads plain (unwrap o) plain) as Hunw.
  { intros A o s s' HP. destruct o; [by intros [= <-]|done]. }
  unfold Client.response_parsed.
  apply leads_bind with (P' := plain); [by intros s s' HP [= <-]|apply plain_settled|]. intros x.
  apply leads_bind with (P' := plain); [apply Hunw|apply plain_settled|]. intros code.
  destruct (resp_build code) as [h0|e]; [|apply Hfail].
  apply leads_bind with (P' := plain); [by intros s s' HP [= <-]|apply plain_settled|]. intros _.
  apply leads_bind with (P' := plain); [apply Hunw|apply plain_settled|]. intros [h|e]; [|apply Hfail].
  do 3 (apply leads_bind with (P' := plain); [by intros s s' HP [= <-]|apply plain_settled|]; intros _).
  set (h' := if Client.has_both_te_and_cl h then _ else _). set (P' := fun s => plain s /\ Client.response_header s = Some h').
  apply leads_bind with (P' := P'); [by intros s s' HP [= <-]|intros s [? _]; by apply plain_settled|]. intros _.
  apply leads_bind with (P' := P').
  - intros s s' HP Hl. destruct (Client.validate_response s) as [a s1|e s1|s1|] eqn:Hv; simpl in Hl.
    + injection Hl as <-. eapply (stays_validate P' s); [done|]. by rewrite Hv.
    + assert (P' s1) as H1 by (eapply (stays_validate P' s); [done|]; by rewrite Hv).
      exact (stays_fail_head (A := unit) (fun up hd _ => up = false /\ hd = Some h') e s1 s' H1 Hl).
    + injection Hl as <-. eapply (stays_validate P' s); [done|]. by rewrite Hv.
    + done.
  - intros s [? _]; by apply plain_settled.
  - intros _ s s' HP Hl. apply (upgrade_decided h' s); [done|]. rewrite <- Hl. unfold bind, Client.upd, modify.
    by destruct (Client.init_body_reader _).
Qed.

Lemma read_loop_settled fuel : forall pe,
  leads plain (Client.read_response_loop httparse_response io_error fuel pe) settled.
Proof.
  induction fuel as [|fuel IH]; intros pe; cbn [Client.read_response_loop]; [by intros ? ? ? ?|].
  assert (leads plain (do! Client.read_head_bytes io_error;
            Client.read_response_loop httparse_response io_error fuel true) settled) as Hon.
  { apply leads_bind with (P' := plain); [apply (stays_read_head_bytes (fun up _ _ => up = false) ltac:(done))|apply plain_settled|].
    intros _. apply IH. }
  apply leads_bind with (P' := plain); [by intros s s' HP [= <-]|apply plain_settled|]. intros x.
  destruct pe; [|apply Hon]. destruct (parse_head _ _ _) as [[n p|]|e]; [apply response_parsed_settled|apply Hon|].
  apply leads_weaken; [apply (stays_fail_head (fun up _ _ => up = false))|apply plain_settled].
Qed.

Lemma read_header_settled fuel :
  leads plain (Client.read_resp_header_parts httparse_response io_error fuel) settled.
Proof.
  unfold Client.read_resp_header_parts. apply leads_bind with (P' := settled); [|done|].
  - unfold Client.read_response.
    apply leads_bind with (P' := plain); [by intros s s' HP [= <-]|apply plain_settled|]. intros x.
    apply leads_bind with (P' := plain); [|apply plain_settled|intros pe; apply read_loop_settled].
    destruct (bool_decide _); [|by intros s s' HP [= <-]].
    apply stays_bind; [by intros s s' HP [= <-]|]. intros _.
    destruct (Client.preread_body x) as [r|]; [|by intros s s' HP [= <-]].
    destruct (BufRef_is_empty r); [by intros s s' HP [= <-]|].
    intros s s' HP. unfold bind, unwrap. destruct (BufRef_get r (Client.buf x)); [by intros [= <-]|done].
  - intros _. apply leads_weaken; [|done]. apply stays_pure. intros s. unfold bind, get.
    destruct (Client.response_header s); [by left|by right].
Qed.

(** The part of [read_response_task] behind the heads. *)
Lemma stays_body_part (P : bool -> option (ResponseHeader hmap) -> bool -> Prop) :
  (forall up h, P up h false -> P up h true) ->
  stays (fun s => P (Client.upgraded s) (Client.response_header s) (bool_decide (Client.awaits s = [])))
    (let! done := Client.is_body_done in
     if (done : bool) then ret (Server.TDone : Task)
     else
       let! body := Client.read_body_bytes parse in
       let! end_of_body := Client.is_body_done in
       let! s := get in
       ret (if Client.upgraded s then Server.TUpgradedBody body end_of_body else Server.TBody body end_of_body)).
Proof.
  intros HP. apply stays_bind; [apply stays_is_body_done|]. intros []; [apply stays_pure; by left|].
  apply stays_bind; [by apply stays_read_body_bytes|]. intros body.
  apply stays_bind; [apply stays_is_body_done|]. intros e.
  apply stays_pure. by left.
Qed.

Lemma read_task_settled n : leads settled (read_task n) settled.
Proof.
  intros s s' HP. unfold Client.read_response_task, bind at 1, get at 1. cbv beta.
  destruct (Client.should_read_resp_header s) eqn:Hsh; [|by apply (stays_body_part (fun up h _ => maybe_tunnel up h) ltac:(done))].
  destruct HP as [HP|HP]; [|by rewrite (tunnel_no_head s HP) in Hsh].
  clear Hsh. revert s s' HP. change (leads plain (let! resp_header := Client.read_resp_header_parts httparse_response io_error n in
    let! end_of_body := Client.is_body_done in ret (Server.THeader resp_header end_of_body)) settled).
  apply leads_bind with (P' := settled); [apply read_header_settled|done|]. intros h.
  apply leads_weaken; [|done].
  apply stays_bind; [apply (stays_is_body_done (fun up h _ => maybe_tunnel up h))|]. intros e. apply stays_pure. by left.
Qed.

Lemma read_task_tunnel n : leads tunnel (read_task n) tunnel.
Proof.
  intros s s' HP. unfold Client.read_response_task, bind at 1, get at 1. cbv beta.
  rewrite (tunnel_no_head s HP). by apply (stays_body_part (fun up h _ => is_tunnel up h) ltac:(done)).
Qed.

(** ** What has been sent at each point of the loop *)

Lemma stays_into_up P {A} (m : Client.CM A) : stays P m -> stays P (Upload.into_up m).
Proof. intros Hm s s' HP. specialize (Hm s). unfold Upload.into_up. by destruct (m s); simpl in *; auto. Qed.

Lemma stays_send_body (P : bool -> option (ResponseHeader hmap) -> bool -> Prop) :
  (forall up h, P up h false -> P up h true) -> forall t,
  stays (fun s => P (Client.upgraded s) (Client.response_header s) (bool_decide (Client.awaits s = [])))
    (Upload.send_body_to1 t).
Proof.
  intros HP t.
  set (Q := fun s : Sess => P (Client.upgraded s) (Client.response_header s) (bool_decide (Client.awaits s = []))).
  assert (forall data, stays Q (Upload.write_data data)) as Hwr.
  { intros [d|]; [|apply stays_pure; by left]. apply stays_bind; [|intros _; apply stays_pure; by left].
    apply stays_into_up. unfold Client.write_body, Client.with_timeout, Client.do_write_body.
    apply stays_get. intros x. apply stays_bind.
    2:{ intros []; apply stays_pure; by left. }
    apply (stays_on_timer P); [done|]. apply stays_bind; [apply (stays_on_writer P)|]. intros r.
    apply stays_bind; [|intros _; apply stays_pure; by left].
    destruct r; [|apply stays_pure; by left]. by apply stays_upd. }
  assert (stays Q (Client.upd Client.maybe_upgrade_body_writer)) as Hup.
  { apply stays_upd. intros s H. unfold Client.maybe_upgrade_body_writer. by destruct (Client.upgraded s). }
  unfold Upload.send_body_to1. apply stays_bind.
  - destruct t as [[]|]; repeat (apply stays_bind; [auto|]; intros _); auto; apply stays_pure; by left.
  - intros []; [|apply stays_pure; by left]. apply stays_bind; [|intros _; apply stays_pure; by left].
    apply stays_into_up. unfold Client.finish_body. apply stays_bind; [apply (stays_on_writer P)|]. intros r.
    apply stays_bind; [apply (stays_on_writer P)|]. intros [|]; [|apply stays_pure; by left].
    apply stays_bind; [|intros _; apply stays_pure; by left]. apply stays_upd. intros s H.
    by destruct (_ && _).
Qed.

Definition payload_of (h : Half) : list (list byte) := concat (map task_payload (Upload.rx h)).

(** The tasks taken so far: one that ends the body comes last and only then. *)
Definition taken (e : bool) (l : list (option Task)) : Prop :=
  if e then exists l0 t, l = l0 ++ [t] /\ task_ends t = true /\ Forall (fun t => task_ends t = false) l0
  else Forall (fun t => task_ends t = false) l.

Record uploading (w : writer_io) (h : Half) : Prop := {
  ul_plain : Client.upgraded (Upload.client_session h) = false;
  ul_reuse : Upload.upstream_can_reuse h = true -> Upload.send_error h = None;
  ul_sent : Upload.send_error h = None ->
    written w (payload_of h) (Upload.request_done h) (Client.io (Upload.client_session h)) /\
    taken (Upload.request_done h) (Upload.rx h);
  ul_error : Upload.send_error h <> None -> Upload.request_done h = true
}.

Definition upload_inv (w : writer_io) (h : Half) : Prop :=
  tunnel (Upload.client_session h) \/ uploading w h.

(** Only these parts of the loop's state matter to the invariant. *)
Lemma upload_inv_ext w (h h' : Half) :
  Upload.client_session h' = Upload.client_session h -> Upload.upstream_can_reuse h' = Upload.upstream_can_reuse h ->
  Upload.send_error h' = Upload.send_error h -> Upload.rx h' = Upload.rx h ->
  (Client.upgraded (Upload.client_session h) = false -> Upload.request_done h' = Upload.request_done h) ->
  upload_inv w h -> upload_inv w h'.
Proof.
  intros Hc Hr He Hx Hd [Ht|[]]; [left; by rewrite Hc|]. right. specialize (Hd ul_plain0).
  constructor; unfold payload_of in *; rewrite ?Hc, ?Hr, ?He, ?Hx, ?Hd; done.
Qed.

Lemma read_inv n w (h : Half) s' :
  upload_inv w h -> left_in (read_task n (Upload.client_session h)) = Some s' ->
  upload_inv w (Upload.set_client_session s' h).
Proof.
  intros [Ht|[]] Hl; [left; by eapply read_task_tunnel|].
  destruct (read_task_settled n (Upload.client_session h) s') as [Hp|Ht]; [by left|done| |by left].
  right. constructor; simpl; try done. by rewrite (read_task_io n _ _ Hl).
Qed.

Lemma response_task_inv w open ps t (h h' : Half) :
  upload_inv w h -> left_in (Upload.response_task open ps t h) = Some h' -> upload_inv w h'.
Proof.
  intros Hi. unfold Upload.response_task, bind, modify, get. cbv beta.
  set (h1 := if negb _ && _ then _ else _).
  assert (upload_inv w h1) as H1.
  { apply (upload_inv_ext w h); try done; unfold h1.
    all: destruct (_ && _) eqn:Hb; simpl; try done; destruct (Upload.send_error h) eqn:He; simpl; try done.
    all: intros Hu; simpl in Hb; by rewrite Hu, andb_false_r in Hb. }
  clearbody h1. intros Hl. apply (upload_inv_ext w h1); [..|done].
  all: destruct open; [by injection Hl as <-|].
  all: destruct (Client.upgraded (Upload.client_session h1)); [by injection Hl as <-|].
  all: destruct (is_downstream_complete ps); [|by injection Hl as <-].
  all: destruct (Upload.response_done h1); by injection Hl as <-.
Qed.

Lemma read_branch_inv n w open ps (h h' : Half) :
  upload_inv w h -> left_in (Upload.read_branch httparse_response parse io_error n open ps h) = Some h' ->
  upload_inv w h'.
Proof.
  intros Hi. unfold Upload.read_branch, bind at 1, get at 1. cbv beta.
  pose proof (read_inv n w h) as Hr. destruct (read_task n (Upload.client_session h)) as [t s|e s|s|]; simpl in Hr.
  - intros Hl. eapply (response_task_inv w open ps t (Upload.set_client_session s h)); [by apply Hr|exact Hl].
  - intros [= <-]. eapply upload_inv_ext; [..|by apply (Hr s)]; by destruct open.
  - intros [= <-]. by apply Hr.
  - done.
Qed.

Lemma taken_snoc e l t : taken false l -> task_ends t = e -> taken e (l ++ [t]).
Proof.
  intros Hl <-. unfold taken in *. destruct (task_ends t) eqn:He; [by exists l, t|].
  apply Forall_app. split; [done|]. by constructor.
Qed.

Lemma body_branch_inv w t (h h' : Half) r :
  mode_ok (body_mode (wr w)) -> Upload.request_done h = false ->
  upload_inv w h -> Upload.body_branch t h = Val r h' -> upload_inv w h'.
Proof.
  intros Hok Hd [Ht|Hi] Hl; unfold Upload.body_branch, bind, modify, get in Hl; cbv beta in Hl; simpl in Hl.
  { left. pose proof (stays_send_body (fun up h _ => is_tunnel up h) ltac:(done) t (Upload.client_session h)) as Hs.
    destruct (Upload.send_body_to1 t (Upload.client_session h)) as [b s|e s|s|]; simpl in *; [|by injection Hl as _ <-; apply Hs|done|done].
    injection Hl as _ <-. destruct (_ && Client.upgraded s); by apply Hs. }
  destruct Hi as [Hp Hr Hs He]. assert (Upload.send_error h = None) as Hn.
  { destruct (Upload.send_error h); [|done]. exfalso. rewrite He in Hd; done. }
  destruct (Hs Hn) as [Hw Htk]. rewrite Hd in Hw, Htk. pose proof Hw as [_ Hm]. cbv beta in Hm.
  pose proof (send_body_writes t (Upload.client_session h) Hp) as Hsend. rewrite Hm in Hsend.
  specialize (Hsend (mode_after_ok _ _ Hok)). unfold writes, wp in Hsend. right.
  destruct (Upload.send_body_to1 t (Upload.client_session h)) as [b s|e s|s|]; simpl in *; try done.
  - destruct Hsend as [Hwt [Hb Hwr]]. pose proof (wrote_to_upgraded _ _ Hwt) as Hu. rewrite Hp in Hu.
    unfold Upload.pre_upgrade_body_end in Hl. simpl in Hl. rewrite Hp, Hu in Hl. simpl in Hl.
    rewrite !andb_true_r, andb_false_r in Hl. injection Hl as _ <-. constructor; simpl; try done.
    intros _. split; [|by apply taken_snoc]. unfold payload_of. simpl.
    rewrite map_app, concat_app. simpl. rewrite app_nil_r. by eapply written_app.
  - pose proof (wrote_to_upgraded _ _ Hsend) as Hu. injection Hl as _ <-. constructor; simpl; try done. by rewrite Hu.
Qed.

Lemma upload_runs w n evs : forall (h h' : Half) b,
  mode_ok (body_mode (wr w)) -> upload_inv w h ->
  Upload.proxy_handle_upstream httparse_response parse io_error n evs h = Val b h' ->
  upload_inv w h' /\
  (b = true -> Upload.upstream_can_reuse h' = true /\ Upload.request_done h' = true /\ Upload.response_done h' = true).
Proof.
  induction evs as [|ev evs IH]; intros h h' b Hok Hi; cbn [Upload.proxy_handle_upstream];
    unfold bind at 1, get at 1; cbv beta;
    destruct (Upload.request_done h && Upload.response_done h) eqn:Hd.
  1,3: apply andb_true_iff in Hd as [H1 H2]; intros [= <- <-]; split; [done|]; by intros ->.
  { done. }
  unfold bind at 1. destruct (Upload.select httparse_response parse io_error n ev h) as [r h1|?|?|] eqn:Hsel; try done.
  assert (upload_inv w h1 /\ r <> Some true) as [H1 Hr].
  { unfold Upload.select, bind, get in Hsel. destruct ev as [open ps|t].
    - destruct (Upload.response_done h); [by injection Hsel as <- <-|]. split.
      + eapply (read_branch_inv n w open ps h); [done|]. by rewrite Hsel.
      + intros ->. unfold Upload.read_branch, bind, get, modify in Hsel. cbv beta in Hsel.
        destruct (read_task n _); try done. unfold Upload.response_task, bind, get, modify in Hsel. cbv beta in Hsel.
        destruct open; [done|]. destruct (Client.upgraded _); [done|].
        destruct (is_downstream_complete ps); [|done]. by destruct (Upload.response_done _).
    - destruct (Upload.request_done h) eqn:Hrd; [by injection Hsel as <- <-|]. split.
      + by eapply body_branch_inv.
      + intros ->. unfold Upload.body_branch, bind, get, modify in Hsel. cbv beta in Hsel.
        by destruct (Upload.send_body_to1 t _). }
  destruct r as [b0|]; [|by apply IH]. intros [= <- <-]. split; [done|]. by intros ->.
Qed.

(** ** The head sets the framing *)

(** How a request head says its body is written. *)
Definition start_mode (headers : hmap (list byte)) : BodyMode :=
  body_mode (Client.client_init_body_writer_comm headers writer_new).

Lemma start_mode_cases headers :
  start_mode headers =
  if is_chunked_encoding_from_headers headers then ChunkedEncoding 0
  else ContentLength match content_length_for_framing headers with inl (Some n) => n | _ => 0 end 0.
Proof.
  unfold start_mode, Client.client_init_body_writer_comm. destruct (is_chunked_encoding_from_headers headers); [done|].
  by destruct (content_length_for_framing headers) as [[]|].
Qed.

Lemma start_mode_ok headers : mode_ok (start_mode headers).
Proof.
  rewrite start_mode_cases. destruct (is_chunked_encoding_from_headers headers); [done|]. simpl.
  unfold content_length_for_framing. destruct (content_length_parse_all headers) as [n|] eqn:Hn.
  - pose proof (content_length_range headers n Hn). destruct (Z.ltb_spec n usize_mod); lia.
  - destruct (hm_contains_key headers h_content_length); unfold usize_mod; lia.
Qed.

Lemma head_sets_mode req (c0 c : Sess) k :
  Client.write_request_header io_error req c0 = Val k c ->
  Client.upgraded c = Client.upgraded c0 /\ body_mode (wr (Client.io c)) = start_mode (req_headers req) /\
  Client.response_header c = Client.response_header c0.
Proof.
  set (c1 := Client.init_req_body_writer req c0). set (m := start_mode (req_headers req)).
  assert (body_mode (wr (Client.io c1)) = m) as Hm.
  { simpl. unfold m, start_mode, Client.client_init_body_writer_comm. simpl.
    destruct (is_chunked_encoding_from_headers _); [done|]. by destruct (content_length_for_framing _) as [[]|]. }
  unfold Client.write_request_header, bind at 1, Client.upd at 1, modify at 1. fold c1.
  unfold bind at 1, unwrap. destruct (Client.http_req_header_to_wire req) as [[wire|]|]; [|done|done].
  assert (forall A (x : WM A), (forall w, wp x (fun _ w' => wr w' = wr w) (fun _ _ => True) (fun _ => True) w) ->
    forall s, body_mode (wr (Client.io s)) = m ->
      writes (Client.on_writer (attempt x)) (fun r w => match r with inl _ => body_mode (wr w) = m | _ => True end) s)
    as Hkeep.
  { intros A x Hx s Hs. eapply writes_on_writer with (Qe := fun _ _ => True) (Qc := fun _ => True).
    specialize (Hx (Client.io s)). unfold wp, attempt in *. destruct (x (Client.io s)); simpl; try done.
    by rewrite Hx. }
  assert (writes (do! Client.write_request_bytes io_error wire;
                  let! flushed := Client.on_writer (attempt poll_flush) in
                  match flushed with
                  | inr _ => fail (because WriteError "flushing request header" (Foreign "I/O error"))
                  | inl _ => ret tt
                  end) (fun _ w => body_mode (wr w) = m) c1) as Hw.
  { eapply writes_bind with (P := fun _ w => body_mode (wr w) = m).
    - unfold Client.write_request_bytes. apply writes_get.
      eapply writes_bind with (P := fun r w => match r with Some (inl _) => body_mode (wr w) = m | _ => True end).
      + eapply writes_weaken; [apply writes_on_timer, Hkeep, Hm|].
        { intros w. unfold write_all. apply wp_poll_write_all_buf. by intros p rest w' _ _ -> _. }
        by intros [[]|] w.
      + intros [[[]|]|] s1 H1 HP; [by apply writes_ret|by apply wrote_to_refl..].
    - intros _ s1 H1 HP. eapply writes_bind; [by apply Hkeep; [|exact HP]; intros w; apply wp_poll_flush|].
      intros [[]|] s2 H2 HP2; [by apply writes_ret|by apply wrote_to_refl]. }
  unfold writes, wp, bind, ret in Hw. unfold bind, ret. cbv beta iota in *. destruct (Client.write_request_bytes io_error wire c1) as [[] s1|?|?|];
    cbv beta iota in *; [|by intros ?..].
  destruct (Client.on_writer (attempt poll_flush) s1) as [[[]|] s2|?|?|]; cbv beta iota in *; [|by intros ?..].
  destruct Hw as [Hwt Hw]. intros [= _ <-]. simpl.
  by rewrite (wrote_to_upgraded _ _ Hwt), (wrote_to_header _ _ Hwt).
Qed.

(** [body] is a whole body of a request with these headers, made of [ds]. *)
Definition whole_body (headers : hmap (list byte)) (ds : list (list byte)) (body : list byte) : Prop :=
  if is_chunked_encoding_from_headers headers then body = enc_chunks (chunks_of ds) ++ LAST_CHUNK
  else let n := match content_length_for_framing headers with inl (Some n) => n | _ => 0 end in
       n <= zlen (concat ds) /\ body = ztake n (concat ds).

Lemma written_whole headers w ds w' :
  body_mode (wr w) = start_mode headers -> written w ds true w' ->
  exists body, whole_body headers ds body /\ wr_out w' = wr_out w ++ body /\ wr_flushed w' = zlen (wr_out w').
Proof.
  intros Hm (Hf & Ho & Hfl & _). pose proof (start_mode_ok headers) as Hok. eexists. split; [|by split].
  rewrite Hm in *. rewrite start_mode_cases in *. unfold whole_body.
  destruct (is_chunked_encoding_from_headers headers).
  - by rewrite chunked_wire, chunked_mode_after by done.
  - set (total := match content_length_for_framing headers with inl (Some n) => n | _ => 0 end) in *.
    simpl in Hok. destruct (wire_content_length total ds 0 ltac:(lia)) as [Hw Hma]. rewrite Hw, Hma in *. simpl in *.
    rewrite app_nil_r, Z.sub_0_r in *. pose proof (zlen_nonneg (concat ds)). split; [lia|done].
Qed.

Lemma release_complete (s : Sess) st :
  Upload.release_http_session s = Some st ->
  st = Client.underlying_stream s /\ Client.upgraded s = false /\ Client.get_status s <> Some 101 /\
  Client.close_delimited_resp s = false /\ body_complete (Client.body_reader s) = true /\
  has_bytes_overread (Client.body_reader s) = false.
Proof.
  unfold Upload.release_http_session.
  assert (forall ka, Client.reuse (Client.set_keepalive ka s) = Some st ->
            st = Client.underlying_stream s /\ ka <> None /\ body_complete (Client.body_reader s) = true /\
            has_bytes_overread (Client.body_reader s) = false) as Hset.
  { intros ka. unfold Client.reuse. simpl.
    destruct (body_complete (Client.body_reader s)); simpl; [|done].
    destruct (has_bytes_overread (Client.body_reader s)); simpl; [done|].
    destruct ka as [k|]; simpl; [|done]. by destruct (0 <? k); intros [= <-]. }
  unfold Client.respect_keepalive.
  destruct (Client.upgraded s); simpl; [by intros (_ & ? & _)%Hset|].
  case_bool_decide as H101; simpl; [by intros (_ & ? & _)%Hset|].
  destruct (need_init _ || Client.close_delimited_resp s) eqn:Hcl; [by intros (_ & ? & _)%Hset|].
  apply orb_false_iff in Hcl as [_ Hcl].
  assert (forall ka, Client.reuse (Client.set_keepalive ka s) = Some st ->
    st = Client.underlying_stream s /\ false = false /\ Client.get_status s <> Some 101 /\
    Client.close_delimited_resp s = false /\ body_complete (Client.body_reader s) = true /\
    has_bytes_overread (Client.body_reader s) = false) as Hend by (intros ka (? & _ & ? & ?)%Hset; done).
  destruct (has_bytes_overread _); [apply Hend|]. destruct (_ && _); [apply Hend|].
  destruct (Client.is_connection_keepalive s) as [[]|]; apply Hend.
Qed.

(** C4: when an attempt over HTTP/1 ends by giving its connection back to the
    pool, then, in whatever order the responses were read and the request body
    came, and however the peer's reads and writes went: what was written after
    the request's head is exactly one whole body in the framing that head
    announces, made of the data of the tasks taken from the pipe, of which one
    ended the body and was the last; all of it was flushed; and the response
    has been read to its end, not one that a closing connection marks, with no
    byte behind it read.  A partly written request, a failed write, an upgraded
    connection or a response cut short never goes back. *)
Theorem upstream_reuse_sound req (c0 c : Sess) k n evs b h (downstream : bool + Error) st :
  Client.write_request_header io_error req c0 = Val k c -> Client.upgraded c0 = false ->
  Upload.proxy_handle_upstream httparse_response parse io_error n evs (Upload.half_new c) = Val b h ->
  (Upload.after_attempt downstream (inl b) (Upload.client_session h)).2 = Some st ->
  let s := Upload.client_session h in
  (exists l t, Upload.rx h = l ++ [t] /\ task_ends t = true /\ Forall (fun t => task_ends t = false) l) /\
  (exists body, whole_body (req_headers req) (payload_of h) body /\
     wr_out (Client.io s) = wr_out (Client.io c) ++ body /\ wr_flushed (Client.io s) = zlen (wr_out (Client.io s))) /\
  Upload.response_done h = true /\ body_complete (Client.body_reader s) = true /\
  Client.close_delimited_resp s = false /\ has_bytes_overread (Client.body_reader s) = false /\
  st = Client.underlying_stream s.
Proof.
  intros Hhead Hu Hrun Hst s. destruct (head_sets_mode _ _ _ _ Hhead) as (Hu' & Hm & _). rewrite Hu in Hu'.
  destruct (upload_runs (Client.io c) n evs (Upload.half_new c) h b) as [Hinv Hb]; [by rewrite Hm; apply start_mode_ok| |done|].
  { right. constructor; simpl; try done. intros _. split; [|constructor]. unfold written, payload_of. simpl.
    by rewrite app_nil_r. }
  unfold Upload.after_attempt, Upload.joined in Hst.
  destruct downstream as [d|e]; simpl in Hst; [|done]. destruct b; [|done].
  destruct (release_complete _ _ Hst) as (-> & Hup & _ & Hcl & Hc & Ho). destruct (Hb eq_refl) as (Hr & Hq & Hd).
  destruct Hinv as [[Ht _]|[_ Hne Hs _]]; [congruence|]. destruct (Hs (Hne Hr)) as [Hw Htk]. rewrite Hq in Hw, Htk.
  split; [done|]. split; [by apply written_whole|]. done.
Qed.

(** ** No timer fires *)

Definition still (_ : bool) (_ : option (ResponseHeader hmap)) (q : bool) : Prop := q = true.
Abbreviation quiet := (fun s : Sess => still (Client.upgraded s) (Client.response_header s) (bool_decide (Client.awaits s = []))).

Lemma quiet_response_parsed n p : stays quiet (Client.response_parsed n p).
Proof.
  unfold Client.response_parsed. stays; try apply (stays_fail_head still); [|apply (stays_init_body_reader still)].
  intros s s' HP Hl. pose proof (stays_validate quiet s) as Hv.
  destruct (Client.validate_response s) as [u s1|e s1|s1|]; simpl in Hl, Hv; try (injection Hl as <-; by apply Hv); [|done].
  injection Hl as <-. exact (Hv s1 HP eq_refl).
Qed.

Lemma quiet_read_loop fuel : forall pe, stays quiet (Client.read_response_loop httparse_response io_error fuel pe).
Proof.
  induction fuel as [|fuel IH]; intros pe; cbn [Client.read_response_loop]; [by intros ? ? ? ?|].
  stays; first [apply (stays_fail_head still) | apply (stays_read_head_bytes still); done | apply IH
               | apply quiet_response_parsed].
Qed.

Lemma quiet_read_task n : stays quiet (read_task n).
Proof.
  unfold Client.read_response_task. apply stays_get. intros x. destruct (Client.should_read_resp_header x).
  - apply stays_bind.
    + unfold Client.read_resp_header_parts, Client.read_response. stays. apply quiet_read_loop.
    + intros h. apply stays_bind; [apply (stays_is_body_done still)|]. intros e. apply stays_pure. by left.
  - by apply (stays_body_part still).
Qed.

Lemma read_task_quiet n (s s' : Sess) :
  Client.awaits s = [] -> left_in (read_task n s) = Some s' -> Client.awaits s' = [].
Proof.
  intros Hq Hl. apply (bool_decide_eq_true_1 _), (quiet_read_task n s s'); [|done].
  by apply bool_decide_eq_true_2.
Qed.

(** ** The response comes through, whatever the request does *)

Abbreviation easy := (fun s : Sess => calm (Client.io s) /\ Client.awaits s = []).

Lemma easy_on_writer {A} (m : WM A) : calmly calm m -> calmly easy (Client.on_writer m).
Proof.
  intros Hm s [Hc Hq]. specialize (Hm _ Hc). unfold Client.on_writer. by destruct (m (Client.io s)).
Qed.

Lemma easy_send_body t : calmly easy (Upload.send_body_to1 t).
Proof.
  assert (forall A (m : Client.CM A), calmly easy m -> calmly easy (Upload.into_up m)) as Hup.
  { intros A m Hm s Hs. specialize (Hm s Hs). unfold Upload.into_up. by destruct (m s). }
  assert (forall A (m : Client.CM A) x, calmly easy m -> calmly easy (Client.on_timer x m)) as Htimer.
  { intros A m [z|] Hm; [|apply calmly_bind; [done|]; intros ?; calm_ret].
    intros s Hs. specialize (Hm s Hs). unfold Client.on_timer. by destruct (m s). }
  assert (forall data, calmly easy (Upload.write_data data)) as Hwr.
  { intros [d|]; [|calm_ret]. apply calmly_bind; [|intros ?; calm_ret].
    apply Hup. unfold Client.write_body, Client.with_timeout, Client.do_write_body.
    apply calmly_bind; [calm_ret|]. intros x. apply calmly_bind.
    2:{ intros []; calm_ret. }
    apply Htimer, calmly_bind; [apply easy_on_writer, calm_write_body|]. intros r.
    apply calmly_bind; [|intros ?; calm_ret]. destruct r; [|calm_ret].
    intros s Hs. exact Hs. }
  assert (calmly easy (Client.upd Client.maybe_upgrade_body_writer)) as Hmode.
  { intros s Hs. unfold Client.maybe_upgrade_body_writer. simpl. by destruct (Client.upgraded s). }
  unfold Upload.send_body_to1. apply calmly_bind.
  - destruct t as [[]|]; repeat (apply calmly_bind; [auto|]; intros ?); auto; calm_ret.
  - intros []; [|calm_ret]. apply calmly_bind; [|intros ?; calm_ret].
    apply Hup. unfold Client.finish_body. apply calmly_bind; [apply easy_on_writer, calm_finish|]. intros r.
    apply calmly_bind; [apply easy_on_writer, calm_attempt, calm_flush|]. intros [|]; [|calm_ret].
    apply calmly_bind; [|intros ?; calm_ret].
    intros s Hs. unfold Client.maybe_force_close_body_reader, Client.upd, modify. by destruct (_ && _).
Qed.

(** The loop is at [c], but for what it has written. *)
Record relaying (c : Sess) (h : Half) : Prop := {
  rl_client : exists w n, Upload.client_session h = put_writer w n c;
  rl_plain : Client.upgraded c = false;
  rl_quiet : Client.awaits c = [];
  rl_calm : calm (Client.io (Upload.client_session h));
  rl_mode : Upload.request_done h = false -> mode_ok (body_mode (wr (Client.io (Upload.client_session h))))
}.

Lemma relay_body t c (h : Half) :
  relaying c h -> Upload.request_done h = false ->
  exists h1, Upload.body_branch t h = Val None h1 /\ relaying c h1 /\
    Upload.tx h1 = Upload.tx h /\ Upload.response_done h1 = Upload.response_done h.
Proof.
  intros [(w & n & Hc) Hp Hq Hcalm Hm] Hd. specialize (Hm Hd).
  assert (Client.upgraded (Upload.client_session h) = false) as Hup by (by rewrite Hc).
  assert (Client.awaits (Upload.client_session h) = []) as Haw by (by rewrite Hc).
  pose proof (send_body_writes t _ Hup Hm) as Hs. pose proof (easy_send_body t _ (conj Hcalm Haw)) as He.
  unfold Upload.body_branch, bind, modify, get. cbv beta. simpl. unfold writes, wp in Hs.
  assert (forall s, wrote_to (Upload.client_session h) s -> Client.upgraded s = false /\
            exists w' n', s = put_writer w' n' c) as Hput.
  { intros s Hw. split; [by rewrite (wrote_to_upgraded _ _ Hw)|].
    destruct (wrote_to_quiet _ _ Hw Haw) as (w' & n' & ->). rewrite Hc. by exists w', n'. }
  destruct (Upload.send_body_to1 t (Upload.client_session h)) as [b s|e s|s|]; simpl in *; try done.
  - destruct Hs as (Hw & _ & Hwr). destruct (Hput s Hw) as [Hu Hs]. rewrite Hu, andb_false_r.
    unfold Upload.pre_upgrade_body_end. rewrite Hup. simpl. rewrite andb_true_r.
    eexists. split; [reflexivity|]. split; [|done]. constructor; simpl; try done; [apply He|].
    intros ->. destruct Hwr as [_ ->]. by apply mode_after_ok.
  - destruct (Hput s Hs) as [Hu Hs']. eexists. split; [reflexivity|]. split; [|done].
    constructor; simpl; try done. apply He.
Qed.

(** After the response: the loop waits for the request, or ends. *)
Definition over (r : exec Half Error bool) (h : Half) : Prop :=
  r = Val (Upload.upstream_can_reuse h) h /\ Upload.request_done h = true \/
  r = Cancelled h /\ Upload.request_done h = false.

Lemma relay_rest n evs : forall c (h : Half),
  relaying c h -> Upload.response_done h = true ->
  exists h', over (Upload.proxy_handle_upstream httparse_response parse io_error n evs h) h' /\
    relaying c h' /\ Upload.tx h' = Upload.tx h /\ Upload.response_done h' = true.
Proof.
  induction evs as [|ev evs IH]; intros c h Hr Hd; cbn [Upload.proxy_handle_upstream];
    unfold bind at 1, get at 1; cbv beta; rewrite Hd, andb_true_r; destruct (Upload.request_done h) eqn:Hq.
  1,3: exists h; split; [by left|done].
  { exists h. split; [by right|done]. }
  unfold bind at 1, Upload.select, bind at 1, get at 1. cbv beta. destruct ev as [open ps|t].
  - rewrite Hd. apply IH; done.
  - rewrite Hq. destruct (relay_body t c h Hr Hq) as (h1 & -> & Hr1 & Htx & Hd1).
    destruct (IH c h1 Hr1) as (h' & Ho & Hr' & Htx' & Hd'); [by rewrite Hd1|]. exists h'. by rewrite <- Htx.
Qed.

Abbreviation tasks_alone := (read_tasks (HM := HM) (HC := HC) httparse_response parse io_error).

Lemma read_tasks_tunnel n fuel : forall (c : Sess) ts c1, tunnel c -> tasks_alone n fuel c = Some (ts, c1) -> tunnel c1.
Proof.
  induction fuel as [|fuel IH]; intros c ts c1 Ht; cbn [read_tasks]; [done|].
  pose proof (read_task_tunnel n c) as Hn. destruct (read_task n c) as [t c2|e c2|c2|]; simpl in Hn; try done.
  - destruct (last_task t); [intros [= <- <-]; by apply Hn|].
    destruct (tasks_alone n fuel c2) as [[ts2 c3]|] eqn:Hrest; [|done]. intros [= <- <-]. eapply IH; [|exact Hrest].
    by apply Hn.
  - intros Hrest. eapply IH; [|exact Hrest]. by apply Hn.
Qed.

Fixpoint reads (evs : list (@Upload.UpEvent hmap)) : nat :=
  match evs with
  | [] => 0
  | Upload.ReadResponse _ _ :: evs => S (reads evs)
  | Upload.RecvBody _ :: evs => reads evs
  end.
Definition taken_by_pipe (ev : @Upload.UpEvent hmap) : Prop :=
  match ev with Upload.ReadResponse open _ => open = true | _ => True end.

(** One read of a response that goes on as reading alone does. *)
Lemma relay_read n ps c (h : Half) c2 :
  relaying c h -> left_in (read_task n c) = Some c2 -> Client.upgraded c2 = false ->
  match read_task n c with
  | Val t _ => exists h1, Upload.read_branch httparse_response parse io_error n true ps h = Val None h1 /\
      relaying c2 h1 /\ Upload.tx h1 = Upload.tx h ++ [t] /\ Upload.response_done h1 = last_task t
  | Cancelled _ => exists h1, Upload.read_branch httparse_response parse io_error n true ps h = Val None h1 /\
      relaying c2 h1 /\ Upload.tx h1 = Upload.tx h /\ Upload.response_done h1 = Upload.response_done h
  | _ => True
  end.
Proof.
  intros [(w & m & Hc) Hp Hq Hcalm Hm] Hl Hu2. pose proof (read_task_quiet n c c2 Hq Hl) as Hq2.
  pose proof (blind_read_task w m n c) as Hb.
  destruct (read_task n c) as [t c'|e c'|c'|]; try done; simpl in Hl, Hb; injection Hl as ->.
  all: unfold Upload.read_branch, bind at 1, get; cbv beta; rewrite Hc, Hb.
  - unfold Upload.response_task, bind, modify, get. cbv beta. simpl. rewrite Hu2, andb_false_r.
    eexists. split; [reflexivity|]. rewrite Hc in Hcalm, Hm. split; [|split; [done|by destruct t]].
    constructor; simpl; eauto.
  - eexists. split; [reflexivity|]. rewrite Hc in Hcalm, Hm. split; [|done]. constructor; simpl; eauto.
Qed.

Lemma relay_run n evs : forall fuel c ts c1 (h : Half),
  relaying c h -> Upload.response_done h = false ->
  tasks_alone n fuel c = Some (ts, c1) -> Client.upgraded c1 = false ->
  Forall taken_by_pipe evs -> (fuel <= reads evs)%nat ->
  exists h', over (Upload.proxy_handle_upstream httparse_response parse io_error n evs h) h' /\
    relaying c1 h' /\ Upload.tx h' = Upload.tx h ++ ts /\ Upload.response_done h' = true.
Proof.
  induction evs as [|ev evs IH]; intros fuel c ts c1 h Hr Hd Hts Hu1 Hopen Hn.
  { destruct fuel; [done|]. simpl in Hn. lia. }
  apply Forall_cons in Hopen as [Hev Hopen]. cbn [Upload.proxy_handle_upstream].
  unfold bind at 1, get at 1. cbv beta. rewrite Hd, andb_false_r.
  unfold bind at 1, Upload.select, bind at 1, get at 1. cbv beta. destruct ev as [open ps|t].
  - rewrite Hd. simpl in Hev. subst open. destruct fuel as [|fuel]; [done|]. cbn [read_tasks] in Hts.
    simpl in Hn.
    assert (forall c2, left_in (read_task n c) = Some c2 ->
              (forall f ts' , tasks_alone n f c2 = Some (ts', c1) -> Client.upgraded c2 = false)) as Hplain.
    { intros c2 Hl f ts' Hrest. destruct (read_task_settled n c c2) as [Hp2|Ht2]; [left; apply Hr|done|done|].
      destruct (read_tasks_tunnel n f c2 ts' c1 Ht2 Hrest) as [Hx _]. congruence. }
    pose proof (relay_read n ps c h) as Hread.
    destruct (read_task n c) as [t c2|e c2|c2|]; simpl in Hread, Hplain; try done.
    + destruct (last_task t) eqn:Hlast.
      * injection Hts as <- <-. destruct (Hread c2) as (h1 & -> & Hr1 & Htx & Hd1); [done..|].
        destruct (relay_rest n evs c2 h1 Hr1) as (h' & Ho & Hr' & Htx' & Hd'); [done|]. exists h'.
        split; [done|]. split; [done|]. by rewrite Htx', Htx.
      * destruct (tasks_alone n fuel c2) as [[ts2 c3]|] eqn:Hrest; [|done]. injection Hts as <- <-.
        destruct (Hread c2) as (h1 & -> & Hr1 & Htx & Hd1); [done|done|by eapply Hplain|].
        destruct (IH fuel c2 ts2 c3 h1) as (h' & Ho & Hr' & Htx' & Hd'); try done; [lia|]. exists h'.
        split; [done|]. split; [done|]. by rewrite Htx', Htx, <- app_assoc.
    + destruct (Hread c2) as (h1 & -> & Hr1 & Htx & Hd1); [done|done|by eapply Hplain|].
      destruct (IH fuel c2 ts c1 h1) as (h' & Ho & Hr' & Htx' & Hd'); try done; [by rewrite Hd1|lia|].
      exists h'. by rewrite <- Htx.
  - simpl in Hn. destruct (Upload.request_done h) eqn:Hq; [by eapply (IH fuel)|].
    destruct (relay_body t c h Hr Hq) as (h1 & -> & Hr1 & Htx & Hd1).
    destruct (IH fuel c ts c1 h1) as (h' & Ho & Hr' & Htx' & Hd'); try done; [by rewrite Hd1|].
    exists h'. by rewrite <- Htx.
Qed.

Lemma respect_keepalive_writer w k (s : Sess) :
  Client.respect_keepalive (put_writer w k s) = put_writer w k (Client.respect_keepalive s).
Proof.
  unfold Client.respect_keepalive. set (s' := put_writer w k s).
  change (Client.is_connection_keepalive s') with (Client.is_connection_keepalive s).
  change (Client.get_keepalive_values s') with (Client.get_keepalive_values s).
  change (Client.get_status s') with (Client.get_status s).
  change (Client.get_header h_transfer_encoding s') with (Client.get_header h_transfer_encoding s).
  change (Client.upgraded s') with (Client.upgraded s). change (Client.body_reader s') with (Client.body_reader s).
  change (Client.close_delimited_resp s') with (Client.close_delimited_resp s).
  change (Client.response_header s') with (Client.response_header s).
  do 4 (match goal with |- (if ?b then _ else _) = _ => destruct b; [done|] end).
  by destruct (Client.is_connection_keepalive s) as [[]|].
Qed.

Lemma connection_after_writer req h w k (s : Sess) next :
  connection_after req h s next -> connection_after req h (put_writer w k s) next.
Proof.
  unfold connection_after. rewrite respect_keepalive_writer. intros Hc.
  replace (Client.reuse (put_writer w k (Client.respect_keepalive s)))
    with (Client.reuse (Client.respect_keepalive s)); [done|].
  unfold Client.reuse. simpl. by destruct (negb _ || _).
Qed.

(** C5: an origin's response comes through the upstream half of an attempt as
    it was sent, whatever the request does meanwhile: for a connection that
    carries informational heads, a final head that does not upgrade, its body
    in the framing announced, and whatever follows, in any fragments; for every
    order in which reads of the response and tasks of the request are served,
    with writes that succeed or fail, reads dropped for a task and begun again;
    once enough reads have been served, the pipe has been given those heads and
    that body's data, no more and no less, and the connection is where the
    response ends.  The half then returns as soon as the request is done. *)
Theorem upstream_response_relayed req (c0 c : Sess) k infos m body data next n evs :
  Client.write_request_header io_error req c0 = Val k c -> Client.upgraded c0 = false ->
  Forall (fun i => head_ok httparse_response c i /\ is_info (hd_header i) = true) infos ->
  head_ok httparse_response c m -> is_info (hd_header m) = false ->
  asks_upgrade (Client.request_written c) && is_upgrade_resp (hd_header m) = false ->
  reading c (concat (map hd_bytes infos) ++ hd_bytes m ++ body ++ next) ->
  Client.should_read_resp_header c = true -> Client.body_reader c = new true ->
  Client.close_delimited_resp c = false ->
  framed parse (response_framing (Client.request_written c) (hd_header m)) body data next ->
  zlen (body ++ next) <= isize_max ->
  zlen (Client.underlying_stream c) + 1 < Z.of_nat n ->
  4 * zlen (body ++ next) + 2 * zlen (Client.underlying_stream c) + zlen infos + 3 < Z.of_nat (reads evs) ->
  Client.awaits c = [] -> calm (Client.io c) -> Forall taken_by_pipe evs ->
  exists h, over (Upload.proxy_handle_upstream httparse_response parse io_error n evs (Upload.half_new c)) h /\
    omap task_header (Upload.tx h) = map hd_header infos ++ [hd_header m] /\
    concat (map task_data (Upload.tx h)) = data /\
    connection_after (Client.request_written c) (hd_header m) (Upload.client_session h) next.
Proof.
  intros Hhead Hu Hinfos Hm Hfinal Hnoup Hrd Hsh Hbr Hcl Hfr Hmax Hn Hfuel Hq Hcalm Hopen.
  destruct (head_sets_mode _ _ _ _ Hhead) as (Hu' & Hmode & _).
  destruct (response_tasks httparse_response parse io_error infos m body data next n (reads evs) c)
    as (ts & c1 & Hts & Hhd & Hdata & Hr); try done.
  destruct (relay_run n evs (reads evs) c ts c1 (Upload.half_new c)) as (h & Ho & Hrel & Htx & _); try done.
  - constructor; simpl; try done.
    + exists (Client.io c), (Client.bytes_sent c). by rewrite put_writer_self.
    + by rewrite Hu', Hu.
    + intros _. rewrite Hmode. apply start_mode_ok.
  - by rewrite (rr_upgraded _ _ _ _ _ Hr).
  - exists h. simpl in Htx. rewrite Htx. split_and!; try done.
    destruct (rl_client _ _ Hrel) as (w & j & ->). apply connection_after_writer. by eapply connection_after_run.
Qed.

End upstream.

(** ** An attempt to run it with *)

(** A request with a chunked body. *)
Definition chunked_post : RequestHeader amap (list byte) :=
  match req_build (bytes_of "POST") (bytes_of "/") with
  | inl r => (req_append_header (FromText (bytes_of "Transfer-Encoding")) (bytes_of "chunked") r).1
  | inr _ => req_new_no_case
  end.

(** A connection whose response comes in fragments, with a read dropped. *)
Definition idle_client : @Client.HttpSession amap (list byte) :=
  Client.client_new (Client.underlying_stream wit_client) (mkWio writer_new [] 0 [] []) [].

Definition posting_client : @Client.HttpSession amap (list byte) :=
  match Client.write_request_header (MkIoError true false) chunked_post idle_client with
  | Val _ c => c
  | _ => idle_client
  end.

Definition read_once : @Upload.UpEvent amap := Upload.ReadResponse true 0.

(** The response starts before the body ends. *)
Definition duplex_events : list (@Upload.UpEvent amap) :=
  [Upload.RecvBody (Some (Server.TBody (Some (bytes_of "ab")) false)); read_once; read_once;
   Upload.RecvBody (Some (Server.TBody (Some (bytes_of "c")) true))] ++ repeat read_once 60.

Definition duplex_end : @Upload.Half amap (list byte) :=
  match Upload.proxy_handle_upstream wit_response_parser ref_parse (MkIoError true false) 20 duplex_events
          (Upload.half_new posting_client) with
  | Val _ h | Cancelled h => h
  | _ => Upload.half_new posting_client
  end.

Lemma upstream_reuse_sound_witness :
  exists body, wr_out (Client.io (Upload.client_session duplex_end)) = wr_out (Client.io posting_client) ++ body /\
    whole_body (req_headers chunked_post) [bytes_of "ab"; bytes_of "c"] body.
Proof.
  destruct (upstream_reuse_sound wit_response_parser ref_parse (MkIoError true false) chunked_post idle_client
    posting_client (zlen (wr_out (Client.io posting_client))) 20 duplex_events true duplex_end (inl true) [])
    as (_ & (body & Hb & Ho & _) & _).
  - vm_compute. reflexivity.
  - reflexivity.
  - vm_compute. reflexivity.
  - vm_compute. reflexivity.
  - exists body. split; [exact Ho|exact Hb].
Defined.

Lemma upstream_response_relayed_witness :
  map resp_status (omap task_header (Upload.tx duplex_end)) = [103; 200] /\
  concat (map task_data (Upload.tx duplex_end)) = bytes_of "hello".
Proof.
  destruct wit_heads_ok as [Hh Ho].
  apply (head_ok_ext wit_response_parser wit_client posting_client) in Hh; [|vm_compute; reflexivity..].
  apply (head_ok_ext wit_response_parser wit_client posting_client) in Ho; [|vm_compute; reflexivity..].
  destruct (upstream_response_relayed wit_response_parser ref_parse (MkIoError true false) chunked_post idle_client
    posting_client (zlen (wr_out (Client.io posting_client)))
    [wit_head_of wit_hints_parsed wit_hints] (wit_head_of wit_ok_parsed wit_ok)
    (bytes_of "hello") (bytes_of "hello") [] 20 duplex_events) as (h & Hov & Hhd & Hdata & _).
  - vm_compute. reflexivity.
  - reflexivity.
  - constructor; [split; [exact Hh|vm_compute; reflexivity]|constructor].
  - exact Ho.
  - vm_compute; reflexivity.
  - vm_compute; reflexivity.
  - constructor; [repeat constructor; discriminate|constructor|]. exists []. split; reflexivity.
  - reflexivity.
  - reflexivity.
  - reflexivity.
  - split; reflexivity.
  - vm_compute; discriminate.
  - reflexivity.
  - reflexivity.
  - reflexivity.
  - constructor.
  - repeat constructor.
  - assert (h = duplex_end) as ->.
    { destruct Hov as [[Hv _]|[Hv _]]; vm_compute in Hv; [injection Hv as _ <-|discriminate Hv]. vm_compute. reflexivity. }
    rewrite Hhd. split; [vm_compute; reflexivity|exact Hdata].
Defined.

(** When the other half goes away in the middle of a chunked body, the body is
    ended as if it were whole, and the connection is kept. *)
Example dropped_sender_completes_body :
  let evs := [Upload.RecvBody (Some (Server.TBody (Some (bytes_of "ab")) false))] ++ repeat read_once 60 ++
             [Upload.RecvBody None] in
  match Upload.proxy_handle_upstream wit_response_parser ref_parse (MkIoError true false) 20 evs
          (Upload.half_new posting_client) with
  | Val b h =>
      b = true /\
      wr_out (Client.io (Upload.client_session h)) =
        wr_out (Client.io posting_client) ++ enc_chunks (chunks_of [bytes_of "ab"]) ++ LAST_CHUNK /\
      Upload.release_http_session (Upload.client_session h) = Some []
  | _ => False
  end.
Proof. vm_compute. done. Qed.
