(* ===== verification/RequestFlow.v ===== *)
(** * The life of a proxied request

    [process_request] of [src/pingora-proxy/src/lib.rs] with what it is made of:
    [handle_error], [finish], [proxy_to_upstream] with its retries,
    [cleanup_sub_req], and the questions of [Session] about an abandoned
    downstream; and the default methods of [ProxyHttp] that decide on retries and
    errors ([proxy_trait.rs]).

    The application's callbacks and the other parts of the proxy (modules, cache
    lookup, the upstream protocols, the downstream session) are the operations of
    an interface: each takes the session and the context of the request and may
    change both in any way.  The cache of the session is that of [HttpCache].
    Every call is recorded in order.  Log lines and the callbacks that only word
    or silence them are left out, and so is the feature [early_body_buffer]. *)

From stdpp Require Import base list numbers strings.
From Stdlib Require Import ZArith Lia.
From S2P Require Import Prelude Errors Ketama CacheControl CacheMeta CacheKey HttpCache.
Local Open Scope Z_scope.

Module Flow.
Section flow.
(** [Down] is the downstream session, [Ctx] the application's context, [Peer] an
    upstream peer, [Stream] a downstream connection that can be used again,
    [UserCtx] what the application keeps with it. *)
Context {HMapT : Type} `{HeaderMap HMapT} {Down Ctx Peer Stream UserCtx : Type}.

(** ** The session *)

Record PSession := MkPSession {
  p_cache : HttpCache.Session (M := HMapT);
  handles_downstream_abandonment : bool;
  subrequest_spawner : bool  (** may the request spawn subrequests *);
  subrequest_lock : option Z  (** the write permit a parent request handed over *);
  downstream_session : Down
}.

Definition set_p_cache (c : HttpCache.Session (M := HMapT)) (s : PSession) : PSession :=
  MkPSession c (handles_downstream_abandonment s) (subrequest_spawner s) (subrequest_lock s) (downstream_session s).
Definition set_downstream (d : Down) (s : PSession) : PSession :=
  MkPSession (p_cache s) (handles_downstream_abandonment s) (subrequest_spawner s) (subrequest_lock s) d.
Definition set_spawner (b : bool) (s : PSession) : PSession :=
  MkPSession (p_cache s) (handles_downstream_abandonment s) b (subrequest_lock s) (downstream_session s).
Definition set_subrequest_lock (l : option Z) (s : PSession) : PSession :=
  MkPSession (p_cache s) (handles_downstream_abandonment s) (subrequest_spawner s) l (downstream_session s).

Abbreviation X := (PSession * Ctx)%type.

(** ** What the request is handed to *)

Inductive ClientKind := KH1 | KH2 | KCustom.

(** [FailToProxy]. *)
Record FailToProxy := MkFail { error_code : Z; can_reuse_downstream : bool }.

Record Parts := MkParts {
  (** the callbacks of the application *)
  early_request_filter : X -> (unit + Error) * X;
  allow_spawning_subrequest : X -> bool;
  should_handle_downstream_abandonment : X -> bool;
  request_filter : X -> (bool + Error) * X;
  proxy_upstream_filter : X -> (bool + Error) * X;
  upstream_peer : X -> (Peer + Error) * X;
  fail_to_connect : Peer -> Error -> X -> Error * X;
  error_while_proxy : Peer -> Error -> bool -> X -> Error * X;
  fail_to_proxy : Error -> X -> FailToProxy * X;
  logging : option Error -> X -> X;
  persist_connection_context : X -> option UserCtx;
  (** the other parts of the proxy *)
  request_header_filter : X -> (unit + Error) * X;
  proxy_cache : X -> option (bool * option Error) * X;
  handle_stale_if_error : Error -> X -> option (bool * option Error) * X;
  get_http_session : Peer -> X -> (ClientKind * bool + Error) * X;
  proxy_to_h1_upstream : Peer -> bool -> X -> (bool * bool * option Error) * X;
  proxy_to_h2_upstream : Peer -> bool -> X -> (bool * option Error) * X;
  proxy_to_custom_upstream : Peer -> bool -> X -> (bool * bool * option Error) * X
    (** with whether writing the request was tried *);
  write_bad_gateway : X -> (unit + Error) * X;
  (** the downstream session *)
  response_written : Down -> bool;
  is_response_complete : Down -> bool;
  is_body_complete : Down -> bool * Down;
  set_idle_watches_response_receiver : bool -> Down -> Down;
  on_proxy_failure : Error -> Down -> Down;
  finish_session : Down -> option Stream + Error;
  (** the peer allows HTTP/1 *)
  allows_h1 : Peer -> bool;
  max_retries : Z;
  world : HttpCache.World (M := HMapT)
}.

(** What is done, in order. *)
Inductive Call :=
| CEarlyRequestFilter | CRequestHeaderFilter | CRequestFilter | CProxyCache
| CProxyUpstreamFilter | CUpstreamPeer | CConnect (p : Peer)
| CAttempt (p : Peer) (k : ClientKind) (reused : bool)
| CRelease (p : Peer) (k : ClientKind) | CAbandon (p : Peer) | CPreferH1 (p : Peer)
| CErrorWhileProxy | CFailToConnect
| COutcome (reuse : bool) (e : option Error)  (** how an attempt at an upstream ended *)
| CBadGateway | CServeStale | CDisableCache (r : NoCacheReason) | CReleaseSubrequestLock (permit : Z)
| CFailToProxy (e : Error) (cache_enabled : bool)
| CLogging (e : option Error) | COnProxyFailure (e : Error) | CFinish.

Record State := MkState { x : X; calls : list Call }.

Definition PM (A : Type) : Type := Prelude.M State Error A.

Variable P : Parts.

Definition note (c : Call) : PM unit := modify (fun s => MkState (x s) (calls s ++ [c])).
Definition session : PM PSession := let! s := get in ret (x s).1.
Definition upd (f : PSession -> PSession) : PM unit := modify (fun s => MkState (f (x s).1, (x s).2) (calls s)).
Definition ask {A} (f : X -> A) : PM A := let! s := get in ret (f (x s)).
(** A call: recorded, then made. *)
Definition call {A} (c : Call) (f : X -> A * X) : PM A :=
  do! note c;
  fun s => let '(a, x') := f (x s) in Val a (MkState x' (calls s)).
Definition on_cache {A} (m : Prelude.M (HttpCache.Session (M := HMapT)) Error A) : PM A :=
  fun s =>
    let keep c := MkState (set_p_cache c (x s).1, (x s).2) (calls s) in
    match m (p_cache (x s).1) with
    | Val a c => Val a (keep c)
    | Fail e c => Fail e (keep c)
    | Cancelled c => Cancelled (keep c)
    | Panic => Panic
    end.

Definition cache_enabled (s : PSession) : bool := HttpCache.enabled (HttpCache.cache (p_cache s)).

(** ** Questions to the session *)

Definition set_handles_downstream_abandonment (handles : bool) : PM unit :=
  upd (fun s => MkPSession (p_cache s) handles (subrequest_spawner s) (subrequest_lock s)
                  (set_idle_watches_response_receiver P handles (downstream_session s))).

Definition downstream_abandoned_during_cache_fill (s : PSession) : bool :=
  handles_downstream_abandonment s &&
  HttpCache.downstream_abandoned_during_cache_fill (HttpCache.cache (p_cache s)).

Definition ERR_CACHE_FILL_CANCELLED : ErrorType := Errors.Custom "cache fill cancelled".
Definition REASON_CACHE_FILL_CANCELLED : list byte := bytes_of "CacheFillCancelled".

Definition is_cache_fill_cancelled (e : Error) : bool := bool_decide (root_etype e = ERR_CACHE_FILL_CANCELLED).

Definition is_cache_fill_cancellation (s : PSession) (e : Error) : bool :=
  handles_downstream_abandonment s && is_cache_fill_cancelled e.

Definition cache_failure_reason (s : PSession) (e : Error) (fallback : NoCacheReason) : NoCacheReason :=
  if is_cache_fill_cancellation s e then CustomReason REASON_CACHE_FILL_CANCELLED else fallback.

Definition downstream_left_before_response_complete (s : PSession) : bool :=
  negb (is_response_complete P (downstream_session s)).

Definition cache_fill_retry_allowed : PM bool :=
  let! s := session in
  if negb (downstream_abandoned_during_cache_fill s) then ret true
  else
    let '(complete, d) := is_body_complete P (downstream_session s) in
    do! upd (set_downstream d);
    ret (complete && cache_enabled s &&
         negb (HttpCache.is_cache_admission_active (HttpCache.cache (p_cache s)))).

Definition mark_downstream_abandoned_during_cache_fill : PM bool :=
  let! s := session in
  if handles_downstream_abandonment s
  then on_cache HttpCache.mark_downstream_abandoned_during_cache_fill else ret false.

Definition cleanup_sub_req : PM unit :=
  let! s := session in
  match subrequest_lock s with
  | Some permit => do! note (CReleaseSubrequestLock permit); upd (set_subrequest_lock None)
  | None => ret tt
  end.

(** ** Ending the request *)

(** [finish().await.ok().flatten()] of the downstream session, with what the
    application keeps with the connection. *)
Definition reuse_stream : PM (option (Stream * option UserCtx)) :=
  let! uc := ask (persist_connection_context P) in
  do! note CFinish;
  let! s := session in
  ret match finish_session P (downstream_session s) with
      | inl (Some stream) => Some (stream, uc)
      | _ => None
      end.

Definition log_request (e : option Error) : PM unit :=
  call (CLogging e) (fun x => (tt, logging P e x)).

Definition proxy_failure (e : Error) : PM unit :=
  do! note (COnProxyFailure e);
  upd (fun s => set_downstream (on_proxy_failure P e (downstream_session s)) s).

Definition finish (reuse : bool) (error : option Error) : PM (option (Stream * option UserCtx)) :=
  do! log_request error;
  do! match error with Some e => proxy_failure e | None => ret tt end;
  if reuse then reuse_stream else ret None.

Definition fail_request (e : Error) : PM FailToProxy :=
  let! s := session in
  call (CFailToProxy e (cache_enabled s)) (fail_to_proxy P e).

Definition handle_error (e : Error) : PM (option (Stream * option UserCtx)) :=
  let! res := fail_request e in
  do! log_request (Some e);
  do! cleanup_sub_req;
  do! proxy_failure e;
  if can_reuse_downstream res then reuse_stream else ret None.

Definition disable_cache (r : NoCacheReason) : PM unit :=
  do! note (CDisableCache r);
  on_cache (HttpCache.disable (world P) r).

(** ** One attempt at an upstream *)

Definition is_downgrade (e : Error) : bool := bool_decide (etype e ∈ [H2Downgrade; InvalidH2]).

(** The error of an HTTP/2 attempt that asks for HTTP/1. *)
Definition downgrade (peer : Peer) (e : Error) : PM Error :=
  if is_downgrade e then
    if allows_h1 P peer then do! note (CPreferH1 peer); ret e
    else ret (set_retry false e)
  else ret e.

Definition attempt (peer : Peer) (kind : ClientKind) (reused : bool) : PM (bool * option Error) :=
  match kind with
  | KH1 =>
      let! r := call (CAttempt peer KH1 reused) (proxy_to_h1_upstream P peer reused) in
      let '(server_reused, client_reuse, error) := r in
      do! (if client_reuse : bool then note (CRelease peer KH1) else ret tt);
      ret (server_reused, error)
  | KH2 =>
      let! r := call (CAttempt peer KH2 reused) (proxy_to_h2_upstream P peer reused) in
      do! note (CRelease peer KH2);
      let! error := match r.2 with
                    | Some e => let! e := downgrade peer e in ret (Some e)
                    | None => ret None
                    end in
      ret (r.1, error)
  | KCustom =>
      let! r := call (CAttempt peer KCustom reused) (proxy_to_custom_upstream P peer reused) in
      let '(server_reused, request_write_attempted, error) := r in
      let! s := session in
      do! (if request_write_attempted &&
              match error with
              | Some e => downstream_abandoned_during_cache_fill s || is_cache_fill_cancellation s e
              | None => false
              end
           then note (CAbandon peer) else ret tt);
      do! note (CRelease peer KCustom);
      ret (server_reused, error)
  end.

Definition proxy_to_upstream : PM (bool * option Error) :=
  let! peer := call CUpstreamPeer (upstream_peer P) in
  match peer with
  | inr e => ret (false, Some e)
  | inl peer =>
      let! client_session := call (CConnect peer) (get_http_session P peer) in
      match client_session with
      | inl (kind, client_reused) =>
          let! r := attempt peer kind client_reused in
          let '(server_reused, error) := r in
          match error with
          | Some e =>
              let! e := call CErrorWhileProxy (error_while_proxy P peer e client_reused) in
              ret (server_reused, Some e)
          | None => ret (server_reused, None)
          end
      | inr e =>
          let! new_err := call CFailToConnect (fail_to_connect P peer (as_up e)) in
          ret (false, Some (as_up new_err))
      end
  end.

(** The retries; [n] is what is left of [max_retries]. *)
Fixpoint try_upstreams (n : nat) (server_reuse : bool) (proxy_error : option Error) : PM (bool * option Error) :=
  match n with
  | O => ret (server_reuse, proxy_error)
  | S n =>
      let! r := proxy_to_upstream in
      let '(reuse, e) := r in
      match e with
      | Some error =>
          let! allowed := cache_fill_retry_allowed in
          let error := if allowed : bool then error else set_retry false error in
          let! retry := unwrap (Errors.retry (eretry error)) in
          do! note (COutcome reuse (Some error));
          if retry : bool then try_upstreams n reuse (Some error) else ret (reuse, Some error)
      | None => do! note (COutcome reuse None); ret (reuse, None)
      end
  end.

(** ** The request *)

Definition serve_stale (proxy_error : option Error) : PM (option (bool * option Error)) :=
  match proxy_error with
  | Some e =>
      let! stale := on_cache (HttpCache.can_serve_stale_error (world P)) in
      if stale : bool then call CServeStale (handle_stale_if_error P e) else ret None
  | None => ret None
  end.

Definition report_error (e : Error) : PM unit :=
  let! s := session in
  do! (if cache_enabled s then
         let reason := if bool_decide (esource e = Errors.Upstream) then UpstreamError else CacheMeta.InternalError in
         disable_cache (cache_failure_reason s e reason)
       else ret tt);
  let! _ := fail_request e in ret tt.

Definition to_upstream : PM (option (Stream * option UserCtx)) :=
  let! r := try_upstreams (Z.to_nat (max_retries P)) false None in
  let '(server_reuse, proxy_error) := r in
  let! stale := serve_stale proxy_error in
  let '(server_reuse, final_error) :=
    match stale with
    | Some (reuse, stale_cache_error) => (server_reuse && reuse, stale_cache_error)
    | None => (server_reuse, proxy_error)
    end in
  do! match final_error with Some e => report_error e | None => ret tt end;
  finish server_reuse final_error.

(** The application does not want an upstream. *)
Definition declined : PM (option (Stream * option UserCtx)) :=
  let! s := session in
  do! (if cache_enabled s then disable_cache DeclinedToUpstream else ret tt);
  let! s := session in
  if response_written P (downstream_session s) then finish true None
  else
    let! r := call CBadGateway (write_bad_gateway P) in
    match r with
    | inl _ => finish true None
    | inr e => handle_error e
    end.

Definition after_filters : PM (option (Stream * option UserCtx)) :=
  let! hit := call CProxyCache (proxy_cache P) in
  match hit with
  | Some (reuse, err) => finish reuse err
  | None =>
      do! cleanup_sub_req;
      let! proxy_to_upstream := call CProxyUpstreamFilter (proxy_upstream_filter P) in
      match proxy_to_upstream with
      | inl true => to_upstream
      | inl false => declined
      | inr e =>
          let! s := session in
          do! (if cache_enabled s then disable_cache CacheMeta.InternalError else ret tt);
          handle_error e
      end
  end.

Definition process_request : PM (option (Stream * option UserCtx)) :=
  let! early := call CEarlyRequestFilter (early_request_filter P) in
  match early with
  | inr e => handle_error e
  | inl _ =>
      let! spawning := ask (allow_spawning_subrequest P) in
      do! (if spawning : bool then upd (set_spawner true) else ret tt);
      let! handles := ask (should_handle_downstream_abandonment P) in
      do! set_handles_downstream_abandonment handles;
      let! modules := call CRequestHeaderFilter (request_header_filter P) in
      match modules with
      | inr e => handle_error e
      | inl _ =>
          let! filtered := call CRequestFilter (request_filter P) in
          match filtered with
          | inl true =>
              do! log_request None;
              do! cleanup_sub_req;
              reuse_stream
          | inl false => after_filters
          | inr e => handle_error e
          end
      end
  end.

(** ** The defaults of the trait *)

(** [error_while_proxy]; what it asks of the request, and the peer in words. *)
Definition default_error_while_proxy (is_idempotent retry_buffer_truncated : X -> bool) (display : Peer -> string)
    (peer : Peer) (e : Error) (client_reused : bool) (x : X) : Error * X :=
  let e := more_context e ("Peer: " +:+ display peer) in
  (if negb (is_idempotent x) || retry_buffer_truncated x then set_retry false e
   else let 'mkError t s r c y := e in mkError t s (decide_reuse r client_reused) c y, x).

Definition default_fail_to_connect (peer : Peer) (e : Error) (x : X) : Error * X := (e, x).

(** The status [fail_to_proxy] answers an error with, 0 for no answer. *)
Definition default_error_code (s : PSession) (e : Error) : Z :=
  if downstream_abandoned_during_cache_fill s then 0
  else match etype e with
       | HTTPStatus code => code
       | t =>
           match esource e with
           | Errors.Upstream => 502
           | Downstream => if bool_decide (t ∈ [WriteError; ReadError; ConnectionClosed]) then 0 else 400
           | Internal | Unset => 500
           end
       end.

Definition default_fail_to_proxy (respond_error : Z -> X -> X) (e : Error) (x : X) : FailToProxy * X :=
  let code := default_error_code x.1 e in
  (MkFail code false, if 0 <? code then respond_error code x else x).

(** [should_serve_stale] of an error, or while revalidating. *)
Definition default_should_serve_stale (error : option Error) : bool :=
  match error with Some e => bool_decide (esource e = Errors.Upstream) | None => false end.

End flow.
End Flow.
