(* ===== verification/RequestFlowSpec.v ===== *)
(** * What happens to a request, in order

    Of every request that is processed, whatever the application's callbacks and
    the other parts answer: it is logged once, its error is reported and answered
    at most once, upstreams are tried only behind the filters and only as often
    as errors allow; and with well-behaved parts nothing panics. *)

From stdpp Require Import base list numbers strings.
From Stdlib Require Import ZArith Lia.
From S2P Require Import Prelude Errors Ketama CacheControl CacheMeta CacheMetaSpec CacheKey HttpCache HttpCacheSpec RequestFlow.
Import Flow.
Local Open Scope Z_scope.

Section flow.
Context {HMapT : Type} `{HMT : HeaderMap HMapT} {Down Ctx Peer Stream UserCtx : Type}.
Abbreviation St := (@Flow.State HMapT Down Ctx Peer).
Abbreviation Cl := (@Flow.Call Peer).
Context (P : @Flow.Parts HMapT Down Ctx Peer Stream UserCtx).

(** ** Traces *)

(** Whatever [m] returns, the calls it made satisfy [T] with it. *)
Definition emits {A} (m : Prelude.M St Error A) (T : A -> list Cl -> Prop) : Prop :=
  forall s a s', m s = Val a s' -> exists t, calls s' = calls s ++ t /\ T a t.

Lemma emits_weaken {A} (m : Prelude.M St Error A) (T T' : A -> list Cl -> Prop) :
  emits m T -> (forall a t, T a t -> T' a t) -> emits m T'.
Proof. intros Hm HT s a s' H. destruct (Hm _ _ _ H) as (t & ? & ?). eauto. Qed.

Lemma emits_bind {A B} (m : Prelude.M St Error A) (k : A -> Prelude.M St Error B) (T1 : A -> list Cl -> Prop)
    (T : B -> list Cl -> Prop) :
  emits m T1 -> (forall a t1, T1 a t1 -> emits (k a) (fun b t => T b (t1 ++ t))) -> emits (bind m k) T.
Proof.
  intros Hm Hk s b s'. unfold bind. destruct (m s) as [a s1|?|?|] eqn:Hms; try done. intros H.
  destruct (Hm _ _ _ Hms) as (t1 & H1 & HT1). destruct (Hk a t1 HT1 _ _ _ H) as (t & H2 & HT).
  exists (t1 ++ t). by rewrite H2, H1, app_assoc.
Qed.

Lemma emits_ret {A} (a : A) (T : A -> list Cl -> Prop) : T a [] -> emits (ret a) T.
Proof. intros HT s a' s' [= <- <-]. exists []. by rewrite app_nil_r. Qed.

(** A computation without calls. *)
Lemma emits_silent {A} (m : Prelude.M St Error A) (T : A -> list Cl -> Prop) :
  (forall s a s', m s = Val a s' -> calls s' = calls s) -> (forall a, T a []) -> emits m T.
Proof. intros Hm HT s a s' H. exists []. rewrite (Hm _ _ _ H), app_nil_r. auto. Qed.

Lemma emits_note c (T : unit -> list Cl -> Prop) : T tt [c] -> emits (note c) T.
Proof. intros HT s [] s' [= <-]. by exists [c]. Qed.

Lemma emits_call {A} c f (T : A -> list Cl -> Prop) : (forall a, T a [c]) -> emits (call c f) T.
Proof.
  intros HT s a s'. unfold call, bind, note, modify. simpl. destruct (f (x s)) as [a' x'].
  intros [= <- <-]. by exists [c].
Qed.

Lemma emits_upd f (T : unit -> list Cl -> Prop) : T tt [] -> emits (upd f) T.
Proof. intros HT. apply emits_silent; [|by intros []]. by intros s [] s' [= <-]. Qed.
Lemma emits_session (T : PSession -> list Cl -> Prop) : (forall s, T s []) -> emits session T.
Proof. intros HT. apply emits_silent; [|done]. by intros s a s' [= <- <-]. Qed.
Lemma emits_ask {A} (f : _ -> A) (T : A -> list Cl -> Prop) : (forall a, T a []) -> emits (ask f) T.
Proof. intros HT. apply emits_silent; [|done]. by intros s a s' [= <- <-]. Qed.
Lemma emits_on_cache {A} m (T : A -> list Cl -> Prop) : (forall a, T a []) -> emits (on_cache m) T.
Proof.
  intros HT. apply emits_silent; [|done]. intros s a s'. unfold on_cache. destruct (m _); try done.
  by intros [= <- <-].
Qed.
Lemma emits_unwrap {A} (o : option A) (T : A -> list Cl -> Prop) : (forall a, o = Some a -> T a []) -> emits (unwrap o) T.
Proof. intros HT. destruct o; [by apply emits_ret, HT|done]. Qed.

(** ** One attempt at an upstream *)

Definition cleans_up (c : Cl) : Prop :=
  match c with CRelease _ _ | CAbandon _ | CPreferH1 _ => True | _ => False end.

(** The calls of an attempt, with what it came to. *)
Inductive round : list Cl -> bool * option Error -> Prop :=
| round_no_peer e : round [CUpstreamPeer] (false, Some e)
| round_no_connection p e : round [CUpstreamPeer; CConnect p; CFailToConnect] (false, Some e)
| round_served p k reused after reuse :
    Forall cleans_up after ->
    round ([CUpstreamPeer; CConnect p; CAttempt p k reused] ++ after) (reuse, None)
| round_failed p k reused after reuse e x :
    Forall cleans_up after ->
    round ([CUpstreamPeer; CConnect p; CAttempt p k reused] ++ after ++ [CErrorWhileProxy])
      (reuse, Some (error_while_proxy P p e reused x).1).

Lemma downgrade_emits p e : emits (downgrade P p e) (fun _ t => Forall cleans_up t).
Proof.
  unfold downgrade. destruct (is_downgrade e); [|by apply emits_ret].
  destruct (allows_h1 P p); [|by apply emits_ret].
  eapply emits_bind; [apply (emits_note _ (fun _ t => t = [CPreferH1 p])); done|]. intros ? ? ->.
  apply emits_ret. by repeat constructor.
Qed.

Lemma attempt_emits p k reused :
  emits (attempt P p k reused) (fun _ t => exists after, t = CAttempt p k reused :: after /\ Forall cleans_up after).
Proof.
  assert (forall A (f : _ -> A * _), emits (call (CAttempt p k reused) f) (fun _ t => t = [CAttempt p k reused])) as Hcall.
  { intros A f. by apply emits_call. }
  unfold attempt. destruct k; (eapply emits_bind; [apply Hcall|]); intros r ? ->.
  - destruct r as [[server client] error]. eapply emits_bind with (T1 := fun _ t => Forall cleans_up t).
    { destruct client; [apply emits_note|apply emits_ret]; by repeat constructor. }
    intros [] t1 H1. apply emits_ret. exists t1. by rewrite app_nil_r.
  - eapply emits_bind; [apply (emits_note _ (fun _ t => t = [CRelease p KH2])); done|]. intros ? ? ->.
    eapply emits_bind with (T1 := fun _ t => Forall cleans_up t).
    { destruct r.2; [|by apply emits_ret]. eapply emits_bind; [apply downgrade_emits|]. intros e' t1 H1.
      apply emits_ret. by rewrite app_nil_r. }
    intros e' t1 H1. apply emits_ret. exists (CRelease p KH2 :: t1). rewrite app_nil_r. split; [done|]. by constructor.
  - destruct r as [[server tried] error]. eapply emits_bind; [by apply (emits_session (fun _ t => t = []))|].
    intros s ? ->. eapply emits_bind with (T1 := fun _ t => Forall cleans_up t).
    { destruct (_ && _); [apply emits_note|apply emits_ret]; by repeat constructor. }
    intros [] t1 H1. eapply emits_bind; [apply (emits_note _ (fun _ t => t = [CRelease p KCustom])); done|].
    intros ? ? ->. apply emits_ret. exists (t1 ++ [CRelease p KCustom]). rewrite app_nil_r. split; [done|].
    apply Forall_app. split; [done|]. by repeat constructor.
Qed.

Lemma call_emits_one {A} c (f : _ -> A * _) : emits (call c f) (fun _ t => t = [c]).
Proof. by apply emits_call. Qed.

Lemma call_emits_value {A} c (f : _ -> A * _) : emits (call c f) (fun a t => t = [c] /\ exists x, a = (f x).1).
Proof.
  intros s a s'. unfold call, bind, note, modify. simpl. destruct (f (x s)) as [a' x'] eqn:Hf.
  intros [= <- <-]. exists [c]. split; [done|]. split; [done|]. exists (x s). by rewrite Hf.
Qed.

Lemma proxy_to_upstream_emits : emits (proxy_to_upstream P) (fun r t => round t r).
Proof.
  unfold proxy_to_upstream. eapply emits_bind; [apply call_emits_one|]. intros [p|e] ? ->.
  2:{ apply emits_ret. constructor. }
  eapply emits_bind; [apply call_emits_one|]. intros [[k reused]|e] ? ->.
  - eapply emits_bind; [apply attempt_emits|]. intros [server [e|]] ? (after & -> & Hafter).
    + eapply emits_bind; [apply call_emits_value|]. intros e' ? (-> & x & ->). apply emits_ret.
      rewrite app_nil_r. by apply round_failed.
    + apply emits_ret. rewrite app_nil_r. by apply round_served.
  - eapply emits_bind; [apply call_emits_one|]. intros e' ? ->. apply emits_ret. simpl. constructor.
Qed.

(** ** The retries *)

(** The error of an attempt, as the loop looks at it. *)
Definition decides (e : Error) (e' : Error) (b : bool) : Prop :=
  (e' = e \/ e' = set_retry false e) /\ eretry e' = Decided b.

(** Attempts from the outcome [prev] of the one before, with [n] left. *)
Inductive tries : bool * option Error -> nat -> list Cl -> bool * option Error -> Prop :=
| tries_limit prev : tries prev 0 [] prev
| tries_served prev n t reuse :
    round t (reuse, None) -> tries prev (S n) (t ++ [COutcome reuse None]) (reuse, None)
| tries_stop prev n t reuse e e' :
    round t (reuse, Some e) -> decides e e' false ->
    tries prev (S n) (t ++ [COutcome reuse (Some e')]) (reuse, Some e')
| tries_again prev n t reuse e e' t' r :
    round t (reuse, Some e) -> decides e e' true -> tries (reuse, Some e') n t' r ->
    tries prev (S n) ((t ++ [COutcome reuse (Some e')]) ++ t') r.

Lemma retry_allowed_emits : emits (cache_fill_retry_allowed P) (fun _ t => t = []).
Proof.
  unfold cache_fill_retry_allowed. eapply emits_bind; [by apply (emits_session (fun _ t => t = []))|]. intros s ? ->.
  destruct (negb _); [by apply emits_ret|]. destruct (is_body_complete P _) as [c d].
  eapply emits_bind; [by apply (emits_upd _ (fun _ t => t = []))|]. intros ? ? ->. by apply emits_ret.
Qed.

Lemma try_upstreams_emits n : forall reuse0 e0,
  emits (try_upstreams P n reuse0 e0) (fun r t => tries (reuse0, e0) n t r).
Proof.
  induction n as [|n IH]; intros reuse0 e0; cbn [try_upstreams]; [apply emits_ret; constructor|].
  eapply emits_bind; [apply proxy_to_upstream_emits|]. intros [reuse [e|]] t Hround.
  - eapply emits_bind; [apply retry_allowed_emits|]. intros allowed ? ->.
    set (e' := if allowed then e else set_retry false e).
    assert (e' = e \/ e' = set_retry false e) as He' by (unfold e'; destruct allowed; auto).
    eapply emits_bind; [by apply (emits_unwrap _ (fun b t => t = [] /\ eretry e' = Decided b));
      intros b; destruct (eretry e'); simpl; [intros [= ->]|]|].
    intros b ? [-> Hb]. eapply emits_bind; [apply (emits_note _ (fun _ t => t = [COutcome reuse (Some e')])); done|].
    intros ? ? ->. destruct b.
    + eapply emits_weaken; [apply IH|]. intros r t' Ht. pose proof (tries_again (reuse0, e0)) as Hagain.
      setoid_rewrite <- app_assoc in Hagain. by eapply Hagain.
    + apply emits_ret. by eapply tries_stop.
  - eapply emits_bind; [apply (emits_note _ (fun _ t => t = [COutcome reuse None])); done|]. intros ? ? ->.
    apply emits_ret. rewrite app_nil_r. by apply tries_served.
Qed.

(** ** The end of a request *)

Definition failure (oe : option Error) : list Cl := match oe with Some e => [COnProxyFailure e] | None => [] end.

(** Logged with [oe] and over, with the connection [r] to use again. *)
Definition ending (oe : option Error) (r : option (Stream * option UserCtx)) (t : list Cl) : Prop :=
  exists rel fin, t = CLogging oe :: rel ++ failure oe ++ fin /\
    (rel = [] \/ exists p, rel = [CReleaseSubrequestLock p]) /\ (fin = [] /\ r = None \/ fin = [CFinish]).

(** Reported to the application, then ended. *)
Definition failing (e : Error) (r : option (Stream * option UserCtx)) (t : list Cl) : Prop :=
  exists en t', t = CFailToProxy e en :: t' /\ ending (Some e) r t'.

Lemma reuse_stream_emits : emits (reuse_stream P) (fun _ t => t = [CFinish]).
Proof.
  unfold reuse_stream. eapply emits_bind; [by apply (emits_ask _ (fun _ t => t = []))|]. intros uc ? ->.
  eapply emits_bind; [by apply (emits_note _ (fun _ t => t = [CFinish]))|]. intros ? ? ->.
  eapply emits_bind; [by apply (emits_session (fun _ t => t = []))|]. intros s ? ->. by apply emits_ret.
Qed.

Lemma maybe_reuse_emits (b : bool) :
  emits (if b then reuse_stream P else ret None) (fun r t => t = [] /\ r = None \/ t = [CFinish]).
Proof.
  destruct b; [|apply emits_ret; by left]. eapply emits_weaken; [apply reuse_stream_emits|]. intros r t ->. by right.
Qed.

Lemma proxy_failure_emits e : emits (proxy_failure P e) (fun _ t => t = [COnProxyFailure e]).
Proof.
  unfold proxy_failure. eapply emits_bind; [by apply (emits_note _ (fun _ t => t = [COnProxyFailure e]))|].
  intros ? ? ->. by apply emits_upd.
Qed.

Lemma cleanup_emits :
  emits cleanup_sub_req (fun _ t => t = [] \/ exists p, t = [CReleaseSubrequestLock p]).
Proof.
  unfold cleanup_sub_req. eapply emits_bind; [by apply (emits_session (fun _ t => t = []))|]. intros s ? ->.
  destruct (subrequest_lock s) as [p|]; [|apply emits_ret; by left].
  eapply emits_bind; [by apply (emits_note _ (fun _ t => t = [CReleaseSubrequestLock p]))|]. intros ? ? ->.
  apply emits_upd. right. eauto.
Qed.

Lemma finish_emits reuse oe : emits (finish P reuse oe) (ending oe).
Proof.
  unfold finish. eapply emits_bind; [apply call_emits_one|]. intros ? ? ->.
  eapply emits_bind with (T1 := fun _ t => t = failure oe).
  { destruct oe; [apply proxy_failure_emits|by apply emits_ret]. }
  intros ? ? ->. eapply emits_weaken; [apply maybe_reuse_emits|]. intros r t Ht. exists [], t. auto.
Qed.

Lemma fail_request_emits e : emits (fail_request P e) (fun _ t => exists en, t = [CFailToProxy e en]).
Proof.
  unfold fail_request. eapply emits_bind; [by apply (emits_session (fun _ t => t = []))|]. intros s ? ->.
  apply emits_call. eauto.
Qed.

Lemma handle_error_emits e : emits (handle_error P e) (failing e).
Proof.
  unfold handle_error. eapply emits_bind; [apply fail_request_emits|]. intros res ? (en & ->).
  eapply emits_bind; [apply call_emits_one|]. intros ? ? ->.
  eapply emits_bind; [apply cleanup_emits|]. intros ? rel Hrel.
  eapply emits_bind; [apply proxy_failure_emits|]. intros ? ? ->.
  eapply emits_weaken; [apply maybe_reuse_emits|]. intros r t Ht. exists en. eexists. split; [done|].
  by exists rel, t.
Qed.

(** ** Reporting an error after the upstreams *)

Lemma disable_disables w r (c c' : HttpCache.Session (M := HMapT)) u :
  HttpCache.disable w r c = Val u c' -> is_disabled (HttpCache.phase (HttpCache.cache c')) = true.
Proof.
  destruct c as [[p [[[[m va sv mh br st ev ad lc]|] k t pr pu da]|] d] lg]; destruct p;
    exec_unfold; exec_eval; repeat (exec_split; exec_eval); by inversion 1.
Qed.

Lemma disabled_not_enabled (h : HttpCache.HttpCache (M := HMapT)) :
  is_disabled (HttpCache.phase h) = true -> HttpCache.enabled h = false.
Proof. by destruct h as [[]]. Qed.

Lemma report_error_emits e :
  emits (report_error P e)
    (fun _ t => t = [CFailToProxy e false] \/ exists r, t = [CDisableCache r; CFailToProxy e false]).
Proof.
  intros s u s'. unfold report_error, session, bind, get, ret. cbv beta iota. simpl.
  destruct (cache_enabled (x s).1) eqn:Hen.
  - set (r := cache_failure_reason _ _ _). unfold disable_cache, bind, note, modify, on_cache. cbv beta iota. simpl.
    destruct (HttpCache.disable (world P) r (p_cache (x s).1)) as [u1 c1|?|?|] eqn:Hd; try done.
    unfold fail_request, session, call, bind, note, modify, get, ret. simpl.
    destruct (fail_to_proxy P e _) as [f x']. intros [= <- <-]. eexists. simpl. split; [by rewrite <- app_assoc|].
    right. exists r. unfold cache_enabled. simpl. by rewrite (disabled_not_enabled _ (disable_disables _ _ _ _ _ Hd)).
  - unfold fail_request, session, call, bind, note, modify, get, ret. simpl. rewrite Hen.
    destruct (fail_to_proxy P e _) as [f x']. intros [= <- <-]. eexists. simpl. split; [done|]. by left.
Qed.

(** ** The whole request *)

Definition is_filter (c : Cl) : Prop :=
  match c with
  | CEarlyRequestFilter | CRequestHeaderFilter | CRequestFilter | CProxyCache | CProxyUpstreamFilter
  | CReleaseSubrequestLock _ => True
  | _ => False
  end.
Definition reports (c : Cl) : Prop :=
  match c with CServeStale | CDisableCache _ | CBadGateway | CFailToProxy _ _ => True | _ => False end.

Definition failed_with (c : Cl) : option Error := match c with CFailToProxy e _ => Some e | _ => None end.

(** What is reported before the request is logged with [oe]: exactly its error;
    or nothing, when it was served by the cache. *)
Definition reported (before : list Cl) (oe : option Error) (t : list Cl) : Prop :=
  Forall reports t /\ (omap failed_with t = option_list oe \/ t = [] /\ last before = Some CProxyCache).

(** The upstreams tried, and what this means for the rest. *)
Definition after_upstreams (filters t1 rest : list Cl) (oe : option Error) : Prop :=
  t1 = [] \/
  exists outcome, tries (false, None) (Z.to_nat (max_retries P)) t1 outcome /\ CProxyUpstreamFilter ∈ filters /\
    (CServeStale ∉ rest -> oe = outcome.2) /\
    (forall e en, CFailToProxy e en ∈ rest -> en = false).

Definition account (filters : list Cl) (r : option (Stream * option UserCtx)) (t : list Cl) : Prop :=
  exists more t1 rest oe post, t = more ++ t1 ++ rest ++ post /\ Forall is_filter more /\
    after_upstreams (filters ++ more) t1 rest oe /\ reported (filters ++ more ++ t1) oe rest /\ ending oe r post.

Lemma account_filter filters c r t :
  is_filter c -> account (filters ++ [c]) r t -> account filters r (c :: t).
Proof.
  intros Hc (more & t1 & rest & oe & post & -> & Hm & Hup & Hrep & Hend).
  exists (c :: more), t1, rest, oe, post. rewrite <- app_assoc in Hup, Hrep. split_and!; try done. by constructor.
Qed.

Lemma account_filters filters fs r t :
  Forall is_filter fs -> account (filters ++ fs) r t -> account filters r (fs ++ t).
Proof.
  revert filters. induction fs as [|c fs IH]; intros filters Hf; [by rewrite app_nil_r|].
  apply Forall_cons in Hf as [Hc Hf]. intros Ha. apply account_filter; [done|]. apply IH; [done|].
  by rewrite <- app_assoc.
Qed.

(** Without upstreams: some reports, then the end. *)
Lemma account_end filters rest oe r post :
  reported filters oe rest -> ending oe r post -> account filters r (rest ++ post).
Proof.
  intros Hrep Hend. exists [], [], rest, oe, post. split_and!; try done; [by left|]. by rewrite !app_nil_r.
Qed.

Lemma account_failing filters before e r t :
  Forall reports before -> omap failed_with before = [] -> failing e r t -> account filters r (before ++ t).
Proof.
  intros Hb Hn (en & t' & -> & Hend). rewrite (cons_middle _ before t'), app_assoc.
  apply (account_end _ _ (Some e)); [|done]. split.
  - apply Forall_app. split; [done|]. by repeat constructor.
  - left. by rewrite omap_app, Hn.
Qed.

Lemma disable_emits r : emits (disable_cache P r) (fun _ t => t = [CDisableCache r]).
Proof.
  unfold disable_cache. eapply emits_bind; [by apply (emits_note _ (fun _ t => t = [CDisableCache r]))|].
  intros ? ? ->. by apply emits_on_cache.
Qed.

Lemma maybe_disable_emits (b : bool) r :
  emits (if b then disable_cache P r else ret tt) (fun _ t => Forall reports t /\ omap failed_with t = []).
Proof.
  destruct b; [|by apply emits_ret]. eapply emits_weaken; [apply disable_emits|]. intros ? t ->.
  split; [by repeat constructor|done].
Qed.

Lemma serve_stale_emits oe :
  emits (serve_stale P oe) (fun r t => t = [] /\ r = None \/ t = [CServeStale]).
Proof.
  unfold serve_stale. destruct oe as [e|]; [|apply emits_ret; by left].
  eapply emits_bind; [by apply (emits_on_cache _ (fun _ t => t = []))|]. intros [] ? ->; [|apply emits_ret; by left].
  apply emits_call. by right.
Qed.

Lemma to_upstream_emits filters :
  CProxyUpstreamFilter ∈ filters -> emits (to_upstream P) (account filters).
Proof.
  intros Hin. unfold to_upstream. eapply emits_bind; [apply try_upstreams_emits|]. intros [reuse pe] t1 Htries.
  eapply emits_bind; [apply serve_stale_emits|]. intros stale t2 Hstale.
  set (final := match stale with Some (r, e) => (reuse && r, e) | None => (reuse, pe) end).
  assert (CServeStale ∉ t2 -> final.2 = pe) as Hfinal.
  { destruct Hstale as [[-> ->]| ->]; [done|]. intros Hn. exfalso. apply Hn. constructor. }
  assert (Forall reports t2 /\ omap failed_with t2 = []) as [H2r H2f].
  { destruct Hstale as [[-> _]| ->]; [done|]. split; [by repeat constructor|done]. }
  destruct final as [reuse' oe]. simpl in Hfinal.
  eapply emits_bind with (T1 := fun _ t => match oe with
    | Some e => t = [CFailToProxy e false] \/ exists r, t = [CDisableCache r; CFailToProxy e false]
    | None => t = [] end).
  { destruct oe; [apply report_error_emits|by apply emits_ret]. }
  intros ? t3 H3. eapply emits_weaken; [apply finish_emits|]. intros r post Hend.
  exists [], t1, (t2 ++ t3), oe, post. split; [by rewrite <- !app_assoc|]. split; [done|].
  assert (reported (filters ++ t1) oe (t2 ++ t3) /\ (forall e en, CFailToProxy e en ∈ t3 -> en = false)) as [Hrep Hen].
  { unfold reported. rewrite omap_app, H2f, Forall_app.
    destruct oe as [e|]; [destruct H3 as [-> |(r' & ->)]|subst t3]; simpl.
    1,2: split; [split; [split; [done|by repeat constructor]|by left]|].
    - intros e0 en [= _ ->]%list_elem_of_singleton. done.
    - intros e0 en [|[= _ ->]%list_elem_of_singleton]%elem_of_cons; done.
    - split; [split; [done|by left]|]. by intros ? ? ?%not_elem_of_nil. }
  split; [|by split]. right. exists (reuse, pe). rewrite app_nil_r. split; [done|]. split; [done|]. split.
  - intros Hn. apply Hfinal. rewrite elem_of_app in Hn. by intros ?; apply Hn; left.
  - intros e en [He|He]%elem_of_app; [|by eapply Hen]. exfalso.
    destruct Hstale as [[-> _]| ->]; [by apply not_elem_of_nil in He|by apply list_elem_of_singleton in He].
Qed.

Lemma finish_account filters before reuse :
  Forall reports before -> omap failed_with before = [] ->
  emits (finish P reuse None) (fun r t => account filters r (before ++ t)).
Proof.
  intros Hb Hn. eapply emits_weaken; [apply finish_emits|]. intros r t Hend.
  eapply account_end; [|done]. split; [done|by left].
Qed.

Lemma declined_emits filters : emits (declined P) (account filters).
Proof.
  unfold declined. eapply emits_bind; [by apply (emits_session (fun _ t => t = []))|]. intros s ? ->.
  eapply emits_bind; [apply maybe_disable_emits|]. intros ? t1 [H1 H1f].
  eapply emits_bind; [by apply (emits_session (fun _ t => t = []))|]. intros s' ? ->.
  destruct (response_written P _); [by apply finish_account|].
  eapply emits_bind; [apply call_emits_one|].
  assert (Forall reports (t1 ++ [CBadGateway]) /\ omap failed_with (t1 ++ [CBadGateway]) = []) as [Hb Hn].
  { rewrite Forall_app, omap_app, H1f. split; [split; [done|by repeat constructor]|done]. }
  intros [?|e] ? ->.
  - eapply emits_weaken; [by apply (finish_account filters (t1 ++ [CBadGateway]))|].
    intros r t Ha. cbv beta in Ha. by rewrite <- app_assoc in Ha.
  - eapply emits_weaken; [apply handle_error_emits|]. intros r t Hf.
    pose proof (account_failing filters _ e r t Hb Hn Hf) as Ha. by rewrite <- app_assoc in Ha.
Qed.

Lemma handle_error_account filters e : emits (handle_error P e) (account filters).
Proof.
  eapply emits_weaken; [apply handle_error_emits|]. intros r t Hf. by apply (account_failing filters [] e).
Qed.

Lemma after_filters_emits filters : emits (after_filters P) (account filters).
Proof.
  unfold after_filters. eapply emits_bind; [apply call_emits_one|]. intros [[reuse err]|] ? ->.
  { eapply emits_weaken; [apply finish_emits|]. intros r t Hend. apply account_filter; [done|].
    apply (account_end _ [] err); [|done]. split; [done|right; split; [done|apply last_snoc]]. }
  eapply emits_bind; [apply cleanup_emits|]. intros ? rel Hrel.
  assert (Forall is_filter ([CProxyCache] ++ rel ++ [CProxyUpstreamFilter])) as Hf.
  { destruct Hrel as [-> |(p & ->)]; by repeat constructor. }
  eapply emits_bind; [apply call_emits_one|]. intros decision ? ->.
  assert (forall m, (forall fs, CProxyUpstreamFilter ∈ fs -> emits m (account fs)) ->
    emits m (fun r t => account filters r ([CProxyCache] ++ rel ++ [CProxyUpstreamFilter] ++ t))) as Hgo.
  { intros m Hm. eapply emits_weaken.
    { apply (Hm (filters ++ [CProxyCache] ++ rel ++ [CProxyUpstreamFilter])).
      rewrite !elem_of_app. right; right; right. constructor. }
    intros r t Ha. apply (account_filters _ _ r t) in Ha; [|done]. by rewrite <- !app_assoc in Ha. }
  destruct decision as [[]|e].
  - apply Hgo. intros fs. apply to_upstream_emits.
  - apply Hgo. intros fs _. apply declined_emits.
  - apply Hgo. intros fs _. eapply emits_bind; [by apply (emits_session (fun _ t => t = []))|]. intros s ? ->.
    eapply emits_bind; [apply maybe_disable_emits|]. intros ? t1 [H1 H1f].
    eapply emits_weaken; [apply handle_error_emits|]. intros r t Ht. exact (account_failing fs t1 e r t H1 H1f Ht).
Qed.

Lemma process_request_emits : emits (process_request P) (account []).
Proof.
  assert (forall fs m, Forall is_filter fs -> emits m (account fs) -> emits m (fun r t => account [] r (fs ++ t))) as Hgo.
  { intros fs m Hf Hm. eapply emits_weaken; [exact Hm|]. intros r t Ha. by apply account_filters. }
  unfold process_request. eapply emits_bind; [apply call_emits_one|]. intros [?|e] ? ->.
  2:{ apply Hgo; [by repeat constructor|]. apply handle_error_account. }
  eapply emits_bind; [by apply (emits_ask _ (fun _ t => t = []))|]. intros b ? ->.
  eapply emits_bind with (T1 := fun _ t => t = []).
  { destruct b; [by apply emits_upd|by apply emits_ret]. }
  intros ? ? ->. eapply emits_bind; [by apply (emits_ask _ (fun _ t => t = []))|]. intros b' ? ->.
  eapply emits_bind; [by apply (emits_upd _ (fun _ t => t = []))|]. intros ? ? ->.
  eapply emits_bind; [apply call_emits_one|]. intros [?|e] ? ->.
  2:{ apply (Hgo [CEarlyRequestFilter; CRequestHeaderFilter]); [by repeat constructor|]. apply handle_error_account. }
  eapply emits_bind; [apply call_emits_one|]. intros [[]|e] ? ->.
  - eapply emits_bind; [apply call_emits_one|]. intros ? ? ->.
    eapply emits_bind; [apply cleanup_emits|]. intros ? rel Hrel.
    eapply emits_weaken; [apply reuse_stream_emits|]. intros r t ->.
    apply (account_filters [] [CEarlyRequestFilter; CRequestHeaderFilter; CRequestFilter]); [by repeat constructor|].
    apply (account_end _ [] None); [split; [done|by left]|]. exists rel, [CFinish]. split; [done|]. split; [done|]. by right.
  - apply (Hgo [CEarlyRequestFilter; CRequestHeaderFilter; CRequestFilter]); [by repeat constructor|].
    apply after_filters_emits.
  - apply (Hgo [CEarlyRequestFilter; CRequestHeaderFilter; CRequestFilter]); [by repeat constructor|].
    apply handle_error_account.
Qed.

(** ** Counting *)

Definition outcome_of (c : Cl) : option (bool * option Error) := match c with COutcome b e => Some (b, e) | _ => None end.
Definition attempt_of (c : Cl) : option Peer := match c with CAttempt p _ _ => Some p | _ => None end.
Definition failure_of (c : Cl) : option Error := match c with COnProxyFailure e => Some e | _ => None end.
Definition log_of (c : Cl) : option (option Error) := match c with CLogging e => Some e | _ => None end.

Lemma omap_none {A B} (f : A -> option B) (Q : A -> Prop) l :
  Forall Q l -> (forall a, Q a -> f a = None) -> omap f l = [].
Proof. intros Hl Hf. induction Hl as [|a l Ha Hl IH]; [done|]. csimpl. by rewrite (Hf a Ha), IH. Qed.

(** What follows the log. *)
Definition closes (c : Cl) : Prop :=
  match c with CReleaseSubrequestLock _ | COnProxyFailure _ | CFinish => True | _ => False end.

Definition in_attempt (c : Cl) : Prop :=
  match c with
  | CUpstreamPeer | CConnect _ | CAttempt _ _ _ | CRelease _ _ | CAbandon _ | CPreferH1 _ | CErrorWhileProxy
  | CFailToConnect | COutcome _ _ => True
  | _ => False
  end.

Lemma cleans_up_in_attempt l : Forall cleans_up l -> Forall in_attempt l.
Proof. intros Hl. eapply Forall_impl; [exact Hl|]. by intros []. Qed.

Lemma round_calls t r :
  round t r -> Forall in_attempt t /\ omap outcome_of t = [] /\ (length (omap attempt_of t) <= 1)%nat.
Proof.
  assert (forall l, Forall cleans_up l -> omap outcome_of l = [] /\ omap attempt_of l = []) as Hclean.
  { intros l Hl. split; eapply omap_none; try exact Hl; by intros []. }
  intros [|p|p k reused after reuse Ha|p k reused after reuse e x Ha].
  - split; [by repeat constructor|]. simpl. auto with lia.
  - split; [by repeat constructor|]. simpl. auto with lia.
  - destruct (Hclean after Ha) as [Ho Hat]. split; [by repeat constructor; apply cleans_up_in_attempt|].
    csimpl. rewrite Ho, Hat. done.
  - destruct (Hclean after Ha) as [Ho Hat]. split.
    { repeat constructor. apply Forall_app. split; [by apply cleans_up_in_attempt|by repeat constructor]. }
    csimpl. rewrite !omap_app, Ho, Hat. done.
Qed.

(** The outcomes in order: all but the last are errors to retry. *)
Definition retried (os : list (bool * option Error)) : Prop :=
  forall i o, os !! i = Some o -> (S i < length os)%nat -> exists e, o.2 = Some e /\ eretry e = Decided true.

Lemma retried_cons o os :
  (os <> [] -> exists e, o.2 = Some e /\ eretry e = Decided true) -> retried os -> retried (o :: os).
Proof.
  intros Ho Hos [|i] o' Hi Hlt.
  - injection Hi as <-. apply Ho. destruct os; simpl in *; [lia|done].
  - eapply Hos; [exact Hi|]. simpl in Hlt. lia.
Qed.

Lemma retried_one o : retried [o].
Proof. intros [|i] o' _ Hlt; simpl in Hlt; lia. Qed.

Lemma tries_outcomes prev n t r :
  tries prev n t r ->
  let os := omap outcome_of t in
  Forall in_attempt t /\ (length os <= n)%nat /\ retried os /\ (length (omap attempt_of t) <= length os)%nat /\
  r = default prev (last os) /\
  (os = [] -> n = 0%nat) /\
  (forall reuse e, last os = Some (reuse, Some e) -> eretry e = Decided true -> length os = n).
Proof.
  assert (forall t c, Forall in_attempt t -> in_attempt c -> Forall in_attempt (t ++ [c])) as Hsnoc.
  { intros. apply Forall_app. split; [done|]. by constructor. }
  induction 1 as [prev|prev n t reuse Hr|prev n t reuse e e' Hr [_ Hd]|prev n t reuse e e' t' r Hr [_ Hd] _ IH]; simpl.
  - split_and!; done.
  - destruct (round_calls _ _ Hr) as (Hc & Ho & Ha). rewrite !omap_app, Ho. csimpl. rewrite app_nil_r.
    split_and!; try done; try apply retried_one; try lia; by apply Hsnoc.
  - destruct (round_calls _ _ Hr) as (Hc & Ho & Ha). rewrite !omap_app, Ho. csimpl. rewrite app_nil_r.
    split_and!; try done; try apply retried_one; try lia; [by apply Hsnoc|]. intros ? ? [= <- <-]. congruence.
  - destruct (round_calls _ _ Hr) as (Hc & Ho & Ha). destruct IH as (IHc & IHn & IHr & IHa & IHl & IHz & IHs).
    rewrite !omap_app, Ho. csimpl. rewrite !length_app. simpl. split_and!.
    + apply Forall_app. split; [by apply Hsnoc|done].
    + lia.
    + apply retried_cons; [|done]. intros _. by exists e'.
    + lia.
    + rewrite IHl, (last_cons (reuse, Some e')). by destruct (last (omap outcome_of t')).
    + done.
    + intros reuse0 e0. rewrite last_cons. destruct (last (omap outcome_of t')) as [o|] eqn:Hl.
      * intros [= ->] He0. f_equal. by eapply IHs.
      * apply last_None in Hl. rewrite Hl. simpl. intros _ _. by rewrite (IHz Hl).
Qed.

(** ** The account of a request *)

(** Nothing comes of the calls of a kind that [f] skips. *)
Ltac skip H := rewrite (omap_none _ _ _ H) by (by intros []).

Lemma ending_closes oe r t :
  ending oe r t -> exists after, t = CLogging oe :: after /\ Forall closes after /\
    omap failure_of after = option_list oe /\ (r <> None -> last t = Some CFinish).
Proof.
  intros (rel & fin & -> & Hrel & Hfin). exists (rel ++ failure oe ++ fin). split; [done|].
  destruct Hrel as [-> |(p & ->)], Hfin as [[-> ->]| ->], oe; simpl;
    (split; [by repeat constructor|]); (split; [done|]); done.
Qed.

(** The parts of the account of a request, with what does not occur in them. *)
Lemma account_parts r t :
  account [] r t ->
  exists more t1 rest oe after,
    t = (more ++ t1 ++ rest) ++ CLogging oe :: after /\
    Forall is_filter more /\ Forall in_attempt t1 /\ Forall reports rest /\ Forall closes after /\
    after_upstreams more t1 rest oe /\
    (omap failed_with rest = option_list oe \/ rest = [] /\ last (more ++ t1) = Some CProxyCache) /\
    omap failure_of after = option_list oe /\ (r <> None -> last t = Some CFinish).
Proof.
  intros (more & t1 & rest & oe & post & -> & Hm & Hup & [Hr Hf] & (after & -> & Hc & Hfail & Hlast)%ending_closes).
  exists more, t1, rest, oe, after. split; [by rewrite <- !app_assoc|]. split; [done|]. split.
  { destruct Hup as [-> |(o & Ht & _)]; [done|]. by destruct (tries_outcomes _ _ _ _ Ht). }
  split_and!; try done. intros Hn. rewrite !last_app, (Hlast Hn). done.
Qed.

(** C10: Whatever the callbacks of the application and the other parts of the proxy
    answer, a request that is processed is logged exactly once; with an error, the
    downstream session is told of this error, once and after the log; the
    application is asked to answer exactly the logged error, once and before the
    log, unless the cache served the response; after the log nothing happens but
    the release of a parent's lock, the word to the downstream session and its end;
    and the connection is handed back only by ending the session, as the last
    thing. *)
Theorem request_accounted s r s' :
  calls s = [] -> process_request P s = Val r s' ->
  exists before oe after,
    calls s' = before ++ CLogging oe :: after /\ omap log_of (calls s') = [oe] /\
    omap failure_of before = [] /\ omap failure_of after = option_list oe /\
    Forall closes after /\ omap failed_with after = [] /\
    (omap failed_with before = option_list oe \/
     omap failed_with before = [] /\ last before = Some CProxyCache) /\
    (r <> None -> last (calls s') = Some CFinish).
Proof.
  intros Hs Hr. destruct (process_request_emits _ _ _ Hr) as (t & Ht & Ha). rewrite Hs in Ht. simpl in Ht.
  destruct (account_parts _ _ Ha) as (more & t1 & rest & oe & after & Heq & Hm & H1 & Hrep & Hc & _ & Hf & Hfail & Hl).
  rewrite Ht. exists (more ++ t1 ++ rest), oe, after. split; [done|]. split.
  { rewrite Heq, !omap_app. csimpl. skip Hm. skip H1. skip Hrep. by skip Hc. }
  split; [rewrite !omap_app; skip Hm; skip H1; by skip Hrep|]. split; [done|]. split; [done|].
  split; [by skip Hc|]. split; [|done]. rewrite !omap_app. skip Hm. skip H1. simpl.
  destruct Hf as [Hf|[-> Hf]]; [by left|right]. by rewrite app_nil_r.
Qed.

(** ** The upstreams of a request *)

Lemma not_in {Q : Cl -> Prop} {l c} : Forall Q l -> (Q c -> False) -> c ∉ l.
Proof. rewrite Forall_forall. intros Hl Hc Hin. auto. Qed.

(** What comes first is in the prefix. *)
Lemma in_prefix (c : Cl) (l l' pre post : list Cl) :
  l ++ l' = pre ++ c :: post -> c ∉ l -> exists k, pre = l ++ k.
Proof.
  intros [(k & -> & Heq)|(k & -> & _)]%app_eq_inv Hn; [|eauto].
  destruct k as [|c' k]; [exists []; by rewrite !app_nil_r|]. injection Heq as <- _.
  exfalso. apply Hn. rewrite elem_of_app. right. constructor.
Qed.

(** C11: The upstreams a request tries.  There are at most [max_retries] of them,
    each attempt but the last ended in an error that allows a retry, and an attempt
    that allows one is the last only when the limit is reached; the request is sent
    at most once per attempt; no upstream is selected before the application's
    [proxy_upstream_filter] ran; unless a stale response is served, the request is
    logged with what the last attempt came to; and when the error of an upstream is
    to be answered, the cache has been disabled. *)
Theorem upstream_attempts s r s' :
  calls s = [] -> process_request P s = Val r s' ->
  let os := omap outcome_of (calls s') in
  let limit := Z.to_nat (max_retries P) in
  (length os <= limit)%nat /\ retried os /\
  (forall reuse e, last os = Some (reuse, Some e) -> eretry e = Decided true -> length os = limit) /\
  (length (omap attempt_of (calls s')) <= length os)%nat /\
  (forall pre post, calls s' = pre ++ CUpstreamPeer :: post -> CProxyUpstreamFilter ∈ pre) /\
  (forall o, last os = Some o -> CServeStale ∉ calls s' -> omap log_of (calls s') = [o.2]) /\
  (forall e en, os <> [] -> CFailToProxy e en ∈ calls s' -> en = false).
Proof.
  intros Hs Hr. destruct (process_request_emits _ _ _ Hr) as (t & Ht & Ha). rewrite Hs in Ht. simpl in Ht.
  destruct (account_parts _ _ Ha) as (more & t1 & rest & oe & after & Heq & Hm & H1 & Hrep & Hc & Hup & _).
  assert (forall A (f : Cl -> option A), (forall c, is_filter c \/ reports c \/ closes c -> f c = None) ->
    f (CLogging oe) = None -> omap f t = omap f t1) as Hof.
  { intros A f Hf Hl. rewrite Heq, !omap_app. csimpl. rewrite Hl.
    rewrite (omap_none f _ _ Hm), (omap_none f _ _ Hrep), (omap_none f _ _ Hc) by auto. by rewrite !app_nil_r. }
  assert (omap log_of t = [oe]) as Hlog.
  { rewrite Heq, !omap_app. csimpl. skip Hm. skip H1. skip Hrep. by skip Hc. }
  rewrite Ht, !Hof, Hlog by (try done; by intros [] [|[]]). cbv zeta.
  destruct Hup as [-> |(o & Htries & Hin & Hserve & Hen)].
  { simpl. split_and!; try done; try lia; try (intros i; by rewrite lookup_nil).
    intros pre post Hpre. exfalso.
    assert (CUpstreamPeer ∈ t) as Hc0 by (rewrite Hpre, elem_of_app; right; constructor).
    rewrite Heq, !elem_of_app, elem_of_cons in Hc0. destruct Hc0 as [[Hc0|[Hc0|Hc0]]|[Hc0|Hc0]]; try done.
    - by eapply (not_in Hm) in Hc0.
    - by apply not_elem_of_nil in Hc0.
    - by eapply (not_in Hrep) in Hc0.
    - by eapply (not_in Hc) in Hc0. }
  destruct (tries_outcomes _ _ _ _ Htries) as (_ & Hn & Hret & Hatt & -> & _ & Hstop).
  split_and!; try done.
  - intros pre post Hpre. rewrite Heq, <- app_assoc in Hpre. apply in_prefix in Hpre as (k & ->).
    + rewrite elem_of_app. by left.
    + by apply (not_in Hm).
  - intros o Ho Hst. rewrite Hserve, Ho; [done|]. intros Hst'. apply Hst. rewrite Heq, !elem_of_app. auto.
  - intros e en _. rewrite Heq, !elem_of_app, elem_of_cons. intros [[Hc0|[Hc0|Hc0]]|[Hc0|Hc0]]; try done.
    + by eapply (not_in Hm) in Hc0.
    + by eapply (not_in H1) in Hc0.
    + by eapply Hen.
    + by eapply (not_in Hc) in Hc0.
Qed.

(** ** The default policy *)

Section default_policy.
Context (is_idempotent retry_buffer_truncated : @Flow.PSession HMapT Down * Ctx -> bool) (display : Peer -> string).
Hypothesis default_error : error_while_proxy P = default_error_while_proxy is_idempotent retry_buffer_truncated display.
Hypothesis no_replay : forall x, is_idempotent x = false \/ retry_buffer_truncated x = true.

(** An error while proxying is then never retried. *)
Lemma replay_refused p e reused x : eretry (error_while_proxy P p e reused x).1 = Decided false.
Proof.
  rewrite default_error. unfold default_error_while_proxy.
  destruct (no_replay x) as [-> | ->]; [|rewrite orb_true_r]; by destruct (more_context e _).
Qed.

Lemma retried_before_sending t reuse e e' :
  round t (reuse, Some e) -> decides e e' true -> omap attempt_of t = [].
Proof.
  intros Hr [He Hd]. inversion Hr as [| | |p k reused after reuse0 e0 x Hafter]; subst; try done. exfalso.
  pose proof (replay_refused p e0 reused x) as Hf. destruct He as [-> | ->]; [congruence|].
  revert Hd. by destruct (error_while_proxy P p e0 reused x).1.
Qed.

Lemma tries_send_once prev n t r : tries prev n t r -> (length (omap attempt_of t) <= 1)%nat.
Proof.
  induction 1 as [prev|prev n t reuse Hr|prev n t reuse e e' Hr|prev n t reuse e e' t' r Hr Hd _ IH]; simpl; [lia|..];
    rewrite !omap_app; csimpl; rewrite ?app_nil_r.
  - by destruct (round_calls _ _ Hr) as (_ & _ & ?).
  - by destruct (round_calls _ _ Hr) as (_ & _ & ?).
  - by rewrite (retried_before_sending _ _ _ _ Hr Hd).
Qed.

(** C12: Under the default [error_while_proxy], a request that must not be replayed
    - its method is not idempotent, or the buffer kept for retries lost a part of
    its body - is sent to at most one upstream, however many retries are configured:
    what is retried are only failures to select an upstream or to connect. *)
Theorem default_policy_once s r s' :
  calls s = [] -> process_request P s = Val r s' -> (length (omap attempt_of (calls s')) <= 1)%nat.
Proof.
  intros Hs Hr. destruct (process_request_emits _ _ _ Hr) as (t & -> & Ha). rewrite Hs. simpl.
  destruct (account_parts _ _ Ha) as (more & t1 & rest & oe & after & -> & Hm & H1 & Hrep & Hc & Hup & _).
  rewrite !omap_app. csimpl. skip Hm. skip Hrep. skip Hc. rewrite !app_nil_r. simpl.
  destruct Hup as [-> |(o & Htries & _)]; [simpl; lia|]. by eapply tries_send_once.
Qed.
End default_policy.

(** ** Requests are answered *)

Abbreviation Cache := (@HttpCache.HttpCache HMapT).

(** The cache is in a state its methods leave it in; a stale asset has its
    metadata; a write permit is held only after the lookup began. *)
Definition ready (h : Cache) : bool :=
  wf h && implb (has_staled_asset (HttpCache.phase h)) (meta_set h) &&
  implb (holds_write h) (negb (bool_decide (HttpCache.phase h = Uninit))).

Definition ready_session (s : @Flow.PSession HMapT Down) : Prop := ready (HttpCache.cache (p_cache s)) = true.

(** What a callback or another part makes of the session and the context. *)
Inductive part_step : @Flow.PSession HMapT Down * Ctx -> @Flow.PSession HMapT Down * Ctx -> Prop :=
| step_early x : part_step x (early_request_filter P x).2
| step_header x : part_step x (request_header_filter P x).2
| step_filter x : part_step x (request_filter P x).2
| step_cache x : part_step x (proxy_cache P x).2
| step_upstream x : part_step x (proxy_upstream_filter P x).2
| step_peer x : part_step x (upstream_peer P x).2
| step_connect p x : part_step x (get_http_session P p x).2
| step_h1 p b x : part_step x (proxy_to_h1_upstream P p b x).2
| step_h2 p b x : part_step x (proxy_to_h2_upstream P p b x).2
| step_custom p b x : part_step x (proxy_to_custom_upstream P p b x).2
| step_connect_failed p e x : part_step x (fail_to_connect P p e x).2
| step_proxy_failed p e b x : part_step x (error_while_proxy P p e b x).2
| step_stale e x : part_step x (handle_stale_if_error P e x).2
| step_bad_gateway x : part_step x (write_bad_gateway P x).2
| step_fail e x : part_step x (fail_to_proxy P e x).2
| step_log e x : part_step x (logging P e x).

Definition decided (e : Error) : Prop := exists b, eretry e = Decided b.

(** What the proxy relies on. *)
Record relied_on : Prop := {
  parts_keep_ready : forall x x', part_step x x' -> ready_session x.1 -> ready_session x'.1;
  peer_errors_decided : forall x e, (upstream_peer P x).1 = inr e -> decided e;
  connect_errors_decided : forall p e x, decided (fail_to_connect P p e x).1;
  proxy_errors_decided : forall p e b x, decided (error_while_proxy P p e b x).1
}.

Definition returns {A} (m : Prelude.M St Error A) (Q : A -> Prop) : Prop :=
  forall s, ready_session (x s).1 -> exists a s', m s = Val a s' /\ ready_session (x s').1 /\ Q a.

Lemma returns_bind {A B} (m : Prelude.M St Error A) (k : A -> Prelude.M St Error B) (Q : A -> Prop) (R : B -> Prop) :
  returns m Q -> (forall a, Q a -> returns (k a) R) -> returns (bind m k) R.
Proof.
  intros Hm Hk s Hs. destruct (Hm s Hs) as (a & s1 & Hr & Hs1 & Ha).
  destruct (Hk a Ha s1 Hs1) as (b & s2 & Hr2 & Hs2 & Hb). exists b, s2. unfold bind. by rewrite Hr.
Qed.

Lemma returns_ret {A} (a : A) (Q : A -> Prop) : Q a -> returns (ret a) Q.
Proof. intros Ha s Hs. by exists a, s. Qed.
Lemma returns_note c : returns (note c) (fun _ => True).
Proof. intros s Hs. by eexists _, _. Qed.
Lemma returns_session : returns session (fun _ => True).
Proof. intros s Hs. by eexists _, _. Qed.
Lemma returns_ask {A} (f : _ -> A) : returns (ask f) (fun _ => True).
Proof. intros s Hs. by eexists _, _. Qed.
Lemma returns_upd f : (forall s, p_cache (f s) = p_cache s) -> returns (upd f) (fun _ => True).
Proof. intros Hf s Hs. eexists _, _. split; [done|]. split; [|done]. unfold ready_session. simpl. by rewrite Hf. Qed.

Lemma returns_call {A} c (f : _ -> A * _) (Q : A -> Prop) :
  relied_on -> (forall x, part_step x (f x).2) -> (forall x, Q (f x).1) -> returns (call c f) Q.
Proof.
  intros Hrel Hf HQ s Hs. unfold call, bind, note, modify. simpl.
  pose proof (parts_keep_ready Hrel _ _ (Hf (x s)) Hs) as Hs'. pose proof (HQ (x s)) as Ha.
  destruct (f (x s)) as [a x']. by eexists _, _.
Qed.

(** ** The cache *)

Lemma disabled_ready (h : Cache) : wf h = true -> is_disabled (HttpCache.phase h) = true -> ready h = true.
Proof.
  destruct h as [p [[[|] k t pr pu da]|] d]; destruct p; try done; cbn; rewrite ?andb_false_r; try done;
    intros Hwf _; unfold ready; cbn; rewrite ?Hwf, ?andb_true_r; try done.
Qed.

(** Nothing but a panic keeps these methods of the cache from returning. *)
Lemma disable_returns w r (c : HttpCache.Session (M := HMapT)) :
  HttpCache.disable w r c = Panic \/ exists u c', HttpCache.disable w r c = Val u c'.
Proof.
  destruct c as [[p [[[[m va sv mh br st ev ad lc]|] k t pr pu da]|] d] lg]; destruct p;
    exec_unfold; exec_eval; repeat (exec_split; exec_eval); eauto.
Qed.

Lemma can_serve_stale_error_returns w (c : HttpCache.Session (M := HMapT)) :
  HttpCache.can_serve_stale_error w c = Panic \/ exists b, HttpCache.can_serve_stale_error w c = Val b c.
Proof.
  destruct c as [[p [[[[m va sv mh br st ev ad lc]|] k t pr pu da]|] d] lg]; destruct p;
    exec_unfold; exec_eval; repeat (exec_split; exec_eval); eauto.
Qed.

Lemma returns_disable r : writer_reason r = true -> returns (disable_cache P r) (fun _ => True).
Proof.
  intros Hr. eapply returns_bind; [apply returns_note|]. intros _ _ s Hs. unfold on_cache.
  unfold ready_session, ready in Hs. rewrite !andb_true_iff in Hs. destruct Hs as [[Hwf _] Hw].
  destruct (exec_ok (world P) (OpDisable r) (p_cache (x s).1) Hwf) as [Hp Hok]. cbn [run allowed] in Hp, Hok.
  destruct (disable_returns (world P) r (p_cache (x s).1)) as [Hd|(u & c' & Hd)]; rewrite Hd in Hp, Hok |- *.
  - exfalso. cbn in Hp. revert Hp. unfold can_release. rewrite Hr. simpl. rewrite Hw, orb_true_r.
    by destruct r.
  - eexists _, _. split; [done|]. split; [|done]. apply disabled_ready; [done|]. by eapply disable_disables.
Qed.

Lemma returns_stale_question : returns (on_cache (HttpCache.can_serve_stale_error (world P))) (fun _ => True).
Proof.
  intros s Hs. unfold on_cache. pose proof Hs as Hs'. unfold ready_session, ready in Hs.
  rewrite !andb_true_iff in Hs. destruct Hs as [[Hwf Hm] _].
  destruct (exec_ok (world P) OpCanServeStaleError (p_cache (x s).1) Hwf) as [Hp _]. cbn [run allowed] in Hp.
  unfold void, bind in Hp.
  destruct (can_serve_stale_error_returns (world P) (p_cache (x s).1)) as [Hd|(b & Hd)]; rewrite Hd in Hp |- *.
  - by rewrite Hm in Hp.
  - by eexists _, _.
Qed.


(** ** The operations *)

Hypothesis Hrel : relied_on.

Lemma returns_part {A} c (f : _ -> A * _) : (forall x, part_step x (f x).2) -> returns (call c f) (fun _ => True).
Proof. intros Hf. by apply returns_call. Qed.

Lemma returns_if {A} (b : bool) (m1 m2 : Prelude.M St Error A) (Q : A -> Prop) :
  returns m1 Q -> returns m2 Q -> returns (if b then m1 else m2) Q.
Proof. by destruct b. Qed.

(** Follows the code; what is left are the operations called. *)
Ltac follow :=
  lazymatch goal with
  | |- returns (bind _ _) _ => eapply (returns_bind _ _ (fun _ => True)); [follow|intros ? _; follow]
  | |- returns (ret _) (fun _ => True) => by apply returns_ret
  | |- returns (note _) _ => apply returns_note
  | |- returns session _ => apply returns_session
  | |- returns (ask _) _ => apply returns_ask
  | |- returns (upd _) _ => apply returns_upd; done
  | |- returns (call _ _) (fun _ => True) => apply returns_part; intros; by constructor
  | |- returns (disable_cache _ _) _ => apply returns_disable
  | |- returns (on_cache (HttpCache.can_serve_stale_error _)) _ => apply returns_stale_question
  | |- returns (if _ then _ else _) _ => apply returns_if; follow
  | |- returns (match ?o with _ => _ end) _ => destruct o; follow
  | |- _ => idtac
  end.

Lemma returns_downgrade p e : returns (downgrade P p e) (fun _ => True).
Proof. unfold downgrade. follow. Qed.

Lemma returns_attempt p k b : returns (attempt P p k b) (fun _ => True).
Proof. unfold attempt. follow. apply returns_downgrade. Qed.

Lemma returns_proxy : returns (proxy_to_upstream P) (fun r => forall e, r.2 = Some e -> decided e).
Proof.
  unfold proxy_to_upstream. eapply (returns_bind _ _ (fun r => forall e, r = inr e -> decided e)).
  { apply returns_call; [done|intros; by constructor|]. apply (peer_errors_decided Hrel). }
  intros [p|e] He; [|apply returns_ret; intros ? [= <-]; by apply He].
  eapply (returns_bind _ _ (fun _ => True)); [follow|]. intros [[k b]|e] _.
  - eapply (returns_bind _ _ (fun _ => True)); [apply returns_attempt|]. intros [server [e|]] _.
    + eapply (returns_bind _ _ decided).
      { apply returns_call; [done|intros; by constructor|]. apply (proxy_errors_decided Hrel). }
      intros e' He'. apply returns_ret. by intros ? [= <-].
    + by apply returns_ret.
  - eapply (returns_bind _ _ decided).
    { apply returns_call; [done|intros; by constructor|]. apply (connect_errors_decided Hrel). }
    intros e' [b He']. apply returns_ret. intros ? [= <-]. exists b. by destruct e'.
Qed.

Lemma returns_retry_allowed : returns (cache_fill_retry_allowed P) (fun _ => True).
Proof. unfold cache_fill_retry_allowed. follow. Qed.

Lemma returns_tries n : forall reuse e, returns (try_upstreams P n reuse e) (fun _ => True).
Proof.
  induction n as [|n IH]; intros reuse0 e0; cbn [try_upstreams]; [by apply returns_ret|].
  eapply returns_bind; [apply returns_proxy|]. intros [reuse [e|]] He; [|follow].
  destruct (He e eq_refl) as [b Hb].
  eapply (returns_bind _ _ (fun _ => True)); [apply returns_retry_allowed|]. intros allowed _.
  set (e' := if allowed then e else set_retry false e).
  assert (exists b', eretry e' = Decided b') as [b' Hb'] by (unfold e'; destruct allowed, e; eauto).
  rewrite Hb'. simpl. eapply (returns_bind _ _ (fun _ => True)); [by apply returns_ret|]. intros ? _. follow. apply IH.
Qed.

Lemma returns_log oe : returns (log_request P oe) (fun _ => True).
Proof. unfold log_request. follow. Qed.
Lemma returns_failure e : returns (proxy_failure P e) (fun _ => True).
Proof. unfold proxy_failure. follow. Qed.
Lemma returns_reuse : returns (reuse_stream P) (fun _ => True).
Proof. unfold reuse_stream. follow. Qed.
Lemma returns_finish b oe : returns (finish P b oe) (fun _ => True).
Proof. unfold finish. follow; auto using returns_log, returns_failure, returns_reuse. Qed.
Lemma returns_cleanup : returns cleanup_sub_req (fun _ => True).
Proof. unfold cleanup_sub_req. follow. Qed.
Lemma returns_fail e : returns (fail_request P e) (fun _ => True).
Proof. unfold fail_request. follow. Qed.
Lemma returns_handle e : returns (handle_error P e) (fun _ => True).
Proof.
  unfold handle_error. follow; auto using returns_fail, returns_log, returns_cleanup, returns_failure, returns_reuse.
Qed.

Lemma returns_report e : returns (report_error P e) (fun _ => True).
Proof.
  unfold report_error. follow; [|apply returns_fail].
  unfold cache_failure_reason. destruct (is_cache_fill_cancellation _ _), (bool_decide (esource e = Errors.Upstream)); done.
Qed.

Lemma returns_to_upstream : returns (to_upstream P) (fun _ => True).
Proof.
  unfold to_upstream, serve_stale. follow; auto using returns_tries, returns_report, returns_finish.
Qed.

Lemma returns_declined : returns (declined P) (fun _ => True).
Proof. unfold declined. follow; auto using returns_finish, returns_handle. Qed.

Lemma returns_after_filters : returns (after_filters P) (fun _ => True).
Proof.
  unfold after_filters.
  follow; auto using returns_finish, returns_handle, returns_to_upstream, returns_declined, returns_cleanup.
Qed.

(** C13: Every request is answered or given up in order.  When the callbacks and the
    other parts leave the cache in a state it can be in, and an error of selecting,
    connecting to or talking to an upstream says whether it may be retried, then
    processing a request returns: it neither panics nor leaves with an error, and
    the cache is again in such a state. *)
Theorem request_processed s :
  ready_session (x s).1 -> exists r s', process_request P s = Val r s' /\ ready_session (x s').1.
Proof.
  intros Hs. assert (returns (process_request P) (fun _ => True)) as Hp.
  { unfold process_request, set_handles_downstream_abandonment.
    follow; auto using returns_log, returns_cleanup, returns_reuse, returns_handle, returns_after_filters. }
  destruct (Hp s Hs) as (r & s' & ? & ? & _). eauto.
Qed.

End flow.

(** ** Runs *)

(** An application with the default policy, whose upstreams are reached on pooled
    connections and closed on it [failures] times; the context counts attempts. *)
Definition closed : Error := mkError ConnectionClosed Errors.Upstream ReusedOnly None None.

Definition sample (idempotent : bool) (failures : nat) (limit : Z) : @Flow.Parts fields unit nat unit unit unit := {|
  early_request_filter x := (inl tt, x);
  allow_spawning_subrequest _ := false;
  should_handle_downstream_abandonment _ := false;
  request_filter x := (inl false, x);
  proxy_upstream_filter x := (inl true, x);
  upstream_peer x := (inl tt, x);
  fail_to_connect _ e x := (set_retry false e, x);
  error_while_proxy := default_error_while_proxy (fun _ => idempotent) (fun _ => false) (fun _ => "origin"%string);
  fail_to_proxy e x := (MkFail 502 false, x);
  logging _ x := x;
  persist_connection_context _ := None;
  request_header_filter x := (inl tt, x);
  proxy_cache x := (None, x);
  handle_stale_if_error _ x := (None, x);
  get_http_session _ x := (inl (KH1, true), x);
  proxy_to_h1_upstream _ _ x :=
    if Nat.ltb x.2 failures then ((false, false, Some closed), (x.1, S x.2)) else ((true, true, None), (x.1, S x.2));
  proxy_to_h2_upstream _ _ x := ((true, None), x);
  proxy_to_custom_upstream _ _ x := ((true, true, None), x);
  write_bad_gateway x := (inl tt, x);
  response_written _ := true;
  is_response_complete _ := true;
  is_body_complete d := (true, d);
  set_idle_watches_response_receiver _ d := d;
  on_proxy_failure _ d := d;
  finish_session _ := inl (Some tt);
  allows_h1 _ := true;
  max_retries := limit;
  world := empty_world
|}.

Definition arrived : @Flow.State fields unit nat unit :=
  MkState (MkPSession new_session false false None tt, 0%nat) [].

Definition trace (P : @Flow.Parts fields unit nat unit unit unit) : option (option (unit * option unit) * @Flow.State fields unit nat unit) :=
  match process_request P arrived with Val r s => Some (r, s) | _ => None end.

(** Two attempts with two allowed: one retry, and the second error is the client's. *)
Definition failed_run := Eval vm_compute in trace (sample true 2 2).

Lemma sample_relied_on idempotent failures limit : relied_on (sample idempotent failures limit).
Proof.
  split.
  - intros x x' [] Hx; try exact Hx. simpl. by destruct (Nat.ltb _ _).
  - done.
  - intros p e x0. exists false. by destruct e.
  - intros p e b x0. simpl. unfold default_error_while_proxy. destruct idempotent; simpl.
    + destruct e as [t sr [] c y]; eexists; done.
    + exists false. by destruct e.
Qed.

Lemma request_accounted_witness :
  match failed_run with
  | Some (r, s') => exists before oe after,
      calls s' = before ++ CLogging oe :: after /\ omap log_of (calls s') = [oe] /\
      omap failure_of after = option_list oe
  | None => False
  end.
Proof.
  unfold failed_run. edestruct (request_accounted (sample true 2 2) arrived) as (b & oe & a & Hc & Hl & _ & Hf & _).
  - reflexivity.
  - vm_compute. reflexivity.
  - exists b, oe, a. split; [exact Hc|]. split; [exact Hl|exact Hf].
Defined.

Lemma upstream_attempts_witness :
  match failed_run with
  | Some (r, s') => (length (omap outcome_of (calls s')) <= 2)%nat /\ retried (omap outcome_of (calls s')) /\
      length (omap attempt_of (calls s')) = 2%nat
  | None => False
  end.
Proof.
  unfold failed_run. edestruct (upstream_attempts (sample true 2 2) arrived) as (Hn & Hr & _).
  - reflexivity.
  - vm_compute. reflexivity.
  - split; [exact Hn|]. split; [exact Hr|reflexivity].
Defined.

Definition refused_run := Eval vm_compute in trace (sample false 2 2).

Lemma default_policy_once_witness :
  match refused_run with
  | Some (r, s') => (length (omap attempt_of (calls s')) <= 1)%nat
  | None => False
  end.
Proof.
  unfold refused_run. eapply (default_policy_once (sample false 2 2)).
  - reflexivity.
  - intros x0. by left.
  - instantiate (1 := arrived). reflexivity.
  - vm_compute. reflexivity.
Defined.

Lemma request_processed_witness :
  exists r s', process_request (sample true 1 16) arrived = Val r s' /\ ready_session (x s').1.
Proof. apply request_processed; [apply sample_relied_on|reflexivity]. Defined.

(** [max_retries] counts attempts: with 1 an error that allows a retry is not
    retried, and with 0 no upstream is tried, nothing is answered and the request
    is logged as if it had gone well. *)
Example one_retry_is_none :
  match trace (sample true 1 1) with
  | Some (r, s') => omap outcome_of (calls s') = [(false, Some (set_retry true (more_context closed "Peer: origin")))]
  | None => False
  end.
Proof. vm_compute. reflexivity. Qed.

Example no_retries_no_answer :
  match trace (sample true 0 0) with
  | Some (r, s') => r = None /\ calls s' =
      [CEarlyRequestFilter; CRequestHeaderFilter; CRequestFilter; CProxyCache; CProxyUpstreamFilter; CLogging None]
  | None => False
  end.
Proof. vm_compute. done. Qed.
