(* ===== verification/CacheFill.v ===== *)
(** * Filling the cache from a response

    [cache_http_task], [finish_miss_handler_best_effort], [revalidate_or_stale] and
    [handle_stale_if_error] of [src/pingora-proxy/src/proxy_cache.rs], and the step of
    the response filters of [proxy_h1.rs] that caches a task before anything else
    is done with it: how the tasks of an upstream response drive the [HttpCache] of
    the request, from the decision whether the response is kept to the end of its
    body, and when a stored response answers instead.

    What the application's callbacks and the storage answer while one task is
    processed are its [Answers].  The callbacks do not change the session,
    [cache_miss] apart, which runs on the cache.  The writes that the miss handlers
    took are kept in order. *)

From stdpp Require Import base list numbers strings pretty.
From Stdlib Require Import ZArith Lia.
From S2P Require Import Prelude Errors Headers Framing CacheControl CacheMeta CacheKey HttpCache Storage Range ServeCache RequestFlow.
Local Open Scope Z_scope.

Module Fill.
Section fill.
Context {HMapT : Type} `{HeaderMap HMapT} {Down : Type}.
Notation Meta := (CacheMeta HMapT).
Notation Cache := (Prelude.M (@HttpCache.Session HMapT) Error).
Notation PSession := (@Flow.PSession HMapT Down).

(** [HttpTask], with the head of a response as the cache keeps it. *)
Inductive Task :=
| THeader (header : ResponseHeader HMapT) (version : Version) (end_stream : bool)
| TBody (data : option (list byte)) (end_stream : bool)
| TUpgradedBody (data : option (list byte)) (end_stream : bool)
| TTrailer (trailers : option HMapT)
| TDone
| TFailed (e : Error).

Definition task_end (t : Task) : bool :=
  match t with
  | THeader _ _ e | TBody _ e | TUpgradedBody _ e => e
  | TTrailer _ | TDone | TFailed _ => true
  end.

(** What is asked of the downstream session. *)
Variable response_written : Down -> bool.
Variable req_method : Down -> Method.

Record Answers := MkAnswers {
  a_world : @World HMapT;
  a_write_body : MissHandler -> list byte -> bool -> unit + Error;
  a_response_cache_filter : ResponseHeader HMapT -> RespCacheable HMapT + Error;
  a_cache_vary_filter : Meta -> option HashBinary;
  a_cache_miss : Cache unit;
  a_upstream_response_filter : ResponseHeader HMapT -> ResponseHeader HMapT * option Error;
  a_should_serve_stale : option Error -> bool
}.

Record Filling := MkFilling {
  f_session : PSession;
  ignore_downstream_range : bool;
  serve_from_cache : Serve.ServeFromCache;
  writes : list (MissHandler * list byte * bool)
}.

Definition FM (A : Type) : Type := Prelude.M Filling Error A.

Definition f_cache (f : Filling) : @HttpCache HMapT := cache (Flow.p_cache (f_session f)).

Definition set_fill_session (s : PSession) (f : Filling) : Filling :=
  MkFilling s (ignore_downstream_range f) (serve_from_cache f) (writes f).
Definition set_ignore_range (b : bool) (f : Filling) : Filling :=
  MkFilling (f_session f) b (serve_from_cache f) (writes f).
Definition set_serve (s : Serve.ServeFromCache) (f : Filling) : Filling :=
  MkFilling (f_session f) (ignore_downstream_range f) s (writes f).
Definition push_write (mh : MissHandler) (d : list byte) (eof : bool) (f : Filling) : Filling :=
  MkFilling (f_session f) (ignore_downstream_range f) (serve_from_cache f) (writes f ++ [(mh, d, eof)]).

(** A method of the session's [HttpCache]. *)
Definition with_cache (f : Filling) (c : @HttpCache.Session HMapT) : Filling :=
  set_fill_session (Flow.set_p_cache c (f_session f)) f.
Definition on_cache {A} (m : Cache A) : FM A := fun f =>
  match m (Flow.p_cache (f_session f)) with
  | Val a c => Val a (with_cache f c)
  | Fail e c => Fail e (with_cache f c)
  | Cancelled c => Cancelled (with_cache f c)
  | Panic => Panic
  end.

Definition ask {A} (q : Filling -> A) : FM A := let! f := get in ret (q f).
Definition is_enabled : FM bool := ask (fun f => enabled (f_cache f)).
Definition is_bypassing : FM bool := ask (fun f => bypassing (f_cache f)).

(** The error as a value. *)
Definition caught {A} (m : FM A) : FM (A + Error) := fun f =>
  match m f with
  | Val a f' => Val (inl a) f'
  | Fail e f' => Val (inr e) f'
  | Cancelled f' => Cancelled f'
  | Panic => Panic
  end.

Variable a : Answers.
Let w := a_world a.

(** ** The end of an admission *)

Definition finish_miss_handler_best_effort : FM unit :=
  let! r := caught (on_cache (finish_miss_handler w)) in
  match r with
  | inl _ => ret tt
  | inr error =>
      let! s := ask f_session in
      if Flow.downstream_abandoned_during_cache_fill s && Flow.is_cache_fill_cancellation s error then
        do! on_cache (disable w (CustomReason Flow.REASON_CACHE_FILL_CANCELLED));
        fail (set_retry false error)
      else on_cache (disable w (Flow.cache_failure_reason s error StorageError))
  end.

(** [miss_handler().unwrap().write_body(..).await?]. *)
Definition write_body (d : list byte) (eof : bool) : FM unit :=
  let! o := on_cache miss_handler in
  let! mh := unwrap o in
  match a_write_body a mh d eof with
  | inl _ => modify (push_write mh d eof)
  | inr e => fail e
  end.

(** ** The header *)

Definition ERR_RESPONSE_TOO_LARGE : ErrorType := Errors.Custom "response too large".

Definition is_informational (status : Z) : bool := (100 <=? status) && (status <? 200).

(** [session.cache.predicted_uncacheable_reason()]. *)
Definition predicted_reason (h : @HttpCache HMapT) : option NoCacheReason :=
  inner h ≫= predicted_uncacheable_reason.

(** What a bypassed request does with a cacheable response.  [None]: leave at once;
    else whether the cache is filled. *)
Definition on_bypass (m : Meta) : FM (option bool) :=
  let! reason := ask (fun f => predicted_reason (f_cache f)) in
  let bypassed_over_size :=
    match reason with Some r => bool_decide (r = ResponseTooLarge) | None => true end in
  let! max := (if bypassed_over_size then on_cache max_file_size_bytes else ret None) in
  if bypassed_over_size && bool_decide (is_Some max) &&
     negb (contains_key (headers (header m)) (bytes_of "content-length"))
  then do! on_cache (disable w PredictedResponseTooLarge); ret None
  else
    do! on_cache response_became_cacheable;
    let! f := get in
    if bool_decide (req_method (Flow.downstream_session (f_session f)) = GET) && (status (header m) =? 200) then
      do! on_cache (a_cache_miss a);
      let! en := is_enabled in
      if en : bool then ret (Some true)
      else
        do! modify (fun f => if Flow.handles_downstream_abandonment (f_session f)
                             then set_serve (Serve.decline_fill (serve_from_cache f)) f else f);
        ret (Some false)
    else do! on_cache (disable w Deferred); ret (Some false).

(** The size that the header announces against the limit. *)
Definition check_content_length (m : Meta) (fill_cache : bool) : FM bool :=
  let! en := is_enabled in
  if en : bool then
    let! max := on_cache max_file_size_bytes in
    match max, header_value_content_length (header_get (headers (header m)) (bytes_of "content-length")) with
    | Some max_file_size, Some content_length =>
        if max_file_size <? content_length then
          do! on_cache (response_became_uncacheable ResponseTooLarge);
          do! on_cache (disable w ResponseTooLarge);
          do! modify (set_ignore_range true);
          ret false
        else ret fill_cache
    | _, _ => ret fill_cache
    end
  else ret fill_cache.

Definition start_fill (m : Meta) (end_stream : bool) : FM unit :=
  do! on_cache (set_cache_meta m);
  do! on_cache (update_variance (a_cache_vary_filter a m));
  do! on_cache (set_miss_handler w);
  let! reader := on_cache (miss_body_reader w) in
  do! (if bool_decide (is_Some reader)
       then modify (fun f => set_serve (Serve.enable_miss (serve_from_cache f)) f) else ret tt);
  if end_stream then do! write_body [] true; finish_miss_handler_best_effort else ret tt.

Definition on_cacheable (m : Meta) (end_stream : bool) : FM unit :=
  let! byp := is_bypassing in
  let! fill := (if byp : bool then on_bypass m else ret (Some true)) in
  match fill with
  | None => ret tt
  | Some fill_cache =>
      let! fill_cache := check_content_length m fill_cache in
      if fill_cache : bool then start_fill m end_stream else ret tt
  end.

Definition on_uncacheable (reason : NoCacheReason) : FM unit :=
  let! byp := is_bypassing in
  do! (if byp : bool then ret tt else on_cache (response_became_uncacheable reason));
  on_cache (disable w reason).

Definition on_header (h : ResponseHeader HMapT) (end_stream : bool) : FM unit :=
  if is_informational (status h) && negb (status h =? 101) then ret tt
  else
    match a_response_cache_filter a h with
    | inr e => fail e
    | inl (CacheableResp m) => on_cacheable m end_stream
    | inl (Uncacheable reason) => on_uncacheable reason
    end.

(** ** The body *)

Definition too_large (size max : Z) : Error :=
  explain ERR_RESPONSE_TOO_LARGE
    ("writing data of size " +:+ pretty size +:+ " bytes would exceed max file size of " +:+ pretty max +:+ " bytes").

Definition on_data (d : list byte) (end_stream : bool) : FM unit :=
  let! body_size_allowed := on_cache (track_body_bytes_for_max_file_size (zlen d)) in
  if body_size_allowed : bool then
    do! write_body d end_stream;
    if end_stream then finish_miss_handler_best_effort else ret tt
  else
    do! on_cache (response_became_uncacheable ResponseTooLarge);
    let! max := on_cache max_file_size_bytes in
    let! max := unwrap max in
    fail (too_large (zlen d) max).

Definition on_body (data : option (list byte)) (end_stream : bool) : FM unit :=
  let! en := is_enabled in
  if en : bool then
    match data with
    | Some d => on_data d end_stream
    | None => if end_stream then finish_miss_handler_best_effort else ret tt
    end
  else ret tt.

(** ** A task *)

Definition cache_http_task (t : Task) : FM unit :=
  let! en := is_enabled in
  let! byp := is_bypassing in
  if negb en && negb byp then ret tt
  else
    match t with
    | THeader h _ e => on_header h e
    | TBody data e | TUpgradedBody data e => on_body data e
    | TTrailer _ => ret tt
    | TDone => if en : bool then finish_miss_handler_best_effort else ret tt
    | TFailed _ => ret tt
    end.

(** The response filters cache the task first; a failure disables the cache, and
    fails the request only where the cache is what is served. *)
Definition cache_task (t : Task) : FM unit :=
  let! en := is_enabled in
  let! byp := is_bypassing in
  if en || byp then
    let! r := caught (cache_http_task t) in
    match r with
    | inl _ => ret tt
    | inr e =>
        let! s := ask f_session in
        do! on_cache (disable w (Flow.cache_failure_reason s e StorageError));
        let! f := get in
        if Serve.cache_write_failure_is_fatal (serve_from_cache f)
             (Flow.downstream_abandoned_during_cache_fill (f_session f))
        then fail e else ret tt
    end
  else ret tt.

(** ** The stored response instead *)

Definition REASON_304_ON_MISS : NoCacheReason := CustomReason (bytes_of "304 on miss").

Definition is_server_error (status : Z) : bool := (500 <=? status) && (status <? 600).

Definition set_old_variance (old m : Meta) : Meta :=
  match variance (internal old) with Some v => set_variance m v | None => m end.

(** A 304 for a response that is stored. *)
Definition revalidated (resp : ResponseHeader HMapT) : FM unit :=
  let '(resp, err) := a_upstream_response_filter a resp in
  match err with
  | Some _ => on_cache (revalidate_uncacheable w resp CacheMeta.InternalError)
  | None =>
      let! merged_header := on_cache (revalidate_merge_header resp) in
      match a_response_cache_filter a merged_header with
      | inl (CacheableResp m) =>
          let! old_meta := on_cache maybe_cache_meta in
          let! old_meta := unwrap old_meta in
          let! _ := caught (on_cache (revalidate_cache_meta w (set_old_variance old_meta m))) in
          ret tt
      | inl (Uncacheable reason) =>
          do! on_cache (response_became_uncacheable reason);
          on_cache (revalidate_uncacheable w merged_header reason)
      | inr _ => on_cache (revalidate_uncacheable w merged_header CacheMeta.InternalError)
      end
  end.

Definition status_error (status : Z) : Error := create (HTTPStatus status) Errors.Upstream None None.

(** May the stored response be sent in place of an error? *)
Definition may_serve_stale (e : Error) : FM bool :=
  let! can := on_cache (can_serve_stale_error w) in
  let! f := get in
  ret (can && negb (response_written (Flow.downstream_session (f_session f))) && a_should_serve_stale a (Some e)).

Definition revalidate_or_stale (t : Task) : FM bool :=
  let! en := is_enabled in
  if negb en then ret false
  else
    match t with
    | THeader resp _ _ =>
        if status resp =? 304 then
          let! m := on_cache maybe_cache_meta in
          match m with
          | Some _ => do! revalidated resp; ret true
          | None =>
              do! on_cache (response_became_uncacheable REASON_304_ON_MISS);
              do! on_cache (disable w REASON_304_ON_MISS);
              ret false
          end
        else if is_server_error (status resp) then
          let! stale := may_serve_stale (status_error (status resp)) in
          if stale : bool then do! on_cache (release_write_lock w UpstreamError); ret true
          else ret false
        else ret false
    | _ => ret false
    end.

(** [hit]: [proxy_cache_hit]. *)
Definition handle_stale_if_error (hit : FM (bool * option Error)) (e : Error) : FM (option (bool * option Error)) :=
  let! stale := may_serve_stale e in
  if stale : bool then
    do! on_cache (release_write_lock w UpstreamError);
    let! outcome := hit in
    ret (Some outcome)
  else ret None.

End fill.

(** ** A response *)

Section response.
Context {HMapT : Type} `{HeaderMap HMapT} {Down : Type}.
Variable req_method : Down -> Method.

(** The tasks of a response in order, each with the answers it meets; an error ends it. *)
Fixpoint cache_tasks (ts : list (@Answers HMapT * @Task HMapT)) : @FM HMapT Down unit :=
  match ts with
  | [] => ret tt
  | (a, t) :: ts => do! cache_task req_method a t; cache_tasks ts
  end.

End response.
End Fill.
