(* ===== verification/CacheFillSpec.v ===== *)
(** * What filling the cache does

    The tasks of a response against the state machine of [HttpCache]: whatever the
    storage and the application answer, no call panics, a response is committed
    only whole and once, and when it has ended neither a writer nor a lock is
    left; and when the stored response answers for an upstream one. *)

From stdpp Require Import base list numbers strings pretty countable gmap.
From Stdlib Require Import ZArith Lia.
From S2P Require Import Prelude Errors Headers Framing CacheControl CacheMeta CacheMetaSpec CacheKey HttpCache HttpCacheSpec Storage Range ServeCache RequestFlow CacheFill.
Import Fill.
Local Open Scope Z_scope.

(** ** The calls to the cache *)

Section calls.
Context {HMapT : Type} `{HeaderMap HMapT}.
Notation Sess := (@Session HMapT).
Notation Meta := (CacheMeta HMapT).

(** The miss handlers that were finished. *)
Definition committed (e : @Event HMapT) : option MissHandler :=
  match e with EvFinishMiss mh _ _ _ _ _ => Some mh | _ => None end.
Definition commits (l : list (@Event HMapT)) : list MissHandler := omap committed l.

Lemma commits_snoc l e : commits (l ++ [e]) = commits l ++ option_list (committed e).
Proof. unfold commits. rewrite omap_app. simpl. by destruct (committed e). Qed.

(** A cache in use: its phase, metadata, miss handler and lock, and what it has
    committed. *)
Definition at_fill (p : CachePhase) (m : option Meta) (mh : option MissHandler) (lk : option Locked)
    (cs : list MissHandler) (c : Sess) : Prop :=
  exists va sv br st ev ad lc k t pr pu da d lg,
    c = MkSession (MkHttpCache p (Some (MkInner (Some (MkEnabled m va sv mh br st ev ad lc)) (Some k) t pr pu da)) d) lg /\
    lc ≫= lock = lk /\ commits lg = cs.

Definition off (cs : list MissHandler) (c : Sess) : Prop :=
  wf (cache c) = true /\ is_disabled (phase (cache c)) = true /\ commits (log c) = cs.

Definition tracker_of (c : Sess) : option MaxFileSizeTracker := inner (cache c) ≫= max_file_size_tracker.

Notation safe m Q c := (wp m Q (fun _ _ => False) (fun _ => False) c).

Ltac open_fill H :=
  destruct H as (va & sv & br & st & ev & ad & lc & k & t & pr & pu & da & d & lg & -> & Hlk & Hcs).
Ltac show_fill := repeat eexists; rewrite ?commits_snoc, ?app_nil_r; simpl; congruence.

Lemma fill_disable w r p m mh lk cs c :
  at_fill p m mh lk cs c -> is_disabled p = false -> p <> Uninit -> writer_reason r = true ->
  safe (disable w r) (fun _ => off cs) c.
Proof.
  intros Hs Hp Hu Hr. open_fill Hs. unfold wp, disable, bind.
  rewrite bool_decide_false by (by destruct r). cbn.
  destruct p; try done; destruct lc as [[[[q|q]|] cl wt mr]|]; cbn -[release_status];
    try (destruct r; try done; cbn; unfold off; cbn; rewrite ?commits_snoc, ?app_nil_r; by split_and!).
Qed.

Lemma off_disable w r cs c : off cs c -> r <> NeverEnabled -> safe (disable w r) (fun _ => off cs) c.
Proof.
  intros (Hw & Hd & Hc) Hr. destruct c as [[p i d] lg]. cbn in *. destruct p as [r0| | | | | | | | | |]; try done.
  unfold wp, disable, bind. rewrite bool_decide_false by done. cbn.
  destruct (decide (r0 = NeverEnabled)) as [->|Hn]; [rewrite bool_decide_true by done|rewrite bool_decide_false by done].
  - done.
  - cbn. unfold off. cbn. split_and!; [|done..]. destruct i as [[[?|] ?]|]; cbn in *; try done.
    + by rewrite andb_false_r in Hw.
    + by rewrite bool_decide_false.
    + by rewrite bool_decide_false in Hw.
Qed.

Lemma fill_finish w p m mh lk cs c :
  at_fill p (Some m) (Some mh) lk cs c -> fill_phase p = true ->
  wp (finish_miss_handler w) (fun _ => at_fill p (Some m) None None (cs ++ [mh]))
    (fun _ => at_fill p (Some m) None None (cs ++ [mh])) (fun _ => False) c.
Proof.
  intros Hs Hp. open_fill Hs. unfold wp, finish_miss_handler, bind.
  destruct p; try done; destruct lc as [[[[q|q]|] cl wt mr]|]; cbn -[to_compact]; destruct (w_miss_finish w mh); cbn -[to_compact];
    repeat eexists; rewrite ?commits_snoc; simpl; rewrite ?app_nil_r; try congruence; by rewrite Hcs.
Qed.

Lemma fill_finish_none w p m lk cs c :
  at_fill p (Some m) None lk cs c -> fill_phase p = true -> finish_miss_handler w c = Val tt c.
Proof. intros Hs Hp. open_fill Hs. by destruct p. Qed.

(** A size over the limit has a limit. *)
Lemma fill_track p m mh lk cs n c :
  at_fill p m mh lk cs c -> is_disabled p = false ->
  safe (track_body_bytes_for_max_file_size n)
    (fun ok c' => at_fill p m mh lk cs c' /\ (ok = false -> is_Some (tracker_of c'))) c.
Proof.
  intros Hs Hp. open_fill Hs. unfold wp, track_body_bytes_for_max_file_size, bind.
  destruct p; try done; destruct t as [t|]; cbn -[add_body_bytes];
    try (destruct (add_body_bytes t n) as [t' ok] eqn:?; cbn); (split; [show_fill|done]).
Qed.

Lemma fill_max p m mh lk cs c :
  at_fill p m mh lk cs c -> is_disabled p = false ->
  max_file_size_bytes c = Val (max_size <$> tracker_of c) c.
Proof. intros Hs Hp. open_fill Hs. by destruct p. Qed.

Lemma fill_uncacheable p m mh lk cs r c :
  at_fill p m mh lk cs c -> is_disabled p = false -> p <> Uninit ->
  safe (response_became_uncacheable r) (fun _ c' => at_fill p m mh lk cs c' /\ cache c' = cache c) c.
Proof.
  intros Hs Hp Hu. open_fill Hs. unfold wp, response_became_uncacheable, bind.
  destruct p; try done; destruct pr as [pr|]; cbn; (split; [show_fill|done]).
Qed.

Lemma fill_cacheable p m mh lk cs c :
  at_fill p m mh lk cs c -> is_disabled p = false -> p <> Uninit ->
  safe response_became_cacheable (fun _ => at_fill p m mh lk cs) c.
Proof.
  intros Hs Hp Hu. open_fill Hs. unfold wp, response_became_cacheable, bind.
  destruct p; try done; destruct pr as [pr|]; cbn; show_fill.
Qed.

Lemma bypass_miss m mh lk cs c : at_fill Bypass m mh lk cs c -> safe cache_miss (fun _ => at_fill Miss None mh lk cs) c.
Proof. intros Hs. open_fill Hs. cbn. show_fill. Qed.

Lemma fill_set_meta p m m' lk cs c :
  at_fill p m None lk cs c -> p = Miss \/ (p = Stale /\ is_Some m) ->
  safe (set_cache_meta m') (fun _ c' => exists p' m', fill_phase p' = true /\ at_fill p' (Some m') None lk cs c') c.
Proof.
  intros Hs [->|[-> [m0 ->]]]; open_fill Hs; cbn; [exists Miss|exists Expired]; eexists; (split; [done|show_fill]).
Qed.

Lemma fill_variance p m v lk cs c :
  at_fill p (Some m) None lk cs c -> fill_phase p = true ->
  safe (update_variance v) (fun _ c' => exists m' lk', at_fill p (Some m') None lk' cs c') c.
Proof.
  intros Hs Hp. open_fill Hs. unfold wp, update_variance, bind.
  destruct p; try done; cbn -[bool_decide get_variance_key]; (destruct (get_variance_key k) as [old|];
    [destruct (decide (Some old = v)) as [Hv|Hv]; [rewrite (bool_decide_true _ Hv)|rewrite (bool_decide_false _ Hv)]|];
    cbn -[bool_decide]; [do 2 eexists; show_fill| |do 2 eexists; show_fill];
    destruct lc as [[[[q|q]|] cl wt mr]|]; cbn -[bool_decide]; do 2 eexists; show_fill).
Qed.

(** The documentation of [lookup_streaming_write]: a write in progress is found. *)
Definition streams (w : @World HMapT) : Prop :=
  forall st k m mh, w_get_miss_handler w st k m = inl mh -> w_streaming w st = true ->
  w_lookup_streaming w st k (w_streaming_tag w mh) <> inl None.

Lemma fill_set_miss_handler w p m lk cs c :
  streams w -> at_fill p (Some m) None lk cs c -> fill_phase p = true ->
  wp (set_miss_handler w) (fun _ c' => exists mh lk', at_fill p (Some m) (Some mh) lk' cs c')
    (fun _ c' => exists mh lk', at_fill p (Some m) mh lk' cs c') (fun _ => False) c.
Proof.
  intros Hw Hs Hp. open_fill Hs. unfold wp, set_miss_handler, bind.
  pose proof (Hw st k m) as Hst.
  destruct p; try done; cbn; (destruct (w_get_miss_handler w st k m) as [mh|e]; cbn; [|do 2 eexists; show_fill]);
    specialize (Hst mh eq_refl); (destruct (w_streaming w st); cbn; [|do 2 eexists; show_fill]);
    specialize (Hst eq_refl); destruct lc as [[[[q|q]|] cl wt mr]|]; cbn;
    destruct (w_lookup_streaming _ _ _ _) as [[[]|]|]; try done; cbn; do 2 eexists; show_fill.
Qed.

Lemma fill_reader w p m mh lk cs c :
  at_fill p m mh lk cs c -> safe (miss_body_reader w) (fun _ c' => c' = c) c.
Proof. intros Hs. open_fill Hs. by destruct p. Qed.

Lemma fill_handler p m mh lk cs c :
  at_fill p m mh lk cs c -> fill_phase p = true -> HttpCache.miss_handler c = Val mh c.
Proof. intros Hs Hp. open_fill Hs. by destruct p. Qed.

Lemma fill_enabled p m mh lk cs c :
  at_fill p m mh lk cs c -> is_disabled p = false ->
  HttpCache.enabled (cache c) = negb (bool_decide (p = Bypass)) /\ bypassing (cache c) = bool_decide (p = Bypass).
Proof. intros Hs Hp. open_fill Hs. by destruct p. Qed.

Lemma off_enabled cs c : off cs c -> HttpCache.enabled (cache c) = false /\ bypassing (cache c) = false.
Proof. intros (_ & Hd & _). destruct c as [[[] i d] lg]; done. Qed.

End calls.

(** ** One task *)

Section task.
Context {HMapT : Type} `{HeaderMap HMapT} {Down : Type}.
Variable response_written : Down -> bool.
Variable req_method : Down -> Method.
Notation Filling := (@Filling HMapT Down).
Notation Answers := (@Answers HMapT).
Notation Task := (@Task HMapT).
Notation Write := (MissHandler * list byte * bool)%type.

Definition f_sess (f : Filling) : @Session HMapT := Flow.p_cache (f_session f).

(** What the code relies on: the reasons an application gives are ones a writer
    may give, its [cache_miss] is the default or disables the cache, and a storage
    that streams finds the write in progress. *)
Definition sound (a : Answers) : Prop :=
  streams (a_world a) /\
  (forall h r, a_response_cache_filter a h = inl (Uncacheable r) -> writer_reason r = true) /\
  (a_cache_miss a = cache_miss \/
   exists r, writer_reason r = true /\ a_cache_miss a = disable (a_world a) r).

(** The states around a response: before its header, while it is stored, after. *)
Definition ready (cs : list MissHandler) (ws : list Write) (f : Filling) : Prop :=
  (off cs (f_sess f) \/
   exists p m lk, (p = Miss \/ p = Bypass \/ (p = Stale /\ is_Some m)) /\ at_fill p m None lk cs (f_sess f)) /\
  writes f = ws.
Definition storing (mh : MissHandler) (cs : list MissHandler) (ws : list Write) (f : Filling) : Prop :=
  (exists p m lk, fill_phase p = true /\ at_fill p (Some m) (Some mh) lk cs (f_sess f)) /\ writes f = ws.
Definition stored (cs : list MissHandler) (ws : list Write) (f : Filling) : Prop :=
  (off cs (f_sess f) \/ exists p m, fill_phase p = true /\ at_fill p (Some m) None None cs (f_sess f)) /\
  writes f = ws.

Lemma wp_on_cache {A} (m : Prelude.M (@Session HMapT) Error A) Q Qe Qc (f : Filling) :
  wp m (fun a c => Q a (with_cache f c)) (fun e c => Qe e (with_cache f c)) (fun c => Qc (with_cache f c)) (f_sess f) ->
  wp (on_cache m) Q Qe Qc f.
Proof. unfold wp, on_cache, f_sess. by destruct (m _). Qed.

Lemma wp_caught {A} (m : @FM HMapT Down A) (Q : A + Error -> Filling -> Prop) Qe Qc f :
  wp m (fun a => Q (inl a)) (fun e => Q (inr e)) Qc f -> wp (caught m) Q Qe Qc f.
Proof. unfold wp, caught. by destruct (m f). Qed.

Lemma wp_ask {A} (q : Filling -> A) (Q : A -> Filling -> Prop) Qe Qc f : Q (q f) f -> wp (ask q) Q Qe Qc f.
Proof. done. Qed.

(** An error or a value, and the same of both. *)
Abbreviation both m Q f := (wp m (fun _ => Q) (fun _ => Q) (fun _ => False) f).

Lemma failure_reason_writer (s : @Flow.PSession HMapT Down) e :
  writer_reason (Flow.cache_failure_reason s e StorageError) = true.
Proof. unfold Flow.cache_failure_reason. by destruct (Flow.is_cache_fill_cancellation s e). Qed.

(** The storage is asked to finish once, and nothing is open after. *)
Lemma finish_best_effort_ok (a : Answers) mh cs ws f :
  storing mh cs ws f -> both (finish_miss_handler_best_effort a) (stored (cs ++ [mh]) ws) f.
Proof.
  intros [(p & m & lk & Hp & Hs) Hw]. unfold finish_miss_handler_best_effort.
  apply wp_bind, wp_caught, wp_on_cache. eapply wp_mono; [| | |by eapply fill_finish]; [| |done].
  - intros ? c Hc. apply wp_ret. split; [|done]. right. by exists p, m.
  - intros e c Hc. cbv beta iota. apply wp_bind, wp_ask, wp_if; intros _.
    + apply wp_bind, wp_on_cache. eapply wp_mono; [| | |eapply fill_disable; [exact Hc|by destruct p..|done]]; [|done..].
      intros ? c' Ho. apply wp_fail. split; [by left|done].
    + apply wp_on_cache. eapply wp_mono; [| | |eapply fill_disable; [exact Hc|by destruct p..|apply failure_reason_writer]]; [|done..].
      intros ? c' Ho. split; [by left|done].
Qed.

Lemma finish_best_effort_none (a : Answers) p m lk cs f :
  at_fill p (Some m) None lk cs (f_sess f) -> fill_phase p = true ->
  exists f', finish_miss_handler_best_effort a f = Val tt f' /\ f_sess f' = f_sess f /\ writes f' = writes f.
Proof.
  intros Hs Hp. unfold finish_miss_handler_best_effort, caught, bind, on_cache. unfold f_sess in Hs.
  rewrite (fill_finish_none _ _ _ _ _ _ Hs Hp). by eexists.
Qed.

Lemma write_ok (a : Answers) d eof mh cs ws f :
  storing mh cs ws f ->
  wp (write_body a d eof) (fun _ => storing mh cs (ws ++ [(mh, d, eof)])) (fun _ => storing mh cs ws) (fun _ => False) f.
Proof.
  intros [(p & m & lk & Hp & Hs) Hw]. unfold write_body. apply wp_bind, wp_on_cache. unfold wp at 1.
  rewrite (fill_handler _ _ _ _ _ _ Hs Hp). apply wp_bind. eapply wp_unwrap; [done|].
  destruct (a_write_body a mh d eof); [apply wp_modify|apply wp_fail]; (split; [by exists p, m, lk|simpl; by rewrite ?Hw]).
Qed.

(** *** Tasks after the header *)

Definition is_header (t : Task) : bool := match t with THeader _ _ _ => true | _ => false end.
(** The tasks that end an admission. *)
Definition finishing (t : Task) : bool :=
  match t with THeader _ _ e | TBody _ e | TUpgradedBody _ e => e | TDone => true | TTrailer _ | TFailed _ => false end.
Definition task_data (t : Task) : option (list byte) :=
  match t with TBody d _ | TUpgradedBody d _ => d | _ => None end.
Definition task_writes (mh : MissHandler) (t : Task) : list Write :=
  match task_data t with Some d => [(mh, d, finishing t)] | None => [] end.

Definition progress (mh : MissHandler) (cs : list MissHandler) (ws : list Write) (t : Task) (f : Filling) : Prop :=
  (storing mh cs (ws ++ task_writes mh t) f /\ finishing t = false) \/
  (stored (cs ++ [mh]) (ws ++ task_writes mh t) f /\ finishing t = true).

Definition failed (mh : MissHandler) (cs : list MissHandler) (ws : list Write) (t : Task) (f : Filling) : Prop :=
  (exists ws', storing mh cs ws' f) \/ (stored (cs ++ [mh]) (ws ++ task_writes mh t) f /\ finishing t = true).

Lemma storing_enabled mh cs ws f :
  storing mh cs ws f -> HttpCache.enabled (f_cache f) = true /\ bypassing (f_cache f) = false.
Proof.
  intros [(p & m & lk & Hp & Hs) _]. change (f_cache f) with (cache (f_sess f)).
  destruct (fill_enabled _ _ _ _ _ _ Hs) as [-> ->]; [by destruct p|].
  by destruct p.
Qed.

Lemma on_data_ok (a : Answers) d eof mh cs ws f :
  storing mh cs ws f ->
  wp (on_data a d eof) (fun _ => progress mh cs ws (TBody (Some d) eof)) (fun _ => failed mh cs ws (TBody (Some d) eof))
    (fun _ => False) f.
Proof.
  intros [(p & m & lk & Hp & Hs) Hw]. unfold on_data. apply wp_bind, wp_on_cache.
  eapply wp_mono; [| | |eapply (fill_track _ _ _ _ _ (zlen d)); [exact Hs|by destruct p]]; [|done..].
  intros ok c [Hc Hmax]. apply wp_if; intros ->.
  - assert (storing mh cs ws (with_cache f c)) as Hf by (split; [by exists p, m, lk|done]).
    apply wp_bind. eapply wp_mono; [| | |by eapply write_ok]; [|intros ? f' Hf'; left; eexists; exact Hf'|done].
    intros ? f' Hf'. apply wp_if; intros ->; [|apply wp_ret; left; split; [exact Hf'|done]].
    eapply wp_mono; [| | |by eapply finish_best_effort_ok]; [| |done]; intros ? f'' Hf''; right; by split.
  - apply wp_bind, wp_on_cache.
    eapply wp_mono; [| | |eapply (fill_uncacheable _ _ _ _ _ ResponseTooLarge); [exact Hc|by destruct p..]]; [|done..].
    intros ? c' [Hc' Heq]. apply wp_bind, wp_on_cache. unfold wp at 1. change (f_sess (with_cache (with_cache f c) c')) with c'.
    rewrite (fill_max _ _ _ _ _ c' Hc') by (by destruct p). apply wp_bind.
    destruct Hmax as [t Ht]; [done|]. assert (tracker_of c' = Some t) as Ht' by (unfold tracker_of in *; by rewrite Heq).
    eapply wp_unwrap; [by rewrite Ht'|]. apply wp_fail. left. exists ws. split; [by exists p, m, lk|done].
Qed.

Lemma on_body_ok (a : Answers) d eof mh cs ws f :
  storing mh cs ws f ->
  wp (on_body a d eof) (fun _ => progress mh cs ws (TBody d eof)) (fun _ => failed mh cs ws (TBody d eof))
    (fun _ => False) f.
Proof.
  intros Hf. unfold on_body, is_enabled. apply wp_bind, wp_ask. rewrite (proj1 (storing_enabled _ _ _ _ Hf)).
  destruct d as [d|]; [by apply on_data_ok|]. apply wp_if; intros ->.
  - eapply wp_mono; [| | |by eapply finish_best_effort_ok]; [| |done]; intros ? f' Hf'; right;
      (split; [|done]); unfold task_writes; simpl; by rewrite app_nil_r.
  - apply wp_ret. left. unfold task_writes. simpl. by rewrite app_nil_r.
Qed.

Lemma cache_http_task_ok (a : Answers) t mh cs ws f :
  storing mh cs ws f -> is_header t = false ->
  wp (cache_http_task req_method a t) (fun _ => progress mh cs ws t) (fun _ => failed mh cs ws t) (fun _ => False) f.
Proof.
  intros Hf Ht. unfold cache_http_task, is_enabled, is_bypassing. apply wp_bind, wp_ask, wp_bind, wp_ask.
  destruct (storing_enabled _ _ _ _ Hf) as [-> ->]. cbn [negb andb].
  assert (forall t, task_data t = None -> finishing t = false -> progress mh cs ws t f) as Hno.
  { intros t' Hd Hn. left. unfold task_writes. rewrite Hd, app_nil_r. by split. }
  destruct t; try done; try (by apply wp_ret, Hno); try (by apply on_body_ok).
  eapply wp_mono; [| | |by eapply finish_best_effort_ok]; [| |done]; intros ? f' Hf'; right;
    (split; [|done]); unfold task_writes; simpl; by rewrite app_nil_r.
Qed.

Lemma stored_disable (a : Answers) r cs ws f :
  stored cs ws f -> writer_reason r = true ->
  wp (on_cache (disable (a_world a) r)) (fun _ f' => off cs (f_sess f') /\ writes f' = ws) (fun _ _ => False) (fun _ => False) f.
Proof.
  intros [[Ho|(p & m & Hp & Hs)] Hw] Hr; apply wp_on_cache;
    (eapply wp_mono; [| | |first [eapply off_disable; [exact Ho|by destruct r]|eapply fill_disable; [exact Hs|by destruct p..|done]]]);
    try done; intros ? c Hc; by split.
Qed.

Lemma storing_disable (a : Answers) r mh cs ws f :
  storing mh cs ws f -> writer_reason r = true ->
  wp (on_cache (disable (a_world a) r)) (fun _ f' => off cs (f_sess f')) (fun _ _ => False) (fun _ => False) f.
Proof.
  intros [(p & m & lk & Hp & Hs) Hw] Hr. apply wp_on_cache.
  eapply wp_mono; [| | |eapply fill_disable; [exact Hs|by destruct p..|done]]; done.
Qed.

(** The body of a response that is stored; an error leaves the cache off. *)
Lemma cache_task_storing (a : Answers) t mh cs ws f :
  storing mh cs ws f -> is_header t = false ->
  wp (cache_task req_method a t) (fun _ f' => off cs (f_sess f') \/ progress mh cs ws t f')
    (fun _ f' => off cs (f_sess f') \/ (stored (cs ++ [mh]) (ws ++ task_writes mh t) f' /\ finishing t = true))
    (fun _ => False) f.
Proof.
  intros Hf Ht. unfold cache_task, is_enabled, is_bypassing. apply wp_bind, wp_ask, wp_bind, wp_ask.
  destruct (storing_enabled _ _ _ _ Hf) as [-> ->]. cbn [orb].
  apply wp_bind, wp_caught. eapply wp_mono; [| | |by apply cache_http_task_ok]; [| |done].
  - intros ? f' Hp. apply wp_ret. by right.
  - intros e f' Hfail. cbv beta iota. apply wp_bind, wp_ask, wp_bind.
    eapply (wp_mono _ (fun _ f'' => off cs (f_sess f'') \/ (stored (cs ++ [mh]) (ws ++ task_writes mh t) f'' /\ finishing t = true))
      _ (fun _ _ => False) _ (fun _ => False)); [|done..|].
    + intros ? f'' Hf''. apply wp_bind. apply wp_if; intros _; [done|]. destruct Hf''; [by left|by right; right].
    + destruct Hfail as [(ws' & Hst)|[Hst Hfin]].
      * eapply wp_mono; [| | |by eapply storing_disable, failure_reason_writer]; [|done..]. intros ? ? ?. by left.
      * eapply wp_mono; [| | |by eapply stored_disable, failure_reason_writer]; [|done..].
        intros ? ? [Ho Hw]. right. split; [|done]. split; [by left|done].
Qed.

(** *** The header *)

Definition interim (h : ResponseHeader HMapT) : bool := is_informational (status h) && negb (status h =? 101).

(** What a final header leads to: storing, the whole of it stored, or neither. *)
Definition headed (cs : list MissHandler) (ws : list Write) (e : bool) (f : Filling) : Prop :=
  off cs (f_sess f) \/
  (exists mh, storing mh cs ws f /\ e = false) \/
  (exists mh, stored (cs ++ [mh]) (ws ++ [(mh, [], true)]) f /\ e = true).

(** Nothing is open. *)
Definition settled (cs : list MissHandler) (ws : list Write) (e : bool) (f : Filling) : Prop :=
  off cs (f_sess f) \/ (exists mh, stored (cs ++ [mh]) (ws ++ [(mh, [], true)]) f /\ e = true).

(** After an error, before the cache is disabled. *)
Definition head_failed (cs : list MissHandler) (ws : list Write) (e : bool) (f : Filling) : Prop :=
  (exists p m mh lk, (fill_phase p || bool_decide (p = Bypass) || bool_decide (p = Stale)) = true /\
     at_fill p m mh lk cs (f_sess f)) \/
  headed cs ws e f.

Lemma start_fill_ok (a : Answers) m e p m0 lk cs ws f :
  sound a -> at_fill p m0 None lk cs (f_sess f) -> writes f = ws -> p = Miss \/ (p = Stale /\ is_Some m0) ->
  wp (start_fill a m e) (fun _ => headed cs ws e) (fun _ => head_failed cs ws e) (fun _ => False) f.
Proof.
  intros (Hstr & _ & _) Hs Hw Hp. unfold start_fill. apply wp_bind, wp_on_cache.
  eapply wp_mono; [| | |by eapply fill_set_meta]; [|done..]. intros ? c1 (p1 & m1 & Hp1 & H1).
  apply wp_bind, wp_on_cache. eapply wp_mono; [| | |by eapply fill_variance]; [|done..]. intros ? c2 (m2 & lk2 & H2).
  apply wp_bind, wp_on_cache. eapply wp_mono; [| | |by eapply fill_set_miss_handler]; [| |done].
  2:{ intros ? c3 (mh & lk3 & H3). left. exists p1, (Some m2), mh, lk3. rewrite Hp1. by split. }
  intros ? c3 (mh & lk3 & H3). apply wp_bind, wp_on_cache. eapply wp_mono; [| | |by eapply fill_reader]; [|done..].
  intros reader c4 ->. apply wp_bind.
  assert (forall s, storing mh cs ws (set_serve s (with_cache (with_cache (with_cache (with_cache f c1) c2) c3) c3)) /\
                    storing mh cs ws (with_cache (with_cache (with_cache (with_cache f c1) c2) c3) c3)) as Hst.
  { intros sv. split; (split; [by exists p1, m2, lk3|done]). }
  eapply (wp_mono _ (fun _ f' => storing mh cs ws f') _ (fun _ _ => False) _ (fun _ => False)); [|done..|].
  - intros ? f' Hf'. apply wp_if; intros ->; [|apply wp_ret; right; left; by exists mh].
    apply wp_bind. eapply wp_mono; [| | |by eapply write_ok]; [| |done].
    + intros ? f2 Hf2. eapply wp_mono; [| | |eapply finish_best_effort_ok, Hf2]; [| |done]; intros ? f3 Hf3; [|right];
        right; right; by exists mh.
    + intros ? f2 [(p2 & m3 & lk4 & Hp2 & H4) _]. left. exists p2, (Some m3), (Some mh), lk4. by rewrite Hp2.
  - apply wp_if; intros _; [apply wp_modify|apply wp_ret]; apply (Hst (Serve.enable_miss (serve_from_cache f))).
Qed.

Lemma on_bypass_ok (a : Answers) m m0 lk cs ws f :
  sound a -> at_fill Bypass m0 None lk cs (f_sess f) -> writes f = ws ->
  wp (on_bypass req_method a m)
    (fun o f' => match o with
                 | Some true => exists lk, at_fill Miss None None lk cs (f_sess f') /\ writes f' = ws
                 | _ => off cs (f_sess f')
                 end) (fun _ _ => False) (fun _ => False) f.
Proof.
  intros (_ & _ & Hcm) Hs Hw. unfold on_bypass. apply wp_bind, wp_ask, wp_bind.
  eapply (wp_mono _ (fun _ f' => at_fill Bypass m0 None lk cs (f_sess f') /\ writes f' = ws) _ (fun _ _ => False) _ (fun _ => False));
    [|done..|].
  2:{ apply wp_if; intros _; [apply wp_on_cache; unfold wp; rewrite (fill_max _ _ _ _ _ _ Hs) by done|apply wp_ret]; done. }
  intros max f1 [H1 Hw1]. apply wp_if; intros _.
  { apply wp_bind, wp_on_cache. eapply wp_mono; [| | |by eapply fill_disable]; [|done..]. done. }
  apply wp_bind, wp_on_cache. eapply wp_mono; [| | |by eapply fill_cacheable]; [|done..].
  intros ? c2 H2. cbv beta in *. apply wp_bind. apply wp_if; intros _.
  - apply wp_bind, wp_on_cache. change (f_sess (with_cache f1 c2)) with c2.
    destruct Hcm as [-> | (r & Hr & ->)].
    + eapply wp_mono; [| | |by eapply bypass_miss]; [|done..]. intros ? c3 H3. cbv beta in *. apply wp_bind, wp_ask.
      assert (HttpCache.enabled (f_cache (with_cache (with_cache f1 c2) c3)) = true) as ->
        by apply (fill_enabled _ _ _ _ _ _ H3 eq_refl).
      apply wp_ret. by eexists.
    + eapply wp_mono; [| | |by eapply fill_disable]; [|done..]. intros ? c3 H3. cbv beta in *. apply wp_bind, wp_ask.
      assert (HttpCache.enabled (f_cache (with_cache (with_cache f1 c2) c3)) = false) as ->
        by apply (off_enabled _ _ H3).
      apply wp_bind, wp_modify, wp_ret. by destruct (Flow.handles_downstream_abandonment _).
  - apply wp_bind, wp_on_cache. eapply wp_mono; [| | |by eapply fill_disable]; [|done..]. done.
Qed.

Lemma check_length_ok (a : Answers) m b p m0 lk cs ws f :
  at_fill p m0 None lk cs (f_sess f) -> writes f = ws -> p = Miss \/ p = Stale ->
  wp (check_content_length a m b)
    (fun b' f' => off cs (f_sess f') /\ b' = false \/
                  b' = b /\ at_fill p m0 None lk cs (f_sess f') /\ writes f' = ws)
    (fun _ _ => False) (fun _ => False) f.
Proof.
  intros Hs Hw Hp. assert (is_disabled p = false /\ p <> Uninit) as [Hd Hu] by (by destruct Hp as [-> | ->]).
  unfold check_content_length. apply wp_bind, wp_ask. apply wp_if; intros _; [|apply wp_ret; right; done].
  apply wp_bind, wp_on_cache. unfold wp at 1. rewrite (fill_max _ _ _ _ _ _ Hs Hd).
  destruct (max_size <$> tracker_of _) as [mx|]; [|apply wp_ret; by right].
  destruct (header_value_content_length _) as [cl|]; [|apply wp_ret; by right].
  apply wp_if; intros _; [|apply wp_ret; by right].
  apply wp_bind, wp_on_cache. eapply wp_mono; [| | |by eapply fill_uncacheable]; [|done..]. intros ? c1 [H1 _]. cbv beta in *.
  apply wp_bind, wp_on_cache. eapply wp_mono; [| | |by eapply fill_disable]; [|done..]. intros ? c2 H2. cbv beta in *.
  apply wp_bind, wp_modify, wp_ret. by left.
Qed.

Lemma check_length_off (a : Answers) m b cs f :
  off cs (f_sess f) -> check_content_length a m b f = Val b f.
Proof.
  intros Ho. unfold check_content_length, is_enabled, ask, bind. cbn.
  by rewrite (proj1 (off_enabled _ _ Ho) : HttpCache.enabled (f_cache f) = false).
Qed.

Lemma on_cacheable_ok (a : Answers) m e p m0 lk cs ws f :
  sound a -> at_fill p m0 None lk cs (f_sess f) -> writes f = ws ->
  p = Miss \/ p = Bypass \/ (p = Stale /\ is_Some m0) ->
  wp (on_cacheable req_method a m e) (fun _ => headed cs ws e) (fun _ => head_failed cs ws e) (fun _ => False) f.
Proof.
  intros Ha Hs Hw Hp. unfold on_cacheable. apply wp_bind, wp_ask, wp_bind.
  assert (bypassing (f_cache f) = bool_decide (p = Bypass)) as ->
    by (apply (fill_enabled _ _ _ _ _ _ Hs); by destruct Hp as [-> |[-> |[-> _]]]).
  eapply (wp_mono _ (fun o f' => match o with
      | Some true => exists p m0 lk, (p = Miss \/ (p = Stale /\ is_Some m0)) /\ at_fill p m0 None lk cs (f_sess f') /\ writes f' = ws
      | _ => off cs (f_sess f') end) _ (fun _ _ => False) _ (fun _ => False)); [|done..|].
  - intros [[|]|] f1.
    + intros (p1 & m1 & lk1 & Hp1 & H1 & Hw1). apply wp_bind.
      eapply wp_mono; [| | |eapply check_length_ok; [exact H1|exact Hw1|by destruct Hp1 as [-> |[-> _]]; auto]]; [|done..].
      intros b f2 [[Ho ->]|(-> & H2 & Hw2)]; [apply wp_ret; by left|]. by eapply start_fill_ok.
    + intros Ho. apply wp_bind. unfold wp at 1. rewrite (check_length_off _ _ _ _ _ Ho). apply wp_ret. by left.
    + intros Ho. apply wp_ret. by left.
  - destruct (decide (p = Bypass)) as [->|Hn]; [rewrite bool_decide_true by done|rewrite bool_decide_false by done].
    + eapply wp_mono; [| | |by eapply on_bypass_ok]; [|done..]. intros [[|]|] f1; [|done..].
      intros (lk1 & H1 & Hw1). exists Miss, None, lk1. by split; [left|].
    + apply wp_ret. exists p, m0, lk. split; [|by split]. naive_solver.
Qed.

Lemma on_uncacheable_ok (a : Answers) r p m0 lk cs f :
  writer_reason r = true -> at_fill p m0 None lk cs (f_sess f) -> is_disabled p = false -> p <> Uninit ->
  wp (on_uncacheable a r) (fun _ f' => off cs (f_sess f')) (fun _ _ => False) (fun _ => False) f.
Proof.
  intros Hr Hs Hd Hu. unfold on_uncacheable. apply wp_bind, wp_ask, wp_bind.
  eapply (wp_mono _ (fun _ f' => at_fill p m0 None lk cs (f_sess f')) _ (fun _ _ => False) _ (fun _ => False)); [|done..|].
  - intros ? f1 H1. apply wp_on_cache. eapply wp_mono; [| | |by eapply fill_disable]; done.
  - apply wp_if; intros _; [by apply wp_ret|]. apply wp_on_cache.
    eapply wp_mono; [| | |by eapply fill_uncacheable]; [|done..]. by intros ? c [Hc _].
Qed.

Lemma head_failed_disable (a : Answers) r cs ws e f :
  head_failed cs ws e f -> writer_reason r = true ->
  wp (on_cache (disable (a_world a) r)) (fun _ => settled cs ws e) (fun _ _ => False) (fun _ => False) f.
Proof.
  intros [(p & m & mh & lk & Hp & Hs)|[Ho|[(mh & Hs & ->)|(mh & Hs & ->)]]] Hr.
  - apply wp_on_cache. eapply wp_mono; [| | |eapply fill_disable; [exact Hs|by destruct p..|done]]; [|done..].
    intros ? c Hc. by left.
  - apply wp_on_cache. eapply wp_mono; [| | |eapply off_disable; [exact Ho|by destruct r]]; [|done..].
    intros ? c Hc. by left.
  - eapply wp_mono; [| | |by eapply storing_disable]; [|done..]. intros ? c Hc. by left.
  - eapply wp_mono; [| | |by eapply stored_disable]; [|done..]. intros ? c [Hc Hw]. right. exists mh.
    split; [|done]. split; [by left|done].
Qed.

(** The final header of a response. *)
Lemma cache_task_header (a : Answers) h v e cs ws f :
  sound a -> ready cs ws f -> interim h = false ->
  wp (cache_task req_method a (THeader h v e)) (fun _ => headed cs ws e) (fun _ => settled cs ws e) (fun _ => False) f.
Proof.
  intros Ha [[Ho|(p & m & lk & Hp & Hs)] Hw] Hi; unfold cache_task, is_enabled, is_bypassing;
    apply wp_bind, wp_ask, wp_bind, wp_ask; change (f_cache f) with (cache (f_sess f)).
  { destruct (off_enabled _ _ Ho) as [-> ->]. apply wp_ret. by left. }
  assert (is_disabled p = false /\ p <> Uninit) as [Hd Hu] by (by destruct Hp as [-> |[-> |[-> _]]]).
  destruct (fill_enabled _ _ _ _ _ _ Hs Hd) as [He Hb]. rewrite He, Hb.
  assert (negb (bool_decide (p = Bypass)) || bool_decide (p = Bypass) = true) as -> by (by destruct (bool_decide _)).
  apply wp_bind, wp_caught.
  eapply (wp_mono _ (fun _ => headed cs ws e) _ (fun _ => head_failed cs ws e) _ (fun _ => False)); [|  |done|].
  - intros ? f1 H1. by apply wp_ret.
  - intros err f1 H1. cbv beta iota. apply wp_bind, wp_ask, wp_bind.
    eapply wp_mono; [| | |by eapply head_failed_disable, failure_reason_writer]; [|done..].
    intros ? f2 H2. apply wp_bind. apply wp_if; intros _; [done|]. destruct H2; [by left|by right; right].
  - unfold cache_http_task, is_enabled, is_bypassing. apply wp_bind, wp_ask, wp_bind, wp_ask.
    change (f_cache f) with (cache (f_sess f)). rewrite He, Hb.
    assert (negb (negb (bool_decide (p = Bypass))) && negb (bool_decide (p = Bypass)) = false) as -> by (by destruct (bool_decide _)).
    unfold on_header. unfold interim in Hi. rewrite Hi.
    destruct (a_response_cache_filter a h) as [[m'|r]|err] eqn:Hf.
    + by eapply on_cacheable_ok.
    + eapply wp_mono; [| | |eapply on_uncacheable_ok; [by eapply Ha|exact Hs|done..]]; [|done..]. intros ? ? ?. by left.
    + apply wp_fail. left. exists p, m, None, lk. split; [|done]. by destruct Hp as [-> |[-> |[-> _]]].
Qed.

(** Before the final header, nothing happens. *)
Lemma cache_task_interim (a : Answers) t f :
  match t with THeader h _ _ => interim h = true | TTrailer _ | TFailed _ => True | _ => False end ->
  cache_task req_method a t f = Val tt f.
Proof.
  intros Ht. assert (cache_http_task req_method a t f = Val tt f) as Hc.
  { unfold cache_http_task, is_enabled, is_bypassing, ask, bind, get, ret. cbn.
    destruct (negb _ && negb _); [done|]. destruct t; try done. unfold on_header. unfold interim in Ht. by rewrite Ht. }
  unfold cache_task, is_enabled, is_bypassing, ask, caught, bind, get, ret. cbn -[cache_http_task].
  destruct (HttpCache.enabled (f_cache f) || bypassing (f_cache f)); [|done]. by rewrite Hc.
Qed.

Lemma cache_task_off (a : Answers) t cs f : off cs (f_sess f) -> cache_task req_method a t f = Val tt f.
Proof.
  intros Ho. unfold cache_task, is_enabled, is_bypassing, ask, bind, get, ret. cbn.
  change (f_cache f) with (cache (f_sess f)). by destruct (off_enabled _ _ Ho) as [-> ->].
Qed.

(** After the end, only the end is told again. *)
Lemma cache_task_stored (a : Answers) t cs ws f :
  stored cs ws f -> is_header t = false -> task_data t = None ->
  both (cache_task req_method a t) (stored cs ws) f.
Proof.
  intros [[Ho|(p & m & Hp & Hs)] Hw] Ht Hd; unfold wp.
  { rewrite (cache_task_off _ _ _ _ Ho). split; [by left|done]. }
  destruct (finish_best_effort_none a _ _ _ _ _ Hs Hp) as (f' & Hfin & Hse & Hwr).
  assert (stored cs ws f) as Hf by (split; [right; by exists p, m|done]).
  assert (stored cs ws f') as Hf' by (split; [right; exists p, m; by rewrite Hse|by rewrite Hwr]).
  unfold cache_task, is_enabled, is_bypassing, ask, caught, bind, get, ret. cbn.
  change (f_cache f) with (cache (f_sess f)).
  destruct (fill_enabled _ _ _ _ _ _ Hs) as [He Hb]; [by destruct p|]. rewrite He, Hb.
  rewrite bool_decide_false by (by destruct p). cbn.
  unfold cache_http_task, is_enabled, is_bypassing, ask, bind, get, ret. cbn.
  change (f_cache f) with (cache (f_sess f)). rewrite He, Hb. rewrite bool_decide_false by (by destruct p). cbn.
  destruct t as [|d e|d e|tr| |]; try done; simpl in Hd; subst; try (by rewrite Hfin);
    unfold on_body, is_enabled, ask, bind, get, ret; cbn; change (f_cache f) with (cache (f_sess f)); rewrite He;
    rewrite bool_decide_false by (by destruct p); cbn; destruct e; by rewrite ?Hfin.
Qed.

(** *** The rest of the tasks *)

Notation Tasks := (list (Answers * Task)).

(** After the header: no other header, and no data after the end. *)
Fixpoint body_ok (ended : bool) (ts : list Task) : bool :=
  match ts with
  | [] => true
  | t :: ts =>
      negb (is_header t) && negb (ended && bool_decide (is_Some (task_data t))) && body_ok (ended || finishing t) ts
  end.

(** A response: interim headers, the final one, its body; or a failure before it. *)
Fixpoint response_ok (ts : list Task) : bool :=
  match ts with
  | [] => true
  | THeader h _ e :: ts => if interim h then response_ok ts else body_ok e ts
  | TTrailer _ :: ts | TFailed _ :: ts => response_ok ts
  | _ => false
  end.

Definition ws_of (mh : MissHandler) (ts : list Task) : list Write := concat (task_writes mh <$> ts).

Lemma cache_tasks_off (ts : Tasks) cs f : off cs (f_sess f) -> cache_tasks req_method ts f = Val tt f.
Proof.
  intros Ho. induction ts as [|[a t] ts IH]; [done|]. cbn. unfold bind. by rewrite (cache_task_off _ _ _ _ Ho).
Qed.

Lemma body_ok_ended mh (ts : list Task) : body_ok true ts = true -> ws_of mh ts = [].
Proof.
  induction ts as [|t ts IH]; [done|]. cbn. intros [[_ Hd]%andb_prop Hts]%andb_prop. unfold ws_of in *. cbn.
  rewrite (IH Hts). unfold task_writes. by destruct (task_data t).
Qed.

Lemma cache_tasks_stored (ts : Tasks) cs ws f :
  stored cs ws f -> body_ok true ts.*2 = true -> both (cache_tasks req_method ts) (stored cs ws) f.
Proof.
  revert f. induction ts as [|[a t] ts IH]; intros f Hf; [done|].
  cbn. intros [[Hh Hd]%andb_prop Hts]%andb_prop. apply wp_bind.
  eapply wp_mono; [| | |eapply (cache_task_stored a t); [exact Hf|by apply negb_true_iff|by destruct (task_data t)]]; [|done..].
  intros ? f1 Hf1. by apply IH.
Qed.

(** The body of a response whose header is stored. *)
Lemma cache_tasks_storing (ts : Tasks) mh cs ws f :
  storing mh cs ws f -> body_ok false ts.*2 = true ->
  wp (cache_tasks req_method ts)
    (fun _ f' => (storing mh cs (ws ++ ws_of mh ts.*2) f' /\ existsb finishing ts.*2 = false) \/ off cs (f_sess f') \/
                 (stored (cs ++ [mh]) (ws ++ ws_of mh ts.*2) f' /\ existsb finishing ts.*2 = true))
    (fun _ f' => off cs (f_sess f') \/
                 (stored (cs ++ [mh]) (ws ++ ws_of mh ts.*2) f' /\ existsb finishing ts.*2 = true))
    (fun _ => False) f.
Proof.
  revert ws f. induction ts as [|[a t] ts IH]; intros ws f Hf.
  { intros _. left. unfold ws_of. cbn. by rewrite app_nil_r. }
  cbn. intros [[Hh _]%andb_prop Hts]%andb_prop. apply negb_true_iff in Hh. apply wp_bind.
  assert (forall f', finishing t = true -> body_ok true ts.*2 = true -> stored (cs ++ [mh]) (ws ++ task_writes mh t) f' ->
    stored (cs ++ [mh]) (ws ++ ws_of mh (t :: ts.*2)) f' /\ true = true) as Hend.
  { intros f' _ Hb Hf'. split; [|done]. unfold ws_of. cbn. change (concat (task_writes mh <$> ts.*2)) with (ws_of mh ts.*2).
    by rewrite (body_ok_ended _ _ Hb), app_nil_r. }
  eapply wp_mono; [| | |by eapply (cache_task_storing a t)]; [| |done].
  - intros ? f1 [Ho|[[Hs Hfin]|[Hs Hfin]]]; rewrite ?Hfin in *; cbn [orb] in *.
    + unfold wp. rewrite (cache_tasks_off _ _ _ Ho). right. by left.
    + eapply wp_mono; [| | |by apply (IH _ _ Hs)]; [| |done]; intros ? f2; unfold ws_of; cbn; by rewrite <-app_assoc.
    + eapply wp_mono; [| | |by eapply cache_tasks_stored]; [| |done]; intros ? f2 Hf2; [right|]; right; by apply Hend.
  - intros ? f1 [Ho|[Hs Hfin]]; [by left|]. right. rewrite Hfin in *. cbn [orb] in *. by apply Hend.
Qed.

(** *** A response *)

Fixpoint whole (ts : list Task) : bool :=
  match ts with
  | [] => false
  | THeader h _ e :: ts => if interim h then whole ts else e || existsb finishing ts
  | _ :: ts => whole ts
  end.
Definition body_of (ts : list Task) : list byte := concat (omap task_data ts).

(** [ws] writes [body] to [mh]. *)
Definition writes_to (mh : MissHandler) (body : list byte) (ws : list Write) : Prop :=
  Forall (fun w => w.1.1 = mh) ws /\ concat ((fun w => w.1.2) <$> ws) = body.

Lemma ws_of_body mh ts : writes_to mh (body_of ts) (ws_of mh ts).
Proof.
  induction ts as [|t ts [IH1 IH2]]; [done|]. unfold writes_to, ws_of, body_of in *. cbn. unfold task_writes at 1 3.
  destruct (task_data t) as [d|]; cbn; [|done]. split; [by constructor|]. by rewrite IH2.
Qed.

(** How it ends: not begun, stored or being stored, or given up. *)
Definition ended_with (cs : list MissHandler) (ws : list Write) (ts : list Task) (f : Filling) : Prop :=
  (exists mh W, stored (cs ++ [mh]) (ws ++ W) f /\ writes_to mh (body_of ts) W /\ whole ts = true) \/
  off cs (f_sess f) \/
  ((exists ws', ready cs ws' f \/ exists mh, storing mh cs ws' f) /\ whole ts = false).

Lemma cache_tasks_ok (ts : Tasks) cs ws f :
  Forall sound ts.*1 -> response_ok ts.*2 = true -> ready cs ws f -> both (cache_tasks req_method ts) (ended_with cs ws ts.*2) f.
Proof.
  revert f. induction ts as [|[a t] ts IH]; intros f Ha Hts Hf.
  { right. right. split; [exists ws; by left|done]. }
  apply Forall_cons in Ha as [Ha1 Ha]. cbn in Hts |- *. apply wp_bind.
  assert (forall t, match t with THeader h _ _ => interim h = true | TTrailer _ | TFailed _ => True | _ => False end ->
    response_ok ts.*2 = true -> wp (cache_task req_method a t)
      (fun _ => wp (cache_tasks req_method ts) (fun _ => ended_with cs ws (t :: ts.*2)) (fun _ => ended_with cs ws (t :: ts.*2)) (fun _ => False))
      (fun _ => ended_with cs ws (t :: ts.*2)) (fun _ => False) f) as Hskip.
  { intros t' Ht' Hr. unfold wp at 1. rewrite (cache_task_interim _ _ _ Ht').
    eapply wp_mono; [| | |by eapply IH]; [| |done]; intros ? f'; unfold ended_with, body_of; cbn;
      (assert (task_data t' = None) as -> by (by destruct t'));
      (assert (whole (t' :: ts.*2) = whole ts.*2) as Hw by (destruct t'; try done; cbn; by rewrite Ht')); cbn in Hw; by rewrite ?Hw. }
  destruct t as [h v e|d e|d e|tr| |er]; try done; try by apply Hskip.
  destruct (interim h) eqn:Hi; [by apply Hskip|]. clear Hskip IH.
  assert (forall mh f', e = true -> body_ok e ts.*2 = true -> stored (cs ++ [mh]) (ws ++ [(mh, [], true)]) f' ->
    ended_with cs ws (THeader h v e :: ts.*2) f') as Hend.
  { intros mh f' -> Hb Hs. left. exists mh, [(mh, [], true)]. split; [done|]. cbn. rewrite Hi. split; [|done].
    pose proof (ws_of_body mh ts.*2) as [_ Hw]. rewrite (body_ok_ended _ _ Hb) in Hw. unfold body_of in *. cbn in *.
    split; [by constructor|done]. }
  eapply wp_mono; [| | |by eapply cache_task_header]; [| |done].
  - intros ? f1 [Ho|[(mh & Hs & ->)|(mh & Hs & ->)]].
    + unfold wp. rewrite (cache_tasks_off _ _ _ Ho). right. by left.
    + assert (whole (THeader h v false :: ts.*2) = existsb finishing ts.*2) as Hw by (cbn; by rewrite Hi).
      assert (forall f', stored (cs ++ [mh]) (ws ++ ws_of mh ts.*2) f' /\ existsb finishing ts.*2 = true ->
        ended_with cs ws (THeader h v false :: ts.*2) f') as Hst.
      { intros f' [Hs' Hfin]. left. exists mh, (ws_of mh ts.*2). rewrite Hw.
        split; [done|]. split; [|done]. pose proof (ws_of_body mh ts.*2) as HW. done. }
      eapply wp_mono; [| | |by eapply cache_tasks_storing]; [| |done].
      * intros ? f2 [[Hs' Hfin]|[Ho|Hs']]; [|right; by left|by apply Hst].
        right. right. rewrite Hw. split; [|done]. eexists. right. by exists mh.
      * intros ? f2 [Ho|Hs']; [right; by left|by apply Hst].
    + eapply wp_mono; [| | |by eapply cache_tasks_stored]; [| |done]; intros ? f2 Hf2; (eapply Hend; [done|done|exact Hf2]).
  - intros ? f1 [Ho|(mh & Hs & ->)]; [right; by left|by eapply Hend].
Qed.

(** A cache with which a request goes upstream. *)
Definition goes_upstream (h : @HttpCache HMapT) : bool :=
  wf h && negb (is_some (e ← ctx_of h; miss_handler_field e)) &&
  match phase h with Disabled _ | Miss | Bypass => true | Stale => meta_set h | _ => false end.

Lemma goes_upstream_ready f : goes_upstream (f_cache f) = true -> ready (commits (log (f_sess f))) (writes f) f.
Proof.
  unfold goes_upstream. intros [[Hwf Hmh]%andb_prop Hp]%andb_prop. split; [|done]. unfold f_cache in *. fold (f_sess f) in *.
  pose proof Hwf as Hwf'. apply wf_inv in Hwf. destruct (f_sess f) as [h lg]. cbn in *.
  destruct Hwf as [(d & ->)|[(r & k & t & pr & pu & da & d & Hr & ->)|
    (p & m & va & sv & mh & br & st & ev & ad & lc & k & t & pr & pu & da & d & Hd & Hw & ->)]]; [by left..|right].
  destruct mh; [done|]. cbn in Hp. exists p, m, (lc ≫= lock).
  destruct k as [k|]; [|destruct p; try done; cbn in Hw; by destruct m].
  split; [|by repeat eexists]. destruct p; try done; auto. right. right. split; [done|]. unfold meta_set in Hp. cbn in Hp. by destruct m.
Qed.

Lemma stored_released cs ws f : stored cs ws f -> is_cache_admission_active (f_cache f) = false /\ held_lock (f_cache f) = None.
Proof.
  unfold f_cache. change (Flow.p_cache (f_session f)) with (f_sess f).
  intros [[(Hw & Hd & _)|(p & m & Hp & (va & sv & br & st & ev & ad & lc & k & t & pr & pu & da & d & lg & -> & Hlk & _))] _].
  - destruct (f_sess f) as [[[] [[[]]|] d] lg]; cbn in *; try done; by rewrite andb_false_r in Hw.
  - split; [by destruct p|]. unfold held_lock. cbn. by destruct lc.
Qed.

Lemma off_stored cs f : off cs (f_sess f) -> stored cs (writes f) f.
Proof. intros Ho. split; [by left|done]. Qed.

Lemma stored_commits cs ws f : stored cs ws f -> commits (log (f_sess f)) = cs /\ writes f = ws.
Proof.
  intros [[(_ & _ & Hc)|(p & m & Hp & (va & sv & br & st & ev & ad & lc & k & t & pr & pu & da & d & lg & -> & _ & Hc))] Hw]; done.
Qed.

Lemma open_commits cs f : (exists ws', ready cs ws' f \/ exists mh, storing mh cs ws' f) -> commits (log (f_sess f)) = cs.
Proof.
  intros (ws' & [[[(_ & _ & Hc)|(p & m & lk & _ & (va & sv & br & st & ev & ad & lc & k & t & pr & pu & da & d & lg & -> & _ & Hc))] _]|
    (mh & [(p & m & lk & _ & (va & sv & br & st & ev & ad & lc & k & t & pr & pu & da & d & lg & -> & _ & Hc)) _])]); done.
Qed.

End task.

(** C8: A response is committed to the cache whole or not at all.  Whatever the
    storage, the size limit, the predictor and the application answer while the
    tasks of a response are cached, from a cache with which a request goes
    upstream: no call panics; the storage is asked to finish at most one entry, and
    only when the tasks end the response, with exactly its body written to that
    entry in order (so a response that fails or is cut off is never committed);
    without it an ended response leaves the cache disabled.  Once the response has
    ended no writer is open and no lock is held, so none waits for it. *)
Theorem cache_commits_whole {HMapT : Type} `{HeaderMap HMapT} {Down : Type} (req_method : Down -> Method)
    (ts : list (@Answers HMapT * @Task HMapT)) (f : @Filling HMapT Down) :
  Forall sound ts.*1 -> response_ok ts.*2 = true -> goes_upstream (f_cache f) = true ->
  match cache_tasks req_method ts f with
  | Val _ f' | Fail _ f' =>
      ((exists mh W, commits (log (f_sess f')) = commits (log (f_sess f)) ++ [mh] /\ writes f' = writes f ++ W /\
          writes_to mh (body_of ts.*2) W /\ whole ts.*2 = true) \/
       (commits (log (f_sess f')) = commits (log (f_sess f)) /\
        (whole ts.*2 = true -> is_disabled (phase (f_cache f')) = true))) /\
      (whole ts.*2 = true -> is_cache_admission_active (f_cache f') = false /\ held_lock (f_cache f') = None)
  | _ => False
  end.
Proof.
  intros Ha Hts Hup%goes_upstream_ready. pose proof (cache_tasks_ok req_method ts _ _ f Ha Hts Hup) as Hwp.
  unfold wp in Hwp. destruct (cache_tasks req_method ts f) as [u f'|e f'| |]; try done;
    (destruct Hwp as [(mh & W & Hs & HW & Hwh)|[Ho|[Hop Hwh]]];
     [destruct (stored_commits _ _ _ Hs); split; [left; by exists mh, W|intros _; by eapply stored_released]
     |split; [right; by destruct Ho as (_ & Hd & Hc)|intros _; by eapply stored_released, off_stored]
     |split; [right; split; [by apply open_commits|by rewrite Hwh]|by rewrite Hwh]]).
Qed.

(** *** A run *)

(** Everything is cacheable, and the storage takes it. *)
Definition taking : @Answers fields :=
  MkAnswers empty_world (fun _ _ _ => inl tt) (fun _ => inl (CacheableResp a_meta)) (fun _ => None) cache_miss
    (fun h => (h, None)) (fun _ => false).

(** A request whose lookup missed. *)
Definition missed : @Filling fields unit :=
  MkFilling (Flow.MkPSession
    (default new_session (run_all empty_world [OpEnable 0 None None (Some 1) None; OpSetCacheKey a_key; OpCacheLookup; OpCacheMiss] new_session))
    false false None tt) false Serve.Off [].

Definition three_tasks : list (@Answers fields * @Task fields) :=
  [(taking, THeader (MkResponseHeader 200 []) HTTP_11 false); (taking, TBody (Some (bytes_of "ab")) false);
   (taking, TBody (Some (bytes_of "c")) true)].

Lemma taking_sound : sound taking.
Proof. split; [by intros|]. split; [by intros|by left]. Qed.

Lemma cache_commits_whole_witness :
  match cache_tasks (fun _ => GET) three_tasks missed with
  | Val _ f' | Fail _ f' =>
      (exists mh W, commits (log (f_sess f')) = [mh] /\ writes_to mh (bytes_of "abc") W) /\
      is_cache_admission_active (f_cache f') = false /\ held_lock (f_cache f') = None
  | _ => False
  end.
Proof.
  assert (Forall sound three_tasks.*1) as Hs by (repeat constructor; apply taking_sound).
  assert (goes_upstream (f_cache missed) = true) as Hg by (by vm_compute).
  assert (response_ok three_tasks.*2 = true) as Ho by (by vm_compute).
  assert (commits (log (f_sess missed)) = []) as Hl by (by vm_compute).
  assert (body_of three_tasks.*2 = bytes_of "abc" /\ whole three_tasks.*2 = true) as [Hb Hw] by (vm_compute; by split).
  assert (match cache_tasks (fun _ => GET) three_tasks missed with
          | Val _ f' => is_disabled (phase (f_cache f')) = false | _ => False end) as Hv by (vm_compute; reflexivity).
  pose proof (cache_commits_whole (fun _ => GET) three_tasks missed Hs Ho Hg) as Hc.
  rewrite Hl, Hb, Hw in Hc. revert Hc Hv. clear. generalize (cache_tasks (fun _ : unit => GET) three_tasks missed).
  intros [u f'|e f'| |]; [|done..]. intros [[(mh & W & Hcm & _ & HW & _)|[_ Hd]] Hend] Hv.
  - split; [by exists mh, W|by apply Hend].
  - rewrite Hd in Hv; done.
Defined.

(** ** The stored response instead *)

Section stale.
Context {HMapT : Type} `{HeaderMap HMapT} {Down : Type}.
Variable response_written : Down -> bool.
Notation Sess := (@Session HMapT).
Notation Meta := (CacheMeta HMapT).
Notation Filling := (@Filling HMapT Down).
Notation Answers := (@Answers HMapT).
Notation Task := (@Task HMapT).

Definition reader_of (c : Sess) : option HitHandler := e ← ctx_of (cache c); body_reader e.
Definition meta_of (c : Sess) : option Meta := e ← ctx_of (cache c); meta e.

(** A stale asset is at hand: its metadata, and what reads its body. *)
Definition at_stale (m : Meta) (br : option HitHandler) (c : Sess) : Prop :=
  (exists lk cs, at_fill Stale (Some m) None lk cs c) /\ reader_of c = br.

(** It can be served, and no other request waits for this one. *)
Definition servable (m : Meta) (br : option HitHandler) (c : Sess) : Prop :=
  hit_phase (phase (cache c)) = true /\ meta_of c = Some m /\ reader_of c = br /\ holds_write (cache c) = false.

Notation safe m Q c := (wp m Q (fun _ _ => False) (fun _ => False) c).

Ltac open_stale H :=
  destruct H as [(lk & cs & (va & sv & br' & st & ev & ad & lc & k & t & pr & pu & da & d & lg & -> & Hlk & Hcs)) Hbr];
  cbn in Hbr; subst br'.

Lemma stale_uncacheable w h r m br c :
  at_stale m br c -> writer_reason r = true -> safe (revalidate_uncacheable w h r) (fun _ => servable (set_header m h) br) c.
Proof.
  intros Hs Hr. open_stale Hs. unfold wp, revalidate_uncacheable, bind. cbn -[release_status set_header].
  destruct lc as [[[[q|q]|] cl wt mr]|]; cbn -[release_status set_header]; try (by split_and!).
  destruct r; try done; by split_and!.
Qed.

Lemma stale_revalidate w m' m br c :
  at_stale m br c ->
  wp (revalidate_cache_meta w m') (fun _ => servable (refreshed_meta m' m) br) (fun _ => servable (refreshed_meta m' m) br) (fun _ => False) c.
Proof.
  intros Hs. open_stale Hs. unfold wp, revalidate_cache_meta, bind. cbn -[refreshed_meta].
  destruct lc as [[[[q|q]|] cl wt mr]|]; cbn -[refreshed_meta]; destruct (w_update_meta _ _ _ _); by split_and!.
Qed.

Definition merged (h : ResponseHeader HMapT) (m : Meta) : ResponseHeader HMapT :=
  MkResponseHeader (status (header m)) (foldl (clone_header (headers h)) (headers (header m)) merged_headers).

Lemma stale_merge h m br c : at_stale m br c -> revalidate_merge_header h c = Val (merged h m) c.
Proof. intros Hs. by open_stale Hs. Qed.

Lemma stale_meta m br c : at_stale m br c -> maybe_cache_meta c = Val (Some m) c.
Proof. intros Hs. by open_stale Hs. Qed.

Lemma stale_became_uncacheable r m br c :
  at_stale m br c -> safe (response_became_uncacheable r) (fun _ => at_stale m br) c.
Proof.
  intros Hs. open_stale Hs. unfold wp, response_became_uncacheable, bind. destruct pr as [pr|]; cbn;
    (split; [do 2 eexists; repeat eexists|done]).
Qed.

Lemma stale_release w m br c : at_stale m br c -> safe (release_write_lock w UpstreamError) (fun _ => servable m br) c.
Proof.
  intros Hs. open_stale Hs. unfold wp, release_write_lock, bind.
  destruct lc as [[[[q|q]|] cl wt mr]|]; cbn; by split_and!.
Qed.

Lemma stale_can_serve w m br c : at_stale m br c -> can_serve_stale_error w c = Val (serve_stale_if_error m (w_now w)) c.
Proof. intros Hs. by open_stale Hs. Qed.

(** What is served after a 304: the stored header, or what the application makes of
    it and the 304. *)
Definition after_304 (a : Answers) (h : ResponseHeader HMapT) (m : Meta) : Meta :=
  match a_upstream_response_filter a h with
  | (h, Some _) => set_header m h
  | (h, None) =>
      match a_response_cache_filter a (merged h m) with
      | inl (CacheableResp m') => refreshed_meta (set_old_variance m m') m
      | _ => set_header m (merged h m)
      end
  end.

Lemma revalidated_ok (a : Answers) h m br (f : Filling) :
  sound a -> at_stale m br (f_sess f) ->
  wp (revalidated a h) (fun _ f' => servable (after_304 a h m) br (f_sess f')) (fun _ _ => False) (fun _ => False) f.
Proof.
  intros (_ & Hr & _) Hs. unfold revalidated, after_304. destruct (a_upstream_response_filter a h) as [h' [err|]].
  { apply wp_on_cache. eapply wp_mono; [| | |by eapply stale_uncacheable]; done. }
  apply wp_bind, wp_on_cache. unfold wp at 1. rewrite (stale_merge h' _ _ _ Hs). 
  destruct (a_response_cache_filter a (merged h' m)) as [[m'|r]|err] eqn:Hf.
  - apply wp_bind, wp_on_cache. unfold wp at 1. change (f_sess (with_cache f (f_sess f))) with (f_sess f).
    rewrite (stale_meta _ _ _ Hs). apply wp_bind. eapply wp_unwrap; [done|]. apply wp_bind, wp_caught, wp_on_cache.
    eapply wp_mono; [| | |by eapply stale_revalidate]; [| |done]; intros ? c Hc; by apply wp_ret.
  - apply wp_bind, wp_on_cache. eapply wp_mono; [| | |by eapply stale_became_uncacheable]; [|done..].
    intros ? c Hc. apply wp_on_cache. eapply wp_mono; [| | |eapply stale_uncacheable; [exact Hc|by eapply Hr]]; done.
  - apply wp_on_cache. eapply wp_mono; [| | |by eapply stale_uncacheable]; done.
Qed.

(** Which response is answered from the store, and with what. *)
Definition answered (a : Answers) (t : Task) (m : Meta) (written : bool) : option Meta :=
  match t with
  | THeader h _ _ =>
      if status h =? 304 then Some (after_304 a h m)
      else if is_server_error (status h) && serve_stale_if_error m (w_now (a_world a)) && negb written &&
              a_should_serve_stale a (Some (status_error (status h)))
           then Some m else None
  | _ => None
  end.

Definition down_written (f : Filling) : bool := response_written (Flow.downstream_session (f_session f)).

Lemma may_serve_stale_stale (a : Answers) e m br (f : Filling) :
  at_stale m br (f_sess f) ->
  wp (may_serve_stale response_written a e)
    (fun b f' => b = serve_stale_if_error m (w_now (a_world a)) && negb (down_written f) && a_should_serve_stale a (Some e) /\
                 f_sess f' = f_sess f) (fun _ _ => False) (fun _ => False) f.
Proof.
  intros Hs. unfold may_serve_stale. apply wp_bind, wp_on_cache. unfold wp at 1.
  by rewrite (stale_can_serve _ _ _ _ Hs).
Qed.

Lemma revalidate_or_stale_ok (a : Answers) t m br (f : Filling) :
  sound a -> at_stale m br (f_sess f) ->
  wp (revalidate_or_stale response_written a t)
    (fun b f' => match answered a t m (down_written f) with
                 | Some m' => b = true /\ servable m' br (f_sess f')
                 | None => b = false /\ f_sess f' = f_sess f
                 end) (fun _ _ => False) (fun _ => False) f.
Proof.
  intros Ha Hs. unfold revalidate_or_stale. apply wp_bind, wp_ask.
  assert (HttpCache.enabled (f_cache f) = true) as ->.
  { destruct Hs as [(lk & cs & Hs) _]. by apply (fill_enabled _ _ _ _ _ _ Hs eq_refl). }
  destruct t as [h v e|d e|d e|tr| |er]; try done. cbn [negb answered]. apply wp_if; intros ->.
  - apply wp_bind, wp_on_cache. unfold wp at 1. rewrite (stale_meta _ _ _ Hs). apply wp_bind.
    eapply wp_mono; [| | |by eapply revalidated_ok]; [|done..]. intros ? f' Hf'. by apply wp_ret.
  - apply wp_if; intros ->; [|by apply wp_ret]. cbn [andb]. apply wp_bind.
    eapply wp_mono; [| | |by eapply may_serve_stale_stale]; [|done..]. intros b f' [-> Hf']. cbv beta in *.
    destruct (serve_stale_if_error m (w_now (a_world a)) && negb (down_written f) && a_should_serve_stale a (Some (status_error (status h)))).
    + apply wp_bind, wp_on_cache. rewrite Hf'. eapply wp_mono; [| | |by eapply stale_release]; [|done..].
      intros ? c Hc. by apply wp_ret.
    + by apply wp_ret.
Qed.

Lemma at_stale_intro m br (c : Sess) :
  wf (cache c) = true -> phase (cache c) = Stale -> meta_of c = Some m -> reader_of c = br -> at_stale m br c.
Proof.
  destruct c as [h lg]. cbn. intros Hwf Hp Hm Hb. split; [|done].
  destruct (wf_inv h Hwf) as [(d & ->)|[(r & k & t & pr & pu & da & d & Hr & ->)|
    (p & m0 & va & sv & mh & br' & st & ev & ad & lc & k & t & pr & pu & da & d & Hd & Hw & ->)]]; [done..|].
  cbn in *. subst p. unfold meta_of in Hm. cbn in Hm. simplify_eq. destruct k as [k|], mh as [mh|]; try done.
  do 2 eexists. repeat eexists.
Qed.

(** Serving then starts with the header. *)
Lemma servable_header {W R} `{HandleHit W R} w m br (c : Sess) readers (store : W) range :
  servable m br c -> exists hs v,
    Serve.next_http_task w false (Serve.MkServing c readers store Serve.CacheHeader range) =
    Val (Serve.TaskHeader (MkResponseHeader (status (header m)) hs) HTTP_11 false) v.
Proof.
  intros (Hp & Hm & _ & _). unfold meta_of, ctx_of in Hm. destruct c as [[p [[[e|] k t pr pu da]|] d] lg]; try done. cbn in Hm.
  unfold Serve.next_http_task, Serve.header_task, Serve.cache_hit_header, Serve.on_cache, cache_meta, bind.
  destruct p; try done; cbn; rewrite Hm; cbn; by eexists _, _.
Qed.

End stale.

(** C9: When a stored response answers for an upstream one.  With a stale asset at
    hand, whatever the storage, the lock and the application answer, a task of the
    upstream response never panics and ends in the stored response exactly if it
    is a 304, or a server error that the asset may cover at this time while nothing
    was sent and the application agrees.  Then the metadata that is served is the
    stored one, refreshed by the 304 as the application decides; the body is read
    from the same reader, the lock that others wait for is released, and serving
    starts with the header.  Else the cache is as it was. *)
Theorem stored_answers {HMapT : Type} `{HeaderMap HMapT} {Down : Type} {W R : Type} `{HandleHit W R}
    (response_written : Down -> bool) (a : @Answers HMapT) (t : @Task HMapT) (m : CacheMeta HMapT) (f : @Filling HMapT Down)
    w readers (store : W) range :
  sound a -> wf (f_cache f) = true -> phase (f_cache f) = Stale -> meta_of (f_sess f) = Some m ->
  match revalidate_or_stale response_written a t f with
  | Val b f' =>
      match answered a t m (down_written response_written f) with
      | Some m' =>
          b = true /\ servable m' (reader_of (f_sess f)) (f_sess f') /\
          exists hs v, Serve.next_http_task w false (Serve.MkServing (f_sess f') readers store Serve.CacheHeader range) =
            Val (Serve.TaskHeader (MkResponseHeader (status (header m')) hs) HTTP_11 false) v
      | None => b = false /\ f_sess f' = f_sess f
      end
  | _ => False
  end.
Proof.
  intros Ha Hwf Hp Hm. pose proof (at_stale_intro m _ (f_sess f) Hwf Hp Hm eq_refl) as Hs.
  pose proof (revalidate_or_stale_ok response_written a t _ _ f Ha Hs) as Hr. unfold wp in Hr.
  destruct (revalidate_or_stale response_written a t f) as [b f'| | |]; try done.
  destruct (answered a t m _) as [m'|]; [|done]. destruct Hr as [-> Hr]. split_and!; [done..|].
  by eapply servable_header.
Qed.

(** A lookup that found a stale asset. *)
Definition stale_world : @World fields := {|
  w_blake2b l := l; w_lookup _ _ := inl (Some (a_meta, 5));
  w_get_miss_handler _ _ _ := inl 1; w_streaming _ := true; w_streaming_tag _ := None;
  w_lookup_streaming _ _ _ := inl None; w_update_meta _ _ _ := inl true; w_purge _ _ _ := inl NotFound;
  w_hit_finish _ := inl tt; w_count_access _ := true; w_eviction_weight _ := 1; w_hit_entry _ := None;
  w_miss_entry _ := None; w_miss_finish _ := inl tt; w_release_demand _ := false; w_cancellation_watcher _ := None;
  w_lock _ _ _ := Write 7; w_custom_status _ _ := GiveUp; w_predicted_reason _ _ := None; w_prediction _ _ := true;
  w_observe _ _ := HttpCache.Ready 1; w_wait _ _ := Released; w_wait_in_time _ _ := true; w_lock_status _ := Done;
  w_elapsed := 0; w_now := 100
|}.

Definition found_stale : @Filling fields unit :=
  MkFilling (Flow.MkPSession
    (default new_session (run_all stale_world
       [OpEnable 0 None None (Some 1) None; OpSetCacheKey a_key; OpCacheLookup; OpCacheFound a_meta 5 HExpired] new_session))
    false false None tt) false Serve.Off [].

#[local] Existing Instance Mem.mem_handle_hit.

Definition no_store := Mem.mem_new (K := Z) (Bin := unit) false.

(** A 304 serves the asset and releases the lock. *)
Lemma stored_answers_witness :
  match revalidate_or_stale (fun _ => false) taking (THeader (MkResponseHeader 304 []) HTTP_11 true) found_stale with
  | Val b f' => b = true /\ reader_of (f_sess f') = Some 5 /\ holds_write (f_cache f') = false
  | _ => False
  end /\ holds_write (f_cache found_stale) = true.
Proof.
  split; [|vm_compute; reflexivity].
  assert (wf (f_cache found_stale) = true) as Hwf by (vm_compute; reflexivity).
  assert (phase (f_cache found_stale) = Stale) as Hp by (vm_compute; reflexivity).
  assert (meta_of (f_sess found_stale) = Some a_meta) as Hm by (vm_compute; reflexivity).
  assert (reader_of (f_sess found_stale) = Some 5) as Hrd by (vm_compute; reflexivity).
  pose proof (stored_answers (R := Mem.MemHitHandler) (fun _ => false) taking (THeader (MkResponseHeader 304 []) HTTP_11 true) a_meta found_stale
    empty_world ∅ no_store Range.filter_new taking_sound Hwf Hp Hm) as Hs.
  rewrite Hrd in Hs. revert Hs. generalize (revalidate_or_stale (fun _ : unit => false) taking
    (THeader (MkResponseHeader 304 []) HTTP_11 true) found_stale).
  intros [b f'| | |]; [|done..]. cbn [answered status Z.eqb Pos.eqb].
  intros (-> & (_ & _ & Hr & Hh) & _). done.
Defined.
