(* ===== verification/H1Downstream.v ===== *)
(** * The downstream half of an HTTP/1 proxy attempt

    [proxy_handle_downstream], [process_upstream_tasks], [h1_response_filter] and
    [send_body_to_pipe] of [src/pingora-proxy/src/proxy_h1.rs], the state machines of
    [proxy_common.rs] they run ([DownstreamStateMachine], [ResponseStateMachine],
    [CacheFillCancellationState]) and the methods of [Session] they use ([lib.rs]): the
    loop that reads the request body into one pipe, takes the tasks of the response
    from another, caches and filters them, and writes them or what the cache serves
    to the client.

    The downstream session and the application are interfaces: each call may
    change the session it is given in any way, but not the locals of the loop.  A
    [select!] is a choice of the environment: the loop runs on a list of events,
    the arrival of tasks in the pipe or the completion of a branch.  Delays and log
    lines are left out, the words of errors about upgrades are shortened; custom
    messages and the features [early_body_buffer] and [upstream_modules] are not
    modelled. *)

From stdpp Require Import base list numbers strings gmap.
From Stdlib Require Import ZArith Lia.
From S2P Require Import Prelude Errors Headers Framing CacheControl CacheMeta CacheKey HttpCache Storage Range ServeCache RequestFlow CacheFill H1Upstream.
Import Range.
Local Open Scope Z_scope.

Module Duplex.

(** ** The state machines *)

Inductive DownstreamStateMachine := Reading | ReadingFinished | Errored.

Definition down_new (finished : bool) : DownstreamStateMachine := if finished then ReadingFinished else Reading.
Definition for_proxy_attempt (finished downstream_abandoned : bool) : DownstreamStateMachine :=
  if downstream_abandoned then Errored else down_new finished.
Definition can_poll (d : DownstreamStateMachine) : bool := match d with Errored => false | _ => true end.
Definition is_reading (d : DownstreamStateMachine) : bool := match d with Reading => true | _ => false end.
Definition down_done (d : DownstreamStateMachine) : bool := match d with Reading => false | _ => true end.
Definition is_errored (d : DownstreamStateMachine) : bool := match d with Errored => true | _ => false end.
Definition maybe_finished (set : bool) (d : DownstreamStateMachine) : DownstreamStateMachine :=
  if set && negb (is_errored d) then ReadingFinished else d.
Definition reset (d : DownstreamStateMachine) : DownstreamStateMachine := if is_errored d then d else Reading.
Definition to_errored (d : DownstreamStateMachine) : DownstreamStateMachine := Errored.

Record ResponseStateMachine := MkResponseState {
  upstream_producer_done : bool;
  upstream_response_complete : bool;
  upstream_delivery_done : bool;
  cached_response_done : bool
}.

Definition response_new : ResponseStateMachine := MkResponseState false false false true.
Definition response_is_done (r : ResponseStateMachine) : bool := upstream_delivery_done r && cached_response_done r.
Definition enable_cached_response (r : ResponseStateMachine) : ResponseStateMachine :=
  MkResponseState (upstream_producer_done r) (upstream_response_complete r) (upstream_delivery_done r) false.
Definition maybe_set_upstream_producer_done (b : bool) (r : ResponseStateMachine) : ResponseStateMachine :=
  if b then MkResponseState true (upstream_response_complete r) (upstream_delivery_done r) (cached_response_done r) else r.
Definition maybe_set_upstream_response_complete (b : bool) (r : ResponseStateMachine) : ResponseStateMachine :=
  if b then MkResponseState (upstream_producer_done r) true (upstream_delivery_done r) (cached_response_done r) else r.
Definition maybe_set_upstream_delivery_done (b : bool) (r : ResponseStateMachine) : ResponseStateMachine :=
  if b then MkResponseState (upstream_producer_done r) (upstream_response_complete r) true (cached_response_done r) else r.
Definition maybe_set_cache_done (b : bool) (r : ResponseStateMachine) : ResponseStateMachine :=
  if b then MkResponseState (upstream_producer_done r) (upstream_response_complete r) (upstream_delivery_done r) true else r.

Definition cache_fill_cancelled : Error :=
  set_retry false (as_down (explain Flow.ERR_CACHE_FILL_CANCELLED "cache fill cancelled after downstream abandonment")).

Definition downstream_closed_before_cache_admission : Error :=
  as_down (explain WriteError "downstream closed before cache admission").

Definition downstream_read_error_means_client_left (e : Error) : bool :=
  bool_decide (etype e ∈ [ConnectionClosed; ReadError; H2Error]).

(** A watcher is known by its handle. *)
Inductive CacheFillCancellationState :=
| Unwatched | Unsupported | Watching (watcher : Z) | Draining (remaining : Z) | Settled.

Section cancellation.
Context {HMapT : Type} `{HeaderMap HMapT}.
Notation Task := (@Fill.Task HMapT).

Definition start_watching (w : @World HMapT) (downstream_abandoned : bool) (c : @HttpCache HMapT)
    (s : CacheFillCancellationState) : CacheFillCancellationState :=
  match s with
  | Unwatched =>
      if downstream_abandoned && is_cache_admission_active c then
        match miss_cancellation_watcher w c with Some watcher => Watching watcher | None => Unsupported end
      else s
  | Watching _ | Draining _ => if is_cache_admission_active c then s else Settled
  | _ => s
  end.

(** What a receive came to. *)
Inductive Received := RTask (t : option Task) | RError (e : Error) | RPending.

(** [rx.recv()] of a pipe whose sender may be gone. *)
Definition recv (rx : list Task) (closed : bool) : Received * list Task :=
  match rx with
  | t :: rx => (RTask (Some t), rx)
  | [] => (if closed then RTask None else RPending, [])
  end.

(** [cancelled]: the cancellation was there at the call; [woken]: it comes while it waits. *)
Definition recv_upstream (s : CacheFillCancellationState) (rx : list Task) (closed cancelled woken : bool)
    : Received * CacheFillCancellationState * list Task :=
  let s := match s with Watching _ => if cancelled then Draining (zlen rx) else s | _ => s end in
  match s with
  | Unwatched | Unsupported | Settled => let '(r, rx) := recv rx closed in (r, s, rx)
  | Watching _ =>
      match recv rx closed with
      | (RPending, rx) => if woken then (RError cache_fill_cancelled, Draining 0, rx) else (RPending, s, rx)
      | (r, rx) => (r, s, rx)
      end
  | Draining remaining =>
      match rx with
      | t :: rx' =>
          if 0 <? remaining then (RTask (Some t), Draining (wsub remaining 1), rx') else (RError cache_fill_cancelled, s, rx)
      | [] => (RError cache_fill_cancelled, s, rx)
      end
  end.

End cancellation.

Section half.
Context {HMapT : Type} `{HeaderMap HMapT} {Down Ctx W R : Type} `{HandleHit W R}.
Notation Task := (@Fill.Task HMapT).
Notation PSession := (@Flow.PSession HMapT Down).
Notation Head := (ResponseHeader HMapT * Version)%type.
Notation Bytes := (list byte).

(** ** The session *)

Record DSession := MkD {
  d_session : PSession;
  d_ignore_range : bool  (** [ignore_downstream_range] *);
  upstream_headers_mutated_for_cache : bool;
  upstream_is_upgrade_req : option bool  (** [h1_upgrade_request_status] *);
  downstream_task_seen_upgraded : bool;
  hold_response_header : bool;
  held_response_header : option Head;
  response_header_override : option Head;
  downstream_finished_early : bool
}.

Definition set_d_session (p : PSession) (s : DSession) : DSession :=
  MkD p (d_ignore_range s) (upstream_headers_mutated_for_cache s) (upstream_is_upgrade_req s) (downstream_task_seen_upgraded s)
    (hold_response_header s) (held_response_header s) (response_header_override s) (downstream_finished_early s).
Definition set_d_ignore_range (b : bool) (s : DSession) : DSession :=
  MkD (d_session s) b (upstream_headers_mutated_for_cache s) (upstream_is_upgrade_req s) (downstream_task_seen_upgraded s)
    (hold_response_header s) (held_response_header s) (response_header_override s) (downstream_finished_early s).
Definition set_seen_upgraded (b : bool) (s : DSession) : DSession :=
  MkD (d_session s) (d_ignore_range s) (upstream_headers_mutated_for_cache s) (upstream_is_upgrade_req s) b
    (hold_response_header s) (held_response_header s) (response_header_override s) (downstream_finished_early s).
Definition set_hold (hold : bool) (held over : option Head) (s : DSession) : DSession :=
  MkD (d_session s) (d_ignore_range s) (upstream_headers_mutated_for_cache s) (upstream_is_upgrade_req s)
    (downstream_task_seen_upgraded s) hold held over (downstream_finished_early s).
Definition set_finished_early (b : bool) (s : DSession) : DSession :=
  MkD (d_session s) (d_ignore_range s) (upstream_headers_mutated_for_cache s) (upstream_is_upgrade_req s)
    (downstream_task_seen_upgraded s) (hold_response_header s) (held_response_header s) (response_header_override s) b.

Definition d_down (s : DSession) : Down := Flow.downstream_session (d_session s).
Definition set_d_down (d : Down) (s : DSession) : DSession := set_d_session (Flow.set_downstream d (d_session s)) s.
Definition d_cache (s : DSession) : @HttpCache HMapT := cache (Flow.p_cache (d_session s)).
Definition abandoned (s : DSession) : bool := Flow.downstream_abandoned_during_cache_fill (d_session s).

Definition set_hold_response_header (hold : bool) (s : DSession) : DSession :=
  set_finished_early false (set_hold hold None None s).
Definition override_response_header (h : Head) (s : DSession) : DSession :=
  set_hold (hold_response_header s) (held_response_header s) (Some h) s.

(** The tasks that are kept, whether the header is released and whether it ends the
    response, and the header that is held. *)
Fixpoint hold_tasks (tasks : list Task) (held : option Head) : list Task * bool * bool * option Head :=
  match tasks with
  | [] => ([], false, false, held)
  | Fill.THeader h v e :: tasks =>
      let '(out, release, ends, held) := hold_tasks tasks (Some (h, v)) in
      (out, e || release, e || ends, held)
  | Fill.TBody data e :: tasks =>
      let '(out, release, ends, held) := hold_tasks tasks held in
      let has_data := match data with Some (_ :: _) => true | _ => false end in
      if has_data || e then (Fill.TBody data e :: out, true, ends, held) else (out, release, ends, held)
  | t :: tasks =>
      let '(out, release, ends, held) := hold_tasks tasks held in
      (t :: out, true, ends, held)
  end.

Definition handle_held_response_header (tasks : list Task) (s : DSession) : list Task * DSession :=
  if negb (hold_response_header s) then (tasks, s)
  else
    let '(out, release, header_ends, held) := hold_tasks tasks (held_response_header s) in
    if release then
      match response_header_override s, held with
      | Some h, _ => (Fill.THeader h.1 h.2 header_ends :: out, set_hold false held None s)
      | None, Some h => (Fill.THeader h.1 h.2 header_ends :: out, set_hold false None None s)
      | None, None => (out, set_hold false None None s)
      end
    else (out, set_hold true held (response_header_override s) s).

(** ** The interfaces *)

Abbreviation X := (DSession * Ctx)%type.

Record Parts := MkParts {
  (** the downstream session *)
  read_body_or_idle : bool -> Down -> (option Bytes + Error) * Down;
  is_body_done : Down -> bool;
  is_body_empty : Down -> bool * Down;
  get_retry_buffer : Down -> option Bytes;
  retry_buffer_truncated : Down -> bool;
  was_upgraded : Down -> bool;
  is_upgrade_req : Down -> bool;
  is_upgrade : ResponseHeader HMapT -> Down -> option bool;
  is_response_complete : Down -> bool;
  req_method : Down -> Method;
  response_written : Down -> bool;
  supports_proxy_task_api : Down -> bool;
  has_pending_downstream_proxy_tasks : Down -> bool;
  queue_proxy_task : Task -> Down -> Down;
  write_proxy_tasks : Down -> (bool + Error) * Down;
  response_duplex_vec : list Task -> Down -> (bool + Error) * Down;
  finish_body : Down -> (unit + Error) * Down;
  on_proxy_failure : Error -> Down -> Down;
  set_keepalive_none : Down -> Down;
  (** the application; what it and the storage answer while a task is cached *)
  answers : Task -> X -> @Fill.Answers HMapT * Ctx;
  upstream_response_filter : Head -> X -> (Head + Error) * X;
  upstream_response_body_filter : option Bytes -> bool -> X -> (option Bytes + Error) * X;
  upstream_response_trailer_filter : HMapT -> X -> (HMapT + Error) * X;
  response_filter : Head -> X -> (Head + Error) * X;
  response_body_filter : option Bytes -> bool -> X -> (option Bytes + Error) * X;
  request_body_filter : option Bytes -> bool -> X -> (option Bytes + Error) * X;
  cache_not_modified_filter : Head -> X -> (bool + Error) * Ctx;
  range_header_filter : Head -> X -> (RangeType * Head) * Ctx;
  app_downstream_abandoned : X -> Ctx;
  (** compression and modules, whose state is in the session *)
  compress : Task -> X -> Task * X;
  module_request_body : option Bytes -> bool -> X -> (option Bytes + Error) * X;
  module_header : Head -> bool -> X -> (Head + Error) * X;
  module_body : option Bytes -> bool -> X -> (option Bytes + Error) * X;
  module_trailer : option HMapT -> X -> (option Bytes + Error) * X;
  module_done : X -> (option Bytes + Error) * X;
  world : @World HMapT
}.

Variable P : Parts.

(** ** What the response filters work on *)

Record Source := MkSource {
  s_x : X;
  s_serve : Serve.ServeFromCache;
  s_range : RangeBodyFilter;
  s_readers : gmap HitHandler R;
  s_store : W;
  s_writes : list (MissHandler * Bytes * bool)
}.

Definition SM (A : Type) : Type := Prelude.M Source Error A.

Definition set_x (x : X) (s : Source) : Source := MkSource x (s_serve s) (s_range s) (s_readers s) (s_store s) (s_writes s).
Definition set_s_serve (v : Serve.ServeFromCache) (s : Source) : Source :=
  MkSource (s_x s) v (s_range s) (s_readers s) (s_store s) (s_writes s).
Definition set_s_range (r : RangeBodyFilter) (s : Source) : Source :=
  MkSource (s_x s) (s_serve s) r (s_readers s) (s_store s) (s_writes s).

Definition s_session (s : Source) : DSession := (s_x s).1.
Definition upd_session (f : DSession -> DSession) : SM unit := modify (fun s => set_x (f (s_x s).1, (s_x s).2) s).
Definition session : SM DSession := let! s := get in ret (s_session s).

(** A call of the application or a module, with and without [?]. *)
Definition call {A} (f : X -> A * X) : SM A := fun s => let '(a, x) := f (s_x s) in Val a (set_x x s).
Definition try_ {A} (r : A + Error) : SM A := match r with inl a => ret a | inr e => fail e end.
Definition call_ {A} (f : X -> (A + Error) * X) : SM A := let! r := call f in try_ r.
(** A call that changes only the context. *)
Definition call_ctx {A} (f : X -> A * Ctx) : SM A := call (fun x => let '(a, c) := f x in (a, (x.1, c))).
(** A call of the downstream session. *)
Definition on_down {A} (f : Down -> A * Down) : SM A :=
  call (fun x => let '(a, d) := f (d_down x.1) in (a, (set_d_down d x.1, x.2))).

Definition keep_fill (s : Source) (f : @Fill.Filling HMapT Down) : Source :=
  MkSource (set_d_ignore_range (Fill.ignore_downstream_range f) (set_d_session (Fill.f_session f) (s_x s).1), (s_x s).2)
    (Fill.serve_from_cache f) (s_range s) (s_readers s) (s_store s) (Fill.writes f).
Definition fill_of (s : Source) : @Fill.Filling HMapT Down :=
  Fill.MkFilling (d_session (s_x s).1) (d_ignore_range (s_x s).1) (s_serve s) (s_writes s).
Definition on_fill {A} (m : @Fill.FM HMapT Down A) : SM A := fun s =>
  match m (fill_of s) with
  | Val a f => Val a (keep_fill s f)
  | Fail e f => Fail e (keep_fill s f)
  | Cancelled f => Cancelled (keep_fill s f)
  | Panic => Panic
  end.
Definition on_cache {A} (m : Prelude.M (@HttpCache.Session HMapT) Error A) : SM A := on_fill (Fill.on_cache m).

(** With what is answered while [t] is cached. *)
Definition answering {A} (t : Task) (m : @Fill.Answers HMapT -> @Fill.FM HMapT Down A) : SM A :=
  let! a := call_ctx (answers P t) in on_fill (m a).

Definition serving_of (s : Source) : @Serve.Serving HMapT W R :=
  Serve.MkServing (Flow.p_cache (d_session (s_x s).1)) (s_readers s) (s_store s) (s_serve s) (s_range s).
Definition keep_serving (s : Source) (v : @Serve.Serving HMapT W R) : Source :=
  MkSource (set_d_session (Flow.set_p_cache (Serve.sv_session v) (d_session (s_x s).1)) (s_x s).1, (s_x s).2)
    (Serve.sv_state v) (Serve.sv_range v) (Serve.sv_readers v) (Serve.sv_store v) (s_writes s).

Definition task_of (t : @Serve.CacheTask HMapT) : Task :=
  match t with
  | Serve.TaskHeader h v e => Fill.THeader h v e
  | Serve.TaskBody d e => Fill.TBody d e
  | Serve.TaskUpgradedBody d e => Fill.TUpgradedBody d e
  | Serve.TaskDone => Fill.TDone
  end.

(** ** The response filters *)

Definition upgrade_mismatch (s : DSession) : bool :=
  match upstream_is_upgrade_req s with
  | Some up => negb (bool_decide (is_upgrade_req P (d_down s) = up))
  | None => false
  end.

Definition reject_mismatched_h1_upgrade_101 (status : Z) (blame : Error -> Error) : SM unit :=
  let! s := session in
  if (status =? 101) && upgrade_mismatch s
  then fail (blame (explain InvalidHTTPHeader "received 101 response with mismatched upstream/downstream upgrade status"))
  else ret tt.

Definition upstream_filter (t : Task) : SM Task :=
  match t with
  | Fill.THeader h v e => let! h := call_ (upstream_response_filter P (h, v)) in ret (Fill.THeader h.1 h.2 e)
  | Fill.TBody data e => let! data := call_ (upstream_response_body_filter P data e) in ret (Fill.TBody data e)
  | Fill.TUpgradedBody data e =>
      let! data := call_ (upstream_response_body_filter P data e) in ret (Fill.TUpgradedBody data e)
  | Fill.TTrailer (Some trailers) =>
      let! trailers := call_ (upstream_response_trailer_filter P trailers) in ret (Fill.TTrailer (Some trailers))
  | _ => ret t
  end.

Definition to_304 (h : Head) : Head :=
  let hs := foldl remove_header (headers h.1)
    [bytes_of "content-length"; bytes_of "content-type"; bytes_of "transfer-encoding"; bytes_of "content-encoding";
     bytes_of "accept-ranges"] in
  (MkResponseHeader 304 hs, h.2).

Definition downstream_response_conditional_filter (h : Head) : SM Head :=
  let! not_modified := call_ctx (cache_not_modified_filter P h) in
  let! s := session in
  do! modify (fun st => set_s_serve
        (Serve.conditional_serve_state not_modified (bool_decide (req_method P (d_down s) = HEAD)) (s_serve st)) st);
  ret (match not_modified with inl true => to_304 h | _ => h end).

(** A response without framing becomes chunked. *)
Definition make_chunked (is_head : bool) (h : Head) (e : bool) : Head :=
  let st := status h.1 in
  let no_body := is_head || (st =? 204) || (st =? 304) in
  if negb no_body && negb (Fill.is_informational st) &&
     negb (contains_key (headers h.1) (bytes_of "transfer-encoding")) &&
     negb (contains_key (headers h.1) (bytes_of "content-length")) && negb e
  then (MkResponseHeader st (insert_header (headers h.1) (bytes_of "transfer-encoding") (bytes_of "chunked")), HTTP_11)
  else h.

Definition header_filter (h : Head) (e from_cache : bool) : SM Head :=
  let! s := session in
  let! h :=
    (if upstream_headers_mutated_for_cache s then
       let! h := downstream_response_conditional_filter h in
       let! s := session in
       if d_ignore_range s then ret h
       else
         let! r := call_ctx (range_header_filter P h) in
         do! modify (fun st => set_s_range (set_filter r.1 (s_range st)) st);
         ret r.2
     else ret h) in
  let! s := session in
  let h := make_chunked (bool_decide (req_method P (d_down s) = HEAD)) h e in
  let! h := call_ (response_filter P h) in
  do! (if from_cache : bool then ret tt else reject_mismatched_h1_upgrade_101 (status h.1) as_in);
  ret h.

Definition body_len (data : option Bytes) : Z := match data with Some d => zlen d | None => 0 end.

Definition track_size (track : bool) (data : option Bytes) : SM unit :=
  if track then let! _ := on_cache (track_body_bytes_for_max_file_size (body_len data)) in ret tt else ret tt.

Definition downstream_filter (t : Task) (from_cache : bool) : SM Task :=
  let! s := session in
  let track_max_cache_size := bool_decide (phase (d_cache s) = Disabled PredictedResponseTooLarge) in
  let! t :=
    match t with
    | Fill.THeader h v e => let! h := header_filter (h, v) e from_cache in ret (Fill.THeader h.1 h.2 e)
    | Fill.TBody data e =>
        do! track_size track_max_cache_size data;
        let! st := get in
        let! r := unwrap (filter_body (s_range st) data) in
        do! modify (set_s_range r.2);
        let! data := call_ (response_body_filter P r.1 e) in
        ret (Fill.TBody data e)
    | Fill.TUpgradedBody data e =>
        do! track_size track_max_cache_size data;
        let! data := call_ (response_body_filter P data e) in
        ret (Fill.TUpgradedBody data e)
    | _ => ret t
    end in
  do! (if track_max_cache_size && Fill.task_end t && negb (match t with Fill.TFailed _ => true | _ => false end) then
         let! exceeded := on_cache exceeded_max_file_size in
         if exceeded : bool then ret tt else on_cache response_became_cacheable
       else ret tt);
  ret t.

Definition writable (s : Source) : bool := Serve.should_write_response (s_serve s) (abandoned (s_session s)).

Definition h1_response_filter (t : Task) (from_cache : bool) : SM Task :=
  if from_cache then downstream_filter t true
  else
    let! t := upstream_filter t in
    do! match t with Fill.THeader h _ _ => reject_mismatched_h1_upgrade_101 (status h) as_up | _ => ret tt end;
    do! answering t (fun a => Fill.cache_task (req_method P) a t);
    let! s := get in
    if writable s then downstream_filter t false else ret t.

(** ** Writing to the client *)

Definition unexpected (what : string) : Error := as_in (explain InvalidHTTPHeader what).

(** The task as the modules leave it, and whether an upgrade was seen. *)
Definition downstream_response_task_filter (seen_upgraded : bool) (t : Task) : SM (Task * bool) :=
  match t with
  | Fill.THeader h v e =>
      if seen_upgraded then fail (unexpected "received header task after downstream 101 upgrade")
      else
        let! h := call_ (module_header P (h, v) e) in
        do! reject_mismatched_h1_upgrade_101 (status h.1) as_in;
        let! s := session in
        ret (Fill.THeader h.1 h.2 e,
             (status h.1 =? 101) && bool_decide (is_upgrade P h.1 (d_down s) = Some true))
  | Fill.TBody data e =>
      if seen_upgraded then fail (unexpected "received body task after downstream 101 upgrade")
      else let! data := call_ (module_body P data e) in ret (Fill.TBody data e, seen_upgraded)
  | Fill.TUpgradedBody data e =>
      if negb seen_upgraded then fail (unexpected "received upgraded body task before downstream 101 upgrade")
      else let! data := call_ (module_body P data e) in ret (Fill.TUpgradedBody data e, seen_upgraded)
  | Fill.TTrailer trailers =>
      if seen_upgraded then fail (unexpected "received trailer task after downstream 101 upgrade")
      else
        let! buf := call_ (module_trailer P trailers) in
        ret (match buf with Some b => Fill.TBody (Some b) true | None => t end, seen_upgraded)
  | Fill.TDone =>
      let! buf := call_ (module_done P) in
      ret (match buf with
           | Some b => if seen_upgraded then Fill.TUpgradedBody (Some b) true else Fill.TBody (Some b) true
           | None => t
           end, seen_upgraded)
  | Fill.TFailed _ => ret (t, seen_upgraded)
  end.

Fixpoint task_filters (seen_upgraded : bool) (ts : list Task) : SM (list Task * bool) :=
  match ts with
  | [] => ret ([], seen_upgraded)
  | t :: ts =>
      let! r := downstream_response_task_filter seen_upgraded t in
      let! rest := task_filters r.2 ts in
      ret (r.1 :: rest.1, rest.2)
  end.

Definition seen_so_far (s : DSession) : bool := downstream_task_seen_upgraded s || was_upgraded P (d_down s).

Definition write_response_tasks (ts : list Task) : SM bool :=
  let! s := session in
  let! r := task_filters (seen_so_far s) ts in
  do! upd_session (set_seen_upgraded r.2);
  let! done := on_down (response_duplex_vec P r.1) in
  try_ done.

Definition send_downstream_proxy_task (t : Task) : SM unit :=
  let! s := session in
  let! r := downstream_response_task_filter (seen_so_far s) t in
  do! upd_session (set_seen_upgraded r.2);
  on_down (fun d => (tt, queue_proxy_task P r.1 d)).

Definition has_pending_downstream_tasks (s : DSession) : bool :=
  supports_proxy_task_api P (d_down s) && has_pending_downstream_proxy_tasks P (d_down s).

Definition write_downstream_proxy_tasks : SM (bool + Error) :=
  let! s := session in
  if supports_proxy_task_api P (d_down s) then on_down (write_proxy_tasks P) else ret (inl false).

Definition finish_downstream_response_early (h : Head) (body : Bytes) : SM unit :=
  let! s := session in
  if was_upgraded P (d_down s)
  then fail (explain Errors.InternalError "finish_downstream_response_early: session was upgraded (tunnel)")
  else if response_written P (d_down s)
  then fail (explain Errors.InternalError "finish_downstream_response_early: response header already sent downstream")
  else
    do! on_down (fun d => (tt, set_keepalive_none P d));
    do! upd_session (set_hold_response_header false);
    fun s =>
      match write_response_tasks [Fill.THeader h.1 h.2 false; Fill.TBody (Some body) true] s with
      | Val _ s => Val tt (set_x (set_finished_early true (s_x s).1, (s_x s).2) s)
      | Fail e s => Fail e (set_x (set_finished_early true (s_x s).1, (s_x s).2) s)
      | Cancelled s => Cancelled s
      | Panic => Panic
      end.

(** ** The loop *)

Record Loop := MkLoop {
  source : Source;
  downstream_state : DownstreamStateMachine;
  response_state : ResponseStateMachine;
  next_upstream_task : option Task;
  fill_cancellation : CacheFillCancellationState;
  rx : list Task  (** what the pipe of the response has *);
  rx_closed : bool;
  tx : list Task  (** what was sent into the pipe of the request *);
  bodies : list (option Bytes)  (** what [send_body_to_pipe] was given *);
  arrived : list Task  (** the tasks of the response that came *);
  offered : list (Task * bool)  (** those that were handled, and whether they were filtered or discarded *);
  pipe_state : PipeState
}.

Definition LM (A : Type) : Type := Prelude.M Loop Error A.

Definition set_source (x : Source) (l : Loop) : Loop :=
  MkLoop x (downstream_state l) (response_state l) (next_upstream_task l) (fill_cancellation l) (rx l) (rx_closed l) (tx l)
    (bodies l) (arrived l) (offered l) (pipe_state l).
Definition upd_down (f : DownstreamStateMachine -> DownstreamStateMachine) (l : Loop) : Loop :=
  MkLoop (source l) (f (downstream_state l)) (response_state l) (next_upstream_task l) (fill_cancellation l) (rx l)
    (rx_closed l) (tx l) (bodies l) (arrived l) (offered l) (pipe_state l).
Definition upd_response (f : ResponseStateMachine -> ResponseStateMachine) (l : Loop) : Loop :=
  MkLoop (source l) (downstream_state l) (f (response_state l)) (next_upstream_task l) (fill_cancellation l) (rx l)
    (rx_closed l) (tx l) (bodies l) (arrived l) (offered l) (pipe_state l).
Definition set_next (t : option Task) (l : Loop) : Loop :=
  MkLoop (source l) (downstream_state l) (response_state l) t (fill_cancellation l) (rx l) (rx_closed l) (tx l) (bodies l)
    (arrived l) (offered l) (pipe_state l).
Definition set_cancellation (c : CacheFillCancellationState) (l : Loop) : Loop :=
  MkLoop (source l) (downstream_state l) (response_state l) (next_upstream_task l) c (rx l) (rx_closed l) (tx l) (bodies l)
    (arrived l) (offered l) (pipe_state l).
Definition set_rx (q : list Task) (l : Loop) : Loop :=
  MkLoop (source l) (downstream_state l) (response_state l) (next_upstream_task l) (fill_cancellation l) q (rx_closed l)
    (tx l) (bodies l) (arrived l) (offered l) (pipe_state l).
Definition arrive (ts : list Task) (closed : bool) (l : Loop) : Loop :=
  MkLoop (source l) (downstream_state l) (response_state l) (next_upstream_task l) (fill_cancellation l) (rx l ++ ts)
    (rx_closed l || closed) (tx l) (bodies l) (arrived l ++ ts) (offered l) (pipe_state l).
Definition push_tx (t : Task) (l : Loop) : Loop :=
  MkLoop (source l) (downstream_state l) (response_state l) (next_upstream_task l) (fill_cancellation l) (rx l) (rx_closed l)
    (tx l ++ [t]) (bodies l) (arrived l) (offered l) (pipe_state l).
Definition push_body (d : option Bytes) (l : Loop) : Loop :=
  MkLoop (source l) (downstream_state l) (response_state l) (next_upstream_task l) (fill_cancellation l) (rx l) (rx_closed l)
    (tx l) (bodies l ++ [d]) (arrived l) (offered l) (pipe_state l).
Definition offer (filtered : bool) (ts : list Task) (l : Loop) : Loop :=
  MkLoop (source l) (downstream_state l) (response_state l) (next_upstream_task l) (fill_cancellation l) (rx l) (rx_closed l)
    (tx l) (bodies l) (arrived l) (offered l ++ ((fun t => (t, filtered)) <$> ts)) (pipe_state l).
Definition set_pipe_state (p : PipeState) (l : Loop) : Loop :=
  MkLoop (source l) (downstream_state l) (response_state l) (next_upstream_task l) (fill_cancellation l) (rx l) (rx_closed l)
    (tx l) (bodies l) (arrived l) (offered l) p.

Definition lift {A} (m : SM A) : LM A := fun l =>
  match m (source l) with
  | Val a s => Val a (set_source s l)
  | Fail e s => Fail e (set_source s l)
  | Cancelled s => Cancelled (set_source s l)
  | Panic => Panic
  end.
(** The error as a value. *)
Definition caught {A} (m : SM A) : SM (A + Error) := fun s =>
  match m s with
  | Val a s => Val (inl a) s
  | Fail e s => Val (inr e) s
  | Cancelled s => Cancelled s
  | Panic => Panic
  end.

Definition l_session (l : Loop) : DSession := s_session (source l).
Definition the_session : LM DSession := let! l := get in ret (l_session l).

Definition response_work_done (s : DSession) (r : ResponseStateMachine) : bool :=
  if abandoned s then upstream_producer_done r && negb (is_cache_admission_active (d_cache s)) else response_is_done r.
Definition should_poll_upstream_tasks (s : DSession) (r : ResponseStateMachine) : bool :=
  if abandoned s then negb (upstream_producer_done r) else negb (upstream_delivery_done r).

Definition abandon_downstream_for_cache_fill : LM unit :=
  do! modify (upd_down to_errored);
  let! l := get in
  let s := l_session l in
  if negb (Flow.handles_downstream_abandonment (d_session s)) ||
     negb (Serve.can_still_fill_cache (world P) (s_serve (source l)) (d_cache s)) ||
     is_response_complete P (d_down s)
  then ret tt
  else
    do! modify (upd_response (maybe_set_cache_done true));
    let! first := lift (on_cache mark_downstream_abandoned_during_cache_fill) in
    if first : bool then lift (call_ctx (fun x => (tt, app_downstream_abandoned P x))) else ret tt.

Definition send_body_to_pipe (data : option Bytes) (end_of_body : bool) : LM bool :=
  do! modify (push_body data);
  let end_of_body := end_of_body || bool_decide (data = None) in
  let! data := lift (call_ (module_request_body P data end_of_body)) in
  let! data := lift (call_ (request_body_filter P data end_of_body)) in
  let upstream_end_of_body := end_of_body || bool_decide (data = None) in
  if negb upstream_end_of_body && bool_decide (data = Some []) then ret false
  else
    let! s := the_session in
    do! modify (push_tx (if was_upgraded P (d_down s) then Fill.TUpgradedBody data upstream_end_of_body
                         else Fill.TBody data upstream_end_of_body));
    ret end_of_body.

(** What is written of a task that was filtered. *)
Definition keep_task (t : Task) : LM (list Task) :=
  let! l := get in
  do! (if Serve.is_miss_header (s_serve (source l)) then modify (upd_response enable_cached_response) else ret tt);
  let s := l_session l in
  if writable (source l) then ret [t]
  else
    match t with
    | Fill.TFailed e => fail e
    | _ =>
        if abandoned s then
          if Serve.abandoned_before_admission (s_serve (source l)) (d_cache s)
          then fail downstream_closed_before_cache_admission else ret []
        else ret [t]
    end.

(** One task of a batch: [None] ends the batch. *)
Definition filter_task (t : Task) : LM (option (list Task)) :=
  let! stored := lift (answering t (fun a => Fill.revalidate_or_stale (response_written P) a t)) in
  if stored : bool then
    do! lift (modify (fun s => set_s_serve (Serve.serve_enable (s_serve s)) s));
    do! modify (upd_response enable_cached_response);
    ret None
  else
    let! t := lift (call (compress P t)) in
    let! t := lift (h1_response_filter t false) in
    let! out := keep_task t in
    ret (Some out).

Fixpoint filter_tasks (ts : list Task) : LM (list Task) :=
  match ts with
  | [] => ret []
  | t :: ts =>
      do! modify (offer true [t]);
      let! r := filter_task t in
      match r with
      | None => do! modify (offer false ts); ret []
      | Some out => let! rest := filter_tasks ts in ret (out ++ rest)
      end
  end.

(** The end of a response that is only drained. *)
Fixpoint drained (ts : list Task) (response_done : bool) : bool + Error :=
  match ts with
  | [] => inl response_done
  | Fill.TFailed e :: _ => inr e
  | t :: ts => drained ts (response_done || Fill.task_end t)
  end.

Definition process_upstream_tasks (initial_task : Task) : LM (option bool) :=
  let! l := get in
  if Serve.should_discard_upstream (s_serve (source l)) then
    do! modify (offer false [initial_task]);
    do! modify (upd_response (maybe_set_upstream_producer_done (Fill.task_end initial_task)));
    ret None
  else
    let tasks := initial_task :: rx l in
    do! modify (set_rx []);
    do! modify (upd_response (maybe_set_upstream_producer_done (existsb Fill.task_end tasks)));
    let! filtered := filter_tasks tasks in
    let! l := get in
    if negb (writable (source l)) then ret None
    else if downstream_finished_early (l_session l) then
      let! done := lift (try_ (drained filtered false)) in ret (Some done)
    else
      let '(out, s) := handle_held_response_header filtered (l_session l) in
      do! lift (upd_session (fun _ => s));
      let! done := lift (write_response_tasks out) in
      ret (Some done).

(** ** The branches *)

Inductive Branch :=
| BRead  (** [read_body_or_idle] *)
| BReserve (closed : bool)  (** [tx.reserve()]; is the receiver gone *)
| BBuffered  (** the task kept from the round before *)
| BRecv (cancelled woken : bool)  (** [recv_upstream] *)
| BServe  (** [next_http_task] *)
| BWrite  (** [write_downstream_proxy_tasks] *)
| BWriteRecv  (** [rx.recv()] while those are written *).

Definition enabled (permit : bool) (b : Branch) (l : Loop) : bool :=
  let d := downstream_state l in
  let s := l_session l in
  let next_none := bool_decide (next_upstream_task l = None) in
  let writing := negb (is_errored d) && has_pending_downstream_tasks s && next_none in
  match b with
  | BRead => can_poll d && permit
  | BReserve _ => is_reading d && negb permit
  | BBuffered => negb next_none
  | BRecv _ _ => should_poll_upstream_tasks s (response_state l) && next_none
  | BServe =>
      negb (cached_response_done (response_state l)) && negb (is_errored d) && Serve.is_on (s_serve (source l)) &&
      negb (has_pending_downstream_tasks s)
  | BWrite => writing
  | BWriteRecv => writing && negb (upstream_delivery_done (response_state l)) && Serve.is_on (s_serve (source l))
  end.

(** The error is ignored, and the session told of it. *)
Definition ignored (e : Error) : LM unit := lift (on_down (fun d => (tt, on_proxy_failure P e d))).

Definition support_cache_partial_read (s : DSession) : bool :=
  bool_decide (support_streaming_partial_write (world P) (d_cache s) = Some true).

Definition read_branch : LM unit :=
  let! l := get in
  let s := l_session l in
  let partial_read := support_cache_partial_read s in
  let! body := lift (on_down (read_body_or_idle P (down_done (downstream_state l)))) in
  match body with
  | inr e =>
      let! l := get in
      let serve := s_serve (source l) in
      let wait_for_cache_fill := (negb (Serve.is_on serve) && partial_read) || Serve.is_miss serve in
      if wait_for_cache_fill || downstream_finished_early (l_session l) then
        do! (if downstream_read_error_means_client_left e then abandon_downstream_for_cache_fill
             else modify (upd_down to_errored));
        ignored e
      else fail (as_down e)
  | inl body =>
      let! s := the_session in
      do! (if bool_decide (body = None) && was_upgraded P (d_down s)
           then modify (upd_response (maybe_set_upstream_delivery_done true)) else ret tt);
      let! request_done := send_body_to_pipe body (is_body_done P (d_down s)) in
      modify (upd_down (maybe_finished request_done))
  end.

(** What follows the tasks that were processed. *)
Definition after_tasks (was_upgraded_before : option bool) (response_done : bool) : LM unit :=
  let! s := the_session in
  do! match was_upgraded_before with
      | Some before =>
          if negb before && was_upgraded P (d_down s)
          then modify (upd_down (fun d => if can_poll d then reset d else d)) else ret tt
      | None => ret tt
      end;
  do! modify (upd_response (maybe_set_upstream_delivery_done response_done));
  modify (upd_down (maybe_finished (is_body_done P (d_down s)))).

Definition buffered_branch : LM unit :=
  let! l := get in
  match next_upstream_task l with
  | Some t =>
      do! modify (set_next None);
      let! r := process_upstream_tasks t in
      match r with Some response_done => after_tasks None response_done | None => ret tt end
  | None => modify (upd_response (maybe_set_upstream_delivery_done true))
  end.

Definition recv_branch (cancelled woken : bool) : LM unit :=
  let! l := get in
  let '(r, c, q) := recv_upstream (fill_cancellation l) (rx l) (rx_closed l) cancelled woken in
  do! modify (set_cancellation c);
  do! modify (set_rx q);
  match r with
  | RPending => ret tt
  | RError e => fail e
  | RTask (Some t) =>
      let! s := the_session in
      let! r := process_upstream_tasks t in
      match r with Some response_done => after_tasks (Some (was_upgraded P (d_down s))) response_done | None => ret tt end
  | RTask None =>
      let! s := the_session in
      if abandoned s then fail (explain Errors.InternalError "upstream response task pipe closed before completion")
      else modify (upd_response (maybe_set_upstream_delivery_done true))
  end.

(** The reader of a response that was delivered is closed; its error is only logged. *)
Definition finish_cached : LM unit :=
  let! l := get in
  if cached_response_done (response_state l) && HttpCache.enabled (d_cache (l_session l))
  then let! _ := lift (caught (on_cache (finish_hit_handler (world P)))) in ret tt
  else ret tt.

(** How writing what the cache served ended. *)
Definition served (r : bool + Error) : LM unit :=
  match r with
  | inl b =>
      do! modify (upd_response (maybe_set_cache_done b));
      finish_cached
  | inr e =>
      let! l := get in
      if Serve.is_miss (s_serve (source l)) then
        do! modify (upd_response (maybe_set_cache_done true));
        do! abandon_downstream_for_cache_fill;
        ignored e
      else fail e
  end.

(** [None]: the read of the cache is still pending. *)
Definition next_cache_task (upgraded : bool) : SM (option Task) := fun s =>
  match Serve.next_http_task (world P) upgraded (serving_of s) with
  | Val t v => Val (Some (task_of t)) (keep_serving s v)
  | Fail e v => Fail e (keep_serving s v)
  | Cancelled v => Val None (keep_serving s v)
  | Panic => Panic
  end.

Definition serve_branch : LM unit :=
  let! s := the_session in
  let! o := lift (next_cache_task (was_upgraded P (d_down s))) in
  match o with
  | None => ret tt
  | Some t =>
      let! t := lift (h1_response_filter t true) in
      let! s := the_session in
      if supports_proxy_task_api P (d_down s) then lift (send_downstream_proxy_task t)
      else let! r := lift (caught (write_response_tasks [t])) in served r
  end.

Definition write_branch : LM unit :=
  let! r := lift write_downstream_proxy_tasks in served r.

Definition write_recv_branch : LM unit :=
  let! l := get in
  let '(r, q) := recv (rx l) (rx_closed l) in
  do! modify (set_rx q);
  match r with
  | RTask (Some t) => modify (set_next (Some t))
  | RTask None => modify (upd_response (maybe_set_upstream_delivery_done true))
  | _ => ret tt
  end.

Definition run_branch (b : Branch) : LM unit :=
  match b with
  | BRead => read_branch
  | BReserve closed => modify (upd_down (maybe_finished closed))
  | BBuffered => buffered_branch
  | BRecv cancelled woken => recv_branch cancelled woken
  | BServe => serve_branch
  | BWrite => write_branch
  | BWriteRecv => write_recv_branch
  end.

(** ** The half *)

Inductive Event :=
| EArrive (ts : list Task) (closed : bool)
| EIter (permit : bool) (b : Branch)  (** a round: is there room in the pipe of the request, and which branch completes *).

Definition branches : list Branch := [BRead; BReserve false; BBuffered; BRecv false false; BServe; BWrite].

Definition work_left (l : Loop) : bool :=
  negb (down_done (downstream_state l)) || negb (response_work_done (l_session l) (response_state l)).

Definition begin_round : LM unit :=
  modify (fun l => set_cancellation
    (start_watching (world P) (abandoned (l_session l)) (d_cache (l_session l)) (fill_cancellation l)) l).

Definition end_half : LM bool :=
  let! l := get in
  let reuse := negb (is_errored (downstream_state l)) && negb (downstream_finished_early (l_session l)) in
  let! reuse :=
    (if reuse then
       let! r := lift (on_down (finish_body P)) in
       ret (match r with inl _ => true | inr _ => false end)
     else ret false) in
  do! modify (set_pipe_state DownstreamComplete);
  ret reuse.

(** [Cancelled] after the last event: the loop waits.  A round in which no branch is
    enabled leaves the loop; a branch that is not enabled does not complete. *)
Fixpoint duplex (events : list Event) : LM bool :=
  let! l := get in
  if negb (work_left l) then end_half
  else
    match events with
    | [] => fun l => Cancelled l
    | EArrive ts closed :: events => do! modify (arrive ts closed); duplex events
    | EIter permit b :: events =>
        do! begin_round;
        let! l := get in
        if existsb (fun b => enabled permit b l) branches then
          do! (if enabled permit b l then run_branch b else ret tt);
          duplex events
        else end_half
    end.

(** What the body that is there is sent as; [reserved]: the pipe was still open. *)
Definition send_initial_body (buffer : option Bytes) (request_body_finished reserved : bool) : LM unit :=
  let! empty :=
    (if bool_decide (buffer = None) then lift (on_down (is_body_empty P)) else ret true) in
  let! s := the_session in
  let consumed := request_body_finished && negb (retry_buffer_truncated P (d_down s)) in
  if empty || consumed then
    if reserved : bool then let! _ := send_body_to_pipe buffer request_body_finished in ret tt
    else fail (because Errors.InternalError "reserving body pipe" (Foreign "channel closed"))
  else ret tt.

Definition loop_new (s : Source) : Loop :=
  let d := d_down (s_session s) in
  MkLoop s (for_proxy_attempt (is_body_done P d) (abandoned (s_session s))) response_new None Unwatched [] false [] [] [] [] Active.

Definition proxy_handle_downstream (reserved : bool) (events : list Event) : LM bool :=
  let! s := the_session in
  do! send_initial_body (get_retry_buffer P (d_down s)) (is_body_done P (d_down s)) reserved;
  duplex events.

End half.
End Duplex.
