(* ===== verification/H1DownstreamSpec.v ===== *)
(** * What the downstream half promises

    For every order of events, whatever the application, the modules, the cache and
    the downstream session answer: the tasks of the response are handled in the
    order in which they came, none is lost or handled twice; the connection is
    handed on only where the request was read and the response delivered to its
    end; and the request body is relayed as it was read. *)

From stdpp Require Import base list numbers strings gmap.
From Stdlib Require Import ZArith Lia.
From S2P Require Import Prelude Errors Headers Framing CacheControl CacheMeta CacheMetaSpec CacheKey HttpCache HttpCacheSpec Storage Range ServeCache RequestFlow CacheFill CacheFillSpec H1Upstream H1Downstream.
Import Range Duplex.
Local Open Scope Z_scope.

(** ** Serving from the cache is never turned off *)

Section moves.

(** Once the cache is served it is served, and once the response of the upstream is
    discarded it is. *)
Definition serve_le (v v' : Serve.ServeFromCache) : Prop :=
  (Serve.is_on v = true -> Serve.is_on v' = true) /\
  (Serve.should_discard_upstream v = true -> Serve.should_discard_upstream v' = true).

#[export] Instance serve_le_preorder : PreOrder serve_le.
Proof. split; unfold serve_le; [done|]. intros x y z [] []. auto. Qed.

Context {S : Type} (pi : S -> Serve.ServeFromCache).

Definition moves {A} (m : Prelude.M S Error A) : Prop :=
  forall s, match m s with Val _ s' | Fail _ s' | Cancelled s' => serve_le (pi s) (pi s') | Panic => True end.

Lemma moves_ret {A} (a : A) : moves (ret a).
Proof. intros s. simpl. reflexivity. Qed.
Lemma moves_fail {A} e : moves (A := A) (fail e).
Proof. intros s. simpl. reflexivity. Qed.
Lemma moves_panic {A} : moves (A := A) panic.
Proof. done. Qed.
Lemma moves_get : moves get.
Proof. intros s. simpl. reflexivity. Qed.
Lemma moves_unwrap {A} (o : option A) : moves (unwrap o).
Proof. destruct o; [apply moves_ret|apply moves_panic]. Qed.
Lemma moves_modify f : (forall s, serve_le (pi s) (pi (f s))) -> moves (modify f).
Proof. intros Hf s. apply Hf. Qed.
Lemma d_moves_bind {A B} (m : Prelude.M S Error A) (k : A -> Prelude.M S Error B) :
  moves m -> (forall a, moves (k a)) -> moves (bind m k).
Proof.
  intros Hm Hk s. specialize (Hm s). unfold bind. destruct (m s) as [a s'|e s'|s'|]; try done.
  specialize (Hk a s'). destruct (k a s'); try done; by etrans.
Qed.
Lemma moves_if {A} (b : bool) (m1 m2 : Prelude.M S Error A) : moves m1 -> moves m2 -> moves (if b then m1 else m2).
Proof. by destruct b. Qed.

End moves.

Create HintDb moves.
#[export] Hint Resolve moves_ret moves_fail moves_panic moves_get moves_unwrap d_moves_bind moves_if : moves.

(** One step through a program. *)
Ltac moves_step :=
  match goal with
  | |- moves _ (bind _ _) => apply d_moves_bind; [|intros]
  | |- moves _ (match ?x with _ => _ end) => destruct x
  | |- moves _ (modify _) => apply moves_modify; intros; simpl; try reflexivity
  | |- moves _ _ => solve [eauto with moves]
  end.
Ltac moves_tac := repeat moves_step.

(** *** Caching a task *)

Section fill_moves.
Context {HMapT : Type} `{HeaderMap HMapT} {Down : Type}.
Notation fmoves := (moves (@Fill.serve_from_cache HMapT Down)).

Lemma fmoves_on_cache {A} (m : Prelude.M (@HttpCache.Session HMapT) Error A) : fmoves (Fill.on_cache m).
Proof. intros f. unfold Fill.on_cache. destruct (m _); try done; simpl; reflexivity. Qed.
Lemma fmoves_ask {A} (q : @Fill.Filling HMapT Down -> A) : fmoves (Fill.ask q).
Proof. intros f. simpl. reflexivity. Qed.
Lemma fmoves_caught {A} (m : @Fill.FM HMapT Down A) : fmoves m -> fmoves (Fill.caught m).
Proof. intros Hm f. specialize (Hm f). unfold Fill.caught. by destruct (m f). Qed.

Hint Resolve fmoves_on_cache fmoves_ask : moves.
Hint Unfold Fill.is_enabled Fill.is_bypassing : moves.

Lemma fmoves_finish a : fmoves (Fill.finish_miss_handler_best_effort a).
Proof. unfold Fill.finish_miss_handler_best_effort. apply d_moves_bind; [apply fmoves_caught; eauto with moves|]. intros []; moves_tac. Qed.
Lemma fmoves_write a d eof : fmoves (Fill.write_body a d eof).
Proof. unfold Fill.write_body. moves_tac. Qed.

Lemma decline_le v : serve_le v (Serve.decline_fill v).
Proof. by destruct v. Qed.
Lemma enable_miss_le v : serve_le v (Serve.enable_miss v).
Proof. by destruct v. Qed.
Lemma enable_le v : serve_le v (Serve.serve_enable v).
Proof. by destruct v. Qed.
Lemma conditional_le nm hd v : serve_le v (Serve.conditional_serve_state nm hd v).
Proof. unfold Serve.conditional_serve_state. destruct (Serve.header_only nm hd); by destruct v. Qed.

Hint Resolve fmoves_finish fmoves_write : moves.

Lemma fmoves_on_header req_method a h e : fmoves (Fill.on_header req_method a h e).
Proof.
  unfold Fill.on_header, Fill.on_cacheable, Fill.on_uncacheable, Fill.on_bypass, Fill.check_content_length, Fill.start_fill,
    Fill.is_enabled, Fill.is_bypassing.
  moves_tac; [|apply enable_miss_le]. destruct (Flow.handles_downstream_abandonment _); [apply decline_le|reflexivity].
Qed.

Lemma fmoves_cache_http_task req_method a t : fmoves (Fill.cache_http_task req_method a t).
Proof.
  unfold Fill.cache_http_task, Fill.on_body, Fill.on_data, Fill.is_enabled, Fill.is_bypassing. pose proof fmoves_on_header.
  moves_tac.
Qed.

Lemma fmoves_cache_task req_method a t : fmoves (Fill.cache_task req_method a t).
Proof.
  unfold Fill.cache_task, Fill.is_enabled, Fill.is_bypassing.
  do 2 (apply d_moves_bind; [eauto with moves|intros]). apply moves_if; [|eauto with moves].
  apply d_moves_bind; [apply fmoves_caught, fmoves_cache_http_task|]. intros []; moves_tac.
Qed.

Lemma fmoves_revalidate response_written a t : fmoves (Fill.revalidate_or_stale response_written a t).
Proof.
  unfold Fill.revalidate_or_stale, Fill.may_serve_stale, Fill.revalidated, Fill.is_enabled.
  moves_tac. apply fmoves_caught. eauto with moves.
Qed.

End fill_moves.

(** *** Serving *)

Section serve_moves.
Context {HMapT : Type} `{HeaderMap HMapT} {W R : Type} `{HandleHit W R}.
Notation Serving := (@Serve.Serving HMapT W R).

(** It is served, on a miss or not. *)
Definition served_as (miss : bool) (v : Serving) : Prop :=
  Serve.is_on (Serve.sv_state v) = true /\ Serve.is_miss (Serve.sv_state v) = miss.
Definition stays {A} (miss : bool) (m : Prelude.M Serving Error A) : Prop :=
  forall v, served_as miss v ->
  match m v with Val _ v' | Fail _ v' | Cancelled v' => served_as miss v' | Panic => True end.

Lemma d_stays_bind {A B} miss (m : Prelude.M Serving Error A) (k : A -> Prelude.M Serving Error B) :
  stays miss m -> (forall a, stays miss (k a)) -> stays miss (bind m k).
Proof. intros Hm Hk v Hv. specialize (Hm v Hv). unfold bind. destruct (m v); try done. by apply Hk. Qed.
Lemma d_stays_pure {A} miss (m : Prelude.M Serving Error A) :
  (forall v, match m v with Val _ v' | Fail _ v' | Cancelled v' => Serve.sv_state v' = Serve.sv_state v | Panic => True end) ->
  stays miss m.
Proof. intros Hm v Hv. specialize (Hm v). unfold served_as in *. by destruct (m v); rewrite ?Hm. Qed.
Lemma stays_set miss s : Serve.is_on s = true -> Serve.is_miss s = miss -> stays miss (Serve.set_state s).
Proof. intros Hs Hm v _. by split. Qed.

Lemma stays_on_cache {A} miss (m : Prelude.M (@HttpCache.Session HMapT) Error A) : stays miss (Serve.on_cache m).
Proof. apply d_stays_pure. intros v. unfold Serve.on_cache. by destruct (m _). Qed.
Lemma stays_unwrap {A} miss (o : option A) : stays miss (unwrap o).
Proof. apply d_stays_pure. by destruct o. Qed.
Lemma stays_ret {A} miss (a : A) : stays miss (ret a).
Proof. by apply d_stays_pure. Qed.
Lemma stays_fail {A} miss e : stays (A := A) miss (fail e).
Proof. by apply d_stays_pure. Qed.
Lemma stays_panic {A} miss : stays (A := A) miss panic.
Proof. done. Qed.
Lemma stays_cancelled {A} miss : stays (A := A) miss (fun v => Cancelled v).
Proof. by apply d_stays_pure. Qed.
Lemma d_stays_get miss : stays miss get.
Proof. by apply d_stays_pure. Qed.
Lemma stays_set_reader miss h r : stays miss (Serve.set_reader h r).
Proof. by apply d_stays_pure. Qed.
Lemma stays_set_range miss f : stays miss (Serve.set_range f).
Proof. by apply d_stays_pure. Qed.

Hint Resolve d_stays_bind stays_on_cache stays_unwrap stays_ret stays_fail stays_panic stays_cancelled d_stays_get
  stays_set_reader stays_set_range : moves.
Ltac stays_step :=
  match goal with
  | |- stays _ (bind _ _) => apply d_stays_bind; [|intros]
  | |- stays _ (match ?x with _ => _ end) => destruct x
  | |- stays _ _ => solve [eauto with moves]
  end.

Lemma stays_the_reader miss w b : stays miss (Serve.the_reader w b).
Proof. unfold Serve.the_reader, Serve.reader_handle. repeat stays_step. Qed.
Hint Resolve stays_the_reader : moves.
Lemma stays_read miss w b : stays miss (Serve.read_reader w b).
Proof. unfold Serve.read_reader. repeat stays_step. Qed.
Lemma stays_seek_reader miss w b c op : stays miss (Serve.seek_reader w b c op).
Proof. unfold Serve.seek_reader, Serve.or_err. repeat stays_step. Qed.
Hint Resolve stays_read stays_seek_reader : moves.
Lemma stays_seek miss w : stays miss (Serve.maybe_seek w miss).
Proof.
  unfold Serve.maybe_seek. repeat stays_step; apply stays_set; by destruct miss.
Qed.
Hint Resolve stays_seek : moves.
Lemma stays_body w upgraded miss fuel : stays miss (Serve.body_loop w fuel miss upgraded).
Proof.
  induction fuel as [|fuel IH]; [done|]. cbn [Serve.body_loop]. repeat stays_step; apply stays_set; by destruct miss.
Qed.

Lemma stays_header miss w next e :
  Serve.is_on next = true -> Serve.is_miss next = miss -> stays miss (Serve.header_task w next e).
Proof.
  intros Hn Hm. unfold Serve.header_task, Serve.cache_hit_header. apply d_stays_bind; [by apply stays_set|].
  intros. repeat stays_step.
Qed.

Lemma stays_le {A} miss (m : Prelude.M Serving Error A) v : served_as miss v -> stays miss m ->
  match m v with Val _ v' | Fail _ v' | Cancelled v' => serve_le (Serve.sv_state v) (Serve.sv_state v') | Panic => True end.
Proof.
  intros [H1 H2] Hm. specialize (Hm v (conj H1 H2)). unfold serve_le, Serve.should_discard_upstream.
  destruct (m v); try done; destruct Hm as [H3 H4]; by rewrite H1, H2, H3, H4.
Qed.

(** The next task of the cache leaves it served as it was. *)
Lemma serve_task_moves w upgraded (v : Serving) :
  match Serve.next_http_task w upgraded v with
  | Val _ v' | Fail _ v' | Cancelled v' => serve_le (Serve.sv_state v) (Serve.sv_state v')
  | Panic => True
  end.
Proof.
  unfold Serve.next_http_task. unfold bind at 1. cbn [get]. destruct (negb _); [simpl; reflexivity|].
  destruct (Serve.sv_state v) as [| | | | |sk| |sk| |] eqn:Hs; try done; rewrite <-Hs.
  1, 2: eapply (stays_le false); [split; by rewrite Hs|by apply stays_header].
  1, 3: eapply (stays_le true); [split; by rewrite Hs|by apply stays_header].
  - eapply (stays_le false); [split; by rewrite Hs|]. apply d_stays_bind; [destruct sk; [apply stays_seek|apply stays_ret]|].
    intros. apply stays_body.
  - eapply (stays_le true); [split; by rewrite Hs|]. apply d_stays_bind; [destruct sk; [apply stays_seek|apply stays_ret]|].
    intros. apply stays_body.
  - simpl. reflexivity.
  - simpl. reflexivity.
Qed.

End serve_moves.

(** *** The response filters *)

Section source_moves.
Context {HMapT : Type} `{HeaderMap HMapT} {Down Ctx W R : Type} `{HandleHit W R}.
Variable P : @Parts HMapT Down Ctx.
Notation Source := (@Source HMapT Down Ctx W R).
Notation smoves := (moves (@s_serve HMapT Down Ctx W R)).

Lemma smoves_call {A} (f : (@DSession HMapT Down) * Ctx -> A * (@DSession HMapT Down * Ctx)) : smoves (call f).
Proof. intros s. unfold call. destruct (f (s_x s)). simpl. reflexivity. Qed.
Lemma smoves_try {A} (r : A + Error) : smoves (try_ r).
Proof. by destruct r; eauto with moves. Qed.
Lemma smoves_call_ {A} (f : (@DSession HMapT Down) * Ctx -> (A + Error) * (@DSession HMapT Down * Ctx)) : smoves (call_ f).
Proof. apply d_moves_bind; [apply smoves_call|]. intros. apply smoves_try. Qed.
Lemma smoves_call_ctx {A} (f : (@DSession HMapT Down) * Ctx -> A * Ctx) : smoves (call_ctx f).
Proof. apply smoves_call. Qed.
Lemma smoves_on_down {A} (f : Down -> A * Down) : smoves (on_down f).
Proof. apply smoves_call. Qed.
Lemma smoves_session : smoves session.
Proof. apply d_moves_bind; [apply moves_get|]. intros. apply moves_ret. Qed.
Lemma smoves_upd f : smoves (upd_session f).
Proof. apply moves_modify. intros. simpl. reflexivity. Qed.
Lemma smoves_on_fill {A} (m : @Fill.FM HMapT Down A) : moves (@Fill.serve_from_cache HMapT Down) m -> smoves (on_fill m).
Proof. intros Hm s. specialize (Hm (fill_of s)). unfold on_fill. by destruct (m (fill_of s)). Qed.
Lemma smoves_on_cache {A} (m : Prelude.M (@HttpCache.Session HMapT) Error A) : smoves (on_cache m).
Proof. apply smoves_on_fill, fmoves_on_cache. Qed.
Lemma smoves_caught {A} (m : @SM HMapT Down Ctx W R A) : smoves m -> smoves (caught m).
Proof. intros Hm s. specialize (Hm s). unfold caught. by destruct (m s). Qed.

Hint Resolve smoves_call smoves_try smoves_call_ smoves_call_ctx smoves_on_down smoves_session smoves_upd smoves_on_cache : moves.

Lemma smoves_answering {A} t (m : @Fill.Answers HMapT -> @Fill.FM HMapT Down A) :
  (forall a, moves (@Fill.serve_from_cache HMapT Down) (m a)) -> smoves (answering P t m).
Proof. intros Hm. apply d_moves_bind; [eauto with moves|]. intros a. apply smoves_on_fill, Hm. Qed.

Lemma smoves_reject st bl : smoves (reject_mismatched_h1_upgrade_101 P st bl).
Proof. unfold reject_mismatched_h1_upgrade_101. moves_tac. Qed.
Hint Resolve smoves_reject : moves.

Lemma smoves_downstream_filter t from_cache : smoves (downstream_filter P t from_cache).
Proof.
  unfold downstream_filter, header_filter, downstream_response_conditional_filter, track_size. moves_tac.
  apply conditional_le.
Qed.

Lemma smoves_response_filter t from_cache : smoves (h1_response_filter P t from_cache).
Proof.
  unfold h1_response_filter, upstream_filter. pose proof smoves_downstream_filter.
  moves_tac. apply smoves_answering. intros. apply fmoves_cache_task.
Qed.

Lemma smoves_task_filter seen t : smoves (downstream_response_task_filter P seen t).
Proof. unfold downstream_response_task_filter. moves_tac. Qed.
Lemma smoves_task_filters ts : forall seen, smoves (task_filters P seen ts).
Proof. pose proof smoves_task_filter. induction ts as [|t ts IH]; intros seen; cbn [task_filters]; moves_tac. Qed.
Lemma smoves_write_tasks ts : smoves (write_response_tasks P ts).
Proof. unfold write_response_tasks. pose proof smoves_task_filters. moves_tac. Qed.
Lemma smoves_send_task t : smoves (send_downstream_proxy_task P t).
Proof. unfold send_downstream_proxy_task. pose proof smoves_task_filter. moves_tac. Qed.
Lemma smoves_write_proxy : smoves (write_downstream_proxy_tasks P).
Proof. unfold write_downstream_proxy_tasks. moves_tac. Qed.
Lemma smoves_next_cache_task upgraded : smoves (next_cache_task P upgraded).
Proof.
  intros s. unfold next_cache_task. pose proof (serve_task_moves (world P) upgraded (serving_of s)) as Hm.
  by destruct (Serve.next_http_task _ _ _).
Qed.

End source_moves.

(** ** The loop *)

Section loop.
Context {HMapT : Type} `{HeaderMap HMapT} {Down Ctx W R : Type} `{HandleHit W R}.
Variable P : @Parts HMapT Down Ctx.
Notation Loop := (@Loop HMapT Down Ctx W R).
Notation Task := (@Fill.Task HMapT).
Notation LM := (@LM HMapT Down Ctx W R).

Definition l_serve (l : Loop) : Serve.ServeFromCache := s_serve (source l).
Definition cached_done (l : Loop) : bool := cached_response_done (response_state l).

(** What the steps that do not touch the pipe of the response keep: what waits in
    it, that the cache is served and, if the client waits for it, that it is. *)
Definition glide (l l' : Loop) : Prop :=
  serve_le (l_serve l) (l_serve l') /\
  (cached_done l' = false -> cached_done l = false \/ Serve.is_on (l_serve l') = true) /\
  (is_errored (downstream_state l) = true -> is_errored (downstream_state l') = true) /\
  (rx l' = rx l /\ next_upstream_task l' = next_upstream_task l /\ arrived l' = arrived l /\ offered l' = offered l /\
   pipe_state l' = pipe_state l).

#[local] Instance glide_preorder : PreOrder glide.
Proof.
  split.
  - intros l. split; [reflexivity|]. split; [by left|]. done.
  - intros x y z (S1 & C1 & E1 & (R1 & N1 & A1 & O1 & P1)) (S2 & C2 & E2 & (R2 & N2 & A2 & O2 & P2)). unfold glide.
    split_and!; [by etrans| | |congruence..]; [|auto].
    intros Hz. destruct (C2 Hz) as [Hy|Hy]; [|by right]. destruct (C1 Hy) as [Hx|Hx]; [by left|right; by apply S2].
Qed.

Definition glides {A} (m : LM A) : Prop :=
  forall l, match m l with Val _ l' | Fail _ l' | Cancelled l' => glide l l' | Panic => True end.

Lemma glides_ret {A} (a : A) : glides (ret a).
Proof. intros l. simpl. reflexivity. Qed.
Lemma glides_fail {A} e : glides (A := A) (fail e).
Proof. intros l. simpl. reflexivity. Qed.
Lemma glides_get : glides get.
Proof. intros l. simpl. reflexivity. Qed.
Lemma glides_bind {A B} (m : LM A) (k : A -> LM B) : glides m -> (forall a, glides (k a)) -> glides (bind m k).
Proof.
  intros Hm Hk l. specialize (Hm l). unfold bind. destruct (m l) as [a l'|e l'|l'|]; try done.
  specialize (Hk a l'). destruct (k a l'); try done; by etrans.
Qed.
Lemma glides_lift {A} (m : SM A) : moves s_serve m -> glides (lift m).
Proof.
  intros Hm l. specialize (Hm (source l)). unfold lift.
  destruct (m (source l)); try done; (split; [exact Hm|split; [by left|done]]).
Qed.
Lemma glides_down f :
  (forall d, is_errored d = true -> is_errored (f d) = true) -> glides (modify (upd_down f)).
Proof. intros Hf l. split; [reflexivity|]. split; [by left|]. split; [apply Hf|done]. Qed.
Lemma glides_response f :
  (forall r, cached_response_done (f r) = false -> cached_response_done r = false) -> glides (modify (upd_response f)).
Proof. intros Hf l. split; [reflexivity|]. split; [intros Hc; left; by apply Hf|done]. Qed.
Lemma glides_push_tx t : glides (modify (push_tx t)).
Proof. intros l. split; [reflexivity|]. split; [by left|done]. Qed.
Lemma glides_push_body d : glides (modify (push_body d)).
Proof. intros l. split; [reflexivity|]. split; [by left|done]. Qed.
Lemma glides_cancellation c : glides (modify (set_cancellation c)).
Proof. intros l. split; [reflexivity|]. split; [by left|done]. Qed.
Lemma glides_cancellation_of (c : Loop -> CacheFillCancellationState) : glides (modify (fun l => set_cancellation (c l) l)).
Proof. intros l. split; [reflexivity|]. split; [by left|done]. Qed.
Lemma glides_session : glides the_session.
Proof. intros l. simpl. reflexivity. Qed.

Lemma maybe_finished_errored b d : is_errored d = true -> is_errored (maybe_finished b d) = true.
Proof. by destruct b, d. Qed.
Lemma reset_errored d : is_errored d = true -> is_errored (if can_poll d then reset d else d) = true.
Proof. by destruct d. Qed.

Hint Resolve glides_ret glides_fail glides_get glides_push_tx glides_push_body glides_cancellation glides_session
  maybe_finished_errored reset_errored : moves.
Hint Resolve smoves_call smoves_try smoves_call_ smoves_call_ctx smoves_on_down smoves_session smoves_upd smoves_on_cache
  smoves_caught smoves_response_filter smoves_write_tasks smoves_send_task smoves_write_proxy smoves_next_cache_task : moves.

Ltac glides_step :=
  match goal with
  | |- glides (bind _ _) => apply glides_bind; [|intros]
  | |- glides (match ?x with _ => _ end) => destruct x
  | |- glides (lift _) => apply glides_lift; solve [eauto with moves]
  | |- glides (modify (upd_down _)) => apply glides_down; solve [eauto with moves|done]
  | |- glides (modify (upd_response _)) => apply glides_response; solve [by intros []|intros []; unfold maybe_set_cache_done, maybe_set_upstream_delivery_done; by case_match]
  | |- glides _ => solve [eauto with moves]
  end.
Ltac glides_tac := repeat glides_step.

Lemma glides_abandon : glides (abandon_downstream_for_cache_fill P).
Proof. unfold abandon_downstream_for_cache_fill. glides_tac. Qed.
Lemma glides_send_body data e : glides (send_body_to_pipe P data e).
Proof. unfold send_body_to_pipe. glides_tac. Qed.
Lemma glides_ignored e : glides (ignored P e).
Proof. unfold ignored. glides_tac. Qed.
Hint Resolve glides_abandon glides_send_body glides_ignored : moves.
Lemma glides_read : glides (read_branch P).
Proof. unfold read_branch. glides_tac. Qed.
Lemma glides_finish_cached : glides (finish_cached P).
Proof. unfold finish_cached. glides_tac. Qed.
Hint Resolve glides_finish_cached : moves.
Lemma glides_served r : glides (served P r).
Proof. unfold served. glides_tac. Qed.
Hint Resolve glides_served : moves.
Lemma glides_serve : glides (serve_branch P).
Proof. unfold serve_branch. glides_tac. Qed.
Lemma glides_write : glides (write_branch P).
Proof. unfold write_branch. glides_tac. Qed.
Lemma glides_after_tasks o b : glides (after_tasks P o b).
Proof. unfold after_tasks. glides_tac. Qed.

(** *** The tasks of the response *)

Lemma glides_enable_cached (l : Loop) : Serve.is_on (l_serve l) = true -> glide l (upd_response enable_cached_response l).
Proof. intros Hon. split; [reflexivity|]. split; [by right|done]. Qed.

Lemma glides_keep_task t : glides (keep_task t).
Proof.
  intros l. unfold keep_task. unfold bind at 1. cbn [get].
  match goal with |- context [bind _ (fun _ => ?m)] => assert (glides m) as Hm by glides_tac; set (k := m) in * end.
  clearbody k. destruct (Serve.is_miss_header (s_serve (source l))) eqn:Hmh; [|exact (Hm l)].
  unfold bind. cbn [modify]. specialize (Hm (upd_response enable_cached_response l)).
  assert (glide l (upd_response enable_cached_response l)) as Hg.
  { apply glides_enable_cached. unfold l_serve. by destruct (s_serve (source l)). }
  destruct (k _); try done; by etrans.
Qed.

(** A batch ends where the stored response answers. *)
Lemma filter_task_ok t (l : Loop) :
  match filter_task P t l with
  | Val o l' => glide l l' /\ (o = None -> Serve.should_discard_upstream (l_serve l') = true)
  | Fail _ l' | Cancelled l' => glide l l'
  | Panic => True
  end.
Proof.
  unfold filter_task. unfold bind at 1.
  assert (glides (lift (answering P t (fun a => Fill.revalidate_or_stale (response_written P) a t)))) as Hr.
  { apply glides_lift, smoves_answering. intros. apply fmoves_revalidate. }
  specialize (Hr l). destruct (lift _ l) as [[|] l1|e l1|l1|]; try done.
  { cbn. split; [|done]. etrans; [exact Hr|]. split; [apply enable_le|]. split; [by right|done]. }
  assert (glides (let! t := lift (call (compress P t)) in let! t := lift (h1_response_filter P t false) in keep_task t)) as Hall.
  { pose proof glides_keep_task. glides_tac. }
  specialize (Hall l1). revert Hall. unfold bind.
  destruct (lift (call (compress P t)) l1) as [t1 l2|e l2|l2|]; [|try (intros; by etrans)..]; [|done].
  destruct (lift (h1_response_filter P t1 false) l2) as [t2 l3|e l3|l3|]; [|try (intros; by etrans)..]; [|done].
  destruct (keep_task t2 l3); try done; intros; [split; [by etrans|done]|by etrans..].
Qed.

(** But for what was handled. *)
Definition forget (l : Loop) : Loop :=
  MkLoop (source l) (downstream_state l) (response_state l) (next_upstream_task l) (fill_cancellation l) (rx l) (rx_closed l)
    (tx l) (bodies l) (arrived l) [] (pipe_state l).
Definition glide_but (l l' : Loop) : Prop := glide (forget l) (forget l').

#[local] Instance glide_but_preorder : PreOrder glide_but.
Proof. split; unfold glide_but; [intros x; reflexivity|]. intros x y z. apply glide_preorder. Qed.

Lemma glide_forget l l' : glide l l' -> glide_but l l' /\ offered l' = offered l.
Proof. intros (S1 & C1 & E1 & (R1 & N1 & A1 & O1 & P1)). split; [|done]. split; [done|]. split; [done|]. split; [done|]. by split_and!. Qed.

Definition marks (b : bool) (ts : list Task) : list (Task * bool) := (fun t => (t, b)) <$> ts.

Lemma marks_app b ts ts' : marks b (ts ++ ts') = marks b ts ++ marks b ts'.
Proof. apply fmap_app. Qed.

(** A batch is handled in order: filtered, then from some task on discarded. *)
Lemma filter_tasks_ok ts : forall l : Loop,
  match filter_tasks P ts l with
  | Val _ l' => glide_but l l' /\ exists a b, ts = a ++ b /\ offered l' = offered l ++ marks true a ++ marks false b /\
      (b <> [] -> Serve.should_discard_upstream (l_serve l') = true)
  | Fail _ l' | Cancelled l' => glide_but l l' /\ exists a b, ts = a ++ b /\ offered l' = offered l ++ marks true a
  | Panic => True
  end.
Proof.
  induction ts as [|t ts IH]; intros l; cbn [filter_tasks].
  { cbn. split; [reflexivity|]. exists [], []. split_and!; [done| |done]. cbn. by rewrite app_nil_r. }
  unfold bind at 1. cbn [modify]. unfold bind at 1.
  pose proof (filter_task_ok t (offer true [t] l)) as Ht.
  assert (glide_but l (offer true [t] l)) as Hg0 by (unfold glide_but; reflexivity).
  destruct (filter_task P t (offer true [t] l)) as [o l1|e l1|l1|]; try done.
  - destruct Ht as [[Hg Ho]%glide_forget Hn]. cbn in Ho. destruct o as [out|].
    + unfold bind. specialize (IH l1). destruct (filter_tasks P ts l1) as [rest l2|e l2|l2|]; try done.
      * destruct IH as (Hg2 & a & b & -> & Ho2 & Hb). cbn. split; [etrans; [exact Hg0|]; etrans; [exact Hg|exact Hg2]|].
        exists (t :: a), b. split_and!; [done| |done]. rewrite Ho2, Ho. cbn. by rewrite <-!app_assoc.
      * destruct IH as (Hg2 & a & b & -> & Ho2). split; [etrans; [exact Hg0|]; etrans; [exact Hg|exact Hg2]|].
        exists (t :: a), b. split; [done|]. rewrite Ho2, Ho. cbn. by rewrite <-!app_assoc.
      * destruct IH as (Hg2 & a & b & -> & Ho2). split; [etrans; [exact Hg0|]; etrans; [exact Hg|exact Hg2]|].
        exists (t :: a), b. split; [done|]. rewrite Ho2, Ho. cbn. by rewrite <-!app_assoc.
    + cbn. split; [etrans; [exact Hg0|]; etrans; [exact Hg|]; unfold glide_but; reflexivity|].
      exists [t], ts. split_and!; [done| |]. { rewrite Ho. cbn. by rewrite <-!app_assoc. } intros _. by apply Hn.
  - apply glide_forget in Ht as [Hg Ho]. split; [etrans; [exact Hg0|exact Hg]|]. exists [t], ts. split; [done|]. by rewrite Ho.
  - apply glide_forget in Ht as [Hg Ho]. split; [etrans; [exact Hg0|exact Hg]|]. exists [t], ts. split; [done|]. by rewrite Ho.
Qed.

(** What was handled, and what is still to come. *)
Definition in_order (pending : list Task) (l : Loop) : Prop :=
  exists a b, offered l = marks true a ++ marks false b /\ arrived l = a ++ b ++ pending /\
    (b <> [] -> Serve.should_discard_upstream (l_serve l) = true).

Definition inv (l : Loop) : Prop :=
  in_order (option_list (next_upstream_task l) ++ rx l) l /\
  (cached_done l = false -> Serve.is_on (l_serve l) = true) /\ pipe_state l = Active.
(** After an error, or where the future is dropped, the rest of the tasks is. *)
Definition inv_failed (l : Loop) : Prop := (exists pending, in_order pending l) /\ pipe_state l = Active.

Definition errored_stays (l l' : Loop) : Prop :=
  is_errored (downstream_state l) = true -> is_errored (downstream_state l') = true.

Definition keeps_inv {A} (m : LM A) (l : Loop) : Prop :=
  match m l with
  | Val _ l' => inv l' /\ errored_stays l l'
  | Fail _ l' | Cancelled l' => inv_failed l' /\ errored_stays l l'
  | Panic => True
  end.

Lemma inv_inv_failed l : inv l -> inv_failed l.
Proof. intros (Ho & _ & Hp). split; [by eexists|done]. Qed.

Lemma glide_inv l l' : inv l -> glide l l' -> inv l'.
Proof.
  intros ((a & b & Ho & Ha & Hb) & Hc & Hp) (S1 & C1 & E1 & (R1 & N1 & A1 & O1 & P1)). split_and!.
  - exists a, b. rewrite O1, A1, R1, N1. split_and!; [done..|]. intros Hne. by apply S1, Hb.
  - intros Hcd. destruct (C1 Hcd) as [Hcd'|]; [|done]. by apply S1, Hc.
  - by rewrite P1.
Qed.

Lemma glides_keep {A} (m : LM A) l : glides m -> inv l -> keeps_inv m l.
Proof.
  intros Hm Hl. specialize (Hm l). unfold keeps_inv.
  destruct (m l); try done; (split; [try apply inv_inv_failed; by eapply glide_inv|by destruct Hm as (_ & _ & He & _)]).
Qed.

Lemma held_bind {A B} (m : LM A) (k : A -> LM B) l :
  keeps_inv m l -> (forall a l', inv l' -> errored_stays l l' -> keeps_inv (k a) l') -> keeps_inv (bind m k) l.
Proof.
  intros Hm Hk. unfold keeps_inv, bind in *. destruct (m l) as [a l'| | |]; try done. destruct Hm as [Hi He].
  specialize (Hk a l' Hi He). destruct (k a l'); try done; (split; [apply Hk|intros Hx; by apply Hk, He]).
Qed.

(** A task out of the pipe, with nothing kept before it. *)
Lemma process_ok t (l : Loop) :
  in_order (t :: rx l) l -> next_upstream_task l = None -> (cached_done l = false -> Serve.is_on (l_serve l) = true) ->
  pipe_state l = Active -> keeps_inv (process_upstream_tasks P t) l.
Proof.
  intros (a & b & Ho & Ha & Hb) Hn Hc Hp. unfold process_upstream_tasks, keeps_inv. unfold bind at 1. cbn [get].
  destruct (Serve.should_discard_upstream (s_serve (source l))) eqn:Hd.
  { cbn. split; [|intros Hx; exact Hx]. split_and!; cbn; [|destruct (Fill.task_end t); exact Hc|done].
    exists a, (b ++ [t]). cbn. rewrite Hn, Ho, Ha, marks_app, <-!app_assoc. by split_and!. }
  assert (b = []) as ->.
  { destruct b; [done|]. unfold l_serve in Hb. rewrite Hb in Hd; done. }
  unfold bind at 1. cbn [modify]. unfold bind at 1. cbn [modify].
  set (l0 := upd_response (maybe_set_upstream_producer_done (existsb Fill.task_end (t :: rx l))) (set_rx [] l)).
  pose proof (filter_tasks_ok (t :: rx l) l0) as Hf. unfold bind at 1.
  assert (cached_done l0 = cached_done l) as Hcd by (unfold cached_done, l0, maybe_set_upstream_producer_done; cbn -[existsb]; by destruct (existsb _ _)).
  destruct (filter_tasks P (t :: rx l) l0) as [out l1|e l1|l1|]; [| | |done].
  - destruct Hf as ((S1 & C1 & E1 & (R1 & N1 & A1 & _ & P1)) & a' & b' & Hts & Ho1 & Hb1). cbn in *.
    assert (inv l1) as Hi.
    { split_and!.
      - exists (a ++ a'), b'. rewrite Ho1, A1, R1, N1, Hn, marks_app, <-!app_assoc. split_and!; [|cbn; rewrite Ha, Hts; cbn; by rewrite app_nil_r|done].
        rewrite Ho. cbn. by rewrite app_nil_r.
      - intros Hx. destruct (C1 Hx) as [Hy|]; [|done]. apply S1, Hc. by rewrite <-Hcd.
      - by rewrite P1. }
    match goal with |- match (?m : LM _) l1 with _ => _ end => assert (glides m) as Hg end.
    { destruct (negb (writable (source l1))); [apply glides_ret|].
      destruct (downstream_finished_early (l_session l1)); [glides_tac|].
      destruct (handle_held_response_header out (l_session l1)) as [out' s']. glides_tac. }
    pose proof (glides_keep _ l1 Hg Hi) as Hk. unfold keeps_inv in Hk.
    match goal with |- match ?x with _ => _ end => destruct x end; try done; (split; [apply Hk|intros Hx; by apply Hk, E1]).
  - destruct Hf as ((S1 & C1 & E1 & (R1 & N1 & A1 & _ & P1)) & a' & b' & Hts & Ho1). cbn in *.
    split; [|exact E1]. split; [|by rewrite P1]. exists b'. exists (a ++ a'), [].
    rewrite Ho1, A1, marks_app, Ho, Ha, Hts. cbn. by rewrite !app_nil_r, <-!app_assoc.
  - destruct Hf as ((S1 & C1 & E1 & (R1 & N1 & A1 & _ & P1)) & a' & b' & Hts & Ho1). cbn in *.
    split; [|exact E1]. split; [|by rewrite P1]. exists b'. exists (a ++ a'), [].
    rewrite Ho1, A1, marks_app, Ho, Ha, Hts. cbn. by rewrite !app_nil_r, <-!app_assoc.
Qed.

(** *** The branches *)

Lemma recv_upstream_ok (s : CacheFillCancellationState) (q : list Task) closed cancelled woken :
  let '(r, _, q') := recv_upstream s q closed cancelled woken in
  match r with RTask (Some t) => q = t :: q' | _ => q' = q end.
Proof.
  unfold recv_upstream, recv.
  repeat case_match; by simplify_eq.
Qed.

Lemma recv_branch_ok cancelled woken (l : Loop) :
  inv l -> next_upstream_task l = None -> keeps_inv (recv_branch P cancelled woken) l.
Proof.
  intros Hi Hn. pose proof Hi as (Ho & Hc & Hp). unfold recv_branch.
  pose proof (recv_upstream_ok (fill_cancellation l) (rx l) (rx_closed l) cancelled woken) as Hr.
  unfold keeps_inv. unfold bind at 1. cbn [get].
  destruct (recv_upstream _ _ _ _ _) as [[r c] q]. unfold bind at 1. cbn [modify]. unfold bind at 1. cbn [modify].
  set (l1 := set_rx q (set_cancellation c l)).
  assert (forall m : LM unit, rx l1 = rx l -> glides m ->
    match m l1 with Val _ l' => inv l' /\ errored_stays l l' | Fail _ l' | Cancelled l' => inv_failed l' /\ errored_stays l l' | Panic => True end) as Hg.
  { intros m Hq Hm. apply (glides_keep m l1 Hm). split; [|done]. unfold l1 in *. cbn in *. by rewrite Hq. }
  destruct r as [[t|]|e|]; try (apply Hg; [exact Hr|]; glides_tac).
  change (keeps_inv (let! r := process_upstream_tasks P t in
    match r with Some b => after_tasks P (Some (was_upgraded P (d_down (l_session l1)))) b | None => ret tt end) l1).
  apply (held_bind _ _ l1).
  - apply process_ok; [|done..]. destruct Ho as (a & b & Ho & Ha & Hb). exists a, b. cbn. split_and!; [done| |done].
    rewrite Ha, Hn. cbn. by rewrite Hr.
  - intros [b|] l2 Hl2 _; apply glides_keep; try done; [apply glides_after_tasks|apply glides_ret].
Qed.

Lemma buffered_branch_ok (l : Loop) : inv l -> keeps_inv (buffered_branch P) l.
Proof.
  intros Hi. pose proof Hi as (Ho & Hc & Hp). unfold buffered_branch, keeps_inv. unfold bind at 1. cbn [get].
  destruct (next_upstream_task l) as [t|] eqn:Hn; [|apply (glides_keep _ l); [glides_tac|done]].
  unfold bind at 1. cbn [modify]. apply (held_bind _ _ (set_next None l)).
  - apply process_ok; [|done..]. destruct Ho as (a & b & Ho & Ha & Hb). exists a, b. cbn. by rewrite Ha.
  - intros [b|] l2 Hl2 _; apply glides_keep; try done; [apply glides_after_tasks|apply glides_ret].
Qed.

Lemma write_recv_branch_ok (l : Loop) : inv l -> next_upstream_task l = None -> keeps_inv write_recv_branch l.
Proof.
  intros (Ho & Hc & Hp) Hn. unfold write_recv_branch, keeps_inv, recv. unfold bind at 1. cbn [get].
  rewrite Hn in Ho. cbn [option_list app] in Ho.
  destruct (rx l) as [|t q] eqn:Hq; [destruct (rx_closed l)|]; cbn; (split; [|intros Hx; exact Hx]); (split; [|done]); cbn;
    rewrite ?Hn; exact Ho.
Qed.

Lemma run_branch_ok permit b (l : Loop) : inv l -> enabled P permit b l = true -> keeps_inv (run_branch P b) l.
Proof.
  intros Hi He. destruct b as [|closed| |c w| | |]; cbn [run_branch].
  - apply glides_keep; [apply glides_read|done].
  - apply glides_keep; [apply glides_down; intros; by apply maybe_finished_errored|done].
  - by apply buffered_branch_ok.
  - apply recv_branch_ok; [done|]. cbn in He. apply andb_prop in He as [_ He]. by apply bool_decide_eq_true in He.
  - apply glides_keep; [apply glides_serve|done].
  - apply glides_keep; [apply glides_write|done].
  - apply write_recv_branch_ok; [done|]. cbn in He. do 2 apply andb_prop in He as [He _].
    apply andb_prop in He as [_ He]. by apply bool_decide_eq_true in He.
Qed.

(** *** The end *)

(** The half returned: everything was handled in order, and the connection can be
    used again only after a whole request and a whole response. *)
Definition ended (reuse : bool) (l : Loop) : Prop :=
  in_order (option_list (next_upstream_task l) ++ rx l) l /\ pipe_state l = DownstreamComplete /\
  (reuse = true -> downstream_state l = ReadingFinished /\ downstream_finished_early (l_session l) = false /\
     (abandoned (l_session l) = false -> response_is_done (response_state l) = true)).

(** With nothing to wait for and the client still there, the work is done. *)
Lemma nothing_enabled permit (l : Loop) :
  inv l -> existsb (fun b => enabled P permit b l) branches = false -> is_errored (downstream_state l) = false ->
  downstream_state l = ReadingFinished /\ (abandoned (l_session l) = false -> response_is_done (response_state l) = true).
Proof.
  intros (_ & Hc & _) He Hd. cbn in He. rewrite Hd in He. cbn in He.
  destruct (downstream_state l); [destruct permit; done|clear Hd|done]. cbn in He. split; [done|]. intros Ha.
  unfold should_poll_upstream_tasks in He. rewrite Ha in He. unfold response_is_done.
  unfold cached_done in Hc. unfold l_serve in Hc.
  destruct permit; [done|]. cbn in He.
  destruct (bool_decide (next_upstream_task l = None)); [|done]. cbn in He.
  destruct (upstream_delivery_done (response_state l)); [|done]. cbn in He.
  destruct (cached_response_done (response_state l)); [done|]. rewrite (Hc eq_refl) in He. cbn in He.
  by destruct (has_pending_downstream_tasks P (l_session l)).
Qed.

Lemma end_half_ok (l : Loop) :
  inv l ->
  (is_errored (downstream_state l) = false ->
   downstream_state l = ReadingFinished /\ (abandoned (l_session l) = false -> response_is_done (response_state l) = true)) ->
  match end_half P l with
  | Val reuse l' => ended reuse l' /\ (is_errored (downstream_state l) = true -> reuse = false)
  | _ => False
  end.
Proof.
  intros (Ho & Hc & Hp) Hd. unfold end_half. unfold bind at 1. cbn [get].
  destruct (is_errored (downstream_state l)) eqn:Her; [by cbn|]. destruct (Hd eq_refl) as [Hrf Hrd]. clear Hd.
  destruct (downstream_finished_early (l_session l)) eqn:Hfe; [by cbn|].
  cbn. unfold lift, on_down, call, bind. destruct (finish_body P _) as [r d] eqn:Hfb. cbn.
  split; [|done]. split_and!; [exact Ho|done|]. intros _. by split_and!.
Qed.

Lemma work_done (l : Loop) :
  work_left l = false -> is_errored (downstream_state l) = false ->
  downstream_state l = ReadingFinished /\ (abandoned (l_session l) = false -> response_is_done (response_state l) = true).
Proof.
  unfold work_left, response_work_done. intros [Hd Hr]%orb_false_elim He. apply negb_false_iff in Hd, Hr.
  split; [by destruct (downstream_state l)|]. intros Ha. by rewrite Ha in Hr.
Qed.

(** How the half may end from [l]. *)
Definition good_end (l : Loop) (r : exec Loop Error bool) : Prop :=
  match r with
  | Val reuse l' => ended reuse l' /\ (is_errored (downstream_state l) = true -> reuse = false)
  | Fail _ l' | Cancelled l' => inv_failed l'
  | Panic => True
  end.

Lemma good_end_seq {A} (m : LM A) (k : A -> LM bool) (l : Loop) :
  keeps_inv m l -> (forall a l', inv l' -> good_end l' (k a l')) -> good_end l (bind m k l).
Proof.
  unfold keeps_inv, bind. intros Hm Hk. destruct (m l) as [a l'|e l'|l'|]; try done; [|by destruct Hm..].
  destruct Hm as [Hi He]. specialize (Hk a l' Hi). unfold good_end in *. destruct (k a l'); try done.
  destruct Hk as [Hk1 Hk2]. split; [done|]. intros Hx. by apply Hk2, He.
Qed.

Lemma duplex_ok evs : forall l : Loop, inv l -> good_end l (duplex P evs l).
Proof.
  assert (forall l : Loop, inv l ->
    (is_errored (downstream_state l) = false ->
     downstream_state l = ReadingFinished /\ (abandoned (l_session l) = false -> response_is_done (response_state l) = true)) ->
    good_end l (end_half P l)) as Hend.
  { intros l Hi Hd. pose proof (end_half_ok l Hi Hd) as He. by destruct (end_half P l). }
  induction evs as [|ev evs IH]; intros l Hi; cbn [duplex]; unfold bind at 1; cbn [get];
    (destruct (work_left l) eqn:Hw; [|apply Hend; [done|intros; by apply work_done]]); cbn [negb].
  { by apply inv_inv_failed. }
  destruct ev as [ts closed|permit b].
  - unfold bind. cbn [modify]. apply (IH (arrive ts closed l)). destruct Hi as ((a & b & Ho & Ha & Hb) & Hc & Hp).
    split; [|done]. exists a, b. cbn. rewrite Ha, <-!app_assoc. by split_and!.
  - unfold begin_round. apply good_end_seq; [by apply glides_keep; [apply (glides_cancellation_of)|]|].
    intros _ l0 Hi0. unfold bind at 1. cbn [get].
    destruct (existsb (fun b => enabled P permit b l0) branches) eqn:Hen; [|exact (Hend l0 Hi0 (nothing_enabled permit l0 Hi0 Hen))].
    apply good_end_seq; [|intros _ l1 Hi1; by apply IH].
    destruct (enabled P permit b l0) eqn:Heb; [by eapply run_branch_ok|by apply glides_keep; [apply glides_ret|]].
Qed.

Lemma loop_new_inv s : inv (loop_new P s).
Proof. split; [by exists [], []|done]. Qed.

Lemma glides_initial buffer finished reserved : glides (send_initial_body P buffer finished reserved).
Proof. unfold send_initial_body. glides_tac. Qed.

Lemma half_ok reserved evs s :
  match proxy_handle_downstream P reserved evs (loop_new P s) with
  | Val reuse l => ended reuse l /\ (abandoned (s_session s) = true -> reuse = false)
  | Fail _ l | Cancelled l => inv_failed l
  | Panic => True
  end.
Proof.
  unfold proxy_handle_downstream. unfold bind at 1. change (the_session (loop_new P s)) with (Val (E := Error) (s_session s) (loop_new P s)).
  cbn iota beta. unfold bind. pose proof (loop_new_inv s) as Hi.
  pose proof (glides_keep _ _ (glides_initial (get_retry_buffer P (d_down (s_session s))) (is_body_done P (d_down (s_session s))) reserved) Hi) as Hk.
  unfold keeps_inv in Hk. destruct (send_initial_body P _ _ _ _) as [u l1|e l1|l1|]; [|by apply Hk..|done].
  destruct Hk as [Hi1 He1]. pose proof (duplex_ok evs l1 Hi1) as Hd.
  destruct (duplex P evs l1) as [reuse l2| | |]; try done. destruct Hd as [Hd1 Hd2]. split; [done|].
  intros Ha. apply Hd2, He1. cbn. unfold for_proxy_attempt. by rewrite Ha.
Qed.

End loop.

(** C7: The tasks of a response are handled in order, once each.  For every
    interleaving of their arrival with the reads of the request, the writes of what
    the cache serves and the other branches, whatever the application, the modules,
    the cache and the downstream session answer, the tasks that were filtered and
    those that were discarded are together a beginning of those that arrived, in
    their order: first tasks are filtered, and only from the point where a stored
    response answers are they discarded.  When the half returns, what is left are
    the task it kept aside and those still in the pipe. *)
Theorem response_tasks_in_order {HMapT : Type} `{HeaderMap HMapT} {Down Ctx W R : Type} `{HandleHit W R}
    (P : @Parts HMapT Down Ctx) (s : @Source HMapT Down Ctx W R) reserved evs :
  match proxy_handle_downstream P reserved evs (loop_new P s) with
  | Val _ l => in_order (option_list (next_upstream_task l) ++ rx l) l
  | Fail _ l | Cancelled l => exists dropped, in_order dropped l
  | Panic => True
  end.
Proof.
  pose proof (half_ok P reserved evs s) as Hh. destruct (proxy_handle_downstream _ _ _ _); try done; try by destruct Hh.
  by destruct Hh as [(Ho & _) _].
Qed.


(** *** A run *)

(** A client that keeps what is written to it; the application changes nothing. *)
Definition plain : @Parts fields (list (@Fill.Task fields)) unit := {|
  read_body_or_idle _ d := (inr (Errors.new ConnectionClosed), d);
  is_body_done _ := true; is_body_empty d := (true, d); get_retry_buffer _ := None; retry_buffer_truncated _ := false;
  was_upgraded _ := false; is_upgrade_req _ := false; is_upgrade _ _ := None; is_response_complete _ := false;
  req_method _ := GET; response_written _ := false; supports_proxy_task_api _ := false;
  has_pending_downstream_proxy_tasks _ := false; queue_proxy_task _ d := d; write_proxy_tasks d := (inl false, d);
  response_duplex_vec ts d := (inl (existsb Fill.task_end ts), d ++ ts);
  finish_body d := (inl tt, d); on_proxy_failure _ d := d; set_keepalive_none d := d;
  answers _ x := (taking, x.2);
  upstream_response_filter h x := (inl h, x); upstream_response_body_filter d _ x := (inl d, x);
  upstream_response_trailer_filter t x := (inl t, x); response_filter h x := (inl h, x);
  response_body_filter d _ x := (inl d, x); request_body_filter d _ x := (inl d, x);
  cache_not_modified_filter _ x := (inl false, x.2); range_header_filter h x := (RNone, h, x.2);
  app_downstream_abandoned x := x.2; compress t x := (t, x); module_request_body d _ x := (inl d, x);
  module_header h _ x := (inl h, x); module_body d _ x := (inl d, x); module_trailer _ x := (inl None, x);
  module_done x := (inl None, x); world := empty_world
|}.

Definition plain_source : @Source fields (list (@Fill.Task fields)) unit (@Mem.MemCache Z _ _ unit) Mem.MemHitHandler :=
  MkSource (MkD (Flow.MkPSession new_session false false None []) false false None false false None None false, tt)
    Serve.Off filter_new ∅ no_store [].

#[local] Existing Instance Mem.mem_handle_hit.

(** A response in two tasks reaches the client, chunked, and the connection is kept;
    the end of the request goes upstream. *)
Example plain_exchange :
  let header := MkResponseHeader 200 [] in
  let evs := [EArrive [Fill.THeader header HTTP_11 false] false; EIter true (BRecv false false);
              EArrive [Fill.TBody (Some (bytes_of "ab")) true] true; EIter true (BRecv false false)] in
  match proxy_handle_downstream plain true evs (loop_new plain plain_source) with
  | Val reuse l =>
      reuse = true /\ tx l = [Fill.TBody None true] /\
      d_down (l_session l) =
        [Fill.THeader (MkResponseHeader 200 [(bytes_of "transfer-encoding", bytes_of "chunked")]) HTTP_11 false;
         Fill.TBody (Some (bytes_of "ab")) true]
  | _ => False
  end.
Proof. vm_compute. split_and!; reflexivity. Qed.
