(* ===== verification/Eviction.v ===== *)
(** * The eviction managers of the cache

    [src/pingora-cache/src/eviction/]: the identity of a cached entry ([mod.rs]) and the
    manager on one LRU under a lock ([simple_lru.rs]), each operation as one thread
    runs it alone.

    The crate [lru] is the interface of the connection pool with the operations the
    manager uses beside them.  The hashes, the encoding of nodes in [rmp_serde] and the
    files are parameters.  [None]: the fuel of a loop ran out. *)

From stdpp Require Import base list option numbers gmap.
From Stdlib Require Import ZArith Lia.
From S2P Require Import Prelude Pool CacheMeta CacheKey.
Local Open Scope Z_scope.

(** ** The crate *)

(** The least recently used entry is the first of [lc_list]; [lc_get_mut] writes
    through the reference it returns. *)
Class LruCrateMore (L : Type -> Type) {LC : LruCrate L} := {
  lc_push : forall {A}, Z -> A -> L A -> option (Z * A) * L A;
  lc_demote : forall {A}, Z -> L A -> L A;
  lc_get : forall {A}, Z -> L A -> option A * L A;
  lc_get_mut : forall {A}, Z -> (A -> A) -> L A -> option A * L A;
  lc_peek : forall {A}, Z -> L A -> option A;
  lc_push_spec {A} k (a : A) l :
    fst (lc_push k a l) = pair k <$> assoc_get k (lc_list l) /\
    lc_list (snd (lc_push k a l)) = filter (fun e => fst e <> k) (lc_list l) ++ [(k, a)];
  lc_demote_spec {A} k (l : L A) :
    lc_list (lc_demote k l) =
      match assoc_get k (lc_list l) with
      | Some a => (k, a) :: filter (fun e => fst e <> k) (lc_list l)
      | None => lc_list l
      end;
  lc_get_spec {A} k (l : L A) :
    fst (lc_get k l) = assoc_get k (lc_list l) /\
    lc_list (snd (lc_get k l)) =
      match assoc_get k (lc_list l) with
      | Some a => filter (fun e => fst e <> k) (lc_list l) ++ [(k, a)]
      | None => lc_list l
      end;
  lc_get_mut_spec {A} k f (l : L A) :
    fst (lc_get_mut k f l) = assoc_get k (lc_list l) /\
    lc_list (snd (lc_get_mut k f l)) =
      match assoc_get k (lc_list l) with
      | Some a => filter (fun e => fst e <> k) (lc_list l) ++ [(k, f a)]
      | None => lc_list l
      end;
  lc_peek_spec {A} k (l : L A) : lc_peek k l = assoc_get k (lc_list l);
  lc_iter_order {A} (l : L A) : lc_iter l = reverse (lc_list l)
}.

(** ** The identity of an entry *)

Record CacheEntryId := MkCacheEntryId { entry_id_get : Z }.

Inductive CacheEntryKey :=
| KeyOnly (key : CompactCacheKey)
| Identified (key : CompactCacheKey) (id : CacheEntryId).

Inductive CacheEntryKeyRef :=
| RefKeyOnly (key : CompactCacheKey)
| RefIdentified (key : CompactCacheKey) (id : CacheEntryId).

#[export] Instance CompactCacheKey_eq_dec : EqDecision CompactCacheKey.
Proof. solve_decision. Defined.
#[export] Instance CacheEntryId_eq_dec : EqDecision CacheEntryId.
Proof. solve_decision. Defined.
#[export] Instance CacheEntryKey_eq_dec : EqDecision CacheEntryKey.
Proof. solve_decision. Defined.

Definition from_entry_id (key : CompactCacheKey) (id : option CacheEntryId) : CacheEntryKey :=
  match id with Some id => Identified key id | None => KeyOnly key end.
Definition entry_key (e : CacheEntryKey) : CompactCacheKey :=
  match e with KeyOnly key | Identified key _ => key end.
Definition entry_id (e : CacheEntryKey) : option CacheEntryId :=
  match e with KeyOnly _ => None | Identified _ id => Some id end.

Definition ref_from_entry_id (key : CompactCacheKey) (id : option CacheEntryId) : CacheEntryKeyRef :=
  match id with Some id => RefIdentified key id | None => RefKeyOnly key end.
Definition entry_ref (e : CacheEntryKey) : CacheEntryKeyRef := ref_from_entry_id (entry_key e) (entry_id e).

(** ** [simple_lru.rs] *)

Module SimpleLru.

Record Node := MkNode { key : CacheEntryKey; size : Z }.

Section simple.
Context {L : Type -> Type} {LC : LruCrate L} {LM : LruCrateMore L} {E : Type}.
(** [u64key] *)
Variable hash : CacheEntryKeyRef -> Z.
(** [rmp_serde]: the nodes written; the nodes read until the first error. *)
Variable encode : list Node -> list byte + E.
Variable decode : list byte -> list Node * option E.

Record Manager := MkManager {
  lru : L Node;
  limit : Z;
  items_watermark : option Z;
  used : Z;
  items : Z;
  evicted_size : Z;
  evicted_items : Z
}.

Definition new_with_watermark (limit : Z) (items_watermark : option Z) : Manager :=
  MkManager lc_unbounded limit items_watermark 0 0 0 0.
Definition new_manager (limit : Z) : Manager := new_with_watermark limit None.

Definition set_lru (l : L Node) (m : Manager) : Manager :=
  MkManager l (limit m) (items_watermark m) (used m) (items m) (evicted_size m) (evicted_items m).
Definition set_used (u n : Z) (m : Manager) : Manager :=
  MkManager (lru m) (limit m) (items_watermark m) u n (evicted_size m) (evicted_items m).
Definition count_evicted (s : Z) (m : Manager) : Manager :=
  MkManager (lru m) (limit m) (items_watermark m) (used m) (items m) (wadd (evicted_size m) s) (wadd (evicted_items m) 1).

Definition u64key (k : CacheEntryKey) : Z := hash (entry_ref k).

Definition insert_node (hash_key : Z) (node : CacheEntryKey) (size_ : Z) (rev : bool) (m : Manager) : Manager :=
  let '(old, l) := lc_push hash_key (MkNode node size_) (lru m) in
  let l := if rev && bool_decide (old = None) then lc_demote hash_key l else l in
  let m := set_lru l m in
  match old with
  | Some (_, o) =>
      match size_ ?= size o with
      | Gt => set_used (wadd (used m) (wsub size_ (size o))) (items m) m
      | Lt => set_used (wsub (used m) (wsub (size o) size_)) (items m) m
      | Eq => m
      end
  | None => set_used (wadd (used m) size_) (wadd (items m) 1) m
  end.

Definition grown (delta : Z) (max_weight : option Z) (n : Node) : Z :=
  let incremented := saturating_add (size n) delta in
  match max_weight with None => incremented | Some m => Z.max (Z.min incremented m) (size n) end.

Definition increase_weight (k delta : Z) (max_weight : option Z) (m : Manager) : bool * Manager :=
  let '(found, l) := lc_get_mut k (fun n => MkNode (key n) (grown delta max_weight n)) (lru m) in
  let m := set_lru l m in
  match found with
  | None => (false, m)
  | Some n => (true, set_used (wadd (used m) (wsub (grown delta max_weight n) (size n))) (items m) m)
  end.

Definition over_limits (m : Manager) : bool :=
  (limit m <? used m) || match items_watermark m with Some w => w <? items m | None => false end.

Fixpoint evict_loop (fuel : nat) (m : Manager) : option (list CacheEntryKey * Manager) :=
  match fuel with
  | O => None
  | S fuel =>
      if over_limits m then
        let '(popped, l) := lc_pop_lru (lru m) in
        let m := set_lru l m in
        match popped with
        | Some (_, n) =>
            '(rest, m) ← evict_loop fuel (count_evicted (size n) (set_used (wsub (used m) (size n)) (wsub (items m) 1) m));
            Some (key n :: rest, m)
        | None => Some ([], m)
        end
      else Some ([], m)
  end.

Definition evict (m : Manager) : option (list CacheEntryKey * Manager) :=
  if (used m <=? limit m) && match items_watermark m with Some w => items m <=? w | None => true end then Some ([], m)
  else evict_loop (S (length (lc_list (lru m)))) m.

Definition total_size (m : Manager) : Z := used m.
Definition total_items (m : Manager) : Z := items m.

Definition admit_entry (item : CacheEntryKey) (size_ : Z) (m : Manager) : option (list CacheEntryKey * Manager) :=
  evict (insert_node (u64key item) item size_ false m).

Definition increment_weight (item : CacheEntryKey) (delta : Z) (max_weight : option Z) (m : Manager)
    : option (list CacheEntryKey * Manager) :=
  let '(found, m) := increase_weight (u64key item) delta max_weight m in
  evict (if found then m
         else insert_node (u64key item) item (Z.max (match max_weight with None => delta | Some w => Z.min delta w end) 1) false m).

Definition remove (item : CacheEntryKeyRef) (m : Manager) : Manager :=
  let '(node, l) := lc_pop (hash item) (lru m) in
  let m := set_lru l m in
  match node with Some n => set_used (wsub (used m) (size n)) (wsub (items m) 1) m | None => m end.

Definition access (item : CacheEntryKey) (size_ : Z) (m : Manager) : bool * Manager :=
  let '(found, l) := lc_get (u64key item) (lru m) in
  let m := set_lru l m in
  match found with None => (false, insert_node (u64key item) item size_ false m) | Some _ => (true, m) end.

Definition peek (item : CacheEntryKey) (m : Manager) : bool := bool_decide (is_Some (lc_peek (u64key item) (lru m))).

Definition serialize (m : Manager) : list byte + E := encode (snd <$> lc_iter (lru m)).
Definition visit_seq (nodes : list Node) (m : Manager) : Manager :=
  foldl (fun m n => insert_node (u64key (key n)) (key n) (size n) true m) m nodes.
Definition deserialize (buf : list byte) (m : Manager) : option E * Manager :=
  let '(nodes, error) := decode buf in (error, visit_seq nodes m).

(** [write] the file of the directory, or what [read] of it. *)
Definition save {F} (write : list byte -> F -> option E * F) (m : Manager) (f : F) : option E * F :=
  match serialize m with inl data => write data f | inr e => (Some e, f) end.
Definition load {F} (read : F -> list byte + E) (f : F) (m : Manager) : option E * Manager :=
  match read f with inl data => deserialize data m | inr e => (Some e, m) end.

End simple.
Arguments Manager : clear implicits.
End SimpleLru.
