(* ===== verification/EvictionSharded.v ===== *)
(** * The eviction manager on the sharded LRU

    [src/pingora-cache/src/eviction/lru.rs], on the LRU of [pingora-lru] ([Lru]).  The
    hash, the random choices of an eviction and the encoding of a shard are parameters.
    [None]: a panic, or the turns of an eviction ran out. *)

From stdpp Require Import base list option numbers gmap.
From Stdlib Require Import ZArith Lia.
From S2P Require Import Prelude CacheMeta CacheKey LinkedList Lru Eviction.
Local Open Scope Z_scope.

Module ShardedLru.

Section sharded.
Variable hash : CacheEntryKeyRef -> Z.
(** The random choices of one eviction, and a bound on its turns. *)
Variable rng : nat -> nat * nat.
Variable fuel : nat.

Notation Manager := (Lru CacheEntryKey).

Definition u64key (k : CacheEntryKey) : Z := hash (entry_ref k).
Definition get_shard_for_key (k : CacheEntryKey) (m : Manager) : option nat := get_shard (u64key k) (shards m).
Definition peek_lru_key (shard : nat) (m : Manager) : option CacheEntryKey := fst <$> peek_lru shard m.

Definition evicted_keys (m : Manager) : option (list CacheEntryKey * Manager) :=
  '(evicted, m) ← evict_to_limit fuel rng m; Some (evicted.*1, m).

Definition admit_entry (item : CacheEntryKey) (size : Z) (m : Manager) : option (list CacheEntryKey * Manager) :=
  '(_, m) ← lru_admit (u64key item) item size m; evicted_keys m.
Definition increment_weight (item : CacheEntryKey) (delta : Z) (max_weight : option Z) (m : Manager)
    : option (list CacheEntryKey * Manager) :=
  '(_, m) ← Lru.increment_weight (u64key item) item delta max_weight m; evicted_keys m.
Definition remove (item : CacheEntryKeyRef) (m : Manager) : option Manager :=
  '(_, m) ← lru_remove (hash item) m; Some m.
Definition access (item : CacheEntryKey) (size : Z) (m : Manager) : option (bool * Manager) :=
  '(promoted, m) ← lru_promote (u64key item) m;
  if promoted : bool then Some (true, m)
  else '(_, m) ← lru_admit (u64key item) item size m; Some (false, m).
Definition peek (item : CacheEntryKey) (m : Manager) : option bool := lru_peek (u64key item) m.
Definition peek_weight (item : CacheEntryKey) (m : Manager) : option (option Z) := lru_peek_weight (u64key item) m.

(** The nodes read until the first error, which is returned. *)
Fixpoint visit_seq (nodes : list (CacheEntryKey * Z)) (m : Manager) : option Manager :=
  match nodes with
  | [] => Some m
  | n :: nodes => '(_, m) ← insert_tail (u64key n.1) n.1 n.2 m; visit_seq nodes m
  end.
Definition deserialize_shard {E} (decode : list byte -> list (CacheEntryKey * Z) * option E) (buf : list byte) (m : Manager)
    : option (option E * Manager) :=
  let '(nodes, error) := decode buf in m ← visit_seq nodes m; Some (error, m).

End sharded.
End ShardedLru.
