(* ===== verification/EvictionSpec.v ===== *)
(** * The eviction managers: proofs

    On [SimpleLru]: the entries in order of use, the account of sizes and items, and
    what an eviction takes; on [ShardedLru]: the limits of the sharded LRU after an
    admission; and a manager that is saved and loaded. *)

From stdpp Require Import base list option numbers gmap strings.
From Stdlib Require Import ZArith Lia.
From S2P Require Import Prelude Pool PoolSpec CacheMeta CacheKey LinkedList Lru LruSpec Eviction EvictionSharded.
Local Open Scope Z_scope.

(** ** Entries by key *)

Section entries.
Context {A : Type}.
Implicit Types es : list (Z * A).

Definition others k es : list (Z * A) := filter (fun e => fst e <> k) es.

Lemma others_not_in k es : k ∉ (others k es).*1.
Proof. intros (e & -> & [Hne _]%list_elem_of_filter)%list_elem_of_fmap. done. Qed.
Lemma others_keys_nodup k es : NoDup es.*1 -> NoDup (others k es).*1.
Proof.
  unfold others. induction es as [|[i a] es IH]; [done|]. intros [Hi Hn]%NoDup_cons. rewrite filter_cons. case_decide; [|by apply IH].
  apply NoDup_cons. split; [|by apply IH]. intros (e & He & [_ Hin]%list_elem_of_filter)%list_elem_of_fmap. apply Hi.
  apply list_elem_of_fmap. by exists e.
Qed.
Lemma touched_nodup k a es : NoDup es.*1 -> NoDup (others k es ++ [(k, a)]).*1.
Proof.
  intros Hn. rewrite fmap_app. apply NoDup_app. split_and!; [by apply others_keys_nodup| |apply NoDup_singleton].
  intros i Hi Hk. apply list_elem_of_singleton in Hk as ->. by apply others_not_in in Hi.
Qed.

Lemma assoc_get_missing k es : assoc_get k es = None <-> k ∉ es.*1.
Proof.
  induction es as [|[i a] es IH]; [split; [intros _; apply not_elem_of_nil|done]|]. cbn. rewrite not_elem_of_cons.
  destruct (Z.eqb_spec i k); [split; [done|intros []; congruence]|]. rewrite IH. intuition congruence.
Qed.
Lemma assoc_get_split k a es :
  NoDup es.*1 -> assoc_get k es = Some a -> exists es1 es2, es = es1 ++ (k, a) :: es2 /\ others k es = es1 ++ es2.
Proof.
  unfold others. induction es as [|[i b] es IH]; [done|]. cbn [fmap list_fmap assoc_get fst]. intros [Hi Hn]%NoDup_cons.
  destruct (Z.eqb_spec i k) as [->|Hik].
  - intros [= ->]. exists [], es. rewrite filter_cons_False by (cbn; tauto). split; [done|]. by apply filter_absent.
  - intros Ha. destruct (IH Hn Ha) as (es1 & es2 & -> & Ho). rewrite filter_cons_True by done.
    exists ((i, b) :: es1), es2. split; [done|]. cbn. by f_equal.
Qed.
Lemma assoc_get_in k a es : assoc_get k es = Some a -> (k, a) ∈ es.
Proof.
  induction es as [|[i b] es IH]; [done|]. cbn. destruct (Z.eqb_spec i k) as [->|_]; [intros [= ->]; left|right; auto].
Qed.
Lemma assoc_get_last k a es : k ∉ es.*1 -> assoc_get k (es ++ [(k, a)]) = Some a /\ others k (es ++ [(k, a)]) = es.
Proof.
  intros Hk. split.
  - induction es as [|[i b] es IH]; cbn; [by rewrite Z.eqb_refl|]. apply not_elem_of_cons in Hk as [Hi Hk].
    rewrite (proj2 (Z.eqb_neq i k)) by (cbn in *; congruence). by apply IH.
  - unfold others. rewrite filter_app, filter_absent by done. rewrite filter_cons_False by (cbn; tauto). by rewrite filter_nil, app_nil_r.
Qed.

End entries.

(** ** The simple manager *)

Module SimpleProofs.
Import SimpleLru.

Section simple.
Context {L : Type -> Type} {LC : LruCrate L} {LM : LruCrateMore L} {E : Type}.
Variable hash : CacheEntryKeyRef -> Z.
Notation Manager := (Manager L).
Notation Entries := (list (Z * Node)).

Definition entries (m : Manager) : Entries := lc_list (lru m).
Definition total (es : Entries) : Z := foldr (fun e n => size e.2 + n) 0 es.

(** The entries are under the hash of their key, and the counters are the sums. *)
Record ok (m : Manager) : Prop := {
  ok_keys : NoDup (entries m).*1;
  ok_nodes : Forall (fun e => e.1 = u64key hash (key e.2) /\ is_usize (size e.2)) (entries m);
  ok_used : used m = total (entries m) mod usize_mod;
  ok_items : items m = zlen (entries m) mod usize_mod;
  ok_evicted : is_usize (evicted_size m) /\ is_usize (evicted_items m)
}.

Definition bounds_ok (m : Manager) : Prop := 0 <= limit m /\ match items_watermark m with Some w => 0 <= w | None => True end.
Definition same_bounds (m m' : Manager) : Prop := limit m' = limit m /\ items_watermark m' = items_watermark m.
Definition within (m : Manager) : Prop :=
  total_size m <= limit m /\ match items_watermark m with Some w => total_items m <= w | None => True end.

Lemma total_app es es' : total (es ++ es') = total es + total es'.
Proof. induction es; simpl; lia. Qed.

Lemma total_perm es es' : es ≡ₚ es' -> total es = total es'.
Proof. induction 1; simpl; lia. Qed.
Lemma total_others h n es :
  NoDup es.*1 -> assoc_get h es = Some n -> total es = size n + total (others h es) /\ zlen es = 1 + zlen (others h es).
Proof.
  intros Hn (es1 & es2 & -> & ->)%assoc_get_split; [|done]. rewrite !total_app, !zlen_app, zlen_cons. simpl. lia.
Qed.

Lemma add_difference a b c : wadd a (wsub b c) = (a + (b - c)) mod usize_mod.
Proof. unfold wadd, wsub. apply Zplus_mod_idemp_r. Qed.
Lemma sub_difference a b c : wsub a (wsub b c) = (a + (c - b)) mod usize_mod.
Proof. unfold wsub. rewrite Zminus_mod_idemp_r. f_equal. lia. Qed.

Definition same_rest (m m' : Manager) : Prop :=
  limit m' = limit m /\ items_watermark m' = items_watermark m /\
  evicted_size m' = evicted_size m /\ evicted_items m' = evicted_items m.

(** What the counters have to do when the node of [h] is [n] now. *)
Definition recounted (h : Z) (n : Node) (m m' : Manager) : Prop :=
  match assoc_get h (entries m) with
  | Some o => used m' = (used m + (size n - size o)) mod usize_mod /\ items m' = items m
  | None => used m' = wadd (used m) (size n) /\ items m' = wadd (items m) 1
  end.

Lemma touched_ok m m' h n :
  ok m -> entries m' ≡ₚ (h, n) :: others h (entries m) -> h = u64key hash (key n) -> is_usize (size n) ->
  recounted h n m m' -> same_rest m m' -> ok m'.
Proof.
  intros [Hk Hns Hu Hi Hev] Hp Hh Hs Hc (_ & _ & Hes & Hei). pose proof (others_not_in h (entries m)) as Hno. unfold recounted in Hc. split.
  - rewrite Hp. apply NoDup_cons. split; [done|by apply others_keys_nodup].
  - rewrite Hp. apply Forall_cons. split; [done|]. apply Forall_forall. intros e [_ Hin]%list_elem_of_filter.
    by eapply Forall_forall in Hns.
  - rewrite (total_perm _ _ Hp). simpl. destruct (assoc_get h (entries m)) as [o|] eqn:Ho.
    + destruct (total_others _ _ _ Hk Ho) as [Ht _]. destruct Hc as [-> _]. rewrite Hu, Zplus_mod_idemp_l. f_equal. lia.
    + apply assoc_get_missing in Ho. destruct Hc as [-> _]. unfold others. rewrite filter_absent by done. unfold wadd.
      rewrite Hu, Zplus_mod_idemp_l. f_equal. lia.
  - unfold zlen. rewrite (Permutation_length Hp). fold (zlen ((h, n) :: others h (entries m))). rewrite zlen_cons.
    destruct (assoc_get h (entries m)) as [o|] eqn:Ho.
    + destruct (total_others _ _ _ Hk Ho) as [_ Hl]. destruct Hc as [_ ->]. by rewrite Hi, Hl.
    + apply assoc_get_missing in Ho. destruct Hc as [_ ->]. unfold others. rewrite filter_absent by done. unfold wadd.
      rewrite Hi, Zplus_mod_idemp_l. f_equal. lia.
  - by rewrite Hes, Hei.
Qed.

(** The entry of [h] becomes the most recently used; a restored one the least. *)
Definition placed (rev : bool) (h : Z) (n : Node) (es : Entries) : Entries :=
  if rev && bool_decide (assoc_get h es = None) then (h, n) :: es else others h es ++ [(h, n)].

Lemma insert_node_ok k s rev m :
  ok m -> is_usize s ->
  let m' := insert_node (u64key hash k) k s rev m in
  ok m' /\ same_rest m m' /\ entries m' = placed rev (u64key hash k) (MkNode k s) (entries m).
Proof.
  intros Ho Hs m'. set (h := u64key hash k) in *.
  assert (same_rest m m' /\ entries m' = placed rev h (MkNode k s) (entries m) /\ recounted h (MkNode k s) m m') as (Hr & He & Hc).
  { unfold m', insert_node, placed, recounted. destruct (lc_push_spec h (MkNode k s) (lru m)) as [Hf Hl].
    destruct (lc_push _ _ _) as [old l]. cbn [fst snd] in *. fold (entries m) in *. subst old.
    destruct (assoc_get h (entries m)) as [o|] eqn:Ha; cbn [fmap option_fmap option_map].
    - rewrite !bool_decide_eq_false_2, andb_false_r by done. cbn [size].
      split_and!; (destruct (Z.compare_spec s (size o)) as [->|Hlt|Hgt]; try done; try exact Hl).
      all: cbn [used items set_used set_lru]; rewrite ?add_difference, ?sub_difference; try done.
      rewrite (ok_used _ Ho). by rewrite Z.sub_diag, Z.add_0_r, Z.mod_mod.
    - rewrite !bool_decide_eq_true_2, andb_true_r by done. split_and!; try done. unfold entries. cbn [lru set_used set_lru].
      destruct rev; [|exact Hl]. rewrite lc_demote_spec, Hl. apply assoc_get_missing in Ha.
      rewrite (filter_absent h (entries m) Ha). destruct (assoc_get_last h (MkNode k s) (entries m) Ha) as [-> Hx].
      unfold others in Hx. by rewrite Hx. }
  split_and!; try done. apply (touched_ok m m' h (MkNode k s)); try done. rewrite He. unfold placed. case_match eqn:Hcs.
  - apply andb_prop in Hcs as [_ Ha%bool_decide_eq_true%assoc_get_missing]. unfold others. by rewrite filter_absent.
  - symmetry. apply Permutation_cons_append.
Qed.

Lemma increase_weight_ok k delta max m :
  ok m -> is_usize delta -> match max with Some w => is_usize w | None => True end ->
  let '(found, m') := increase_weight (u64key hash k) delta max m in
  ok m' /\ same_rest m m' /\
  match assoc_get (u64key hash k) (entries m) with
  | Some n => found = true /\
      entries m' = placed false (u64key hash k) (MkNode (key n) (grown delta max n)) (entries m)
  | None => found = false /\ entries m' = entries m
  end.
Proof.
  intros Ho Hd Hm. set (h := u64key hash k). unfold increase_weight.
  destruct (lc_get_mut_spec h (fun n => MkNode (key n) (grown delta max n)) (lru m)) as [Hf Hl].
  destruct (lc_get_mut _ _ _) as [found l]. cbn [fst snd] in *. fold (entries m) in *. subst found.
  destruct (assoc_get h (entries m)) as [n|] eqn:Ha.
  2: { split_and!; try done. destruct Ho as [H1 H2 H3 H4 H5]. split; unfold entries; cbn [lru set_lru used items evicted_size evicted_items]; by rewrite ?Hl. }
  pose proof (ok_nodes _ Ho) as Hns. pose proof (assoc_get_in _ _ _ Ha) as Hin. rewrite Forall_forall in Hns.
  destruct (Hns _ Hin) as [Hh Hs]. cbn [fst snd] in *.
  assert (is_usize (grown delta max n)) as Hg by (unfold grown; destruct max; uz).
  split_and!; try done.
  eapply (touched_ok m _ h (MkNode (key n) (grown delta max n))); try done.
  - unfold entries. cbn [lru set_used set_lru]. rewrite Hl. symmetry. apply Permutation_cons_append.
  - unfold recounted. rewrite Ha. cbn [used items set_used set_lru size]. by rewrite add_difference.
Qed.

(** *** Eviction *)

Definition exceeds (m : Manager) (es : Entries) : Prop :=
  limit m < total es mod usize_mod \/
  match items_watermark m with Some w => w < zlen es mod usize_mod | None => False end.

Lemma over_limits_exceeds m : ok m -> over_limits m = true <-> exceeds m (entries m).
Proof.
  intros [_ _ Hu Hi _]. unfold over_limits, exceeds. rewrite Hu, Hi, orb_true_iff, Z.ltb_lt.
  destruct (items_watermark m); [by rewrite Z.ltb_lt|]. intuition congruence.
Qed.
Lemma over_limits_within m : over_limits m = false <-> within m.
Proof.
  unfold over_limits, within, total_size, total_items. rewrite orb_false_iff, Z.ltb_ge.
  destruct (items_watermark m); [by rewrite Z.ltb_ge|tauto].
Qed.

(** What went are the least recently used entries, and each of them had to go. *)
Record evicted (m : Manager) (gone : list CacheEntryKey) (m' : Manager) : Prop := {
  ev_ok : ok m';
  ev_bounds : same_bounds m m';
  ev_within : within m';
  ev_oldest : exists out, entries m = out ++ entries m' /\ gone = (fun e => key e.2) <$> out /\
    evicted_size m' = (evicted_size m + total out) mod usize_mod /\
    (forall out1 e out2, out = out1 ++ e :: out2 -> exceeds m (e :: out2 ++ entries m'));
  ev_count : evicted_items m' = (evicted_items m + zlen gone) mod usize_mod
}.

Lemma nothing_evicted m : ok m -> within m -> evicted m [] m.
Proof.
  intros Ho Hw. destruct (ok_evicted _ Ho). split; [done|done|done|exists []; split_and!; [done|done| |]|].
  - simpl. rewrite Z.add_0_r, Z.mod_small; [done|uz].
  - by intros [].
  - rewrite zlen_nil, Z.add_0_r, Z.mod_small; [done|uz].
Qed.

Lemma empty_within m : ok m -> bounds_ok m -> entries m = [] -> within m.
Proof.
  intros [_ _ Hu Hi _] [Hl Hw] He. unfold within, total_size, total_items. rewrite Hu, Hi, He. change (zlen (A := Z * Node) []) with 0. cbn [total foldr].
  rewrite Z.mod_0_l by done.
  split; [done|]. by destruct (items_watermark m).
Qed.

(** One turn of the loop. *)
Definition popped (h : Z) (n : Node) (l : L Node) (m : Manager) : Manager :=
  count_evicted (size n) (set_used (wsub (used m) (size n)) (wsub (items m) 1) (set_lru l m)).

Lemma popped_ok h n l es m :
  ok m -> entries m = (h, n) :: es -> lc_list l = es -> ok (popped h n l m).
Proof.
  intros [Hk Hn Hu Hi Hev] He Hl. rewrite He in *. apply NoDup_cons in Hk as [_ Hk]. apply Forall_cons in Hn as [_ Hn].
  split; unfold entries; cbn [popped count_evicted set_used set_lru lru used items evicted_size evicted_items]; rewrite ?Hl; try done.
  - rewrite Hu. simpl. unfold wsub. rewrite Zminus_mod_idemp_l. f_equal. lia.
  - rewrite Hi, zlen_cons. unfold wsub. rewrite Zminus_mod_idemp_l. f_equal. lia.
  - split; apply wadd_usize.
Qed.

Lemma evict_loop_ok fuel : forall m,
  ok m -> bounds_ok m -> (length (entries m) < fuel)%nat ->
  exists gone m', evict_loop fuel m = Some (gone, m') /\ evicted m gone m'.
Proof.
  induction fuel as [|fuel IH]; intros m Ho Hb Hf; [lia|]. cbn [evict_loop].
  destruct (over_limits m) eqn:Hov; [|exists [], m; split; [done|]; by apply nothing_evicted, over_limits_within].
  destruct (lc_pop_lru_spec (lru m)) as [Hp Hl]. destruct (lc_pop_lru (lru m)) as [p l]. cbn [fst snd] in *. fold (entries m) in *.
  destruct (entries m) as [|[h n] es] eqn:He; subst p.
  - pose proof (empty_within m Ho Hb He) as Hw%over_limits_within. congruence.
  - cbn [list.tail] in Hl. change (list.head ((h, n) :: es)) with (Some (h, n)). cbn iota beta.
    pose proof (popped_ok h n l es m Ho He Hl) as Ho'.
    destruct (IH (popped h n l m)) as (gone & m' & Hrun & [K1 K2 K3 (out & K4 & K5 & K6 & K7) K8]); [done|done|unfold entries; cbn; rewrite Hl; cbn in *; lia|].
    exists (key n :: gone), m'. split.
    { change (('(rest, m) ← evict_loop fuel (popped h n l m); Some (key n :: rest, m)) = Some (key n :: gone, m')). by rewrite Hrun. }
    split; [done|done|done| |].
    + exists ((h, n) :: out). change (entries (popped h n l m)) with (lc_list l) in K4.
      assert (entries m = ((h, n) :: out) ++ entries m') as He' by (by rewrite He, <- Hl, K4). split_and!.
      * exact He'.
      * by rewrite K5.
      * rewrite K6. change (total ((h, n) :: out)) with (size n + total out).
        change (evicted_size (popped h n l m)) with (wadd (evicted_size m) (size n)). unfold wadd.
        rewrite Zplus_mod_idemp_l. f_equal. lia.
      * intros [|e1 out1] e out2 [= <- Heq]; [subst out|]; cbn.
        -- change ((h, n) :: out2 ++ entries m') with (((h, n) :: out2) ++ entries m'). rewrite <- He'. by apply over_limits_exceeds.
        -- subst out. by apply (K7 out1).
    + rewrite K8, zlen_cons. change (evicted_items (popped h n l m)) with (wadd (evicted_items m) 1). unfold wadd. rewrite Zplus_mod_idemp_l. f_equal. lia.
Qed.

Lemma simple_evict_ok m : ok m -> bounds_ok m -> exists gone m', evict m = Some (gone, m') /\ evicted m gone m'.
Proof.
  intros Ho Hb. unfold evict.
  destruct ((used m <=? limit m) && _) eqn:Hw; [|apply evict_loop_ok; [done..|unfold entries; lia]].
  exists [], m. split; [done|]. apply nothing_evicted; [done|]. apply andb_prop in Hw as [Hu%Z.leb_le Hi]. split; [done|].
  destruct (items_watermark m); [by apply Z.leb_le|done].
Qed.

(** *** The operations *)

Inductive Op :=
| OAdmit (item : CacheEntryKey) (size : Z)
| OIncrement (item : CacheEntryKey) (delta : Z) (max_weight : option Z)
| ORemove (item : CacheEntryKeyRef)
| OAccess (item : CacheEntryKey) (size : Z)
| OLoad (nodes : list Node).

Definition run_op (o : Op) (m : Manager) : option (list CacheEntryKey * Manager) :=
  match o with
  | OAdmit item s => admit_entry hash item s m
  | OIncrement item delta max => increment_weight hash item delta max m
  | ORemove item => Some ([], remove hash item m)
  | OAccess item s => Some ([], (access hash item s m).2)
  | OLoad nodes => Some ([], visit_seq hash nodes m)
  end.
Fixpoint run_ops (os : list Op) (m : Manager) : option (list CacheEntryKey * Manager) :=
  match os with
  | [] => Some ([], m)
  | o :: os => '(gone, m) ← run_op o m; '(gone', m) ← run_ops os m; Some (gone ++ gone', m)
  end.

(** Arguments are [usize]s. *)
Definition op_ok (o : Op) : Prop :=
  match o with
  | OAdmit _ s | OAccess _ s => is_usize s
  | OIncrement _ delta max => is_usize delta /\ match max with Some w => is_usize w | None => True end
  | ORemove _ => True
  | OLoad nodes => Forall (fun n => is_usize (size n)) nodes
  end.

(** The entries before the eviction. *)
Definition after_op (o : Op) (es : Entries) : Entries :=
  match o with
  | OAdmit item s => placed false (u64key hash item) (MkNode item s) es
  | OIncrement item delta max =>
      match assoc_get (u64key hash item) es with
      | Some n => placed false (u64key hash item) (MkNode (key n) (grown delta max n)) es
      | None => placed false (u64key hash item) (MkNode item (Z.max (match max with Some w => Z.min delta w | None => delta end) 1)) es
      end
  | ORemove item => others (hash item) es
  | OAccess item s =>
      match assoc_get (u64key hash item) es with
      | Some n => placed false (u64key hash item) n es
      | None => placed false (u64key hash item) (MkNode item s) es
      end
  | OLoad nodes => foldl (fun es n => placed true (u64key hash (key n)) n es) es nodes
  end.
Definition evicts (o : Op) : bool := match o with OAdmit _ _ | OIncrement _ _ _ => true | _ => false end.

Lemma simple_remove_ok item m :
  ok m -> ok (remove hash item m) /\ same_rest m (remove hash item m) /\ entries (remove hash item m) = others (hash item) (entries m).
Proof.
  intros Ho. unfold remove. destruct (lc_pop_spec (hash item) (lru m)) as [Hf Hl].
  destruct (lc_pop _ _) as [node l]. cbn [fst snd] in *. fold (entries m) in *. subst node.
  assert (forall u n, (u, n) = match assoc_get (hash item) (entries m) with
    | Some n => (wsub (used m) (size n), wsub (items m) 1) | None => (used m, items m) end ->
    ok (set_used u n (set_lru l m))) as Hok.
  { destruct Ho as [H1 H2 H3 H4 H5]. intros u n Hun.
    split; unfold entries; cbn [lru set_lru set_used used items evicted_size evicted_items]; rewrite ?Hl.
    - by apply others_keys_nodup.
    - apply Forall_forall. intros e [_ Hin]%list_elem_of_filter. by eapply Forall_forall in H2.
    - destruct (assoc_get (hash item) (entries m)) as [o|] eqn:Ho; injection Hun as -> ->.
      + destruct (total_others _ _ _ H1 Ho) as [Ht _]. rewrite H3, Ht. unfold wsub. rewrite Zminus_mod_idemp_l. f_equal. unfold others. lia.
      + apply assoc_get_missing in Ho. by rewrite filter_absent.
    - destruct (assoc_get (hash item) (entries m)) as [o|] eqn:Ho; injection Hun as -> ->.
      + destruct (total_others _ _ _ H1 Ho) as [_ Hz]. rewrite H4, Hz. unfold wsub. rewrite Zminus_mod_idemp_l. f_equal. unfold others. lia.
      + apply assoc_get_missing in Ho. by rewrite filter_absent.
    - done. }
  destruct (assoc_get (hash item) (entries m)) as [n|]; (split_and!; [|done..|exact Hl]).
  - by apply Hok.
  - by apply (Hok (used m) (items m)).
Qed.

Lemma visit_seq_ok nodes : forall m,
  ok m -> Forall (fun n => is_usize (size n)) nodes ->
  ok (visit_seq hash nodes m) /\ same_rest m (visit_seq hash nodes m) /\
  entries (visit_seq hash nodes m) = after_op (OLoad nodes) (entries m).
Proof.
  unfold visit_seq. induction nodes as [|[k s] nodes IH]; intros m Ho Hs; [done|]. apply Forall_cons in Hs as [Hs Hss].
  cbn [foldl after_op key size]. destruct (insert_node_ok k s true m Ho Hs) as (H1 & H2 & H3).
  destruct (IH _ H1 Hss) as (K1 & K2 & K3). split_and!; [done| |].
  - unfold same_rest in *. intuition congruence.
  - rewrite K3. cbn [after_op]. by rewrite H3.
Qed.

Lemma simple_access_ok item s m :
  ok m -> is_usize s ->
  let m' := (access hash item s m).2 in
  ok m' /\ same_rest m m' /\ entries m' = after_op (OAccess item s) (entries m).
Proof.
  intros Ho Hs m'. unfold m', access. set (h := u64key hash item). destruct (lc_get_spec h (lru m)) as [Hf Hl].
  destruct (lc_get _ _) as [found l]. cbn [fst snd] in *. fold (entries m) in *. subst found. cbn [after_op]. fold h.
  destruct (assoc_get h (entries m)) as [n|] eqn:Ha; cbn [snd].
  - split_and!; try done. pose proof (ok_nodes _ Ho) as Hns. rewrite Forall_forall in Hns.
    destruct (Hns _ (assoc_get_in _ _ _ Ha)) as [Hh Hn]. cbn [fst snd] in *.
    apply (touched_ok m _ h n); try done.
    + unfold entries. cbn [lru set_lru]. rewrite Hl. symmetry. apply Permutation_cons_append.
    + unfold recounted. rewrite Ha. cbn [used items set_lru]. rewrite Z.sub_diag, Z.add_0_r, (ok_used _ Ho), Z.mod_mod; done.
  - assert (ok (set_lru l m)) as Ho'.
    { destruct Ho as [H1 H2 H3 H4 H5]. split; unfold entries; cbn [lru set_lru used items evicted_size evicted_items]; by rewrite ?Hl. }
    destruct (insert_node_ok item s false _ Ho' Hs) as (H1 & H2 & H3). split_and!; [done|done|]. refine (eq_trans H3 _). unfold entries at 1.
    cbn [lru set_lru]. by rewrite Hl.
Qed.

(** What an operation takes out: the least recently used entries, each because what
    was there with it exceeds the limits; nothing where it only tracks. *)
Definition taken (o : Op) (m : Manager) (gone : list CacheEntryKey) (m' : Manager) : Prop :=
  exists out, after_op o (entries m) = out ++ entries m' /\ gone = (fun e => key e.2) <$> out /\
    (evicts o = false -> out = []) /\
    (forall out1 e out2, out = out1 ++ e :: out2 -> exceeds m (e :: out2 ++ entries m')) /\
    evicted_size m' = (evicted_size m + total out) mod usize_mod /\
    evicted_items m' = (evicted_items m + zlen gone) mod usize_mod.

Record stepped (o : Op) (m : Manager) (gone : list CacheEntryKey) (m' : Manager) : Prop := {
  st_ok : ok m';
  st_bounds : same_bounds m m';
  st_within : evicts o = true -> within m';
  st_taken : taken o m gone m'
}.

Lemma stepped_tracks o m m' :
  evicts o = false -> ok m' -> same_rest m m' -> entries m' = after_op o (entries m) -> stepped o m [] m'.
Proof.
  intros Hev Ho (H1 & H2 & H3 & H4) He. destruct (ok_evicted _ Ho) as [H5 H6]. split; [done|done|by rewrite Hev|].
  exists []. split_and!; [by rewrite He|done|done|by intros []|..].
  - rewrite H3 in H5. rewrite H3. simpl. rewrite Z.add_0_r, Z.mod_small; [done|uz].
  - rewrite H4 in H6. rewrite H4, zlen_nil, Z.add_0_r, Z.mod_small; [done|uz].
Qed.

Lemma stepped_evicts o m m1 :
  evicts o = true -> ok m1 -> bounds_ok m -> same_rest m m1 -> entries m1 = after_op o (entries m) ->
  exists gone m', evict m1 = Some (gone, m') /\ stepped o m gone m'.
Proof.
  intros Hev Ho [Hb1 Hb2] (H1 & H2 & H3 & H4) He.
  destruct (simple_evict_ok m1 Ho) as (gone & m' & Hrun & [K1 [K2 K2'] K3 (out & K4 & K5 & K6 & K7) K8]).
  { split; [by rewrite H1|by rewrite H2]. }
  exists gone, m'. split; [done|]. split; [done|split; congruence|done|]. exists out. unfold exceeds in *. rewrite H1, H2 in K7.
  split_and!; [by rewrite <- He|done|by rewrite Hev|done|by rewrite K6, H3|by rewrite K8, H4].
Qed.

Lemma run_op_ok o m : ok m -> bounds_ok m -> op_ok o -> exists gone m', run_op o m = Some (gone, m') /\ stepped o m gone m'.
Proof.
  intros Ho Hb Hop. destruct o as [item s|item delta max|item|item s|nodes]; cbn [run_op op_ok] in *.
  - destruct (insert_node_ok item s false m Ho Hop) as (H1 & H2 & H3). by apply stepped_evicts.
  - destruct Hop as [Hd Hm]. unfold increment_weight. pose proof (increase_weight_ok item delta max m Ho Hd Hm) as Hi.
    destruct (increase_weight _ _ _ _) as [found m1]. destruct Hi as (H1 & H2 & H3).
    destruct (assoc_get (u64key hash item) (entries m)) as [n|] eqn:Ha; destruct H3 as [-> H3].
    + apply stepped_evicts; try done. cbn [after_op]. by rewrite Ha.
    + set (s := Z.max _ 1). assert (is_usize s) as Hs by (unfold s; destruct max; uz).
      destruct (insert_node_ok item s false m1 H1 Hs) as (K1 & K2 & K3). apply stepped_evicts; try done.
      * unfold same_rest in *. intuition congruence.
      * cbn [after_op]. rewrite Ha, K3, H3. unfold s. by destruct max.
  - destruct (simple_remove_ok item m Ho) as (H1 & H2 & H3). eexists _, _. split; [done|]. by apply stepped_tracks.
  - destruct (simple_access_ok item s m Ho Hop) as (H1 & H2 & H3). eexists _, _. split; [done|]. by apply stepped_tracks.
  - destruct (visit_seq_ok nodes m Ho Hop) as (H1 & H2 & H3). eexists _, _. split; [done|]. by apply stepped_tracks.
Qed.

Lemma run_ops_ok os : forall m,
  ok m -> bounds_ok m -> Forall op_ok os ->
  exists gone m', run_ops os m = Some (gone, m') /\ ok m' /\ same_bounds m m' /\
    evicted_items m' = (evicted_items m + zlen gone) mod usize_mod.
Proof.
  induction os as [|o os IH]; intros m Ho Hb Hos; cbn [run_ops].
  - exists [], m. split_and!; [done|done|done|]. destruct (ok_evicted _ Ho) as [_ H6]. rewrite zlen_nil, Z.add_0_r, Z.mod_small; [done|uz].
  - apply Forall_cons in Hos as [Hop Hos]. destruct (run_op_ok o m Ho Hb Hop) as (gone & m1 & -> & [H1 [H2 H2'] _ (out & _ & _ & _ & _ & _ & H3)]).
    cbn [mbind option_bind]. destruct (IH m1 H1) as (gone' & m' & -> & K1 & [K2 K2'] & K3); [|done|].
    { destruct Hb as [Hb1 Hb2]. split; [by rewrite H2|by rewrite H2']. }
    cbn [mbind option_bind]. eexists _, _. split_and!; [done|done|split; congruence|].
    rewrite K3, H3, zlen_app, Zplus_mod_idemp_l. f_equal. lia.
Qed.

Lemma simple_new_ok l w : ok (new_with_watermark l w).
Proof.
  split; unfold entries; cbn [lru new_with_watermark used items evicted_size evicted_items]; rewrite ?lc_unbounded_spec; try done.
  constructor.
Qed.

(** *** A manager that is saved and loaded *)


End simple.

(** C38: The simple eviction manager.  After any operations on a new manager - they
    all return - its counters are the sums over the entries it tracks and over what
    it evicted.  One more operation leaves what it says of the entries in the order
    of their use, less the least recently used ones; these are returned, and each of
    them had to go, as with it a limit is exceeded.  After an admission or a growth
    the limits hold, and tracking alone evicts nothing. *)
Theorem simple_manager_evicts {L : Type -> Type} {LC : LruCrate L} {LM : LruCrateMore L} (hash : CacheEntryKeyRef -> Z)
    os o l w :
  Forall op_ok os -> op_ok o -> 0 <= l -> match w with Some w => 0 <= w | None => True end ->
  exists gone (m : Manager L) gone' m',
    run_ops hash os (new_with_watermark l w) = Some (gone, m) /\ run_op hash o m = Some (gone', m') /\
    total_size m = total (entries m) mod usize_mod /\ total_items m = zlen (entries m) mod usize_mod /\
    evicted_items m = zlen gone mod usize_mod /\
    (evicts o = true -> within m') /\ taken hash o m gone' m'.
Proof.
  intros Hos Hop Hl Hw. assert (bounds_ok (new_with_watermark (L := L) l w)) as Hb by done.
  destruct (run_ops_ok hash os _ (simple_new_ok hash l w) Hb Hos) as (gone & m & Hrun & Ho & [Hb1 Hb2] & Hc).
  destruct (run_op_ok hash o m Ho) as (gone' & m' & Hrun' & [H1 H2 H3 H4]); [by unfold bounds_ok; rewrite Hb1, Hb2|done|].
  exists gone, m, gone', m'. split_and!; [done|done|apply (ok_used _ _ Ho)|apply (ok_items _ _ Ho)|exact Hc|done|done].
Qed.


(** *** The theorems at a concrete manager *)

#[export] Instance list_lru_more : LruCrateMore ListLru.
Proof.
  refine {|
    lc_push A k a l := (pair k <$> assoc_get k l, filter (fun e => fst e <> k) l ++ [(k, a)]);
    lc_demote A k l := match assoc_get k l with Some a => (k, a) :: filter (fun e => fst e <> k) l | None => l end;
    lc_get A k l :=
      (assoc_get k l, match assoc_get k l with Some a => filter (fun e => fst e <> k) l ++ [(k, a)] | None => l end);
    lc_get_mut A k f l :=
      (assoc_get k l, match assoc_get k l with Some a => filter (fun e => fst e <> k) l ++ [(k, f a)] | None => l end);
    lc_peek A k l := assoc_get k l |}; done.
Defined.

Definition wit_entry (b : byte) : CacheEntryKey := KeyOnly (MkCompactCacheKey [b] None []).
Definition wit_hash (r : CacheEntryKeyRef) : Z :=
  match r with RefKeyOnly k | RefIdentified k _ => foldr (fun b n => byte_val b + 256 * n) 0 (compact_primary k) end.

(** Three entries of a total of 6, the first used again. *)
Definition wit_ops : list Op :=
  [OAdmit (wit_entry Byte.x01) 3; OAdmit (wit_entry Byte.x02) 2; OAdmit (wit_entry Byte.x03) 1; OAccess (wit_entry Byte.x01) 9].
Definition wit_op : Op := OIncrement (wit_entry Byte.x03) 4 (Some 5).

Lemma simple_manager_evicts_witness :
  exists (m m' : Manager ListLru),
    run_ops wit_hash wit_ops (new_with_watermark 8 None) = Some ([], m) /\
    run_op wit_hash wit_op m = Some ([wit_entry Byte.x02], m') /\ total_size m = 6 /\ within m' /\ total_size m' = 8.
Proof.
  destruct (simple_manager_evicts (L := ListLru) wit_hash wit_ops wit_op 8 None) as (gone & m & gone' & m' & H1 & H2 & H3 & _ & _ & H6 & _).
  - repeat (apply Forall_cons; split); [simpl; uz..|constructor].
  - simpl. split; uz.
  - lia.
  - done.
  - vm_compute in H1. injection H1 as <- <-. vm_compute in H2. injection H2 as <- <-.
    eexists _, _. split; [vm_compute; reflexivity|]. split; [vm_compute; reflexivity|]. split; [exact H3|]. split; [by apply H6|done].
Defined.




End SimpleProofs.

(** ** The sharded manager *)

Module ShardedProofs.
Import ShardedLru.

Lemma lru_admit_limits {T} key (d : T) w l i l' :
  lru_admit key d w l = Some (i, l') -> weight_limit l' = weight_limit l /\ len_watermark l' = len_watermark l.
Proof.
  unfold lru_admit, apply_weight_change. intros Hr.
  destruct (lock key l) as [[j u]|]; [|done]. cbn [mbind option_bind] in Hr.
  destruct (unit_admit _ _ _ u) as [[old u']|]; [|done]. cbn [mbind option_bind] in Hr.
  injection Hr as _ <-. by repeat case_match.
Qed.

Lemma admitted_sums {T} k (d : T) w i (vss : list (list (Z * (T * Z)))) vs :
  1 <= w -> Forall weights_ok vss -> vss !! i = Some vs ->
  let vss' := alter (fun vs => (spec_uop (UAdmit k d w) vs).2) i vss in
  total vss' <= total vss + w /\ count vss' <= count vss + 1.
Proof.
  intros Hw Hws Hi vss'. unfold vss'. rewrite (alter_at _ _ _ _ Hi), (total_insert _ _ _ _ Hi), (count_insert _ _ _ _ Hi).
  cbn [spec_uop]. destruct (find k vs) as [[d0 w0]|] eqn:Hf; cbn [snd]; rewrite vsum_cons, zlen_cons; [|lia].
  destruct (del_effect _ _ _ _ Hf) as [-> ->]. eapply Forall_lookup_1 in Hws; [|done].
  pose proof (find_weight _ _ _ _ Hws Hf). lia.
Qed.

(** Admission to the sharded manager: the entry is the most recently used of its
    shard, the limits hold again, and only least recently used entries of the shards
    are returned to be evicted. *)
Theorem sharded_manager_admits hash rng fuel item size (m : Lru CacheEntryKey) vss :
  lru_ok m vss -> units m <> [] -> Forall (fun vs => zlen vs + OFFSET < MAX_SLOTS) vss -> rng_ok (length (units m)) rng ->
  is_usize size -> total vss + Z.max size 1 < usize_mod -> count vss + 1 < usize_mod -> count vss + 1 < Z.of_nat fuel ->
  0 <= weight_limit m -> match len_watermark m with Some w => 0 <= w | None => True end ->
  exists i gone m' vss', get_shard_for_key hash item m = Some i /\ admit_entry hash rng fuel item size m = Some (gone, m') /\
    let vss1 := alter (fun vs => (spec_uop (UAdmit (u64key hash item) item (Z.max size 1)) vs).2) i vss in
    lru_ok m' vss' /\ within_limits m' /\ evicted_tails vss1 vss' /\ count vss1 = count vss' + zlen gone.
Proof.
  intros Ho Hne Hroom Hr Hs Ht Hc Hf Hl Hw.
  destruct (gop_admit m vss Ho Hne Hroom (u64key hash item) item size Hs) as (i & m1 & Hi & Hrun & Ho1 & Hlen). cbn [gop_key run_gop] in *.
  destruct (lru_admit _ _ _ _) as [[j m2]|] eqn:Hadm; [|done]. injection Hrun as ->.
  destruct (lru_admit_limits _ _ _ _ _ _ Hadm) as [Hl1 Hw1].
  destruct (lru_lock m vss (u64key hash item) Ho Hne) as (i' & u & vs & _ & _ & Hvs & _ & _ & Hi').
  assert (i' = i) as -> by congruence.
  destruct (admitted_sums (u64key hash item) item (Z.max size 1) i vss vs) as [Ht1 Hc1]; [lia|apply (lo_pos _ _ Ho)|done|].
  change (spec_gop (GAdmit (u64key hash item) item size))
    with (fun vs : list (Z * (CacheEntryKey * Z)) => (spec_uop (UAdmit (u64key hash item) item (Z.max size 1)) vs).2) in Ho1.
  set (vss1 := alter _ i vss) in *.
  destruct (evict_loop_spec fuel rng 0 m1 vss1 Ho1) as (items & m' & vss' & He & Ho' & Hin & _ & Hev & _ & Hcn);
    rewrite ?Hl1, ?Hw1, ?Hlen; try done.
  { intros Hn. rewrite Hn in Hlen. by destruct (units m). }
  1-3: lia.
  exists i, items.*1, m', vss'. split; [exact Hi|]. split.
  { unfold admit_entry. rewrite Hadm. cbn [mbind option_bind]. unfold evicted_keys, evict_to_limit. by rewrite He. }
  split_and!; try done. unfold zlen in *. by rewrite length_fmap.
Qed.
End ShardedProofs.
