(* ===== verification/Predictor.v ===== *)
(** * The cacheability predictor

    [src/pingora-cache/src/predictor.rs] and the sharded LRU of
    [src/pingora-cache/src/hashtable.rs] it keeps the uncacheable keys in, each call
    as one thread runs it alone.  [lru::LruCache] with a capacity is an interface;
    [None]: the panic of a remainder by no shards. *)

From stdpp Require Import base list option numbers.
From Stdlib Require Import ZArith Lia.
From S2P Require Import Prelude Pool CacheMeta CacheKey.
Local Open Scope Z_scope.

(** [lru::LruCache::new(cap)], its least recently used entry first. *)
Class LruBoundedCrate (B : Type -> Type) := {
  lb_new : forall {A}, nat -> B A;
  lb_put : forall {A}, Z -> A -> B A -> option A * B A;
  lb_pop : forall {A}, Z -> B A -> option A * B A;
  lb_peek : forall {A}, Z -> B A -> option A;
  lb_contains : forall {A}, Z -> B A -> bool;
  lb_list : forall {A}, B A -> list (Z * A);
  lb_cap : forall {A}, B A -> nat;
  lb_new_spec {A} n : lb_list (lb_new (A := A) n) = [] /\ lb_cap (lb_new (A := A) n) = n;
  lb_put_spec {A} k (a : A) b :
    fst (lb_put k a b) = assoc_get k (lb_list b) /\ lb_cap (snd (lb_put k a b)) = lb_cap b /\
    lb_list (snd (lb_put k a b)) =
      match assoc_get k (lb_list b) with
      | Some _ => filter (fun e => fst e <> k) (lb_list b)
      | None => if (lb_cap b <=? length (lb_list b))%nat then tail (lb_list b) else lb_list b
      end ++ [(k, a)];
  lb_pop_spec {A} k (b : B A) :
    fst (lb_pop k b) = assoc_get k (lb_list b) /\ lb_cap (snd (lb_pop k b)) = lb_cap b /\
    lb_list (snd (lb_pop k b)) = filter (fun e => fst e <> k) (lb_list b);
  lb_peek_spec {A} k (b : B A) : lb_peek k b = assoc_get k (lb_list b);
  lb_contains_spec {A} k (b : B A) : lb_contains k b = bool_decide (is_Some (assoc_get k (lb_list b)))
}.

Module Predict.
Section predictor.
Context {B : Type -> Type} {BC : LruBoundedCrate B}.

(** ** [hashtable.rs] *)

Definition get_shard (key : Z) (n_shards : nat) : option nat :=
  if (n_shards =? 0)%nat then None else Some (Z.to_nat (key mod Z.of_nat n_shards)).

Record ConcurrentLruCache (V : Type) := MkCache { lrus : list (B V) }.
Arguments MkCache {V} lrus.
Arguments lrus {V} c.

Definition cache_new {V} (n_shards : nat) (shard_capacity : Z) : ConcurrentLruCache V :=
  let cap := if shard_capacity =? 0 then 1%nat else Z.to_nat shard_capacity in
  MkCache (replicate n_shards (lb_new cap)).

Definition cache_get {V} (key : Z) (c : ConcurrentLruCache V) : option (nat * B V) :=
  match get_shard key (length (lrus c)) with
  | Some i => match lrus c !! i with Some b => Some (i, b) | None => None end
  | None => None
  end.
Definition cache_set {V} (i : nat) (b : B V) (c : ConcurrentLruCache V) : ConcurrentLruCache V := MkCache (<[i := b]> (lrus c)).

(** ** [predictor.rs] *)

Record Predictor := MkPredictor {
  uncacheable_keys : ConcurrentLruCache NoCacheReason;
  skip_custom_reasons_fn : option (list byte -> bool)
}.

Definition predictor_new (n_shards : nat) (shard_capacity : Z) (skip : option (list byte -> bool)) : Predictor :=
  MkPredictor (cache_new n_shards shard_capacity) skip.

Definition set_keys (c : ConcurrentLruCache NoCacheReason) (p : Predictor) : Predictor :=
  MkPredictor c (skip_custom_reasons_fn p).

(** [u128::from_be_bytes(key.primary_bin())]. *)
Definition from_be_bytes (bs : list byte) : Z := foldl (fun n b => 256 * n + byte_val b) 0 bs.

Section keys.
Context {K : Type} {HK : CacheHashKey K}.

Definition key_of (k : K) : Z := from_be_bytes (primary_bin k).

Definition predicted_uncacheable_reason (k : K) (p : Predictor) : option (option NoCacheReason) :=
  match cache_get (key_of k) (uncacheable_keys p) with
  | Some (_, b) => Some (lb_peek (key_of k) b)
  | None => None
  end.
Definition cacheable_prediction (k : K) (p : Predictor) : option bool :=
  match predicted_uncacheable_reason k p with
  | Some r => Some (match r with None => true | Some _ => false end)
  | None => None
  end.

Definition mark_cacheable (k : K) (p : Predictor) : option (bool * Predictor) :=
  match cache_get (key_of k) (uncacheable_keys p) with
  | Some (i, b) =>
      if negb (lb_contains (key_of k) b) then Some (true, p)
      else Some (false, set_keys (cache_set i (lb_pop (key_of k) b).2 (uncacheable_keys p)) p)
  | None => None
  end.

(** Whether a response that was not cached for [reason] says nothing of the next one. *)
Definition skipped (skip : option (list byte -> bool)) (reason : NoCacheReason) : bool :=
  match reason with
  | NeverEnabled | StorageError | InternalError | Deferred | CacheLockGiveUp | CacheLockTimeout | CacheLockRetryLimit
  | DeclinedToUpstream | UpstreamError | PredictedResponseTooLarge => true
  | CustomReason name => match skip with Some f => f name | None => false end
  | OriginNotCache | ResponseTooLarge => false
  end.

Definition mark_uncacheable (k : K) (reason : NoCacheReason) (p : Predictor) : option (option bool * Predictor) :=
  if skipped (skip_custom_reasons_fn p) reason then Some (None, p)
  else
    match cache_get (key_of k) (uncacheable_keys p) with
    | Some (i, b) =>
        let '(old, b) := lb_put (key_of k) reason b in
        Some (Some (bool_decide (old = None)), set_keys (cache_set i b (uncacheable_keys p)) p)
    | None => None
    end.

End keys.
End predictor.
End Predict.
