(* ===== verification/PredictorSpec.v ===== *)
(** * The cacheability predictor: proofs

    What a prediction says of the marks before it, and when a mark is forgotten. *)

From stdpp Require Import base list option numbers gmap fin_sets.
From Stdlib Require Import ZArith Lia.
From S2P Require Import Prelude Pool PoolSpec CacheMeta CacheKey EvictionSpec Predictor.
Import Predict.
Local Open Scope Z_scope.

(** ** Keys used after another *)

Section newer.
Context {A : Type}.
Implicit Types es : list (Z * A).

Fixpoint newer (z : Z) es : list Z :=
  match es with [] => [] | (i, _) :: es => if i =? z then es.*1 else newer z es end.

Lemma newer_keys z es : newer z es ⊆ es.*1.
Proof. induction es as [|[i a] es IH]; cbn; [done|]. destruct (i =? z); set_solver. Qed.
Lemma newer_snoc z h a es : z <> h -> newer z (es ++ [(h, a)]) ⊆ h :: newer z es.
Proof.
  intros Hz. induction es as [|[i b] es IH]; cbn.
  - rewrite (proj2 (Z.eqb_neq h z)) by done. set_solver.
  - destruct (i =? z); [|done]. rewrite fmap_app. cbn. set_solver.
Qed.
Lemma newer_last z a es : z ∉ es.*1 -> newer z (es ++ [(z, a)]) = [].
Proof.
  induction es as [|[i b] es IH]; cbn; [by rewrite Z.eqb_refl|]. intros [Hi Hn]%not_elem_of_cons.
  rewrite (proj2 (Z.eqb_neq i z)) by (cbn in *; congruence). by apply IH.
Qed.
Lemma newer_others z h es : newer z (others h es) ⊆ newer z es.
Proof.
  unfold others. induction es as [|[i b] es IH]; [done|]. rewrite filter_cons. case_decide as Hi; cbn.
  - destruct (i =? z); [|done]. intros x (e & -> & [_ Hin]%list_elem_of_filter)%list_elem_of_fmap. apply list_elem_of_fmap. by exists e.
  - destruct (i =? z); [|done]. etrans; [exact IH|]. apply newer_keys.
Qed.

Lemma assoc_get_others z h es : z <> h -> assoc_get z (others h es) = assoc_get z es.
Proof.
  intros Hz. unfold others. induction es as [|[i b] es IH]; [done|]. rewrite filter_cons. case_decide as Hi; cbn; [by rewrite IH|].
  rewrite (proj2 (Z.eqb_neq i z)); [done|]. cbn in Hi. destruct (Z.eq_dec i h); [congruence|done].
Qed.
Lemma assoc_get_snoc z h a es : z <> h -> assoc_get z (es ++ [(h, a)]) = assoc_get z es.
Proof.
  intros Hz. induction es as [|[i b] es IH]; cbn; [by rewrite (proj2 (Z.eqb_neq h z)) by done|]. by rewrite IH.
Qed.
End newer.

(** ** The marks *)

(** A mark that counts: the key, and the reason it is not cacheable for, if any. *)
Notation Mark := (Z * option NoCacheReason)%type.

Definition last_mark (z : Z) (ms : list Mark) : option NoCacheReason :=
  foldl (fun acc m => if m.1 =? z then m.2 else acc) None ms.
(** The other keys of its shard that were marked uncacheable since. *)
Definition marked_since (n : nat) (z : Z) (ms : list Mark) : gset Z :=
  foldl (fun acc m =>
    if m.1 =? z then ∅
    else if bool_decide (get_shard m.1 n = get_shard z n /\ is_Some m.2) then {[m.1]} ∪ acc else acc) ∅ ms.

Section marks.
Context {B : Type -> Type} {BC : LruBoundedCrate B}.
Notation Cache := (ConcurrentLruCache (B := B) NoCacheReason).
Variable n : nat.
Variable cap : nat.

Definition tracks (ms : list Mark) (z : Z) (es : list (Z * NoCacheReason)) : Prop :=
  match assoc_get z es with
  | Some r => last_mark z ms = Some r /\ forall x, x ∈ newer z es -> x ∈ marked_since n z ms
  | None => last_mark z ms = None \/ (cap <= size (marked_since n z ms))%nat
  end.

Record shard_ok (ms : list Mark) (i : nat) (b : B NoCacheReason) : Prop := {
  so_cap : lb_cap b = cap;
  so_keys : NoDup (lb_list b).*1;
  so_len : (length (lb_list b) <= cap)%nat;
  so_tracks : forall z, get_shard z n = Some i -> tracks ms z (lb_list b)
}.

Definition cache_ok (ms : list Mark) (c : Cache) : Prop :=
  length (lrus _ c) = n /\ forall i b, lrus _ c !! i = Some b -> shard_ok ms i b.

Lemma last_mark_snoc z ms m : last_mark z (ms ++ [m]) = if m.1 =? z then m.2 else last_mark z ms.
Proof. unfold last_mark. by rewrite foldl_app. Qed.
Lemma marked_since_snoc z ms m :
  marked_since n z (ms ++ [m]) =
    if m.1 =? z then ∅
    else if bool_decide (get_shard m.1 n = get_shard z n /\ is_Some m.2) then {[m.1]} ∪ marked_since n z ms else marked_since n z ms.
Proof. unfold marked_since. by rewrite foldl_app. Qed.

(** A mark in another shard. *)
Lemma tracks_elsewhere ms m z es : get_shard m.1 n <> get_shard z n -> tracks ms z es -> tracks (ms ++ [m]) z es.
Proof.
  intros Hs. unfold tracks. rewrite last_mark_snoc, marked_since_snoc. rewrite (proj2 (Z.eqb_neq m.1 z)) by congruence.
  rewrite bool_decide_eq_false_2 by tauto. done.
Qed.

(** The key is cacheable. *)
Lemma tracks_cacheable ms h z es : NoDup es.*1 -> tracks ms z es -> tracks (ms ++ [(h, None)]) z (others h es).
Proof.
  intros Hn Ht. unfold tracks in *. rewrite last_mark_snoc, marked_since_snoc. cbn [fst snd].
  rewrite (bool_decide_eq_false_2 (_ /\ is_Some None)) by (intros [_ []]; done).
  destruct (Z.eqb_spec h z) as [->|Hz].
  - rewrite (proj2 (assoc_get_missing z _)) by apply others_not_in. by left.
  - rewrite assoc_get_others by done. destruct (assoc_get z es); [|done]. destruct Ht as [H1 H2]. split; [done|].
    intros x Hx%newer_others. by apply H2.
Qed.

(** The entries without the one that makes room for [h], or of [h] itself. *)
Definition room_for (h : Z) (es : list (Z * NoCacheReason)) : list (Z * NoCacheReason) :=
  match assoc_get h es with
  | Some _ => others h es
  | None => if (cap <=? length es)%nat then tail es else es
  end.

Lemma tail_keys (es : list (Z * NoCacheReason)) x : x ∈ (tail es).*1 -> x ∈ es.*1.
Proof. destruct es; cbn; [done|]. by right. Qed.

Lemma room_for_ok h es :
  (0 < cap)%nat -> NoDup es.*1 -> (length es <= cap)%nat ->
  h ∉ (room_for h es).*1 /\ NoDup (room_for h es).*1 /\ (length (room_for h es) < cap)%nat.
Proof.
  intros Hc Hn Hl. unfold room_for. destruct (assoc_get h es) as [r|] eqn:Ha.
  - split_and!; [apply others_not_in|by apply others_keys_nodup|]. destruct (assoc_get_split _ _ _ Hn Ha) as (es1 & es2 & -> & ->).
    rewrite length_app in *. cbn in Hl. lia.
  - apply assoc_get_missing in Ha. destruct (Nat.leb_spec cap (length es)) as [Hf|Hf]; [|done]. split_and!.
    + intros Hh. by apply Ha, tail_keys.
    + destruct es; [done|]. by apply NoDup_cons in Hn as [_ Hn].
    + destruct es; cbn in *; lia.
Qed.

(** The least recently marked key of a full shard is forgotten. *)
Lemma forgotten ms h z r (es : list (Z * NoCacheReason)) :
  NoDup ((z, r) :: es).*1 -> h ∉ ((z, r) :: es).*1 -> (cap <= S (length es))%nat ->
  (forall x, x ∈ es.*1 -> x ∈ marked_since n z ms) -> (cap <= size ({[h]} ∪ marked_since n z ms : gset Z))%nat.
Proof.
  intros Hn Hh Hc Hs. etrans; [exact Hc|]. cbn in Hn, Hh. apply NoDup_cons in Hn as [_ Hn]. apply not_elem_of_cons in Hh as [_ Hh].
  transitivity (size (list_to_set (h :: es.*1) : gset Z)).
  - rewrite size_list_to_set; [cbn; by rewrite length_fmap|]. by apply NoDup_cons.
  - apply subseteq_size. intros x. rewrite elem_of_list_to_set, elem_of_cons, elem_of_union, elem_of_singleton.
    intros [->|Hx]; [by left|right; by apply Hs].
Qed.

Lemma tracks_uncacheable ms h r z es :
  get_shard h n = get_shard z n -> (0 < cap)%nat -> NoDup es.*1 -> (length es <= cap)%nat -> tracks ms z es ->
  tracks (ms ++ [(h, Some r)]) z (room_for h es ++ [(h, r)]).
Proof.
  intros Hsh Hc Hn Hl Ht. destruct (room_for_ok h es Hc Hn Hl) as (Hh & _ & _).
  unfold tracks in *. rewrite last_mark_snoc, marked_since_snoc. cbn [fst snd].
  destruct (Z.eqb_spec h z) as [->|Hz].
  { destruct (assoc_get_last z r _ Hh) as [-> _]. split; [done|]. rewrite newer_last by done. by intros x ?%elem_of_nil. }
  rewrite (bool_decide_eq_true_2 (_ /\ is_Some (Some r))) by (split; [done|by eexists]). rewrite assoc_get_snoc by done.
  assert (forall es', assoc_get z es' = assoc_get z es -> (forall x, x ∈ newer z es' -> x ∈ newer z es) ->
    match assoc_get z es' with
    | Some r0 => last_mark z ms = Some r0 /\ (forall x, x ∈ newer z (es' ++ [(h, r)]) -> x ∈ {[h]} ∪ marked_since n z ms)
    | None => last_mark z ms = None \/ (cap <= size ({[h]} ∪ marked_since n z ms : gset Z))%nat
    end) as Hkeep.
  { intros es' -> Hnew. destruct (assoc_get z es) as [r0|].
    - destruct Ht as [H1 H2]. split; [done|]. intros x Hx%newer_snoc; [|done]. apply elem_of_cons in Hx as [->|Hx]; [set_solver|].
      apply elem_of_union_r, H2, Hnew, Hx.
    - destruct Ht as [Ht|Ht]; [by left|right]. etrans; [exact Ht|]. apply subseteq_size. set_solver. }
  unfold room_for in *. destruct (assoc_get h es) as [r1|] eqn:Ha.
  - apply Hkeep; [by apply assoc_get_others|]. intros x. apply newer_others.
  - destruct (Nat.leb_spec cap (length es)) as [Hf|Hf]; [|by apply Hkeep]. apply assoc_get_missing in Ha.
    destruct es as [|[i a] es]; [by apply Hkeep|]. destruct (Z.eqb_spec i z) as [->|Hi]; [|by apply Hkeep; cbn; rewrite (proj2 (Z.eqb_neq i z))].
    cbn [assoc_get newer] in *. rewrite Z.eqb_refl in *. destruct Ht as [_ H2]. cbn [tail].
    rewrite (proj2 (assoc_get_missing z es)) by (by apply NoDup_cons in Hn as [Hn _]). right. by eapply forgotten.
Qed.
End marks.

(** ** The predictor *)

Section calls.
Context {B : Type -> Type} {BC : LruBoundedCrate B} {K : Type} {HK : CacheHashKey K}.
Notation Predictor := (Predictor (B := B)).

Inductive Call := Cacheable (k : K) | Uncacheable (k : K) (reason : NoCacheReason).

Definition run_call (c : Call) (p : Predictor) : option Predictor :=
  match c with
  | Cacheable k => match mark_cacheable k p with Some (_, p) => Some p | None => None end
  | Uncacheable k reason => match mark_uncacheable k reason p with Some (_, p) => Some p | None => None end
  end.
Fixpoint run_calls (cs : list Call) (p : Predictor) : option Predictor :=
  match cs with [] => Some p | c :: cs => match run_call c p with Some p => run_calls cs p | None => None end end.

(** The marks that count. *)
Definition counted (skip : option (list byte -> bool)) (c : Call) : list Mark :=
  match c with
  | Cacheable k => [(key_of k, None)]
  | Uncacheable k reason => if skipped skip reason then [] else [(key_of k, Some reason)]
  end.

Variables (n cap : nat).
Hypotheses (Hn : (0 < n)%nat) (Hcap : (0 < cap)%nat).
Notation cache_ok := (cache_ok (B := B) n cap).
Notation shard_ok := (shard_ok (B := B) n cap).

Lemma cache_get_ok ms c z :
  cache_ok ms c -> exists i b, cache_get z c = Some (i, b) /\ get_shard z n = Some i /\ lrus _ c !! i = Some b /\ shard_ok ms i b.
Proof.
  intros [Hl Hs]. unfold cache_get, get_shard. rewrite Hl, (proj2 (Nat.eqb_neq n 0)) by lia.
  assert (is_Some (lrus _ c !! Z.to_nat (z mod Z.of_nat n))) as [b Hb].
  { apply lookup_lt_is_Some. rewrite Hl. pose proof (Z.mod_pos_bound z (Z.of_nat n)). lia. }
  rewrite Hb. eexists _, b. split_and!; [done..|]. by apply Hs.
Qed.

Lemma cache_set_ok ms c h v i b :
  cache_ok ms c -> get_shard h n = Some i -> shard_ok (ms ++ [(h, v)]) i b -> cache_ok (ms ++ [(h, v)]) (cache_set i b c).
Proof.
  intros [Hl Hs] Hi Hb. split; [cbn; by rewrite length_insert|]. intros j b' Hj. cbn in Hj.
  destruct (decide (j = i)) as [->|Hji].
  - apply list_lookup_insert_Some in Hj as [(_ & <- & _)|[? _]]; done.
  - rewrite list_lookup_insert_ne in Hj by done. destruct (Hs _ _ Hj) as [H1 H2 H3 H4]. split; [done..|].
    intros z Hz. apply tracks_elsewhere; [cbn; congruence|]. by apply H4.
Qed.

Lemma cache_set_same (c : ConcurrentLruCache (B := B) NoCacheReason) i b : lrus _ c !! i = Some b -> cache_set i b c = c.
Proof. intros Hb. unfold cache_set. destruct c as [l]. cbn in *. by rewrite list_insert_id. Qed.

Lemma run_call_ok c p ms :
  cache_ok ms (uncacheable_keys p) ->
  exists p', run_call c p = Some p' /\ skip_custom_reasons_fn p' = skip_custom_reasons_fn p /\
    cache_ok (ms ++ counted (skip_custom_reasons_fn p) c) (uncacheable_keys p').
Proof.
  intros Hok. destruct c as [k|k reason]; cbn [run_call counted].
  - unfold mark_cacheable. destruct (cache_get_ok ms _ (key_of k) Hok) as (i & b & -> & Hi & Hb & [H1 H2 H3 H4]).
    destruct (lb_pop_spec (key_of k) b) as (_ & Hpc & Hpl). fold (others (key_of k) (lb_list b)) in Hpl.
    assert (length (others (key_of k) (lb_list b)) <= cap)%nat as Hlen by (etrans; [apply length_filter|done]).
    rewrite lb_contains_spec. case_bool_decide as Hin; cbn [negb]; eexists; (split; [done|]); (split; [done|]).
    + apply cache_set_ok; [done..|]. split; [congruence|rewrite Hpl; by apply others_keys_nodup|by rewrite Hpl|].
      intros z Hz. rewrite Hpl. apply tracks_cacheable; [done|by apply H4].
    + rewrite <- (cache_set_same _ _ _ Hb). apply cache_set_ok; [done..|]. split; [done..|]. intros z Hz.
      assert (others (key_of k) (lb_list b) = lb_list b) as <-; [|by apply tracks_cacheable; [|apply H4]].
      apply filter_absent, assoc_get_missing. by apply eq_None_not_Some.
  - unfold mark_uncacheable. destruct (skipped _ reason).
    { eexists. split; [done|]. split; [done|]. by rewrite app_nil_r. }
    destruct (cache_get_ok ms _ (key_of k) Hok) as (i & b & -> & Hi & Hb & [H1 H2 H3 H4]).
    destruct (lb_put_spec (key_of k) reason b) as (_ & Hpc & Hpl). destruct (lb_put _ _ _) as [old b']. cbn [fst snd] in *.
    rewrite H1 in Hpl. change (lb_list b' = room_for cap (key_of k) (lb_list b) ++ [(key_of k, reason)]) in Hpl.
    destruct (room_for_ok cap (key_of k) (lb_list b) Hcap H2 H3) as (K1 & K2 & K3).
    eexists. split; [done|]. split; [done|]. apply cache_set_ok; [done..|]. split; [congruence|..]; rewrite Hpl.
    + rewrite fmap_app. apply NoDup_app. split_and!; [done| |apply NoDup_singleton]. intros x Hx ->%list_elem_of_singleton. done.
    + rewrite length_app. cbn. lia.
    + intros z Hz. apply tracks_uncacheable; try done; [congruence|by apply H4].
Qed.

Lemma run_calls_ok cs : forall p ms,
  cache_ok ms (uncacheable_keys p) ->
  exists p', run_calls cs p = Some p' /\ skip_custom_reasons_fn p' = skip_custom_reasons_fn p /\
    cache_ok (ms ++ (cs ≫= counted (skip_custom_reasons_fn p))) (uncacheable_keys p').
Proof.
  induction cs as [|c cs IH]; intros p ms Hok; cbn [run_calls].
  { exists p. split_and!; [done..|]. cbn. by rewrite app_nil_r. }
  destruct (run_call_ok c p ms Hok) as (p1 & -> & Hs & Hok1). destruct (IH p1 _ Hok1) as (p' & Hrun & Hs' & Hok').
  exists p'. split_and!; [done|congruence|]. rewrite Hs in Hok'. cbn [mbind list_bind]. by rewrite app_assoc.
Qed.
End calls.

Lemma new_cache_ok {B : Type -> Type} {BC : LruBoundedCrate B} n capacity :
  cache_ok (B := B) n (if capacity =? 0 then 1%nat else Z.to_nat capacity) [] (cache_new n capacity).
Proof.
  split; [cbn; by rewrite length_replicate|]. intros i b [-> _]%lookup_replicate. destruct (lb_new_spec (A := NoCacheReason)
    (if capacity =? 0 then 1%nat else Z.to_nat capacity)) as [H1 H2]. split; rewrite ?H1; [done|constructor|cbn; lia|].
  intros z _. unfold tracks. cbn. by left.
Qed.

(** C40: A prediction repeats the last mark.  After any calls - they all return - a key
    is predicted to be uncacheable only for the reason it was last marked with, so one
    last seen cacheable is never bypassed; reasons that say nothing of the next response
    count for nothing.  A mark is kept until as many other keys of the shard as it holds
    were marked uncacheable since; a capacity of nothing holds one key. *)
Theorem predictions_follow_marks {B : Type -> Type} {BC : LruBoundedCrate B} {K : Type} {HK : CacheHashKey K}
    n capacity skip (cs : list (@Call K)) (k : K) :
  (0 < n)%nat -> 0 <= capacity ->
  exists p r, run_calls cs (predictor_new (B := B) n capacity skip) = Some p /\
    predicted_uncacheable_reason k p = Some r /\ cacheable_prediction k p = Some (bool_decide (r = None)) /\
    let ms := cs ≫= counted skip in
    (forall reason, r = Some reason -> last_mark (key_of k) ms = Some reason) /\
    (Z.of_nat (size (marked_since n (key_of k) ms)) < Z.max capacity 1 -> r = last_mark (key_of k) ms).
Proof.
  intros Hn Hc. set (cap := if capacity =? 0 then 1%nat else Z.to_nat capacity).
  assert ((0 < cap)%nat /\ Z.of_nat cap = Z.max capacity 1) as [Hcap Hmax] by (unfold cap; destruct (Z.eqb_spec capacity 0); lia).
  destruct (run_calls_ok n cap Hn Hcap cs (predictor_new n capacity skip) [] (new_cache_ok n capacity)) as (p & Hrun & _ & Hok).
  cbn [app skip_custom_reasons_fn predictor_new] in Hok. set (ms := cs ≫= counted skip) in *.
  destruct (cache_get_ok n cap Hn Hcap ms _ (key_of k) Hok) as (i & b & Hget & Hi & _ & [_ _ _ Ht]). specialize (Ht _ Hi).
  exists p, (assoc_get (key_of k) (lb_list b)). unfold cacheable_prediction, predicted_uncacheable_reason. rewrite Hget, lb_peek_spec.
  unfold tracks in Ht. split_and!; [done|done|by destruct (assoc_get _ _)|..]; destruct (assoc_get _ _) as [r|]; try done.
  - intros reason [= <-]. by destruct Ht.
  - by destruct Ht.
  - intros Hlt. destruct Ht as [Ht|Ht]; [done|]. lia.
Qed.

(** ** The theorem at a concrete predictor *)

Record ListBounded (A : Type) := MkBounded { bl_cap : nat; bl_list : list (Z * A) }.
Arguments MkBounded {A} bl_cap bl_list.
Arguments bl_cap {A} l.
Arguments bl_list {A} l.

#[export] Instance list_bounded : LruBoundedCrate ListBounded.
Proof.
  refine {|
    lb_new A n := MkBounded n [];
    lb_put A k a b :=
      (assoc_get k (bl_list b),
       MkBounded (bl_cap b)
         (match assoc_get k (bl_list b) with
          | Some _ => filter (fun e => fst e <> k) (bl_list b)
          | None => if (bl_cap b <=? length (bl_list b))%nat then tail (bl_list b) else bl_list b
          end ++ [(k, a)]));
    lb_pop A k b := (assoc_get k (bl_list b), MkBounded (bl_cap b) (filter (fun e => fst e <> k) (bl_list b)));
    lb_peek A k b := assoc_get k (bl_list b);
    lb_contains A k b := bool_decide (is_Some (assoc_get k (bl_list b)));
    lb_list A b := bl_list b;
    lb_cap A b := bl_cap b |}; done.
Defined.

Definition wit_key (b : byte) : CompactCacheKey := MkCompactCacheKey [b] None [].
(** Keys of one shard that holds two: the first is marked, two others, of which one
    is cacheable again, and one that counts for nothing. *)
Definition wit_calls : list (@Call CompactCacheKey) :=
  [Uncacheable (wit_key Byte.x02) ResponseTooLarge; Uncacheable (wit_key Byte.x04) OriginNotCache; Cacheable (wit_key Byte.x04);
   Uncacheable (wit_key Byte.x06) StorageError].

Lemma predictions_follow_marks_witness :
  exists p : Predictor (B := ListBounded),
    run_calls wit_calls (predictor_new 2 2 None) = Some p /\
    predicted_uncacheable_reason (wit_key Byte.x02) p = Some (Some ResponseTooLarge) /\
    cacheable_prediction (wit_key Byte.x02) p = Some false.
Proof.
  destruct (predictions_follow_marks (B := ListBounded) 2 2 None wit_calls (wit_key Byte.x02)) as (p & r & H1 & H2 & H3 & _ & H5).
  - lia.
  - lia.
  - assert (r = Some ResponseTooLarge) as -> by (apply H5; vm_compute; reflexivity).
    exists p. split; [exact H1|]. split; [exact H2|exact H3].
Defined.
