(* ===== verification/TinyUfo.v ===== *)
(** * TinyUFO

    The crate [src/tinyufo]: the S3-FIFO queues with TinyLFU admission
    ([lib.rs]), the sketch of frequencies with its aging ([estimation.rs]) and the
    two stores of buckets ([buckets.rs]).

    Each operation is that of one thread, run alone: a loop that retries a
    compare-and-exchange then passes once.  What a closure of [get_map] writes to
    the atomics of a bucket is written to the stored bucket.  The counters of the
    sketch are 8 bits wide, weights 16, keys and sums 64; [usize] additions wrap,
    as in a release build.  The hash functions are parameters; [flurry::HashMap]
    and [crossbeam_skiplist::SkipMap] are finite maps, by the interface of
    [FinMap]; the logarithm behind the dimensions of the sketch is a parameter.

    A loop that could turn for ever has rounds; [None] is a panic, or a loop out
    of rounds. *)

From stdpp Require Import base list numbers fin_maps option.
From Stdlib Require Import ZArith Lia.
From Stdlib Require Import Floats.SpecFloat.
From S2P Require Import Prelude.
Local Open Scope Z_scope.

Module Ufo.

(** ** The sketch *)

Definition u8_max : Z := 255.

Record Row (H : Type) := MkRow { slot : list Z; hasher : H }.
#[global] Arguments MkRow {H}.
#[global] Arguments slot {H}.
#[global] Arguments hasher {H}.

Record TinyLfu (H : Type) := MkLfu { estimator : list (Row H); window_counter : Z; window_limit : Z }.
#[global] Arguments MkLfu {H}.
#[global] Arguments estimator {H}.
#[global] Arguments window_counter {H}.
#[global] Arguments window_limit {H}.

Section sketch.
(** [RandomState::hash_one] of a key by a row's state. *)
Context {H : Type} (hash : Z -> H -> Z).

(** [optimal_paras]; the ceilings of the two quotients are given. *)
Definition optimal_paras (width depth : Z -> Z) (items : Z) : Z * Z :=
  (Z.max (width items) 16, Z.max (depth items) 2).

(** [Estimator::new]; [rs] gives the states drawn. *)
Definition estimator_new (rs : nat -> H) (hashes slots : Z) : list (Row H) :=
  map (fun i => MkRow (replicate (Z.to_nat slots) 0) (rs i)) (seq 0 (Z.to_nat hashes)).

Definition optimal (width depth : Z -> Z) (rs : nat -> H) (items : Z) : list (Row H) :=
  let '(slots, hashes) := optimal_paras width depth items in estimator_new rs hashes slots.
Definition compact (width depth : Z -> Z) (rs : nat -> H) (items : Z) : list (Row H) :=
  let '(slots, hashes) := optimal_paras width depth (items / 100) in estimator_new rs hashes slots.

(** [hash % slot.len()], which panics for an empty row. *)
Definition column (r : Row H) (key : Z) : option nat :=
  if zlen (slot r) =? 0 then None else Some (Z.to_nat (hash key (hasher r) mod zlen (slot r))).

Definition incr_no_overflow (current : Z) : Z :=
  if current =? u8_max then current else if current =? u8_max - 1 then u8_max else current + 1.

(** [Estimator::incr] and [Estimator::get], from the least value so far. *)
Fixpoint estimator_incr (rows : list (Row H)) (key min : Z) : option (Z * list (Row H)) :=
  match rows with
  | [] => Some (min, [])
  | r :: rows =>
      c ← column r key;
      let new := incr_no_overflow (slot r !!! c) in
      '(m, rows) ← estimator_incr rows key (Z.min min new);
      Some (m, MkRow (<[c := new]> (slot r)) (hasher r) :: rows)
  end.

Fixpoint estimator_get (rows : list (Row H)) (key min : Z) : option Z :=
  match rows with
  | [] => Some min
  | r :: rows => c ← column r key; estimator_get rows key (Z.min min (slot r !!! c))
  end.

Definition age (shift : Z) (rows : list (Row H)) : list (Row H) :=
  map (fun r => MkRow (map (fun c => Z.shiftr c shift) (slot r)) (hasher r)) rows.

Definition lfu_get (l : TinyLfu H) (key : Z) : option Z := estimator_get (estimator l) key u8_max.

Definition lfu_incr (l : TinyLfu H) (key : Z) : option (Z * TinyLfu H) :=
  let window_size := window_counter l in
  let l := MkLfu (estimator l) (wadd window_size 1) (window_limit l) in
  let l := if (window_size =? window_limit l) || (((window_limit l * 2) mod usize_mod) <? window_size)
           then MkLfu (age 1 (estimator l)) 0 (window_limit l) else l in
  '(freq, rows) ← estimator_incr (estimator l) key u8_max;
  Some (freq, MkLfu rows (window_counter l) (window_limit l)).

Definition lfu_new (width depth : Z -> Z) (rs : nat -> H) (cache_size : Z) : TinyLfu H :=
  MkLfu (optimal width depth rs cache_size) 0 ((cache_size * 8) mod usize_mod).
Definition lfu_new_compact (width depth : Z -> Z) (rs : nat -> H) (cache_size : Z) : TinyLfu H :=
  MkLfu (compact width depth rs cache_size) 0 ((cache_size * 8) mod usize_mod).
End sketch.

(** ** Buckets *)

Definition SMALL : bool := false.
Definition MAIN : bool := true.
Definition USES_CAP : Z := 3.

Definition inc_uses (uses : Z) : Z := if USES_CAP <=? uses then uses else uses + 1.
(** The new count; the method returns the one before. *)
Definition decr_uses (uses : Z) : Z := if uses =? 0 then 0 else uses - 1.

Record KV (T : Type) := MkKV { kv_key : Z; kv_data : T; kv_weight : Z }.
#[global] Arguments MkKV {T}.
#[global] Arguments kv_key {T}.
#[global] Arguments kv_data {T}.
#[global] Arguments kv_weight {T}.

Record Bucket (T : Type) := MkBucket { uses : Z; queue : bool; weight : Z; data : T }.
#[global] Arguments MkBucket {T}.
#[global] Arguments uses {T}.
#[global] Arguments queue {T}.
#[global] Arguments weight {T}.
#[global] Arguments data {T}.

Definition set_uses {T} (n : Z) (b : Bucket T) : Bucket T := MkBucket n (queue b) (weight b) (data b).
Definition move_to_main {T} (b : Bucket T) : Bucket T := MkBucket (uses b) MAIN (weight b) (data b).

Section ufo.
Context {D : Type -> Type} `{DF : FMap D, DL : !∀ A, Lookup Z A (D A), DE : !∀ A, Empty (D A)}.
Context `{DP : !∀ A, PartialAlter Z A (D A), DO : !OMap D, DM : !Merge D, DFo : !∀ A, MapFold Z A (D A)} `{FM : !FinMap Z D}.
Context {T H : Type} (hash : Z -> H -> Z).

(** [Buckets]: one map, or one per shard. *)
Inductive Buckets := Fast (m : D (Bucket T)) | Compact (shards : list (D (Bucket T))).

Definition new_fast : Buckets := Fast ∅.
(** [Compact::new], which refuses shards for no items. *)
Definition new_compact (items items_per_shard : Z) : option Buckets :=
  if 0 <? items_per_shard then Some (Compact (replicate (Z.to_nat (Z.max (items / items_per_shard) 1)) ∅)) else None.

Definition shard_of (key : Z) (shards : list (D (Bucket T))) : nat := Z.to_nat (key mod zlen shards).

Definition buckets_get (key : Z) (b : Buckets) : option (Bucket T) :=
  match b with
  | Fast m => m !! key
  | Compact shards => shard ← shards !! shard_of key shards; shard !! key
  end.

(** [insert], with whether a bucket was there. *)
Definition buckets_insert (key : Z) (v : Bucket T) (b : Buckets) : bool * Buckets :=
  match b with
  | Fast m => (bool_decide (is_Some (m !! key)), Fast (<[key := v]> m))
  | Compact shards =>
      let i := shard_of key shards in
      match shards !! i with
      | Some shard => (bool_decide (is_Some (shard !! key)), Compact (<[i := <[key := v]> (delete key shard)]> shards))
      | None => (false, b)
      end
  end.

Definition buckets_remove (key : Z) (b : Buckets) : Buckets :=
  match b with
  | Fast m => Fast (delete key m)
  | Compact shards => let i := shard_of key shards in Compact (alter (delete key) i shards)
  end.

(** A write to the atomics of a stored bucket. *)
Definition buckets_write (key : Z) (f : Bucket T -> Bucket T) (b : Buckets) : Buckets :=
  match b with
  | Fast m => Fast (alter f key m)
  | Compact shards => let i := shard_of key shards in Compact (alter (alter f key) i shards)
  end.

(** ** The queues *)

Record Queues := MkQueues {
  total_weight_limit : Z;
  small : list Z; small_weight : Z;
  main : list Z; main_weight : Z;
  evicted : Z; rejected : Z;
  lfu : TinyLfu H
}.

Record TinyUfo := MkUfo { queues : Queues; buckets : Buckets }.

Definition set_queues (f : Queues -> Queues) (s : TinyUfo) : TinyUfo := MkUfo (f (queues s)) (buckets s).
Definition set_buckets (f : Buckets -> Buckets) (s : TinyUfo) : TinyUfo := MkUfo (queues s) (f (buckets s)).
Definition set_small (l : list Z) (q : Queues) : Queues :=
  MkQueues (total_weight_limit q) l (small_weight q) (main q) (main_weight q) (evicted q) (rejected q) (lfu q).
Definition set_main (l : list Z) (q : Queues) : Queues :=
  MkQueues (total_weight_limit q) (small q) (small_weight q) l (main_weight q) (evicted q) (rejected q) (lfu q).
Definition upd_small_weight (f : Z -> Z) (q : Queues) : Queues :=
  MkQueues (total_weight_limit q) (small q) (f (small_weight q)) (main q) (main_weight q) (evicted q) (rejected q) (lfu q).
Definition upd_main_weight (f : Z -> Z) (q : Queues) : Queues :=
  MkQueues (total_weight_limit q) (small q) (small_weight q) (main q) (f (main_weight q)) (evicted q) (rejected q) (lfu q).
Definition upd_evicted (f : Z -> Z) (q : Queues) : Queues :=
  MkQueues (total_weight_limit q) (small q) (small_weight q) (main q) (main_weight q) (f (evicted q)) (rejected q) (lfu q).
Definition upd_rejected (f : Z -> Z) (q : Queues) : Queues :=
  MkQueues (total_weight_limit q) (small q) (small_weight q) (main q) (main_weight q) (evicted q) (f (rejected q)) (lfu q).
Definition set_lfu (l : TinyLfu H) (q : Queues) : Queues :=
  MkQueues (total_weight_limit q) (small q) (small_weight q) (main q) (main_weight q) (evicted q) (rejected q) l.

Definition push_small (key : Z) (q : Queues) : Queues := set_small (small q ++ [key]) q.
Definition push_main (key : Z) (q : Queues) : Queues := set_main (main q ++ [key]) q.

(** *** Single-precision floats *)

Definition f32_of_Z (z : Z) : spec_float := binary_normalize 24 128 z 0 false.
Definition SMALL_QUEUE_PERCENTAGE : spec_float := S754_finite false 13421773 (-27).
(** [floor() as usize] *)
Definition f32_floor (f : spec_float) : Z :=
  match f with
  | S754_finite false m e => if 0 <=? e then Z.pos m * 2 ^ e else Z.pos m / 2 ^ (- e)
  | _ => 0
  end.

Definition small_weight_limit (q : Queues) : Z :=
  f32_floor (SFmul 24 128 (f32_of_Z (total_weight_limit q)) SMALL_QUEUE_PERCENTAGE) + 1.

(** *** Evictions *)

(** The loop of [evict_one_from_small]: what is used is promoted on the way. *)
Fixpoint small_loop (rounds : nat) (s : TinyUfo) : option (option (KV T) * TinyUfo) :=
  match rounds with
  | O => None
  | S rounds =>
      match small (queues s) with
      | [] => Some (None, s)
      | to_evict :: rest =>
          let s := set_queues (set_small rest) s in
          match buckets_get to_evict (buckets s) with
          | None => small_loop rounds s
          | Some bucket =>
              let s := set_queues (upd_small_weight (fun w => wsub w (weight bucket))) s in
              if 1 <? uses bucket then
                let s := set_buckets (buckets_write to_evict move_to_main) s in
                let s := set_queues (push_main to_evict) s in
                small_loop rounds (set_queues (upd_main_weight (fun w => wadd w (weight bucket))) s)
              else
                Some (Some (MkKV to_evict (data bucket) (weight bucket)), set_buckets (buckets_remove to_evict) s)
          end
      end
  end.

Definition evict_one_from_small (s : TinyUfo) : option (option (KV T) * TinyUfo) :=
  small_loop (S (length (small (queues s)))) s.

(** The loop of [evict_one_from_main]: what is used loses a use and goes to the end. *)
Fixpoint main_loop (rounds : nat) (s : TinyUfo) : option (option (KV T) * TinyUfo) :=
  match rounds with
  | O => None
  | S rounds =>
      match main (queues s) with
      | [] => Some (None, s)
      | to_evict :: rest =>
          let s := set_queues (set_main rest) s in
          match buckets_get to_evict (buckets s) with
          | None => main_loop rounds s
          | Some bucket =>
              let s := set_buckets (buckets_write to_evict (set_uses (decr_uses (uses bucket)))) s in
              if 0 <? uses bucket then main_loop rounds (set_queues (push_main to_evict) s)
              else
                let s := set_queues (upd_main_weight (fun w => wsub w (weight bucket))) s in
                Some (Some (MkKV to_evict (data bucket) (weight bucket)), set_buckets (buckets_remove to_evict) s)
          end
      end
  end.

Definition evict_one_from_main (s : TinyUfo) : option (option (KV T) * TinyUfo) :=
  main_loop (S (4 * length (main (queues s)))) s.

Definition evict_one (s : TinyUfo) : option (option (KV T) * TinyUfo) :=
  if small_weight_limit (queues s) <=? small_weight (queues s) then
    '(e, s) ← evict_one_from_small s;
    match e with Some _ => Some (e, s) | None => evict_one_from_main s end
  else evict_one_from_main s.

Definition over_limit (extra_weight : Z) (q : Queues) : bool :=
  total_weight_limit q <? wadd (wadd (small_weight q) (main_weight q)) extra_weight.

Fixpoint evict_loop (rounds : nat) (extra_weight : Z) (out : list (KV T)) (s : TinyUfo) : option (list (KV T) * TinyUfo) :=
  match rounds with
  | O => None
  | S rounds =>
      if over_limit extra_weight (queues s) then
        '(e, s) ← evict_one s;
        match e with
        | Some kv => evict_loop rounds extra_weight (out ++ [kv]) s
        | None => Some (out, s)
        end
      else Some (out, s)
  end.

Definition evict_to_limit (extra_weight : Z) (s : TinyUfo) : option (list (KV T) * TinyUfo) :=
  evict_loop (S (length (small (queues s)) + length (main (queues s)))) extra_weight [] s.

Definition count_evicted (n : nat) (s : TinyUfo) : TinyUfo :=
  if Nat.ltb 0 n then set_queues (upd_evicted (fun e => wadd e (Z.of_nat n))) s else s.

(** *** Admission *)

Definition update_atomic (old new weight : Z) : Z :=
  if old =? new then weight else if new <? old then wsub weight (old - new) else wadd weight (new - old).

(** The key is there. *)
Definition replace (key : Z) (d : T) (w : Z) (bucket : Bucket T) (s : TinyUfo) : option (list (KV T) * TinyUfo) :=
  let n := inc_uses (uses bucket) in
  let s := set_buckets (buckets_write key (set_uses n)) s in
  let s := set_queues ((if eqb (queue bucket) MAIN then upd_main_weight else upd_small_weight)
                         (update_atomic (weight bucket) w)) s in
  let s := set_buckets (fun b => (buckets_insert key (MkBucket n (queue bucket) w d) b).2) s in
  '(out, s) ← evict_to_limit 0 s;
  Some (out, count_evicted (length out) s).

(** Which item is stored: the new one, or by TinyLFU the one it would push out. *)
Definition choose (key : Z) (d : T) (w new_freq : Z) (ignore_lfu : bool) (out : list (KV T)) (s : TinyUfo)
  : option (KV T * list (KV T) * TinyUfo) :=
  let new := MkKV key d w in
  match ignore_lfu, out with
  | false, [first] =>
      evicted_freq ← lfu_get hash (lfu (queues s)) (kv_key first);
      if new_freq <? evicted_freq then Some (first, [new], set_queues (upd_rejected (fun r => wadd r 1)) s)
      else Some (new, out, count_evicted (length out) s)
  | _, _ => Some (new, out, count_evicted (length out) s)
  end.

Definition store (kv : KV T) (s : TinyUfo) : TinyUfo :=
  let '(old, b) := buckets_insert (kv_key kv) (MkBucket 0 SMALL (kv_weight kv) (kv_data kv)) (buckets s) in
  let s := MkUfo (queues s) b in
  if old : bool then s
  else set_queues (upd_small_weight (fun w => wadd w (kv_weight kv))) (set_queues (push_small (kv_key kv)) s).

(** The key is new. *)
Definition insert_new (key : Z) (d : T) (w new_freq : Z) (ignore_lfu : bool) (s : TinyUfo)
  : option (list (KV T) * TinyUfo) :=
  '(out, s) ← evict_to_limit w s;
  '(kv, out, s) ← choose key d w new_freq ignore_lfu out s;
  Some (out, store kv s).

Definition admit_item (key : Z) (d : T) (w : Z) (ignore_lfu : bool) (s : TinyUfo) : option (list (KV T) * TinyUfo) :=
  '(new_freq, l) ← lfu_incr hash (lfu (queues s)) key;
  let s := set_queues (set_lfu l) s in
  if 0 <? w then
    match buckets_get key (buckets s) with
    | Some bucket => replace key d w bucket s
    | None => insert_new key d w new_freq ignore_lfu s
    end
  else None.

(** ** The cache *)

Context {K : Type} (hash_one : K -> Z).

Definition queues_new (limit : Z) (l : TinyLfu H) : Queues := MkQueues limit [] 0 [] 0 0 0 l.
Definition ufo_new (width depth : Z -> Z) (rs : nat -> H) (limit estimated_size : Z) : TinyUfo :=
  MkUfo (queues_new limit (lfu_new width depth rs estimated_size)) new_fast.
Definition ufo_new_compact (width depth : Z -> Z) (rs : nat -> H) (limit estimated_size : Z) : option TinyUfo :=
  b ← new_compact estimated_size 32;
  Some (MkUfo (queues_new limit (lfu_new_compact width depth rs estimated_size)) b).

Definition get (key : K) (s : TinyUfo) : option T * TinyUfo :=
  let key := hash_one key in
  match buckets_get key (buckets s) with
  | Some p => (Some (data p), set_buckets (buckets_write key (set_uses (inc_uses (uses p)))) s)
  | None => (None, s)
  end.

Definition put (key : K) (d : T) (w : Z) (s : TinyUfo) : option (list (KV T) * TinyUfo) :=
  admit_item (hash_one key) d w false s.
Definition force_put (key : K) (d : T) (w : Z) (s : TinyUfo) : option (list (KV T) * TinyUfo) :=
  admit_item (hash_one key) d w true s.

Definition remove (key : K) (s : TinyUfo) : option T * TinyUfo :=
  let key := hash_one key in
  match buckets_get key (buckets s) with
  | Some bucket =>
      let s := set_queues ((if queue bucket then upd_main_weight else upd_small_weight)
                             (fun w => wsub w (weight bucket))) s in
      (Some (data bucket), set_buckets (buckets_remove key) s)
  | None => (None, s)
  end.

End ufo.
End Ufo.
