(* ===== verification/TinyUfoSpec.v ===== *)
(** * What TinyUFO keeps

    Over any sequence of operations: what a [put] returns is exactly what left the
    cache; every operation returns; and as long as no key is stored again while a
    queue still has it from before its removal, the queues hold each stored key
    once, the weights are exact and bounded. *)

From stdpp Require Import base list numbers fin_maps option gmap.
From Stdlib Require Import ZArith Lia.
From S2P Require Import Prelude TinyUfo.
Import Ufo.
Local Open Scope Z_scope.

(** ** Sums over queues *)

Definition sumw (f : Z -> Z) (l : list Z) : Z := foldr (fun k acc => f k + acc) 0 l.
Definition count (k : Z) (l : list Z) : Z := sumw (fun j => if decide (j = k) then 1 else 0) l.

Lemma sumw_app f l1 l2 : sumw f (l1 ++ l2) = sumw f l1 + sumw f l2.
Proof. induction l1 as [|k l1 IH]; simpl; [done|]. rewrite IH. lia. Qed.

(** A change at one key. *)
Lemma sumw_upd f f' k l :
  (forall j, j <> k -> f' j = f j) -> sumw f' l = sumw f l + count k l * (f' k - f k).
Proof.
  intros Hf. unfold count. induction l as [|j l IH]; simpl; [lia|]. rewrite IH.
  destruct (decide (j = k)) as [->|Hj]; [lia|]. rewrite (Hf j Hj). lia.
Qed.

Lemma sumw_ext f f' l : (forall j, f' j = f j) -> sumw f' l = sumw f l.
Proof. intros Hf. induction l as [|j l IH]; simpl; [done|]. by rewrite IH, Hf. Qed.

Lemma sumw_nonneg f l : (forall j, 0 <= f j) -> 0 <= sumw f l.
Proof. intros Hf. induction l as [|j l IH]; simpl; [done|]. specialize (Hf j). lia. Qed.

Lemma sumw_le f c l : (forall j, f j <= c) -> sumw f l <= c * Z.of_nat (length l).
Proof. intros Hf. induction l as [|j l IH]; simpl; [lia|]. specialize (Hf j). lia. Qed.

Lemma count_nonneg k l : 0 <= count k l.
Proof. apply sumw_nonneg. intros j. by destruct (decide (j = k)). Qed.
Lemma count_app k l1 l2 : count k (l1 ++ l2) = count k l1 + count k l2.
Proof. apply sumw_app. Qed.
Lemma count_cons k j l : count k (j :: l) = (if decide (j = k) then 1 else 0) + count k l.
Proof. done. Qed.
Lemma count_zero k l : count k l = 0 <-> k ∉ l.
Proof.
  induction l as [|j l IH]; [split; [intros _; apply not_elem_of_nil|done]|]. rewrite count_cons, not_elem_of_cons, <- IH. pose proof (count_nonneg k l).
  destruct (decide (j = k)) as [->|Hj]; split; intros; [lia|naive_solver|split; [congruence|lia]|lia].
Qed.

(** The occurrences of one key, and the rest. *)
Definition others (k : Z) (l : list Z) : list Z := filter (fun j => j <> k) l.

Lemma sumw_others f k l : sumw f l = sumw f (others k l) + count k l * f k.
Proof.
  unfold others. induction l as [|j l IH]; [done|]. rewrite count_cons. change (sumw f (j :: l)) with (f j + sumw f l).
  rewrite IH, filter_cons. destruct (decide (j = k)) as [->|Hj].
  - rewrite decide_False by (intros Hn; by apply Hn). lia.
  - rewrite decide_True by done. simpl. lia.
Qed.

Lemma count_others j k l : j <> k -> count j (others k l) = count j l.
Proof.
  intros Hj. unfold count at 2. rewrite (sumw_others _ k l). rewrite decide_False by congruence. unfold count. lia.
Qed.

Lemma others_cons k l : others k (k :: l) = others k l.
Proof. unfold others. rewrite filter_cons, decide_False; [done|]. intros Hn. by apply Hn. Qed.
Lemma others_snoc k l : others k (l ++ [k]) = others k l.
Proof. unfold others. rewrite filter_app, filter_cons, decide_False by (intros Hn; by apply Hn). apply app_nil_r. Qed.
Lemma count_snoc k l : count k (l ++ [k]) = count k l + 1.
Proof. rewrite count_app, count_cons, decide_True by done. done. Qed.
Lemma count_head k l : count k (k :: l) = count k l + 1.
Proof. rewrite count_cons, decide_True by done. lia. Qed.

Section ufo.
Context {D : Type -> Type} `{DF : FMap D, DL : !∀ A, Lookup Z A (D A), DE : !∀ A, Empty (D A)}.
Context `{DP : !∀ A, PartialAlter Z A (D A), DO : !OMap D, DM : !Merge D, DFo : !∀ A, MapFold Z A (D A)} `{FM : !FinMap Z D}.
Context {T H : Type} (hash : Z -> H -> Z).
Abbreviation Bk := (@Ufo.Buckets D T).
Abbreviation St := (@Ufo.TinyUfo D T H).

(** ** Both stores are maps *)

Definition buckets_ok (b : Bk) : Prop := match b with Fast _ => True | Compact shards => shards <> [] end.

Lemma shard_in_range k (shards : list (D (Bucket T))) :
  shards <> [] -> exists shard, shards !! shard_of k shards = Some shard.
Proof.
  intros Hs. apply lookup_lt_is_Some. unfold shard_of. destruct shards as [|x l]; [done|].
  pose proof (Z.mod_pos_bound k (zlen (x :: l)) ltac:(unfold zlen; simpl; lia)). unfold zlen in *. lia.
Qed.

Lemma shard_of_alter k f i (shards : list (D (Bucket T))) : shard_of k (alter f i shards) = shard_of k shards.
Proof. unfold shard_of, zlen. by rewrite length_alter. Qed.
Lemma shard_of_insert k i s (shards : list (D (Bucket T))) : shard_of k (<[i := s]> shards) = shard_of k shards.
Proof. unfold shard_of, zlen. by rewrite length_insert. Qed.

Lemma buckets_get_insert k v (b : Bk) :
  buckets_ok b ->
  buckets_ok (buckets_insert k v b).2 /\
  (buckets_insert k v b).1 = bool_decide (is_Some (buckets_get k b)) /\
  forall k', buckets_get k' (buckets_insert k v b).2 = if decide (k' = k) then Some v else buckets_get k' b.
Proof.
  destruct b as [m|shards]; intros Hb; simpl.
  - split_and!; [done..|]. intros k'. destruct (decide (k' = k)) as [->|Hk].
    + by rewrite lookup_insert_eq.
    + by rewrite lookup_insert_ne.
  - destruct (shard_in_range k shards Hb) as (shard & Hs). rewrite Hs. simpl. split_and!.
    + intros Hn. apply Hb. apply length_zero_iff_nil. by rewrite <- (length_insert shards (shard_of k shards) (<[k:=v]> (delete k shard))), Hn.
    + done.
    + intros k'. rewrite shard_of_insert. destruct (decide (shard_of k' shards = shard_of k shards)) as [He|He].
      * rewrite He, list_lookup_insert_eq by by eapply lookup_lt_Some. rewrite Hs. simpl.
        destruct (decide (k' = k)) as [->|Hk]; [by rewrite lookup_insert_eq|].
        by rewrite lookup_insert_ne, lookup_delete_ne.
      * rewrite list_lookup_insert_ne by done. destruct (decide (k' = k)) as [->|]; done.
Qed.

Lemma buckets_get_remove k (b : Bk) :
  buckets_ok b -> buckets_ok (buckets_remove k b) /\
  forall k', buckets_get k' (buckets_remove k b) = if decide (k' = k) then None else buckets_get k' b.
Proof.
  destruct b as [m|shards]; intros Hb; simpl.
  - split; [done|]. intros k'. destruct (decide (k' = k)) as [->|Hk]; [by rewrite lookup_delete_eq|by rewrite lookup_delete_ne].
  - destruct (shard_in_range k shards Hb) as (shard & Hs). split.
    { intros Hn. apply Hb. apply length_zero_iff_nil. by rewrite <- (length_alter (delete k) shards (shard_of k shards)), Hn. }
    intros k'. rewrite shard_of_alter. destruct (decide (shard_of k' shards = shard_of k shards)) as [He|He].
    + rewrite He, list_lookup_alter_eq, Hs. simpl.
      destruct (decide (k' = k)) as [->|Hk]; [by rewrite lookup_delete_eq|by rewrite lookup_delete_ne].
    + rewrite list_lookup_alter_ne by done. destruct (decide (k' = k)) as [->|]; done.
Qed.

Lemma buckets_get_write k f (b : Bk) :
  buckets_ok b -> buckets_ok (buckets_write k f b) /\
  forall k', buckets_get k' (buckets_write k f b) = if decide (k' = k) then f <$> buckets_get k b else buckets_get k' b.
Proof.
  destruct b as [m|shards]; intros Hb; simpl.
  - split; [done|]. intros k'. destruct (decide (k' = k)) as [->|Hk]; [by rewrite lookup_alter_eq|by rewrite lookup_alter_ne].
  - destruct (shard_in_range k shards Hb) as (shard & Hs). split.
    { intros Hn. apply Hb. apply length_zero_iff_nil. by rewrite <- (length_alter (alter f k) shards (shard_of k shards)), Hn. }
    intros k'. rewrite shard_of_alter. destruct (decide (shard_of k' shards = shard_of k shards)) as [He|He].
    + rewrite He, list_lookup_alter_eq, Hs. simpl.
      destruct (decide (k' = k)) as [->|Hk]; [by rewrite lookup_alter_eq|by rewrite lookup_alter_ne].
    + rewrite list_lookup_alter_ne by done. destruct (decide (k' = k)) as [->|]; done.
Qed.

(** ** What is stored *)

Definition view (s : St) (k : Z) : option (Bucket T) := buckets_get k (buckets s).
Definition contents (s : St) (k : Z) : option (T * Z) := (fun b => (data b, weight b)) <$> view s k.

(** From [s] to [s'] exactly [out] left, with its data and weight. *)
Record takes (out : list (KV T)) (s s' : St) : Prop := {
  takes_ok : buckets_ok (buckets s');
  takes_nodup : NoDup (kv_key <$> out);
  takes_from : Forall (fun kv => contents s (kv_key kv) = Some (kv_data kv, kv_weight kv)) out;
  takes_rest : forall k, contents s' k = if decide (k ∈ kv_key <$> out) then None else contents s k
}.

Lemma takes_refl (s s' : St) : buckets_ok (buckets s') -> (forall k, contents s' k = contents s k) -> takes [] s s'.
Proof. intros Hok Hc. split; [done|constructor|constructor|]. intros k. by rewrite Hc. Qed.

Lemma takes_trans out1 out2 s1 s2 s3 : takes out1 s1 s2 -> takes out2 s2 s3 -> takes (out1 ++ out2) s1 s3.
Proof.
  intros [Hok1 Hn1 Hf1 Hr1] [Hok2 Hn2 Hf2 Hr2].
  assert (forall kv, kv ∈ out2 -> kv_key kv ∉ kv_key <$> out1 /\ contents s1 (kv_key kv) = Some (kv_data kv, kv_weight kv)) as H2.
  { intros kv Hkv. rewrite Forall_forall in Hf2. specialize (Hf2 kv Hkv). rewrite Hr1 in Hf2. by case_decide. }
  split; [done|..].
  - rewrite fmap_app. apply NoDup_app. split; [done|]. split; [|done]. intros k Hk Hk2.
    apply list_elem_of_fmap in Hk2 as (kv & -> & Hkv). by destruct (H2 kv Hkv).
  - apply Forall_app. split; [done|]. apply Forall_forall. intros kv Hkv. by apply H2.
  - intros k. rewrite Hr2, fmap_app. case_decide as Hk2.
    + rewrite decide_True; [done|]. apply elem_of_app. by right.
    + rewrite Hr1. case_decide as Hk1; [rewrite decide_True; [done|]; apply elem_of_app; by left|].
      rewrite decide_False; [done|]. rewrite elem_of_app. by intros [].
Qed.

Lemma takes_same s1 s2 s3 out : buckets s1 = buckets s2 -> takes out s2 s3 -> takes out s1 s3.
Proof.
  intros Hb [Hok Hn Hf Hr]. assert (forall k, contents s1 k = contents s2 k) as Hc.
  { intros k. unfold contents, view. by rewrite Hb. }
  split; [done..| |].
  - eapply Forall_impl; [exact Hf|]. simpl. intros kv. by rewrite Hc.
  - intros k. by rewrite Hr, Hc.
Qed.

Lemma contents_write k f (s : St) (s' : St) :
  buckets_ok (buckets s) -> buckets s' = buckets_write k f (buckets s) ->
  (forall b, data (f b) = data b /\ weight (f b) = weight b) ->
  buckets_ok (buckets s') /\ forall k', contents s' k' = contents s k'.
Proof.
  intros Hok Hb Hf. destruct (buckets_get_write k f _ Hok) as [Hok' Hg]. rewrite <- Hb in Hok', Hg. split; [done|].
  intros k'. unfold contents, view. rewrite Hg. case_decide as Hk; [subst k'|done].
  destruct (buckets_get k (buckets s)) as [b|]; [|done]. simpl. by destruct (Hf b) as [-> ->].
Qed.

Lemma takes_remove k b (s s1 s' : St) :
  buckets_ok (buckets s1) -> (forall k', contents s1 k' = contents s k') -> view s k = Some b ->
  buckets s' = buckets_remove k (buckets s1) -> takes [MkKV k (data b) (weight b)] s s'.
Proof.
  intros Hok Hc Hv Hb. destruct (buckets_get_remove k _ Hok) as [Hok' Hg]. rewrite <- Hb in Hok', Hg.
  split; [done|apply NoDup_singleton| |].
  - constructor; [|constructor]. unfold contents. simpl. by rewrite Hv.
  - intros k'. unfold contents at 1, view. rewrite Hg. simpl. case_decide as Hk.
    + rewrite decide_True; [done|]. apply list_elem_of_singleton. done.
    + rewrite decide_False; [|by rewrite list_elem_of_singleton]. apply Hc.
Qed.

Lemma small_loop_takes n : forall (s : St) e s', small_loop n s = Some (e, s') -> buckets_ok (buckets s) -> takes (option_list e) s s'.
Proof.
  induction n as [|n IH]; intros s e s'; simpl; [done|]. destruct (small (queues s)) as [|k rest]; [intros [= <- <-] ?; by apply takes_refl|].
  destruct (buckets_get k (buckets s)) as [b|] eqn:Hg; [|intros Hr Hok; eapply (takes_same _ (set_queues (set_small rest) s)); [done|]; by apply IH].
  destruct (1 <? uses b).
  - intros Hr Hok. apply IH in Hr.
    + eapply (takes_trans []); [|exact Hr]. apply takes_refl; by apply (contents_write k move_to_main s).
    + by apply (contents_write k move_to_main s).
  - intros [= <- <-] Hok. by apply (takes_remove k b s s).
Qed.

Lemma main_loop_takes n : forall (s : St) e s', main_loop n s = Some (e, s') -> buckets_ok (buckets s) -> takes (option_list e) s s'.
Proof.
  induction n as [|n IH]; intros s e s'; simpl; [done|]. destruct (main (queues s)) as [|k rest]; [intros [= <- <-] ?; by apply takes_refl|].
  destruct (buckets_get k (buckets s)) as [b|] eqn:Hg; [|intros Hr Hok; eapply (takes_same _ (set_queues (set_main rest) s)); [done|]; by apply IH].
  set (f := set_uses (decr_uses (uses b))). destruct (0 <? uses b).
  - intros Hr Hok. apply IH in Hr.
    + eapply (takes_trans []); [|exact Hr]. apply takes_refl; by apply (contents_write k f s).
    + by apply (contents_write k f s).
  - intros [= <- <-] Hok. eapply (takes_remove k b s (MkUfo (queues s) (buckets_write k f (buckets s)))); try done;
      by apply (contents_write k f s).
Qed.

Lemma evict_one_takes (s : St) e s' : evict_one s = Some (e, s') -> buckets_ok (buckets s) -> takes (option_list e) s s'.
Proof.
  unfold evict_one. destruct (_ <=? _); [|intros; by eapply main_loop_takes].
  destruct (evict_one_from_small s) as [[e1 s1]|] eqn:Hs; [|done]. simpl. intros Hr Hok.
  pose proof (small_loop_takes _ _ _ _ Hs Hok) as H1. destruct e1 as [kv|]; [by injection Hr as <- <-|].
  eapply (takes_trans []); [exact H1|]. eapply main_loop_takes; [exact Hr|]. by destruct H1.
Qed.

Lemma evict_loop_takes n extra : forall out (s : St) out' s', evict_loop n extra out s = Some (out', s') ->
  buckets_ok (buckets s) -> exists more, out' = out ++ more /\ takes more s s'.
Proof.
  induction n as [|n IH]; intros out s out' s'; simpl; [done|].
  destruct (over_limit _ _); [|intros [= <- <-] ?; exists []; rewrite app_nil_r; split; [done|by apply takes_refl]].
  destruct (evict_one s) as [[[kv|] s1]|] eqn:He; [| |done]; simpl; intros Hr Hok;
    pose proof (evict_one_takes _ _ _ He Hok) as H1.
  - apply IH in Hr as (more & -> & Hm); [|by destruct H1]. exists ([kv] ++ more). rewrite app_assoc. split; [done|].
    by eapply takes_trans.
  - injection Hr as <- <-. exists []. by rewrite app_nil_r.
Qed.

Lemma evict_to_limit_takes extra (s : St) out s' : evict_to_limit extra s = Some (out, s') ->
  buckets_ok (buckets s) -> takes out s s'.
Proof. intros Hr Hok. by apply (evict_loop_takes _ _ [] _ _ _ Hr) in Hok as (more & -> & ?). Qed.

(** ** What evictions leave alone *)

Definition fixed (s : St) : Z * Z * Z * TinyLfu H :=
  (total_weight_limit (queues s), evicted (queues s), rejected (queues s), lfu (queues s)).

Lemma small_loop_fixed n : forall (s : St) e s', small_loop n s = Some (e, s') -> fixed s' = fixed s.
Proof.
  induction n as [|n IH]; intros s e s'; simpl; [done|]. destruct (small (queues s)) as [|k rest]; [by intros [= <- <-]|].
  destruct (buckets_get k (buckets s)) as [b|]; [destruct (1 <? uses b)|]; try (intros Hr; by apply IH in Hr).
  by intros [= <- <-].
Qed.

Lemma main_loop_fixed n : forall (s : St) e s', main_loop n s = Some (e, s') -> fixed s' = fixed s.
Proof.
  induction n as [|n IH]; intros s e s'; simpl; [done|]. destruct (main (queues s)) as [|k rest]; [by intros [= <- <-]|].
  destruct (buckets_get k (buckets s)) as [b|]; [destruct (0 <? uses b)|]; try (intros Hr; by apply IH in Hr).
  by intros [= <- <-].
Qed.

Lemma evict_one_fixed (s : St) e s' : evict_one s = Some (e, s') -> fixed s' = fixed s.
Proof.
  unfold evict_one. destruct (_ <=? _); [|apply main_loop_fixed].
  destruct (evict_one_from_small s) as [[[kv|] s1]|] eqn:Hs; [| |done]; simpl; apply small_loop_fixed in Hs; [by intros [= <- <-]|].
  intros Hr. apply main_loop_fixed in Hr. by rewrite Hr.
Qed.

Lemma evict_loop_fixed n extra : forall out (s : St) out' s', evict_loop n extra out s = Some (out', s') -> fixed s' = fixed s.
Proof.
  induction n as [|n IH]; intros out s out' s'; simpl; [done|]. destruct (over_limit _ _); [|by intros [= <- <-]].
  destruct (evict_one s) as [[[kv|] s1]|] eqn:He; [| |done]; simpl; apply evict_one_fixed in He.
  - intros Hr. apply IH in Hr. by rewrite Hr.
  - by intros [= <- <-].
Qed.

(** ** Storing an item *)

(** [out] left [m] with [key] set to [d] and [w], and the rest is [s']. *)
Definition puts (key : Z) (d : T) (w : Z) (m : Z -> option (T * Z)) (out : list (KV T)) (m' : Z -> option (T * Z)) : Prop :=
  let full k := if decide (k = key) then Some (d, w) else m k in
  NoDup (kv_key <$> out) /\ Forall (fun kv => full (kv_key kv) = Some (kv_data kv, kv_weight kv)) out /\
  forall k, m' k = if decide (k ∈ kv_key <$> out) then None else full k.

Lemma contents_insert k b (s s' : St) :
  buckets_ok (buckets s) -> buckets s' = (buckets_insert k b (buckets s)).2 ->
  buckets_ok (buckets s') /\
  forall k', contents s' k' = if decide (k' = k) then Some (data b, weight b) else contents s k'.
Proof.
  intros Hok Hb. destruct (buckets_get_insert k b _ Hok) as (Hok' & _ & Hg). rewrite <- Hb in Hok', Hg. split; [done|].
  intros k'. unfold contents, view. rewrite Hg. by case_decide.
Qed.

Lemma store_buckets kv (s : St) :
  buckets (store kv s) = (buckets_insert (kv_key kv) (MkBucket 0 SMALL (kv_weight kv) (kv_data kv)) (buckets s)).2.
Proof. unfold store. by destruct (buckets_insert _ _ _) as [[] b]. Qed.

Lemma replace_puts key d w b (s : St) out s' :
  buckets_ok (buckets s) -> replace key d w b s = Some (out, s') ->
  buckets_ok (buckets s') /\ puts key d w (contents s) out (contents s') /\
  rejected (queues s') = rejected (queues s) /\
  evicted (queues s') = (if Nat.ltb 0 (length out) then wadd (evicted (queues s)) (Z.of_nat (length out)) else evicted (queues s)).
Proof.
  intros Hok. unfold replace. set (n := inc_uses (uses b)). set (s1 := set_buckets _ s).
  assert (buckets_ok (buckets s1) /\ forall k, contents s1 k = contents s k) as [Hok1 Hc1].
  { by apply (contents_write key (set_uses n) s). }
  set (s2 := set_queues _ s1). set (s3 := set_buckets _ s2).
  destruct (contents_insert key (MkBucket n (queue b) w d) s2 s3 Hok1 eq_refl) as [Hok3 Hc3].
  destruct (evict_to_limit 0 s3) as [[out0 s4]|] eqn:He; [|done]. simpl. intros [= <- <-].
  pose proof (evict_loop_fixed _ _ _ _ _ _ He) as Hfix. apply evict_to_limit_takes in He as [Hok4 Hn Hf Hr]; [|done].
  assert (buckets (count_evicted (length out0) s4) = buckets s4) as Hb by (unfold count_evicted; by destruct (Nat.ltb _ _)).
  assert (forall k, contents s3 k = if decide (k = key) then Some (d, w) else contents s k) as Hfull.
  { intros k. rewrite Hc3. case_decide; [done|]. by rewrite <- Hc1. }
  rewrite Hb. split; [done|]. split.
  - split_and!; [done| |].
    + eapply Forall_impl; [exact Hf|]. intros kv. simpl. by rewrite Hfull.
    + intros k. unfold contents at 1, view. rewrite Hb. fold (view s4 k). fold (contents s4 k). by rewrite Hr, Hfull.
  - assert (evicted (queues s4) = evicted (queues s) /\ rejected (queues s4) = rejected (queues s)) as [Hev Hrej].
    { injection Hfix as _ -> -> _. simpl. by destruct (eqb _ _). }
    rewrite <- Hev, <- Hrej. unfold count_evicted. by destruct (Nat.ltb _ _).
Qed.

Definition counted (n : nat) (e : Z) : Z := if Nat.ltb 0 n then wadd e (Z.of_nat n) else e.

Lemma count_evicted_queues n (s : St) :
  buckets (count_evicted n s) = buckets s /\ rejected (queues (count_evicted n s)) = rejected (queues s) /\
  evicted (queues (count_evicted n s)) = counted n (evicted (queues s)).
Proof. unfold count_evicted, counted. by destruct (Nat.ltb 0 n). Qed.

(** What TinyLFU, asked about a new item of frequency [freq], lets in. *)
Definition rejects (l : TinyLfu H) (freq : Z) (first : KV T) : Prop :=
  exists f, lfu_get hash l (kv_key first) = Some f /\ freq < f.

Lemma choose_cases key d w freq ignore out (s : St) kv out' s' :
  choose hash key d w freq ignore out s = Some (kv, out', s') ->
  buckets s' = buckets s /\
  ((ignore = false /\ out = [kv] /\ out' = [MkKV key d w] /\ rejects (lfu (queues s)) freq kv /\
    rejected (queues s') = wadd (rejected (queues s)) 1 /\ evicted (queues s') = evicted (queues s)) \/
   (kv = MkKV key d w /\ out' = out /\
    (forall first, ignore = false -> out = [first] -> ~ rejects (lfu (queues s)) freq first) /\
    rejected (queues s') = rejected (queues s) /\ evicted (queues s') = counted (length out) (evicted (queues s)))).
Proof.
  pose proof (count_evicted_queues (length out) s) as (Hb & Hr & He).
  unfold choose. destruct ignore; [intros [= <- <- <-]; split; [done|]; right; by split_and!|].
  destruct out as [|first [|second out]].
  - intros [= <- <- <-]. split; [done|]. right. split_and!; try done.
  - destruct (lfu_get hash (lfu (queues s)) (kv_key first)) as [f|] eqn:Hf; [|done]. simpl.
    destruct (Z.ltb_spec freq f) as [Hlt|Hge]; intros [= <- <- <-]; (split; [done|]).
    + left. split_and!; try done. by exists f.
    + right. split_and!; try done. intros first' _ [= <-] (f' & Hf' & Hlt). rewrite Hf in Hf'. injection Hf' as ->. lia.
  - intros [= <- <- <-]. split; [done|]. right. split_and!; try done.
Qed.

Lemma insert_new_puts key d w freq ignore (s : St) out s' :
  buckets_ok (buckets s) -> view s key = None -> insert_new hash key d w freq ignore s = Some (out, s') ->
  buckets_ok (buckets s') /\ puts key d w (contents s) out (contents s') /\
  ((ignore = false /\ out = [MkKV key d w] /\
    (exists first, rejects (lfu (queues s)) freq first /\ is_Some (contents s (kv_key first))) /\
    rejected (queues s') = wadd (rejected (queues s)) 1 /\ evicted (queues s') = evicted (queues s)) \/
   (key ∉ kv_key <$> out /\
    (forall first, ignore = false -> out = [first] -> ~ rejects (lfu (queues s)) freq first) /\
    rejected (queues s') = rejected (queues s) /\ evicted (queues s') = counted (length out) (evicted (queues s)))).
Proof.
  intros Hok Hnone. unfold insert_new. destruct (evict_to_limit w s) as [[out0 s1]|] eqn:He; [|done]. simpl.
  pose proof (evict_loop_fixed _ _ _ _ _ _ He) as Hfix. injection Hfix as _ Hev Hrej Hlfu.
  apply evict_to_limit_takes in He as [Hok1 Hn Hf Hr]; [|done].
  destruct (choose hash key d w freq ignore out0 s1) as [[[kv out1] s2]|] eqn:Hch; [|done]. simpl. intros [= <- <-].
  apply choose_cases in Hch as [Hb Hcase]. rewrite Hlfu, Hev, Hrej in Hcase.
  destruct (contents_insert (kv_key kv) (MkBucket 0 SMALL (kv_weight kv) (kv_data kv)) s2 (store kv s2)) as [Hok3 Hc3];
    [by rewrite Hb|apply store_buckets|].
  assert (forall k, contents s2 k = contents s1 k) as Hc2 by (intros k; unfold contents, view; by rewrite Hb).
  assert (contents s key = None) as Hnc by (unfold contents; by rewrite Hnone).
  assert (rejected (queues (store kv s2)) = rejected (queues s2) /\ evicted (queues (store kv s2)) = evicted (queues s2)) as [-> ->].
  { unfold store. by destruct (buckets_insert _ _ _) as [[] ?]. }
  split; [done|]. destruct Hcase as [(-> & -> & -> & Hrejects & ? & ?)|(-> & -> & Hrejects & ? & ?)].
  - apply Forall_inv in Hf. split.
    + split_and!; [apply NoDup_singleton|apply Forall_singleton; simpl; by rewrite decide_True|].
      intros k. rewrite Hc3. simpl. case_decide as Hk.
      * subst k. rewrite decide_False; [|rewrite list_elem_of_singleton; intros Hk; rewrite Hk, Hnc in Hf; done].
        rewrite decide_False; [by rewrite Hf|]. intros Hk. by rewrite Hk, Hnc in Hf.
      * rewrite Hc2, Hr, decide_False by (simpl; by rewrite list_elem_of_singleton).
        destruct (decide (k = key)) as [->|Hk2].
        -- rewrite decide_True by (simpl; by rewrite list_elem_of_singleton). done.
        -- by rewrite decide_False by (simpl; by rewrite list_elem_of_singleton).
    + left. split_and!; try done. exists kv. split; [done|]. by rewrite Hf.
  - assert (key ∉ kv_key <$> out0) as Hkey.
    { intros Hin. apply list_elem_of_fmap in Hin as (kv & Hk & Hkv). rewrite Forall_forall in Hf.
      specialize (Hf kv Hkv). by rewrite <- Hk, Hnc in Hf. }
    split; [|right; by split_and!]. split_and!; [done| |].
    + apply Forall_forall. intros kv Hkv. rewrite Forall_forall in Hf. rewrite decide_False; [by apply Hf|].
      intros Hk. apply Hkey. rewrite <- Hk. by apply list_elem_of_fmap_2.
    + intros k. rewrite Hc3. simpl. case_decide as Hk; [subst k; by rewrite decide_False|]. by rewrite Hc2, Hr.
Qed.

(** ** Operations *)

Section operations.
Context {K : Type} (hash_one : K -> Z).

Inductive Op := OpGet (k : K) | OpRemove (k : K) | OpPut (k : K) (d : T) (w : Z) (force : bool).
Inductive Res := RValue (v : option T) | ROut (out : list (KV T)).

Definition exec_op (op : Op) (s : St) : option (Res * St) :=
  match op with
  | OpGet k => let '(v, s) := get hash_one k s in Some (RValue v, s)
  | OpRemove k => let '(v, s) := remove hash_one k s in Some (RValue v, s)
  | OpPut k d w false => '(out, s) ← put hash hash_one k d w s; Some (ROut out, s)
  | OpPut k d w true => '(out, s) ← force_put hash hash_one k d w s; Some (ROut out, s)
  end.

Fixpoint exec_ops (ops : list Op) (s : St) : option (list Res * St) :=
  match ops with
  | [] => Some ([], s)
  | op :: ops => '(r, s) ← exec_op op s; '(rs, s) ← exec_ops ops s; Some (r :: rs, s)
  end.

(** *** The abstract cache: a map from hashes to items, from which a [put] may
    let items go, each of which it returns *)

Abbreviation Abs := (Z -> option (T * Z)).

Definition abs_step (op : Op) (r : Res) (m m' : Abs) : Prop :=
  match op, r with
  | OpGet k, RValue v => v = fst <$> m (hash_one k) /\ forall j, m' j = m j
  | OpRemove k, RValue v =>
      v = fst <$> m (hash_one k) /\ forall j, m' j = if decide (j = hash_one k) then None else m j
  | OpPut k d w force, ROut out =>
      puts (hash_one k) d w m out m' /\
      (m (hash_one k) = None -> hash_one k ∈ kv_key <$> out -> force = false /\ out = [MkKV (hash_one k) d w])
  | _, _ => False
  end.

Inductive abs_steps : list Op -> list Res -> Abs -> Abs -> Prop :=
| abs_none m m' : (forall j, m' j = m j) -> abs_steps [] [] m m'
| abs_more op ops r rs m m1 m2 : abs_step op r m m1 -> abs_steps ops rs m1 m2 -> abs_steps (op :: ops) (r :: rs) m m2.

Lemma view_none (s : St) k : view s k = None <-> contents s k = None.
Proof. unfold contents. by destruct (view s k). Qed.

Lemma admit_puts key d w ignore (s : St) out s' :
  buckets_ok (buckets s) -> admit_item hash key d w ignore s = Some (out, s') ->
  buckets_ok (buckets s') /\ puts key d w (contents s) out (contents s') /\
  (contents s key = None -> key ∈ kv_key <$> out -> ignore = false /\ out = [MkKV key d w]).
Proof.
  intros Hok. unfold admit_item. destruct (lfu_incr hash (lfu (queues s)) key) as [[freq l]|]; [|done]. simpl.
  destruct (0 <? w); [|done]. set (s1 := set_queues (set_lfu l) s).
  destruct (buckets_get key (buckets s)) as [b|] eqn:Hg; intros Hr.
  - apply (replace_puts key d w b s1) in Hr as (? & ? & _); [|done]. split_and!; try done.
    intros Hn%view_none. unfold view in Hn. congruence.
  - apply (insert_new_puts key d w freq ignore s1) in Hr as (? & ? & Hcase); [|done..]. split_and!; try done.
    intros _ Hin. by destruct Hcase as [(? & ? & _)|(Hn & _)].
Qed.

Lemma exec_op_abs op (s : St) r s' :
  buckets_ok (buckets s) -> exec_op op s = Some (r, s') ->
  buckets_ok (buckets s') /\ abs_step op r (contents s) (contents s').
Proof.
  intros Hok. destruct op as [k|k|k d w [] ]; simpl.
  - unfold get. destruct (buckets_get (hash_one k) (buckets s)) as [b|] eqn:Hg; intros [= <- <-].
    + destruct (contents_write (hash_one k) (set_uses (inc_uses (uses b))) s
        (set_buckets (buckets_write (hash_one k) (set_uses (inc_uses (uses b)))) s)) as [? Hc]; [done..|].
      split_and!; [done| |done]. unfold contents, view. by rewrite Hg.
    + split_and!; try done. unfold contents, view. by rewrite Hg.
  - unfold remove. destruct (buckets_get (hash_one k) (buckets s)) as [b|] eqn:Hg; intros [= <- <-].
    + destruct (buckets_get_remove (hash_one k) _ Hok) as [Hok' Hr]. split_and!; [done| |].
      * unfold contents, view. by rewrite Hg.
      * intros j. unfold contents, view. simpl. rewrite Hr. by case_decide.
    + split_and!; try done; [unfold contents, view; by rewrite Hg|]. intros j. case_decide as Hj; [|done].
      subst j. unfold contents, view. by rewrite Hg.
  - unfold force_put. destruct (admit_item _ _ _ _ _ _) as [[out s1]|] eqn:Ha; [|done]. simpl. intros [= <- <-].
    apply admit_puts in Ha as (? & ? & ?); [|done]. by split_and!.
  - unfold put. destruct (admit_item _ _ _ _ _ _) as [[out s1]|] eqn:Ha; [|done]. simpl. intros [= <- <-].
    apply admit_puts in Ha as (? & ? & ?); [|done]. by split_and!.
Qed.

(** C34: TinyUFO refines a map that lets items go only by returning them.  Over any
    operations, with either store: a [get] returns the value last put under the
    hash of the key; a [put] changes nothing but the item it stores and the items
    it returns, each of which it returns once, with the data and the weight it had;
    a new item is not stored only if [put] rejects it, and then nothing else
    changes; [force_put] stores every new item; and [remove] takes out just its
    item. *)
Theorem ufo_refines ops : forall (s : St) rs s',
  buckets_ok (buckets s) -> exec_ops ops s = Some (rs, s') -> abs_steps ops rs (contents s) (contents s').
Proof.
  induction ops as [|op ops IH]; intros s rs s' Hok; simpl; [intros [= <- <-]; by constructor|].
  destruct (exec_op op s) as [[r s1]|] eqn:Hop; [|done]. simpl.
  destruct (exec_ops ops s1) as [[rs1 s2]|] eqn:Hops; [|done]. simpl. intros [= <- <-].
  apply exec_op_abs in Hop as [Hok1 Hstep]; [|done]. econstructor; [exact Hstep|]. by apply IH.
Qed.
End operations.

(** ** Every operation returns *)

Definition uses_ok (s : St) : Prop :=
  buckets_ok (buckets s) /\ forall k b, view s k = Some b -> 0 <= uses b <= USES_CAP.

Definition queued (s : St) : nat := (length (small (queues s)) + length (main (queues s)))%nat.

(** The rounds the keys of a queue are good for. *)
Definition rounds_of (s : St) (k : Z) : Z := 1 + match view s k with Some b => uses b | None => 0 end.

Lemma uses_ok_write k f (s s' : St) :
  uses_ok s -> buckets s' = buckets_write k f (buckets s) ->
  (forall b, view s k = Some b -> 0 <= uses (f b) <= USES_CAP) -> uses_ok s'.
Proof.
  intros [Hok Hu] Hb Hf. destruct (buckets_get_write k f _ Hok) as [Hok' Hg]. rewrite <- Hb in Hok', Hg. split; [done|].
  intros j b. unfold view. rewrite Hg. case_decide as Hj; [|by apply Hu]. subst j.
  destruct (buckets_get k (buckets s)) as [b0|] eqn:Hb0; [|done]. simpl. intros [= <-]. by apply Hf.
Qed.

Lemma uses_ok_remove k (s s' : St) : uses_ok s -> buckets s' = buckets_remove k (buckets s) -> uses_ok s'.
Proof.
  intros [Hok Hu] Hb. destruct (buckets_get_remove k _ Hok) as [Hok' Hg]. rewrite <- Hb in Hok', Hg. split; [done|].
  intros j b. unfold view. rewrite Hg. case_decide; [done|]. apply Hu.
Qed.

Lemma uses_ok_insert k v (s s' : St) :
  uses_ok s -> buckets s' = (buckets_insert k v (buckets s)).2 -> 0 <= uses v <= USES_CAP -> uses_ok s'.
Proof.
  intros [Hok Hu] Hb Hv. destruct (buckets_get_insert k v _ Hok) as (Hok' & _ & Hg). rewrite <- Hb in Hok', Hg. split; [done|].
  intros j b. unfold view. rewrite Hg. case_decide; [by intros [= <-]|]. apply Hu.
Qed.

Lemma uses_ok_same (s s' : St) : uses_ok s -> buckets s' = buckets s -> uses_ok s'.
Proof. intros [Hok Hu] Hb. split; [by rewrite Hb|]. intros k b. unfold view. rewrite Hb. apply Hu. Qed.

Definition evicts (r : option (option (KV T) * St)) (s : St) : Prop :=
  exists e s', r = Some (e, s') /\ uses_ok s' /\
    match e with Some _ => (queued s' < queued s)%nat | None => (queued s' <= queued s)%nat end.

Lemma evicts_le r (s s1 : St) : evicts r s1 -> (queued s1 <= queued s)%nat -> evicts r s.
Proof. intros (e & s' & -> & ? & Hq) Hle. exists e, s'. split_and!; [done..|]. destruct e; lia. Qed.

Lemma small_loop_evicts n : forall (s : St), uses_ok s -> (length (small (queues s)) < n)%nat -> evicts (small_loop n s) s.
Proof.
  induction n as [|n IH]; intros s Hu Hn; [lia|]. simpl. destruct (small (queues s)) as [|k rest] eqn:Hs.
  { by eexists _, _. }
  simpl in Hn. destruct (buckets_get k (buckets s)) as [b|] eqn:Hg.
  - destruct (1 <? uses b).
    + eapply evicts_le; [apply IH|].
      * eapply (uses_ok_write k move_to_main s); [done..|]. intros b0 Hb0. destruct Hu as [_ Hu]. exact (Hu k b0 Hb0).
      * simpl. lia.
      * unfold queued. simpl. rewrite Hs, length_app. simpl. lia.
    + eexists _, _. split; [done|]. split; [by eapply (uses_ok_remove k s)|]. unfold queued. simpl. rewrite Hs. simpl. lia.
  - eapply evicts_le; [apply IH|]; [by eapply (uses_ok_same s)|simpl; lia|]. unfold queued. simpl. rewrite Hs. simpl. lia.
Qed.

Lemma main_loop_evicts n : forall (s : St), uses_ok s -> sumw (rounds_of s) (main (queues s)) < Z.of_nat n -> evicts (main_loop n s) s.
Proof.
  induction n as [|n IH]; intros s Hu Hn.
  { exfalso. assert (0 <= sumw (rounds_of s) (main (queues s))); [|lia]. apply sumw_nonneg. intros j. unfold rounds_of.
    destruct (view s j) eqn:Hv; [|lia]. destruct Hu as [_ Hu]. specialize (Hu _ _ Hv). lia. }
  simpl. destruct (main (queues s)) as [|k rest] eqn:Hs.
  { by eexists _, _. }
  simpl in Hn. destruct (buckets_get k (buckets s)) as [b|] eqn:Hg.
  - set (f := set_uses (decr_uses (uses b))). pose proof (proj2 Hu k b Hg) as Hb.
    assert (0 <= decr_uses (uses b) <= USES_CAP) as Hd.
    { unfold decr_uses. destruct (Z.eqb_spec (uses b) 0); unfold USES_CAP in *; lia. }
    set (s1 := set_buckets (buckets_write k f) (set_queues (set_main rest) s)).
    assert (uses_ok s1) as Hu1 by by eapply (uses_ok_write k f s).
    destruct (Z.ltb_spec 0 (uses b)) as [Hpos|Hpos].
    + eapply evicts_le; [apply IH|].
      * by eapply (uses_ok_same s1).
      * assert (sumw (rounds_of (set_queues (push_main k) s1)) (rest ++ [k]) =
          sumw (rounds_of s) (rest ++ [k]) + count k (rest ++ [k]) * (-1)) as Heq.
        { rewrite (sumw_upd (rounds_of s) _ k).
          - unfold rounds_of, view. simpl. destruct (buckets_get_write k f _ (proj1 Hu)) as [_ ->].
            rewrite decide_True, Hg by done. simpl. unfold decr_uses. destruct (Z.eqb_spec (uses b) 0); lia.
          - intros j Hj. unfold rounds_of, view. simpl. destruct (buckets_get_write k f _ (proj1 Hu)) as [_ ->].
            by rewrite decide_False. }
        change (main (queues (set_queues (push_main k) s1))) with (rest ++ [k]). rewrite Heq, sumw_app, count_app.
        assert (count k [k] = 1) as -> by (rewrite count_cons; by rewrite decide_True).
        pose proof (count_nonneg k rest). simpl. lia.
      * unfold queued. simpl. rewrite Hs, length_app. simpl. lia.
    + eexists _, _. split; [done|]. split; [by eapply (uses_ok_remove k s1)|]. unfold queued. simpl. rewrite Hs. simpl. lia.
  - eapply evicts_le; [apply IH|]; [by eapply (uses_ok_same s)| |].
    + rewrite (sumw_ext (rounds_of s)); [|done]. simpl. assert (1 <= rounds_of s k); [|lia]. unfold rounds_of, view. rewrite Hg. lia.
    + unfold queued. simpl. rewrite Hs. simpl. lia.
Qed.

Lemma evict_one_evicts (s : St) : uses_ok s -> evicts (evict_one s) s.
Proof.
  assert (forall s : St, uses_ok s -> evicts (evict_one_from_main s) s) as Hmain.
  { intros s0 Hu. apply main_loop_evicts; [done|].
    pose proof (sumw_le (rounds_of s0) 4 (main (queues s0))) as Hle. rewrite Nat2Z.inj_succ, Nat2Z.inj_mul.
    assert (sumw (rounds_of s0) (main (queues s0)) <= 4 * Z.of_nat (length (main (queues s0)))); [|lia]. apply Hle.
    intros j. unfold rounds_of. destruct (view s0 j) as [b|] eqn:Hv; [|lia]. pose proof (proj2 Hu _ _ Hv). unfold USES_CAP in *. lia. }
  intros Hu. unfold evict_one. destruct (_ <=? _); [|by apply Hmain].
  destruct (small_loop_evicts (S (length (small (queues s)))) s Hu ltac:(lia)) as (e & s1 & Hr & Hu1 & Hq).
  unfold evict_one_from_small. rewrite Hr. simpl. destruct e as [kv|]; [by exists (Some kv), s1|].
  eapply evicts_le; [by apply Hmain|done].
Qed.

Lemma evict_loop_returns n extra : forall out (s : St), uses_ok s -> (queued s < n)%nat ->
  exists out' s', evict_loop n extra out s = Some (out', s') /\ uses_ok s'.
Proof.
  induction n as [|n IH]; intros out s Hu Hn; [lia|]. simpl. destruct (over_limit _ _); [|by eauto].
  destruct (evict_one_evicts s Hu) as (e & s1 & -> & Hu1 & Hq). simpl. destruct e as [kv|]; [|by eauto].
  apply IH; [done|]. lia.
Qed.

Lemma evict_to_limit_returns extra (s : St) :
  uses_ok s -> exists out s', evict_to_limit extra s = Some (out, s') /\ uses_ok s'.
Proof. intros Hu. apply evict_loop_returns; [done|]. unfold queued. lia. Qed.

Definition rows_ok (l : TinyLfu H) : Prop := Forall (fun r => slot r <> []) (estimator l).
Definition usable (s : St) : Prop := uses_ok s /\ rows_ok (lfu (queues s)).

Lemma column_some (r : Row H) key : slot r <> [] -> exists c, column hash r key = Some c.
Proof. unfold column. intros Hr. destruct (Z.eqb_spec (zlen (slot r)) 0) as [Hz|]; [by apply zlen_zero in Hz|]. eauto. Qed.

Lemma estimator_incr_some rows key : Forall (fun r => slot r <> []) rows -> forall m,
  exists f rows', estimator_incr hash rows key m = Some (f, rows') /\ Forall (fun r => slot r <> []) rows'.
Proof.
  induction 1 as [|r rows Hr _ IH]; intros m; simpl; [by exists m, []|]. destruct (column_some r key Hr) as (c & ->). simpl.
  destruct (IH (Z.min m (incr_no_overflow (slot r !!! c)))) as (f & rows' & -> & Hrows). simpl. eexists _, _. split; [done|].
  constructor; [|done]. simpl. intros Hn. apply Hr, length_zero_iff_nil.
  by rewrite <- (length_insert (slot r) c (incr_no_overflow (slot r !!! c))), Hn.
Qed.

Lemma estimator_get_some rows key : Forall (fun r => slot r <> []) rows -> forall m,
  exists f, estimator_get hash rows key m = Some f.
Proof.
  induction 1 as [|r rows Hr _ IH]; intros m; simpl; [eauto|]. destruct (column_some r key Hr) as (c & ->). apply IH.
Qed.

Lemma age_rows (n : Z) (rows : list (Row H)) : Forall (fun r => slot r <> []) rows -> Forall (fun r => slot r <> []) (age n rows).
Proof.
  intros Hrows. unfold age. apply Forall_map. eapply Forall_impl; [exact Hrows|]. simpl. intros r Hr Hn. apply Hr.
  apply length_zero_iff_nil. by rewrite <- (length_map (fun c => Z.shiftr c n) (slot r)), Hn.
Qed.

Lemma lfu_incr_some l key : rows_ok l -> exists f l', lfu_incr hash l key = Some (f, l') /\ rows_ok l'.
Proof.
  intros Hl. unfold lfu_incr. set (l1 := if _ || _ then _ else _).
  assert (rows_ok l1) as Hl1 by (unfold l1; destruct (_ || _); [by apply age_rows|done]).
  destruct (estimator_incr_some _ key Hl1 u8_max) as (f & rows & -> & Hrows). simpl. by eexists _, _.
Qed.

Lemma store_uses kv (s : St) : uses_ok s -> uses_ok (store kv s).
Proof.
  intros Hu. eapply (uses_ok_insert (kv_key kv) _ s); [done|apply store_buckets|]. simpl. unfold USES_CAP. lia.
Qed.

Lemma inc_uses_range n : 0 <= n <= USES_CAP -> 0 <= inc_uses n <= USES_CAP.
Proof. unfold inc_uses, USES_CAP. destruct (Z.leb_spec 3 n); lia. Qed.

Lemma replace_returns key d w b (s : St) :
  uses_ok s -> view s key = Some b -> exists out s', replace key d w b s = Some (out, s') /\ uses_ok s' /\ lfu (queues s') = lfu (queues s).
Proof.
  intros Hu Hv. pose proof (inc_uses_range _ (proj2 Hu _ _ Hv)) as Hn. unfold replace. set (n := inc_uses (uses b)) in *.
  set (s1 := set_buckets (buckets_write key (set_uses n)) s).
  assert (uses_ok s1) as Hu1 by by eapply (uses_ok_write key (set_uses n) s).
  set (s2 := set_queues _ s1). set (s3 := set_buckets _ s2).
  assert (uses_ok s3) as Hu3 by by eapply (uses_ok_insert key (MkBucket n (queue b) w d) s2); [eapply uses_ok_same|..].
  destruct (evict_to_limit_returns 0 s3 Hu3) as (out & s4 & He & Hu4). rewrite He. simpl.
  pose proof (evict_loop_fixed _ _ _ _ _ _ He) as Hfix. injection Hfix as _ _ _ Hl.
  destruct (count_evicted_queues (length out) s4) as (Hb & _). eexists _, _. split; [done|].
  split; [by eapply uses_ok_same|]. transitivity (lfu (queues s4)); [unfold count_evicted; by destruct (Nat.ltb _ _)|].
  rewrite Hl. simpl. by destruct (eqb _ _).
Qed.

Lemma insert_new_returns key d w freq ignore (s : St) :
  usable s -> exists out s', insert_new hash key d w freq ignore s = Some (out, s') /\ usable s'.
Proof.
  intros [Hu Hrows]. unfold insert_new. destruct (evict_to_limit_returns w s Hu) as (out & s1 & He & Hu1). rewrite He. simpl.
  pose proof (evict_loop_fixed _ _ _ _ _ _ He) as Hfix. injection Hfix as _ _ _ Hl. rewrite <- Hl in Hrows.
  assert (exists kv out' s2, choose hash key d w freq ignore out s1 = Some (kv, out', s2) /\ uses_ok s2 /\ lfu (queues s2) = lfu (queues s1))
    as (kv & out' & s2 & -> & Hu2 & Hl2).
  { destruct (count_evicted_queues (length out) s1) as (Hb & _).
    assert (uses_ok (count_evicted (length out) s1) /\ lfu (queues (count_evicted (length out) s1)) = lfu (queues s1)) as [Hc Hlc].
    { split; [by eapply uses_ok_same|]. unfold count_evicted. by destruct (Nat.ltb _ _). }
    unfold choose. destruct ignore; [by eexists _, _, _|]. destruct out as [|first [|]]; [by eexists _, _, _| |by eexists _, _, _].
    destruct (estimator_get_some _ (kv_key first) Hrows u8_max) as (f & Hf). unfold lfu_get. rewrite Hf. simpl.
    destruct (freq <? f); eexists _, _, _; (split; [done|]); [|done]. split; [by eapply uses_ok_same|done]. }
  simpl. eexists _, _. split; [done|]. split; [by apply store_uses|].
  replace (lfu (queues (store kv s2))) with (lfu (queues s2)); [by rewrite Hl2|].
  unfold store. by destruct (buckets_insert _ _ _) as [[] ?].
Qed.

Lemma admit_returns key d w ignore (s : St) :
  usable s -> 0 < w -> exists out s', admit_item hash key d w ignore s = Some (out, s') /\ usable s'.
Proof.
  intros [Hu Hrows] Hw. unfold admit_item. destruct (lfu_incr_some _ key Hrows) as (f & l & -> & Hl). simpl.
  destruct (Z.ltb_spec 0 w) as [_|]; [|lia]. set (s1 := set_queues (set_lfu l) s).
  assert (uses_ok s1) as Hu1 by by eapply uses_ok_same.
  destruct (buckets_get key (buckets s)) as [b|] eqn:Hg.
  - destruct (replace_returns key d w b s1 Hu1 Hg) as (out & s' & Hr & ? & Hl'). exists out, s'. split; [done|]. split; [done|].
    by rewrite Hl'.
  - by apply insert_new_returns.
Qed.

Section returns.
Context {K : Type} (hash_one : K -> Z).

Definition weighs (op : @Op K) : Prop := match op with OpPut _ _ w _ => 0 < w | _ => True end.

Lemma exec_op_returns op (s : St) :
  usable s -> weighs op -> exists r s', exec_op hash_one op s = Some (r, s') /\ usable s'.
Proof.
  intros [Hu Hrows] Hw. destruct op as [k|k|k d w []]; simpl.
  - unfold get. destruct (buckets_get (hash_one k) (buckets s)) as [b|] eqn:Hg; eexists _, _; (split; [done|]); [|done].
    split; [|done]. eapply (uses_ok_write (hash_one k) (set_uses (inc_uses (uses b))) s); [done..|]. intros b0 _. simpl.
    apply inc_uses_range, (proj2 Hu _ _ Hg).
  - unfold remove. destruct (buckets_get (hash_one k) (buckets s)) as [b|] eqn:Hg; eexists _, _; (split; [done|]); [|done].
    split; [by eapply (uses_ok_remove (hash_one k) s)|]. simpl. by destruct (queue b).
  - unfold force_put. destruct (admit_returns (hash_one k) d w true s) as (out & s' & -> & ?); [done..|]. simpl. eauto.
  - unfold put. destruct (admit_returns (hash_one k) d w false s) as (out & s' & -> & ?); [done..|]. simpl. eauto.
Qed.

(** C35: Every operation returns.  Over any operations, the loops that look for
    something to evict end - the one over the small queue after one round per key,
    the one over the main queue after at most four rounds per key, and the one that
    evicts after at most one round per key of both - so that with positive weights
    no sequence of operations panics or runs for ever, also where the accounting
    is off. *)
Theorem ufo_returns ops : forall (s : St),
  usable s -> Forall weighs ops -> exists rs s', exec_ops hash_one ops s = Some (rs, s') /\ usable s'.
Proof.
  induction ops as [|op ops IH]; intros s Hs Hw; simpl; [by eexists _, _|]. apply Forall_cons in Hw as [Hop Hw].
  destruct (exec_op_returns op s Hs Hop) as (r & s1 & -> & Hs1). simpl.
  destruct (IH s1 Hs1 Hw) as (rs & s2 & -> & Hs2). simpl. by eexists _, _.
Qed.
End returns.

(** ** The account of keys and weights *)

Definition weigh (s : St) (k : Z) : Z := match view s k with Some b => weight b | None => 0 end.
Definition total (s : St) : Z := small_weight (queues s) + main_weight (queues s).

(** Each stored key is in its queue once and in the other not at all, and the
    weights are the sums over the queues. *)
Record accounts (s : St) : Prop := {
  acc_ok : buckets_ok (buckets s);
  acc_weight : forall k b, view s k = Some b -> 0 < weight b < 65536;
  acc_small : forall k b, view s k = Some b -> count k (small (queues s)) = if queue b then 0 else 1;
  acc_main : forall k b, view s k = Some b -> count k (main (queues s)) = if queue b then 1 else 0;
  acc_small_weight : small_weight (queues s) = sumw (weigh s) (small (queues s));
  acc_main_weight : main_weight (queues s) = sumw (weigh s) (main (queues s));
  acc_room : total s < usize_mod
}.

Definition in_queues (s : St) (k : Z) : Prop := k ∈ small (queues s) \/ k ∈ main (queues s).

(** From [s] to [s'] the account is kept, no key comes into the queues, and the
    weight falls by that of what left, which is in no queue any more. *)
Record keeps (out : list (KV T)) (s s' : St) : Prop := {
  keeps_account : accounts s';
  keeps_in : forall k, in_queues s' k -> in_queues s k;
  keeps_gone : Forall (fun kv => ~ in_queues s' (kv_key kv)) out;
  keeps_total : total s' + sumw id (kv_weight <$> out) = total s;
  keeps_less : total s' <= total s
}.

Lemma keeps_trans out1 out2 s1 s2 s3 : keeps out1 s1 s2 -> keeps out2 s2 s3 -> keeps (out1 ++ out2) s1 s3.
Proof.
  intros [Ha1 Hi1 Hg1 Ht1 Hl1] [Ha2 Hi2 Hg2 Ht2 Hl2]. split; [done|auto| | |lia].
  - apply Forall_app. split; [|done]. eapply Forall_impl; [exact Hg1|]. simpl. intros kv Hkv Hin. by apply Hkv, Hi2.
  - rewrite fmap_app, sumw_app. lia.
Qed.

Lemma weigh_nonneg (s : St) k : accounts s -> 0 <= weigh s k.
Proof. intros Ha. unfold weigh. destruct (view s k) as [b|] eqn:Hv; [|lia]. pose proof (acc_weight _ Ha _ _ Hv). lia. Qed.

Lemma weights_nonneg (s : St) : accounts s -> 0 <= small_weight (queues s) /\ 0 <= main_weight (queues s).
Proof.
  intros Ha. rewrite (acc_small_weight _ Ha), (acc_main_weight _ Ha).
  split; apply sumw_nonneg; intros j; by apply weigh_nonneg.
Qed.

(** A key at the head of a queue that is not stored, and one that is. *)
Lemma head_small (s : St) k rest b :
  accounts s -> small (queues s) = k :: rest -> view s k = Some b ->
  queue b = SMALL /\ count k rest = 0 /\ count k (main (queues s)) = 0.
Proof.
  intros Ha Hs Hv. pose proof (acc_small _ Ha _ _ Hv) as Hc. rewrite Hs, count_cons, decide_True in Hc by done.
  pose proof (count_nonneg k rest). pose proof (acc_main _ Ha _ _ Hv) as Hm. destruct (queue b); [lia|]. split; [done|]. split; [lia|done].
Qed.

Lemma head_main (s : St) k rest b :
  accounts s -> main (queues s) = k :: rest -> view s k = Some b ->
  queue b = MAIN /\ count k rest = 0 /\ count k (small (queues s)) = 0.
Proof.
  intros Ha Hs Hv. pose proof (acc_main _ Ha _ _ Hv) as Hc. rewrite Hs, count_cons, decide_True in Hc by done.
  pose proof (count_nonneg k rest). pose proof (acc_small _ Ha _ _ Hv) as Hm. destruct (queue b); [|lia]. split; [done|]. split; [lia|done].
Qed.

(** The buckets of two states agree but at [k]. *)
Definition agree_but (k : Z) (s s' : St) : Prop := forall j, j <> k -> view s' j = view s j.

(** What an operation does to the account is what it does at one key. *)
Lemma accounts_change k (s s' : St) :
  accounts s -> buckets_ok (buckets s') -> agree_but k s s' ->
  others k (small (queues s')) = others k (small (queues s)) ->
  others k (main (queues s')) = others k (main (queues s)) ->
  (forall b, view s' k = Some b -> 0 < weight b < 65536 /\
     count k (small (queues s')) = (if queue b then 0 else 1) /\
     count k (main (queues s')) = (if queue b then 1 else 0)) ->
  small_weight (queues s') + count k (small (queues s)) * weigh s k =
    small_weight (queues s) + count k (small (queues s')) * weigh s' k ->
  main_weight (queues s') + count k (main (queues s)) * weigh s k =
    main_weight (queues s) + count k (main (queues s')) * weigh s' k ->
  total s' < usize_mod -> accounts s'.
Proof.
  intros Ha Hok Hv Hos Hom Hk Hsw Hmw Hroom.
  assert (forall j l l', others k l' = others k l -> j <> k -> count j l' = count j l) as Hcount.
  { intros j l l' Ho Hj. by rewrite <- (count_others j k l'), Ho, count_others. }
  assert (forall l l', others k l' = others k l ->
    sumw (weigh s') l' = sumw (weigh s) l + count k l' * weigh s' k - count k l * weigh s k) as Hsum.
  { intros l l' Ho. rewrite (sumw_others (weigh s') k l'), (sumw_others (weigh s) k l), Ho.
    rewrite (sumw_upd (weigh s) (weigh s') k (others k l)); [|intros j Hj; unfold weigh; by rewrite Hv].
    assert (count k (others k l) = 0) as ->; [|lia]. apply count_zero. unfold others. rewrite list_elem_of_filter. naive_solver. }
  split; try done.
  - intros j b Hj. destruct (decide (j = k)) as [->|Hne]; [by apply Hk|]. rewrite Hv in Hj by done. by apply (acc_weight _ Ha j).
  - intros j b Hj. destruct (decide (j = k)) as [->|Hne]; [by apply Hk|]. rewrite Hv in Hj by done.
    rewrite (Hcount j _ _ Hos Hne). by apply (acc_small _ Ha).
  - intros j b Hj. destruct (decide (j = k)) as [->|Hne]; [by apply Hk|]. rewrite Hv in Hj by done.
    rewrite (Hcount j _ _ Hom Hne). by apply (acc_main _ Ha).
  - rewrite (Hsum _ _ Hos), <- (acc_small_weight _ Ha). lia.
  - rewrite (Hsum _ _ Hom), <- (acc_main_weight _ Ha). lia.
Qed.

Lemma agree_write k f (s s' : St) :
  buckets_ok (buckets s) -> buckets s' = buckets_write k f (buckets s) ->
  buckets_ok (buckets s') /\ agree_but k s s' /\ view s' k = f <$> view s k.
Proof.
  intros Hok Hb. destruct (buckets_get_write k f _ Hok) as [Hok' Hg]. rewrite <- Hb in Hok', Hg. split; [done|]. split.
  - intros j Hj. unfold view. by rewrite Hg, decide_False.
  - unfold view. by rewrite Hg, decide_True.
Qed.

Lemma agree_remove k (s s' : St) :
  buckets_ok (buckets s) -> buckets s' = buckets_remove k (buckets s) ->
  buckets_ok (buckets s') /\ agree_but k s s' /\ view s' k = None.
Proof.
  intros Hok Hb. destruct (buckets_get_remove k _ Hok) as [Hok' Hg]. rewrite <- Hb in Hok', Hg. split; [done|]. split.
  - intros j Hj. unfold view. by rewrite Hg, decide_False.
  - unfold view. by rewrite Hg, decide_True.
Qed.

Lemma agree_insert k v (s s' : St) :
  buckets_ok (buckets s) -> buckets s' = (buckets_insert k v (buckets s)).2 ->
  buckets_ok (buckets s') /\ agree_but k s s' /\ view s' k = Some v.
Proof.
  intros Hok Hb. destruct (buckets_get_insert k v _ Hok) as (Hok' & _ & Hg). rewrite <- Hb in Hok', Hg. split; [done|]. split.
  - intros j Hj. unfold view. by rewrite Hg, decide_False.
  - unfold view. by rewrite Hg, decide_True.
Qed.

Lemma keeps_refl (s : St) : accounts s -> keeps [] s s.
Proof. intros Ha. split; [done|done|constructor| |]; simpl; lia. Qed.

Lemma total_bounds (s : St) : accounts s ->
  0 <= small_weight (queues s) < usize_mod /\ 0 <= main_weight (queues s) < usize_mod.
Proof. intros Ha. pose proof (weights_nonneg _ Ha). pose proof (acc_room _ Ha). unfold total in *. lia. Qed.

(** The weight of the key at the head is part of the queue's. *)
Lemma head_small_weight (s : St) k rest b :
  accounts s -> small (queues s) = k :: rest -> view s k = Some b -> weight b <= small_weight (queues s).
Proof.
  intros Ha Hs Hv. rewrite (acc_small_weight _ Ha), Hs. simpl.
  assert (0 <= sumw (weigh s) rest) by (apply sumw_nonneg; intros j; by apply weigh_nonneg).
  assert (weigh s k = weight b) by (unfold weigh; by rewrite Hv). lia.
Qed.
Lemma head_main_weight (s : St) k rest b :
  accounts s -> main (queues s) = k :: rest -> view s k = Some b -> weight b <= main_weight (queues s).
Proof.
  intros Ha Hs Hv. rewrite (acc_main_weight _ Ha), Hs. simpl.
  assert (0 <= sumw (weigh s) rest) by (apply sumw_nonneg; intros j; by apply weigh_nonneg).
  assert (weigh s k = weight b) by (unfold weigh; by rewrite Hv). lia.
Qed.

Lemma small_stale_keeps (s : St) k rest :
  accounts s -> small (queues s) = k :: rest -> view s k = None -> keeps [] s (set_queues (set_small rest) s).
Proof.
  intros Ha Hs Hv. assert (weigh s k = 0) as Hw by (unfold weigh; by rewrite Hv). set (s' := set_queues _ s).
  assert (view s' k = None /\ weigh s' k = 0) as [Hv' Hw'] by done. split.
  - apply (accounts_change k s); [done|apply Ha|done|by rewrite Hs, others_cons|done|congruence| |simpl; lia|apply Ha].
    rewrite Hw, Hw'. simpl. lia.
  - intros j [Hj|Hj]; [left|by right]. rewrite Hs. by right.
  - constructor.
  - simpl. unfold total. simpl. lia.
  - unfold total. simpl. lia.
Qed.

Lemma main_stale_keeps (s : St) k rest :
  accounts s -> main (queues s) = k :: rest -> view s k = None -> keeps [] s (set_queues (set_main rest) s).
Proof.
  intros Ha Hs Hv. assert (weigh s k = 0) as Hw by (unfold weigh; by rewrite Hv). set (s' := set_queues _ s).
  assert (view s' k = None /\ weigh s' k = 0) as [Hv' Hw'] by done. split.
  - apply (accounts_change k s); [done|apply Ha|done|done|by rewrite Hs, others_cons|congruence|simpl; lia| |apply Ha].
    rewrite Hw, Hw'. simpl. lia.
  - intros j [Hj|Hj]; [by left|right]. rewrite Hs. by right.
  - constructor.
  - simpl. unfold total. simpl. lia.
  - unfold total. simpl. lia.
Qed.

(** A key promoted from the small queue. *)
Lemma promote_keeps (s s' : St) k rest b :
  accounts s -> small (queues s) = k :: rest -> view s k = Some b ->
  buckets s' = buckets_write k move_to_main (buckets s) ->
  small (queues s') = rest -> main (queues s') = main (queues s) ++ [k] ->
  small_weight (queues s') = wsub (small_weight (queues s)) (weight b) ->
  main_weight (queues s') = wadd (main_weight (queues s)) (weight b) -> keeps [] s s'.
Proof.
  intros Ha Hs Hv Hb Hs' Hm' Hsw Hmw. destruct (head_small _ _ _ _ Ha Hs Hv) as (_ & Hc & Hcm).
  pose proof (head_small_weight _ _ _ _ Ha Hs Hv) as Hle. pose proof (total_bounds _ Ha) as Hbound.
  pose proof (acc_weight _ Ha _ _ Hv) as Hwb. pose proof (acc_room _ Ha) as Hroom. unfold total in Hroom.
  rewrite wsub_small in Hsw by lia. rewrite wadd_small in Hmw by lia.
  destruct (agree_write k move_to_main s s' (acc_ok _ Ha) Hb) as (Hok & Hag & Hv'). rewrite Hv in Hv'. simpl in Hv'.
  assert (weigh s k = weight b /\ weigh s' k = weight b) as [Hw Hw'] by (unfold weigh; by rewrite Hv, Hv').
  split.
  - apply (accounts_change k s); [done|done|done|by rewrite Hs, Hs', others_cons|by rewrite Hm', others_snoc| | | |].
    + intros b0. rewrite Hv'. intros [= <-]. simpl. split; [done|]. rewrite Hs', Hm', count_snoc. split; [done|lia].
    + rewrite Hw, Hw', Hs', Hs, count_head. nia.
    + rewrite Hw, Hw', Hm', count_snoc. nia.
    + unfold total. lia.
  - intros j. unfold in_queues. rewrite Hs', Hm', Hs. intros [Hj|[Hj|Hj%list_elem_of_singleton]%elem_of_app];
      [left; by right|by right|left; subst j; left].
  - constructor.
  - simpl. unfold total. lia.
  - unfold total. lia.
Qed.

(** A key put back in the main queue. *)
Lemma put_back_keeps (s s' : St) k rest b n :
  accounts s -> main (queues s) = k :: rest -> view s k = Some b ->
  buckets s' = buckets_write k (set_uses n) (buckets s) ->
  small (queues s') = small (queues s) -> main (queues s') = rest ++ [k] ->
  small_weight (queues s') = small_weight (queues s) -> main_weight (queues s') = main_weight (queues s) -> keeps [] s s'.
Proof.
  intros Ha Hm Hv Hb Hs' Hm' Hsw Hmw. destruct (head_main _ _ _ _ Ha Hm Hv) as (Hq & Hc & Hcs).
  destruct (agree_write k (set_uses n) s s' (acc_ok _ Ha) Hb) as (Hok & Hag & Hv'). rewrite Hv in Hv'. simpl in Hv'.
  assert (weigh s k = weight b /\ weigh s' k = weight b) as [Hw Hw'] by (unfold weigh; by rewrite Hv, Hv').
  split.
  - apply (accounts_change k s); [done|done|done|by rewrite Hs'|by rewrite Hm', Hm, others_snoc, others_cons| | | |].
    + intros b0. rewrite Hv'. intros [= <-]. simpl. split; [by apply (acc_weight _ Ha k)|]. rewrite Hs', Hm', count_snoc, Hq, Hc. done.
    + rewrite Hw, Hw', Hs'. lia.
    + rewrite Hw, Hw', Hm', Hm, count_snoc, count_head. lia.
    + unfold total. rewrite Hsw, Hmw. apply Ha.
  - intros j. unfold in_queues. rewrite Hs', Hm', Hm. intros [Hj|[Hj|Hj%list_elem_of_singleton]%elem_of_app];
      [by left|right; by right|right; subst j; left].
  - constructor.
  - simpl. unfold total. lia.
  - unfold total. lia.
Qed.

(** A key evicted from the small or from the main queue. *)
Lemma evict_small_keeps (s s' : St) k rest b :
  accounts s -> small (queues s) = k :: rest -> view s k = Some b ->
  buckets s' = buckets_remove k (buckets s) ->
  small (queues s') = rest -> main (queues s') = main (queues s) ->
  small_weight (queues s') = wsub (small_weight (queues s)) (weight b) ->
  main_weight (queues s') = main_weight (queues s) -> keeps [MkKV k (data b) (weight b)] s s'.
Proof.
  intros Ha Hs Hv Hb Hs' Hm' Hsw Hmw. destruct (head_small _ _ _ _ Ha Hs Hv) as (_ & Hc & Hcm).
  pose proof (head_small_weight _ _ _ _ Ha Hs Hv) as Hle. pose proof (total_bounds _ Ha) as Hbound.
  pose proof (acc_weight _ Ha _ _ Hv) as Hwb. pose proof (acc_room _ Ha) as Hroom. unfold total in Hroom.
  rewrite wsub_small in Hsw by lia.
  destruct (agree_remove k s s' (acc_ok _ Ha) Hb) as (Hok & Hag & Hv').
  assert (weigh s k = weight b /\ weigh s' k = 0) as [Hw Hw'] by (unfold weigh; by rewrite Hv, Hv').
  split.
  - apply (accounts_change k s); [done|done|done|by rewrite Hs, Hs', others_cons|by rewrite Hm'|congruence| | |].
    + rewrite Hw, Hw', Hs', Hs, count_head. nia.
    + rewrite Hw, Hw', Hm'. nia.
    + unfold total. lia.
  - intros j. unfold in_queues. rewrite Hs', Hm', Hs. intros [Hj|Hj]; [left; by right|by right].
  - constructor; [|constructor]. simpl. unfold in_queues. rewrite Hs', Hm'. by intros [Hj|Hj]; apply count_zero in Hj.
  - simpl. unfold total. lia.
  - unfold total. lia.
Qed.

Lemma evict_main_keeps (s s' : St) k rest b n :
  accounts s -> main (queues s) = k :: rest -> view s k = Some b ->
  buckets s' = buckets_remove k (buckets_write k (set_uses n) (buckets s)) ->
  small (queues s') = small (queues s) -> main (queues s') = rest ->
  small_weight (queues s') = small_weight (queues s) ->
  main_weight (queues s') = wsub (main_weight (queues s)) (weight b) -> keeps [MkKV k (data b) (weight b)] s s'.
Proof.
  intros Ha Hm Hv Hb Hs' Hm' Hsw Hmw. destruct (head_main _ _ _ _ Ha Hm Hv) as (_ & Hc & Hcs).
  pose proof (head_main_weight _ _ _ _ Ha Hm Hv) as Hle. pose proof (total_bounds _ Ha) as Hbound.
  pose proof (acc_weight _ Ha _ _ Hv) as Hwb. pose proof (acc_room _ Ha) as Hroom. unfold total in Hroom.
  rewrite wsub_small in Hmw by lia.
  destruct (agree_write k (set_uses n) s (MkUfo (queues s) (buckets_write k (set_uses n) (buckets s))) (acc_ok _ Ha) eq_refl)
    as (Hok1 & Hag1 & _).
  destruct (agree_remove k (MkUfo (queues s) (buckets_write k (set_uses n) (buckets s))) s' Hok1 Hb) as (Hok & Hag2 & Hv').
  assert (agree_but k s s') as Hag by (intros j Hj; by rewrite Hag2, Hag1).
  assert (weigh s k = weight b /\ weigh s' k = 0) as [Hw Hw'] by (unfold weigh; by rewrite Hv, Hv').
  split.
  - apply (accounts_change k s); [done|done|done|by rewrite Hs'|by rewrite Hm, Hm', others_cons|congruence| | |].
    + rewrite Hw, Hw', Hs'. nia.
    + rewrite Hw, Hw', Hm', Hm, count_head. nia.
    + unfold total. lia.
  - intros j. unfold in_queues. rewrite Hs', Hm', Hm. intros [Hj|Hj]; [by left|right; by right].
  - constructor; [|constructor]. simpl. unfold in_queues. rewrite Hs', Hm'. by intros [Hj|Hj]; apply count_zero in Hj.
  - simpl. unfold total. lia.
  - unfold total. lia.
Qed.

Lemma small_loop_keeps n : forall (s : St) e s', accounts s -> small_loop n s = Some (e, s') ->
  keeps (option_list e) s s' /\ (e = None -> small (queues s') = []).
Proof.
  induction n as [|n IH]; intros s e s' Ha; simpl; [done|]. destruct (small (queues s)) as [|k rest] eqn:Hs.
  { intros [= <- <-]. split; [by apply keeps_refl|done]. }
  assert (forall s1, keeps [] s s1 -> small_loop n s1 = Some (e, s') ->
    keeps (option_list e) s s' /\ (e = None -> small (queues s') = [])) as Hgo.
  { intros s1 Hk Hr. apply IH in Hr as [Hk2 ?]; [|apply Hk]. split; [|done]. by eapply (keeps_trans []). }
  destruct (buckets_get k (buckets s)) as [b|] eqn:Hg.
  - destruct (1 <? uses b); [intros Hr; eapply Hgo, Hr; by eapply promote_keeps|].
    intros [= <- <-]. split; [by eapply evict_small_keeps|done].
  - intros Hr. eapply Hgo, Hr. by apply (small_stale_keeps s k).
Qed.

Lemma main_loop_keeps n : forall (s : St) e s', accounts s -> main_loop n s = Some (e, s') ->
  keeps (option_list e) s s' /\ (e = None -> main (queues s') = [] /\ small (queues s') = small (queues s) /\ small_weight (queues s') = small_weight (queues s)).
Proof.
  induction n as [|n IH]; intros s e s' Ha; simpl; [done|]. destruct (main (queues s)) as [|k rest] eqn:Hs.
  { intros [= <- <-]. split; [by apply keeps_refl|done]. }
  assert (forall s1, keeps [] s s1 -> small (queues s1) = small (queues s) -> small_weight (queues s1) = small_weight (queues s) -> main_loop n s1 = Some (e, s') ->
    keeps (option_list e) s s' /\ (e = None -> main (queues s') = [] /\ small (queues s') = small (queues s) /\ small_weight (queues s') = small_weight (queues s))) as Hgo.
  { intros s1 Hk Hsm Hsw Hr. apply IH in Hr as [Hk2 Hn]; [|apply Hk]. rewrite Hsm, Hsw in Hn. split; [|done]. by eapply (keeps_trans []). }
  destruct (buckets_get k (buckets s)) as [b|] eqn:Hg.
  - destruct (0 <? uses b); [intros Hr; eapply Hgo, Hr; [by eapply put_back_keeps|done..]|].
    intros [= <- <-]. split; [by eapply evict_main_keeps|done].
  - intros Hr. eapply Hgo, Hr; [|done..]. by apply (main_stale_keeps s k).
Qed.

Lemma small_limit_pos (q : @Queues H) : 0 < small_weight_limit q.
Proof.
  assert (forall f, 0 <= f32_floor f) as Hf.
  { intros [|?| |[] m e]; simpl; try lia. destruct (Z.leb_spec 0 e);
      [apply Z.mul_nonneg_nonneg; [lia|by apply Z.pow_nonneg]|apply Z.div_pos; [lia|apply Z.pow_pos_nonneg; lia]]. }
  unfold small_weight_limit. match goal with |- 0 < f32_floor ?f + 1 => pose proof (Hf f) end. lia.
Qed.

(** Nothing is evicted only from an empty main queue and less than the small
    queue's share. *)
Lemma evict_one_keeps (s : St) e s' : accounts s -> evict_one s = Some (e, s') ->
  keeps (option_list e) s s' /\ (e = None -> total s' < small_weight_limit (queues s')).
Proof.
  assert (forall s s' : St, fixed s' = fixed s -> small_weight_limit (queues s') = small_weight_limit (queues s)) as Hlim.
  { intros s0 s0' Hf. injection Hf as Hl _ _ _. unfold small_weight_limit. by rewrite Hl. }
  intros Ha. unfold evict_one. destruct (Z.leb_spec (small_weight_limit (queues s)) (small_weight (queues s))) as [Hle|Hlt].
  - destruct (evict_one_from_small s) as [[e1 s1]|] eqn:Hs; [|done]. simpl.
    apply small_loop_keeps in Hs as [Hk1 Hempty]; [|done]. destruct e1 as [kv|]; [intros [= <- <-]; by split|].
    intros Hr. apply main_loop_keeps in Hr as [Hk2 Hn]; [|apply Hk1]. split; [by eapply (keeps_trans [])|].
    intros He. destruct (Hn He) as (Hm & Hsm & _). rewrite Hempty in Hsm by done. unfold total.
    rewrite (acc_small_weight _ (keeps_account _ _ _ Hk2)), (acc_main_weight _ (keeps_account _ _ _ Hk2)), Hm, Hsm.
    simpl. apply small_limit_pos.
  - intros Hr. pose proof (main_loop_fixed _ _ _ _ Hr) as Hfix. apply main_loop_keeps in Hr as [Hk Hn]; [|done]. split; [done|].
    intros He. destruct (Hn He) as (Hm & _ & Hsw). rewrite (Hlim _ _ Hfix). unfold total.
    rewrite Hsw, (acc_main_weight _ (keeps_account _ _ _ Hk)), Hm. simpl. lia.
Qed.

Lemma evict_loop_keeps n extra : forall out (s : St) out' s',
  accounts s -> 0 <= extra -> total s + extra < usize_mod -> evict_loop n extra out s = Some (out', s') ->
  exists more, out' = out ++ more /\ keeps more s s' /\
    (total s' + extra <= total_weight_limit (queues s') \/ total s' < small_weight_limit (queues s')).
Proof.
  induction n as [|n IH]; intros out s out' s' Ha Hx Hroom; simpl; [done|]. pose proof (total_bounds _ Ha) as Hb.
  assert (wadd (wadd (small_weight (queues s)) (main_weight (queues s))) extra = total s + extra) as Hsum.
  { unfold total in *. rewrite !wadd_small; [done|..]; rewrite ?wadd_small; lia. }
  unfold over_limit. rewrite Hsum. destruct (Z.ltb_spec (total_weight_limit (queues s)) (total s + extra)).
  - destruct (evict_one s) as [[e s1]|] eqn:He; [|done]. simpl. apply evict_one_keeps in He as [Hk Hn]; [|done].
    destruct e as [kv|].
    + intros Hr. apply IH in Hr as (more & -> & Hk2 & Hend); [|apply Hk|done|pose proof (keeps_less _ _ _ Hk); lia].
      exists ([kv] ++ more). rewrite app_assoc. split; [done|]. split; [by eapply keeps_trans|done].
    + intros [= <- <-]. exists []. rewrite app_nil_r. split; [done|]. split; [done|]. right. by apply Hn.
  - intros [= <- <-]. exists []. rewrite app_nil_r. split; [done|]. split; [by apply keeps_refl|]. by left.
Qed.

Lemma evict_to_limit_keeps extra (s : St) out s' :
  accounts s -> 0 <= extra -> total s + extra < usize_mod -> evict_to_limit extra s = Some (out, s') ->
  keeps out s s' /\ (total s' + extra <= total_weight_limit (queues s') \/ total s' < small_weight_limit (queues s')).
Proof. intros Ha Hx Hroom Hr. by destruct (evict_loop_keeps _ _ _ _ _ _ Ha Hx Hroom Hr) as (more & -> & ?). Qed.

(** ** The bound *)

Definition limit (s : St) : Z := total_weight_limit (queues s).
Definition share (s : St) : Z := small_weight_limit (queues s).

(** The weight is within the limit, or all but one item is within the share of the
    small queue. *)
Definition bounded (s : St) : Prop :=
  total s <= Z.max (limit s) (share s - 1) \/ exists k v, contents s k = Some v /\ total s - v.2 < share s.

Definition healthy (s : St) : Prop := accounts s /\ bounded s.

(** A limit whose sums fit in 64 bits. *)
Definition roomy (s : St) : Prop := 0 <= limit s /\ limit s + share s + 2 ^ 18 <= usize_mod.

Lemma healthy_total (s : St) : healthy s -> 0 <= limit s -> total s <= limit s + share s + 65536.
Proof.
  intros [Ha Hb] Hl. pose proof (small_limit_pos (queues s)) as Hs. fold (share s) in Hs.
  destruct Hb as [Hb|(k & v & Hv & Hb)]; [lia|]. unfold contents in Hv.
  destruct (view s k) as [b|] eqn:Hvk; [|done]. injection Hv as <-. pose proof (acc_weight _ Ha _ _ Hvk). simpl in Hb. lia.
Qed.

Lemma fixed_limit (s s' : St) : fixed s' = fixed s -> limit s' = limit s /\ share s' = share s.
Proof. intros Hf. injection Hf as Hl _ _ _. unfold limit, share, small_weight_limit. by rewrite Hl. Qed.

Lemma store_account kv (s : St) :
  accounts s -> view s (kv_key kv) = None -> ~ in_queues s (kv_key kv) -> 0 < kv_weight kv < 65536 ->
  total s + kv_weight kv < usize_mod -> accounts (store kv s) /\ total (store kv s) = total s + kv_weight kv.
Proof.
  intros Ha Hv Hq Hw Hroom. pose proof (total_bounds _ Ha) as Hb.
  assert (count (kv_key kv) (small (queues s)) = 0 /\ count (kv_key kv) (main (queues s)) = 0) as [Hcs Hcm].
  { split; apply count_zero; intros Hin; apply Hq; [by left|by right]. }
  set (v := MkBucket 0 SMALL (kv_weight kv) (kv_data kv)).
  destruct (agree_insert (kv_key kv) v s (store kv s) (acc_ok _ Ha) (store_buckets kv s)) as (Hok & Hag & Hv').
  assert (weigh s (kv_key kv) = 0 /\ weigh (store kv s) (kv_key kv) = kv_weight kv) as [Hw0 Hw1] by (unfold weigh; by rewrite Hv, Hv').
  assert (queues (store kv s) = upd_small_weight (fun w => wadd w (kv_weight kv)) (push_small (kv_key kv) (queues s))) as Hqs.
  { unfold store. destruct (buckets_get_insert (kv_key kv) v _ (acc_ok _ Ha)) as (_ & Hold & _). fold v.
    destruct (buckets_insert (kv_key kv) v (buckets s)) as [old bs]. simpl in Hold. unfold view in Hv. rewrite Hv in Hold.
    by rewrite Hold. }
  assert (total (store kv s) = total s + kv_weight kv) as Ht.
  { unfold total. rewrite Hqs. simpl. rewrite wadd_small; [lia..|]. unfold total in Hroom. lia. }
  split; [|done].
  apply (accounts_change (kv_key kv) s); try done; rewrite ?Hqs; simpl; try done.
  - apply others_snoc.
  - intros b. rewrite Hv'. intros [= <-]. simpl. rewrite count_snoc. split; [done|]. split; [lia|done].
  - rewrite Hw0, Hw1, count_snoc. unfold total in Hroom. rewrite wadd_small; lia.
  - rewrite Hw0, Hw1, Hcm. lia.
  - lia.
Qed.

Lemma update_atomic_exact old new x :
  0 <= x -> old <= x -> x + (new - old) < usize_mod -> 0 <= new -> x < usize_mod -> update_atomic old new x = x + (new - old).
Proof.
  intros Hx Hold Hroom Hnew Hlt. unfold update_atomic. destruct (Z.eqb_spec old new); [lia|].
  destruct (Z.ltb_spec new old); [rewrite wsub_small|rewrite wadd_small]; lia.
Qed.

Lemma weight_in_queue (s : St) k b : accounts s -> view s k = Some b ->
  weight b <= (if queue b then main_weight (queues s) else small_weight (queues s)).
Proof.
  intros Ha Hv. assert (forall l, count k l = 1 -> weight b <= sumw (weigh s) l) as Hl.
  { intros l Hc. rewrite (sumw_others _ k), Hc. unfold weigh at 2. rewrite Hv.
    assert (0 <= sumw (weigh s) (others k l)); [|lia]. apply sumw_nonneg. intros j. by apply weigh_nonneg. }
  pose proof (acc_small _ Ha _ _ Hv). pose proof (acc_main _ Ha _ _ Hv).
  destruct (queue b); [rewrite (acc_main_weight _ Ha)|rewrite (acc_small_weight _ Ha)]; by apply Hl.
Qed.

(** The state in which [replace] evicts. *)
Lemma replace_account key d w b (s : St) :
  accounts s -> view s key = Some b -> 0 < w < 65536 -> total s + w < usize_mod ->
  let n := inc_uses (uses b) in
  let s1 := set_buckets (buckets_write key (set_uses n)) s in
  let s2 := set_queues ((if eqb (queue b) MAIN then upd_main_weight else upd_small_weight) (update_atomic (weight b) w)) s1 in
  let s3 := set_buckets (fun bs => (buckets_insert key (MkBucket n (queue b) w d) bs).2) s2 in
  accounts s3 /\ total s3 = total s + w - weight b.
Proof.
  intros Ha Hv Hw Hroom n s1 s2 s3. pose proof (total_bounds _ Ha) as Hb. pose proof (weight_in_queue _ _ _ Ha Hv) as Hle.
  pose proof (acc_weight _ Ha _ _ Hv) as Hwb. unfold total in Hroom.
  destruct (agree_write key (set_uses n) s s1 (acc_ok _ Ha) eq_refl) as (Hok1 & Hag1 & _).
  destruct (agree_insert key (MkBucket n (queue b) w d) s2 s3 Hok1 eq_refl) as (Hok3 & Hag3 & Hv3).
  assert (agree_but key s s3) as Hag by (intros j Hj; rewrite Hag3 by done; by apply Hag1).
  assert (weigh s key = weight b /\ weigh s3 key = w) as [Hw0 Hw3] by (unfold weigh; by rewrite Hv, Hv3).
  pose proof (acc_small _ Ha _ _ Hv) as Hcs. pose proof (acc_main _ Ha _ _ Hv) as Hcm.
  assert (small (queues s3) = small (queues s) /\ main (queues s3) = main (queues s) /\
    small_weight (queues s3) = small_weight (queues s) + (if queue b then 0 else w - weight b) /\
    main_weight (queues s3) = main_weight (queues s) + (if queue b then w - weight b else 0)) as (Hs3 & Hm3 & Hsw & Hmw).
  { unfold s3, s2. destruct (queue b); simpl; rewrite update_atomic_exact; try lia; repeat split; lia. }
  assert (total s3 = total s + w - weight b) as Ht by (unfold total; rewrite Hsw, Hmw; destruct (queue b); lia).
  split; [|done]. apply (accounts_change key s); try done; rewrite ?Hs3, ?Hm3; try done.
  - intros b0. rewrite Hv3. intros [= <-]. simpl. done.
  - rewrite Hw0, Hw3, Hcs, Hsw. destruct (queue b); lia.
  - rewrite Hw0, Hw3, Hcm, Hmw. destruct (queue b); lia.
  - rewrite Ht. unfold total. lia.
Qed.

(** A key is new to the queues too. *)
Definition fresh (key : Z) (s : St) : Prop := view s key = None -> ~ in_queues s key.

Lemma same_account (s s' : St) :
  accounts s -> buckets s' = buckets s -> small (queues s') = small (queues s) -> main (queues s') = main (queues s) ->
  small_weight (queues s') = small_weight (queues s) -> main_weight (queues s') = main_weight (queues s) ->
  accounts s' /\ total s' = total s.
Proof.
  intros Ha Hb Hs Hm Hsw Hmw. assert (total s' = total s) as Ht by (unfold total; congruence). split; [|done].
  assert (forall k, view s' k = view s k) as Hv by (intros k; unfold view; by rewrite Hb).
  apply (accounts_change 0 s); rewrite ?Hs, ?Hm, ?Hsw, ?Hmw; try done.
  - rewrite Hb. apply Ha.
  - intros j _. apply Hv.
  - intros b. rewrite Hv. intros Hb0. split; [by apply (acc_weight _ Ha 0)|]. split; [by apply (acc_small _ Ha)|by apply (acc_main _ Ha)].
  - unfold weigh. by rewrite Hv.
  - unfold weigh. by rewrite Hv.
  - rewrite Ht. apply Ha.
Qed.

Lemma count_evicted_account n (s : St) : accounts s ->
  accounts (count_evicted n s) /\ total (count_evicted n s) = total s /\
  limit (count_evicted n s) = limit s /\ share (count_evicted n s) = share s.
Proof.
  intros Ha. destruct (same_account s (count_evicted n s) Ha) as [? ?];
    try (unfold count_evicted; by destruct (Nat.ltb 0 n)). split_and!; try done; unfold count_evicted; by destruct (Nat.ltb 0 n).
Qed.

Lemma replace_healthy key d w b (s : St) out s' :
  accounts s -> view s key = Some b -> 0 < w < 65536 -> total s + w < usize_mod ->
  replace key d w b s = Some (out, s') -> healthy s'.
Proof.
  intros Ha Hv Hw Hroom. destruct (replace_account key d w b s Ha Hv Hw Hroom) as [Ha3 Ht3]. cbv zeta in Ha3, Ht3.
  pose proof (acc_weight _ Ha _ _ Hv). unfold replace. cbv zeta. set (s3 := set_buckets _ (set_queues _ _)) in *.
  destruct (evict_to_limit 0 s3) as [[out0 s4]|] eqn:He; [|done]. simpl. intros [= <- <-].
  apply evict_to_limit_keeps in He as [Hk Hend]; [|done|lia|lia]. fold (share s4) in Hend. fold (limit s4) in Hend.
  destruct (count_evicted_account (length out0) s4 (keeps_account _ _ _ Hk)) as (Ha5 & Ht5 & Hl5 & Hsh5).
  split; [done|]. left. rewrite Ht5, Hl5, Hsh5. lia.
Qed.

Lemma store_limit kv (s : St) : limit (store kv s) = limit s /\ share (store kv s) = share s.
Proof. unfold limit, share, small_weight_limit, store. by destruct (buckets_insert _ _ _) as [[] ?]. Qed.

Lemma choose_account key d w freq ignore out (s : St) kv out' s' :
  accounts s -> choose hash key d w freq ignore out s = Some (kv, out', s') ->
  accounts s' /\ total s' = total s /\ limit s' = limit s /\ share s' = share s /\ forall k, in_queues s' k -> in_queues s k.
Proof.
  intros Ha Hch.
  assert (queues s' = upd_rejected (fun r => wadd r 1) (queues s) \/ queues s' = queues (count_evicted (length out) s)) as Hq.
  { revert Hch. unfold choose. destruct ignore; [intros [= _ _ <-]; by right|]. destruct out as [|first [|]]; try (intros [= _ _ <-]; by right).
    destruct (lfu_get _ _ _) as [f|]; [|done]. simpl. destruct (freq <? f); intros [= _ _ <-]; [by left|by right]. }
  apply choose_cases in Hch as [Hb _]. destruct (same_account s s' Ha Hb) as [? ?];
    try (destruct Hq as [->| ->]; [done|]; unfold count_evicted; by destruct (Nat.ltb 0 _)).
  split_and!; try done; unfold limit, share, small_weight_limit, in_queues in *;
    destruct Hq as [->| ->]; simpl; try done; unfold count_evicted; destruct (Nat.ltb 0 _); simpl; done.
Qed.

Lemma insert_new_healthy key d w freq ignore (s : St) out s' :
  accounts s -> bounded s -> view s key = None -> ~ in_queues s key -> 0 < w < 65536 -> total s + w < usize_mod ->
  insert_new hash key d w freq ignore s = Some (out, s') -> healthy s'.
Proof.
  intros Ha Hbd Hv Hq Hw Hroom. unfold insert_new. destruct (evict_to_limit w s) as [[out0 s1]|] eqn:He; [|done]. simpl.
  pose proof (evict_loop_fixed _ _ _ _ _ _ He) as Hfix. apply fixed_limit in Hfix as [Hl1 Hsh1].
  pose proof (evict_to_limit_takes _ _ _ _ He (acc_ok _ Ha)) as Htakes.
  apply evict_to_limit_keeps in He as [Hk Hend]; [|done|lia|lia]. fold (share s1) in Hend. fold (limit s1) in Hend.
  destruct (choose hash key d w freq ignore out0 s1) as [[[kv out1] s2]|] eqn:Hch; [|done]. simpl. intros [= <- <-].
  pose proof (keeps_account _ _ _ Hk) as Ha1. pose proof (keeps_less _ _ _ Hk) as Hless.
  destruct (choose_account _ _ _ _ _ _ _ _ _ _ Ha1 Hch) as (Ha2 & Ht2 & Hl2 & Hsh2 & Hin2). apply choose_cases in Hch as [Hb Hcase].
  assert (contents s key = None) as Hnc by by apply view_none.
  assert (forall k, contents s2 k = contents s1 k) as Hc2 by (intros k; unfold contents, view; by rewrite Hb).
  destruct Hcase as [(-> & -> & -> & _)|(-> & -> & _)].
  - (* the item pushed out is put back *)
    pose proof (Forall_inv (takes_from _ _ _ Htakes)) as Hfrom. cbv beta in Hfrom.
    assert (0 < kv_weight kv < 65536) as Hwk.
    { unfold contents in Hfrom. destruct (view s (kv_key kv)) as [b|] eqn:Hvk; [|done]. injection Hfrom as _ <-. by apply (acc_weight _ Ha (kv_key kv)). }
    pose proof (keeps_total _ _ _ Hk) as Htot. simpl in Htot. unfold id in Htot.
    destruct (store_account kv s2 Ha2) as [Ha3 Ht3].
    + apply view_none. rewrite Hc2, (takes_rest _ _ _ Htakes), decide_True; [done|]. simpl. by apply list_elem_of_singleton.
    + intros Hin%Hin2. exact (Forall_inv (keeps_gone _ _ _ Hk) Hin).
    + done.
    + pose proof (acc_room _ Ha). lia.
    + split; [done|]. unfold bounded.
      assert (total (store kv s2) = total s) as -> by lia.
      destruct (store_limit kv s2) as [-> ->]. rewrite Hl2, Hsh2, Hl1, Hsh1.
      destruct Hbd as [?|(k & v & Hkv & ?)]; [by left|]. right. exists k, v. split; [|done].
      destruct (contents_insert (kv_key kv) (MkBucket 0 SMALL (kv_weight kv) (kv_data kv)) s2 (store kv s2)) as [_ ->];
        [apply Ha2|apply store_buckets|]. case_decide as Hkk; [subst k; simpl; congruence|].
      rewrite Hc2, (takes_rest _ _ _ Htakes), decide_False; [done|]. simpl. by rewrite list_elem_of_singleton.
  - destruct (store_account (MkKV key d w) s2 Ha2) as [Ha3 Ht3]; simpl in *; [| |done|lia|].
    + apply view_none. rewrite Hc2, (takes_rest _ _ _ Htakes). by case_decide.
    + intros Hin%Hin2. apply Hq. by apply (keeps_in _ _ _ Hk).
    + split; [done|]. unfold bounded. rewrite Ht3.
      destruct (store_limit (MkKV key d w) s2) as [-> ->]. rewrite Hl2, Hsh2.
      destruct Hend as [Hend|Hend]; [left; lia|]. right. exists key, (d, w). split; [|simpl; lia].
      destruct (contents_insert key (MkBucket 0 SMALL w d) s2 (store (MkKV key d w) s2)) as [_ ->];
        [apply Ha2|apply (store_buckets (MkKV key d w))|]. by rewrite decide_True.
Qed.

Lemma admit_healthy key d w ignore (s : St) out s' :
  healthy s -> roomy s -> 0 < w < 65536 -> fresh key s -> admit_item hash key d w ignore s = Some (out, s') -> healthy s'.
Proof.
  intros Hh [Hl Hroom] Hw Hf. pose proof (healthy_total _ Hh Hl) as Ht. destruct Hh as [Ha Hb]. unfold admit_item.
  destruct (lfu_incr hash (lfu (queues s)) key) as [[freq l]|]; [|done]. simpl. destruct (0 <? w); [|done].
  set (s1 := set_queues (set_lfu l) s). destruct (same_account s s1 Ha) as [Ha1 Ht1]; [done..|].
  assert (total s1 + w < usize_mod) as Hroom1 by lia.
  destruct (buckets_get key (buckets s)) as [b|] eqn:Hg; intros Hr.
  - by apply (replace_healthy key d w b s1 out).
  - apply (insert_new_healthy key d w freq ignore s1 out); try done. by apply Hf.
Qed.

Lemma admit_limit key d w ignore (s : St) out s' : admit_item hash key d w ignore s = Some (out, s') -> limit s' = limit s.
Proof.
  unfold admit_item. destruct (lfu_incr hash (lfu (queues s)) key) as [[freq l]|]; [|done]. simpl. destruct (0 <? w); [|done].
  assert (forall n (s : St), limit (count_evicted n s) = limit s) as Hcount by (intros n s0; unfold count_evicted; by destruct (Nat.ltb 0 n)).
  destruct (buckets_get key (buckets s)) as [b|].
  - unfold replace. destruct (evict_to_limit _ _) as [[out0 s4]|] eqn:He; [|done]. simpl. intros [= <- <-]. rewrite Hcount.
    apply evict_loop_fixed, fixed_limit in He as [-> _]. unfold limit. simpl. by destruct (eqb _ _).
  - unfold insert_new. destruct (evict_to_limit _ _) as [[out0 s1]|] eqn:He; [|done]. simpl.
    apply evict_loop_fixed, fixed_limit in He as [Hl _].
    destruct (choose _ _ _ _ _ _ _ _) as [[[kv out1] s2]|] eqn:Hch; [|done]. simpl. intros [= <- <-].
    destruct (store_limit kv s2) as [-> _]. transitivity (limit s1); [|done]. revert Hch. unfold choose.
    destruct ignore; [intros [= _ _ <-]; apply Hcount|]. destruct out0 as [|first [|]]; try (intros [= _ _ <-]; apply Hcount).
    destruct (lfu_get _ _ _) as [f|]; [|done]. simpl. destruct (freq <? f); intros [= _ _ <-]; [done|apply Hcount].
Qed.

Lemma uses_account k n (s : St) b :
  healthy s -> view s k = Some b -> healthy (set_buckets (buckets_write k (set_uses n)) s).
Proof.
  intros [Ha Hb] Hv. set (s' := set_buckets _ s).
  destruct (agree_write k (set_uses n) s s' (acc_ok _ Ha) eq_refl) as (Hok & Hag & Hv'). rewrite Hv in Hv'. simpl in Hv'.
  assert (weigh s k = weigh s' k) as Hw by (unfold weigh; by rewrite Hv, Hv'). split.
  - apply (accounts_change k s); rewrite <- ?Hw; try done; [|apply Ha]. intros b0. rewrite Hv'. intros [= <-]. simpl.
    split; [by apply (acc_weight _ Ha k)|]. split; [by apply (acc_small _ Ha)|by apply (acc_main _ Ha)].
  - destruct Hb as [?|(j & v & Hj & ?)]; [by left|]. right. exists j, v. split; [|done].
    destruct (contents_write k (set_uses n) s s' (acc_ok _ Ha) eq_refl) as [_ ->]; done.
Qed.

Section account.
Context {K : Type} (hash_one : K -> Z).

Lemma remove_healthy k (s : St) : healthy s -> healthy (remove hash_one k s).2.
Proof.
  intros [Ha Hb]. unfold remove. destruct (buckets_get (hash_one k) (buckets s)) as [b|] eqn:Hv; [|done]. simpl.
  set (key := hash_one k) in *. set (s' := set_buckets _ _). pose proof (total_bounds _ Ha) as Hbd.
  pose proof (weight_in_queue _ _ _ Ha Hv) as Hle. pose proof (acc_weight _ Ha _ _ Hv) as Hwb.
  destruct (agree_remove key s s' (acc_ok _ Ha) eq_refl) as (Hok & Hag & Hv').
  assert (weigh s key = weight b /\ weigh s' key = 0) as [Hw Hw'] by (unfold weigh, view; unfold view in Hv'; by rewrite Hv, Hv').
  pose proof (acc_small _ Ha _ _ Hv) as Hcs. pose proof (acc_main _ Ha _ _ Hv) as Hcm.
  assert (small (queues s') = small (queues s) /\ main (queues s') = main (queues s) /\
    small_weight (queues s') = small_weight (queues s) - (if queue b then 0 else weight b) /\
    main_weight (queues s') = main_weight (queues s) - (if queue b then weight b else 0)) as (Hs & Hm & Hsw & Hmw).
  { unfold s'. destruct (queue b); simpl; rewrite wsub_small; try lia; repeat split; lia. }
  assert (total s' = total s - weight b) as Ht by (unfold total; rewrite Hsw, Hmw; destruct (queue b); lia).
  assert (limit s' = limit s /\ share s' = share s) as [Hl Hsh].
  { unfold limit, share, small_weight_limit, s'. by destruct (queue b). }
  split.
  - apply (accounts_change key s); rewrite ?Hs, ?Hm; try done; [congruence|..].
    + rewrite Hw, Hw', Hcs, Hsw. destruct (queue b); lia.
    + rewrite Hw, Hw', Hcm, Hmw. destruct (queue b); lia.
    + pose proof (acc_room _ Ha). lia.
  - unfold bounded. rewrite Ht, Hl, Hsh. destruct Hb as [?|(j & v & Hj & Hlt)]; [left; lia|].
    destruct (decide (j = key)) as [->|Hne].
    + left. unfold contents, view in Hj. rewrite Hv in Hj. injection Hj as <-. simpl in Hlt. lia.
    + right. exists j, v. split; [|lia]. unfold contents. by rewrite Hag.
Qed.

(** What the account asks of an operation: weights of 16 bits, and no key put again
    while a queue has it from before its removal. *)
Definition admissible (op : @Op K) (s : St) : Prop :=
  match op with OpPut k _ w _ => 0 < w < 65536 /\ fresh (hash_one k) s | _ => True end.

Inductive runs : list Op -> St -> St -> Prop :=
| runs_none s : runs [] s s
| runs_more op ops s r s1 s2 : admissible op s -> exec_op hash_one op s = Some (r, s1) -> runs ops s1 s2 -> runs (op :: ops) s s2.

Lemma exec_op_limit op (s : St) r s' : exec_op hash_one op s = Some (r, s') -> limit s' = limit s.
Proof.
  destruct op as [k|k|k d w []]; simpl.
  - unfold get. destruct (buckets_get _ _); intros [= <- <-]; done.
  - unfold remove. destruct (buckets_get _ _) as [b|]; intros [= <- <-]; [|done]. unfold limit. simpl. by destruct (queue b).
  - unfold force_put. destruct (admit_item _ _ _ _ _ _) as [[out s1]|] eqn:Hr; [|done]. simpl. intros [= <- <-]. by eapply admit_limit.
  - unfold put. destruct (admit_item _ _ _ _ _ _) as [[out s1]|] eqn:Hr; [|done]. simpl. intros [= <- <-]. by eapply admit_limit.
Qed.

Lemma exec_op_healthy op (s : St) r s' :
  healthy s -> roomy s -> admissible op s -> exec_op hash_one op s = Some (r, s') -> healthy s'.
Proof.
  intros Hh Hroom Hadm. destruct op as [k|k|k d w []]; simpl in *.
  - unfold get. destruct (buckets_get (hash_one k) (buckets s)) as [b|] eqn:Hv; intros [= <- <-]; [|done]. by eapply uses_account.
  - destruct (remove hash_one k s) as [v s1] eqn:Hr. intros [= <- <-]. pose proof (remove_healthy k s Hh) as Hh'. by rewrite Hr in Hh'.
  - unfold force_put. destruct Hadm. destruct (admit_item _ _ _ _ _ _) as [[out s1]|] eqn:Hr; [|done]. simpl. intros [= <- <-].
    by eapply admit_healthy.
  - unfold put. destruct Hadm. destruct (admit_item _ _ _ _ _ _) as [[out s1]|] eqn:Hr; [|done]. simpl. intros [= <- <-].
    by eapply admit_healthy.
Qed.

(** A cache as it is made. *)
Definition started (s : St) : Prop :=
  buckets_ok (buckets s) /\ (forall k, view s k = None) /\ exists lim l, queues s = queues_new lim l.

(** The account of TinyUFO.  As long as no key is put again while a queue still
    has it from before its removal: every stored key is in the queue its bucket
    names, once, and not in the other; the two weights are exactly the sums over
    the queues; and the total weight is within the limit, or all items but one
    weigh less than the tenth of the limit that is the small queue's share. *)
Theorem ufo_accounting ops (s s' : St) :
  started s -> roomy s -> runs ops s s' -> accounts s' /\ bounded s'.
Proof.
  intros (Hok & Hnone & lim & l & Hq) Hroom Hruns. assert (healthy s) as Hh.
  { split; [|left; unfold total; rewrite Hq; simpl; destruct Hroom; lia].
    split; try (intros k b; by rewrite Hnone); unfold total; rewrite ?Hq; done. }
  clear Hok Hnone lim l Hq. revert Hh Hroom. induction Hruns as [s|op ops s r s1 s2 Hadm Hop _ IH]; [done|]. intros Hh Hroom.
  apply IH; [by eapply exec_op_healthy|]. pose proof (exec_op_limit _ _ _ _ Hop) as Hl. unfold roomy, share, small_weight_limit in *.
  unfold limit in *. by rewrite Hl.
Qed.
End account.

End ufo.

(** ** Runs *)

Definition test_hash (key : Z) (row : nat) : Z := key + Z.of_nat row.

Definition ufo (lim : Z) : @TinyUfo (gmap Z) Z nat := ufo_new (fun _ => 16) (fun _ => 2) id lim 5.

(** The first test of the crate: items leave the small queue oldest first. *)
Definition filled : list (@Op Z Z) := [OpPut 1 10 1 false; OpPut 2 20 2 false; OpPut 3 30 2 false; OpGet 3; OpPut 4 40 3 false].

Example evict_from_small_run :
  (fst <$> exec_ops test_hash id filled (ufo 5)) =
  Some [ROut []; ROut []; ROut []; RValue (Some 30); ROut [MkKV 1 10 1; MkKV 2 20 2]].
Proof. vm_compute. reflexivity. Qed.

Lemma ufo_refines_witness :
  exists rs s', exec_ops test_hash id filled (ufo 5) = Some (rs, s') /\ abs_steps id filled rs (contents (ufo 5)) (contents s').
Proof.
  destruct (exec_ops test_hash id filled (ufo 5)) as [[rs s']|] eqn:He; [|by vm_compute in He].
  exists rs, s'. split; [done|]. by apply (ufo_refines test_hash id filled (ufo 5)).
Defined.

Lemma ufo_usable lim : usable (ufo lim).
Proof.
  split; [split; [done|]|].
  - intros k b. unfold view. simpl. by rewrite lookup_empty.
  - unfold rows_ok. simpl. by repeat constructor.
Qed.

Lemma ufo_returns_witness : exists rs s', exec_ops test_hash id filled (ufo 5) = Some (rs, s') /\ usable s'.
Proof. apply (ufo_returns test_hash id filled (ufo 5)); [apply ufo_usable|repeat constructor; simpl; lia]. Defined.

Lemma ufo_accounting_witness :
  exists s', runs test_hash id [OpPut 1 10 1 false; OpRemove 1; OpPut 2 20 7 false] (ufo 5) s' /\ accounts s' /\ bounded s'.
Proof.
  eexists. match goal with |- runs _ _ ?ops _ ?s /\ _ => assert (runs test_hash id ops (ufo 5) s) as Hr end.
  - eapply runs_more; [split; [lia|intros _ [Hin|Hin]; by apply not_elem_of_nil in Hin]|vm_compute; reflexivity|].
    eapply runs_more; [exact I|vm_compute; reflexivity|].
    eapply runs_more; [split; [lia|intros _ [Hin|Hin]]|vm_compute; reflexivity|apply runs_none].
    + simpl in Hin. by apply list_elem_of_singleton in Hin.
    + by apply not_elem_of_nil in Hin.
  - split; [exact Hr|]. eapply (ufo_accounting test_hash id _ (ufo 5)); [| |exact Hr].
    + split; [done|]. split; [intros k; apply lookup_empty|by eexists _, _].
    + vm_compute. split; intros [=].
Defined.

(** A key put again after its removal is in the small queue twice; its weight is
    taken from the small queue once for each.  The small queue then counts nothing
    for the item it has, and when that is removed its weight passes below zero: the
    next sum of the two weights overflows. *)
Definition readmitted : list (@Op Z Z) :=
  [OpPut 1 10 1 false; OpRemove 1; OpPut 1 10 1 false; OpGet 1; OpGet 1; OpPut 2 20 4 false; OpPut 3 30 1 true].

Example readmitted_key_miscounted :
  (fun r => let q := queues (snd r) in (small q, small_weight q, (main q, main_weight q)))
    <$> exec_ops test_hash id readmitted (ufo 5) = Some ([3], 0, ([1; 1], 2)) /\
  (fun r => let q := queues (snd r) in (small_weight q, usize_mod <=? small_weight q + main_weight q))
    <$> exec_ops test_hash id (readmitted ++ [OpRemove 3]) (ufo 5) = Some (usize_max, true).
Proof. vm_compute. done. Qed.

(** The limit does not hold for a heavy item. *)
Example heavy_item_over_limit :
  (fun r => total (snd r)) <$> exec_ops test_hash id [OpPut 1 10 9 false] (ufo 5) = Some 9.
Proof. vm_compute. reflexivity. Qed.
