(* ===== verification/MemoryCache.v ===== *)
(** * The memory cache and its read-through front

    The crate [src/pingora-memory-cache]: values with a time to live over a store
    such as TinyUFO ([lib.rs]), and [RTCache], which fills the cache by lookups that
    tasks asking for the same key wait for ([read_through.rs]).

    [MemoryCache] uses its store through an interface, [NodeStore].  A task of
    [RTCache] is a state machine whose steps end where another task may come in:
    at an access to the cache, at a section under the lock of the table, and at
    every [await], where its future may also be dropped.  A lookup of the
    application ends with any result.  A permit of the semaphore is given back as
    soon as it is there, so that waiting is until there is one.  Time is in
    nanoseconds since some start. *)

From stdpp Require Import base list numbers gmap option strings.
From Stdlib Require Import ZArith Lia.
From S2P Require Import Prelude Errors.
Local Open Scope Z_scope.

(** ** The store *)

(** What is asked of a store of nodes by 64-bit keys.  It may take two keys for the
    same ([st_same]), and it may let nodes go when it stores another. *)
Class NodeStore (S N : Type) := {
  st_ok : S -> Prop;
  st_items : S -> Z -> option N;
  st_same : Z -> Z -> Prop;
  st_get : Z -> S -> option N * S;
  st_put : bool -> Z -> N -> Z -> S -> option S;
  st_remove : Z -> S -> S;
  st_get_law k s : st_ok s ->
    st_ok (st_get k s).2 /\ (st_get k s).1 = st_items s k /\ forall j, st_items (st_get k s).2 j = st_items s j;
  st_put_law force k n w s : st_ok s -> 0 < w < 65536 -> exists s', st_put force k n w s = Some s' /\ st_ok s' /\
    forall j m, st_items s' j = Some m -> st_same j k /\ m = n \/ st_items s j = Some m;
  st_remove_law k s : st_ok s ->
    st_ok (st_remove k s) /\ st_items (st_remove k s) k = None /\
    forall j m, st_items (st_remove k s) j = Some m -> st_items s j = Some m
}.

Module Memory.

Inductive CacheStatus := Hit | Miss | Expired | LockHit | Stale (d : Z).

Definition as_str (s : CacheStatus) : string :=
  match s with Hit => "hit" | Miss => "miss" | Expired => "expired" | LockHit => "lock_hit" | Stale _ => "stale" end.
Definition is_hit (s : CacheStatus) : bool :=
  match s with Hit | LockHit | Stale _ => true | Miss | Expired => false end.
Definition stale (s : CacheStatus) : option Z := match s with Stale time => Some time | _ => None end.

Record Node (T : Type) := MkNode { value : T; expire_on : option Z }.
#[global] Arguments MkNode {T}.
#[global] Arguments value {T}.
#[global] Arguments expire_on {T}.

Section cache.
Context {T K S : Type} `{NS : NodeStore S (Node T)}.
(** The hash of a key by the cache's [RandomState], and the last instant there is. *)
Context (hasher : K -> Z) (instant_max : Z).

Definition checked_add_instant (now ttl : Z) : option Z :=
  if now + ttl <=? instant_max then Some (now + ttl) else None.

Definition node_new (now : Z) (v : T) (ttl : option Z) : Node T :=
  MkNode v match ttl with Some t => checked_add_instant now t | None => None end.

Definition stale_duration (n : Node T) (time : Z) : option Z :=
  expire_time ← expire_on n; if expire_time <=? time then Some (time - expire_time) else None.
Definition will_expire_at (n : Node T) (time : Z) : bool :=
  match stale_duration n time with Some _ => true | None => false end.
Definition is_expired (now : Z) (n : Node T) : bool := will_expire_at n now.

Definition mc_get (now : Z) (key : K) (s : S) : option T * CacheStatus * S :=
  let '(n, s) := st_get (hasher key) s in
  match n with
  | Some n => if negb (is_expired now n) then (Some (value n), Hit, s) else (None, Expired, s)
  | None => (None, Miss, s)
  end.

Definition mc_get_stale (now : Z) (key : K) (s : S) : option T * CacheStatus * S :=
  let '(n, s) := st_get (hasher key) s in
  match n with
  | Some n =>
      match stale_duration n now with
      | Some d => (Some (value n), Stale d, s)
      | None => (Some (value n), Hit, s)
      end
  | None => (None, Miss, s)
  end.

(** [put] and [force_put]; the weight is always 1. *)
Definition store_node (force : bool) (now : Z) (key : K) (v : T) (ttl : option Z) (s : S) : option S :=
  match ttl with
  | Some 0 => Some s
  | _ => st_put force (hasher key) (node_new now v ttl) 1 s
  end.
Definition mc_put := store_node false.
Definition mc_force_put := store_node true.

Definition mc_remove (key : K) (s : S) : S := st_remove (hasher key) s.

Fixpoint mc_multi_get (now : Z) (keys : list K) (s : S) : list (option T * CacheStatus) * S :=
  match keys with
  | [] => ([], s)
  | key :: keys =>
      let '(lookup, status, s) := mc_get now key s in
      let '(resp, s) := mc_multi_get now keys s in ((lookup, status) :: resp, s)
  end.

Fixpoint mc_multi_get_with_miss (now : Z) (keys : list K) (s : S) : list (option T * CacheStatus) * list K * S :=
  match keys with
  | [] => ([], [], s)
  | key :: keys =>
      let '(lookup, status, s) := mc_get now key s in
      let '(resp, missed, s) := mc_multi_get_with_miss now keys s in
      ((lookup, status) :: resp, match lookup with None => key :: missed | Some _ => missed end, s)
  end.

(** ** The read-through cache *)

Record CacheLock := MkCacheLock { permits : Z; lock_start : Z }.

(** What tasks share; locks are addresses, [looked_up] has every value a lookup
    returned. *)
Record Shared := MkShared {
  inner : S;
  lockers : gmap Z nat;
  locks : list CacheLock;
  now : Z;
  looked_up : list (K * T)
}.
Definition set_inner (i : S) (sh : Shared) : Shared := MkShared i (lockers sh) (locks sh) (now sh) (looked_up sh).
Definition set_lockers (l : gmap Z nat) (sh : Shared) : Shared := MkShared (inner sh) l (locks sh) (now sh) (looked_up sh).
Definition set_locks (l : list CacheLock) (sh : Shared) : Shared := MkShared (inner sh) (lockers sh) l (now sh) (looked_up sh).
Definition add_looked_up (x : K * T) (sh : Shared) : Shared :=
  MkShared (inner sh) (lockers sh) (locks sh) (now sh) (x :: looked_up sh).

(** [RTCache]'s settings. *)
Context (lock_age lock_timeout : option Z).

Definition too_old (age : option Z) (l : CacheLock) (now : Z) : bool :=
  match age with Some t => t <? now - lock_start l | None => false end.

Definition LOOKUP_ERR_MSG : string := "RTCache: lookup error".
Definition lookup_error (e : Cause) : Error := set_cause e (new (Errors.Custom LOOKUP_ERR_MSG)).

(** What a call of [get] comes to. *)
Definition Answer : Type := (T + Error) * CacheStatus.

(** Where a task is in [get]. *)
Inductive Pc :=
| PBegin                                      (** about to ask the cache *)
| PReadLockers (st : CacheStatus)             (** missed, about to read the table *)
| PWriteLockers (st : CacheStatus)            (** no lock seen, about to write it *)
| PCheckPermits (st : CacheStatus) (l : nat)  (** to wait for another's lookup *)
| PAcquire (st : CacheStatus) (l : nat)       (** waiting *)
| PReread (l : nat)                           (** waited, about to ask the cache again *)
| PLookup (st : CacheStatus) (guard : option nat) (put : bool)
    (** in a lookup, with its guard, and whether to store *)
| PStore (v : T) (ttl : option Z) (st : CacheStatus) (guard : option nat)
    (** the lookup returned, about to store *)
| PWake (l : nat) (a : option Answer)         (** dropping the guard: about to wake waiters *)
| PUnlock (l : nat) (a : option Answer)       (** dropping the guard: about to remove the lock *)
| PDone (a : option Answer).                  (** answered, or dropped *)

Record Task := MkTask { task_key : K; task_ttl : option Z; pc : Pc }.
Definition set_pc (p : Pc) (t : Task) : Task := MkTask (task_key t) (task_ttl t) p.

Inductive Event :=
| EvStep                                      (** the task goes on by itself *)
| EvLookup (r : (T * option Z) + Cause)       (** its lookup ends *)
| EvTimeout                                   (** its wait takes too long *)
| EvDrop.                                     (** its future is dropped *)

(** The end of [get] with an answer, or of its future: a guard is dropped. *)
Definition leave (guard : option nat) (a : option Answer) : Pc :=
  match guard with Some l => PWake l a | None => PDone a end.

(** What to do about the lock another task left in the table. *)
Definition found_lock (st : CacheStatus) (l : nat) (lock : CacheLock) (now : Z) : Pc :=
  if too_old lock_age lock now then PLookup st None false else PCheckPermits st l.

Definition task_step (ev : Event) (t : Task) (sh : Shared) : option (Task * Shared) :=
  let key := task_key t in
  let hashed_key := hasher key in
  match pc t, ev with
  | PBegin, EvStep =>
      let '(result, cache_state, i) := mc_get (now sh) key (inner sh) in
      let sh := set_inner i sh in
      Some (set_pc match result with
                   | Some v => PDone (Some (inl v, cache_state))
                   | None => PReadLockers cache_state
                   end t, sh)
  | PReadLockers st, EvStep =>
      match lockers sh !! hashed_key with
      | Some l => lock ← locks sh !! l; Some (set_pc (found_lock st l lock (now sh)) t, sh)
      | None => Some (set_pc (PWriteLockers st) t, sh)
      end
  | PWriteLockers st, EvStep =>
      match lockers sh !! hashed_key with
      | Some l => lock ← locks sh !! l; Some (set_pc (found_lock st l lock (now sh)) t, sh)
      | None =>
          let l := length (locks sh) in
          let sh := set_locks (locks sh ++ [MkCacheLock 0 (now sh)]) sh in
          Some (set_pc (PLookup st (Some l) true) t, set_lockers (<[hashed_key := l]> (lockers sh)) sh)
      end
  | PCheckPermits st l, EvStep =>
      lock ← locks sh !! l;
      Some (set_pc (if permits lock =? 0 then PAcquire st l else PReread l) t, sh)
  | PAcquire st l, EvStep =>
      lock ← locks sh !! l;
      if 0 <? permits lock then Some (set_pc (PReread l) t, sh) else None
  | PAcquire st l, EvTimeout =>
      match lock_timeout with
      | Some _ => Some (set_pc (PLookup st None false) t, sh)
      | None => None
      end
  | PReread l, EvStep =>
      let '(result, cache_state, i) := mc_get (now sh) key (inner sh) in
      let sh := set_inner i sh in
      Some (set_pc match result with
                   | Some v => PDone (Some (inl v, LockHit))
                   | None => PLookup cache_state None true
                   end t, sh)
  | PLookup st guard put, EvLookup (inl (v, new_ttl)) =>
      let sh := add_looked_up (key, v) sh in
      if put then Some (set_pc (PStore v (match new_ttl with Some _ => new_ttl | None => task_ttl t end) st guard) t, sh)
      else Some (set_pc (leave guard (Some (inl v, st))) t, sh)
  | PLookup st guard put, EvLookup (inr e) =>
      Some (set_pc (leave guard (Some (inr (lookup_error e), st))) t, sh)
  | PStore v ttl st guard, EvStep =>
      i ← mc_force_put (now sh) key v ttl (inner sh);
      Some (set_pc (leave guard (Some (inl v, st))) t, set_inner i sh)
  | PWake l a, EvStep =>
      lock ← locks sh !! l;
      Some (set_pc (PUnlock l a) t, set_locks (<[l := MkCacheLock (permits lock + 10) (lock_start lock)]> (locks sh)) sh)
  | PUnlock l a, EvStep =>
      Some (set_pc (PDone a) t,
            if bool_decide (lockers sh !! hashed_key = Some l) then set_lockers (delete hashed_key (lockers sh)) sh else sh)
  | PBegin, EvDrop | PAcquire _ _, EvDrop => Some (set_pc (PDone None) t, sh)
  | PLookup _ guard _, EvDrop => Some (set_pc (leave guard None) t, sh)
  | _, _ => None
  end.

(** ** All tasks *)

Record System := MkSystem { tasks : list Task; shared : Shared }.

Inductive Action :=
| ASpawn (key : K) (ttl : option Z)           (** [get] is called *)
| ATask (i : nat) (ev : Event)
| ATick (d : Z).                              (** time passes *)

Definition act (a : Action) (s : System) : option System :=
  match a with
  | ASpawn key ttl => Some (MkSystem (tasks s ++ [MkTask key ttl PBegin]) (shared s))
  | ATask i ev =>
      t ← tasks s !! i;
      '(t, sh) ← task_step ev t (shared s);
      Some (MkSystem (<[i := t]> (tasks s)) sh)
  | ATick d =>
      let sh := shared s in
      if 0 <=? d then Some (MkSystem (tasks s) (MkShared (inner sh) (lockers sh) (locks sh) (now sh + d) (looked_up sh)))
      else None
  end.

Fixpoint acts (l : list Action) (s : System) : option System :=
  match l with [] => Some s | a :: l => s ← act a s; acts l s end.

Definition rt_new (i : S) (start : Z) : System := MkSystem [] (MkShared i ∅ [] start []).

(** ** Around [get] *)

(** The first part of [get_stale]: an answer, or a call of [get]. *)
Definition get_stale_first (now : Z) (key : K) (stale_ttl : Z) (s : S) : option Answer * S :=
  let '(result, status, s) := mc_get_stale now key s in
  (match result with
   | Some v => if default 0 (stale status) <=? stale_ttl then Some (inl v, status) else None
   | None => None
   end, s).

(** [get_stale_while_update] also looks up in the background after these. *)
Definition refreshes (a : Answer) : bool := match stale a.2 with Some _ => true | None => false end.

(** [multi_get] with one reading of the clock; [None] is its assertion. *)
Fixpoint put_misses (now : Z) (ttl : option Z) (l : list (K * (T * option Z))) (s : S) : option S :=
  match l with
  | [] => Some s
  | (key, (v, t)) :: l => s ← mc_force_put now key v (match t with Some _ => t | None => ttl end) s; put_misses now ttl l s
  end.

Fixpoint fill_in (hits : list (option T * CacheStatus)) (misses : list (T * option Z)) : option (list (T * CacheStatus)) :=
  match hits with
  | [] => Some []
  | (Some v, st) :: hits => rest ← fill_in hits misses; Some ((v, st) :: rest)
  | (None, _) :: hits =>
      match misses with
      | (v, _) :: misses => rest ← fill_in hits misses; Some ((v, Miss) :: rest)
      | [] => None
      end
  end.

Definition rt_multi_get (multi_lookup : list K -> list (T * option Z) + Cause) (now : Z) (ttl : option Z) (keys : list K) (s : S)
  : option ((list (T * CacheStatus) + Error) * S) :=
  let '(hits, misses, s) := mc_multi_get_with_miss now keys s in
  match misses with
  | [] => results ← fill_in hits []; Some (inl results, s)
  | _ =>
      match multi_lookup misses with
      | inl miss_results =>
          if bool_decide (length miss_results = length misses) then
            s ← put_misses now ttl (zip misses miss_results) s;
            results ← fill_in hits miss_results; Some (inl results, s)
          else None
      | inr e => Some (inr (lookup_error e), s)
      end
  end.

End cache.
End Memory.
