(* ===== verification/MemoryCacheSpec.v ===== *)
(** * What the memory cache answers

    TinyUFO is a store for it; in every order of steps, with lookups that end in any
    way, time-outs and dropped futures: one lookup per key at a time is the one
    others wait for, no lock outlives its owner and no task waits for ever, and a
    value answered is one that was looked up. *)

From stdpp Require Import base list numbers gmap option strings.
From Stdlib Require Import ZArith Lia.
From S2P Require Import Prelude Errors TinyUfo TinyUfoSpec MemoryCache.
Import Memory.
Local Open Scope Z_scope.

(** ** TinyUFO as a store *)

Section ufo_store.
Context {D : Type -> Type} `{DF : FMap D, DL : !∀ A, Lookup Z A (D A), DE : !∀ A, Empty (D A)}.
Context `{DP : !∀ A, PartialAlter Z A (D A), DO : !OMap D, DM : !Merge D, DFo : !∀ A, MapFold Z A (D A)} `{FM : !FinMap Z D}.
Context {N H : Type} (hash : Z -> H -> Z) (hash_one : Z -> Z).

Definition ufo_put (force : bool) (k : Z) (n : N) (w : Z) (s : @Ufo.TinyUfo D N H) : option (@Ufo.TinyUfo D N H) :=
  snd <$> (if force then Ufo.force_put hash hash_one k n w s else Ufo.put hash hash_one k n w s).

#[export, refine] Instance ufo_store : NodeStore (@Ufo.TinyUfo D N H) N := {
  st_ok := usable;
  st_items s k := fst <$> contents s (hash_one k);
  st_same j k := hash_one j = hash_one k;
  st_get := Ufo.get hash_one;
  st_put := ufo_put;
  st_remove k s := (Ufo.remove hash_one k s).2
}.
Proof.
  - intros k s Hs. destruct (exec_op_returns hash hash_one (OpGet k) s Hs I) as (r & s' & Hr & Hs').
    pose proof (exec_op_abs hash hash_one (OpGet k) s r s' (proj1 (proj1 Hs)) Hr) as [_ Habs]. simpl in Hr.
    destruct (Ufo.get hash_one k s) as [v s1]. injection Hr as <- <-. destruct Habs as [Hv Hsame]. simpl.
    split_and!; [done..|]. intros j. by rewrite Hsame.
  - intros force k n w s Hs Hw.
    destruct (exec_op_returns hash hash_one (OpPut k n w force) s Hs (proj1 Hw)) as (r & s' & Hr & Hs').
    pose proof (exec_op_abs hash hash_one (OpPut k n w force) s r s' (proj1 (proj1 Hs)) Hr) as [_ Habs].
    exists s'. split; [|split; [done|]].
    + unfold ufo_put. destruct force; simpl in Hr;
        (destruct (Ufo.force_put _ _ _ _ _ _) as [[out s1]|] || destruct (Ufo.put _ _ _ _ _ _) as [[out s1]|]); simpl in *; congruence.
    + destruct r as [v|out]; [done|]. destruct Habs as [(_ & _ & Hc) _]. intros j m. rewrite Hc. case_decide; [done|].
      case_decide as Hj; [|auto]. simpl. intros [= <-]. by left.
  - intros k s Hs. destruct (exec_op_returns hash hash_one (OpRemove k) s Hs I) as (r & s' & Hr & Hs').
    pose proof (exec_op_abs hash hash_one (OpRemove k) s r s' (proj1 (proj1 Hs)) Hr) as [_ Habs]. simpl in Hr.
    destruct (Ufo.remove hash_one k s) as [v s1]. injection Hr as <- <-. destruct Habs as [Hv Hc]. simpl.
    split_and!; [done| |].
    + by rewrite Hc, decide_True.
    + intros j m. rewrite Hc. by case_decide.
Defined.
End ufo_store.

Section rt.
Context {T K S : Type} `{NS : NodeStore S (Node T)}.
Context (hasher : K -> Z) (instant_max : Z) (lock_age lock_timeout : option Z).
Abbreviation Sys := (@System T K S).
Abbreviation Tk := (@Task T K).
Abbreviation Sh := (@Shared T K S).
Abbreviation step := (task_step hasher instant_max lock_age lock_timeout).
Abbreviation actions := (acts hasher instant_max lock_age lock_timeout).

(** ** Locks and their owners *)

(** The lock a task owns; the lock whose waiters it has still to wake; the lock it
    waits for. *)
Definition guards (p : @Pc T) : option nat :=
  match p with
  | PLookup _ guard _ | PStore _ _ _ guard => guard
  | PWake l _ | PUnlock l _ => Some l
  | _ => None
  end.
Definition wakes (p : @Pc T) : option nat := match p with PUnlock _ _ => None | _ => guards p end.
Definition waits (p : @Pc T) : option nat :=
  match p with PCheckPermits _ l | PAcquire _ l | PReread l => Some l | _ => None end.

Record locks_ok (ts : list Tk) (sh : Sh) : Prop := {
  lk_guard i t l : ts !! i = Some t -> guards (pc t) = Some l -> lockers sh !! hasher (task_key t) = Some l;
  lk_unique i j t u l : ts !! i = Some t -> ts !! j = Some u -> guards (pc t) = Some l -> guards (pc u) = Some l -> i = j;
  lk_owner h l : lockers sh !! h = Some l ->
    exists i t, ts !! i = Some t /\ guards (pc t) = Some l /\ hasher (task_key t) = h;
  lk_range h l : lockers sh !! h = Some l -> (l < length (locks sh))%nat;
  lk_waits i t l : ts !! i = Some t -> waits (pc t) = Some l -> (l < length (locks sh))%nat;
  lk_permits l lock : locks sh !! l = Some lock ->
    0 <= permits lock /\ (permits lock = 0 -> exists i t, ts !! i = Some t /\ wakes (pc t) = Some l)
}.

(** What is at a place of an updated list. *)
Lemma insert_inv {A} (l : list A) i a j b :
  <[i := a]> l !! j = Some b -> (j = i /\ b = a) \/ (j <> i /\ l !! j = Some b).
Proof. intros H. apply list_lookup_insert_Some in H as [(-> & -> & _)|[? ?]]; auto. Qed.

(** A place where something holds is still there after an update that keeps it. *)
Lemma insert_keeps {A} (P : A -> Prop) (l : list A) i a b :
  l !! i = Some a -> (P a -> P b) -> (exists j c, l !! j = Some c /\ P c) ->
  exists j c, <[i := b]> l !! j = Some c /\ P c.
Proof.
  intros Hi Hab (j & c & Hj & Hc). destruct (decide (i = j)) as [<-|Hne].
  - exists i, b. split; [apply list_lookup_insert_eq; by eapply lookup_lt_Some|]. apply Hab. by simplify_eq.
  - exists j, c. by rewrite list_lookup_insert_ne.
Qed.

(** A step that leaves the table and the locks alone. *)
Lemma locks_same ts sh sh' i (t t' : Tk) :
  locks_ok ts sh -> ts !! i = Some t -> lockers sh' = lockers sh -> locks sh' = locks sh ->
  task_key t' = task_key t -> guards (pc t') = guards (pc t) -> wakes (pc t') = wakes (pc t) ->
  (forall l, waits (pc t') = Some l -> (l < length (locks sh))%nat) -> locks_ok (<[i := t']> ts) sh'.
Proof.
  intros Hl Hi Hls Hlk Hk Hg Hw Hwait. split; rewrite ?Hls, ?Hlk.
  - intros j u l Hj Hgu. apply insert_inv in Hj as [[-> ->]|[Hne Hj]]; [|by eapply (lk_guard _ _ Hl)].
    rewrite Hk. eapply (lk_guard _ _ Hl); [done|]. by rewrite <- Hg.
  - intros j1 j2 u1 u2 l H1 H2 Hg1 Hg2.
    apply insert_inv in H1 as [[-> ->]|[Hne1 H1]]; apply insert_inv in H2 as [[-> ->]|[Hne2 H2]]; [done| | |].
    + rewrite Hg in Hg1. by eapply (lk_unique _ _ Hl).
    + rewrite Hg in Hg2. by eapply (lk_unique _ _ Hl).
    + by eapply (lk_unique _ _ Hl).
  - intros h l Hh. destruct (lk_owner _ _ Hl h l Hh) as (j & u & Hj & Hu).
    eapply (insert_keeps (fun u => guards (pc u) = Some l /\ hasher (task_key u) = h)); [exact Hi| |eauto].
    by rewrite Hg, Hk.
  - apply (lk_range _ _ Hl).
  - intros j u l Hj Hu. apply insert_inv in Hj as [[-> ->]|[Hne Hj]]; [by apply Hwait|by eapply (lk_waits _ _ Hl)].
  - intros l lock Hlock. destruct (lk_permits _ _ Hl l lock Hlock) as [Hp Hz]. split; [done|]. intros H0.
    eapply (insert_keeps (fun u => wakes (pc u) = Some l)); [exact Hi|by rewrite Hw|]. by apply Hz.
Qed.

(** A task gets a new lock. *)
Lemma locks_new ts sh sh' i (t t' : Tk) :
  locks_ok ts sh -> ts !! i = Some t -> lockers sh !! hasher (task_key t) = None ->
  lockers sh' = <[hasher (task_key t) := length (locks sh)]> (lockers sh) ->
  (exists start, locks sh' = locks sh ++ [MkCacheLock 0 start]) ->
  task_key t' = task_key t -> guards (pc t) = None -> guards (pc t') = Some (length (locks sh)) ->
  wakes (pc t') = Some (length (locks sh)) -> waits (pc t') = None -> locks_ok (<[i := t']> ts) sh'.
Proof.
  intros Hl Hi Hnone Hls (start & Hlk) Hk Hg Hg' Hw' Hwait. set (new := length (locks sh)) in *.
  assert (length (locks sh') = new + 1)%nat as Hlen by (rewrite Hlk, length_app; simpl; lia).
  assert (forall j u, ts !! j = Some u -> guards (pc u) <> Some new) as Hold.
  { intros j u Hj Hgu. pose proof (lk_guard _ _ Hl _ _ _ Hj Hgu) as Hin. pose proof (lk_range _ _ Hl _ _ Hin). lia. }
  split.
  - intros j u l Hj Hgu. rewrite Hls. apply insert_inv in Hj as [[-> ->]|[Hne Hj]].
    + rewrite Hk, lookup_insert_eq. congruence.
    + pose proof (lk_guard _ _ Hl _ _ _ Hj Hgu) as Hin. rewrite lookup_insert_ne; [done|]. intros Heq. congruence.
  - intros j1 j2 u1 u2 l H1 H2 Hg1 Hg2.
    apply insert_inv in H1 as [[-> ->]|[Hne1 H1]]; apply insert_inv in H2 as [[-> ->]|[Hne2 H2]]; [done| | |].
    + rewrite Hg' in Hg1. injection Hg1 as <-. by apply (Hold j2 u2) in H2.
    + rewrite Hg' in Hg2. injection Hg2 as <-. by apply (Hold j1 u1) in H1.
    + by eapply (lk_unique _ _ Hl).
  - intros h l. rewrite Hls. intros [[<- <-]|[Hne Hh]]%lookup_insert_Some.
    + exists i, t'. split; [apply list_lookup_insert_eq; by eapply lookup_lt_Some|]. by rewrite Hk.
    + destruct (lk_owner _ _ Hl h l Hh) as (j & u & Hj & Hu & Hhu).
      eapply (insert_keeps (fun u => guards (pc u) = Some l /\ hasher (task_key u) = h)); [exact Hi|by rewrite Hg; intros []|eauto].
  - intros h l. rewrite Hls, Hlen. intros [[<- <-]|[Hne Hh]]%lookup_insert_Some; [lia|]. pose proof (lk_range _ _ Hl _ _ Hh). lia.
  - intros j u l Hj Hu. rewrite Hlen. apply insert_inv in Hj as [[-> ->]|[Hne Hj]]; [congruence|].
    pose proof (lk_waits _ _ Hl _ _ _ Hj Hu). lia.
  - intros l lock. rewrite Hlk. intros [Hlock|[Hge Hlock]]%lookup_app_Some.
    + destruct (lk_permits _ _ Hl l lock Hlock) as [Hp Hz]. split; [done|]. intros H0.
      eapply (insert_keeps (fun u => wakes (pc u) = Some l)); [exact Hi| |by apply Hz].
      intros Hwt. exfalso. destruct (pc t); simpl in *; congruence.
    + apply list_lookup_singleton_Some in Hlock as [Hz <-]. simpl. split; [done|]. intros _. exists i, t'.
      split; [apply list_lookup_insert_eq; by eapply lookup_lt_Some|]. rewrite Hw'. f_equal. unfold new. lia.
Qed.

(** The owner wakes the waiters of its lock. *)
Lemma locks_wake ts sh sh' i (t t' : Tk) l lock a :
  locks_ok ts sh -> ts !! i = Some t -> pc t = PWake l a -> locks sh !! l = Some lock ->
  lockers sh' = lockers sh -> locks sh' = <[l := MkCacheLock (permits lock + 10) (lock_start lock)]> (locks sh) ->
  t' = set_pc (PUnlock l a) t -> locks_ok (<[i := t']> ts) sh'.
Proof.
  intros Hl Hi Hpc Hlock Hls Hlk ->. assert (length (locks sh') = length (locks sh)) as Hlen by (by rewrite Hlk, length_insert).
  assert (guards (pc t) = Some l) as Hg by by rewrite Hpc.
  destruct (locks_same ts sh sh i t (set_pc (PLookup Miss (Some l) true) t) Hl Hi eq_refl eq_refl eq_refl) as [H1 H2 H3 H4 H5 _];
    try done; try (by rewrite Hpc).
  assert (forall j u, <[i := set_pc (PUnlock l a) t]> ts !! j = Some u -> exists u', <[i := set_pc (PLookup Miss (Some l) true) t]> ts !! j = Some u' /\
    guards (pc u') = guards (pc u) /\ task_key u' = task_key u /\ waits (pc u') = waits (pc u)) as Hsim.
  { intros j u Hj. apply insert_inv in Hj as [[-> ->]|[Hne Hj]].
    - eexists. split; [apply list_lookup_insert_eq; by eapply lookup_lt_Some|]. done.
    - exists u. by rewrite list_lookup_insert_ne. }
  split; rewrite ?Hls, ?Hlen.
  - intros j u l' Hj Hgu. destruct (Hsim j u Hj) as (u' & Hj' & Hgg & Hkk & _).
    rewrite <- Hkk. eapply H1; [exact Hj'|]. by rewrite Hgg.
  - intros j1 j2 u1 u2 l' Hj1 Hj2 Hg1 Hg2. destruct (Hsim _ _ Hj1) as (v1 & Hv1 & He1 & _). destruct (Hsim _ _ Hj2) as (v2 & Hv2 & He2 & _).
    eapply H2; [exact Hv1|exact Hv2|by rewrite He1|by rewrite He2].
  - intros h l' Hh. destruct (lk_owner _ _ Hl h l' Hh) as (j & u & Hj & Hu & Hhu).
    eapply (insert_keeps (fun u => guards (pc u) = Some l' /\ hasher (task_key u) = h)); [exact Hi|by rewrite Hg|eauto].
  - apply (lk_range _ _ Hl).
  - intros j u l' Hj Hu. destruct (Hsim j u Hj) as (u' & Hj' & _ & _ & Hwu). eapply H5; [exact Hj'|]. by rewrite Hwu.
  - intros l' lock'. rewrite Hlk. intros [(<- & <- & _)|[Hne Hl']]%list_lookup_insert_Some.
    + simpl. destruct (lk_permits _ _ Hl l lock Hlock). split; [lia|]. lia.
    + destruct (lk_permits _ _ Hl l' lock' Hl') as [Hp Hz]. split; [done|]. intros H0.
      eapply (insert_keeps (fun u => wakes (pc u) = Some l')); [exact Hi| |by apply Hz]. rewrite Hpc. simpl. congruence.
Qed.

(** The owner takes its lock out of the table. *)
Lemma locks_unlock ts sh sh' i (t t' : Tk) l a :
  locks_ok ts sh -> ts !! i = Some t -> pc t = PUnlock l a ->
  lockers sh' = delete (hasher (task_key t)) (lockers sh) -> locks sh' = locks sh ->
  t' = set_pc (PDone a) t -> locks_ok (<[i := t']> ts) sh'.
Proof.
  intros Hl Hi Hpc Hls Hlk ->. assert (guards (pc t) = Some l) as Hg by by rewrite Hpc.
  pose proof (lk_guard _ _ Hl _ _ _ Hi Hg) as Hin. split; rewrite ?Hls, ?Hlk.
  - intros j u l' Hj Hgu. apply insert_inv in Hj as [[-> ->]|[Hne Hj]]; [done|].
    pose proof (lk_guard _ _ Hl _ _ _ Hj Hgu) as Hin'. rewrite lookup_delete_ne; [done|]. intros Heq. apply Hne.
    eapply (lk_unique _ _ Hl); [exact Hj|exact Hi|exact Hgu|]. congruence.
  - intros j1 j2 u1 u2 l' H1 H2 Hg1 Hg2.
    apply insert_inv in H1 as [[-> ->]|[Hne1 H1]]; [done|]. apply insert_inv in H2 as [[-> ->]|[Hne2 H2]]; [done|].
    by eapply (lk_unique _ _ Hl).
  - intros h l' [Hne Hh]%lookup_delete_Some. destruct (lk_owner _ _ Hl h l' Hh) as (j & u & Hj & Hu & Hhu).
    exists j, u. rewrite list_lookup_insert_ne; [done|]. intros <-. congruence.
  - intros h l' [_ Hh]%lookup_delete_Some. by apply (lk_range _ _ Hl h).
  - intros j u l' Hj Hu. apply insert_inv in Hj as [[-> ->]|[Hne Hj]]; [done|]. by eapply (lk_waits _ _ Hl).
  - intros l' lock' Hl'. destruct (lk_permits _ _ Hl l' lock' Hl') as [Hp Hz]. split; [done|]. intros H0.
    eapply (insert_keeps (fun u => wakes (pc u) = Some l')); [exact Hi|by rewrite Hpc|]. by apply Hz.
Qed.

Lemma leave_guards g (a : option (@Answer T)) : guards (leave g a) = g /\ wakes (leave g a) = g /\ waits (leave g a) = None.
Proof. by destruct g. Qed.

Lemma found_lock_pc st l lock (time : Z) :
  let p := @found_lock T lock_age st l lock time in guards p = None /\ wakes p = None /\ forall l', waits p = Some l' -> l' = l.
Proof. unfold found_lock. destruct (too_old _ _ _); simpl; split_and!; try done. by intros l' [= ->]. Qed.

Lemma mc_get_alone (time : Z) key (s : S) r st s' : st_ok s -> mc_get hasher time key s = (r, st, s') ->
  st_ok s' /\ (forall j, st_items s' j = st_items s j) /\
  forall v, r = Some v -> exists n, st_items s (hasher key) = Some n /\ value n = v /\ is_expired time n = false.
Proof.
  intros Hs. unfold mc_get. destruct (st_get_law (hasher key) s Hs) as (Hok & Hv & Hsame).
  destruct (st_get (hasher key) s) as [n s1]. simpl in *. subst n. destruct (st_items s (hasher key)) as [n|]; [|by intros [= <- _ <-]].
  destruct (is_expired time n) eqn:He; intros [= <- _ <-]; split_and!; try done. intros v [= <-]. eauto.
Qed.

Lemma step_locks ts sh i (t : Tk) ev t' sh' :
  locks_ok ts sh -> ts !! i = Some t -> step ev t sh = Some (t', sh') -> locks_ok (<[i := t']> ts) sh'.
Proof.
  intros Hl Hi.
  assert (forall sh1 p, lockers sh1 = lockers sh -> locks sh1 = locks sh -> guards p = guards (pc t) -> wakes p = wakes (pc t) ->
    (forall l, waits p = Some l -> (l < length (locks sh))%nat) -> locks_ok (<[i := set_pc p t]> ts) sh1) as Hsame.
  { intros sh1 p H1 H2 H3 H4 H5. by apply (locks_same ts sh sh1 i t). }
  assert (forall sh1 g a, lockers sh1 = lockers sh -> locks sh1 = locks sh -> guards (pc t) = g -> wakes (pc t) = g ->
    locks_ok (<[i := set_pc (leave g a) t]> ts) sh1) as Hleave.
  { intros sh1 g a H1 H2 <- H4. destruct (leave_guards (guards (pc t)) a) as (Hg & Hw & Hn).
    apply Hsame; [done..|by rewrite Hw|by rewrite Hn]. }
  assert (forall st l lock, lockers sh !! hasher (task_key t) = Some l -> guards (pc t) = None ->
    locks_ok (<[i := set_pc (found_lock lock_age st l lock (now sh)) t]> ts) sh) as Hfound.
  { intros st l lock Hh Hg. destruct (found_lock_pc st l lock (now sh)) as (H1 & H2 & H3).
    apply Hsame; [done..|by rewrite H1|rewrite H2; destruct (pc t); simpl in *; congruence|].
    intros l' ->%H3. by eapply (lk_range _ _ Hl). }
  pose proof (lk_waits _ _ Hl i t) as Hwaits.
  unfold task_step. destruct (pc t) as [|st|st|st l|st l|l|st g put|v ttl st g|l a|l a|a] eqn:Hpc, ev as [|[[v0 ttl0]|e]| |]; try done.
  - destruct (mc_get _ _ _ _) as [[[v|] st] s1]; intros [= <- <-]; by apply Hsame.
  - intros [= <- <-]. by apply Hsame.
  - destruct (lockers sh !! _) as [l|] eqn:Hh; [|intros [= <- <-]; by apply Hsame].
    destruct (locks sh !! l) as [lock|]; [|done]. simpl. intros [= <- <-]. by apply Hfound.
  - destruct (lockers sh !! _) as [l|] eqn:Hh.
    + destruct (locks sh !! l) as [lock|]; [|done]. simpl. intros [= <- <-]. by apply Hfound.
    + intros [= <- <-]. eapply (locks_new ts sh _ i t); simpl; try done; [by eexists|by rewrite Hpc].
  - destruct (locks sh !! l) as [lock|]; [|done]. simpl. intros [= <- <-].
    apply Hsame; destruct (permits lock =? 0); simpl; try done; intros l' [= <-]; by apply Hwaits.
  - destruct (locks sh !! l) as [lock|]; [|done]. simpl. destruct (0 <? permits lock); [|done]. intros [= <- <-].
    apply Hsame; try done. intros l' [= <-]. by apply Hwaits.
  - destruct lock_timeout; [|done]. intros [= <- <-]. by apply Hsame.
  - intros [= <- <-]. by apply Hsame.
  - destruct (mc_get _ _ _ _) as [[[v|] st] s1]; intros [= <- <-]; by apply Hsame.
  - destruct put; intros [= <- <-]; [by apply Hsame|by apply Hleave].
  - intros [= <- <-]. by apply Hleave.
  - intros [= <- <-]. by apply Hleave.
  - destruct (mc_force_put _ _ _ _ _ _ _) as [s1|]; [|done]. simpl. intros [= <- <-]. by apply Hleave.
  - destruct (locks sh !! l) as [lock|] eqn:Hlock; [|done]. simpl. intros [= <- <-]. by eapply (locks_wake ts sh _ i t).
  - assert (lockers sh !! hasher (task_key t) = Some l) as Hin by (eapply (lk_guard _ _ Hl); [exact Hi|by rewrite Hpc]).
    rewrite bool_decide_true by done. intros [= <- <-]. by eapply (locks_unlock ts sh _ i t).
Qed.

(** ** Where values come from *)

Definition answer_value (a : option (@Answer T)) : option T := match a with Some (inl v, _) => Some v | _ => None end.
Definition answers (p : @Pc T) : option T :=
  match p with PStore v _ _ _ => Some v | PWake _ a | PUnlock _ a | PDone a => answer_value a | _ => None end.

(** [v] was looked up for [key], or for a key the store takes for it. *)
Definition told (looked : list (K * T)) (key : K) (v : T) : Prop :=
  exists key', (key', v) ∈ looked /\ (key' = key \/ st_same (hasher key) (hasher key')).

Record values_ok (ts : list Tk) (sh : Sh) : Prop := {
  va_store : st_ok (inner sh);
  va_items j n : st_items (inner sh) j = Some n ->
    exists key, (key, value n) ∈ looked_up sh /\ st_same j (hasher key);
  va_told i t v : ts !! i = Some t -> answers (pc t) = Some v -> told (looked_up sh) (task_key t) v;
  va_put i t v ttl st g : ts !! i = Some t -> pc t = PStore v ttl st g -> (task_key t, v) ∈ looked_up sh
}.

(** A step that only adds to what was looked up. *)
Lemma values_same ts sh sh' i (t : Tk) p :
  values_ok ts sh -> ts !! i = Some t -> st_ok (inner sh') -> (forall j, st_items (inner sh') j = st_items (inner sh) j) ->
  looked_up sh ⊆ looked_up sh' ->
  (forall v, answers p = Some v -> told (looked_up sh') (task_key t) v) ->
  (forall v ttl st g, p = PStore v ttl st g -> (task_key t, v) ∈ looked_up sh') ->
  values_ok (<[i := set_pc p t]> ts) sh'.
Proof.
  intros Hv Hi Hok Hsame Hsub Htold Hput. split; [done| | |].
  - intros j n. rewrite Hsame. intros Hj. destruct (va_items _ _ Hv j n Hj) as (key & ? & ?). exists key. auto.
  - intros j u v Hj Hu. apply insert_inv in Hj as [[-> ->]|[Hne Hj]]; [by apply Htold|].
    destruct (va_told _ _ Hv j u v Hj Hu) as (key & ? & ?). exists key. auto.
  - intros j u v ttl st g Hj Hu. apply insert_inv in Hj as [[-> ->]|[Hne Hj]]; [by eapply Hput|]. by eapply Hsub, (va_put _ _ Hv).
Qed.

Lemma leave_answers g a : @answers (leave g a) = answer_value a /\ forall v ttl st g', leave g a <> PStore v ttl st g'.
Proof. by destruct g. Qed.

Lemma force_put_values (time : Z) key v ttl (s : S) :
  st_ok s -> exists s', mc_force_put hasher instant_max time key v ttl s = Some s' /\ st_ok s' /\
    forall j n, st_items s' j = Some n -> st_same j (hasher key) /\ value n = v \/ st_items s j = Some n.
Proof.
  intros Hs. unfold mc_force_put, store_node.
  assert (forall n, value n = v -> exists s', st_put true (hasher key) n 1 s = Some s' /\ st_ok s' /\
    forall j m, st_items s' j = Some m -> st_same j (hasher key) /\ value m = v \/ st_items s j = Some m) as Hput.
  { intros n Hn. destruct (st_put_law true (hasher key) n 1 s Hs ltac:(lia)) as (s' & -> & Hok & Hitems). exists s'. split_and!; [done..|].
    intros j m Hm. destruct (Hitems j m Hm) as [[? ->]|]; auto. }
  destruct ttl as [[|z|z]|]; [by exists s; auto|by apply Hput..].
Qed.

Lemma step_values ts sh i (t : Tk) ev t' sh' :
  values_ok ts sh -> ts !! i = Some t -> step ev t sh = Some (t', sh') -> values_ok (<[i := t']> ts) sh'.
Proof.
  intros Hv Hi. pose proof (va_store _ _ Hv) as Hok.
  assert (forall p, (forall v, answers p = Some v -> told (looked_up sh) (task_key t) v) -> (forall v ttl st g, p <> PStore v ttl st g) ->
    values_ok (<[i := set_pc p t]> ts) sh) as Hsame.
  { intros p Ha Hn. apply (values_same ts sh); try done. intros v ttl st g Hp. by apply Hn in Hp. }
  assert (forall r st s1, mc_get hasher (now sh) (task_key t) (inner sh) = (r, st, s1) -> forall p,
    (forall v, answers p = Some v -> r = Some v) -> (forall v ttl st g, p <> PStore v ttl st g) ->
    values_ok (<[i := set_pc p t]> ts) (set_inner s1 sh)) as Hget.
  { intros r st s1 Hr p Ha Hn. apply mc_get_alone in Hr as (Hok1 & Hit & Hr); [|done].
    apply (values_same ts sh); try done; [|intros v ttl st0 g Hp; by apply Hn in Hp].
    intros v Hav. destruct (Hr v (Ha v Hav)) as (n & Hn1 & <- & _). destruct (va_items _ _ Hv _ _ Hn1) as (key & ? & ?).
    exists key. auto. }
  unfold task_step. destruct (pc t) as [|st|st|st l|st l|l|st g put|v ttl st g|l a|l a|a] eqn:Hpc, ev as [|[[v0 ttl0]|e]| |]; try done.
  - destruct (mc_get _ _ _ _) as [[[v|] st] s1]; intros [= <- <-]; by eapply (Hget _ _ _ eq_refl).
  - intros [= <- <-]. by apply Hsame.
  - destruct (lockers sh !! _) as [l|]; [|intros [= <- <-]; by apply Hsame].
    destruct (locks sh !! l) as [lock|]; [|done]. simpl. intros [= <- <-]. apply Hsame; unfold found_lock; by destruct (too_old _ _ _).
  - destruct (lockers sh !! _) as [l|].
    + destruct (locks sh !! l) as [lock|]; [|done]. simpl. intros [= <- <-]. apply Hsame; unfold found_lock; by destruct (too_old _ _ _).
    + intros [= <- <-]. by apply (values_same ts sh).
  - destruct (locks sh !! l) as [lock|]; [|done]. simpl. intros [= <- <-]. apply Hsame; by destruct (permits lock =? 0).
  - destruct (locks sh !! l) as [lock|]; [|done]. simpl. destruct (0 <? permits lock); [|done]. intros [= <- <-]. by apply Hsame.
  - destruct lock_timeout; [|done]. intros [= <- <-]. by apply Hsame.
  - intros [= <- <-]. by apply Hsame.
  - destruct (mc_get _ _ _ _) as [[[v|] st] s1]; intros [= <- <-]; by eapply (Hget _ _ _ eq_refl).
  - assert ((task_key t, v0) ∈ (task_key t, v0) :: looked_up sh) as Hin by left.
    assert (forall v, Some v0 = Some v -> told ((task_key t, v0) :: looked_up sh) (task_key t) v) as Htold.
    { intros v [= <-]. exists (task_key t). auto. }
    destruct put; intros [= <- <-]; apply (values_same ts sh); try done; try (by intros x Hx; right).
    + by intros v ttl st0 g0 [= <- _ _ _].
    + destruct (leave_answers g (Some (inl v0, st))) as [-> _]. done.
    + intros v ttl st0 g0 Hp. by apply leave_answers in Hp.
  - intros [= <- <-]. apply Hsame; [|apply leave_answers]. by destruct (leave_answers g (Some (inr (lookup_error e), st))) as [-> _].
  - intros [= <- <-]. apply Hsame; [|apply leave_answers]. by destruct (leave_answers g None) as [-> _].
  - destruct (force_put_values (now sh) (task_key t) v ttl (inner sh) Hok) as (s1 & -> & Hok1 & Hit). simpl. intros [= <- <-].
    pose proof (va_put _ _ Hv _ _ _ _ _ _ Hi Hpc) as Hin.
    destruct (Hsame (leave g (Some (inl v, st)))) as [_ _ Htold Hput]; [|apply leave_answers|].
    { destruct (leave_answers g (Some (inl v, st))) as [-> _]. intros v' [= <-]. exists (task_key t). auto. }
    split; [done| |done|done]. simpl. intros j n Hj. destruct (Hit j n Hj) as [[Hs <-]|Hj']; [by exists (task_key t)|].
    by apply (va_items _ _ Hv).
  - destruct (locks sh !! l) as [lock|]; [|done]. simpl. intros [= <- <-]. apply (values_same ts sh); try done.
    intros v Hav. eapply (va_told _ _ Hv); [exact Hi|]. by rewrite Hpc.
  - intros [= <- <-]. apply (values_same ts sh); try done; try (by destruct (bool_decide _)).
    intros v Hav. destruct (va_told _ _ Hv _ _ v Hi) as (key & Hk); [by rewrite Hpc|]. exists key. by destruct (bool_decide _).
Qed.

(** ** Every system *)

Definition system_ok (s : Sys) : Prop := locks_ok (tasks s) (shared s) /\ values_ok (tasks s) (shared s).

Lemma act_ok a (s s' : Sys) : system_ok s -> act hasher instant_max lock_age lock_timeout a s = Some s' -> system_ok s'.
Proof.
  intros [Hl Hv]. destruct a as [key ttl|i ev|d]; simpl.
  - intros [= <-]. simpl.
    assert (forall i t, (tasks s ++ [MkTask key ttl PBegin]) !! i = Some t ->
      tasks s !! i = Some t \/ pc t = PBegin) as Hnew.
    { intros i t [Hi|[_ Hi]]%lookup_app_Some; [by left|]. apply list_lookup_singleton_Some in Hi as [_ <-]. by right. }
    assert (forall i t, tasks s !! i = Some t -> (tasks s ++ [MkTask key ttl PBegin]) !! i = Some t) as Hold.
    { intros i t Hi. by apply lookup_app_l_Some. }
    split; split; simpl.
    + intros i t l [Hi| ->]%Hnew; [by apply (lk_guard _ _ Hl i)|done].
    + intros i j t u l [Hi|Hp]%Hnew [Hj|Hq]%Hnew; rewrite ?Hp, ?Hq; try done. by apply (lk_unique _ _ Hl).
    + intros h l Hh. destruct (lk_owner _ _ Hl h l Hh) as (i & t & Hi & ?). exists i, t. split; [by apply Hold|done].
    + apply (lk_range _ _ Hl).
    + intros i t l [Hi| ->]%Hnew; [by apply (lk_waits _ _ Hl i)|done].
    + intros l lock Hk. destruct (lk_permits _ _ Hl l lock Hk) as [Hp Hz]. split; [done|]. intros H0.
      destruct (Hz H0) as (i & t & Hi & ?). exists i, t. split; [by apply Hold|done].
    + apply Hv.
    + apply (va_items _ _ Hv).
    + intros i t v [Hi| ->]%Hnew; [by apply (va_told _ _ Hv i)|done].
    + intros i t v ttl' st g [Hi| ->]%Hnew; [by apply (va_put _ _ Hv i)|done].
  - destruct (tasks s !! i) as [t|] eqn:Hi; [|done]. simpl.
    destruct (task_step _ _ _ _ _ _ _) as [[t' sh']|] eqn:Hs; [|done]. simpl. intros [= <-].
    split; [by eapply step_locks|by eapply step_values].
  - destruct (0 <=? d); [|done]. intros [= <-]. split; split; by (apply Hl || apply Hv).
Qed.

Lemma acts_ok l : forall s s' : Sys, system_ok s -> actions l s = Some s' -> system_ok s'.
Proof.
  induction l as [|a l IH]; intros s s' Hs; simpl; [by intros [= <-]|].
  destruct (act _ _ _ _ a s) as [s1|] eqn:Ha; [|done]. simpl. apply IH. by eapply act_ok.
Qed.

Lemma new_ok (i : S) (start : Z) : st_ok i -> (forall k, st_items i k = None) -> system_ok (rt_new i start).
Proof.
  intros Hok Hnone. split; split; simpl; try done.
  - intros j n. by rewrite Hnone.
Qed.

(** A task that can go on by itself, or is in a lookup of the application. *)
Definition alive (t : Tk) (sh : Sh) : Prop :=
  (exists r, step EvStep t sh = Some r) \/ (exists st g put, pc t = PLookup st g put).

Lemma owner_alive (s : Sys) i t l : system_ok s -> tasks s !! i = Some t -> guards (pc t) = Some l -> alive t (shared s).
Proof.
  intros [Hl Hv] Hi Hg. assert (exists lock, locks (shared s) !! l = Some lock) as (lock & Hlock).
  { apply lookup_lt_is_Some. by eapply (lk_range _ _ Hl), (lk_guard _ _ Hl). }
  unfold alive, task_step. destruct (pc t) as [|st|st|st w|st w|w|st g put|v ttl st g|w a|w a|a] eqn:Hpc; simpl in Hg; try done.
  - right. eauto.
  - left. destruct (force_put_values (now (shared s)) (task_key t) v ttl _ (va_store _ _ Hv)) as (s1 & -> & _). simpl. eauto.
  - left. injection Hg as ->. rewrite Hlock. simpl. eauto.
  - left. eauto.
Qed.

(** C36: Lookups are coalesced and nobody waits in vain.  In every order of steps of
    any tasks, with lookups that end in any way, time-outs, and futures dropped in
    the middle of a lookup or of a wait: at most one task per key holds the lock
    that others wait for; a lock is in the table only while a task that owns it is
    still to remove it, so that the table is empty once all tasks have ended; and a
    task that waits can go on, or the owner of its lock can go on or is in its
    lookup. *)
Theorem rt_coalesces l i0 start (s : Sys) :
  st_ok i0 -> (forall k, st_items i0 k = None) -> actions l (rt_new i0 start) = Some s ->
  (forall i j t u a b, tasks s !! i = Some t -> tasks s !! j = Some u -> guards (pc t) = Some a -> guards (pc u) = Some b ->
     hasher (task_key t) = hasher (task_key u) -> i = j) /\
  (forall h w, lockers (shared s) !! h = Some w ->
     exists i t, tasks s !! i = Some t /\ hasher (task_key t) = h /\ guards (pc t) = Some w /\ alive t (shared s)) /\
  ((forall i t, tasks s !! i = Some t -> exists a, pc t = PDone a) -> lockers (shared s) = ∅) /\
  (forall i t st w, tasks s !! i = Some t -> pc t = PAcquire st w ->
     alive t (shared s) \/ exists j u, tasks s !! j = Some u /\ guards (pc u) = Some w /\ alive u (shared s)).
Proof.
  intros Hok Hnone Hacts. pose proof (acts_ok _ _ _ (new_ok i0 start Hok Hnone) Hacts) as Hs. pose proof Hs as [Hl Hv].
  split_and!.
  - intros i j t u a b Hi Hj Ha Hb Heq. eapply (lk_unique _ _ Hl); [exact Hi|exact Hj|exact Ha|].
    pose proof (lk_guard _ _ Hl _ _ _ Hi Ha). pose proof (lk_guard _ _ Hl _ _ _ Hj Hb). congruence.
  - intros h w Hh. destruct (lk_owner _ _ Hl h w Hh) as (i & t & Hi & Hg & Hk). exists i, t. split_and!; try done. by eapply owner_alive.
  - intros Hdone. apply map_empty. intros h. destruct (lockers (shared s) !! h) as [w|] eqn:Hh; [|done]. exfalso.
    destruct (lk_owner _ _ Hl h w Hh) as (i & t & Hi & Hg & _). destruct (Hdone i t Hi) as [a Ha]. by rewrite Ha in Hg.
  - intros i t st w Hi Hpc. destruct (lookup_lt_is_Some_2 (locks (shared s)) w) as (lock & Hlock).
    { eapply (lk_waits _ _ Hl); [exact Hi|by rewrite Hpc]. }
    destruct (lk_permits _ _ Hl w lock Hlock) as [Hp Hz]. destruct (decide (permits lock = 0)) as [H0|Hne].
    + right. destruct (Hz H0) as (j & u & Hj & Hw). assert (guards (pc u) = Some w) as Hg by (by destruct (pc u)).
      exists j, u. split_and!; try done. by eapply owner_alive.
    + left. left. unfold task_step. rewrite Hpc, Hlock. simpl. destruct (Z.ltb_spec 0 (permits lock)); [eauto|lia].
Qed.

(** Values are those looked up.  In every such order, a value that a task
    answers was returned by a lookup of its key, or of a key whose hashes the cache
    and its store cannot tell from it. *)
Theorem rt_answers_looked_up l i0 start (s : Sys) i t v st :
  st_ok i0 -> (forall k, st_items i0 k = None) -> actions l (rt_new i0 start) = Some s ->
  tasks s !! i = Some t -> pc t = PDone (Some (inl v, st)) -> told (looked_up (shared s)) (task_key t) v.
Proof.
  intros Hok Hnone Hacts Hi Hpc. pose proof (acts_ok _ _ _ (new_ok i0 start Hok Hnone) Hacts) as [_ Hv].
  eapply (va_told _ _ Hv); [exact Hi|]. by rewrite Hpc.
Qed.

(** ** Batches *)

Fixpoint missing (hits : list (option T * CacheStatus)) : nat :=
  match hits with [] => 0 | (None, _) :: hits => 1 + missing hits | (Some _, _) :: hits => missing hits end.

Lemma multi_get_misses (time : Z) keys : forall (s : S) resp missed s',
  st_ok s -> mc_multi_get_with_miss hasher time keys s = (resp, missed, s') ->
  st_ok s' /\ length resp = length keys /\ length missed = missing resp.
Proof.
  induction keys as [|key keys IH]; intros s resp missed s' Hs; simpl; [by intros [= <- <- <-]|].
  destruct (mc_get _ _ _ _) as [[r st] s1] eqn:Hr. apply mc_get_alone in Hr as (Hs1 & _); [|done].
  destruct (mc_multi_get_with_miss _ _ _ _) as [[resp1 missed1] s2] eqn:Hm. apply IH in Hm as (Hs2 & Hlen & Hmiss); [|done].
  intros [= <- <- <-]. destruct r as [v|]; simpl; split_and!; try done; by rewrite ?Hlen, ?Hmiss.
Qed.

Lemma put_misses_returns (time : Z) ttl l : forall s : S, st_ok s ->
  exists s', put_misses hasher instant_max time ttl l s = Some s' /\ st_ok s'.
Proof.
  induction l as [|[key [v t]] l IH]; intros s Hs; simpl; [by exists s|].
  destruct (force_put_values time key v (match t with Some _ => t | None => ttl end) s Hs) as (s1 & -> & Hs1 & _). by apply IH.
Qed.

Lemma fill_in_returns (hits : list (option T * CacheStatus)) : forall misses : list (T * option Z),
  length misses = missing hits ->
  exists results, fill_in hits misses = Some results /\ length results = length hits.
Proof.
  induction hits as [|[[v|] st] hits IH]; intros misses; simpl; [by exists []|..].
  - intros Hm. destruct (IH misses Hm) as (rs & -> & Hlen). simpl. eexists. split; [done|]. by rewrite <- Hlen.
  - destruct misses as [|[v t] misses]; [done|]. simpl. intros [= Hm].
    destruct (IH misses Hm) as (rs & -> & Hlen). simpl. eexists. split; [done|]. by rewrite <- Hlen.
Qed.

(** A batch lookup that answers every key asked gives a result for every key; its
    assertion is all that can fail. *)
Lemma multi_get_complete multi_lookup (time : Z) ttl keys (s : S) :
  st_ok s -> (forall asked rs, multi_lookup asked = inl rs -> length rs = length asked) ->
  exists r s', rt_multi_get hasher instant_max multi_lookup time ttl keys s = Some (r, s') /\ st_ok s' /\
    (forall rs, r = inl rs -> length rs = length keys).
Proof.
  intros Hs Hml. unfold rt_multi_get. destruct (mc_multi_get_with_miss _ _ _ _) as [[hits misses] s1] eqn:Hm.
  apply multi_get_misses in Hm as (Hs1 & Hlen & Hmiss); [|done].
  assert (forall ms : list (T * option Z), length ms = length misses -> exists rs, fill_in hits ms = Some rs /\ length rs = length keys) as Hfill.
  { intros ms Hms. rewrite <- Hlen. apply fill_in_returns. congruence. }
  destruct misses as [|m misses].
  - destruct (Hfill [] eq_refl) as (rs & -> & Hrs). simpl. eexists _, _. split_and!; [done..|]. by intros ? [= <-].
  - destruct (multi_lookup (m :: misses)) as [rs|e] eqn:Hr; [|by eexists _, _].
    rewrite bool_decide_true by by apply Hml. destruct (put_misses_returns time ttl (zip (m :: misses) rs) s1 Hs1) as (s2 & -> & Hs2). simpl.
    destruct (Hfill rs (Hml _ _ Hr)) as (out & -> & Hout). simpl. eexists _, _. split_and!; [done..|]. by intros ? [= <-].
Qed.

End rt.

(** ** Runs *)

Definition rt_inner : @Ufo.TinyUfo (gmap Z) (Node Z) nat := Ufo.ufo_new (fun _ => 16) (fun _ => 2) id 5 5.
#[local] Instance rt_store : NodeStore (@Ufo.TinyUfo (gmap Z) (Node Z) nat) (Node Z) := ufo_store test_hash id.

(** Two tasks ask for the key 7: the second waits for the lookup of the first, which
    is dropped; the second then looks up itself. *)
Definition dropped_writer : list (@Action Z Z) :=
  [ASpawn 7 None; ATask 0 EvStep; ATask 0 EvStep; ATask 0 EvStep;
   ASpawn 7 None; ATask 1 EvStep; ATask 1 EvStep; ATask 1 EvStep;
   ATask 0 EvDrop; ATask 0 EvStep; ATask 1 EvStep; ATask 1 EvStep; ATask 0 EvStep;
   ATask 1 (EvLookup (inl (70, Some 100))); ATask 1 EvStep;
   ASpawn 7 None; ATick 99; ATask 2 EvStep].

Definition after_dropped : option (@System Z Z (@Ufo.TinyUfo (gmap Z) (Node Z) nat)) :=
  acts id (2 ^ 62) None (Some 10) dropped_writer (rt_new rt_inner 0).

Lemma rt_inner_ok : st_ok rt_inner /\ forall k, st_items rt_inner k = None.
Proof.
  split; [split; [split; [done|]|]|].
  - intros k b. unfold view. simpl. by rewrite lookup_empty.
  - unfold rows_ok. simpl. by repeat constructor.
  - intros k. simpl. unfold contents, view. simpl. by rewrite lookup_empty.
Qed.

Example dropped_writer_run :
  (fun s => (map pc (tasks s), lockers (shared s))) <$> after_dropped =
  Some ([PDone None; PDone (Some (inl 70, Miss)); PDone (Some (inl 70, Hit))], ∅).
Proof. vm_compute. reflexivity. Qed.

Lemma rt_coalesces_witness :
  match after_dropped with
  | Some s => (forall i t, tasks s !! i = Some t -> exists a, pc t = PDone a) -> lockers (shared s) = ∅
  | None => False
  end.
Proof.
  destruct after_dropped as [s|] eqn:Hs; [|by vm_compute in Hs].
  exact (proj1 (proj2 (proj2 (rt_coalesces id (2 ^ 62) None (Some 10) dropped_writer rt_inner 0 s
    (proj1 rt_inner_ok) (proj2 rt_inner_ok) Hs)))).
Defined.

Lemma rt_answers_looked_up_witness :
  match after_dropped with
  | Some s => told id (looked_up (shared s)) 7 70
  | None => False
  end.
Proof.
  destruct after_dropped as [s|] eqn:Hs; [|by vm_compute in Hs].
  refine (rt_answers_looked_up id (2 ^ 62) None (Some 10) dropped_writer rt_inner 0 s 2 (MkTask 7 None (PDone (Some (inl 70, Hit)))) 70 Hit
    (proj1 rt_inner_ok) (proj2 rt_inner_ok) Hs _ eq_refl).
  unfold after_dropped in Hs. vm_compute in Hs. injection Hs as <-. reflexivity.
Defined.

(** Two calls at the same time can both look up: the second missed the value before
    the first stored it and the lock after the first removed it. *)
Example second_lookup :
  (fun s => (map pc (tasks s), looked_up (shared s))) <$>
    acts id (2 ^ 62) None None
      [ASpawn 7 None; ASpawn 7 None; ATask 0 EvStep; ATask 1 EvStep;
       ATask 0 EvStep; ATask 0 EvStep; ATask 0 (EvLookup (inl (70, None))); ATask 0 EvStep; ATask 0 EvStep; ATask 0 EvStep;
       ATask 1 EvStep; ATask 1 EvStep; ATask 1 (EvLookup (inl (71, None))); ATask 1 EvStep; ATask 1 EvStep; ATask 1 EvStep]
      (rt_new rt_inner 0) =
  Some ([PDone (Some (inl 70, Miss)); PDone (Some (inl 71, Miss))], [(7, 71); (7, 70)]).
Proof. vm_compute. reflexivity. Qed.
